(* ===== verification/_CoqProject ===== *)
-Q . S2P
Prelude.v
Text.v
Segment.v
Json.v
Proto.v
Acceptor.v
Control.v
SegmentWal.v
WalRecovery.v
Proposer.v
Election.v
Lease.v
TailNames.v
Tail.v
Keyed.v
TableOps.v
Buffer.v
TailQuorum.v
TailQuorumInv.v
TailQuorumSafe.v
Freshness.v
Cache.v
CacheRace.v
PlanCache.v
Overwrite.v
OverwriteRows.v
Engine.v
EngineLog.v
Dml.v
Txn.v
TxnView.v
TxnCommit.v
TxnRegistry.v
Authz.v
Branch.v
BranchRefs.v
Maintain.v
MaintainSafe.v
Compact.v
AsOf.v
AsOfRewrite.v
Overlay.v
OverlayView.v
TailApi.v
Peer.v
PeerView.v
PeerWire.v
PeerRegistry.v
FlushRace.v
Flush.v
ExactlyOnce.v
ExactlyOnceInv.v
ExactlyOnceSys.v
GroupSync.v
GroupSyncInv.v
GroupSyncReplay.v
Scenarios.v
ScenariosQuorum.v
ScenariosTail.v
ScenariosLease.v
ScenariosQuorumTail.v
ScenariosBuffer.v
ScenariosOnce.v
ScenariosCache.v
ScenariosPlan.v
ScenariosWorld.v
ScenariosTxn.v
ScenariosBranch.v
ScenariosPeer.v
ScenariosMaintain.v
ScenariosAsOf.v
