(* ===== verification/Prelude.v ===== *)
(** * icegres: verified model of the tail, the write buffer, the quorum, the read caches, the engine, transactions and peers

    icegres serves Iceberg tables over Postgres.  An INSERT's rows are acked
    from a durable tail, are read from a write buffer over the committed snapshot
    and reach Iceberg in the background; UPDATE, DELETE and transactions go
    through a copy-on-write engine that rewrites files and posts a snapshot to
    the catalog (overwrite.rs, dml.rs, txn.rs).  The tail is a local write-ahead log
    (src/icegres/src/tail.rs) or a log replicated over three acceptors
    (src/icegres/src/quorum/, tail_quorum.rs) whose single writer is elected; the
    control plane's leader holds a lease on a log of the same kind (lease.rs).
    Reads go through a cached snapshot, a plan cache and a result cache
    (cache.rs, freshness.rs, plancache.rs).  This library models that code and
    proves what makes it correct.

    ** Files

    - [Prelude]: machine integers, little-endian bytes, the error and state
      monads, crash-free lemmas on lists, the hint database [icegres].
      [Text]: the parts of the Rust standard library's text parsing and printing
      the code uses.  [Json]: serde_json as an interface ([Json], [JsonLaws])
      with one concrete instance.
    - [Segment] (segment.rs): the length/checksum frame, the walk over the
      frames of a file with a torn tail, and [write_atomic] over a directory that
      can crash between any two system calls.
    - [Proto] (quorum/proto.rs): term histories and their divergence point,
      records, the message codec.
    - [Acceptor] (quorum/acceptor.rs): the handlers, over the storage interfaces
      [ControlStore] (the persisted term, history and positions) and [WalStore]
      (the log).  [Control] and [SegmentWal] are the file-backed instances and
      discharge the interfaces' laws; [WalRecovery] is the boot scan after a
      crash.
    - [Proposer], [Election] (quorum/proposer.rs): the writer's shared state and
      rules (commit rule, batching, coverage and retention, submit and wait), and
      the code that talks to the acceptors ([Quorum::open], peer rounds,
      re-election) over the interface [Net].
    - [Lease] (lease.rs): expiry tracking, acquiring and renewing over
      [Proposer] and [Election], the standby/leader loop.
    - [TailNames], [Tail], [GroupSync] (tail.rs): directory names and
      watermarks; statement payloads (over [Arrow], the IPC codec's interface),
      poison markers and the boot scan; staged appends whose fsyncs concurrent
      threads share.  [GroupSyncInv] and [GroupSyncReplay] hold the invariant of
      the latter and follow its bytes through a crash into the boot scan.
    - [TailQuorum] (tail_quorum.rs): the quorum tail store's callers, worker and
      commit tasks over reply channels, on top of [Proposer] and [Election];
      [TailQuorumInv] and [TailQuorumSafe] hold its invariant and theorems.
    - [Keyed] (keyed.rs and the alignment and quoting of overwrite.rs): keys of
      rows, suppression of batches, the rendered delete predicate, over [Columnar]
      (Arrow).
    - [Buffer] (buffer.rs): the write buffer's window: routing, staging, failing
      and claiming statements, snapshots for the flusher, hand-over and
      merge-back, over the tail's interface [TailStore].  [Overlay]: the union
      overlay of a scan.  [OverlayView] and [FlushRace] say what a scan sees and
      what a flush leaves unseen.  [Flush]: flush_table with its retries and
      ambiguous outcomes, flush_now and replay_tail, over the catalog's interface
      [Lake].
    - [ExactlyOnce], [ExactlyOnceInv], [ExactlyOnceSys]: buffer, tail and lake as
      one system of interleaved steps with crashes.
    - [Freshness] (freshness.rs): generations, the registry, a pass of the
      refresher, the supervisor.  [Cache] (cache.rs): loading a table's snapshot,
      stale serving, projections, pinned snapshots; [CacheRace]: scans,
      refreshes and commits of a table interleaved.  [PlanCache] (plancache.rs):
      plan and result caches and the hook that uses them, over DataFusion as an
      interface ([Planner]).
    - [TableOps], [Overwrite] (overwrite.rs): the operations the buffer and the
      transactions hand to the engine, and [prepare_commit]: the fate of every
      live file, the fold of appends through the statements after them, key
      checks, manifests and the request.  [OverwriteRows]: what that does to the
      rows of a table, against operations on rows as the specification.
      [Engine]: the commit loops of autocommit statements and the pinned commits
      of transactions, over the catalog's interface [Catalog].  [EngineLog]: the
      catalog as a log of moves of branch heads, ours and others'.
    - [Dml] (dml.rs): the translation of UPDATE and DELETE, errors on the wire and
      the hook.
    - [Txn] (txn.rs): sessions, pins, buffered operations, reads through the
      session, statements, COMMIT and the hook.  [TxnView]: what a transaction
      sees; [TxnCommit]: what COMMIT does to the catalog's log; [TxnRegistry]:
      sessions of different connections and aborted transactions.
    - [Branch] (branch.rs and the ref operations of overwrite.rs): lineage, fork
      point, comparison and merge planning, and the requests that move refs or
      expire snapshots, over [RefCatalog]; [BranchRefs]: what they do to a log of
      ref moves, ours and others'.
    - [TailApi] (tailapi.rs): the open tail API over the buffer's window and
      events: tickets, wire schema and batches, streams.  [Peer] (peer.rs): the
      mirrors of other writers' tails, their registry and subscriber tasks.
      [PeerView]: what a scan gets of a mirror; [PeerWire]: what survives the
      wire; [PeerRegistry]: one owner per table, silent peers, reconnects.
    - [Maintain] (maintain.rs): orphan removal, over [GcWorld]; [MaintainSafe]:
      what a run may delete.
    - [Authz] (authz.rs): the policy file, memberships, the checks of a statement
      and the test for read-only listeners.  [Compact] (compact.rs): the plan of
      a compaction.  [AsOf] (asof.rs): the AS OF sugar in a statement's text;
      [AsOfRewrite]: what its rewriting does, against a grammar.
    - [Scenarios] and the files whose names start with it: concrete runs that
      apply each theorem or show a defect; [ScenariosWorld] is the concrete
      catalog, SQL and Parquet of [ScenariosTxn].

    ** How the model corresponds to the code

    A Rust function is a function of the same name; a method takes its [self]
    last.  [Result] is [result] (the messages of errors are kept short), a
    function that changes its object and may fail is [stres S A], and every
    partial effect before a failure stays in the state, as in the code; the
    engine's [eng] and the transactions' [txn] are such monads whose errors
    carry what the wire layer makes a sqlstate of ([attempt]), a panic among them
    ([Unwound]).  u64
    arithmetic wraps ([wadd], [wsub]: the release profile leaves overflow checks
    off); [saturating_sub] is the subtraction of [N].  A system call fails when
    the environment says so: an oracle of booleans for a disk, of write outcomes
    for a write, consumed call by call.  Threads are interleaved at their critical
    sections: one step of [GroupSync] is one critical section, or one [sync_data]
    that runs outside the locks; one of [CacheRace] or [PlanCache] a lock of a
    cache or an answer from outside; one of [TailQuorum] a message on a channel or
    a turn of a waiting task.  A loop that waits (for a quorum, a lock, the
    network) takes the list of what wakes it and has no result when the list ends
    too early; the theorems on termination say how much of it is enough.  Loops
    that are not structural carry fuel, with a lemma that the fuel given by their
    caller is enough (file length for the frame walk, one round per peer for
    retention, the chunks of a download, the entries of a cache for an eviction).

    ** Disks and crashes

    [Segment.AtomicWrite] has inodes with written and synced contents, and a
    directory with pending renames; a crash keeps any prefix of the pending
    operations and, of every file, its synced bytes with any tail.  The
    record log's disk ([SegmentWal.wdisk]) keeps for each file what was synced of
    it and which names were synced in the directory; a crash keeps the synced
    prefix followed by any part of the rest, and may lose a name never synced.  A
    deletion is taken to be ordered: a deleted segment does not come back.  The
    local tail's crash ([GroupSyncReplay]) keeps the synced prefix of each
    segment and any bytes after it.  [ExactlyOnceSys] crashes over an ideal tail,
    which [GroupSyncReplay] justifies, and a lake whose commits are atomic; it
    leaves out posts that were applied while their outcome stayed unknown (see
    [ScenariosBuffer] for what they do) and statements without rows.

    ** What is proved

    - The acceptor: an ack means durable bytes at their position; votes are unique
      per term and the tail identity permanent over restarts and storage failures;
      committed bytes are stable under every message; an accepted election adopts
      the proposer's log.
    - Its storage: an acked append survives any crash; the control file is
      replaced all or nothing; frames cut exactly at a torn tail.
    - The proposer: the commit rule is the highest quorum position of the term;
      batches are what the acceptor accepts; the start position agrees with the
      acceptor's; coverage never erases a table's last trace; waiting is bounded
      and errors poison; elections take a most advanced voter and rebuild its log;
      peer rounds and re-election keep the log.
    - The quorum tail store: acked appends are committed records, sequences are
      never reused, every request is answered, replay is exact.
    - The codec: records and messages round-trip, the divergence point is exact.
    - The local tail: an acked statement replays after a crash under every
      interleaving; sequences are never reused; the boot scan recovers what was
      written; names and payloads round-trip; both watermark gates are exact.
    - The write buffer: acked statements are seen exactly once through flushes,
      conflicts, failures, truncations, crashes and replays; a hand-over and a
      conflict's merge-back are invisible to reads; the overlay is the fold of its
      layers; runs in which the code loses, repeats or resurrects a row.
    - The lease: expiry is a quorum frozen for the TTL; leadership is taken over
      only then; a failed renewal leaves a spent proposer.
    - Reads: a scan sees the writes acked before it while a table's loads do not
      overlap (and a run in which overlapping loads break it); a widened
      projection gives back the columns asked for; hits of the plan and result
      caches are as good as running the statement now; the pinned snapshots, the
      result cache and the respawns of the refresher are bounded.

    - The engine: a prepared commit has the rows of the head with the operations
      applied, and the counts told are theirs; an autocommit statement takes
      effect at one point, once; an INSERT under a key leaves the keys unique.
    - Transactions: reads are the pinned rows with the transaction's own
      operations; COMMIT commits on the pinned heads or not at all, several tables
      at once where the catalog can; what each sqlstate says was committed; an
      error aborts the session until it ends, and no other session.
    - Branches: the fork point is the nearest common ancestor on any parent graph;
      a merge moves refs forward only, to heads it required, and at once; a branch
      over all tables is a cut of one moment.
    - Authorization: a statement passes exactly when the lines of the policy file
      grant what it needs; memberships are flattened whatever cycles they have.
      The compaction plan has all partitions worth rewriting and no others.
    - Peers: a mirror's overlay over committed rows is the rows after all
      operations, in whatever order they arrive; an item's wire batch is applied
      as the item; headers and tickets round-trip; a subscription delivers nothing
      twice; a mirror has one owner; silent peers are not served; and runs in
      which a new mirror hides a committed row or cannot be merged.
    - AS OF: the occurrences of the sugar's grammar, and nothing else, are
      rewritten; the gate misses none with white space between the words; a
      timestamp reads the last snapshot of the log not after it.
    - Orphan removal deletes only old artifacts that no metadata it loaded
      records, the last of it loaded after the listing.

    ** Parameters

    crc32 (with the law that it is 32 bits wide), serde_json ([Json]), Arrow's
    IPC streams and columns ([Arrow], [Columnar], with alignment idempotent where
    a theorem needs it), the Iceberg catalog and tables ([Lake],
    [IcebergTable], [Catalog], [RefCatalog], [DataFiles], [ReadProvider]), DataFusion's planner,
    operators and queries over batches ([Planner], [Operator], [SqlEngine],
    [TxnPlanner]), sqlparser's trees, text and relation visitor ([SqlAst],
    [visit_relations]), the object store ([GcWorld]), Arrow's arrays on the wire
    ([WireColumns]), sqlparser's tokenizer with Arrow's timestamp cast ([AsOfLib]), the display of table names, the random id of a new
    snapshot, DNS, the network ([Net]) and the clock.

    ** Not modelled

    Sockets, TLS and gRPC; tokio's scheduling beyond the interleavings above,
    sleeps and backoff; file locks; logging and metrics; of the buffer,
    try_keyed_dml (a read-modify-write through a DataFusion plan), the activation
    cache and the SQL hook; of the peers, the Flight client and its handshake,
    the list of tables and the spawning of tasks; sqlparser's
    recognition of keyed statements; of the engine, tags and
    the raw listing of refs, the settings of file writers, URLs and a test knob
    that forces conflicts; of transactions, the locks COMMIT holds
    against the buffer's keyed path; and the parts of the repository that drive
    DataFusion, Iceberg and Parquet (scans, the rewriting of a compaction, Flight), whose steps are
    library calls. *)
From stdpp Require Export base numbers list option strings gmap.
From Stdlib Require Export NArith Lia.
From Stdlib Require Strings.Byte.

#[global] Open Scope N_scope.
#[global] Set Default Goal Selector "!".

(** ** Machine integers

    A Rust [u64] is an [N] below [2^64].  The release profile of the crate
    leaves overflow checks off, so [+] wraps; [saturating_sub] is the truncated
    subtraction of [N]. *)
Definition u64_modulus : N := 18446744073709551616.
Definition u64_max : N := 18446744073709551615.
Definition u32_modulus : N := 4294967296.
Definition u32_max : N := 4294967295.
Definition wrap64 (n : N) : N := n mod u64_modulus.
Definition wadd (a b : N) : N := wrap64 (a + b).
Definition wsub (a b : N) : N := wrap64 (a + (u64_modulus - wrap64 b)).
Abbreviation is_u64 n := (n < u64_modulus)%N.
Abbreviation is_u32 n := (n < u32_modulus)%N.

Lemma wadd_small a b : is_u64 (a + b) → wadd a b = a + b.
Proof. intros H. apply N.mod_small, H. Qed.

Lemma wadd_bound a b : is_u64 (wadd a b).
Proof. apply N.mod_lt. done. Qed.

Lemma wadd_assoc a b c : wadd (wadd a b) c = wadd a (b + c).
Proof. unfold wadd, wrap64. rewrite N.Div0.add_mod_idemp_l. f_equal. lia. Qed.

Lemma wadd_0 a : is_u64 a → wadd a 0 = a.
Proof. intros. rewrite wadd_small; lia. Qed.

Lemma wsub_small a b : b ≤ a → is_u64 a → wsub a b = a - b.
Proof.
  intros Hle Ha. unfold wsub, wrap64.
  rewrite (N.mod_small b) by (unfold u64_modulus in *; lia).
  replace (a + (u64_modulus - b)) with ((a - b) + 1 * u64_modulus)
    by (unfold u64_modulus in *; lia).
  rewrite N.Div0.mod_add. apply N.mod_small. lia.
Qed.

(** ** Fallible code

    [anyhow::Result]: an error carries the fixed part of its message (the
    interpolated values are dropped).  The instances give stdpp's
    [x ← m; k] notation. *)
Inductive result (A : Type) : Type :=
  | Ok (a : A)
  | Err (msg : string).
Arguments Ok {_} _.
Arguments Err {_} _.

#[export] Instance result_ret : MRet result := @Ok.
#[export] Instance result_bind : MBind result := λ A B f m,
  match m with Ok a => f a | Err e => Err e end.
#[export] Instance result_fmap : FMap result := λ A B f m,
  match m with Ok a => Ok (f a) | Err e => Err e end.

Definition is_ok {A} (r : result A) : bool :=
  match r with Ok _ => true | Err _ => false end.

(** [opt.ok_or_else(|| anyhow!(msg))] *)
Definition ok_or {A} (o : option A) (msg : string) : result A :=
  match o with Some a => Ok a | None => Err msg end.

(** [res.ok()] *)
Definition res_ok {A} (r : result A) : option A :=
  match r with Ok a => Some a | Err _ => None end.

(** [anyhow::ensure!] / [if !c { bail!(msg) }] *)
Definition ensure (c : bool) (msg : string) : result unit :=
  if c then Ok tt else Err msg.

(** A named run and its answer, for the concrete runs. *)
Lemma run_pair {A B} (p : A * B) b : snd p = b → p = (fst p, b).
Proof. destruct p. cbn. congruence. Qed.
Lemma bind_Ok {A B} (m : result A) (f : A → result B) b :
  (x ← m; f x) = Ok b ↔ ∃ a, m = Ok a ∧ f a = Ok b.
Proof.
  split; [|by intros (a & -> & H)].
  destruct m as [a|e]; [by exists a|discriminate].
Qed.

Lemma Ok_inj {A} (a b : A) : Ok a = Ok b → a = b.
Proof. congruence. Qed.

Lemma ensure_Ok c msg u : ensure c msg = Ok u ↔ c = true.
Proof. destruct c, u; simpl; split; congruence. Qed.

Lemma ok_or_Ok {A} (o : option A) msg a : ok_or o msg = Ok a ↔ o = Some a.
Proof. destruct o; simpl; split; congruence. Qed.

(** Code that mutates [&mut self] and may fail: the state reached so far
    survives an error, exactly as it does behind Rust's [?]. *)
Definition stres (S A : Type) : Type := S → S * result A.

Definition st_ret {S A} (a : A) : stres S A := λ s, (s, Ok a).
Definition st_err {S A} (e : string) : stres S A := λ s, (s, Err e).
Definition st_bind {S A B} (m : stres S A) (f : A → stres S B) : stres S B :=
  λ s, match m s with
       | (s', Ok a) => f a s'
       | (s', Err e) => (s', Err e)
       end.
Definition st_get {S} : stres S S := λ s, (s, Ok s).
Definition st_put {S} (s : S) : stres S unit := λ _, (s, Ok tt).
Definition st_lift {S A} (r : result A) : stres S A := λ s, (s, r).

Declare Scope stres_scope.
Delimit Scope stres_scope with stres.
Notation "'let*' x ':=' m 'in' k" := (st_bind m (λ x, k))
  (at level 10, x pattern, m at level 100, k at level 200) : stres_scope.
Notation "m ;;* k" := (st_bind m (λ _, k))
  (at level 100, k at level 200, right associativity) : stres_scope.

(** A run of a composition stops in its first part or goes on. *)
Lemma bind_inv {S A B} (m : stres S A) (f : A → stres S B) s s' r :
  st_bind m f s = (s', r) → (∃ e, m s = (s', Err e) ∧ r = Err e) ∨ ∃ a s1, m s = (s1, Ok a) ∧ f a s1 = (s', r).
Proof. unfold st_bind. destruct (m s) as [s1 [a|e]]; [intros Hr; right; by exists a, s1|intros [= <- <-]; left; by exists e]. Qed.
Lemma st_bind_Ok {S A B} (m : stres S A) (f : A → stres S B) s s' b :
  st_bind m f s = (s', Ok b) ↔ ∃ a s1, m s = (s1, Ok a) ∧ f a s1 = (s', Ok b).
Proof.
  unfold st_bind. split.
  - destruct (m s) as [s1 [a|e]]; [by exists a, s1|by intros [=]].
  - by intros (a & s1 & -> & H).
Qed.

(** ** Bytes and little-endian words *)
Abbreviation byte := Byte.byte.

#[export] Instance byte_eq_dec : EqDecision byte.
Proof. exact Byte.byte_eq_dec. Defined.

Definition byte_of_N (n : N) : byte :=
  match Byte.of_N (n mod 256) with Some b => b | None => Byte.x00 end.

Lemma to_N_byte_of_N n : Byte.to_N (byte_of_N n) = n mod 256.
Proof.
  unfold byte_of_N. destruct (Byte.of_N (n mod 256)) as [b|] eqn:E.
  - by apply Byte.to_of_N in E.
  - apply Byte.of_N_None_iff in E. pose proof (N.mod_lt n 256). lia.
Qed.

Lemma byte_of_N_to_N b : byte_of_N (Byte.to_N b) = b.
Proof.
  unfold byte_of_N. pose proof (Byte.to_N_bounded b).
  rewrite N.mod_small by lia. by rewrite Byte.of_to_N.
Qed.

#[export] Instance byte_countable : Countable byte :=
  inj_countable' Byte.to_N byte_of_N byte_of_N_to_N.

(** [u32::to_le_bytes], [u64::to_le_bytes] ([k] = 4, 8) and their inverses. *)
Fixpoint le_bytes (k : nat) (n : N) : list byte :=
  match k with
  | O => []
  | S k => byte_of_N n :: le_bytes k (n / 256)
  end.

Fixpoint le_val (bs : list byte) : N :=
  match bs with
  | [] => 0
  | b :: bs => Byte.to_N b + 256 * le_val bs
  end.

Lemma length_le_bytes k n : length (le_bytes k n) = k.
Proof. revert n. induction k; intros; simpl; auto. Qed.

Lemma le_val_bytes k n : n < 256 ^ N.of_nat k → le_val (le_bytes k n) = n.
Proof.
  revert n. induction k as [|k IH]; intros n Hn; simpl.
  - simpl in Hn. lia.
  - rewrite to_N_byte_of_N, IH.
    + pose proof (N.div_mod n 256 ltac:(lia)). lia.
    + apply N.Div0.div_lt_upper_bound.
      rewrite <-N.pow_succ_r', <-Nat2N.inj_succ. done.
Qed.

Lemma le_bytes_val bs : le_bytes (length bs) (le_val bs) = bs.
Proof.
  induction bs as [|b bs IH]; simpl; [done|].
  pose proof (Byte.to_N_bounded b).
  f_equal.
  - unfold byte_of_N. rewrite N.mul_comm, N.Div0.mod_add, N.mod_small by lia.
    by rewrite Byte.of_to_N.
  - replace ((Byte.to_N b + 256 * le_val bs) / 256) with (le_val bs); [done|].
    rewrite N.mul_comm, N.div_add by lia. rewrite N.div_small; lia.
Qed.

Lemma le_val_bound bs : le_val bs < 256 ^ N.of_nat (length bs).
Proof.
  induction bs as [|b bs IH]; simpl le_val; simpl length; [done|].
  pose proof (Byte.to_N_bounded b). rewrite Nat2N.inj_succ, N.pow_succ_r'. lia.
Qed.

Abbreviation u32_le n := (le_bytes 4 n).
Abbreviation u64_le n := (le_bytes 8 n).

Lemma le_val_u32 n : is_u32 n → le_val (u32_le n) = n.
Proof. intros. by apply le_val_bytes. Qed.
Lemma le_val_u64 n : is_u64 n → le_val (u64_le n) = n.
Proof. intros. by apply le_val_bytes. Qed.

(** ** Strings

    A Rust [String] is its UTF-8 bytes, held as a Rocq [string] (one [ascii]
    per byte). *)
Abbreviation str_bytes := String.list_byte_of_string.
Abbreviation bytes_str := String.string_of_list_byte.

Lemma bytes_str_bytes s : bytes_str (str_bytes s) = s.
Proof. apply String.string_of_list_byte_of_string. Qed.
Lemma str_bytes_str bs : str_bytes (bytes_str bs) = bs.
Proof. apply String.list_byte_of_string_of_list_byte. Qed.

(** [str::from_utf8]'s acceptance: well-formed UTF-8 (Unicode table 3-7). *)
Definition byte_in (lo hi : N) (b : byte) : bool :=
  (lo <=? Byte.to_N b) && (Byte.to_N b <=? hi).

Fixpoint utf8_valid (bs : list byte) : bool :=
  match bs with
  | [] => true
  | b0 :: r0 =>
    if byte_in 0 127 b0 then utf8_valid r0
    else match r0 with
    | [] => false
    | b1 :: r1 =>
      if byte_in 194 223 b0 then byte_in 128 191 b1 && utf8_valid r1
      else match r1 with
      | [] => false
      | b2 :: r2 =>
        if byte_in 224 239 b0 then
          (if byte_in 224 224 b0 then byte_in 160 191 b1
           else if byte_in 237 237 b0 then byte_in 128 159 b1
           else byte_in 128 191 b1) && byte_in 128 191 b2 && utf8_valid r2
        else match r2 with
        | [] => false
        | b3 :: r3 =>
          byte_in 240 244 b0 &&
          (if byte_in 240 240 b0 then byte_in 144 191 b1
           else if byte_in 244 244 b0 then byte_in 128 143 b1
           else byte_in 128 191 b1) &&
          byte_in 128 191 b2 && byte_in 128 191 b3 && utf8_valid r3
        end
      end
    end
  end.

(** A value a Rust [String] can hold. *)
Definition utf8 (s : string) : bool := utf8_valid (str_bytes s).

(** [str::contains] *)
Fixpoint str_contains (pat s : string) : bool :=
  String.prefix pat s ||
  match s with
  | EmptyString => false
  | String _ s => str_contains pat s
  end.

(** ** Slices *)
(** [&data[from..to]] *)
Definition slice {A} (from to : nat) (l : list A) : list A :=
  take (to - from) (drop from l).

Lemma length_slice {A} from to (l : list A) :
  (to ≤ length l)%nat → length (slice from to l) = (to - from)%nat.
Proof. intros H. unfold slice. rewrite length_take, length_drop. lia. Qed.

Lemma slice_app_mid {A} (l1 l2 l3 : list A) :
  slice (length l1) (length l1 + length l2) (l1 ++ l2 ++ l3) = l2.
Proof.
  unfold slice. rewrite drop_app_length. replace (_ - _)%nat with (length l2) by lia.
  apply take_app_length.
Qed.

Lemma take_add {A} (l : list A) i j : take (i + j) l = take i l ++ take j (drop i l).
Proof.
  rewrite <-(take_drop i (take (i + j) l)). f_equal.
  - rewrite take_take. f_equal. lia.
  - by rewrite skipn_firstn_comm; replace (i + j - i)%nat with j by lia.
Qed.

Lemma take_slice {A} from to (l : list A) :
  (from ≤ to)%nat → take to l = take from l ++ slice from to l.
Proof. intros. unfold slice. rewrite <-take_add. f_equal. lia. Qed.

Abbreviation len n := (N.of_nat (length n)).

(** ** Tactics *)
(** Split a [result] computation that returned [Ok] into its steps. *)
Ltac simp_ok :=
  repeat match goal with
  | H : context [mret _] |- _ => progress unfold mret, result_ret in H
  | H : Ok _ = Ok _ |- _ => injection H as H; subst
  | H : Err _ = Ok _ |- _ => discriminate H
  | H : Ok _ = Err _ |- _ => discriminate H
  | H : (_ ≫= _) = Ok _ |- _ => apply bind_Ok in H as (? & ? & ?)
  | H : ensure _ _ = Ok _ |- _ => apply ensure_Ok in H
  | H : ok_or _ _ = Ok _ |- _ => apply ok_or_Ok in H
  end.

(** Case analysis on the scrutinee of the first [if]/[match] of a hypothesis. *)
Ltac case_in H :=
  match type of H with
  | context [match ?x with _ => _ end] => let E := fresh "E" in destruct x eqn:E
  end.

(** Boolean comparisons of [N] and [nat] as propositions. *)
Ltac bool_prop :=
  repeat match goal with
  | H : (_ <? _) = true |- _ => apply N.ltb_lt in H
  | H : (_ <? _) = false |- _ => apply N.ltb_ge in H
  | H : (_ <=? _) = true |- _ => apply N.leb_le in H
  | H : (_ <=? _) = false |- _ => apply N.leb_gt in H
  | H : (_ =? _) = true |- _ => apply N.eqb_eq in H
  | H : (_ =? _) = false |- _ => apply N.eqb_neq in H
  | H : (_ <? _)%nat = true |- _ => apply Nat.ltb_lt in H
  | H : (_ <? _)%nat = false |- _ => apply Nat.ltb_ge in H
  | H : (_ <=? _)%nat = true |- _ => apply Nat.leb_le in H
  | H : (_ <=? _)%nat = false |- _ => apply Nat.leb_gt in H
  | H : (_ =? _)%nat = true |- _ => apply Nat.eqb_eq in H
  | H : (_ =? _)%nat = false |- _ => apply Nat.eqb_neq in H
  | H : (_ && _) = true |- _ => apply andb_prop in H as [? ?]
  | H : (_ || _) = false |- _ => apply orb_false_elim in H as [? ?]
  | H : negb _ = true |- _ => apply negb_true_iff in H
  | H : negb _ = false |- _ => apply negb_false_iff in H
  end.

Create HintDb icegres.
#[export] Hint Rewrite @length_app @length_le_bytes @length_take @length_drop
  @length_cons @length_nil : icegres.
#[export] Hint Resolve wadd_bound le_val_bound : icegres.
