(* ===== verification/Text.v ===== *)
(** * Text the code parses and prints

    The Rust standard library's [str::trim], [split_whitespace], [parse::<u64>],
    [from_str_radix(_, 16)], [u64::to_string] and [str::split] on the UTF-8 bytes
    of a string. *)
From S2P Require Import Prelude.

(** ** White space *)

(** The width of the [White_Space] character at the head of UTF-8 bytes; 0 is
    none. *)
Definition space_width (bs : list byte) : nat :=
  match map Byte.to_N (take 3 bs) with
  | b :: rest =>
    if (b =? 32) || ((9 <=? b) && (b <=? 13)) then 1%nat else
    match rest with
    | c :: rest =>
      if (b =? 194) && ((c =? 133) || (c =? 160)) then 2%nat else
      match rest with
      | [d] =>
        if ((b =? 225) && (c =? 154) && (d =? 128)) ||
           ((b =? 226) && (c =? 128) &&
             (((128 <=? d) && (d <=? 138)) || (d =? 168) || (d =? 169) || (d =? 175))) ||
           ((b =? 226) && (c =? 129) && (d =? 159)) ||
           ((b =? 227) && (c =? 128) && (d =? 128))
        then 3%nat else 0%nat
      | _ => 0%nat
      end
    | [] => 0%nat
    end
  | [] => 0%nat
  end.

(** The same at the end of a string given backwards. *)
Definition space_width_rev (rs : list byte) : nat :=
  if (space_width (take 1 rs) =? 1)%nat then 1%nat
  else if (space_width (rev (take 2 rs)) =? 2)%nat then 2%nat
  else if (space_width (rev (take 3 rs)) =? 3)%nat then 3%nat else 0%nat.

Fixpoint strip (width : list byte → nat) (fuel : nat) (bs : list byte) : list byte :=
  match fuel with
  | O => bs
  | S fuel =>
    match width bs with
    | O => bs
    | w => strip width fuel (drop w bs)
    end
  end.

(** [str::trim] *)
Definition trim (bs : list byte) : list byte :=
  let bs := strip space_width (length bs) bs in
  rev (strip space_width_rev (length bs) (rev bs)).

(** The longest head without white space, and what follows it. *)
Fixpoint span_word (bs : list byte) : list byte * list byte :=
  match bs with
  | [] => ([], [])
  | b :: bs' =>
    match space_width bs with
    | O => let '(w, rest) := span_word bs' in (b :: w, rest)
    | _ => ([], bs)
    end
  end.

(** [str::split_whitespace] *)
Fixpoint split_whitespace (fuel : nat) (bs : list byte) : list (list byte) :=
  match fuel with
  | O => []
  | S fuel =>
    match strip space_width (length bs) bs with
    | [] => []
    | bs => let '(w, rest) := span_word bs in w :: split_whitespace fuel rest
    end
  end.
Definition words (bs : list byte) : list (list byte) := split_whitespace (S (length bs)) bs.

(** ** Numbers *)

(** [str::parse::<u64>]: an optional [+], at least one digit, no overflow. *)
Definition digit (b : byte) : option N :=
  let n := Byte.to_N b in if (48 <=? n) && (n <=? 57) then Some (n - 48) else None.
Definition hex_digit (b : byte) : option N :=
  let n := Byte.to_N b in
  if (48 <=? n) && (n <=? 57) then Some (n - 48)
  else if (97 <=? n) && (n <=? 102) then Some (n - 87)
  else if (65 <=? n) && (n <=? 70) then Some (n - 55) else None.

Fixpoint parse_radix (dig : byte → option N) (radix max : N) (bs : list byte) (acc : N) : option N :=
  match bs with
  | [] => Some acc
  | b :: bs =>
    match dig b with
    | Some d =>
      let acc := radix * acc + d in
      if max <? acc then None else parse_radix dig radix max bs acc
    | None => None
    end
  end.

Definition from_str_radix (dig : byte → option N) (radix max : N) (bs : list byte) : option N :=
  match bs with
  | [] => None
  | b :: bs' =>
    if Byte.to_N b =? 43 then match bs' with [] => None | _ => parse_radix dig radix max bs' 0 end
    else parse_radix dig radix max bs 0
  end.

Definition parse_u64 (bs : list byte) : option N := from_str_radix digit 10 u64_max bs.
Definition parse_hex_u8 (bs : list byte) : option N := from_str_radix hex_digit 16 255 bs.

(** [u64::to_string]; a [u64] has at most 20 digits. *)
Fixpoint print_digits (fuel : nat) (n : N) (acc : list byte) : list byte :=
  match fuel with
  | O => acc
  | S fuel =>
    let acc := byte_of_N (48 + n mod 10) :: acc in
    if n / 10 =? 0 then acc else print_digits fuel (n / 10) acc
  end.
Definition print_u64 (n : N) : list byte := print_digits 20 n [].

(** ** [str::split] on one byte *)
Fixpoint split_on (sep : byte) (bs : list byte) : list (list byte) :=
  match bs with
  | [] => [[]]
  | b :: bs =>
    if decide (b = sep) then [] :: split_on sep bs
    else match split_on sep bs with
         | w :: ws => (b :: w) :: ws
         | [] => [[b]]
         end
  end.

(** [parts.join(".")] *)
Fixpoint join_with (sep : byte) (ws : list (list byte)) : list byte :=
  match ws with
  | [] => []
  | [w] => w
  | w :: ws => w ++ sep :: join_with sep ws
  end.

(** [str::split_once] *)
Fixpoint split_once (sep : byte) (bs : list byte) : option (list byte * list byte) :=
  match bs with
  | [] => None
  | b :: bs => if decide (b = sep) then Some ([], bs)
               else '(w, rest) ← split_once sep bs; Some (b :: w, rest)
  end.
(** [str::strip_prefix], [str::ends_with], [!str::is_empty] *)
Fixpoint strip_prefix (p bs : list byte) : option (list byte) :=
  match p, bs with
  | [], _ => Some bs
  | c :: p, b :: bs => if decide (b = c) then strip_prefix p bs else None
  | _ :: _, [] => None
  end.
Definition ends_with (suffix bs : list byte) : bool :=
  match strip_prefix (rev suffix) (rev bs) with Some _ => true | None => false end.
Definition nonempty {A} (l : list A) : bool := match l with [] => false | _ => true end.

(** ** Facts *)
Lemma split_on_ne sep bs : split_on sep bs ≠ [].
Proof. destruct bs as [|b bs]; simpl; [done|]. destruct (decide _); [done|]. by destruct (split_on sep bs). Qed.

Lemma split_on_word sep w : sep ∉ w → split_on sep w = [w].
Proof.
  induction w as [|b w IH]; [done|]. intros H. simpl. rewrite decide_False by set_solver.
  rewrite IH; [done|set_solver].
Qed.

Lemma split_on_app sep w bs : sep ∉ w → split_on sep (w ++ sep :: bs) = w :: split_on sep bs.
Proof.
  induction w as [|b w IH]; intros H; simpl; [by rewrite decide_True|].
  rewrite decide_False by set_solver. rewrite IH; [done|set_solver].
Qed.

Lemma split_join sep ws : ws ≠ [] → Forall (λ w, sep ∉ w) ws → split_on sep (join_with sep ws) = ws.
Proof.
  induction ws as [|w ws IH]; [done|]. intros _ [Hw Hws]%Forall_cons.
  destruct ws as [|v ws]; [by apply split_on_word|].
  change (join_with sep (w :: v :: ws)) with (w ++ sep :: join_with sep (v :: ws)).
  rewrite split_on_app by done. by rewrite IH.
Qed.

(** Decimal printing then parsing. *)
Definition val10 (bs : list byte) (acc : N) : N := foldl (λ a b, 10 * a + (Byte.to_N b - 48)) acc bs.

Lemma val10_app bs1 bs2 acc : val10 (bs1 ++ bs2) acc = val10 bs2 (val10 bs1 acc).
Proof. apply foldl_app. Qed.

Lemma val10_ge bs acc : acc ≤ val10 bs acc.
Proof. revert acc. induction bs as [|b bs IH]; intros acc; simpl; [done|]. etrans; [|apply IH]. lia. Qed.

Lemma val10_mono bs acc acc' : acc ≤ acc' → val10 bs acc ≤ val10 bs acc'.
Proof. revert acc acc'. induction bs as [|b bs IH]; intros acc acc' H; simpl; [done|]. apply IH. lia. Qed.

Lemma parse_radix_val bs acc :
  Forall (λ b, 48 ≤ Byte.to_N b ≤ 57) bs → val10 bs acc ≤ u64_max →
  parse_radix digit 10 u64_max bs acc = Some (val10 bs acc).
Proof.
  revert acc. induction bs as [|b bs IH]; intros acc Hd Hv; simpl; [done|].
  apply Forall_cons in Hd as [Hb Hd]. unfold digit.
  rewrite (proj2 (N.leb_le 48 _)), (proj2 (N.leb_le _ 57)) by lia. cbn [andb].
  pose proof (val10_ge bs (10 * acc + (Byte.to_N b - 48))) as Hge. simpl in Hv.
  destruct (u64_max <? 10 * acc + (Byte.to_N b - 48)) eqn:E; bool_prop; [lia|]. by apply IH.
Qed.

Lemma print_digits_spec fuel n acc :
  n < 10 ^ N.of_nat fuel → (0 < fuel)%nat →
  ∃ ds, print_digits fuel n acc = ds ++ acc ∧ ds ≠ [] ∧ val10 ds 0 = n ∧
    Forall (λ b, 48 ≤ Byte.to_N b ≤ 57) ds.
Proof.
  revert n acc. induction fuel as [|fuel IH]; intros n acc Hn Hf; [lia|].
  cbn [print_digits]. set (d := byte_of_N (48 + n mod 10)).
  pose proof (N.mod_lt n 10 ltac:(lia)) as Hm.
  assert (Byte.to_N d = 48 + n mod 10) as Hd.
  { unfold d. rewrite to_N_byte_of_N, N.mod_small; lia. }
  assert (Byte.to_N d - 48 = n mod 10) as Hd' by (rewrite Hd; generalize (n mod 10); lia).
  assert (48 ≤ Byte.to_N d ≤ 57) as Hdr by (rewrite Hd; generalize (n mod 10) Hm; lia).
  pose proof (N.div_mod n 10 ltac:(lia)) as Hdm.
  destruct (n / 10 =? 0) eqn:E; bool_prop.
  - exists [d]. split_and!; [done|done| |].
    + simpl. rewrite Hd'. rewrite E in Hdm. by rewrite Hdm at 2.
    + by constructor.
  - rewrite Nat2N.inj_succ, N.pow_succ_r' in Hn.
    destruct (decide (fuel = 0%nat)) as [->|]; [change (10 ^ N.of_nat 0) with 1 in Hn; rewrite N.div_small in E by lia; done|].
    destruct (IH (n / 10) (d :: acc)) as (ds & Hp & Hne & Hv & Hall); [|lia|].
    { apply N.Div0.div_lt_upper_bound. lia. }
    exists (ds ++ [d]). split_and!.
    + by rewrite Hp, <-app_assoc.
    + by destruct ds.
    + rewrite val10_app, Hv. simpl. rewrite Hd'. by rewrite <-Hdm.
    + apply Forall_app. split; [done|]. by constructor.
Qed.

Lemma print_u64_digits n : is_u64 n →
  Forall (λ b, 48 ≤ Byte.to_N b ≤ 57) (print_u64 n) ∧ print_u64 n ≠ [] ∧ val10 (print_u64 n) 0 = n.
Proof.
  intros Hn. destruct (print_digits_spec 20 n []) as (ds & Hp & Hne & Hv & Hall).
  - eapply N.lt_le_trans; [exact Hn|]. by vm_compute.
  - lia.
  - unfold print_u64. rewrite Hp, app_nil_r. done.
Qed.

Lemma parse_print_u64 n : is_u64 n → parse_u64 (print_u64 n) = Some n.
Proof.
  intros Hn. destruct (print_u64_digits n Hn) as (Hall & Hne & Hv).
  unfold parse_u64, from_str_radix. destruct (print_u64 n) as [|b bs] eqn:E; [done|].
  pose proof (Forall_inv Hall) as Hb. simpl in Hb.
  destruct (Byte.to_N b =? 43) eqn:E43; bool_prop; [lia|].
  rewrite parse_radix_val; [by rewrite Hv|done|]. rewrite Hv. unfold u64_max, u64_modulus in *. lia.
Qed.

(** Digits hold no white space. *)
Lemma digit_space b bs : 48 ≤ Byte.to_N b ≤ 57 → space_width (b :: bs) = 0%nat.
Proof.
  intros Hb. unfold space_width. cbn [take map].
  rewrite (proj2 (N.eqb_neq (Byte.to_N b) 32)), (proj2 (N.leb_gt (Byte.to_N b) 13)) by lia.
  rewrite andb_false_r. cbn [orb].
  rewrite (proj2 (N.eqb_neq (Byte.to_N b) 194)), (proj2 (N.eqb_neq (Byte.to_N b) 225)),
    (proj2 (N.eqb_neq (Byte.to_N b) 226)), (proj2 (N.eqb_neq (Byte.to_N b) 227)) by lia.
  cbn [andb orb]. by repeat case_match.
Qed.

Ltac or_cases :=
  repeat (bool_prop; match goal with
  | H : (_ || _) = true |- _ => apply orb_true_iff in H as [H|H]
  | H : (_ && _) = false |- _ => apply andb_false_iff in H as [H|H]
  end); bool_prop.

Lemma digit_space_rev b rs : 48 ≤ Byte.to_N b ≤ 57 → space_width_rev (b :: rs) = 0%nat.
Proof.
  intros Hb. unfold space_width_rev. cbn [take]. rewrite digit_space by done. cbn [Nat.eqb].
  assert (∀ c, space_width [c; b] ≠ 2%nat ∧ space_width [c; b] ≠ 3%nat) as H2.
  { intros c. unfold space_width. cbn [take map].
    split; repeat case_match; try done; or_cases; lia. }
  assert (∀ d c, space_width [d; c; b] ≠ 3%nat) as H3.
  { intros d c. unfold space_width. cbn [take map]. repeat case_match; try done; or_cases; lia. }
  destruct rs as [|c [|d rs]]; cbn [take rev app].
  - by rewrite digit_space.
  - destruct (H2 c) as [->%Nat.eqb_neq ->%Nat.eqb_neq]. done.
  - destruct (H2 c) as [->%Nat.eqb_neq _]. rewrite take_0. cbn [rev app].
    by rewrite (proj2 (Nat.eqb_neq _ _) (H3 d c)).
Qed.

Lemma trim_digits bs : Forall (λ b, 48 ≤ Byte.to_N b ≤ 57) bs → trim bs = bs.
Proof.
  intros H. unfold trim. assert (strip space_width (length bs) bs = bs) as ->.
  { destruct bs as [|b bs]; [done|]. simpl length. cbn [strip]. rewrite digit_space; [done|].
    by apply Forall_inv in H. }
  assert (strip space_width_rev (length bs) (rev bs) = rev bs) as ->; [|apply rev_involutive].
  destruct bs as [|b bs _] using rev_ind; [done|]. rewrite length_app, Nat.add_comm, rev_app_distr.
  simpl. rewrite digit_space_rev; [done|]. apply Forall_app in H as [_ H]. by apply Forall_inv in H.
Qed.

Lemma strip_none width fuel bs : width bs = 0%nat → strip width fuel bs = bs.
Proof. intros H. destruct fuel; simpl; by rewrite ?H. Qed.

Lemma split_digits fuel bs :
  bs ≠ [] → Forall (λ b, 48 ≤ Byte.to_N b ≤ 57) bs → split_whitespace (S fuel) bs = [bs].
Proof.
  intros Hne H. assert (span_word bs = (bs, [])) as Hs.
  { clear Hne. induction H as [|b bs Hb H IH]; [done|]. cbn [span_word]. by rewrite digit_space, IH. }
  destruct bs as [|b bs]; [done|]. cbn [split_whitespace].
  rewrite strip_none by (by apply digit_space, (Forall_inv H)). rewrite Hs. by destruct fuel.
Qed.

Lemma words_digits bs : bs ≠ [] → Forall (λ b, 48 ≤ Byte.to_N b ≤ 57) bs → words bs = [bs].
Proof. apply split_digits. Qed.

(** Two numbers with a blank between, as the poison marker holds them. *)
Lemma span_digits ds rest :
  Forall (λ b, 48 ≤ Byte.to_N b ≤ 57) ds → space_width rest ≠ 0%nat → span_word (ds ++ rest) = (ds, rest).
Proof.
  intros H Hr. induction H as [|b ds Hb H IH]; cbn [app].
  - destruct rest as [|r rest]; [done|]. cbn [span_word]. by destruct (space_width (r :: rest)).
  - cbn [span_word]. rewrite digit_space by done. by rewrite IH.
Qed.

Lemma words_two ds1 ds2 :
  ds1 ≠ [] → ds2 ≠ [] →
  Forall (λ b, 48 ≤ Byte.to_N b ≤ 57) ds1 → Forall (λ b, 48 ≤ Byte.to_N b ≤ 57) ds2 →
  words (ds1 ++ Byte.x20 :: ds2) = [ds1; ds2].
Proof.
  intros Hn1 Hn2 H1 H2. unfold words.
  destruct ds1 as [|b ds1]; [done|]. rewrite length_app. cbn [length]. rewrite Nat.add_succ_r.
  cbn [split_whitespace app].
  rewrite strip_none by (by apply digit_space, (Forall_inv H1)).
  change (b :: ds1 ++ Byte.x20 :: ds2) with ((b :: ds1) ++ Byte.x20 :: ds2).
  rewrite span_digits by done. f_equal. cbn [length strip].
  assert (space_width (Byte.x20 :: ds2) = 1%nat) as -> by done. cbn [drop].
  assert (space_width ds2 = 0%nat) as H0.
  { destruct ds2; [done|]. by apply digit_space, (Forall_inv H2). }
  rewrite drop_0, strip_none by done.
  pose proof (split_digits (S (length ds1) + length ds2) ds2 Hn2 H2) as Hw.
  destruct ds2 as [|c ds2]; [done|]. cbn [split_whitespace] in Hw. rewrite strip_none in Hw by done.
  done.
Qed.
