(* ===== verification/Segment.v ===== *)
(** * The shared durable-log machinery (src/icegres/src/segment.rs)

    [Frames]: the [[u32 len][u32 crc32][payload]] wrap and the
    torn-write-tolerant walker.  [AtomicWrite]: durable small-file replacement
    over a crashable directory. *)
From S2P Require Import Prelude.

Definition FRAME_HEADER_BYTES : nat := 8.

(** [check_frame_len]: a payload whose length does not fit the [u32] header is
    refused instead of wrapping. *)
Definition check_frame_len (n : N) : result unit :=
  if u32_max <? n then Err "frame payload is over the u32 frame-length limit"
  else Ok tt.

(** [RawFrameScan]: payload byte ranges, end of the last valid frame, and why
    the walk stopped early. *)
Record RawFrameScan := {
  payloads : list (nat * nat);
  good_end : nat;
  bad : option string;
}.

Section Frames.
Context (crc32 : list byte → N).

Definition frame_bytes (payload : list byte) : result (list byte) :=
  _ ← check_frame_len (len payload);
  Ok (u32_le (len payload) ++ u32_le (crc32 payload) ++ payload).

(** The [while off < data.len()] loop of [scan_frame_bytes]; [None] is out of
    fuel. *)
Fixpoint scan_loop (fuel : nat) (data : list byte) (off ge : nat)
    (ps : list (nat * nat)) : option RawFrameScan :=
  match fuel with
  | O => None
  | S fuel =>
    if (off <? length data)%nat then
      if (length data - off <? FRAME_HEADER_BYTES)%nat then
        Some {| payloads := ps; good_end := ge; bad := Some "torn header" |}
      else
        let n := le_val (slice off (off + 4) data) in
        let crc := le_val (slice (off + 4) (off + 8) data) in
        if N.of_nat (length data - off - FRAME_HEADER_BYTES) <? n then
          Some {| payloads := ps; good_end := ge; bad := Some "torn payload" |}
        else
          let start := (off + FRAME_HEADER_BYTES)%nat in
          let stop := (start + N.to_nat n)%nat in
          if negb (crc32 (slice start stop data) =? crc) then
            Some {| payloads := ps; good_end := ge; bad := Some "crc mismatch" |}
          else scan_loop fuel data stop stop (ps ++ [(start, stop)])
    else Some {| payloads := ps; good_end := ge; bad := None |}
  end.

(** Each round consumes at least a header, so [1 + length data] rounds are
    enough ([scan_frame_bytes_total]); the fallback is never reached. *)
Definition scan_frame_bytes (data : list byte) : RawFrameScan :=
  default {| payloads := []; good_end := 0; bad := None |}
    (scan_loop (S (length data)) data 0 0 []).

(** ** Facts about the walk *)

(** The bytes of one frame. *)
Definition frame (p : list byte) : list byte :=
  u32_le (len p) ++ u32_le (crc32 p) ++ p.

(** The ranges the payloads of consecutive frames occupy from [off] on. *)
Fixpoint ranges_from (off : nat) (pls : list (list byte)) : list (nat * nat) :=
  match pls with
  | [] => []
  | p :: pls =>
    let start := (off + FRAME_HEADER_BYTES)%nat in
    (start, start + length p)%nat :: ranges_from (start + length p) pls
  end.

Definition frames (pls : list (list byte)) : list byte := concat (map frame pls).

Lemma frame_bytes_Ok p f : frame_bytes p = Ok f ↔ len p ≤ u32_max ∧ f = frame p.
Proof.
  unfold frame_bytes, check_frame_len. destruct (u32_max <? len p) eqn:E; simpl; bool_prop.
  - split; [discriminate|lia].
  - split; [intros [= <-]; auto|by intros [_ ->]].
Qed.

Lemma length_frame p : length (frame p) = (8 + length p)%nat.
Proof. unfold frame. by rewrite !length_app, !length_le_bytes. Qed.

Lemma slice_frame_payload pre p rest :
  slice (length pre + 8) (length pre + 8 + length p) (pre ++ frame p ++ rest) = p.
Proof.
  unfold slice. rewrite <-drop_drop, drop_app_length.
  replace (length pre + 8 + length p - (length pre + 8))%nat with (length p) by lia.
  unfold frame. simpl. apply take_app_length.
Qed.

Lemma frames_cons p pls : frames (p :: pls) = frame p ++ frames pls.
Proof. done. Qed.
Lemma frames_app pls1 pls2 : frames (pls1 ++ pls2) = frames pls1 ++ frames pls2.
Proof. unfold frames. by rewrite map_app, concat_app. Qed.

Lemma ranges_from_app off pls1 pls2 :
  ranges_from off (pls1 ++ pls2) =
  ranges_from off pls1 ++ ranges_from (off + length (frames pls1)) pls2.
Proof.
  revert off. induction pls1 as [|p pls1 IH]; intros off; cbn [ranges_from app].
  - by rewrite Nat.add_0_r.
  - rewrite IH, frames_cons, length_app, length_frame. do 3 f_equal.
    unfold FRAME_HEADER_BYTES. lia.
Qed.

(** The fuel is enough: the walk always returns. *)
Lemma scan_loop_total fuel data off ge ps :
  (length data - off < fuel)%nat → is_Some (scan_loop fuel data off ge ps).
Proof.
  revert off ge ps. induction fuel as [|fuel IH]; intros off ge ps Hf; [lia|].
  cbn [scan_loop]. repeat case_match; eauto; bool_prop. apply IH.
  unfold FRAME_HEADER_BYTES in *. lia.
Qed.

Lemma scan_frame_bytes_total data :
  scan_loop (S (length data)) data 0 0 [] = Some (scan_frame_bytes data).
Proof.
  unfold scan_frame_bytes.
  destruct (scan_loop_total (S (length data)) data 0 0 []) as [r ->]; [lia|done].
Qed.

(** What a walk from [off] finds is exactly a run of well-formed frames. *)
Lemma scan_loop_sound fuel data off ps r :
  scan_loop fuel data off off ps = Some r → (off ≤ length data)%nat →
  ∃ pls, payloads r = ps ++ ranges_from off pls ∧
    (off ≤ good_end r ≤ length data)%nat ∧
    slice off (good_end r) data = frames pls ∧
    (bad r = None → good_end r = length data) ∧
    Forall (λ p, is_u32 (len p)) pls.
Proof.
  assert (∀ off ps b r, (off ≤ length data)%nat →
    Some {| payloads := ps; good_end := off; bad := b |} = Some r →
    (b = None → off = length data) →
    ∃ pls, payloads r = ps ++ ranges_from off pls ∧ (off ≤ good_end r ≤ length data)%nat ∧
      slice off (good_end r) data = frames pls ∧
      (bad r = None → good_end r = length data) ∧ Forall (λ p, is_u32 (len p)) pls) as Hstop.
  { intros off' ps' b r' Hle [= <-] Hb. exists []. simpl. rewrite app_nil_r.
    unfold slice. rewrite Nat.sub_diag. repeat split; auto; lia. }
  revert off ps. induction fuel as [|fuel IH]; intros off ps H Hoff; [discriminate|].
  cbn [scan_loop] in H.
  destruct (off <? length data)%nat eqn:E1; [|eapply Hstop; [done|done|bool_prop; lia]].
  destruct (length data - off <? FRAME_HEADER_BYTES)%nat eqn:E2; [eapply Hstop; [done|done|discriminate]|].
  destruct (N.of_nat _ <? _) eqn:E3; [eapply Hstop; [done|done|discriminate]|].
  destruct (negb _) eqn:E4; [eapply Hstop; [done|done|discriminate]|].
  bool_prop. unfold FRAME_HEADER_BYTES in *.
  set (n := le_val (slice off (off + 4) data)) in *.
  set (stop := (off + 8 + N.to_nat n)%nat) in *.
  assert (is_u32 n) as Hn.
  { eapply N.lt_le_trans; [apply le_val_bound|]. rewrite length_slice by lia.
    by replace (off + 4 - off)%nat with 4%nat by lia. }
  apply IH in H as (pls & Hp & Hle & Hs & Hb & Hall); [|unfold stop; lia].
  set (p := slice (off + 8) stop data) in *.
  assert (length p = N.to_nat n) as Hlp by (unfold p; rewrite length_slice; unfold stop; lia).
  exists (p :: pls). split; [|split; [unfold stop in *; lia|split; [|split; [done|]]]].
  - rewrite Hp, <-app_assoc. cbn [ranges_from]. unfold FRAME_HEADER_BYTES.
    rewrite Hlp. done.
  - rewrite frames_cons, <-Hs. unfold frame.
    replace (len p) with n by (rewrite Hlp; lia).
    fold p in E4. rewrite E4.
    assert (u32_le n = slice off (off + 4) data) as ->.
    { unfold n. replace 4%nat with (length (slice off (off + 4) data)) at 1
        by (rewrite length_slice; lia). apply le_bytes_val. }
    assert (u32_le (le_val (slice (off + 4) (off + 8) data)) = slice (off + 4) (off + 8) data) as ->.
    { replace 4%nat with (length (slice (off + 4) (off + 8) data)) at 1
        by (rewrite length_slice; lia). apply le_bytes_val. }
    assert (∀ a b c, (a ≤ b ≤ c)%nat → slice a c data = slice a b data ++ slice b c data) as Hsplit.
    { intros a b c Habc. unfold slice. replace (c - a)%nat with ((b - a) + (c - b))%nat by lia.
      rewrite take_add, drop_drop. do 2 f_equal. f_equal; lia. }
    unfold p. rewrite (Hsplit off (off + 4)%nat) by lia.
    rewrite (Hsplit (off + 4)%nat (off + 8)%nat) by lia.
    rewrite (Hsplit (off + 8)%nat stop) by (unfold stop; lia). by rewrite !app_assoc.
  - constructor; [|done]. rewrite Hlp. lia.
Qed.

Lemma scan_frame_bytes_sound data :
  let r := scan_frame_bytes data in
  ∃ pls, payloads r = ranges_from 0 pls ∧ (good_end r ≤ length data)%nat ∧
    take (good_end r) data = frames pls ∧
    (bad r = None → good_end r = length data) ∧ Forall (λ p, is_u32 (len p)) pls.
Proof.
  pose proof (scan_frame_bytes_total data) as H.
  apply scan_loop_sound in H as (pls & Hp & Hle & Hs & Hb & Hall); [|lia].
  exists pls. unfold slice in Hs. rewrite drop_0, Nat.sub_0_r in Hs.
  split_and!; auto; lia.
Qed.

Section Complete.
Context (crc32_u32 : ∀ bs, is_u32 (crc32 bs)).

(** One well-formed frame at [off] is consumed whole. *)
Lemma scan_loop_step fuel data off ge ps p rest :
  drop off data = frame p ++ rest → is_u32 (len p) →
  scan_loop (S fuel) data off ge ps =
  scan_loop fuel data (off + length (frame p)) (off + length (frame p))
    (ps ++ [(off + 8, off + 8 + length p)%nat]).
Proof.
  intros Hd Hp.
  assert (length data - off = 8 + length p + length rest)%nat as Hlen.
  { rewrite <-length_drop, Hd, length_app, length_frame. lia. }
  assert (∀ a b, slice (off + a) (off + b) data = slice a b (frame p ++ rest)) as Hsl.
  { intros a b. unfold slice. rewrite <-Hd, drop_drop. f_equal. lia. }
  cbn [scan_loop]. unfold FRAME_HEADER_BYTES.
  destruct (off <? length data)%nat eqn:E; bool_prop; [|lia].
  destruct (_ <? 8)%nat eqn:E2; bool_prop; [lia|].
  assert (slice off (off + 4) data = u32_le (len p)) as ->
    by (rewrite <-(Nat.add_0_r off) at 1; rewrite Hsl; done).
  assert (slice (off + 4) (off + 8) data = u32_le (crc32 p)) as -> by (rewrite Hsl; done).
  rewrite !le_val_u32 by auto.
  destruct (_ <? len p) eqn:E3; bool_prop; [lia|].
  rewrite Nat2N.id.
  replace (off + 8 + length p)%nat with (off + (8 + length p))%nat by lia. rewrite Hsl.
  assert (slice 8 (8 + length p) (frame p ++ rest) = p) as ->.
  { unfold slice. replace (8 + length p - 8)%nat with (length p) by lia.
    simpl. apply take_app_length. }
  rewrite N.eqb_refl. simpl negb. by rewrite length_frame.
Qed.

(** A run of frames is consumed whole; the walk resumes behind it. *)
Lemma scan_loop_frames pls fuel data off ps rest :
  drop off data = frames pls ++ rest → Forall (λ p, is_u32 (len p)) pls →
  (length data - off < fuel)%nat →
  ∃ fuel', (length rest < fuel')%nat ∧
  scan_loop fuel data off off ps =
  scan_loop fuel' data (off + length (frames pls)) (off + length (frames pls))
    (ps ++ ranges_from off pls).
Proof.
  revert fuel off ps. induction pls as [|p pls IH]; intros fuel off ps Hd Hall Hf.
  - exists fuel. simpl in *. rewrite app_nil_r, Nat.add_0_r. split; [|done].
    rewrite <-Hd, length_drop. done.
  - apply Forall_cons in Hall as [Hp Hall]. rewrite frames_cons, <-app_assoc in Hd.
    destruct fuel as [|fuel]; [lia|]. rewrite (scan_loop_step _ _ _ _ _ _ _ Hd Hp).
    assert (length data - off = length (frame p ++ frames pls ++ rest))%nat as Hl
      by (rewrite <-Hd, length_drop; done).
    rewrite length_app, length_frame in Hl.
    destruct (IH fuel (off + length (frame p))%nat (ps ++ [(off + 8, off + 8 + length p)%nat]))
      as (fuel' & Hf' & ->); [|done|rewrite length_frame; lia|].
    { rewrite <-drop_drop, Hd. apply drop_app_length. }
    exists fuel'. split; [done|]. rewrite frames_cons, length_app, <-app_assoc.
    cbn [ranges_from app]. rewrite !length_frame. unfold FRAME_HEADER_BYTES.
    by rewrite !Nat.add_assoc.
Qed.

Lemma scan_frame_bytes_app pls rest :
  Forall (λ p, is_u32 (len p)) pls →
  ∃ fuel', (length rest < fuel')%nat ∧
  let data := frames pls ++ rest in
  Some (scan_frame_bytes data) =
  scan_loop fuel' data (length (frames pls)) (length (frames pls)) (ranges_from 0 pls).
Proof.
  intros Hall.
  destruct (scan_loop_frames pls (S (length (frames pls ++ rest))) (frames pls ++ rest) 0 [] rest)
    as (fuel' & Hf & H); [done|done|lia|].
  exists fuel'. split; [done|]. intros data. unfold data.
  by rewrite <-scan_frame_bytes_total, H.
Qed.

(** The walk over valid frames with anything behind them. *)
Lemma scan_frame_bytes_prefix pls junk :
  Forall (λ p, is_u32 (len p)) pls →
  let data := frames pls ++ junk in
  let r := scan_frame_bytes data in
  ∃ pls', payloads r = ranges_from 0 (pls ++ pls') ∧ (good_end r ≤ length data)%nat ∧
    take (good_end r) data = frames (pls ++ pls') ∧
    (bad r = None → good_end r = length data) ∧ Forall (λ p, is_u32 (len p)) (pls ++ pls').
Proof.
  intros Hall data r. destruct (scan_frame_bytes_app pls junk Hall) as (fuel & _ & H).
  symmetry in H. apply scan_loop_sound in H as (pls' & Hp & Hle & Hs & Hb & Hu);
    [|rewrite length_app; lia].
  change (scan_frame_bytes (frames pls ++ junk)) with r in Hp, Hle, Hs, Hb.
  change (frames pls ++ junk) with data in Hle, Hs, Hb. exists pls'. split_and!; [|lia| |done|].
  - by rewrite Hp, ranges_from_app.
  - rewrite (take_slice (length (frames pls))) by lia.
    rewrite Hs, frames_app. f_equal. apply take_app_length.
  - by apply Forall_app.
Qed.

(** ** Properties *)

(** The walker inverts the frame writer: over any concatenation of frames
    it reports every payload range, reaches the end and sees nothing bad. *)
Lemma scan_frames_roundtrip pls :
  Forall (λ p, len p ≤ u32_max) pls →
  scan_frame_bytes (frames pls) =
  {| payloads := ranges_from 0 pls; good_end := length (frames pls); bad := None |}.
Proof.
  intros Hall.
  destruct (scan_frame_bytes_app pls []) as (fuel & Hf & H).
  { eapply Forall_impl; [done|]. unfold u32_max, u32_modulus. simpl. lia. }
  rewrite app_nil_r in H. destruct fuel as [|fuel]; [lia|]. simpl in H.
  rewrite Nat.ltb_irrefl in H. by injection H.
Qed.

(** A crash in the middle of an append (the last frame is cut anywhere)
    costs exactly that frame: every earlier payload is reported, the recorded
    truncation point is the end of the last whole frame, and the stop is
    reported. *)
Theorem scan_torn_tail pls p cut :
  Forall (λ p, len p ≤ u32_max) pls → len p ≤ u32_max →
  (0 < cut < length (frame p))%nat →
  let r := scan_frame_bytes (frames pls ++ take cut (frame p)) in
  payloads r = ranges_from 0 pls ∧ good_end r = length (frames pls) ∧ is_Some (bad r).
Proof.
  intros Hall Hp Hcut r. rewrite length_frame in Hcut.
  destruct (scan_frame_bytes_app pls (take cut (frame p))) as (fuel & Hf & H).
  { eapply Forall_impl; [done|]. unfold u32_max, u32_modulus. simpl. lia. }
  cbv zeta in H. change (scan_frame_bytes _) with r in H. clearbody r. set (data := frames pls ++ take cut (frame p)) in *.
  assert (length data = length (frames pls) + cut)%nat as Hlen.
  { unfold data. rewrite length_app, length_take, length_frame. lia. }
  destruct fuel as [|fuel]; [lia|]. cbn [scan_loop] in H.
  destruct (_ <? length data)%nat eqn:E1 in H; bool_prop; [|lia].
  destruct (_ <? FRAME_HEADER_BYTES)%nat eqn:E2 in H; [by injection H as ->|].
  bool_prop. unfold FRAME_HEADER_BYTES in *.
  assert (slice (length (frames pls)) (length (frames pls) + 4) data = u32_le (len p)) as Hn.
  { unfold slice, data. rewrite drop_app_length, Nat.add_sub_swap, Nat.sub_diag by lia.
    rewrite take_take, Nat.min_l by lia. done. }
  rewrite Hn, le_val_u32 in H by (unfold u32_max, u32_modulus in *; lia).
  destruct (_ <? len p) eqn:E3 in H; [by injection H as ->|]. bool_prop. lia.
Qed.

End Complete.
End Frames.

(** * Durable small-file replacement: [write_atomic], [sync_dir]

    A directory over a crashable disk.  An inode's bytes are stable only after
    [sync_all]; a directory change is stable only after the directory's own
    fsync, so after a crash a name may hold its last synced entry or any later
    one.  Every primitive consumes one outcome of the [io] script and records
    the disk it ran on, so [hist] holds every point a crash can hit. *)
Module AtomicWrite.

Record inode := { content : list byte; stable : bool }.

Record disk := {
  inodes : gmap nat inode;
  names : gmap string nat;         (* the live directory *)
  synced : gmap string nat;        (* the directory as of its last fsync *)
  pending : list (string * option nat);  (* entries changed since then *)
}.

(** Outcome of one system call; a failed write has put [k] bytes down. *)
Inductive outcome := IoOk | IoFail (k : nat).

Record world := { dsk : disk; hist : list disk; io : list outcome }.

Definition prim (ok : disk → disk) (fail : nat → disk → disk) : stres world unit := λ w,
  let h := hist w ++ [dsk w] in
  match io w with
  | IoFail k :: rest => ({| dsk := fail k (dsk w); hist := h; io := rest |}, Err "io error")
  | IoOk :: rest => ({| dsk := ok (dsk w); hist := h; io := rest |}, Ok tt)
  | [] => ({| dsk := ok (dsk w); hist := h; io := [] |}, Ok tt)
  end.

Definition set_inode (i : nat) (nd : inode) (d : disk) : disk :=
  {| inodes := <[i := nd]> (inodes d); names := names d; synced := synced d;
     pending := pending d |}.

Definition set_name (n : string) (e : option nat) (d : disk) : disk :=
  {| inodes := inodes d;
     names := partial_alter (λ _, e) n (names d);
     synced := synced d; pending := pending d ++ [(n, e)] |}.

(** The inode [File::create] opens: the existing one (truncated) or a fresh one. *)
Definition create_inode (n : string) (d : disk) : nat :=
  match names d !! n with
  | Some i => i
  | None => fresh (dom (inodes d))
  end.

Definition file_create (n : string) : stres world nat := λ w,
  let i := create_inode n (dsk w) in
  let empty := {| content := []; stable := false |} in
  st_bind (prim (λ d, set_name n (Some i) (set_inode i empty d)) (λ _ d, d))
          (λ _, st_ret i) w.

Definition append_inode (i : nat) (bs : list byte) (d : disk) : disk :=
  set_inode i {| content := default [] (content <$> inodes d !! i) ++ bs;
                 stable := false |} d.

Definition write_all (i : nat) (bs : list byte) : stres world unit :=
  prim (append_inode i bs) (λ k, append_inode i (take k bs)).

Definition sync_all (i : nat) : stres world unit :=
  prim (λ d, set_inode i {| content := default [] (content <$> inodes d !! i);
                            stable := true |} d) (λ _ d, d).

Definition rename (a b : string) : stres world unit :=
  prim (λ d, set_name a None (set_name b (names d !! a) d)) (λ _ d, d).

Definition remove_file (n : string) : stres world unit :=
  prim (set_name n None) (λ _ d, d).

(** [sync_dir]: open the directory, fsync it. *)
Definition sync_dir : stres world unit :=
  (prim (λ d, d) (λ _ d, d) ;;*
   prim (λ d, {| inodes := inodes d; names := names d; synced := names d; pending := [] |})
        (λ _ d, d))%stres.

Definition tmp_name (name : string) : string := "." +:+ name +:+ ".tmp".

(** [write_atomic]: the closure up to the rename, the clean-up of a failed
    attempt, the directory fsync. *)
Definition write_closure (name : string) (bytes : list byte) : stres world unit :=
  (let* f := file_create (tmp_name name) in
   write_all f bytes ;;* sync_all f ;;* rename (tmp_name name) name)%stres.

Definition write_atomic (name : string) (bytes : list byte) : stres world unit := λ w,
  match write_closure name bytes w with
  | (w', Err e) => (fst (remove_file (tmp_name name) w'), Err e)
  | (w', Ok _) => sync_dir w'
  end.

(** What reading [name] can return after a crash on [d]: any entry the
    directory may have kept, and of an unsynced inode any bytes at all. *)
Definition crash_read (d : disk) (name : string) (r : option (list byte)) : Prop :=
  ∃ e, (e = synced d !! name ∨ (name, e) ∈ pending d) ∧
    match e with
    | None => r = None
    | Some i => match inodes d !! i with
                | Some nd => if stable nd then r = Some (content nd) else is_Some r
                | None => is_Some r
                end
    end.

(** The file is settled with content [old]: its entry is synced, its bytes are
    stable, and no other name can reach its inode. *)
Definition settled (d : disk) (name : string) (old : option (list byte)) : Prop :=
  names d !! name = synced d !! name ∧ (∀ e, (name, e) ∉ pending d) ∧
  (∀ n i, n ≠ name → names d !! n = Some i → synced d !! name ≠ Some i) ∧
  match synced d !! name with
  | None => old = None
  | Some i => ∃ nd, inodes d !! i = Some nd ∧ stable nd = true ∧ old = Some (content nd)
  end.

Lemma tmp_name_ne name : tmp_name name ≠ name.
Proof.
  intros H. apply (f_equal String.length) in H. unfold tmp_name in H.
  assert (∀ a b, String.length (a +:+ b) = String.length a + String.length b)%nat as Happ.
  { induction a; intros; simpl; auto. }
  rewrite !Happ in H. simpl in H. lia.
Qed.

Section WriteAtomic.
Context (name : string) (bytes : list byte) (old : option (list byte)).
Context (h0 : list disk). (* the history before this replacement *)

(** Before the rename: the old entry is all a crash can find. *)
Definition before (f : nat) (d : disk) : Prop :=
  (∀ e, (name, e) ∉ pending d) ∧
  match synced d !! name with
  | None => old = None
  | Some i => i ≠ f ∧ ∃ nd, inodes d !! i = Some nd ∧ stable nd = true ∧ old = Some (content nd)
  end.

(** After it: the old entry or the complete new file. *)
Definition after (f : nat) (d : disk) : Prop :=
  (∀ e, (name, e) ∈ pending d → e = Some f) ∧
  inodes d !! f = Some {| content := bytes; stable := true |} ∧
  match synced d !! name with
  | None => old = None
  | Some i => ∃ nd, inodes d !! i = Some nd ∧ stable nd = true ∧
                    (old = Some (content nd) ∨ i = f)
  end.

Definition safe (d : disk) : Prop :=
  ∀ r, crash_read d name r → r = old ∨ r = Some bytes.

Lemma before_safe f d : before f d → safe d.
Proof.
  intros [Hp Hs] r (e & [->|He] & Hr); [|by apply Hp in He].
  destruct (synced d !! name) as [i|]; [|naive_solver].
  destruct Hs as (_ & nd & Hi & Hst & ->). rewrite Hi, Hst in Hr. auto.
Qed.

Lemma after_safe f d : after f d → safe d.
Proof.
  intros (Hp & Hf & Hs) r (e & [->|He] & Hr).
  - destruct (synced d !! name) as [i|]; [|naive_solver].
    destruct Hs as (nd & Hi & Hst & Hor). rewrite Hi, Hst in Hr.
    destruct Hor as [->| ->]; [auto|]. rewrite Hf in Hi. simplify_eq. auto.
  - apply Hp in He as ->. rewrite Hf in Hr. auto.
Qed.

(** One system call: the disk it ran on is recorded; it took effect or failed. *)
Lemma prim_cases ok fail w w' r :
  prim ok fail w = (w', r) →
  hist w' = hist w ++ [dsk w] ∧
  (r = Ok tt ∧ dsk w' = ok (dsk w) ∨ ∃ e k, r = Err e ∧ dsk w' = fail k (dsk w)).
Proof. intros H. unfold prim in H. repeat case_match; simplify_eq/=; eauto 8. Qed.

Lemma before_set_inode f nd d : before f d → before f (set_inode f nd d).
Proof.
  intros [Hp Hs]. split; [done|]. simpl. destruct (synced d !! name) as [i|]; [|done].
  destruct Hs as (Hne & nd' & Hi & ?). split; [done|]. exists nd'.
  by rewrite lookup_insert_ne.
Qed.

Lemma before_set_name f n e d : n ≠ name → before f d → before f (set_name n e d).
Proof.
  intros Hn [Hp Hs]. split; [|done]. intros e'. simpl.
  rewrite elem_of_app, list_elem_of_singleton. intros [?|[= ? ?]]; [by eapply Hp|done].
Qed.

Definition all_safe (w : world) : Prop :=
  (∃ h, hist w = h0 ++ h ∧ Forall safe h) ∧ safe (dsk w).

Lemma all_safe_step w w' : all_safe w → hist w' = hist w ++ [dsk w] → safe (dsk w') → all_safe w'.
Proof.
  intros [(h & Hh & Hall) Hd] E Hs. split; [|done]. exists (h ++ [dsk w]).
  rewrite E, Hh, Forall_app, app_assoc. auto.
Qed.

(** A call that keeps an invariant under which every crash is safe. *)
Lemma prim_keeps (I : disk → Prop) ok fail w w' r :
  (∀ d, I d → safe d) → prim ok fail w = (w', r) → I (dsk w) → all_safe w →
  (∀ d, I d → I (ok d)) → (∀ k d, I d → I (fail k d)) →
  I (dsk w') ∧ all_safe w' ∧ (r = Ok tt → dsk w' = ok (dsk w)).
Proof.
  intros HI H Hb Hs H1 H2. apply prim_cases in H as (Hh & [[-> E]|(e & k & -> & E)]);
    (split_and!; [rewrite E; auto| |try done]);
    (eapply all_safe_step; [done|done|rewrite E; auto]).
Qed.

Lemma settled_before d : settled d name old → before (create_inode (tmp_name name) d) d.
Proof.
  intros (Hn & Hp & Hinj & Hs). split; [done|].
  destruct (synced d !! name) as [i|] eqn:E; [|done]. split; [|done].
  unfold create_inode. destruct (names d !! tmp_name name) as [j|] eqn:Ej.
  - intros ->. eapply Hinj; eauto using tmp_name_ne.
  - intros ->. destruct Hs as (nd & Hi & _). apply elem_of_dom_2 in Hi.
    by apply is_fresh in Hi.
Qed.

Lemma renamed_after f d :
  before f d → inodes d !! f = Some {| content := bytes; stable := true |} →
  after f (set_name (tmp_name name) None (set_name name (Some f) d)).
Proof.
  intros [Hp Hsy] Hf. split; [|split; [done|]].
  - intros e. simpl. rewrite !elem_of_app, !list_elem_of_singleton.
    intros [[?|[= ->]]|[= E]]; [by edestruct Hp|done|by destruct (tmp_name_ne name)].
  - simpl. destruct (synced d !! name); [|done].
    destruct Hsy as (_ & nd & ? & ? & ?). eauto.
Qed.

(** The closure: an error leaves the old file in place, success has renamed
    the complete, stable new one over it. *)
Lemma write_closure_spec w w' r :
  settled (dsk w) name old → all_safe w → write_closure name bytes w = (w', r) →
  all_safe w' ∧
  match r with
  | Ok _ => ∃ f, after f (dsk w') ∧ names (dsk w') !! name = Some f
  | Err _ => ∃ f, before f (dsk w')
  end.
Proof.
  intros Hset Hs. pose proof (settled_before _ Hset) as Hb.
  unfold write_closure, file_create, st_bind, st_ret. cbv zeta.
  set (f := create_inode (tmp_name name) (dsk w)) in *. clearbody f.
  destruct (prim _ _ w) as [w1 r1] eqn:H1.
  eapply (prim_keeps (before f)) in H1 as (Hb1 & Hs1 & E1);
    eauto using before_safe, before_set_name, before_set_inode, tmp_name_ne.
  destruct r1 as [[]|]; cbn beta iota zeta; [|intros [= <- <-]; eauto].
  specialize (E1 eq_refl).
  destruct (write_all f bytes w1) as [w2 r2] eqn:H2.
  eapply (prim_keeps (before f)) in H2 as (Hb2 & Hs2 & E2);
    [|by eauto using before_safe|done|done|intros; by apply before_set_inode..].
  destruct r2 as [[]|]; cbn beta iota zeta; [|intros [= <- <-]; eauto].
  specialize (E2 eq_refl).
  destruct (sync_all f w2) as [w3 r3] eqn:H3.
  eapply (prim_keeps (before f)) in H3 as (Hb3 & Hs3 & E3);
    [|by eauto using before_safe|done|done|intros; by apply before_set_inode|done].
  destruct r3 as [[]|]; cbn beta iota zeta; [|intros [= <- <-]; eauto].
  specialize (E3 eq_refl). intros H4.
  assert (inodes (dsk w3) !! f = Some {| content := bytes; stable := true |}) as Hf.
  { rewrite E3, E2, E1. unfold append_inode, set_inode. simpl.
    by rewrite !lookup_insert_eq. }
  assert (names (dsk w3) !! tmp_name name = Some f) as Htmp.
  { rewrite E3, E2, E1. simpl. by rewrite lookup_partial_alter_eq. }
  apply prim_cases in H4 as (Hh & [[-> E]|(e & k & -> & E)]).
  - assert (after f (dsk w')) as Ha by (rewrite E, Htmp; by apply renamed_after).
    split; [eapply all_safe_step; eauto using after_safe|].
    exists f. split; [done|]. rewrite E, Htmp. simpl.
    rewrite lookup_partial_alter_ne by apply tmp_name_ne.
    by rewrite lookup_partial_alter_eq.
  - rewrite E. split; [|by eauto]. eapply all_safe_step; eauto.
    rewrite E. by eapply before_safe.
Qed.

(** The directory fsync makes the new entry the only one. *)
Lemma sync_dir_spec f w w' r :
  after f (dsk w) → names (dsk w) !! name = Some f → all_safe w → sync_dir w = (w', r) →
  all_safe w' ∧ (r = Ok tt → ∀ x, crash_read (dsk w') name x → x = Some bytes).
Proof.
  intros Ha Hn Hs. unfold sync_dir, st_bind. destruct (prim _ _ w) as [w1 r1] eqn:H1.
  eapply (prim_keeps (λ d, after f d ∧ names d !! name = Some f)) in H1
    as ((Ha1 & Hn1) & Hs1 & E1); [|by intros d []; eauto using after_safe|done|done|done|done].
  destruct r1 as [[]|]; [|by intros [= <- <-]].
  intros H2. apply prim_cases in H2 as (Hh & [[-> E]|(e & k & -> & E)]); cycle 1.
  { split; [|done]. eapply all_safe_step; eauto. rewrite E. by eapply after_safe. }
  assert (∀ x, crash_read (dsk w') name x → x = Some bytes) as Hcr.
  { rewrite E. intros x (e & [->|He] & Hx); simpl in *; [|by apply not_elem_of_nil in He].
    rewrite Hn1 in Hx. destruct Ha1 as (_ & Hf & _). by rewrite Hf in Hx. }
  split; [|done]. eapply all_safe_step; eauto. intros x Hx. right. auto.
Qed.

Lemma write_atomic_safe w w' r :
  settled (dsk w) name old → hist w = h0 → write_atomic name bytes w = (w', r) →
  all_safe w' ∧ (r = Ok tt → ∀ x, crash_read (dsk w') name x → x = Some bytes).
Proof.
  intros Hset Hh Hw.
  assert (all_safe w) as Hs.
  { split; [exists []; by rewrite app_nil_r|]. by eapply before_safe, settled_before. }
  unfold write_atomic in Hw. destruct (write_closure name bytes w) as [w1 r1] eqn:E.
  eapply write_closure_spec in E as [Hs1 Hr1]; [|done|done].
  destruct r1 as [[]|e].
  - destruct Hr1 as (f & Ha & Hn). by eapply sync_dir_spec.
  - destruct Hr1 as (f & Hb). simplify_eq.
    destruct (remove_file (tmp_name name) w1) as [w2 r2] eqn:E2. simpl.
    eapply (prim_keeps (before f)) in E2 as (_ & Hs2 & _);
      eauto using before_safe, before_set_name, tmp_name_ne. by split.
Qed.
End WriteAtomic.
(** C24: replacing a small file is crash-atomic: wherever the machine stops, and
    whichever system calls fail, reading the file afterwards gives the old
    content or the complete new one; once [write_atomic] has returned [Ok]
    every crash leaves the new content. *)
Theorem write_atomic_crash_atomic name bytes old w w' r :
  settled (dsk w) name old → write_atomic name bytes w = (w', r) →
  (∃ h, hist w' = hist w ++ h ∧
     ∀ d x, d ∈ h ++ [dsk w'] → crash_read d name x → x = old ∨ x = Some bytes) ∧
  (r = Ok tt → ∀ x, crash_read (dsk w') name x → x = Some bytes).
Proof.
  intros Hset Hw.
  eapply write_atomic_safe in Hw as [[(h & Hh & Hsafe) Hd] Hok]; [|done|done].
  split; [|done]. exists h. split; [done|]. intros d x.
  rewrite elem_of_app, list_elem_of_singleton.
  intros [Hin| ->]; [|by apply Hd]. by apply (proj1 (Forall_forall _ _) Hsafe).
Qed.

Lemma settled_read d name old : settled d name old → crash_read d name old.
Proof.
  intros (_ & _ & _ & Hs). exists (synced d !! name). split; [by left|].
  destruct (synced d !! name); [|done]. destruct Hs as (nd & -> & -> & ->). done.
Qed.

(** A directory whose names have inodes of their own. *)
Definition dir_wf (d : disk) : Prop :=
  (∀ n m i, names d !! n = Some i → names d !! m = Some i → n = m) ∧
  (∀ n i, names d !! n = Some i → is_Some (inodes d !! i)).

Lemma prim_Ok ok fail w w' :
  prim ok fail w = (w', Ok tt) → dsk w' = ok (dsk w).
Proof. intros H. by apply prim_cases in H as (_ & [[_ ->]|(? & ? & ? & _)]). Qed.

Lemma dir_wf_set_inode i nd d : dir_wf d → dir_wf (set_inode i nd d).
Proof.
  intros [Hinj Hdom]. split; [done|]. intros n j Hj. simpl in *.
  destruct (decide (j = i)) as [->|Hne]; [by rewrite lookup_insert_eq|].
  rewrite lookup_insert_ne by done. eauto.
Qed.

Lemma dir_wf_create n d :
  dir_wf d → let i := create_inode n d in
  dir_wf (set_name n (Some i) (set_inode i {| content := []; stable := false |} d)).
Proof.
  intros Hwf i. pose proof Hwf as [Hinj Hdom].
  assert (∀ m, names d !! m = Some i → m = n) as Hi.
  { intros m Hm. unfold i, create_inode in *. destruct (names d !! n) as [j|] eqn:E; [eauto|].
    apply Hdom in Hm. apply elem_of_dom in Hm. by apply is_fresh in Hm. }
  split; simpl.
  - intros a b j. rewrite !lookup_partial_alter. repeat case_decide; subst; intros; simplify_eq.
    + done.
    + symmetry. by apply Hi.
    + by apply Hi.
    + eauto.
  - intros a j. rewrite lookup_partial_alter. case_decide; intros; simplify_eq;
      [by rewrite lookup_insert_eq|].
    destruct (decide (j = i)) as [->|]; [by rewrite lookup_insert_eq|].
    rewrite lookup_insert_ne by done. eauto.
Qed.

Lemma dir_wf_rename a b d :
  a ≠ b → dir_wf d → dir_wf (set_name a None (set_name b (names d !! a) d)).
Proof.
  intros Hab [Hinj Hdom]. split; simpl.
  - intros n m i. rewrite !lookup_partial_alter. repeat case_decide; subst; intros; simplify_eq;
      try done; try (exfalso; eauto; fail); eauto.
  - intros n i. rewrite !lookup_partial_alter. repeat case_decide; subst; intros; simplify_eq; eauto.
Qed.

(** A replacement that returned [Ok] leaves the file settled with the new
    content, ready for the next one. *)
Lemma write_atomic_settled name bytes w w' :
  dir_wf (dsk w) → write_atomic name bytes w = (w', Ok tt) →
  dir_wf (dsk w') ∧ settled (dsk w') name (Some bytes).
Proof.
  intros Hwf Hw. unfold write_atomic in Hw.
  destruct (write_closure name bytes w) as [w4 [[]|]] eqn:E; [|done].
  unfold write_closure, file_create in E. cbv zeta in E.
  set (f := create_inode (tmp_name name) (dsk w)) in *.
  apply st_bind_Ok in E as (x & w1 & E1 & E). apply st_bind_Ok in E1 as ([] & w1' & E1 & [= <- <-]).
  apply st_bind_Ok in E as ([] & w2 & E2 & E). apply st_bind_Ok in E as ([] & w3 & E3 & E4).
  apply prim_Ok in E1, E2, E3, E4.
  unfold sync_dir in Hw. apply st_bind_Ok in Hw as ([] & w5 & E5 & E6). apply prim_Ok in E5, E6.
  assert (dir_wf (dsk w3)) as Hwf3.
  { rewrite E3, E2, E1. unfold append_inode. do 2 apply dir_wf_set_inode. by apply dir_wf_create. }
  assert (dir_wf (dsk w4)) as Hwf4 by (rewrite E4; by apply dir_wf_rename, Hwf3; apply tmp_name_ne).
  assert (names (dsk w3) !! tmp_name name = Some f) as Htmp
    by (rewrite E3, E2, E1; simpl; by rewrite lookup_partial_alter_eq).
  assert (names (dsk w4) !! name = Some f) as Hn.
  { rewrite E4, Htmp. simpl. rewrite lookup_partial_alter_ne by apply tmp_name_ne.
    by rewrite lookup_partial_alter_eq. }
  assert (inodes (dsk w4) !! f = Some {| content := bytes; stable := true |}) as Hf.
  { rewrite E4, E3, E2, E1. unfold append_inode, set_inode. simpl.
    by rewrite !lookup_insert_eq. }
  assert (dsk w5 = dsk w4) as H5 by done. rewrite E6, H5. split; [done|].
  unfold settled. simpl. rewrite Hn. split_and!; [done|..].
  - intros e He. by apply not_elem_of_nil in He.
  - intros n i Hne Hi [= <-]. destruct Hwf4 as [Hinj _]. eauto.
  - eauto.
Qed.

End AtomicWrite.
