(* ===== verification/Json.v ===== *)
(** * The JSON library interface

    serde_json is not part of the repository: its [Value] and the operations
    the code calls are a type class, what the code relies on is [JsonLaws].
    [JsonTree] is a concrete instance. *)
From S2P Require Import Prelude.
From stdpp Require Import countable.

Class Json (V : Type) := {
  j_null : V;
  j_bool : bool → V;
  j_u64 : N → V;
  j_str : string → V;
  j_arr : list V → V;
  j_obj : list (string * V) → V;
  as_u64 : V → option N;
  as_bool : V → option bool;
  as_str : V → option string;
  as_array : V → option (list V);
  j_get : string → V → option V;
  to_vec : V → result (list byte);
  to_string_pretty : V → result (list byte);
  from_slice : list byte → result V;
}.

(** Documents made of nulls, booleans, [u64]s, strings, arrays and objects
    with distinct keys: what the [json!] literals of the code build. *)
Inductive built {V} `{Json V} : V → Prop :=
  | built_null : built j_null
  | built_bool b : built (j_bool b)
  | built_u64 n : is_u64 n → built (j_u64 n)
  | built_str s : utf8 s = true → built (j_str s)
  | built_arr l : Forall built l → built (j_arr l)
  | built_obj kvs : NoDup (map fst kvs) → Forall built (map snd kvs) → built (j_obj kvs).

Class JsonLaws (V : Type) `{Json V} := {
  as_u64_u64 n : is_u64 n → as_u64 (j_u64 n) = Some n;
  as_bool_bool b : as_bool (j_bool b) = Some b;
  as_str_str s : as_str (j_str s) = Some s;
  as_str_null : as_str j_null = None;
  as_array_arr l : as_array (j_arr l) = Some l;
  j_get_obj k kvs : NoDup (map fst kvs) → j_get k (j_obj kvs) = (list_to_map kvs : gmap string V) !! k;
  to_vec_built v : built v → ∃ bs, to_vec v = Ok bs;
  from_slice_to_vec v bs : built v → to_vec v = Ok bs → from_slice bs = Ok v;
  from_slice_pretty v bs : built v → to_string_pretty v = Ok bs →
    utf8_valid bs = true ∧ from_slice bs = Ok v;
}.

Create HintDb json.
#[export] Hint Constructors built : json.

(** [json!] of an [Option<String>]. *)
Definition j_opt_str {V} `{Json V} (o : option string) : V :=
  match o with Some s => j_str s | None => j_null end.

Lemma built_opt_str {V} `{Json V} o :
  (∀ s, o = Some s → utf8 s = true) → built (j_opt_str o).
Proof. destruct o; simpl; auto with json. Qed.

Lemma as_str_opt_str {V} `{JsonLaws V} o : as_str (j_opt_str o) = o.
Proof. destruct o; simpl; [apply as_str_str|apply as_str_null]. Qed.

(** The side conditions and lookups of [json!] object literals. *)
Ltac keys := repeat (constructor; [rewrite ?not_elem_of_cons; split_and?; try done; set_solver|]); try constructor.
Ltac get := rewrite j_get_obj by (simpl; keys); simpl list_to_map;
  repeat first [rewrite lookup_insert_eq | rewrite lookup_insert_ne by done].

(** A concrete instance: trees, serialised through their code number. *)
Module JsonTree.

Definition leaf : Type := bool + (N + string).
Definition jtree : Type := gen_tree leaf.

Fixpoint flatten (kvs : list (string * jtree)) : list jtree :=
  match kvs with
  | [] => []
  | (k, v) :: kvs => GenLeaf (inr (inr k)) :: v :: flatten kvs
  end.

Fixpoint unflatten (l : list jtree) : list (string * jtree) :=
  match l with
  | GenLeaf (inr (inr k)) :: v :: l => (k, v) :: unflatten l
  | _ => []
  end.

Lemma unflatten_flatten kvs : unflatten (flatten kvs) = kvs.
Proof. induction kvs as [|[k v] kvs IH]; simpl; congruence. Qed.

(** The code number in ASCII: one byte, 0 or 1, per bit. *)
Fixpoint bit_bytes (p : positive) : list byte :=
  match p with
  | xH => [Byte.x01]
  | xO p => Byte.x00 :: bit_bytes p
  | xI p => Byte.x01 :: bit_bytes p
  end.

Fixpoint bytes_bit (bs : list byte) : option positive :=
  match bs with
  | [] => None
  | [b] => if decide (b = Byte.x01) then Some xH else None
  | b :: bs => p ← bytes_bit bs; Some (if decide (b = Byte.x01) then xI p else xO p)
  end.

Lemma bit_bytes_ne p : bit_bytes p ≠ [].
Proof. by destruct p. Qed.

Lemma bytes_bit_bytes p : bytes_bit (bit_bytes p) = Some p.
Proof.
  induction p as [p IH|p IH|]; [| |done]; cbn [bit_bytes];
    pose proof (bit_bytes_ne p); destruct (bit_bytes p) eqn:E; [done| |done|];
    cbn [bytes_bit] in *; by rewrite IH.
Qed.

Lemma bit_bytes_utf8 p : utf8_valid (bit_bytes p) = true.
Proof. by induction p. Qed.

#[export] Instance tree_json : Json jtree := {
  j_null := GenNode 2 [];
  j_bool b := GenLeaf (inl b);
  j_u64 n := GenLeaf (inr (inl n));
  j_str s := GenLeaf (inr (inr s));
  j_arr l := GenNode 0 l;
  j_obj kvs := GenNode 1 (flatten kvs);
  as_u64 v := match v with GenLeaf (inr (inl n)) => Some n | _ => None end;
  as_bool v := match v with GenLeaf (inl b) => Some b | _ => None end;
  as_str v := match v with GenLeaf (inr (inr s)) => Some s | _ => None end;
  as_array v := match v with GenNode 0 l => Some l | _ => None end;
  j_get k v := match v with
               | GenNode 1 l => (list_to_map (unflatten l) : gmap string jtree) !! k
               | _ => None end;
  to_vec v := Ok (bit_bytes (encode v));
  to_string_pretty v := Ok (bit_bytes (encode v));
  from_slice bs := ok_or (bytes_bit bs ≫= decode) "invalid JSON";
}.

#[export] Instance tree_json_laws : JsonLaws jtree.
Proof.
  split; try done.
  - intros k kvs _. simpl. by rewrite unflatten_flatten.
  - intros v. by eexists.
  - intros v bs _ [= <-]. simpl. rewrite bytes_bit_bytes. simpl. by rewrite decode_encode.
  - intros v bs _ [= <-]. simpl. rewrite bytes_bit_bytes. simpl.
    by rewrite decode_encode, bit_bytes_utf8.
Qed.

End JsonTree.
