(* ===== verification/Proto.v ===== *)
(** * Quorum wire protocol and consensus core types
    (src/icegres/src/quorum/proto.rs)

    [TermHistory] and its algebra, the record log, and the message codec. *)
From S2P Require Import Prelude Segment Json.
From Stdlib Require Import Sorting.Sorted.

Definition MAX_MESSAGE_BYTES : N := 268435456. (* 256 << 20 *)
Definition WRONG_CLUSTER_MARK : string := "wrong cluster".
Definition RECORD_FRAME : N := 0.
Definition RECORD_WATERMARK : N := 1.

(** ** Term histories *)

Record TermLsn := { term : N; lsn : N }.
#[export] Instance TermLsn_eq_dec : EqDecision TermLsn.
Proof. solve_decision. Defined.

Abbreviation TermHistory := (list TermLsn).

(** [TermHistory::up_to] *)
Definition up_to (h : TermHistory) (l : N) : TermHistory :=
  List.filter (λ e, lsn e <=? l) h.

(** [TermHistory::last_log_term] *)
Definition last_log_term (h : TermHistory) (flush_lsn : N) : N :=
  default 0 (term <$> last (up_to h flush_lsn)).

Section HistoryJson.
Context `{Json V}.

Definition history_to_json (h : TermHistory) : V :=
  j_arr (map (λ e, j_arr [j_u64 (term e); j_u64 (lsn e)]) h).

Definition entry_from_json (e : V) : result TermLsn :=
  pair ← ok_or (l ← as_array e; if (length l =? 2)%nat then Some l else None)
    "term_history entry is not a [term, lsn] pair";
  t ← ok_or (pair !! 0%nat ≫= as_u64) "term_history term is not a u64";
  l ← ok_or (pair !! 1%nat ≫= as_u64) "term_history lsn is not a u64";
  Ok {| term := t; lsn := l |}.

Fixpoint entries_from_json (arr : list V) : result TermHistory :=
  match arr with
  | [] => Ok []
  | e :: arr => t ← entry_from_json e; rest ← entries_from_json arr; Ok (t :: rest)
  end.

Definition history_from_json (v : V) : result TermHistory :=
  arr ← ok_or (as_array v) "term_history is not an array";
  entries_from_json arr.
End HistoryJson.

(** The shared index loop of [find_highest_common_point] and the proposer's
    [compute_start]: the last index at which the two histories agree on the
    term; a common term with two start positions is an error. *)
Fixpoint common_loop (prop_th sk_th : TermHistory) (i : nat) (last : option nat)
    : result (option nat) :=
  match prop_th, sk_th with
  | p :: prop_th, s :: sk_th =>
    if negb (term p =? term s) then Ok last
    else if negb (lsn p =? lsn s) then Err "term histories disagree on the start of term"
    else common_loop prop_th sk_th (S i) (Some i)
  | _, _ => Ok last
  end.

Definition find_highest_common_point (prop_th sk_th : TermHistory) (sk_wal_end : N)
    : result (option TermLsn) :=
  _ ← match last sk_th with
      | Some e => if sk_wal_end <? lsn e
                  then Err "acceptor term history end is beyond its flush position"
                  else Ok tt
      | None => Ok tt
      end;
  idx ← common_loop prop_th sk_th 0 None;
  match idx with
  | None => Ok None
  | Some i =>
    pi ← ok_or (prop_th !! i) "index out of bounds";
    if (i =? length prop_th - 1)%nat then Ok (Some {| term := term pi; lsn := sk_wal_end |})
    else
      pn ← ok_or (prop_th !! S i) "index out of bounds";
      let sk_end := match sk_th !! S i with Some e => lsn e | None => sk_wal_end end in
      Ok (Some {| term := term pi; lsn := N.min (lsn pn) sk_end |})
  end.

(** ** Records *)

Record Record_ := {
  r_lsn : N;
  r_kind : N;
  r_table_key : string;
  r_seq : N;
  r_body : list byte;
}.

Section Records.
Context (crc32 : list byte → N).

Definition record_payload (r : Record_) : list byte :=
  u64_le (r_lsn r) ++ [byte_of_N (r_kind r)] ++ u32_le (len (str_bytes (r_table_key r))) ++
  str_bytes (r_table_key r) ++ u64_le (r_seq r) ++ r_body r.

(** [Record::encode] *)
Definition record_encode (r : Record_) : result (list byte) :=
  _ ← ensure (len (str_bytes (r_table_key r)) <=? u32_max) "table key over u32 bytes";
  frame_bytes crc32 (record_payload r).

Definition decode_record_payload (p : list byte) : result Record_ :=
  if (length p <? 13)%nat then Err "record payload is shorter than its header" else
  let lsn := le_val (slice 0 8 p) in
  let kind := default 0 (Byte.to_N <$> p !! 8%nat) in
  if negb (kind =? RECORD_FRAME) && negb (kind =? RECORD_WATERMARK)
  then Err "unknown record kind" else
  let key_len := le_val (slice 9 13 p) in
  if len p <? 13 + key_len + 8 then Err "record payload is torn inside its table key/seq" else
  let kl := N.to_nat key_len in
  if negb (utf8_valid (slice 13 (13 + kl) p)) then Err "record table key is not UTF-8" else
  Ok {| r_lsn := lsn; r_kind := kind;
        r_table_key := bytes_str (slice 13 (13 + kl) p);
        r_seq := le_val (slice (13 + kl) (13 + kl + 8) p);
        r_body := drop (13 + kl + 8) p |}.

(** The [for range in scan.payloads] loop of [decode_records]. *)
Fixpoint decode_ranges (bytes : list byte) (ranges : list (nat * nat)) (pos : N)
    : result (list Record_) :=
  match ranges with
  | [] => Ok []
  | (a, b) :: ranges =>
    let frame_len := N.of_nat (b - a + FRAME_HEADER_BYTES) in
    rec ← decode_record_payload (slice a b bytes);
    if negb (r_lsn rec =? pos) then Err "record stream discontinuity"
    else rest ← decode_ranges bytes ranges (wadd pos frame_len); Ok (rec :: rest)
  end.

Definition decode_records (bytes : list byte) (expect_start : N) : result (list Record_) :=
  let scan := scan_frame_bytes crc32 bytes in
  match bad scan with
  | Some _ => Err "record stream is invalid"
  | None => decode_ranges bytes (payloads scan) expect_start
  end.
End Records.

(** ** Messages *)

Inductive Message :=
  | Greeting (tail_id : option string)
  | GreetingResp (tail_id : option string) (term flush_lsn : N)
  | VoteRequest (term : N)
  | VoteResponse (term : N) (granted : bool) (flush_lsn last_log_term : N)
      (term_history : TermHistory) (horizon_lsn commit_lsn : N)
  | Elected (term start_lsn : N) (term_history : TermHistory)
  | ElectedResp (term : N) (ok : bool)
  | Append (term begin_lsn end_lsn commit_lsn horizon_lsn : N) (records : list byte)
  | AppendResp (term : N) (ok : bool) (flush_lsn commit_lsn : N)
  | Read (from_lsn to_lsn : N)
  | ReadResp (from_lsn : N) (records : list byte)
  | Error (message : string).

Section Codec.
Context (crc32 : list byte → N) `{Json V}.

Definition header_and_payload (m : Message) : V * list byte :=
  match m with
  | Greeting tail_id =>
    (j_obj [("type", j_str "greeting"); ("tail_id", j_opt_str tail_id)], [])
  | GreetingResp tail_id term flush_lsn =>
    (j_obj [("type", j_str "greeting_resp"); ("tail_id", j_opt_str tail_id);
            ("term", j_u64 term); ("flush_lsn", j_u64 flush_lsn)], [])
  | VoteRequest term => (j_obj [("type", j_str "vote_req"); ("term", j_u64 term)], [])
  | VoteResponse term granted flush_lsn last_log_term term_history horizon_lsn commit_lsn =>
    (j_obj [("type", j_str "vote_resp"); ("term", j_u64 term); ("granted", j_bool granted);
            ("flush_lsn", j_u64 flush_lsn); ("last_log_term", j_u64 last_log_term);
            ("term_history", history_to_json term_history);
            ("horizon_lsn", j_u64 horizon_lsn); ("commit_lsn", j_u64 commit_lsn)], [])
  | Elected term start_lsn term_history =>
    (j_obj [("type", j_str "elected"); ("term", j_u64 term); ("start_lsn", j_u64 start_lsn);
            ("term_history", history_to_json term_history)], [])
  | ElectedResp term ok =>
    (j_obj [("type", j_str "elected_resp"); ("term", j_u64 term); ("ok", j_bool ok)], [])
  | Append term begin_lsn end_lsn commit_lsn horizon_lsn records =>
    (j_obj [("type", j_str "append"); ("term", j_u64 term); ("begin_lsn", j_u64 begin_lsn);
            ("end_lsn", j_u64 end_lsn); ("commit_lsn", j_u64 commit_lsn);
            ("horizon_lsn", j_u64 horizon_lsn)], records)
  | AppendResp term ok flush_lsn commit_lsn =>
    (j_obj [("type", j_str "append_resp"); ("term", j_u64 term); ("ok", j_bool ok);
            ("flush_lsn", j_u64 flush_lsn); ("commit_lsn", j_u64 commit_lsn)], [])
  | Read from_lsn to_lsn =>
    (j_obj [("type", j_str "read"); ("from_lsn", j_u64 from_lsn); ("to_lsn", j_u64 to_lsn)], [])
  | ReadResp from_lsn records =>
    (j_obj [("type", j_str "read_resp"); ("from_lsn", j_u64 from_lsn)], records)
  | Error message =>
    (j_obj [("type", j_str "error"); ("message", j_str message)], [])
  end.

(** [Message::encode] *)
Definition message_encode (m : Message) : result (list byte) :=
  let '(header, payload) := header_and_payload m in
  header ← to_vec header;
  let rest_len := 4 + len header + len payload in
  if MAX_MESSAGE_BYTES <? rest_len then Err "quorum message exceeds the cap" else
  let rest := u32_le (len header) ++ header ++ payload in
  Ok (u32_le (len rest) ++ u32_le (crc32 rest) ++ rest).

Definition ju64 (v : V) (key : string) : result N :=
  ok_or (j_get key v ≫= as_u64) "quorum message header field missing or not a u64".
Definition jbool (v : V) (key : string) : result bool :=
  ok_or (j_get key v ≫= as_bool) "quorum message header field missing or not a bool".
Definition jstr_opt (v : V) (key : string) : option string := j_get key v ≫= as_str.
Definition jhistory (v : V) : result TermHistory :=
  h ← ok_or (j_get "term_history" v) "quorum message header has no term_history";
  history_from_json h.

(** The [match ty] of [decode_rest]. *)
Definition decode_typed (ty : string) (header : V) (payload : list byte) : result Message :=
  if decide (ty = "greeting") then Ok (Greeting (jstr_opt header "tail_id"))
  else if decide (ty = "greeting_resp") then
    t ← ju64 header "term"; f ← ju64 header "flush_lsn";
    Ok (GreetingResp (jstr_opt header "tail_id") t f)
  else if decide (ty = "vote_req") then t ← ju64 header "term"; Ok (VoteRequest t)
  else if decide (ty = "vote_resp") then
    t ← ju64 header "term"; g ← jbool header "granted"; f ← ju64 header "flush_lsn";
    l ← ju64 header "last_log_term"; h ← jhistory header;
    ho ← ju64 header "horizon_lsn"; c ← ju64 header "commit_lsn";
    Ok (VoteResponse t g f l h ho c)
  else if decide (ty = "elected") then
    t ← ju64 header "term"; s ← ju64 header "start_lsn"; h ← jhistory header;
    Ok (Elected t s h)
  else if decide (ty = "elected_resp") then
    t ← ju64 header "term"; o ← jbool header "ok"; Ok (ElectedResp t o)
  else if decide (ty = "append") then
    t ← ju64 header "term"; b ← ju64 header "begin_lsn"; e ← ju64 header "end_lsn";
    c ← ju64 header "commit_lsn"; ho ← ju64 header "horizon_lsn";
    Ok (Append t b e c ho payload)
  else if decide (ty = "append_resp") then
    t ← ju64 header "term"; o ← jbool header "ok"; f ← ju64 header "flush_lsn";
    c ← ju64 header "commit_lsn"; Ok (AppendResp t o f c)
  else if decide (ty = "read") then
    f ← ju64 header "from_lsn"; t ← ju64 header "to_lsn"; Ok (Read f t)
  else if decide (ty = "read_resp") then
    f ← ju64 header "from_lsn"; Ok (ReadResp f payload)
  else if decide (ty = "error") then
    Ok (Error (default "(no message)" (j_get "message" header ≫= as_str)))
  else Err "unknown quorum message type".

Definition decode_rest (rest : list byte) : result Message :=
  if (length rest <? 4)%nat then Err "quorum message shorter than its header-length field" else
  let header_len := le_val (slice 0 4 rest) in
  if N.of_nat (length rest - 4) <? header_len
  then Err "quorum message header length overruns the message" else
  let hl := N.to_nat header_len in
  header ← from_slice (slice 4 (4 + hl) rest);
  let payload := drop (4 + hl) rest in
  ty ← ok_or (j_get "type" header ≫= as_str) "quorum message header has no type";
  decode_typed ty header payload.

(** [read_exact] of a byte stream: the bytes and the stream behind them. *)
Definition read_exact (n : nat) (s : list byte) (err : string) : result (list byte * list byte) :=
  if (length s <? n)%nat then Err err else Ok (take n s, drop n s).

(** [read_message]: one message off a stream, and the rest of the stream. *)
Definition read_message (s : list byte) : result (Message * list byte) :=
  '(hdr, s) ← read_exact 8 s "quorum read failed";
  let n := le_val (slice 0 4 hdr) in
  let crc := le_val (slice 4 8 hdr) in
  if (n <? 4) || (MAX_MESSAGE_BYTES <? n) then Err "implausible quorum message length" else
  '(rest, s) ← read_exact (N.to_nat n) s "quorum read failed mid-message";
  if negb (crc32 rest =? crc) then Err "quorum message crc mismatch" else
  m ← decode_rest rest;
  Ok (m, s).

(** [write_message]: the bytes put on the stream. *)
Definition write_message (s : list byte) (m : Message) : result (list byte) :=
  bytes ← message_encode m; Ok (s ++ bytes).
End Codec.

(** ** The algebra of term histories *)

Definition term_before (a b : TermLsn) : Prop := term a < term b ∧ lsn a ≤ lsn b.
(** A history an election can build: terms strictly increase, start positions
    never decrease. *)
Abbreviation wf_history h := (StronglySorted term_before h).

(** The tails at which two histories part. *)
Definition diverge (p s : TermHistory) : Prop :=
  match p, s with a :: _, b :: _ => term a ≠ term b | _, _ => True end.

Lemma elem_of_up_to h l e : e ∈ up_to h l ↔ e ∈ h ∧ lsn e ≤ l.
Proof.
  unfold up_to. rewrite !list_elem_of_In, filter_In, N.leb_le. done.
Qed.

Lemma up_to_app h1 h2 l : up_to (h1 ++ h2) l = up_to h1 l ++ up_to h2 l.
Proof. apply List.filter_app. Qed.

Lemma up_to_all h l : (∀ e, e ∈ h → lsn e ≤ l) → up_to h l = h.
Proof.
  induction h as [|e h IH]; intros Hall; [done|]. simpl.
  rewrite (proj2 (N.leb_le _ _)) by (apply Hall; left).
  f_equal. apply IH. intros e' He. apply Hall. by right.
Qed.

Lemma up_to_none h l : (∀ e, e ∈ h → l < lsn e) → up_to h l = [].
Proof.
  induction h as [|e h IH]; intros Hall; [done|]. simpl.
  rewrite (proj2 (N.leb_gt _ _)) by (apply Hall; left).
  apply IH. intros e' He. apply Hall. by right.
Qed.

Lemma up_to_up_to h l1 l2 : up_to (up_to h l1) l2 = up_to h (N.min l1 l2).
Proof.
  induction h as [|e h IH]; [done|]. simpl.
  destruct (lsn e <=? l1) eqn:E1, (lsn e <=? N.min l1 l2) eqn:E2; simpl;
    try destruct (lsn e <=? l2) eqn:E3; bool_prop; try lia; by rewrite IH.
Qed.

Lemma wf_history_app h1 h2 :
  wf_history (h1 ++ h2) ↔
  wf_history h1 ∧ wf_history h2 ∧ ∀ a b, a ∈ h1 → b ∈ h2 → term_before a b.
Proof.
  induction h1 as [|e h1 IH]; simpl.
  { split; [|naive_solver]. intros. split_and!; [constructor|done|].
    intros a b Ha. by apply not_elem_of_nil in Ha. }
  split.
  - intros H. apply StronglySorted_inv in H as [Hs Hall].
    apply IH in Hs as (H1 & H2 & H12). rewrite Forall_app in Hall. destruct Hall as [Ha1 Ha2].
    split_and!; [by constructor|done|]. intros a b Ha Hb. apply elem_of_cons in Ha as [->|Ha].
    + by apply (proj1 (Forall_forall _ _) Ha2).
    + by apply H12.
  - intros (H1 & H2 & H12). apply StronglySorted_inv in H1 as [Hs Hall]. constructor.
    + apply IH. split_and!; [done|done|]. intros. apply H12; [by right|done].
    + apply Forall_app. split; [done|]. apply Forall_forall. intros b Hb.
      apply H12; [by left|done].
Qed.

Lemma wf_history_cons_lsn e h e' : wf_history (e :: h) → e' ∈ h → term_before e e'.
Proof.
  intros H He. apply StronglySorted_inv in H as [_ Hall].
  by apply (proj1 (Forall_forall _ _) Hall).
Qed.

(** [up_to] keeps a prefix of a well-formed history. *)
Lemma up_to_prefix h l : wf_history h → ∃ t, h = up_to h l ++ t ∧ ∀ e, e ∈ t → l < lsn e.
Proof.
  induction h as [|e h IH]; intros Hwf.
  { exists []. split; [done|]. intros e He. by apply not_elem_of_nil in He. }
  simpl. destruct (lsn e <=? l) eqn:E; bool_prop.
  - pose proof (StronglySorted_inv Hwf) as [Hs _]. destruct (IH Hs) as (t & Ht & Hall).
    exists t. split; [simpl; by rewrite <-Ht|done].
  - exists (e :: h). assert (∀ e', e' ∈ e :: h → l < lsn e') as Hall.
    { intros e' He. apply elem_of_cons in He as [->|He]; [done|].
      pose proof (wf_history_cons_lsn _ _ _ Hwf He) as [_ ?]. lia. }
    rewrite up_to_none; [done|]. intros e' He. apply Hall. by right.
Qed.

Lemma up_to_wf h l : wf_history h → wf_history (up_to h l).
Proof.
  intros Hwf. destruct (up_to_prefix h l Hwf) as (t & Ht & _). rewrite Ht in Hwf.
  by apply wf_history_app in Hwf as (? & _).
Qed.

Lemma common_loop_spec p s i l r :
  common_loop p s i l = Ok r →
  ∃ c p' s', p = c ++ p' ∧ s = c ++ s' ∧ diverge p' s' ∧
    r = match c with [] => l | _ => Some (i + length c - 1)%nat end.
Proof.
  revert s i l. induction p as [|a p IH]; intros s i l H; simpl in H.
  { injection H as <-. by exists [], [], s. }
  destruct s as [|b s]; simpl in H.
  { injection H as <-. by exists [], (a :: p), []. }
  destruct (term a =? term b) eqn:Et; simpl in H; bool_prop.
  - destruct (lsn a =? lsn b) eqn:El; simpl in H; [|done]. bool_prop.
    assert (a = b) as -> by (destruct a, b; simpl in *; congruence).
    apply IH in H as (c & p' & s' & -> & -> & Hd & ->).
    exists (b :: c), p', s'. split_and!; auto. destruct c; simpl; f_equal; lia.
  - injection H as <-. exists [], (a :: p), (b :: s). done.
Qed.

(** What [find_highest_common_point] computes, in terms of the common prefix. *)
Lemma fhcp_spec prop_th sk_th we r :
  find_highest_common_point prop_th sk_th we = Ok r →
  ∃ c p' s', prop_th = c ++ p' ∧ sk_th = c ++ s' ∧ diverge p' s' ∧
    match r with
    | None => c = []
    | Some pt => ∃ e, last c = Some e ∧ term pt = term e ∧
        lsn pt = match p' with
                 | [] => we
                 | a :: _ => N.min (lsn a) match s' with b :: _ => lsn b | [] => we end
                 end
    end.
Proof.
  unfold find_highest_common_point. intros H.
  apply bind_Ok in H as (_ & _ & H). apply bind_Ok in H as (idx & Hc & H).
  apply common_loop_spec in Hc as (c & p' & s' & -> & -> & Hd & ->).
  exists c, p', s'. split_and!; auto.
  destruct c as [|e c'] using rev_ind; [by injection H as <-|]. clear IHc'.
  rewrite length_app in H. simpl in H.
  replace (length c' + 1 - 1)%nat with (length c') in H by lia.
  destruct (c' ++ [e]) as [|e1 l1] eqn:Ec; [by destruct c'|]. rewrite <-Ec in *. clear e1 l1 Ec.
  apply bind_Ok in H as (pi & Hpi & H). apply ok_or_Ok in Hpi.
  rewrite lookup_app_l in Hpi by (rewrite length_app; simpl; lia).
  rewrite lookup_app_r, Nat.sub_diag in Hpi by lia. injection Hpi as <-.
  rewrite last_snoc. rewrite !length_app in H. simpl in H.
  destruct p' as [|a p']; simpl in H.
  - rewrite (proj2 (Nat.eqb_eq _ _)) in H by lia. injection H as <-. by exists e.
  - rewrite (proj2 (Nat.eqb_neq _ _)) in H by lia.
    assert (∀ t, (((c' ++ [e]) ++ t) !! S (length c')) = t !! 0%nat) as Hnext.
    { intros t. rewrite lookup_app_r by (rewrite length_app; simpl; lia).
      rewrite length_app. simpl. f_equal. lia. }
    apply bind_Ok in H as (pn & Hpn & H). apply ok_or_Ok in Hpn.
    rewrite Hnext in Hpn. injection Hpn as <-. rewrite Hnext in H. injection H as <-.
    exists e. by destruct s'.
Qed.

(** The hypotheses under which two histories meet in a handshake: [T] is the
    proposer's own term, no acceptor history goes beyond it. *)
Definition handshake (prop_th sk_th : TermHistory) (we T : N) : Prop :=
  wf_history prop_th ∧ wf_history sk_th ∧
  (∃ l, last prop_th = Some {| term := T; lsn := l |}) ∧
  (∀ e, e ∈ sk_th → term e ≤ T) ∧ (∀ e, e ∈ sk_th → lsn e ≤ we).

(** Beyond the common prefix both histories start at or after the point. *)
Lemma fhcp_tails prop_th sk_th we T pt :
  handshake prop_th sk_th we T →
  find_highest_common_point prop_th sk_th we = Ok (Some pt) →
  ∃ c p' s', prop_th = c ++ p' ∧ sk_th = c ++ s' ∧ diverge p' s' ∧
    (p' = [] → s' = []) ∧
    lsn pt = match p' with
             | [] => we
             | a :: _ => N.min (lsn a) match s' with b :: _ => lsn b | [] => we end
             end ∧
    (∀ e, e ∈ p' → lsn pt ≤ lsn e) ∧ (∀ e, e ∈ s' → lsn pt ≤ lsn e) ∧
    wf_history p' ∧ wf_history s'.
Proof.
  intros (Hwp & Hws & (lT & HT) & Hle & Hwe) H.
  apply fhcp_spec in H as (c & p' & s' & -> & -> & Hd & e & Hl & _ & Hpt).
  apply wf_history_app in Hwp as (_ & Hwp' & Hcp). apply wf_history_app in Hws as (_ & Hws' & Hcs).
  assert (e ∈ c) as Hec by by apply last_Some_elem_of.
  (* with no proposer tail, the common prefix already reaches term T *)
  assert (p' = [] → s' = []) as Hs'.
  { intros ->. rewrite app_nil_r in HT. rewrite HT in Hl. injection Hl as <-.
    destruct s' as [|b s']; [done|]. pose proof (Hcs _ b Hec ltac:(by left)) as [Hb _].
    specialize (Hle b ltac:(set_solver)). simpl in Hb. lia. }
  exists c, p', s'. split_and!; try done.
  - intros e' He'. destruct p' as [|a p']; [by apply not_elem_of_nil in He'|].
    apply elem_of_cons in He' as [->|He']; [lia|].
    destruct (wf_history_cons_lsn _ _ _ Hwp' He') as [_ ?]. lia.
  - intros e' He'. destruct s' as [|b s']; [by apply not_elem_of_nil in He'|].
    destruct p' as [|a p']; [by specialize (Hs' eq_refl)|].
    apply elem_of_cons in He' as [->|He']; [lia|].
    destruct (wf_history_cons_lsn _ _ _ Hws' He') as [_ ?]. lia.
Qed.

(** Below the point the two logs carry the same terms. *)
Lemma fhcp_agree prop_th sk_th we T pt :
  handshake prop_th sk_th we T →
  find_highest_common_point prop_th sk_th we = Ok (Some pt) →
  ∀ x, x < lsn pt → up_to prop_th x = up_to sk_th x.
Proof.
  intros Hh H x Hx. eapply fhcp_tails in H as (c & p' & s' & -> & -> & _ & _ & _ & Hp & Hs & _);
    [|done]. rewrite !up_to_app, (up_to_none p'), (up_to_none s'); [done|..]; intros e He.
  - specialize (Hs e He). lia.
  - specialize (Hp e He). lia.
Qed.

(** the point the handshake computes is the exact divergence point: below it
    the proposer's and the acceptor's log carry the same terms, and it lies at
    the acceptor's flush position or at the first byte whose term differs. *)
Theorem fhcp_divergence_point prop_th sk_th we T pt :
  handshake prop_th sk_th we T →
  find_highest_common_point prop_th sk_th we = Ok (Some pt) →
  lsn pt ≤ we ∧
  (∀ x, x < lsn pt → up_to prop_th x = up_to sk_th x) ∧
  (lsn pt = we ∨ up_to prop_th (lsn pt) ≠ up_to sk_th (lsn pt)).
Proof.
  intros Hh H. split_and!; [|by eapply fhcp_agree|]; pose proof Hh as (_ & _ & _ & _ & Hwe);
    eapply fhcp_tails in H as (c & p' & s' & -> & -> & Hd & Hs' & Hpt & Hp & Hs & Hwp' & Hws'); try done.
  { rewrite Hpt. destruct p' as [|a p']; [done|]. destruct s' as [|b s']; [lia|].
    specialize (Hwe b ltac:(set_solver)). lia. }
  destruct (decide (lsn pt = we)) as [|Hne]; [by left|right].
  rewrite !up_to_app. intros Heq. apply app_inv_head in Heq.
  destruct p' as [|a p']; [done|]. destruct s' as [|b s'].
  + simpl in Heq. rewrite (proj2 (N.leb_le _ _)) in Heq by lia. done.
  + simpl in Heq, Hd.
    destruct (lsn a <=? lsn pt) eqn:Ea, (lsn b <=? lsn pt) eqn:Eb; bool_prop; try lia.
    * congruence.
    * assert (a ∈ a :: up_to p' (lsn pt)) as Hin by left. rewrite Heq in Hin.
      apply elem_of_up_to in Hin as [Hin _].
      destruct (wf_history_cons_lsn _ _ _ Hws' Hin) as [_ ?]. lia.
    * assert (b ∈ b :: up_to s' (lsn pt)) as Hin by left. rewrite <-Heq in Hin.
      apply elem_of_up_to in Hin as [Hin _].
      destruct (wf_history_cons_lsn _ _ _ Hwp' Hin) as [_ ?]. lia.
Qed.

(** ** The record log *)
Section RecordFacts.
Context (crc32 : list byte → N) (crc32_u32 : ∀ bs, is_u32 (crc32 bs)).

(** What the [u64]/[u8]/[String] fields of a record can hold. *)
Definition wf_record (r : Record_) : Prop :=
  is_u64 (r_lsn r) ∧ (r_kind r = RECORD_FRAME ∨ r_kind r = RECORD_WATERMARK) ∧
  utf8 (r_table_key r) = true ∧ is_u64 (r_seq r).

(** The bytes of a record whose key fits its header. *)
Definition record_frame (r : Record_) : list byte := frame crc32 (record_payload r).

(** Consecutive records: each starts where its predecessor ends. *)
Fixpoint stream_from (pos : N) (recs : list Record_) : Prop :=
  match recs with
  | [] => True
  | r :: recs => r_lsn r = pos ∧ stream_from (wadd pos (len (record_frame r))) recs
  end.

Lemma record_encode_Ok r f :
  record_encode crc32 r = Ok f ↔
  len (str_bytes (r_table_key r)) ≤ u32_max ∧ len (record_payload r) ≤ u32_max ∧
  f = record_frame r.
Proof.
  unfold record_encode. rewrite bind_Ok. split.
  - intros (? & Hk & Hf). apply ensure_Ok in Hk. apply frame_bytes_Ok in Hf as [? ->].
    bool_prop. auto.
  - intros (Hk & Hp & ->). exists tt. split; [apply ensure_Ok; by apply N.leb_le|].
    by apply frame_bytes_Ok.
Qed.

Lemma length_record_payload r :
  length (record_payload r) =
  (13 + length (str_bytes (r_table_key r)) + 8 + length (r_body r))%nat.
Proof.
  unfold record_payload. rewrite !length_app, !length_le_bytes. simpl. lia.
Qed.

Lemma decode_record_payload_encode r :
  wf_record r → len (str_bytes (r_table_key r)) ≤ u32_max →
  decode_record_payload (record_payload r) = Ok r.
Proof.
  intros (Hl & Hk & Hu & Hs) Hkey. unfold decode_record_payload.
  rewrite length_record_payload.
  set (k := str_bytes (r_table_key r)) in *.
  destruct (_ <? 13)%nat eqn:E; bool_prop; [lia|clear E].
  assert (slice 0 8 (record_payload r) = u64_le (r_lsn r)) as -> by done.
  assert (record_payload r !! 8%nat = Some (byte_of_N (r_kind r))) as -> by done.
  assert (slice 9 13 (record_payload r) = u32_le (len k)) as -> by done.
  rewrite le_val_u32 by (unfold u32_max, u32_modulus in *; lia).
  rewrite le_val_u64 by done. cbn [default from_option fmap option_fmap option_map].
  rewrite to_N_byte_of_N, N.mod_small by (destruct Hk as [-> | ->]; done).
  rewrite Nat2N.id.
  assert (slice 13 (13 + length k) (record_payload r) = k) as ->.
  { unfold slice. replace (13 + length k - 13)%nat with (length k) by lia.
    unfold record_payload. fold k. simpl. apply take_app_length. }
  assert (drop (13 + length k) (record_payload r) = u64_le (r_seq r) ++ r_body r) as Hd.
  { unfold record_payload. fold k. simpl. apply drop_app_length. }
  assert (slice (13 + length k) (13 + length k + 8) (record_payload r) = u64_le (r_seq r)) as ->.
  { unfold slice. rewrite Hd. by replace (13 + length k + 8 - (13 + length k))%nat with 8%nat by lia. }
  assert (drop (13 + length k + 8) (record_payload r) = r_body r) as ->.
  { by rewrite <-drop_drop, Hd. }
  rewrite le_val_u64 by done.
  unfold utf8 in Hu. fold k in Hu. rewrite Hu. unfold k. rewrite bytes_str_bytes.
  unfold id. match goal with |- context [if ?b then Err "unknown record kind" else _] =>
    destruct b eqn:E end.
  { apply andb_prop in E as [E1 E2]. bool_prop. by destruct Hk. }
  destruct (_ <? 13 + _ + 8) eqn:E'; bool_prop; [lia|]. by destruct r.
Qed.

(** Decoding the ranges of consecutive frames inside a larger buffer. *)
Lemma decode_ranges_encode recs pre pos post :
  Forall wf_record recs → Forall (λ r, len (str_bytes (r_table_key r)) ≤ u32_max) recs →
  stream_from pos recs →
  decode_ranges (pre ++ frames crc32 (map record_payload recs) ++ post)
    (ranges_from (length pre) (map record_payload recs)) pos = Ok recs.
Proof.
  revert pre pos. induction recs as [|r recs IH]; intros pre pos Hwf Hk Hs; [done|].
  apply Forall_cons in Hwf as [Hr Hwf]. apply Forall_cons in Hk as [Hkr Hk].
  destruct Hs as [Hpos Hs]. cbn [map ranges_from decode_ranges].
  set (p := record_payload r) in *. unfold FRAME_HEADER_BYTES.
  rewrite frames_cons, <-app_assoc.
  rewrite (slice_frame_payload crc32).
  unfold p. rewrite decode_record_payload_encode by done. fold p. cbn [mbind result_bind].
  rewrite Hpos, N.eqb_refl. simpl negb. cbn iota.
  replace (length pre + 8 + length p - (length pre + 8) + 8)%nat with (length (frame crc32 p))
    by (rewrite length_frame; lia).
  replace (length pre + 8 + length p)%nat with (length (pre ++ frame crc32 p))
    by (rewrite length_app, length_frame; lia).
  rewrite (app_assoc pre). rewrite IH; done.
Qed.

(** A stream of records written by [Record::encode], each at the position
    its predecessor ends, decodes back to exactly those records. *)
Lemma decode_records_roundtrip recs start fs :
  Forall wf_record recs → stream_from start recs →
  Forall2 (λ r f, record_encode crc32 r = Ok f) recs fs →
  decode_records crc32 (concat fs) start = Ok recs.
Proof.
  intros Hwf Hs Henc.
  assert (concat fs = frames crc32 (map record_payload recs) ∧
    Forall (λ r, len (str_bytes (r_table_key r)) ≤ u32_max) recs ∧
    Forall (λ p, len p ≤ u32_max) (map record_payload recs)) as (-> & Hk & Hp).
  { clear -Henc. induction Henc as [|r f recs fs Hr _ (IH1 & IH2 & IH3)]; [done|].
    apply record_encode_Ok in Hr as (? & ? & ->). cbn [map concat].
    rewrite frames_cons, IH1. split_and!; [done|by constructor|by constructor]. }
  unfold decode_records. rewrite scan_frames_roundtrip by done. cbn [bad payloads].
  pose proof (decode_ranges_encode recs [] start [] Hwf Hk Hs) as H.
  simpl in H. by rewrite app_nil_r in H.
Qed.

Lemma decode_record_payload_sound p r :
  decode_record_payload p = Ok r →
  wf_record r ∧ record_payload r = p ∧ len (str_bytes (r_table_key r)) ≤ u32_max.
Proof.
  unfold decode_record_payload. intros H.
  destruct (_ <? 13)%nat eqn:E1; [done|]. bool_prop.
  set (kind := default 0 _) in *.
  match type of H with context [if ?b then Err "unknown record kind" else _] =>
    destruct b eqn:E2; [done|] end.
  set (key_len := le_val (slice 9 13 p)) in *.
  destruct (_ <? 13 + key_len + 8) eqn:E3; [done|]. bool_prop.
  set (kl := N.to_nat key_len) in *.
  destruct (utf8_valid (slice 13 (13 + kl) p)) eqn:E4; simpl negb in H; [|done].
  cbn iota in H. apply Ok_inj in H. subst r.
  assert (∀ a b, (a ≤ b ≤ length p)%nat → le_val (slice a b p) < 256 ^ N.of_nat (b - a)) as Hb.
  { intros a b Hab. rewrite <-(length_slice a b p) by lia. apply le_val_bound. }
  assert (∀ a b, (a ≤ b ≤ length p)%nat → le_bytes (b - a) (le_val (slice a b p)) = slice a b p) as Hr.
  { intros a b Hab. etrans; [|apply (le_bytes_val (slice a b p))].
    by rewrite length_slice by lia. }
  assert (is_u32 key_len) as Hkl by (apply (Hb 9%nat 13%nat); lia).
  destruct (p !! 8%nat) as [kb|] eqn:E8; [|apply lookup_ge_None in E8; lia].
  unfold kind in *. cbn [default from_option fmap option_fmap option_map] in *.
  assert (Byte.to_N kb = RECORD_FRAME ∨ Byte.to_N kb = RECORD_WATERMARK) as Hk.
  { apply andb_false_iff in E2 as [E2|E2]; bool_prop; auto. }
  split; [|split].
  - split_and!; simpl.
    + apply (Hb 0%nat 8%nat). lia.
    + done.
    + unfold utf8. by rewrite str_bytes_str.
    + replace u64_modulus with (256 ^ N.of_nat (13 + kl + 8 - (13 + kl)))
        by (replace (13 + kl + 8 - (13 + kl))%nat with 8%nat by lia; done).
      apply Hb. lia.
  - unfold record_payload. cbn [r_lsn r_kind r_table_key r_seq r_body].
    rewrite str_bytes_str, length_slice by lia.
    replace (N.of_nat (13 + kl - 13)) with key_len by lia.
    pose proof (Hr 0 8)%nat as H08. simpl Nat.sub in H08. rewrite H08 by lia.
    pose proof (Hr 9 13)%nat as H913. simpl Nat.sub in H913.
    change (le_val (slice 9 13 p)) with key_len in H913. rewrite H913 by lia.
    pose proof (Hr (13 + kl) (13 + kl + 8))%nat as Hs.
    replace (13 + kl + 8 - (13 + kl))%nat with 8%nat in Hs by lia. rewrite Hs by lia.
    unfold id. rewrite byte_of_N_to_N.
    assert ([kb] = slice 8 9 p) as ->.
    { unfold slice. rewrite (drop_S _ _ _ E8). done. }
    assert (∀ a b c, (a ≤ b ≤ c)%nat → slice a b p ++ slice b c p = slice a c p) as Hsp.
    { intros a b c Habc. unfold slice. replace (c - a)%nat with ((b - a) + (c - b))%nat by lia.
      rewrite take_add, drop_drop. do 3 f_equal. lia. }
    rewrite (app_assoc (slice 0 8 p)), Hsp by lia.
    rewrite (app_assoc (slice 0 9 p)), Hsp by lia.
    rewrite (app_assoc (slice 0 13 p)), Hsp by lia.
    rewrite (app_assoc (slice 0 (13 + kl) p)), Hsp by lia.
    unfold slice. rewrite drop_0, Nat.sub_0_r. apply take_drop.
  - simpl. rewrite str_bytes_str, length_slice by lia. unfold u32_max, u32_modulus in *. lia.
Qed.

Lemma decode_ranges_sound pls pre post pos recs :
  decode_ranges (pre ++ frames crc32 pls ++ post) (ranges_from (length pre) pls) pos = Ok recs →
  map record_payload recs = pls ∧ Forall wf_record recs ∧ stream_from pos recs ∧
  Forall (λ r, len (str_bytes (r_table_key r)) ≤ u32_max) recs.
Proof.
  revert pre pos recs. induction pls as [|p pls IH]; intros pre pos recs H.
  { injection H as <-. done. }
  cbn [ranges_from decode_ranges] in H. unfold FRAME_HEADER_BYTES in H.
  rewrite frames_cons, <-app_assoc in H.
  rewrite (slice_frame_payload crc32) in H. apply bind_Ok in H as (r & Hr & H).
  destruct (negb _) eqn:E; [done|]. bool_prop. apply bind_Ok in H as (rest & Hrest & [= <-]).
  replace (length pre + 8 + length p - (length pre + 8) + 8)%nat with (length (frame crc32 p))
    in Hrest by (rewrite length_frame; lia).
  replace (length pre + 8 + length p)%nat with (length (pre ++ frame crc32 p)) in Hrest
    by (rewrite length_app, length_frame; lia).
  rewrite (app_assoc pre) in Hrest. apply IH in Hrest as (<- & Hw & Hs & Hk).
  apply decode_record_payload_sound in Hr as (Hwr & <- & Hkr).
  repeat split; try done; by constructor.
Qed.

(** Strict decoding accepts nothing but record streams: whatever bytes
    [decode_records] accepts are, byte for byte, the encodings of the records
    it returns, and those are well formed and carry consecutive positions. *)
Lemma decode_records_sound bytes start recs :
  decode_records crc32 bytes start = Ok recs →
  bytes = concat (map record_frame recs) ∧ Forall wf_record recs ∧ stream_from start recs ∧
  Forall (λ r, record_encode crc32 r = Ok (record_frame r)) recs.
Proof.
  unfold decode_records. intros H.
  destruct (scan_frame_bytes_sound crc32 bytes) as (pls & Hp & _ & Ht & Hg & Hu).
  destruct (bad (scan_frame_bytes crc32 bytes)); [done|].
  rewrite (Hg eq_refl), take_ge in Ht by done. rewrite Hp in H.
  pose proof (decode_ranges_sound pls [] [] start recs) as Hd. simpl in Hd.
  rewrite app_nil_r, <-Ht in Hd. apply Hd in H as (Hm & Hw & Hs & Hk).
  split_and!; auto.
  - rewrite Ht, <-Hm. unfold frames. by rewrite map_map.
  - rewrite <-Hm in Hu. apply Forall_fmap in Hu.
    eapply Forall_impl; [apply Forall_and; split; [exact Hk|exact Hu]|]. intros r [Hr Hp'].
    change (len (record_payload r) < u32_modulus) in Hp'.
    apply record_encode_Ok. split_and!; [done| |done]. unfold u32_max, u32_modulus in *. lia.
Qed.
(** C25: the record-log decoder is exact: [decode_records] accepts a byte string
    at a start position and returns [recs] if and only if [recs] are well-formed
    records with consecutive positions from the start and the bytes are their
    encodings, concatenated. *)
Theorem decode_records_exact bytes start recs :
  decode_records crc32 bytes start = Ok recs ↔
  ∃ fs, bytes = concat fs ∧ Forall wf_record recs ∧ stream_from start recs ∧
    Forall2 (λ r f, record_encode crc32 r = Ok f) recs fs.
Proof.
  split.
  - intros (-> & Hw & Hs & He)%decode_records_sound. exists (map record_frame recs).
    split_and!; [done..|]. clear -He. induction He; constructor; auto.
  - intros (fs & -> & Hw & Hs & He). by apply decode_records_roundtrip.
Qed.
End RecordFacts.

(** ** The message codec *)
Section CodecFacts.
Context (crc32 : list byte → N) (crc32_u32 : ∀ bs, is_u32 (crc32 bs)).
Context {V : Type} `{JsonLaws V}.

Definition wf_entry (e : TermLsn) : Prop := is_u64 (term e) ∧ is_u64 (lsn e).

(** What the fields of a message can hold ([u64]s and [String]s). *)
Definition wf_message (m : Message) : Prop :=
  match m with
  | Greeting id => ∀ s, id = Some s → utf8 s = true
  | GreetingResp id t f => (∀ s, id = Some s → utf8 s = true) ∧ is_u64 t ∧ is_u64 f
  | VoteRequest t => is_u64 t
  | VoteResponse t _ f l h ho c =>
    is_u64 t ∧ is_u64 f ∧ is_u64 l ∧ Forall wf_entry h ∧ is_u64 ho ∧ is_u64 c
  | Elected t s h => is_u64 t ∧ is_u64 s ∧ Forall wf_entry h
  | ElectedResp t _ => is_u64 t
  | Append t b e c h _ => is_u64 t ∧ is_u64 b ∧ is_u64 e ∧ is_u64 c ∧ is_u64 h
  | AppendResp t _ f c => is_u64 t ∧ is_u64 f ∧ is_u64 c
  | Read f t => is_u64 f ∧ is_u64 t
  | ReadResp f _ => is_u64 f
  | Error s => utf8 s = true
  end.

Lemma history_json_built h : Forall wf_entry h → built (V:=V) (history_to_json h).
Proof.
  intros Hall. apply built_arr. apply Forall_fmap. eapply Forall_impl; [done|].
  intros e [? ?]. apply built_arr. repeat constructor; auto with json.
Qed.

(** The JSON form of a term history loses nothing. *)
Lemma history_json_roundtrip h :
  Forall wf_entry h → history_from_json (V:=V) (history_to_json h) = Ok h.
Proof.
  intros Hall. unfold history_from_json, history_to_json. rewrite as_array_arr. simpl.
  induction Hall as [|e h [Ht Hl] _ IH]; [done|]. cbn [map entries_from_json].
  unfold entry_from_json at 1. rewrite as_array_arr. simpl.
  rewrite !as_u64_u64 by done. simpl. rewrite IH. by destruct e.
Qed.

Lemma header_built m : wf_message m → built (V:=V) (header_and_payload m).1.
Proof.
  destruct m; simpl; intros; destruct_and?; (apply built_obj; [simpl; keys|]); simpl;
    repeat first [apply Forall_cons; split | apply Forall_nil];
    auto using built_opt_str, history_json_built with json; by apply built_str.
Qed.

Lemma header_type m : ∃ ty, j_get (V:=V) "type" (header_and_payload m).1 ≫= as_str = Some ty ∧
  (wf_message m → decode_typed (V:=V) ty (header_and_payload m).1 (header_and_payload m).2 = Ok m).
Proof.
  destruct m; simpl; (eexists; split; [get; simpl; apply as_str_str|]); intros; destruct_and?;
    unfold decode_typed; repeat first [case_decide; [|done] | case_decide; [done|]]; simpl;
    unfold ju64, jbool, jstr_opt, jhistory; repeat (get; simpl);
    rewrite ?as_u64_u64, ?as_bool_bool, ?as_str_opt_str, ?as_str_str by done; simpl;
    rewrite ?history_json_roundtrip by done; done.
Qed.

Lemma decode_rest_encode hdr header payload ty :
  built hdr → to_vec hdr = Ok header → len header ≤ u32_max →
  j_get (V:=V) "type" hdr ≫= as_str = Some ty →
  decode_rest (V:=V) (u32_le (len header) ++ header ++ payload) = decode_typed ty hdr payload.
Proof.
  intros Hb Hv Hl Hty. unfold decode_rest.
  set (rest := u32_le (len header) ++ header ++ payload).
  assert (length rest = 4 + (length header + length payload))%nat as Hlen
    by (unfold rest; rewrite !length_app, length_le_bytes; done).
  destruct (_ <? 4)%nat eqn:E; bool_prop; [lia|].
  assert (slice 0 4 rest = u32_le (len header)) as -> by done.
  rewrite le_val_u32 by (unfold u32_max, u32_modulus in *; lia).
  destruct (_ <? len header) eqn:E2; bool_prop; [lia|]. rewrite Nat2N.id.
  assert (slice 4 (4 + length header) rest = header) as ->
    by (unfold slice; rewrite Nat.add_comm, Nat.add_sub; apply take_app_length).
  assert (drop (4 + length header) rest = payload) as ->
    by (unfold rest; rewrite <-drop_drop; exact (drop_app_length header payload)).
  rewrite (from_slice_to_vec hdr header) by done. simpl. by rewrite Hty.
Qed.

(** every message survives the wire: reading a stream that starts with an
    encoded message gives back the message and exactly the rest of the stream. *)
Theorem message_roundtrip m bytes rest :
  wf_message m → message_encode crc32 (V:=V) m = Ok bytes →
  read_message crc32 (V:=V) (bytes ++ rest) = Ok (m, rest).
Proof.
  intros Hwf Henc. unfold message_encode in Henc.
  pose proof (header_built m Hwf) as Hb. destruct (header_type m) as (ty & Hty & Hdec).
  specialize (Hdec Hwf). destruct (header_and_payload m) as [hdr payload].
  cbn [fst snd] in *.
  apply bind_Ok in Henc as (header & Hv & Henc). destruct (_ <? _) eqn:Hmax; [done|]. bool_prop.
  set (body := u32_le (len header) ++ header ++ payload) in *.
  apply Ok_inj in Henc as <-.
  assert (len body = 4 + len header + len payload) as Hlen
    by (unfold body; rewrite !length_app, length_le_bytes; lia).
  unfold MAX_MESSAGE_BYTES in *.
  assert (is_u32 (len body)) as Hu by (unfold u32_modulus; lia).
  unfold read_message, read_exact. rewrite <-!app_assoc.
  assert (∀ t, (length (u32_le (len body) ++ u32_le (crc32 body) ++ t) <? 8)%nat = false) as ->
    by (intros t; apply Nat.ltb_ge; rewrite !length_app, !length_le_bytes; lia).
  cbn [mbind result_bind].
  assert (take 8 (u32_le (len body) ++ u32_le (crc32 body) ++ body ++ rest) =
    u32_le (len body) ++ u32_le (crc32 body)) as -> by done.
  assert (drop 8 (u32_le (len body) ++ u32_le (crc32 body) ++ body ++ rest) = body ++ rest)
    as -> by done.
  assert (slice 0 4 (u32_le (len body) ++ u32_le (crc32 body)) = u32_le (len body)) as -> by done.
  assert (slice 4 8 (u32_le (len body) ++ u32_le (crc32 body)) = u32_le (crc32 body)) as -> by done.
  rewrite !le_val_u32 by auto. unfold MAX_MESSAGE_BYTES.
  destruct (_ || _) eqn:E.
  { apply orb_true_iff in E as [E|E]; bool_prop; lia. }
  rewrite Nat2N.id. destruct (_ <? _)%nat eqn:E2; bool_prop.
  { rewrite length_app in E2. lia. }
  cbn [mbind result_bind]. rewrite take_app_length, drop_app_length, N.eqb_refl. simpl negb.
  cbn iota. unfold body. rewrite (decode_rest_encode hdr header payload ty), Hdec; auto.
  unfold u32_max. lia.
Qed.
End CodecFacts.
