(* ===== verification/Acceptor.v ===== *)
(** * The acceptor state machine (src/icegres/src/quorum/acceptor.rs)

    The message handlers of one acceptor over two storage interfaces: the
    control file ([ControlStore]) and the record log ([WalStore]).  The laws of
    the interfaces are what the handlers rely on; [FileControl] and
    [SegmentWal] discharge them. *)
From S2P Require Import Prelude Segment Json Proto.
From Stdlib Require Import Sorting.Sorted.

Definition CONTROL_FORMAT : N := 1.

(** [PersistentState] *)
Record PersistentState := {
  ps_tail_id : option string;
  ps_node_id : N;
  ps_term : N;
  ps_term_history : TermHistory;
  ps_commit_lsn : N;
  ps_horizon_lsn : N;
}.

Definition ps_new (node_id : N) : PersistentState :=
  {| ps_tail_id := None; ps_node_id := node_id; ps_term := 0; ps_term_history := [];
     ps_commit_lsn := 0; ps_horizon_lsn := 0 |}.

(** The functional updates the handlers perform on a clone of the state. *)
Definition with_tail_id (s : PersistentState) (id : string) : PersistentState :=
  {| ps_tail_id := Some id; ps_node_id := ps_node_id s; ps_term := ps_term s;
     ps_term_history := ps_term_history s; ps_commit_lsn := ps_commit_lsn s;
     ps_horizon_lsn := ps_horizon_lsn s |}.
Definition with_term (s : PersistentState) (t : N) : PersistentState :=
  {| ps_tail_id := ps_tail_id s; ps_node_id := ps_node_id s; ps_term := t;
     ps_term_history := ps_term_history s; ps_commit_lsn := ps_commit_lsn s;
     ps_horizon_lsn := ps_horizon_lsn s |}.
Definition with_history (s : PersistentState) (h : TermHistory) : PersistentState :=
  {| ps_tail_id := ps_tail_id s; ps_node_id := ps_node_id s; ps_term := ps_term s;
     ps_term_history := h; ps_commit_lsn := ps_commit_lsn s;
     ps_horizon_lsn := ps_horizon_lsn s |}.
Definition with_commit (s : PersistentState) (c : N) : PersistentState :=
  {| ps_tail_id := ps_tail_id s; ps_node_id := ps_node_id s; ps_term := ps_term s;
     ps_term_history := ps_term_history s; ps_commit_lsn := c;
     ps_horizon_lsn := ps_horizon_lsn s |}.
Definition with_horizon (s : PersistentState) (h : N) : PersistentState :=
  {| ps_tail_id := ps_tail_id s; ps_node_id := ps_node_id s; ps_term := ps_term s;
     ps_term_history := ps_term_history s; ps_commit_lsn := ps_commit_lsn s;
     ps_horizon_lsn := h |}.

Section ControlJson.
Context `{Json V}.

(** [PersistentState::to_json], [PersistentState::from_json] *)
Definition ps_to_json (s : PersistentState) : V :=
  j_obj [("format", j_u64 CONTROL_FORMAT); ("tail_id", j_opt_str (ps_tail_id s));
         ("node_id", j_u64 (ps_node_id s)); ("term", j_u64 (ps_term s));
         ("term_history", history_to_json (ps_term_history s));
         ("commit_lsn", j_u64 (ps_commit_lsn s)); ("horizon_lsn", j_u64 (ps_horizon_lsn s))].

Definition ps_from_json (v : V) : result PersistentState :=
  let format := default 0 (j_get "format" v ≫= as_u64) in
  if negb (format =? CONTROL_FORMAT)
  then Err "icekeeper control file declares another format" else
  node_id ← ok_or (j_get "node_id" v ≫= as_u64) "control file has no node_id";
  term ← ok_or (j_get "term" v ≫= as_u64) "control file has no term";
  hv ← ok_or (j_get "term_history" v) "control file has no term_history";
  h ← history_from_json hv;
  Ok {| ps_tail_id := j_get "tail_id" v ≫= as_str; ps_node_id := node_id; ps_term := term;
        ps_term_history := h;
        ps_commit_lsn := default 0 (j_get "commit_lsn" v ≫= as_u64);
        ps_horizon_lsn := default 0 (j_get "horizon_lsn" v ≫= as_u64) |}.
End ControlJson.

(** What the fields of a state can hold. *)
Definition wf_state (s : PersistentState) : Prop :=
  (∀ id, ps_tail_id s = Some id → utf8 id = true) ∧ is_u64 (ps_node_id s) ∧
  is_u64 (ps_term s) ∧ Forall wf_entry (ps_term_history s) ∧
  is_u64 (ps_commit_lsn s) ∧ is_u64 (ps_horizon_lsn s).

Lemma wf_with_tail_id s id : wf_state s → utf8 id = true → wf_state (with_tail_id s id).
Proof. intros (? & ? & ? & ? & ? & ?) ?. split_and!; try done. by intros ? [= <-]. Qed.
Lemma wf_with_term s t : wf_state s → is_u64 t → wf_state (with_term s t).
Proof. intros (? & ? & ? & ? & ? & ?) ?. by split_and!. Qed.
Lemma wf_with_history s h : wf_state s → Forall wf_entry h → wf_state (with_history s h).
Proof. intros (? & ? & ? & ? & ? & ?) ?. by split_and!. Qed.
Lemma wf_with_commit s c : wf_state s → is_u64 c → wf_state (with_commit s c).
Proof. intros (? & ? & ? & ? & ? & ?) ?. by split_and!. Qed.
Lemma wf_with_horizon s h : wf_state s → is_u64 h → wf_state (with_horizon s h).
Proof. intros (? & ? & ? & ? & ? & ?) ?. by split_and!. Qed.
Lemma wf_commit s : wf_state s → is_u64 (ps_commit_lsn s).
Proof. by intros (? & ? & ? & ? & ? & ?). Qed.
Lemma wf_horizon s : wf_state s → is_u64 (ps_horizon_lsn s).
Proof. by intros (? & ? & ? & ? & ? & ?). Qed.
#[export] Hint Resolve wf_with_tail_id wf_with_term wf_with_history wf_with_commit
  wf_with_horizon wf_commit wf_horizon : icegres.

Lemma u64_min a b : is_u64 a → is_u64 (N.min a b).
Proof. lia. Qed.
Lemma u64_max2 a b : is_u64 a → is_u64 b → is_u64 (N.max a b).
Proof. lia. Qed.
#[export] Hint Resolve u64_min u64_max2 : icegres.

(** ** Storage interfaces *)

(** The [ControlStore] trait.  [may_load] is what a restart can read back,
    [ctrl_ok] says the store has not failed yet. *)
Class ControlStore (C : Type) := {
  ctrl_persist : PersistentState → stres C unit;
  ctrl_ok : C → Prop;
  may_load : C → option PersistentState → Prop;
}.

(** "Must not return [Ok] before the state is durable"; a failed persist
    leaves the old document or the new one. *)
Class ControlLaws (C : Type) `{ControlStore C} := {
  ctrl_persist_ok c c' s : ctrl_ok c → wf_state s → ctrl_persist s c = (c', Ok tt) →
    ctrl_ok c' ∧ ∀ o, may_load c' o → o = Some s;
  ctrl_persist_err c c' s e o : ctrl_ok c → wf_state s → ctrl_persist s c = (c', Err e) →
    may_load c' o → may_load c o ∨ o = Some s;
}.

(** The [WalStore] trait.  [held w p] is the byte the log holds at position
    [p], [wal_wf] the store's own invariant, [appendable w b] says an empty log
    can take its first record at [b]. *)
Class WalStore (W : Type) := {
  flush_lsn : W → N;
  is_empty : W → bool;
  wal_append : N → list byte → stres W unit;
  truncate_from : N → stres W unit;
  drop_below : N → W → W;
  retained_start : W → N;
  wal_read : W → N → N → result (list byte);
  held : W → N → option byte;
  wal_wf : W → Prop;
  appendable : W → N → Prop;
}.

(** [frames] written at [b] over a log that holds [f]. *)
Definition overwrite_at (f : N → option byte) (b : N) (frames : list byte) (p : N) : option byte :=
  if (b <=? p) && (p <? b + len frames) then frames !! N.to_nat (p - b) else f p.

Class WalLaws (crc32 : list byte → N) (W : Type) `{WalStore W} := {
  append_law b fs w w' r recs :
    wal_wf w → fs ≠ [] → is_u64 (b + len fs) → (is_empty w = true → appendable w b) →
    decode_records crc32 fs b = Ok recs →
    wal_append b fs w = (w', r) →
    wal_wf w' ∧
    match r with
    | Ok _ => (is_empty w = false → b = flush_lsn w) ∧
        (∀ p, held w' p = overwrite_at (held w) b fs p) ∧
        flush_lsn w' = b + len fs ∧ is_empty w' = false
    | Err _ => (∀ p, held w' p = held w p) ∧ is_empty w' = is_empty w ∧
        (is_empty w = false → flush_lsn w' = flush_lsn w)
    end;
  truncate_law l w w' r :
    wal_wf w → truncate_from l w = (w', r) →
    wal_wf w' ∧ (∀ p c, p < l → held w p = Some c → held w' p = Some c) ∧
    is_empty w' = is_empty w ∧
    match r with
    | Ok _ => flush_lsn w' = N.min l (flush_lsn w) ∧ (∀ p, l ≤ p → held w' p = None)
    | Err _ => flush_lsn w' = flush_lsn w
    end;
  drop_law h w :
    wal_wf w → wal_wf (drop_below h w) ∧ flush_lsn (drop_below h w) = flush_lsn w ∧
    is_empty (drop_below h w) = is_empty w ∧
    (∀ p, h ≤ p → held (drop_below h w) p = held w p);
  read_law w a b bs :
    wal_wf w → a ≤ b → is_u64 b → wal_read w a b = Ok bs →
    len bs = b - a ∧ ∀ i, (i < length bs)%nat → bs !! i = held w (a + N.of_nat i);
  held_bound w p : wal_wf w → is_Some (held w p) → p < flush_lsn w;
  held_empty w p : wal_wf w → is_empty w = true → held w p = None;
}.

(** ** The state machine *)
Section StateMachine.
Context (crc32 : list byte → N) {C W : Type} `{ControlStore C} `{WalStore W}.

(** [Acceptor<C, W>]; [wedged] is set by a failed persist. *)
Record Acceptor := {
  state : PersistentState;
  ctrl : C;
  wal : W;
  wedged : option string;
}.

Definition set_state (a : Acceptor) (s : PersistentState) : Acceptor :=
  {| state := s; ctrl := ctrl a; wal := wal a; wedged := wedged a |}.
Definition set_wal (a : Acceptor) (w : W) : Acceptor :=
  {| state := state a; ctrl := ctrl a; wal := w; wedged := wedged a |}.

(** [Acceptor::new] *)
Definition acceptor_new (s : PersistentState) (c : C) (w : W) : Acceptor :=
  {| state := with_commit s (N.min (ps_commit_lsn s) (flush_lsn w));
     ctrl := c; wal := w; wedged := None |}.

(** A fallible operation of the wal, run in place. *)
Definition on_wal {A} (op : stres W A) : stres Acceptor A := λ a,
  let '(w, r) := op (wal a) in (set_wal a w, r).

(** [Acceptor::persist] *)
Definition persist (next : PersistentState) : stres Acceptor unit := λ a,
  match ctrl_persist next (ctrl a) with
  | (c, Ok _) =>
    ({| state := next; ctrl := c; wal := wal a; wedged := wedged a |}, Ok tt)
  | (c, Err _) =>
    ({| state := state a; ctrl := c; wal := wal a;
        wedged := Some "control file persist failed" |}, Err "control file persist failed")
  end.

Definition handle_greeting (tail_id : option string) : stres Acceptor Message := λ a,
  ((match tail_id with
    | None => st_ret tt
    | Some id =>
      match ps_tail_id (state a) with
      | None => persist (with_tail_id (state a) id)
      | Some mine =>
        if negb (String.eqb mine id)
        then st_err ("refusing a greeting for another tail (" +:+ WRONG_CLUSTER_MARK +:+ ")")
        else st_ret tt
      end
    end) ;;*
   let* a := st_get in
   st_ret (GreetingResp (ps_tail_id (state a)) (ps_term (state a)) (flush_lsn (wal a))))%stres a.

Definition handle_vote (term : N) : stres Acceptor Message := λ a,
  let flush := flush_lsn (wal a) in
  (let* granted :=
     (if ps_term (state a) <? term
      then persist (with_term (state a) term) ;;* st_ret true
      else st_ret false) in
   let* a := st_get in
   let s := state a in
   st_ret (VoteResponse (ps_term s) granted flush
     (last_log_term (ps_term_history s) flush) (up_to (ps_term_history s) flush)
     (N.max (ps_horizon_lsn s) (retained_start (wal a))) (ps_commit_lsn s)))%stres a.

(** Where [handle_elected] expects the proposer to start: the divergence
    point of the two histories. *)
Definition expected_start (a : Acceptor) (start_lsn : N) (term_history : TermHistory)
    : result N :=
  let flush := flush_lsn (wal a) in
  let sk_th := up_to (ps_term_history (state a)) flush in
  lcp ← find_highest_common_point term_history sk_th flush;
  match lcp with
  | Some t => Ok (lsn t)
  | None =>
    if (match sk_th with [] => true | _ => false end) && is_empty (wal a) then Ok start_lsn
    else ok_or (lsn <$> head term_history) "elected message carries an empty term history"
  end.

Definition handle_elected (term start_lsn : N) (term_history : TermHistory)
    : stres Acceptor Message := λ a,
  ((if ps_term (state a) <? term then persist (with_term (state a) term) else st_ret tt) ;;*
   let* a := st_get in
   if term <? ps_term (state a) then st_ret (ElectedResp (ps_term (state a)) false) else
   let* expected := st_lift (expected_start a start_lsn term_history) in
   if negb (expected =? start_lsn)
   then st_err "elected start_lsn does not match the divergence point computed here" else
   if start_lsn <? ps_commit_lsn (state a)
   then st_err "refusing to truncate BELOW the committed position" else
   on_wal (truncate_from start_lsn) ;;*
   let* a := st_get in
   let next := with_history (state a) term_history in
   persist (with_commit next (N.min (ps_commit_lsn next) (flush_lsn (wal a)))) ;;*
   let* a := st_get in
   st_ret (ElectedResp (ps_term (state a)) true))%stres a.

(** The positions an accepted append leaves behind: the commit position in
    memory, the horizon persisted before anything below it is dropped. *)
Definition advance_positions (commit_lsn horizon_lsn : N) : stres Acceptor Message := λ a,
  let flush := flush_lsn (wal a) in
  let commit := N.min (N.max commit_lsn (ps_commit_lsn (state a))) flush in
  let a := set_state a (with_commit (state a) commit) in
  let new_horizon := N.max (ps_horizon_lsn (state a)) (N.min horizon_lsn commit) in
  ((if ps_horizon_lsn (state a) <? new_horizon
    then persist (with_horizon (state a) new_horizon) ;;*
         on_wal (λ w, (drop_below new_horizon w, Ok tt))
    else st_ret tt) ;;*
   let* a := st_get in
   st_ret (AppendResp (ps_term (state a)) true flush (ps_commit_lsn (state a))))%stres a.

Definition handle_append (term begin_lsn end_lsn commit_lsn horizon_lsn : N)
    (records : list byte) : stres Acceptor Message := λ a,
  if ps_term (state a) <? term
  then (a, Err "got an AppendRequest before its ProposerElected") else
  if term <? ps_term (state a) then (a, Ok (AppendResp (ps_term (state a)) false 0 0)) else
  if (length records =? 0)%nat then (a, Err "empty AppendRequest") else
  (let* _ := st_lift (decode_records crc32 records begin_lsn) in
   if negb (wadd begin_lsn (len records) =? end_lsn)
   then st_err "AppendRequest end_lsn does not match begin + payload bytes" else
   let pos := if is_empty (wal a) then begin_lsn else flush_lsn (wal a) in
   if negb (begin_lsn =? pos) then st_err "non-consecutive append" else
   on_wal (wal_append begin_lsn records) ;;*
   advance_positions commit_lsn horizon_lsn)%stres a.

Definition handle_read (from_lsn to_lsn : N) : stres Acceptor Message := λ a,
  let to := N.min to_lsn (flush_lsn (wal a)) in
  (let* records := st_lift (if to <=? from_lsn then Ok [] else wal_read (wal a) from_lsn to) in
   st_ret (ReadResp from_lsn records))%stres a.

(** [Acceptor::process] *)
Definition process (msg : Message) (a : Acceptor) : Acceptor * Message :=
  match wedged a with
  | Some _ => (a, Error "acceptor is wedged (restart it)")
  | None =>
    let '(a, res) :=
      match msg with
      | Greeting tail_id => handle_greeting tail_id a
      | VoteRequest term => handle_vote term a
      | Elected term start_lsn term_history => handle_elected term start_lsn term_history a
      | Append term begin_lsn end_lsn commit_lsn horizon_lsn records =>
        handle_append term begin_lsn end_lsn commit_lsn horizon_lsn records a
      | Read from_lsn to_lsn => handle_read from_lsn to_lsn a
      | _ => (a, Err "unexpected message sent to an acceptor")
      end in
    match res with Ok resp => (a, resp) | Err e => (a, Error e) end
  end.

(** [open_dir]: boot from what the control file ([loaded]) and the segment scan
    ([opened]) gave. *)
Definition open_dir (loaded : result (option PersistentState)) (node_id : N) (c : C)
    (opened : result W) : result Acceptor :=
  o ← loaded;
  s ← match o with
      | Some s => if negb (ps_node_id s =? node_id)
                  then Err "icekeeper data dir belongs to another node; refusing to impersonate"
                  else Ok s
      | None => Ok (ps_new node_id)
      end;
  w ← opened;
  Ok (acceptor_new s c w).

(** [handle_conn]: requests served one by one under the lock. *)
Fixpoint serve_all (msgs : list Message) (a : Acceptor) : Acceptor * list Message :=
  match msgs with
  | [] => (a, [])
  | m :: msgs =>
    let '(a, resp) := process m a in
    let '(a, resps) := serve_all msgs a in (a, resp :: resps)
  end.
End StateMachine.
Arguments Acceptor : clear implicits.

(** ** Invariant and committed data *)
Section AcceptorFacts.
Context (crc32 : list byte → N) {C W : Type} `{ControlStore C} `{WalStore W} `{!WalLaws crc32 W}.
Implicit Types a : Acceptor C W.

(** The local invariant: the log is well formed and the commit position never
    claims more than the log holds. *)
Definition acc_inv a : Prop :=
  wal_wf (wal a) ∧ ps_commit_lsn (state a) ≤ flush_lsn (wal a) ∧
  (is_empty (wal a) = true → ps_commit_lsn (state a) = 0).

(** Progress only: term, commit and horizon positions never move back, and
    every committed byte at or above the horizon stays what it was. *)
Definition grows a a' : Prop :=
  ps_term (state a) ≤ ps_term (state a') ∧
  ps_commit_lsn (state a) ≤ ps_commit_lsn (state a') ∧
  ps_horizon_lsn (state a) ≤ ps_horizon_lsn (state a') ∧
  ∀ p c, p < ps_commit_lsn (state a) → ps_horizon_lsn (state a') ≤ p →
         held (wal a) p = Some c → held (wal a') p = Some c.

(** What an append must satisfy: its positions are real [u64]s and an empty
    log can start at its position. *)
Definition msg_fits a (m : Message) : Prop :=
  match m with
  | Append _ b _ _ _ recs =>
    is_u64 (b + len recs) ∧ (is_empty (wal a) = true → appendable (wal a) b)
  | _ => True
  end.

Lemma grows_refl a : grows a a.
Proof. unfold grows. auto with lia. Qed.

Lemma grows_trans a b c : grows a b → grows b c → grows a c.
Proof.
  intros (? & ? & ? & Hab) (? & ? & ? & Hbc). split_and!; [lia..|].
  intros p x Hp Hh Hx. apply Hbc; [lia|lia|]. apply Hab; [lia|lia|done].
Qed.

(** [persist] adopts the new state exactly when it is durable; otherwise the
    acceptor is wedged and nothing else changed. *)
Lemma persist_cases next a a' r :
  persist next a = (a', r) →
  wal a' = wal a ∧
  ((r = Ok tt ∧ state a' = next ∧ wedged a' = wedged a ∧
    ctrl_persist next (ctrl a) = (ctrl a', Ok tt)) ∨
   (∃ e e', r = Err e ∧ state a' = state a ∧ is_Some (wedged a') ∧
    ctrl_persist next (ctrl a) = (ctrl a', Err e'))).
Proof.
  unfold persist. destruct (ctrl_persist next (ctrl a)) as [c [[]|e']] eqn:E;
    intros [= <- <-]; simpl; (split; [done|]); [left|right]; eauto 10.
Qed.

(** A persist whose state only moves positions forward keeps the invariant. *)
Lemma persist_grows next a a' r :
  persist next a = (a', r) → acc_inv a →
  ps_term (state a) ≤ ps_term next → ps_commit_lsn (state a) = ps_commit_lsn next →
  ps_horizon_lsn (state a) ≤ ps_horizon_lsn next →
  acc_inv a' ∧ grows a a'.
Proof.
  intros Hp (Hw & Hc & He) Ht Hcm Hh. apply persist_cases in Hp as (Hwal & Hor).
  unfold acc_inv, grows. rewrite Hwal.
  destruct Hor as [(-> & -> & _)|(e & e' & -> & -> & _)]; [rewrite <-Hcm|];
    split_and!; auto with lia.
Qed.

Lemma greeting_ok id a a' r :
  handle_greeting id a = (a', r) → acc_inv a → acc_inv a' ∧ grows a a'.
Proof.
  unfold handle_greeting, st_bind, st_ret, st_err, st_get. intros Hr Hi.
  destruct id as [id|]; [|simplify_eq; auto using grows_refl].
  destruct (ps_tail_id (state a)) as [mine|].
  { destruct (negb _); simplify_eq; auto using grows_refl. }
  destruct (persist _ a) as [a1 r1] eqn:E. eapply persist_grows in E; simpl; [|done|lia..].
  destruct r1; simplify_eq; done.
Qed.

Lemma vote_ok term a a' r :
  handle_vote term a = (a', r) → acc_inv a → acc_inv a' ∧ grows a a'.
Proof.
  unfold handle_vote, st_bind, st_ret, st_err, st_get. intros Hr Hi.
  destruct (_ <? term) eqn:Et; bool_prop; [|simplify_eq; auto using grows_refl].
  destruct (persist _ a) as [a1 r1] eqn:E. eapply persist_grows in E; simpl; [|done|lia..].
  destruct r1; simplify_eq; done.
Qed.

(** A truncation at or above the commit position. *)
Lemma truncate_ok l a a' r :
  on_wal (truncate_from l) a = (a', r) → acc_inv a → ps_commit_lsn (state a) ≤ l →
  acc_inv a' ∧ grows a a'.
Proof.
  unfold on_wal. destruct (truncate_from l (wal a)) as [w r1] eqn:E. intros [= <- <-].
  intros (Hw & Hc & He) Hl. eapply truncate_law in E as (Hw' & Hp & Hem & Hr); [|done].
  unfold acc_inv, grows. simpl. rewrite Hem. split_and!; try done.
  - destruct r1; [destruct Hr as [-> _]|rewrite Hr]; lia.
  - intros p c ? _. apply Hp. lia.
Qed.

Lemma elected_ok term start th a a' r :
  handle_elected term start th a = (a', r) → acc_inv a → acc_inv a' ∧ grows a a'.
Proof.
  unfold handle_elected, st_bind, st_ret, st_err, st_get, st_lift. intros Hr Hi.
  match type of Hr with context [(if ?b then ?x else ?y) a] =>
    destruct ((if b then x else y) a) as [a1 r1] eqn:E end.
  assert (acc_inv a1 ∧ grows a a1) as [Hi1 Hg1].
  { destruct (_ <? term) eqn:Et; bool_prop.
    - eapply persist_grows in E; simpl; [done|done|lia..].
    - simplify_eq. auto using grows_refl. }
  clear E. destruct r1; [|by simplify_eq].
  destruct (_ <? _); [by simplify_eq|].
  destruct (expected_start _ _ _); [|by simplify_eq].
  destruct (negb _); [by simplify_eq|].
  destruct (_ <? _) eqn:Ec; bool_prop; [by simplify_eq|].
  destruct (on_wal (truncate_from start) a1) as [a3 r3] eqn:E2.
  eapply truncate_ok in E2 as [Hi2 Hg2]; [|done..].
  pose proof (grows_trans _ _ _ Hg1 Hg2) as Hg. destruct r3; [|by simplify_eq].
  destruct (persist _ a3) as [a5 r5] eqn:E3.
  assert (acc_inv a5 ∧ grows a3 a5) as [Hi3 Hg3].
  { eapply persist_grows; [done|done|simpl; lia| |simpl; lia].
    destruct Hi2 as (_ & Hc2 & _). simpl. lia. }
  destruct r5; simplify_eq; eauto using grows_trans.
Qed.

(** An accepted append: the bytes land at the end of the log. *)
Lemma advance_ok c h a a' r :
  advance_positions c h a = (a', r) → acc_inv a → is_empty (wal a) = false →
  acc_inv a' ∧ grows a a'.
Proof.
  unfold advance_positions, st_bind, st_ret, st_get. intros Hr Hi Hne. cbv zeta in Hr.
  set (commit := N.min _ (flush_lsn (wal a))) in *.
  set (a1 := set_state a (with_commit (state a) commit)) in *.
  assert (acc_inv a1 ∧ grows a a1) as [Hi1 Hg1].
  { destruct Hi as (Hw & Hc & _). unfold a1, acc_inv, grows. simpl.
    split_and!; try done; try (unfold commit; lia). intros He. by rewrite He in Hne. }
  clearbody a1. destruct (_ <? _) eqn:Eh; [|by simplify_eq]. bool_prop.
  set (h' := N.max (ps_horizon_lsn (state a1)) _) in *.
  destruct (persist _ a1) as [a2 r2] eqn:E2.
  pose proof E2 as Hcases. apply persist_cases in Hcases as (Hw2 & Hor).
  eapply persist_grows in E2 as [Hi2 Hg2]; [|done|simpl; lia..].
  pose proof (grows_trans _ _ _ Hg1 Hg2) as Hg. destruct r2; [|by simplify_eq].
  destruct Hor as [(_ & Hs2 & _)|(? & ? & ? & _)]; [|done].
  unfold on_wal in Hr. simplify_eq. destruct Hi2 as (Hwf & Hc2 & He2).
  destruct (drop_law (crc32:=crc32) h' (wal a2) Hwf) as (Hd1 & Hd2 & Hd3 & Hd4).
  split.
  - unfold acc_inv. simpl. rewrite Hd2, Hd3. auto.
  - eapply grows_trans; [done|]. unfold grows. simpl. split_and!; try lia.
    intros p x _ Hp. rewrite Hs2 in Hp. by rewrite Hd4.
Qed.

Lemma append_ok t b e c h recs a a' r :
  handle_append crc32 t b e c h recs a = (a', r) →
  msg_fits a (Append t b e c h recs) → acc_inv a → acc_inv a' ∧ grows a a'.
Proof.
  unfold handle_append, st_bind, st_lift, st_err. intros Hr [Hfit Hap] Hi.
  destruct (_ <? t); [simplify_eq; auto using grows_refl|].
  destruct (t <? _); [simplify_eq; auto using grows_refl|].
  destruct (_ =? 0)%nat eqn:E0; [simplify_eq; auto using grows_refl|].
  destruct (decode_records _ _ _) as [rs|] eqn:Ed; [|simplify_eq; auto using grows_refl].
  destruct (negb _); [simplify_eq; auto using grows_refl|].
  destruct (negb _) eqn:Ep; [simplify_eq; auto using grows_refl|]. bool_prop.
  unfold on_wal in Hr. destruct (wal_append b recs (wal a)) as [w r1] eqn:Ea.
  pose proof Hi as (Hw & Hc & He).
  eapply append_law in Ea as (Hw' & Hor); [|done|by destruct recs|done..].
  assert (acc_inv (set_wal a w) ∧ grows a (set_wal a w)) as [Hi1 Hg1].
  { unfold acc_inv, grows. simpl. destruct r1.
    - destruct Hor as (Hb & Hh & Hf & Hem). rewrite Hem. split_and!; try lia; try done.
      + rewrite Hf. destruct (is_empty (wal a)); [rewrite He by done|]; lia.
      + intros p x Hp _. rewrite Hh. unfold overwrite_at.
        destruct (is_empty (wal a)); [rewrite He in Hp by done; lia|].
        rewrite (proj2 (N.leb_gt _ _)) by lia. done.
    - destruct Hor as (Hh & Hem & Hf). rewrite Hem. split_and!; try lia; try done.
      + destruct (is_empty (wal a)); [rewrite He by done; lia|]. by rewrite Hf.
      + intros p x _ _. by rewrite Hh. }
  destruct r1; [|by simplify_eq]. eapply advance_ok in Hr as [Hi2 Hg2]; [|done|].
  - eauto using grows_trans.
  - by destruct Hor as (_ & _ & _ & ?).
Qed.

(** whatever message an acceptor processes, and whichever storage calls
    fail, its term, commit position and horizon never move back, it never
    claims more committed than it holds, and every committed byte that is not
    below the horizon is still held, unchanged. *)
Theorem process_committed_stable m a a' resp :
  acc_inv a → msg_fits a m → process crc32 m a = (a', resp) → acc_inv a' ∧ grows a a'.
Proof.
  unfold process. intros Hi Hfit Hp.
  destruct (wedged a); [simplify_eq; auto using grows_refl|].
  destruct m; try (simplify_eq; auto using grows_refl; fail);
    match type of Hp with (let '(_, _) := ?h in _) = _ =>
      destruct h as [a1 r1] eqn:E; assert (a' = a1) as -> by (by destruct r1; simplify_eq);
      clear Hp end.
  - by eapply greeting_ok.
  - by eapply vote_ok.
  - by eapply elected_ok.
  - by eapply append_ok.
  - unfold handle_read, st_bind, st_lift, st_ret in E. repeat case_match; simplify_eq; auto using grows_refl.
Qed.
End AcceptorFacts.

(** ** What an acknowledgement means *)
Section Acks.
Context (crc32 : list byte → N) {C W : Type} `{ControlStore C} `{WalStore W} `{!WalLaws crc32 W}.
Implicit Types a : Acceptor C W.

Lemma advance_ack c h a a' resp :
  advance_positions c h a = (a', Ok resp) → wal_wf (wal a) →
  resp = AppendResp (ps_term (state a)) true (flush_lsn (wal a')) (ps_commit_lsn (state a')) ∧
  flush_lsn (wal a') = flush_lsn (wal a) ∧
  ps_commit_lsn (state a') = N.min (N.max c (ps_commit_lsn (state a))) (flush_lsn (wal a)) ∧
  ∀ p, ps_horizon_lsn (state a') ≤ p → held (wal a') p = held (wal a) p.
Proof.
  unfold advance_positions, st_bind, st_ret, st_get. intros Hr Hw. cbv zeta in Hr.
  destruct (_ <? _); [|by simplify_eq].
  set (h' := N.max (ps_horizon_lsn _) _) in *.
  destruct (persist _ _) as [a2 r2] eqn:E2. apply persist_cases in E2 as (Hw2 & Hor).
  destruct r2; [|by simplify_eq].
  destruct Hor as [(_ & Hs2 & _)|(? & ? & ? & _)]; [|done].
  unfold on_wal in Hr. simplify_eq. simpl in *. rewrite Hw2, Hs2. simpl.
  destruct (drop_law (crc32:=crc32) h' (wal a) Hw) as (Hd1 & Hd2 & Hd3 & Hd4).
  rewrite Hd2. split_and!; try done.
Qed.


(** A superseded proposer is fenced: a vote request, an elected message or an
    append below the acceptor's term changes nothing at all, and the answer
    carries the acceptor's higher term. *)
Theorem stale_term_fenced a t start th b e c h recs :
  wedged a = None → t < ps_term (state a) →
  process crc32 (Append t b e c h recs) a = (a, AppendResp (ps_term (state a)) false 0 0) ∧
  process crc32 (Elected t start th) a = (a, ElectedResp (ps_term (state a)) false) ∧
  ∃ fl l hi ho cm,
    process crc32 (VoteRequest t) a = (a, VoteResponse (ps_term (state a)) false fl l hi ho cm).
Proof.
  intros Hw Ht. unfold process, handle_append, handle_elected, handle_vote, st_bind, st_ret, st_get.
  rewrite Hw. assert (ps_term (state a) <? t = false) as -> by (apply N.ltb_ge; lia).
  assert (t <? ps_term (state a) = true) as -> by (by apply N.ltb_lt). eauto 10.
Qed.

(** A read returns the log's own bytes, exactly the asked range clipped to
    the flush position, and changes nothing. *)
Theorem read_exact_bytes f t a a' f' bs :
  acc_inv a → is_u64 (flush_lsn (wal a)) →
  process crc32 (Read f t) a = (a', ReadResp f' bs) →
  a' = a ∧ f' = f ∧ len bs = N.min t (flush_lsn (wal a)) - f ∧
  ∀ i, (i < length bs)%nat → bs !! i = held (wal a) (f + N.of_nat i).
Proof.
  intros (Hw & _) Hu. unfold process, handle_read, st_bind, st_lift, st_ret.
  destruct (wedged a); [done|]. destruct (_ <=? f) eqn:Ef; bool_prop.
  - intros [= <- <- <-]. split_and!; try done; simpl; lia.
  - destruct (wal_read _ _ _) eqn:Er; [|done]. intros [= <- <- <-].
    eapply read_law in Er as [Hl Hb]; [|done|lia|lia]. by split_and!.
Qed.

Lemma expected_start_spec a s th :
  expected_start a s th = Ok s →
  wf_history th →
  (∃ l, last th = Some {| term := ps_term (state a); lsn := l |}) →
  wf_history (ps_term_history (state a)) →
  (∀ e, e ∈ ps_term_history (state a) → term e ≤ ps_term (state a)) →
  is_empty (wal a) = true ∨
  ∀ x, x < s → up_to th x = up_to (ps_term_history (state a)) x ∨ up_to th x = [].
Proof.
  unfold expected_start. set (sk := up_to (ps_term_history (state a)) _). cbv zeta.
  intros Hx Hwt Hl Hws Hle. apply bind_Ok in Hx as (lcp & Hf & Hx).
  destruct lcp as [pt|].
  - apply Ok_inj in Hx as <-. right. intros x Hlt. left.
    assert (handshake th sk (flush_lsn (wal a)) (ps_term (state a))) as Hh.
    { split_and!; try done; [by apply up_to_wf| |]; intros e He;
        apply elem_of_up_to in He as [He ?]; auto. }
    pose proof (fhcp_tails _ _ _ _ _ Hh Hf) as (c & p' & s' & _ & Hsk & _ & _ & Hpt & _).
    erewrite fhcp_agree by done. unfold sk. rewrite up_to_up_to. f_equal.
    pose proof Hh as (_ & _ & _ & _ & Hwe). destruct p' as [|e p']; [lia|].
    destruct s' as [|b s']; [lia|]. specialize (Hwe b). rewrite Hsk in Hwe.
    specialize (Hwe ltac:(set_solver)). lia.
  - destruct (_ && _) eqn:E; [apply andb_prop in E as [_ E]; by left|]. right.
    intros x Hlt. right. apply ok_or_Ok in Hx. destruct th as [|e th]; [done|].
    injection Hx as Hs. apply up_to_none. intros e' He.
    apply elem_of_cons in He as [->|He]; [lia|].
    pose proof (wf_history_cons_lsn _ _ _ Hwt He) as [_ ?]. lia.
Qed.

(** a positive answer to an elected message means the acceptor now is a
    prefix of the new leader's log: its term is the leader's, the leader's
    history is adopted in full, everything at or after the start position is
    gone, nothing below it changed, and below it the adopted history gives
    every position the same term as the acceptor's own did (or none). *)
Theorem elected_ack_adopts t s th a a' t' :
  acc_inv a → wf_history th → (∃ l, last th = Some {| term := t; lsn := l |}) →
  wf_history (ps_term_history (state a)) →
  (∀ e, e ∈ ps_term_history (state a) → term e ≤ ps_term (state a)) →
  process crc32 (Elected t s th) a = (a', ElectedResp t' true) →
  t' = t ∧ ps_term (state a) ≤ t ∧ ps_term (state a') = t ∧ ps_term_history (state a') = th ∧
  flush_lsn (wal a') = N.min s (flush_lsn (wal a)) ∧
  (∀ p c, p < s → held (wal a) p = Some c → held (wal a') p = Some c) ∧
  (∀ p, s ≤ p → held (wal a') p = None) ∧
  ps_commit_lsn (state a) ≤ s ∧
  (is_empty (wal a) = true ∨
   ∀ x, x < s → up_to th x = up_to (ps_term_history (state a)) x ∨ up_to th x = []).
Proof.
  intros (Hw & _) Hwt Hl Hws Hle.
  unfold process, handle_elected, st_bind, st_ret, st_err, st_get, st_lift.
  destruct (wedged a); [done|].
  match goal with |- context [(if ?b then ?x else ?y) a] =>
    destruct ((if b then x else y) a) as [a1 r1] eqn:E end.
  destruct r1; [|done].
  assert (wal a1 = wal a ∧ ps_term (state a1) = N.max t (ps_term (state a)) ∧
    ps_term_history (state a1) = ps_term_history (state a) ∧
    ps_commit_lsn (state a1) = ps_commit_lsn (state a)) as (Hw1 & Ht1 & Hh1 & Hc1).
  { destruct (_ <? t) eqn:Et; bool_prop.
    - apply persist_cases in E as (-> & [(_ & -> & _)|(? & ? & ? & _)]); [|done].
      simpl. split_and!; try done. lia.
    - simplify_eq. split_and!; try done. lia. }
  clear E. destruct (t <? _) eqn:Et; [done|]. bool_prop.
  destruct (expected_start a1 s th) as [x|] eqn:Ex; [|done].
  destruct (negb _) eqn:En; [done|]. bool_prop. subst x.
  destruct (_ <? _) eqn:Ec; bool_prop; [done|].
  unfold on_wal. destruct (truncate_from s (wal a1)) as [w r2] eqn:E2.
  destruct r2; [|done]. eapply truncate_law in E2 as (Hw2 & Hp & Hem & Hf & Hnone); [|by rewrite Hw1].
  destruct (persist _ _) as [a3 r3] eqn:E3. destruct r3; [|done]. intros [= <- <-].
  apply persist_cases in E3 as (Hw3 & [(_ & Hs3 & _)|(? & ? & ? & _)]); [|done].
  rewrite Hw3, Hs3. simpl. rewrite <-Hw1.
  assert (ps_term (state a1) = t) as Ht2 by lia.
  split_and!; try done; try lia.
  eapply expected_start_spec in Ex; rewrite ?Hh1 in *; try done.
  - by rewrite Ht2.
  - intros e He. etrans; [by apply Hle|lia].
Qed.
End Acks.

(** ** Votes across restarts *)
Section Lifetime.
Context (crc32 : list byte → N) {C W : Type} `{ControlLaws C} `{WalStore W}.
Context (node_id : N).
Implicit Types a : Acceptor C W.

(** What the terms and the identity of a state may become. *)
Definition ps_le (s s' : PersistentState) : Prop :=
  ps_term s ≤ ps_term s' ∧ (ps_tail_id s = None ∨ ps_tail_id s' = ps_tail_id s).

#[local] Instance ps_le_preorder : PreOrder ps_le.
Proof.
  split.
  - intros s. split; [lia|by right].
  - intros s1 s2 s3 [Ht1 Hi1] [Ht2 Hi2]. split; [lia|].
    destruct Hi1 as [|Hi1]; [by left|]. destruct Hi2 as [Hi2|Hi2]; [left|right]; congruence.
Qed.

Definition loaded_state (o : option PersistentState) : PersistentState :=
  default (ps_new node_id) o.

(** [f] is a floor under everything this acceptor can still become: under each
    document a restart can load and, while it serves, under its memory, which
    in turn is a floor under each loadable document. *)
Definition durable_floor (f : PersistentState) a : Prop :=
  (∀ o, may_load (ctrl a) o → ps_le f (loaded_state o) ∧ wf_state (loaded_state o)) ∧
  (wedged a = None → ctrl_ok (ctrl a) ∧ ps_le f (state a) ∧ wf_state (state a) ∧
     ∀ o, may_load (ctrl a) o → ps_le (state a) (loaded_state o)).

Lemma floor_state f a : durable_floor f a → wedged a = None → durable_floor (state a) a.
Proof.
  intros [Hl Hs] Hw. destruct (Hs Hw) as (? & ? & ? & Hsl). split; [|intros _; by split_and!].
  intros o Ho. split; [by apply Hsl|by apply Hl].
Qed.

Lemma floor_wf f a : durable_floor f a → wedged a = None → wf_state (state a).
Proof. intros [_ Hs] Hw. by destruct (Hs Hw) as (? & ? & ? & ?). Qed.

Lemma persist_floor f next a a' r :
  persist next a = (a', r) → wedged a = None → durable_floor f a →
  ps_le (state a) next → wf_state next → durable_floor f a'.
Proof.
  intros Hp Hw [Hl Hs] Hle Hwf. destruct (Hs Hw) as (Hok & Hfs & _ & Hsl).
  apply persist_cases in Hp as (_ & [(-> & Hst & Hwd & Hc)|(e & e' & -> & Hst & Hwd & Hc)]).
  - apply ctrl_persist_ok in Hc as [Hok' Hload]; [|done|done]. unfold durable_floor. rewrite Hst.
    split; [intros o Ho; rewrite (Hload o Ho); split; [by etrans|done]|]. intros _.
    split_and!; [done|by etrans|done|]. intros o Ho. by rewrite (Hload o Ho).
  - split; [|intros Hn; rewrite Hn in Hwd; by destruct Hwd].
    intros o Ho. eapply ctrl_persist_err in Ho as [Ho| ->]; [by apply Hl| |done..].
    split; [simpl; by etrans|done].
Qed.

(** Operations that leave the control file alone and only move memory's
    unpersisted positions. *)
Lemma floor_frame f a a' :
  ctrl a' = ctrl a → wedged a' = wedged a → ps_le (state a) (state a') →
  ps_le (state a') (state a) → (wf_state (state a) → wf_state (state a')) →
  durable_floor f a → durable_floor f a'.
Proof.
  intros Hc Hw Hle Hge Hwf [Hl Hs]. unfold durable_floor. rewrite Hc, Hw. split; [done|].
  intros Hn. destruct (Hs Hn) as (? & ? & ? & Hsl). split_and!; [done|by etrans|auto|].
  intros o Ho. etrans; [done|by apply Hsl].
Qed.

Lemma persist_ok_wedged next a a' u : persist next a = (a', Ok u) → wedged a' = wedged a ∧ state a' = next.
Proof. intros Hp. by apply persist_cases in Hp as (_ & [(_ & -> & -> & _)|(? & ? & ? & _)]). Qed.

Lemma on_wal_frame {A} (op : stres W A) a a' r :
  on_wal op a = (a', r) → ctrl a' = ctrl a ∧ wedged a' = wedged a ∧ state a' = state a.
Proof. unfold on_wal. destruct (op (wal a)). by intros [= <- _]. Qed.

(** What a response promises for good: a vote, an identity. *)
Definition granted_term (resp : Message) : option N :=
  match resp with VoteResponse t true _ _ _ _ _ => Some t | _ => None end.
Definition identity (resp : Message) : option string :=
  match resp with GreetingResp id _ _ => id | _ => None end.

Ltac le_tac := first [reflexivity | split; simpl; [lia | by right]].

Lemma greeting_floor f id a a' r :
  handle_greeting id a = (a', r) → wf_message (Greeting id) → wedged a = None →
  durable_floor f a →
  durable_floor f a' ∧ ∀ resp, r = Ok resp → wedged a' = None ∧
    resp = GreetingResp (ps_tail_id (state a')) (ps_term (state a')) (flush_lsn (wal a')).
Proof.
  unfold handle_greeting, st_bind, st_ret, st_err, st_get. intros Hr Hm Hw Hf.
  pose proof (floor_wf _ _ Hf Hw) as Hwf.
  destruct id as [id|]; [|simplify_eq; naive_solver].
  destruct (ps_tail_id (state a)) as [mine|] eqn:Eid.
  { destruct (negb _); simplify_eq; naive_solver. }
  destruct (persist _ a) as [a1 r1] eqn:E. pose proof E as E'.
  eapply persist_floor in E; [|done|done|split; simpl; [lia|by left]|auto with icegres].
  destruct r1 as [[]|]; simplify_eq; [|done].
  apply persist_ok_wedged in E' as [-> _]. naive_solver.
Qed.

Lemma vote_floor f term a a' r :
  handle_vote term a = (a', r) → is_u64 term → wedged a = None → durable_floor f a →
  durable_floor f a' ∧ ∀ resp, r = Ok resp → wedged a' = None ∧ identity resp = None ∧
    ∀ t, granted_term resp = Some t → ps_term (state a') = t ∧ ps_term (state a) < t.
Proof.
  unfold handle_vote, st_bind, st_ret, st_err, st_get. intros Hr Hm Hw Hf.
  pose proof (floor_wf _ _ Hf Hw) as Hwf.
  destruct (_ <? term) eqn:Et; bool_prop; [|simplify_eq; naive_solver].
  destruct (persist _ a) as [a1 r1] eqn:E. pose proof E as E'.
  eapply persist_floor in E; [|done|done|le_tac|auto with icegres].
  destruct r1 as [[]|]; simplify_eq; [|done].
  apply persist_ok_wedged in E' as [-> Hst]. split; [done|].
  intros resp [= <-]. split_and!; [done|done|]. intros t [= <-]. by rewrite Hst.
Qed.

Lemma elected_floor f t s th a a' r :
  handle_elected t s th a = (a', r) → wf_message (Elected t s th) → wedged a = None →
  durable_floor f a → durable_floor f a'.
Proof.
  unfold handle_elected, st_bind, st_ret, st_err, st_get, st_lift. intros Hr Hm Hw Hf.
  destruct Hm as (Hmt & Hms & Hmh). pose proof (floor_wf _ _ Hf Hw) as Hwf.
  match type of Hr with context [(if ?b then ?x else ?y) a] =>
    destruct ((if b then x else y) a) as [a1 r1] eqn:E end.
  assert (durable_floor f a1 ∧ (∀ u, r1 = Ok u → wedged a1 = None)) as [Hf1 Hw1].
  { destruct (_ <? t) eqn:Et; bool_prop; [|by simplify_eq].
    pose proof E as E'. eapply persist_floor in E; [|done|done|le_tac|auto with icegres].
    split; [done|]. intros u ->. apply persist_ok_wedged in E' as [-> _]. done. }
  clear E. destruct r1; [|by simplify_eq]. specialize (Hw1 _ eq_refl).
  destruct (_ <? _); [by simplify_eq|]. destruct (expected_start _ _ _); [|by simplify_eq].
  destruct (negb _); [by simplify_eq|]. destruct (_ <? _); [by simplify_eq|].
  destruct (on_wal (truncate_from s) a1) as [a3 r3] eqn:E2.
  apply on_wal_frame in E2 as (Hc3 & Hw3 & Hs3).
  assert (durable_floor f a3) as Hf3 by
    (apply (floor_frame f a1 a3); rewrite ?Hs3; first [done|le_tac|auto with icegres]).
  destruct r3; [|by simplify_eq]. destruct (persist _ a3) as [a5 r5] eqn:E3.
  eapply persist_floor in E3; [|by rewrite Hw3|done|le_tac|].
  - destruct r5; by simplify_eq.
  - rewrite Hs3. pose proof (floor_wf _ _ Hf1 Hw1). auto 10 with icegres.
Qed.

Lemma advance_floor f c h a a' r :
  advance_positions c h a = (a', r) → is_u64 c → is_u64 h → wedged a = None →
  durable_floor f a → durable_floor f a'.
Proof.
  unfold advance_positions, st_bind, st_ret, st_get. intros Hr Hc Hh Hw Hf. cbv zeta in Hr.
  pose proof (floor_wf _ _ Hf Hw) as Hwf.
  set (a1 := set_state a _) in *.
  assert (durable_floor f a1) as Hf1 by
    (apply (floor_frame f a a1); unfold a1; simpl; first [done|le_tac|auto with icegres]).
  pose proof (floor_wf _ _ Hf1 Hw) as Hwf1. destruct (_ <? _); [|by simplify_eq].
  destruct (persist _ a1) as [a2 r2] eqn:E2.
  eapply persist_floor in E2; [|done|done|le_tac|by auto 10 with icegres].
  destruct r2; [|by simplify_eq]. unfold on_wal in Hr. simplify_eq.
  by apply (floor_frame f a2 _); [done|done|le_tac|le_tac|done|].
Qed.

Lemma append_floor f t b e c h recs a a' r :
  handle_append crc32 t b e c h recs a = (a', r) → is_u64 c → is_u64 h → wedged a = None →
  durable_floor f a → durable_floor f a'.
Proof.
  unfold handle_append, st_bind, st_lift, st_err. intros Hr Hc Hh Hw Hf.
  destruct (_ <? t); [by simplify_eq|]. destruct (t <? _); [by simplify_eq|].
  destruct (_ =? 0)%nat; [by simplify_eq|]. destruct (decode_records _ _ _); [|by simplify_eq].
  destruct (negb _); [by simplify_eq|]. destruct (negb _); [by simplify_eq|].
  destruct (on_wal _ a) as [a1 r1] eqn:E1. apply on_wal_frame in E1 as (Hc1 & Hw1 & Hs1).
  assert (durable_floor f a1) as Hf1 by
    (apply (floor_frame f a a1); rewrite ?Hs1; first [done|le_tac|auto with icegres]).
  destruct r1; [|by simplify_eq]. eapply advance_floor; [done|done|done|by rewrite Hw1|done].
Qed.

Lemma process_floor f m a a' resp :
  process crc32 m a = (a', resp) → wf_message m → durable_floor f a →
  durable_floor f a' ∧
  (∀ t, granted_term resp = Some t →
     ps_term f < t ∧ ∃ f', durable_floor f' a' ∧ ps_term f' = t ∧ ps_le f f') ∧
  (∀ id, identity resp = Some id →
     ∃ f', durable_floor f' a' ∧ ps_tail_id f' = Some id ∧ ps_le f f').
Proof.
  unfold process. intros Hp Hm Hf. destruct (wedged a) eqn:Hw; [by simplify_eq|].
  destruct m; try (simplify_eq; done);
    match type of Hp with (let '(_, _) := ?h in _) = _ =>
      destruct h as [a1 r1] eqn:E; assert (a' = a1) as -> by (by destruct r1; simplify_eq) end.
  - eapply greeting_floor in E as [Hf1 Hr1]; [|done..]. split; [done|].
    destruct r1 as [m|]; simplify_eq; [|done]. destruct (Hr1 _ eq_refl) as [Hw1 ->].
    split; [done|]. intros id Hid. exists (state a1). split_and!; [by eapply floor_state|done|].
    destruct Hf1 as [_ Hs1]. by destruct (Hs1 Hw1) as (_ & ? & _ & _).
  - eapply vote_floor in E as [Hf1 Hr1]; [|done..]. split; [done|].
    destruct r1 as [m|]; simplify_eq; [|done].
    destruct (Hr1 _ eq_refl) as (Hw1 & -> & Hg). split; [|done].
    intros t Ht. destruct (Hg t Ht) as [Hst Hlt].
    destruct Hf as [_ Hs]. destruct (Hs Hw) as (_ & [? _] & _ & _). split; [lia|].
    exists (state a1). split_and!; [by eapply floor_state|done|].
    destruct Hf1 as [_ Hs1]. by destruct (Hs1 Hw1) as (_ & ? & _ & _).
  - assert (granted_term resp = None ∧ identity resp = None) as [-> ->].
    { unfold handle_elected, st_bind, st_ret, st_err, st_get, st_lift in E.
      repeat case_match; by simplify_eq. }
    split; [by eapply elected_floor|done].
  - assert (granted_term resp = None ∧ identity resp = None) as [-> ->].
    { unfold handle_append, advance_positions, st_bind, st_ret, st_err, st_get, st_lift in E.
      repeat case_match; by simplify_eq. }
    destruct Hm as (? & ? & ? & ? & ?). split; [by eapply append_floor|done].
  - unfold handle_read, st_bind, st_lift, st_ret in E. repeat case_match; by simplify_eq.
Qed.

(** The life of an acceptor: requests served and reboots, each from whatever
    the control file may hold at that moment and any log. *)
Inductive lifetime : Acceptor C W → list (Message * Message) → Acceptor C W → Prop :=
  | life_done a : lifetime a [] a
  | life_msg a a1 a' m resp tr :
      wf_message m → process crc32 m a = (a1, resp) → lifetime a1 tr a' →
      lifetime a ((m, resp) :: tr) a'
  | life_restart a o c w a1 a' tr :
      may_load (ctrl a) o → ctrl_ok c → (∀ o', may_load c o' → o' = o) →
      open_dir (Ok o) node_id c (Ok w) = Ok a1 → lifetime a1 tr a' →
      lifetime a tr a'.

Definition granted (tr : list (Message * Message)) : list N := omap (granted_term ∘ snd) tr.
Definition identities (tr : list (Message * Message)) : list string := omap (identity ∘ snd) tr.

Lemma restart_floor f a o c w a1 :
  may_load (ctrl a) o → ctrl_ok c → (∀ o', may_load c o' → o' = o) →
  open_dir (Ok o) node_id c (Ok w) = Ok a1 → durable_floor f a → durable_floor f a1.
Proof.
  intros Ho Hc Hload Hopen [Hl _]. unfold open_dir in Hopen. simpl in Hopen.
  assert (a1 = acceptor_new (loaded_state o) c w) as ->.
  { destruct o; simpl in *; [destruct (negb _)|]; by simplify_eq/=. }
  destruct (Hl o Ho) as [Hle Hwf]. split; simpl.
  - by intros o' ->%Hload.
  - intros _. split_and!; [done| | |intros o' ->%Hload; split; simpl; [lia|by right]].
    + etrans; [exact Hle|]. split; simpl; [lia|by right].
    + auto with icegres.
Qed.

Lemma lifetime_floor a tr a' :
  lifetime a tr a' → ∀ f, durable_floor f a →
  (Forall (λ t, ps_term f < t) (granted tr) ∧ StronglySorted N.lt (granted tr)) ∧
  (∀ id, ps_tail_id f = Some id → Forall (eq id) (identities tr)).
Proof.
  induction 1 as [|a a1 a' m resp tr Hm Hp _ IH|a o c w a1 a' tr Ho Hc Hl Hn _ IH]; intros f Hf.
  { split; [split; constructor|]. constructor. }
  - eapply process_floor in Hp as (Hf1 & Hg & Hi); [|done|done].
    destruct (IH _ Hf1) as [[Hall Hsort] Hids]. unfold granted, identities. simpl. split.
    + destruct (granted_term resp) as [t|] eqn:Et; [|done].
      destruct (Hg t eq_refl) as (Hlt & f' & Hf' & <- & _).
      destruct (IH _ Hf') as [[Hall' _] _]. split; by constructor.
    + intros id Hid. destruct (identity resp) as [id'|] eqn:Ei; [|by apply Hids].
      destruct (Hi id' eq_refl) as (f' & _ & Hid' & _ & [Hn|He]); [congruence|].
      constructor; [congruence|by apply Hids].
  - apply IH. by eapply restart_floor.
Qed.

(** C9: over its whole life, whatever it is asked, whichever storage calls fail
    and however often it restarts, an acceptor never grants two votes in one
    term (its granted terms strictly increase) and never speaks for two
    clusters (every identity it ever reports is the same). *)
Theorem votes_unique_identity_permanent f a tr a' :
  durable_floor f a → lifetime a tr a' →
  StronglySorted N.lt (granted tr) ∧
  ∀ id id', id ∈ identities tr → id' ∈ identities tr → id = id'.
Proof.
  intros Hf Hlife. split; [by eapply lifetime_floor|].
  revert f Hf. induction Hlife as [|a a1 a' m resp tr Hm Hp Hlife IH|a o c w a1 a' tr Ho Hc Hl Hn _ IH];
    intros f Hf.
  { intros ?? Hin. by apply not_elem_of_nil in Hin. }
  - eapply process_floor in Hp as (Hf1 & _ & Hi); [|done|done].
    unfold identities. simpl. destruct (identity resp) as [i|]; [|by eapply IH].
    destruct (Hi i eq_refl) as (f' & Hf' & Hid & _).
    pose proof (lifetime_floor _ _ _ Hlife f' Hf') as [_ Hall]. specialize (Hall i Hid).
    rewrite Forall_forall in Hall.
    intros id id' [->|Hin]%elem_of_cons [->|Hin']%elem_of_cons; try done.
    + by apply Hall.
    + symmetry. by apply Hall.
    + rewrite <-(Hall id), <-(Hall id') by done. done.
  - eapply IH, restart_floor; done.
Qed.
End Lifetime.

(** ** The control file's JSON *)
Section ControlRoundTrip.
Context {V : Type} `{JsonLaws V}.

Lemma ps_to_json_built s : wf_state s → built (V:=V) (ps_to_json s).
Proof.
  intros (? & ? & ? & ? & ? & ?). apply built_obj; [simpl; keys|]. simpl.
  repeat first [apply Forall_cons; split | apply Forall_nil];
    auto using built_opt_str, history_json_built with json; by apply built_u64.
Qed.

(** The control document loses nothing: reading back what was written gives
    the persisted state, field for field. *)
Lemma control_json_roundtrip s :
  wf_state s → ps_from_json (V:=V) (ps_to_json s) = Ok s.
Proof.
  intros (? & ? & ? & ? & ? & ?). unfold ps_from_json, ps_to_json. repeat (get; simpl).
  rewrite !as_u64_u64 by done. simpl. rewrite history_json_roundtrip by done. simpl.
  rewrite as_str_opt_str. by destruct s.
Qed.
End ControlRoundTrip.
