(* ===== verification/Control.v ===== *)
(** * The file-backed control store ([FileControl] of quorum/acceptor.rs)

    [<dir>/control.json] over the crashable directory of [Segment.AtomicWrite]:
    the implementation of the [ControlStore] interface, with its laws. *)
From S2P Require Import Prelude Segment Json Proto Acceptor.
Import AtomicWrite.

Definition CONTROL_FILE : string := "control.json".

Section FileControl.
Context {V : Type} `{JsonLaws V}.

(** [FileControl::load] of what reading the file gave ([None]: not found). *)
Definition load (raw : option (list byte)) : result (option PersistentState) :=
  match raw with
  | None => Ok None
  | Some raw =>
    _ ← ensure (utf8_valid raw) "cannot read icekeeper control file";
    v ← from_slice (V:=V) raw;
    s ← ps_from_json v;
    Ok (Some s)
  end.

(** [FileControl::persist] *)
Definition file_persist (s : PersistentState) : stres world unit :=
  (let* doc := st_lift (to_string_pretty (V:=V) (ps_to_json s)) in
   write_atomic CONTROL_FILE doc)%stres.

(** The control file of a directory whose last replacement completed. *)
Definition control_settled (w : world) : Prop :=
  dir_wf (dsk w) ∧ ∃ old, settled (dsk w) CONTROL_FILE old.

(** What a reboot at this moment may load. *)
Definition control_may_load (w : world) (o : option PersistentState) : Prop :=
  ∃ raw, crash_read (dsk w) CONTROL_FILE raw ∧ load raw = Ok o.

#[export] Instance file_control : ControlStore world := {
  ctrl_persist := file_persist;
  ctrl_ok := control_settled;
  may_load := control_may_load;
}.

Lemma load_pretty s doc :
  wf_state s → to_string_pretty (V:=V) (ps_to_json s) = Ok doc → load (Some doc) = Ok (Some s).
Proof.
  intros Hs Hd. apply from_slice_pretty in Hd as [Hu Hv]; [|by apply ps_to_json_built].
  unfold load. simpl. rewrite Hu. simpl. rewrite Hv. simpl. by rewrite control_json_roundtrip.
Qed.

Lemma file_persist_ok c c' s :
  control_settled c → wf_state s → file_persist s c = (c', Ok tt) →
  control_settled c' ∧ ∀ o, control_may_load c' o → o = Some s.
Proof.
  intros [Hwf [old Hset]] Hs Hp. unfold file_persist in Hp.
  apply st_bind_Ok in Hp as (doc & c1 & [= <- Ed] & Hp).
  split; [split; [|eexists]; by eapply write_atomic_settled|].
  intros o (raw & Hraw & Hload).
  destruct (write_atomic_safe _ _ _ (hist c) _ _ _ Hset eq_refl Hp) as [_ Hnew].
  rewrite (Hnew eq_refl _ Hraw), (load_pretty s) in Hload by done. congruence.
Qed.

(** the control file is crash-durable: wherever the machine stops while an
    acceptor persists a state, and whichever system calls fail, a reboot that
    loads the control file gets either a state it could have loaded before or
    exactly the new state; after [Ok] it gets the new state, and the file is
    ready for the next persist. *)
Theorem control_file_durable c c' s r :
  control_settled c → wf_state s → file_persist s c = (c', r) →
  (∃ h, hist c' = hist c ++ h ∧
     ∀ d raw o, d ∈ h ++ [dsk c'] → crash_read d CONTROL_FILE raw → load raw = Ok o →
       control_may_load c o ∨ o = Some s) ∧
  (r = Ok tt → control_settled c' ∧ ∀ o, control_may_load c' o → o = Some s).
Proof.
  intros Hc Hs Hp. split; [|intros ->; by eapply file_persist_ok].
  destruct Hc as [Hwf [old Hset]]. pose proof (settled_read _ _ _ Hset) as Hrd.
  unfold file_persist, st_bind, st_lift in Hp.
  destruct (to_string_pretty (ps_to_json s)) as [doc|] eqn:Ed.
  - destruct (write_atomic_safe _ _ _ (hist c) _ _ _ Hset eq_refl Hp) as [[(h & Hh & Hall) Hd] _].
    exists h. split; [done|]. intros d raw o Hin Hraw Hload.
    assert (raw = old ∨ raw = Some doc) as [->| ->].
    { apply elem_of_app in Hin as [Hin|Hin];
        [|apply list_elem_of_singleton in Hin as ->; by apply Hd].
      by apply (proj1 (Forall_forall _ _) Hall d Hin). }
    + left. by exists old.
    + right. rewrite (load_pretty s) in Hload by done. congruence.
  - simplify_eq. exists []. split; [by rewrite app_nil_r|].
    intros d raw o ->%list_elem_of_singleton Hraw Hload. left. by exists raw.
Qed.

#[export] Instance file_control_laws : ControlLaws world.
Proof.
  split; [exact file_persist_ok|].
  intros c c' s e o [Hwf [old Hset]] Hs Hp (raw & Hraw & Hload). simpl in Hp.
  unfold file_persist, st_bind, st_lift in Hp.
  destruct (to_string_pretty (ps_to_json s)) as [doc|] eqn:Ed;
    [|simplify_eq; left; by exists raw].
  destruct (write_atomic_safe _ _ _ (hist c) _ _ _ Hset eq_refl Hp) as [[_ Hd] _].
  destruct (Hd _ Hraw) as [->| ->].
  - left. exists old. split; [by apply settled_read|done].
  - right. rewrite (load_pretty s) in Hload by done. congruence.
Qed.
End FileControl.
