(* ===== verification/SegmentWal.v ===== *)
(** * The file-backed record log ([SegmentWal] of quorum/acceptor.rs)

    Segment files named by the position of their first record, with the
    append/rollback, truncation, garbage-collection, read and boot-scan code.
    Implements the [WalStore] interface of [Acceptor]. *)
From S2P Require Import Prelude Segment Json Proto Acceptor.
From stdpp Require Import sorting.
From Stdlib Require Import Sorting.Sorted.
#[local] Open Scope N_scope.

Definition SEGMENT_ROTATE_BYTES : N := 16777216. (* 16 << 20 *)

(** ** The wal directory

    A file is its start position (the [%016x.seg] name) and its bytes; every
    system call consumes one outcome of the script.  Beside what a running
    process sees, the disk knows how much of each file a sync has made durable
    ([wd_synced], nothing when absent) and which names a directory sync has
    ([wd_names]). *)
Abbreviation outcome := AtomicWrite.outcome.
Abbreviation IoOk := AtomicWrite.IoOk.
Abbreviation IoFail := AtomicWrite.IoFail.

Record wdisk := {
  wd_files : gmap N (list byte);
  wd_synced : gmap N nat;
  wd_names : gset N;
  wd_io : list outcome;
}.
Definition set_io (d : wdisk) (io : list outcome) : wdisk :=
  {| wd_files := wd_files d; wd_synced := wd_synced d; wd_names := wd_names d; wd_io := io |}.
Definition on_files (f : gmap N (list byte) → gmap N (list byte)) (d : wdisk) : wdisk :=
  {| wd_files := f (wd_files d); wd_synced := wd_synced d; wd_names := wd_names d; wd_io := wd_io d |}.
Definition on_synced (f : gmap N nat → gmap N nat) (d : wdisk) : wdisk :=
  {| wd_files := wd_files d; wd_synced := f (wd_synced d); wd_names := wd_names d; wd_io := wd_io d |}.
Definition on_names (f : gset N → gset N) (d : wdisk) : wdisk :=
  {| wd_files := wd_files d; wd_synced := wd_synced d; wd_names := f (wd_names d); wd_io := wd_io d |}.
Definition synced_len (d : wdisk) (s : N) : nat := default 0%nat (wd_synced d !! s).

Definition syscall (ok : wdisk → wdisk) (fail : nat → wdisk → wdisk) : stres wdisk unit := λ d,
  match wd_io d with
  | IoFail k :: rest => (fail k (set_io d rest), Err "io error")
  | IoOk :: rest => (ok (set_io d rest), Ok tt)
  | [] => (ok (set_io d []), Ok tt)
  end.

(** [OpenOptions::create_new(true).append(true)] *)
Definition create_new (s : N) : stres wdisk unit := λ d,
  match wd_files d !! s with
  | Some _ => (d, Err "file exists")
  | None => syscall (λ d, on_synced (delete s) (on_files (<[s := []]>) d)) (λ _ d, d) d
  end.
(** [write_all] in append mode; a failed write has put [k] bytes down. *)
Definition write_all (s : N) (bs : list byte) : stres wdisk unit :=
  syscall (on_files (alter (λ c, c ++ bs) s)) (λ k, on_files (alter (λ c, c ++ take k bs) s)).
(** [sync_data] and [sync_all] of an open file *)
Definition sync (s : N) : stres wdisk unit :=
  syscall (λ d, on_synced (<[s := length (default [] (wd_files d !! s))]>) d) (λ _ d, d).
Definition sync_dir : stres wdisk unit :=
  syscall (λ d, on_names (λ _, dom (wd_files d)) d) (λ _ d, d).
(** [File::set_len]: cuts, or pads with zeros. *)
Definition resize_bytes (n : nat) (c : list byte) : list byte :=
  take n c ++ replicate (n - length c) Byte.x00.
Definition set_len (s : N) (n : N) : stres wdisk unit :=
  syscall (λ d, on_synced (alter (Nat.min (N.to_nat n)) s)
                  (on_files (alter (resize_bytes (N.to_nat n)) s) d)) (λ _ d, d).
(** An unlink is taken to be ordered with what follows it in the directory. *)
Definition remove_file (s : N) : stres wdisk unit := λ d,
  match wd_files d !! s with
  | None => (d, Err "no such file")
  | Some _ => syscall (λ d, on_names (λ ns, ns ∖ {[s]}) (on_files (delete s) d)) (λ _ d, d) d
  end.
(** [fs::read] *)
Definition read_file (files : gmap N (list byte)) (s : N) : result (list byte) :=
  ok_or (files !! s) "cannot read segment".
(** [let _ = op;] *)
Definition ignore {S A} (op : stres S A) : stres S unit := λ s, (fst (op s), Ok tt).

(** ** State *)
Record Seg := { s_start : N; s_end : N }.

Record SegmentWal := {
  sw_disk : wdisk;
  sw_sealed : list Seg;
  sw_active : option Seg;
  sw_flush : N;
  sw_empty : bool;
  sw_rotate_bytes : N;
  sw_wedged : bool;
}.

Definition set_disk (w : SegmentWal) (d : wdisk) : SegmentWal :=
  {| sw_disk := d; sw_sealed := sw_sealed w; sw_active := sw_active w; sw_flush := sw_flush w;
     sw_empty := sw_empty w; sw_rotate_bytes := sw_rotate_bytes w; sw_wedged := sw_wedged w |}.
Definition set_segs (w : SegmentWal) (sealed : list Seg) (active : option Seg) : SegmentWal :=
  {| sw_disk := sw_disk w; sw_sealed := sealed; sw_active := active; sw_flush := sw_flush w;
     sw_empty := sw_empty w; sw_rotate_bytes := sw_rotate_bytes w; sw_wedged := sw_wedged w |}.
Definition set_flush (w : SegmentWal) (f : N) (e : bool) : SegmentWal :=
  {| sw_disk := sw_disk w; sw_sealed := sw_sealed w; sw_active := sw_active w; sw_flush := f;
     sw_empty := e; sw_rotate_bytes := sw_rotate_bytes w; sw_wedged := sw_wedged w |}.
Definition set_wedged (w : SegmentWal) : SegmentWal :=
  {| sw_disk := sw_disk w; sw_sealed := sw_sealed w; sw_active := sw_active w;
     sw_flush := sw_flush w; sw_empty := sw_empty w; sw_rotate_bytes := sw_rotate_bytes w;
     sw_wedged := true |}.

(** A system call of the wal's directory, in place. *)
Definition on_disk {A} (op : stres wdisk A) : stres SegmentWal A := λ w,
  let '(d, r) := op (sw_disk w) in (set_disk w d, r).
Definition st_modify {S} (f : S → S) : stres S unit := λ s, (f s, Ok tt).

(** [segs.sort_by_key(|s| s.start)] (stable) *)
Fixpoint insert_seg (s : Seg) (l : list Seg) : list Seg :=
  match l with
  | [] => [s]
  | t :: l' => if s_start s <=? s_start t then s :: l else t :: insert_seg s l'
  end.
Definition sort_segs (l : list Seg) : list Seg := foldr insert_seg [] l.

(** ** Boot scan *)
Section Wal.
Context (crc32 : list byte → N).

(** The frame loop of [scan_wal_segment]: positions must continue from
    [pos]; the result is the truncation point and whether something was bad. *)
Fixpoint check_ranges (data : list byte) (start : N) (ranges : list (nat * nat)) (pos : N)
    (good_end : nat) (bad : bool) : nat * bool :=
  match ranges with
  | [] => (good_end, bad)
  | (a, b) :: ranges =>
    if (b - a <? 8)%nat then ((a - FRAME_HEADER_BYTES)%nat, true)
    else if negb (le_val (slice a (a + 8) data) =? pos) then ((a - FRAME_HEADER_BYTES)%nat, true)
    else check_ranges data start ranges (wadd start (N.of_nat b)) b bad
  end.

Definition scan_wal_segment (start : N) : stres wdisk (N * bool) := λ d,
  (let* data := st_lift (read_file (wd_files d) start) in
   let scan := scan_frame_bytes crc32 data in
   let '(good_end, hit_bad) :=
     check_ranges data start (payloads scan) start 0
       (match bad scan with Some _ => true | None => false end) in
   (if hit_bad : bool then set_len start (N.of_nat good_end) ;;* sync start else st_ret tt) ;;*
   st_ret (wadd start (N.of_nat good_end), hit_bad))%stres d.

(** The [for (start, path) in named] loop of [SegmentWal::open]. *)
Fixpoint open_loop (named : list N) (pos : option N) (stop : bool) (sealed : list Seg)
    : stres wdisk (list Seg * option N) :=
  match named with
  | [] => st_ret (sealed, pos)
  | start :: named =>
    if stop then (ignore (remove_file start) ;;* open_loop named pos stop sealed)%stres
    else if match pos with Some p => negb (start =? p) | None => false end
    then (ignore (remove_file start) ;;* open_loop named pos true sealed)%stres
    else
      (let* r := scan_wal_segment start in
       let '(e, hit_bad) := r in
       if e =? start
       then ignore (remove_file start) ;;* open_loop named (Some e) hit_bad sealed
       else open_loop named (Some e) hit_bad (sealed ++ [{| s_start := start; s_end := e |}]))%stres
  end.

(** [named.sort()] over the directory listing. *)
Definition sorted_names (files : gmap N (list byte)) : list N :=
  merge_sort N.le (map fst (map_to_list files)).

(** [SegmentWal::open] *)
Definition wal_open (d : wdisk) : wdisk * result SegmentWal :=
  let '(d, r) := open_loop (sorted_names (wd_files d)) None false [] d in
  (d, '(sealed, pos) ← r;
      let flush := default 0 pos in
      Ok {| sw_disk := d; sw_sealed := sealed; sw_active := None; sw_flush := flush;
            sw_empty := (match sealed with [] => true | _ => false end) && (flush =? 0);
            sw_rotate_bytes := SEGMENT_ROTATE_BYTES; sw_wedged := false |}).

(** ** Operations *)

(** [seal_active] *)
Definition seal_active : stres SegmentWal unit := λ w,
  match sw_active w with
  | None => (w, Ok tt)
  | Some s =>
    if s_start s <? s_end s then (set_segs w (sw_sealed w ++ [s]) None, Ok tt)
    else ignore (on_disk (remove_file (s_start s))) (set_segs w (sw_sealed w) None)
  end.

(** The active segment, created on first use. *)
Definition ensure_active (begin_lsn : N) : stres SegmentWal Seg := λ w,
  match sw_active w with
  | Some s => (w, Ok s)
  | None =>
    (on_disk (create_new begin_lsn) ;;* on_disk sync_dir ;;*
     let s := {| s_start := begin_lsn; s_end := begin_lsn |} in
     st_modify (λ w, set_segs w (sw_sealed w) (Some s)) ;;* st_ret s)%stres w
  end.

(** [append] *)
Definition sw_append (begin_lsn : N) (frames : list byte) : stres SegmentWal unit := λ w,
  if sw_wedged w then (w, Err "icekeeper wal is wedged; restart") else
  let w := if sw_empty w then set_flush w begin_lsn (sw_empty w) else w in
  if negb (begin_lsn =? sw_flush w) then (w, Err "wal append does not match the write position") else
  (let* s := ensure_active begin_lsn in
   λ w,
   match on_disk (write_all (s_start s) frames ;;* sync (s_start s)) w with
   | (w, Err _) =>
     let good := wsub (s_end s) (s_start s) in
     let '(w, rolled) := on_disk (set_len (s_start s) good ;;* sync (s_start s)) w in
     (match rolled with Ok _ => w | Err _ => set_wedged w end, Err "icekeeper append failed")
   | (w, Ok _) =>
     let s := {| s_start := s_start s; s_end := wadd (s_end s) (len frames) |} in
     let w := set_flush (set_segs w (sw_sealed w) (Some s)) (s_end s) false in
     if sw_rotate_bytes w <=? wsub (s_end s) (s_start s) then seal_active w else (w, Ok tt)
   end)%stres w.

(** The delete loop of [truncate_from], newest segment first ([rs] is the
    reversed list of sealed segments). *)
Fixpoint delete_from (l : N) (rs : list Seg) : stres SegmentWal unit :=
  match rs with
  | [] => st_ret tt
  | s :: rs =>
    if s_start s <? l then st_ret tt
    else (on_disk (remove_file (s_start s)) ;;*
          st_modify (λ w, set_segs w (rev rs) (sw_active w)) ;;*
          delete_from l rs)%stres
  end.

(** Cutting the boundary segment. *)
Definition cut_last (l : N) : stres SegmentWal unit := λ w,
  match last (sw_sealed w) with
  | Some s =>
    if l <? s_end s then
      (on_disk (set_len (s_start s) (wsub l (s_start s)) ;;* sync (s_start s)) ;;*
       st_modify (λ w, set_segs w (removelast (sw_sealed w) ++ [{| s_start := s_start s; s_end := l |}])
                                  (sw_active w)) ;;*
       if l =? s_start s then
         ignore (on_disk (remove_file (s_start s))) ;;*
         st_modify (λ w, set_segs w (removelast (sw_sealed w)) (sw_active w))
       else st_ret tt)%stres w
    else (w, Ok tt)
  | None => (w, Ok tt)
  end.

(** [truncate_from] *)
Definition sw_truncate_from (l : N) : stres SegmentWal unit := λ w,
  if sw_wedged w then (w, Err "icekeeper wal is wedged; restart") else
  if sw_flush w <=? l then (w, Ok tt) else
  (seal_active ;;*
   st_modify (λ w, set_segs w (sort_segs (sw_sealed w)) (sw_active w)) ;;*
   (λ w, delete_from l (rev (sw_sealed w)) w) ;;*
   cut_last l ;;*
   on_disk sync_dir ;;*
   st_modify (λ w, set_flush w l (sw_empty w)))%stres w.

(** The delete loop of [drop_below]: oldest first, stopping at the first
    segment that is not covered or cannot be deleted; the number deleted. *)
Fixpoint drop_covered (horizon : N) (segs : list Seg) (d : wdisk) : wdisk * nat :=
  match segs with
  | [] => (d, 0%nat)
  | s :: segs =>
    if horizon <? s_end s then (d, 0%nat)
    else match remove_file (s_start s) d with
         | (d, Ok _) => let '(d, n) := drop_covered horizon segs d in (d, S n)
         | (d, Err _) => (d, 0%nat)
         end
  end.

(** [drop_below] *)
Definition sw_drop_below (horizon : N) (w : SegmentWal) : SegmentWal :=
  let sealed := sort_segs (sw_sealed w) in
  let deletable := match sw_active w with
                   | Some _ => length sealed
                   | None => (length sealed - 1)%nat
                   end in
  let '(d, deleted) := drop_covered horizon (take deletable sealed) (sw_disk w) in
  set_segs (set_disk w d) (drop deleted sealed) (sw_active w).

(** All segments, the active one last. *)
Definition segs (w : SegmentWal) : list Seg := sw_sealed w ++ option_list (sw_active w).

(** [retained_start] *)
Definition sw_retained_start (w : SegmentWal) : N :=
  match map s_start (segs w) with
  | [] => sw_flush w
  | s :: ss => foldr N.min s ss
  end.

(** The segment loop of [read]. *)
Fixpoint read_segs (files : gmap N (list byte)) (l : list Seg) (from to : N) : result (list byte) :=
  match l with
  | [] => Ok []
  | s :: l =>
    if (s_end s <=? from) || (to <=? s_start s) then read_segs files l from to
    else
      data ← read_file files (s_start s);
      let lo := wsub (N.max from (s_start s)) (s_start s) in
      let hi := wsub (N.min to (s_end s)) (s_start s) in
      if len data <? hi then Err "segment is shorter on disk than its bookkeeping" else
      rest ← read_segs files l from to;
      Ok (slice (N.to_nat lo) (N.to_nat hi) data ++ rest)
  end.

(** [read] *)
Definition sw_read (w : SegmentWal) (from to : N) : result (list byte) :=
  out ← read_segs (wd_files (sw_disk w)) (sort_segs (segs w)) from to;
  if negb (len out =? wsub to from) then Err "log range is not fully retained here" else Ok out.
End Wal.

(** ** The log a wal holds *)
Definition in_seg (p : N) (s : Seg) : bool := (s_start s <=? p) && (p <? s_end s).
Definition seg_byte (files : gmap N (list byte)) (s : Seg) (p : N) : option byte :=
  c ← files !! s_start s; c !! N.to_nat (p - s_start s).
Definition held_in (files : gmap N (list byte)) (l : list Seg) (p : N) : option byte :=
  s ← List.find (in_seg p) l; seg_byte files s p.
Definition sw_held (w : SegmentWal) : N → option byte := held_in (wd_files (sw_disk w)) (segs w).

Definition seg_before (a b : Seg) : Prop := s_end a ≤ s_start b.

Definition active_ok (w : SegmentWal) (s : Seg) : Prop :=
  s_start s ≤ s_end s ∧ s_end s = sw_flush w ∧
  (sw_wedged w = false →
   ∃ c, wd_files (sw_disk w) !! s_start s = Some c ∧ len c = s_end s - s_start s).

Definition wal_inv (w : SegmentWal) : Prop :=
  StronglySorted seg_before (segs w) ∧
  Forall (λ s, s_start s < s_end s ∧ s_end s ≤ sw_flush w) (sw_sealed w) ∧
  (∀ s, sw_active w = Some s → active_ok w s) ∧
  is_u64 (sw_flush w) ∧
  (sw_empty w = true → sw_sealed w = [] ∧ ∀ s, sw_active w = Some s → s_start s = s_end s).

Lemma in_seg_spec p s : in_seg p s = true ↔ s_start s ≤ p ∧ p < s_end s.
Proof. unfold in_seg. rewrite andb_true_iff, N.leb_le, N.ltb_lt. done. Qed.

Lemma in_seg_false p s : p < s_start s ∨ s_end s ≤ p → in_seg p s = false.
Proof.
  intros H. destruct (in_seg p s) eqn:E; [|done]. apply in_seg_spec in E. lia.
Qed.

Lemma held_in_ext files files' l p :
  (∀ s, s ∈ l → in_seg p s = true → seg_byte files' s p = seg_byte files s p) →
  held_in files' l p = held_in files l p.
Proof.
  intros H. unfold held_in. destruct (List.find (in_seg p) l) as [s|] eqn:E; [|done].
  apply find_some in E as [Hin Hs]. simpl. apply H; [by apply list_elem_of_In|done].
Qed.

Lemma held_in_app files l1 l2 p :
  held_in files (l1 ++ l2) p =
  match List.find (in_seg p) l1 with
  | Some s => seg_byte files s p
  | None => held_in files l2 p
  end.
Proof.
  induction l1 as [|s l1 IH]; [done|]. unfold held_in in *. simpl.
  destruct (in_seg p s); [done|exact IH].
Qed.

Lemma held_in_app_l files l1 l2 p :
  (∀ s, s ∈ l2 → in_seg p s = false) → held_in files (l1 ++ l2) p = held_in files l1 p.
Proof.
  intros H. unfold held_in. induction l1 as [|s l1 IH]; simpl.
  - destruct (List.find (in_seg p) l2) eqn:E; [|done]. apply find_some in E as [Hin Hs].
    rewrite H in Hs; [done|by apply list_elem_of_In].
  - destruct (in_seg p s); [done|apply IH].
Qed.

Lemma held_in_app_r files l1 l2 p :
  (∀ s, s ∈ l1 → in_seg p s = false) → held_in files (l1 ++ l2) p = held_in files l2 p.
Proof.
  intros H. induction l1 as [|s l1 IH]; simpl; [done|].
  unfold held_in. simpl. rewrite (H s) by left. apply IH. intros. apply H. by right.
Qed.

Lemma held_in_None files l p :
  (∀ s, s ∈ l → in_seg p s = false) → held_in files l p = None.
Proof. intros H. rewrite <-(app_nil_r l). by rewrite held_in_app_r. Qed.

Lemma held_in_cons files s l p :
  held_in files (s :: l) p = if in_seg p s then seg_byte files s p else held_in files l p.
Proof. unfold held_in. simpl. by destruct (in_seg p s). Qed.

Lemma sorted_app {A} (R : A → A → Prop) l1 l2 :
  StronglySorted R (l1 ++ l2) ↔
  StronglySorted R l1 ∧ StronglySorted R l2 ∧ ∀ a b, a ∈ l1 → b ∈ l2 → R a b.
Proof.
  induction l1 as [|e l1 IH]; simpl.
  { split; [|naive_solver]. intros. split_and!; [constructor|done|].
    intros a b Ha. by apply not_elem_of_nil in Ha. }
  split.
  - intros H. apply StronglySorted_inv in H as [Hs Hall].
    apply IH in Hs as (H1 & H2 & H12). rewrite Forall_app in Hall. destruct Hall as [Ha1 Ha2].
    split_and!; [by constructor|done|]. intros a b Ha Hb. apply elem_of_cons in Ha as [->|Ha].
    + by apply (proj1 (Forall_forall _ _) Ha2).
    + by apply H12.
  - intros (H1 & H2 & H12). apply StronglySorted_inv in H1 as [Hs Hall]. constructor.
    + apply IH. split_and!; [done|done|]. intros. apply H12; [by right|done].
    + apply Forall_app. split; [done|]. apply Forall_forall. intros b Hb.
      apply H12; [by left|done].
Qed.

(** Sorting a sorted list is the identity. *)
Lemma sort_segs_sorted l :
  StronglySorted seg_before l → Forall (λ s, s_start s ≤ s_end s) l → sort_segs l = l.
Proof.
  induction l as [|s l IH]; intros Hs Hall; [done|]. cbn [sort_segs foldr].
  apply StronglySorted_inv in Hs as [Hs Hb]. apply Forall_cons in Hall as [H1 Hall].
  change (foldr insert_seg [] l) with (sort_segs l). rewrite IH by done.
  destruct l as [|t l]; [done|]. simpl. apply Forall_cons in Hb as [Hst _].
  unfold seg_before in Hst. rewrite (proj2 (N.leb_le _ _)); [done|lia].
Qed.

(** ** System calls *)
Lemma syscall_cases ok fail d d' r :
  syscall ok fail d = (d', r) →
  ∃ io, (r = Ok tt ∧ d' = ok (set_io d io)) ∨ (∃ e k, r = Err e ∧ d' = fail k (set_io d io)).
Proof. unfold syscall. repeat case_match; intros; simplify_eq/=; eauto 6. Qed.

(** A system call that touches no file's bytes. *)
Lemma sync_files s d d' r : sync s d = (d', r) → wd_files d' = wd_files d ∧ wd_names d' = wd_names d.
Proof. by intros (io & [[_ ->]|(e & k & _ & ->)])%syscall_cases. Qed.
Lemma sync_dir_files d d' r : sync_dir d = (d', r) → wd_files d' = wd_files d ∧ wd_synced d' = wd_synced d.
Proof. by intros (io & [[_ ->]|(e & k & _ & ->)])%syscall_cases. Qed.

Lemma remove_file_cases s d d' r :
  remove_file s d = (d', r) →
  (r = Ok tt ∧ wd_files d' = delete s (wd_files d)) ∨
  (∃ e, r = Err e ∧ wd_files d' = wd_files d).
Proof.
  unfold remove_file. case_match; [|intros [= <- <-]; eauto].
  intros (io & [[-> ->]|(e & k & -> & ->)])%syscall_cases; eauto.
Qed.

Lemma write_sync_cases s bs d d' r :
  (write_all s bs ;;* sync s)%stres d = (d', r) →
  ∃ junk, wd_files d' = alter (λ c, c ++ junk) s (wd_files d) ∧ wd_names d' = wd_names d ∧
    (r = Ok tt → junk = bs ∧
       wd_synced d' = <[s := length (default [] (wd_files d' !! s))]> (wd_synced d)).
Proof.
  unfold st_bind, write_all. destruct (syscall _ _ d) as [d1 r1] eqn:E1.
  apply syscall_cases in E1 as (io & [[-> ->]|(e & k & -> & ->)]).
  - intros (io' & [[-> ->]|(e & k & -> & ->)])%syscall_cases; by eexists.
  - intros [= <- <-]. by eexists.
Qed.

Lemma set_len_sync_cases s n d d' r :
  (set_len s n ;;* sync s)%stres d = (d', r) →
  wd_files d' = alter (resize_bytes (N.to_nat n)) s (wd_files d) ∨
  (∃ e, r = Err e) ∧ wd_files d' = wd_files d.
Proof.
  unfold st_bind, set_len. destruct (syscall _ _ d) as [d1 r1] eqn:E1.
  apply syscall_cases in E1 as (io & [[-> ->]|(e & k & -> & ->)]).
  - intros (io' & [[-> ->]|(e & k & -> & ->)])%syscall_cases; eauto.
  - intros [= <- <-]. right. eauto.
Qed.

Lemma resize_take n c : (n ≤ length c)%nat → resize_bytes n c = take n c.
Proof. intros. unfold resize_bytes. replace (n - length c)%nat with 0%nat by lia. apply app_nil_r. Qed.

(** ** Each operation against the log *)

(** [w'] is a wal over the same log as [w]. *)
Definition same_log (w w' : SegmentWal) : Prop :=
  wal_inv w' ∧ (∀ p, sw_held w' p = sw_held w p) ∧ sw_flush w' = sw_flush w ∧
  sw_empty w' = sw_empty w.

(** Segments further up the list start strictly higher. *)
Lemma app_starts l1 l2 a b :
  StronglySorted seg_before (l1 ++ l2) → Forall (λ s, s_start s < s_end s) l1 →
  a ∈ l1 → b ∈ l2 → s_start a < s_start b ∧ s_end a ≤ s_start b.
Proof.
  intros (_ & _ & H)%sorted_app Hall Ha Hb. specialize (H a b Ha Hb). unfold seg_before in H.
  rewrite Forall_forall in Hall. specialize (Hall a Ha). simpl in Hall. lia.
Qed.

Lemma inv_sealed_lt w : wal_inv w → Forall (λ s, s_start s < s_end s) (sw_sealed w).
Proof. intros (_ & H & _). eapply Forall_impl; [done|]. by intros s []. Qed.

Lemma inv_ends w s : wal_inv w → s ∈ segs w → s_end s ≤ sw_flush w.
Proof.
  intros (_ & Hsl & Ha & _) [Hin|Hin]%elem_of_app.
  - rewrite Forall_forall in Hsl. by apply Hsl.
  - destruct (sw_active w) as [a|]; simpl in Hin; [|by apply not_elem_of_nil in Hin].
    apply list_elem_of_singleton in Hin as ->. destruct (Ha a eq_refl) as (_ & -> & _). done.
Qed.

Lemma inv_le w s : wal_inv w → s ∈ segs w → s_start s ≤ s_end s.
Proof.
  intros (_ & Hsl & Ha & _) [Hin|Hin]%elem_of_app.
  - rewrite Forall_forall in Hsl. destruct (Hsl s Hin). lia.
  - destruct (sw_active w) as [a|]; simpl in Hin; [|by apply not_elem_of_nil in Hin].
    apply list_elem_of_singleton in Hin as ->. by destruct (Ha a eq_refl) as (? & _).
Qed.

(** Nothing is held at or beyond the flush position, nothing by an empty log. *)
Lemma sw_held_bound w p : wal_inv w → is_Some (sw_held w p) → p < sw_flush w.
Proof.
  intros Hi [b Hb]. destruct (decide (p < sw_flush w)) as [|Hge]; [done|].
  unfold sw_held in Hb. rewrite held_in_None in Hb; [done|].
  intros s Hs. apply in_seg_false. right. pose proof (inv_ends w s Hi Hs). lia.
Qed.

Lemma sw_held_empty w p : wal_inv w → sw_empty w = true → sw_held w p = None.
Proof.
  intros (_ & _ & _ & _ & He) Hem. destruct (He Hem) as [Hsl Ha]. apply held_in_None.
  intros s. unfold segs. rewrite Hsl. simpl. intros Hin.
  destruct (sw_active w) as [a|]; simpl in Hin; [|by apply not_elem_of_nil in Hin].
  apply list_elem_of_singleton in Hin as ->. apply in_seg_false. specialize (Ha a eq_refl). lia.
Qed.

(** A change of one file outside the reach of [p] leaves the byte at [p]. *)
Lemma held_in_file_ne files files' l k p :
  (∀ j, j ≠ k → files' !! j = files !! j) →
  (∀ s, s ∈ l → in_seg p s = true → s_start s ≠ k) →
  held_in files' l p = held_in files l p.
Proof.
  intros Hf Hk. apply held_in_ext. intros s Hs Hp. unfold seg_byte.
  rewrite Hf by (by apply Hk). done.
Qed.

Lemma same_log_refl w : wal_inv w → same_log w w.
Proof. intros H. by split. Qed.

Lemma same_log_trans a b c : same_log a b → same_log b c → same_log a c.
Proof.
  intros (_ & H2 & H3 & H4) (G1 & G2 & G3 & G4). split; [done|].
  split; [intros p; by rewrite G2, H2|]. split; congruence.
Qed.

(** [ensure_active] at the write position: the log is unchanged. *)
Lemma ensure_active_spec b w w' r :
  wal_inv w → sw_wedged w = false → b = sw_flush w → ensure_active b w = (w', r) →
  same_log w w' ∧ sw_wedged w' = false ∧ sw_sealed w' = sw_sealed w ∧
  ∀ s, r = Ok s → sw_active w' = Some s.
Proof.
  intros Hi Hw -> He. unfold ensure_active in He.
  destruct (sw_active w) as [a|] eqn:Ea; [simplify_eq|].
  { split; [by apply same_log_refl|]. split; [done|]. split; [done|]. by intros s [= <-]. }
  unfold st_bind, on_disk, st_modify, st_ret in He.
  destruct (create_new (sw_flush w) (sw_disk w)) as [d r1] eqn:E1.
  assert (∀ s, s ∈ segs w → s ∈ sw_sealed w) as Hseg.
  { intros s. unfold segs. rewrite Ea. simpl. by rewrite app_nil_r. }
  assert (∀ d', (∀ j, j ≠ sw_flush w → wd_files d' !! j = wd_files (sw_disk w) !! j) →
    same_log w (set_disk w d')) as Hsame.
  { intros d' Hd. destruct Hi as (H1 & H2 & H3 & H4 & H5). split; [|split; [|done]].
    - split_and!; try done. simpl. intros s. by rewrite Ea.
    - intros p. apply (held_in_file_ne _ _ _ (sw_flush w)); [done|].
      intros s Hs _. apply Hseg in Hs. rewrite Forall_forall in H2. destruct (H2 s Hs). lia. }
  unfold create_new in E1. destruct (wd_files (sw_disk w) !! sw_flush w) eqn:Ef.
  { simplify_eq. split; [by apply Hsame|done]. }
  apply syscall_cases in E1 as (io & [[-> Hd]|(e & k & -> & Hd)]); apply (f_equal wd_files) in Hd; cycle 1.
  { simplify_eq. split; [apply Hsame; by rewrite Hd|done]. }
  simpl in He, Hd. destruct (sync_dir d) as [d2 r2] eqn:E2. apply sync_dir_files in E2 as [Hd2 _].
  assert (same_log w (set_disk w d2)) as Hs2.
  { apply Hsame. intros j Hj. rewrite Hd2, Hd. by rewrite lookup_insert_ne. }
  destruct r2 as [[]|]; simplify_eq; [|by split]. simpl.
  split; [|split; [done|split; [done|by intros s [= <-]]]].
  destruct Hs2 as (Hi2 & Hh2 & Hf2 & He2). destruct Hi as (H1 & H2 & H3 & H4 & H5).
  unfold segs in H1. rewrite Ea in H1. simpl in H1. rewrite app_nil_r in H1.
  split; [|split; [|done]].
  - split_and!; try done.
    + unfold segs. simpl. apply sorted_app. split_and!; [done|by repeat constructor|].
      intros x y Hx ->%list_elem_of_singleton. rewrite Forall_forall in H2.
      destruct (H2 x Hx). unfold seg_before. simpl. lia.
    + intros s [= <-]. split_and!; simpl; [lia|done|]. intros _. exists [].
      split; [|simpl; lia]. by rewrite Hd2, Hd, lookup_insert_eq.
    + intros Hem. destruct (H5 Hem) as [-> _]. split; [done|]. by intros s [= <-].
  - intros p. etrans; [|apply Hh2]. unfold sw_held, segs. simpl. rewrite Ea. simpl.
    rewrite app_nil_r. apply held_in_app_l. intros s ->%list_elem_of_singleton.
    apply in_seg_false. simpl. lia.
Qed.

Lemma active_start_lt w s a :
  wal_inv w → sw_active w = Some a → s ∈ sw_sealed w →
  s_start s < s_start a ∧ s_end s ≤ s_start a.
Proof.
  intros Hi Ha Hs. pose proof (inv_sealed_lt w Hi) as Hlt. destruct Hi as (H1 & _).
  unfold segs in H1. rewrite Ha in H1. eapply app_starts; [done..|]. simpl. set_solver.
Qed.

(** Sealing changes no byte of the log. *)
Lemma seal_active_spec w w' r :
  wal_inv w → seal_active w = (w', r) →
  same_log w w' ∧ r = Ok tt ∧ sw_active w' = None ∧ sw_wedged w' = sw_wedged w.
Proof.
  intros Hi. unfold seal_active. destruct (sw_active w) as [s|] eqn:Ea.
  2: { intros [= <- <-]. split; [by apply same_log_refl|done]. }
  pose proof Hi as (H1 & H2 & H3 & H4 & H5). destruct (H3 s Ea) as (Hle & Hend & _).
  destruct (s_start s <? s_end s) eqn:E; bool_prop.
  - intros [= <- <-]. split; [|done].
    assert (segs (set_segs w (sw_sealed w ++ [s]) None) = segs w) as Hsegs.
    { unfold segs. simpl. rewrite Ea. simpl. by rewrite app_nil_r. }
    split; [|split; [|done]].
    + split; [by rewrite Hsegs|]. split; [|split; [done|split; [done|]]].
      * simpl. apply Forall_app. split; [done|]. constructor; [|done]. simpl. lia.
      * intros Hem. destruct (H5 Hem) as [_ He]. specialize (He s Ea). lia.
    + intros p. unfold sw_held. by rewrite Hsegs.
  - unfold ignore, on_disk. destruct (remove_file _ _) as [d r1] eqn:Er.
    intros [= <- <-]. split; [|done].
    assert (∀ j, j ≠ s_start s → wd_files d !! j = wd_files (sw_disk w) !! j) as Hd.
    { intros j Hj. apply remove_file_cases in Er as [[_ ->]|(e & _ & ->)]; [|done].
      by rewrite lookup_delete_ne. }
    unfold segs in H1. rewrite Ea in H1. apply sorted_app in H1 as (Hs1 & _ & _).
    split; [|split; [|done]].
    + split; [unfold segs; simpl; by rewrite app_nil_r|].
      split; [done|split; [done|split; [done|]]]. intros Hem.
      by destruct (H5 Hem) as [-> _].
    + intros p. unfold sw_held, segs. simpl. rewrite app_nil_r, Ea. simpl.
      rewrite held_in_app_l; [|intros t ->%list_elem_of_singleton; apply in_seg_false; lia].
      apply (held_in_file_ne _ _ _ (s_start s)); [done|].
      intros t Ht _. destruct (active_start_lt w t s Hi Ea Ht). lia.
Qed.

(** The active file may gain bytes behind its bookkeeping only when the wal is
    wedged; no byte of the log changes. *)
Lemma active_rewrite w s c junk d' (wdg : bool) :
  wal_inv w → sw_active w = Some s →
  wd_files (sw_disk w) !! s_start s = Some c → len c = s_end s - s_start s →
  (∀ j, j ≠ s_start s → wd_files d' !! j = wd_files (sw_disk w) !! j) →
  wd_files d' !! s_start s = Some (c ++ junk) → (junk = [] ∨ wdg = true) →
  same_log w (if wdg then set_wedged (set_disk w d') else set_disk w d').
Proof.
  intros Hi Ha Hc Hlen Hne Hd Hj. pose proof Hi as (H1 & H2 & H3 & H4 & H5).
  destruct (H3 s Ha) as (Hle & Hend & _).
  assert (∀ p, held_in (wd_files d') (segs w) p = sw_held w p) as Hheld.
  { intros p. apply held_in_ext. intros t Ht Hp. apply in_seg_spec in Hp. unfold seg_byte.
    destruct (decide (s_start t = s_start s)) as [Heq|]; [|by rewrite Hne].
    rewrite Heq, Hd, Hc. simpl. rewrite lookup_app_l; [done|].
    unfold segs in Ht. rewrite Ha in Ht. apply elem_of_app in Ht as [Ht|Ht].
    - destruct (active_start_lt w t s Hi Ha Ht). lia.
    - apply list_elem_of_singleton in Ht as ->. lia. }
  destruct wdg.
  - split; [|split; [exact Hheld|done]]. split_and!; try done.
    intros t Ht. simpl in Ht. assert (t = s) as -> by congruence. split_and!; done.
  - destruct Hj as [->|]; [|done]. split; [|split; [exact Hheld|done]]. split_and!; try done.
    intros t Ht. simpl in Ht. assert (t = s) as -> by congruence. split_and!; try done.
    intros _. exists c. rewrite app_nil_r in Hd. done.
Qed.

(** A failed write: rolled back, or the wal is wedged; the log is the same. *)
Lemma append_rollback_spec w s fs d' e w' rolled :
  wal_inv w → sw_active w = Some s → sw_wedged w = false →
  (write_all (s_start s) fs ;;* sync (s_start s))%stres (sw_disk w) = (d', Err e) →
  on_disk (set_len (s_start s) (wsub (s_end s) (s_start s)) ;;* sync (s_start s))%stres (set_disk w d') =
    (w', rolled) →
  same_log w (match rolled with Ok _ => w' | Err _ => set_wedged w' end).
Proof.
  intros Hi Ha Hw Hwr Hrb. pose proof Hi as (_ & _ & H3 & H4 & _).
  destruct (H3 s Ha) as (Hle & Hend & Hc). destruct (Hc Hw) as (c & Hf & Hlen).
  apply write_sync_cases in Hwr as (junk & Hd & _).
  unfold on_disk in Hrb.
  destruct ((set_len _ _ ;;* sync (s_start s))%stres (sw_disk (set_disk w d'))) as [d2 r2] eqn:E2.
  simpl in E2. injection Hrb as <- <-. change (set_disk (set_disk w d') d2) with (set_disk w d2).
  rewrite wsub_small in E2 by (unfold u64_modulus in *; lia).
  assert (wd_files d' !! s_start s = Some (c ++ junk)) as Hj
    by (rewrite Hd, lookup_alter_eq, Hf; done).
  assert (∀ j, j ≠ s_start s → wd_files d' !! j = wd_files (sw_disk w) !! j) as Hne
    by (intros j ?; rewrite Hd; by rewrite lookup_alter_ne).
  apply set_len_sync_cases in E2 as [Hd2|[[e2 ->] Hd2]].
  - assert (wd_files d2 !! s_start s = Some (c ++ [])) as Hc2.
    { rewrite Hd2, lookup_alter_eq, Hj. simpl. rewrite resize_take by (rewrite length_app; lia).
      f_equal. rewrite take_app_le by lia. rewrite app_nil_r. apply take_ge. lia. }
    assert (∀ j, j ≠ s_start s → wd_files d2 !! j = wd_files (sw_disk w) !! j) as Hne2.
    { intros j ?. rewrite Hd2, lookup_alter_ne by done. by apply Hne. }
    destruct r2.
    + by apply (active_rewrite w s c [] d2 false); auto.
    + by apply (active_rewrite w s c [] d2 true); auto.
  - apply (active_rewrite w s c junk d2 true); rewrite ?Hd2; auto.
Qed.

(** A written batch: the log is the old one overwritten at its end. *)
Lemma append_written_spec w s fs d' :
  wal_inv w → sw_active w = Some s → sw_wedged w = false →
  (write_all (s_start s) fs ;;* sync (s_start s))%stres (sw_disk w) = (d', Ok tt) →
  fs ≠ [] → is_u64 (sw_flush w + len fs) →
  let s' := {| s_start := s_start s; s_end := wadd (s_end s) (len fs) |} in
  let w' := set_flush (set_segs (set_disk w d') (sw_sealed w) (Some s')) (s_end s') false in
  wal_inv w' ∧ (∀ p, sw_held w' p = overwrite_at (sw_held w) (sw_flush w) fs p) ∧
  sw_flush w' = sw_flush w + len fs.
Proof.
  intros Hi Ha Hw Hwr Hfs Hfit s' w'. pose proof Hi as (H1 & H2 & H3 & H4 & H5).
  destruct (H3 s Ha) as (Hle & Hend & Hc). destruct (Hc Hw) as (c & Hf & Hlen).
  apply write_sync_cases in Hwr as (junk & Hd & _ & Hj). rewrite (proj1 (Hj eq_refl)) in Hd. clear Hj junk.
  assert (s_end s' = sw_flush w + len fs) as Hend'.
  { unfold s'. simpl. rewrite Hend. by apply wadd_small. }
  assert (0 < len fs) as Hpos by (destruct fs; [done|simpl; lia]).
  unfold segs in H1. rewrite Ha in H1. simpl in H1. apply sorted_app in H1 as (Hs1 & _ & Hs2).
  split; [|split; [|done]].
  - split; [|split; [|split; [|split]]].
    + unfold segs. simpl. apply sorted_app. split; [done|]. split; [by repeat constructor|].
      intros x y Hx ->%list_elem_of_singleton. apply (Hs2 x s); set_solver.
    + eapply Forall_impl; [done|]. intros x [? ?]. unfold w'. cbn -[s']. rewrite Hend'. lia.
    + intros t [= <-]. split; [|split; [done|]].
      * rewrite Hend'. simpl. lia.
      * intros _. exists (c ++ fs). simpl. rewrite Hd, lookup_alter_eq, Hf. split; [done|].
        change (wadd _ _) with (s_end s'). rewrite length_app, Hend'. lia.
    + unfold w'. cbn -[s']. rewrite Hend'. done.
    + done.
  - intros p. unfold sw_held, segs, w'. cbn [set_flush set_segs set_disk sw_sealed sw_active sw_disk].
    rewrite Ha. change (option_list (Some s')) with [s']. change (option_list (Some s)) with [s].
    unfold overwrite_at.
    destruct (_ && _) eqn:E.
    + bool_prop. rewrite held_in_app_r.
      * rewrite held_in_cons.
        assert (in_seg p s' = true) as -> by (apply in_seg_spec; rewrite Hend'; simpl; lia).
        unfold seg_byte. simpl. rewrite Hd, lookup_alter_eq, Hf. simpl.
        rewrite lookup_app_r by lia. f_equal. lia.
      * intros t Ht. destruct (active_start_lt w t s Hi Ha Ht). apply in_seg_false. lia.
    + assert (p < sw_flush w ∨ sw_flush w + len fs ≤ p) as Hp.
      { apply andb_false_iff in E as [E|E]; bool_prop; lia. }
      destruct Hp as [Hp|Hp].
      * rewrite !held_in_app.
        destruct (List.find (in_seg p) (sw_sealed w)) as [t|] eqn:Et.
        -- apply find_some in Et as [Ht _]. apply list_elem_of_In in Ht.
           destruct (active_start_lt w t s Hi Ha Ht). unfold seg_byte.
           rewrite Hd, lookup_alter_ne by lia. done.
        -- rewrite !held_in_cons. assert (in_seg p s' = in_seg p s) as ->.
           { unfold in_seg. rewrite Hend'. simpl. f_equal.
             rewrite !(proj2 (N.ltb_lt _ _)) by lia. done. }
           destruct (in_seg p s) eqn:Ein; [|done]. apply in_seg_spec in Ein.
           unfold seg_byte. simpl. rewrite Hd, lookup_alter_eq, Hf. simpl.
           rewrite lookup_app_l by lia. done.
      * rewrite !held_in_None; [done|..]; intros t; rewrite elem_of_app, list_elem_of_singleton;
          intros [Ht| ->]; apply in_seg_false; try (destruct (active_start_lt w t s Hi Ha Ht));
          rewrite ?Hend'; lia.
Qed.

(** Where an append may start: an empty log takes any position, unless a
    failed first append has left an active segment named by another one. *)
Definition sw_appendable (w : SegmentWal) (b : N) : Prop := sw_active w = None ∨ b = sw_flush w.

Lemma set_position_spec w b :
  wal_inv w → sw_empty w = true → sw_appendable w b → is_u64 b →
  wal_inv (set_flush w b true) ∧ ∀ p, sw_held (set_flush w b true) p = sw_held w p.
Proof.
  intros (H1 & H2 & H3 & H4 & H5) He Ha Hb. split; [|done].
  destruct (H5 He) as [Hsl Hact].
  split; [done|]. split; [simpl; by rewrite Hsl|]. split; [|done].
  intros s Hs. simpl in Hs. destruct (H3 s Hs) as (? & ? & ?). split; [done|].
  split; [|done]. simpl. destruct Ha; congruence.
Qed.

(** [append]: on [Ok] the log is the old one with the bytes at the write
    position, on [Err] it is the old one. *)
Lemma sw_append_spec b fs w w' r :
  wal_inv w → fs ≠ [] → is_u64 (b + len fs) →
  (sw_empty w = true → sw_appendable w b) →
  sw_append b fs w = (w', r) →
  wal_inv w' ∧
  match r with
  | Ok _ => (sw_empty w = false → b = sw_flush w) ∧
      (∀ p, sw_held w' p = overwrite_at (sw_held w) b fs p) ∧
      sw_flush w' = b + len fs ∧ sw_empty w' = false
  | Err _ => (∀ p, sw_held w' p = sw_held w p) ∧ sw_empty w' = sw_empty w ∧
      (sw_empty w = false → sw_flush w' = sw_flush w)
  end.
Proof.
  intros Hi Hfs Hfit Hap Hr. unfold sw_append in Hr.
  destruct (sw_wedged w) eqn:Hw; [simplify_eq; by split|].
  set (w0 := if sw_empty w then _ else w) in *.
  assert (wal_inv w0 ∧ (∀ p, sw_held w0 p = sw_held w p) ∧ sw_empty w0 = sw_empty w ∧
    (sw_empty w = false → sw_flush w0 = sw_flush w) ∧ sw_wedged w0 = false) as
    (Hi0 & Hh0 & He0 & Hf0 & Hw0).
  { unfold w0. destruct (sw_empty w) eqn:He; [|done].
    destruct (set_position_spec w b Hi He (Hap eq_refl)); [lia|by split_and!]. }
  clearbody w0. destruct (negb _) eqn:Eb; [simplify_eq; by split|]. bool_prop.
  apply (f_equal id) in Hr. unfold st_bind at 1, id in Hr.
  destruct (ensure_active b w0) as [w1 r1] eqn:E1.
  apply ensure_active_spec in E1 as (Hs1 & Hw1 & _ & Ha1); [|done..].
  destruct Hs1 as (Hi1 & Hh1 & Hf1 & He1).
  assert (∀ e, same_log w1 w' → r = Err e → wal_inv w' ∧
    match r with
    | Ok _ => False
    | Err _ => (∀ p, sw_held w' p = sw_held w p) ∧ sw_empty w' = sw_empty w ∧
      (sw_empty w = false → sw_flush w' = sw_flush w) end) as Herr.
  { intros e (Hi2 & Hh2 & Hf2 & He2) ->. split; [done|]. split_and!.
    - intros p. by rewrite Hh2, Hh1.
    - congruence.
    - intros Hem. rewrite Hf2, Hf1. auto. }
  destruct r1 as [s|]; [|simplify_eq; by apply (Herr _ (same_log_refl _ Hi1) eq_refl)].
  specialize (Ha1 s eq_refl). unfold on_disk in Hr at 1.
  destruct ((write_all _ _ ;;* sync (s_start s))%stres (sw_disk w1)) as [d2 [[]|e]] eqn:E2.
  - eapply append_written_spec in E2 as (Hi2 & Hh2 & Hf2); [|done..|by rewrite Hf1, <-Eb].
    cbv zeta in Hr. simpl in Hr, Hi2, Hh2, Hf2.
    match type of Hr with context [seal_active ?x] => set (w2 := x) in * end.
    assert (same_log w2 w' ∧ r = Ok tt) as [(Hi3 & Hh3 & Hf3 & He3) ->].
    { destruct (_ <=? _) in Hr.
      - by apply seal_active_spec in Hr as (? & ? & _).
      - simplify_eq. split; [by apply same_log_refl|done]. }
    split; [done|]. split_and!.
    + intros Hem. rewrite Eb. auto.
    + intros p. rewrite Hh3. etrans; [apply Hh2|]. rewrite Hf1, <-Eb.
      unfold overwrite_at. destruct (_ && _); [done|]. by rewrite Hh1.
    + rewrite Hf3. etrans; [apply Hf2|]. by rewrite Hf1, <-Eb.
    + by rewrite He3.
  - destruct (on_disk _ (set_disk w1 d2)) as [w2 rolled] eqn:E3.
    eapply append_rollback_spec in E3; [|done..|done].
    simplify_eq. by apply (Herr _ E3 eq_refl).
Qed.

(** ** Truncation *)

(** Everything held below [l] stays held. *)
Definition keeps_below (l : N) (w w' : SegmentWal) : Prop :=
  ∀ p b, p < l → sw_held w p = Some b → sw_held w' p = Some b.

(** [w'] is a sealed wal that may have lost bytes from [l] on. *)
Definition cut_log (l : N) (w w' : SegmentWal) : Prop :=
  wal_inv w' ∧ sw_active w' = None ∧ sw_flush w' = sw_flush w ∧ sw_empty w' = sw_empty w ∧
  keeps_below l w w'.

Lemma cut_log_trans l a b c : cut_log l a b → cut_log l b c → cut_log l a c.
Proof.
  intros (_ & _ & ? & ? & Hk) (? & ? & ? & ? & Hk'). split_and!; [done|done|congruence|congruence|].
  intros p x Hp Hx. auto.
Qed.

Lemma cut_log_refl l w : wal_inv w → sw_active w = None → cut_log l w w.
Proof. intros Hi Ha. split_and!; try done. by intros p b. Qed.

Lemma segs_sealed w : sw_active w = None → segs w = sw_sealed w.
Proof. intros Ha. unfold segs. rewrite Ha. simpl. apply app_nil_r. Qed.

Lemma inv_set_disk w d : wal_inv w → sw_active w = None → wal_inv (set_disk w d).
Proof.
  intros (H1 & H2 & H3 & H4 & H5) Ha. split; [done|]. split; [done|]. split; [|done].
  intros t Ht. simpl in Ht. congruence.
Qed.

(** Removing the newest sealed segment. *)
Lemma remove_last_seg w l1 s d :
  wal_inv w → sw_active w = None → sw_sealed w = l1 ++ [s] →
  wd_files d = delete (s_start s) (wd_files (sw_disk w)) →
  cut_log (s_start s) w (set_segs (set_disk w d) l1 None).
Proof.
  intros Hi Ha Hsl Hd. pose proof (inv_sealed_lt w Hi) as Hlt.
  pose proof Hi as (H1 & H2 & H3 & H4 & H5).
  rewrite segs_sealed, Hsl in H1 by done. rewrite Hsl in H2, Hlt.
  apply Forall_app in H2 as [H2 _]. apply Forall_app in Hlt as [Hlt _].
  assert (∀ t, t ∈ l1 → s_start t < s_start s) as Hbelow.
  { intros t Ht. by eapply app_starts; [done..|set_solver]. }
  apply sorted_app in H1 as (Hs1 & _).
  split; [|split; [done|split; [done|split; [done|]]]].
  - split; [by rewrite segs_sealed|]. split; [done|]. split; [done|]. split; [done|].
    intros Hem. destruct (H5 Hem) as [He _]. rewrite Hsl in He. by destruct l1.
  - intros p b Hp. unfold sw_held. rewrite !segs_sealed by done. simpl. rewrite Hsl.
    rewrite held_in_app_l; [|intros t ->%list_elem_of_singleton; apply in_seg_false; lia].
    intros <-. apply (held_in_file_ne _ _ _ (s_start s)).
    + intros j Hj. by rewrite Hd, lookup_delete_ne.
    + intros t Ht _. specialize (Hbelow t Ht). lia.
Qed.

Lemma delete_from_spec l rs w w' r :
  wal_inv w → sw_active w = None → sw_sealed w = rev rs → delete_from l rs w = (w', r) →
  cut_log l w w' ∧ (r = Ok tt → ∀ t, t ∈ sw_sealed w' → s_start t < l).
Proof.
  revert w. induction rs as [|s rs IH]; intros w Hi Ha Hsl Hr; simpl in Hr.
  { unfold st_ret in Hr. simplify_eq. split; [by apply cut_log_refl|]. intros _ t Ht.
    rewrite Hsl in Ht. by apply not_elem_of_nil in Ht. }
  simpl in Hsl. destruct (s_start s <? l) eqn:El; bool_prop.
  { unfold st_ret in Hr. simplify_eq. split; [by apply cut_log_refl|]. intros _ t Ht.
    rewrite Hsl in Ht. apply elem_of_app in Ht as [Ht|Ht%list_elem_of_singleton]; [|by subst].
    pose proof (inv_sealed_lt w' Hi) as Hlt. destruct Hi as (H1 & _).
    rewrite segs_sealed, Hsl in H1 by done. rewrite Hsl in Hlt. apply Forall_app in Hlt as [Hlt _].
    destruct (app_starts _ _ t s H1 Hlt Ht ltac:(set_solver)). lia. }
  unfold st_bind, on_disk, st_modify in Hr.
  destruct (remove_file (s_start s) (sw_disk w)) as [d r1] eqn:E1.
  apply remove_file_cases in E1 as [[-> Hd]|(e & -> & Hd)].
  - pose proof (remove_last_seg w (rev rs) s d Hi Ha Hsl Hd) as Hc. simpl in Hr.
    rewrite Ha in Hr.
    pose proof Hc as (Hi1 & Ha1 & _).
    apply IH in Hr as [Hc2 Hok]; [|done|done|done]. split; [|done].
    eapply cut_log_trans; [|done]. destruct Hc as (? & ? & ? & ? & Hk). split_and!; try done.
    intros p b Hp Hb. apply Hk; [lia|done].
  - simplify_eq. split; [|done]. assert (sw_held (set_disk w d) = sw_held w) as Hheld
      by (unfold sw_held; simpl; by rewrite Hd).
    split; [|split; [done|split; [done|split; [done|]]]].
    + by apply inv_set_disk.
    + intros p b _. by rewrite Hheld.
Qed.

Lemma resize_lookup n c i b :
  (i < n)%nat → c !! i = Some b → resize_bytes n c !! i = Some b.
Proof.
  intros Hi Hc. unfold resize_bytes. apply lookup_app_l_Some. by rewrite lookup_take_lt.
Qed.

(** Shortening the boundary segment's file keeps the bytes below the cut. *)
Lemma resize_last_held w l1 s l d p b :
  wal_inv w → sw_active w = None → sw_sealed w = l1 ++ [s] → s_start s < l → l ≤ s_end s →
  wd_files d = alter (resize_bytes (N.to_nat (l - s_start s))) (s_start s) (wd_files (sw_disk w)) →
  p < l → sw_held w p = Some b →
  held_in (wd_files d) (l1 ++ [{| s_start := s_start s; s_end := l |}]) p = Some b ∧
  held_in (wd_files d) (l1 ++ [s]) p = Some b.
Proof.
  intros Hi Ha Hsl Hlt Hle Hd Hp Hb. pose proof (inv_sealed_lt w Hi) as Hpos.
  destruct Hi as (H1 & _). rewrite segs_sealed, Hsl in H1 by done. rewrite Hsl in Hpos.
  apply Forall_app in Hpos as [Hpos _].
  unfold sw_held in Hb. rewrite segs_sealed, Hsl in Hb by done.
  rewrite !held_in_app in *. destruct (List.find (in_seg p) l1) as [t|] eqn:Et.
  - apply find_some in Et as [Ht _]. apply list_elem_of_In in Ht.
    destruct (app_starts _ _ t s H1 Hpos Ht ltac:(set_solver)).
    unfold seg_byte. rewrite Hd, lookup_alter_ne by lia. done.
  - rewrite !held_in_cons in *. destruct (in_seg p s) eqn:E; [|done]. apply in_seg_spec in E.
    assert (in_seg p {| s_start := s_start s; s_end := l |} = true) as ->
      by (apply in_seg_spec; simpl; lia).
    unfold seg_byte in *. simpl. rewrite Hd, lookup_alter_eq.
    destruct (wd_files (sw_disk w) !! s_start s) as [c|]; [|done]. simpl in *.
    split; apply resize_lookup; done || lia.
Qed.

Lemma cut_last_spec l w w' r :
  wal_inv w → sw_active w = None → (∀ t, t ∈ sw_sealed w → s_start t < l) →
  cut_last l w = (w', r) →
  cut_log l w w' ∧ (r = Ok tt → ∀ t, t ∈ sw_sealed w' → s_end t ≤ l).
Proof.
  intros Hi Ha Hlow Hr. unfold cut_last in Hr.
  destruct (last (sw_sealed w)) as [s|] eqn:El.
  2: { simplify_eq. split; [by apply cut_log_refl|]. intros _ t Ht.
       apply last_None in El. rewrite El in Ht. by apply not_elem_of_nil in Ht. }
  apply last_Some in El as [l1 Hsl].
  assert (s_start s < l) as Hlt by (apply Hlow; rewrite Hsl; set_solver).
  pose proof Hi as (H1 & H2 & H3 & H4 & H5). rewrite segs_sealed, Hsl in H1 by done.
  pose proof (inv_sealed_lt w Hi) as Hpos. rewrite Hsl in Hpos. apply Forall_app in Hpos as [Hpos _].
  assert (∀ t, t ∈ l1 → s_end t ≤ s_start s) as Hbelow.
  { intros t Ht. by eapply app_starts; [done..|set_solver]. }
  destruct (l <? s_end s) eqn:Ec; bool_prop.
  2: { simplify_eq. split; [by apply cut_log_refl|]. intros _ t. rewrite Hsl.
       intros [Ht| ->%list_elem_of_singleton]%elem_of_app; [|done]. specialize (Hbelow t Ht). lia. }
  assert (s_end s ≤ sw_flush w) as Hfl by (apply inv_ends; [done|rewrite segs_sealed, Hsl by done; set_solver]).
  rewrite wsub_small in Hr by lia.
  unfold st_bind at 1, on_disk at 1 in Hr.
  destruct ((set_len _ _ ;;* sync (s_start s))%stres (sw_disk w)) as [d r1] eqn:E1.
  apply set_len_sync_cases in E1.
  assert (∀ d', wd_files d' = wd_files (sw_disk w) ∨
    wd_files d' = alter (resize_bytes (N.to_nat (l - s_start s))) (s_start s) (wd_files (sw_disk w)) →
    cut_log l w (set_disk w d')) as Hsame.
  { intros d' Hd'. split; [|split; [done|split; [done|split; [done|]]]].
    - by apply inv_set_disk.
    - intros p b Hp Hb. unfold sw_held. rewrite segs_sealed by done. simpl.
      destruct Hd' as [->|Hd']; [by rewrite <-(segs_sealed w)|]. rewrite Hsl.
      by edestruct (resize_last_held w l1 s l d' p b) as [_ ?]; try done; lia. }
  destruct r1 as [[]|]; [|simplify_eq; split; [apply Hsame; naive_solver|done]].
  assert (wd_files d = alter (resize_bytes (N.to_nat (l - s_start s))) (s_start s)
    (wd_files (sw_disk w))) as Hd by naive_solver.
  unfold st_bind, st_modify, st_ret in Hr. rewrite (proj2 (N.eqb_neq _ _)) in Hr by lia.
  simplify_eq. simpl. rewrite Hsl, removelast_last.
  split.
  - split; [|split; [done|split; [done|split; [done|]]]].
    + apply sorted_app in H1 as (Hs1 & _ & Hs2). rewrite Hsl in H2.
      apply Forall_app in H2 as [H2 _].
      split; [|split; [|split; [|split; [done|]]]].
      * rewrite segs_sealed by done. simpl. apply sorted_app. split; [done|].
        split; [by repeat constructor|]. intros x y Hx ->%list_elem_of_singleton.
        by apply Hbelow.
      * simpl. apply Forall_app. split; [done|]. constructor; [simpl; lia|done].
      * intros t Ht. simpl in Ht. congruence.
      * intros Hem. destruct (H5 Hem) as [He _]. rewrite Hsl in He. by destruct l1.
    + intros p b Hp Hb. unfold sw_held. rewrite segs_sealed by done. simpl.
      by edestruct (resize_last_held w l1 s l d p b) as [? _]; try done; lia.
  - intros _ t [Ht| ->%list_elem_of_singleton]%elem_of_app; [|simpl; lia].
    specialize (Hbelow t Ht). lia.
Qed.

(** [truncate_from]: below [l] everything stays held; on [Ok] nothing is held
    from [l] on and the flush position is at most [l]. *)
Lemma sw_truncate_spec l w w' r :
  wal_inv w → sw_truncate_from l w = (w', r) →
  wal_inv w' ∧ keeps_below l w w' ∧ sw_empty w' = sw_empty w ∧
  match r with
  | Ok _ => sw_flush w' = N.min l (sw_flush w) ∧ (∀ p, l ≤ p → sw_held w' p = None)
  | Err _ => sw_flush w' = sw_flush w
  end.
Proof.
  intros Hi Hr. unfold sw_truncate_from in Hr.
  destruct (sw_wedged w); [simplify_eq; split_and!; try done; by intros p b|].
  destruct (sw_flush w <=? l) eqn:El; bool_prop.
  { simplify_eq. split_and!; try done; [by intros p b|lia|]. intros p Hp.
    destruct (sw_held w' p) eqn:E; [|done].
    assert (p < sw_flush w') by (apply sw_held_bound; [done|by eexists]). lia. }
  unfold st_bind at 1 in Hr. destruct (seal_active w) as [w1 r1] eqn:E1.
  apply seal_active_spec in E1 as ((Hi1 & Hh1 & Hf1 & He1) & -> & Ha1 & _); [|done].
  unfold st_bind at 1, st_modify at 1 in Hr.
  assert (sort_segs (sw_sealed w1) = sw_sealed w1) as Hsort.
  { apply sort_segs_sorted.
    - destruct Hi1 as (H1 & _). by rewrite segs_sealed in H1.
    - eapply Forall_impl; [by apply inv_sealed_lt|]. simpl. lia. }
  rewrite Hsort in Hr.
  replace (set_segs w1 (sw_sealed w1) (sw_active w1)) with w1 in Hr by (by destruct w1).
  unfold st_bind at 1 in Hr. destruct (delete_from l (rev (sw_sealed w1)) w1) as [w2 r2] eqn:E2.
  apply delete_from_spec in E2 as [Hc2 Hlow]; [|done|done|by rewrite rev_involutive].
  assert (∀ w'', cut_log l w1 w'' → wal_inv w'' ∧ keeps_below l w w'' ∧
    sw_empty w'' = sw_empty w ∧ sw_flush w'' = sw_flush w) as Hfin.
  { intros w'' (? & ? & ? & ? & Hk). split_and!; [done| |congruence|congruence].
    intros p b Hp Hb. apply Hk; [done|]. by rewrite Hh1. }
  destruct r2 as [[]|]; [|simplify_eq; by apply Hfin].
  unfold st_bind at 1 in Hr. destruct (cut_last l w2) as [w3 r3] eqn:E3.
  destruct Hc2 as (Hi2 & Ha2 & Hc2). apply cut_last_spec in E3 as [Hc3 Hends]; [|done|done|by apply Hlow].
  pose proof (cut_log_trans l w1 w2 w3 (conj Hi2 (conj Ha2 Hc2)) Hc3) as Hc.
  destruct r3 as [[]|]; [|simplify_eq; by apply Hfin]. specialize (Hends eq_refl).
  unfold st_bind, on_disk, st_modify in Hr. destruct (sync_dir (sw_disk w3)) as [d r4] eqn:E4.
  apply sync_dir_files in E4 as [Hd _].
  destruct Hc3 as (Hi3 & Ha3 & _).
  assert (cut_log l w1 (set_disk w3 d)) as Hc4.
  { destruct Hc as (_ & _ & ? & ? & Hk). split; [|split; [done|split; [done|split; [done|]]]].
    - by apply inv_set_disk.
    - intros p b Hp Hb. unfold sw_held. simpl. rewrite Hd. by apply Hk. }
  destruct (Hfin _ Hc4) as (Hi4 & Hk4 & He4 & Hf4).
  destruct r4 as [[]|]; simplify_eq; [|done]. simpl.
  split; [|split; [exact Hk4|split; [exact He4|split; [lia|]]]].
  - destruct Hi4 as (H1 & H2 & H3 & H4 & H5). split; [done|]. split; [|split; [|split; [|done]]].
    + simpl in *. apply Forall_forall. intros t Ht. rewrite Forall_forall in H2.
      destruct (H2 t Ht). split; [done|]. by apply Hends.
    + intros t Ht. simpl in Ht. congruence.
    + simpl in *. lia.
  - intros p Hp. unfold sw_held. apply held_in_None. rewrite segs_sealed by done. simpl.
    intros t Ht. apply in_seg_false. specialize (Hends t Ht). lia.
Qed.

(** ** Garbage collection *)
Lemma drop_covered_spec h l d d' n :
  drop_covered h l d = (d', n) →
  (n ≤ length l)%nat ∧ (∀ t, t ∈ take n l → s_end t ≤ h) ∧
  ∀ j, (∀ t, t ∈ take n l → s_start t ≠ j) → wd_files d' !! j = wd_files d !! j.
Proof.
  revert d n. induction l as [|s l IH]; intros d n Hr; simpl in Hr.
  { simplify_eq. split_and!; [done| |done]. intros t Ht. by apply not_elem_of_nil in Ht. }
  assert ((d, 0%nat) = (d', n) → (n ≤ S (length l))%nat ∧ (∀ t, t ∈ take n (s :: l) → s_end t ≤ h) ∧
    ∀ j, (∀ t, t ∈ take n (s :: l) → s_start t ≠ j) → wd_files d' !! j = wd_files d !! j) as Hnone.
  { intros [= <- <-]. split_and!; [lia| |done]. intros t Ht. by apply not_elem_of_nil in Ht. }
  destruct (h <? s_end s) eqn:Eh; bool_prop; [by apply Hnone|].
  destruct (remove_file (s_start s) d) as [d1 r1] eqn:E1.
  apply remove_file_cases in E1 as [[-> Hd]|(e & -> & Hd)].
  - destruct (drop_covered h l d1) as [d2 m] eqn:E2. simplify_eq.
    apply IH in E2 as (Hm & Hc & Hf). split_and!; [simpl; lia|..].
    + intros t [->|Ht]%elem_of_cons; [done|by apply Hc].
    + intros j Hj. cbn [take] in Hj. rewrite Hf by (intros t Ht; apply Hj; by right).
      rewrite Hd. apply lookup_delete_ne. apply Hj. by left.
  - simplify_eq. split_and!; [lia| |by rewrite Hd]. intros t Ht. by apply not_elem_of_nil in Ht.
Qed.

Lemma sort_sealed w : wal_inv w → sort_segs (sw_sealed w) = sw_sealed w.
Proof.
  intros Hi. apply sort_segs_sorted.
  - destruct Hi as (H1 & _). unfold segs in H1. by apply sorted_app in H1 as (? & _).
  - eapply Forall_impl; [by apply inv_sealed_lt|]. simpl. lia.
Qed.

(** What [drop_below] deletes: an oldest prefix of covered sealed segments. *)
Lemma sw_drop_shape h w :
  wal_inv w → ∃ n d, (n ≤ match sw_active w with
                      | Some _ => length (sw_sealed w)
                      | None => length (sw_sealed w) - 1
                      end)%nat ∧
    sw_drop_below h w = set_segs (set_disk w d) (drop n (sw_sealed w)) (sw_active w) ∧
    (∀ t, t ∈ take n (sw_sealed w) → s_end t ≤ h) ∧
    (∀ j, (∀ t, t ∈ take n (sw_sealed w) → s_start t ≠ j) →
       wd_files d !! j = wd_files (sw_disk w) !! j).
Proof.
  intros Hi. unfold sw_drop_below. rewrite sort_sealed by done.
  set (del := match sw_active w with Some _ => length (sw_sealed w) | None => (length (sw_sealed w) - 1)%nat end).
  destruct (drop_covered h (take del (sw_sealed w)) (sw_disk w)) as [d n] eqn:E.
  apply drop_covered_spec in E as (Hn & Hc & Hf). rewrite length_take in Hn.
  assert (del ≤ length (sw_sealed w))%nat by (unfold del; destruct (sw_active w); lia).
  rewrite take_take, Nat.min_l in Hc, Hf by lia. exists n, d. split_and!; try done.
  unfold del in *. destruct (sw_active w); lia.
Qed.

Lemma sw_drop_spec h w :
  wal_inv w →
  wal_inv (sw_drop_below h w) ∧ sw_flush (sw_drop_below h w) = sw_flush w ∧
  sw_empty (sw_drop_below h w) = sw_empty w ∧
  ∀ p, h ≤ p → sw_held (sw_drop_below h w) p = sw_held w p.
Proof.
  intros Hi. destruct (sw_drop_shape h w Hi) as (n & d & _ & -> & Hc & Hf).
  pose proof (inv_sealed_lt w Hi) as Hpos.
  pose proof Hi as (H1 & H2 & H3 & H4 & H5).
  assert (segs w = take n (sw_sealed w) ++ (drop n (sw_sealed w) ++ option_list (sw_active w)))
    as Hsegs by (unfold segs; by rewrite app_assoc, take_drop).
  rewrite Hsegs in H1.
  assert (∀ t, t ∈ drop n (sw_sealed w) ++ option_list (sw_active w) →
    wd_files d !! s_start t = wd_files (sw_disk w) !! s_start t) as Hkeep.
  { intros t Ht. apply Hf. intros u Hu.
    destruct (app_starts _ _ u t H1); [by apply Forall_take|done|done|lia]. }
  split; [|split; [done|split; [done|]]].
  - apply sorted_app in H1 as (_ & H1 & _). split; [done|]. split; [by apply Forall_drop|].
    split; [|split; [done|]].
    + intros s Hs. simpl in Hs. destruct (H3 s Hs) as (? & ? & Hok). split; [done|].
      split; [done|]. intros Hw. destruct (Hok Hw) as (c & Hfc & ?). exists c. split; [|done].
      simpl. rewrite Hkeep; [done|]. rewrite Hs. simpl. set_solver.
    + intros Hem. destruct (H5 Hem) as [He ?]. split; [|done]. simpl. rewrite He. by destruct n.
  - intros p Hp. unfold sw_held. rewrite Hsegs, held_in_app_r.
    + unfold segs. simpl. apply held_in_ext. intros s Hs _. unfold seg_byte. by rewrite Hkeep.
    + intros t Ht. apply in_seg_false. specialize (Hc t Ht). lia.
Qed.

(** ** Reading *)
Lemma read_segs_spec files l from to lo out :
  StronglySorted seg_before l → Forall (λ s, lo ≤ s_start s ∧ s_start s ≤ s_end s ∧ is_u64 (s_end s)) l →
  from ≤ to → is_u64 to → read_segs files l from to = Ok out →
  len out ≤ to - N.max from lo ∧
  (len out = to - N.max from lo →
   ∀ i, (i < length out)%nat → out !! i = held_in files l (N.max from lo + N.of_nat i)).
Proof.
  intros Hs. revert lo out. induction Hs as [|s l Hs IH Hb]; intros lo out Hall Hft Hto Hr; simpl in Hr.
  { simplify_eq. split; [simpl; lia|]. simpl. lia. }
  apply Forall_cons in Hall as [(Hlo & Hse & Hu) Hall].
  destruct (_ || _) eqn:E.
  - apply IH with (lo := lo) in Hr as [Hle Heq]; [|done..]. split; [done|].
    intros Hl i Hi. rewrite Heq by done. rewrite held_in_cons, in_seg_false; [done|].
    apply orb_true_iff in E as [E|E]; bool_prop; lia.
  - apply orb_false_elim in E as [E1 E2]. bool_prop.
    apply bind_Ok in Hr as (data & Hd & Hr). apply ok_or_Ok in Hd.
    rewrite !wsub_small in Hr by (unfold u64_modulus in *; lia).
    destruct (_ <? _) eqn:Ed; [done|]. bool_prop. apply bind_Ok in Hr as (rest & Hr & [= <-]).
    assert (Forall (λ t, s_end s ≤ s_start t ∧ s_start t ≤ s_end t ∧ is_u64 (s_end t)) l) as Hall'.
    { apply Forall_forall. intros t Ht. rewrite Forall_forall in Hall, Hb.
      destruct (Hall t Ht) as (_ & ? & ?). specialize (Hb t Ht). unfold seg_before in Hb. lia. }
    apply IH with (lo := s_end s) in Hr as [Hle Heq]; [|done..].
    set (piece := slice _ _ data) in *.
    assert (length piece = N.to_nat (N.min to (s_end s)) - N.to_nat (N.max from (s_start s)))%nat as Hp.
    { unfold piece. rewrite length_slice by lia. lia. }
    rewrite length_app. split; [lia|]. intros Hl i Hi.
    assert (N.max from lo = N.max from (s_start s)) as Hmax by lia.
    assert (len rest = to - N.max from (s_end s)) as Hrest by lia.
    rewrite held_in_cons. destruct (decide (i < length piece)%nat) as [Hlt|Hge].
    + rewrite lookup_app_l by done.
      assert (in_seg (N.max from lo + N.of_nat i) s = true) as -> by (apply in_seg_spec; lia).
      unfold seg_byte. rewrite Hd. simpl. unfold piece, slice.
      rewrite lookup_take_lt by lia. rewrite lookup_drop. f_equal. lia.
    + rewrite lookup_app_r by lia.
      rewrite in_seg_false by lia. rewrite Heq by (done || lia). f_equal. lia.
Qed.

(** [read]: an [Ok] answer is the log's bytes, all of the range. *)
Lemma sw_read_spec w from to out :
  wal_inv w → from ≤ to → is_u64 to → sw_read w from to = Ok out →
  len out = to - from ∧
  ∀ i, (i < length out)%nat → out !! i = sw_held w (from + N.of_nat i).
Proof.
  intros Hi Hft Hto Hr. unfold sw_read in Hr. apply bind_Ok in Hr as (out' & Hr & Hc).
  destruct (negb _) eqn:E; [done|]. bool_prop. apply Ok_inj in Hc as ->.
  rewrite wsub_small in E by done.
  rewrite sort_segs_sorted in Hr.
  - eapply read_segs_spec with (lo := 0) in Hr as [_ Heq]; [|by destruct Hi| |done|done].
    + replace (N.max from 0) with from in Heq by lia. split; [done|]. auto.
    + apply Forall_forall. intros s Hs. pose proof (inv_le w s Hi Hs). pose proof (inv_ends w s Hi Hs).
      destruct Hi as (_ & _ & _ & ? & _). unfold u64_modulus in *. lia.
  - by destruct Hi.
  - apply Forall_forall. intros s Hs. by eapply inv_le.
Qed.

#[export] Instance segment_wal : WalStore SegmentWal := {
  flush_lsn := sw_flush;
  is_empty := sw_empty;
  wal_append := sw_append;
  truncate_from := sw_truncate_from;
  drop_below := sw_drop_below;
  retained_start := sw_retained_start;
  wal_read := sw_read;
  held := sw_held;
  wal_wf := wal_inv;
  appendable := sw_appendable;
}.

#[export] Instance segment_wal_laws crc32 : WalLaws crc32 SegmentWal.
Proof.
  split.
  - intros b fs w w' r recs Hi Hfs Hfit Hap _ Hr. by eapply sw_append_spec.
  - intros l w w' r Hi Hr. by apply sw_truncate_spec.
  - intros h w. apply sw_drop_spec.
  - intros w a b bs. apply sw_read_spec.
  - intros w p. apply sw_held_bound.
  - intros w p. apply sw_held_empty.
Qed.
