(* ===== verification/WalRecovery.v ===== *)
(** * Reboot of the record log: what the boot scan recovers

    A wal whose files are what its bookkeeping says ([whole]), the disks a crash
    can leave of it, and what [SegmentWal::open] makes of them. *)
From S2P Require Import Prelude Segment Json Proto Acceptor SegmentWal.
From stdpp Require Import sorting.
From Stdlib Require Import Sorting.Sorted.
#[local] Open Scope N_scope.

Section Recovery.
Context (crc32 : list byte → N) (crc32_u32 : ∀ bs, is_u32 (crc32 bs)).

(** Frames whose payloads carry consecutive positions from [pos]. *)
Fixpoint lsn_stream (pos : N) (pls : list (list byte)) : Prop :=
  match pls with
  | [] => True
  | p :: pls => (8 ≤ length p)%nat ∧ is_u32 (len p) ∧ le_val (take 8 p) = pos ∧
      lsn_stream (wadd pos (len (frame crc32 p))) pls
  end.

Lemma lsn_stream_u32 pos pls : lsn_stream pos pls → Forall (λ p, is_u32 (len p)) pls.
Proof. revert pos. induction pls; intros pos; [constructor|]. intros (? & ? & ? & ?). constructor; eauto. Qed.

Lemma lsn_stream_app pos pls1 pls2 :
  is_u64 pos →
  lsn_stream pos (pls1 ++ pls2) ↔
  lsn_stream pos pls1 ∧ lsn_stream (wadd pos (len (frames crc32 pls1))) pls2.
Proof.
  revert pos. induction pls1 as [|p pls1 IH]; intros pos Hu; cbn [lsn_stream app].
  - simpl. rewrite wadd_0 by done. naive_solver.
  - rewrite IH by apply wadd_bound. rewrite wadd_assoc, frames_cons, length_app.
    rewrite Nat2N.inj_add. naive_solver.
Qed.

(** A record stream is such a frame stream. *)
Lemma records_lsn_stream pos recs :
  Forall wf_record recs → stream_from crc32 pos recs →
  Forall (λ r, len (record_payload r) ≤ u32_max) recs →
  lsn_stream pos (map record_payload recs).
Proof.
  revert pos. induction recs as [|r recs IH]; intros pos Hw Hs Hl; [done|].
  apply Forall_cons in Hw as [(Hu & _) Hw]. apply Forall_cons in Hl as [Hp Hl].
  destruct Hs as [Hpos Hs]. cbn [lsn_stream map]. split_and!.
  - rewrite length_record_payload. lia.
  - unfold u32_max, u32_modulus in *. lia.
  - rewrite <-Hpos. by apply le_val_u64.
  - by apply IH.
Qed.

Lemma decoded_lsn_stream fs pos recs :
  decode_records crc32 fs pos = Ok recs →
  fs = frames crc32 (map record_payload recs) ∧ lsn_stream pos (map record_payload recs).
Proof.
  intros (-> & Hw & Hs & He)%decode_records_sound. split.
  - unfold frames. rewrite map_map. done.
  - apply records_lsn_stream; [done..|]. eapply Forall_impl; [done|].
    by intros r (_ & ? & _)%record_encode_Ok.
Qed.

(** ** The frame loop *)

(** Over the ranges of [pls] found at [off], the loop stops at the longest
    prefix with consecutive positions. *)
Lemma check_ranges_spec data start pls off rest bad :
  drop off data = frames crc32 pls ++ rest → (off ≤ length data)%nat → is_u64 start →
  ∃ good tail, pls = good ++ tail ∧
    check_ranges data start (ranges_from off pls) (wadd start (N.of_nat off)) off bad =
      ((off + length (frames crc32 good))%nat, match tail with [] => bad | _ => true end) ∧
    (Forall (λ p, is_u32 (len p)) pls → lsn_stream (wadd start (N.of_nat off)) good) ∧
    (∀ q q', pls = q ++ q' → lsn_stream (wadd start (N.of_nat off)) q →
       ∃ good', good = q ++ good').
Proof.
  intros Hd Hoff Hu. revert off Hd Hoff. induction pls as [|p pls IH]; intros off Hd Hoff.
  { exists [], []. simpl. rewrite Nat.add_0_r. split_and!; try done.
    intros [|] q' Hq; [by exists []|done]. }
  cbn [ranges_from check_ranges]. unfold FRAME_HEADER_BYTES.
  rewrite frames_cons, <-app_assoc in Hd.
  assert (slice (off + 8) (off + 8 + length p) data = p) as Hsl.
  { rewrite <-(take_drop off data), Hd. replace off with (length (take off data)) at 1 2
      by (rewrite length_take; lia). apply (slice_frame_payload crc32). }
  assert (length data = off + (8 + length p + (length (frames crc32 pls ++ rest))))%nat as Hlen.
  { rewrite <-(take_drop off data), length_app, Hd, (length_app (frame _ _)), length_frame, length_take.
    lia. }
  replace (off + 8 + length p - (off + 8))%nat with (length p) by lia.
  assert (¬ (8 ≤ length p)%nat ∨ le_val (take 8 p) ≠ wadd start (N.of_nat off) →
    ∀ q q', p :: pls = q ++ q' → lsn_stream (wadd start (N.of_nat off)) q → ∃ good', [] = q ++ good')
    as Hstop.
  { intros Hbad [|x q] q' Hq Hs; [by exists []|]. injection Hq as <- _.
    destruct Hs as (? & _ & ? & _). naive_solver. }
  destruct (length p <? 8)%nat eqn:E1; bool_prop.
  { exists [], (p :: pls). rewrite Nat.add_sub. simpl. rewrite Nat.add_0_r.
    split_and!; try done. apply Hstop. left. lia. }
  assert (slice (off + 8) (off + 8 + 8) data = take 8 p) as Hsl8.
  { rewrite <-Hsl at 1. unfold slice. rewrite take_take. f_equal. lia. }
  rewrite Hsl8. destruct (negb _) eqn:E2; bool_prop.
  { exists [], (p :: pls). rewrite Nat.add_sub. simpl. rewrite Nat.add_0_r.
    split_and!; try done. apply Hstop. by right. }
  replace (off + 8 + length p)%nat with (off + length (frame crc32 p))%nat
    by (rewrite length_frame; lia).
  edestruct (IH (off + length (frame crc32 p))%nat) as (good & tail & -> & Hc & Hg & Hmax).
  { rewrite <-drop_drop, Hd. apply drop_app_length. }
  { rewrite length_frame. lia. }
  exists (p :: good), tail. rewrite Hc.
  assert (wadd start (N.of_nat (off + length (frame crc32 p))) =
    wadd (wadd start (N.of_nat off)) (len (frame crc32 p))) as Hw
    by (rewrite wadd_assoc; f_equal; lia).
  rewrite Hw in *. split_and!; [done| | |].
  - rewrite frames_cons, length_app. f_equal. lia.
  - intros [? ?]%Forall_cons. simpl. split_and!; auto.
  - intros [|x q] q' Hq Hs; [by eexists|]. injection Hq as <- Hq. destruct Hs as (_ & _ & _ & Hs).
    destruct (Hmax q q' Hq Hs) as [g ->]. by exists g.
Qed.

(** ** One segment *)

(** Everything the directory shows is durable. *)
Definition all_synced (d : wdisk) : Prop :=
  wd_names d = dom (wd_files d) ∧
  ∀ k c, wd_files d !! k = Some c → synced_len d k = length c.

Lemma all_synced_cut start n d d' :
  all_synced d → (set_len start n ;;* sync start)%stres d = (d', Ok tt) → all_synced d'.
Proof.
  intros [Hn Hs]. unfold st_bind, set_len. destruct (syscall _ _ d) as [d1 r1] eqn:E1.
  apply syscall_cases in E1 as (io & [[-> ->]|(e & k & -> & ->)]); [|done].
  intros (io' & [[_ ->]|(e & k & ? & _)])%syscall_cases; [|done]. split.
  - simpl. by rewrite dom_alter_L.
  - intros k c. unfold synced_len. simpl. destruct (decide (k = start)) as [->|].
    + rewrite lookup_insert_eq. intros ->. done.
    + rewrite lookup_alter_ne, lookup_insert_ne, lookup_alter_ne by done. apply Hs.
Qed.

Lemma all_synced_remove s d d' r : all_synced d → remove_file s d = (d', r) → all_synced d'.
Proof.
  intros [Hn Hs]. unfold remove_file. destruct (wd_files d !! s); [|by intros [= <- _]].
  intros (io & [[_ ->]|(e & k & _ & ->)])%syscall_cases; [|by split]. split; simpl.
  - by rewrite dom_delete_L, Hn.
  - intros k c Hk. apply lookup_delete_Some in Hk as [_ Hk]. by apply Hs.
Qed.

(** A clean file is left alone. *)
Lemma scan_wal_segment_exact start d q :
  wd_files d !! start = Some (frames crc32 q) → is_u64 (start + len (frames crc32 q)) →
  lsn_stream start q →
  scan_wal_segment crc32 start d = (d, Ok (start + len (frames crc32 q), false)).
Proof.
  intros Hf Hu Hs. unfold scan_wal_segment, st_bind, st_lift, read_file. rewrite Hf. simpl.
  rewrite scan_frames_roundtrip; [|done|].
  2: { eapply Forall_impl; [by eapply lsn_stream_u32|]. unfold u32_max, u32_modulus. simpl. lia. }
  cbn [payloads bad].
  destruct (check_ranges_spec (frames crc32 q) start q 0 [] false) as
    (good & tail & Hq & Hc & _ & Hmax); [by rewrite app_nil_r|lia|lia|].
  simpl N.of_nat in *. rewrite wadd_0 in * by lia.
  destruct (Hmax q [] ltac:(by rewrite app_nil_r) Hs) as [g ->].
  assert (g = [] ∧ tail = []) as [-> ->].
  { apply (f_equal length) in Hq. rewrite !length_app in Hq.
    destruct g, tail; simpl in Hq; done || lia. }
  rewrite app_nil_r in Hc. rewrite Hc. unfold st_ret. simpl.
  by rewrite wadd_small by done.
Qed.

(** A file with anything behind its valid frames is cut back to whole frames
    with consecutive positions, keeping the ones it started with. *)
Lemma scan_wal_segment_torn start d q junk :
  wd_files d !! start = Some (frames crc32 q ++ junk) → wd_io d = [] → all_synced d →
  is_u64 (start + len (frames crc32 q ++ junk)) → lsn_stream start q →
  ∃ good d' hit, scan_wal_segment crc32 start d =
      (d', Ok (start + len (frames crc32 (q ++ good)), hit)) ∧
    wd_files d' = <[start := frames crc32 (q ++ good)]> (wd_files d) ∧ wd_io d' = [] ∧
    all_synced d' ∧ lsn_stream start (q ++ good) ∧ is_u64 (start + len (frames crc32 (q ++ good))).
Proof.
  intros Hf Hio Hsy Hu Hs.
  destruct (scan_frame_bytes_prefix crc32 crc32_u32 q junk) as (pls & Hp & Hge & Ht & Hb & Hpu);
    [by eapply lsn_stream_u32|]. set (data := frames crc32 q ++ junk) in *. cbv zeta in *.
  unfold scan_wal_segment, st_bind at 1, st_lift, read_file. rewrite Hf. cbn [ok_or].
  set (scan := scan_frame_bytes crc32 data) in *. rewrite Hp.
  assert (data = frames crc32 (q ++ pls) ++ drop (good_end scan) data) as Hdata
    by (rewrite <-Ht; by rewrite take_drop).
  destruct (check_ranges_spec data start (q ++ pls) 0 (drop (good_end scan) data)
    match bad scan with Some _ => true | None => false end) as (good & tail & Hq & Hc & Hg & Hmax);
    [done|lia|lia|].
  simpl N.of_nat in *. rewrite wadd_0 in * by lia.
  destruct (Hmax q pls eq_refl Hs) as [g ->]. rewrite Hc. simpl Nat.add.
  set (hit := match tail with [] => _ | _ => true end).
  rewrite Hq, frames_app, <-app_assoc in Hdata.
  assert (length (frames crc32 (q ++ g)) ≤ length data)%nat as Hlen
    by (rewrite Hdata, length_app; lia).
  assert (hit = false → data = frames crc32 (q ++ g)) as Hnohit.
  { unfold hit. intros Hh. destruct tail; [|done]. destruct (bad scan); [done|].
    rewrite Hdata at 1. rewrite (Hb eq_refl), drop_ge by lia. simpl. by rewrite app_nil_r. }
  assert (is_u64 (start + len (frames crc32 (q ++ g)))) as Hu' by lia.
  exists g. destruct hit eqn:Ehit.
  - destruct ((set_len start (N.of_nat (length (frames crc32 (q ++ g)))) ;;* sync start)%stres d)
      as [d1 r1] eqn:E1.
    assert (r1 = Ok tt ∧ wd_io d1 = [] ∧
      wd_files d1 = alter (resize_bytes (length (frames crc32 (q ++ g)))) start (wd_files d)) as (-> & Hio1 & Hd1).
    { revert E1. unfold st_bind, set_len, sync, syscall. rewrite Hio. simpl. rewrite Nat2N.id.
      by intros [= <- <-]. }
    apply all_synced_cut in E1 as Hsy1; [|done]. unfold st_bind in *. rewrite E1.
    eexists d1, true. rewrite wadd_small by done. split; [done|]. rewrite Hd1. split_and!; auto.
    apply map_eq. intros k. destruct (decide (k = start)) as [->|].
    + rewrite lookup_alter_eq, lookup_insert_eq, Hf. simpl. rewrite resize_take by lia.
      rewrite Hdata at 1. by rewrite take_app_length.
    + by rewrite lookup_alter_ne, lookup_insert_ne.
  - unfold st_bind, st_ret. exists d, false. rewrite wadd_small by done. split_and!; auto.
    rewrite insert_id; [done|]. rewrite Hf. f_equal. by apply Hnohit.
Qed.

(** ** Whole wals and the disks they leave *)

(** Consecutive segments from [pos]; [chain_end] is where they end. *)
Fixpoint chain (pos : N) (l : list Seg) : Prop :=
  match l with [] => True | s :: l => s_start s = pos ∧ chain (s_end s) l end.
Fixpoint chain_end (pos : N) (l : list Seg) : N :=
  match l with [] => pos | s :: l => chain_end (s_end s) l end.

(** The file of a segment, as frames with consecutive positions. *)
Definition seg_file (s : Seg) (c : list byte) : Prop :=
  ∃ q, c = frames crc32 q ∧ lsn_stream (s_start s) q ∧ s_end s = s_start s + len c.

(** A wal in working order: no hole, every file is its bookkeeping, no other
    file is in the directory. *)
Definition whole (w : SegmentWal) : Prop :=
  wal_inv w ∧ sw_wedged w = false ∧
  (∃ base, chain base (segs w) ∧ chain_end base (segs w) = sw_flush w) ∧
  (∀ s, s ∈ segs w → ∃ c, wd_files (sw_disk w) !! s_start s = Some c ∧ seg_file s c) ∧
  (∀ k, k ∈ dom (wd_files (sw_disk w)) → ∃ s, s ∈ segs w ∧ s_start s = k) ∧
  all_synced (sw_disk w).

(** What a crash can leave of it: names a directory sync has not made durable
    may be gone; of a file its synced prefix is kept, with anything behind it
    where bytes were not synced or a write to the newest segment was under
    way. *)
Definition crash_disk (w : SegmentWal) (d : wdisk) : Prop :=
  wd_io d = [] ∧ all_synced d ∧
  wd_names (sw_disk w) ⊆ dom (wd_files d) ∧ dom (wd_files d) ⊆ dom (wd_files (sw_disk w)) ∧
  ∀ k c c', wd_files (sw_disk w) !! k = Some c → wd_files d !! k = Some c' →
    is_u64 (k + len c') ∧
    ∃ junk, c' = take (synced_len (sw_disk w) k) c ++ junk ∧
      (junk = [] ∨ (synced_len (sw_disk w) k < length c)%nat ∨
       ∃ l1 s, segs w = l1 ++ [s] ∧ s_start s = k).

Lemma chain_app pos l1 l2 :
  chain pos (l1 ++ l2) ↔ chain pos l1 ∧ chain (chain_end pos l1) l2.
Proof. revert pos. induction l1 as [|s l1 IH]; intros pos; simpl; [naive_solver|]. rewrite IH. naive_solver. Qed.

Lemma chain_end_app pos l1 l2 : chain_end pos (l1 ++ l2) = chain_end (chain_end pos l1) l2.
Proof. revert pos. induction l1; intros pos; simpl; auto. Qed.

(** The sorted directory listing is the list of segment starts. *)
Lemma sorted_names_segs files l :
  StronglySorted seg_before l → (∀ l1 s, l = l1 ++ [s] → Forall (λ s, s_start s < s_end s) l1) →
  (∀ s, s ∈ l → is_Some (files !! s_start s)) →
  (∀ k, k ∈ dom files → ∃ s, s ∈ l ∧ s_start s = k) →
  sorted_names files = map s_start l.
Proof.
  intros Hs Hpos Hin Hout.
  assert (StronglySorted N.lt (map s_start l)) as Hlt.
  { clear -Hs Hpos. induction Hs as [|s l Hs IH Hb]; simpl; constructor.
    - apply IH. intros l1 s' ->. specialize (Hpos (s :: l1) s' eq_refl). by apply Forall_cons in Hpos as [_ ?].
    - destruct l as [|t l' _] using rev_ind; [constructor|].
      specialize (Hpos (s :: l') t eq_refl). apply Forall_cons in Hpos as [Hpos _].
      apply Forall_fmap. eapply Forall_impl; [exact Hb|]. unfold seg_before. simpl. lia. }
  unfold sorted_names. apply (Sorted_unique N.le).
  - apply Sorted_merge_sort. intros x y. lia.
  - apply StronglySorted_Sorted. clear -Hlt. induction Hlt as [|x l' Hl IH Hx]; constructor; [done|].
    eapply Forall_impl; [done|]. simpl. lia.
  - rewrite merge_sort_Permutation. apply NoDup_Permutation.
    + apply NoDup_fst_map_to_list.
    + clear -Hlt. induction Hlt as [|x l' Hl IH Hx]; constructor; [|done].
      intros Hin. rewrite Forall_forall in Hx. specialize (Hx x Hin). lia.
    + intros k. change (map fst) with (fmap (M := list) (@fst N (list byte))).
      rewrite list_elem_of_fmap. change (map s_start l) with (s_start <$> l).
      rewrite list_elem_of_fmap. split.
      * intros ([k' c] & -> & Hk). apply elem_of_map_to_list in Hk. simpl.
        destruct (Hout k') as (s & Hs' & <-); [apply elem_of_dom; eauto|]. eauto.
      * intros (s & -> & Hs'). destruct (Hin s Hs') as [c Hc]. exists (s_start s, c).
        split; [done|]. by apply elem_of_map_to_list.
Qed.

(** Intact segments are all kept, and the directory is left alone. *)
Lemma open_loop_exact l named p sealed d :
  (∀ s, s ∈ l → s_start s < s_end s ∧ is_u64 (s_end s) ∧
     ∃ c, wd_files d !! s_start s = Some c ∧ seg_file s c) →
  (∃ base, chain base l ∧ (p = None ∨ p = Some base)) →
  open_loop crc32 (map s_start l ++ named) p false sealed d =
  open_loop crc32 named (match l with [] => p | s :: _ => Some (chain_end 0 l) end) false (sealed ++ l) d.
Proof.
  revert p sealed. induction l as [|s l IH]; intros p sealed Hall (base & Hch & Hp).
  { by rewrite app_nil_r. }
  destruct Hch as [Hst Hch]. cbn [map app open_loop].
  assert (match p with Some p => negb (s_start s =? p) | None => false end = false) as ->.
  { destruct Hp as [->| ->]; [done|]. by rewrite Hst, N.eqb_refl. }
  destruct (Hall s ltac:(by left)) as (Hlt & Hu & c & Hc & q & -> & Hq & Hend).
  unfold st_bind at 1. rewrite (scan_wal_segment_exact _ _ q) by (done || by rewrite <-Hend).
  rewrite <-Hend. rewrite (proj2 (N.eqb_neq _ _)) by lia.
  replace {| s_start := s_start s; s_end := s_end s |} with s by (by destruct s).
  rewrite IH.
  - rewrite <-app_assoc. simpl. f_equal. destruct l as [|t l]; done.
  - intros t Ht. apply Hall. by right.
  - exists (s_end s). auto.
Qed.

Lemma whole_seg_file w s :
  whole w → s ∈ segs w → ∃ q, wd_files (sw_disk w) !! s_start s = Some (frames crc32 q) ∧
    lsn_stream (s_start s) q ∧ s_end s = s_start s + len (frames crc32 q).
Proof. intros (_ & _ & _ & Hf & _) Hs. destruct (Hf s Hs) as (c & Hc & q & -> & ? & ?). eauto. Qed.

Lemma whole_front w l1 s :
  whole w → segs w = l1 ++ [s] → Forall (λ t, s_start t < s_end t) l1.
Proof.
  intros [Hi _] Hl. pose proof (inv_sealed_lt w Hi) as Hpos. unfold segs in Hl.
  destruct (sw_active w) as [a|]; simpl in Hl.
  - apply app_inj_tail in Hl as [<- _]. done.
  - rewrite app_nil_r in Hl. rewrite Hl in Hpos. by apply Forall_app in Hpos as [? _].
Qed.

(** So a crash keeps the older segments as they are, and the newest one with a
    torn write behind it. *)
Lemma crash_whole w d l1 s :
  whole w → segs w = l1 ++ [s] → crash_disk w d →
  dom (wd_files d) = dom (wd_files (sw_disk w)) ∧ wd_io d = [] ∧ all_synced d ∧
  (∀ t, t ∈ l1 → wd_files d !! s_start t = wd_files (sw_disk w) !! s_start t) ∧
  ∃ c junk, wd_files (sw_disk w) !! s_start s = Some c ∧
    wd_files d !! s_start s = Some (c ++ junk) ∧ is_u64 (s_start s + len (c ++ junk)).
Proof.
  intros Hw Hl (Hio & Hsd & Hsub & Hsup & Hk).
  pose proof Hw as (Hi & _ & _ & Hf & _ & Hn & Hs).
  assert (dom (wd_files d) = dom (wd_files (sw_disk w))) as Hdom by (rewrite Hn in Hsub; set_solver).
  assert (∀ k c, wd_files (sw_disk w) !! k = Some c → ∃ junk, wd_files d !! k = Some (c ++ junk) ∧
    is_u64 (k + len (c ++ junk)) ∧ (junk = [] ∨ s_start s = k)) as Hkeep.
  { intros k c Hc. assert (is_Some (wd_files d !! k)) as [c' Hc'].
    { apply elem_of_dom. rewrite Hdom. apply elem_of_dom. by eexists. }
    destruct (Hk k c c' Hc Hc') as (Hu & junk & -> & Hj). rewrite (Hs k c Hc) in *.
    rewrite firstn_all in *. exists junk. split_and!; [done..|].
    destruct Hj as [?|[?|(l & s' & Hl' & <-)]]; [by left|lia|].
    rewrite Hl in Hl'. apply app_inj_tail in Hl' as [_ ->]. by right. }
  split_and!; [done..| |].
  - intros t Ht. destruct (Hf t) as (c & Hc & _); [rewrite Hl; set_solver|].
    destruct (Hkeep _ _ Hc) as (junk & Hd & _ & [->|Heq]); [by rewrite Hd, app_nil_r|].
    pose proof (whole_front w l1 s Hw Hl) as Hpos. destruct Hi as (H1 & _). rewrite Hl in H1.
    destruct (app_starts l1 [s] t s H1 Hpos Ht) as [Hlt _]; [by left|]. lia.
  - destruct (Hf s) as (c & Hc & _); [rewrite Hl; set_solver|].
    destruct (Hkeep _ _ Hc) as (junk & ? & ? & _). by exists c, junk.
Qed.

(** The newest segment after the scan. *)
Definition newest (s : Seg) (e : N) : list Seg :=
  if e =? s_start s then [] else [{| s_start := s_start s; s_end := e |}].

(** What [open] computes on a crash disk. *)
Lemma wal_open_crash w d l1 s :
  whole w → segs w = l1 ++ [s] → crash_disk w d →
  ∃ q good d', wd_files (sw_disk w) !! s_start s = Some (frames crc32 q) ∧
    s_end s = s_start s + len (frames crc32 q) ∧ lsn_stream (s_start s) (q ++ good) ∧
    is_u64 (s_start s + len (frames crc32 (q ++ good))) ∧
    wd_io d' = [] ∧ all_synced d' ∧
    wd_files d' = (if s_start s + len (frames crc32 (q ++ good)) =? s_start s
                   then delete (s_start s) (wd_files d)
                   else <[s_start s := frames crc32 (q ++ good)]> (wd_files d)) ∧
    let e := s_start s + len (frames crc32 (q ++ good)) in
    wal_open crc32 d = (d', Ok {| sw_disk := d'; sw_sealed := l1 ++ newest s e; sw_active := None;
      sw_flush := e; sw_empty := (match l1 ++ newest s e with [] => true | _ => false end) && (e =? 0);
      sw_rotate_bytes := SEGMENT_ROTATE_BYTES; sw_wedged := false |}).
Proof.
  intros Hw Hl Hcr. destruct (crash_whole w d l1 s Hw Hl Hcr) as
    (Hdom & Hio & Hsd & Hkeep & c & junk & Hc & Hcj & Hu). clear Hcr.
  pose proof (whole_front w l1 s Hw Hl) as Hpos.
  destruct (whole_seg_file w s Hw) as (q & Hq & Hs & Hend); [rewrite Hl; set_solver|].
  rewrite Hq in Hc. injection Hc as <-.
  destruct (scan_wal_segment_torn _ _ _ _ Hcj Hio Hsd Hu Hs) as
    (good & d1 & hit & Hscan & Hd1 & Hio1 & Hsd1 & Hs1 & Hu1).
  set (e := s_start s + len (frames crc32 (q ++ good))) in *.
  pose proof Hw as (Hi & _ & (base & Hch & _) & Hf & Hdm & _).
  assert (sorted_names (wd_files d) = map s_start l1 ++ [s_start s]) as Hnames.
  { rewrite (sorted_names_segs _ (segs w)).
    - by rewrite Hl, map_app.
    - by destruct Hi.
    - intros l1' s' Hl'. by eapply whole_front.
    - intros t Ht. apply elem_of_dom. rewrite Hdom. destruct (Hf t Ht) as (ct & Hct & _).
      apply elem_of_dom. by eexists.
    - intros k. rewrite Hdom. apply Hdm. }
  rewrite Hl in Hch. apply chain_app in Hch as [Hch1 [Hst _]].
  assert (open_loop crc32 (sorted_names (wd_files d)) None false [] d =
    open_loop crc32 [s_start s] (match l1 with [] => None | _ => Some (chain_end 0 l1) end) false l1 d) as Hopen.
  { rewrite Hnames, open_loop_exact.
    - done.
    - intros t Ht. rewrite Forall_forall in Hpos. split; [by apply Hpos|].
      assert (t ∈ segs w) as Hin by (rewrite Hl; set_solver).
      pose proof (inv_ends w t Hi Hin). destruct Hi as (_ & _ & _ & Hfl & _). split; [lia|].
      rewrite Hkeep by done. by apply Hf.
    - exists base. by auto. }
  unfold wal_open. rewrite Hopen. cbn [open_loop].
  assert (match match l1 with [] => None | _ => Some (chain_end 0 l1) end with
          | Some p => negb (s_start s =? p) | None => false end = false) as ->.
  { destruct l1 as [|t l1']; [done|]. simpl in *. by rewrite Hst, N.eqb_refl. }
  unfold st_bind at 1. rewrite Hscan. fold e. cbv iota beta.
  unfold newest. destruct (e =? s_start s) eqn:Ee.
  - destruct (remove_file (s_start s) d1) as [d2 r2] eqn:E2.
    assert (wd_files d2 = delete (s_start s) (wd_files d) ∧ wd_io d2 = []) as [Hd2 Hio2].
    { revert E2. unfold remove_file, syscall. rewrite Hd1, lookup_insert_eq, Hio1.
      intros [= <- _]. simpl. by rewrite Hd1, delete_insert_eq. }
    unfold st_bind, ignore. rewrite E2. unfold st_ret. simpl.
    exists q, good, d2. fold e. rewrite Ee, app_nil_r.
    apply all_synced_remove in E2; [|done]. by split_and!.
  - unfold st_ret. exists q, good, d1. fold e. rewrite Ee. by split_and!.
Qed.

(** A reboot of a whole wal is whole again, holds everything the wal held and
    nothing else below its old flush position. *)
Lemma reboot_whole w d :
  whole w → segs w ≠ [] → crash_disk w d →
  ∃ d' w', wal_open crc32 d = (d', Ok w') ∧ whole w' ∧ sw_flush w ≤ sw_flush w' ∧
    ∀ p, p < sw_flush w → sw_held w' p = sw_held w p.
Proof.
  intros Hw Hne Hcr. destruct (segs w) as [|s l1 _] eqn:Hl using rev_ind; [done|]. clear Hne.
  pose proof (wal_open_crash w d l1 s Hw Hl Hcr) as
    (q & good & d' & Hq & Hend & Hs & Hu & Hio' & Hsd' & Hd' & Hopen). cbv zeta in Hopen.
  set (e := s_start s + len (frames crc32 (q ++ good))) in *.
  eexists d', _. split; [exact Hopen|]. clear Hopen.
  pose proof Hw as (Hi & _ & (base & Hch & Hce) & Hf & Hdm & _).
  pose proof (whole_front w l1 s Hw Hl) as Hpos.
  pose proof Hi as (H1 & _ & _ & H4 & _). rewrite Hl in H1.
  assert (sw_flush w = s_end s) as Hfl by (by rewrite <-Hce, Hl, chain_end_app).
  rewrite Hl in Hch. apply chain_app in Hch as [Hch1 [Hst _]].
  assert (s_end s ≤ e) as Hle.
  { unfold e. rewrite Hend, frames_app, length_app. lia. }
  destruct (crash_whole w d l1 s Hw Hl Hcr) as (Hdom & _ & _ & Hkeep1 & _).
  assert (∀ t, t ∈ l1 → s_start t < s_start s ∧ s_end t ≤ s_start s) as Hbelow.
  { intros t Ht. by eapply app_starts; [done..|set_solver]. }
  assert (∀ t, t ∈ l1 → wd_files d' !! s_start t = wd_files (sw_disk w) !! s_start t) as Hfront.
  { intros t Ht. destruct (Hbelow t Ht). rewrite <-Hkeep1 by done. rewrite Hd'.
    destruct (_ =? _); [rewrite lookup_delete_ne|rewrite lookup_insert_ne]; done || lia. }
  assert (∀ t, t ∈ newest s e → t = {| s_start := s_start s; s_end := e |} ∧
    s_start s < e ∧ wd_files d' !! s_start s = Some (frames crc32 (q ++ good))) as Hnew.
  { intros t. unfold newest. destruct (e =? s_start s) eqn:Ee; bool_prop.
    - intros Ht. by apply not_elem_of_nil in Ht.
    - intros ->%list_elem_of_singleton. rewrite Hd', lookup_insert_eq.
      split_and!; [done|unfold e in *; lia|done]. }
  split; [|split].
  - split; [|split; [done|split; [|split; [|split; [|exact Hsd']]]]].
    + split; [|split; [|split; [done|split; [done|]]]].
      * rewrite segs_sealed by done. simpl. apply sorted_app in H1 as (H1 & _ & _).
        apply sorted_app. split; [done|]. split.
        -- unfold newest. destruct (_ =? _); repeat constructor.
        -- intros a b Ha (-> & _ & _)%Hnew. by apply Hbelow.
      * simpl. apply Forall_app. split.
        -- apply Forall_forall. intros t Ht. rewrite Forall_forall in Hpos.
           split; [by apply Hpos|]. destruct (Hbelow t Ht). unfold e. lia.
        -- apply Forall_forall. intros t (-> & ? & _)%Hnew. simpl. lia.
      * simpl. intros Hem. apply andb_prop in Hem as [Hem _]. split; [|done].
        by destruct (l1 ++ newest s e).
    + rewrite segs_sealed by done. simpl. exists base. split.
      * apply chain_app. split; [done|]. unfold newest. destruct (_ =? _); simpl; [done|by rewrite Hst].
      * rewrite chain_end_app, <-Hst. unfold newest. destruct (e =? s_start s) eqn:Ee; bool_prop; simpl; lia.
    + rewrite segs_sealed by done. simpl. intros t [Ht|Ht]%elem_of_app.
      * rewrite Hfront by done. apply Hf. rewrite Hl. set_solver.
      * apply Hnew in Ht as (-> & _ & Hft). simpl. rewrite Hft. eexists. split; [done|].
        exists (q ++ good). by split_and!.
    + rewrite segs_sealed by done. simpl. intros k Hk.
      assert (k ∈ dom (wd_files d) ∧ (k = s_start s → newest s e ≠ [])) as [Hkd Hks].
      { rewrite Hd' in Hk. unfold newest. destruct (_ =? _) eqn:Ee.
        - rewrite dom_delete_L in Hk. set_solver.
        - rewrite dom_insert_L in Hk. split; [|done].
          assert (s_start s ∈ dom (wd_files d)); [|set_solver].
          rewrite Hdom. apply elem_of_dom. by eexists. }
      rewrite Hdom in Hkd. destruct (Hdm k Hkd) as (t & Ht & <-). rewrite Hl in Ht.
      apply elem_of_app in Ht as [Ht|Ht%list_elem_of_singleton]; [exists t; set_solver|].
      subst t. specialize (Hks eq_refl). unfold newest in *. destruct (_ =? _); [done|].
      eexists. split; [apply elem_of_app; right; by left|done].
  - simpl. lia.
  - intros p Hp. unfold sw_held. rewrite (segs_sealed {| sw_disk := d' |}) by done. simpl. rewrite Hl.
    rewrite !held_in_app. destruct (List.find (in_seg p) l1) as [t|] eqn:Et.
    + apply find_some in Et as [Ht _]. apply list_elem_of_In in Ht.
      unfold seg_byte. by rewrite Hfront.
    + rewrite held_in_cons. destruct (in_seg p s) eqn:Ein.
      * apply in_seg_spec in Ein. destruct (newest s e) as [|t ts] eqn:En.
        { unfold newest in En. destruct (e =? s_start s) eqn:Ee; bool_prop; [lia|done]. }
        destruct (Hnew t) as (-> & _ & Hft); [by left|].
        rewrite held_in_cons. assert (in_seg p {| s_start := s_start s; s_end := e |} = true) as ->
          by (apply in_seg_spec; simpl; lia).
        unfold seg_byte. simpl. rewrite Hft, Hq. simpl. rewrite frames_app, lookup_app_l by lia. done.
      * unfold newest. destruct (e =? s_start s); [done|]. rewrite held_in_cons.
        assert (in_seg p {| s_start := s_start s; s_end := e |} = false) as ->; [|done].
        destruct (in_seg p {| s_start := s_start s; s_end := e |}) eqn:E2; [|done].
        apply in_seg_spec in E2. simpl in E2.
        assert (in_seg p s = true) by (apply in_seg_spec; lia). congruence.
Qed.

(** ** Acknowledged appends keep the wal whole *)
Lemma whole_position w b :
  whole w → sw_empty w = true → sw_appendable w b → is_u64 b → whole (set_flush w b true).
Proof.
  intros (Hi & Hw & (base & Hch & Hce) & Hf & Hd & Hsd) He Ha Hb.
  split; [by eapply set_position_spec|]. split; [done|]. split; [|done].
  destruct Hi as (_ & _ & Hact & _ & H5). destruct (H5 He) as [Hsl _].
  destruct Ha as [Hnone| ->]; [|by exists base].
  exists b. unfold segs. simpl. by rewrite Hsl, Hnone.
Qed.

Lemma ensure_active_whole w w' s :
  whole w → ensure_active (sw_flush w) w = (w', Ok s) → whole w' ∧ sw_active w' = Some s.
Proof.
  intros Hwh He. pose proof Hwh as (Hi & Hw & (base & Hch & Hce) & Hf & Hd & Hn & Hsy).
  destruct (ensure_active_spec _ _ _ _ Hi Hw eq_refl He) as ((Hi' & _) & Hw' & _ & Ha).
  specialize (Ha s eq_refl). split; [|done]. clear Hw'.
  unfold ensure_active in He. destruct (sw_active w) as [a|] eqn:Ea; [by simplify_eq|].
  unfold st_bind, on_disk, st_modify, st_ret, create_new in He.
  destruct (wd_files (sw_disk w) !! sw_flush w) eqn:Ef; [done|].
  destruct (syscall _ _ (sw_disk w)) as [d1 r1] eqn:E1.
  apply syscall_cases in E1 as (io & [[-> Ed1]|(? & ? & -> & _)]); [|done]. simpl in He.
  destruct (sync_dir d1) as [d2 r2] eqn:E2.
  apply syscall_cases in E2 as (io' & [[-> Ed2]|(? & ? & -> & _)]); [|done]. injection He as <- <-.
  assert (wd_files d2 = <[sw_flush w := []]> (wd_files (sw_disk w))) as Hd2 by (by rewrite Ed2, Ed1).
  assert (all_synced d2) as Hsd.
  { split; [by rewrite Ed2|]. intros k c. rewrite Hd2. unfold synced_len. rewrite Ed2, Ed1. simpl.
    destruct (decide (k = sw_flush w)) as [->|].
    - rewrite lookup_insert_eq, lookup_delete_eq. by intros [= <-].
    - rewrite lookup_insert_ne, lookup_delete_ne by done. apply Hsy. }
  assert (segs w = sw_sealed w) as Hsl by (by apply segs_sealed). rewrite Hsl in *.
  split; [done|]. split; [done|]. split; [|split; [|split; [|done]]].
  - exists base. unfold segs. simpl. split; [apply chain_app; simpl; naive_solver|].
    by rewrite chain_end_app.
  - unfold segs. simpl. rewrite Hd2. intros t [Ht|Ht%list_elem_of_singleton]%elem_of_app.
    + destruct (Hf t Ht) as (c & Hc & Hs). exists c. split; [|done].
      rewrite lookup_insert_ne; [done|]. intros Heq. congruence.
    + subst t. simpl. exists []. rewrite lookup_insert_eq. split; [done|]. exists []. simpl. by rewrite N.add_0_r.
  - unfold segs. simpl. rewrite Hd2, dom_insert_L.
    intros k [->%elem_of_singleton|Hk]%elem_of_union.
    + eexists. split; [apply elem_of_app; right; by left|done].
    + destruct (Hd k Hk) as (t & Ht & <-). exists t. split; [|done]. apply elem_of_app. by left.
Qed.

Lemma seal_active_whole w w' :
  whole w → (∀ s, sw_active w = Some s → s_start s < s_end s) → seal_active w = (w', Ok tt) →
  whole w' ∧ segs w' = segs w.
Proof.
  intros Hw Hpos Hs. pose proof Hw as (Hi & Hwd & Hc & Hf & Hd).
  pose proof (seal_active_spec _ _ _ Hi Hs) as ((Hi' & _) & _).
  unfold seal_active in Hs. destruct (sw_active w) as [s|] eqn:Ea; [|by simplify_eq].
  specialize (Hpos s eq_refl). apply N.ltb_lt in Hpos. rewrite Hpos in Hs. simplify_eq.
  assert (segs (set_segs w (sw_sealed w ++ [s]) None) = segs w) as Hsegs.
  { unfold segs. simpl. rewrite Ea. simpl. by rewrite app_nil_r. }
  split; [|done]. split; [done|]. split; [done|]. by rewrite Hsegs.
Qed.

(** The write itself. *)
Lemma write_whole w s fs d' pls :
  whole w → sw_active w = Some s → fs = frames crc32 pls → lsn_stream (sw_flush w) pls →
  (write_all (s_start s) fs ;;* sync (s_start s))%stres (sw_disk w) = (d', Ok tt) →
  fs ≠ [] → is_u64 (sw_flush w + len fs) →
  let s' := {| s_start := s_start s; s_end := wadd (s_end s) (len fs) |} in
  whole (set_flush (set_segs (set_disk w d') (sw_sealed w) (Some s')) (s_end s') false) ∧
  s_start s < s_end s'.
Proof.
  intros Hw Ha -> Hpls Hwr Hfs Hfit s'.
  pose proof Hw as (Hi & Hwd & (base & Hch & Hce) & Hf & Hd & Hn & Hsy).
  pose proof (append_written_spec _ _ _ _ Hi Ha Hwd Hwr Hfs Hfit) as (Hi' & _ & Hfl').
  apply write_sync_cases in Hwr as (junk & Hd' & Hn' & Hj). destruct (Hj eq_refl) as [-> Hsy']. clear Hj.
  fold s' in Hi', Hfl'. cbv zeta in *. simpl in Hfl'.
  assert (segs w = sw_sealed w ++ [s]) as Hl by (unfold segs; by rewrite Ha).
  destruct (whole_seg_file w s Hw) as (q & Hq & Hs & Hend); [rewrite Hl; set_solver|].
  assert (s_end s = sw_flush w) as Hfl by (by rewrite <-Hce, Hl, chain_end_app).
  rewrite Hl in Hch, Hce, Hf, Hd. apply chain_app in Hch as [Hch1 [Hst _]].
  assert (0 < len (frames crc32 pls)) as Hpos by (destruct (frames crc32 pls); [done|simpl; lia]).
  split; [|unfold s'; cbn [s_end]; rewrite Hfl'; lia].
  split; [done|]. split; [done|]. split; [|split; [|split]].
  - exists base. unfold segs. simpl. split; [apply chain_app; simpl; naive_solver|].
    by rewrite chain_end_app.
  - unfold segs. simpl. rewrite Hd'. intros t [Ht|Ht%list_elem_of_singleton]%elem_of_app.
    + destruct (active_start_lt w t s Hi Ha Ht). rewrite lookup_alter_ne by lia.
      apply Hf. set_solver.
    + subst t. simpl. rewrite lookup_alter_eq, Hq. eexists. split; [done|].
      exists (q ++ pls). rewrite frames_app. split; [done|]. simpl.
      destruct Hi as (_ & _ & _ & Hu & _). split; [|rewrite length_app; lia].
      apply lsn_stream_app; [lia|]. split; [done|]. rewrite wadd_small by lia.
      by rewrite <-Hend, Hfl.
  - unfold segs. simpl. rewrite Hd', dom_alter_L. intros k Hk.
    destruct (Hd k Hk) as (t & [Ht|Ht%list_elem_of_singleton]%elem_of_app & <-).
    + exists t. split; [apply elem_of_app; by left|done].
    + subst t. eexists. split; [apply elem_of_app; right; by left|done].
  - simpl. split; [by rewrite Hn', Hn, Hd', dom_alter_L|]. intros k c Hk. unfold synced_len.
    rewrite Hsy'. destruct (decide (k = s_start s)) as [->|].
    + rewrite lookup_insert_eq, Hk. done.
    + rewrite lookup_insert_ne by done. rewrite Hd', lookup_alter_ne in Hk by done. by apply Hsy.
Qed.

Lemma append_whole b fs w w' recs :
  whole w → fs ≠ [] → is_u64 (b + len fs) → (sw_empty w = true → sw_appendable w b) →
  decode_records crc32 fs b = Ok recs → sw_append b fs w = (w', Ok tt) →
  whole w' ∧ segs w' ≠ [].
Proof.
  intros Hw Hfs Hfit Hap Hdec Hr. apply decoded_lsn_stream in Hdec as [Hpls Hstr].
  set (pls := map record_payload recs) in *. clearbody pls.
  unfold sw_append in Hr. pose proof Hw as (_ & Hwd & _). rewrite Hwd in Hr.
  set (w0 := if sw_empty w then _ else w) in *.
  assert (whole w0) as Hw0.
  { unfold w0. destruct (sw_empty w) eqn:He; [|done]. apply whole_position; auto; lia. }
  clearbody w0. destruct (negb _) eqn:Eb; [done|]. bool_prop. subst b.
  apply (f_equal id) in Hr. unfold st_bind at 1, id in Hr.
  destruct (ensure_active (sw_flush w0) w0) as [w1 [s|]] eqn:E1; [|done].
  pose proof Hw0 as (Hi0 & Hwd0 & _).
  pose proof (ensure_active_spec _ _ _ _ Hi0 Hwd0 eq_refl E1) as ((_ & _ & Hf1 & _) & _).
  apply ensure_active_whole in E1 as [Hw1 Ha1]; [|done]. rewrite <-Hf1 in *.
  unfold on_disk in Hr at 1.
  destruct ((write_all _ _ ;;* sync _)%stres (sw_disk w1)) as [d2 [[]|e]] eqn:E2.
  2: { destruct (on_disk _ _). done. }
  destruct (write_whole _ _ _ _ _ Hw1 Ha1 Hpls Hstr E2 Hfs Hfit) as [Hw2 Hlt].
  cbv zeta in *. match type of Hw2 with whole ?x => set (w2 := x) in * end.
  assert (segs w2 ≠ []) as Hne by (unfold segs; simpl; by destruct (sw_sealed w1)).
  simpl in Hr. destruct (_ <=? _) in Hr; [|by simplify_eq].
  apply seal_active_whole in Hr as [? ->]; [done|done|]. by intros t [= <-].
Qed.

End Recovery.
