(* ===== verification/Proposer.v ===== *)
(** * The proposer's shared state and its pure rules
    (src/icegres/src/quorum/proposer.rs)

    The retained log, the commit rule, batching, the start computation, the
    horizon rules and the two halves of an append. *)
From S2P Require Import Prelude Text Segment Json Proto Acceptor.
From Stdlib Require Import Sorting.Sorted.
#[local] Open Scope N_scope.

Definition QUORUM_SIZE : nat := 3.
Definition QUORUM : nat := 2.
Definition MAX_APPEND_BATCH_BYTES : N := 1048576. (* 1 << 20 *)
Definition APPEND_MESSAGE_HEADROOM : N := 4096.
Definition WATERMARK_REFRESH_SLACK : N := 1048576. (* 1 << 20 *)
Definition MAX_PEER_LAG_BYTES : N := 268435456. (* 256 << 20 *)
Definition MAX_REELECTION_FAILURES : N := 2.
Definition DEFAULT_APPEND_TIMEOUT_MS : N := 10000.
Definition MIN_APPEND_TIMEOUT_MS : N := 1000.

(** ** The append timeout *)

(** [append_timeout_from_env], in milliseconds. *)
Definition append_timeout_from_env (raw : option string) : N :=
  match trim <$> (str_bytes <$> raw) with
  | None | Some [] => DEFAULT_APPEND_TIMEOUT_MS
  | Some s =>
    match parse_u64 s with
    | Some ms => if ms <? MIN_APPEND_TIMEOUT_MS then MIN_APPEND_TIMEOUT_MS else ms
    | None => DEFAULT_APPEND_TIMEOUT_MS
    end
  end.

(** ** Shared state *)
Record RecordMeta := {
  m_start : N;
  m_end : N;
  m_kind : N;
  m_table_key : string;
  m_seq : N;
  m_frame : list byte;
}.

Record LogBuf := {
  base : N;
  head : N;
  records : list RecordMeta;
  covered : gmap string N;
  last_wm : gmap string (N * N);
}.

Record Peer := { p_flush : N; p_failed : bool }.
Record Election := { e_term : N; e_term_start_lsn : N; e_history : TermHistory }.
Inductive ReelectReason := Fenced (term : N) | Stalled (position : N).

(** [Shared]; [sh_reelect] is the supervisor's queue. *)
Record Shared := {
  sh_tail_id : string;
  sh_election : Election;
  sh_term_tx : N;
  sh_log : LogBuf;
  sh_peers : list Peer;
  sh_commit : N;
  sh_horizon : N;
  sh_poison : option string;
  sh_reelect : list ReelectReason;
}.

Definition with_log (s : Shared) (l : LogBuf) : Shared :=
  {| sh_tail_id := sh_tail_id s; sh_election := sh_election s; sh_term_tx := sh_term_tx s;
     sh_log := l; sh_peers := sh_peers s; sh_commit := sh_commit s; sh_horizon := sh_horizon s;
     sh_poison := sh_poison s; sh_reelect := sh_reelect s |}.
Definition with_peers (s : Shared) (ps : list Peer) : Shared :=
  {| sh_tail_id := sh_tail_id s; sh_election := sh_election s; sh_term_tx := sh_term_tx s;
     sh_log := sh_log s; sh_peers := ps; sh_commit := sh_commit s; sh_horizon := sh_horizon s;
     sh_poison := sh_poison s; sh_reelect := sh_reelect s |}.
Definition with_sh_commit (s : Shared) (c : N) : Shared :=
  {| sh_tail_id := sh_tail_id s; sh_election := sh_election s; sh_term_tx := sh_term_tx s;
     sh_log := sh_log s; sh_peers := sh_peers s; sh_commit := c; sh_horizon := sh_horizon s;
     sh_poison := sh_poison s; sh_reelect := sh_reelect s |}.
Definition with_sh_horizon (s : Shared) (h : N) : Shared :=
  {| sh_tail_id := sh_tail_id s; sh_election := sh_election s; sh_term_tx := sh_term_tx s;
     sh_log := sh_log s; sh_peers := sh_peers s; sh_commit := sh_commit s; sh_horizon := h;
     sh_poison := sh_poison s; sh_reelect := sh_reelect s |}.
Definition with_election (s : Shared) (e : Election) : Shared :=
  {| sh_tail_id := sh_tail_id s; sh_election := e; sh_term_tx := sh_term_tx s;
     sh_log := sh_log s; sh_peers := sh_peers s; sh_commit := sh_commit s;
     sh_horizon := sh_horizon s; sh_poison := sh_poison s; sh_reelect := sh_reelect s |}.

Definition set_peer (s : Shared) (idx : nat) (f : Peer → Peer) : Shared :=
  with_peers s (alter f idx (sh_peers s)).

(** [Shared::poison]: the first reason sticks. *)
Definition poison (why : string) (s : Shared) : Shared :=
  {| sh_tail_id := sh_tail_id s; sh_election := sh_election s; sh_term_tx := sh_term_tx s;
     sh_log := sh_log s; sh_peers := sh_peers s; sh_commit := sh_commit s;
     sh_horizon := sh_horizon s;
     sh_poison := match sh_poison s with None => Some why | p => p end;
     sh_reelect := sh_reelect s |}.

(** [Shared::request_reelection] *)
Definition request_reelection (r : ReelectReason) (s : Shared) : Shared :=
  {| sh_tail_id := sh_tail_id s; sh_election := sh_election s; sh_term_tx := sh_term_tx s;
     sh_log := sh_log s; sh_peers := sh_peers s; sh_commit := sh_commit s;
     sh_horizon := sh_horizon s; sh_poison := sh_poison s;
     sh_reelect := sh_reelect s ++ [r] |}.

(** ** The commit rule *)

(** [sort_unstable_by(|a, b| b.cmp(a))] *)
Fixpoint insert_desc (x : N) (l : list N) : list N :=
  match l with
  | [] => [x]
  | y :: l' => if y <=? x then x :: l else y :: insert_desc x l'
  end.
Definition sort_desc (l : list N) : list N := foldr insert_desc [] l.

(** [quorum_commit]; [None] is the out-of-range index of a peer list shorter
    than the quorum. *)
Definition quorum_commit (flushes : list N) (term_start_lsn : N) : option N :=
  sort_desc (map (λ f, if f <? term_start_lsn then 0 else f) flushes) !! (QUORUM - 1)%nat.

(** [recompute_commit_at] *)
Definition recompute_commit_at (term_start_lsn : N) (s : Shared) : Shared :=
  match quorum_commit (map p_flush (sh_peers s)) term_start_lsn with
  | Some cand =>
    if (term_start_lsn <=? cand) && (sh_commit s <? cand) then with_sh_commit s cand else s
  | None => s
  end.

Definition recompute_commit (s : Shared) : Shared :=
  recompute_commit_at (e_term_start_lsn (sh_election s)) s.

(** [store_ack] *)
Definition store_ack (idx : nat) (conn_term flush : N) (s : Shared) : Shared * bool :=
  if negb (e_term (sh_election s) =? conn_term) then (s, false)
  else (recompute_commit_at (e_term_start_lsn (sh_election s))
          (set_peer s idx (λ p, {| p_flush := flush; p_failed := p_failed p |})), true).

(** [pick_donor]: [max_by_key] keeps the last of equal maxima. *)
Definition donor_le (a b : nat * N * N) : bool :=
  let '(_, la, fa) := a in let '(_, lb, fb) := b in
  (la <? lb) || ((la =? lb) && (fa <=? fb)).
Fixpoint max_donor (best : nat * N * N) (l : list (nat * N * N)) : nat * N * N :=
  match l with
  | [] => best
  | c :: l => max_donor (if donor_le best c then c else best) l
  end.
Definition pick_donor (candidates : list (nat * N * N)) : option nat :=
  match candidates with
  | [] => None
  | c :: l => Some (fst (fst (max_donor c l)))
  end.

(** ** Streaming *)
Definition check_record_frame_len (frame_len : N) : result unit :=
  if MAX_MESSAGE_BYTES <? frame_len + APPEND_MESSAGE_HEADROOM
  then Err "tail record exceeds the quorum message cap" else Ok tt.

Inductive Batch :=
  | BData (begin_ end_ : N) (bytes : list byte)
  | BUpToDate
  | BBehind.

(** The record loop of [next_batch]. *)
Fixpoint batch_loop (from : N) (recs : list RecordMeta) (begin : option N) (end_ : N)
    (bytes : list byte) : option N * N * list byte :=
  match recs with
  | [] => (begin, end_, bytes)
  | rec :: recs =>
    if m_end rec <=? from then batch_loop from recs begin end_ bytes
    else
      let take_it (begin : option N) :=
        let bytes := bytes ++ m_frame rec in
        if MAX_APPEND_BATCH_BYTES <=? len bytes then (begin, m_end rec, bytes)
        else batch_loop from recs begin (m_end rec) bytes in
      match begin with
      | None => take_it (Some (m_start rec))
      | Some _ =>
        if MAX_MESSAGE_BYTES <? len bytes + len (m_frame rec) + APPEND_MESSAGE_HEADROOM
        then (begin, end_, bytes) else take_it begin
      end
  end.

Definition next_batch (log : LogBuf) (from : N) : Batch :=
  if head log <=? from then BUpToDate
  else if from <? base log then BBehind
  else match batch_loop from (records log) None from [] with
       | (Some b, e, bytes) => BData b e bytes
       | (None, _, _) => BUpToDate
       end.

(** [compute_start] *)
Definition compute_start (prop_th sk_th : TermHistory) (sk_flush prop_term base : N) : result N :=
  idx ← common_loop prop_th sk_th 0 None;
  match idx with
  | None =>
    if (match sk_th with [] => true | _ => false end) && (sk_flush =? 0) then Ok base
    else ok_or (lsn <$> hd_error prop_th) "proposer term history is empty"
  | Some i =>
    pi ← ok_or (prop_th !! i) "index out of bounds";
    if term pi =? prop_term then Ok sk_flush
    else
      pn ← ok_or (prop_th !! S i) "index out of bounds";
      let sk_end := match sk_th !! S i with Some e => lsn e | None => sk_flush end in
      Ok (N.min (lsn pn) sk_end)
  end.

(** ** Coverage and the horizon *)

Definition is_coverable (log : LogBuf) (rec : RecordMeta) : bool :=
  if m_kind rec =? RECORD_FRAME then
    (m_seq rec <=? default 0 (covered log !! m_table_key rec)) &&
    match last_wm log !! m_table_key rec with
    | Some (_, wm_seq) => m_seq rec <=? wm_seq
    | None => false
    end
  else if m_kind rec =? RECORD_WATERMARK then
    match last_wm log !! m_table_key rec with
    | Some (start, _) => m_start rec <? start
    | None => false
    end
  else false.

(** The record loop of [coverable_prefix]. *)
Fixpoint coverable_loop (log : LogBuf) (commit : N) (recs : list RecordMeta) (prefix_end : N)
    : N * option (string * N) :=
  match recs with
  | [] => (prefix_end, None)
  | rec :: recs =>
    if commit <? m_end rec then (prefix_end, None)
    else if is_coverable log rec then coverable_loop log commit recs (m_end rec)
    else if (m_kind rec =? RECORD_WATERMARK) &&
            (WATERMARK_REFRESH_SLACK <? head log - m_start rec)
    then (prefix_end, Some (m_table_key rec,
            N.max (m_seq rec) (default 0 (covered log !! m_table_key rec))))
    else (prefix_end, None)
  end.

Definition coverable_prefix (log : LogBuf) (commit : N) : N * option (string * N) :=
  coverable_loop log commit (records log) (base log).

(** [while let Some(front) = log.records.front()] of [advance_horizon_locked] *)
Fixpoint pop_front (drop_to : N) (recs : list RecordMeta) (base : N) : list RecordMeta * N :=
  match recs with
  | [] => ([], base)
  | front :: recs' =>
    if m_end front <=? drop_to then pop_front drop_to recs' (m_end front) else (recs, base)
  end.

Definition drop_front (drop_to : N) (log : LogBuf) : LogBuf :=
  let '(recs, b) := pop_front drop_to (records log) (base log) in
  {| base := b; head := head log; records := recs; covered := covered log;
     last_wm := last_wm log |}.

(** The minimum flush of the peers not dropped, and the first peer at it. *)
Fixpoint lagging_peer (ps : list Peer) (i : nat) : option (nat * N) :=
  match ps with
  | [] => None
  | p :: ps =>
    let rest := lagging_peer ps (S i) in
    if p_failed p then rest
    else match rest with
         | Some (j, f) => if p_flush p <=? f then Some (i, p_flush p) else Some (j, f)
         | None => Some (i, p_flush p)
         end
  end.

(** The retention loop: each round drops a peer beyond the lag bound or
    releases the prefix; one round per peer is enough. *)
Fixpoint retention_loop (fuel : nat) (horizon : N) (s : Shared) : option Shared :=
  match fuel with
  | O => None
  | S fuel =>
    let lagging := match lagging_peer (sh_peers s) 0 with Some (_, f) => f | None => horizon end in
    let drop_to := N.min horizon lagging in
    match lagging_peer (sh_peers s) 0 with
    | Some (i, _) =>
      if MAX_PEER_LAG_BYTES <? wsub horizon drop_to
      then retention_loop fuel horizon
             (set_peer s i (λ p, {| p_flush := p_flush p; p_failed := true |}))
      else Some (with_log s (drop_front drop_to (sh_log s)))
    | None => Some (with_log s (drop_front drop_to (sh_log s)))
    end
  end.

Definition advance_horizon_locked (s : Shared) : Shared * option (string * N) :=
  let commit := sh_commit s in
  let '(prefix_end, refresh) := coverable_prefix (sh_log s) commit in
  let horizon := N.max (N.min prefix_end commit) (sh_horizon s) in
  if sh_horizon s <? horizon
  then (default s (retention_loop (S (length (sh_peers s))) horizon (with_sh_horizon s horizon)), refresh)
  else (s, refresh).

(** [Quorum::note_covered], [Quorum::nudge_horizon] *)
Definition note_covered (table_key : string) (upto_seq : N) (s : Shared)
    : Shared * option (string * N) :=
  let log := sh_log s in
  let cur := default 0 (covered log !! table_key) in
  advance_horizon_locked
    (with_log s {| base := base log; head := head log; records := records log;
                   covered := <[table_key := N.max cur upto_seq]> (covered log);
                   last_wm := last_wm log |}).
Definition nudge_horizon (s : Shared) : Shared * option (string * N) := advance_horizon_locked s.

(** ** The two halves of an append *)
Section Append.
Context (crc32 : list byte → N).

(** [Quorum::submit] *)
Definition submit (kind : N) (table_key : string) (seq : N) (body : list byte)
    : stres Shared N := λ s,
  match sh_poison s with
  | Some why => (s, Err why)
  | None =>
    let log := sh_log s in
    let start := head log in
    let rec := {| r_lsn := start; r_kind := kind; r_table_key := table_key; r_seq := seq;
                  r_body := body |} in
    match (frame ← record_encode crc32 rec; _ ← check_record_frame_len (len frame); Ok frame) with
    | Err e => (s, Err e)
    | Ok frame =>
      let end_ := wadd start (len frame) in
      let wm := if kind =? RECORD_WATERMARK then <[table_key := (start, seq)]> (last_wm log)
                else last_wm log in
      let meta := {| m_start := start; m_end := end_; m_kind := kind; m_table_key := table_key;
                     m_seq := seq; m_frame := frame |} in
      (with_log s {| base := base log; head := end_; records := records log ++ [meta];
                     covered := covered log; last_wm := wm |}, Ok end_)
    end
  end.
End Append.

(** [Quorum::wait_commit]: what wakes the waiter, and what it does.  Between
    two looks the rest of the proposer may change the shared state. *)
Inductive Wake := WChanged | WTimeout | WClosed.

Fixpoint wait_commit (position : N) (events : list ((Shared → Shared) * Wake))
    (stalled_once : bool) (s : Shared) : Shared * option (result unit) :=
  match sh_poison s with
  | Some why => (s, Some (Err why))
  | None =>
    if position <=? sh_commit s then (s, Some (Ok tt))
    else match events with
    | [] => (s, None) (* still waiting *)
    | (env, wake) :: events =>
      let s := env s in
      match wake with
      | WChanged => wait_commit position events stalled_once s
      | WClosed => (s, Some (Err "quorum tail internal channel closed"))
      | WTimeout =>
        if stalled_once
        then (poison "quorum append timed out (re-election attempted)" s,
              Some (Err "quorum append timed out (re-election attempted)"))
        else wait_commit position events true (request_reelection (Stalled position) s)
      end
    end
  end.

(** ** The commit rule is a quorum rule *)
Definition count {A} (f : A → bool) (l : list A) : nat := length (List.filter f l).

Lemma insert_desc_perm x l : insert_desc x l ≡ₚ x :: l.
Proof.
  induction l as [|y l IH]; simpl; [done|]. destruct (y <=? x); [done|]. rewrite IH. apply perm_swap.
Qed.

Lemma sort_desc_perm l : sort_desc l ≡ₚ l.
Proof. induction l as [|x l IH]; simpl; [done|]. by rewrite insert_desc_perm, IH. Qed.

Lemma insert_desc_sorted x l :
  StronglySorted (λ a b, b ≤ a) l → StronglySorted (λ a b, b ≤ a) (insert_desc x l).
Proof.
  induction 1 as [|y l Hs IH Hy]; simpl; [repeat constructor|].
  destruct (y <=? x) eqn:E; bool_prop.
  - constructor; [by constructor|]. constructor; [done|]. eapply Forall_impl; [done|]. simpl. lia.
  - constructor; [done|]. rewrite insert_desc_perm. constructor; [lia|done].
Qed.

Lemma sort_desc_sorted l : StronglySorted (λ a b, b ≤ a) (sort_desc l).
Proof. induction l; simpl; [constructor|by apply insert_desc_sorted]. Qed.

Lemma count_cons {A} (f : A → bool) x l : count f (x :: l) = ((if f x then 1 else 0) + count f l)%nat.
Proof. unfold count. simpl. by destruct (f x). Qed.

Lemma count_none {A} (f : A → bool) l : (∀ x, x ∈ l → f x = false) → count f l = 0%nat.
Proof.
  induction l as [|x l IH]; intros H; [done|]. rewrite count_cons, (H x) by left.
  apply IH. intros. apply H. by right.
Qed.

Lemma count_mono {A} (f g : A → bool) l :
  (∀ x, f x = true → g x = true) → (count f l ≤ count g l)%nat.
Proof.
  intros H. induction l as [|x l IH]; [done|]. rewrite !count_cons.
  destruct (f x) eqn:E; [rewrite H by done; lia|]. destruct (g x); lia.
Qed.

Lemma count_perm {A} (f : A → bool) l l' : l ≡ₚ l' → count f l = count f l'.
Proof.
  intros H. unfold count. induction H; simpl; repeat case_match; simpl; congruence.
Qed.

Lemma count_map {A B} (f : B → bool) (g : A → B) l : count f (map g l) = count (f ∘ g) l.
Proof. unfold count. induction l; simpl; [done|]. case_match; simpl; congruence. Qed.

Lemma count_ext {A} (f g : A → bool) l : (∀ x, x ∈ l → f x = g x) → count f l = count g l.
Proof.
  unfold count. induction l as [|x l IH]; intros H; simpl; [done|].
  rewrite (H x) by left. assert (∀ y, y ∈ l → f y = g y) as H' by (intros; apply H; by right).
  specialize (IH H'). case_match; simpl; congruence.
Qed.

Lemma quorum_commit_spec flushes ts :
  (QUORUM ≤ length flushes)%nat →
  ∃ c, quorum_commit flushes ts = Some c ∧
    (0 < c → ts ≤ c ∧
       (QUORUM ≤ count (λ f, (ts <=? f) && (c <=? f))%N flushes)%nat ∧
       (count (λ f, (ts <=? f) && (c <? f))%N flushes < QUORUM)%nat).
Proof.
  intros Hlen. unfold quorum_commit, QUORUM in *. set (g := λ f : N, if f <? ts then 0 else f).
  pose proof (sort_desc_perm (map g flushes)) as Hp.
  pose proof (sort_desc_sorted (map g flushes)) as Hs.
  pose proof (Permutation_length Hp) as Hl. rewrite length_map in Hl.
  destruct (sort_desc (map g flushes)) as [|x [|c rest]]; simpl in Hl; [lia|lia|].
  exists c. split; [done|]. intros Hc.
  apply StronglySorted_inv in Hs as [Hs Hx]. apply Forall_cons in Hx as [Hx _].
  apply StronglySorted_inv in Hs as [_ Hrest].
  assert (∀ h : N → bool, h 0 = false → count h (x :: c :: rest) = count (λ f, (ts <=? f) && h f) flushes) as Hcount.
  { intros h Hh. rewrite (count_perm _ _ _ Hp), count_map. apply count_ext. intros f _. simpl.
    unfold g. destruct (f <? ts) eqn:E; bool_prop.
    - rewrite Hh. by rewrite (proj2 (N.leb_gt _ _)).
    - by rewrite (proj2 (N.leb_le _ _)). }
  assert (c ∈ map g flushes) as Hin by (rewrite <-Hp; set_solver).
  apply list_elem_of_In, in_map_iff in Hin as (f & Hf & _). unfold g in Hf.
  split; [destruct (f <? ts) eqn:E; bool_prop; lia|]. split.
  - rewrite <-Hcount by (apply N.leb_gt; lia). rewrite !count_cons.
    rewrite (proj2 (N.leb_le c x)), (proj2 (N.leb_le c c)) by lia. lia.
  - rewrite <-Hcount by (apply N.ltb_ge; lia). rewrite !count_cons.
    rewrite (proj2 (N.ltb_ge c c)) by lia. rewrite count_none; [destruct (c <? x); simpl; lia|].
    intros y Hy. rewrite Forall_forall in Hrest. apply N.ltb_ge. by apply Hrest.
Qed.


(** An acknowledgement moves the commit position only forward and only when it
    belongs to the current term; an advance is backed by a quorum. *)
Lemma store_ack_safe idx t f s s' ok :
  (QUORUM ≤ length (sh_peers s))%nat →
  store_ack idx t f s = (s', ok) →
  (ok = false → s' = s) ∧ (ok = true → e_term (sh_election s) = t) ∧
  sh_commit s ≤ sh_commit s' ∧ sh_election s' = sh_election s ∧
  (sh_commit s < sh_commit s' →
   e_term_start_lsn (sh_election s) ≤ sh_commit s' ∧
   (QUORUM ≤ count (λ p, sh_commit s' <=? p_flush p)%N (sh_peers s'))%nat).
Proof.
  intros Hlen. unfold store_ack. destruct (negb _) eqn:E; bool_prop.
  { intros [= <- <-]. split_and!; try done; lia. }
  set (s1 := set_peer s idx _). unfold recompute_commit_at.
  destruct (quorum_commit_spec (map p_flush (sh_peers s1)) (e_term_start_lsn (sh_election s)))
    as (c & -> & Hpos).
  { rewrite length_map. unfold s1. simpl. by rewrite length_alter. }
  change (sh_commit s1) with (sh_commit s).
  destruct (_ && _) eqn:Ec; intros [= <- <-].
  - bool_prop. split_and!; try done; simpl; [lia|]. intros _. split; [done|].
    destruct Hpos as (_ & Hq & _); [lia|]. rewrite count_map in Hq.
    eapply Nat.le_trans; [exact Hq|]. apply count_mono. intros p Hp. simpl in Hp.
    by apply andb_prop in Hp as [_ ?].
  - split_and!; try done; simpl; lia.
Qed.

(** ** The retained log *)
Section LogFacts.
Context (crc32 : list byte → N) (crc32_u32 : ∀ bs, is_u32 (crc32 bs)).
Implicit Types (s : Shared) (log : LogBuf).
#[local] Arguments record_frame : simpl never.

Definition meta_of (r : Record_) : RecordMeta :=
  {| m_start := r_lsn r; m_end := r_lsn r + len (record_frame crc32 r); m_kind := r_kind r;
     m_table_key := r_table_key r; m_seq := r_seq r; m_frame := record_frame crc32 r |}.

(** A record the wire can carry. *)
Definition record_fits (r : Record_) : Prop :=
  wf_record r ∧ len (str_bytes (r_table_key r)) ≤ u32_max ∧ len (record_payload r) ≤ u32_max ∧
  len (record_frame crc32 r) + APPEND_MESSAGE_HEADROOM ≤ MAX_MESSAGE_BYTES.

(** Consecutive records from [pos] to [e]. *)
Fixpoint positions (pos : N) (recs : list Record_) (e : N) : Prop :=
  match recs with
  | [] => pos = e
  | r :: recs => r_lsn r = pos ∧ positions (pos + len (record_frame crc32 r)) recs e
  end.

Definition log_ok (log : LogBuf) (recs : list Record_) : Prop :=
  records log = map meta_of recs ∧ Forall record_fits recs ∧
  positions (base log) recs (head log) ∧ is_u64 (head log).

Lemma positions_app pos r1 r2 e :
  positions pos (r1 ++ r2) e ↔ ∃ m, positions pos r1 m ∧ positions m r2 e.
Proof.
  revert pos. induction r1 as [|r r1 IH]; intros pos; simpl; [naive_solver|].
  rewrite IH. naive_solver.
Qed.

Lemma positions_le pos recs e : positions pos recs e → pos ≤ e.
Proof. revert pos. induction recs as [|r recs IH]; intros pos; simpl; [lia|]. intros [_ H%IH]. lia. Qed.

Lemma positions_end pos recs e :
  positions pos recs e → e = pos + len (concat (map (record_frame crc32) recs)).
Proof.
  revert pos. induction recs as [|r recs IH]; intros pos; cbn [positions map concat].
  - intros ->. simpl. lia.
  - intros [_ ->%IH]. rewrite length_app. lia.
Qed.

Lemma record_frame_pos r : 0 < len (record_frame crc32 r).
Proof. unfold record_frame. rewrite length_frame. lia. Qed.

Lemma positions_bounds pos recs e r :
  positions pos recs e → r ∈ recs → pos ≤ r_lsn r ∧ m_end (meta_of r) ≤ e.
Proof.
  revert pos. induction recs as [|x recs IH]; intros pos; [intros _ Hr; by apply not_elem_of_nil in Hr|].
  intros [Hx Hp] [->|Hr]%elem_of_cons.
  - apply positions_le in Hp. cbn [meta_of m_end]. lia.
  - destruct (IH _ Hp Hr). pose proof (record_frame_pos x). lia.
Qed.

Lemma positions_stream pos recs e :
  positions pos recs e → is_u64 e → stream_from crc32 pos recs.
Proof.
  revert pos. induction recs as [|r recs IH]; intros pos; [done|]. intros [Hr Hp] Hu.
  split; [done|]. apply positions_le in Hp as Hle. rewrite wadd_small by lia. by apply IH.
Qed.

Lemma fits_encode recs :
  Forall record_fits recs →
  Forall2 (λ r f, record_encode crc32 r = Ok f) recs (map (record_frame crc32) recs).
Proof.
  induction 1 as [|r recs (_ & ? & ? & _) _ IH]; constructor; [|done]. by apply record_encode_Ok.
Qed.

(** Once begun, a batch takes records until one would not fit or the target
    size is reached. *)
Lemma batch_loop_begun from recs pos e0 b bytes :
  positions pos recs e0 → from < pos → Forall record_fits recs →
  len bytes + APPEND_MESSAGE_HEADROOM ≤ MAX_MESSAGE_BYTES →
  ∃ r1 r2 e, recs = r1 ++ r2 ∧ positions pos r1 e ∧
    batch_loop from (map meta_of recs) (Some b) pos bytes =
      (Some b, e, bytes ++ concat (map (record_frame crc32) r1)) ∧
    len (bytes ++ concat (map (record_frame crc32) r1)) + APPEND_MESSAGE_HEADROOM ≤ MAX_MESSAGE_BYTES.
Proof.
  revert pos bytes. induction recs as [|r recs IH]; intros pos bytes Hp Hlt Hf Hb.
  { exists [], [], pos. simpl. by rewrite app_nil_r. }
  destruct Hp as [Hr Hp]. apply Forall_cons in Hf as [Hfr Hf]. cbn [map batch_loop].
  pose proof (record_frame_pos r) as Hpos.
  rewrite (proj2 (N.leb_gt _ _)) by (cbn [meta_of m_end]; lia).
  destruct (MAX_MESSAGE_BYTES <? _) eqn:E1; bool_prop.
  { exists [], (r :: recs), pos. simpl. rewrite app_nil_r. by split_and!. }
  cbv zeta. assert (m_end (meta_of r) = pos + len (record_frame crc32 r)) as Hend
    by (cbn [meta_of m_end]; by rewrite Hr). rewrite Hend.
  cbn [meta_of m_frame] in *.
  destruct (MAX_APPEND_BATCH_BYTES <=? _) eqn:E2.
  - exists [r], recs, (pos + len (record_frame crc32 r)). cbn [map concat app positions].
    rewrite app_nil_r, length_app. split_and!; try done. lia.
  - destruct (IH (pos + len (record_frame crc32 r)) (bytes ++ record_frame crc32 r))
      as (r1 & r2 & e & -> & Hp1 & Hl & Hfit); [done|lia|done|rewrite length_app; lia|].
    exists (r :: r1), r2, e. cbn [map concat app positions]. rewrite app_assoc.
    split_and!; try done.
Qed.

Lemma batch_loop_skip from recs pos tail e bytes b :
  positions pos recs e → e ≤ from →
  batch_loop from (map meta_of recs ++ tail) b from bytes = batch_loop from tail b from bytes.
Proof.
  revert pos. induction recs as [|r recs IH]; intros pos; [done|]. intros [Hr Hp] Hle.
  apply positions_le in Hp as Hle'. cbn [map app batch_loop].
  rewrite (proj2 (N.leb_le _ _)) by (cbn [meta_of m_end]; lia). by eapply IH.
Qed.

(** C23: streaming: from any record boundary inside the retained log, below its
    head, the next batch starts exactly there, holds at least one record, whole
    records only, ends where its bytes end, always fits one wire message with
    its headroom, and passes the strict validation the acceptor runs on it. *)
Theorem next_batch_accepted log recs from r1 r2 :
  log_ok log recs → recs = r1 ++ r2 → positions (base log) r1 from → from < head log →
  ∃ e bytes taken rest, next_batch log from = BData from e bytes ∧
    r2 = taken ++ rest ∧ taken ≠ [] ∧ e = from + len bytes ∧
    len bytes + APPEND_MESSAGE_HEADROOM ≤ MAX_MESSAGE_BYTES ∧
    decode_records crc32 bytes from = Ok taken.
Proof.
  intros (Hrec & Hfit & Hpos & Hu) -> Hp1 Hlt. unfold next_batch.
  rewrite (proj2 (N.leb_gt _ _)) by lia. apply positions_le in Hp1 as Hle.
  rewrite (proj2 (N.ltb_ge _ _)) by lia.
  apply positions_app in Hpos as (m & Hm & Hp2).
  assert (m = from) as ->. { apply positions_end in Hm, Hp1. lia. }
  destruct r2 as [|r r2]; [simpl in Hp2; lia|]. destruct Hp2 as [Hr Hp2].
  apply Forall_app in Hfit as [_ Hfit]. pose proof Hfit as [Hfr Hfit2]%Forall_cons.
  rewrite Hrec, map_app, (batch_loop_skip _ _ (base log) _ from) by done.
  cbn [map batch_loop]. pose proof (record_frame_pos r) as Hpr.
  rewrite (proj2 (N.leb_gt _ _)) by (cbn [meta_of m_end]; lia). cbv zeta.
  assert (m_end (meta_of r) = from + len (record_frame crc32 r)) as Hend
    by (cbn [meta_of m_end]; by rewrite Hr). rewrite Hend. cbn [meta_of m_frame m_start app].
  destruct Hfr as (? & ? & ? & Hcap). rewrite Hr.
  assert (∃ taken rest e, r :: r2 = taken ++ rest ∧ taken ≠ [] ∧ positions from taken e ∧
    (if MAX_APPEND_BATCH_BYTES <=? len (record_frame crc32 r)
     then (Some from, from + len (record_frame crc32 r), record_frame crc32 r)
     else batch_loop from (map meta_of r2) (Some from) (from + len (record_frame crc32 r))
            (record_frame crc32 r)) = (Some from, e, concat (map (record_frame crc32) taken)) ∧
    len (concat (map (record_frame crc32) taken)) + APPEND_MESSAGE_HEADROOM ≤ MAX_MESSAGE_BYTES)
    as (taken & rest & e & Ht & Hne & Hpt & -> & Hlen).
  { destruct (MAX_APPEND_BATCH_BYTES <=? _).
    - exists [r], r2, (from + len (record_frame crc32 r)). cbn [map concat app positions].
      rewrite app_nil_r. by split_and!.
    - destruct (batch_loop_begun from r2 (from + len (record_frame crc32 r)) (head log) from
        (record_frame crc32 r)) as (t & rest & e & -> & Hpt & Hl & Hc); [done|lia|done|done|].
      exists (r :: t), rest, e. cbn [map concat app positions]. by split_and!. }
  exists e, (concat (map (record_frame crc32) taken)), taken, rest.
  split_and!; try done; [by apply positions_end|].
  assert (positions from (taken ++ rest) (head log)) as Hall by (rewrite <-Ht; by split).
  apply positions_app in Hall as (e' & He' & Hrest). apply positions_le in Hrest.
  rewrite Ht in Hfit. apply Forall_app in Hfit as [Hfit _].
  eapply decode_records_roundtrip; [done| | |by apply fits_encode].
  - eapply Forall_impl; [done|]. by intros x (? & _).
  - eapply positions_stream; [done|]. lia.
Qed.

(** ** Coverage never erases a table's last trace *)

(** [last_wm] names the newest watermark record of each table, and it is in
    the log. *)
Definition wm_ok (log : LogBuf) : Prop :=
  (∀ t st sq, last_wm log !! t = Some (st, sq) →
     ∃ m, m ∈ records log ∧ m_kind m = RECORD_WATERMARK ∧ m_table_key m = t ∧
          m_start m = st ∧ m_seq m = sq) ∧
  (∀ m, m ∈ records log → m_kind m = RECORD_WATERMARK →
     ∃ st sq, last_wm log !! m_table_key m = Some (st, sq) ∧ m_start m ≤ st).

(** Everything below the horizon is coverable; the horizon never passes the
    commit position (before the recovered suffix commits, it is the base). *)
Definition horizon_inv s : Prop :=
  (∃ recs, log_ok (sh_log s) recs) ∧ wm_ok (sh_log s) ∧
  ((sh_horizon s ≤ sh_commit s ∨ sh_horizon s ≤ base (sh_log s)) ∧
   sh_horizon s ≤ head (sh_log s)) ∧
  ∀ m, m ∈ records (sh_log s) → m_end m ≤ sh_horizon s → is_coverable (sh_log s) m = true.

Lemma coverable_loop_spec log commit recs p p' refresh :
  coverable_loop log commit (map meta_of recs) p = (p', refresh) →
  (∃ e, positions p recs e) →
  p ≤ p' ∧ (p' ≤ commit ∨ p' = p) ∧ (∀ e, positions p recs e → p' ≤ e) ∧
  ∀ r, r ∈ recs → m_end (meta_of r) ≤ p' → is_coverable log (meta_of r) = true.
Proof.
  revert p. induction recs as [|r recs IH]; intros p H (e & He).
  { simplify_eq/=. split_and!; [lia|by right|intros e' ->; done|].
    intros r Hr. by apply not_elem_of_nil in Hr. }
  destruct He as [Hr He]. cbn [map coverable_loop] in H. pose proof (record_frame_pos r) as Hpos.
  assert (∀ x, x ∈ r :: recs → p < m_end (meta_of x)) as Hlow.
  { intros x [->|Hx]%elem_of_cons; [cbn [meta_of m_end]; lia|].
    destruct (positions_bounds _ _ _ x He Hx). cbn [meta_of m_end]. lia. }
  assert ((p, refresh) = (p', refresh) → p ≤ p' ∧ (p' ≤ commit ∨ p' = p) ∧
    (∀ e, positions p (r :: recs) e → p' ≤ e) ∧
    ∀ x, x ∈ r :: recs → m_end (meta_of x) ≤ p' → is_coverable log (meta_of x) = true) as Hstop.
  { intros [= <-]. split_and!; [lia|by right|intros e' He'; by eapply positions_le|].
    intros x Hx. specialize (Hlow x Hx). lia. }
  destruct (commit <? _) eqn:E1; bool_prop; [simplify_eq; by apply Hstop|].
  destruct (is_coverable log (meta_of r)) eqn:E2.
  - assert (m_end (meta_of r) = p + len (record_frame crc32 r)) as Hend
      by (cbn [meta_of m_end]; by rewrite Hr).
    apply IH in H as (Hle & Hc & Hb & Hall); [|rewrite Hend; eauto].
    rewrite Hend in Hle, E1. split_and!; [lia| | |].
    + left. destruct Hc as [?| ->]; [done|]. by rewrite Hend.
    + intros e' [_ He']. apply Hb. by rewrite Hend.
    + intros x [->|Hx]%elem_of_cons; [done|by apply Hall].
  - destruct (_ && _); simplify_eq; by apply Hstop.
Qed.

Lemma pop_front_spec d recs b e recs' b' :
  pop_front d (map meta_of recs) b = (recs', b') → positions b recs e →
  ∃ r1 r2, recs = r1 ++ r2 ∧ recs' = map meta_of r2 ∧ positions b r1 b' ∧
    ∀ r, r ∈ r1 → m_end (meta_of r) ≤ d.
Proof.
  revert b. induction recs as [|r recs IH]; intros b H Hp; cbn [map pop_front] in H.
  { simplify_eq. exists [], []. split_and!; try done. intros r Hr. by apply not_elem_of_nil in Hr. }
  destruct Hp as [Hr Hp]. destruct (_ <=? d) eqn:E; bool_prop.
  - assert (m_end (meta_of r) = b + len (record_frame crc32 r)) as Hend
      by (cbn [meta_of m_end]; by rewrite Hr). rewrite Hend in H.
    apply IH in H as (r1 & r2 & -> & -> & H1 & H2); [|done].
    exists (r :: r1), r2. split_and!; try done. intros x [->|Hx]%elem_of_cons; [done|auto].
  - simplify_eq. exists [], (r :: recs). split_and!; try done.
    intros x Hx. by apply not_elem_of_nil in Hx.
Qed.

(** What is coverable depends only on the coverage tables. *)
Lemma coverable_log log log' m :
  covered log' = covered log → last_wm log' = last_wm log →
  is_coverable log' m = is_coverable log m.
Proof. intros Hc Hw. unfold is_coverable. by rewrite Hc, Hw. Qed.

(** A coverable record's table has its newest watermark further up. *)
Lemma coverable_witness log m :
  wm_ok log → is_coverable log m = true →
  ∃ w, w ∈ records log ∧ m_kind w = RECORD_WATERMARK ∧ m_table_key w = m_table_key m ∧
    is_coverable log w = false ∧
    (m_kind m = RECORD_FRAME → m_seq m ≤ m_seq w ∧
       m_seq m ≤ default 0 (covered log !! m_table_key m)) ∧
    (m_kind m = RECORD_WATERMARK → m_start m < m_start w).
Proof.
  intros [Hin _] Hc. unfold is_coverable in Hc.
  destruct (last_wm log !! m_table_key m) as [[st sq]|] eqn:E.
  2: { destruct (_ =? RECORD_FRAME); [|destruct (_ =? RECORD_WATERMARK); done].
       by rewrite andb_false_r in Hc. }
  destruct (Hin _ _ _ E) as (w & Hw & Hk & Ht & Hst & Hsq). exists w. split_and!; try done.
  - unfold is_coverable. rewrite Hk, Ht, E, Hst. simpl. by rewrite N.ltb_irrefl.
  - intros Hf. rewrite Hf in Hc. simpl in Hc. bool_prop. lia.
  - intros Hf. rewrite Hf in Hc. simpl in Hc. bool_prop. lia.
Qed.

(** Dropping a covered front of the log keeps the invariant and every newest
    watermark. *)
Lemma drop_front_spec s d :
  horizon_inv s → d ≤ sh_horizon s →
  let s' := with_log s (drop_front d (sh_log s)) in
  horizon_inv s' ∧ head (sh_log s') = head (sh_log s) ∧
  (∀ m, m ∈ records (sh_log s') → m ∈ records (sh_log s)) ∧
  ∀ m, m ∈ records (sh_log s) → m ∈ records (sh_log s') ∨
    m_end m ≤ sh_horizon s ∧ is_coverable (sh_log s) m = true.
Proof.
  intros ((recs & Hrec & Hfit & Hpos & Hu) & Hwm & Hhc & Hcov) Hd. cbv zeta.
  unfold drop_front. rewrite Hrec in *.
  destruct (pop_front d (map meta_of recs) (base (sh_log s))) as [recs' b'] eqn:E.
  eapply pop_front_spec in E as (r1 & r2 & -> & -> & Hp1 & Hlow); [|done].
  rewrite map_app in *.
  assert (∀ m, m ∈ map meta_of r1 → m_end m ≤ d) as Hlow'.
  { intros m. change (map meta_of r1) with (meta_of <$> r1). rewrite list_elem_of_fmap.
    intros (r & -> & Hr). auto. }
  assert (∀ m, m ∈ map meta_of r1 → is_coverable (sh_log s) m = true) as Hcov1.
  { intros m Hm. apply Hcov; [set_solver|]. specialize (Hlow' m Hm). lia. }
  split; [|split; [done|split]]; cbn [with_log sh_log records head].
  - split; [|split; [|split; [split; [|apply Hhc]|]]].
    3: { cbn [with_log sh_log sh_horizon sh_commit base]. apply positions_le in Hp1.
         destruct Hhc as [[?|?] _]; [by left|right; lia]. }
    + exists r2. apply positions_app in Hpos as (m & Hm & Hp2).
      assert (m = b') as ->. { apply positions_end in Hm, Hp1. lia. }
      apply Forall_app in Hfit as [_ ?]. by split_and!.
    + split; cbn [with_log sh_log records last_wm].
      * intros t st sq Ht. destruct Hwm as [Hin Hall].
        destruct (Hin t st sq Ht) as (m & Hm & Hk & Hkey & Hst & Hsq). exists m.
        split_and!; try done. rewrite Hrec in Hm. apply elem_of_app in Hm as [Hm|Hm]; [|done].
        specialize (Hcov1 m Hm). unfold is_coverable in Hcov1.
        rewrite Hk, Hkey, Ht, Hst in Hcov1. simpl in Hcov1. by rewrite N.ltb_irrefl in Hcov1.
      * intros m Hm Hk. apply Hwm; [|done]. rewrite Hrec. set_solver.
    + intros m Hm He. cbn [with_log sh_log records sh_horizon] in *.
      rewrite (coverable_log (sh_log s)) by done. apply Hcov; [set_solver|done].
  - set_solver.
  - intros m [Hm|Hm]%elem_of_app; [|by left]. right. specialize (Hlow' m Hm). split; [lia|auto].
Qed.

Lemma lagging_peer_Some ps i j f :
  lagging_peer ps i = Some (j, f) →
  (i ≤ j)%nat ∧ ∃ p, ps !! (j - i)%nat = Some p ∧ p_failed p = false ∧ p_flush p = f.
Proof.
  revert i j f. induction ps as [|p ps IH]; intros i j f H; [done|]. cbn [lagging_peer] in H.
  assert (∀ j f, lagging_peer ps (S i) = Some (j, f) → (i ≤ j)%nat ∧
    ∃ q, (p :: ps) !! (j - i)%nat = Some q ∧ p_failed q = false ∧ p_flush q = f) as Hrest.
  { intros j' f' (Hle & q & Hq & ?)%IH. split; [lia|]. exists q. split; [|done].
    replace (j' - i)%nat with (S (j' - S i)) by lia. done. }
  assert (p_failed p = false → (i ≤ i)%nat ∧
    ∃ q, (p :: ps) !! (i - i)%nat = Some q ∧ p_failed q = false ∧ p_flush q = p_flush p) as Hhere.
  { intros Hf. split; [done|]. exists p. by rewrite Nat.sub_diag. }
  destruct (p_failed p); [by apply Hrest|].
  destruct (lagging_peer ps (S i)) as [[j' f']|]; [|simplify_eq; by apply Hhere].
  destruct (_ <=? _); simplify_eq; [by apply Hhere|by apply Hrest].
Qed.

Definition live (s : Shared) : nat := count (λ p, negb (p_failed p)) (sh_peers s).

Lemma count_alter_fail ps i p :
  ps !! i = Some p → p_failed p = false →
  (count (λ p, negb (p_failed p)) (alter (λ p, {| p_flush := p_flush p; p_failed := true |}) i ps)
   < count (λ p, negb (p_failed p)) ps)%nat.
Proof.
  revert i. induction ps as [|q ps IH]; intros [|i] Hi Hf; simplify_eq/=; rewrite !count_cons.
  - rewrite Hf. simpl. lia.
  - specialize (IH i Hi Hf). destruct (negb (p_failed q)); lia.
Qed.

(** The retention loop ends within one round per live peer. *)
Lemma retention_loop_total fuel h s :
  (live s < fuel)%nat →
  ∃ s' d, retention_loop fuel h s = Some s' ∧ d ≤ h ∧
    sh_log s' = drop_front d (sh_log s) ∧ sh_commit s' = sh_commit s ∧
    sh_horizon s' = sh_horizon s ∧ sh_poison s' = sh_poison s ∧ sh_election s' = sh_election s.
Proof.
  revert s. induction fuel as [|fuel IH]; intros s Hf; [lia|]. cbn [retention_loop].
  destruct (lagging_peer (sh_peers s) 0) as [[i f]|] eqn:E.
  2: { eexists _, (N.min h h). split_and!; try done. lia. }
  destruct (_ <? _).
  - destruct (IH (set_peer s i (λ p, {| p_flush := p_flush p; p_failed := true |})))
      as (s' & d & ? & ?); [|by exists s', d].
    apply lagging_peer_Some in E as (_ & p & Hp & Hpf & _). rewrite Nat.sub_0_r in Hp.
    pose proof (count_alter_fail _ _ _ Hp Hpf). unfold live in *. simpl. lia.
  - eexists _, (N.min h f). split_and!; try done. lia.
Qed.

Lemma live_le s : (live s ≤ length (sh_peers s))%nat.
Proof. unfold live. induction (sh_peers s) as [|p l IH]; [done|]. rewrite count_cons. case_match; simpl; lia. Qed.

(** What one horizon advance may forget. *)
Lemma advance_horizon_spec s s' refresh :
  horizon_inv s → advance_horizon_locked s = (s', refresh) →
  horizon_inv s' ∧ sh_horizon s ≤ sh_horizon s' ∧ sh_commit s' = sh_commit s ∧
  (∀ m, m ∈ records (sh_log s') → m ∈ records (sh_log s)) ∧
  covered (sh_log s') = covered (sh_log s) ∧
  ∀ m, m ∈ records (sh_log s) → m ∈ records (sh_log s') ∨
    m_end m ≤ sh_commit s ∧ is_coverable (sh_log s) m = true.
Proof.
  intros Hinv H. pose proof Hinv as ((recs & Hrec & Hfit & Hpos & Hu) & Hwm & Hhc & Hcov).
  unfold advance_horizon_locked in H. destruct (coverable_prefix _ _) as [p r] eqn:Ep.
  unfold coverable_prefix in Ep. rewrite Hrec in Ep.
  apply coverable_loop_spec in Ep as (Hle & Hc & Hb & Hall); [|eauto].
  specialize (Hb _ Hpos).
  destruct (_ <? _) eqn:Eh; bool_prop.
  2: { simplify_eq. split_and!; try done. intros m Hm. by left. }
  set (h := N.max (N.min p (sh_commit s)) (sh_horizon s)) in *.
  set (s1 := with_sh_horizon s h) in *.
  assert (horizon_inv s1) as Hinv1.
  { split; [by exists recs|]. split; [done|]. split; [unfold s1; simpl; split; [left|]; lia|].
    intros m Hm He. unfold s1 in Hm, He. cbn [with_sh_horizon sh_log sh_horizon] in Hm, He.
    rewrite Hrec in Hm. change (map meta_of recs) with (meta_of <$> recs) in Hm.
    apply list_elem_of_fmap in Hm as (x & -> & Hx). apply Hall; [done|]. lia. }
  destruct (retention_loop_total (S (length (sh_peers s))) h s1) as (s2 & d & Hr & Hd & Hl & Hcm & Hh & _).
  { pose proof (live_le s1). unfold s1 in *. simpl in *. lia. }
  rewrite Hr in H. simpl in H. simplify_eq.
  destruct (drop_front_spec s1 d Hinv1 Hd) as (Hinv2 & _ & Hsub & Hdrop).
  rewrite Hcm, Hh, Hl. split_and!; try done.
  - destruct Hinv2 as (H1 & H2 & H3 & H4). simpl in H1, H2, H3, H4. split; rewrite ?Hl, ?Hcm, ?Hh; [done|].
    split; rewrite ?Hl, ?Hcm, ?Hh; [done|]. split; rewrite ?Hl, ?Hcm, ?Hh; done.
  - unfold s1. simpl. lia.
  - unfold drop_front. by destruct (pop_front _ _ _).
  - intros m Hm. destruct (Hdrop m Hm) as [?|[He ?]]; [by left|right]. split; [|done].
    unfold s1 in He. simpl in He. lia.
Qed.

(** recording coverage never erases a table's last trace: whatever
    [note_covered] releases from the retained log was committed, and for the
    table of every released record a watermark record stays in the log, at or
    above the sequence of a released frame (which is covered) and behind a
    released watermark. *)
Theorem note_covered_keeps_last_trace t q s s' refresh :
  horizon_inv s → note_covered t q s = (s', refresh) →
  horizon_inv s' ∧ sh_horizon s ≤ sh_horizon s' ∧
  ∀ m, m ∈ records (sh_log s) → m ∉ records (sh_log s') →
    m_end m ≤ sh_commit s ∧
    ∃ w, w ∈ records (sh_log s') ∧ m_kind w = RECORD_WATERMARK ∧ m_table_key w = m_table_key m ∧
      (m_kind m = RECORD_FRAME → m_seq m ≤ m_seq w ∧
         m_seq m ≤ default 0 (covered (sh_log s') !! m_table_key m)) ∧
      (m_kind m = RECORD_WATERMARK → m_start m < m_start w).
Proof.
  intros ((recs & Hlog) & Hwm & Hhc & Hcov) H. unfold note_covered in H.
  set (s1 := with_log s _) in *.
  assert (horizon_inv s1) as Hinv1.
  { split; [by exists recs|]. split; [done|]. split; [done|].
    intros m Hm He. specialize (Hcov m Hm He). unfold is_coverable in *.
    cbn [s1 with_log sh_log covered last_wm] in *. destruct (m_kind m =? RECORD_FRAME); [|done].
    apply andb_prop in Hcov as [H1 H2]. apply andb_true_intro. split; [|done]. bool_prop.
    apply N.leb_le. destruct (decide (t = m_table_key m)) as [->|].
    - rewrite lookup_insert_eq. simpl. lia.
    - by rewrite lookup_insert_ne. }
  pose proof Hinv1 as (_ & Hwm1 & _).
  apply advance_horizon_spec in H as (Hinv' & Hh & Hc & _ & Hcv & Hdrop); [|done].
  change (sh_horizon s1) with (sh_horizon s) in Hh. change (sh_commit s1) with (sh_commit s) in Hc.
  split_and!; try done.
  intros m Hm Hnot. destruct (Hdrop m Hm) as [?|[He Hcm]]; [done|]. split; [done|].
  destruct (coverable_witness _ _ Hwm1 Hcm) as (w & Hw & Hk & Ht & Hnc & Hf & Hwmk).
  exists w. split_and!; try done.
  - destruct (Hdrop w Hw) as [?|[_ Hcw]]; [done|congruence].
  - by rewrite Hcv.
Qed.

(** Submitting a record: on [Ok] the retained log grew by exactly that
    record, at its head, in the form the wire carries, and the answer is the
    new head, the position a quorum must acknowledge; on [Err] (poisoned tail,
    oversized record) nothing changed.  The horizon invariant survives as long
    as a table's watermarks are submitted in sequence order. *)
Theorem submit_appends_record k t q body s s' r :
  horizon_inv s → (k = RECORD_FRAME ∨ k = RECORD_WATERMARK) → utf8 t = true → is_u64 q →
  is_u64 (head (sh_log s) + MAX_MESSAGE_BYTES) →
  (k = RECORD_WATERMARK → ∀ st sq, last_wm (sh_log s) !! t = Some (st, sq) → sq ≤ q) →
  submit crc32 k t q body s = (s', r) →
  match r with
  | Err _ => s' = s
  | Ok e =>
    sh_poison s = None ∧ horizon_inv s' ∧ e = head (sh_log s') ∧ head (sh_log s) < e ∧
    ∃ rec, r_kind rec = k ∧ r_table_key rec = t ∧ r_seq rec = q ∧ r_body rec = body ∧
      r_lsn rec = head (sh_log s) ∧
      records (sh_log s') = records (sh_log s) ++ [meta_of rec]
  end.
Proof.
  intros Hinv Hk Ht Hq Hu Hmono. unfold submit. destruct (sh_poison s); [by intros [= <- <-]|].
  set (rec := {| r_lsn := _ |}). destruct (_ ≫= _) as [frame|] eqn:E; [|by intros [= <- <-]].
  apply bind_Ok in E as (f & Hf & E). apply bind_Ok in E as ([] & Hcap & E). apply Ok_inj in E as ->.
  apply record_encode_Ok in Hf as (Hkey & Hpay & ->). unfold check_record_frame_len in Hcap.
  destruct (_ <? _) eqn:E; [done|]. bool_prop.
  pose proof Hinv as ((recs & Hrec & Hfit & Hpos & Hhu) & Hwm & Hhc & Hcov).
  pose proof (record_frame_pos rec) as Hpr.
  change (frame crc32 (record_payload rec)) with (record_frame crc32 rec) in *.
  assert (record_fits rec) as Hrf by (split_and!; done || lia).
  rewrite wadd_small by lia. intros Hres.
  apply pair_equal_spec in Hres as [<- Hres]. subst r. split; [done|].
  assert (∀ m, m ∈ records (sh_log s) → m_start m < head (sh_log s) ∧ m_end m ≤ head (sh_log s)) as Hold.
  { intros m. rewrite Hrec. change (map meta_of recs) with (meta_of <$> recs).
    intros (x & -> & Hx)%list_elem_of_fmap. destruct (positions_bounds _ _ _ x Hpos Hx) as [_ Hb].
    pose proof (record_frame_pos x). cbn [meta_of m_start m_end] in *. lia. }
  split; [|split; [done|split; [lia|]]].
  2: { exists rec. by split_and!. }
  split; [|split; [|split; [split; [apply Hhc|destruct Hhc; simpl in *; lia]|]]].
  - exists (recs ++ [rec]). split; [|split; [|split]]; cbn [with_log sh_log records base head].
    + by rewrite Hrec, map_app.
    + apply Forall_app. split; [done|]. by constructor.
    + apply positions_app. exists (head (sh_log s)). split; [done|]. by split.
    + lia.
  - split; cbn [with_log sh_log records last_wm].
    + intros t' st sq. destruct Hwm as [Hin _].
      destruct (k =? RECORD_WATERMARK) eqn:Ek; bool_prop.
      * destruct (decide (t = t')) as [->|].
        -- rewrite lookup_insert_eq. intros [= <- <-]. eexists. split; [apply elem_of_app; right; by left|].
           by split_and!.
        -- rewrite lookup_insert_ne by done. intros (m & Hm & ?)%Hin. exists m. split; [|done]. set_solver.
      * intros (m & Hm & ?)%Hin. exists m. split; [|done]. set_solver.
    + intros m [Hm|Hm%list_elem_of_singleton]%elem_of_app Hmk.
      * destruct Hwm as [_ Hall]. destruct (Hall m Hm Hmk) as (st & sq & Hl & Hle).
        destruct (k =? RECORD_WATERMARK); [|eauto].
        destruct (decide (t = m_table_key m)) as [->|]; [|rewrite lookup_insert_ne by done; eauto].
        rewrite lookup_insert_eq. eexists _, _. split; [done|]. destruct (Hold m Hm). lia.
      * subst m. simpl in Hmk. subst k. simpl. rewrite lookup_insert_eq. eauto with lia.
  - intros m Hm He. cbn [with_log sh_log records sh_horizon] in *.
    apply elem_of_app in Hm as [Hm|Hm%list_elem_of_singleton].
    + specialize (Hcov m Hm He). unfold is_coverable in *. cbn [with_log sh_log covered last_wm].
      destruct (k =? RECORD_WATERMARK) eqn:Ek; bool_prop; [|done].
      destruct (decide (t = m_table_key m)) as [->|]; [|by rewrite lookup_insert_ne].
      rewrite lookup_insert_eq. destruct (Hold m Hm) as [Hms _].
      destruct (last_wm (sh_log s) !! m_table_key m) as [[st sq]|] eqn:El.
      * specialize (Hmono Ek st sq eq_refl).
        destruct (m_kind m =? RECORD_FRAME).
        -- bool_prop. apply andb_true_intro. rewrite !N.leb_le. lia.
        -- destruct (m_kind m =? RECORD_WATERMARK); [|done]. apply N.ltb_lt. lia.
      * destruct (m_kind m =? RECORD_FRAME); [by rewrite andb_false_r in Hcov|].
        by destruct (m_kind m =? RECORD_WATERMARK).
    + subst m. cbn [m_end] in He. exfalso.
      destruct Hhc as [_ Hhead]. lia.
Qed.
End LogFacts.

(** ** The handshake agrees with the acceptor *)
Section Handshake.
Context {C W : Type} `{ControlStore C} `{WalStore W}.
Implicit Types a : Acceptor C W.

Lemma lookup_last {A} (l : list A) x : last l = Some x → l !! (length l - 1)%nat = Some x.
Proof. intros Hl. rewrite last_lookup in Hl. by replace (length l - 1)%nat with (pred (length l)) by lia. Qed.

Lemma wf_history_lookup_lt h i j x y :
  wf_history h → (i < j)%nat → h !! i = Some x → h !! j = Some y → term x < term y.
Proof.
  revert i j. induction h as [|e h IH]; intros i j Hwf Hij Ha Hb; [done|].
  destruct j as [|j]; [lia|]. destruct i as [|i]; simpl in Ha, Hb; simplify_eq.
  - apply list_elem_of_lookup_2 in Hb. by destruct (wf_history_cons_lsn _ _ _ Hwf Hb).
  - apply StronglySorted_inv in Hwf as [Hwf _]. eapply (IH i j); eauto. lia.
Qed.

Lemma up_to_last_le h f e : last (up_to h f) = Some e → lsn e ≤ f.
Proof. intros Hl. apply last_Some_elem_of in Hl. by apply elem_of_up_to in Hl as [_ ?]. Qed.

(** the two sides of the election handshake compute the same position:
    the start the proposer derives from an acceptor's vote answer is exactly
    the divergence point that acceptor expects, so the elected message is never
    refused as mispositioned while the acceptor's log stands still. *)
Theorem compute_start_matches_acceptor a th T base s :
  wf_history th → (∃ l, last th = Some {| term := T; lsn := l |}) →
  (flush_lsn (wal a) = 0 → is_empty (wal a) = true) →
  compute_start th (up_to (ps_term_history (state a)) (flush_lsn (wal a)))
    (flush_lsn (wal a)) T base = Ok s →
  expected_start a s th = Ok s.
Proof.
  intros Hwf (lT & HT) Hem Hc. unfold expected_start. cbv zeta.
  set (fl := flush_lsn (wal a)) in *. set (sk := up_to _ fl) in *.
  unfold compute_start in Hc. apply bind_Ok in Hc as (idx & Hidx & Hc).
  unfold find_highest_common_point.
  assert (match last sk with
          | Some e => if fl <? lsn e
                      then Err "acceptor term history end is beyond its flush position" else Ok tt
          | None => Ok tt end = Ok tt) as ->.
  { destruct (last sk) as [e|] eqn:El; [|done]. apply up_to_last_le in El.
    by rewrite (proj2 (N.ltb_ge _ _)). }
  cbn [mbind result_bind]. rewrite Hidx. cbn [mbind result_bind].
  destruct idx as [i|].
  - apply bind_Ok in Hc as (pi & Hpi & Hc). rewrite Hpi. cbn [mbind result_bind].
    apply ok_or_Ok in Hpi. pose proof (lookup_last _ _ HT) as Hlast.
    destruct (i =? length th - 1)%nat eqn:Ei; bool_prop.
    + subst i. rewrite Hpi in Hlast. injection Hlast as ->. simpl in Hc.
      rewrite N.eqb_refl in Hc. by injection Hc as <-.
    + apply lookup_lt_Some in Hpi as Hlen.
      assert (term pi < T) as Hlt
        by exact (wf_history_lookup_lt _ i (length th - 1) _ _ Hwf ltac:(lia) Hpi Hlast).
      rewrite (proj2 (N.eqb_neq _ _)) in Hc by lia.
      apply bind_Ok in Hc as (pn & Hpn & Hc). rewrite Hpn. cbn [mbind result_bind].
      by injection Hc as <-.
  - cbn [mbind result_bind].
    assert (ok_or (lsn <$> hd_error th) "proposer term history is empty" = Ok s →
      ok_or (lsn <$> hd_error th) "elected message carries an empty term history" = Ok s) as Hhd
      by (by intros ->%ok_or_Ok).
    destruct sk as [|e sk']; [|by apply Hhd]. cbn [andb] in *.
    destruct (is_empty (wal a)); [done|].
    destruct (fl =? 0) eqn:E0; bool_prop; [by specialize (Hem E0)|by apply Hhd].
Qed.
End Handshake.

(** ** Waiting for the quorum *)

Definition timeouts (evs : list ((Shared → Shared) * Wake)) : nat :=
  count (λ e, match snd e with WTimeout => true | _ => false end) evs.

(** What a wait can end in. *)
Lemma wait_commit_cases pos evs st s s' r :
  wait_commit pos evs st s = (s', r) →
  (r = Some (Ok tt) → pos ≤ sh_commit s' ∧ sh_poison s' = None) ∧
  (∀ e, r = Some (Err e) → is_Some (sh_poison s') ∨ WClosed ∈ map snd evs) ∧
  (((if st then 1 else 2) ≤ timeouts evs)%nat → is_Some r).
Proof.
  revert st s. induction evs as [|[env wake] evs IH]; intros st s H; cbn [wait_commit] in H;
    (destruct (sh_poison s) eqn:Ep; [simplify_eq; split_and!; [done|rewrite Ep; eauto|eauto]|]);
    (destruct (pos <=? sh_commit s) eqn:Ec; bool_prop; [simplify_eq; split_and!; [done|done|eauto]|]).
  - simplify_eq. split_and!; [done|done|]. unfold timeouts, count. simpl. destruct st; lia.
  - unfold timeouts in *. rewrite count_cons. cbn [snd map].
    destruct wake.
    + apply IH in H as (H1 & H2 & H3). split_and!; [done| |done].
      intros e He. destruct (H2 e He); [by left|right; by right].
    + destruct st.
      * simplify_eq. split_and!; [done| |eauto]. intros e _. left. simpl.
        by destruct (sh_poison (env s)).
      * apply IH in H as (H1 & H2 & H3). split_and!; [done| |].
        -- intros e He. destruct (H2 e He); [by left|right; by right].
        -- intros Ht. apply H3. lia.
    + simplify_eq. split_and!; [done| |eauto]. intros e _. right. by left.
Qed.

(** waiting for the quorum: [Ok] is returned only when the commit position
    covers the record and the tail is not poisoned; an error leaves the tail
    poisoned (or the commit channel was closed); the first expired deadline
    asks for a re-election, so a wait never outlives two deadlines. *)
Theorem wait_commit_outcome pos evs st s s' r :
  wait_commit pos evs st s = (s', r) →
  (r = Some (Ok tt) → pos ≤ sh_commit s' ∧ sh_poison s' = None) ∧
  (∀ e, r = Some (Err e) → is_Some (sh_poison s') ∨ WClosed ∈ map snd evs) ∧
  (((if st then 1 else 2) ≤ timeouts evs)%nat → is_Some r).
Proof. apply wait_commit_cases. Qed.
