(* ===== verification/Election.v ===== *)
(** * Opening, streaming and re-election (src/icegres/src/quorum/proposer.rs)

    The proposer's network protocol over an environment that answers its calls:
    [Quorum::open], [handshake], one round of [run_peer], [reelect] and the
    supervisor. *)
From S2P Require Import Prelude Segment Json Proto Acceptor Proposer.
From Stdlib Require Import Sorting.Sorted.
#[local] Open Scope N_scope.

(** ** The network

    What a request gets back: a message, silence until the timeout, or a
    transport failure.  [connect] may fail too. *)
Inductive Answer := Answered (m : Message) | Silent | Broken.

Class Net (E : Type) := {
  net_connect : nat → E → E * bool;
  net_call : nat → Message → E → E * Answer;
}.

(** [Conn::call_timeout]: a [Message::Error] answer becomes an error, expiry is
    told apart ([CallTimedOut]). *)
Inductive CallResult := Resp (m : Message) | TimedOut | CallErr (msg : string).

Section Protocol.
Context (crc32 : list byte → N) {E : Type} `{Net E}.

Definition call_timeout (i : nat) (m : Message) : stres E CallResult := λ e,
  let '(e, a) := net_call i m e in
  (e, Ok match a with
         | Answered (Error message) => CallErr ("acceptor refused: " +:+ message)
         | Answered m => Resp m
         | Silent => TimedOut
         | Broken => CallErr "quorum read failed"
         end).
Definition connect (i : nat) : stres E bool := λ e, let '(e, b) := net_connect i e in (e, Ok b).

(** ** [Quorum::open] *)

(** 1. Connect and query; [None] is an unreachable acceptor. *)
Definition greet (i : nat) : stres E (option (option string * N * N)) :=
  (let* up := connect i in
   if up : bool then
     let* r := call_timeout i (Greeting None) in
     st_ret match r with
            | Resp (GreetingResp tail_id term flush_lsn) => Some (tail_id, term, flush_lsn)
            | _ => None
            end
   else st_ret None)%stres.

Fixpoint st_map {S A B} (f : A → stres S B) (l : list A) : stres S (list B) :=
  match l with
  | [] => st_ret []
  | a :: l => (let* b := f a in let* bs := st_map f l in st_ret (b :: bs))%stres
  end.

Definition acceptors : list nat := seq 0 QUORUM_SIZE.

Definition flatten_ {A} (l : list (option A)) : list A := omap id l.

(** 2. The identity: the one the acceptors know, else the minted one. *)
Definition choose_tail_id (greets : list (option (option string * N * N))) (minted : string)
    : result string :=
  match remove_dups (omap (λ g, fst (fst g)) (flatten_ greets)) with
  | [] => Ok minted
  | [id] => Ok id
  | _ => Err "the acceptors disagree on the tail identity"
  end.

(** Adoption: silence drops the acceptor, a refusal is an error. *)
Definition adopt_identity (tail_id : string) (ig : nat * bool) : stres E bool :=
  let '(i, live) := ig in
  if live then
    (let* r := call_timeout i (Greeting (Some tail_id)) in
     match r with
     | Resp (GreetingResp _ _ _) => st_ret true
     | Resp _ => st_err "unexpected identity-adoption response"
     | TimedOut => st_ret false
     | CallErr _ => st_err "acceptor refused the tail identity"
     end)%stres
  else st_ret false.

(** 3. Votes. *)
Record Vote := { v_flush : N; v_last_log_term : N; v_history : TermHistory; v_horizon : N }.

Definition candidate_term (greets : list (option (option string * N * N))) : N :=
  wadd (foldr N.max 0 (map (λ g, snd (fst g)) (flatten_ greets))) 1.

Definition request_vote (term : N) (il : nat * bool) : stres E (option Vote) :=
  let '(i, live) := il in
  if live then
    (let* r := call_timeout i (VoteRequest term) in
     match r with
     | Resp (VoteResponse resp_term granted flush last_log_term history horizon _) =>
       if term <? resp_term then st_err "superseded during election"
       else if negb granted then st_err "acceptor refused the vote"
       else st_ret (Some {| v_flush := flush; v_last_log_term := last_log_term;
                            v_history := history; v_horizon := horizon |})
     | Resp _ => st_err "unexpected vote response"
     | TimedOut | CallErr _ => st_ret None
     end)%stres
  else st_ret None.

(** 4. Donor candidates. *)
Fixpoint candidates (i : nat) (votes : list (option Vote)) : list (nat * N * N) :=
  match votes with
  | [] => []
  | Some v :: votes => (i, v_last_log_term v, v_flush v) :: candidates (S i) votes
  | None :: votes => candidates (S i) votes
  end.

(** 5. The chunked recovery download ([fuel] rounds; each reads at least one
    byte). *)
Fixpoint download (fuel : nat) (donor : nat) (chunk term_start : N) (read_pos : N)
    (acc : list byte) : stres E (list byte) :=
  match fuel with
  | O => st_err "out of fuel"
  | S fuel =>
    if read_pos <? term_start then
      (let to_lsn := N.min term_start (N.min (read_pos + chunk) u64_max) in
       let* r := call_timeout donor (Read read_pos to_lsn) in
       match r with
       | Resp (ReadResp from_lsn recs) =>
         if negb (from_lsn =? read_pos) then st_err "donor read returned the wrong range start"
         else if (length recs =? 0)%nat then st_err "donor returned an empty chunk"
         else
           let pos := wadd read_pos (len recs) in
           if to_lsn <? pos then st_err "donor overran the requested chunk end"
           else download fuel donor chunk term_start pos (acc ++ recs)
       | Resp _ => st_err "unexpected read response"
       | TimedOut | CallErr _ => st_err "the donor did not return the recovery range"
       end)%stres
    else st_ret acc
  end.

(** 7. The recovered suffix as log entries. *)
Fixpoint seed_records (recs : list Record_) (pos : N) : result (list RecordMeta) :=
  match recs with
  | [] => Ok []
  | r :: recs =>
    frame ← record_encode crc32 r;
    let e := wadd pos (len frame) in
    rest ← seed_records recs e;
    Ok ({| m_start := pos; m_end := e; m_kind := r_kind r; m_table_key := r_table_key r;
           m_seq := r_seq r; m_frame := frame |} :: rest)
  end.

Definition seed_wm (recs : list Record_) : gmap string (N * N) :=
  foldl (λ m r, if r_kind r =? RECORD_WATERMARK
                then <[r_table_key r := (r_lsn r, r_seq r)]> m else m) ∅ recs.

Definition seed_shared (tail_id : string) (term term_start truncate : N) (history : TermHistory)
    (recs : list Record_) (metas : list RecordMeta) : Shared :=
  {| sh_tail_id := tail_id;
     sh_election := {| e_term := term; e_term_start_lsn := term_start; e_history := history |};
     sh_term_tx := term;
     sh_log := {| base := truncate; head := term_start; records := metas; covered := ∅;
                  last_wm := seed_wm recs |};
     sh_peers := replicate QUORUM_SIZE {| p_flush := 0; p_failed := false |};
     sh_commit := 0; sh_horizon := truncate; sh_poison := None; sh_reelect := [] |}.

(** 8. The elected handshake with the voters; the shared state is threaded. *)
Fixpoint elect_all (i : nat) (votes : list (option Vote)) (sh : Shared) : stres E Shared :=
  match votes with
  | [] => st_ret sh
  | None :: votes => elect_all (S i) votes sh
  | Some v :: votes =>
    (let el := sh_election sh in
     let truncate := base (sh_log sh) in
     let* start := st_lift (compute_start (e_history el) (v_history v) (v_flush v) (e_term el) truncate) in
     if start <? truncate then
       elect_all (S i) votes (set_peer sh i (λ p, {| p_flush := p_flush p; p_failed := true |}))
     else
       let* r := call_timeout i (Elected (e_term el) start (e_history el)) in
       match r with
       | Resp (ElectedResp _ true) => elect_all (S i) votes (fst (store_ack i (e_term el) start sh))
       | Resp (ElectedResp _ false) => st_err "superseded right after election"
       | Resp _ => st_err "unexpected elected response"
       | TimedOut | CallErr _ => elect_all (S i) votes sh
       end)%stres
  end.

(** The election half of [open]: steps 1 to 4. *)
Record Won := {
  w_tail_id : string;
  w_term : N;
  w_votes : list (option Vote);
  w_donor : nat;
  w_term_start : N;
  w_truncate : N;
}.

Definition is_live {A} (o : option A) : bool := match o with Some _ => true | None => false end.
Definition count_live {A} (l : list (option A)) : nat := length (flatten_ l).

Definition run_election (minted : string) : stres E Won :=
  (let* greets := st_map greet acceptors in
   if (count_live greets <? QUORUM)%nat then st_err "a quorum is required to open the tail" else
   let* tail_id := st_lift (choose_tail_id greets minted) in
   let* live := st_map (adopt_identity tail_id) (zip acceptors (map is_live greets)) in
   let term := candidate_term greets in
   let* votes := st_map (request_vote term) (zip acceptors live) in
   if (count_live votes <? QUORUM)%nat then st_err "won too few votes" else
   let* donor := st_lift (ok_or (pick_donor (candidates 0 votes)) "granted >= quorum") in
   let* vote := st_lift (ok_or (votes !! donor ≫= id) "donor voted") in
   let truncate := foldr N.max 0 (map v_horizon (flatten_ votes)) in
   if v_flush vote <? truncate then st_err "acceptor horizon is beyond the donor flush" else
   st_ret {| w_tail_id := tail_id; w_term := term; w_votes := votes; w_donor := donor;
             w_term_start := v_flush vote; w_truncate := truncate |})%stres.

(** [Quorum::open] up to the start of the peer tasks (steps 1 to 8). *)
Definition open_quorum (minted : string) (recovery_read_chunk : N)
    : stres E (Shared * list Record_) :=
  (let* w := run_election minted in
   let chunk := N.max recovery_read_chunk 1 in
   let* rec_bytes := download (S (N.to_nat (w_term_start w - w_truncate w))) (w_donor w) chunk
                       (w_term_start w) (w_truncate w) [] in
   if negb (wadd (w_truncate w) (len rec_bytes) =? w_term_start w) then st_err "short read" else
   let* recovered := st_lift (decode_records crc32 rec_bytes (w_truncate w)) in
   let* vote := st_lift (ok_or (w_votes w !! w_donor w ≫= id) "donor voted") in
   if match last (v_history vote) with Some l => w_term w <=? term l | None => false end
   then st_err "donor history already contains this term" else
   let history := v_history vote ++ [{| term := w_term w; lsn := w_term_start w |}] in
   let* metas := st_lift (seed_records recovered (w_truncate w)) in
   let sh := seed_shared (w_tail_id w) (w_term w) (w_term_start w) (w_truncate w) history
               recovered metas in
   let* sh := elect_all 0 (w_votes w) sh in
   st_ret (recompute_commit sh, recovered))%stres.

(** ** Reconnecting and streaming *)
Inductive HsError := HsFenced (term : N) | HsBehind | HsWrongCluster | HsTransient.

(** [handshake]: the start position and term of the connection. *)
Definition handshake_peer (sh : Shared) (i : nat) : stres E (HsError + N * N) :=
  let el := sh_election sh in
  (let* up := connect i in
   if negb up then st_ret (inl HsTransient) else
   let* g := call_timeout i (Greeting (Some (sh_tail_id sh))) in
   match g with
   | Resp (GreetingResp _ term _) =>
     if e_term el <? term then st_ret (inl (HsFenced term)) else
     let* v := call_timeout i (VoteRequest (e_term el)) in
     match v with
     | Resp (VoteResponse term _ flush _ history _ _) =>
       if e_term el <? term then st_ret (inl (HsFenced term)) else
       match compute_start (e_history el) history flush (e_term el) (base (sh_log sh)) with
       | Err _ => st_ret (inl HsTransient)
       | Ok start =>
         if start <? base (sh_log sh) then st_ret (inl HsBehind) else
         let* r := call_timeout i (Elected (e_term el) start (e_history el)) in
         match r with
         | Resp (ElectedResp _ true) => st_ret (inr (start, e_term el))
         | Resp (ElectedResp term false) => st_ret (inl (HsFenced term))
         | _ => st_ret (inl HsTransient)
         end
       end
     | _ => st_ret (inl HsTransient)
     end
   | Resp _ => st_ret (inl HsTransient)
   | CallErr e => st_ret (inl (if str_contains WRONG_CLUSTER_MARK e then HsWrongCluster else HsTransient))
   | TimedOut => st_ret (inl HsTransient)
   end)%stres.

(** What one peer task holds between rounds: a connection and its term. *)
Definition mark_failed (i : nat) (sh : Shared) : Shared :=
  set_peer sh i (λ p, {| p_flush := p_flush p; p_failed := true |}).
Definition fence_request (t : N) (sh : Shared) : Shared :=
  if e_term (sh_election sh) <? t then request_reelection (Fenced t) sh else sh.

(** The reconnect arm of [run_peer]. *)
Definition peer_reconnect (i : nat) (sh : Shared) : stres E (Shared * option N) :=
  (let* r := handshake_peer sh i in
   st_ret match r with
          | inr (start, t) =>
            let '(sh, ok) := store_ack i t start sh in (sh, if ok : bool then Some t else None)
          | inl (HsFenced t) => (fence_request t sh, None)
          | inl HsBehind | inl HsWrongCluster => (mark_failed i sh, None)
          | inl HsTransient => (sh, None)
          end)%stres.

(** One round of [run_peer]: the shared state and the connection it keeps
    ([None]: dropped).  A poisoned tail or a dropped peer does nothing. *)
Definition peer_round (i : nat) (conn : option N) (sh : Shared) : stres E (Shared * option N) :=
  match sh_poison sh with
  | Some _ => st_ret (sh, None)
  | None =>
    if match sh_peers sh !! i with Some p => p_failed p | None => true end
    then st_ret (sh, conn) else
    match conn with
    | None => peer_reconnect i sh
    | Some conn_term =>
      if negb (e_term (sh_election sh) =? conn_term) then st_ret (sh, None) else
      match next_batch (sh_log sh) (default 0 (p_flush <$> sh_peers sh !! i)) with
      | BUpToDate => st_ret (sh, conn)
      | BBehind => st_ret (mark_failed i sh, None)
      | BData b e bytes =>
        (let* r := call_timeout i (Append conn_term b e (sh_commit sh) (sh_horizon sh) bytes) in
         st_ret match r with
                | Resp (AppendResp _ true flush _) =>
                  let '(sh, ok) := store_ack i conn_term flush sh in
                  (sh, if ok : bool then conn else None)
                | Resp (AppendResp t false _ _) => (fence_request t sh, None)
                | _ => (sh, None)
                end)%stres
      end
    end
  end.

(** ** Internal re-election *)
Inductive ReelectError := Superseded (term : N) | ReelectFailed (msg : string).

(** 1. Greet with our identity; [None] is unreachable. *)
Definition regreet (tail_id : string) (i : nat) : stres E (option N) :=
  (let* up := connect i in
   if up : bool then
     let* r := call_timeout i (Greeting (Some tail_id)) in
     st_ret match r with Resp (GreetingResp _ term _) => Some term | _ => None end
   else st_ret None)%stres.

(** 2. Campaign; a refusal or a higher term is a live competitor. *)
Fixpoint revote (term : N) (l : list (nat * option N))
    : stres E (ReelectError + list (nat * N * N * TermHistory)) :=
  match l with
  | [] => st_ret (inr [])
  | (i, None) :: l => revote term l
  | (i, Some _) :: l =>
    (let* r := call_timeout i (VoteRequest term) in
     match r with
     | Resp (VoteResponse resp_term granted flush last_log_term history _ _) =>
       if (term <? resp_term) || negb granted then st_ret (inl (Superseded resp_term)) else
       let* rest := revote term l in
       st_ret match rest with
              | inr votes => inr ((i, last_log_term, flush, history) :: votes)
              | inl e => inl e
              end
     | _ => revote term l
     end)%stres
  end.

(** 3. The divergence check: the donor's log must be ours. *)
Definition check_donor (sh : Shared) (max_term : N) (v : nat * N * N * TermHistory)
    : option ReelectError :=
  let '(_, llt, flush, history) := v in
  if negb (bool_decide (history = up_to (e_history (sh_election sh)) flush))
  then Some (Superseded (N.max llt max_term))
  else if (flush <? base (sh_log sh)) || (head (sh_log sh) <? flush)
  then Some (ReelectFailed "donor flush is outside the retained log")
  else None.

(** 4. Adopt the new term: every peer is re-evaluated. *)
Definition adopt_term (sh : Shared) (term flush : N) : Shared :=
  {| sh_tail_id := sh_tail_id sh;
     sh_election := {| e_term := term; e_term_start_lsn := flush;
                       e_history := e_history (sh_election sh) ++ [{| term := term; lsn := flush |}] |};
     sh_term_tx := term; sh_log := sh_log sh;
     sh_peers := map (λ _, {| p_flush := 0; p_failed := false |}) (sh_peers sh);
     sh_commit := sh_commit sh; sh_horizon := sh_horizon sh; sh_poison := sh_poison sh;
     sh_reelect := sh_reelect sh |}.

(** [reelect] *)
Definition reelect (sh : Shared) : stres E (Shared * (ReelectError + N)) :=
  (let* greets := st_map (regreet (sh_tail_id sh)) acceptors in
   let max_term := foldr N.max (e_term (sh_election sh)) (flatten_ greets) in
   if (count_live greets <? QUORUM)%nat
   then st_ret (sh, inl (ReelectFailed "too few acceptors reachable for the re-election")) else
   let term := wadd max_term 1 in
   let* r := revote term (zip acceptors greets) in
   match r with
   | inl e => st_ret (sh, inl e)
   | inr votes =>
     if (length votes <? QUORUM)%nat
     then st_ret (sh, inl (ReelectFailed "won too few re-election votes")) else
     let* d := st_lift (ok_or (pick_donor (map fst votes)) "granted >= quorum") in
     let* v := st_lift (ok_or (List.find (λ v, (fst (fst (fst v)) =? d)%nat) votes) "donor is granted") in
     match check_donor sh max_term v with
     | Some e => st_ret (sh, inl e)
     | None => st_ret (adopt_term sh term (snd (fst v)), inr term)
     end
   end)%stres.

(** One event of [run_supervisor]: the shared state, the count of consecutive
    failures, and whether the supervisor goes on. *)
Definition supervise (reason : ReelectReason) (failures : N) (sh : Shared)
    : stres E (Shared * N * bool) :=
  match sh_poison sh with
  | Some _ => st_ret (sh, failures, false)
  | None =>
    let resolved := match reason with
                    | Fenced t => t <=? e_term (sh_election sh)
                    | Stalled pos => pos <=? sh_commit sh
                    end in
    if resolved then st_ret (sh, failures, true) else
    (let* r := reelect sh in
     let '(sh, res) := r in
     st_ret match res with
            | inr _ => (sh, 0, true)
            | inl (Superseded _) => (poison "superseded by a newer server" sh, failures, false)
            | inl (ReelectFailed _) =>
              let failures := failures + 1 in
              if MAX_REELECTION_FAILURES <=? failures
              then (poison "quorum tail POISONED after consecutive failed internal re-elections" sh,
                    failures, false)
              else (sh, failures, true)
            end)%stres
  end.
End Protocol.

(** ** Who wins and from where *)

(** Raft's up-to-date order on votes. *)
Definition vote_le (a b : N * N) : Prop := fst a < fst b ∨ fst a = fst b ∧ snd a ≤ snd b.
Definition position_of (c : nat * N * N) : N * N := (snd (fst c), snd c).

Lemma donor_le_spec a b : donor_le a b = true ↔ vote_le (position_of a) (position_of b).
Proof.
  destruct a as [[i la] fa], b as [[j lb] fb]. unfold donor_le, vote_le, position_of. simpl.
  rewrite orb_true_iff, andb_true_iff, N.ltb_lt, N.eqb_eq, N.leb_le. done.
Qed.

Lemma donor_le_total a b : donor_le a b = false → vote_le (position_of b) (position_of a).
Proof.
  intros H. destruct a as [[i la] fa], b as [[j lb] fb]. unfold donor_le in H.
  apply orb_false_iff in H as [H1 H2]. bool_prop. unfold vote_le, position_of. simpl.
  apply andb_false_iff in H2 as [H2|H2]; bool_prop; lia.
Qed.

Lemma vote_le_trans a b c : vote_le a b → vote_le b c → vote_le a c.
Proof. unfold vote_le. lia. Qed.

Lemma max_donor_spec best l :
  max_donor best l ∈ best :: l ∧
  ∀ c, c ∈ best :: l → vote_le (position_of c) (position_of (max_donor best l)).
Proof.
  revert best. induction l as [|d l IH]; intros best; cbn [max_donor].
  - split; [by left|]. intros c ->%list_elem_of_singleton. unfold vote_le. lia.
  - destruct (donor_le best d) eqn:E.
    + destruct (IH d) as [Hin Hmax]. split; [set_solver|].
      intros c [->|Hc]%elem_of_cons; [|by apply Hmax].
      eapply vote_le_trans; [by apply donor_le_spec|]. apply Hmax. by left.
    + destruct (IH best) as [Hin Hmax]. split; [set_solver|].
      intros c [->|[->|Hc]%elem_of_cons]%elem_of_cons; [apply Hmax; by left| |apply Hmax; by right].
      eapply vote_le_trans; [by apply donor_le_total|]. apply Hmax. by left.
Qed.

Lemma candidates_spec i votes c :
  c ∈ candidates i votes ↔
  ∃ k v, votes !! k = Some (Some v) ∧ c = ((i + k)%nat, v_last_log_term v, v_flush v).
Proof.
  revert i. induction votes as [|[v|] votes IH]; intros i; cbn [candidates].
  - split; [intros Hc; by apply not_elem_of_nil in Hc|]. by intros (k & v & Hk & _).
  - rewrite elem_of_cons, IH. split.
    + intros [->|(k & v' & Hk & ->)]; [exists 0%nat, v; by rewrite Nat.add_0_r|].
      exists (S k), v'. split; [done|]. do 2 f_equal. lia.
    + intros ([|k] & v' & Hk & ->); simplify_eq/=; [left; by rewrite Nat.add_0_r|right].
      exists k, v'. split; [done|]. do 2 f_equal. lia.
  - rewrite IH. split.
    + intros (k & v' & Hk & ->). exists (S k), v'. split; [done|]. do 2 f_equal. lia.
    + intros ([|k] & v' & Hk & ->); simplify_eq/=. exists k, v'. split; [done|].
      do 2 f_equal. lia.
Qed.

Lemma foldr_max_ge x y l : x ∈ l → x ≤ foldr N.max y l.
Proof. induction l as [|z l IH]; [intros Hx; by apply not_elem_of_nil in Hx|]. simpl. intros [->|Hx%IH]%elem_of_cons; lia. Qed.

Lemma flatten_lookup {A} (l : list (option A)) k a : l !! k = Some (Some a) → a ∈ flatten_ l.
Proof.
  intros Hk. apply list_elem_of_omap. exists (Some a). split; [|done].
  by eapply list_elem_of_lookup_2.
Qed.

Section Facts.
#[local] Arguments record_frame : simpl never.
Context (crc32 : list byte → N) {E : Type} `{Net E}.
Implicit Types e : E.

(** an election is won by a quorum of granted votes, and the donor is a most
    advanced voter by (last log term, flush position): no voter is ahead of it;
    the new term starts at the donor's flush position, at or past every voter's
    horizon. *)
Theorem election_picks_most_advanced minted e e' w :
  run_election minted e = (e', Ok w) →
  (QUORUM ≤ count_live (w_votes w))%nat ∧
  ∃ v, w_votes w !! w_donor w = Some (Some v) ∧ w_term_start w = v_flush v ∧
    w_truncate w ≤ w_term_start w ∧
    ∀ k u, w_votes w !! k = Some (Some u) →
      vote_le (v_last_log_term u, v_flush u) (v_last_log_term v, v_flush v) ∧
      v_horizon u ≤ w_truncate w.
Proof.
  unfold run_election. intros Hr. apply st_bind_Ok in Hr as (greets & e1 & _ & Hr).
  destruct (_ <? _)%nat; [done|]. apply st_bind_Ok in Hr as (tid & e2 & _ & Hr).
  apply st_bind_Ok in Hr as (live & e3 & _ & Hr). cbv zeta in Hr.
  apply st_bind_Ok in Hr as (votes & e4 & _ & Hr).
  destruct (_ <? _)%nat eqn:Eq; [done|]. bool_prop.
  apply st_bind_Ok in Hr as (donor & e5 & Hd & Hr). injection Hd as <- Hd. apply ok_or_Ok in Hd.
  apply st_bind_Ok in Hr as (v & e6 & Hv & Hr). injection Hv as <- Hv. apply ok_or_Ok in Hv.
  destruct (v_flush v <? _) eqn:Et; [done|]. bool_prop. injection Hr as _ <-. simpl.
  split; [done|]. destruct (votes !! donor) as [o|] eqn:Ev; [|done]. simpl in Hv.
  unfold id in Hv. subst o. exists v. split_and!; [done..|]. intros k u Hu. split.
  2: { apply foldr_max_ge. apply list_elem_of_In, in_map, list_elem_of_In. by eapply flatten_lookup. }
  unfold pick_donor in Hd. destruct (candidates 0 votes) as [|c l] eqn:Ec; [done|].
  destruct (max_donor_spec c l) as [Hin Hmax]. injection Hd as Hd.
  rewrite <-Ec in Hin, Hmax. apply candidates_spec in Hin as (k' & v' & Hk' & Hc').
  rewrite Hc' in Hd, Hmax. simpl in Hd. subst k'. rewrite Ev in Hk'. injection Hk' as <-.
  apply (Hmax ((0 + k)%nat, v_last_log_term u, v_flush u)). apply candidates_spec. by exists k, u.
Qed.

(** ** What [open] sets up *)

Lemma seed_records_spec recs pos metas :
  seed_records crc32 recs pos = Ok metas → is_u64 (pos + len (concat (map (record_frame crc32) recs))) →
  stream_from crc32 pos recs →
  metas = map (meta_of crc32) recs ∧
  positions crc32 pos recs (pos + len (concat (map (record_frame crc32) recs))).
Proof.
  revert pos metas. induction recs as [|r recs IH]; intros pos metas Hs Hu Hst; cbn [seed_records] in Hs.
  { injection Hs as <-. simpl. split; [done|lia]. }
  apply bind_Ok in Hs as (f & Hf & Hs). apply record_encode_Ok in Hf as (_ & _ & ->).
  apply bind_Ok in Hs as (rest & Hrest & Hs). apply Ok_inj in Hs as <-.
  destruct Hst as [Hpos Hst]. cbn [map concat] in *. rewrite length_app in *.
  rewrite wadd_small in * by lia.
  apply IH in Hrest as [-> Hp]; [|by rewrite <-N.add_assoc, <-Nat2N.inj_add|done].
  split.
  - f_equal. unfold meta_of. rewrite Hpos. done.
  - cbn [positions]. split; [done|]. by rewrite Nat2N.inj_add, N.add_assoc.
Qed.

(** [last_wm] after seeding: the last watermark of each table. *)
Lemma seed_wm_spec recs pos stop :
  positions crc32 pos recs stop →
  (∀ t st sq, seed_wm recs !! t = Some (st, sq) →
     ∃ r, r ∈ recs ∧ r_kind r = RECORD_WATERMARK ∧ r_table_key r = t ∧ r_lsn r = st ∧ r_seq r = sq) ∧
  (∀ r, r ∈ recs → r_kind r = RECORD_WATERMARK →
     ∃ st sq, seed_wm recs !! r_table_key r = Some (st, sq) ∧ r_lsn r ≤ st).
Proof.
  revert stop. induction recs as [|x recs IH] using rev_ind; intros stop Hp.
  { split; [done|]. intros r Hr. by apply not_elem_of_nil in Hr. }
  apply positions_app in Hp as (m & Hp & Hx & _).
  destruct (IH m Hp) as [IH1 IH2]. unfold seed_wm in *. rewrite foldl_snoc.
  destruct (r_kind x =? RECORD_WATERMARK) eqn:Ek; bool_prop.
  - split.
    + intros t st sq. destruct (decide (r_table_key x = t)) as [<-|].
      * rewrite lookup_insert_eq. intros [= <- <-]. exists x. split_and!; try done. set_solver.
      * rewrite lookup_insert_ne by done. intros (r & Hr & ?)%IH1. exists r. split; [set_solver|done].
    + intros r [Hr|Hr%list_elem_of_singleton]%elem_of_app Hk.
      * destruct (decide (r_table_key x = r_table_key r)) as [->|].
        -- rewrite lookup_insert_eq. eexists _, _. split; [done|].
           destruct (positions_bounds _ _ _ _ r Hp Hr) as [_ Hb]. simpl in Hb. lia.
        -- rewrite lookup_insert_ne by done. by apply IH2.
      * subst r. rewrite lookup_insert_eq. eauto with lia.
  - split.
    + intros t st sq (r & Hr & ?)%IH1. exists r. split; [set_solver|done].
    + intros r [Hr|Hr%list_elem_of_singleton]%elem_of_app Hk; [by apply IH2|]. by subst r.
Qed.

(** The elected handshakes only touch peers and the commit position. *)
Lemma elect_all_frame i votes sh e e' sh' :
  elect_all i votes sh e = (e', Ok sh') →
  sh_log sh' = sh_log sh ∧ sh_election sh' = sh_election sh ∧ sh_horizon sh' = sh_horizon sh ∧
  sh_poison sh' = sh_poison sh ∧ length (sh_peers sh') = length (sh_peers sh).
Proof.
  revert i sh e. induction votes as [|[v|] votes IH]; intros i sh e Hr; cbn [elect_all] in Hr.
  { injection Hr as _ <-. done. }
  2: { by eapply IH. }
  cbv zeta in Hr. apply st_bind_Ok in Hr as (start & e1 & _ & Hr).
  destruct (start <? _).
  { apply IH in Hr as (? & ? & ? & ? & Hl). split_and!; try done. rewrite Hl. simpl. by rewrite length_alter. }
  apply st_bind_Ok in Hr as (r & e2 & _ & Hr).
  destruct r as [[]| |]; try done; [|by eapply IH..].
  destruct ok; [|done]. apply IH in Hr.
  unfold store_ack in Hr. rewrite N.eqb_refl in Hr. cbn [negb fst] in Hr.
  unfold recompute_commit_at in Hr.
  destruct (quorum_commit _ _) in Hr; [destruct (_ && _) in Hr|]; simpl in Hr;
    rewrite length_alter in Hr; exact Hr.
Qed.

Lemma open_quorum_spec minted chunk e e' sh recs :
  open_quorum crc32 minted chunk e = (e', Ok (sh, recs)) →
  (∀ r, r ∈ recs → len (record_frame crc32 r) + APPEND_MESSAGE_HEADROOM ≤ MAX_MESSAGE_BYTES) →
  is_u64 (base (sh_log sh) + len (concat (map (record_frame crc32) recs))) →
  log_ok crc32 (sh_log sh) recs ∧ horizon_inv crc32 sh ∧
  (covered (sh_log sh) = ∅ ∧ last_wm (sh_log sh) = seed_wm recs ∧
   length (sh_peers sh) = QUORUM_SIZE) ∧ sh_poison sh = None ∧
  e_term_start_lsn (sh_election sh) = head (sh_log sh) ∧
  (∃ h, e_history (sh_election sh) =
     h ++ [{| term := e_term (sh_election sh); lsn := head (sh_log sh) |}] ∧
     ∀ l, last h = Some l → term l < e_term (sh_election sh)).
Proof.
  unfold open_quorum. intros Hr Hcap Hu. apply st_bind_Ok in Hr as (w & e1 & _ & Hr). cbv zeta in Hr.
  apply st_bind_Ok in Hr as (bytes & e2 & _ & Hr). destruct (negb _) eqn:El; [done|]. bool_prop.
  apply st_bind_Ok in Hr as (rs & e3 & Hd & Hr). injection Hd as <- Hd.
  apply st_bind_Ok in Hr as (v & e4 & Hv & Hr).
  match type of Hr with context [if ?b then st_err "donor history already contains this term" else _] =>
    destruct b eqn:Et; [done|] end.
  apply st_bind_Ok in Hr as (metas & e5 & Hm & Hr). injection Hm as <- Hm.
  apply st_bind_Ok in Hr as (sh1 & e6 & He & Hr). injection Hr as _ Hsh ->.
  apply elect_all_frame in He as (Hl & Hel & Hho & Hpo & Hps). simpl in Hl, Hel, Hho, Hpo, Hps.
  assert (sh_log sh = sh_log sh1 ∧ sh_election sh = sh_election sh1 ∧
    sh_horizon sh = sh_horizon sh1 ∧ sh_poison sh = sh_poison sh1 ∧ sh_peers sh = sh_peers sh1)
    as (Hl' & He' & Hh' & Hp' & Hpe).
  { rewrite <-Hsh. unfold recompute_commit, recompute_commit_at.
    destruct (quorum_commit _ _); [destruct (_ && _)|]; done. }
  rewrite Hl', Hl in *. cbn [base head] in *.
  pose proof (decode_records_sound crc32 _ _ _ Hd) as (-> & Hwf & Hst & Henc).
  assert (w_term_start w = w_truncate w + len (concat (map (record_frame crc32) recs))) as Hts.
  { rewrite <-El. by apply wadd_small. }
  apply seed_records_spec in Hm as [-> Hpos]; [|done|done]. rewrite <-Hts in Hpos.
  set (log := {| base := _ |}) in *.
  assert (log_ok crc32 log recs) as Hlog.
  { split; [done|]. split; [|split; [done|unfold log; cbn [head]; by rewrite Hts]].
    apply Forall_forall. intros r Hr'. rewrite Forall_forall in Hwf, Henc.
    destruct (proj1 (record_encode_Ok _ _ _) (Henc r Hr')) as (? & ? & _).
    split_and!; auto. }
  split; [done|]. unfold horizon_inv. rewrite ?Hl', ?He', ?Hp', ?Hh', ?Hl, ?Hho, ?Hpe.
  split; [|split; [by split_and!|split; [done|]]].
  - split; [by exists recs|]. split; [|split; [split; [by right|unfold log; cbn [head]; lia]|]].
    + destruct (seed_wm_spec _ _ _ Hpos) as [H1 H2]. split; cbn [last_wm records].
      * intros t st sq (r & Hr' & Hk & Ht & Hs & Hq)%H1. exists (meta_of crc32 r). split_and!; try done.
        change (map (meta_of crc32) recs) with (meta_of crc32 <$> recs). apply list_elem_of_fmap. eauto.
      * intros m Hm Hk. change (map (meta_of crc32) recs) with (meta_of crc32 <$> recs) in Hm.
        apply list_elem_of_fmap in Hm as (r & -> & Hr'). by apply H2.
    + intros m Hm Hle. cbn [records] in Hm. exfalso.
      change (map (meta_of crc32) recs) with (meta_of crc32 <$> recs) in Hm.
      apply list_elem_of_fmap in Hm as (r & -> & Hr').
      destruct (positions_bounds _ _ _ _ _ Hpos Hr') as [Hb _]. pose proof (record_frame_pos crc32 r).
      cbn [meta_of m_end] in Hle. lia.
  - rewrite Hel. split; [done|]. exists (v_history v). split; [done|]. intros l Hlast.
    rewrite Hlast in Et. bool_prop. done.
Qed.


(** ** Streaming *)

Lemma handshake_peer_term sh i e e' start t :
  handshake_peer sh i e = (e', Ok (inr (start, t))) → t = e_term (sh_election sh).
Proof.
  unfold handshake_peer. cbv zeta. intros Hr.
  apply st_bind_Ok in Hr as (up & e1 & _ & Hr). destruct (negb up); [done|].
  apply st_bind_Ok in Hr as (g & e2 & _ & Hr). destruct g as [[]| |]; try done.
  destruct (_ <? _); [done|].
  apply st_bind_Ok in Hr as (v & e3 & _ & Hr). destruct v as [[]| |]; try done.
  destruct (_ <? _); [done|]. destruct (compute_start _ _ _ _ _) as [st|]; [|done].
  destruct (_ <? _); [done|].
  apply st_bind_Ok in Hr as (r & e4 & _ & Hr). destruct r as [[]| |]; try done.
  destruct ok; [|done]. injection Hr as _ _ <-. done.
Qed.

(** What a round may do to the shared state: the log and the election are
    untouched, the commit position only moves forward, on a quorum. *)
Definition round_safe (i : nat) (sh sh' : Shared) : Prop :=
  (sh_log sh' = sh_log sh ∧ sh_election sh' = sh_election sh ∧ sh_horizon sh' = sh_horizon sh ∧
   length (sh_peers sh') = length (sh_peers sh)) ∧ sh_commit sh ≤ sh_commit sh' ∧
  (sh_commit sh < sh_commit sh' →
    e_term_start_lsn (sh_election sh) ≤ sh_commit sh' ∧
    (QUORUM ≤ count (λ p, sh_commit sh' <=? p_flush p)%N (sh_peers sh'))%nat) ∧
  ∀ j, j ≠ i → sh_peers sh' !! j = sh_peers sh !! j.

Lemma round_safe_refl i sh : round_safe i sh sh.
Proof. unfold round_safe. split_and!; try done; lia. Qed.

Lemma round_safe_mark i sh : round_safe i sh (mark_failed i sh).
Proof.
  unfold round_safe, mark_failed. cbn. rewrite length_alter. split_and!; try done; [lia..|].
  intros j Hj. by rewrite list_lookup_alter_ne.
Qed.

Lemma round_safe_fence i t sh : round_safe i sh (fence_request t sh).
Proof.
  unfold fence_request. destruct (_ <? _); [|apply round_safe_refl].
  unfold round_safe. cbn. split_and!; try done; lia.
Qed.

Lemma round_safe_ack i t f sh sh' ok :
  (QUORUM ≤ length (sh_peers sh))%nat →
  store_ack i t f sh = (sh', ok) →
  round_safe i sh sh' ∧ (ok = true → e_term (sh_election sh') = t).
Proof.
  intros Hlen Hs. pose proof (store_ack_safe i t f sh sh' ok Hlen Hs) as (H1 & H2 & H3 & H4 & H5).
  split; [|by rewrite H4].
  assert (sh_log sh' = sh_log sh ∧ sh_horizon sh' = sh_horizon sh ∧
    length (sh_peers sh') = length (sh_peers sh) ∧
    ∀ j, j ≠ i → sh_peers sh' !! j = sh_peers sh !! j) as (Hl & Hh & Hn & Hp).
  { unfold store_ack in Hs. destruct (negb _); [by simplify_eq|]. injection Hs as <- _.
    unfold recompute_commit_at. destruct (quorum_commit _ _); [destruct (_ && _)|]; cbn;
      (rewrite length_alter; split_and!; [done..|intros j Hj; by rewrite list_lookup_alter_ne]). }
  by split_and!.
Qed.

(** What one round does, on any answers of the network. *)
Lemma peer_round_spec i conn sh e e' sh' conn' :
  (QUORUM ≤ length (sh_peers sh))%nat →
  peer_round i conn sh e = (e', Ok (sh', conn')) →
  round_safe i sh sh' ∧
  (sh_poison sh ≠ None → sh' = sh ∧ conn' = None ∧ e' = e) ∧
  (∀ t, conn' = Some t → conn = Some t ∨ e_term (sh_election sh') = t).
Proof.
  intros Hlen. unfold peer_round. destruct (sh_poison sh).
  { intros [= <- <- <-]. split; [apply round_safe_refl|done]. }
  destruct (match sh_peers sh !! i with Some p => p_failed p | None => true end).
  { intros [= <- <- <-]. split; [apply round_safe_refl|]. split; [done|auto]. }
  destruct conn as [t0|].
  - destruct (negb _); [intros [= <- <- <-]; split; [apply round_safe_refl|done]|].
    destruct (next_batch _ _) as [b e0 bytes| |].
    2: { intros [= <- <- <-]. split; [apply round_safe_refl|]. split; [done|auto]. }
    2: { intros [= <- <- <-]. split; [apply round_safe_mark|done]. }
    + intros Hr. apply st_bind_Ok in Hr as (r & e1 & _ & Hr). injection Hr as _ Hr.
      destruct r as [[]| |];
        try (injection Hr as <- <-; split; [apply round_safe_refl|done]).
      destruct ok.
      * destruct (store_ack i t0 flush_lsn sh) as [sh1 ok] eqn:Ea.
        apply round_safe_ack in Ea as [Hs Ht]; [|done]. injection Hr as <- <-.
        split; [done|]. split; [done|]. intros t. destruct ok; [|done]. auto.
      * injection Hr as <- <-. split; [apply round_safe_fence|done].
  - intros Hr. apply st_bind_Ok in Hr as (r & e1 & Hh & Hr). injection Hr as _ Hr.
    destruct r as [[]|[start t0]].
    + injection Hr as <- <-. split; [apply round_safe_fence|done].
    + injection Hr as <- <-. split; [apply round_safe_mark|done].
    + injection Hr as <- <-. split; [apply round_safe_mark|done].
    + injection Hr as <- <-. split; [apply round_safe_refl|done].
    + destruct (store_ack i t0 start sh) as [sh1 ok] eqn:Ea.
      apply round_safe_ack in Ea as [Hs Ht]; [|done]. injection Hr as <- <-.
      split; [done|]. split; [done|]. intros t. destruct ok; [|done]. intros [= <-]. auto.
Qed.


(** ** Re-election *)

Lemma reelect_spec sh e e' sh' res :
  reelect sh e = (e', Ok (sh', res)) →
  match res with
  | inl _ => sh' = sh
  | inr t =>
    (∃ m, e_term (sh_election sh) ≤ m ∧ t = wadd m 1) ∧
    sh_log sh' = sh_log sh ∧ sh_commit sh' = sh_commit sh ∧ sh_horizon sh' = sh_horizon sh ∧
    sh_tail_id sh' = sh_tail_id sh ∧
    length (sh_peers sh') = length (sh_peers sh) ∧
    (∀ p, p ∈ sh_peers sh' → p_flush p = 0 ∧ p_failed p = false) ∧
    ∃ start, base (sh_log sh) ≤ start ≤ head (sh_log sh) ∧
      sh_election sh' = {| e_term := t; e_term_start_lsn := start;
        e_history := e_history (sh_election sh) ++ [{| term := t; lsn := start |}] |}
  end.
Proof.
  unfold reelect. cbv zeta. intros Hr. apply st_bind_Ok in Hr as (greets & e1 & _ & Hr).
  set (m := foldr N.max _ _) in *.
  assert (e_term (sh_election sh) ≤ m) as Hm.
  { unfold m. clear. induction (flatten_ greets); simpl; lia. }
  destruct (_ <? _)%nat; [injection Hr as _ <- <-; done|].
  apply st_bind_Ok in Hr as (r & e2 & _ & Hr).
  destruct r as [err|votes]; [injection Hr as _ <- <-; done|].
  destruct (_ <? _)%nat; [injection Hr as _ <- <-; done|].
  apply st_bind_Ok in Hr as (d & e3 & _ & Hr). apply st_bind_Ok in Hr as (v & e4 & _ & Hr).
  destruct (check_donor sh m v) eqn:Ec; injection Hr as _ <- <-; [done|].
  destruct v as [[[i llt] flush] h]. unfold check_donor in Ec. cbn [fst snd adopt_term].
  destruct (negb _); [done|]. destruct (_ || _) eqn:Eb; [done|]. bool_prop.
  split; [by exists m|]. split_and!; try done.
  - cbn. by rewrite length_map.
  - intros p Hp. cbn in Hp. change (map ?f ?l) with (f <$> l) in Hp.
    by apply list_elem_of_fmap in Hp as (? & -> & _).
  - exists flush. split; [lia|done].
Qed.

(** an internal re-election either leaves the shared state exactly as it was
    (superseded or failed) or adopts one new term, one above the highest term it
    has seen: the log is kept as it is, the commit position and the horizon do not
    move, every peer is to be re-evaluated from scratch and none stays failed, and
    the new term starts at a position inside the retained log, which its entry in
    the history records. *)
Theorem reelect_keeps_log sh e e' sh' res :
  reelect sh e = (e', Ok (sh', res)) →
  match res with
  | inl _ => sh' = sh
  | inr t =>
    (∃ m, e_term (sh_election sh) ≤ m ∧ t = wadd m 1) ∧
    sh_log sh' = sh_log sh ∧ sh_commit sh' = sh_commit sh ∧ sh_horizon sh' = sh_horizon sh ∧
    sh_tail_id sh' = sh_tail_id sh ∧
    length (sh_peers sh') = length (sh_peers sh) ∧
    (∀ p, p ∈ sh_peers sh' → p_flush p = 0 ∧ p_failed p = false) ∧
    ∃ start, base (sh_log sh) ≤ start ≤ head (sh_log sh) ∧
      sh_election sh' = {| e_term := t; e_term_start_lsn := start;
        e_history := e_history (sh_election sh) ++ [{| term := t; lsn := start |}] |}
  end.
Proof. apply reelect_spec. Qed.
End Facts.
