(* ===== verification/Lease.v ===== *)
(** * The leader lease (src/icegres/src/lease.rs)

    The addresses a lease may use, the tracker that decides when a lease has
    lapsed, acquiring and renewing over the quorum proposer, and the
    standby/leader loop.  Times are nanoseconds of one clock. *)
From S2P Require Import Prelude Text Segment Json Proto Acceptor Proposer Election.
From Stdlib Require Import Sorting.Sorted.
#[local] Open Scope N_scope.

Definition LEASE_TABLE_KEY : string := "icegresd.lease".
Definition LEASE_QUORUM_SIZE : nat := QUORUM_SIZE.
Definition WATERMARK_EVERY : N := 32.
Definition COMMA : byte := Byte.x2c.

(** ** Addresses *)
Section Addrs.
(** DNS: the socket addresses a spelling resolves to, none on failure. *)
Context {Addr : Type} `{EqDecision Addr} (resolve_socket_addrs : list byte → list Addr).

Definition addr_list (spec : list byte) : list (list byte) :=
  List.filter (λ s, negb (bool_decide (s = []))) (map trim (split_on COMMA spec)).

Definition aliased (a d : list byte) : bool :=
  bool_decide (d = a) ||
  (negb (bool_decide (resolve_socket_addrs a = [])) &&
   existsb (λ x, bool_decide (x ∈ resolve_socket_addrs a)) (resolve_socket_addrs d)).

(** [parse_lease_addrs] *)
Definition parse_lease_addrs (spec : list byte) (data_quorum : option (list byte))
    : result (list (list byte)) :=
  let addrs := addr_list spec in
  if negb (length addrs =? LEASE_QUORUM_SIZE)%nat
  then Err "--lease-quorum needs exactly 3 acceptor addresses" else
  match data_quorum with
  | Some data =>
    if existsb (λ a, existsb (aliased a) (addr_list data)) addrs
    then Err "--lease-quorum address also appears in ICEGRES_TAIL_QUORUM" else Ok addrs
  | None => Ok addrs
  end.
End Addrs.

(** ** Timing *)
Definition MILLI : N := 1000000.
Record LeaseConfig := { lc_addrs : list (list byte); lc_ttl : N; lc_holder_id : string }.

Definition renew_interval (cfg : LeaseConfig) : N := N.max (lc_ttl cfg / 3) (100 * MILLI).
(** [Duration::clamp] *)
Definition probe_timeout (cfg : LeaseConfig) : N :=
  N.min (N.max (lc_ttl cfg / 6) (250 * MILLI)) (2000 * MILLI).
(** [quorum_config]: the append, connect and call timeouts. *)
Definition quorum_config (cfg : LeaseConfig) : N * N * N :=
  (N.max (lc_ttl cfg) (1000 * MILLI), probe_timeout cfg, N.max (probe_timeout cfg) (1000 * MILLI)).

(** ** Expiry *)
Record Observed := { ob_term : N; ob_flush : N; ob_since : N; ob_reachable : bool }.
Record ExpiryTracker := { et_ttl : N; et_seen : list (option Observed) }.

Definition tracker_new (n : nat) (ttl : N) : ExpiryTracker :=
  {| et_ttl := ttl; et_seen := replicate n None |}.

Definition observe_slot (term flush now : N) (slot : option Observed) : option Observed :=
  let fresh := {| ob_term := term; ob_flush := flush; ob_since := now; ob_reachable := true |} in
  match slot with
  | Some o =>
    if (ob_term o =? term) && (ob_flush o =? flush)
    then Some {| ob_term := ob_term o; ob_flush := ob_flush o; ob_since := ob_since o; ob_reachable := true |}
    else Some fresh
  | None => Some fresh
  end.
Definition lose_slot (slot : option Observed) : option Observed :=
  match slot with
  | Some o => Some {| ob_term := ob_term o; ob_flush := ob_flush o; ob_since := ob_since o;
                      ob_reachable := false |}
  | None => None
  end.

(** [observe], [observe_unreachable]: the index is one of the tracker's. *)
Definition observe (idx : nat) (term flush now : N) (t : ExpiryTracker) : ExpiryTracker :=
  {| et_ttl := et_ttl t; et_seen := alter (observe_slot term flush now) idx (et_seen t) |}.
Definition observe_unreachable (idx : nat) (t : ExpiryTracker) : ExpiryTracker :=
  {| et_ttl := et_ttl t; et_seen := alter lose_slot idx (et_seen t) |}.

Definition lapsed (ttl now : N) (o : Observed) : bool := ob_reachable o && (ttl <=? now - ob_since o).
Definition expired (now : N) (t : ExpiryTracker) : bool :=
  (QUORUM <=? length (List.filter (lapsed (et_ttl t) now) (flatten_ (et_seen t))))%nat.
Definition virgin (t : ExpiryTracker) : bool :=
  (QUORUM <=? length (List.filter (λ o, ob_reachable o && (ob_term o =? 0)%N && (ob_flush o =? 0)%N)
                        (flatten_ (et_seen t))))%nat.
Definition reset (t : ExpiryTracker) : ExpiryTracker :=
  {| et_ttl := et_ttl t; et_seen := map (λ _, None) (et_seen t) |}.

(** [poll_acceptors], once the probes are in: each acceptor's answer, fed in
    order. *)
Fixpoint feed (idx : nat) (results : list (option (N * N))) (now : N) (t : ExpiryTracker) : ExpiryTracker :=
  match results with
  | [] => t
  | Some (term, flush) :: results => feed (S idx) results now (observe idx term flush now t)
  | None :: results => feed (S idx) results now (observe_unreachable idx t)
  end.
Definition poll_acceptors (results : list (option (N * N))) (now : N) (t : ExpiryTracker) : ExpiryTracker :=
  feed 0 results now t.

(** ** Acquiring and renewing *)
Section Held.
Context (crc32 : list byte → N) {V E : Type} `{Json V} `{Net E}.

(** [holder_body] at [epoch_ms] *)
Definition holder_body (holder_id : string) (epoch_ms : N) : list byte :=
  match to_vec (V:=V) (j_obj [("holder_id", j_str holder_id); ("epoch_ms", j_u64 epoch_ms)]) with
  | Ok bs => bs
  | Err _ => []
  end.

Record HeldLease := { hl_quorum : Shared; hl_seq : N; hl_holder_id : string }.
Definition with_quorum (h : HeldLease) (s : Shared) : HeldLease :=
  {| hl_quorum := s; hl_seq := hl_seq h; hl_holder_id := hl_holder_id h |}.

(** What the waits of one append see. *)
Definition Events : Type := list ((Shared → Shared) * Wake).

(** [append_holder_record]; [None] is still waiting. *)
Definition append_holder_record (epoch_ms : N) (evs wm_evs : Events) (h : HeldLease)
    : HeldLease * option (result unit) :=
  match submit crc32 RECORD_FRAME LEASE_TABLE_KEY (hl_seq h) (holder_body (hl_holder_id h) epoch_ms)
          (hl_quorum h) with
  | (s, Err e) => (with_quorum h s, Some (Err e))
  | (s, Ok end_) =>
    match wait_commit end_ evs false s with
    | (s, Some (Ok _)) =>
      let '(s, refresh) := note_covered LEASE_TABLE_KEY (hl_seq h) s in
      if (match refresh with Some _ => true | None => false end) || (hl_seq h mod WATERMARK_EVERY =? 0) then
        let wm_seq := N.max (match refresh with Some (_, q) => q | None => hl_seq h end) (hl_seq h) in
        match submit crc32 RECORD_WATERMARK LEASE_TABLE_KEY wm_seq [] s with
        | (s, Err e) => (with_quorum h s, Some (Err e))
        | (s, Ok end_) =>
          match wait_commit end_ wm_evs false s with
          | (s, Some (Ok _)) => (with_quorum h (fst (nudge_horizon s)), Some (Ok tt))
          | (s, r) => (with_quorum h s, r)
          end
        end
      else (with_quorum h s, Some (Ok tt))
    | (s, r) => (with_quorum h s, r)
    end
  end.

(** [renew] *)
Definition renew (epoch_ms : N) (evs wm_evs : Events) (h : HeldLease) : HeldLease * option (result unit) :=
  append_holder_record epoch_ms evs wm_evs
    {| hl_quorum := hl_quorum h; hl_seq := wadd (hl_seq h) 1; hl_holder_id := hl_holder_id h |}.

Definition lease_seqs (recovered : list Record_) : list N :=
  map r_seq (List.filter (λ r, String.eqb (r_table_key r) LEASE_TABLE_KEY) recovered).

(** [acquire]: [Quorum::open], its wait for the recovered suffix included, then
    the holder record. *)
Definition acquire (cfg : LeaseConfig) (minted : string) (chunk epoch_ms : N) (open_evs evs wm_evs : Events)
    (e : E) : E * option (result HeldLease) :=
  match open_quorum crc32 minted chunk e with
  | (e, Err msg) => (e, Some (Err msg))
  | (e, Ok (s, recovered)) =>
    (e, match wait_commit (e_term_start_lsn (sh_election s)) open_evs false s with
        | (s, Some (Ok _)) =>
          let lease := {| hl_quorum := s; hl_seq := wadd (foldr N.max 0 (lease_seqs recovered)) 1;
                          hl_holder_id := lc_holder_id cfg |} in
          let '(h, r) := append_holder_record epoch_ms evs wm_evs lease in
          match r with
          | Some (Ok _) => Some (Ok h)
          | Some (Err msg) => Some (Err msg)
          | None => None
          end
        | (_, Some (Err msg)) => Some (Err msg)
        | (_, None) => None
        end)
  end.

(** ** The loop

    [ls_clock] is the time of the last step, [ls_since] the time the tracker was
    last made or reset. *)
Inductive Stage := Standby | Leader (h : HeldLease) | Stopped.
Record LeaseState := {
  ls_env : E;
  ls_tracker : ExpiryTracker;
  ls_stage : Stage;
  ls_leader : bool;      (* what [leader_tx] carries *)
  ls_clock : N;
  ls_since : N;
}.

Definition lease_start (cfg : LeaseConfig) (e : E) (now : N) : LeaseState :=
  {| ls_env := e; ls_tracker := tracker_new (length (lc_addrs cfg)) (lc_ttl cfg); ls_stage := Standby;
     ls_leader := false; ls_clock := now; ls_since := now |}.

(** One round of [lease_loop]: a standby poll and what it leads to, a renewal of
    the leader, a shutdown in either stage, and the proposer's own tasks between
    two renewals. *)
Inductive lease_step (cfg : LeaseConfig) : LeaseState → LeaseState → Prop :=
  | step_wait st results now now' :
      ls_stage st = Standby → ls_clock st ≤ now → now ≤ now' →
      let t := poll_acceptors results now (ls_tracker st) in
      virgin t || expired now' t = false →
      lease_step cfg st {| ls_env := ls_env st; ls_tracker := t; ls_stage := Standby;
        ls_leader := ls_leader st; ls_clock := now'; ls_since := ls_since st |}
  | step_acquired st results now now' now'' e' h minted chunk epoch evs1 evs2 evs3 :
      ls_stage st = Standby → ls_clock st ≤ now → now ≤ now' → now' ≤ now'' →
      let t := poll_acceptors results now (ls_tracker st) in
      virgin t || expired now' t = true →
      acquire cfg minted chunk epoch evs1 evs2 evs3 (ls_env st) = (e', Some (Ok h)) →
      lease_step cfg st {| ls_env := e'; ls_tracker := t; ls_stage := Leader h;
        ls_leader := true; ls_clock := now''; ls_since := ls_since st |}
  | step_lost st results now now' now'' e' msg minted chunk epoch evs1 evs2 evs3 :
      ls_stage st = Standby → ls_clock st ≤ now → now ≤ now' → now' ≤ now'' →
      let t := poll_acceptors results now (ls_tracker st) in
      virgin t || expired now' t = true →
      acquire cfg minted chunk epoch evs1 evs2 evs3 (ls_env st) = (e', Some (Err msg)) →
      lease_step cfg st {| ls_env := e'; ls_tracker := reset t; ls_stage := Standby;
        ls_leader := ls_leader st; ls_clock := now''; ls_since := now'' |}
  | step_renewed st h h' now epoch evs1 evs2 :
      ls_stage st = Leader h → ls_clock st ≤ now →
      renew epoch evs1 evs2 h = (h', Some (Ok tt)) →
      lease_step cfg st {| ls_env := ls_env st; ls_tracker := ls_tracker st; ls_stage := Leader h';
        ls_leader := ls_leader st; ls_clock := now; ls_since := ls_since st |}
  | step_demoted st h h' now epoch evs1 evs2 msg :
      ls_stage st = Leader h → ls_clock st ≤ now →
      renew epoch evs1 evs2 h = (h', Some (Err msg)) →
      lease_step cfg st {| ls_env := ls_env st; ls_tracker := reset (ls_tracker st); ls_stage := Standby;
        ls_leader := false; ls_clock := now; ls_since := now |}
  | step_tasks st h e' f now :
      ls_stage st = Leader h → ls_clock st ≤ now →
      lease_step cfg st {| ls_env := e'; ls_tracker := ls_tracker st;
        ls_stage := Leader (with_quorum h (f (hl_quorum h)));
        ls_leader := ls_leader st; ls_clock := now; ls_since := ls_since st |}
  | step_shutdown st now :
      ls_stage st = Standby → ls_clock st ≤ now →
      lease_step cfg st {| ls_env := ls_env st; ls_tracker := ls_tracker st; ls_stage := Stopped;
        ls_leader := ls_leader st; ls_clock := now; ls_since := ls_since st |}
  | step_release st h now :
      ls_stage st = Leader h → ls_clock st ≤ now →
      lease_step cfg st {| ls_env := ls_env st; ls_tracker := ls_tracker st; ls_stage := Stopped;
        ls_leader := false; ls_clock := now; ls_since := ls_since st |}.

Definition lease_reachable (cfg : LeaseConfig) (st : LeaseState) : Prop :=
  ∃ e now, rtc (lease_step cfg) (lease_start cfg e now) st.
End Held.

(** ** What expiry means *)

(** What the probes of acceptor [i] gave, round by round. *)
Definition probes_of (i : nat) (rounds : list (N * list (option (N * N)))) : list (N * option (N * N)) :=
  map (λ r, (fst r, snd r !! i ≫= id)) rounds.
Definition tracked (ttl : N) (n : nat) (rounds : list (N * list (option (N * N)))) : ExpiryTracker :=
  foldl (λ t r, poll_acceptors (snd r) (fst r) t) (tracker_new n ttl) rounds.

(** The last probe was answered, and from one at least [ttl] old on every answer
    was the same position. *)
Definition frozen (ttl now : N) (h : list (N * option (N * N))) : Prop :=
  (∃ t p, last h = Some (t, Some p)) ∧
  ∃ h0 t p h1, h = h0 ++ (t, Some p) :: h1 ∧ ttl ≤ now - t ∧ ∀ t' q, (t', Some q) ∈ h1 → q = p.

Definition slot_step (slot : option Observed) (r : N * option (N * N)) : option Observed :=
  match snd r with
  | Some (term, flush) => observe_slot term flush (fst r) slot
  | None => lose_slot slot
  end.
Definition slot_of (h : list (N * option (N * N))) : option Observed := foldl slot_step None h.

Lemma feed_lookup k results now t i :
  et_seen (feed k results now t) !! i =
  if (k <=? i)%nat && (i <? k + length results)%nat
  then (λ slot, slot_step slot (now, results !! (i - k)%nat ≫= id)) <$> et_seen t !! i
  else et_seen t !! i.
Proof.
  revert k t. induction results as [|r results IH]; intros k t; cbn [feed length].
  - assert ((k <=? i)%nat && (i <? k + 0)%nat = false) as ->; [|done].
    apply andb_false_iff. destruct (decide (k ≤ i)%nat); [right; apply Nat.ltb_ge|left; apply Nat.leb_gt]; lia.
  - assert (∀ t', et_seen t' = alter (λ slot, slot_step slot (now, r)) k (et_seen t) →
      et_seen (feed (S k) results now t') !! i =
      if (k <=? i)%nat && (i <? k + S (length results))%nat
      then (λ slot, slot_step slot (now, (r :: results) !! (i - k)%nat ≫= id)) <$> et_seen t !! i
      else et_seen t !! i) as Hgo.
    { intros t' Ht. rewrite IH, Ht. destruct (decide (i = k)) as [->|Hne].
      - rewrite (proj2 (Nat.leb_gt (S k) k)), (proj2 (Nat.leb_le k k)),
          (proj2 (Nat.ltb_lt k (k + S (length results)))) by lia.
        simpl. by rewrite Nat.sub_diag, list_lookup_alter_eq.
      - rewrite list_lookup_alter_ne by done.
        destruct (S k <=? i)%nat eqn:E1; bool_prop.
        + rewrite (proj2 (Nat.leb_le k i)) by lia. replace (i - k)%nat with (S (i - S k)) by lia.
          replace (S k + length results)%nat with (k + S (length results))%nat by lia. done.
        + rewrite (proj2 (Nat.leb_gt k i)) by lia. done. }
    destruct r as [[term flush]|]; apply Hgo; reflexivity.
Qed.

Lemma length_feed k results now t : length (et_seen (feed k results now t)) = length (et_seen t).
Proof.
  revert k t. induction results as [|[[term flush]|] results IH]; intros k t; cbn [feed]; [done| |];
    rewrite IH; apply length_alter.
Qed.

Lemma feed_ttl k results now t : et_ttl (feed k results now t) = et_ttl t.
Proof. revert k t. induction results as [|[[? ?]|] results IH]; intros k t; cbn [feed]; [done| |]; by rewrite IH. Qed.

Lemma slot_of_snoc h r : slot_of (h ++ [r]) = slot_step (slot_of h) r.
Proof. unfold slot_of. by rewrite foldl_snoc. Qed.

Lemma tracked_slots ttl n rounds :
  (∀ r, r ∈ rounds → length (snd r) = n) →
  et_ttl (tracked ttl n rounds) = ttl ∧ length (et_seen (tracked ttl n rounds)) = n ∧
  ∀ i, (i < n)%nat → et_seen (tracked ttl n rounds) !! i = Some (slot_of (probes_of i rounds)).
Proof.
  induction rounds as [|r rounds IH] using rev_ind; intros Hlen.
  - split_and!; [done|apply length_replicate|]. intros i Hi. by apply lookup_replicate_2.
  - destruct IH as (Ht & Hl & Hs); [intros; apply Hlen; set_solver|].
    unfold tracked in *. rewrite foldl_snoc. unfold poll_acceptors. rewrite feed_ttl, length_feed.
    split_and!; [done..|]. intros i Hi. rewrite feed_lookup, Hs by done.
    assert (length (snd r) = n) as Hr by (apply Hlen; set_solver).
    rewrite (proj2 (Nat.leb_le 0 i)), (proj2 (Nat.ltb_lt i (0 + length (snd r)))) by lia. simpl. rewrite Nat.sub_0_r.
    unfold probes_of. rewrite map_app. simpl. by rewrite slot_of_snoc.
Qed.

(** What a slot remembers of its acceptor: the time its position was first
    seen, and whether the last probe was answered. *)
Lemma slot_of_spec h o :
  slot_of h = Some o →
  (ob_reachable o = true ↔ ∃ t p, last h = Some (t, Some p)) ∧
  ∃ h0 h1, h = h0 ++ (ob_since o, Some (ob_term o, ob_flush o)) :: h1 ∧
    ∀ t' q, (t', Some q) ∈ h1 → q = (ob_term o, ob_flush o).
Proof.
  revert o. induction h as [|[t r] h IH] using rev_ind; intros o Ho; [done|].
  rewrite slot_of_snoc in Ho. rewrite last_snoc. unfold slot_step in Ho. cbn [fst snd] in Ho.
  assert (∀ o', slot_of h = Some o' → (∀ t' q, (t', Some q) ∈ [(t, r)] → q = (ob_term o', ob_flush o')) →
    ∃ h0 h1, h ++ [(t, r)] = h0 ++ (ob_since o', Some (ob_term o', ob_flush o')) :: h1 ∧
      ∀ t' q, (t', Some q) ∈ h1 → q = (ob_term o', ob_flush o')) as Hkeep.
  { intros o' E Hr. destruct (IH o' E) as (_ & h0 & h1 & -> & Hsame).
    exists h0, (h1 ++ [(t, r)]). rewrite <-app_assoc. split; [done|].
    intros t' q [?|?]%elem_of_app; [by eapply Hsame|by eapply Hr]. }
  assert (∀ term flush, r = Some (term, flush) →
    Some o = Some {| ob_term := term; ob_flush := flush; ob_since := t; ob_reachable := true |} →
    (ob_reachable o = true ↔ ∃ t0 p, Some (t, r) = Some (t0, Some p)) ∧
    ∃ h0 h1, h ++ [(t, r)] = h0 ++ (ob_since o, Some (ob_term o, ob_flush o)) :: h1 ∧
      ∀ t' q, (t', Some q) ∈ h1 → q = (ob_term o, ob_flush o)) as Hfresh.
  { intros term flush -> [= ->]. cbn. split; [split; eauto|]. exists h, []. split; [done|].
    intros ?? Hq. by apply not_elem_of_nil in Hq. }
  destruct r as [[term flush]|]; unfold observe_slot, lose_slot in Ho.
  - destruct (slot_of h) as [o'|] eqn:E; [|by eapply Hfresh].
    destruct (_ && _) eqn:Eq; [|by eapply Hfresh]. injection Ho as <-. bool_prop. subst.
    split; [split; eauto|]. apply (Hkeep o' eq_refl).
    intros t' q Hq%list_elem_of_singleton. by injection Hq as _ ->.
  - destruct (slot_of h) as [o'|] eqn:E; [|done]. injection Ho as <-.
    split; [split; [done|by intros (? & ? & ?)]|]. apply (Hkeep o' eq_refl).
    intros t' q Hq%list_elem_of_singleton. done.
Qed.

Lemma sorted_app_N (l1 l2 : list N) :
  StronglySorted N.le (l1 ++ l2) → StronglySorted N.le l1 ∧ StronglySorted N.le l2 ∧
  ∀ x y, x ∈ l1 → y ∈ l2 → x ≤ y.
Proof.
  induction l1 as [|x l1 IH]; intros Hs; [split_and!; [constructor|done|set_solver]|].
  apply StronglySorted_inv in Hs as [Hs Hx]. destruct (IH Hs) as (H1 & H2 & H3).
  rewrite Forall_forall in Hx. split_and!; [|done|].
  - constructor; [done|]. apply Forall_forall. intros y Hy. apply Hx. set_solver.
  - intros a b [->|Ha]%elem_of_cons Hb; [apply Hx; set_solver|by apply H3].
Qed.

(** A run of equal answers is remembered from its beginning, or earlier. *)
Lemma slot_of_run h0 t p h1 :
  StronglySorted N.le (map fst (h0 ++ (t, Some p) :: h1)) → (∀ t' q, (t', Some q) ∈ h1 → q = p) →
  ∃ o, slot_of (h0 ++ (t, Some p) :: h1) = Some o ∧ (ob_term o, ob_flush o) = p ∧ ob_since o ≤ t.
Proof.
  destruct p as [term flush]. induction h1 as [|[t1 r] h1 IH] using rev_ind; intros Hs Hsame.
  - rewrite slot_of_snoc. unfold slot_step, observe_slot. cbn [fst snd].
    destruct (slot_of h0) as [o|] eqn:E; [|eexists; split; [done|split; [done|cbn; lia]]].
    destruct (_ && _) eqn:Eq; [|eexists; split; [done|split; [done|cbn; lia]]]. bool_prop. subst.
    eexists. split; [done|]. split; [done|]. cbn.
    apply slot_of_spec in E as (_ & h2 & h3 & -> & _).
    rewrite map_app in Hs. apply sorted_app_N in Hs as (_ & _ & Hs).
    apply Hs; [|by left]. rewrite map_app. apply elem_of_app. right. by left.
  - rewrite app_comm_cons, app_assoc in *. rewrite map_app in Hs. apply sorted_app_N in Hs as (Hs & _).
    destruct IH as (o & Ho & Hp & Hle); [done|intros t' q Hq; apply (Hsame t'), elem_of_app; by left|].
    rewrite slot_of_snoc, Ho. unfold slot_step. cbn [fst snd]. injection Hp as <- <-.
    destruct r as [q|]; [|by eexists].
    rewrite (Hsame t1 q) by (apply elem_of_app; right; by left). simpl. rewrite !N.eqb_refl. by eexists.
Qed.

(** Counting a list's good slots is choosing distinct indices. *)
Fixpoint good_from {A} (f : A → bool) (b : nat) (l : list (option A)) : list nat :=
  match l with
  | [] => []
  | Some x :: l => if f x then b :: good_from f (S b) l else good_from f (S b) l
  | None :: l => good_from f (S b) l
  end.

Lemma good_from_length {A} (f : A → bool) b l :
  length (good_from f b l) = length (List.filter f (flatten_ l)).
Proof.
  revert b. induction l as [|[x|] l IH]; intros b; [done| |apply IH].
  cbn. destruct (f x); [cbn; f_equal|]; apply IH.
Qed.

Lemma elem_of_good_from {A} (f : A → bool) b l i :
  i ∈ good_from f b l ↔ (b ≤ i)%nat ∧ ∃ x, l !! (i - b)%nat = Some (Some x) ∧ f x = true.
Proof.
  revert b. induction l as [|o l IH]; intros b; cbn [good_from].
  { split; [intros Hi; by apply not_elem_of_nil in Hi|by intros (_ & x & ? & _)]. }
  assert (i ∈ good_from f (S b) l ↔ (b < i)%nat ∧ ∃ x, (o :: l) !! (i - b)%nat = Some (Some x) ∧ f x = true) as Hrest.
  { rewrite IH. split; intros (Hle & x & Hx).
    - split; [lia|]. exists x. by replace (i - b)%nat with (S (i - S b)) by lia.
    - split; [lia|]. exists x. by replace (i - b)%nat with (S (i - S b)) in Hx by lia. }
  assert ((∃ x, o = Some x ∧ f x = true) → b = i →
    (b ≤ i)%nat ∧ ∃ x, (o :: l) !! (i - b)%nat = Some (Some x) ∧ f x = true) as Hhere.
  { intros (x & -> & Hx) ->. split; [done|]. exists x. by rewrite Nat.sub_diag. }
  assert ((b ≤ i)%nat ∧ (∃ x, (o :: l) !! (i - b)%nat = Some (Some x) ∧ f x = true) →
    (b = i ∧ ∃ x, o = Some x ∧ f x = true) ∨ i ∈ good_from f (S b) l) as Hcase.
  { intros (Hle & x & Hx & Hf). destruct (decide (b = i)) as [->|]; [left|right].
    - rewrite Nat.sub_diag in Hx. injection Hx as ->. eauto.
    - apply Hrest. split; [lia|eauto]. }
  assert (i ∈ good_from f (S b) l → (b ≤ i)%nat ∧ ∃ x, (o :: l) !! (i - b)%nat = Some (Some x) ∧ f x = true) as Hup
    by (intros [? ?]%Hrest; split; [lia|done]).
  destruct o as [x|]; [destruct (f x) eqn:Ef|].
  - rewrite elem_of_cons. split; [intros [->|?]; [apply Hhere; eauto|by apply Hup]|].
    intros [[-> _]|?]%Hcase; [by left|by right].
  - split; [done|]. intros [[_ (y & [= <-] & ?)]|?]%Hcase; [congruence|done].
  - split; [done|]. intros [[_ (y & [=] & ?)]|?]%Hcase; done.
Qed.

Lemma good_from_NoDup {A} (f : A → bool) b l : NoDup (good_from f b l).
Proof.
  revert b. induction l as [|[x|] l IH]; intros b; cbn [good_from]; [constructor| |done].
  destruct (f x); [|done]. constructor; [|done]. rewrite elem_of_good_from. lia.
Qed.

Lemma count_indices {A} (f : A → bool) (l : list (option A)) k :
  (k ≤ length (List.filter f (flatten_ l)))%nat ↔
  ∃ idxs, NoDup idxs ∧ (k ≤ length idxs)%nat ∧
    ∀ i, i ∈ idxs → ∃ x, l !! i = Some (Some x) ∧ f x = true.
Proof.
  rewrite <-(good_from_length f 0). split.
  - intros Hk. exists (good_from f 0 l). split; [apply good_from_NoDup|]. split; [done|].
    intros i Hi. apply elem_of_good_from in Hi as [_ Hi]. by rewrite Nat.sub_0_r in Hi.
  - intros (idxs & Hnd & Hk & Hall). etrans; [exact Hk|]. apply submseteq_length, NoDup_submseteq; [done|].
    intros i Hi. apply elem_of_good_from. rewrite Nat.sub_0_r. split; [lia|by apply Hall].
Qed.

Lemma probes_times i rounds : map fst (probes_of i rounds) = map fst rounds.
Proof. unfold probes_of. by rewrite map_map. Qed.

(** A lease counts as lapsed exactly when a quorum of acceptors sat frozen:
    each answered the last probe, and from some probe at least the TTL ago on
    gave nothing but the one position (probes it did not answer prove nothing
    either way). *)
Theorem expired_iff_frozen ttl n rounds now :
  (∀ r, r ∈ rounds → length (snd r) = n) → StronglySorted N.le (map fst rounds) →
  expired now (tracked ttl n rounds) = true ↔
  ∃ idxs, NoDup idxs ∧ (QUORUM ≤ length idxs)%nat ∧
    ∀ i, i ∈ idxs → (i < n)%nat ∧ frozen ttl now (probes_of i rounds).
Proof.
  intros Hlen Hs. destruct (tracked_slots ttl n rounds Hlen) as (Ht & Hl & Hslot).
  unfold expired. rewrite Nat.leb_le, count_indices, Ht.
  assert (∀ i, (∃ o, et_seen (tracked ttl n rounds) !! i = Some (Some o) ∧ lapsed ttl now o = true) ↔
    (i < n)%nat ∧ frozen ttl now (probes_of i rounds)) as Hiff.
  { intros i. split.
    - intros (o & Ho & Hlap). apply lookup_lt_Some in Ho as Hi. rewrite Hl in Hi. split; [done|].
      rewrite Hslot in Ho by done. injection Ho as Ho. apply slot_of_spec in Ho as (Hr & h0 & h1 & Hh & Hsame).
      unfold lapsed in Hlap. bool_prop. split; [by apply Hr|]. by exists h0, (ob_since o), (ob_term o, ob_flush o), h1.
    - intros (Hi & Hlast & h0 & t & p & h1 & Hh & Hle & Hsame). rewrite Hslot by done.
      destruct (slot_of_run h0 t p h1) as (o & Ho & _ & Hsince); [by rewrite <-Hh, probes_times|done|].
      rewrite <-Hh in Ho. rewrite Ho. exists o. split; [done|]. apply slot_of_spec in Ho as [Hr _].
      unfold lapsed. rewrite (proj2 Hr Hlast). simpl. apply N.leb_le. lia. }
  split; intros (idxs & ? & ? & Hall); exists idxs; (split; [done|split; [done|]]); intros i Hi;
    apply Hiff, Hall, Hi.
Qed.

(** ** The loop's invariant *)

(** Every remembered position was first seen since the tracker was last made or
    reset. *)
Definition seen_since (lo hi : N) (t : ExpiryTracker) : Prop :=
  ∀ i o, et_seen t !! i = Some (Some o) → lo ≤ ob_since o ≤ hi.

Lemma seen_since_weaken lo hi hi' t : hi ≤ hi' → seen_since lo hi t → seen_since lo hi' t.
Proof. intros Hle H i o Ho. specialize (H i o Ho). lia. Qed.

Lemma slot_step_since slot now r lo hi :
  (∀ o, slot = Some o → lo ≤ ob_since o ≤ hi) → hi ≤ now → lo ≤ now →
  ∀ o, slot_step slot (now, r) = Some o → lo ≤ ob_since o ≤ now.
Proof.
  intros H Hle Hlo o. unfold slot_step, observe_slot, lose_slot. cbn [fst snd].
  destruct r as [[term flush]|], slot as [o'|]; try case_match; intros [= <-]; cbn;
    try specialize (H o' eq_refl); lia.
Qed.

Lemma poll_since results now t lo hi :
  seen_since lo hi t → hi ≤ now → lo ≤ now → seen_since lo now (poll_acceptors results now t).
Proof.
  intros H Hle Hlo i o. unfold poll_acceptors. rewrite feed_lookup. destruct (_ && _).
  - intros (slot & Ho & Hslot)%fmap_Some. symmetry in Hslot. revert Hslot.
    apply (slot_step_since _ _ _ _ hi); [|done..]. intros o' ->. by apply (H i).
  - intros Ho. specialize (H i o Ho). lia.
Qed.

Lemma reset_since lo hi t : seen_since lo hi (reset t).
Proof. intros i o Ho. unfold reset in Ho. cbn in Ho. rewrite list_lookup_fmap in Ho. by destruct (et_seen t !! i). Qed.

Lemma expired_waited lo hi now t :
  seen_since lo hi t → expired now t = true → ∃ o, lo ≤ ob_since o ∧ et_ttl t ≤ now - ob_since o.
Proof.
  intros Hs Hx. unfold expired in Hx. apply Nat.leb_le, count_indices in Hx as (idxs & _ & Hlen & Hall).
  destruct idxs as [|i idxs]; [by apply Nat.nle_succ_0 in Hlen|].
  destruct (Hall i) as (o & Ho & Hl); [by left|]. unfold lapsed in Hl. bool_prop.
  exists o. split; [by eapply Hs|done].
Qed.

Section Loop.
Context (crc32 : list byte → N) {V E : Type} `{Json V} `{Net E}.
#[local] Notation step := (lease_step crc32 (V:=V) (E:=E)).
#[local] Notation reachable := (lease_reachable crc32 (V:=V) (E:=E)).

Definition lease_inv (cfg : LeaseConfig) (st : LeaseState (E:=E)) : Prop :=
  (ls_leader st = true ↔ ∃ h, ls_stage st = Leader h) ∧ ls_since st ≤ ls_clock st ∧
  et_ttl (ls_tracker st) = lc_ttl cfg ∧ seen_since (ls_since st) (ls_clock st) (ls_tracker st).

Lemma lease_start_inv cfg e now : lease_inv cfg (lease_start cfg e now).
Proof.
  split; [split; [done|by intros (? & ?)]|]. cbn. split_and!; [done|done|].
  intros i o Ho. cbn in Ho. by apply lookup_replicate in Ho as [? _].
Qed.

Lemma lease_step_inv cfg st st' : lease_inv cfg st → step cfg st st' → lease_inv cfg st'.
Proof.
  intros Hinv Hst. revert Hinv.
  destruct Hst; intros (Hl & Hc & Ht & Hs); unfold lease_inv; cbn [ls_leader ls_stage ls_since ls_clock ls_tracker];
    rewrite H1 in Hl; (split; [naive_solver|]); (split; [lia|]);
    (split; [first [done|by rewrite <-Ht; apply feed_ttl|by cbn; rewrite <-Ht; apply feed_ttl]|]).
  all: first [apply reset_since
      |eapply seen_since_weaken; [|exact Hs]; lia
      |eapply seen_since_weaken; [|apply (poll_since _ now _ _ _ Hs); lia]; lia].
Qed.

Lemma lease_reachable_inv cfg st : reachable cfg st → lease_inv cfg st.
Proof.
  intros (e & now & Hr). remember (lease_start cfg e now) as st0 eqn:E0.
  assert (lease_inv cfg st0) as Hst0 by (subst; apply lease_start_inv). clear E0.
  induction Hr as [|st0 st1 st2 Hstep _ IH]; [done|]. by apply IH, (lease_step_inv _ st0).
Qed.

(** C27: the daemon reports leadership exactly while it holds a lease, and it
    takes one over only from a log nobody ever held or after watching it sit
    still for a whole TTL since it started, lost an election or was demoted. *)
Theorem takeover_waits_ttl cfg st st' :
  reachable cfg st → step cfg st st' →
  (ls_leader st' = true ↔ ∃ h, ls_stage st' = Leader h) ∧
  (ls_leader st = false → ls_leader st' = true →
   virgin (ls_tracker st') = true ∨ ls_since st' + lc_ttl cfg ≤ ls_clock st').
Proof.
  intros Hr%lease_reachable_inv Hst. pose proof (lease_step_inv _ _ _ Hr Hst) as (Hl & _).
  split; [done|]. clear Hl. revert Hr. destruct Hst; intros (Hl & Hc & Ht & Hs) Hf Htr; cbn in Htr |- *;
    try congruence; try (rewrite (proj2 Hl) in Hf by eauto; congruence).
  match goal with H : virgin _ || _ = true |- _ => apply orb_true_iff in H as [?|Hx] end; [by left|right].
  apply (expired_waited (ls_since st) now) in Hx as (o & Ho & Hw); [|apply (poll_since _ _ _ _ _ Hs); lia].
  unfold t, poll_acceptors in Hw. rewrite feed_ttl, Ht in Hw. lia.
Qed.
End Loop.

(** ** Renewing *)
Section Renew.
Context (crc32 : list byte → N) {V : Type} `{Json V}.

(** Submitting a record of ordinary size fails on a poisoned tail only. *)
Lemma submit_small k q body s s' e :
  len body ≤ 1048576 → submit crc32 k LEASE_TABLE_KEY q body s = (s', Err e) →
  is_Some (sh_poison s').
Proof.
  intros Hlen. unfold submit. destruct (sh_poison s) eqn:Ep; [intros [= <- <-]; by rewrite Ep|].
  set (rec := {| r_lsn := _ |}). destruct (_ ≫= _) eqn:E; [done|].
  assert (len (record_payload rec) ≤ 1048576 + 64) as Hp.
  { rewrite length_record_payload. change (r_body rec) with body.
    change (length (str_bytes (r_table_key rec))) with 14%nat. lia. }
  exfalso. revert E. rewrite (proj2 (record_encode_Ok crc32 rec (record_frame crc32 rec))).
  - unfold check_record_frame_len, record_frame. cbn [mbind result_bind].
    rewrite length_frame, (proj2 (N.ltb_ge _ _)); [done|].
    unfold MAX_MESSAGE_BYTES, APPEND_MESSAGE_HEADROOM. lia.
  - split_and!; [done| |done]. etrans; [exact Hp|]. done.
Qed.

(** a renewal reports success only after its holder record was committed at a
    quorum under a healthy proposer; a failed one leaves the proposer poisoned
    (or shut down), so a demoted leader's lease is spent; and it never outlives
    the deadlines of its two appends. *)
Theorem renew_outcome epoch evs wm_evs h h' r :
  len (holder_body (V:=V) (hl_holder_id h) epoch) ≤ 1048576 →
  renew crc32 (V:=V) epoch evs wm_evs h = (h', r) →
  (r = Some (Ok tt) → ∃ s1 s2 end_,
     submit crc32 RECORD_FRAME LEASE_TABLE_KEY (wadd (hl_seq h) 1)
       (holder_body (V:=V) (hl_holder_id h) epoch) (hl_quorum h) = (s1, Ok end_) ∧
     wait_commit end_ evs false s1 = (s2, Some (Ok tt)) ∧ end_ ≤ sh_commit s2 ∧ sh_poison s2 = None) ∧
  (∀ e, r = Some (Err e) → is_Some (sh_poison (hl_quorum h')) ∨ WClosed ∈ map snd (evs ++ wm_evs)) ∧
  (2 ≤ timeouts evs → 2 ≤ timeouts wm_evs → is_Some r)%nat ∧
  hl_seq h' = wadd (hl_seq h) 1.
Proof.
  intros Hb. unfold renew, append_holder_record. cbn [hl_quorum hl_seq hl_holder_id].
  set (seq := wadd (hl_seq h) 1). set (body := holder_body _ _) in *. rewrite map_app.
  destruct (submit _ _ _ seq body _) as [s1 [end1|e1]] eqn:E1.
  2: { intros [= <- <-]. split_and!; [done| |eauto|done]. intros _ _. left. by eapply submit_small. }
  destruct (wait_commit end1 evs false s1) as [s2 r2] eqn:E2.
  pose proof (wait_commit_cases _ _ _ _ _ _ E2) as (W1 & W2 & W3).
  destruct r2 as [[[]|e2]|].
  2: { intros [= <- <-]. split_and!; [done| |eauto|done]. intros e _.
       destruct (W2 e2 eq_refl); [by left|right]. apply elem_of_app. by left. }
  2: { intros [= <- <-]. split_and!; [done..| |done]. intros Hx _. by apply W3 in Hx. }
  destruct (W1 eq_refl) as [Hc Hp].
  assert (∃ s1' s2' end_, (s1, Ok (A:=N) end1) = (s1', Ok end_) ∧
    wait_commit end_ evs false s1' = (s2', Some (Ok tt)) ∧ end_ ≤ sh_commit s2' ∧ sh_poison s2' = None) as Hdone
    by (exists s1, s2, end1; by rewrite E2).
  destruct (note_covered _ _ _) as [s3 refresh]. destruct (_ || _).
  2: { intros [= <- <-]. split_and!; [done|done|eauto|done]. }
  destruct (submit _ _ _ _ [] s3) as [s4 [end2|e4]] eqn:E4.
  2: { intros [= <- <-]. split_and!; [done| |eauto|done]. intros _ _. left. eapply submit_small; [|exact E4].
       simpl. lia. }
  destruct (wait_commit end2 wm_evs false s4) as [s5 r5] eqn:E5.
  pose proof (wait_commit_cases _ _ _ _ _ _ E5) as (_ & X2 & X3).
  destruct r5 as [[[]|e5]|]; intros [= <- <-]; (split_and!; [done || (intros _; exact Hdone)| | |done]).
  - done.
  - eauto.
  - intros e _. destruct (X2 e5 eq_refl); [by left|right]. apply elem_of_app. by right.
  - eauto.
  - done.
  - intros _ Hx. by apply X3 in Hx.
Qed.
End Renew.
