(* ===== verification/TailNames.v ===== *)
(** * Table keys of the durable tail (src/icegres/src/tail.rs)

    The percent encoding that names a table's directory (and its
    [table_key] in the other backends), and the watermark text. *)
From S2P Require Import Prelude Text.

(** A [TableIdent]: the namespace levels and the table name, as UTF-8 bytes. *)
Record TableIdent := { namespace : list (list byte); table_name : list byte }.

#[export] Instance TableIdent_eq_dec : EqDecision TableIdent.
Proof. solve_decision. Defined.

#[export] Instance TableIdent_countable : Countable TableIdent.
Proof.
  by refine (inj_countable' (λ t, (namespace t, table_name t))
    (λ p, {| namespace := fst p; table_name := snd p |}) _); intros [].
Defined.

Definition PERCENT : byte := Byte.x25.
Definition DOT : byte := Byte.x2e.
Definition SLASH : byte := Byte.x2f.

(** [encode_component].  The escaped characters are ASCII, so walking bytes is
    walking characters. *)
Fixpoint encode_component (part : list byte) : result (list byte) :=
  match part with
  | [] => Ok []
  | c :: part =>
    if decide (c = Byte.x00) then Err "table name component contains a NUL byte" else
    out ← encode_component part;
    Ok ((if decide (c = PERCENT) then str_bytes "%25"
         else if decide (c = DOT) then str_bytes "%2e"
         else if decide (c = SLASH) then str_bytes "%2f" else [c]) ++ out)
  end.

(** [byte as char] pushed on a [String]: Latin-1 as UTF-8. *)
Definition char_of_byte (n : N) : list byte :=
  if n <? 128 then [byte_of_N n] else [byte_of_N (192 + n / 64); byte_of_N (128 + n mod 64)].

(** [decode_component] *)
Fixpoint decode_component (part : list byte) : option (list byte) :=
  match part with
  | [] => Some []
  | c :: part =>
    if decide (c = PERCENT) then
      match part with
      | h1 :: h2 :: part =>
        b ← parse_hex_u8 [h1; h2];
        out ← decode_component part;
        Some (char_of_byte b ++ out)
      | _ => None
      end
    else out ← decode_component part; Some (c :: out)
  end.

Fixpoint map_result {A B} (f : A → result B) (l : list A) : result (list B) :=
  match l with
  | [] => Ok []
  | a :: l => b ← f a; bs ← map_result f l; Ok (b :: bs)
  end.
Fixpoint map_option {A B} (f : A → option B) (l : list A) : option (list B) :=
  match l with
  | [] => Some []
  | a :: l => b ← f a; bs ← map_option f l; Some (b :: bs)
  end.

(** [table_dir_name] *)
Definition table_dir_name (ident : TableIdent) : result (list byte) :=
  parts ← map_result encode_component (namespace ident);
  name ← encode_component (table_name ident);
  Ok (join_with DOT (parts ++ [name])).

(** [parse_table_dir_name] *)
Definition parse_table_dir_name (name : list byte) : option TableIdent :=
  parts ← map_option decode_component (split_on DOT name);
  if (length parts <? 2)%nat || existsb (λ p, (length p =? 0)%nat) parts then None
  else Some {| namespace := removelast parts; table_name := List.last parts [] |}.

(** ** Watermarks *)

(** [parse_watermark_property] *)
Definition parse_watermark_property (raw : option (list byte)) : option N :=
  raw ← raw; parse_u64 (trim raw).

(** [effective_watermark] *)
Definition effective_watermark (property : option (list byte)) (sidecar : option N) : option N :=
  match parse_watermark_property property, sidecar with
  | Some p, Some s => Some (N.max p s)
  | Some p, None => Some p
  | None, s => s
  end.

(** [drop_stale_frames] *)
Definition drop_stale_frames {A} (frames : list (N * A)) (watermark : option N)
    : list (N * A) * nat :=
  match watermark with
  | None => (frames, 0%nat)
  | Some w =>
    let before := length frames in
    let survivors := List.filter (λ f, w <? fst f) frames in
    (survivors, (before - length survivors)%nat)
  end.

(** [read_sidecar_watermark] on the file's bytes *)
Definition read_sidecar_watermark (file : option (list byte)) : option N :=
  s ← file; if utf8_valid s then parse_u64 (trim s) else None.

(** ** Facts *)
Lemma encode_component_dot part out : encode_component part = Ok out → (DOT ∉ out) ∧ (SLASH ∉ out) ∧ (Byte.x00 ∉ out).
Proof.
  revert out. induction part as [|c part IH]; intros out H; cbn [encode_component] in H.
  { apply Ok_inj in H as <-. split_and!; apply not_elem_of_nil. }
  destruct (decide (c = Byte.x00)); [done|]. apply bind_Ok in H as (o & Ho & H).
  apply Ok_inj in H as <-. destruct (IH o Ho) as (H1 & H2 & H3).
  rewrite !not_elem_of_app.
  destruct (decide (c = PERCENT)); [|destruct (decide (c = DOT)); [|destruct (decide (c = SLASH))]];
    split_and!; try done; rewrite ?list_elem_of_singleton; try done;
    by apply (bool_decide_unpack _); vm_compute.
Qed.

Lemma decode_escape h1 h2 n c tail :
  parse_hex_u8 [h1; h2] = Some n → char_of_byte n = [c] →
  decode_component (PERCENT :: h1 :: h2 :: tail) = cons c <$> decode_component tail.
Proof.
  intros Hn Hc. cbn [decode_component]. rewrite decide_True by done. rewrite Hn. simpl.
  rewrite Hc. by destruct (decode_component tail).
Qed.

Lemma decode_encode part out rest :
  encode_component part = Ok out → decode_component (out ++ rest) = (λ o, part ++ o) <$> decode_component rest.
Proof.
  revert out. induction part as [|c part IH]; intros out H; cbn [encode_component] in H.
  { apply Ok_inj in H as <-. simpl. by destruct (decode_component rest). }
  destruct (decide (c = Byte.x00)); [done|]. apply bind_Ok in H as (o & Ho & H).
  apply Ok_inj in H as <-. specialize (IH o Ho).
  destruct (decide (c = PERCENT)) as [->|Hp];
    [|destruct (decide (c = DOT)) as [->|]; [|destruct (decide (c = SLASH)) as [->|]]];
    rewrite <-app_assoc.
  4: { cbn [app decode_component]. rewrite decide_False by done. rewrite IH.
    by destruct (decode_component rest). }
  all: cbn [String.list_byte_of_string String.list_ascii_of_string map app].
  1: rewrite (decode_escape _ _ 37 PERCENT) by done.
  2: rewrite (decode_escape _ _ 46 DOT) by done.
  3: rewrite (decode_escape _ _ 47 SLASH) by done.
  all: rewrite IH; by destruct (decode_component rest).
Qed.

Lemma decode_encode_component part out : encode_component part = Ok out → decode_component out = Some part.
Proof.
  intros H. rewrite <-(app_nil_r out). rewrite (decode_encode part) by done.
  simpl. by rewrite app_nil_r.
Qed.

Lemma map_result_decode parts outs :
  map_result encode_component parts = Ok outs →
  map_option decode_component outs = Some parts ∧ length outs = length parts ∧
  Forall (λ o, (DOT ∉ o) ∧ (SLASH ∉ o) ∧ (Byte.x00 ∉ o)) outs.
Proof.
  revert outs. induction parts as [|p parts IH]; intros outs H; cbn [map_result] in H.
  { by apply Ok_inj in H as <-. }
  apply bind_Ok in H as (o & Ho & H). apply bind_Ok in H as (os & Hos & H).
  apply Ok_inj in H as <-. destruct (IH os Hos) as (H1 & H2 & H3). cbn [map_option].
  rewrite (decode_encode_component p o Ho). simpl. rewrite H1. split_and!; [done|by rewrite H2|].
  constructor; [by eapply encode_component_dot|done].
Qed.

Lemma map_result_app {A B} (f : A → result B) l1 l2 :
  map_result f (l1 ++ l2) = (x ← map_result f l1; (λ y, x ++ y) <$> map_result f l2).
Proof.
  induction l1 as [|a l1 IH]; simpl; [by destruct (map_result f l2)|].
  destruct (f a); [|done]. simpl. rewrite IH.
  destruct (map_result f l1); [|done]. simpl. by destruct (map_result f l2).
Qed.

Lemma table_dir_parts ident d :
  table_dir_name ident = Ok d →
  ∃ outs, map_result encode_component (namespace ident ++ [table_name ident]) = Ok outs ∧
    d = join_with DOT outs ∧ outs ≠ [].
Proof.
  unfold table_dir_name. intros H. apply bind_Ok in H as (parts & Hp & H).
  apply bind_Ok in H as (n & Hn & H). apply Ok_inj in H as <-.
  exists (parts ++ [n]). rewrite map_result_app, Hp. simpl. rewrite Hn. simpl.
  split_and!; try done. by destruct parts.
Qed.

Lemma elem_of_join sep b ws : b ∈ join_with sep ws → b = sep ∨ ∃ w, w ∈ ws ∧ b ∈ w.
Proof.
  induction ws as [|w ws IH]; [intros H; by apply not_elem_of_nil in H|].
  destruct ws as [|v ws].
  - simpl. intros H. right. exists w. split; [by left|done].
  - change (join_with sep (w :: v :: ws)) with (w ++ sep :: join_with sep (v :: ws)).
    rewrite elem_of_app, elem_of_cons. intros [H|[->|H]]; [right; exists w; split; [by left|done]|by left|].
    destruct (IH H) as [?|(x & Hx & ?)]; [by left|]. right. exists x. split; [by right|done].
Qed.

Lemma split_table_dir ident d :
  table_dir_name ident = Ok d →
  map_option decode_component (split_on DOT d) = Some (namespace ident ++ [table_name ident]).
Proof.
  intros H. apply table_dir_parts in H as (outs & Ho & -> & Hne).
  apply map_result_decode in Ho as (Hd & _ & Hall). rewrite split_join; [done|done|].
  eapply Forall_impl; [exact Hall|]. by intros ? [? _].
Qed.

(** a table's directory name is one path entry and determines the table:
    it holds neither a slash nor a NUL, two tables never share one, and parsing
    it gives the table back exactly when the table has a namespace and none of
    its components is empty (such a table's directory would not be replayed). *)
Theorem table_dir_name_roundtrip ident d :
  table_dir_name ident = Ok d →
  (SLASH ∉ d) ∧ (Byte.x00 ∉ d) ∧
  (∀ ident', table_dir_name ident' = Ok d → ident' = ident) ∧
  (parse_table_dir_name d = Some ident ↔
   namespace ident ≠ [] ∧ Forall (λ p, p ≠ []) (namespace ident ++ [table_name ident])).
Proof.
  intros H. pose proof (split_table_dir ident d H) as Hs. split_and!.
  - apply table_dir_parts in H as (outs & Ho & -> & _).
    apply map_result_decode in Ho as (_ & _ & Hall). rewrite Forall_forall in Hall.
    intros [?|(w & Hw%Hall & Hin)]%elem_of_join; [done|]. naive_solver.
  - apply table_dir_parts in H as (outs & Ho & -> & _).
    apply map_result_decode in Ho as (_ & _ & Hall). rewrite Forall_forall in Hall.
    intros [?|(w & Hw%Hall & Hin)]%elem_of_join; [done|]. naive_solver.
  - intros ident' H'. pose proof (split_table_dir ident' d H') as Hs'. rewrite Hs in Hs'.
    injection Hs' as [? ?]%app_inj_tail. destruct ident, ident'; simpl in *; congruence.
  - unfold parse_table_dir_name. rewrite Hs. simpl.
    rewrite length_app, removelast_last, last_last. simpl.
    assert (existsb (λ p, (length p =? 0)%nat) (namespace ident ++ [table_name ident]) = false ↔
      Forall (λ p, p ≠ []) (namespace ident ++ [table_name ident])) as He.
    { generalize (namespace ident ++ [table_name ident]). clear. intros l.
      induction l as [|p l IH]; simpl; [done|]. rewrite orb_false_iff, IH, Forall_cons.
      destruct p; simpl; naive_solver. }
    destruct (_ <? 2)%nat eqn:E; bool_prop; simpl.
    + split; [done|]. intros [Hn _]. destruct (namespace ident); [done|]. simpl in E. lia.
    + destruct (existsb _ _) eqn:E2.
      * split; [done|]. intros [_ Hf]. by apply He in Hf.
      * split; [|by destruct ident]. intros _. split; [|by apply He].
        intros Hn. rewrite Hn in E. simpl in E. lia.
Qed.

(** The replay watermark is exactly-once: what survives the filter is the
    frames past both gates that are readable, in their order; the property and
    the sidecar each hold back every frame they cover, whatever the other holds. *)
Theorem effective_watermark_exact {A} property sidecar (frames : list (N * A)) :
  let kept := fst (drop_stale_frames frames (effective_watermark property sidecar)) in
  (∀ seq a, (seq, a) ∈ kept ↔ (seq, a) ∈ frames ∧
     (∀ w, parse_watermark_property property = Some w → w < seq) ∧
     (∀ w, sidecar = Some w → w < seq)) ∧
  sublist kept frames ∧
  (length kept + snd (drop_stale_frames frames (effective_watermark property sidecar)) =
   length frames)%nat.
Proof.
  cbv zeta. assert (∀ w, sublist (List.filter (λ f : N * A, w <? fst f) frames) frames) as Hsub.
  { intros w. induction frames as [|f fs IH]; simpl; [constructor|]. destruct (w <? fst f); by constructor. }
  assert (∀ w seq a, (seq, a) ∈ List.filter (λ f : N * A, w <? fst f) frames ↔ (seq, a) ∈ frames ∧ w < seq) as Hin.
  { intros w seq a. rewrite !list_elem_of_In, filter_In. simpl. by rewrite N.ltb_lt. }
  assert (∀ w : N, (length (List.filter (λ f : N * A, (w <? fst f)%N) frames) ≤ length frames)%nat) as Hlen.
  { intros w. apply sublist_length, Hsub. }
  unfold effective_watermark, drop_stale_frames.
  destruct (parse_watermark_property property) as [p|] eqn:Ep, sidecar as [s|]; cbn [fst snd];
    (split; [intros seq a; rewrite ?Hin|split; [done|]]).
  - split; [intros [??]; split_and!; [done|intros w [= <-]; lia..]|].
    intros (? & H1 & H2). specialize (H1 p eq_refl). specialize (H2 s eq_refl). split; [done|lia].
  - specialize (Hlen (N.max p s)). lia.
  - split; [intros [??]; split_and!; [done|by intros w [= <-]|done]|]. intros (? & H1 & _). eauto.
  - specialize (Hlen p). lia.
  - split; [intros [??]; split_and!; [done|done|by intros w [= <-]]|]. intros (? & _ & H1). eauto.
  - specialize (Hlen s). lia.
  - naive_solver.
  - lia.
Qed.

(** Printing a watermark then reading it, on either gate. *)
Lemma parse_print_watermark w :
  is_u64 w → parse_watermark_property (Some (print_u64 w)) = Some w.
Proof.
  intros Hw. unfold parse_watermark_property. simpl. destruct (print_u64_digits w Hw) as (? & _ & _).
  rewrite trim_digits by done. by apply parse_print_u64.
Qed.
