(* ===== verification/Tail.v ===== *)
(** * The local tail's frames and its replay (src/icegres/src/tail.rs)

    The statement payload every tail backend stores, the frame around it, the
    poison marker, and the boot scan of one table's segments. *)
From S2P Require Import Prelude Text Segment SegmentWal TailNames.
From stdpp Require Import sorting.
#[local] Open Scope N_scope.

Definition TAIL_PAYLOAD_FORMAT : byte := Byte.x02.

Inductive TailOpKind := KAppend | KUpsert | KDelete.
#[export] Instance TailOpKind_eq_dec : EqDecision TailOpKind.
Proof. solve_decision. Defined.

(** [TailOpKind::to_byte], [from_byte] *)
Definition kind_to_byte (k : TailOpKind) : byte :=
  match k with KAppend => Byte.x00 | KUpsert => Byte.x01 | KDelete => Byte.x02 end.
Definition kind_from_byte (b : byte) : result TailOpKind :=
  match b with
  | Byte.x00 => Ok KAppend
  | Byte.x01 => Ok KUpsert
  | Byte.x02 => Ok KDelete
  | _ => Err "unknown tail op discriminator"
  end.

(** ** Arrow IPC

    [StreamWriter] and [StreamReader] of the arrow crate; the reader gives back
    the batches of a stream the writer finished. *)
Class Arrow (RecordBatch : Type) := {
  ipc_write : list RecordBatch → result (list byte);
  ipc_read : list byte → result (list RecordBatch);
}.
Class ArrowLaws (RecordBatch : Type) `{Arrow RecordBatch} := {
  ipc_read_write bs out : bs ≠ [] → ipc_write bs = Ok out → ipc_read out = Ok bs;
}.

Section Payload.
Context (crc32 : list byte → N) {RecordBatch : Type} `{Arrow RecordBatch}.

(** [encode_ipc], [decode_ipc] *)
Definition encode_ipc (batches : list RecordBatch) : result (list byte) :=
  match batches with
  | [] => Err "tail frame needs at least one batch"
  | _ => ipc_write batches
  end.
Definition decode_ipc (bytes : list byte) : result (list RecordBatch) :=
  batches ← ipc_read bytes;
  match batches with
  | [] => Err "tail frame IPC stream holds no batch"
  | _ => Ok batches
  end.

Inductive TailOp :=
  | Append (batches : list RecordBatch)
  | Upsert (batches : list RecordBatch)
  | Delete (batches : list RecordBatch).

(** [TailOp::kind], [TailOp::batches] *)
Definition op_kind (op : TailOp) : TailOpKind :=
  match op with Append _ => KAppend | Upsert _ => KUpsert | Delete _ => KDelete end.
Definition op_batches (op : TailOp) : list RecordBatch :=
  match op with Append b | Upsert b | Delete b => b end.

(** [TailFormatError] is typed apart from any other decode error. *)
Inductive DecodeError := TailFormatError (found : byte) | Undecodable (msg : string).
Definition or_undecodable {A} (r : result A) : DecodeError + A :=
  match r with Ok a => inr a | Err e => inl (Undecodable e) end.

(** [encode_op_payload] *)
Definition encode_op_payload (kind : TailOpKind) (batches : list RecordBatch) : result (list byte) :=
  ipc ← encode_ipc batches; Ok (TAIL_PAYLOAD_FORMAT :: kind_to_byte kind :: ipc).

(** [decode_op_payload] *)
Definition decode_op_payload (bytes : list byte) : DecodeError + TailOp :=
  match bytes with
  | [] => inl (Undecodable "tail payload is empty")
  | version :: rest =>
    if decide (version ≠ TAIL_PAYLOAD_FORMAT) then inl (TailFormatError version) else
    match rest with
    | [] => inl (Undecodable "tail payload is missing its op byte")
    | op :: ipc =>
      or_undecodable
        (kind ← kind_from_byte op; batches ← decode_ipc ipc;
         Ok match kind with
            | KAppend => Append batches
            | KUpsert => Upsert batches
            | KDelete => Delete batches
            end)
    end
  end.

(** [encode_frame] *)
Definition encode_frame (seq : N) (kind : TailOpKind) (batches : list RecordBatch)
    : result (list byte) :=
  body ← encode_op_payload kind batches;
  frame_bytes crc32 (u64_le seq ++ body).

(** [decode_payload] *)
Definition decode_payload (payload : list byte) : DecodeError + (N * TailOp) :=
  if (length payload <? 8)%nat
  then inl (Undecodable "payload shorter than its sequence header")
  else match decode_op_payload (drop 8 payload) with
       | inl e => inl e
       | inr op => inr (le_val (slice 0 8 payload), op)
       end.

(** ** The poison marker *)
Record PoisonMarker := { pm_clamp : N; pm_resume_seq : option N }.

(** [read_poison_marker] on the marker file's bytes *)
Definition read_poison_marker (file : option (list byte)) : option PoisonMarker :=
  s ← file;
  if utf8_valid s then
    match words s with
    | [] => None
    | w :: ws =>
      match parse_u64 w with
      | Some clamp =>
        Some {| pm_clamp := clamp;
                pm_resume_seq := match ws with v :: _ => parse_u64 v | [] => None end |}
      | None => None
      end
    end
  else None.

(** [format!("{synced_len} {}", next_seq)] *)
Definition poison_text (synced_len next_seq : N) : list byte :=
  print_u64 synced_len ++ Byte.x20 :: print_u64 next_seq.

(** ** A table's directory: segments by their number, markers beside them *)
Record tdir := {
  td_segs : gmap N (list byte);
  td_marks : gmap N (list byte);
  td_io : list outcome;
}.

Definition td_sys (ok fail : tdir → tdir) : stres tdir unit := λ d,
  let rest := {| td_segs := td_segs d; td_marks := td_marks d; td_io := List.tl (td_io d) |} in
  match td_io d with
  | IoFail _ :: _ => (fail rest, Err "io error")
  | _ => (ok rest, Ok tt)
  end.
Definition on_segs (f : gmap N (list byte) → gmap N (list byte)) (d : tdir) : tdir :=
  {| td_segs := f (td_segs d); td_marks := td_marks d; td_io := td_io d |}.
Definition on_marks (f : gmap N (list byte) → gmap N (list byte)) (d : tdir) : tdir :=
  {| td_segs := td_segs d; td_marks := f (td_marks d); td_io := td_io d |}.

Definition td_set_len (id_ : N) (n : nat) : stres tdir unit :=
  td_sys (on_segs (alter (resize_bytes n) id_)) id.
Definition td_sync : stres tdir unit := td_sys id id.
Definition td_remove (id_ : N) : stres tdir unit := λ d,
  match td_segs d !! id_ with
  | None => (d, Err "no such file")
  | Some _ => td_sys (on_segs (delete id_)) id d
  end.
Definition td_remove_marker (id_ : N) : stres tdir unit := λ d,
  match td_marks d !! id_ with
  | None => (d, Err "no such file")
  | Some _ => td_sys (on_marks (delete id_)) id d
  end.

(** [if fs::remove_file(seg).is_ok() { let _ = fs::remove_file(marker); }] *)
Definition remove_with_marker (id_ : N) : stres tdir bool := λ d,
  match td_remove id_ d with
  | (d, Ok _) => (fst (td_remove_marker id_ d), Ok true)
  | (d, Err _) => (d, Ok false)
  end.

(** ** [scan_segment] *)
Record SegmentScan := {
  sc_frames : list (N * TailOp);
  sc_max_seq : option N;
  sc_hit_bad_frame : bool;
  sc_resume_hint : option N;
}.

(** The frame walk; [inl] is the loud abort on a foreign format. *)
Inductive walk := Abort | Walked (frames : list (N * TailOp)) (good_end : nat) (bad : bool).

Fixpoint walk_frames (fuel : nat) (data : list byte) (off good_end : nat)
    (frames : list (N * TailOp)) : option walk :=
  match fuel with
  | O => None
  | S fuel =>
    if (off <? length data)%nat then
      if (length data - off <? 8)%nat then Some (Walked frames good_end true) else
      let n := le_val (slice off (off + 4) data) in
      let crc := le_val (slice (off + 4) (off + 8) data) in
      if N.of_nat (length data - off - 8) <? n then Some (Walked frames good_end true) else
      let payload := slice (off + 8) (off + 8 + N.to_nat n) data in
      if negb (crc32 payload =? crc) then Some (Walked frames good_end true) else
      match decode_payload payload with
      | inr frame =>
        let stop := (off + 8 + N.to_nat n)%nat in
        walk_frames fuel data stop stop (frames ++ [frame])
      | inl (TailFormatError _) => Some Abort
      | inl (Undecodable _) => Some (Walked frames good_end true)
      end
    else Some (Walked frames good_end false)
  end.

(** Each round consumes a header: [1 + length data] rounds are enough
    ([walk_frames_total]). *)
Definition walk_all (data : list byte) : walk :=
  default Abort (walk_frames (S (length data)) data 0 0 []).

Definition scan_segment (id_ : N) : stres tdir SegmentScan := λ d,
  (let* data := st_lift (ok_or (td_segs d !! id_) "cannot read tail segment") in
   let pm := read_poison_marker (td_marks d !! id_) in
   let resume_hint := pm ≫= pm_resume_seq in
   let clamped := match pm with Some pm => pm_clamp pm <? len data | None => false end in
   let data := match pm with
               | Some pm => if pm_clamp pm <? len data then take (N.to_nat (pm_clamp pm)) data else data
               | None => data
               end in
   match walk_all data with
   | Abort => st_err "tail segment holds an incompatible frame"
   | Walked frames good_end bad =>
     let hit_bad_frame := bad || clamped in
     (if hit_bad_frame : bool then
        td_set_len id_ good_end ;;* td_sync ;;* ignore (td_remove_marker id_)
      else st_ret tt) ;;*
     st_ret {| sc_frames := frames; sc_max_seq := fst <$> last frames;
               sc_hit_bad_frame := hit_bad_frame; sc_resume_hint := resume_hint |}
   end)%stres d.

(** ** [scan_table] *)
Record SealedSegment := { ss_id : N; ss_max_seq : N }.
Record TableScan := {
  ts_frames : list (N * TailOp);
  ts_sealed : list SealedSegment;
  ts_next_seq : N;
  ts_next_segment : N;
}.

(** The state of the loop over the segment files: the frames and sealed
    segments so far, and what a bad frame left to check. *)
Record scan_state := {
  st_frames : list (N * TailOp);
  st_sealed : list SealedSegment;
  st_bad : bool;
  st_hint : option N;
}.

(** [resume_hint.or_else(|| frames.last().map(|(seq, _)| seq + 1))] *)
Definition expected_first (hint : option N) (frames : list (N * TailOp)) : option N :=
  match hint with Some h => Some h | None => (λ f, wadd (fst f) 1) <$> last frames end.

Definition scan_step (id_ : N) (s : scan_state) : stres tdir scan_state :=
  (let* scan := scan_segment id_ in
   match sc_max_seq scan with
   | None =>
     ignore (remove_with_marker id_) ;;*
     st_ret (if sc_hit_bad_frame scan
             then {| st_frames := st_frames s; st_sealed := st_sealed s; st_bad := true;
                     st_hint := sc_resume_hint scan |}
             else s)
   | Some max_seq =>
     let expected := expected_first (st_hint s) (st_frames s) in
     let first := fst <$> List.hd_error (sc_frames scan) in
     if st_bad s && (bool_decide (expected = None) || negb (bool_decide (first = expected)))
     then ignore (remove_with_marker id_) ;;* st_ret s
     else st_ret
       {| st_frames := st_frames s ++ sc_frames scan;
          st_sealed := st_sealed s ++ [{| ss_id := id_; ss_max_seq := max_seq |}];
          st_bad := sc_hit_bad_frame scan;
          st_hint := if sc_hit_bad_frame scan then sc_resume_hint scan
                     else if st_bad s then None else st_hint s |}
   end)%stres.

Fixpoint scan_loop (ids : list N) (s : scan_state) : stres tdir scan_state :=
  match ids with
  | [] => st_ret s
  | id_ :: ids => (let* s := scan_step id_ s in scan_loop ids s)%stres
  end.

(** [seg_paths.sort()]: the [%016x] names sort as the numbers do. *)
Definition segment_ids (d : tdir) : list N := merge_sort N.le (map fst (map_to_list (td_segs d))).

Definition scan_table : stres tdir TableScan := λ d,
  (let ids := segment_ids d in
   let* s := scan_loop ids {| st_frames := []; st_sealed := []; st_bad := false; st_hint := None |} in
   st_ret {| ts_frames := st_frames s; ts_sealed := st_sealed s;
             ts_next_seq := match last (st_frames s) with Some f => wadd (fst f) 1 | None => 1 end;
             ts_next_segment := foldl (λ m id_, N.max m (wadd id_ 1)) 1 ids |})%stres d.

(** ** Facts *)

(** The payload and the frame of one acked statement. *)
Definition op_payload (seq : N) (op : TailOp) (p : list byte) : Prop :=
  is_u64 seq ∧ ∃ body, encode_op_payload (op_kind op) (op_batches op) = Ok body ∧
    p = u64_le seq ++ body ∧ is_u32 (len p).

Lemma encode_frame_payload seq kind batches f :
  is_u64 seq → encode_frame seq kind batches = Ok f →
  ∃ op p, op_kind op = kind ∧ op_batches op = batches ∧ op_payload seq op p ∧ f = frame crc32 p.
Proof.
  intros Hs Hf. unfold encode_frame in Hf. apply bind_Ok in Hf as (body & Hb & Hf).
  apply frame_bytes_Ok in Hf as [Hl ->].
  exists (match kind with KAppend => Append | KUpsert => Upsert | KDelete => Delete end batches).
  eexists. assert (is_u32 (len (u64_le seq ++ body))) by (unfold u32_max, u32_modulus in *; lia).
  destruct kind; (split; [done|]; split; [done|]; split; [|reflexivity]; split; [done|]; by exists body).
Qed.

Context `{!ArrowLaws RecordBatch}.

Lemma kind_from_to k : kind_from_byte (kind_to_byte k) = Ok k.
Proof. by destruct k. Qed.

Lemma decode_op_payload_encode op body :
  encode_op_payload (op_kind op) (op_batches op) = Ok body → decode_op_payload body = inr op.
Proof.
  unfold encode_op_payload, encode_ipc. intros H1. apply bind_Ok in H1 as (ipc & Hi & H1).
  apply Ok_inj in H1 as <-. unfold decode_op_payload. rewrite decide_False by auto.
  rewrite kind_from_to. simpl. unfold decode_ipc.
  destruct (op_batches op) as [|b bs] eqn:Eb; [done|].
  rewrite (ipc_read_write (b :: bs)) by done. simpl. destruct op; simpl in *; by rewrite Eb.
Qed.

Lemma decode_payload_encode seq op p : op_payload seq op p → decode_payload p = inr (seq, op).
Proof.
  intros (Hs & body & Hb & -> & _). unfold decode_payload.
  rewrite length_app, length_le_bytes. simpl (_ <? _)%nat.
  rewrite drop_app_length' by (by rewrite length_le_bytes).
  rewrite (decode_op_payload_encode op) by done. unfold slice. rewrite drop_0.
  rewrite take_app_length' by (by rewrite length_le_bytes). by rewrite le_val_u64.
Qed.

(** ** The walk *)
Context (crc32_u32 : ∀ bs, is_u32 (crc32 bs)).
#[local] Arguments frame : simpl never.

Lemma op_payload_u32 seq op p : op_payload seq op p → is_u32 (len p).
Proof. by intros (_ & _ & _ & _ & ?). Qed.

(** One frame of an acked statement is consumed whole. *)
Lemma walk_step fuel data off ge fs seq op p rest :
  drop off data = frame crc32 p ++ rest → op_payload seq op p →
  walk_frames (S fuel) data off ge fs =
  walk_frames fuel data (off + length (frame crc32 p)) (off + length (frame crc32 p))
    (fs ++ [(seq, op)]).
Proof.
  intros Hd Hp.
  assert (length data - off = 8 + length p + length rest)%nat as Hlen.
  { rewrite <-length_drop, Hd, length_app, length_frame. lia. }
  assert (∀ a b, slice (off + a) (off + b) data = slice a b (frame crc32 p ++ rest)) as Hsl.
  { intros a b. unfold slice. rewrite <-Hd, drop_drop. f_equal. lia. }
  cbn [walk_frames].
  destruct (off <? length data)%nat eqn:E; bool_prop; [|lia].
  destruct (_ <? 8)%nat eqn:E2; bool_prop; [lia|].
  assert (slice off (off + 4) data = u32_le (len p)) as ->
    by (rewrite <-(Nat.add_0_r off) at 1; rewrite Hsl; done).
  assert (slice (off + 4) (off + 8) data = u32_le (crc32 p)) as -> by (rewrite Hsl; done).
  rewrite !le_val_u32 by eauto using op_payload_u32.
  destruct (_ <? len p) eqn:E3; bool_prop; [lia|]. rewrite Nat2N.id.
  replace (off + 8 + length p)%nat with (off + (8 + length p))%nat by lia. rewrite Hsl.
  assert (slice 8 (8 + length p) (frame crc32 p ++ rest) = p) as ->.
  { unfold slice. replace (8 + length p - 8)%nat with (length p) by lia.
    simpl. apply take_app_length. }
  rewrite N.eqb_refl. cbn [negb]. rewrite (decode_payload_encode seq op) by done.
  by rewrite length_frame.
Qed.

(** The frames of a segment: what it holds and the bytes. *)
Definition holds (fs : list (N * TailOp)) (pls : list (list byte)) : Prop :=
  Forall2 (λ f p, op_payload (fst f) (snd f) p) fs pls.

Lemma walk_prefix fs pls fuel data off acc rest :
  holds fs pls → drop off data = frames crc32 pls ++ rest → (length data - off < fuel)%nat →
  ∃ fuel', (length rest < fuel')%nat ∧
  walk_frames fuel data off off acc =
  walk_frames fuel' data (off + length (frames crc32 pls)) (off + length (frames crc32 pls)) (acc ++ fs).
Proof.
  intros Hh. revert fuel off acc. induction Hh as [|[seq op] p fs pls Hp Hh IH]; intros fuel off acc Hd Hf.
  - exists fuel. simpl in *. rewrite app_nil_r, Nat.add_0_r. split; [|done].
    rewrite <-Hd, length_drop. done.
  - cbn [fst snd] in Hp. rewrite frames_cons, <-app_assoc in Hd. destruct fuel as [|fuel]; [lia|].
    rewrite (walk_step _ _ _ _ _ _ _ _ _ Hd Hp).
    assert (length data - off = length (frame crc32 p ++ frames crc32 pls ++ rest))%nat as Hl
      by (rewrite <-Hd, length_drop; done).
    rewrite length_app, length_frame in Hl.
    destruct (IH fuel (off + length (frame crc32 p))%nat (acc ++ [(seq, op)]))
      as (fuel' & Hf' & ->); [|rewrite length_frame; lia|].
    { rewrite <-drop_drop, Hd. apply drop_app_length. }
    exists fuel'. split; [done|]. rewrite frames_cons, length_app, <-app_assoc.
    by rewrite !Nat.add_assoc.
Qed.

Lemma walk_all_prefix fs pls rest :
  holds fs pls →
  ∃ fuel, (length rest < fuel)%nat ∧
  walk_all (frames crc32 pls ++ rest) =
  default Abort (walk_frames fuel (frames crc32 pls ++ rest) (length (frames crc32 pls))
    (length (frames crc32 pls)) fs).
Proof.
  intros Hh. unfold walk_all.
  destruct (walk_prefix fs pls (S (length (frames crc32 pls ++ rest))) (frames crc32 pls ++ rest) 0 [] rest)
    as (fuel & Hf & ->); [done|done|lia|]. by exists fuel.
Qed.

(** Nothing behind the frames, or the beginning of one more. *)
Definition torn (junk : list byte) : Prop :=
  junk = [] ∨ ∃ p cut, len p ≤ u32_max ∧ (0 < cut < length (frame crc32 p))%nat ∧
    junk = take cut (frame crc32 p).

Lemma walk_all_torn fs pls junk :
  holds fs pls → torn junk →
  walk_all (frames crc32 pls ++ junk) =
  Walked fs (length (frames crc32 pls)) (bool_decide (junk ≠ [])).
Proof.
  intros Hh Ht. destruct (walk_all_prefix fs pls junk Hh) as (fuel & Hf & ->).
  destruct fuel as [|fuel]; [lia|]. cbn [walk_frames].
  destruct Ht as [->|(p & cut & Hp & Hcut & ->)].
  { rewrite app_nil_r, Nat.ltb_irrefl. done. }
  rewrite length_frame in Hcut. set (data := frames crc32 pls ++ take cut (frame crc32 p)).
  assert (length data = length (frames crc32 pls) + cut)%nat as Hlen.
  { unfold data. rewrite length_app, length_take, length_frame. lia. }
  rewrite bool_decide_eq_true_2.
  2: { intros Hn. apply (f_equal length) in Hn. rewrite length_take, length_frame in Hn. simpl in Hn. lia. }
  destruct (_ <? length data)%nat eqn:E1; bool_prop; [|lia].
  destruct (_ <? 8)%nat eqn:E2; [done|]. bool_prop.
  assert (slice (length (frames crc32 pls)) (length (frames crc32 pls) + 4) data = u32_le (len p)) as ->.
  { unfold slice, data. rewrite drop_app_length, Nat.add_sub_swap, Nat.sub_diag by lia.
    rewrite take_take, Nat.min_l by lia. done. }
  rewrite le_val_u32 by (unfold u32_max, u32_modulus in *; lia).
  destruct (_ <? len p) eqn:E3; [done|]. bool_prop. lia.
Qed.

(** Whatever follows whole frames, the walk has them (or aborts loudly). *)
Lemma walk_frames_acc fuel data off ge acc fs ge' b :
  walk_frames fuel data off ge acc = Some (Walked fs ge' b) → acc `prefix_of` fs.
Proof.
  revert off ge acc. induction fuel as [|fuel IH]; intros off ge acc Hw; [done|].
  cbn [walk_frames] in Hw. repeat case_match; simplify_eq; try done.
  apply IH in Hw. etrans; [|exact Hw]. by apply prefix_app_r.
Qed.

Lemma walk_all_incl fs pls rest fs' ge b :
  holds fs pls → walk_all (frames crc32 pls ++ rest) = Walked fs' ge b → fs `prefix_of` fs'.
Proof.
  intros Hh Hw. destruct (walk_all_prefix fs pls rest Hh) as (fuel & _ & E). rewrite E in Hw.
  destruct (walk_frames _ _ _ _ _) eqn:Ew; [|done]. simpl in Hw. subst. by eapply walk_frames_acc.
Qed.

(** ** [scan_segment] *)

Lemma scan_segment_Ok id_ d d' sc :
  scan_segment id_ d = (d', Ok sc) →
  ∃ data ge b, td_segs d !! id_ = Some data ∧
    walk_all (match read_poison_marker (td_marks d !! id_) with
              | Some pm => if pm_clamp pm <? len data then take (N.to_nat (pm_clamp pm)) data else data
              | None => data
              end) = Walked (sc_frames sc) ge b.
Proof.
  unfold scan_segment. intros Hs. apply st_bind_Ok in Hs as (data & d1 & Hd & Hs).
  injection Hd as <- Hd. apply ok_or_Ok in Hd. exists data.
  destruct (walk_all _) as [|fs ge b] eqn:Ew; [done|]. exists ge, b. split; [done|].
  apply st_bind_Ok in Hs as (u & d2 & _ & Hs). injection Hs as _ <-. done.
Qed.

(** A segment file as a crash leaves it: the frames, then junk that a poison
    marker at the frames' end hides, or a torn frame. *)
Definition crashed (d : tdir) (id_ : N) (fs : list (N * TailOp)) (junk : list byte)
    (hint : option N) : Prop :=
  ∃ pls, holds fs pls ∧ td_segs d !! id_ = Some (frames crc32 pls ++ junk) ∧
  (read_poison_marker (td_marks d !! id_) =
     Some {| pm_clamp := len (frames crc32 pls); pm_resume_seq := hint |} ∨
   read_poison_marker (td_marks d !! id_) = None ∧ hint = None ∧ torn junk).

(** The segment is left with its frames only. *)
Definition healed (d d' : tdir) (id_ : N) (fs : list (N * TailOp)) : Prop :=
  (∃ pls, holds fs pls ∧ td_segs d' !! id_ = Some (frames crc32 pls)) ∧ td_io d' = [] ∧
  ∀ j, j ≠ id_ → td_segs d' !! j = td_segs d !! j ∧ td_marks d' !! j = td_marks d !! j.

Lemma td_sys_ok ok fail d : td_io d = [] → td_sys ok fail d = (ok d, Ok tt).
Proof. intros Hio. unfold td_sys. destruct d as [segs marks io]. simpl in *. by subst. Qed.

(** A crashed segment replays exactly its frames: a torn last frame, or anything
    at all behind a poison marker's boundary, is discarded and cut off. *)
Lemma scan_segment_crashed d id_ fs junk hint :
  td_io d = [] → crashed d id_ fs junk hint →
  ∃ d', scan_segment id_ d = (d', Ok {| sc_frames := fs; sc_max_seq := fst <$> last fs;
    sc_hit_bad_frame := bool_decide (junk ≠ []); sc_resume_hint := hint |}) ∧
  healed d d' id_ fs ∧ (junk ≠ [] → td_marks d' !! id_ = None).
Proof.
  intros Hio (pls & Hh & Hseg & Hm). unfold scan_segment. rewrite Hseg.
  cbn [ok_or st_lift st_bind]. unfold st_bind at 1.
  assert (∃ data, walk_all data = Walked fs (length (frames crc32 pls)) (bool_decide (junk ≠ []) && bool_decide (read_poison_marker (td_marks d !! id_) = None)) ∧
    data = match read_poison_marker (td_marks d !! id_) with
           | Some pm => if pm_clamp pm <? len (frames crc32 pls ++ junk)
                        then take (N.to_nat (pm_clamp pm)) (frames crc32 pls ++ junk)
                        else frames crc32 pls ++ junk
           | None => frames crc32 pls ++ junk end) as (data & Hw & Hdata).
  { eexists; split; [|reflexivity]. destruct Hm as [->|(-> & _ & Ht)].
    - rewrite (bool_decide_eq_false_2 (Some _ = None)), andb_false_r by done. cbn [pm_clamp].
      rewrite length_app. destruct (_ <? _) eqn:E; bool_prop.
      + rewrite Nat2N.id, take_app_length. rewrite <-(app_nil_r (frames crc32 pls)) at 1.
        by rewrite (walk_all_torn fs) by (done || by left).
      + destruct junk; [|simpl in E; lia]. by rewrite (walk_all_torn fs) by (done || by left).
    - rewrite (bool_decide_eq_true_2 (None = None)), andb_true_r by done. by apply walk_all_torn. }
  rewrite <-Hdata, Hw. clear Hw Hdata data.
  assert (∀ b, b = bool_decide (junk ≠ []) →
    (bool_decide (junk ≠ []) && bool_decide (read_poison_marker (td_marks d !! id_) = None) ||
     match read_poison_marker (td_marks d !! id_) with
     | Some pm => pm_clamp pm <? len (frames crc32 pls ++ junk) | None => false end) = b ∧
    (read_poison_marker (td_marks d !! id_) ≫= pm_resume_seq) = hint) as Hb.
  { intros b ->. destruct Hm as [->|(-> & -> & _)].
    - split; [|done]. rewrite (bool_decide_eq_false_2 (Some _ = None)), andb_false_r by done.
      cbn [pm_clamp orb]. rewrite length_app. destruct junk; simpl.
      + apply N.ltb_ge. lia.
      + apply N.ltb_lt. lia.
    - split; [|done]. by rewrite (bool_decide_eq_true_2 (None = None)), andb_true_r, orb_false_r by done. }
  destruct (Hb _ eq_refl) as [-> ->]. clear Hb.
  destruct (decide (junk = [])) as [->|Hj].
  - rewrite bool_decide_eq_false_2 by auto. exists d. cbn.
    split; [done|]. split; [|done]. split; [|by auto]. exists pls. by rewrite app_nil_r in Hseg.
  - rewrite bool_decide_eq_true_2 by done. unfold st_bind, td_set_len, td_sync, ignore.
    rewrite !td_sys_ok by done. unfold td_remove_marker. cbn [id td_marks on_segs td_io].
    destruct (td_marks d !! id_) eqn:Em; [rewrite td_sys_ok by done|]; cbn [fst id];
      (eexists; split; [reflexivity|]; split; [split; [exists pls; split; [done|]|split; [done|]]|]).
    + cbn. rewrite lookup_alter_eq, Hseg. simpl. unfold resize_bytes.
      rewrite take_app_length, length_app. replace (_ - _)%nat with 0%nat by lia.
      by rewrite app_nil_r.
    + intros j Hne. cbn. by rewrite lookup_alter_ne, lookup_delete_ne by done.
    + intros _. cbn. apply lookup_delete_eq.
    + cbn. rewrite lookup_alter_eq, Hseg. simpl. unfold resize_bytes.
      rewrite take_app_length, length_app. replace (_ - _)%nat with 0%nat by lia.
      by rewrite app_nil_r.
    + intros j Hne. cbn. by rewrite lookup_alter_ne by done.
    + intros _. done.
Qed.

(** ** [scan_table] *)

(** A table's segments in order: number, frames, junk behind them, hint. *)
Abbreviation image := (N * list (N * TailOp) * list byte * option N)%type.
Definition im_id (i : image) : N := fst (fst (fst i)).
Definition im_frames (i : image) : list (N * TailOp) := snd (fst (fst i)).
Definition im_junk (i : image) : list byte := snd (fst i).
Definition im_hint (i : image) : option N := snd i.
Definition im_crashed (d : tdir) (i : image) : Prop :=
  crashed d (im_id i) (im_frames i) (im_junk i) (im_hint i).

(** Behind a segment with junk the numbering goes on where the marker's hint,
    or else the last frame, says. *)
Fixpoint linked (frames : list (N * TailOp)) (bad : bool) (hint : option N) (imgs : list image) : Prop :=
  match imgs with
  | [] => True
  | i :: imgs =>
    let bad' := bool_decide (im_junk i ≠ []) in
    if decide (im_frames i = []) then
      linked frames (if bad' then true else bad) (if bad' then im_hint i else hint) imgs
    else
      (bad = true → fst <$> List.hd_error (im_frames i) = expected_first hint frames) ∧
      linked (frames ++ im_frames i) bad'
        (if bad' then im_hint i else if bad then None else hint) imgs
  end.

Definition sealed_of (imgs : list image) : list SealedSegment :=
  omap (λ i, (λ f : N * TailOp, {| ss_id := im_id i; ss_max_seq := fst f |}) <$> last (im_frames i)) imgs.

Lemma crashed_frame d d' i :
  td_segs d' !! im_id i = td_segs d !! im_id i → td_marks d' !! im_id i = td_marks d !! im_id i →
  im_crashed d i → im_crashed d' i.
Proof. unfold im_crashed, crashed. by intros -> ->. Qed.

Lemma remove_with_marker_ok id_ d :
  td_io d = [] → ∃ d' r, remove_with_marker id_ d = (d', Ok r) ∧ td_io d' = [] ∧
    ∀ j, j ≠ id_ → td_segs d' !! j = td_segs d !! j ∧ td_marks d' !! j = td_marks d !! j.
Proof.
  intros Hio. unfold remove_with_marker, td_remove, td_remove_marker.
  destruct (td_segs d !! id_); [|by exists d, false].
  rewrite td_sys_ok by done. cbn. destruct (td_marks d !! id_).
  - rewrite td_sys_ok by done. eexists _, true. split; [done|]. split; [done|]. intros j Hj. cbn.
    by rewrite !lookup_delete_ne by done.
  - eexists _, true. split; [done|]. split; [done|]. intros j Hj. cbn.
    by rewrite !lookup_delete_ne by done.
Qed.

Lemma last_some {A} (l : list A) : l ≠ [] → ∃ x, last l = Some x.
Proof. destruct l using rev_ind; [done|]. intros _. rewrite last_snoc. eauto. Qed.

Lemma scan_loop_images imgs s d :
  td_io d = [] → NoDup (map im_id imgs) → Forall (im_crashed d) imgs →
  linked (st_frames s) (st_bad s) (st_hint s) imgs →
  ∃ d' s', scan_loop (map im_id imgs) s d = (d', Ok s') ∧
    st_frames s' = st_frames s ++ concat (map im_frames imgs) ∧
    st_sealed s' = st_sealed s ++ sealed_of imgs ∧
    (∀ j, j ∉ map im_id imgs → td_segs d' !! j = td_segs d !! j ∧ td_marks d' !! j = td_marks d !! j) ∧
    ∀ i, i ∈ imgs → im_frames i ≠ [] →
      ∃ pls, holds (im_frames i) pls ∧ td_segs d' !! im_id i = Some (frames crc32 pls).
Proof.
  revert s d. induction imgs as [|i imgs IH]; intros s d Hio Hnd Hall Hl.
  { exists d, s. cbn. rewrite !app_nil_r. split_and!; try done. intros i Hi. by apply not_elem_of_nil in Hi. }
  cbn [map] in Hnd. apply NoDup_cons in Hnd as [Hni Hnd]. apply Forall_cons in Hall as [Hi Hall].
  destruct (scan_segment_crashed d (im_id i) (im_frames i) (im_junk i) (im_hint i) Hio Hi)
    as (d1 & Hscan & (Hheal & Hio1 & Hfr) & _).
  assert (∀ d2, (∀ j, j ≠ im_id i → td_segs d2 !! j = td_segs d1 !! j ∧ td_marks d2 !! j = td_marks d1 !! j) →
    Forall (im_crashed d2) imgs) as Hall'.
  { intros d2 H2. rewrite Forall_forall in Hall |- *. intros k Hk.
    assert (im_id k ≠ im_id i) as Hne.
    { intros E. apply Hni. rewrite <-E. apply list_elem_of_In, in_map, list_elem_of_In, Hk. }
    destruct (H2 _ Hne) as [E1 E2], (Hfr _ Hne) as [E3 E4].
    apply (crashed_frame d); [congruence..|]. by apply Hall. }
  assert (∀ d2 s2, td_io d2 = [] →
    (∀ j, j ≠ im_id i → td_segs d2 !! j = td_segs d1 !! j ∧ td_marks d2 !! j = td_marks d1 !! j) →
    linked (st_frames s2) (st_bad s2) (st_hint s2) imgs →
    scan_step (im_id i) s d = (d2, Ok s2) →
    st_frames s2 = st_frames s ++ im_frames i →
    st_sealed s2 = st_sealed s ++ sealed_of [i] →
    (im_frames i ≠ [] → td_segs d2 !! im_id i = td_segs d1 !! im_id i) →
    ∃ d' s', scan_loop (map im_id (i :: imgs)) s d = (d', Ok s') ∧
    st_frames s' = st_frames s ++ concat (map im_frames (i :: imgs)) ∧
    st_sealed s' = st_sealed s ++ sealed_of (i :: imgs) ∧
    (∀ j, j ∉ map im_id (i :: imgs) → td_segs d' !! j = td_segs d !! j ∧ td_marks d' !! j = td_marks d !! j) ∧
    ∀ i', i' ∈ i :: imgs → im_frames i' ≠ [] →
      ∃ pls, holds (im_frames i') pls ∧ td_segs d' !! im_id i' = Some (frames crc32 pls)) as Hgo.
  { intros d2 s2 Hio2 H2 Hl2 Hstep Hf2 Hs2 Hself.
    destruct (IH s2 d2 Hio2 Hnd (Hall' d2 H2) Hl2) as (d' & s' & Hloop & Hf & Hs & Hrest & Hall2).
    exists d', s'. split_and!.
    - cbn [map scan_loop]. unfold st_bind. by rewrite Hstep.
    - rewrite Hf, Hf2. cbn [map concat]. by rewrite app_assoc.
    - rewrite Hs, Hs2. rewrite <-app_assoc. f_equal. unfold sealed_of.
      change (i :: imgs) with ([i] ++ imgs). by rewrite omap_app.
    - cbn [map]. intros j [Hj1 Hj2]%not_elem_of_cons. destruct (Hrest j Hj2) as [-> ->].
      destruct (H2 j Hj1) as [-> ->]. by apply Hfr.
    - intros i' [->|Hi']%elem_of_cons Hne; [|by apply Hall2].
      destruct (Hrest _ Hni) as [-> _]. rewrite Hself by done. exact Hheal. }
  cbn [linked] in Hl. unfold scan_step in Hgo. unfold st_bind in Hgo at 1. rewrite Hscan in Hgo.
  cbn [sc_max_seq sc_frames sc_hit_bad_frame sc_resume_hint] in Hgo.
  destruct (decide (im_frames i = [])) as [E|E].
  - rewrite E in Hgo. cbn [last fmap option_fmap option_map] in Hgo.
    destruct (remove_with_marker_ok (im_id i) d1 Hio1) as (d2 & r & Hr & Hio2 & Hfr2).
    eapply (Hgo d2); [done|done| |unfold st_bind, ignore; rewrite Hr; reflexivity| | |done].
    + destruct (bool_decide _); done.
    + rewrite app_nil_r. by destruct (bool_decide _).
    + unfold sealed_of. cbn. rewrite E. cbn. rewrite app_nil_r. by destruct (bool_decide _).
  - destruct (last_some _ E) as [[lseq lop] Hlast]. rewrite Hlast in Hgo. cbn [fmap option_fmap option_map fst] in Hgo.
    destruct Hl as [Hcont Hl].
    assert (st_bad s && (bool_decide (expected_first (st_hint s) (st_frames s) = None) ||
      negb (bool_decide (fst <$> List.hd_error (im_frames i) = expected_first (st_hint s) (st_frames s)))) = false) as Hc.
    { destruct (st_bad s); [|done]. specialize (Hcont eq_refl). rewrite <-Hcont.
      destruct (im_frames i) as [|f l]; [done|]. rewrite (bool_decide_eq_false_2 (_ = None)) by done.
      by rewrite bool_decide_eq_true_2 by done. }
    cbn [fmap option_fmap option_map] in Hc. rewrite Hc in Hgo.
    eapply (Hgo d1); [done|done| |reflexivity|done| |done].
    + exact Hl.
    + unfold sealed_of. cbn. by rewrite Hlast.
Qed.

(** ** Properties *)

(** C26: the frame of a statement is self-describing: the payload of an encoded
    frame decodes to the sequence, the kind and the batches it was built from;
    and a payload under any other format version is reported as such, apart
    from damage. *)
Theorem tail_frame_roundtrip seq kind batches f :
  is_u64 seq → encode_frame seq kind batches = Ok f →
  (∃ p op, f = frame crc32 p ∧ op_kind op = kind ∧ op_batches op = batches ∧
     decode_payload p = inr (seq, op)) ∧
  ∀ body v rest, body = v :: rest → v ≠ TAIL_PAYLOAD_FORMAT →
    decode_payload (u64_le seq ++ body) = inl (TailFormatError v).
Proof.
  intros Hs Hf. split.
  - destruct (encode_frame_payload seq kind batches f Hs Hf) as (op & p & Hk & Hb & Hp & ->).
    exists p, op. split_and!; [done..|]. by apply decode_payload_encode.
  - intros body v rest -> Hv. unfold decode_payload.
    rewrite length_app, length_le_bytes. simpl (_ <? _)%nat.
    rewrite drop_app_length' by (by rewrite length_le_bytes). unfold decode_op_payload.
    by rewrite decide_True.
Qed.

End Payload.
Arguments TailOp : clear implicits.
