(* ===== verification/Keyed.v ===== *)
(** * Keys of rows (src/icegres/src/keyed.rs, [align_batch] of overwrite.rs)

    How rows get their primary-key bytes, how rows with given keys are hidden,
    and the SQL literals of the flusher's delete.  Arrow's batches are the
    interface [Columnar]; what the code relies on is [ColumnarLaws]. *)
From S2P Require Import Prelude Text TailNames.
#[local] Open Scope N_scope.

(** ** Text helpers *)

(** [u8::to_ascii_lowercase], [str::eq_ignore_ascii_case] *)
Definition ascii_lower (b : byte) : byte :=
  if (65 <=? Byte.to_N b) && (Byte.to_N b <=? 90) then byte_of_N (Byte.to_N b + 32) else b.
Definition ascii_upper (b : byte) : byte :=
  if (97 <=? Byte.to_N b) && (Byte.to_N b <=? 122) then byte_of_N (Byte.to_N b - 32) else b.
Definition eq_ignore_ascii_case (a b : list byte) : bool :=
  bool_decide (map ascii_lower a = map ascii_lower b).

(** [s.replace(c, "cc")] *)
Fixpoint doubled (c : byte) (s : list byte) : list byte :=
  match s with
  | [] => []
  | b :: s => if decide (b = c) then c :: c :: doubled c s else b :: doubled c s
  end.

(** [join]: the parts with the separator between them *)
Fixpoint join_sep (sep : list byte) (parts : list (list byte)) : list byte :=
  match parts with
  | [] => []
  | [p] => p
  | p :: parts => p ++ sep ++ join_sep sep parts
  end.

Definition QUOTE : byte := Byte.x27.
Definition DQUOTE : byte := Byte.x22.

(** [overwrite::quote_ident] *)
Definition quote_ident (ident : list byte) : list byte := [DQUOTE] ++ doubled DQUOTE ident ++ [DQUOTE].

(** [property_is_true] *)
Definition TAIL_UPSERT_PROPERTY : string := "icegres.tail-upsert".
Definition property_is_true (raw : option (list byte)) : bool :=
  match raw with Some v => eq_ignore_ascii_case (trim v) (str_bytes "true") | None => false end.

Record KeyCol := { kc_name : list byte; kc_quoted : bool }.
Definition key_col_matches (col : KeyCol) (pk : list byte) : bool :=
  if kc_quoted col then bool_decide (kc_name col = pk) else eq_ignore_ascii_case (kc_name col) pk.

(** ** Arrow *)

(** The variants of arrow's [DataType] the code names. *)
Inductive DataType :=
  | Int8 | Int16 | Int32 | Int64 | Utf8 | LargeUtf8 | Boolean | Date32 | OtherType (name : string).
#[export] Instance DataType_eq_dec : EqDecision DataType.
Proof. solve_decision. Defined.

Record Field := { f_name : list byte; f_type : DataType; f_nullable : bool }.
#[export] Instance Field_eq_dec : EqDecision Field.
Proof. solve_decision. Defined.
Abbreviation Schema := (list Field).

Class Columnar (RecordBatch ArrayRef : Type) := {
  schema_of : RecordBatch → Schema;
  column : RecordBatch → nat → ArrayRef;
  num_rows : RecordBatch → nat;
  slice_row : RecordBatch → nat → RecordBatch;                (* slice(row, 1) *)
  data_type : ArrayRef → DataType;
  is_null : ArrayRef → nat → bool;
  cast_with_options : ArrayRef → DataType → result ArrayRef;  (* safe: false *)
  array_value_to_string : ArrayRef → nat → result (list byte);
  try_new : Schema → list ArrayRef → result RecordBatch;
  filter_record_batch : RecordBatch → list bool → result RecordBatch;
  concat_batches : list RecordBatch → result RecordBatch;
  project : RecordBatch → list nat → result RecordBatch;
  convert_columns : list ArrayRef → result (list (list byte)); (* arrow-row *)
}.

(** The entries of a list whose mask bit is set. *)
Definition masked {A} (mask : list bool) (l : list A) : list A :=
  map snd (List.filter fst (zip mask l)).

(** A batch is a list of rows; the row encoding of some columns is a function of
    the row. *)
Class ColumnarLaws (RecordBatch ArrayRef Row : Type) `{Columnar RecordBatch ArrayRef} := {
  rows_of : RecordBatch → list Row;
  row_key : list nat → Row → list byte;
  num_rows_of b : num_rows b = length (rows_of b);
  slice_row_of b i r : rows_of b !! i = Some r → rows_of (slice_row b i) = [r];
  slice_schema b i : schema_of (slice_row b i) = schema_of b;
  filter_of b mask b' : length mask = num_rows b → filter_record_batch b mask = Ok b' →
    rows_of b' = masked mask (rows_of b) ∧ schema_of b' = schema_of b;
  convert_of b idx ks : convert_columns (map (column b) idx) = Ok ks →
    ks = map (row_key idx) (rows_of b);
  try_new_schema s cols b : try_new s cols = Ok b → schema_of b = s;
}.

Section Keyed.
Context {RecordBatch ArrayRef : Type} `{Columnar RecordBatch ArrayRef}.

Definition num_columns (b : RecordBatch) : nat := length (schema_of b).

Definition key_type_supported (dt : DataType) : bool :=
  match dt with OtherType _ => false | _ => true end.

Fixpoint position {A} (p : A → bool) (l : list A) : option nat :=
  match l with
  | [] => None
  | a :: l => if p a then Some O else S <$> position p l
  end.

(** [pk_indices] *)
Definition pk_indices (schema : Schema) (pk_cols : list (list byte)) : result (list nat) :=
  map_result (λ c, ok_or (position (λ f, eq_ignore_ascii_case (f_name f) c) schema)
                     "PK column missing from batch schema") pk_cols.

(** [encode_batch_keys], [encode_key_columns] *)
Definition encode_key_columns (cols : list ArrayRef) : result (list (list byte)) := convert_columns cols.
Definition encode_batch_keys (batch : RecordBatch) (pk_cols : list (list byte)) : result (list (list byte)) :=
  indices ← pk_indices (schema_of batch) pk_cols;
  encode_key_columns (map (column batch) indices).

(** [suppress_batch] *)
Definition suppress_batch (batch : RecordBatch) (pk_cols : list (list byte)) (keys : gset (list byte))
    : result RecordBatch :=
  if bool_decide (keys = ∅) || (num_rows batch =? 0)%nat then Ok batch else
  encoded ← encode_batch_keys batch pk_cols;
  filter_record_batch batch (map (λ k, negb (bool_decide (k ∈ keys))) encoded).

(** [suppress_by_indices], the body of [KeySuppressExec] *)
Definition suppress_by_indices (batch : RecordBatch) (indices : list nat) (keys : gset (list byte))
    (output_indices : option (list nat)) : result RecordBatch :=
  encoded ← encode_key_columns (map (column batch) indices);
  filtered ← filter_record_batch batch (map (λ k, negb (bool_decide (k ∈ keys))) encoded);
  match output_indices with Some idx => project filtered idx | None => Ok filtered end.

(** [project_key_rows] *)
Definition project_key_rows (batch : RecordBatch) (pk_cols : list (list byte)) : result RecordBatch :=
  indices ← pk_indices (schema_of batch) pk_cols;
  try_new (omap (λ i, schema_of batch !! i) indices) (map (column batch) indices).

(** One column of [align_batch] or [align_key_batch], cast to its target. *)
Definition cast_to (field : Field) (src : ArrayRef) : result ArrayRef :=
  if decide (data_type src = f_type field) then Ok src else cast_with_options src (f_type field).

(** [overwrite::align_batch] *)
Definition align_column (batch : RecordBatch) (i : nat) (field : Field) : result ArrayRef :=
  match schema_of batch !! i with
  | Some src =>
    if negb (eq_ignore_ascii_case (f_name src) (f_name field))
    then Err "row batch column has another name" else cast_to field (column batch i)
  | None => Err "row batch column has another name"
  end.
Definition align_batch (batch : RecordBatch) (target : Schema) : result RecordBatch :=
  if negb (num_columns batch =? length target)%nat
  then Err "row batch has another number of columns than the table" else
  columns ← map_result (λ '(i, field), align_column batch i field) (zip (seq 0 (length target)) target);
  try_new target columns.

(** [align_key_batch] *)
Definition align_key_batch (batch : RecordBatch) (canonical : Schema) (pk_cols : list (list byte))
    : result RecordBatch :=
  can_idx ← pk_indices canonical pk_cols;
  src_idx ← pk_indices (schema_of batch) pk_cols;
  let fields := omap (λ i, canonical !! i) can_idx in
  cols ← map_result (λ '(field, si), cast_to field (column batch si)) (zip fields src_idx);
  try_new fields cols.

(** ** Literals *)

(** [render_sql_literal] *)
Definition render_sql_literal (col : ArrayRef) (row : nat) : result (list byte) :=
  if is_null col row then Err "keyed op holds a NULL key component" else
  text ← array_value_to_string col row;
  match data_type col with
  | Int8 | Int16 | Int32 | Int64 => Ok text
  | Boolean => Ok (map ascii_upper text)
  | Utf8 | LargeUtf8 => Ok ([QUOTE] ++ doubled QUOTE text ++ [QUOTE])
  | Date32 => Ok (str_bytes "DATE '" ++ text ++ [QUOTE])
  | OtherType _ => Err "unsupported keyed PK literal type"
  end.

(** [render_keys_predicate] *)
Definition render_row (keys : RecordBatch) (names : list (list byte)) (r : nat) : result (list byte) :=
  conj ← map_result (λ '(i, name), lit ← render_sql_literal (column keys i) r;
                                   Ok (name ++ str_bytes " = " ++ lit))
           (zip (seq 0 (num_columns keys)) names);
  Ok (str_bytes "(" ++ join_sep (str_bytes " AND ") conj ++ str_bytes ")").
Definition render_keys_predicate (keys : RecordBatch) : result (list byte) :=
  _ ← ensure (0 <? num_rows keys)%nat "empty keyed predicate";
  let names := map (λ f, quote_ident (f_name f)) (schema_of keys) in
  if (num_columns keys =? 1)%nat then
    vals ← map_result (render_sql_literal (column keys 0)) (seq 0 (num_rows keys));
    Ok (default [] (names !! 0%nat) ++ str_bytes " IN (" ++ join_sep (str_bytes ", ") vals ++ str_bytes ")")
  else
    rows ← map_result (render_row keys names) (seq 0 (num_rows keys));
    Ok (str_bytes "(" ++ join_sep (str_bytes " OR ") rows ++ str_bytes ")").
End Keyed.

(** The rows of a list of batches. *)
Section BatchRows.
Context {RecordBatch ArrayRef Row : Type} `{ColumnarLaws RecordBatch ArrayRef Row}.
Definition batch_rows (bs : list RecordBatch) : list Row := flat_map rows_of bs.
Lemma batch_rows_app a b : batch_rows (a ++ b) = batch_rows a ++ batch_rows b.
Proof. apply flat_map_app. Qed.
Lemma batch_rows_cons b bs : batch_rows (b :: bs) = rows_of b ++ batch_rows bs.
Proof. done. Qed.
End BatchRows.
