(* ===== verification/TableOps.v ===== *)
(** * Operations on a table (the data of src/icegres/src/overwrite.rs)

    What the write buffer, the transactions and the engine hand each other:
    buffered operations and the outcome of a commit. *)
From S2P Require Import Prelude.

Definition MAX_COMMIT_ATTEMPTS : nat := 3.

Inductive DmlKind := DmlDelete | DmlUpdate (assignments : list (list byte * list byte)).
Record DmlStatement := {
  dml_kind : DmlKind; dml_namespace : list byte; dml_table : list byte;
  dml_alias : option (list byte); dml_predicate : option (list byte);
}.
Inductive TableOp {RecordBatch DataFile} :=
  | OpAppend (batches : list RecordBatch) | OpAppendFiles (files : list DataFile) | OpDml (stmt : DmlStatement).
Arguments TableOp : clear implicits.
Inductive CommitOutcome := Committed | Conflict (msg : string).
