(* ===== verification/Buffer.v ===== *)
(** * The write buffer (src/icegres/src/buffer.rs)

    The in-memory window of acked rows over the durable tail: per-table pending
    batches, the keyed map, the generations handed to a commit, and the union
    overlay reads see.  Each operation is one critical section of the buffer
    lock; what runs between two of them is the environment's. *)
From stdpp Require Import sorting.
From S2P Require Import Prelude Text TailNames Tail Keyed.
#[local] Open Scope N_scope.

Definition DEFAULT_MAX_ROWS : nat := N.to_nat 50000.
Definition FLUSHED_GC : N := 30000000000.  (* nanoseconds *)

(** [ReplayedTable] of tail.rs *)
Record ReplayedTable {RecordBatch} := {
  rt_ident : TableIdent;
  rt_frames : list (N * TailOp RecordBatch);
  rt_sidecar : option N;
}.
Arguments ReplayedTable : clear implicits.

(** The trait [TailStore]: a staged append gives the sequence; its durability
    wait is an event of its own. *)
Class TailStore (T RecordBatch : Type) := {
  ts_append_staged : TableIdent → TailOpKind → list RecordBatch → stres T N;
  ts_rotate : TableIdent → stres T unit;
  ts_replay : stres T (list (ReplayedTable RecordBatch));
  ts_truncate : TableIdent → N → stres T unit;
  ts_ensure_seq_floor : TableIdent → N → stres T unit;
  ts_record_watermark : TableIdent → N → stres T unit;
  ts_watermark_property : T → string;
}.

Section Buffer.
Context {RecordBatch ArrayRef : Type} `{Columnar RecordBatch ArrayRef}.

(** ** Data *)
Inductive KeyedKind := KUpsertRow (row : RecordBatch) | KDeleteRow.
Record KeyedOp := { ko_key_row : RecordBatch; ko_kind : KeyedKind; ko_seq : option N }.
Record KeyedEntry := { ke_stamp : N; ke_op : KeyedOp }.
Record KeyedState := {
  ks_pk_cols : list (list byte);
  ks_entries : gmap (list byte) KeyedEntry;
  ks_next_stamp : N;
  ks_claimed_below : N;
}.
Inductive GenCommit := SnapshotId (s : Z) | CoveredByWatermark (mark : N).
#[export] Instance GenCommit_eq_dec : EqDecision GenCommit.
Proof. solve_decision. Defined.
Abbreviation KeyedSnap := (list (list byte * N * KeyedOp)).
Record FlushedGen := {
  fg_commit : GenCommit;
  fg_batches : list (option N * RecordBatch);
  fg_keyed : KeyedSnap;
  fg_committed_at : N;
  fg_observed : bool;
}.
Record PendingBatch := { pb_id : N; pb_claimed : bool; pb_seq : option N; pb_batch : RecordBatch }.
Record TableBuf := {
  tb_schema : Schema;
  pending : list PendingBatch;
  pending_rows : nat;
  next_batch_id : N;
  keyed : option KeyedState;
  flushed : list FlushedGen;
  tail_high : option N;
  undurable : gset N;
}.
Record OverlaySuppress := { os_pk_cols : list (list byte); os_keys : gset (list byte) }.
Record Overlay := { ov_schema : Schema; ov_batches : list RecordBatch; ov_suppress : option OverlaySuppress }.
Inductive TailEventKind := EAppend | EUpsert | EDelete | EWatermark.
Record TailItem := { ti_seq : N; ti_kind : TailEventKind; ti_batch : RecordBatch }.
Record TailWindowSnapshot := {
  tw_schema : Schema; tw_pk_cols : list (list byte); tw_high : N; tw_items : list TailItem;
}.
Record TailEvent := {
  te_ident : TableIdent; te_seq : N; te_kind : TailEventKind; te_batches : list RecordBatch;
}.
Record PendingSnapshot := {
  sn_batches : list RecordBatch; sn_n_batches : nat; sn_keyed : KeyedSnap; sn_tail_mark : option N;
}.
Record RoutedStmt := {
  ro_batch_ids : list N;
  ro_keyed : list (list byte * N * option KeyedEntry);
}.

Definition empty_buf (schema : Schema) : TableBuf :=
  {| tb_schema := schema; pending := []; pending_rows := 0; next_batch_id := 1; keyed := None;
     flushed := []; tail_high := None; undurable := ∅ |}.
Definition is_empty (s : PendingSnapshot) : bool :=
  (sn_n_batches s =? 0)%nat && match sn_keyed s with [] => true | _ => false end.

Definition with_keyed (k : option KeyedState) (t : TableBuf) : TableBuf :=
  {| tb_schema := tb_schema t; pending := pending t; pending_rows := pending_rows t;
     next_batch_id := next_batch_id t; keyed := k; flushed := flushed t;
     tail_high := tail_high t; undurable := undurable t |}.
Definition with_pending (p : list PendingBatch) (rows : nat) (t : TableBuf) : TableBuf :=
  {| tb_schema := tb_schema t; pending := p; pending_rows := rows;
     next_batch_id := next_batch_id t; keyed := keyed t; flushed := flushed t;
     tail_high := tail_high t; undurable := undurable t |}.
Definition with_next_id (id : N) (t : TableBuf) : TableBuf :=
  {| tb_schema := tb_schema t; pending := pending t; pending_rows := pending_rows t;
     next_batch_id := id; keyed := keyed t; flushed := flushed t;
     tail_high := tail_high t; undurable := undurable t |}.
Definition with_flushed (f : list FlushedGen) (t : TableBuf) : TableBuf :=
  {| tb_schema := tb_schema t; pending := pending t; pending_rows := pending_rows t;
     next_batch_id := next_batch_id t; keyed := keyed t; flushed := f;
     tail_high := tail_high t; undurable := undurable t |}.
Definition with_tail_marks (high : option N) (u : gset N) (t : TableBuf) : TableBuf :=
  {| tb_schema := tb_schema t; pending := pending t; pending_rows := pending_rows t;
     next_batch_id := next_batch_id t; keyed := keyed t; flushed := flushed t;
     tail_high := high; undurable := u |}.
Definition with_entries (m : gmap (list byte) KeyedEntry) (k : KeyedState) : KeyedState :=
  {| ks_pk_cols := ks_pk_cols k; ks_entries := m; ks_next_stamp := ks_next_stamp k;
     ks_claimed_below := ks_claimed_below k |}.
Definition rows_total (bs : list RecordBatch) : nat := sum_list (map num_rows bs).

(** ** Routing *)

(** [push_pending] *)
Definition push_pending (batch : RecordBatch) (seq : option N) (t : TableBuf) (ro : RoutedStmt)
    : TableBuf * RoutedStmt :=
  let id := next_batch_id t in
  (with_next_id (wadd id 1)
     (with_pending (pending t ++ [{| pb_id := id; pb_claimed := false; pb_seq := seq; pb_batch := batch |}])
        (pending_rows t + num_rows batch) t),
   {| ro_batch_ids := ro_batch_ids ro ++ [id]; ro_keyed := ro_keyed ro |}).

(** The loop of [route_appends] over a batch's rows whose key has an entry. *)
Fixpoint supersede (batch key_rows : RecordBatch) (seq : option N) (hits : list (nat * list byte))
    (k : KeyedState) (ro : RoutedStmt) : KeyedState * RoutedStmt :=
  match hits with
  | [] => (k, ro)
  | (row, key) :: hits =>
    let stamp := ks_next_stamp k in
    let op := {| ko_key_row := slice_row key_rows row; ko_kind := KUpsertRow (slice_row batch row);
                 ko_seq := seq |} in
    supersede batch key_rows seq hits
      {| ks_pk_cols := ks_pk_cols k;
         ks_entries := <[key := {| ke_stamp := stamp; ke_op := op |}]> (ks_entries k);
         ks_next_stamp := wadd stamp 1; ks_claimed_below := ks_claimed_below k |}
      {| ro_batch_ids := ro_batch_ids ro;
         ro_keyed := ro_keyed ro ++ [(key, stamp, ks_entries k !! key)] |}
  end.

(** One batch of [route_appends]; [k] is the table's keyed state. *)
Definition route_batch (seq : option N) (batch : RecordBatch) (ro : RoutedStmt) (k : KeyedState)
    : stres TableBuf RoutedStmt := λ t,
  if (num_rows batch =? 0)%nat then (t, Ok ro) else
  match encode_batch_keys batch (ks_pk_cols k) with
  | Err e => (t, Err e)
  | Ok keys =>
    let hit := map (λ key, bool_decide (is_Some (ks_entries k !! key))) keys in
    if forallb negb hit then let '(t, ro) := push_pending batch seq t ro in (t, Ok ro) else
    match project_key_rows batch (ks_pk_cols k) with
    | Err e => (t, Err e)
    | Ok key_rows =>
      let hits := masked hit (zip (List.seq 0 (length keys)) keys) in
      let '(k, ro) := supersede batch key_rows seq hits k ro in
      let t := with_keyed (Some k) t in
      if forallb id hit then (t, Ok ro) else
      match filter_record_batch batch (map negb hit) with
      | Err e => (t, Err e)
      | Ok filtered => let '(t, ro) := push_pending filtered seq t ro in (t, Ok ro)
      end
    end
  end.
(** [route_appends] *)
Fixpoint route_loop (seq : option N) (aligned : list RecordBatch) (ro : RoutedStmt)
    : stres TableBuf RoutedStmt := λ t,
  match aligned with
  | [] => (t, Ok ro)
  | batch :: aligned =>
    match keyed t with
    | Some k => (let* ro := route_batch seq batch ro k in route_loop seq aligned ro)%stres t
    | None => (t, Err "checked above")
    end
  end.
Fixpoint push_all (seq : option N) (aligned : list RecordBatch) (t : TableBuf) (ro : RoutedStmt)
    : TableBuf * RoutedStmt :=
  match aligned with
  | [] => (t, ro)
  | batch :: aligned => let '(t, ro) := push_pending batch seq t ro in push_all seq aligned t ro
  end.
Definition no_route : RoutedStmt := {| ro_batch_ids := []; ro_keyed := [] |}.
Definition no_entries (t : TableBuf) : bool :=
  match keyed t with Some k => bool_decide (ks_entries k = ∅) | None => true end.
Definition route_appends (seq : option N) (aligned : list RecordBatch) : stres TableBuf RoutedStmt := λ t,
  if no_entries t
  then let '(t, ro) := push_all seq aligned t no_route in (t, Ok ro)
  else route_loop seq aligned no_route t.

(** ** Statements *)

(** A statement after its first critical section: what its ack waits for, what
    it routed, and what it publishes once durable. *)
Record Staged := {
  sg_wait : option N;
  sg_routed : RoutedStmt;
  sg_rows : nat;
  sg_pending_rows : nat;
  sg_published : option (N * list RecordBatch);
}.

Section WithTail.
Context {T : Type} `{TailStore T RecordBatch}.

(** [append] on the table's entry, up to the drop of the lock. *)
Definition stage_frame (ident : TableIdent) (kind : TailOpKind) (frame : list RecordBatch)
    (tail : option T) (t : TableBuf) : option T * TableBuf * result (option N) :=
  match tail with
  | Some ts =>
    match ts_append_staged ident kind frame ts with
    | (ts, Ok seq) => (Some ts, with_tail_marks (Some seq) ({[seq]} ∪ undurable t) t, Ok (Some seq))
    | (ts, Err e) => (Some ts, t, Err e)
    end
  | None => (None, t, Ok None)
  end.
Definition append_entry (ident : TableIdent) (batches : list RecordBatch) (tail : option T)
    (replay_seq : option N) (t : TableBuf) : option T * TableBuf * result Staged :=
  match map_result (λ b, align_batch b (tb_schema t)) batches with
  | Err e => (tail, t, Err e)
  | Ok aligned =>
    let '(tail, t, r) :=
      match aligned with
      | [] => (tail, t, Ok None)
      | _ => stage_frame ident KAppend aligned tail t
      end in
    match r with
    | Err e => (tail, t, Err e)
    | Ok staged =>
      let stmt_seq := match staged with Some q => Some q | None => replay_seq end in
      match route_appends stmt_seq aligned t with
      | (t, Err e) => (tail, t, Err e)
      | (t, Ok routed) =>
        (tail, t, Ok {| sg_wait := staged; sg_routed := routed; sg_rows := rows_total aligned;
                        sg_pending_rows := pending_rows t;
                        sg_published := (λ q, (q, aligned)) <$> stmt_seq |})
      end
    end
  end.

(** [keyed_write] on the table's entry, up to the drop of the lock. *)
Definition new_keyed (pk_cols : list (list byte)) : KeyedState :=
  {| ks_pk_cols := pk_cols; ks_entries := ∅; ks_next_stamp := 1; ks_claimed_below := 1 |}.
Definition old_keys_buffered (t : TableBuf) : bool :=
  match keyed t with Some k => negb (bool_decide (ks_entries k = ∅)) | None => false end ||
  existsb (λ g, match fg_keyed g with [] => false | _ => true end) (flushed t).
Definition keyed_entry (ident : TableIdent) (pk_cols : list (list byte)) (key : list byte) (op : KeyedOp)
    (tail : option T) (t : TableBuf) : option T * TableBuf * result (Staged * nat) :=
  let t := match keyed t with Some _ => t | None => with_keyed (Some (new_keyed pk_cols)) t end in
  let k := default (new_keyed pk_cols) (keyed t) in
  if negb (bool_decide (ks_pk_cols k = pk_cols)) && old_keys_buffered t
  then (tail, t, Err "the primary key changed while keyed tail ops were pending") else
  let k := {| ks_pk_cols := pk_cols; ks_entries := ks_entries k; ks_next_stamp := ks_next_stamp k;
              ks_claimed_below := ks_claimed_below k |} in
  let t := with_keyed (Some k) t in
  let '(kind, frame) := match ko_kind op with
                        | KUpsertRow row => (KUpsert, row)
                        | KDeleteRow => (KDelete, ko_key_row op)
                        end in
  let '(tail, t, r) := stage_frame ident kind [frame] tail t in
  match r with
  | Err e => (tail, t, Err e)
  | Ok staged =>
    let op := {| ko_key_row := ko_key_row op; ko_kind := ko_kind op;
                 ko_seq := match staged with Some q => Some q | None => ko_seq op end |} in
    let stamp := ks_next_stamp k in
    let displaced := ks_entries k !! key in
    let m := <[key := {| ke_stamp := stamp; ke_op := op |}]> (ks_entries k) in
    let t := with_keyed (Some {| ks_pk_cols := ks_pk_cols k; ks_entries := m;
                                 ks_next_stamp := wadd stamp 1; ks_claimed_below := ks_claimed_below k |}) t in
    (tail, t, Ok ({| sg_wait := staged;
                     sg_routed := {| ro_batch_ids := []; ro_keyed := [(key, stamp, displaced)] |};
                     sg_rows := 1; sg_pending_rows := pending_rows t;
                     sg_published := (λ q, (q, [frame])) <$> ko_seq op |}, size m))
  end.
End WithTail.

(** [note_durable], [note_tail_high] *)
Definition note_durable (seq : N) (t : TableBuf) : TableBuf :=
  with_tail_marks (tail_high t) (undurable t ∖ {[seq]}) t.
Definition note_tail_high (seq : N) (t : TableBuf) : TableBuf :=
  with_tail_marks (Some (match tail_high t with Some h => N.max h seq | None => seq end)) (undurable t) t.

(** [keyed_current] *)
Definition keyed_current (key : list byte) (pk_cols : list (list byte)) (t : TableBuf)
    : option (option RecordBatch) :=
  k ← keyed t;
  if negb (bool_decide (ks_pk_cols k = pk_cols)) then None else
  (λ e, match ko_kind (ke_op e) with KUpsertRow row => Some row | KDeleteRow => None end)
    <$> ks_entries k !! key.

(** [unroute_failed]: whether a flush snapshot claimed any of it, and the exact
    removal. *)
Definition batches_claimed (ids : list N) (t : TableBuf) : bool :=
  negb (length (List.filter (λ p, bool_decide (pb_id p ∈ ids) && negb (pb_claimed p)) (pending t)) =?
        size (list_to_set (C:=gset N) ids))%nat.
Definition keyed_claimed (routed : list (list byte * N * option KeyedEntry)) (t : TableBuf) : bool :=
  existsb (λ '(key, stamp, _),
    match keyed t with
    | None => true
    | Some k => (stamp <? ks_claimed_below k) || bool_decide (ks_entries k !! key = None)
    end) routed.
Fixpoint unroute_keyed (routed : list (list byte * N * option KeyedEntry)) (m : gmap (list byte) KeyedEntry)
    : gmap (list byte) KeyedEntry :=
  match routed with
  | [] => m
  | (key, stamp, displaced) :: routed =>
    unroute_keyed routed
      match m !! key with
      | Some e => if ke_stamp e =? stamp
                  then match displaced with Some prev => <[key := prev]> m | None => delete key m end
                  else m
      | None => m
      end
  end.
Definition unroute_failed (seq : N) (routed : RoutedStmt) (t : TableBuf) : TableBuf :=
  let ids := ro_batch_ids routed in
  if batches_claimed ids t || keyed_claimed (ro_keyed routed) t then t else
  let gone p := bool_decide (pb_id p ∈ ids) in
  let removed := rows_total (map pb_batch (List.filter gone (pending t))) in
  let t := with_tail_marks (tail_high t) (undurable t ∖ {[seq]}) t in
  let t := with_pending (List.filter (λ p, negb (gone p)) (pending t)) (pending_rows t - removed) t in
  match keyed t with
  | Some k => with_keyed (Some (with_entries (unroute_keyed (ro_keyed routed) (ks_entries k)) k)) t
  | None => t
  end.

(** ** Flush bookkeeping *)
Definition by_stamp (a b : list byte * N * KeyedOp) : Prop := snd (fst a) ≤ snd (fst b).
#[export] Instance by_stamp_dec a b : Decision (by_stamp a b).
Proof. unfold by_stamp. apply _. Defined.

(** [snapshot_pending] *)
Definition keyed_list (k : KeyedState) : KeyedSnap :=
  map (λ '(key, e), (key, ke_stamp e, ke_op e)) (map_to_list (ks_entries k)).
Definition claim (p : PendingBatch) : PendingBatch :=
  {| pb_id := pb_id p; pb_claimed := true; pb_seq := pb_seq p; pb_batch := pb_batch p |}.
Definition snapshot_pending (t : TableBuf) : TableBuf * PendingSnapshot :=
  let snap := match keyed t with Some k => merge_sort by_stamp (keyed_list k) | None => [] end in
  let t1 := with_pending (map claim (pending t)) (pending_rows t) t in
  let t2 := with_keyed ((λ k, {| ks_pk_cols := ks_pk_cols k; ks_entries := ks_entries k;
                                 ks_next_stamp := ks_next_stamp k;
                                 ks_claimed_below := ks_next_stamp k |}) <$> keyed t) t1 in
  (t2, {| sn_batches := map pb_batch (pending t); sn_n_batches := length (pending t);
          sn_keyed := snap; sn_tail_mark := tail_high t |}).

(** [drain_keyed_snapshot] *)
Fixpoint drain_entries (keyed_snap : KeyedSnap) (m : gmap (list byte) KeyedEntry) : gmap (list byte) KeyedEntry :=
  match keyed_snap with
  | [] => m
  | (key, stamp, _) :: snap =>
    drain_entries snap
      match m !! key with
      | Some e => if ke_stamp e =? stamp then delete key m else m
      | None => m
      end
  end.
Definition drain_keyed_snapshot (snap : KeyedSnap) (t : TableBuf) : TableBuf :=
  with_keyed ((λ k, with_entries (drain_entries snap (ks_entries k)) k) <$> keyed t) t.

(** [drop_pending_prefix], [move_pending_to_flushed_gen]; [drain(..n)] panics
    on a shorter list. *)
Definition drop_pending_prefix (n : nat) (snap : KeyedSnap) (t : TableBuf) : TableBuf :=
  let dropped := rows_total (map pb_batch (take n (pending t))) in
  drain_keyed_snapshot snap (with_pending (drop n (pending t)) (pending_rows t - dropped) t).
Definition move_pending_to_flushed_gen (n : nat) (snap : KeyedSnap) (commit : GenCommit) (now : N)
    (t : TableBuf) : TableBuf :=
  let batches := map (λ p, (pb_seq p, pb_batch p)) (take n (pending t)) in
  let t := drop_pending_prefix n snap t in
  with_flushed (flushed t ++ [{| fg_commit := commit; fg_batches := batches; fg_keyed := snap;
                                 fg_committed_at := now; fg_observed := false |}]) t.

(** [move_flushed_back_to_pending] *)
Fixpoint restore (id : N) (batches : list (option N * RecordBatch)) : list PendingBatch * N :=
  match batches with
  | [] => ([], id)
  | (seq, batch) :: batches =>
    let '(ps, id') := restore (wadd id 1) batches in
    ({| pb_id := id; pb_claimed := true; pb_seq := seq; pb_batch := batch |} :: ps, id')
  end.
Fixpoint merge_back (snap : KeyedSnap) (m : gmap (list byte) KeyedEntry) : gmap (list byte) KeyedEntry :=
  match snap with
  | [] => m
  | (key, stamp, op) :: snap =>
    merge_back snap match m !! key with
                    | Some _ => m
                    | None => <[key := {| ke_stamp := stamp; ke_op := op |}]> m
                    end
  end.
Definition move_flushed_back_to_pending (snapshot_id : Z) (t : TableBuf) : TableBuf :=
  match position (λ g, bool_decide (fg_commit g = SnapshotId snapshot_id)) (flushed t) with
  | None => t
  | Some pos =>
    match flushed t !! pos with
    | None => t
    | Some g =>
      let '(restored, id) := restore (next_batch_id t) (fg_batches g) in
      let t := with_flushed (delete pos (flushed t)) t in
      let t := with_next_id id
                 (with_pending (restored ++ pending t)
                    (pending_rows t + rows_total (map snd (fg_batches g))) t) in
      with_keyed ((λ k, with_entries (merge_back (fg_keyed g) (ks_entries k)) k) <$> keyed t) t
    end
  end.

(** [note_observed], [retain_flushed] with [flushed_gen_expired] *)
Definition observe_gen (is_committed : GenCommit → bool) (g : FlushedGen) : FlushedGen :=
  {| fg_commit := fg_commit g; fg_batches := fg_batches g; fg_keyed := fg_keyed g;
     fg_committed_at := fg_committed_at g;
     fg_observed := fg_observed g || is_committed (fg_commit g) |}.
Definition note_observed (is_committed : GenCommit → bool) (t : TableBuf) : TableBuf :=
  with_flushed (map (observe_gen is_committed) (flushed t)) t.
Definition flushed_gen_expired (g : FlushedGen) (now gc_age : N) : bool :=
  fg_observed g && (gc_age <=? now - fg_committed_at g).
Definition gc_entry (now : N) (t : TableBuf) : TableBuf :=
  with_flushed (List.filter (λ g, negb (flushed_gen_expired g now FLUSHED_GC)) (flushed t)) t.
End Buffer.
