(* ===== verification/TailQuorum.v ===== *)
(** * The quorum tail store (src/icegres/src/tail_quorum.rs)

    The durable tail over a quorum of acceptors: sequences are given under the
    caller's lock, one worker thread submits the records to the proposer in job
    order, and tasks it spawns wait for the commits.  Callers and the worker talk
    over channels, a reply channel per job. *)
From S2P Require Import Prelude Text Proto Acceptor Proposer Election TailNames Tail Buffer.
#[local] Open Scope N_scope.

Definition TAIL_SEQ_PROPERTY_PREFIX : string := "icegres.tail-seq.".

(** ** Data *)
Inductive Reply := Unit (r : result unit) | Records (rs : list Record_).

(** [Job]; [resp] names its reply channel. *)
Inductive Job :=
  | AppendJob (key : string) (seq : N) (payload : list byte) (resp : nat)
  | ReplayJob (resp : nat)
  | TruncateJob (key : string) (upto_seq : N) (resp : nat)
  | RecordWatermarkJob (key : string) (seq : N) (resp : nat)
  | HealthJob (resp : nat).

(** A reply channel, with the job it was made for. *)
Inductive ChanState := Open_ | Sent (r : Reply) | Dropped.
Record Chan := { ch_job : Job; ch_state : ChanState }.

Record InitState := { is_tail_id : string; is_seeds : list (string * N) }.

(** [QuorumTail] without its channel and thread handles. *)
Record QuorumTail := {
  qt_prop_key : string;
  qt_next_seq : gmap TableIdent N;
  qt_poisoned : option string;
}.

(** What [worker_main] keeps.  [wk_history] is not in the code: every record the
    proposer's log ever held. *)
Record Worker := {
  wk_quorum : Shared;
  wk_replay : option (list Record_);
  wk_wm_max : gmap string N;
  wk_history : list RecordMeta;
}.

(** A task spawned to wait for a commit: [wt_nudge] for a watermark's. *)
Record Wait := { wt_end : N; wt_stalled : bool; wt_nudge : bool; wt_resp : option nat }.

Record world := {
  q_tail : QuorumTail;
  q_jobs : list Job;
  q_worker : Worker;
  q_waits : list Wait;
  q_chans : list Chan;
}.

Definition with_tail (w : world) (t : QuorumTail) : world :=
  {| q_tail := t; q_jobs := q_jobs w; q_worker := q_worker w; q_waits := q_waits w; q_chans := q_chans w |}.
Definition with_jobs (w : world) (js : list Job) : world :=
  {| q_tail := q_tail w; q_jobs := js; q_worker := q_worker w; q_waits := q_waits w; q_chans := q_chans w |}.
Definition with_worker (w : world) (k : Worker) : world :=
  {| q_tail := q_tail w; q_jobs := q_jobs w; q_worker := k; q_waits := q_waits w; q_chans := q_chans w |}.
Definition with_waits (w : world) (ws : list Wait) : world :=
  {| q_tail := q_tail w; q_jobs := q_jobs w; q_worker := q_worker w; q_waits := ws; q_chans := q_chans w |}.
Definition with_chans (w : world) (cs : list Chan) : world :=
  {| q_tail := q_tail w; q_jobs := q_jobs w; q_worker := q_worker w; q_waits := q_waits w; q_chans := cs |}.
Definition with_quorum (k : Worker) (sh : Shared) : Worker :=
  {| wk_quorum := sh; wk_replay := wk_replay k; wk_wm_max := wk_wm_max k; wk_history := wk_history k |}.

Definition with_next_seq (t : QuorumTail) (m : gmap TableIdent N) : QuorumTail :=
  {| qt_prop_key := qt_prop_key t; qt_next_seq := m; qt_poisoned := qt_poisoned t |}.
(** The first reason sticks. *)
Definition poison_tail (why : string) (t : QuorumTail) : QuorumTail :=
  {| qt_prop_key := qt_prop_key t; qt_next_seq := qt_next_seq t;
     qt_poisoned := match qt_poisoned t with None => Some why | p => p end |}.

Section TailQuorum.
Context (crc32 : list byte → N) {RecordBatch : Type} `{Arrow RecordBatch} {E : Type} `{Net E}.

(** ** Opening *)

(** The seeds and watermarks of [worker_main], from the recovered records. *)
Definition fold_seeds (recovered : list Record_) : gmap string N :=
  foldl (λ m r, <[r_table_key r := N.max (default 0 (m !! r_table_key r)) (r_seq r)]> m) ∅ recovered.
Definition fold_watermarks (recovered : list Record_) : gmap string N :=
  foldl (λ m r, if r_kind r =? RECORD_WATERMARK
                then <[r_table_key r := N.max (default 0 (m !! r_table_key r)) (r_seq r)]> m
                else m) ∅ recovered.

(** [worker_main] up to its job loop. *)
Definition worker_main (minted : string) (chunk : N) : stres E (InitState * Worker) :=
  (let* opened := open_quorum crc32 minted chunk in
   let '(quorum, recovered) := opened in
   st_ret ({| is_tail_id := sh_tail_id quorum;
              is_seeds := map (λ ks, (fst ks, wadd (snd ks) 1)) (map_to_list (fold_seeds recovered)) |},
           {| wk_quorum := quorum; wk_replay := Some recovered;
              wk_wm_max := fold_watermarks recovered; wk_history := records (sh_log quorum) |}))%stres.

(** [open_with_config]: a seed whose key names no table is ignored. *)
Definition seed_next_seq (seeds : list (string * N)) : gmap TableIdent N :=
  foldl (λ m ks, match parse_table_dir_name (str_bytes (fst ks)) with
                 | Some ident => <[ident := snd ks]> m
                 | None => m
                 end) ∅ seeds.
Definition open_with_config (minted : string) (chunk : N) : stres E world :=
  (let* iw := worker_main minted chunk in
   let '(init, worker) := iw in
   st_ret {| q_tail := {| qt_prop_key := TAIL_SEQ_PROPERTY_PREFIX +:+ is_tail_id init;
                          qt_next_seq := seed_next_seq (is_seeds init); qt_poisoned := None |};
             q_jobs := []; q_worker := worker; q_waits := []; q_chans := [] |})%stres.

(** ** The callers' side *)

(** The send half of [call]: the caller then blocks on the channel. *)
Definition send_job (build : nat → Job) : stres world nat := λ w,
  let c := length (q_chans w) in
  let job := build c in
  (with_chans (with_jobs w (q_jobs w ++ [job])) (q_chans w ++ [{| ch_job := job; ch_state := Open_ |}]),
   Ok c).

(** The receive half: [None] while the channel is open. *)
Definition recv (c : nat) (w : world) : option (result Reply) :=
  match ch_state <$> q_chans w !! c with
  | Some (Sent r) => Some (Ok r)
  | Some Dropped => Some (Err "tail-quorum worker dropped a request; restart the server")
  | _ => None
  end.

Definition check_poisoned (t : QuorumTail) : result unit :=
  match qt_poisoned t with
  | Some why => Err why
  | None => Ok tt
  end.

(** [wait_append_outcome]: a responder that dies without an answer poisons the
    tail. *)
Definition wait_append_outcome (c : nat) : world → world * option (result unit) := λ w,
  match recv c w with
  | None => (w, None)
  | Some (Ok (Unit (Ok _))) => (w, Some (Ok tt))
  | Some (Ok (Unit (Err e))) => (w, Some (Err e))
  | Some (Ok (Records _)) => (w, None) (* not a reply to an append *)
  | Some (Err _) =>
    let why := "the tail-quorum append died without reporting an outcome" in
    (with_tail w (poison_tail why (q_tail w)), Some (Err why))
  end.

(** [append_staged]: the sequence, and the channel its wait reads. *)
Definition append_staged (table : TableIdent) (kind : TailOpKind) (batches : list RecordBatch)
    : stres world (N * nat) :=
  (λ w,
   (st_lift (check_poisoned (q_tail w)) ;;*
    let* key := st_lift (table_dir_name table) in
    let* payload := st_lift (encode_op_payload kind batches) in
    let seq := default 1 (qt_next_seq (q_tail w) !! table) in
    let* c := send_job (AppendJob (bytes_str key) seq payload) in
    λ w, (with_tail w (with_next_seq (q_tail w) (<[table := wadd seq 1]> (qt_next_seq (q_tail w)))),
          Ok (seq, c))) w)%stres.

(** [ensure_seq_floor] *)
Definition ensure_seq_floor (table : TableIdent) (floor : N) (w : world) : world :=
  let m := qt_next_seq (q_tail w) in
  with_tail w (with_next_seq (q_tail w) (<[table := N.max (default 1 (m !! table)) floor]> m)).

(** The send halves of [truncate], [record_watermark], [replay] and [health]. *)
Definition truncate_send (table : TableIdent) (upto_seq : N) : stres world nat :=
  (let* key := st_lift (table_dir_name table) in
   send_job (TruncateJob (bytes_str key) upto_seq))%stres.
Definition record_watermark_send (table : TableIdent) (seq : N) : stres world nat :=
  (let* key := st_lift (table_dir_name table) in
   send_job (RecordWatermarkJob (bytes_str key) seq))%stres.
Definition replay_send : stres world nat := send_job ReplayJob.
Definition health_send : stres world nat := λ w,
  (st_lift (check_poisoned (q_tail w)) ;;* send_job HealthJob)%stres w.

(** The fold of [replay] over the records it received: the tables in the order
    of their first record, their frames in log order, their highest watermark. *)
Record Fold := {
  fo_order : list string;
  fo_tables : gmap string (list (N * TailOp RecordBatch) * option N);
}.
Definition fold_record (rec : Record_) (f : Fold) : result Fold :=
  let key := r_table_key rec in
  let f := match fo_tables f !! key with
           | Some _ => f
           | None => {| fo_order := fo_order f ++ [key];
                        fo_tables := <[key := ([], None)]> (fo_tables f) |}
           end in
  let entry := default ([], None) (fo_tables f !! key) in
  if r_kind rec =? RECORD_FRAME then
    match decode_op_payload (r_body rec) with
    | inl _ => Err "quorum-tail record does not decode (its rows hold acked writes)"
    | inr op => Ok {| fo_order := fo_order f;
                      fo_tables := <[key := (fst entry ++ [(r_seq rec, op)], snd entry)]> (fo_tables f) |}
    end
  else if r_kind rec =? RECORD_WATERMARK then
    Ok {| fo_order := fo_order f;
          fo_tables := <[key := (fst entry, Some (N.max (default 0 (snd entry)) (r_seq rec)))]>
                         (fo_tables f) |}
  else Err "quorum-tail record has unknown kind".
Fixpoint fold_records (recs : list Record_) (f : Fold) : result Fold :=
  match recs with
  | [] => Ok f
  | rec :: recs => f ← fold_record rec f; fold_records recs f
  end.
Definition fold_out (f : Fold) (key : string) : option (ReplayedTable RecordBatch) :=
  ft ← fo_tables f !! key;
  ident ← parse_table_dir_name (str_bytes key);
  Some {| rt_ident := ident; rt_frames := fst ft; rt_sidecar := snd ft |}.
Definition replay_fold (recs : list Record_) : result (list (ReplayedTable RecordBatch)) :=
  f ← fold_records recs {| fo_order := []; fo_tables := ∅ |};
  Ok (omap (fold_out f) (fo_order f)).

(** ** The worker's side *)

(** [resp.send(..)] *)
Definition reply (c : nat) (r : Reply) (w : world) : world :=
  with_chans w (alter (λ ch, {| ch_job := ch_job ch; ch_state := Sent r |}) c (q_chans w)).
Definition drop_chan (c : nat) (w : world) : world :=
  with_chans w (alter (λ ch, {| ch_job := ch_job ch; ch_state := Dropped |}) c (q_chans w)).
Definition reply_opt (c : option nat) (r : Reply) (w : world) : world :=
  match c with Some c => reply c r w | None => w end.

(** [Quorum::submit] on the worker's proposer. *)
Definition worker_submit (kind : N) (key : string) (seq : N) (body : list byte) : stres world N := λ w,
  let k := q_worker w in
  let log := records (sh_log (wk_quorum k)) in
  let '(sh, r) := submit crc32 kind key seq body (wk_quorum k) in
  (with_worker w {| wk_quorum := sh; wk_replay := wk_replay k; wk_wm_max := wk_wm_max k;
                    wk_history := wk_history k ++ drop (length log) (records (sh_log sh)) |}, r).

(** [append_watermark_off_loop] *)
Definition append_watermark_off_loop (key : string) (seq : N) (resp : option nat) (w : world) : world :=
  match worker_submit RECORD_WATERMARK key seq [] w with
  | (w, Ok end_) =>
    let k := q_worker w in
    let w := with_worker w {| wk_quorum := wk_quorum k; wk_replay := wk_replay k;
               wk_wm_max := <[key := N.max (default 0 (wk_wm_max k !! key)) seq]> (wk_wm_max k);
               wk_history := wk_history k |} in
    with_waits w (q_waits w ++ [{| wt_end := end_; wt_stalled := false; wt_nudge := true; wt_resp := resp |}])
  | (w, Err e) => reply_opt resp (Unit (Err e)) w
  end.

(** [run_job] *)
Definition run_job (job : Job) (w : world) : world :=
  match job with
  | AppendJob key seq payload resp =>
    match worker_submit RECORD_FRAME key seq payload w with
    | (w, Ok end_) =>
      with_waits w (q_waits w ++
        [{| wt_end := end_; wt_stalled := false; wt_nudge := false; wt_resp := Some resp |}])
    | (w, Err e) => reply resp (Unit (Err e)) w
    end
  | ReplayJob resp =>
    let k := q_worker w in
    let w := with_worker w {| wk_quorum := wk_quorum k; wk_replay := None;
                              wk_wm_max := wk_wm_max k; wk_history := wk_history k |} in
    reply resp (Records (default [] (wk_replay k))) w
  | TruncateJob key upto_seq resp =>
    let '(sh, refresh) := note_covered key upto_seq (wk_quorum (q_worker w)) in
    let w := reply resp (Unit (Ok tt)) (with_worker w (with_quorum (q_worker w) sh)) in
    match refresh with
    | Some (table, seq) => append_watermark_off_loop table seq None w
    | None => w
    end
  | RecordWatermarkJob key seq resp =>
    if seq <=? default 0 (wk_wm_max (q_worker w) !! key)
    then reply resp (Unit (Ok tt)) w
    else append_watermark_off_loop key seq (Some resp) w
  | HealthJob resp =>
    reply resp (Unit (match sh_poison (wk_quorum (q_worker w)) with
                      | None => Ok tt
                      | Some why => Err why
                      end)) w
  end.

(** A spawned task wakes up: one turn of [Quorum::wait_commit], and what follows
    it when the wait is over. *)
Definition wait_turn (i : nat) (wake : Wake) (w : world) : option world :=
  t ← q_waits w !! i;
  let '(sh, r) := wait_commit (wt_end t) [(id, wake)] (wt_stalled t) (wk_quorum (q_worker w)) in
  let stalled := wt_stalled t || match wake with WTimeout => true | _ => false end in
  match r with
  | None =>
    Some (with_waits (with_worker w (with_quorum (q_worker w) sh))
      (<[i := {| wt_end := wt_end t; wt_stalled := stalled; wt_nudge := wt_nudge t; wt_resp := wt_resp t |}]>
         (q_waits w)))
  | Some r =>
    let sh := if wt_nudge t && is_ok r then fst (nudge_horizon sh) else sh in
    let w := with_worker w (with_quorum (q_worker w) sh) in
    Some (reply_opt (wt_resp t) (Unit r) (with_waits w (delete i (q_waits w))))
  end.
(** A spawned task dies (a panic, the runtime torn down). *)
Definition wait_dies (i : nat) (w : world) : option world :=
  t ← q_waits w !! i;
  let w := with_waits w (delete i (q_waits w)) in
  Some match wt_resp t with Some c => drop_chan c w | None => w end.

(** ** Runs *)

(** Sequences and positions short of the end of [u64]. *)
Definition room (w : world) : Prop :=
  is_u64 (head (sh_log (wk_quorum (q_worker w))) + MAX_MESSAGE_BYTES) ∧
  ∀ table n, qt_next_seq (q_tail w) !! table = Some n → n < u64_max.

(** A Rust [String], and the identifiers made of them. *)
Definition names_a_table (table : TableIdent) : Prop :=
  ∃ key, table_dir_name table = Ok key ∧ utf8 (bytes_str key) = true ∧
         parse_table_dir_name key = Some table.

Inductive action :=
  | AAppend (table : TableIdent) (kind : TailOpKind) (batches : list RecordBatch)
  | AFloor (table : TableIdent) (floor : N)
  | ATruncate (table : TableIdent) (upto_seq : N)
  | ARecordWatermark (table : TableIdent) (seq : N)
  | AReplay
  | AHealth
  | AAwait (c : nat)                 (* a caller looks at its append's outcome *)
  | AWorker                          (* the worker takes the next job *)
  | ATask (i : nat) (wake : Wake)
  | ATaskDies (i : nat)
  | APeer (i : nat) (conn : option N) (* a round of a peer task *)
  | ASupervise (reason : ReelectReason) (failures : N).

(** What the code can be asked: tables with a name of their own, sequences of
    the machine's width. *)
Definition sensible (a : action) : Prop :=
  match a with
  | AAppend table _ _ => names_a_table table
  | AFloor table floor => names_a_table table ∧ floor < u64_max
  | ATruncate table seq | ARecordWatermark table seq => names_a_table table ∧ is_u64 seq
  | _ => True
  end.

Definition exec (a : action) (w : world) (e : E) : option (world * E) :=
  match a with
  | AAppend table kind batches => Some (fst (append_staged table kind batches w), e)
  | AFloor table floor => Some (ensure_seq_floor table floor w, e)
  | ATruncate table seq => Some (fst (truncate_send table seq w), e)
  | ARecordWatermark table seq => Some (fst (record_watermark_send table seq w), e)
  | AReplay => Some (fst (replay_send w), e)
  | AHealth => Some (fst (health_send w), e)
  | AAwait c => Some (fst (wait_append_outcome c w), e)
  | AWorker => match q_jobs w with
               | [] => None
               | job :: jobs => Some (run_job job (with_jobs w jobs), e)
               end
  | ATask i wake => w ← wait_turn i wake w; Some (w, e)
  | ATaskDies i => w ← wait_dies i w; Some (w, e)
  | APeer i conn =>
    match peer_round i conn (wk_quorum (q_worker w)) e with
    | (e, Ok (sh, _)) => Some (with_worker w (with_quorum (q_worker w) sh), e)
    | (e, Err _) => Some (w, e)
    end
  | ASupervise reason failures =>
    match supervise reason failures (wk_quorum (q_worker w)) e with
    | (e, Ok (sh, _, _)) => Some (with_worker w (with_quorum (q_worker w) sh), e)
    | (e, Err _) => Some (w, e)
    end
  end.

Inductive run : world → E → world → E → Prop :=
  | run_refl w e : run w e w e
  | run_step w0 e0 w e a w' e' :
      run w0 e0 w e → room w → sensible a → exec a w e = Some (w', e') → run w0 e0 w' e'.
End TailQuorum.
