(* ===== verification/TailQuorumInv.v ===== *)
(** * The invariant of the quorum tail store

    What the worker keeps of the proposer's log, what is queued before it and
    what the channels say, preserved by every step of [TailQuorum.exec]. *)
From Stdlib Require Import Sorting.Sorted.
From S2P Require Import Prelude Text Proto Acceptor Proposer Election TailNames Tail Buffer TailQuorum.
#[local] Open Scope N_scope.

(** ** The retained log is a suffix of what was submitted *)
Section LogLayer.
Context (crc32 : list byte → N) (crc32_u32 : ∀ bs, is_u32 (crc32 bs)).
#[local] Arguments record_frame : simpl never.

Lemma pop_front_suffix d recs b recs' b' :
  pop_front d recs b = (recs', b') → ∃ pre, recs = pre ++ recs' ∧ Forall (λ m, m_end m ≤ d) pre.
Proof.
  revert b. induction recs as [|m recs IH]; intros b H; cbn [pop_front] in H.
  { simplify_eq. by exists []. }
  destruct (_ <=? _) eqn:E; bool_prop; [|simplify_eq; by exists []].
  apply IH in H as (pre & -> & Hpre). exists (m :: pre). split; [done|]. by constructor.
Qed.

Lemma retention_loop_peers fuel h s s' :
  retention_loop fuel h s = Some s' → length (sh_peers s') = length (sh_peers s).
Proof.
  revert s. induction fuel as [|fuel IH]; intros s Hr; [done|]. cbn [retention_loop] in Hr.
  destruct (lagging_peer _ _) as [[i f]|]; [|by simplify_eq].
  destruct (_ <? _); [|by simplify_eq]. apply IH in Hr. rewrite Hr. simpl. by rewrite length_alter.
Qed.

(** One horizon advance lets a committed front of the log go, nothing else. *)
Lemma advance_horizon_frame s s' refresh :
  advance_horizon_locked s = (s', refresh) →
  (∃ pre, records (sh_log s) = pre ++ records (sh_log s') ∧
          Forall (λ m, m_end m ≤ sh_commit s) pre) ∧
  last_wm (sh_log s') = last_wm (sh_log s) ∧ length (sh_peers s') = length (sh_peers s) ∧
  sh_poison s' = sh_poison s ∧ head (sh_log s') = head (sh_log s) ∧
  snd (coverable_prefix (sh_log s) (sh_commit s)) = refresh.
Proof.
  unfold advance_horizon_locked. destruct (coverable_prefix _ _) as [p r].
  destruct (_ <? _) eqn:E; bool_prop; intros Heq; apply pair_equal_spec in Heq as [<- <-];
    [|split_and!; try done; by exists []].
  set (h := N.max (N.min p (sh_commit s)) (sh_horizon s)) in *.
  destruct (retention_loop_total (S (length (sh_peers s))) h (with_sh_horizon s h))
    as (s2 & d & Hr & Hd & Hl & _ & _ & Hp & _).
  { pose proof (live_le (with_sh_horizon s h)). simpl in *. lia. }
  rewrite Hr. apply retention_loop_peers in Hr. change (default s (Some s2)) with s2.
  rewrite Hl, Hp.
  cbn [with_sh_horizon sh_log]. unfold drop_front.
  destruct (pop_front d (records (sh_log s)) (base (sh_log s))) as [recs' b'] eqn:Ef.
  apply pop_front_suffix in Ef as (pre & Hpre & Hall). cbn [records last_wm head]. split_and!; try done.
  exists pre. split; [done|]. eapply Forall_impl; [exact Hall|]. cbn beta. intros m Hm. lia.
Qed.

Lemma positions_inj pos recs e r1 r2 :
  positions crc32 pos recs e → r1 ∈ recs → r2 ∈ recs → r_lsn r1 = r_lsn r2 → r1 = r2.
Proof.
  revert pos. induction recs as [|x recs IH]; intros pos Hp H1 H2 Hl; [by apply not_elem_of_nil in H1|].
  destruct Hp as [Hx Hp].
  assert (∀ r, r ∈ recs → r_lsn r ≠ r_lsn x) as Hne.
  { intros r Hr. destruct (positions_bounds _ _ _ _ r Hp Hr) as [Hb _].
    pose proof (record_frame_pos crc32 x). lia. }
  apply elem_of_cons in H1 as [->|H1]; apply elem_of_cons in H2 as [->|H2]; try done.
  - by destruct (Hne r2 H2).
  - by destruct (Hne r1 H1).
  - by eapply IH.
Qed.

(** A refresh rewrites the table's newest watermark, at or above its sequence. *)
Lemma coverable_loop_refresh log commit recs p t q :
  snd (coverable_loop log commit recs p) = Some (t, q) →
  ∃ m, m ∈ recs ∧ m_kind m = RECORD_WATERMARK ∧ m_table_key m = t ∧ is_coverable log m = false ∧
       q = N.max (m_seq m) (default 0 (covered log !! t)).
Proof.
  revert p. induction recs as [|m recs IH]; intros p H; [done|]. cbn [coverable_loop] in H.
  destruct (_ <? _) eqn:E1; [done|]. destruct (is_coverable log m) eqn:Ec.
  { apply IH in H as (m' & ? & ?). exists m'. split; [by right|done]. }
  destruct (_ && _) eqn:E2; [|done]. apply andb_prop in E2 as [E2 _]. apply N.eqb_eq in E2.
  simplify_eq/=. exists m. split_and!; try done. by left.
Qed.

(** ** The worker's log *)

(** Nothing a later log knows of coverage is less than before. *)
Definition coverage_le (log log' : LogBuf) : Prop :=
  (∀ t, default 0 (covered log !! t) ≤ default 0 (covered log' !! t)) ∧
  ∀ t st sq, last_wm log !! t = Some (st, sq) →
    ∃ st' sq', last_wm log' !! t = Some (st', sq') ∧ st ≤ st' ∧ sq ≤ sq'.

Lemma coverage_le_refl log log' :
  covered log' = covered log → last_wm log' = last_wm log → coverage_le log log'.
Proof. intros Hc Hw. unfold coverage_le. rewrite Hc, Hw. split; [done|]. eauto with lia. Qed.

Lemma coverable_mono log log' m :
  coverage_le log log' → is_coverable log m = true → is_coverable log' m = true.
Proof.
  intros [Hc Hw]. unfold is_coverable. specialize (Hc (m_table_key m)).
  destruct (last_wm log !! m_table_key m) as [[st sq]|] eqn:E.
  - destruct (Hw _ _ _ E) as (st' & sq' & -> & Hst & Hsq).
    destruct (_ =? RECORD_FRAME).
    + rewrite !andb_true_iff, !N.leb_le. lia.
    + destruct (_ =? RECORD_WATERMARK); [rewrite !N.ltb_lt; lia|done].
  - destruct (_ =? RECORD_FRAME); [by rewrite andb_false_r|]. by destruct (_ =? RECORD_WATERMARK).
Qed.

Record log_inv (k : Worker) : Prop := {
  li_horizon : horizon_inv crc32 (wk_quorum k);
  li_peers : (QUORUM ≤ length (sh_peers (wk_quorum k)))%nat;
  li_suffix : ∃ pre, wk_history k = pre ++ records (sh_log (wk_quorum k)) ∧
    ∀ m, m ∈ pre → m_end m ≤ sh_commit (wk_quorum k) ∧ is_coverable (sh_log (wk_quorum k)) m = true;
  li_wm : ∀ t st sq, last_wm (sh_log (wk_quorum k)) !! t = Some (st, sq) →
    sq ≤ default 0 (wk_wm_max k !! t);
  li_cov : ∀ t q, covered (sh_log (wk_quorum k)) !! t = Some q → is_u64 q;
}.

(** What the rest of the proposer does between two jobs. *)
Definition quiet (sh sh' : Shared) : Prop :=
  sh_log sh' = sh_log sh ∧ sh_horizon sh' = sh_horizon sh ∧
  length (sh_peers sh') = length (sh_peers sh) ∧ sh_commit sh ≤ sh_commit sh'.

Lemma log_inv_quiet k sh : log_inv k → quiet (wk_quorum k) sh → log_inv (with_quorum k sh).
Proof.
  intros [((recs & Hrec) & Hwm & (Hh1 & Hh2) & Hcov) Hp (pre & Hpre & Hall) Hw Hc] (Hl & Hh & Hn & Hcm).
  split; cbn [with_quorum wk_quorum wk_wm_max wk_history]; rewrite ?Hl, ?Hn; try done.
  - split; rewrite ?Hl, ?Hh; [by exists recs|]. split; [done|]. split; [|done]. split; [|done].
    destruct Hh1; [left; lia|by right].
  - exists pre. split; [done|]. intros m Hm. destruct (Hall m Hm). split; [lia|done].
Qed.

(** An advance of the horizon, after [covered] may have grown. *)
Lemma log_inv_advance k sh sh' refresh :
  log_inv (with_quorum k sh) → advance_horizon_locked sh = (sh', refresh) →
  log_inv (with_quorum k sh') ∧
  ∀ t q, refresh = Some (t, q) → utf8 t = true ∧ is_u64 q ∧
    ∀ st sq, last_wm (sh_log sh') !! t = Some (st, sq) → sq ≤ q.
Proof.
  intros [Hhor Hp (pre & Hpre & Hall) Hw Hc] Ha.
  cbn [with_quorum wk_quorum wk_wm_max wk_history] in *.
  pose proof (advance_horizon_frame _ _ _ Ha) as ((pre2 & Hpre2 & Hall2) & Hlw & Hlen & _ & _ & Href).
  destruct (advance_horizon_spec crc32 crc32_u32 _ _ _ Hhor Ha) as (Hhor' & _ & Hcm & _ & Hcv & Hdrop).
  split.
  - split; cbn [with_quorum wk_quorum wk_wm_max wk_history]; rewrite ?Hlw, ?Hcv, ?Hlen; try done.
    exists (pre ++ pre2). rewrite Hpre, Hpre2. split; [by rewrite app_assoc|].
    assert (coverage_le (sh_log sh) (sh_log sh')) as Hle by (by apply coverage_le_refl).
    intros m [Hm|Hm]%elem_of_app.
    + destruct (Hall m Hm). rewrite Hcm. split; [done|]. by eapply coverable_mono.
    + rewrite Forall_forall in Hall2. rewrite Hcm. split; [by apply Hall2|].
      destruct Hhor as ((recs & Hrec & Hfit & Hpos & _) & _).
      eapply coverable_mono; [done|]. destruct (Hdrop m) as [Hin|[_ ?]]; [rewrite Hpre2; set_solver| |done].
      exfalso. rewrite Hrec in Hpre2. change (map (meta_of crc32) recs) with (meta_of crc32 <$> recs) in Hpre2.
      apply fmap_app_inv in Hpre2 as (r1 & r2 & -> & E2 & ->).
      rewrite E2 in Hin. apply list_elem_of_fmap in Hin as (x & -> & Hx).
      apply list_elem_of_fmap in Hm as (y & Hxy & Hy).
      apply positions_app in Hpos as (mid & P1 & P2).
      destruct (positions_bounds _ _ _ _ _ P1 Hy) as [_ B1].
      destruct (positions_bounds _ _ _ _ _ P2 Hx) as [B2 _].
      apply (f_equal m_start) in Hxy. cbn [meta_of m_start m_end] in *. pose proof (record_frame_pos crc32 y). lia.
  - intros t q ->. unfold coverable_prefix in Href.
    apply coverable_loop_refresh in Href as (m & Hm & Hk & Ht & Hnc & ->).
    pose proof Hhor as ((recs & Hrec & Hfit & Hpos & _) & [Hw1 Hw2] & _).
    assert (∃ r, m = meta_of crc32 r ∧ r ∈ recs) as (r & Hmr & Hr).
    { rewrite Hrec in Hm. change (map (meta_of crc32) recs) with (meta_of crc32 <$> recs) in Hm.
      by apply list_elem_of_fmap in Hm. }
    rewrite Forall_forall in Hfit. destruct (Hfit r Hr) as ((Hru & Hru2 & Hrest) & _).
    destruct Hrest as [Hutf Hq].
    split; [by rewrite <-Ht, Hmr|]. split.
    { rewrite Hmr. cbn [meta_of m_seq]. destruct (covered (sh_log sh) !! t) as [c|] eqn:Ec; simpl; [|lia].
      specialize (Hc _ _ Ec). lia. }
    intros st sq Hst. rewrite Hlw in Hst.
    destruct (Hw2 m Hm Hk) as (st' & sq' & Hl & Hle). rewrite Ht, Hst in Hl. simplify_eq.
    destruct (Hw1 _ _ _ Hst) as (w & Hwin & Hwk & Hwt & Hws & Hwq).
    unfold is_coverable in Hnc. rewrite Hk, Hst in Hnc. simpl in Hnc. bool_prop.
    assert (∃ r2, w = meta_of crc32 r2 ∧ r2 ∈ recs) as (r2 & Hwr & Hr2).
    { rewrite Hrec in Hwin. change (map (meta_of crc32) recs) with (meta_of crc32 <$> recs) in Hwin.
      by apply list_elem_of_fmap in Hwin. }
    assert (r2 = r) as ->.
    { eapply positions_inj; [exact Hpos|done|done|]. subst. cbn [meta_of m_start] in *. lia. }
    subst. lia.
Qed.
End LogLayer.

(** ** Sequences *)

Definition frame_seq (key : string) (m : RecordMeta) : option N :=
  if (m_kind m =? RECORD_FRAME) && bool_decide (m_table_key m = key) then Some (m_seq m) else None.
Definition job_seq (key : string) (j : Job) : option N :=
  match j with
  | AppendJob k seq _ _ => if bool_decide (k = key) then Some seq else None
  | _ => None
  end.
Abbreviation frame_seqs key := (omap (frame_seq key)).
Abbreviation job_seqs key := (omap (job_seq key)).

(** The key of a table's records. *)
Definition key_of (table : TableIdent) (key : string) : Prop :=
  ∃ d, table_dir_name table = Ok d ∧ key = bytes_str d ∧ parse_table_dir_name d = Some table.

Lemma key_of_inj t1 t2 key : key_of t1 key → key_of t2 key → t1 = t2.
Proof.
  intros (d1 & _ & -> & H1) (d2 & _ & E & H2). apply (f_equal str_bytes) in E.
  rewrite !str_bytes_str in E. subst. congruence.
Qed.

(** Per table, what is in the log past [h0] and then in the queue is strictly
    increasing, above every frame of [h0], and below the next sequence. *)
Definition seq_ok (h0 new : list RecordMeta) (jobs : list Job) (next : gmap TableIdent N) : Prop :=
  ∀ table key, key_of table key →
    let seqs := frame_seqs key new ++ job_seqs key jobs in
    StronglySorted N.lt seqs ∧
    (∀ s0 s, s0 ∈ frame_seqs key h0 → s ∈ seqs → s0 < s) ∧
    ∀ s, s ∈ frame_seqs key h0 ++ seqs → s < default 1 (next !! table).

Lemma omap_snoc {A B} (f : A → option B) l x :
  omap f (l ++ [x]) = omap f l ++ match f x with Some y => [y] | None => [] end.
Proof. rewrite omap_app. simpl. by destruct (f x). Qed.

Lemma sorted_drop_mid {A} (R : A → A → Prop) l1 x l2 :
  StronglySorted R (l1 ++ x :: l2) → StronglySorted R (l1 ++ l2).
Proof.
  induction l1 as [|a l1 IH]; simpl; intros H; inversion H as [|? ? H1 H2]; subst; [done|].
  constructor; [by apply IH|]. apply Forall_app in H2 as [? H2]. inversion H2; subst.
  by apply Forall_app.
Qed.

Lemma sorted_snoc_max l s : StronglySorted N.lt l → (∀ x, x ∈ l → x < s) → StronglySorted N.lt (l ++ [s]).
Proof.
  induction l as [|a l IH]; simpl; intros H Hs.
  { by repeat constructor. }
  inversion H as [|? ? H1 H2]; subst. constructor.
  - apply IH; [done|]. intros x Hx. apply Hs. by right.
  - apply Forall_app. split; [done|]. constructor; [|done]. apply Hs. by left.
Qed.

Lemma seq_ok_pop h0 new j jobs next : seq_ok h0 new (j :: jobs) next → seq_ok h0 new jobs next.
Proof.
  intros Hs table key Hk. destruct (Hs table key Hk) as (H1 & H2 & H3). cbn in H1, H2, H3.
  destruct (job_seq key j) as [s|]; [|by split_and!]. split_and!.
  - by eapply sorted_drop_mid.
  - intros s0 s' Hs0 Hs'. apply H2; [done|]. set_solver.
  - intros s' Hs'. apply H3. set_solver.
Qed.

(** The job at the head of the queue enters the log. *)
Lemma seq_ok_move h0 new key seq p c jobs next m :
  m_kind m = RECORD_FRAME → m_table_key m = key → m_seq m = seq →
  seq_ok h0 new (AppendJob key seq p c :: jobs) next → seq_ok h0 (new ++ [m]) jobs next.
Proof.
  intros Hk Ht Hq Hs table key' Hkey. specialize (Hs table key' Hkey). cbv zeta in *.
  rewrite omap_snoc. cbn [omap list_omap job_seq] in Hs.
  assert (frame_seq key' m = if bool_decide (key = key') then Some seq else None) as ->
    by (unfold frame_seq; by rewrite Hk, Ht, Hq).
  destruct (bool_decide (key = key')); [by rewrite <-app_assoc|by rewrite app_nil_r].
Qed.

(** A record that is not a frame changes nothing. *)
Lemma seq_ok_other h0 new jobs next m :
  m_kind m ≠ RECORD_FRAME → seq_ok h0 new jobs next → seq_ok h0 (new ++ [m]) jobs next.
Proof.
  intros Hk Hs table key' Hkey. specialize (Hs table key' Hkey). cbv zeta in *.
  rewrite omap_snoc. assert (frame_seq key' m = None) as ->; [|by rewrite app_nil_r].
  unfold frame_seq. by destruct (N.eqb_spec (m_kind m) RECORD_FRAME).
Qed.

Lemma seq_ok_job h0 new jobs next j :
  (∀ key, job_seq key j = None) → seq_ok h0 new jobs next → seq_ok h0 new (jobs ++ [j]) next.
Proof.
  intros Hj Hs table key Hk. specialize (Hs table key Hk). cbv zeta in *.
  rewrite omap_snoc, Hj. by rewrite app_nil_r.
Qed.

(** Staging takes the next sequence and leaves it behind. *)
Lemma seq_ok_stage h0 new jobs next table key p c :
  key_of table key → default 1 (next !! table) < u64_max →
  seq_ok h0 new jobs next →
  seq_ok h0 new (jobs ++ [AppendJob key (default 1 (next !! table)) p c])
         (<[table := wadd (default 1 (next !! table)) 1]> next).
Proof.
  intros Hkey Hu Hs t k Hk. destruct (Hs t k Hk) as (H1 & H2 & H3). cbv zeta in *.
  assert (wadd (default 1 (next !! table)) 1 = default 1 (next !! table) + 1) as Hw.
  { apply wadd_small. unfold u64_max, u64_modulus in *. lia. }
  rewrite omap_snoc. cbn [job_seq]. case_bool_decide as Hd.
  - subst k. assert (t = table) as -> by (by eapply key_of_inj). rewrite lookup_insert_eq, app_assoc. cbn [default from_option id].
    split_and!.
    + apply sorted_snoc_max; [done|]. intros x Hx. apply H3. set_solver.
    + intros s0 s Hs0 [Hs'|Hs'%list_elem_of_singleton]%elem_of_app; [by apply H2|].
      subst s. apply H3. set_solver.
    + intros s. rewrite !elem_of_app, list_elem_of_singleton. rewrite Hw. intros Hx.
      assert (s < default 1 (next !! table) ∨ s = default 1 (next !! table)) as [?|?]; [|lia|lia].
      destruct Hx as [?|[[?|?]|?]]; [left; apply H3; set_solver..|by right].
  - rewrite !app_nil_r. split_and!; [done..|]. intros s Hx. specialize (H3 s Hx).
    destruct (decide (t = table)) as [->|]; [|by rewrite lookup_insert_ne].
    rewrite lookup_insert_eq. simpl. lia.
Qed.

Lemma seq_ok_floor h0 new jobs next table floor :
  seq_ok h0 new jobs next →
  seq_ok h0 new jobs (<[table := N.max (default 1 (next !! table)) floor]> next).
Proof.
  intros Hs t k Hk. destruct (Hs t k Hk) as (H1 & H2 & H3). cbv zeta in *. split_and!; [done..|].
  intros s Hx. specialize (H3 s Hx). destruct (decide (t = table)) as [->|]; [|by rewrite lookup_insert_ne].
  rewrite lookup_insert_eq. simpl. lia.
Qed.

(** ** Jobs, tasks and channels *)
Section System.
Context (crc32 : list byte → N) (crc32_u32 : ∀ bs, is_u32 (crc32 bs)).
Context {RecordBatch : Type} `{Arrow RecordBatch} {E : Type} `{Net E}.
Implicit Types w : world.
#[local] Arguments record_frame : simpl never.

Definition job_resp (j : Job) : nat :=
  match j with
  | AppendJob _ _ _ c | ReplayJob c | TruncateJob _ _ c | RecordWatermarkJob _ _ c | HealthJob c => c
  end.
(** What a Rust [String] and a [u64] can hold. *)
Definition job_wf (j : Job) : Prop :=
  match j with
  | AppendJob key seq _ _ | TruncateJob key seq _ | RecordWatermarkJob key seq _ =>
      utf8 key = true ∧ is_u64 seq
  | _ => True
  end.

(** [m] is the frame record of this append. *)
Definition append_record (key : string) (seq : N) (payload : list byte) (m : RecordMeta) : Prop :=
  ∃ rec, m = meta_of crc32 rec ∧ r_kind rec = RECORD_FRAME ∧ r_table_key rec = key ∧
         r_seq rec = seq ∧ r_body rec = payload.

(** What a task that answers [j]'s channel waits for. *)
Definition waits_for (w : world) (t : Wait) (j : Job) : Prop :=
  match j with
  | AppendJob key seq payload _ =>
    ∃ m, m ∈ wk_history (q_worker w) ∧ append_record key seq payload m ∧ m_end m = wt_end t
  | _ => True
  end.

(** An append that was answered [Ok] is in the log, committed. *)
Definition answer_ok (w : world) (j : Job) (r : Reply) : Prop :=
  match j, r with
  | AppendJob key seq payload _, Unit (Ok _) =>
    ∃ m, m ∈ wk_history (q_worker w) ∧ append_record key seq payload m ∧
         m_end m ≤ sh_commit (wk_quorum (q_worker w))
  | _, _ => True
  end.

(** An open channel has its job in the queue or a task that will answer it. *)
Definition chan_ok (w : world) (c : nat) (ch : Chan) : Prop :=
  match ch_state ch with
  | Open_ => ch_job ch ∈ q_jobs w ∨ ∃ t, t ∈ q_waits w ∧ wt_resp t = Some c
  | Sent r => answer_ok w (ch_job ch) r
  | Dropped => True
  end.

(** The invariant; channel [x] is open and being answered. *)
Record inv (h0 : list RecordMeta) (x : option nat) (w : world) : Prop := {
  iv_log : log_inv crc32 (q_worker w);
  iv_seqs : ∃ new, wk_history (q_worker w) = h0 ++ new ∧
              seq_ok h0 new (q_jobs w) (qt_next_seq (q_tail w));
  iv_jobs : ∀ j, j ∈ q_jobs w → job_wf j ∧ ch_job <$> q_chans w !! job_resp j = Some j;
  iv_waits : ∀ t c, t ∈ q_waits w → wt_resp t = Some c →
               ∃ ch, q_chans w !! c = Some ch ∧ waits_for w t (ch_job ch);
  iv_chans : ∀ c ch, q_chans w !! c = Some ch →
               job_resp (ch_job ch) = c ∧ (x = Some c ∧ ch_state ch = Open_ ∨ chan_ok w c ch);
}.

(** The tail side may change its poison and raise sequences. *)
Lemma qinv_tail h0 x w t :
  inv h0 x w →
  (∀ new, seq_ok h0 new (q_jobs w) (qt_next_seq (q_tail w)) → seq_ok h0 new (q_jobs w) (qt_next_seq t)) →
  inv h0 x (with_tail w t).
Proof. intros [H1 (new & Hn & Hs) H3 H4 H5] Hsq. split; try done. exists new. split; [done|]. by apply Hsq. Qed.

(** The worker's log may grow and commit more. *)
Lemma qinv_worker h0 x w k ms :
  inv h0 x w → log_inv crc32 k → wk_history k = wk_history (q_worker w) ++ ms →
  sh_commit (wk_quorum (q_worker w)) ≤ sh_commit (wk_quorum k) →
  (∀ new, wk_history (q_worker w) = h0 ++ new → seq_ok h0 new (q_jobs w) (qt_next_seq (q_tail w)) →
          seq_ok h0 (new ++ ms) (q_jobs w) (qt_next_seq (q_tail w))) →
  inv h0 x (with_worker w k).
Proof.
  intros [H1 (new & Hn & Hs) H3 H4 H5] Hlog Hh Hc Hsq. split; try done; cbn [with_worker q_worker].
  - exists (new ++ ms). split; [by rewrite Hh, Hn, app_assoc|]. by apply Hsq.
  - intros t c Ht Hr. destruct (H4 t c Ht Hr) as (ch & Hch & Hw). exists ch. split; [done|].
    unfold waits_for in *. destruct (ch_job ch); try done. destruct Hw as (m & Hm & ?). exists m.
    split; [|done]. cbn [with_worker q_worker]. rewrite Hh. set_solver.
  - intros c ch Hch. destruct (H5 c ch Hch) as [? [?|Hok]]; (split; [done|]); [by left|right].
    unfold chan_ok, answer_ok in *. cbn [with_worker q_worker q_jobs q_waits] in *.
    destruct (ch_state ch) as [|r|]; try done. destruct (ch_job ch); try done.
    destruct r as [[]|]; try done. destruct Hok as (m & Hm & Ha & He). exists m. rewrite Hh.
    split_and!; [set_solver|done|lia].
Qed.

(** A caller sends a job. *)
Lemma qinv_send h0 w build w' c :
  inv h0 None w → send_job build w = (w', Ok c) → job_resp (build c) = c → job_wf (build c) →
  (∀ new, wk_history (q_worker w) = h0 ++ new → seq_ok h0 new (q_jobs w) (qt_next_seq (q_tail w)) →
          seq_ok h0 new (q_jobs w ++ [build c]) (qt_next_seq (q_tail w))) →
  inv h0 None w'.
Proof.
  intros [H1 (new & Hn & Hs) H3 H4 H5] [= <- <-] Hr Hwf Hsq.
  set (c := length (q_chans w)) in *.
  assert (∀ c' ch, q_chans w !! c' = Some ch →
    (q_chans w ++ [{| ch_job := build c; ch_state := Open_ |}]) !! c' = Some ch) as Hold.
  { intros c' ch Hc. by apply lookup_app_l_Some. }
  split; cbn; try done.
  - exists new. split; [done|]. by apply Hsq.
  - intros j [Hj|Hj%list_elem_of_singleton]%elem_of_app.
    + destruct (H3 j Hj) as [? Hc]. split; [done|]. apply fmap_Some in Hc as (ch & Hc & ->).
      by rewrite (Hold _ _ Hc).
    + subst j. split; [done|]. rewrite Hr. unfold c. by rewrite list_lookup_middle.
  - intros t c' Ht Hc. destruct (H4 t c' Ht Hc) as (ch & Hch & ?). exists ch. split; [by apply Hold|done].
  - intros c' ch Hch. apply lookup_app_Some in Hch as [Hch|[Hle Hch]].
    + destruct (H5 c' ch Hch) as [? [[? ?]|Hok]]; [done|]. split; [done|]. right. unfold chan_ok in *. cbn.
      destruct (ch_state ch); [|done|done]. set_solver.
    + apply list_lookup_singleton_Some in Hch as [Hz <-]. fold c in Hle, Hz. cbn.
      assert (c' = c) as -> by lia. split; [done|]. right. left. cbn. set_solver.
Qed.

(** The worker takes a job: its channel is open to be answered. *)
Lemma qinv_pop h0 w j js :
  inv h0 None w → q_jobs w = j :: js →
  inv h0 (Some (job_resp j)) (with_jobs w js) ∧ job_wf j ∧ (∃ ch, q_chans w !! job_resp j = Some ch ∧ ch_job ch = j).
Proof.
  intros [H1 (new & Hn & Hs) H3 H4 H5] Hj. destruct (H3 j) as [Hwf Hc]; [rewrite Hj; by left|].
  apply fmap_Some in Hc as (chj & Hcj & Hjj).
  split; [|by eauto]. rewrite Hj in Hs. split; cbn; try done.
  - exists new. split; [done|]. by eapply seq_ok_pop.
  - intros j' Hj'. apply H3. rewrite Hj. by right.
  - intros c ch Hch. destruct (H5 c ch Hch) as [Hr [[? ?]|Hok]]; [done|]. split; [done|].
    unfold chan_ok in *. cbn. destruct (ch_state ch) eqn:Es; [|by right..].
    destruct (decide (job_resp j = c)) as [<-|Hne]; [by left|right].
    destruct Hok as [Hin|?]; [left|by right].
    rewrite Hj in Hin. apply elem_of_cons in Hin as [Ej|?]; [|done]. by rewrite <-Ej, Hr in Hne.
Qed.

(** The answer to the channel, or its loss. *)
Lemma qinv_set_chan h0 x w c st ch0 :
  inv h0 x w → (x = None ∨ x = Some c) → q_chans w !! c = Some ch0 →
  match st with Open_ => False | Sent r => answer_ok w (ch_job ch0) r | Dropped => True end →
  inv h0 None (with_chans w (alter (λ ch, {| ch_job := ch_job ch; ch_state := st |}) c (q_chans w))).
Proof.
  intros [H1 (new & Hn & Hs) H3 H4 H5] Hx Hc0 Hst.
  assert (∀ c', ch_job <$> alter (λ ch, {| ch_job := ch_job ch; ch_state := st |}) c (q_chans w) !! c' =
                ch_job <$> q_chans w !! c') as Hjob.
  { intros c'. destruct (decide (c = c')) as [<-|]; [|by rewrite list_lookup_alter_ne].
    rewrite list_lookup_alter_eq. by destruct (q_chans w !! c). }
  split; cbn; try done.
  - by exists new.
  - intros j Hj. rewrite Hjob. by apply H3.
  - intros t c' Ht Hc. destruct (H4 t c' Ht Hc) as (ch & Hch & Hw).
    assert (ch_job <$> q_chans w !! c' = Some (ch_job ch)) as Hc' by (by rewrite Hch).
    rewrite <-Hjob in Hc'. apply fmap_Some in Hc' as (ch' & Hc' & Hjj). exists ch'. split; [done|]. by rewrite <-Hjj.
  - intros c' ch Hch. destruct (decide (c = c')) as [<-|Hne].
    + rewrite list_lookup_alter_eq, Hc0 in Hch. injection Hch as <-. destruct (H5 c ch0 Hc0) as [? _].
      split; [done|]. right. unfold chan_ok. cbn. by destruct st.
    + rewrite list_lookup_alter_ne in Hch by done. destruct (H5 c' ch Hch) as [? [[Ex _]|?]]; (split; [done|]); [|by right].
      destruct Hx as [-> | ->]; [done|]. by simplify_eq.
Qed.

(** A task is spawned for the channel. *)
Lemma qinv_spawn h0 x w t :
  inv h0 x w →
  match wt_resp t with
  | Some c => x = Some c ∧ ∃ ch, q_chans w !! c = Some ch ∧ waits_for w t (ch_job ch)
  | None => x = None
  end →
  inv h0 None (with_waits w (q_waits w ++ [t])).
Proof.
  intros [H1 (new & Hn & Hs) H3 H4 H5] Ht. split; cbn; try done; [by exists new| |].
  - intros t' c [Ht'|Ht'%list_elem_of_singleton]%elem_of_app Hr; [by apply H4|]. subst t'.
    rewrite Hr in Ht. destruct Ht as (_ & ch & Hch & Hw). by exists ch.
  - intros c ch Hch. destruct (H5 c ch Hch) as [? Hok]. split; [done|]. right.
    destruct Hok as [[Ex Ho]|Hok].
    + rewrite Ex in Ht. destruct (wt_resp t) as [c'|] eqn:Er; [|done]. destruct Ht as [[= <-] Ht].
      unfold chan_ok. cbn. rewrite Ho. right. exists t. set_solver.
    + unfold chan_ok in *. cbn. destruct (ch_state ch); [|done|done].
      destruct Hok as [?|(t' & ? & ?)]; [by left|right]. exists t'. set_solver.
Qed.

(** A task is over: its channel is open to be answered. *)
Lemma qinv_unspawn h0 w i t :
  inv h0 None w → q_waits w !! i = Some t →
  inv h0 (wt_resp t) (with_waits w (delete i (q_waits w))) ∧
  ∀ c, wt_resp t = Some c → ∃ ch, q_chans w !! c = Some ch ∧ waits_for w t (ch_job ch).
Proof.
  intros [H1 (new & Hn & Hs) H3 H4 H5] Hi.
  assert (t ∈ q_waits w) as Hin by (by eapply list_elem_of_lookup_2).
  assert (∀ t', t' ∈ delete i (q_waits w) → t' ∈ q_waits w) as Hsub.
  { intros t' Ht'. rewrite (delete_take_drop (q_waits w) i) in Ht'.
    rewrite <-(take_drop_middle (q_waits w) i t Hi). set_solver. }
  split; [|intros c Hr; by apply H4]. split; cbn; try done; [by exists new|by intros t' c ?%Hsub; apply H4|].
  intros c ch Hch. destruct (H5 c ch Hch) as [? [[? ?]|Hok]]; [done|]. split; [done|].
  unfold chan_ok in *. cbn. destruct (ch_state ch) eqn:Es; [|by right..].
  destruct Hok as [?|(t' & Ht' & Hr)]; [by right; left|].
  destruct (decide (wt_resp t = Some c)) as [?|Hne]; [by left|right]. right. exists t'. split; [|done].
  rewrite <-(take_drop_middle (q_waits w) i t Hi) in Ht'. rewrite delete_take_drop.
  apply elem_of_app in Ht' as [?|Ht']; [set_solver|]. apply elem_of_cons in Ht' as [->|?]; [done|set_solver].
Qed.

(** ** Submitting *)

(** The never-regress bookkeeping of a watermark just submitted. *)
Definition bump (kind : N) (key : string) (seq : N) (k : Worker) : Worker :=
  if kind =? RECORD_WATERMARK then
    {| wk_quorum := wk_quorum k; wk_replay := wk_replay k;
       wk_wm_max := <[key := N.max (default 0 (wk_wm_max k !! key)) seq]> (wk_wm_max k);
       wk_history := wk_history k |}
  else k.

Lemma worker_submit_spec kind key seq body w w' r :
  log_inv crc32 (q_worker w) → room w → (kind = RECORD_FRAME ∨ kind = RECORD_WATERMARK) →
  utf8 key = true → is_u64 seq →
  (kind = RECORD_WATERMARK → ∀ st sq,
     last_wm (sh_log (wk_quorum (q_worker w))) !! key = Some (st, sq) → sq ≤ seq) →
  worker_submit crc32 kind key seq body w = (w', r) →
  match r with
  | Err _ => w' = w
  | Ok e => ∃ k' rec, w' = with_worker w k' ∧ log_inv crc32 (bump kind key seq k') ∧
      wk_history k' = wk_history (q_worker w) ++ [meta_of crc32 rec] ∧
      sh_commit (wk_quorum k') = sh_commit (wk_quorum (q_worker w)) ∧
      m_end (meta_of crc32 rec) = e ∧
      r_kind rec = kind ∧ r_table_key rec = key ∧ r_seq rec = seq ∧ r_body rec = body
  end.
Proof.
  intros [Hh Hp (pre & Hpre & Hall) Hw Hc] [Hroom _] Hk Hutf Hu Hmono Hs. unfold worker_submit in Hs.
  destruct (submit crc32 kind key seq body (wk_quorum (q_worker w))) as [sh r0] eqn:Es.
  apply pair_equal_spec in Hs as [<- ->].
  pose proof (submit_appends_record crc32 crc32_u32 _ _ _ _ _ _ _ Hh Hk Hutf Hu Hroom Hmono Es) as Hspec.
  destruct r as [e|msg].
  2: { rewrite Hspec, drop_all, app_nil_r. destruct w as [tl js [] ws cs]. done. }
  destruct Hspec as (_ & Hh' & -> & _ & rec & H1 & H2 & H3 & H4 & H5 & Hrec).
  assert (sh_peers sh = sh_peers (wk_quorum (q_worker w)) ∧ sh_commit sh = sh_commit (wk_quorum (q_worker w)) ∧
    covered (sh_log sh) = covered (sh_log (wk_quorum (q_worker w))) ∧
    head (sh_log sh) = m_end (meta_of crc32 rec) ∧
    last_wm (sh_log sh) = if kind =? RECORD_WATERMARK
      then <[key := (head (sh_log (wk_quorum (q_worker w))), seq)]> (last_wm (sh_log (wk_quorum (q_worker w))))
      else last_wm (sh_log (wk_quorum (q_worker w)))) as (Epe & Ecm & Eco & Ehd & Elw).
  { unfold submit in Es. destruct (sh_poison _); [done|]. destruct (_ ≫= _) as [frame|] eqn:Ef; [|done].
    injection Es as Es Ee. subst sh. cbn [with_log sh_log records] in Hrec.
    apply app_inj_tail in Hrec as [_ Hrec]. apply (f_equal m_end) in Hrec. by split_and!. }
  rewrite Hrec, drop_app_length.
  assert (coverage_le (sh_log (wk_quorum (q_worker w))) (sh_log sh)) as Hle.
  { split; [by rewrite Eco|]. intros t st sq Ht. rewrite Elw.
    destruct (N.eqb_spec kind RECORD_WATERMARK) as [Ek|]; [|eauto with lia].
    destruct (decide (key = t)) as [<-|]; [|rewrite lookup_insert_ne by done; eauto with lia].
    rewrite lookup_insert_eq. eexists _, _. split; [done|]. split; [|by eapply Hmono].
    destruct Hh as ((recs & Hr & _ & Hpos & _) & [Hin _] & _). destruct (Hin _ _ _ Ht) as (m & Hm & _ & _ & <- & _).
    rewrite Hr in Hm. change (map (meta_of crc32) recs) with (meta_of crc32 <$> recs) in Hm.
    apply list_elem_of_fmap in Hm as (x & -> & Hx). destruct (positions_bounds _ _ _ _ _ Hpos Hx) as [_ Hb].
    cbn [meta_of m_start m_end] in *. lia. }
  eexists _, rec. split; [done|]. cbn [wk_history wk_quorum]. split_and!; try done.
  assert (∀ (mx : gmap string N),
    (∀ t st sq, last_wm (sh_log sh) !! t = Some (st, sq) → sq ≤ default 0 (mx !! t)) →
    log_inv crc32 {| wk_quorum := sh; wk_replay := wk_replay (q_worker w); wk_wm_max := mx;
                     wk_history := wk_history (q_worker w) ++ [meta_of crc32 rec] |}) as Hdone.
  { intros mx Hmx. split; cbn [wk_quorum wk_wm_max wk_history]; rewrite ?Epe, ?Eco; try done.
    exists pre. rewrite Hrec, Hpre. split; [by rewrite app_assoc|]. intros m Hm. rewrite Ecm.
    destruct (Hall m Hm). split; [done|]. by eapply coverable_mono. }
  unfold bump. cbn [wk_quorum wk_replay wk_wm_max wk_history]. destruct (N.eqb_spec kind RECORD_WATERMARK); apply Hdone.
  - intros t st sq. rewrite Elw. destruct (decide (key = t)) as [<-|].
    + rewrite !lookup_insert_eq. intros [= <- <-]. simpl. lia.
    + rewrite !lookup_insert_ne by done. apply Hw.
  - intros t st sq. rewrite Elw. apply Hw.
Qed.

(** ** Every step keeps the invariant *)

Lemma room_tail w t : room w → (∀ table n, qt_next_seq t !! table = Some n → n < u64_max) → room (with_tail w t).
Proof. intros [? _] ?. by split. Qed.

Lemma qinv_watermark h0 x w key seq :
  inv h0 x w → room w → utf8 key = true → is_u64 seq →
  (∀ st sq, last_wm (sh_log (wk_quorum (q_worker w))) !! key = Some (st, sq) → sq ≤ seq) →
  match x with
  | Some c => ∃ ch, q_chans w !! c = Some ch ∧ match ch_job ch with AppendJob _ _ _ _ => False | _ => True end
  | None => True
  end →
  inv h0 None (append_watermark_off_loop crc32 key seq x w).
Proof.
  intros Hinv Hroom Hutf Hu Hmono Hx. unfold append_watermark_off_loop.
  destruct (worker_submit _ _ _ _ _ _) as [w1 r] eqn:Es. cbv beta iota zeta.
  pose proof (worker_submit_spec _ _ _ _ _ _ _ (iv_log _ _ _ Hinv) Hroom (or_intror eq_refl) Hutf Hu
    (λ _, Hmono) Es) as Hs.
  destruct r as [e|msg].
  - destruct Hs as (k' & rec & -> & Hlog & Hh & Hc & _ & Hk & _).
    unfold bump in Hlog. rewrite N.eqb_refl in Hlog. cbn [with_worker q_worker].
    set (k2 := {| wk_quorum := _ |}) in *.
    apply (qinv_spawn h0 x (with_worker w k2)); cbn [wt_resp].
    + apply (qinv_worker h0 x w k2 [meta_of crc32 rec]); try done; [cbn; lia|].
      intros new _. apply seq_ok_other. cbn. by rewrite Hk.
    + destruct x as [c|]; [|done]. split; [done|]. destruct Hx as (ch & Hch & Hj). exists ch.
      split; [done|]. unfold waits_for. by destruct (ch_job ch).
  - subst w1. destruct x as [c|]; [|done]. destruct Hx as (ch & Hch & Hj).
    eapply (qinv_set_chan h0 (Some c) w c _ ch); [done|by right|done|]. cbn. by destruct (ch_job ch).
Qed.

Lemma qinv_run_job h0 w j js :
  inv h0 None w → room w → q_jobs w = j :: js → inv h0 None (run_job crc32 j (with_jobs w js)).
Proof.
  intros Hinv Hroom Hj. destruct (qinv_pop _ _ _ _ Hinv Hj) as (Hpop & Hwf & ch & Hch & Hcj).
  set (w1 := with_jobs w js) in *. assert (room w1) as Hroom1 by done.
  assert (∀ r, answer_ok w1 j r → inv h0 None (reply (job_resp j) r w1)) as Hreply.
  { intros r Hr. eapply (qinv_set_chan h0 _ w1 _ _ ch); [exact Hpop|by right|done|]. by rewrite Hcj. }
  destruct j as [key seq payload c|c|key seq c|key seq c|c]; cbn [run_job job_resp job_wf] in *.
  - destruct Hwf as [Hutf Hu].
    destruct (worker_submit _ _ _ _ _ _) as [w2 r] eqn:Es.
    pose proof (worker_submit_spec _ _ _ _ _ _ _ (iv_log _ _ _ Hpop) Hroom1 (or_introl eq_refl) Hutf Hu
      (λ (E : RECORD_FRAME = RECORD_WATERMARK), ltac:(done)) Es) as Hs.
    destruct r as [e|msg]; [|subst w2; by apply Hreply].
    destruct Hs as (k' & rec & -> & Hlog & Hh & Hc & He & Hk & Ht & Hq & Hb).
    unfold bump in Hlog. change (RECORD_FRAME =? RECORD_WATERMARK) with false in Hlog. cbv iota in Hlog.
    apply (qinv_spawn h0 (Some c) (with_worker w1 k')); cbn [wt_resp].
    + apply (qinv_worker h0 (Some c) w1 k' [meta_of crc32 rec]); [done|done|done|rewrite Hc; lia|].
      intros new Hn _. destruct (iv_seqs _ _ _ Hinv) as (new' & Hn' & Hsq).
      change (q_worker w1) with (q_worker w) in Hn. rewrite Hn in Hn'. apply app_inv_head in Hn' as <-.
      rewrite Hj in Hsq. by eapply seq_ok_move.
    + split; [done|]. exists ch. split; [done|]. rewrite Hcj. cbn. exists (meta_of crc32 rec).
      split_and!; [|by exists rec|done]. rewrite Hh. set_solver.
  - assert (inv h0 (Some c) (with_worker w1 {| wk_quorum := wk_quorum (q_worker w1); wk_replay := None;
      wk_wm_max := wk_wm_max (q_worker w1); wk_history := wk_history (q_worker w1) |})) as Hinv2.
    { apply (qinv_worker h0 _ w1 _ []); [done| |by rewrite app_nil_r|done|intros new _; by rewrite app_nil_r].
      destruct (iv_log _ _ _ Hpop). by split. }
    eapply (qinv_set_chan h0 _ _ c _ ch Hinv2); [by right|done|]. by rewrite Hcj.
  - destruct (note_covered key seq (wk_quorum (q_worker w1))) as [sh refresh] eqn:En.
    unfold note_covered in En. set (sh1 := with_log _ _) in En.
    destruct Hwf as [Hutf Hu].
    assert (log_inv crc32 (with_quorum (q_worker w1) sh1)) as Hl1.
    { destruct (iv_log _ _ _ Hpop) as [(Hr & Hw & Hh & Hcv) Hp (pre & Hpre & Hall) Hwm Hc].
      assert (coverage_le (sh_log (wk_quorum (q_worker w1))) (sh_log sh1)) as Hle.
      { split; [|intros; eauto with lia]. intros t. cbn [sh1 with_log sh_log covered].
        destruct (decide (key = t)) as [<-|].
        - rewrite lookup_insert_eq. apply N.le_max_l.
        - by rewrite lookup_insert_ne. }
      split; cbn [with_quorum wk_quorum wk_history wk_wm_max]; try done.
      - split; [done|]. split; [done|]. split; [done|]. intros m Hm He. eapply coverable_mono; [done|]. by apply Hcv.
      - exists pre. split; [done|]. intros m Hm. destruct (Hall m Hm). split; [done|]. by eapply coverable_mono.
      - intros t q. cbn [sh1 with_log sh_log covered]. destruct (decide (key = t)) as [<-|]; [|rewrite lookup_insert_ne by done; apply Hc].
        rewrite lookup_insert_eq. intros Hq. apply (inj Some) in Hq as <-.
        destruct (covered (sh_log (wk_quorum (q_worker w1))) !! key) as [q|] eqn:Eq; cbn [default from_option id]; [|lia].
        specialize (Hc _ _ Eq). lia. }
    destruct (log_inv_advance crc32 crc32_u32 _ _ _ _ Hl1 En) as [Hl2 Href].
    destruct (advance_horizon_spec crc32 crc32_u32 _ _ _ (li_horizon _ _ Hl1) En) as (_ & _ & Hcm & _).
    set (w2 := with_worker w1 (with_quorum (q_worker w1) sh)).
    assert (inv h0 (Some c) w2) as Hinv2.
    { apply (qinv_worker h0 _ w1 _ []); [done|done|by rewrite app_nil_r| |intros new _; by rewrite app_nil_r].
      cbn. rewrite Hcm. cbn. lia. }
    assert (inv h0 None (reply c (Unit (Ok tt)) w2)) as Hinv3.
    { eapply (qinv_set_chan h0 _ _ c _ ch Hinv2); [by right|done|]. by rewrite Hcj. }
    destruct refresh as [[t q]|]; [|done]. destruct (Href t q eq_refl) as (H1 & H2 & H3).
    apply qinv_watermark; try done. destruct Hroom1 as [Hroom1 ?]. split; [|done]. cbn.
    apply advance_horizon_frame in En as (_ & _ & _ & _ & -> & _). done.
  - destruct Hwf as [Hutf Hu]. destruct (_ <=? _) eqn:El; bool_prop; [by apply Hreply|].
    apply qinv_watermark; try done.
    + intros st sq Hl. pose proof (li_wm _ _ (iv_log _ _ _ Hpop) _ _ _ Hl). lia.
    + exists ch. split; [done|]. by rewrite Hcj.
  - by apply Hreply.
Qed.

(** One turn of a wait. *)
Lemma wait_turn_quiet pos wake st sh sh' r :
  wait_commit pos [(id, wake)] st sh = (sh', r) →
  quiet sh sh' ∧ (r = Some (Ok tt) → pos ≤ sh_commit sh').
Proof.
  intros Hw. split; [|intros ->; by eapply (proj1 (wait_commit_cases _ _ _ _ _ _ Hw))].
  assert (∀ why, quiet sh (poison why sh)) as Hp by (intros; by split_and!).
  assert (∀ why r, quiet sh (poison why (request_reelection r sh))) as Hp2 by (intros; by split_and!).
  assert (quiet sh sh) as Hr by (by split_and!).
  assert (∀ r, quiet sh (request_reelection r sh)) as Hq by (intros; by split_and!).
  cbn [wait_commit] in Hw. unfold id in Hw.
  repeat (case_match; simplify_eq; auto).
Qed.

Lemma qinv_quiet h0 x w sh :
  inv h0 x w → quiet (wk_quorum (q_worker w)) sh → inv h0 x (with_worker w (with_quorum (q_worker w) sh)).
Proof.
  intros Hinv Hq. apply (qinv_worker h0 x w _ []); [done|by apply log_inv_quiet; [apply Hinv|]|by rewrite app_nil_r|apply Hq|].
  intros new _. by rewrite app_nil_r.
Qed.

(** A turn that does not end the task only marks it stalled. *)
Lemma qinv_mark h0 x w i t t' :
  inv h0 x w → q_waits w !! i = Some t → wt_end t' = wt_end t → wt_resp t' = wt_resp t →
  inv h0 x (with_waits w (<[i := t']> (q_waits w))).
Proof.
  intros [H1 H2 H3 H4 H5] Hi He Hr. split; cbn; try done.
  - intros u c Hu Huc. apply list_elem_of_lookup in Hu as [j Hj].
    destruct (decide (i = j)) as [<-|].
    + rewrite list_lookup_insert_eq in Hj by (by eapply lookup_lt_Some). simplify_eq.
      rewrite Hr in Huc. destruct (H4 t c) as (ch & Hch & Hw); [by eapply list_elem_of_lookup_2|done|].
      exists ch. split; [done|]. unfold waits_for in *. by rewrite He.
    + rewrite list_lookup_insert_ne in Hj by done. apply H4; [|done]. by eapply list_elem_of_lookup_2.
  - intros c ch Hch. destruct (H5 c ch Hch) as [? [?|Hok]]; (split; [done|]); [by left|right].
    unfold chan_ok in *. cbn. destruct (ch_state ch); [|done|done].
    destruct Hok as [?|(u & Hu & Huc)]; [by left|right]. apply list_elem_of_lookup in Hu as [j Hj].
    destruct (decide (i = j)) as [<-|].
    + simplify_eq. exists t'. split; [|by rewrite Hr]. eapply list_elem_of_lookup_2.
      apply list_lookup_insert_eq. by eapply lookup_lt_Some.
    + exists u. split; [|done]. eapply (list_elem_of_lookup_2 _ j). by rewrite list_lookup_insert_ne.
Qed.

Lemma qinv_wait_turn h0 w i wake w' :
  inv h0 None w → wait_turn i wake w = Some w' → inv h0 None w'.
Proof.
  intros Hinv Ht. unfold wait_turn in Ht. apply bind_Some in Ht as (t & Hi & Ht).
  destruct (wait_commit _ _ _ _) as [sh r] eqn:Ew. destruct (wait_turn_quiet _ _ _ _ _ _ Ew) as [Hq Hok].
  destruct r as [r|]; injection Ht as <-.
  2: { by eapply (qinv_mark h0 None (with_worker w (with_quorum (q_worker w) sh)) i t); [by apply qinv_quiet|..]. }
  set (w1 := with_worker w (with_quorum (q_worker w) sh)).
  assert (inv h0 None w1) as Hinv1 by (by apply qinv_quiet).
  set (sh' := if wt_nudge t && is_ok r then _ else _).
  assert (log_inv crc32 (with_quorum (q_worker w) sh') ∧ sh_commit sh' = sh_commit sh) as [Hlog Hcm].
  { unfold sh'. destruct (wt_nudge t && is_ok r); [|split; [apply (iv_log _ _ _ Hinv1)|done]].
    destruct (nudge_horizon sh) as [sh2 ref] eqn:En.
    destruct (log_inv_advance crc32 crc32_u32 (q_worker w) sh sh2 ref (iv_log _ _ _ Hinv1) En) as [? _].
    split; [done|]. by eapply (advance_horizon_spec crc32 crc32_u32 sh); [apply (iv_log _ _ _ Hinv1)|]. }
  set (w2 := with_worker w (with_quorum (q_worker w) sh')).
  assert (inv h0 None w2) as Hinv2.
  { apply (qinv_worker h0 None w1 _ []); [done|done|by rewrite app_nil_r| |intros new _; by rewrite app_nil_r].
    cbn. rewrite Hcm. lia. }
  destruct (qinv_unspawn h0 w2 i t Hinv2 Hi) as [Hinv3 Hwf].
  destruct (wt_resp t) as [c|] eqn:Er; [|exact Hinv3]. destruct (Hwf c eq_refl) as (ch & Hch & Hj).
  eapply (qinv_set_chan h0 (Some c) _ c (Sent (Unit r)) ch Hinv3); [by right|done|].
  unfold waits_for, answer_ok in *. destruct (ch_job ch); try done. destruct r as [[]|]; [|done].
  destruct Hj as (m & Hm & Ha & He). exists m. split; [done|]. split; [done|]. cbn. rewrite Hcm, He. by apply Hok.
Qed.

Lemma qinv_wait_dies h0 w i w' : inv h0 None w → wait_dies i w = Some w' → inv h0 None w'.
Proof.
  intros Hinv Ht. unfold wait_dies in Ht. apply bind_Some in Ht as (t & Hi & Ht). injection Ht as <-.
  destruct (qinv_unspawn h0 w i t Hinv Hi) as [Hinv2 Hwf].
  destruct (wt_resp t) as [c|] eqn:Er; [|exact Hinv2]. destruct (Hwf c eq_refl) as (ch & Hch & _).
  by eapply (qinv_set_chan h0 (Some c) _ c Dropped ch Hinv2); [by right|..].
Qed.

(** What the supervisor does is quiet too. *)
Lemma supervise_quiet reason n sh e e' sh' n' b :
  supervise reason n sh e = (e', Ok (sh', n', b)) → quiet sh sh'.
Proof.
  unfold supervise. destruct (sh_poison sh); [intros [= <- <-]; by split_and!|].
  destruct (match reason with Fenced _ => _ | Stalled _ => _ end); [intros [= <- <-]; by split_and!|].
  intros Hs. apply st_bind_Ok in Hs as ([sh1 res] & e1 & Hr & Hs). injection Hs as _ Hs.
  apply reelect_spec in Hr. destruct res as [[t|m]|t].
  - injection Hs as <- _ _. subst sh1. by split_and!.
  - subst sh1. destruct (_ <=? _); injection Hs as <- _ _; by split_and!.
  - injection Hs as <- _ _. destruct Hr as (_ & ? & Hc & ? & _ & ? & _). split_and!; try done. rewrite Hc. lia.
Qed.

Lemma with_tail_same w : with_tail w (q_tail w) = w.
Proof. by destruct w. Qed.

(** Sending a job that is no append. *)
Lemma qinv_send_plain h0 w build :
  inv h0 None w → (∀ c, job_resp (build c) = c ∧ job_wf (build c) ∧ ∀ key, job_seq key (build c) = None) →
  inv h0 None (fst (send_job build w)).
Proof.
  intros Hinv Hb. destruct (Hb (length (q_chans w))) as (Hr & Hwf & Hj).
  eapply (qinv_send h0 w build _ (length (q_chans w))); [done|reflexivity|done|done|].
  intros new _. by apply seq_ok_job.
Qed.

Lemma names_key table : names_a_table table → ∃ d, table_dir_name table = Ok d ∧ utf8 (bytes_str d) = true ∧
  key_of table (bytes_str d).
Proof. intros (d & Hd & Hu & Hp). exists d. split_and!; try done. by exists d. Qed.

Lemma qinv_append h0 w table kind batches :
  inv h0 None w → room w → names_a_table table →
  inv h0 None (fst (append_staged table kind batches w)).
Proof.
  intros Hinv [_ Hroom] (d & Hd & Hu & Hk)%names_key. unfold append_staged.
  unfold st_bind at 1, st_lift at 1. destruct (check_poisoned (q_tail w)); [|done].
  unfold st_bind at 1, st_lift at 1. rewrite Hd.
  unfold st_bind at 1, st_lift at 1. destruct (encode_op_payload kind batches) as [payload|]; [|done].
  set (seq := default 1 (qt_next_seq (q_tail w) !! table)).
  assert (seq < u64_max) as Hseq.
  { unfold seq. destruct (qt_next_seq (q_tail w) !! table) eqn:El; [by eapply Hroom|done]. }
  cbv zeta. unfold st_bind, send_job. cbn [fst].
  set (c := length (q_chans w)). set (j := AppendJob (bytes_str d) seq payload c).
  set (next := <[table := wadd seq 1]> (qt_next_seq (q_tail w))).
  set (wt := with_tail w (with_next_seq (q_tail w) next)).
  destruct Hinv as [H1 (new & Hn & Hs) H3 H4 H5].
  assert (seq_ok h0 new (q_jobs w ++ [j]) next) as Hs' by (by apply seq_ok_stage).
  (* sending first, on the raised sequences *)
  assert (∀ js nx, seq_ok h0 new (js ++ [j]) nx → seq_ok h0 new js nx) as Hless.
  { intros js nx Hx t k Hkey. destruct (Hx t k Hkey) as (X1 & X2 & X3). cbv zeta in *.
    rewrite omap_snoc in *. destruct (job_seq k j) as [s|]; [|by rewrite !app_nil_r in *].
    rewrite app_assoc in X1. split_and!.
    - rewrite <-(app_nil_r (_ ++ _)). by eapply sorted_drop_mid.
    - intros s0 s' ? ?. apply X2; [done|]. set_solver.
    - intros s' ?. apply X3. set_solver. }
  assert (inv h0 None wt) as Hwt.
  { split; try done. exists new. split; [done|]. by apply Hless. }
  eapply (qinv_send h0 wt (λ c, AppendJob (bytes_str d) seq payload c) _ c Hwt); [reflexivity|done| |].
  - split; [done|]. unfold u64_max, u64_modulus in *. lia.
  - intros new' Hn' _. change (q_worker wt) with (q_worker w) in Hn'. rewrite Hn in Hn'.
    by apply app_inv_head in Hn' as <-.
Qed.

Theorem qinv_exec h0 w e a w' e' :
  inv h0 None w → room w → sensible a → exec crc32 a w e = Some (w', e') → inv h0 None w'.
Proof.
  intros Hinv Hroom Ha Hx. destruct a as [table kind bs|table floor|table q|table q| | |c| |i wake|i|i conn|why n];
    cbn [exec sensible] in *.
  - injection Hx as <- _. by apply qinv_append.
  - injection Hx as <- _. apply qinv_tail; [done|]. intros new. by apply seq_ok_floor.
  - injection Hx as <- _. destruct Ha as [(d & Hd & Hu & _)%names_key Hq].
    unfold truncate_send, st_bind, st_lift. rewrite Hd. by apply qinv_send_plain.
  - injection Hx as <- _. destruct Ha as [(d & Hd & Hu & _)%names_key Hq].
    unfold record_watermark_send, st_bind, st_lift. rewrite Hd. by apply qinv_send_plain.
  - injection Hx as <- _. by apply qinv_send_plain.
  - injection Hx as <- _. unfold health_send, st_bind, st_lift.
    destruct (check_poisoned _); [by apply qinv_send_plain|done].
  - injection Hx as <- _. unfold wait_append_outcome.
    destruct (recv c w) as [[[[]|]|]|]; try done. by apply qinv_tail.
  - destruct (q_jobs w) as [|j js] eqn:Ej; [done|]. injection Hx as <- _. by apply qinv_run_job.
  - apply bind_Some in Hx as (w1 & Hw & [= <- <-]). by eapply qinv_wait_turn.
  - apply bind_Some in Hx as (w1 & Hw & [= <- <-]). by eapply qinv_wait_dies.
  - destruct (peer_round _ _ _ _) as [e1 [[sh conn']|]] eqn:Ep; injection Hx as <- _; [|done].
    apply qinv_quiet; [done|].
    destruct (peer_round_spec i conn _ _ _ _ _ (li_peers _ _ (iv_log _ _ _ Hinv)) Ep) as [Hsafe _].
    destruct Hsafe as ((? & _ & ? & ?) & ? & _). by split_and!.
  - destruct (supervise _ _ _ _) as [e1 [[[sh n'] b]|]] eqn:Es; injection Hx as <- _; [|done].
    apply qinv_quiet; [done|]. by eapply supervise_quiet.
Qed.

Lemma qinv_run h0 w0 e0 w e : inv h0 None w0 → run crc32 w0 e0 w e → inv h0 None w.
Proof.
  intros Hi Hr. induction Hr as [|w0 e0 w e a w' e' Hr IH Hroom Ha Hx]; [done|].
  by eapply qinv_exec; [apply IH|..].
Qed.

(** ** Opening *)

(** The recovered records: a size the wire carries, sequences of the machine's
    width, keys that [table_dir_name] made. *)
Definition recovered (w : world) : list Record_ := default [] (wk_replay (q_worker w)).
Definition recovered_ok (w : world) : Prop :=
  (∀ r, r ∈ recovered w → len (record_frame crc32 r) + APPEND_MESSAGE_HEADROOM ≤ MAX_MESSAGE_BYTES ∧
     r_seq r < u64_max ∧ ∃ table, table_dir_name table = Ok (str_bytes (r_table_key r))) ∧
  is_u64 (base (sh_log (wk_quorum (q_worker w))) + len (concat (map (record_frame crc32) (recovered w)))).

Lemma parse_canonical t t' d : table_dir_name t = Ok d → parse_table_dir_name d = Some t' → t' = t.
Proof.
  intros Hd. unfold parse_table_dir_name. rewrite (split_table_dir _ _ Hd). cbn [mbind option_bind].
  destruct (_ || _); [done|]. rewrite removelast_last, last_last. destruct t. by intros [= <-].
Qed.

Lemma fold_seeds_spec recs :
  (∀ r, r ∈ recs → ∃ s, fold_seeds recs !! r_table_key r = Some s ∧ r_seq r ≤ s) ∧
  ∀ key s, fold_seeds recs !! key = Some s → ∃ r, r ∈ recs ∧ r_table_key r = key ∧ r_seq r = s.
Proof.
  induction recs as [|x recs [IH1 IH2]] using rev_ind; [split; [intros r Hr; by apply not_elem_of_nil in Hr|done]|].
  unfold fold_seeds in *. rewrite foldl_snoc. split.
  - intros r [Hr|Hr%list_elem_of_singleton]%elem_of_app.
    + destruct (IH1 r Hr) as (s & Hs & Hle). destruct (decide (r_table_key x = r_table_key r)) as [->|].
      * rewrite lookup_insert_eq, Hs. eexists. split; [done|]. simpl. lia.
      * rewrite lookup_insert_ne by done. eauto.
    + subst r. rewrite lookup_insert_eq. eexists. split; [done|]. lia.
  - intros key s. destruct (decide (r_table_key x = key)) as [<-|].
    + rewrite lookup_insert_eq. intros [= <-].
      destruct (foldl _ ∅ recs !! r_table_key x) as [s0|] eqn:E0; simpl.
      * destruct (N.max_spec s0 (r_seq x)) as [[_ ->]|[_ ->]]; [exists x; set_solver|].
        destruct (IH2 _ _ E0) as (r & ? & ?). exists r. set_solver.
      * exists x. split_and!; [set_solver|done|lia].
    + rewrite lookup_insert_ne by done. intros (r & ? & ?)%IH2. exists r. set_solver.
Qed.

Lemma seed_next_seq_lookup seeds table v :
  (∀ ks, ks ∈ seeds → parse_table_dir_name (str_bytes (fst ks)) = Some table → snd ks = v) →
  (∃ ks, ks ∈ seeds ∧ parse_table_dir_name (str_bytes (fst ks)) = Some table) →
  seed_next_seq seeds !! table = Some v.
Proof.
  induction seeds as [|x seeds IH] using rev_ind; intros Hall (ks & Hks & Hp); [by apply not_elem_of_nil in Hks|].
  assert (seed_next_seq (seeds ++ [x]) = match parse_table_dir_name (str_bytes (fst x)) with
    | Some ident => <[ident := snd x]> (seed_next_seq seeds) | None => seed_next_seq seeds end) as ->
    by (unfold seed_next_seq; by rewrite foldl_snoc).
  assert (parse_table_dir_name (str_bytes (fst x)) ≠ Some table → seed_next_seq seeds !! table = Some v) as Hrec.
  { intros Hne. apply IH; [intros y Hy; apply Hall; set_solver|]. exists ks. split; [|done].
    apply elem_of_app in Hks as [?|Hx%list_elem_of_singleton]; [done|]. by subst. }
  destruct (parse_table_dir_name (str_bytes (fst x))) as [t|] eqn:Ex; [|by apply Hrec].
  destruct (decide (t = table)) as [->|].
  - rewrite lookup_insert_eq. f_equal. apply Hall; [set_solver|done].
  - rewrite lookup_insert_ne by done. apply Hrec. congruence.
Qed.

Lemma fold_watermarks_spec recs t st sq :
  seed_wm recs !! t = Some (st, sq) → sq ≤ default 0 (fold_watermarks recs !! t).
Proof.
  revert st sq. induction recs as [|x recs IH] using rev_ind; intros st sq; [done|].
  unfold seed_wm, fold_watermarks in *. rewrite !foldl_snoc. destruct (_ =? _); [|apply IH].
  destruct (decide (r_table_key x = t)) as [->|].
  - rewrite !lookup_insert_eq. intros [= <- <-]. simpl. lia.
  - rewrite !lookup_insert_ne by done. apply IH.
Qed.

Lemma open_inv minted chunk e0 e1 w0 :
  open_with_config crc32 minted chunk e0 = (e1, Ok w0) → recovered_ok w0 →
  wk_history (q_worker w0) = map (meta_of crc32) (recovered w0) ∧
  inv (map (meta_of crc32) (recovered w0)) None w0.
Proof.
  unfold open_with_config, worker_main. intros Ho [Hrec Hu]. apply st_bind_Ok in Ho as ([init worker] & e2 & Hw & Ho).
  apply st_bind_Ok in Hw as ([sh recs] & e3 & Hq & Hw). injection Hw as _ <- <-. injection Ho as _ <-.
  unfold recovered in *. cbn [q_worker wk_replay wk_quorum wk_history default from_option id] in *.
  destruct (open_quorum_spec crc32 minted chunk _ _ _ _ Hq) as (Hlog & Hhor & (Hcov & Hwm & Hlen) & _);
    [intros r Hr; by apply Hrec|done|].
  pose proof Hlog as (Hrecs & _). split; [done|].
  split; cbn [q_worker q_jobs q_waits q_chans q_tail qt_next_seq wk_history wk_quorum]; try done.
  - split; cbn [wk_quorum wk_history wk_wm_max]; try done.
    + rewrite Hlen. unfold QUORUM, QUORUM_SIZE. lia.
    + exists []. split; [done|]. intros m Hm. by apply not_elem_of_nil in Hm.
    + rewrite Hwm. intros t st sq. apply fold_watermarks_spec.
    + intros t q. by rewrite Hcov.
  - exists []. rewrite app_nil_r. split; [done|]. intros table key (d & Hd & -> & Hp). cbv zeta. simpl.
    split; [constructor|]. split; [intros s0 s _ Hs; by apply not_elem_of_nil in Hs|].
    rewrite app_nil_r. intros s Hs. apply list_elem_of_omap in Hs as (m & Hm & Hs).
    change (map (meta_of crc32) recs) with (meta_of crc32 <$> recs) in Hm.
    apply list_elem_of_fmap in Hm as (r & -> & Hr). unfold frame_seq in Hs.
    destruct (_ && _) eqn:Eb; [|done]. apply andb_prop in Eb as [_ Eb]. apply bool_decide_eq_true in Eb.
    cbn [meta_of m_table_key m_seq] in Eb, Hs. injection Hs as <-.
    destruct (fold_seeds_spec recs) as [Hge Hin]. destruct (Hge r Hr) as (v & Hv & Hle).
    destruct (Hin _ _ Hv) as (rv & Hrv & _ & Hsv). destruct (Hrec rv Hrv) as (_ & Hmax & _).
    rewrite (seed_next_seq_lookup _ table (v + 1)).
    + simpl. lia.
    + intros ks Hks Hpk. change (map ?f ?l) with (f <$> l) in Hks.
      apply list_elem_of_fmap in Hks as ([k s] & -> & Hks%elem_of_map_to_list). cbn [fst snd] in *.
      destruct (Hin _ _ Hks) as (r' & Hr' & <- & <-). destruct (Hrec r' Hr') as (_ & Hb & t' & Ht').
      pose proof (parse_canonical _ _ _ Ht' Hpk) as <-. rewrite Hd in Ht'. injection Ht' as ->.
      rewrite bytes_str_bytes in Eb. rewrite <-Eb, Hv in Hks. injection Hks as ->. apply wadd_small.
      unfold u64_max, u64_modulus in *. lia.
    + exists (r_table_key r, wadd v 1). split; [|cbn [fst]; by rewrite Eb, str_bytes_str].
      change (map ?f ?l) with (f <$> l). apply list_elem_of_fmap. exists (r_table_key r, v). split; [done|].
      by apply elem_of_map_to_list.
  - intros j Hj. by apply not_elem_of_nil in Hj.
  - intros t c Ht. by apply not_elem_of_nil in Ht.
Qed.
End System.
