(* ===== verification/TailQuorumSafe.v ===== *)
(** * What the quorum tail store promises

    Acks, sequences and answers over any run of the store; replay against its
    reference definition. *)
From Stdlib Require Import Sorting.Sorted.
From S2P Require Import Prelude Text Proto Acceptor Proposer Election TailNames Tail Buffer.
From S2P Require Import TailQuorum TailQuorumInv.
#[local] Open Scope N_scope.

Section Runs.
Context (crc32 : list byte → N) (crc32_u32 : ∀ bs, is_u32 (crc32 bs)).
Context {RecordBatch : Type} `{Arrow RecordBatch} {E : Type} `{Net E}.
Implicit Types w : world.
#[local] Arguments record_frame : simpl never.

(** C20: an append acked by the quorum tail store is durable: its record was
    submitted with the sequence, table and payload of the statement, ends at or
    below the commit position, and is still in the retained log unless coverage
    reached its sequence and a watermark record at or above it is retained in its
    place; whatever callers, worker, commit tasks, peers, elections and dying
    tasks do in between. *)
Theorem quorum_tail_acks_are_committed minted chunk e0 e1 w0 w e c ch key seq payload resp :
  open_with_config crc32 minted chunk e0 = (e1, Ok w0) → recovered_ok crc32 w0 →
  run crc32 w0 e1 w e →
  q_chans w !! c = Some ch → ch_job ch = AppendJob key seq payload resp →
  ch_state ch = Sent (Unit (Ok tt)) →
  let sh := wk_quorum (q_worker w) in
  ∃ rec, r_kind rec = RECORD_FRAME ∧ r_table_key rec = key ∧ r_seq rec = seq ∧ r_body rec = payload ∧
    meta_of crc32 rec ∈ wk_history (q_worker w) ∧ m_end (meta_of crc32 rec) ≤ sh_commit sh ∧
    (meta_of crc32 rec ∈ records (sh_log sh) ∨
     seq ≤ default 0 (covered (sh_log sh) !! key) ∧
     ∃ m, m ∈ records (sh_log sh) ∧ m_kind m = RECORD_WATERMARK ∧ m_table_key m = key ∧ seq ≤ m_seq m).
Proof.
  intros Ho Hrec Hrun Hc Hj Hs. cbv zeta. destruct (open_inv crc32 crc32_u32 _ _ _ _ _ Ho Hrec) as [_ Hi0].
  pose proof (qinv_run _ crc32_u32 _ _ _ _ _ Hi0 Hrun) as [Hlog _ _ _ Hch].
  destruct (Hch c ch Hc) as [_ [[? _]|Hok]]; [done|]. unfold chan_ok, answer_ok in Hok.
  rewrite Hs, Hj in Hok. destruct Hok as (m & Hm & (rec & -> & Hk & Ht & Hq & Hb) & He).
  exists rec. split_and!; try done. destruct Hlog as [(_ & Hwm & _) _ (pre & Hpre & Hall) _ _].
  rewrite Hpre in Hm. apply elem_of_app in Hm as [Hm|?]; [|by left]. right.
  destruct (Hall _ Hm) as [_ Hcv]. destruct (coverable_witness _ _ Hwm Hcv) as (v & Hv & Hvk & Hvt & _ & Hf & _).
  cbn [meta_of m_kind m_table_key m_seq] in *. rewrite Ht, Hq in *. destruct (Hf Hk) as [? ?].
  split; [done|]. by exists v.
Qed.

(** Sequences of the quorum tail store are never reused: past the recovered
    records, each table's frames are in the log in strictly increasing sequence,
    the queued appends continue them, all of them lie above every recovered frame
    of the table and below the sequence the table gives next. *)
Theorem quorum_tail_sequences_never_reused minted chunk e0 e1 w0 w e :
  open_with_config crc32 minted chunk e0 = (e1, Ok w0) → recovered_ok crc32 w0 →
  run crc32 w0 e1 w e →
  ∃ new, wk_history (q_worker w) = map (meta_of crc32) (recovered w0) ++ new ∧
  ∀ table key, key_of table key →
    let seqs := frame_seqs key new ++ job_seqs key (q_jobs w) in
    StronglySorted N.lt seqs ∧
    (∀ s0 s, s0 ∈ frame_seqs key (map (meta_of crc32) (recovered w0)) → s ∈ seqs → s0 < s) ∧
    ∀ s, s ∈ frame_seqs key (map (meta_of crc32) (recovered w0)) ++ seqs →
         s < default 1 (qt_next_seq (q_tail w) !! table).
Proof.
  intros Ho Hrec Hrun. destruct (open_inv crc32 crc32_u32 _ _ _ _ _ Ho Hrec) as [_ Hi0].
  pose proof (qinv_run _ crc32_u32 _ _ _ _ _ Hi0 Hrun) as [_ Hs _ _ _]. exact Hs.
Qed.

Lemma recv_set_chan w c c' st :
  c' ≠ c ∨ q_chans w !! c' = None →
  recv c' (with_chans w (alter (λ ch, {| ch_job := ch_job ch; ch_state := st |}) c (q_chans w))) = recv c' w.
Proof.
  intros Hc. unfold recv. cbn [with_chans q_chans]. destruct (decide (c = c')) as [<-|].
  - destruct Hc as [?|Hc]; [done|]. by rewrite list_lookup_alter_eq, Hc.
  - by rewrite list_lookup_alter_ne.
Qed.

(** C21: every request gets an answer: while a reply channel is open its job is in
    the worker's queue, or a task holds the channel; two turns of that task on
    expired deadlines answer it; and a task that dies instead is noticed by the
    caller, whose append then fails and poisons the store, so that its sequence is
    never staged again. *)
Theorem quorum_tail_requests_answered minted chunk e0 e1 w0 w e c ch :
  open_with_config crc32 minted chunk e0 = (e1, Ok w0) → recovered_ok crc32 w0 →
  run crc32 w0 e1 w e → q_chans w !! c = Some ch → ch_state ch = Open_ →
  ch_job ch ∈ q_jobs w ∨
  ∃ i, (∃ w1, wait_turn i WTimeout w = Some w1 ∧
              (recv c w1 ≠ None ∨ ∃ w2, wait_turn i WTimeout w1 = Some w2 ∧ recv c w2 ≠ None)) ∧
       ∃ w1, wait_dies i w = Some w1 ∧
             ∃ w2 err, wait_append_outcome c w1 = (w2, Some (Err err)) ∧
                       ∀ table kind batches, is_ok (snd (append_staged table kind batches w2)) = false.
Proof.
  intros Ho Hrec Hrun Hc Hs. destruct (open_inv crc32 crc32_u32 _ _ _ _ _ Ho Hrec) as [_ Hi0].
  pose proof (qinv_run _ crc32_u32 _ _ _ _ _ Hi0 Hrun) as [_ _ _ _ Hch].
  destruct (Hch c ch Hc) as [_ [[? _]|Hok]]; [done|]. unfold chan_ok in Hok. rewrite Hs in Hok.
  destruct Hok as [?|(t & Ht & Hr)]; [by left|right]. apply list_elem_of_lookup in Ht as [i Hi]. exists i.
  assert (∀ w' r, q_chans w' !! c = Some ch → recv c (reply c r w') ≠ None) as Hreply.
  { intros w' r Hc'. unfold recv, reply. cbn [with_chans q_chans]. by rewrite list_lookup_alter_eq, Hc'. }
  split.
  - unfold wait_turn at 1. rewrite Hi. cbn [mbind option_bind].
    destruct (wait_commit (wt_end t) [(id, WTimeout)] (wt_stalled t) _) as [sh [r|]] eqn:Ew.
    + eexists. split; [done|]. left. rewrite Hr. by apply Hreply.
    + eexists. split; [done|]. right. unfold wait_turn. cbn [with_waits with_worker q_waits q_worker].
      rewrite list_lookup_insert_eq by (by eapply lookup_lt_Some). cbn [mbind option_bind wt_end wt_stalled].
      rewrite orb_true_r. destruct (wait_commit _ _ true _) as [sh2 r2] eqn:Ew2.
      destruct (wait_commit_cases _ _ _ _ _ _ Ew2) as (_ & _ & Hsome).
      destruct r2 as [r2|]; [|by destruct (Hsome ltac:(unfold timeouts, count; simpl; lia))].
      eexists. split; [done|]. cbn [wt_resp]. rewrite Hr. by apply Hreply.
  - unfold wait_dies. rewrite Hi. cbn [mbind option_bind]. rewrite Hr. eexists. split; [done|].
    unfold wait_append_outcome, recv, drop_chan. cbn [with_chans with_waits q_chans].
    rewrite list_lookup_alter_eq, Hc. cbn [fmap option_fmap option_map ch_state]. eexists _, _.
    split; [done|]. intros table kind batches. unfold append_staged, st_bind at 1, st_lift at 1.
    unfold check_poisoned. cbn [with_tail q_tail poison_tail qt_poisoned].
    by destruct (qt_poisoned _).
Qed.
End Runs.

(** ** Replay *)
Section Replay.
Context {RecordBatch : Type} `{Arrow RecordBatch}.

(** The reference: one table's part of the records, by filtering. *)
Definition readable (r : Record_) : bool :=
  if r_kind r =? RECORD_FRAME then
    match decode_op_payload (RecordBatch:=RecordBatch) (r_body r) with inr _ => true | inl _ => false end
  else r_kind r =? RECORD_WATERMARK.
Definition frame_at (key : string) (r : Record_) : option (N * TailOp RecordBatch) :=
  if (r_kind r =? RECORD_FRAME) && bool_decide (r_table_key r = key) then
    match decode_op_payload (r_body r) with inr op => Some (r_seq r, op) | inl _ => None end
  else None.
Definition watermark_at (key : string) (r : Record_) : option N :=
  if (r_kind r =? RECORD_WATERMARK) && bool_decide (r_table_key r = key) then Some (r_seq r) else None.
Definition highest (ws : list N) : option N :=
  match ws with [] => None | w :: ws => Some (foldr N.max w ws) end.
Definition replayed (recs : list Record_) (key : string) : option (ReplayedTable RecordBatch) :=
  ident ← parse_table_dir_name (str_bytes key);
  Some {| rt_ident := ident; rt_frames := omap (frame_at key) recs;
          rt_sidecar := highest (omap (watermark_at key) recs) |}.
Fixpoint first_keys (seen : list string) (recs : list Record_) : list string :=
  match recs with
  | [] => []
  | r :: recs => if decide (r_table_key r ∈ seen) then first_keys seen recs
                 else r_table_key r :: first_keys (r_table_key r :: seen) recs
  end.

(** What the fold has read so far. *)
Definition folded (recs : list Record_) (f : Fold (RecordBatch:=RecordBatch)) : Prop :=
  fo_order f = first_keys [] recs ∧
  (∀ key, key ∈ first_keys [] recs ↔ is_Some (fo_tables f !! key)) ∧
  ∀ key ft, fo_tables f !! key = Some ft →
    ft = (omap (frame_at key) recs, highest (omap (watermark_at key) recs)).

Lemma first_keys_snoc seen recs r :
  first_keys seen (recs ++ [r]) =
  first_keys seen recs ++ (if decide (r_table_key r ∈ seen ++ first_keys seen recs) then [] else [r_table_key r]).
Proof.
  revert seen. induction recs as [|x recs IH]; intros seen; simpl.
  - by rewrite app_nil_r.
  - destruct (decide (r_table_key x ∈ seen)) as [Hx|Hx]; [apply IH|]. rewrite IH. simpl. do 2 f_equal.
    apply decide_ext. set_solver.
Qed.

Lemma highest_snoc ws w : highest (ws ++ [w]) = Some (N.max (default 0 (highest ws)) w).
Proof.
  destruct ws as [|x ws]; simpl; [f_equal; lia|]. f_equal. rewrite foldr_snoc.
  generalize x. induction ws as [|y ws IH]; intros z; simpl; [lia|]. rewrite IH. lia.
Qed.

Lemma frames_unseen key recs : key ∉ first_keys [] recs →
  omap (frame_at key) recs = [] ∧ omap (watermark_at key) recs = [].
Proof.
  induction recs as [|r recs IH] using rev_ind; [done|]. rewrite first_keys_snoc, !omap_app. intros Hn.
  destruct IH as [-> ->]; [set_solver|]. simpl.
  assert (r_table_key r ≠ key) as Hne.
  { intros <-. apply Hn. destruct (decide _) as [Hd|]; [|set_solver]. simpl in Hd. set_solver. }
  unfold frame_at, watermark_at. rewrite bool_decide_eq_false_2 by done. by rewrite !andb_false_r.
Qed.

Lemma fold_record_spec recs r f :
  folded recs f →
  match fold_record r f with
  | Ok f' => readable r = true ∧ folded (recs ++ [r]) f'
  | Err _ => readable r = false
  end.
Proof.
  intros (Ho & Hd & Ht). unfold fold_record. set (key := r_table_key r).
  set (f1 := match fo_tables f !! key with Some _ => f | None => _ end).
  set (fs := omap (frame_at key) recs). set (hw := highest (omap (watermark_at key) recs)).
  assert (fo_order f1 = first_keys [] (recs ++ [r]) ∧ fo_tables f1 !! key = Some (fs, hw) ∧
    ∀ k, k ≠ key → fo_tables f1 !! k = fo_tables f !! k) as (Ho1 & Hk1 & Hne1).
  { rewrite first_keys_snoc. unfold f1. simpl. fold key. destruct (fo_tables f !! key) as [ft|] eqn:Ek.
    - rewrite decide_True by (apply Hd; by eexists). rewrite app_nil_r. split_and!; [done| |done].
      rewrite Ek. f_equal. by apply Ht.
    - assert (key ∉ first_keys [] recs) as Hn by (intros [? ?]%Hd; congruence).
      rewrite decide_False by done. cbn [fo_order fo_tables]. rewrite Ho. split; [done|]. split.
      + rewrite lookup_insert_eq. destruct (frames_unseen key recs Hn) as [E1 E2]. unfold fs, hw. by rewrite E1, E2.
      + intros k Hk. by rewrite lookup_insert_ne. }
  rewrite Hk1. cbn [default from_option id fst snd].
  assert (∀ g : list (N * TailOp RecordBatch) * option N,
    g = (omap (frame_at key) (recs ++ [r]), highest (omap (watermark_at key) (recs ++ [r]))) →
    folded (recs ++ [r]) {| fo_order := fo_order f1; fo_tables := <[key := g]> (fo_tables f1) |}) as Hfold.
  { intros g Hg. split; [done|]. cbn [fo_tables]. split.
    - intros k. rewrite first_keys_snoc, elem_of_app, Hd. simpl.
      destruct (decide (k = key)) as [->|Hk].
      + rewrite lookup_insert_eq. split; [by eexists|]. intros _.
        destruct (decide _) as [Hin|]; [left; by apply Hd|right; set_solver].
      + rewrite lookup_insert_ne, Hne1 by done. split; [|by left]. intros [?|Hin]; [done|].
        destruct (decide _); set_solver.
    - intros k ft. destruct (decide (k = key)) as [->|Hk]; [rewrite lookup_insert_eq; congruence|].
      rewrite lookup_insert_ne, Hne1 by done. intros ->%Ht. rewrite !omap_snoc.
      assert (frame_at k r = None ∧ watermark_at k r = None) as [-> ->].
      { unfold frame_at, watermark_at. rewrite bool_decide_eq_false_2 by (intros E; by apply Hk).
        by rewrite !andb_false_r. }
      by rewrite !app_nil_r. }
  unfold readable. rewrite !omap_snoc in Hfold. unfold frame_at at 2, watermark_at at 2 in Hfold.
  fold key in Hfold. rewrite bool_decide_eq_true_2, !andb_true_r in Hfold by done. fold fs in Hfold.
  destruct (N.eqb_spec (r_kind r) RECORD_FRAME) as [Hf|].
  - destruct (decode_op_payload (r_body r)) as [|op]; [done|]. split; [done|]. apply Hfold.
    rewrite Hf. simpl. by rewrite app_nil_r.
  - destruct (N.eqb_spec (r_kind r) RECORD_WATERMARK); [|done]. split; [done|]. apply Hfold.
    by rewrite app_nil_r, highest_snoc.
Qed.

Lemma fold_records_spec recs done f :
  folded done f →
  match fold_records recs f with
  | Ok f' => forallb readable recs = true ∧ folded (done ++ recs) f'
  | Err _ => forallb readable recs = false
  end.
Proof.
  revert done f. induction recs as [|r recs IH]; intros done f Hf; cbn [fold_records].
  { by rewrite app_nil_r. }
  pose proof (fold_record_spec done r f Hf) as Hr. destruct (fold_record r f) as [f1|]; simpl.
  - destruct Hr as [-> Hf1]. specialize (IH _ _ Hf1). simpl. destruct (fold_records recs f1); [|done].
    by rewrite <-app_assoc in IH.
  - by rewrite Hr.
Qed.

(** replay of the quorum tail equals its reference: it fails exactly when some
    record is of an unknown kind or is a frame that does not decode; otherwise it
    answers the tables in the order of their first record, leaving out the keys
    that name no table, each with its frames in log order and its highest
    watermark record. *)
Theorem quorum_replay_exact recs :
  if forallb readable recs
  then replay_fold recs = Ok (omap (replayed recs) (first_keys [] recs))
  else ∃ e, replay_fold (RecordBatch:=RecordBatch) recs = Err e.
Proof.
  unfold replay_fold.
  pose proof (fold_records_spec recs [] {| fo_order := []; fo_tables := ∅ |}) as Hs.
  destruct (fold_records recs _) as [f|e].
  - destruct Hs as [-> (Ho & Hd & Ht)].
    { split; [done|]. cbn [fo_tables]. split; [|done]. intros key. simpl. split; [set_solver|].
      rewrite lookup_empty. by intros [? ?]. }
    cbn [mbind result_bind]. f_equal. rewrite Ho. simpl in *.
    assert (∀ ks : list string, (∀ k, k ∈ ks → k ∈ first_keys [] recs) →
      omap (fold_out f) ks = omap (replayed recs) ks) as Heq; [|by apply Heq].
    intros ks. induction ks as [|k ks IH]; intros Hks; [done|]. simpl.
    assert (fold_out f k = replayed recs k) as ->;
      [|destruct (replayed recs k); [f_equal|]; apply IH; intros; apply Hks; by right].
    unfold fold_out, replayed. destruct (proj1 (Hd k)) as [ft Hft]; [apply Hks; by left|].
    rewrite Hft. rewrite (Ht _ _ Hft). done.
  - rewrite Hs; [by eexists|]. split; [done|]. cbn [fo_tables]. split; [|done]. intros key. simpl.
    split; [set_solver|]. rewrite lookup_empty. by intros [? ?].
Qed.
End Replay.
