(* ===== verification/Freshness.v ===== *)
(** * Read freshness (src/icegres/src/freshness.rs)

    The generation pair of a table, the registry of managed tables, one pass of
    the background refresher and the policy of its supervisor.  Instants are
    milliseconds. *)
From S2P Require Import Prelude Text TailNames.
#[local] Open Scope N_scope.

Definition OUTAGE_WARN_EVERY : N := 10000.
Definition MAX_CONCURRENT_REFRESHES : nat := 8.
Definition WATCHDOG_TICK : N := 1000.
Definition MAX_RESPAWNS_PER_MINUTE : N := 5.
Definition RESPAWN_BACKOFF : N := 200.
Definition WINDOW : N := 60000.

(** ** One table *)

(** [TableFreshness] *)
Record TableFreshness := {
  write_gen : N;
  fresh_gen : N;
  last_ok : option N;
  created : N;
}.
Definition tf_new (now : N) : TableFreshness :=
  {| write_gen := 1; fresh_gen := 0; last_ok := None; created := now |}.
Definition is_fresh (f : TableFreshness) : bool := fresh_gen f =? write_gen f.
Definition begin_load (f : TableFreshness) : N := write_gen f.
Definition complete_load (token now : N) (f : TableFreshness) : TableFreshness :=
  {| write_gen := write_gen f; fresh_gen := N.max (fresh_gen f) token;
     last_ok := Some now; created := created f |}.
Definition invalidate (f : TableFreshness) : TableFreshness :=
  {| write_gen := wadd (write_gen f) 1; fresh_gen := fresh_gen f;
     last_ok := last_ok f; created := created f |}.
Definition age (now : N) (f : TableFreshness) : N :=
  now - default (created f) (last_ok f).

(** ** The registry *)

(** [table_key], [commit_key] *)
Definition UNIT_SEPARATOR : byte := Byte.x1f.
Definition commit_key (namespace_url table : list byte) : list byte :=
  namespace_url ++ UNIT_SEPARATOR :: table.
(** [NamespaceIdent::to_url_string] joins the levels with the same separator. *)
Definition to_url_string (ns : list (list byte)) : list byte := join_with UNIT_SEPARATOR ns.
Definition table_key (ident : TableIdent) : list byte :=
  commit_key (to_url_string (namespace ident)) (table_name ident).

(** [Registered]: the [Arc] of the freshness and the weak handle of the provider
    are names of shared objects. *)
Record Registered := { rg_freshness : nat; rg_provider : nat }.

(** The process's table freshness objects, the providers still alive, and
    [REGISTRY] ([None] before the first registration). *)
Record Registry := {
  rs_heap : gmap nat TableFreshness;
  rs_live : gset nat;
  rs_map : option (gmap (list byte) Registered);
}.
Definition with_heap (r : Registry) (h : gmap nat TableFreshness) : Registry :=
  {| rs_heap := h; rs_live := rs_live r; rs_map := rs_map r |}.
Definition with_map (r : Registry) (m : gmap (list byte) Registered) : Registry :=
  {| rs_heap := rs_heap r; rs_live := rs_live r; rs_map := Some m |}.

Definition register (key : list byte) (freshness provider : nat) (r : Registry) : Registry :=
  with_map r (<[key := {| rg_freshness := freshness; rg_provider := provider |}]> (default ∅ (rs_map r))).
Definition deregister (key : list byte) (r : Registry) : Registry :=
  match rs_map r with
  | None => r
  | Some m =>
    match m !! key with
    | Some e => with_heap (with_map r (delete key m)) (alter invalidate (rg_freshness e) (rs_heap r))
    | None => with_map r (delete key m)
    end
  end.
Definition invalidate_key (key : list byte) (r : Registry) : Registry :=
  match rs_map r with
  | None => r
  | Some m =>
    match m !! key with
    | Some e => with_heap r (alter invalidate (rg_freshness e) (rs_heap r))
    | None => r
    end
  end.
Definition provider (key : list byte) (r : Registry) : option nat :=
  m ← rs_map r; e ← m !! key;
  if decide (rg_provider e ∈ rs_live r) then Some (rg_provider e) else None.

(** [snapshot], [prune] *)
Definition snapshot (r : Registry) : list (list byte * nat * nat) :=
  match rs_map r with
  | Some m => map (λ ke, (fst ke, rg_provider (snd ke), rg_freshness (snd ke))) (map_to_list m)
  | None => []
  end.
Definition prune (dead : list (list byte)) (r : Registry) : Registry :=
  match dead, rs_map r with
  | _ :: _, Some m =>
    with_map r (foldl (λ m key, match m !! key with
                                | Some e => if decide (rg_provider e ∈ rs_live r) then m else delete key m
                                | None => m
                                end) m dead)
  | _, _ => r
  end.

(** ** The refresher *)

(** [refresh_timeout] *)
Definition refresh_timeout (interval : N) : N := N.min (interval * 4) 2000.

(** [refresh_all]: the outcomes in the order the loads finish, which
    [buffer_unordered] lets be any. *)
Definition refresh_all (results : list (list byte * result unit)) : nat * option string :=
  foldl (λ acc kr, match snd kr with
                   | Ok _ => acc
                   | Err e => (S (fst acc), Some e)
                   end) (0%nat, None) results.

(** The head of one pass of [refresher_loop]: the tables to refresh, the dead
    entries, the age the gauge exports. *)
Fixpoint pass_tasks (now : N) (r : Registry) (snap : list (list byte * nat * nat))
    : list (list byte * nat) * list (list byte) * N :=
  match snap with
  | [] => ([], [], 0)
  | (key, p, f) :: snap =>
    let '(tasks, dead, max_age) := pass_tasks now r snap in
    if decide (p ∈ rs_live r)
    then ((key, p) :: tasks, dead, N.max max_age (default 0 (age now <$> rs_heap r !! f)))
    else (tasks, key :: dead, max_age)
  end.
Definition begin_pass (now : N) (r : Registry) : Registry * list (list byte * nat) * N :=
  let '(tasks, dead, max_age) := pass_tasks now r (snapshot r) in
  (prune dead r, tasks, max_age).
(** The sleep that ends a pass. *)
Definition pass_sleep (interval elapsed : N) : N := interval - elapsed.
(** Whether a failed pass warns. *)
Definition pass_warns (failures : nat) (last_warn : option N) (now : N) : bool :=
  (0 <? failures)%nat &&
  match last_warn with None => true | Some t => OUTAGE_WARN_EVERY <=? now - t end.

(** ** The supervisor *)
Record Supervisor := { sv_window : N; sv_respawns : N }.

(** The ticks of the exhausted budget: the first one at which the window is
    over. *)
Fixpoint cool_down (fuel : nat) (window now : N) : N :=
  match fuel with
  | O => now
  | S fuel => if now - window <? WINDOW then cool_down fuel window (now + WATCHDOG_TICK) else now
  end.

(** [supervise] from a death of the refresher to the next spawn. *)
Definition respawn (died : N) (s : Supervisor) : Supervisor * N :=
  let s := if WINDOW <=? died - sv_window s then {| sv_window := died; sv_respawns := 0 |} else s in
  let n := sv_respawns s + 1 in
  if MAX_RESPAWNS_PER_MINUTE <? n then
    let now := cool_down 61 (sv_window s) died in
    ({| sv_window := now; sv_respawns := 0 |}, now)
  else ({| sv_window := sv_window s; sv_respawns := n |}, died + RESPAWN_BACKOFF).

(** The spawn times of a refresher that lives as long as [lives] says. *)
Fixpoint spawns (s : Supervisor) (at_ : N) (lives : list N) : list N :=
  match lives with
  | [] => [at_]
  | l :: lives => let '(s, next) := respawn (at_ + l) s in at_ :: spawns s next lives
  end.

(** ** How often the refresher can be respawned *)

Lemma cool_down_spec fuel window now :
  window ≤ now → window + WINDOW ≤ now + N.of_nat fuel * WATCHDOG_TICK →
  window + WINDOW ≤ cool_down fuel window now ∧ now ≤ cool_down fuel window now.
Proof.
  revert now. induction fuel as [|fuel IH]; intros now Hw Hf; cbn [cool_down]; [lia|].
  destruct (_ <? _) eqn:E; bool_prop; [|unfold WINDOW in *; lia].
  destruct (IH (now + WATCHDOG_TICK)); unfold WATCHDOG_TICK, WINDOW in *; lia.
Qed.

#[local] Arguments cool_down : simpl never.
Definition sv_ok (at_ : N) (s : Supervisor) : Prop :=
  sv_respawns s ≤ MAX_RESPAWNS_PER_MINUTE ∧ sv_window s ≤ at_.

(** One respawn: within the window's budget, or a new window that starts when the
    old one is over. *)
Lemma respawn_spec died s s' next :
  sv_ok died s → respawn died s = (s', next) →
  sv_ok next s' ∧ died ≤ next ∧
  (sv_window s' = sv_window s ∧ sv_respawns s' = sv_respawns s + 1 ∨
   sv_window s + WINDOW ≤ sv_window s' ∧ died ≤ sv_window s' ∧
   (sv_respawns s' = 0 ∧ sv_respawns s = MAX_RESPAWNS_PER_MINUTE ∨ sv_respawns s' = 1)).
Proof.
  intros [Hn Hw] H. unfold respawn in H. destruct (WINDOW <=? died - sv_window s) eqn:E; bool_prop.
  - cbn [sv_window sv_respawns] in H. change (MAX_RESPAWNS_PER_MINUTE <? 0 + 1) with false in H. cbv iota in H.
    injection H as <- <-. unfold sv_ok. cbn [sv_window sv_respawns]. unfold RESPAWN_BACKOFF, WINDOW, MAX_RESPAWNS_PER_MINUTE in *.
    split; [lia|]. split; [lia|]. right. lia.
  - destruct (MAX_RESPAWNS_PER_MINUTE <? sv_respawns s + 1) eqn:E2; bool_prop; apply pair_equal_spec in H as [<- <-];
      unfold sv_ok; cbn [sv_window sv_respawns].
    + destruct (cool_down_spec 61 (sv_window s) died) as [H1 H2]; [done|unfold WINDOW, WATCHDOG_TICK; lia|].
      split; [unfold MAX_RESPAWNS_PER_MINUTE; lia|]. split; [done|]. right. split; [done|]. split; [done|]. left. lia.
    + unfold RESPAWN_BACKOFF. split; [lia|]. split; [lia|]. left. done.
Qed.

Lemma spawns_cons s at_ l lives s' next :
  respawn (at_ + l) s = (s', next) → spawns s at_ (l :: lives) = at_ :: spawns s' next lives.
Proof. intros H. cbn [spawns]. by rewrite H. Qed.

Lemma spawns_mono lives s at_ i t : sv_ok at_ s → spawns s at_ lives !! i = Some t → at_ ≤ t.
Proof.
  revert s at_ i. induction lives as [|l lives IH]; intros s at_ [|i] Hs; cbn [spawns]; [intros [= <-]; lia|done| |].
  - destruct (respawn _ _). intros [= <-]. lia.
  - destruct (respawn (at_ + l) s) as [s' next] eqn:E. intros H.
    apply respawn_spec in E as (Hs' & Hle & _); [|destruct Hs; split; [done|lia]].
    apply IH in H; [|done]. lia.
Qed.

Lemma spawns_window lives s at_ i t :
  sv_ok at_ s → spawns s at_ lives !! i = Some t → 6 ≤ N.of_nat i + sv_respawns s → sv_window s + WINDOW ≤ t.
Proof.
  revert s at_ i. induction lives as [|l lives IH]; intros s at_ i Hs; cbn [spawns].
  { destruct i; [|done]. intros _. destruct Hs. unfold MAX_RESPAWNS_PER_MINUTE in *. lia. }
  destruct (respawn (at_ + l) s) as [s' next] eqn:E. destruct i as [|i].
  { intros _. destruct Hs. unfold MAX_RESPAWNS_PER_MINUTE in *. lia. }
  intros Ht Hi. change (spawns s' next lives !! i = Some t) in Ht.
  apply respawn_spec in E as (Hs' & Hle & Hc); [|destruct Hs; split; [done|lia]].
  destruct Hc as [[Hw Hn]|(Hw & Hd & _)].
  - rewrite <-Hw. eapply (IH s' next i); [done|done|]. lia.
  - apply spawns_mono in Ht; [|done]. destruct Hs'. lia.
Qed.

Lemma spawns_rate lives s at_ i t :
  sv_ok at_ s → spawns s at_ lives !! i = Some t → 12 ≤ N.of_nat i + sv_respawns s → at_ + WINDOW ≤ t.
Proof.
  revert s at_ i. induction lives as [|l lives IH]; intros s at_ i Hs; cbn [spawns].
  { destruct i; [|done]. intros _. destruct Hs. unfold MAX_RESPAWNS_PER_MINUTE in *. lia. }
  destruct (respawn (at_ + l) s) as [s' next] eqn:E. destruct i as [|i].
  { intros _. destruct Hs. unfold MAX_RESPAWNS_PER_MINUTE in *. lia. }
  intros Ht Hi. change (spawns s' next lives !! i = Some t) in Ht.
  apply respawn_spec in E as (Hs' & Hle & Hc); [|destruct Hs; split; [done|lia]].
  destruct Hc as [[Hw Hn]|(_ & Hd & Hn)].
  - apply IH in Ht; [lia|done|lia].
  - apply spawns_window in Ht; [lia|done|].
    destruct Hn as [[-> Hs5]| ->]; unfold MAX_RESPAWNS_PER_MINUTE in *; destruct Hs as [Hs _];
      unfold MAX_RESPAWNS_PER_MINUTE in *; lia.
Qed.

Lemma spawns_suffix lives s at_ i t :
  sv_ok at_ s → spawns s at_ lives !! i = Some t →
  ∃ s' lives', sv_ok t s' ∧ ∀ k, spawns s at_ lives !! (i + k)%nat = spawns s' t lives' !! k.
Proof.
  revert s at_ i. induction lives as [|l lives IH]; intros s at_ i Hs; cbn [spawns].
  { destruct i; [|done]. intros [= <-]. by exists s, []. }
  destruct (respawn (at_ + l) s) as [s' next] eqn:E. destruct i as [|i].
  - intros [= <-]. exists s, (l :: lives). split; [done|]. intros k. by rewrite (spawns_cons _ _ _ _ _ _ E).
  - intros Ht. change (spawns s' next lives !! i = Some t) in Ht.
    apply respawn_spec in E as (Hs' & _); [|destruct Hs; split; [done|lia]].
    destruct (IH s' next i Hs' Ht) as (s2 & l2 & H1 & H2). exists s2, l2. split; [done|]. exact H2.
Qed.

(** the supervisor is never a crash loop: whatever the lifetimes of the
    refresher, twelve respawns in a row take at least the supervisor's window of
    a minute. *)
Theorem respawns_bounded now lives i t t' :
  let times := spawns {| sv_window := now; sv_respawns := 0 |} now lives in
  times !! i = Some t → times !! (i + 12)%nat = Some t' → t + WINDOW ≤ t'.
Proof.
  cbv zeta. intros Hi Hj.
  destruct (spawns_suffix lives {| sv_window := now; sv_respawns := 0 |} now i t) as (s & l & Hs & Heq);
    [split; simpl; [done|lia]|done|].
  rewrite Heq in Hj. apply (spawns_rate l s t 12 t'); [done|done|]. simpl. lia.
Qed.

(** The window is fixed, not rolling: ten respawns of a refresher that dies
    again and again fall within two seconds of each other, where the comment on
    [MAX_RESPAWNS_PER_MINUTE] has five a rolling minute. *)
Definition flapping : list N := 59000 :: replicate 11 0.
Theorem respawns_exceed_rolling_minute :
  take 10 (drop 1 (spawns {| sv_window := 0; sv_respawns := 0 |} 0 flapping)) =
    [59200; 59400; 59600; 59800; 60000; 60200; 60400; 60600; 60800; 61000].
Proof. by vm_compute. Qed.
