(* ===== verification/Cache.v ===== *)
(** * The table metadata cache (src/icegres/src/cache.rs)

    One table's cached snapshot, how a scan and the refresher load it, the bounded
    cache of pinned snapshots and the projection a keyed overlay widens.  A load
    is cut where the code waits or takes the cache lock. *)
From stdpp Require Import sorting.
From S2P Require Import Prelude Text TailNames Freshness.
#[local] Open Scope N_scope.

(** ** Settings *)

(** [catalog_timeout]: [None] is no timeout. *)
Definition catalog_timeout (raw : option string) : option N :=
  match raw with
  | Some raw =>
    match parse_u64 (trim (str_bytes raw)) with
    | Some 0 => None
    | Some ms => Some ms
    | None => Some 5000
    end
  | None => Some 5000
  end.
(** [catalog_retries] *)
Definition catalog_retries (raw : option string) : N :=
  default 2 (raw ← raw; from_str_radix digit 10 u32_max (trim (str_bytes raw))).
Definition parse_stale_read_override (raw : option string) : option bool :=
  (λ r, let r := bytes_str (trim (str_bytes r)) in
        String.eqb r "1" || String.eqb r "true" || String.eqb r "on" || String.eqb r "yes") <$> raw.
Definition stale_read_policy (override_ : option bool) (freshness_enabled : bool) : bool :=
  default freshness_enabled override_.

(** ** Loading *)

(** The iceberg library: a table's metadata and the provider pinned to a
    snapshot. *)
Class IcebergTable (Table Provider : Type) := {
  metadata_location : Table → option string;
  current_snapshot_id : Table → option Z;
  snapshot_for_ref : Table → string → option Z;
  try_new_from_table : Table → result Provider;
  try_new_from_table_snapshot : Table → Z → result Provider;
}.

Abbreviation MetadataVersion := (option string * option Z)%type.
Inductive LoadPath := Scan | Refresher.
#[export] Instance LoadPath_eq_dec : EqDecision LoadPath.
Proof. solve_decision. Defined.

Section Load.
Context {Table Provider : Type} `{IcebergTable Table Provider}.

Definition metadata_version (t : Table) : MetadataVersion := (metadata_location t, current_snapshot_id t).

(** [branch_head] of overwrite.rs *)
Definition MAIN_BRANCH : string := "main".
Definition branch_head (t : Table) (branch : string) : result (option Z) :=
  if String.eqb branch MAIN_BRANCH then Ok (current_snapshot_id t)
  else match snapshot_for_ref t branch with
       | Some s => Ok (Some s)
       | None => Err "branch does not exist on this table"
       end.

Record CachedSnapshot := {
  cs_version : MetadataVersion;
  cs_provider : Provider;
  cs_metadata : Table;
  cs_loaded_gen : N;
}.

(** [CachingTableProvider]: [cp_overlay] for a write buffer or peer mirrors. *)
Record CachingTableProvider := {
  cp_ident : TableIdent;
  cp_cached : option CachedSnapshot;
  cp_branch : option string;
  cp_freshness : option TableFreshness;
  cp_overlay : bool;
}.
Definition with_cached (p : CachingTableProvider) (c : option CachedSnapshot) : CachingTableProvider :=
  {| cp_ident := cp_ident p; cp_cached := c; cp_branch := cp_branch p;
     cp_freshness := cp_freshness p; cp_overlay := cp_overlay p |}.
Definition with_freshness (p : CachingTableProvider) (f : option TableFreshness) : CachingTableProvider :=
  {| cp_ident := cp_ident p; cp_cached := cp_cached p; cp_branch := cp_branch p;
     cp_freshness := f; cp_overlay := cp_overlay p |}.

(** [load_table_with_retry]: the answers of the catalog, a timed out attempt
    being an error; at most one attempt more than the retries. *)
Fixpoint load_table_with_retry (retries : nat) (answers : list (result Table))
    : option (result Table * list (result Table)) :=
  match answers with
  | [] => None (* the catalog has not answered yet *)
  | Ok t :: answers => Some (Ok t, answers)
  | Err e :: answers =>
    match retries with
    | O => Some (Err e, answers)
    | S retries => load_table_with_retry retries answers
    end
  end.

(** The version a loaded table is cached under, and the branch head it is pinned
    to. *)
Definition branch_pin (branch : option string) (t : Table) : result (option Z) :=
  match branch with
  | None => Ok None
  | Some b => match branch_head t b with Ok h => Ok h | Err _ => Err "cannot read the table" end
  end.
Definition load_version (branch : option string) (t : Table) : result MetadataVersion :=
  pin ← branch_pin branch t;
  Ok match pin with Some head => (None, Some head) | None => metadata_version t end.
Definition build_provider (branch : option string) (t : Table) : result Provider :=
  pin ← branch_pin branch t;
  match pin with
  | Some head => try_new_from_table_snapshot t head
  | None => try_new_from_table t
  end.

(** [load_current], in its critical sections: the token before the load; the
    check of the cached version; the install; the completion. *)
Definition load_token (p : CachingTableProvider) : option N := begin_load <$> cp_freshness p.
Definition complete (token : option N) (now : N) (p : CachingTableProvider) : CachingTableProvider :=
  match cp_freshness p, token with
  | Some f, Some token => with_freshness p (Some (complete_load token now f))
  | _, _ => p
  end.
Definition check_cached (token : option N) (now : N) (version : MetadataVersion) (p : CachingTableProvider)
    : CachingTableProvider * option CachedSnapshot :=
  match cp_cached p with
  | Some c =>
    if bool_decide (cs_version c = version) then (complete token now p, Some c) else (p, None)
  | None => (p, None)
  end.
Definition install (token : option N) (version : MetadataVersion) (provider : Provider) (metadata : Table)
    (p : CachingTableProvider) : CachingTableProvider :=
  let loaded_gen := default 0 token in
  let stale_straggler := match cp_cached p with Some c => loaded_gen <? cs_loaded_gen c | None => false end in
  if stale_straggler then p
  else with_cached p (Some {| cs_version := version; cs_provider := provider;
                              cs_metadata := metadata; cs_loaded_gen := loaded_gen |}).
(** The fall back of a scan when the catalog cannot be reached. *)
Definition stale_serve (path : LoadPath) (override_ : option bool) (p : CachingTableProvider)
    : option CachedSnapshot :=
  if bool_decide (path = Scan) &&
     stale_read_policy override_ (match cp_freshness p with Some _ => true | None => false end)
  then cp_cached p else None.

(** [load_current] with nothing in between. *)
Definition load_current (path : LoadPath) (override_ : option bool) (now : N) (loaded : result Table)
    (p : CachingTableProvider) : CachingTableProvider * result (Provider * Table) :=
  let token := load_token p in
  match loaded with
  | Err e => (p, match stale_serve path override_ p with
                 | Some c => Ok (cs_provider c, cs_metadata c)
                 | None => Err e
                 end)
  | Ok t =>
    match load_version (cp_branch p) t with
    | Err e => (p, Err e)
    | Ok version =>
      match check_cached token now version p with
      | (p, Some c) => (p, Ok (cs_provider c, cs_metadata c))
      | (p, None) =>
        match build_provider (cp_branch p) t with
        | Err e => (p, Err e)
        | Ok prov => (complete token now (install token version prov t p), Ok (prov, t))
        end
      end
    end
  end.

(** The fast path of [current_provider]: its two reads. *)
Definition serves_cached (p : CachingTableProvider) : bool :=
  match cp_freshness p with Some f => is_fresh f | None => false end.
Definition current_provider (override_ : option bool) (now : N) (loaded : result Table)
    (p : CachingTableProvider) : CachingTableProvider * result (Provider * Table) :=
  match serves_cached p, cp_cached p with
  | true, Some c => (p, Ok (cs_provider c, cs_metadata c))
  | _, _ => load_current Scan override_ now loaded p
  end.

(** [fresh_metadata], [plan_cache_eligible], [plan_cache_version] *)
Definition fresh_metadata (p : CachingTableProvider) : option (option string * Table) :=
  if serves_cached p then (λ c, (fst (cs_version c), cs_metadata c)) <$> cp_cached p else None.
Definition plan_cache_eligible (freshness_enabled has_overlay_source : bool) : bool :=
  freshness_enabled && negb has_overlay_source.
Definition plan_cache_version (p : CachingTableProvider) : option MetadataVersion :=
  if plan_cache_eligible (match cp_freshness p with Some _ => true | None => false end) (cp_overlay p)
     && serves_cached p
  then cs_version <$> cp_cached p else None.

(** ** The stream of an INSERT *)

(** [MarkStaleStream]: what a poll of the inner stream gave, and the drop. *)
Inductive Poll_ := Ready | Pending.
Record MarkStaleStream := { ms_polled : bool; ms_invalidated : bool }.
Definition mark_stale_new : MarkStaleStream := {| ms_polled := false; ms_invalidated := false |}.
Definition mark_poll (poll : Poll_) (m : MarkStaleStream) (f : TableFreshness) : MarkStaleStream * TableFreshness :=
  match poll with
  | Ready => ({| ms_polled := true; ms_invalidated := true |}, invalidate f)
  | Pending => ({| ms_polled := true; ms_invalidated := ms_invalidated m |}, f)
  end.
Definition mark_drop (m : MarkStaleStream) (f : TableFreshness) : TableFreshness :=
  if ms_polled m && negb (ms_invalidated m) then invalidate f else f.
End Load.
Arguments CachedSnapshot : clear implicits.
Arguments CachingTableProvider : clear implicits.

(** ** Projections under suppression *)

Definition lower (b : byte) : byte :=
  let n := Byte.to_N b in if (65 <=? n) && (n <=? 90) then byte_of_N (n + 32) else b.
Definition eq_ignore_ascii_case (a b : list byte) : bool := bool_decide (map lower a = map lower b).

Definition column_position (c : list byte) (fields : list (list byte)) : option nat :=
  fst <$> list_find (λ f, eq_ignore_ascii_case f c = true) fields.
Fixpoint pk_positions (fields pk_cols : list (list byte)) : result (list nat) :=
  match pk_cols with
  | [] => Ok []
  | c :: pk_cols =>
    i ← ok_or (column_position c fields) "PK column missing from table schema";
    idx ← pk_positions fields pk_cols;
    Ok (i :: idx)
  end.
Definition widen_projection (projection : option (list nat)) (fields pk_cols : list (list byte))
    : result (option (list nat) * option (list nat)) :=
  match projection with
  | None => Ok (None, None)
  | Some proj =>
    pk_idx ← pk_positions fields pk_cols;
    let missing := filter (λ i, i ∉ proj) pk_idx in
    Ok match missing with
       | [] => (Some proj, None)
       | _ => (Some (proj ++ missing), Some (seq 0 (length proj)))
       end
  end.

(** ** Pinned snapshots *)

Definition MAX_PINNED_PER_TABLE : nat := 16.
Definition AT : byte := Byte.x40.
Definition DOLLAR : byte := Byte.x24.
Definition MINUS : byte := Byte.x2d.
Definition PLUS : byte := Byte.x2b.

(** [str::rsplit_once] *)
Fixpoint rsplit_once (sep : byte) (bs : list byte) : option (list byte * list byte) :=
  match bs with
  | [] => None
  | b :: bs =>
    match rsplit_once sep bs with
    | Some (l, r) => Some (b :: l, r)
    | None => if decide (b = sep) then Some ([], bs) else None
    end
  end.
(** [str::parse::<i64>] *)
Definition i64_max : N := 9223372036854775807.
Definition parse_i64 (bs : list byte) : option Z :=
  match bs with
  | b :: ds =>
    if decide (b = MINUS) then
      match ds with
      | d :: _ => if decide (d = PLUS) then None
                  else (λ n, (- Z.of_N n)%Z) <$> from_str_radix digit 10 (i64_max + 1) ds
      | [] => None
      end
    else Z.of_N <$> from_str_radix digit 10 i64_max bs
  | [] => None
  end.
Definition parse_time_travel (name : list byte) : option (list byte * Z) :=
  '(base, id) ← rsplit_once AT name;
  if (length base =? 0)%nat || bool_decide (DOLLAR ∈ base) then None
  else (λ id, (base, id)) <$> parse_i64 id.

Section Pinned.
Context {Provider : Type}.
Record PinnedEntry := { pe_provider : Provider; pe_last_used : N }.
Record PinnedCache := { pc_map : gmap (list byte) PinnedEntry; pc_clock : N }.
Definition pinned_new : PinnedCache := {| pc_map := ∅; pc_clock := 0 |}.

Definition of_base (base key : list byte) : bool :=
  match parse_time_travel key with Some (b, _) => bool_decide (b = base) | None => false end.

Definition pinned_get (name : list byte) (p : PinnedCache) : PinnedCache * option Provider :=
  match pc_map p !! name with
  | None => (p, None)
  | Some e =>
    let tick := wadd (pc_clock p) 1 in
    ({| pc_map := <[name := {| pe_provider := pe_provider e; pe_last_used := tick |}]> (pc_map p);
        pc_clock := tick |}, Some (pe_provider e))
  end.

(** [evict_lru_over_cap] *)
Definition tick_le (a b : list byte * N) : Prop := snd a ≤ snd b.
#[export] Instance tick_le_dec a b : Decision (tick_le a b).
Proof. unfold tick_le. apply _. Defined.
Definition base_ticks {T} (base : list byte) (last_used : T → N) (m : gmap (list byte) T)
    : list (list byte * N) :=
  omap (λ kv, if of_base base (fst kv) then Some (fst kv, last_used (snd kv)) else None) (map_to_list m).
Definition evict_lru_over_cap {T} (base : list byte) (cap : nat) (last_used : T → N)
    (m : gmap (list byte) T) : gmap (list byte) T * list (list byte) :=
  let entries := base_ticks base last_used m in
  if (length entries <=? cap)%nat then (m, []) else
  let evicted := map fst (take (length entries - cap) (merge_sort tick_le entries)) in
  (foldl (λ m k, delete k m) m evicted, evicted).
Definition pinned_insert (name base : list byte) (prov : Provider) (p : PinnedCache) : PinnedCache :=
  let tick := wadd (pc_clock p) 1 in
  let m := <[name := {| pe_provider := prov; pe_last_used := tick |}]> (pc_map p) in
  {| pc_map := fst (evict_lru_over_cap base MAX_PINNED_PER_TABLE pe_last_used m); pc_clock := tick |}.
End Pinned.
Arguments PinnedEntry : clear implicits.
Arguments PinnedCache : clear implicits.

(** ** Name resolution of a schema *)
Section Schema.
Context {Provider : Type}.
Inductive Resolved := Inner | Pinned_ (p : Provider) | BuildPinned (base : list byte) (snapshot : Z)
  | Plain (name : list byte) | NoTable.
(** [CachingSchemaProvider::table], up to the provider it must build. *)
Definition resolve_table (exists_ : list byte → bool) (name : list byte) (pinned : PinnedCache Provider)
    : PinnedCache Provider * Resolved :=
  if bool_decide (DOLLAR ∈ name) then (pinned, Inner) else
  match parse_time_travel name with
  | Some (base, snapshot_id) =>
    match pinned_get name pinned with
    | (pinned, Some p) => (pinned, Pinned_ p)
    | (pinned, None) => (pinned, if exists_ base then BuildPinned base snapshot_id else NoTable)
    end
  | None => (pinned, if exists_ name then Plain name else NoTable)
  end.
Definition table_exist (exists_ : list byte → bool) (name : list byte) : bool :=
  match parse_time_travel name with
  | Some (base, _) => exists_ base
  | None => exists_ name
  end.
End Schema.

(** ** Widening keeps the columns the scan asked for *)

Definition select {A} (idx : list nat) (row : list A) : list A := omap (λ i, row !! i) idx.
Definition project {A} (idx : option (list nat)) (row : list A) : list A :=
  match idx with Some idx => select idx row | None => row end.

Lemma pk_positions_spec fields pk_cols idx :
  pk_positions fields pk_cols = Ok idx →
  ∀ c, c ∈ pk_cols → ∃ i f, i ∈ idx ∧ fields !! i = Some f ∧ eq_ignore_ascii_case f c = true.
Proof.
  revert idx. induction pk_cols as [|x pk_cols IH]; intros idx Hp c Hc; [by apply not_elem_of_nil in Hc|].
  cbn [pk_positions] in Hp. apply bind_Ok in Hp as (i & Hi & Hp). apply bind_Ok in Hp as (idx' & Hidx & Hp).
  apply Ok_inj in Hp as <-. apply elem_of_cons in Hc as [->|Hc].
  - apply ok_or_Ok in Hi. unfold column_position in Hi. apply fmap_Some in Hi as ([j f] & Hf & ->).
    apply list_find_Some in Hf as (Hf & He & _). exists j, f. split; [by left|done].
  - destruct (IH _ Hidx c Hc) as (j & f & ? & ?). exists j, f. split; [by right|done].
Qed.

Lemma select_app {A} i1 i2 (row : list A) : select (i1 ++ i2) row = select i1 row ++ select i2 row.
Proof. apply omap_app. Qed.

Lemma select_length {A} idx (row : list A) :
  Forall (λ i, (i < length row)%nat) idx → length (select idx row) = length idx.
Proof.
  induction 1 as [|i idx Hi _ IH]; [done|]. cbn. destruct (lookup_lt_is_Some_2 row i Hi) as [x ->].
  simpl. f_equal. exact IH.
Qed.

Lemma select_cut {A} k (a b : list A) : (k ≤ length a)%nat → select (seq 0 k) (a ++ b) = select (seq 0 k) a.
Proof.
  intros Hk. unfold select. assert (Forall (λ i, (i < length a)%nat) (seq 0 k)) as Hall.
  { apply Forall_forall. intros i Hi. apply list_elem_of_In, in_seq in Hi. lia. }
  clear Hk. induction Hall as [|i idx Hi _ IH]; [done|]. cbn. by rewrite lookup_app_l, IH.
Qed.

Lemma select_prefix {A} n (l1 l2 : list A) :
  length l1 = n → select (seq 0 n) (l1 ++ l2) = l1.
Proof.
  intros <-. rewrite select_cut by done. induction l1 as [|x l1 IH] using rev_ind; [done|].
  rewrite length_app. simpl length. rewrite seq_app, select_app, select_cut by done. rewrite IH. f_equal.
  cbn. by rewrite lookup_app_r, Nat.sub_diag by done.
Qed.

(** the widened projection of a keyed scan: projecting its rows back down
    gives exactly the columns the scan asked for, in their order, and every key
    column is among the widened ones; it is refused exactly when the schema
    misses a key column. *)
Theorem widen_projection_exact fields pk_cols projection :
  match widen_projection projection fields pk_cols with
  | Ok (scan, out) =>
    (∀ A (row : list A), length row = length fields →
       match projection with Some proj => Forall (λ i, (i < length fields)%nat) proj | None => True end →
       project out (project scan row) = project projection row) ∧
    match projection, scan with
    | Some _, Some s => ∀ c, c ∈ pk_cols → ∃ i f, i ∈ s ∧ fields !! i = Some f ∧ eq_ignore_ascii_case f c = true
    | None, None => True
    | _, _ => False
    end
  | Err _ => ∃ c, c ∈ pk_cols ∧ ∀ f, f ∈ fields → eq_ignore_ascii_case f c = false
  end.
Proof.
  unfold widen_projection. destruct projection as [proj|]; [|done].
  destruct (pk_positions fields pk_cols) as [idx|e] eqn:Ep; simpl.
  - assert (∀ s : list nat, (∀ i, i ∈ proj → i ∈ s) → (∀ i, i ∈ idx → i ∉ proj → i ∈ s) →
      ∀ c, c ∈ pk_cols → ∃ i f, i ∈ s ∧ fields !! i = Some f ∧ eq_ignore_ascii_case f c = true) as Hpk.
    { intros s H1 H2 c Hc. destruct (pk_positions_spec _ _ _ Ep c Hc) as (i & f & Hi & ? & ?). exists i, f.
      split; [|done]. destruct (decide (i ∈ proj)); auto. }
    destruct (filter (λ i, i ∉ proj) idx) as [|m missing] eqn:Ef; simpl.
    + split; [done|]. apply Hpk; [done|]. intros i Hi Hn.
      assert (i ∈ filter (λ i, i ∉ proj) idx) as Hin by (by apply list_elem_of_filter).
      rewrite Ef in Hin. by apply not_elem_of_nil in Hin.
    + split.
      * intros A row Hlen Hall. rewrite select_app. apply select_prefix. apply select_length. by rewrite Hlen.
      * apply Hpk; [set_solver|]. intros i Hi Hn.
        assert (i ∈ filter (λ i, i ∉ proj) idx) as Hin by (by apply list_elem_of_filter).
        rewrite Ef in Hin. set_solver.
  - clear -Ep. revert e Ep. induction pk_cols as [|c pk_cols IH]; intros e; [done|]. cbn [pk_positions].
    destruct (column_position c fields) as [i|] eqn:Ec; simpl.
    + destruct (pk_positions fields pk_cols) as [|e']; [done|]. intros _.
      destruct (IH e' eq_refl) as (c' & ? & ?).
      exists c'. split; [by right|done].
    + intros _. exists c. split; [by left|]. unfold column_position in Ec. apply fmap_None in Ec.
      intros f Hf. apply list_find_None in Ec. rewrite Forall_forall in Ec.
      apply not_true_is_false. exact (Ec f Hf).
Qed.

(** ** The bound on pinned snapshots *)

Definition base_entries {T} (base : list byte) (m : gmap (list byte) T) : gmap (list byte) T :=
  filter (λ kv, of_base base (fst kv) = true) m.

#[local] Instance tick_le_total : Total tick_le.
Proof. intros a b. unfold tick_le. lia. Qed.
#[local] Instance tick_le_trans : Transitive tick_le.
Proof. intros a b c. unfold tick_le. lia. Qed.

Lemma delete_all_lookup {T} (ks : list (list byte)) (m : gmap (list byte) T) k :
  foldl (λ m k, delete k m) m ks !! k = if decide (k ∈ ks) then None else m !! k.
Proof.
  revert m. induction ks as [|x ks IH]; intros m; cbn [foldl]; [by rewrite decide_False by apply not_elem_of_nil|].
  rewrite IH. destruct (decide (k ∈ ks)) as [Hk|Hk].
  - by rewrite decide_True by (by right).
  - destruct (decide (k = x)) as [->|Hne].
    + rewrite decide_True by (by left). by rewrite lookup_delete_eq.
    + rewrite decide_False by (by intros [?|?]%elem_of_cons). by rewrite lookup_delete_ne.
Qed.

Lemma elem_of_fst {A B} (l : list (A * B)) a : a ∈ map fst l ↔ ∃ b, (a, b) ∈ l.
Proof.
  change (map fst l) with (fst <$> l). rewrite list_elem_of_fmap.
  split; [intros ([a' b] & -> & ?); by exists b|intros [b ?]; by exists (a, b)].
Qed.

Section Evict.
Context {T : Type} (base : list byte) (lu : T → N) (m : gmap (list byte) T).

Lemma base_ticks_elem k n :
  (k, n) ∈ base_ticks base lu m ↔ ∃ v, m !! k = Some v ∧ of_base base k = true ∧ n = lu v.
Proof.
  unfold base_ticks. rewrite list_elem_of_omap. split.
  - intros ([k' v] & Hkv & He). apply elem_of_map_to_list in Hkv. cbn in He.
    destruct (of_base base k') eqn:Eb; [|done]. injection He as -> <-. by exists v.
  - intros (v & Hv & Hb & ->). exists (k, v). split; [by apply elem_of_map_to_list|]. cbn. by rewrite Hb.
Qed.

Lemma base_ticks_nodup : NoDup (map fst (base_ticks base lu m)).
Proof.
  unfold base_ticks. pose proof (NoDup_fst_map_to_list m) as Hm. revert Hm.
  generalize (map_to_list m) as l. induction l as [|[k v] l IH]; intros Hm; [constructor|].
  cbn in Hm. apply NoDup_cons in Hm as [Hk Hm]. specialize (IH Hm). cbn.
  destruct (of_base base k); [|exact IH]. cbn. apply NoDup_cons. split; [|exact IH].
  rewrite elem_of_fst. intros (n & ([k' v'] & Hkv & He)%list_elem_of_omap). apply Hk, elem_of_fst.
  cbn in He. destruct (of_base base k'); [|done]. injection He as -> _. by exists v'.
Qed.

Lemma base_entries_size (m' : gmap (list byte) T) (l : list (list byte)) :
  (∀ k, of_base base k = true → is_Some (m' !! k) ↔ k ∈ l) → (∀ k, k ∈ l → of_base base k = true) →
  NoDup l → size (base_entries base m') = length l.
Proof.
  intros Hl Hb Hnd. unfold base_entries. rewrite <-(size_dom (D:=gset (list byte))).
  rewrite <-(size_list_to_set (C:=gset (list byte)) l Hnd). apply set_size_proper. intros k.
  rewrite elem_of_dom, elem_of_list_to_set. split.
  - intros [v [Hv Hk]%map_lookup_filter_Some]. apply Hl; [done|]. by exists v.
  - intros Hk. destruct (proj2 (Hl k (Hb k Hk)) Hk) as [v Hv]. exists v.
    apply map_lookup_filter_Some. split; [done|]. by apply Hb.
Qed.

Lemma base_entries_ticks : size (base_entries base m) = length (base_ticks base lu m).
Proof.
  rewrite (base_entries_size m (map fst (base_ticks base lu m))); [by rewrite length_map| | |apply base_ticks_nodup].
  - intros k Hb. rewrite elem_of_fst. setoid_rewrite base_ticks_elem. split.
    + intros [v Hv]. by exists (lu v), v.
    + intros (n & v & Hv & _). by exists v.
  - intros k [n Hk]%elem_of_fst. by apply base_ticks_elem in Hk as (v & _ & Hb & _).
Qed.

(** The [d] oldest entries of the table and the others. *)
Lemma oldest_split d :
  let sorted := merge_sort tick_le (base_ticks base lu m) in
  length sorted = length (base_ticks base lu m) ∧
  NoDup (map fst (take d sorted) ++ map fst (drop d sorted)) ∧
  (∀ k n, (k, n) ∈ take d sorted ∨ (k, n) ∈ drop d sorted ↔
     ∃ v, m !! k = Some v ∧ of_base base k = true ∧ n = lu v) ∧
  ∀ k n k' n', (k, n) ∈ take d sorted → (k', n') ∈ drop d sorted → n ≤ n'.
Proof.
  intros sorted. pose proof (merge_sort_Permutation tick_le (base_ticks base lu m)) as Hperm.
  pose proof (StronglySorted_merge_sort tick_le (base_ticks base lu m)) as Hsort. fold sorted in Hperm, Hsort.
  split_and!.
  - by rewrite Hperm.
  - rewrite <-map_app, take_drop. change (map fst sorted) with (fst <$> sorted). rewrite Hperm.
    apply base_ticks_nodup.
  - intros k n. rewrite <-elem_of_app, take_drop, Hperm. apply base_ticks_elem.
  - rewrite <-(take_drop d sorted) in Hsort. revert Hsort.
    generalize (take d sorted) as l1, (drop d sorted) as l2. clear. intros l1 l2.
    induction l1 as [|x l1 IH]; intros Hs k n k' n' Ha Hb; [by apply not_elem_of_nil in Ha|].
    cbn in Hs. inversion Hs as [|? ? H1 H2]; subst. apply elem_of_cons in Ha as [<-|Ha]; [|by eapply IH].
    rewrite Forall_forall in H2. apply (H2 (k', n')). apply elem_of_app. by right.
Qed.

Lemma evict_spec cap m' evicted :
  evict_lru_over_cap base cap lu m = (m', evicted) →
  (∀ k, k ∉ evicted → m' !! k = m !! k) ∧
  (∀ k, k ∈ evicted → m' !! k = None ∧ of_base base k = true ∧ ∃ v, m !! k = Some v ∧
     ∀ k' v', m' !! k' = Some v' → of_base base k' = true → lu v ≤ lu v') ∧
  size (base_entries base m') = min cap (size (base_entries base m)).
Proof.
  unfold evict_lru_over_cap. rewrite base_entries_ticks.
  destruct (_ <=? cap)%nat eqn:El; [apply Nat.leb_le in El|apply Nat.leb_gt in El]; intros [= <- <-].
  - split; [done|]. split; [intros k Hk; by apply not_elem_of_nil in Hk|]. rewrite base_entries_ticks. lia.
  - set (d := (_ - cap)%nat). destruct (oldest_split d) as (Hls & Hnd & Hel & Hord).
    set (sorted := merge_sort tick_le _) in *. apply NoDup_app in Hnd as (Hn1 & Hdis & Hn2).
    split_and!.
    + intros k Hk. by rewrite delete_all_lookup, decide_False.
    + intros k Hk. rewrite delete_all_lookup, decide_True by done. split; [done|].
      apply elem_of_fst in Hk as [n Hk]. destruct (proj1 (Hel k n)) as (v & Hv & Hb & ->); [by left|].
      split; [done|]. exists v. split; [done|]. intros k' v'. rewrite delete_all_lookup.
      destruct (decide _) as [|Hnk]; [done|]. intros Hv' Hb'. eapply Hord; [exact Hk|].
      destruct (proj2 (Hel k' (lu v'))) as [Ht|Hd]; [by exists v'| |exact Hd].
      destruct Hnk. apply elem_of_fst. by eexists.
    + rewrite (base_entries_size _ (map fst (drop d sorted))); [|..|done].
      * rewrite length_map, length_drop, Hls. unfold d. lia.
      * intros k Hb. rewrite delete_all_lookup. split.
        -- destruct (decide _) as [|Hnk]; [by intros [? ?]|]. intros [v Hv].
           destruct (proj2 (Hel k (lu v))) as [Ht|Hd]; [by exists v|destruct Hnk|]; apply elem_of_fst; by eexists.
        -- intros Hk. rewrite decide_False by (intros Hc; by eapply Hdis). apply elem_of_fst in Hk as [n Hk].
           destruct (proj1 (Hel k n)) as (v & Hv & _); [by right|]. by exists v.
      * intros k [n Hk]%elem_of_fst. by destruct (proj1 (Hel k n)) as (v & _ & Hb & _); [by right|].
Qed.
End Evict.

(** ** The cache of pinned snapshots over time *)

Section PinnedRun.
Context {Provider : Type}.
#[local] Abbreviation PinnedCache := (PinnedCache Provider).

Inductive pinned_op :=
  | PGet (name : list byte)
  | PInsert (name base : list byte) (prov : Provider).
Definition pinned_exec (o : pinned_op) (p : PinnedCache) : PinnedCache :=
  match o with
  | PGet name => fst (pinned_get name p)
  | PInsert name base prov => pinned_insert name base prov p
  end.
(** [CachingSchemaProvider::table] inserts under the base it parsed. *)
Definition pinned_op_ok (o : pinned_op) : Prop :=
  match o with PGet _ => True | PInsert name base _ => of_base base name = true end.

(** Every table within its bound, no tick ahead of the clock. *)
Definition pinned_inv (p : PinnedCache) : Prop :=
  (∀ base, (size (base_entries base (pc_map p)) ≤ MAX_PINNED_PER_TABLE)%nat) ∧
  ∀ k e, pc_map p !! k = Some e → pe_last_used e ≤ pc_clock p.

Lemma of_base_inj base base' k : of_base base k = true → of_base base' k = true → base = base'.
Proof.
  unfold of_base. destruct (parse_time_travel k) as [[b i]|]; [|done].
  by intros ->%bool_decide_eq_true ->%bool_decide_eq_true.
Qed.

(** Replacing an entry leaves the sizes alone; adding one adds one to its own table. *)
Lemma base_entries_insert {T} base k (v : T) m :
  base_entries base (<[k := v]> m) =
  if of_base base k then <[k := v]> (base_entries base m) else base_entries base m.
Proof.
  unfold base_entries. destruct (of_base base k) eqn:Eb.
  - by rewrite map_filter_insert_True.
  - rewrite map_filter_insert_False by (cbn; by rewrite Eb). apply map_eq. intros i.
    apply option_eq. intros x. rewrite !map_lookup_filter_Some. cbn. split.
    + intros [Hd Hb]. apply lookup_delete_Some in Hd as [_ Hd]. done.
    + intros [Hx Hb]. split; [|done]. apply lookup_delete_Some. split; [|done]. intros ->. by rewrite Eb in Hb.
Qed.

Lemma pinned_get_inv name p : pc_clock p < u64_max → pinned_inv p → pinned_inv (fst (pinned_get name p)).
Proof.
  intros Hc [Hs Ht]. unfold pinned_get. destruct (pc_map p !! name) as [e|] eqn:Ee; [|done]. cbn.
  rewrite wadd_small by (unfold u64_max, u64_modulus in *; lia). split; cbn.
  - intros base. rewrite base_entries_insert. destruct (of_base base name) eqn:Eb; [|apply Hs].
    rewrite map_size_insert_Some; [apply Hs|]. exists e. by apply map_lookup_filter_Some.
  - intros k e' [[<- <-]|[_ Hk]]%lookup_insert_Some; cbn; [lia|]. specialize (Ht k e' Hk). lia.
Qed.

Lemma pinned_insert_inv name base prov p :
  pc_clock p < u64_max → of_base base name = true → pinned_inv p →
  pinned_inv (pinned_insert name base prov p) ∧
  pc_map (pinned_insert name base prov p) !! name =
    Some {| pe_provider := prov; pe_last_used := pc_clock p + 1 |}.
Proof.
  intros Hc Hb [Hs Ht]. unfold pinned_insert. rewrite wadd_small by (unfold u64_max, u64_modulus in *; lia).
  set (e := {| pe_provider := prov; pe_last_used := pc_clock p + 1 |}). set (m := <[name := e]> (pc_map p)).
  destruct (evict_lru_over_cap base MAX_PINNED_PER_TABLE pe_last_used m) as [m' evicted] eqn:Ev.
  apply evict_spec in Ev as (Hkeep & Hev & Hsz). cbn [fst pc_map pc_clock].
  assert (∀ k x, m' !! k = Some x → m !! k = Some x ∧ k ∉ evicted) as Hsub.
  { intros k x Hk. destruct (decide (k ∈ evicted)) as [He|He]; [by destruct (Hev k He) as [He' _]; rewrite He' in Hk|].
    by rewrite Hkeep in Hk. }
  split; [split|]; cbn.
  - intros base'. destruct (decide (base' = base)) as [->|Hne]; [lia|].
    assert (base_entries base' m' = base_entries base' (pc_map p)) as ->; [|apply Hs].
    transitivity (base_entries base' m).
    + apply map_eq. intros k. apply option_eq. intros x. unfold base_entries. rewrite !map_lookup_filter_Some.
      split; intros [Hx Hbx]; (split; [|done]); [by apply Hsub|]. rewrite Hkeep; [done|]. intros He.
      destruct (Hev k He) as (_ & Hbk & _). destruct Hne. by eapply of_base_inj.
    + unfold m. rewrite base_entries_insert. destruct (of_base base' name) eqn:Eb; [|done].
      destruct Hne. by eapply of_base_inj.
  - intros k x [Hk _]%Hsub. unfold m in Hk. apply lookup_insert_Some in Hk as [[_ <-]|[_ Hk]]; [cbn; lia|].
    specialize (Ht k x Hk). lia.
  - destruct (decide (name ∈ evicted)) as [He|He]; [|rewrite Hkeep by done; apply lookup_insert_eq].
    exfalso. destruct (Hev name He) as (_ & _ & v & Hv & Hold). unfold m in Hv. rewrite lookup_insert_eq in Hv.
    injection Hv as <-.
    destruct (map_choose (base_entries base m')) as (k & x & Hx).
    { intros He'. rewrite He', map_size_empty in Hsz. unfold m in Hsz. rewrite base_entries_insert, Hb in Hsz.
      assert (size (<[name:=e]> (base_entries base (pc_map p))) ≠ 0%nat) as Hne
        by (apply map_size_non_empty_iff, insert_non_empty).
      unfold MAX_PINNED_PER_TABLE in Hsz. lia. }
    apply map_lookup_filter_Some in Hx as [Hx Hbx]. cbn in Hbx. specialize (Hold k x Hx Hbx). cbn in Hold.
    apply Hsub in Hx as [Hx Hnx]. unfold m in Hx. apply lookup_insert_Some in Hx as [[-> _]|[_ Hx]]; [done|].
    specialize (Ht k x Hx). lia.
Qed.

Lemma pinned_run_inv ops :
  Forall pinned_op_ok ops → N.of_nat (length ops) < u64_max →
  let p := foldl (λ p o, pinned_exec o p) pinned_new ops in
  pinned_inv p ∧ pc_clock p ≤ N.of_nat (length ops).
Proof.
  induction ops as [|o ops IH] using rev_ind; intros Hok Hlen.
  - split; [split|]; cbn; [|done|lia]. intros base. unfold base_entries. rewrite map_filter_empty, map_size_empty. lia.
  - apply Forall_app in Hok as [Hok Ho]. rewrite Forall_singleton in Ho. rewrite length_app in Hlen |- *. cbn in Hlen |- *.
    destruct IH as [Hinv Hc]; [done|lia|]. rewrite foldl_app. cbn.
    set (p := foldl _ _ _) in *. assert (pc_clock p < u64_max) as Hroom by lia.
    assert (pc_clock (pinned_exec o p) ≤ pc_clock p + 1) as Hclock.
    { destruct o as [name|name base prov]; cbn.
      - unfold pinned_get. destruct (pc_map p !! name); cbn; [|lia].
        rewrite wadd_small by (unfold u64_max, u64_modulus in *; lia). lia.
      - rewrite wadd_small by (unfold u64_max, u64_modulus in *; lia). lia. }
    split; [|lia]. destruct o as [name|name base prov]; cbn in *.
    + by apply pinned_get_inv.
    + by apply pinned_insert_inv.
Qed.

(** The cache of pinned snapshots is bounded per table whatever names
    queries ask for: never more than [MAX_PINNED_PER_TABLE] entries of one
    table.  An insert serves the next lookup of its name, and what it puts out
    is of the same table and was used no later than anything of it that stays. *)
Theorem pinned_cache_bounded ops name base prov :
  Forall pinned_op_ok ops → of_base base name = true → N.of_nat (length ops) < u64_max →
  let p := foldl (λ p o, pinned_exec o p) pinned_new ops in
  let p' := pinned_insert name base prov p in
  (∀ base', (size (base_entries base' (pc_map p')) ≤ MAX_PINNED_PER_TABLE)%nat) ∧
  snd (pinned_get name p') = Some prov ∧
  ∀ k e, pc_map p !! k = Some e → pc_map p' !! k = None →
    of_base base k = true ∧
    ∀ k' e', pc_map p' !! k' = Some e' → of_base base k' = true → pe_last_used e ≤ pe_last_used e'.
Proof.
  intros Hok Hb Hlen p p'. destruct (pinned_run_inv ops Hok Hlen) as [Hinv Hc]. fold p in Hinv, Hc.
  destruct (pinned_insert_inv name base prov p) as [[Hs Ht] Hget]; [lia|done|done|].
  fold p' in Hs, Ht, Hget. split_and!; [exact Hs|unfold pinned_get; by rewrite Hget|].
  intros k e Hk Hgone. assert (k ≠ name) as Hne by (by intros ->; rewrite Hget in Hgone).
  unfold p', pinned_insert in Hgone |- *. rewrite wadd_small in Hgone |- * by (unfold u64_max, u64_modulus in *; lia).
  destruct (evict_lru_over_cap _ _ _ _) as [m' evicted] eqn:Ev. apply evict_spec in Ev as (Hkeep & Hev & _).
  cbn [fst pc_map] in *. destruct (decide (k ∈ evicted)) as [He|He].
  - destruct (Hev k He) as (_ & Hbk & v & Hv & Hold). split; [done|]. rewrite lookup_insert_ne in Hv by done.
    rewrite Hk in Hv. by injection Hv as <-.
  - rewrite (Hkeep k He), lookup_insert_ne, Hk in Hgone by done. done.
Qed.
End PinnedRun.
