(* ===== verification/CacheRace.v ===== *)
(** * Reads, refreshes and local writes of one table, interleaved

    Scans and refreshes of one [CachingTableProvider] beside commits of this
    server and of others.  A step is one critical section of [Cache.load_current]
    or [current_provider], one answer of the catalog, one commit or one
    invalidation. *)
From S2P Require Import Prelude Text TailNames Freshness Cache.
#[local] Open Scope N_scope.

Section Race.
Context {Table Provider : Type} `{IcebergTable Table Provider}.
#[local] Abbreviation CachedSnapshot := (CachedSnapshot Table Provider).
#[local] Abbreviation CachingTableProvider := (CachingTableProvider Table Provider).

(** Where a scan or a refresh is. *)
Inductive Pc :=
  | FastPath                                 (* found the cache fresh; to read it *)
  | Loading (token : option N)               (* waits for the catalog *)
  | Loaded (token : option N) (t : Table)    (* to check the cached version *)
  | Building (token : option N) (version : MetadataVersion) (t : Table)
  | Built (token : option N) (version : MetadataVersion) (prov : Provider) (t : Table)
  | Installed (token : option N) (prov : Provider) (t : Table)
  | Served (version : MetadataVersion)       (* what the scan reads *)
  | StaleServed (version : MetadataVersion)  (* the catalog was out of reach *)
  | Failed.

(** A thread, with the newest local write whose statement had returned when it
    started. *)
Record thread := { th_path : LoadPath; th_acked : nat; th_pc : Pc }.

(** [w_cat]: the table's metadata versions in commit order, the last current;
    [w_pending]: local commits not yet invalidated; [w_acked]: the newest local
    commit whose invalidation is done, and whose statement may return. *)
Record world := {
  w_cat : list Table;
  w_pending : list nat;
  w_acked : nat;
  w_prov : CachingTableProvider;
  w_threads : list thread;
}.
Definition set_prov (w : world) (p : CachingTableProvider) : world :=
  {| w_cat := w_cat w; w_pending := w_pending w; w_acked := w_acked w; w_prov := p;
     w_threads := w_threads w |}.
Definition set_pc (w : world) (i : nat) (pc : Pc) : world :=
  {| w_cat := w_cat w; w_pending := w_pending w; w_acked := w_acked w; w_prov := w_prov w;
     w_threads := alter (λ t, {| th_path := th_path t; th_acked := th_acked t; th_pc := pc |}) i (w_threads w) |}.
Definition spawn (w : world) (path : LoadPath) (pc : Pc) : world :=
  {| w_cat := w_cat w; w_pending := w_pending w; w_acked := w_acked w; w_prov := w_prov w;
     w_threads := w_threads w ++ [{| th_path := path; th_acked := w_acked w; th_pc := pc |}] |}.

Inductive action :=
  | ForeignCommit (t : Table)
  | LocalCommit (t : Table)
  | Invalidate                  (* the first pending local commit *)
  | AmbiguousInvalidate         (* a write that may not have committed *)
  | StartScan
  | StartRefresh
  | Step (i : nat) (now : N) (reachable : bool).

Definition thread_step (i : nat) (now : N) (override_ : option bool) (reachable : bool) (w : world)
    : option world :=
  th ← w_threads w !! i;
  match th_pc th with
  | FastPath =>
    Some match cp_cached (w_prov w) with
         | Some c => set_pc w i (Served (cs_version c))
         | None => set_pc w i (Loading (load_token (w_prov w)))
         end
  | Loading token =>
    if reachable then t ← last (w_cat w); Some (set_pc w i (Loaded token t))
    else Some (set_pc w i match stale_serve (th_path th) override_ (w_prov w) with
                          | Some c => StaleServed (cs_version c)
                          | None => Failed
                          end)
  | Loaded token t =>
    Some match load_version (cp_branch (w_prov w)) t with
         | Err _ => set_pc w i Failed
         | Ok version =>
           match check_cached token now version (w_prov w) with
           | (p, Some c) => set_pc (set_prov w p) i (Served (cs_version c))
           | (p, None) => set_pc w i (Building token version t)
           end
         end
  | Building token version t =>
    Some match build_provider (cp_branch (w_prov w)) t with
         | Err _ => set_pc w i Failed
         | Ok prov => set_pc w i (Built token version prov t)
         end
  | Built token version prov t =>
    Some (set_pc (set_prov w (install token version prov t (w_prov w))) i (Installed token prov t))
  | Installed token prov t =>
    match load_version (cp_branch (w_prov w)) t with
    | Ok version => Some (set_pc (set_prov w (complete token now (w_prov w))) i (Served version))
    | Err _ => None
    end
  | Served _ | StaleServed _ | Failed => None
  end.

Definition exec (override_ : option bool) (a : action) (w : world) : option world :=
  match a with
  | ForeignCommit t =>
    Some {| w_cat := w_cat w ++ [t]; w_pending := w_pending w; w_acked := w_acked w;
            w_prov := w_prov w; w_threads := w_threads w |}
  | LocalCommit t =>
    Some {| w_cat := w_cat w ++ [t]; w_pending := w_pending w ++ [length (w_cat w)]; w_acked := w_acked w;
            w_prov := w_prov w; w_threads := w_threads w |}
  | Invalidate =>
    match w_pending w with
    | [] => None
    | n :: pending =>
      Some {| w_cat := w_cat w; w_pending := pending; w_acked := Nat.max (w_acked w) n;
              w_prov := with_freshness (w_prov w) (invalidate <$> cp_freshness (w_prov w));
              w_threads := w_threads w |}
    end
  | AmbiguousInvalidate =>
    Some (set_prov w (with_freshness (w_prov w) (invalidate <$> cp_freshness (w_prov w))))
  | StartScan =>
    Some (spawn w Scan (if serves_cached (w_prov w) then FastPath else Loading (load_token (w_prov w))))
  | StartRefresh => Some (spawn w Refresher (Loading (load_token (w_prov w))))
  | Step i now reachable => thread_step i now override_ reachable w
  end.

(** A load in flight, between its token and its end. *)
Definition loads (th : thread) : bool :=
  match th_pc th with
  | Loading _ | Loaded _ _ | Building _ _ _ | Built _ _ _ _ | Installed _ _ _ => true
  | _ => false
  end.

(** Generations short of the end of [u64]. *)
Definition room (w : world) : Prop :=
  ∀ f, cp_freshness (w_prov w) = Some f → write_gen f < u64_max.

(** Runs; in [solo] ones a load starts only when none is in flight. *)
Inductive run (override_ : option bool) (solo : bool) : world → world → Prop :=
  | run_refl w : run override_ solo w w
  | run_step w0 w a w' :
      run override_ solo w0 w → room w → exec override_ a w = Some w' →
      (solo = true → (length (List.filter loads (w_threads w')) ≤ 1)%nat) → run override_ solo w0 w'.

(** The provider as it is built: nothing cached, born stale. *)
Definition started (w : world) : Prop :=
  w_cat w ≠ [] ∧ w_pending w = [] ∧ w_acked w = 0%nat ∧ w_threads w = [] ∧ cp_cached (w_prov w) = None ∧
  ∃ f, cp_freshness (w_prov w) = Some f ∧ write_gen f = 1 ∧ fresh_gen f = 0.

(** [version] is the version of the table at commit [n] or a later one. *)
Definition as_new_as (branch : option string) (cat : list Table) (n : nat) (version : MetadataVersion) : Prop :=
  ∃ j t, cat !! j = Some t ∧ (n ≤ j)%nat ∧ load_version branch t = Ok version.

(** ** Read your own writes, one load at a time *)

Lemma as_new_as_app branch cat cat' n v : as_new_as branch cat n v → as_new_as branch (cat ++ cat') n v.
Proof. intros (j & t & Hj & ? & ?). exists j, t. split; [by apply lookup_app_l_Some|done]. Qed.
Lemma as_new_as_le branch cat n m v : as_new_as branch cat n v → (m ≤ n)%nat → as_new_as branch cat m v.
Proof. intros (j & t & ? & ? & ?) ?. exists j, t. split_and!; [done|lia|done]. Qed.

(** What a thread knows of the table it loaded. *)
Definition thread_ok (w : world) (f : TableFreshness) (th : thread) : Prop :=
  let branch := cp_branch (w_prov w) in
  let tok_ok token := ∃ g, token = Some g ∧ fresh_gen f ≤ g ≤ write_gen f ∧
    (∀ c, cp_cached (w_prov w) = Some c → cs_loaded_gen c ≤ g) ∧
    (g = write_gen f → th_acked th = w_acked w) in
  let seen t := ∃ j, w_cat w !! j = Some t ∧ (th_acked th ≤ j)%nat in
  (th_acked th ≤ w_acked w)%nat ∧
  match th_pc th with
  | FastPath => ∃ c, cp_cached (w_prov w) = Some c ∧ as_new_as branch (w_cat w) (th_acked th) (cs_version c)
  | Loading token => tok_ok token
  | Loaded token t => tok_ok token ∧ seen t
  | Building token v t => tok_ok token ∧ seen t ∧ load_version branch t = Ok v
  | Built token v _ t => tok_ok token ∧ seen t ∧ load_version branch t = Ok v
  | Installed token _ t => tok_ok token ∧ seen t ∧
      ∃ c, cp_cached (w_prov w) = Some c ∧ load_version branch t = Ok (cs_version c)
  | Served v => as_new_as branch (w_cat w) (th_acked th) v
  | StaleServed _ | Failed => True
  end.

Record inv (w : world) : Prop := {
  iv_fresh : ∃ f, cp_freshness (w_prov w) = Some f ∧ fresh_gen f ≤ write_gen f ∧
    (fresh_gen f = write_gen f → ∃ c, cp_cached (w_prov w) = Some c ∧
       as_new_as (cp_branch (w_prov w)) (w_cat w) (w_acked w) (cs_version c)) ∧
    (∀ c, cp_cached (w_prov w) = Some c → cs_loaded_gen c ≤ write_gen f) ∧
    ∀ i th, w_threads w !! i = Some th → thread_ok w f th;
  iv_fast : ∀ i j s l, w_threads w !! i = Some s → w_threads w !! j = Some l →
    th_pc s = FastPath → loads l = true → (th_acked s ≤ th_acked l)%nat;
  iv_solo : ∀ i j a b, w_threads w !! i = Some a → w_threads w !! j = Some b →
    loads a = true → loads b = true → i = j;
  iv_pending : (w_acked w < length (w_cat w))%nat ∧ ∀ n, n ∈ w_pending w → (n < length (w_cat w))%nat;
}.

Lemma solo_filter (ths : list thread) :
  (length (List.filter loads ths) ≤ 1)%nat →
  ∀ i j a b, ths !! i = Some a → ths !! j = Some b → loads a = true → loads b = true → i = j.
Proof.
  induction ths as [|th ths IH]; intros Hl i j a b Hi Hj Ha Hb; [done|]. cbn [List.filter] in Hl.
  assert (∀ k c, ths !! k = Some c → loads c = true → (0 < length (List.filter loads ths))%nat) as Hpos.
  { intros k c Hk Hc. assert (List.In c (List.filter loads ths)) as Hin.
    { apply filter_In. split; [|done]. apply list_elem_of_In. by eapply list_elem_of_lookup_2. }
    destruct (List.filter loads ths); [done|]. simpl. lia. }
  destruct i as [|i], j as [|j]; simplify_eq/=; try done.
  - rewrite Ha in Hl. simpl in Hl. pose proof (Hpos _ _ Hj Hb). lia.
  - rewrite Hb in Hl. simpl in Hl. pose proof (Hpos _ _ Hi Ha). lia.
  - f_equal. eapply IH; [|done..]. destruct (loads th); simpl in *; lia.
Qed.

Lemma inv_started w : started w → inv w.
Proof.
  intros (Hcat & Hp & Ha & Ht & Hc & f & Hf & Hw & Hr). split.
  - exists f. rewrite Hc, Ht. split_and!; [done|lia|lia|done|done].
  - intros i j s l Hs. by rewrite Ht in Hs.
  - intros i j a b Hs. by rewrite Ht in Hs.
  - rewrite Ha, Hp. split; [by destruct (w_cat w); [|simpl; lia]|]. intros n Hn. by apply not_elem_of_nil in Hn.
Qed.

(** Threads keep what they know when the catalog grows. *)
Lemma thread_ok_commit w f th t pending :
  thread_ok w f th →
  thread_ok {| w_cat := w_cat w ++ [t]; w_pending := pending; w_acked := w_acked w; w_prov := w_prov w;
               w_threads := w_threads w |} f th.
Proof.
  intros [Ha Hp]. split; [done|]. cbv zeta in *. cbn [w_cat w_acked w_prov].
  assert (∀ t', (∃ j, w_cat w !! j = Some t' ∧ (th_acked th ≤ j)%nat) →
    ∃ j, (w_cat w ++ [t]) !! j = Some t' ∧ (th_acked th ≤ j)%nat) as Hseen.
  { intros t' (j & Hj & ?). exists j. split; [by apply lookup_app_l_Some|done]. }
  destruct (th_pc th); [|exact Hp| | | | | |done|done].
  - destruct Hp as (c & Hc & Hn). exists c. split; [done|by apply as_new_as_app].
  - destruct Hp as (H1 & H2). split; [exact H1|by apply Hseen].
  - destruct Hp as (H1 & H2 & H3). split; [exact H1|]. split; [by apply Hseen|done].
  - destruct Hp as (H1 & H2 & H3). split; [exact H1|]. split; [by apply Hseen|done].
  - destruct Hp as (H1 & H2 & H3). split; [exact H1|]. split; [by apply Hseen|done].
  - by apply as_new_as_app.
Qed.

(** ... and when generations move past them. *)
Lemma thread_ok_invalidate w f th acked pending :
  thread_ok w f th → fresh_gen f ≤ write_gen f → write_gen f < u64_max → (w_acked w ≤ acked)%nat →
  thread_ok {| w_cat := w_cat w; w_pending := pending; w_acked := acked;
               w_prov := with_freshness (w_prov w) (Some (invalidate f)); w_threads := w_threads w |}
    (invalidate f) th.
Proof.
  intros [Ha Hp] Hf Hw Hle. split; [cbn; lia|]. cbv zeta in *. cbn [w_cat w_acked w_prov with_freshness cp_branch cp_cached].
  assert (∀ token, (∃ g, token = Some g ∧ fresh_gen f ≤ g ≤ write_gen f ∧
    (∀ c, cp_cached (w_prov w) = Some c → cs_loaded_gen c ≤ g) ∧ (g = write_gen f → th_acked th = w_acked w)) →
    ∃ g, token = Some g ∧ fresh_gen (invalidate f) ≤ g ≤ write_gen (invalidate f) ∧
    (∀ c, cp_cached (w_prov w) = Some c → cs_loaded_gen c ≤ g) ∧
    (g = write_gen (invalidate f) → th_acked th = acked)) as Htok.
  { intros token (g & -> & ? & ? & _). exists g. split; [done|]. cbn [invalidate fresh_gen write_gen].
    rewrite wadd_small by (unfold u64_max, u64_modulus in *; lia). split; [lia|]. split; [done|]. lia. }
  destruct (th_pc th); naive_solver.
Qed.

(** Thread [i] moves on and the provider changes under it. *)
Lemma inv_step w i th p f f' pc :
  inv w → cp_freshness (w_prov w) = Some f → w_threads w !! i = Some th → pc ≠ FastPath →
  let th' := {| th_path := th_path th; th_acked := th_acked th; th_pc := pc |} in
  let w' := set_pc (set_prov w p) i pc in
  (loads th' = true → loads th = true) →
  cp_branch p = cp_branch (w_prov w) → cp_freshness p = Some f' → write_gen f' = write_gen f →
  fresh_gen f' ≤ write_gen f' →
  (fresh_gen f' = write_gen f' → ∃ c, cp_cached p = Some c ∧
     as_new_as (cp_branch (w_prov w)) (w_cat w) (w_acked w) (cs_version c)) →
  (∀ c, cp_cached p = Some c → cs_loaded_gen c ≤ write_gen f') →
  p = w_prov w ∨ (loads th = true ∧
    (cp_cached p = cp_cached (w_prov w) ∨
     ∃ c, cp_cached p = Some c ∧ as_new_as (cp_branch (w_prov w)) (w_cat w) (th_acked th) (cs_version c))) →
  thread_ok w' f' th' →
  inv w'.
Proof.
  intros [(f0 & Hf0 & Hle & Hi2 & Hi3 & Hth) Hfast Hsolo Hpend] Hf Hi Hpc th' w' Hl Hb Hf' Hw Hle' Hn2 Hn3 Hother Hok.
  rewrite Hf in Hf0. simplify_eq.
  assert (∀ j t, w_threads w' !! j = Some t →
    (j = i ∧ t = th') ∨ (j ≠ i ∧ w_threads w !! j = Some t)) as Hlook.
  { intros j t Hj. subst w'. cbn in Hj. destruct (decide (i = j)) as [<-|Hne].
    - rewrite list_lookup_alter_eq, Hi in Hj. left. split; [done|]. by simplify_eq/=.
    - rewrite list_lookup_alter_ne in Hj by done. right. split; [congruence|done]. }
  split.
  - exists f'. subst w'. cbn [set_pc set_prov w_prov w_cat w_acked]. rewrite Hb. split_and!; try done.
    intros j t Hj. destruct (Hlook j t Hj) as [[-> ->]|[Hne Hjw]]; [done|].
    destruct Hother as [->|[Hlt Hcc]].
    + rewrite Hf in Hf'. injection Hf' as <-. exact (Hth j t Hjw).
    + destruct (Hth j t Hjw) as [Ha Hp].
      assert (loads t = false) as Hnl.
      { destruct (loads t) eqn:E; [|done]. destruct Hne. by eapply Hsolo. }
      unfold loads in Hnl. split; [done|]. cbv zeta in *. cbn [set_pc set_prov w_prov w_cat w_acked]. rewrite Hb.
      destruct (th_pc t) eqn:Et; try done. destruct Hp as (c & Hc & Hn).
      destruct Hcc as [->|(c' & Hc' & Hn')]; [by exists c|]. exists c'. split; [done|].
      eapply as_new_as_le; [done|]. by eapply (Hfast j i t th).
  - intros j k s l Hj Hk Hs Hll. destruct (Hlook j s Hj) as [[-> ->]|[_ Hjw]]; [done|].
    destruct (Hlook k l Hk) as [[-> ->]|[_ Hkw]]; [|by eapply Hfast].
    eapply (Hfast j i s th); eauto.
  - intros j k a b Hj Hk Ha' Hb'. destruct (Hlook j a Hj) as [[-> ->]|[Hne1 Hjw]];
      destruct (Hlook k b Hk) as [[-> ->]|[Hne2 Hkw]]; [done|..].
    + eapply Hsolo; eauto.
    + eapply Hsolo; eauto.
    + by eapply Hsolo.
  - done.
Qed.

Lemma inv_load_step i now ov reach w w' :
  inv w → thread_step i now ov reach w = Some w' → inv w'.
Proof.
  intros Hinv Hs. unfold thread_step in Hs. apply bind_Some in Hs as (th & Hi & Hs).
  pose proof Hinv as [(f & Hf & Hle & Hi2 & Hi3 & Hth) _ _ [Hacked _]].
  destruct (Hth i th Hi) as [Ha Hok]. cbv zeta in Hok.
  assert (∀ w, set_prov w (w_prov w) = w) as Hsame by (by intros []).
  (* a move that leaves the provider alone *)
  assert (∀ pc, pc ≠ FastPath →
    (loads {| th_path := th_path th; th_acked := th_acked th; th_pc := pc |} = true → loads th = true) →
    thread_ok (set_pc w i pc) f {| th_path := th_path th; th_acked := th_acked th; th_pc := pc |} →
    inv (set_pc w i pc)) as Hmove.
  { intros pc Hpc Hl Hnew. rewrite <-(Hsame w) at 1. eapply (inv_step w i th _ f f pc); eauto. }
  destruct (th_pc th) as [|token|token t|token v t|token v prov t|token prov t|v|v|] eqn:Epc.
  - (* FastPath *) destruct Hok as (c & Hc & Hn). rewrite Hc in Hs. injection Hs as <-. by apply Hmove.
  - destruct reach.
    + apply bind_Some in Hs as (t & Ht & [= <-]). apply Hmove; [done|intros _; unfold loads; by rewrite Epc|].
      split; [done|]. cbn. split; [done|]. rewrite last_lookup in Ht. exists (Nat.pred (length (w_cat w))).
      split; [done|]. lia.
    + injection Hs as <-. destruct (stale_serve _ _ _); by apply Hmove.
  - destruct Hok as [(g & -> & Hg & Hcg & Hga) (j & Hj & Hjle)].
    destruct (load_version (cp_branch (w_prov w)) t) as [v|] eqn:Ev; [|injection Hs as <-; by apply Hmove].
    unfold check_cached in Hs. destruct (cp_cached (w_prov w)) as [c|] eqn:Ec.
    + destruct (bool_decide_reflect (cs_version c = v)) as [Hv|_].
      * injection Hs as <-. unfold complete. rewrite Hf. subst v.
        assert (as_new_as (cp_branch (w_prov w)) (w_cat w) (th_acked th) (cs_version c)) as Hnew
          by (by exists j, t).
        eapply (inv_step w i th _ f (complete_load g now f)); try done; cbn [with_freshness cp_cached cp_freshness complete_load write_gen fresh_gen].
        -- lia.
        -- intros Hg'. exists c. split; [done|]. rewrite <-Hga by lia. done.
        -- intros c' Hc'. apply Hi3. by rewrite <-Hc'.
        -- right. split; [unfold loads; by rewrite Epc|by left].
      * injection Hs as <-. apply Hmove; [done|intros _; unfold loads; by rewrite Epc|].
        split; [done|]. cbn. split_and!; [by exists g; split_and!; [done|lia|lia|rewrite Ec|]|by exists j|done].
    + injection Hs as <-. apply Hmove; [done|intros _; unfold loads; by rewrite Epc|].
      split; [done|]. cbn. split_and!; [by exists g; split_and!; [done|lia|lia|rewrite Ec|]|by exists j|done].
  - destruct (build_provider (cp_branch (w_prov w)) t); injection Hs as <-; [|by apply Hmove].
    apply Hmove; [done|intros _; unfold loads; by rewrite Epc|]. by split.
  - injection Hs as <-. destruct Hok as [(g & -> & Hg & Hcg & Hga) [(j & Hj & Hjle) Hv]].
    unfold install. cbn [default from_option id].
    assert (match cp_cached (w_prov w) with Some c => g <? cs_loaded_gen c | None => false end = false) as ->.
    { destruct (cp_cached (w_prov w)) as [c|] eqn:Ec; [|done]. apply N.ltb_ge. by apply Hcg. }
    assert (as_new_as (cp_branch (w_prov w)) (w_cat w) (th_acked th) v) as Hnew by (by exists j, t).
    set (c' := {| cs_version := v; cs_provider := prov; cs_metadata := t; cs_loaded_gen := g |}).
    eapply (inv_step w i th _ f f); try done; cbn [with_cached cp_cached cp_branch].
    + intros _. unfold loads. by rewrite Epc.
    + intros Hfw. exists c'. split; [done|]. rewrite <-Hga by lia. done.
    + intros c [= <-]. cbn. lia.
    + right. split; [unfold loads; by rewrite Epc|]. right. by exists c'.
    + split; [done|]. cbn. split; [|split; [by exists j|by exists c']].
      exists g. split_and!; [done|lia|lia| |done]. intros c [= <-]. cbn. lia.
  - destruct Hok as [(g & -> & Hg & Hcg & Hga) [(j & Hj & Hjle) (c & Hc & Hv)]]. rewrite Hv in Hs.
    injection Hs as <-. unfold complete. rewrite Hf.
    assert (as_new_as (cp_branch (w_prov w)) (w_cat w) (th_acked th) (cs_version c)) as Hnew by (by exists j, t).
    eapply (inv_step w i th _ f (complete_load g now f)); try done; cbn [with_freshness cp_cached cp_freshness complete_load write_gen fresh_gen].
    + lia.
    + intros Hg'. exists c. split; [done|]. rewrite <-Hga by lia. done.
    + right. split; [unfold loads; by rewrite Epc|by left].
  - done.
  - done.
  - done.
Qed.

(** A thread starts. *)
Lemma inv_spawn_thread w path pc f :
  inv w → cp_freshness (w_prov w) = Some f →
  (length (List.filter loads (w_threads (spawn w path pc))) ≤ 1)%nat →
  pc = Loading (load_token (w_prov w)) ∨ (pc = FastPath ∧ serves_cached (w_prov w) = true) →
  inv (spawn w path pc).
Proof.
  intros [(f0 & Hf0 & Hle & Hi2 & Hi3 & Hth) Hfast Hsolo Hpend] Hf Hone Hpc. rewrite Hf in Hf0. injection Hf0 as <-.
  set (th' := {| th_path := path; th_acked := w_acked w; th_pc := pc |}).
  assert (∀ j t, w_threads (spawn w path pc) !! j = Some t →
    w_threads w !! j = Some t ∨ (j = length (w_threads w) ∧ t = th')) as Hlook.
  { intros j t Hj. cbn in Hj. apply lookup_app_Some in Hj as [?|[Hge Hj]]; [by left|right].
    apply list_lookup_singleton_Some in Hj as [? <-]. split; [lia|done]. }
  split.
  - exists f. cbn. split_and!; try done. intros j t [Hj|[-> ->]]%Hlook; [exact (Hth j t Hj)|].
    split; [done|]. cbn [th' th_pc th_acked spawn w_prov w_cat w_acked].
    destruct Hpc as [->|[-> Hs]].
    + cbn. exists (write_gen f). unfold load_token. rewrite Hf. split_and!; [done|lia|lia|done|done].
    + unfold serves_cached in Hs. rewrite Hf in Hs. apply N.eqb_eq in Hs. by apply Hi2.
  - intros i j s l Hi Hj Hs Hl. destruct (Hlook i s Hi) as [Hiw|[-> ->]]; destruct (Hlook j l Hj) as [Hjw|[-> ->]].
    + by eapply Hfast.
    + destruct (Hth i s Hiw) as [Ha _]. exact Ha.
    + cbn [th' th_pc] in Hs. destruct Hpc as [->|[-> Hsv]]; [done|].
      unfold serves_cached in Hsv. rewrite Hf in Hsv. apply N.eqb_eq in Hsv.
      destruct (Hth j l Hjw) as [_ Hok]. cbv zeta in Hok. unfold loads in Hl. cbn [th' th_acked].
      destruct (th_pc l); try done;
        [destruct Hok as (g & _ & Hg & _ & Hga)|destruct Hok as [(g & _ & Hg & _ & Hga) _]..];
        rewrite Hga by lia; done.
    + done.
  - intros i j a b. by apply (solo_filter _ Hone i j a b).
  - done.
Qed.

Lemma inv_exec_step ov a w w' :
  inv w → room w → exec ov a w = Some w' → (length (List.filter loads (w_threads w')) ≤ 1)%nat → inv w'.
Proof.
  intros Hinv Hroom Hx Hone. pose proof Hinv as [(f & Hf & Hle & Hi2 & Hi3 & Hth) Hfast Hsolo [Hak Hpend]].
  assert (∀ acked pending, (w_acked w ≤ acked < length (w_cat w))%nat →
    (∀ n, n ∈ pending → (n < length (w_cat w))%nat) →
    inv {| w_cat := w_cat w; w_pending := pending; w_acked := acked;
           w_prov := with_freshness (w_prov w) (Some (invalidate f)); w_threads := w_threads w |}) as Hinval.
  { intros acked pending Hb Hp. pose proof (Hroom f Hf) as Hr. split; cbn; [|done..|by split; [lia|]].
    exists (invalidate f). cbn [invalidate write_gen fresh_gen].
    rewrite wadd_small by (unfold u64_max, u64_modulus in *; lia). split_and!; [done|lia|lia| |].
    - intros c Hc. specialize (Hi3 c Hc). lia.
    - intros i th Hi. apply thread_ok_invalidate; [by eapply Hth|done|done|lia]. }
  assert (∀ t pending, (∀ n, n ∈ pending → (n < S (length (w_cat w)))%nat) →
    inv {| w_cat := w_cat w ++ [t]; w_pending := pending; w_acked := w_acked w; w_prov := w_prov w;
           w_threads := w_threads w |}) as Hcommit.
  { intros t pending Hp. split; cbn; [|done..|rewrite length_app; simpl; split; [lia|intros n Hn; specialize (Hp n Hn); lia]].
    exists f. split_and!; try done.
    - intros E. destruct (Hi2 E) as (c & ? & ?). exists c. split; [done|by apply as_new_as_app].
    - intros i th Hi. by apply thread_ok_commit, (Hth i). }
  destruct a as [t|t| | | | |i now reach]; cbn [exec] in Hx.
  - injection Hx as <-. apply Hcommit. intros n Hn. specialize (Hpend n Hn). lia.
  - injection Hx as <-. apply Hcommit. intros n [Hn|Hn%list_elem_of_singleton]%elem_of_app; [|lia].
    specialize (Hpend n Hn). lia.
  - destruct (w_pending w) as [|n pending] eqn:Ep; [done|]. rewrite Hf in Hx. injection Hx as <-. apply Hinval.
    + specialize (Hpend n ltac:(by left)). lia.
    + intros m Hm. apply Hpend. by right.
  - rewrite Hf in Hx. injection Hx as <-. apply Hinval; [lia|done].
  - injection Hx as <-. eapply inv_spawn_thread; [done|done|done|]. destruct (serves_cached (w_prov w)); auto.
  - injection Hx as <-. eapply inv_spawn_thread; [done|done|done|]. auto.
  - by eapply inv_load_step.
Qed.

Lemma inv_run_solo ov solo w0 w : solo = true → inv w0 → run ov solo w0 w → inv w.
Proof.
  intros -> Hs Hr. induction Hr as [|w0 w1 a w' Hr IH Hroom Hx Hone]; [done|].
  eapply inv_exec_step; [by apply IH|done|done|by apply Hone].
Qed.

End Race.
