(* ===== verification/PlanCache.v ===== *)
(** * Plan and result caches (src/icegres/src/plancache.rs)

    Two LRU caches keyed by a statement and the session state that plans it: of
    physical plans, bounded by their number, and of results, bounded by their
    bytes; the stream that fills the latter; the hook that serves a SELECT
    through both.  DataFusion plans a statement ([Planner]) and its physical plans
    are trees of operators.  The [usize] counts of held plans and batches are
    bounded by memory and are plain numbers; the byte budget's sum wraps. *)
From S2P Require Import Prelude Text TailNames Freshness Cache.
#[local] Open Scope N_scope.

(** ** Keys *)

(** The planning state of a session that a key covers. *)
Record SessionState := { default_catalog : list byte; default_schema : list byte; time_zone : list byte }.

Record PlanKey := { pk_catalog : list byte; pk_schema : list byte; pk_timezone : list byte; pk_sql : list byte }.
#[export] Instance PlanKey_eq_dec : EqDecision PlanKey.
Proof. solve_decision. Defined.
#[export] Instance PlanKey_countable : Countable PlanKey.
Proof.
  apply (inj_countable' (λ k, (pk_catalog k, pk_schema k, pk_timezone k, pk_sql k))
    (λ '(c, s, t, q), {| pk_catalog := c; pk_schema := s; pk_timezone := t; pk_sql := q |})).
  by intros [].
Defined.
(** [PlanKey::from_state]: [{:?}] of the time zone is left as the text it is of. *)
Definition from_state (state : SessionState) (sql : list byte) : PlanKey :=
  {| pk_catalog := default_catalog state; pk_schema := default_schema state;
     pk_timezone := time_zone state; pk_sql := sql |}.

(** The tables of an entry, at the versions it was made for. *)
Abbreviation Versions := (list (list byte * MetadataVersion)).
Definition versions_current_with (tables : Versions) (resolve : list byte → option MetadataVersion) : bool :=
  forallb (λ tv, bool_decide (resolve (fst tv) = Some (snd tv))) tables.

(** [Iterator::min_by_key]: the first of the least. *)
Fixpoint min_by_key {K} (l : list (K * N)) : option (K * N) :=
  match l with
  | [] => None
  | x :: l =>
    match min_by_key l with
    | Some y => if snd y <? snd x then Some y else Some x
    | None => Some x
    end
  end.
Definition lru_key {T} (last_used : T → N) (m : gmap PlanKey T) : option PlanKey :=
  fst <$> min_by_key (map (λ kv, (fst kv, last_used (snd kv))) (map_to_list m)).

(** ** [PlanCache] *)
Section Plans.
Context {Plan Schema : Type}.

Record Entry := { e_plan : Plan; e_schema : Schema; e_tables : Versions; e_last_used : N }.
Record PlanCache := { pl_entries : gmap PlanKey Entry; pl_clock : N; pl_capacity : nat }.
Definition plan_cache_new (capacity : nat) : PlanCache :=
  {| pl_entries := ∅; pl_clock := 0; pl_capacity := capacity |}.
(** [from_env] *)
Definition DEFAULT_CAPACITY : N := 256.
Definition plan_cache_from_env (raw : option string) : PlanCache :=
  plan_cache_new (N.to_nat match raw with
                           | Some r => default DEFAULT_CAPACITY (parse_u64 (trim (str_bytes r)))
                           | None => DEFAULT_CAPACITY
                           end).
Definition plans_enabled (c : PlanCache) : bool := (0 <? pl_capacity c)%nat.

Definition lookup_with (key : PlanKey) (resolve : list byte → option MetadataVersion) (c : PlanCache)
    : PlanCache * option (Plan * Schema * Versions) :=
  match pl_entries c !! key with
  | None => (c, None)
  | Some e =>
    if negb (versions_current_with (e_tables e) resolve) then
      ({| pl_entries := delete key (pl_entries c); pl_clock := pl_clock c; pl_capacity := pl_capacity c |}, None)
    else
      let clock := wadd (pl_clock c) 1 in
      let e' := {| e_plan := e_plan e; e_schema := e_schema e; e_tables := e_tables e; e_last_used := clock |} in
      ({| pl_entries := <[key := e']> (pl_entries c); pl_clock := clock; pl_capacity := pl_capacity c |},
       Some (e_plan e, e_schema e, e_tables e))
  end.

(** The eviction loop of [insert]; one turn per entry is enough. *)
Fixpoint evict_plans (fuel : nat) (capacity : nat) (m : gmap PlanKey Entry) : gmap PlanKey Entry :=
  match fuel with
  | O => m
  | S fuel =>
    if (capacity <? size m)%nat then
      match lru_key e_last_used m with
      | Some lru => evict_plans fuel capacity (delete lru m)
      | None => m
      end
    else m
  end.
Definition insert (key : PlanKey) (plan : Plan) (schema : Schema) (tables : Versions) (c : PlanCache) : PlanCache :=
  let clock := wadd (pl_clock c) 1 in
  let m := <[key := {| e_plan := plan; e_schema := schema; e_tables := tables; e_last_used := clock |}]>
             (pl_entries c) in
  {| pl_entries := evict_plans (size m) (pl_capacity c) m; pl_clock := clock; pl_capacity := pl_capacity c |}.
End Plans.
Arguments Entry : clear implicits.
Arguments PlanCache : clear implicits.

(** ** [ResultCache] *)
Section Results.
Context {Batch Schema : Type}.

Record ResultEntry := {
  re_batches : list Batch; re_schema : Schema; re_tables : Versions; re_bytes : N; re_last_used : N;
}.
Record ResultCache := {
  rc_map : gmap PlanKey ResultEntry; rc_clock : N; rc_total_bytes : N; rc_budget : N; rc_per_result_cap : N;
}.
Definition with_budget (budget : N) : ResultCache :=
  {| rc_map := ∅; rc_clock := 0; rc_total_bytes := 0; rc_budget := budget; rc_per_result_cap := budget / 4 |}.
Definition result_cache_from_env (raw : option string) : ResultCache :=
  with_budget match raw with
              | Some r => default 0 (parse_u64 (trim (str_bytes r)))
              | None => 0
              end.
Definition results_enabled (c : ResultCache) : bool := 0 <? rc_budget c.
#[local] Definition with_results (c : ResultCache) m clock total : ResultCache :=
  {| rc_map := m; rc_clock := clock; rc_total_bytes := total;
     rc_budget := rc_budget c; rc_per_result_cap := rc_per_result_cap c |}.

Definition result_lookup_with (key : PlanKey) (resolve : list byte → option MetadataVersion) (c : ResultCache)
    : ResultCache * option (list Batch * Schema) :=
  if rc_budget c =? 0 then (c, None) else
  match rc_map c !! key with
  | None => (c, None)
  | Some e =>
    if negb (versions_current_with (re_tables e) resolve) then
      (with_results c (delete key (rc_map c)) (rc_clock c) (rc_total_bytes c - re_bytes e), None)
    else
      let clock := wadd (rc_clock c) 1 in
      let e' := {| re_batches := re_batches e; re_schema := re_schema e; re_tables := re_tables e;
                   re_bytes := re_bytes e; re_last_used := clock |} in
      (with_results c (<[key := e']> (rc_map c)) clock (rc_total_bytes c), Some (re_batches e, re_schema e))
  end.

(** The eviction loop of [insert]. *)
Fixpoint evict_results (fuel : nat) (budget : N) (m : gmap PlanKey ResultEntry) (total : N)
    : gmap PlanKey ResultEntry * N :=
  match fuel with
  | O => (m, total)
  | S fuel =>
    if budget <? total then
      match lru_key re_last_used m with
      | Some lru =>
        evict_results fuel budget (delete lru m)
          (match m !! lru with Some e => total - re_bytes e | None => total end)
      | None => (m, total)
      end
    else (m, total)
  end.
Definition result_insert (key : PlanKey) (batches : list Batch) (schema : Schema) (tables : Versions) (bytes : N)
    (c : ResultCache) : ResultCache :=
  if (rc_budget c =? 0) || (bytes =? 0) || (rc_per_result_cap c <? bytes) || (length tables =? 0)%nat then c else
  let total := match rc_map c !! key with Some old => rc_total_bytes c - re_bytes old | None => rc_total_bytes c end in
  let clock := wadd (rc_clock c) 1 in
  let m := <[key := {| re_batches := batches; re_schema := schema; re_tables := tables;
                       re_bytes := bytes; re_last_used := clock |}]> (rc_map c) in
  let '(m, total) := evict_results (size m) (rc_budget c) m (wadd total bytes) in
  with_results c m clock total.

(** ** [CachingTee] *)
Context (get_array_memory_size : Batch → N).

Record PopulateSink := { sk_key : PlanKey; sk_schema : Schema; sk_tables : Versions }.
Record CachingTee := {
  ct_acc : list Batch; ct_bytes : N; ct_cap : N; ct_poisoned : bool; ct_inserted : bool; ct_sink : PopulateSink;
}.
Definition tee_new (cap : N) (sink : PopulateSink) : CachingTee :=
  {| ct_acc := []; ct_bytes := 0; ct_cap := cap; ct_poisoned := false; ct_inserted := false; ct_sink := sink |}.
#[local] Definition with_tee (t : CachingTee) acc bytes poisoned inserted : CachingTee :=
  {| ct_acc := acc; ct_bytes := bytes; ct_cap := ct_cap t; ct_poisoned := poisoned; ct_inserted := inserted;
     ct_sink := ct_sink t |}.

Definition store (t : CachingTee) (c : ResultCache) : CachingTee * ResultCache :=
  if ct_inserted t || ct_poisoned t || (length (ct_acc t) =? 0)%nat then (t, c) else
  (with_tee t [] (ct_bytes t) (ct_poisoned t) true,
   result_insert (sk_key (ct_sink t)) (ct_acc t) (sk_schema (ct_sink t)) (sk_tables (ct_sink t)) (ct_bytes t) c).

(** What a poll of the inner stream gives; the tee hands it on. *)
Inductive Polled := PBatch (b : Batch) | PErr (e : string) | PEnd | PPending.
Definition tee_poll (p : Polled) (t : CachingTee) (c : ResultCache) : CachingTee * ResultCache :=
  match p with
  | PBatch b =>
    if ct_poisoned t then (t, c) else
    let size := get_array_memory_size b in
    if ct_cap t <? ct_bytes t + size then (with_tee t [] 0 true (ct_inserted t), c)
    else (with_tee t (ct_acc t ++ [b]) (ct_bytes t + size) (ct_poisoned t) (ct_inserted t), c)
  | PErr _ => (with_tee t [] (ct_bytes t) true (ct_inserted t), c)
  | PEnd => store t c
  | PPending => (t, c)
  end.
Fixpoint tee_polls (ps : list Polled) (t : CachingTee) (c : ResultCache) : CachingTee * ResultCache :=
  match ps with
  | [] => (t, c)
  | p :: ps => let '(t, c) := tee_poll p t c in tee_polls ps t c
  end.
End Results.
Arguments ResultEntry : clear implicits.
Arguments ResultCache : clear implicits.
Arguments PopulateSink : clear implicits.
Arguments CachingTee : clear implicits.
Arguments Polled : clear implicits.

(** ** Physical plans *)

(** A plan is a tree of operators; [rebuild] is [with_new_children] on the
    operator of a node. *)
Inductive ExecutionPlan (Op : Type) := Node (op : Op) (children : list (ExecutionPlan Op)).
Arguments Node {Op}.
Class Operator (Op : Type) := {
  op_name : Op → string;
  rebuild : Op → list (ExecutionPlan Op) → result Op;
}.

Fixpoint reset_plan {Op} `{Operator Op} (plan : ExecutionPlan Op) : result (ExecutionPlan Op) :=
  let '(Node op children) := plan in
  match children with
  | [] => Ok plan
  | _ =>
    rebuilt ← (fix go (cs : list (ExecutionPlan Op)) : result (list (ExecutionPlan Op)) :=
      match cs with
      | [] => Ok []
      | c :: cs => c' ← reset_plan c; cs' ← go cs; Ok (c' :: cs')
      end) children;
    op' ← rebuild op rebuilt;
    Ok (Node op' rebuilt)
  end.
Fixpoint plan_safe_to_cache {Op} `{Operator Op} (plan : ExecutionPlan Op) : bool :=
  let '(Node op children) := plan in
  if String.eqb (op_name op) "RecursiveQueryExec" || String.eqb (op_name op) "WorkTableExec" then false
  else forallb plan_safe_to_cache children.

(** ** Logical plans *)
Inductive Volatility := Immutable | Stable | Volatile.
Inductive Expr := ScalarFunction (v : Volatility) | Placeholder | ScalarVariable | OtherExpr.
Definition expr_blocks_caching (e : Expr) : bool :=
  match e with
  | ScalarFunction Immutable => false
  | ScalarFunction _ => true
  | Placeholder | ScalarVariable => true
  | OtherExpr => false
  end.

(** The source of a scan: a [CachingTableProvider], by its registry key and its
    object, or another. *)
Inductive Source := Caching (key : list byte) (provider : nat) | OtherSource.
(** A node as the walk visits it: its expressions, then its scan. *)
Record LogicalNode := { ln_exprs : list Expr; ln_scan : option Source }.

Inductive Uncacheable := NonImmutableExpr | IneligibleTable.

(** The walk of [analyze]: [version i p] is what the provider [p] answers when
    the [i]-th node is visited. *)
Fixpoint analyze_nodes (version : nat → nat → option MetadataVersion) (i : nat) (nodes : list LogicalNode)
    (tables : gmap (list byte) MetadataVersion) : Uncacheable + gmap (list byte) MetadataVersion :=
  match nodes with
  | [] => inr tables
  | n :: nodes =>
    if existsb expr_blocks_caching (ln_exprs n) then inl NonImmutableExpr else
    match ln_scan n with
    | None => analyze_nodes version (S i) nodes tables
    | Some (Caching key p) =>
      match version i p with
      | Some v => analyze_nodes version (S i) nodes (<[key := v]> tables)
      | None => inl IneligibleTable
      end
    | Some OtherSource => inl IneligibleTable
    end
  end.
Definition analyze (version : nat → nat → option MetadataVersion) (nodes : list LogicalNode)
    : Uncacheable + Versions :=
  match analyze_nodes version 0 nodes ∅ with
  | inl reason => inl reason
  | inr tables => inr (map_to_list tables)
  end.

(** ** The hook *)

(** DataFusion: the nodes of a statement's logical plan, in the order of
    [apply_with_subqueries]; the physical plan, from what each of the scans it
    makes reads; its schema; the batches of its complete executions. *)
Class Planner (Logical Op Schema Batch : Type) := {
  create_logical_plan : SessionState → list byte → result Logical;
  logical_nodes : Logical → list LogicalNode;
  scanned : SessionState → Logical → list nat;
  create_physical_plan : SessionState → Logical → (nat → MetadataVersion) → result (ExecutionPlan Op);
  plan_schema : ExecutionPlan Op → Schema;
  executes : ExecutionPlan Op → list Batch → Prop;
  get_array_memory_size : Batch → N;
}.

(** Registry and providers at one moment. *)
Record Moment := { mo_registry : Registry; mo_version : nat → option MetadataVersion }.
Definition current_version (m : Moment) (key : list byte) : option MetadataVersion :=
  p ← provider key (mo_registry m); mo_version m p.

Section Hook.
Context {Logical Op Schema Batch : Type} `{Operator Op} `{Planner Logical Op Schema Batch}.
#[local] Abbreviation Plan := (ExecutionPlan Op).

Record PlanCacheHook := { hk_cache : PlanCache Plan Schema; hk_results : ResultCache Batch Schema }.
#[local] Definition with_plans (h : PlanCacheHook) c := {| hk_cache := c; hk_results := hk_results h |}.
#[local] Definition with_rescache (h : PlanCacheHook) c := {| hk_cache := hk_cache h; hk_results := c |}.

(** [handle_simple_query] runs plain queries while the cache can hold any. *)
Definition handles (is_query : bool) (h : PlanCacheHook) : bool :=
  negb ((pl_capacity (hk_cache h) =? 0)%nat || negb is_query).

Definition make_sink (key : PlanKey) (schema : Schema) (tables : Versions) (h : PlanCacheHook)
    : option (PopulateSink Schema) :=
  if results_enabled (hk_results h) then Some {| sk_key := key; sk_schema := schema; sk_tables := tables |} else None.
(** [respond]: the tee of the stream, none while stages are recorded. *)
Definition respond_tee (record_stages : bool) (populate : option (PopulateSink Schema)) (h : PlanCacheHook)
    : option (CachingTee Batch Schema) :=
  if record_stages then None else
  sink ← populate;
  if results_enabled (hk_results h) then Some (tee_new (rc_per_result_cap (hk_results h)) sink) else None.

(** A statement on its way through [run]: a step up to each lock of a cache or
    call of the planner. *)
Inductive Pc :=
  | Started                                       (* to look for a result *)
  | ResultsMissed                                 (* to look for a plan *)
  | PlanMissed                                    (* to plan *)
  | Analyzed (l : Logical) (before : option Versions)
  | Planned (l : Logical) (before : option Versions) (reads : nat → MetadataVersion) (plan : Plan)
  | Inserting (plan : Plan) (tables : Versions)   (* unchanged and safe *)
  | Streaming (plan : Plan) (got : list Batch) (tee : option (CachingTee Batch Schema))
  | FromResults (batches : list Batch) (schema : Schema)
  | Answered
  | Failed_.
Record statement := { st_state : SessionState; st_sql : list byte; st_pc : Pc }.
Definition st_key (s : statement) : PlanKey := from_state (st_state s) (st_sql s).

(** What a step takes from outside: versions at one moment or node by node, what
    the scans of physical planning read, or a poll of the executing stream. *)
Inductive input :=
  | At (m : Moment)
  | Analyze (version : nat → nat → option MetadataVersion)
  | Reads (reads : nat → MetadataVersion)
  | Poll (p : Polled Batch)
  | TimeoutError.

Definition run_step (record_stages : bool) (s : statement) (i : input) (h : PlanCacheHook)
    : option (Pc * PlanCacheHook) :=
  let key := st_key s in
  match st_pc s, i with
  | Started, At m =>
    if results_enabled (hk_results h) then
      match result_lookup_with key (current_version m) (hk_results h) with
      | (c, Some (batches, schema)) => Some (FromResults batches schema, with_rescache h c)
      | (c, None) => Some (ResultsMissed, with_rescache h c)
      end
    else Some (ResultsMissed, h)
  | ResultsMissed, At m =>
    match lookup_with key (current_version m) (hk_cache h) with
    | (c, Some (plan, schema, tables)) =>
      match reset_plan plan with
      | Ok plan => Some (Streaming plan [] (respond_tee record_stages (make_sink key schema tables h) h), with_plans h c)
      | Err _ => Some (Failed_, with_plans h c)
      end
    | (c, None) => Some (PlanMissed, with_plans h c)
    end
  | PlanMissed, Analyze version =>
    match create_logical_plan (st_state s) (st_sql s) with
    | Err _ => Some (Failed_, h)
    | Ok l =>
      Some (Analyzed l match analyze version (logical_nodes l) with inr tables => Some tables | inl _ => None end, h)
    end
  | PlanMissed, TimeoutError => Some (Failed_, h)
  | Analyzed l before, Reads reads =>
    match create_physical_plan (st_state s) l reads with
    | Err _ => Some (Failed_, h)
    | Ok plan => Some (Planned l before reads plan, h)
    end
  | Planned l before _ plan, At m =>
    match before with
    | Some tables =>
      if versions_current_with tables (current_version m) && negb (length tables =? 0)%nat && plan_safe_to_cache plan
      then Some (Inserting plan tables, h)
      else Some (Streaming plan [] None, h)
    | None => Some (Streaming plan [] None, h)
    end
  | Inserting plan tables, At _ =>
    let schema := plan_schema plan in
    Some (Streaming plan [] (respond_tee record_stages (make_sink key schema tables h) h),
          with_plans h (insert key plan schema tables (hk_cache h)))
  | Streaming plan got tee, Poll p =>
    let '(tee, results) :=
      match tee with
      | Some t => let '(t, c) := tee_poll get_array_memory_size p t (hk_results h) in (Some t, c)
      | None => (None, hk_results h)
      end in
    Some (match p with
          | PBatch b => Streaming plan (got ++ [b]) tee
          | PErr _ => Failed_
          | PEnd => Answered
          | PPending => Streaming plan got tee
          end, with_rescache h results)
  | _, _ => None
  end.
End Hook.
Arguments PlanCacheHook : clear implicits.

(** ** The least recently used entry *)

Lemma min_by_key_spec {K} (l : list (K * N)) :
  match min_by_key l with
  | Some x => x ∈ l ∧ ∀ y, y ∈ l → snd x ≤ snd y
  | None => l = []
  end.
Proof.
  induction l as [|x l IH]; [done|]. cbn. destruct (min_by_key l) as [y|].
  - destruct IH as [Hy Hmin]. destruct (N.ltb_spec (snd y) (snd x)).
    + split; [by right|]. intros z [->|Hz]%elem_of_cons; [lia|by apply Hmin].
    + split; [by left|]. intros z [->|Hz]%elem_of_cons; [lia|]. specialize (Hmin z Hz). lia.
  - subst l. split; [by left|]. intros y [->|[]%not_elem_of_nil]%elem_of_cons. lia.
Qed.

Section Lru.
Context {T : Type} (lu : T → N).

Lemma lru_key_spec (m : gmap PlanKey T) :
  match lru_key lu m with
  | Some k => ∃ v, m !! k = Some v ∧ ∀ k' v', m !! k' = Some v' → lu v ≤ lu v'
  | None => m = ∅
  end.
Proof.
  unfold lru_key. pose proof (min_by_key_spec (map (λ kv, (fst kv, lu (snd kv))) (map_to_list m))) as Hmin.
  destruct (min_by_key _) as [[k n]|]; cbn.
  - destruct Hmin as [Hin Hmin].
    change (map ?f ?l) with (f <$> l) in Hin. apply list_elem_of_fmap in Hin as ([k0 v] & Hkv & Hin).
    cbn in Hkv. injection Hkv as -> ->. apply elem_of_map_to_list in Hin. exists v. split; [done|].
    intros k' v' Hk'. specialize (Hmin (k', lu v')). cbn in Hmin. apply Hmin.
    change (map ?f ?l) with (f <$> l). apply list_elem_of_fmap. exists (k', v'). split; [done|].
    by apply elem_of_map_to_list.
  - destruct (map_to_list m) eqn:E; [|done]. by apply map_to_list_empty_iff in E.
Qed.

(** [m'] is what is left of [m] when the entries used longest ago leave. *)
Definition lru_rest (m m' : gmap PlanKey T) : Prop :=
  m' ⊆ m ∧ ∀ k v k' v', m !! k = Some v → m' !! k = None → m' !! k' = Some v' → lu v ≤ lu v'.
Lemma lru_rest_refl m : lru_rest m m.
Proof. split; [done|]. intros k v k' v' Hk Hn. by rewrite Hk in Hn. Qed.
Lemma lru_rest_delete m m' k v :
  m !! k = Some v → (∀ k' v', m !! k' = Some v' → lu v ≤ lu v') → lru_rest (delete k m) m' → lru_rest m m'.
Proof.
  intros Hk Hmin [Hsub Hord]. assert (m' ⊆ m) as Hsub' by (etrans; [exact Hsub|apply delete_subseteq]).
  split; [done|]. intros k1 v1 k2 v2 H1 Hn H2. destruct (decide (k1 = k)) as [->|Hne].
  - rewrite Hk in H1. injection H1 as <-. eapply Hmin. by eapply lookup_weaken.
  - eapply Hord; [|done..]. by rewrite lookup_delete_ne.
Qed.
End Lru.

(** ** Eviction *)

Lemma evict_plans_spec {Plan Schema} fuel capacity (m : gmap PlanKey (Entry Plan Schema)) :
  (size m ≤ fuel)%nat →
  lru_rest e_last_used m (evict_plans fuel capacity m) ∧
  size (evict_plans fuel capacity m) = min capacity (size m).
Proof.
  revert m. induction fuel as [|fuel IH]; intros m Hf; cbn [evict_plans]; [split; [apply lru_rest_refl|lia]|].
  destruct (Nat.ltb_spec capacity (size m)); [|split; [apply lru_rest_refl|lia]].
  pose proof (lru_key_spec e_last_used m) as Hk. destruct (lru_key _ m) as [k|].
  - destruct Hk as (v & Hv & Hmin). destruct (IH (delete k m)) as [Hr Hs].
    { rewrite map_size_delete_Some by (by exists v). lia. }
    split; [by eapply lru_rest_delete|]. rewrite Hs, map_size_delete_Some by (by exists v). lia.
  - subst m. rewrite map_size_empty in *. lia.
Qed.

Section ResultBytes.
Context {Batch Schema : Type}.
#[local] Abbreviation ResultEntry := (ResultEntry Batch Schema).
#[local] Abbreviation ResultCache := (ResultCache Batch Schema).

Definition sum_bytes (m : gmap PlanKey ResultEntry) : N := map_fold (λ _ e n, re_bytes e + n) 0 m.
Lemma sum_bytes_insert m k e : m !! k = None → sum_bytes (<[k := e]> m) = re_bytes e + sum_bytes m.
Proof. intros Hk. apply (map_fold_insert_L (λ _ e n, re_bytes e + n)); [intros; lia|done]. Qed.
Lemma sum_bytes_delete m k e : m !! k = Some e → sum_bytes m = re_bytes e + sum_bytes (delete k m).
Proof. intros Hk. apply (map_fold_delete_L (λ _ e n, re_bytes e + n)); [intros; lia|done]. Qed.
Lemma sum_bytes_replace m k e e' :
  m !! k = Some e → re_bytes e' = re_bytes e → sum_bytes (<[k := e']> m) = sum_bytes m.
Proof.
  intros Hk He. rewrite <-insert_delete_eq, sum_bytes_insert by apply lookup_delete_eq.
  by rewrite (sum_bytes_delete m k e Hk), He.
Qed.

(** Eviction stops as soon as the rest fits. *)
Definition stops_late (budget : N) (m m' : gmap PlanKey ResultEntry) : Prop :=
  m' = m ∨ ∃ k e, m !! k = Some e ∧ m' !! k = None ∧ budget < re_bytes e + sum_bytes m' ∧
    ∀ k' e', m !! k' = Some e' → m' !! k' = None → re_last_used e' ≤ re_last_used e.

Lemma evict_results_spec fuel budget m total m' total' :
  (size m ≤ fuel)%nat → total = sum_bytes m → evict_results fuel budget m total = (m', total') →
  lru_rest re_last_used m m' ∧ total' = sum_bytes m' ∧ total' ≤ budget ∧ stops_late budget m m'.
Proof.
  revert m total. induction fuel as [|fuel IH]; intros m total Hf Ht Hev; cbn [evict_results] in Hev.
  { injection Hev as <- <-. assert (m = ∅) as -> by (apply map_size_empty_iff; lia).
    subst total. split; [apply lru_rest_refl|]. split; [done|]. split; [unfold sum_bytes; rewrite map_fold_empty; lia|by left]. }
  destruct (N.ltb_spec budget total) as [Hlt|Hge].
  2: { injection Hev as <- <-. split; [apply lru_rest_refl|]. split; [done|]. split; [done|by left]. }
  pose proof (lru_key_spec re_last_used m) as Hk. destruct (lru_key _ m) as [k|].
  2: { subst m total. unfold sum_bytes in Hlt. rewrite map_fold_empty in Hlt. lia. }
  destruct Hk as (e & He & Hmin). rewrite He in Hev. pose proof (sum_bytes_delete m k e He) as Hsum.
  apply IH in Hev as (Hr & Ht' & Hle & Hlate); [|rewrite map_size_delete_Some by (by exists e); lia|lia].
  split; [by eapply lru_rest_delete|]. split; [done|]. split; [done|]. right.
  assert (m' !! k = None) as Hgone.
  { destruct Hr as [Hsub _]. destruct (m' !! k) as [x|] eqn:Ex; [|done].
    apply (lookup_weaken _ _ _ _ Ex) in Hsub. by rewrite lookup_delete_eq in Hsub. }
  destruct Hlate as [->|(k1 & e1 & H1 & Hn1 & Hb & Hmax)].
  - exists k, e. split_and!; [done|done|lia|]. intros k' e' Hk' Hn.
    destruct (decide (k' = k)) as [->|Hne]; [rewrite He in Hk'; injection Hk' as <-; lia|].
    rewrite lookup_delete_ne, Hk' in Hn by done. done.
  - apply lookup_delete_Some in H1 as [Hne1 H1]. exists k1, e1. split_and!; [done|done|done|].
    intros k' e' Hk' Hn. destruct (decide (k' = k)) as [->|Hne].
    + rewrite He in Hk'. injection Hk' as <-. by eapply Hmin.
    + apply (Hmax k'); [by rewrite lookup_delete_ne|done].
Qed.

(** ** The budget over time *)

Inductive result_op :=
  | RLookup (key : PlanKey) (resolve : list byte → option MetadataVersion)
  | RInsert (key : PlanKey) (batches : list Batch) (schema : Schema) (tables : Versions) (bytes : N).
Definition result_exec (c : ResultCache) (o : result_op) : ResultCache :=
  match o with
  | RLookup key resolve => fst (result_lookup_with key resolve c)
  | RInsert key batches schema tables bytes => result_insert key batches schema tables bytes c
  end.

Record result_inv (c : ResultCache) : Prop := {
  ri_total : rc_total_bytes c = sum_bytes (rc_map c);
  ri_budget : rc_total_bytes c ≤ rc_budget c;
  ri_cap : rc_per_result_cap c = rc_budget c / 4;
  ri_entry : ∀ k e, rc_map c !! k = Some e → 0 < re_bytes e ≤ rc_per_result_cap c ∧ re_last_used e ≤ rc_clock c ∧ re_tables e ≠ [];
}.

Lemma result_inv_new budget : result_inv (with_budget budget).
Proof. split; cbn; try done. lia. Qed.

Lemma result_lookup_inv key resolve c :
  rc_clock c < u64_max → result_inv c → result_inv (fst (result_lookup_with key resolve c)).
Proof.
  intros Hc [Ht Hb Hp He]. unfold result_lookup_with. destruct (rc_budget c =? 0); [by split|].
  destruct (rc_map c !! key) as [e|] eqn:Ek; [|by split].
  destruct (negb _); cbn [fst]; split; cbn; try done.
  - rewrite Ht, (sum_bytes_delete _ _ _ Ek). lia.
  - lia.
  - intros k e' [_ Hk]%lookup_delete_Some. by apply (He k).
  - by rewrite (sum_bytes_replace _ _ e).
  - rewrite wadd_small by (unfold u64_max, u64_modulus in *; lia).
    intros k e' [[<- <-]|[_ Hk]]%lookup_insert_Some; cbn.
    + destruct (He key e Ek) as (? & ? & ?). split_and!; [lia|lia|lia|done].
    + destruct (He k e' Hk) as (? & ? & ?). split_and!; [lia|lia|lia|done].
Qed.

(** What [insert] refuses. *)
Definition refused (c : ResultCache) (tables : Versions) (bytes : N) : bool :=
  (rc_budget c =? 0) || (bytes =? 0) || (rc_per_result_cap c <? bytes) || (length tables =? 0)%nat.

Lemma result_insert_inv key batches schema tables bytes c :
  rc_clock c < u64_max → rc_budget c + rc_budget c / 4 < u64_modulus → result_inv c →
  result_inv (result_insert key batches schema tables bytes c) ∧
  (refused c tables bytes = false → ∃ e,
     rc_map (result_insert key batches schema tables bytes c) !! key = Some e ∧
     re_batches e = batches ∧ re_schema e = schema ∧ re_tables e = tables).
Proof.
  intros Hc Hroom [Ht Hb Hp He]. unfold result_insert. fold (refused c tables bytes).
  destruct (refused c tables bytes) eqn:Er; [split; [by split|done]|].
  unfold refused in Er. apply orb_false_elim in Er as [Er Et]. apply orb_false_elim in Er as [Er Ec].
  apply orb_false_elim in Er as [Ez Eb]. bool_prop.
  set (total := match rc_map c !! key with Some _ => _ | None => _ end).
  set (e := {| re_batches := batches |}). set (m := <[key := e]> (rc_map c)).
  assert (total = sum_bytes (delete key (rc_map c)) ∧ total ≤ rc_budget c) as [Htot Hle].
  { unfold total. destruct (rc_map c !! key) as [old|] eqn:Eo; [|rewrite delete_id by done; lia].
    pose proof (sum_bytes_delete _ _ _ Eo). lia. }
  rewrite wadd_small by (unfold u64_max, u64_modulus in *; lia).
  assert (total + bytes = sum_bytes m) as Hsum.
  { unfold m. rewrite <-insert_delete_eq, sum_bytes_insert by apply lookup_delete_eq. cbn. lia. }
  destruct (evict_results _ _ _ _) as [m' total'] eqn:Ev.
  apply evict_results_spec in Ev as ([Hsub Hord] & Ht' & Hb' & Hlate); [|done|done].
  assert (∀ k e', m' !! k = Some e' → k = key ∧ e' = e ∨ k ≠ key ∧ rc_map c !! k = Some e') as Hof.
  { intros k e' Hk. apply (lookup_weaken _ _ _ _ Hk) in Hsub. unfold m in Hsub.
    by apply lookup_insert_Some in Hsub as [[<- <-]|[? ?]]; [left|right]. }
  split; [split; cbn; try done|].
  - rewrite wadd_small by (unfold u64_max, u64_modulus in *; lia). intros k e' [[-> ->]|[_ Hk]]%Hof; cbn.
    + rewrite wadd_small by (unfold u64_max, u64_modulus in *; lia).
      split_and!; [lia|done|lia|]. by destruct tables.
    + destruct (He k e' Hk) as (? & ? & ?). split_and!; [lia|lia|lia|done].
  - intros _. cbn [rc_map with_results]. exists e. split; [|done]. destruct (m' !! key) as [e'|] eqn:Ek.
    { destruct (Hof key e' Ek) as [[_ ->]|[? _]]; done. }
    exfalso. assert (m !! key = Some e) as Hm by apply lookup_insert_eq.
    assert (re_last_used e = rc_clock c + 1) as Hte by (cbn; apply wadd_small; unfold u64_max, u64_modulus in *; lia).
    assert (m' = ∅) as Hemp.
    { apply map_empty. intros k. destruct (m' !! k) as [x|] eqn:Ex; [|done].
      pose proof (Hord key e k x Hm Ek Ex). destruct (Hof k x Ex) as [[-> _]|[_ Hx]]; [by rewrite Ek in Ex|].
      destruct (He k x Hx) as (_ & ? & _). lia. }
    subst m'. destruct Hlate as [Hlate|(k & x & Hx & _ & Hbx & Hmax)]; [by rewrite <-Hlate, lookup_empty in Hm|].
    specialize (Hmax key e Hm Ek). unfold sum_bytes in Hbx. rewrite map_fold_empty in Hbx.
    unfold m in Hx. apply lookup_insert_Some in Hx as [[_ <-]|[_ Hx]].
    + cbn in Hbx. pose proof (N.Div0.div_le_mono (rc_budget c) (rc_budget c) 4).
      pose proof (N.Div0.div_le_upper_bound (rc_budget c) 4 (rc_budget c)). lia.
    + destruct (He k x Hx) as (_ & ? & _). lia.
Qed.
Lemma result_exec_clock c o :
  rc_clock c < u64_max →
  rc_clock c ≤ rc_clock (result_exec c o) ≤ rc_clock c + 1 ∧ rc_budget (result_exec c o) = rc_budget c.
Proof.
  intros Hc. assert (wadd (rc_clock c) 1 = rc_clock c + 1) as Hw by (apply wadd_small; unfold u64_max, u64_modulus in *; lia).
  destruct o as [key resolve|key batches schema tables bytes]; cbn.
  - unfold result_lookup_with. destruct (rc_budget c =? 0); [cbn; split; [lia|done]|].
    destruct (rc_map c !! key); [|cbn; split; [lia|done]]. destruct (negb _); cbn; split; try done; lia.
  - unfold result_insert. destruct (_ || _); [split; [lia|done]|].
    destruct (evict_results _ _ _ _). cbn. split; [lia|done].
Qed.

Lemma result_run_inv budget ops :
  budget + budget / 4 < u64_modulus → N.of_nat (length ops) < u64_max →
  let c := foldl result_exec (with_budget budget) ops in
  result_inv c ∧ rc_clock c ≤ N.of_nat (length ops) ∧ rc_budget c = budget.
Proof.
  intros Hroom. induction ops as [|o ops IH] using rev_ind; intros Hlen.
  { split; [apply result_inv_new|]. cbn. split; [lia|done]. }
  rewrite length_app in Hlen |- *. cbn in Hlen |- *. destruct IH as (Hinv & Hc & Hbu); [lia|]. rewrite foldl_app. cbn.
  set (c := foldl _ _ _) in *. assert (rc_clock c < u64_max) as Hclock by lia.
  destruct (result_exec_clock c o Hclock) as [Hck Hbk]. split; [|rewrite Hbk; split; [lia|done]].
  destruct o as [key resolve|key batches schema tables bytes]; cbn.
  - by apply result_lookup_inv.
  - apply result_insert_inv; [done|by rewrite Hbu|done].
Qed.

(** C40: the result cache stays within its budget: after any lookups and inserts,
    its byte count is exactly what its entries hold and at most the budget, and
    no entry is empty or larger than a quarter of it.  A result within that
    bound is served by the next lookup while its tables' versions stand. *)
Theorem result_cache_within_budget budget ops key batches schema tables bytes resolve :
  budget + budget / 4 < u64_modulus → N.of_nat (length ops) < u64_max →
  let c := result_insert key batches schema tables bytes (foldl result_exec (with_budget budget) ops) in
  rc_total_bytes c = sum_bytes (rc_map c) ∧ rc_total_bytes c ≤ budget ∧
  (∀ k e, rc_map c !! k = Some e → 0 < re_bytes e ≤ budget / 4) ∧
  (0 < bytes ≤ budget / 4 → tables ≠ [] → versions_current_with tables resolve = true →
   snd (result_lookup_with key resolve c) = Some (batches, schema)).
Proof.
  intros Hroom Hlen c. destruct (result_run_inv budget ops Hroom Hlen) as (Hinv & Hc & Hbu).
  set (c0 := foldl _ _ _) in *.
  destruct (result_insert_inv key batches schema tables bytes c0) as [[Ht Hb Hp He] Hget]; [lia|by rewrite Hbu|done|].
  fold c in Ht, Hb, Hp, He, Hget. destruct (result_exec_clock c0 (RInsert key batches schema tables bytes)) as [_ Hbc]; [lia|].
  cbn in Hbc. fold c in Hbc. rewrite Hbc, Hbu in *. split_and!; [done|done|intros k e Hk; rewrite <-Hp; by apply (He k)|].
  intros Hbytes Htab Hcur. assert (budget ≠ 0) as Hnz by (intros ->; change (0 / 4) with 0 in Hbytes; lia).
  destruct Hget as (e & Hk & <- & <- & Hte).
  { unfold refused. destruct Hinv as [_ _ Hp0 _]. rewrite Hp0, Hbu. destruct (N.eqb_spec budget 0) as [?|_]; [done|].
    destruct (N.eqb_spec bytes 0); [lia|]. destruct (N.ltb_spec (budget / 4) bytes); [lia|]. by destruct tables. }
  unfold result_lookup_with. rewrite Hbc. destruct (N.eqb_spec budget 0) as [?|_]; [done|].
  rewrite Hk, Hte, Hcur. done.
Qed.

(** ** The tee *)
Context (get_array_memory_size : Batch → N).

Definition polled_batches (ps : list (Polled Batch)) : list Batch :=
  omap (λ p, match p with PBatch b => Some b | _ => None end) ps.
Definition polled_error (ps : list (Polled Batch)) : bool :=
  existsb (λ p, match p with PErr _ => true | _ => false end) ps.
Definition batches_size (bs : list Batch) : N := foldr (λ b n, get_array_memory_size b + n) 0 bs.
Lemma batches_size_app bs1 bs2 : batches_size (bs1 ++ bs2) = batches_size bs1 + batches_size bs2.
Proof. unfold batches_size. induction bs1 as [|b bs1 IH]; cbn; [done|]. rewrite IH. lia. Qed.

Lemma batches_size_one b : batches_size [b] = get_array_memory_size b.
Proof. apply N.add_0_r. Qed.
Lemma polled_snoc ps p : polled_batches (ps ++ [p]) = polled_batches ps ++ polled_batches [p].
Proof. apply omap_app. Qed.
Lemma error_snoc ps p : polled_error (ps ++ [p]) = polled_error ps || polled_error [p].
Proof. apply existsb_app. Qed.

(** The accumulator after polls that have not ended the stream. *)
Lemma tee_polls_spec cap (sink : PopulateSink Schema) c ps :
  PEnd ∉ ps →
  let '(t, c') := tee_polls get_array_memory_size ps (tee_new cap sink) c in
  c' = c ∧ ct_sink t = sink ∧ ct_cap t = cap ∧ ct_inserted t = false ∧
  ct_poisoned t = polled_error ps || (cap <? batches_size (polled_batches ps)) ∧
  (ct_poisoned t = false → ct_acc t = polled_batches ps ∧ ct_bytes t = batches_size (polled_batches ps)).
Proof.
  assert (∀ p ps (t : CachingTee Batch Schema) c, tee_polls get_array_memory_size (ps ++ [p]) t c =
    let '(t, c) := tee_polls get_array_memory_size ps t c in tee_poll get_array_memory_size p t c) as Hsnoc.
  { intros p ps'. induction ps' as [|q ps' IH]; intros t c'; cbn; [by destruct (tee_poll _ p t c')|].
    destruct (tee_poll _ q t c') as [t1 c1]. apply IH. }
  induction ps as [|p ps IH] using rev_ind; intros Hend.
  { cbn. destruct (N.ltb_spec cap 0); [lia|by split_and!]. }
  rewrite Hsnoc.
  rewrite not_elem_of_app in Hend. destruct Hend as [Hend Hp].
  specialize (IH Hend). destruct (tee_polls _ ps _ _) as [t c']. destruct IH as (-> & Hs & Hcap & Hi & Hpo & Hacc).
  rewrite polled_snoc, error_snoc, batches_size_app. destruct p as [b|e| |]; cbn [tee_poll].
  - change (polled_batches [PBatch b]) with [b]. change (polled_error [PBatch b]) with false.
    rewrite orb_false_r, batches_size_one. destruct (ct_poisoned t) eqn:Ep.
    + rewrite Ep. split_and!; [done..| |done]. destruct (polled_error ps); [done|]. cbn in Hpo |- *.
      symmetry in Hpo |- *. bool_prop. apply N.ltb_lt. lia.
    + symmetry in Hpo. apply orb_false_elim in Hpo as [Hpe _]. destruct Hacc as [Ha Hb]; [done|].
      rewrite Hcap, Ha, Hb, Hpe. cbn [orb]. destruct (cap <? _); cbn; rewrite ?Ep; by split_and!.
  - cbn. rewrite orb_true_r. by split_and!.
  - destruct Hp. by left.
  - change (polled_batches [PPending]) with (@nil Batch). change (polled_error [PPending]) with false.
    rewrite orb_false_r, app_nil_r, N.add_0_r. by split_and!.
Qed.

(** the tee stores whole results only: nothing before the stream ends, and at
    its end exactly the batches that went to the client, with their size, unless
    there were none, one of the polls gave an error or they outgrew the cap on a
    single result; a dropped stream stores nothing. *)
Theorem caching_tee_exact cap (sink : PopulateSink Schema) c ps :
  PEnd ∉ ps →
  let bs := polled_batches ps in
  let '(t, c') := tee_polls get_array_memory_size ps (tee_new cap sink) c in
  c' = c ∧
  snd (tee_poll get_array_memory_size PEnd t c') =
    (if polled_error ps || (cap <? batches_size bs) || (length bs =? 0)%nat then c
     else result_insert (sk_key sink) bs (sk_schema sink) (sk_tables sink) (batches_size bs) c).
Proof.
  intros Hend bs. pose proof (tee_polls_spec cap sink c ps Hend) as Hsp. destruct (tee_polls _ _ _ _) as [t c'].
  destruct Hsp as (-> & Hs & _ & Hi & Hpo & Hacc). split; [done|]. cbn [tee_poll]. unfold store.
  fold bs in Hpo, Hacc. rewrite Hi, Hs. cbn [orb]. rewrite Hpo in *. destruct (_ || _); [done|].
  destruct Hacc as [-> ->]; [done|]. cbn [orb]. by destruct (length bs =? 0)%nat.
Qed.
End ResultBytes.

(** ** What the caches hold *)

(** Physical planning scans tables of the statement only; a node rebuilt over
    children that give the same results gives the same results. *)
Class PlannerLaws (Logical Op Schema Batch : Type) `{Operator Op} `{Planner Logical Op Schema Batch} := {
  scanned_sources : ∀ state l i p, scanned state l !! i = Some p →
    ∃ n k, n ∈ logical_nodes l ∧ ln_scan n = Some (Caching k p);
  rebuild_executes : ∀ op cs cs' op', rebuild op cs' = Ok op' →
    Forall2 (λ c c', ∀ bs, executes c bs ↔ executes c' bs) cs cs' →
    ∀ bs, executes (Node op cs) bs ↔ executes (Node op' cs') bs;
}.

Section Serve.
Context {Logical Op Schema Batch : Type} `{PlannerLaws Logical Op Schema Batch}.
#[local] Abbreviation Plan := (ExecutionPlan Op).
#[local] Abbreviation Pc := (Pc (Logical:=Logical) (Op:=Op) (Schema:=Schema) (Batch:=Batch)).
#[local] Abbreviation statement := (statement (Logical:=Logical) (Op:=Op) (Schema:=Schema) (Batch:=Batch)).
#[local] Abbreviation PlanCacheHook := (PlanCacheHook Op Schema Batch).

(** A plan of the statement of [key] whose scans read the given versions of
    its tables, and which no clock or parameter went into. *)
Definition plan_for (key : PlanKey) (current : list byte → MetadataVersion → Prop) (plan : Plan) : Prop :=
  ∃ state sql l reads,
    key = from_state state sql ∧ create_logical_plan state sql = Ok l ∧
    create_physical_plan state l reads = Ok plan ∧
    (∀ n, n ∈ logical_nodes l → existsb expr_blocks_caching (ln_exprs n) = false) ∧
    ∀ i p, scanned state l !! i = Some p →
      ∃ n k, n ∈ logical_nodes l ∧ ln_scan n = Some (Caching k p) ∧ current k (reads i).
Definition in_tables (tables : Versions) (k : list byte) (v : MetadataVersion) : Prop := (k, v) ∈ tables.

Lemma plan_for_mono key (c1 c2 : list byte → MetadataVersion → Prop) plan :
  plan_for key c1 plan → (∀ k v, c1 k v → c2 k v) → plan_for key c2 plan.
Proof.
  intros (state & sql & l & reads & ? & ? & ? & ? & Hs) Hc. exists state, sql, l, reads. split_and!; try done.
  intros i p Hi. destruct (Hs i p Hi) as (n & k & ? & ? & ?). exists n, k. auto.
Qed.

(** The statements in flight and their steps.  Two laws bind what comes from
    outside: a scan made between the walk and the check of a version reads that
    version, so versions do not return; and a stream ends after a complete
    execution. *)
Record pworld := { pw_hook : PlanCacheHook; pw_statements : list statement }.
Inductive paction :=
  | Submit (state : SessionState) (sql : list byte)
  | Advance (i : nat) (x : input (Batch:=Batch)).
Definition pexec (record_stages : bool) (a : paction) (w : pworld) : option pworld :=
  match a with
  | Submit state sql =>
    Some {| pw_hook := pw_hook w;
            pw_statements := pw_statements w ++ [{| st_state := state; st_sql := sql; st_pc := Started |}] |}
  | Advance i x =>
    s ← pw_statements w !! i;
    '(pc, h) ← run_step record_stages s x (pw_hook w);
    Some {| pw_hook := h;
            pw_statements := alter (λ s, {| st_state := st_state s; st_sql := st_sql s; st_pc := pc |}) i (pw_statements w) |}
  end.
Definition lawful (a : paction) (w : pworld) : Prop :=
  ∀ i x s, a = Advance i x → pw_statements w !! i = Some s →
  match st_pc s, x with
  | Planned l (Some tables) reads _, At m => ∀ j p n k v,
      scanned (st_state s) l !! j = Some p → n ∈ logical_nodes l → ln_scan n = Some (Caching k p) →
      (k, v) ∈ tables → current_version m k = Some v → reads j = v
  | Streaming plan got _, Poll PEnd => executes plan got
  | _, _ => True
  end.
Inductive prun (record_stages : bool) (w0 : pworld) : pworld → Prop :=
  | prun_refl : prun record_stages w0 w0
  | prun_step w a w' : prun record_stages w0 w → lawful a w → pexec record_stages a w = Some w' → prun record_stages w0 w'.

(** The invariant: what an entry is, and what a statement knows. *)
Definition valid (h : PlanCacheHook) : Prop :=
  (∀ key e, pl_entries (hk_cache h) !! key = Some e →
     plan_for key (in_tables (e_tables e)) (e_plan e) ∧ e_schema e = plan_schema (e_plan e)) ∧
  (∀ key e, rc_map (hk_results h) !! key = Some e →
     ∃ plan, plan_for key (in_tables (re_tables e)) plan ∧ re_schema e = plan_schema plan ∧ executes plan (re_batches e)).

Definition analyzed (l : Logical) (tables : Versions) : Prop :=
  ∀ n, n ∈ logical_nodes l → existsb expr_blocks_caching (ln_exprs n) = false ∧
    ∀ k p, ln_scan n = Some (Caching k p) → ∃ v, (k, v) ∈ tables.
Definition knows (s : statement) : Prop :=
  let logical l := create_logical_plan (st_state s) (st_sql s) = Ok l in
  let looked l before := ∀ tables, before = Some tables → analyzed l tables in
  match st_pc s with
  | Analyzed l before => logical l ∧ looked l before
  | Planned l before reads plan =>
    logical l ∧ looked l before ∧ create_physical_plan (st_state s) l reads = Ok plan
  | Inserting plan tables => plan_for (st_key s) (in_tables tables) plan
  | Streaming plan got (Some t) => ∃ plan0,
      plan_for (st_key s) (in_tables (sk_tables (ct_sink t))) plan0 ∧ (∀ bs, executes plan0 bs ↔ executes plan bs) ∧
      sk_key (ct_sink t) = st_key s ∧ sk_schema (ct_sink t) = plan_schema plan0 ∧
      ct_inserted t = false ∧ (ct_poisoned t = false → ct_acc t = got)
  | _ => True
  end.
Definition pinv (w : pworld) : Prop :=
  valid (pw_hook w) ∧ ∀ i s, pw_statements w !! i = Some s → knows s.

(** ** The pieces keep it *)

Lemma versions_current_spec tables resolve :
  versions_current_with tables resolve = true → ∀ k v, (k, v) ∈ tables → resolve k = Some v.
Proof.
  unfold versions_current_with. rewrite forallb_forall. intros Hall k v Hin.
  specialize (Hall (k, v)). apply bool_decide_eq_true in Hall; [done|]. by apply list_elem_of_In.
Qed.

Lemma analyze_nodes_spec version i nodes tables0 tables :
  analyze_nodes version i nodes tables0 = inr tables →
  (∀ k, is_Some (tables0 !! k) → is_Some (tables !! k)) ∧
  ∀ n, n ∈ nodes → existsb expr_blocks_caching (ln_exprs n) = false ∧
    ∀ k p, ln_scan n = Some (Caching k p) → is_Some (tables !! k).
Proof.
  revert i tables0. induction nodes as [|n nodes IH]; intros i tables0 Ha; cbn in Ha.
  { injection Ha as <-. split; [done|]. intros n []%not_elem_of_nil. }
  destruct (existsb _ _) eqn:Eb; [done|].
  destruct (ln_scan n) as [[key p|]|] eqn:Es; [destruct (version i p) as [v|]; [|done]|done|].
  - apply IH in Ha as [Hk Hn]. split; [intros k Hs; apply Hk, lookup_insert_is_Some'; by right|].
    intros m [->|Hm]%elem_of_cons; [|by apply Hn]. split; [done|]. rewrite Es. intros k q [= <- <-].
    apply Hk, lookup_insert_is_Some'. by left.
  - apply IH in Ha as [Hk Hn]. split; [done|]. intros m [->|Hm]%elem_of_cons; [|by apply Hn].
    split; [done|]. by rewrite Es.
Qed.
Lemma analyze_spec version l tables : analyze version (logical_nodes l) = inr tables → analyzed l tables.
Proof.
  unfold analyze. destruct (analyze_nodes _ _ _ _) as [|m] eqn:E; [done|]. intros [= <-] n Hn.
  apply analyze_nodes_spec in E as [_ Hall]. destruct (Hall n Hn) as [Hb Hk]. split; [done|].
  intros k p Hs. destruct (Hk k p Hs) as [v Hv]. exists v. by apply elem_of_map_to_list.
Qed.

(** The walk and the check together prove the versions a plan was built on. *)
Lemma checked_plan_for state sql l tables reads plan m :
  create_logical_plan state sql = Ok l → analyzed l tables → create_physical_plan state l reads = Ok plan →
  versions_current_with tables (current_version m) = true →
  (∀ j p n k v, scanned state l !! j = Some p → n ∈ logical_nodes l → ln_scan n = Some (Caching k p) →
     (k, v) ∈ tables → current_version m k = Some v → reads j = v) →
  plan_for (from_state state sql) (in_tables tables) plan.
Proof.
  intros Hl Ha Hp Hc Hlaw. exists state, sql, l, reads. split_and!; [done..|by intros n Hn; apply Ha|].
  intros j p Hj. destruct (scanned_sources state l j p Hj) as (n & k & Hn & Hk). exists n, k. split_and!; [done..|].
  destruct (Ha n Hn) as [_ Hv]. destruct (Hv k p Hk) as [v Hv']. unfold in_tables.
  rewrite (Hlaw j p n k v); [done..|]. by eapply versions_current_spec.
Qed.

Lemma reset_plan_executes (plan plan' : Plan) :
  reset_plan plan = Ok plan' → ∀ bs, executes plan bs ↔ executes plan' bs.
Proof.
  revert plan plan'. fix IH 1. intros [op cs] plan' Hr. cbn [reset_plan] in Hr.
  match type of Hr with context [?f cs ≫= _] => set (go := f) in Hr end.
  assert (∀ cs', go cs = Ok cs' → Forall2 (λ c c', ∀ bs, executes c bs ↔ executes c' bs) cs cs') as Hgo.
  { clear Hr plan'. induction cs as [|c cs IHcs]; intros cs' Hg; cbn in Hg; [injection Hg as <-; constructor|].
    apply bind_Ok in Hg as (c' & Hc & Hg). apply bind_Ok in Hg as (cs1 & Hcs & Hg). injection Hg as <-.
    constructor; [by apply IH|by apply IHcs]. }
  destruct cs as [|c cs]; [by injection Hr as <-|].
  apply bind_Ok in Hr as (cs' & Hcs & Hr). apply bind_Ok in Hr as (op' & Ho & Hr). injection Hr as <-.
  eapply rebuild_executes; [done|]. by apply Hgo.
Qed.

Lemma evict_results_sub fuel budget (m : gmap PlanKey (ResultEntry Batch Schema)) total m' total' :
  evict_results fuel budget m total = (m', total') → m' ⊆ m.
Proof.
  revert m total. induction fuel as [|fuel IH]; intros m total Hev; cbn in Hev; [by injection Hev as <- _|].
  destruct (budget <? total); [|by injection Hev as <- _]. destruct (lru_key _ m); [|by injection Hev as <- _].
  apply IH in Hev. etrans; [exact Hev|apply delete_subseteq].
Qed.

Lemma valid_plan_lookup h key resolve c r :
  valid h → lookup_with key resolve (hk_cache h) = (c, r) →
  valid (with_plans h c) ∧
  ∀ plan schema tables, r = Some (plan, schema, tables) →
    plan_for key (in_tables tables) plan ∧ schema = plan_schema plan ∧ versions_current_with tables resolve = true.
Proof.
  intros [Hp Hr] Hl. unfold lookup_with in Hl. destruct (pl_entries (hk_cache h) !! key) as [e|] eqn:Ee.
  2: { injection Hl as <- <-. by destruct h. }
  destruct (Hp key e Ee) as [He Hs].
  destruct (versions_current_with (e_tables e) resolve) eqn:Ev; cbn in Hl; injection Hl as <- <-.
  - split; [|by intros ? ? ? [= <- <- <-]]. split; [|exact Hr]. cbn.
    intros k x [[<- <-]|[_ Hx]]%lookup_insert_Some; [done|by apply Hp].
  - split; [|done]. split; [|exact Hr]. cbn. intros k x [_ Hx]%lookup_delete_Some. by apply Hp.
Qed.

Lemma valid_plan_insert h key plan tables :
  valid h → plan_for key (in_tables tables) plan →
  valid (with_plans h (insert key plan (plan_schema plan) tables (hk_cache h))).
Proof.
  intros [Hp Hr] Hf. split; [|exact Hr]. cbn. intros k e Hk. unfold insert in Hk. cbn in Hk.
  match type of Hk with evict_plans ?f ?c ?m !! _ = _ => destruct (evict_plans_spec f c m) as [[Hsub _] _]; [done|] end.
  apply (lookup_weaken _ _ _ _ Hk) in Hsub. by apply lookup_insert_Some in Hsub as [[<- <-]|[_ Hx]]; [|apply Hp].
Qed.

Lemma valid_result_lookup h key resolve c r :
  valid h → result_lookup_with key resolve (hk_results h) = (c, r) →
  valid (with_rescache h c) ∧
  ∀ bs schema, r = Some (bs, schema) → ∃ plan tables,
    plan_for key (in_tables tables) plan ∧ schema = plan_schema plan ∧ executes plan bs ∧
    versions_current_with tables resolve = true.
Proof.
  intros [Hp Hr] Hl. unfold result_lookup_with in Hl.
  destruct (_ =? 0); [injection Hl as <- <-; by destruct h|].
  destruct (rc_map (hk_results h) !! key) as [e|] eqn:Ee; [|injection Hl as <- <-; by destruct h].
  destruct (Hr key e Ee) as (plan & He & Hs & Hx).
  destruct (versions_current_with (re_tables e) resolve) eqn:Ev; cbn in Hl; injection Hl as <- <-.
  - split; [|intros ? ? [= <- <-]; by exists plan, (re_tables e)]. split; [exact Hp|]. cbn.
    intros k x [[<- <-]|[_ Hx']]%lookup_insert_Some; [by exists plan|by apply Hr].
  - split; [|done]. split; [exact Hp|]. cbn. intros k x [_ Hx']%lookup_delete_Some. by apply Hr.
Qed.

Lemma valid_result_insert h key bs tables bytes plan :
  valid h → plan_for key (in_tables tables) plan → executes plan bs →
  valid (with_rescache h (result_insert key bs (plan_schema plan) tables bytes (hk_results h))).
Proof.
  intros [Hp Hr] Hf Hx. split; [exact Hp|]. cbn. unfold result_insert. destruct (_ || _); [exact Hr|].
  destruct (evict_results _ _ _ _) as [m' total'] eqn:Ev. apply evict_results_sub in Ev. cbn.
  intros k e Hk. apply (lookup_weaken _ _ _ _ Hk) in Ev.
  apply lookup_insert_Some in Ev as [[<- <-]|[_ He]]; [by exists plan|by apply Hr].
Qed.

(** A tee attached to the stream of a plan. *)
Lemma tee_knows record_stages (h h' : PlanCacheHook) (s : statement) plan0 plan tables :
  plan_for (st_key s) (in_tables tables) plan0 → (∀ bs, executes plan0 bs ↔ executes plan bs) →
  knows {| st_state := st_state s; st_sql := st_sql s;
           st_pc := Streaming plan [] (respond_tee record_stages (make_sink (st_key s) (plan_schema plan0) tables h) h') |}.
Proof.
  intros Hf Hx. unfold knows, respond_tee, make_sink. cbn. destruct record_stages; [done|].
  destruct (results_enabled (hk_results h)); cbn; [|done]. destruct (results_enabled (hk_results h')); [|done].
  exists plan0. by split_and!.
Qed.

(** A poll of the stream. *)
Lemma poll_valid (s : statement) h plan got t p t' c :
  valid h → knows s → st_pc s = Streaming plan got (Some t) → (p = PEnd → executes plan got) →
  tee_poll get_array_memory_size p t (hk_results h) = (t', c) →
  valid (with_rescache h c) ∧ ∀ got', (∃ b, p = PBatch b ∧ got' = got ++ [b]) ∨ (p = PPending ∧ got' = got) →
  knows {| st_state := st_state s; st_sql := st_sql s; st_pc := Streaming plan got' (Some t') |}.
Proof.
  intros Hv Hk Epc Hend Hp. unfold knows in Hk. rewrite Epc in Hk.
  destruct Hk as (plan0 & Hf & Hx & Hkey & Hsch & Hi & Hacc).
  assert (∀ t', ct_sink t' = ct_sink t → ct_inserted t' = false → ∀ got', (ct_poisoned t' = false → ct_acc t' = got') →
    knows {| st_state := st_state s; st_sql := st_sql s; st_pc := Streaming plan got' (Some t') |}) as Hnext.
  { intros t1 Hs1 Hi1 got' Ha1. exists plan0. rewrite Hs1. by split_and!. }
  assert (valid (with_rescache h (hk_results h))) as Hsame by (by destruct h).
  destruct p as [b|e| |]; cbn [tee_poll] in Hp.
  - assert (∀ got', (∃ b0, PBatch b = PBatch b0 ∧ got' = got ++ [b0]) ∨ PBatch b = PPending ∧ got' = got → got' = got ++ [b])
      as Hgot by (intros got' [(b0 & [= <-] & ->)|[? _]]; done).
    destruct (ct_poisoned t) eqn:Epo; [|destruct (_ <? _)]; apply pair_equal_spec in Hp as [<- <-];
      (split; [done|]); intros got' ->%Hgot; apply Hnext; try done; cbn.
    + by rewrite Epo.
    + intros _. by rewrite Hacc.
  - apply pair_equal_spec in Hp as [<- <-]. split; [done|]. by intros got' [(b & ? & _)|[? _]].
  - split; [|by intros got' [(b & ? & _)|[? _]]]. unfold store in Hp.
    destruct (ct_inserted t || ct_poisoned t || _) eqn:Es; apply pair_equal_spec in Hp as [<- <-]; [done|].
    apply orb_false_elim in Es as [Es _]. apply orb_false_elim in Es as [_ Epo].
    rewrite Hsch, Hkey, (Hacc Epo). apply valid_result_insert; [done..|]. apply Hx. by apply Hend.
  - apply pair_equal_spec in Hp as [<- <-]. split; [done|]. intros got' [(b & ? & _)|[_ ->]]; [done|].
    by apply Hnext.
Qed.

Lemma valid_step record_stages (s : statement) x h pc h' :
  valid h → knows s → lawful (Advance 0 x) {| pw_hook := h; pw_statements := [s] |} →
  run_step record_stages s x h = Some (pc, h') →
  valid h' ∧ knows {| st_state := st_state s; st_sql := st_sql s; st_pc := pc |}.
Proof.
  intros Hv Hk Hlaw Hs. specialize (Hlaw 0%nat x s eq_refl eq_refl). unfold run_step in Hs.
  unfold knows in Hk. destruct (st_pc s) as [| | |l before|l before reads plan|plan tables|plan got tee| | |] eqn:Epc;
    destruct x as [m|version|reads'|p|]; try discriminate.
  - (* Started *)
    destruct (results_enabled _); [|injection Hs as <- <-; by split].
    destruct (result_lookup_with _ _ _) as [c [[bs schema]|]] eqn:El; injection Hs as <- <-;
      apply valid_result_lookup in El as [Hv' _]; done.
  - (* ResultsMissed *)
    destruct (lookup_with _ _ _) as [c [[[plan schema] tables]|]] eqn:El;
      apply valid_plan_lookup in El as [Hv' Hhit]; try done; [|injection Hs as <- <-; by split].
    destruct (Hhit plan schema tables eq_refl) as (Hf & -> & _).
    destruct (reset_plan plan) as [plan'|] eqn:Er; injection Hs as <- <-; (split; [done|]); [|done].
    apply tee_knows; [done|]. by apply reset_plan_executes.
  - (* PlanMissed *)
    destruct (create_logical_plan _ _) as [l|] eqn:El; injection Hs as <- <-; (split; [done|]); [|done].
    split; [done|]. intros tables Ht. destruct (analyze _ _) eqn:Ea; [done|]. injection Ht as ->.
    by eapply analyze_spec.
  - injection Hs as <- <-. by split.
  - (* Analyzed *)
    destruct (create_physical_plan _ _ _) as [plan|] eqn:Ep; injection Hs as <- <-; (split; [done|]); [|done].
    destruct Hk as [Hl Ha]. by split_and!.
  - (* Planned *)
    destruct Hk as (Hl & Ha & Hp). destruct before as [tables|]; [|injection Hs as <- <-; by split].
    destruct (_ && _ && _) eqn:Ec; injection Hs as <- <-; (split; [done|]); [|done].
    apply andb_prop in Ec as [Ec _]. apply andb_prop in Ec as [Ec _].
    eapply checked_plan_for; [done|by apply Ha|done|done|exact Hlaw].
  - (* Inserting *)
    injection Hs as <- <-. split; [by apply valid_plan_insert|]. by apply tee_knows.
  - (* Streaming *)
    destruct tee as [t|].
    + destruct (tee_poll _ p t _) as [t' c] eqn:Et. injection Hs as <- <-.
      eapply poll_valid in Et as [Hv' Hk']; [|done|by unfold knows; rewrite Epc|done|by intros ->].
      split; [done|]. destruct p as [b|e| |]; [|done|done|]; apply Hk'; eauto.
    + injection Hs as <- <-. split; [by destruct h|]. by destruct p.
Qed.

Lemma pinv_run record_stages w0 w :
  pw_statements w0 = [] → valid (pw_hook w0) → prun record_stages w0 w → pinv w.
Proof.
  intros Hw0 Hv0 Hr. induction Hr as [|w a w' Hr [Hv Hk] Hlaw Hx].
  { split; [done|]. intros i s Hs. by rewrite Hw0 in Hs. }
  destruct a as [state sql|i x]; cbn in Hx.
  - injection Hx as <-. split; [done|]. cbn. intros i s [Hs|[_ Hs]]%lookup_app_Some; [by eapply Hk|].
    by apply list_lookup_singleton_Some in Hs as [_ <-].
  - apply bind_Some in Hx as (s & Hs & Hx). apply bind_Some in Hx as ([pc h] & Hstep & [= <-]).
    destruct (valid_step record_stages s x (pw_hook w) pc h) as [Hv' Hk']; [done|by eapply Hk| |done|].
    { intros j x' s' [= <- <-] [= <-]. by apply (Hlaw i x s). }
    split; [done|]. cbn. intros j s' Hj. destruct (decide (i = j)) as [<-|Hne].
    + rewrite list_lookup_alter_eq, Hs in Hj. by injection Hj as <-.
    + rewrite list_lookup_alter_ne in Hj by done. by eapply Hk.
Qed.

End Serve.
