(* ===== verification/Overwrite.v ===== *)
(** * The copy-on-write engine (src/icegres/src/overwrite.rs)

    One commit applies a list of buffered operations to the head of a branch:
    every live file is kept, removed or rewritten, appends are folded through the
    statements after them, and a new snapshot is posted with the head it was made
    against as its requirement.  DataFusion evaluates the queries the engine
    builds ([SqlEngine], over the query's syntax; [render] is their text), Parquet
    files are [DataFiles], the catalog is [Catalog].  A load that fails is an
    [Err] in place of what it loads.  Counts of rows, files and bytes are plain
    numbers: storage ends before 2^64. *)
From S2P Require Import Prelude Text TailNames Keyed TableOps.
#[local] Open Scope N_scope.

(** ** Errors *)

(** [anyhow::Error], by what the wire layer downcasts it to.  [Unwound] is no
    value of the program: the call panicked. *)
Inductive EngineError :=
  | ConstraintViolation (sqlstate msg : string)
  | CommitConflict (msg : string)
  | OtherError (msg : string)
  | Unwound (msg : string).
Inductive attempt (A : Type) := Good (a : A) | Bad (e : EngineError).
Arguments Good {_}.
Arguments Bad {_}.
#[export] Instance attempt_ret : MRet attempt := @Good.
#[export] Instance attempt_bind : MBind attempt := λ A B f m, match m with Good a => f a | Bad e => Bad e end.
Definition lift {A} (m : result A) : attempt A := match m with Ok a => Good a | Err e => Bad (OtherError e) end.
Lemma attempt_bind_Good {A B} (m : attempt A) (f : A → attempt B) b :
  (x ← m; f x) = Good b ↔ ∃ a, m = Good a ∧ f a = Good b.
Proof. split; [|by intros (a & -> & H)]. destruct m as [a|e]; [by exists a|discriminate]. Qed.
Lemma lift_Good {A} (m : result A) a : lift m = Good a ↔ m = Ok a.
Proof. destruct m; cbn; split; congruence. Qed.

(** ** Queries *)

(** The relation a statement's clauses are read against. *)
Record From := { fr_namespace : list byte; fr_table : list byte; fr_alias : option (list byte) }.
Inductive Projection :=
  | PCase (predicate expr column : list byte)  (* CASE WHEN (p) THEN (e) ELSE c END AS c *)
  | PExpr (expr column : list byte)            (* (e) AS c *)
  | PColumn (column : list byte).
Inductive Query :=
  | CountMatched (from : From) (predicate : list byte)
  | SelectSurvivors (columns : list (list byte)) (from : From) (predicate : list byte)
  | SelectRewrite (projection : list Projection) (from : From)
  | CountNulls (columns : list (list byte))
  | SelectDuplicates (columns : list (list byte)).

Definition text (s : string) : list byte := str_bytes s.
Definition comma_list (cols : list (list byte)) : list byte := join_sep (text ", ") cols.
Definition render_from (f : From) : list byte :=
  quote_ident (fr_namespace f) ++ text "." ++ quote_ident (fr_table f) ++
  match fr_alias f with Some a => text " AS " ++ quote_ident a | None => [] end.
Definition render_projection (p : Projection) : list byte :=
  match p with
  | PCase p e c => text "CASE WHEN (" ++ p ++ text ") THEN (" ++ e ++ text ") ELSE " ++ quote_ident c ++
                   text " END AS " ++ quote_ident c
  | PExpr e c => text "(" ++ e ++ text ") AS " ++ quote_ident c
  | PColumn c => quote_ident c
  end.
Definition render (q : Query) : list byte :=
  match q with
  | CountMatched from p => text "SELECT count(*) FROM " ++ render_from from ++ text " WHERE (" ++ p ++ text ")"
  | SelectSurvivors cols from p =>
    text "SELECT " ++ comma_list (map quote_ident cols) ++ text " FROM " ++ render_from from ++
    text " WHERE (" ++ p ++ text ") IS DISTINCT FROM TRUE"
  | SelectRewrite proj from =>
    text "SELECT " ++ comma_list (map render_projection proj) ++ text " FROM " ++ render_from from
  | CountNulls cols =>
    text "SELECT count(*) FROM __icegres_pk WHERE " ++
    join_sep (text " OR ") (map (λ c, quote_ident c ++ text " IS NULL") cols)
  | SelectDuplicates cols =>
    text "SELECT " ++ comma_list (map quote_ident cols) ++ text ", count(*) AS n FROM __icegres_pk GROUP BY " ++
    comma_list (map quote_ident cols) ++ text " HAVING count(*) > 1 LIMIT 1"
  end.

(** [DmlSql::new]: of a column assigned twice the last value counts. *)
Record DmlSql := { count_matched : option Query; survivors : option Query; rewrite : option Query }.
Definition assigned (assignments : list (list byte * list byte)) (c : list byte) : option (list byte) :=
  snd <$> last (List.filter (λ a, bool_decide (fst a = c)) assignments).
Definition from_of (stmt : DmlStatement) : From :=
  {| fr_namespace := dml_namespace stmt; fr_table := dml_table stmt; fr_alias := dml_alias stmt |}.
Definition projection_of (assignments : list (list byte * list byte)) (predicate : option (list byte))
    (c : list byte) : Projection :=
  match assigned assignments c, predicate with
  | Some e, Some p => PCase p e c
  | Some e, None => PExpr e c
  | None, _ => PColumn c
  end.
Definition dml_sql (stmt : DmlStatement) (columns : list (list byte)) : result DmlSql :=
  let from := from_of stmt in
  let count := CountMatched from <$> dml_predicate stmt in
  match dml_kind stmt with
  | DmlDelete =>
    Ok {| count_matched := count; survivors := SelectSurvivors columns from <$> dml_predicate stmt; rewrite := None |}
  | DmlUpdate assignments =>
    _ ← ensure (forallb (λ a, bool_decide (fst a ∈ columns)) assignments) "column of relation does not exist";
    Ok {| count_matched := count; survivors := None;
          rewrite := Some (SelectRewrite (map (projection_of assignments (dml_predicate stmt)) columns) from) |}
  end.

(** ** Libraries *)

(** DataFusion: a query over a set of batches registered as the table it names,
    and the first value of the first column of its result. *)
Class SqlEngine (RecordBatch : Type) := {
  run_query : Query → list RecordBatch → result (list RecordBatch);
  first_int : RecordBatch → N;
}.

(** Parquet: immutable files, read whole, and a writer that is closed into the
    files it wrote. *)
Class DataFiles (RecordBatch DataFile : Type) := {
  read_parquet_file : DataFile → result (list RecordBatch);
  record_count : DataFile → N;
  file_size_in_bytes : DataFile → N;
  write_data_files : list RecordBatch → result (list DataFile);
}.

(** ** Iceberg metadata, as far as the engine reads and writes it *)
Inductive Operation := OperationAppend | OperationDelete | OperationOverwrite.
Record ManifestEntry {DataFile} := {
  me_alive : bool; me_file : DataFile; me_snapshot_id : option Z; me_seq : option Z; me_file_seq : option Z;
}.
Arguments ManifestEntry : clear implicits.
Record ManifestFile {DataFile} := {
  mf_data : bool; mf_seq : Z; mf_added_snapshot : Z; mf_entries : result (list (ManifestEntry DataFile));
}.
Arguments ManifestFile : clear implicits.
Record Snapshot {DataFile} := {
  sn_id : Z; sn_parent : option Z; sn_seq : Z; sn_operation : Operation; sn_summary : list (string * N);
  sn_manifests : result (list (ManifestFile DataFile));
}.
Arguments Snapshot : clear implicits.
Record Table {DataFile} := {
  tb_ident : TableIdent; tb_uuid : N; tb_format_v2 : bool; tb_unpartitioned : bool; tb_schema : Schema;
  tb_properties : string → option (list byte); tb_current : option (Snapshot DataFile);
  tb_ref : string → option (Snapshot DataFile); tb_next_seq : Z;
}.
Arguments Table : clear implicits.
Definition tb_columns {DataFile} (t : Table DataFile) : list (list byte) := map f_name (tb_schema t).

(** [CommitTableRequest], with the requirements and updates the engine sends. *)
Record CommitTableRequest {DataFile} := {
  rq_ident : TableIdent; rq_uuid : N; rq_branch : string; rq_head : option Z;
  rq_snapshot : Snapshot DataFile; rq_properties : list (string * list byte);
}.
Arguments CommitTableRequest : clear implicits.
Record PreparedCommit {DataFile} := {
  pc_request : CommitTableRequest DataFile; pc_rows_by_op : list N; pc_snapshot_id : Z;
}.
Arguments PreparedCommit : clear implicits.

(** [pk_columns_of] *)
Definition PK_PROPERTY : string := "icegres.primary-key".
Definition COMMA : byte := Byte.x2c.
Definition pk_columns_of {DataFile} (t : Table DataFile) : result (option (list (list byte))) :=
  match tb_properties t PK_PROPERTY with
  | None => Ok None
  | Some raw =>
    let cols := List.filter (λ c, negb (length c =? 0)%nat) (map trim (split_on COMMA raw)) in
    match cols with
    | [] => Ok None
    | _ => _ ← ensure (forallb (λ c, bool_decide (c ∈ tb_columns t)) cols) "primary key names an unknown column";
           Ok (Some cols)
    end
  end.

(** [branch_head] *)
Definition MAIN_BRANCH : string := "main".
Definition branch_head {DataFile} (t : Table DataFile) (branch : string) : result (option (Snapshot DataFile)) :=
  if String.eqb branch MAIN_BRANCH then Ok (tb_current t)
  else match tb_ref t branch with
       | Some s => Ok (Some s)
       | None => Err "branch does not exist on this table"
       end.

(** ** One statement over some rows *)
Section Engine.
Context {RecordBatch ArrayRef DataFile : Type} `{Columnar RecordBatch ArrayRef}
  `{SqlEngine RecordBatch} `{DataFiles RecordBatch DataFile}.
#[local] Abbreviation TableOp := (TableOp RecordBatch DataFile).
#[local] Abbreviation Table := (Table DataFile).
#[local] Abbreviation Snapshot := (Snapshot DataFile).

Definition total_rows (bs : list RecordBatch) : N := foldr (λ b n, N.of_nat (num_rows b) + n) 0 bs.
(** [count_query] *)
Definition count_query (q : Query) (bs : list RecordBatch) : result N :=
  out ← run_query q bs;
  Ok match out with b :: _ => first_int b | [] => 0 end.

Inductive FileFate := Keep | Remove (matched : N) | Rewrite (matched : N) (batches : list RecordBatch).

Definition evaluate_rows (sql : DmlSql) (rows_in : N) (bs : list RecordBatch) : result FileFate :=
  matched ← match count_matched sql with None => Ok rows_in | Some q => count_query q bs end;
  if matched =? 0 then Ok Keep else
  match rewrite sql with
  | None =>
    if matched =? rows_in then Ok (Remove matched) else
    q ← ok_or (survivors sql) "survivors SQL exists for predicated DELETE";
    out ← run_query q bs;
    let survivor_rows := total_rows out in
    if negb (survivor_rows + matched =? rows_in) then Err "DELETE row accounting mismatch"
    else if survivor_rows =? 0 then Ok (Remove matched)
    else Ok (Rewrite matched out)
  | Some q =>
    out ← run_query q bs;
    if negb (total_rows out =? rows_in) then Err "UPDATE row accounting mismatch"
    else Ok (Rewrite matched out)
  end.

Definition apply_dml_to_batches (stmt : DmlStatement) (columns : list (list byte)) (bs : list RecordBatch)
    : result (N * list RecordBatch) :=
  let rows_in := total_rows bs in
  if rows_in =? 0 then Ok (0, bs) else
  sql ← dml_sql stmt columns;
  fate ← evaluate_rows sql rows_in bs;
  Ok match fate with
     | Keep => (0, bs)
     | Remove matched => (matched, [])
     | Rewrite matched out => (matched, out)
     end.

(** [fold_dml_ops]: [rows_by_op] holds the counts of [ops], which start at
    [first_op]. *)
Fixpoint fold_dml_ops (ops : list TableOp) (columns : list (list byte)) (rows : list RecordBatch)
    (rows_by_op : list N) : result (bool * list RecordBatch * list N) :=
  match ops, rows_by_op with
  | OpDml stmt :: ops, n :: rows_by_op =>
    '(matched, out) ← apply_dml_to_batches stmt columns rows;
    '(changed, rows, rows_by_op) ← fold_dml_ops ops columns out rows_by_op;
    Ok ((0 <? matched) || changed, rows, n + matched :: rows_by_op)
  | _ :: ops, n :: rows_by_op =>
    '(changed, rows, rows_by_op) ← fold_dml_ops ops columns rows rows_by_op;
    Ok (changed, rows, n :: rows_by_op)
  | _, _ => Ok (false, rows, rows_by_op)
  end.

(** ** Primary keys *)

(** [project_columns] *)
Definition project_columns (bs : list RecordBatch) (cols : list (list byte)) : result RecordBatch :=
  match bs with
  | [] => Err "cannot project PK columns out of an empty batch set"
  | b :: _ =>
    indices ← map_result (λ c, ok_or (position (λ f, eq_ignore_ascii_case (f_name f) c) (schema_of b))
                                "PK column missing from row batch") cols;
    projected ← map_result (λ b, project b indices) bs;
    concat_batches projected
  end.

Definition check_pk (pk_cols : list (list byte)) (pk_rows : list RecordBatch) : attempt unit :=
  let nonempty := List.filter (λ b, (0 <? num_rows b)%nat) pk_rows in
  match nonempty with
  | [] => Good tt
  | _ =>
    nulls ← lift (count_query (CountNulls pk_cols) nonempty);
    if 0 <? nulls then Bad (ConstraintViolation "23502" "null value violates not-null constraint") else
    dups ← lift (run_query (SelectDuplicates pk_cols) nonempty);
    if 0 <? total_rows dups then Bad (ConstraintViolation "23505" "duplicate key value violates unique constraint")
    else Good tt
  end.

(** ** [prepare_commit] *)

(** What the scan of the live files has gathered: [ac_written] are the batches
    given to the data writer, [None] before it is built. *)
Record Scan := {
  ac_carried : list (ManifestFile DataFile);
  ac_existing : list (DataFile * Z * Z * option Z);
  ac_deleted : list (DataFile * Z * option Z);
  ac_written : option (list RecordBatch);
  ac_changed : bool;
  ac_pk_rows : list RecordBatch;
  ac_rows_by_op : list N;
  ac_kept : N * N * N;      (* files, records, bytes *)
  ac_removed : N * N * N;
}.
Definition scan_start (nops : nat) : Scan :=
  {| ac_carried := []; ac_existing := []; ac_deleted := []; ac_written := None; ac_changed := false;
     ac_pk_rows := []; ac_rows_by_op := replicate nops 0; ac_kept := (0, 0, 0); ac_removed := (0, 0, 0) |}.
Definition add_file (f : DataFile) (acc : N * N * N) : N * N * N :=
  let '(files, records, bytes) := acc in
  (files + 1, records + record_count f, bytes + file_size_in_bytes f).

Definition has_dml (ops : list TableOp) : bool := existsb (λ op, match op with OpDml _ => true | _ => false end) ops.
(** The fate of a live file, its rows' keys and its share of the counts. *)
Definition file_fate (ops : list TableOp) (columns : list (list byte)) (pk : option (list (list byte)))
    (f : DataFile) (s : Scan) : result (FileFate * Scan) :=
  bs ← read_parquet_file f;
  let rows_in := total_rows bs in
  '(fate, rows_by_op) ←
    (if has_dml ops then
       '(changed, out, rows_by_op) ← fold_dml_ops ops columns bs (ac_rows_by_op s);
       let rows_out := total_rows out in
       Ok (if negb changed then Keep
           else if rows_out =? 0 then Remove rows_in
           else Rewrite (rows_in - rows_out) out, rows_by_op)
     else Ok (Keep, ac_rows_by_op s));
  pk_rows ← match pk, fate with
            | Some cols, Keep => match bs with [] => Ok [] | _ => p ← project_columns bs cols; Ok [p] end
            | Some cols, Rewrite _ out => match out with [] => Ok [] | _ => p ← project_columns out cols; Ok [p] end
            | _, _ => Ok []
            end;
  Ok (fate,
      {| ac_carried := ac_carried s; ac_existing := ac_existing s; ac_deleted := ac_deleted s;
         ac_written := ac_written s;
         ac_changed := ac_changed s || match fate with Keep => false | _ => true end;
         ac_pk_rows := ac_pk_rows s ++ pk_rows; ac_rows_by_op := rows_by_op;
         ac_kept := match fate with Keep => add_file f (ac_kept s) | _ => ac_kept s end;
         ac_removed := ac_removed s |}).
(** The first pass over a manifest: the fate of each live entry. *)
Fixpoint entry_fates (ops : list TableOp) (columns : list (list byte)) (pk : option (list (list byte)))
    (entries : list (ManifestEntry DataFile)) (s : Scan)
    : result (list (ManifestEntry DataFile * FileFate) * Scan) :=
  match entries with
  | [] => Ok ([], s)
  | e :: entries =>
    if me_alive e then
      '(fate, s) ← file_fate ops columns pk (me_file e) s;
      '(fates, s) ← entry_fates ops columns pk entries s;
      Ok ((e, fate) :: fates, s)
    else entry_fates ops columns pk entries s
  end.
(** The second: entries of the rewritten manifest and replacement rows. *)
Definition place_entry (target : Schema) (mf : ManifestFile DataFile) (e : ManifestEntry DataFile)
    (fate : FileFate) (s : Scan) : result Scan :=
  let data_seq := default (mf_seq mf) (me_seq e) in
  let file_seq := me_file_seq e in
  match fate with
  | Keep =>
    Ok {| ac_carried := ac_carried s;
          ac_existing := ac_existing s ++
            [(me_file e, default (mf_added_snapshot mf) (me_snapshot_id e), data_seq, file_seq)];
          ac_deleted := ac_deleted s; ac_written := ac_written s; ac_changed := ac_changed s;
          ac_pk_rows := ac_pk_rows s; ac_rows_by_op := ac_rows_by_op s; ac_kept := ac_kept s; ac_removed := ac_removed s |}
  | _ =>
    written ← match fate with
              | Rewrite _ out => aligned ← map_result (λ b, align_batch b target) out;
                                 Ok (Some (default [] (ac_written s) ++ aligned))
              | _ => Ok (ac_written s)
              end;
    Ok {| ac_carried := ac_carried s; ac_existing := ac_existing s;
          ac_deleted := ac_deleted s ++ [(me_file e, data_seq, file_seq)]; ac_written := written;
          ac_changed := ac_changed s; ac_pk_rows := ac_pk_rows s; ac_rows_by_op := ac_rows_by_op s;
          ac_kept := ac_kept s; ac_removed := add_file (me_file e) (ac_removed s) |}
  end.
Fixpoint place_entries (target : Schema) (mf : ManifestFile DataFile)
    (fates : list (ManifestEntry DataFile * FileFate)) (s : Scan) : result Scan :=
  match fates with
  | [] => Ok s
  | (e, fate) :: fates => s ← place_entry target mf e fate s; place_entries target mf fates s
  end.
Definition carry (mf : ManifestFile DataFile) (s : Scan) : Scan :=
  {| ac_carried := ac_carried s ++ [mf]; ac_existing := ac_existing s; ac_deleted := ac_deleted s;
     ac_written := ac_written s; ac_changed := ac_changed s; ac_pk_rows := ac_pk_rows s;
     ac_rows_by_op := ac_rows_by_op s; ac_kept := ac_kept s; ac_removed := ac_removed s |}.
(** A manifest whose entries are alive and whose files are all kept is carried
    untouched. *)
Definition rewrite_manifest (entries : list (ManifestEntry DataFile)) (fates : list (ManifestEntry DataFile * FileFate)) : bool :=
  existsb (λ e, negb (me_alive e)) entries ||
  existsb (λ ef, match snd ef with Keep => false | _ => true end) fates.
Definition scan_manifest (ops : list TableOp) (target : Schema) (pk : option (list (list byte)))
    (mf : ManifestFile DataFile) (s : Scan) : result Scan :=
  entries ← mf_entries mf;
  '(fates, s) ← entry_fates ops (map f_name target) pk entries s;
  if rewrite_manifest entries fates then place_entries target mf fates s else Ok (carry mf s).
Fixpoint scan_manifests (ops : list TableOp) (target : Schema) (pk : option (list (list byte)))
    (mfs : list (ManifestFile DataFile)) (s : Scan) : result Scan :=
  match mfs with
  | [] => Ok s
  | mf :: mfs => s ← scan_manifest ops target pk mf s; scan_manifests ops target pk mfs s
  end.
Definition load_manifest_list (s : Snapshot) : result (list (ManifestFile DataFile)) :=
  mfs ← sn_manifests s;
  _ ← ensure (forallb mf_data mfs) "table has delete manifests (merge-on-read)";
  Ok mfs.

(** Buffered appends, each folded through the statements after it; [rows_by_op]
    are the counts of [ops]. *)
Fixpoint fold_appends (target : Schema) (pk : option (list (list byte))) (ops : list TableOp) (rows_by_op : list N)
    : result (list N * list (list RecordBatch) * list RecordBatch * N) :=
  match ops, rows_by_op with
  | op :: ops, n :: rows_by_op =>
    match op with
    | OpAppend batches =>
      '(_, out, rows_by_op) ← fold_dml_ops ops (map f_name target) batches rows_by_op;
      let rows_out := total_rows out in
      if rows_out =? 0 then
        '(counts, written, pk_rows, appended) ← fold_appends target pk ops rows_by_op;
        Ok (total_rows batches :: counts, written, pk_rows, appended)
      else
        aligned ← map_result (λ b, align_batch b target) out;
        keys ← match pk with Some cols => p ← project_columns aligned cols; Ok [p] | None => Ok [] end;
        '(counts, written, pk_rows, appended) ← fold_appends target pk ops rows_by_op;
        Ok (total_rows batches :: counts, aligned :: written, keys ++ pk_rows, rows_out + appended)
    | _ =>
      '(counts, written, pk_rows, appended) ← fold_appends target pk ops rows_by_op;
      Ok (n :: counts, written, pk_rows, appended)
    end
  | _, _ => Ok ([], [], [], 0)
  end.
(** Files a streaming ingest wrote before. *)
Fixpoint fold_prewritten (ops : list TableOp) (rows_by_op : list N) : list N * list DataFile * N :=
  match ops, rows_by_op with
  | op :: ops, n :: rows_by_op =>
    let '(counts, files, appended) := fold_prewritten ops rows_by_op in
    match op with
    | OpAppendFiles fs =>
      let r := foldr (λ f n, record_count f + n) 0 fs in
      (r :: counts, fs ++ files, r + appended)
    | _ => (n :: counts, files, appended)
    end
  | _, _ => ([], [], 0)
  end.

(** The rewritten manifest and the one of added files. *)
Definition m0_manifest (snapshot_id next_seq : Z) (s : Scan) : list (ManifestFile DataFile) :=
  match ac_existing s, ac_deleted s with
  | [], [] => []
  | existing, deleted =>
    [{| mf_data := true; mf_seq := next_seq; mf_added_snapshot := snapshot_id;
        mf_entries := Ok
          (map (λ '(f, snap, seq, fseq), {| me_alive := true; me_file := f; me_snapshot_id := Some snap;
                  me_seq := Some seq; me_file_seq := match fseq with Some q => Some q | None => Some seq end |}) existing ++
           map (λ '(f, seq, fseq), {| me_alive := false; me_file := f; me_snapshot_id := Some snapshot_id;
                  me_seq := Some seq; me_file_seq := match fseq with Some q => Some q | None => Some seq end |}) deleted) |}]
  end.
Definition m1_manifest (snapshot_id next_seq : Z) (added : list DataFile) : list (ManifestFile DataFile) :=
  match added with
  | [] => []
  | _ => [{| mf_data := true; mf_seq := next_seq; mf_added_snapshot := snapshot_id;
             mf_entries := Ok (map (λ f, {| me_alive := true; me_file := f; me_snapshot_id := Some snapshot_id;
                                            me_seq := None; me_file_seq := None |}) added) |}]
  end.
Definition summary (scanned : bool) (added : list DataFile) (s : Scan) : list (string * N) :=
  let '(_, added_records, added_bytes) := foldl (λ acc f, add_file f acc) (0, 0, 0) added in
  let '(removed_files, removed_records, removed_bytes) := ac_removed s in
  let '(kept_files, kept_records, kept_bytes) := ac_kept s in
  [("added-data-files", N.of_nat (length added)); ("added-records", added_records);
   ("added-files-size", added_bytes); ("deleted-data-files", removed_files);
   ("deleted-records", removed_records); ("removed-files-size", removed_bytes)] ++
  (if scanned then
     [("total-data-files", kept_files + N.of_nat (length added));
      ("total-records", kept_records + added_records);
      ("total-files-size", kept_bytes + added_bytes)] else []) ++
  [("total-delete-files", 0); ("total-position-deletes", 0); ("total-equality-deletes", 0);
   ("changed-partition-count", 1)].

(** The head's manifests are read when a statement or a key needs its rows. *)
Definition need_file_scan (ops : list TableOp) (pk : option (list (list byte))) : bool :=
  has_dml ops || match pk with Some _ => true | None => false end.
Definition scan_head (ops : list TableOp) (target : Schema) (pk : option (list (list byte))) (head : option Snapshot)
    : result Scan :=
  match head with
  | Some sn => if need_file_scan ops pk
               then mfs ← load_manifest_list sn; scan_manifests ops target pk mfs (scan_start (length ops))
               else Ok (scan_start (length ops))
  | None => Ok (scan_start (length ops))
  end.
Definition carried_manifests (ops : list TableOp) (pk : option (list (list byte))) (head : option Snapshot) (s : Scan)
    : result (list (ManifestFile DataFile)) :=
  match head with
  | Some sn => if need_file_scan ops pk then Ok (ac_carried s) else load_manifest_list sn
  | None => Ok (ac_carried s)
  end.

(** The writer is built on the first replacement or appended batch. *)
Definition write_rows (rewritten : option (list RecordBatch)) (appended : list (list RecordBatch)) : result (list DataFile) :=
  match rewritten, appended with
  | None, [] => Ok []
  | _, _ => write_data_files (default [] rewritten ++ concat appended)
  end.

(** [prepare_commit]; [fresh_id] is the random snapshot id. *)
Definition prepare_commit (t : Table) (ops : list TableOp) (pk : option (list (list byte))) (branch : string)
    (extra_properties : list (string * list byte)) (fresh_id : Z) : attempt (option (PreparedCommit DataFile)) :=
  _ ← lift (ensure (tb_format_v2 t) "writes require an Iceberg format v2 table");
  _ ← lift (ensure (tb_unpartitioned t) "writes on partitioned tables are not supported yet");
  head ← lift (branch_head t branch);
  let target := tb_schema t in
  let columns := tb_columns t in
  _ ← lift (map_result (λ op, match op with OpDml stmt => sql ← dml_sql stmt columns; Ok tt | _ => Ok tt end) ops);
  s ← lift (scan_head ops target pk head);
  '(counts, written, pk_rows, appended1) ← lift (fold_appends target pk ops (ac_rows_by_op s));
  let '(rows_by_op, prewritten, appended2) := fold_prewritten ops counts in
  if negb (ac_changed s) && (appended1 + appended2 =? 0) then Good None else
  _ ← match pk with Some cols => check_pk cols (ac_pk_rows s ++ pk_rows) | None => Good tt end;
  added ← lift (write_rows (ac_written s) written);
  carried ← lift (carried_manifests ops pk head s);
  let added := added ++ prewritten in
  let snapshot :=
    {| sn_id := fresh_id; sn_parent := sn_id <$> head; sn_seq := tb_next_seq t;
       sn_operation := if negb (ac_changed s) then OperationAppend
                       else match added with [] => OperationDelete | _ => OperationOverwrite end;
       sn_summary := summary (need_file_scan ops pk) added s;
       sn_manifests := Ok (carried ++ m0_manifest fresh_id (tb_next_seq t) s ++ m1_manifest fresh_id (tb_next_seq t) added) |} in
  Good (Some {| pc_request := {| rq_ident := tb_ident t; rq_uuid := tb_uuid t; rq_branch := branch;
                                 rq_head := sn_id <$> head; rq_snapshot := snapshot; rq_properties := extra_properties |};
                pc_rows_by_op := rows_by_op; pc_snapshot_id := fresh_id |}).
End Engine.
