(* ===== verification/OverwriteRows.v ===== *)
(** * What a prepared commit does to the rows of a table

    A statement is a filter or a map on rows ([apply_stmt]), a list of operations
    their fold ([apply_ops]); [prepare_commit], which works file by file and
    append by append, produces a snapshot with exactly those rows. *)
From S2P Require Import Prelude Text TailNames Keyed TableOps Overwrite.
#[local] Open Scope N_scope.

(** ** Laws of the libraries *)

Definition names_are {RecordBatch ArrayRef} `{Columnar RecordBatch ArrayRef} (columns : list (list byte)) (bs : list RecordBatch)
    : Prop := Forall (λ b, map f_name (schema_of b) = columns) bs.
Definition count_rows {Row} (p : Row → bool) (rows : list Row) : N := N.of_nat (length (List.filter p rows)).

(** The first column of its name, as [position] finds it. *)
Definition first_named (s : Schema) (i : nat) : Prop :=
  ∀ f, s !! i = Some f → position (λ g, eq_ignore_ascii_case (f_name g) (f_name f)) s = Some i.

(** SQL over batches that have the columns it names; [holds] is the
    three-valued predicate of a row, [rewritten] its projection, [restrict] its
    key, [cast_row] its values as another schema has them. *)
Class EngineLaws (RecordBatch ArrayRef DataFile Row : Type)
    `{ColumnarLaws RecordBatch ArrayRef Row} `{SqlEngine RecordBatch} `{DataFiles RecordBatch DataFile} := {
  holds : From → list byte → Row → option bool;
  rewritten : list Projection → From → Row → Row;
  restrict : list (list byte) → Row → Row;
  has_null : Row → bool;
  cast_row : Schema → Row → Row;
  count_matched_of cols from p bs out : names_are cols bs → run_query (CountMatched from p) bs = Ok out →
    match out with b :: _ => first_int b | [] => 0 end = count_rows (λ r, bool_decide (holds from p r = Some true)) (batch_rows bs);
  survivors_of cols from p bs out : names_are cols bs → run_query (SelectSurvivors cols from p) bs = Ok out →
    names_are cols out ∧
    batch_rows out ≡ₚ List.filter (λ r, negb (bool_decide (holds from p r = Some true))) (batch_rows bs);
  rewrite_of cols proj from bs out : names_are cols bs →
    map (λ p, match p with PCase _ _ c | PExpr _ c | PColumn c => c end) proj = cols →
    run_query (SelectRewrite proj from) bs = Ok out →
    names_are cols out ∧ batch_rows out ≡ₚ map (rewritten proj from) (batch_rows bs);
  nulls_of cols bs out : run_query (CountNulls cols) bs = Ok out →
    match out with b :: _ => first_int b | [] => 0 end = count_rows has_null (batch_rows bs);
  duplicates_of cols bs out : run_query (SelectDuplicates cols) bs = Ok out → batch_rows out = [] → NoDup (batch_rows bs);
  project_of b idx b' : Forall (first_named (schema_of b)) idx → project b idx = Ok b' →
    rows_of b' = map (restrict (omap (λ i, map ascii_lower ∘ f_name <$> schema_of b !! i) idx)) (rows_of b);
  concat_of bs b : concat_batches bs = Ok b → rows_of b = batch_rows bs;
  assembled_of b target cols b' : num_columns b = length target →
    map_result (λ '(i, f), cast_to f (column b i)) (zip (seq 0 (length target)) target) = Ok cols →
    try_new target cols = Ok b' → rows_of b' = map (cast_row target) (rows_of b);
  cast_idem target r : cast_row target (cast_row target r) = cast_row target r;
  written_of bs fs : write_data_files bs = Ok fs → ∃ bss,
    Forall2 (λ f b, read_parquet_file f = Ok b ∧ record_count f = N.of_nat (length (batch_rows b))) fs bss ∧
    concat (map batch_rows bss) = batch_rows bs;
}.

Section Rows.
Context {RecordBatch ArrayRef DataFile Row : Type} `{EngineLaws RecordBatch ArrayRef DataFile Row}.
#[local] Abbreviation TableOp := (TableOp RecordBatch DataFile).
#[local] Abbreviation Scan := (Scan (RecordBatch:=RecordBatch) (DataFile:=DataFile)).
#[local] Abbreviation ManifestFile := (ManifestFile DataFile).
#[local] Abbreviation ManifestEntry := (ManifestEntry DataFile).

(** ** Operations on rows *)
Definition matches (stmt : DmlStatement) (r : Row) : bool :=
  match dml_predicate stmt with
  | None => true
  | Some p => bool_decide (holds (from_of stmt) p r = Some true)
  end.
Definition updated (columns : list (list byte)) (stmt : DmlStatement) (r : Row) : Row :=
  match dml_kind stmt with
  | DmlDelete => r
  | DmlUpdate a => rewritten (map (projection_of a (dml_predicate stmt)) columns) (from_of stmt) r
  end.
Definition apply_stmt (columns : list (list byte)) (stmt : DmlStatement) (rows : list Row) : list Row :=
  match dml_kind stmt with
  | DmlDelete => List.filter (λ r, negb (matches stmt r)) rows
  | DmlUpdate _ => map (λ r, if matches stmt r then updated columns stmt r else r) rows
  end.
Definition file_rows (f : DataFile) : list Row :=
  match read_parquet_file f with Ok bs => batch_rows bs | Err _ => [] end.
Fixpoint apply_ops (columns : list (list byte)) (ops : list TableOp) (rows : list Row) : list Row :=
  match ops with
  | [] => rows
  | OpAppend bs :: ops => apply_ops columns ops (rows ++ batch_rows bs)
  | OpAppendFiles fs :: ops => apply_ops columns ops (rows ++ flat_map file_rows fs)
  | OpDml stmt :: ops => apply_ops columns ops (apply_stmt columns stmt rows)
  end.
(** The row counts a client is told, statement by statement. *)
Fixpoint op_counts (columns : list (list byte)) (ops : list TableOp) (rows : list Row) : list N :=
  match ops with
  | [] => []
  | OpAppend bs :: ops => N.of_nat (length (batch_rows bs)) :: op_counts columns ops (rows ++ batch_rows bs)
  | OpAppendFiles fs :: ops =>
    N.of_nat (length (flat_map file_rows fs)) :: op_counts columns ops (rows ++ flat_map file_rows fs)
  | OpDml stmt :: ops => count_rows (matches stmt) rows :: op_counts columns ops (apply_stmt columns stmt rows)
  end.

(** Rows as the schema has them, and statements whose values are of their
    columns' types: they leave rows so, and rows they do not match alone. *)
Definition fits (target : Schema) (r : Row) : Prop := cast_row target r = r.
Definition well_typed (target : Schema) (stmt : DmlStatement) : Prop :=
  ∀ r, fits target r → fits target (updated (map f_name target) stmt r) ∧
    (matches stmt r = false → updated (map f_name target) stmt r = r).
Definition batches_ok (target : Schema) (bs : list RecordBatch) : Prop :=
  names_are (map f_name target) bs ∧ Forall (fits target) (batch_rows bs).
Definition file_ok (target : Schema) (f : DataFile) : Prop := ∀ bs, read_parquet_file f = Ok bs → batches_ok target bs.

(** ** The statements alone *)

(** What the statements of [ops] do to rows that are there from the start. *)
Fixpoint dml_rows (columns : list (list byte)) (ops : list TableOp) (rows : list Row) : list Row :=
  match ops with
  | [] => rows
  | OpDml stmt :: ops => dml_rows columns ops (apply_stmt columns stmt rows)
  | _ :: ops => dml_rows columns ops rows
  end.
Fixpoint dml_counts (columns : list (list byte)) (ops : list TableOp) (rows : list Row) : list N :=
  match ops with
  | [] => []
  | OpDml stmt :: ops => count_rows (matches stmt) rows :: dml_counts columns ops (apply_stmt columns stmt rows)
  | _ :: ops => 0 :: dml_counts columns ops rows
  end.
Definition add_counts (a b : list N) : list N := zip_with N.add a b.

Lemma total_rows_of bs : total_rows bs = N.of_nat (length (batch_rows bs)).
Proof.
  unfold total_rows, batch_rows. induction bs as [|b bs IH]; [done|]. cbn [foldr flat_map].
  rewrite IH, num_rows_of, length_app. lia.
Qed.
Lemma count_rows_app p (a b : list Row) : count_rows p (a ++ b) = count_rows p a + count_rows p b.
Proof. unfold count_rows. rewrite List.filter_app, length_app. lia. Qed.
#[export] Instance filter_perm (p : Row → bool) : Proper ((≡ₚ) ==> (≡ₚ)) (List.filter p).
Proof.
  intros a b Hp. induction Hp as [|x a b Hp IH|x y a|a b c P1 IH1 P2 IH2]; cbn; [done| | |by etrans].
  - destruct (p x); [by rewrite IH|done].
  - destruct (p x), (p y); try done. apply perm_swap.
Qed.
#[export] Instance count_rows_perm p : Proper ((≡ₚ) ==> (=)) (count_rows (Row:=Row) p).
Proof. intros a b Hp. unfold count_rows. by rewrite Hp. Qed.
#[export] Instance apply_stmt_perm cols stmt : Proper ((≡ₚ) ==> (≡ₚ)) (apply_stmt cols stmt).
Proof. intros a b Hp. unfold apply_stmt. destruct (dml_kind stmt); [by rewrite Hp|]. by apply Permutation_map. Qed.
#[export] Instance dml_rows_perm cols ops : Proper ((≡ₚ) ==> (≡ₚ)) (dml_rows cols ops).
Proof. induction ops as [|[| |stmt] ops IH]; intros a b Hp; cbn; [done|by apply IH..|]. apply IH. by rewrite Hp. Qed.
Lemma dml_counts_perm cols ops a b : a ≡ₚ b → dml_counts cols ops a = dml_counts cols ops b.
Proof.
  revert a b. induction ops as [|[| |stmt] ops IH]; intros a b Hp; cbn; [done|f_equal; by apply IH..|].
  f_equal; [by apply count_rows_perm|]. apply IH. by apply apply_stmt_perm.
Qed.

Lemma apply_stmt_app cols stmt a b : apply_stmt cols stmt (a ++ b) = apply_stmt cols stmt a ++ apply_stmt cols stmt b.
Proof. unfold apply_stmt. destruct (dml_kind stmt); [apply List.filter_app|apply map_app]. Qed.
Lemma dml_rows_app cols ops a b : dml_rows cols ops (a ++ b) = dml_rows cols ops a ++ dml_rows cols ops b.
Proof.
  revert a b. induction ops as [|[| |stmt] ops IH]; intros a b; cbn; [done|apply IH..|]. by rewrite apply_stmt_app, IH.
Qed.
Lemma dml_counts_app cols ops a b :
  dml_counts cols ops (a ++ b) = add_counts (dml_counts cols ops a) (dml_counts cols ops b).
Proof.
  revert a b. induction ops as [|[| |stmt] ops IH]; intros a b; cbn; [done|f_equal; apply IH..|].
  rewrite count_rows_app, apply_stmt_app. f_equal. apply IH.
Qed.
Lemma dml_rows_nil cols ops : dml_rows cols ops [] = [].
Proof. induction ops as [|[| |stmt] ops IH]; cbn; [done..|]. unfold apply_stmt. by destruct (dml_kind stmt). Qed.
Lemma length_dml_counts cols ops rows : length (dml_counts cols ops rows) = length ops.
Proof. revert rows. induction ops as [|[| |stmt] ops IH]; intros rows; cbn; by rewrite ?IH. Qed.
Lemma dml_counts_nil cols ops : dml_counts cols ops [] = replicate (length ops) 0.
Proof.
  induction ops as [|[| |stmt] ops IH]; cbn; [done|by rewrite IH..|]. unfold apply_stmt.
  destruct (dml_kind stmt); cbn; by rewrite IH.
Qed.
Lemma add_counts_comm a b : add_counts a b = add_counts b a.
Proof. revert b. induction a as [|x a IH]; intros [|y b]; cbn; [done..|]. rewrite IH. f_equal. lia. Qed.
Lemma add_counts_assoc a b c : add_counts a (add_counts b c) = add_counts (add_counts a b) c.
Proof. revert b c. induction a as [|x a IH]; intros [|y b] [|z c]; cbn; [done..|]. rewrite IH. f_equal. lia. Qed.
Lemma add_counts_zero n a : length a = n → add_counts (replicate n 0) a = a.
Proof. unfold add_counts. intros <-. induction a as [|x a IH]; cbn; [done|]. by rewrite IH. Qed.
Lemma length_add_counts a b : length a = length b → length (add_counts a b) = length a.
Proof. unfold add_counts. rewrite length_zip_with. lia. Qed.

(** A statement that matches nothing changes nothing. *)
Lemma apply_stmt_none cols stmt rows : count_rows (matches stmt) rows = 0 → apply_stmt cols stmt rows = rows.
Proof.
  unfold count_rows, apply_stmt. intros Hc. assert (∀ r, r ∈ rows → matches stmt r = false) as Hn.
  { intros r Hr. apply not_true_is_false. intros Hm.
    assert (r ∈ List.filter (matches stmt) rows) as Hin.
    { apply list_elem_of_In, filter_In. split; [by apply list_elem_of_In|done]. }
    destruct (List.filter _ rows); [by apply not_elem_of_nil in Hin|done]. }
  destruct (dml_kind stmt).
  - clear Hc. induction rows as [|r rows IH]; cbn; [done|]. rewrite (Hn r) by (by left). cbn. f_equal.
    apply IH. intros x Hx. apply Hn. by right.
  - clear Hc. induction rows as [|r rows IH]; cbn; [done|]. rewrite (Hn r) by (by left). f_equal.
    apply IH. intros x Hx. apply Hn. by right.
Qed.

Lemma dml_counts_zero_rows cols ops rows :
  dml_counts cols ops rows = replicate (length ops) 0 → dml_rows cols ops rows = rows.
Proof.
  revert rows. induction ops as [|[| |stmt] ops IH]; intros rows Hz; cbn in *; [done|injection Hz as Hz; by apply IH..|].
  injection Hz as Hc Hz. rewrite (apply_stmt_none cols stmt rows Hc) in Hz |- *. by apply IH.
Qed.
Lemma dml_counts_app_zero cols ops a b :
  dml_counts cols ops a = replicate (length ops) 0 → dml_counts cols ops b = replicate (length ops) 0 →
  dml_counts cols ops (a ++ b) = replicate (length ops) 0.
Proof. intros Ha Hb. rewrite dml_counts_app, Ha, Hb. apply add_counts_zero, length_replicate. Qed.

(** ** One statement over batches *)

Lemma fits_apply target stmt rows :
  well_typed target stmt → Forall (fits target) rows → Forall (fits target) (apply_stmt (map f_name target) stmt rows).
Proof.
  intros Ht Hf. rewrite Forall_forall in Hf |- *. unfold apply_stmt. intros r Hr. destruct (dml_kind stmt).
  - apply list_elem_of_In, filter_In in Hr as [Hr _]. apply Hf. by apply list_elem_of_In.
  - change (map ?f ?l) with (f <$> l) in Hr. apply list_elem_of_fmap in Hr as (r0 & -> & Hr0).
    specialize (Hf r0 Hr0). destruct (matches stmt r0); [|done]. by apply Ht.
Qed.

Lemma projection_columns a pred cols :
  map (λ p, match p with PCase _ _ c | PExpr _ c | PColumn c => c end) (map (projection_of a pred) cols) = cols.
Proof.
  rewrite map_map. rewrite <-(map_id cols) at 2. apply map_ext. intros c. unfold projection_of.
  by destruct (assigned a c), pred.
Qed.

(** The fate of a set of batches whose predicate has been counted. *)
Lemma matched_spec target stmt bs sql n :
  batches_ok target bs → dml_sql stmt (map f_name target) = Ok sql →
  match count_matched sql with None => Ok (total_rows bs) | Some q => count_query q bs end = Ok n →
  n = count_rows (matches stmt) (batch_rows bs).
Proof.
  intros [Hn _] Hsql Hc. assert (count_matched sql = CountMatched (from_of stmt) <$> dml_predicate stmt) as Hq.
  { unfold dml_sql in Hsql. destruct (dml_kind stmt); [by injection Hsql as <-|].
    apply bind_Ok in Hsql as (u & _ & Hsql). by injection Hsql as <-. }
  rewrite Hq in Hc. unfold matches. destruct (dml_predicate stmt) as [p|]; cbn in Hc.
  - unfold count_query in Hc. apply bind_Ok in Hc as (out & Ho & Hc). injection Hc as <-.
    by apply (count_matched_of _ _ _ _ _ Hn Ho).
  - injection Hc as <-. rewrite total_rows_of. unfold count_rows. f_equal. f_equal.
    induction (batch_rows bs) as [|r l IH]; cbn; [done|]. by f_equal.
Qed.

Lemma filter_all (p : Row → bool) l : length (List.filter p l) = length l → List.filter (λ r, negb (p r)) l = [].
Proof.
  induction l as [|r l IH]; cbn; [done|]. pose proof (List.filter_length_le p l).
  destruct (p r); cbn; [|lia]. intros Hl. apply IH. lia.
Qed.

Lemma survivors_nil (out : list RecordBatch) : total_rows out = 0 → batch_rows out = [].
Proof. rewrite total_rows_of. destruct (batch_rows out); [done|cbn; lia]. Qed.

Lemma apply_dml_spec target stmt bs n out :
  batches_ok target bs → well_typed target stmt →
  apply_dml_to_batches stmt (map f_name target) bs = Ok (n, out) →
  n = count_rows (matches stmt) (batch_rows bs) ∧
  batch_rows out ≡ₚ apply_stmt (map f_name target) stmt (batch_rows bs) ∧ batches_ok target out.
Proof.
  intros Hok Htyped Ha. unfold apply_dml_to_batches in Ha. destruct (N.eqb_spec (total_rows bs) 0) as [Hz|Hz].
  { injection Ha as <- <-. apply survivors_nil in Hz. rewrite Hz. split; [done|]. split; [|done].
    unfold apply_stmt. by destruct (dml_kind stmt). }
  apply bind_Ok in Ha as (sql & Hsql & Ha). apply bind_Ok in Ha as (fate & Hfate & Ha).
  unfold evaluate_rows in Hfate. apply bind_Ok in Hfate as (m & Hm & Hfate).
  pose proof (matched_spec target stmt bs sql m Hok Hsql Hm) as Hmc.
  destruct (N.eqb_spec m 0) as [Hm0|Hm0].
  { injection Hfate as <-. injection Ha as <- <-. rewrite Hm0 in Hmc. rewrite apply_stmt_none by done. by rewrite <-Hmc. }
  assert (∀ out', batch_rows out' ≡ₚ apply_stmt (map f_name target) stmt (batch_rows bs) →
    names_are (map f_name target) out' → batches_ok target out') as Hout.
  { intros out' Hp Hnames. split; [done|]. rewrite Hp. apply fits_apply; [done|]. apply Hok. }
  unfold dml_sql in Hsql. unfold apply_stmt in *. destruct (dml_kind stmt) as [|a] eqn:Ek.
  - injection Hsql as <-. cbn [rewrite survivors count_matched] in *.
    destruct (N.eqb_spec m (total_rows bs)) as [Hall|Hne].
    + injection Hfate as <-. injection Ha as <- <-. rewrite total_rows_of in Hall.
      assert (List.filter (λ r, negb (matches stmt r)) (batch_rows bs) = []) as Hnil
        by (apply filter_all; unfold count_rows in Hmc; lia).
      split; [done|]. rewrite Hnil. split; [done|]. apply Hout; [by rewrite Hnil|constructor].
    + apply bind_Ok in Hfate as (q & Hq & Hfate). destruct (dml_predicate stmt) as [p|] eqn:Ep; [|done].
      injection Hq as <-. apply bind_Ok in Hfate as (sv & Hsv & Hfate).
      apply survivors_of in Hsv as [Hnames Hperm]; [|apply Hok].
      assert (batch_rows sv ≡ₚ List.filter (λ r, negb (matches stmt r)) (batch_rows bs)) as Hsv.
      { unfold matches. by rewrite Ep. }
      destruct (negb _); [done|]. destruct (N.eqb_spec (total_rows sv) 0) as [Hs0|Hs0]; injection Hfate as <-; injection Ha as <- <-.
      * apply survivors_nil in Hs0. rewrite Hs0 in Hsv. split; [done|]. split; [done|]. apply Hout; [done|constructor].
      * split; [done|]. split; [done|]. by apply Hout.
  - apply bind_Ok in Hsql as (u & _ & Hsql). injection Hsql as <-. cbn [rewrite survivors count_matched] in *.
    apply bind_Ok in Hfate as (rw & Hrw & Hfate). destruct (negb _); [done|].
    injection Hfate as <-. injection Ha as <- <-.
    apply (rewrite_of (map f_name target)) in Hrw as [Hnames Hperm]; [|apply Hok|apply projection_columns].
    assert (batch_rows rw ≡ₚ map (λ r, if matches stmt r then updated (map f_name target) stmt r else r) (batch_rows bs)) as Hrw'.
    { rewrite Hperm. apply Permutation_refl'. apply map_ext_in. intros r Hr.
      destruct Hok as [_ Hf]. rewrite Forall_forall in Hf. destruct (Htyped r) as [_ Hsame]; [apply Hf; by apply list_elem_of_In|].
      destruct (matches stmt r); [|rewrite <-Hsame at 2 by done]; unfold updated; by rewrite Ek. }
    split; [done|]. split; [done|]. by apply Hout.
Qed.

(** [fold_dml_ops]: the statements among the operations, the counts added. *)
Lemma fold_dml_spec target ops bs counts changed out counts' :
  batches_ok target bs → (∀ stmt, OpDml stmt ∈ ops → well_typed target stmt) → length counts = length ops →
  fold_dml_ops ops (map f_name target) bs counts = Ok (changed, out, counts') →
  batch_rows out ≡ₚ dml_rows (map f_name target) ops (batch_rows bs) ∧
  counts' = add_counts counts (dml_counts (map f_name target) ops (batch_rows bs)) ∧
  (changed = false → dml_counts (map f_name target) ops (batch_rows bs) = replicate (length ops) 0) ∧ batches_ok target out.
Proof.
  revert bs counts changed out counts'. induction ops as [|op ops IH]; intros bs counts changed out counts' Hok Htyped Hl Hf.
  { destruct counts; [|done]. injection Hf as <- <- <-. done. }
  destruct counts as [|n counts]; [done|]. injection Hl as Hl.
  assert (∀ stmt, OpDml stmt ∈ ops → well_typed target stmt) as Htyped' by (intros stmt Hs; apply Htyped; by right).
  destruct op as [bs0|fs|stmt]; cbn [fold_dml_ops] in Hf.
  1, 2: apply bind_Ok in Hf as ([[ch rows] cs] & Hf & Hr); injection Hr as <- <- <-;
    destruct (IH _ _ _ _ _ Hok Htyped' Hl Hf) as (I1 & I2 & I3 & I4);
    cbn [dml_rows dml_counts add_counts zip_with]; rewrite I2, N.add_0_r; split_and!; try done; intros Hc; cbn; by rewrite I3.
  apply bind_Ok in Hf as ([m rows] & Ha & Hf). apply bind_Ok in Hf as ([[ch rows'] cs] & Hf & Hr). injection Hr as <- <- <-.
  apply (apply_dml_spec target) in Ha as (Hm & Hperm & Hok'); [|done|apply Htyped; by left].
  destruct (IH _ _ _ _ _ Hok' Htyped' Hl Hf) as (I1 & I2 & I3 & I4). cbn [dml_rows dml_counts].
  split_and!; [by rewrite I1, Hperm| | |done].
  - rewrite I2, Hm. cbn. f_equal. by rewrite (dml_counts_perm _ _ _ _ Hperm).
  - intros Hc. apply orb_false_elim in Hc as [Hm0 Hc]. apply N.ltb_ge in Hm0.
    cbn. f_equal; [lia|]. by rewrite <-(dml_counts_perm _ _ _ _ Hperm), I3.
Qed.

(** ** Alignment and keys *)

Lemma align_spec b target b' :
  align_batch b target = Ok b' → rows_of b' = map (cast_row target) (rows_of b) ∧ schema_of b' = target.
Proof.
  intros Ha. unfold align_batch in Ha. destruct (_ =? _)%nat eqn:En; [|done]. cbn [negb] in Ha. apply Nat.eqb_eq in En.
  apply bind_Ok in Ha as (cols & Hc & Ht). split; [|by apply try_new_schema in Ht].
  eapply assembled_of; [done| |exact Ht]. revert Hc. generalize (zip (seq 0 (length target)) target) as l. clear.
  intros l. revert cols. induction l as [|[i f] l IH]; intros cols Hc; cbn [map_result] in *; [done|].
  apply bind_Ok in Hc as (c & Hcol & Hc). apply bind_Ok in Hc as (cs & Hcs & Hc). injection Hc as <-.
  unfold align_column in Hcol. destruct (schema_of b !! i) as [src|]; [|done].
  destruct (negb _) in Hcol; [done|]. rewrite Hcol. cbn. by rewrite (IH cs Hcs).
Qed.

(** Aligned batches, whatever they were. *)
Lemma align_all target bs bs' :
  map_result (λ b, align_batch b target) bs = Ok bs' →
  batch_rows bs' = map (cast_row target) (batch_rows bs) ∧ batches_ok target bs'.
Proof.
  revert bs'. induction bs as [|b bs IH]; intros bs' Ha; cbn [map_result] in Ha; [injection Ha as <-; by repeat constructor|].
  apply bind_Ok in Ha as (b' & Hb & Ha). apply bind_Ok in Ha as (bs1 & Hbs & Ha). injection Ha as <-.
  destruct (IH bs1 Hbs) as [Hr [Hn Hfits]]. apply align_spec in Hb as [Hrb Hs].
  rewrite !batch_rows_cons, map_app, Hrb, Hr. split; [done|]. split; [constructor; [by rewrite Hs|exact Hn]|].
  rewrite batch_rows_cons. apply Forall_app. split; [|exact Hfits]. rewrite Hrb. apply Forall_map, Forall_forall.
  intros r _. apply cast_idem.
Qed.

Lemma aligned_spec target bs bs' :
  Forall (fits target) (batch_rows bs) → map_result (λ b, align_batch b target) bs = Ok bs' →
  batch_rows bs' = batch_rows bs ∧ batches_ok target bs'.
Proof.
  intros Hf [Hr Hok]%align_all. split; [|done]. rewrite Hr. rewrite <-(map_id (batch_rows bs)) at 2. apply map_ext_in.
  intros r Hin. rewrite Forall_forall in Hf. apply Hf. by apply list_elem_of_In.
Qed.

Lemma position_spec {A} (p : A → bool) l i : position p l = Some i → ∃ a, l !! i = Some a ∧ p a = true.
Proof.
  revert i. induction l as [|x l IH]; intros i Hp; cbn in Hp; [done|]. destruct (p x) eqn:Ep.
  - injection Hp as <-. by exists x.
  - destruct (position p l) as [j|]; [|done]. injection Hp as <-. by apply (IH j).
Qed.

Definition key_of (cols : list (list byte)) (r : Row) : Row := restrict (map (map ascii_lower) cols) r.

Lemma position_ext {A} (p q : A → bool) l : (∀ a, p a = q a) → position p l = position q l.
Proof. intros He. induction l as [|a l IH]; cbn; [done|]. by rewrite He, IH. Qed.
Lemma position_names (p : list byte → bool) (s s' : Schema) :
  map f_name s = map f_name s' → position (λ f, p (f_name f)) s = position (λ f, p (f_name f)) s'.
Proof.
  revert s'. induction s as [|f s IH]; intros [|f' s'] He; try done. injection He as Hf He. cbn. by rewrite Hf, (IH s').
Qed.

(** The columns a key names, found in one batch, are those of every batch. *)
Lemma named_columns (s s' : Schema) cols idx :
  map f_name s' = map f_name s →
  map_result (λ c, ok_or (position (λ f, eq_ignore_ascii_case (f_name f) c) s) "PK column missing from row batch") cols = Ok idx →
  omap (λ i, map ascii_lower ∘ f_name <$> s' !! i) idx = map (map ascii_lower) cols ∧ Forall (first_named s') idx.
Proof.
  intros Hsame. revert idx. induction cols as [|c cols IH]; intros idx Hidx; cbn [map_result] in Hidx; [injection Hidx as <-; done|].
  apply bind_Ok in Hidx as (i & Hi & Hidx). apply bind_Ok in Hidx as (is' & His & Hidx). injection Hidx as <-.
  destruct (position _ s) as [j|] eqn:Ej; [|done]. injection Hi as <-.
  pose proof Ej as Ej'. rewrite (position_names (λ n, eq_ignore_ascii_case n c) s s' (eq_sym Hsame)) in Ej'.
  apply position_spec in Ej as (f & Hf & He). unfold eq_ignore_ascii_case in He. apply bool_decide_eq_true in He.
  assert ((map f_name s') !! j = Some (f_name f)) as Hj by (rewrite Hsame, list_lookup_fmap, Hf; done).
  rewrite list_lookup_fmap in Hj. destruct (s' !! j) as [f'|] eqn:Ef'; [|done]. injection Hj as Hj.
  destruct (IH is' His) as [I1 I2]. split.
  - cbn. rewrite Ef'. cbn. by rewrite Hj, He, I1.
  - constructor; [|done]. intros g Hg. rewrite Ef' in Hg. injection Hg as <-. rewrite <-Ej'. apply position_ext.
    intros g. unfold eq_ignore_ascii_case. by rewrite Hj, He.
Qed.

Lemma project_columns_spec columns bs cols b :
  names_are columns bs → project_columns bs cols = Ok b → rows_of b = map (key_of cols) (batch_rows bs).
Proof.
  intros Hn Hp. unfold project_columns in Hp. destruct bs as [|b0 bs0] eqn:Eb; [done|]. rewrite <-Eb in *.
  apply bind_Ok in Hp as (idx & Hidx & Hp). apply bind_Ok in Hp as (ps & Hps & Hp).
  rewrite (concat_of _ _ Hp). clear Hp. unfold names_are in Hn.
  assert (Forall (λ b', map f_name (schema_of b') = map f_name (schema_of b0)) bs) as Hsame.
  { eapply Forall_impl; [exact Hn|]. cbn. intros b' ->. symmetry. rewrite Forall_forall in Hn. apply Hn. rewrite Eb. by left. }
  clear Hn Eb. revert ps Hps. induction Hsame as [|b1 bs Hb1 Hsame IH]; intros ps Hps; cbn [map_result] in Hps; [by injection Hps as <-|].
  apply bind_Ok in Hps as (p & Hp & Hps). apply bind_Ok in Hps as (ps' & Hps' & Hps). injection Hps as <-.
  destruct (named_columns _ _ _ _ Hb1 Hidx) as [Hcols Hfirst].
  rewrite !batch_rows_cons, map_app, (project_of _ _ _ Hfirst Hp), Hcols. f_equal. by apply IH.
Qed.

(** ** Appends and files *)
Fixpoint buffered_rows (columns : list (list byte)) (ops : list TableOp) : list Row :=
  match ops with
  | [] => []
  | OpAppend bs :: ops => dml_rows columns ops (batch_rows bs) ++ buffered_rows columns ops
  | _ :: ops => buffered_rows columns ops
  end.
Fixpoint buffered_counts (columns : list (list byte)) (ops : list TableOp) : list N :=
  match ops with
  | [] => []
  | OpAppend bs :: ops =>
    N.of_nat (length (batch_rows bs)) ::
    add_counts (dml_counts columns ops (batch_rows bs)) (buffered_counts columns ops)
  | _ :: ops => 0 :: buffered_counts columns ops
  end.
Fixpoint ingested_rows (ops : list TableOp) : list Row :=
  match ops with
  | [] => []
  | OpAppendFiles fs :: ops => flat_map file_rows fs ++ ingested_rows ops
  | _ :: ops => ingested_rows ops
  end.
Fixpoint ingested_counts (ops : list TableOp) : list N :=
  match ops with
  | [] => []
  | OpAppendFiles fs :: ops => N.of_nat (length (flat_map file_rows fs)) :: ingested_counts ops
  | _ :: ops => 0 :: ingested_counts ops
  end.
(** Files are ingested by commits of their own: no statement follows them. *)
Fixpoint files_last (ops : list TableOp) : Prop :=
  match ops with
  | [] => True
  | OpAppendFiles _ :: ops => (∀ stmt, OpDml stmt ∉ ops) ∧ files_last ops
  | _ :: ops => files_last ops
  end.

Lemma dml_rows_no_dml cols ops rows : (∀ stmt, OpDml stmt ∉ ops) → dml_rows cols ops rows = rows.
Proof.
  induction ops as [|[| |stmt] ops IH]; intros Hn; cbn; [done|apply IH; set_solver..|]. destruct (Hn stmt). by left.
Qed.
Lemma dml_counts_no_dml cols ops rows : (∀ stmt, OpDml stmt ∉ ops) → dml_counts cols ops rows = replicate (length ops) 0.
Proof.
  induction ops as [|[| |stmt] ops IH]; intros Hn; cbn; [done|f_equal; apply IH; set_solver..|]. destruct (Hn stmt). by left.
Qed.
Lemma length_buffered_counts cols ops : length (buffered_counts cols ops) = length ops.
Proof.
  induction ops as [|[| |] ops IH]; cbn; [done| |by rewrite IH..].
  unfold add_counts. rewrite length_zip_with, length_dml_counts. lia.
Qed.
Lemma length_ingested_counts ops : length (ingested_counts ops) = length ops.
Proof. induction ops as [|[| |] ops IH]; cbn; by rewrite ?IH. Qed.

(** The fold of the operations, taken apart. *)
Lemma apply_ops_split cols ops rows :
  files_last ops →
  apply_ops cols ops rows ≡ₚ dml_rows cols ops rows ++ buffered_rows cols ops ++ ingested_rows ops.
Proof.
  revert rows. induction ops as [|[bs|fs|stmt] ops IH]; intros rows Hl; cbn in *; [by rewrite app_nil_r| | |by apply IH].
  - rewrite IH by done. rewrite dml_rows_app. by rewrite <-!app_assoc.
  - destruct Hl as [Hn Hl]. rewrite IH by done. rewrite dml_rows_app, (dml_rows_no_dml cols ops (flat_map file_rows fs)) by done.
    rewrite <-!app_assoc. f_equiv. rewrite !app_assoc. f_equiv. apply Permutation_app_comm.
Qed.
Lemma op_counts_split cols ops rows :
  files_last ops →
  op_counts cols ops rows = add_counts (dml_counts cols ops rows) (add_counts (buffered_counts cols ops) (ingested_counts ops)).
Proof.
  revert rows. induction ops as [|[bs|fs|stmt] ops IH]; intros rows Hl; cbn in *; [done| | |].
  - f_equal; [lia|]. rewrite IH by done. rewrite dml_counts_app. fold (add_counts (dml_counts cols ops (batch_rows bs)) (buffered_counts cols ops)).
    by rewrite !add_counts_assoc.
  - destruct Hl as [Hn Hl]. rewrite !N.add_0_l. f_equal. rewrite IH by done. rewrite dml_counts_app, (dml_counts_no_dml cols ops (flat_map file_rows fs)) by done.
    f_equal. rewrite add_counts_comm, add_counts_zero; [done|apply length_dml_counts].
  - rewrite !N.add_0_r. f_equal. by apply IH.
Qed.

(** Operations as the engine gets them. *)
Definition op_ok (target : Schema) (op : TableOp) : Prop :=
  match op with
  | OpAppend bs => batches_ok target bs
  | OpAppendFiles fs => ∀ f, f ∈ fs → record_count f = N.of_nat (length (file_rows f))
  | OpDml stmt => well_typed target stmt
  end.
Definition plain_zero (ops : list TableOp) (counts : list N) : Prop :=
  Forall2 (λ op n, match op with OpDml _ => True | _ => n = 0 end) ops counts.
Lemma dml_counts_zero cols ops rows : plain_zero ops (dml_counts cols ops rows).
Proof. revert rows. induction ops as [|[| |stmt] ops IH]; intros rows; cbn; constructor; by try apply IH. Qed.
Lemma plain_zero_add ops a b : plain_zero ops a → plain_zero ops b → plain_zero ops (add_counts a b).
Proof.
  intros Ha. revert b. induction Ha as [|op x ops a Hx Ha IH]; intros b Hb; inversion Hb; subst; cbn; constructor; [|by apply IH].
  destruct op; [lia..|done].
Qed.
Lemma typed_of ops target : Forall (op_ok target) ops → ∀ stmt, OpDml stmt ∈ ops → well_typed target stmt.
Proof. rewrite Forall_forall. intros Hall stmt Hs. apply (Hall _ Hs). Qed.

Lemma fold_appends_spec target pk ops counts counts' written keys n :
  Forall (op_ok target) ops → plain_zero ops counts →
  fold_appends target pk ops counts = Ok (counts', written, keys, n) →
  counts' = add_counts counts (buffered_counts (map f_name target) ops) ∧
  batch_rows (concat written) ≡ₚ buffered_rows (map f_name target) ops ∧ n = N.of_nat (length (buffered_rows (map f_name target) ops)) ∧
  match pk with Some c => batch_rows keys = map (key_of c) (batch_rows (concat written)) | None => keys = [] end.
Proof.
  intros Hops Hz. revert counts Hz counts' written keys n.
  induction Hops as [|op ops Hop Hops IH]; intros counts Hz counts' written keys n Hf; inversion Hz as [|? c ? counts0 Hc Hz0]; subst.
  { injection Hf as <- <- <- <-. split_and!; try done. by destruct pk. }
  destruct op as [bs|fs|stmt]; cbn [fold_appends buffered_counts buffered_rows] in Hf |- *.
  2, 3: apply bind_Ok in Hf as ([[[cs w] k] a] & Hf & Hr); injection Hr as <- <- <- <-;
    destruct (IH _ Hz0 _ _ _ _ Hf) as (I1 & I2 & I3 & I4); split_and!; try done; cbn; rewrite N.add_0_r, I1; done.
  apply bind_Ok in Hf as ([[ch out] cs0] & Hfold & Hf).
  pose proof (Forall2_length _ _ _ Hz0) as Hl.
  destruct (fold_dml_spec target ops bs counts0 ch out cs0 Hop (typed_of ops target Hops) (eq_sym Hl) Hfold) as (D1 & D2 & _ & D4).
  assert (plain_zero ops cs0) as Hz1 by (rewrite D2; apply plain_zero_add; [done|apply dml_counts_zero]).
  assert (add_counts cs0 (buffered_counts (map f_name target) ops) =
    add_counts counts0 (add_counts (dml_counts (map f_name target) ops (batch_rows bs)) (buffered_counts (map f_name target) ops))) as Hcs.
  { rewrite D2. by rewrite add_counts_assoc. }
  destruct (N.eqb_spec (total_rows out) 0) as [Hz2|Hz2].
  - apply bind_Ok in Hf as ([[[cs w] k] a] & Hf & Hr). injection Hr as <- <- <- <-.
    destruct (IH _ Hz1 _ _ _ _ Hf) as (I1 & I2 & I3 & I4). apply survivors_nil in Hz2. rewrite Hz2 in D1.
    apply Permutation_nil in D1. rewrite D1. cbn [app]. split_and!; try done.
    rewrite I1, Hcs, total_rows_of. cbn. by rewrite Hc.
  - apply bind_Ok in Hf as (al & Hal & Hf). apply bind_Ok in Hf as (ks & Hks & Hf).
    apply bind_Ok in Hf as ([[[cs w] k] a] & Hf & Hr). injection Hr as <- <- <- <-.
    destruct (IH _ Hz1 _ _ _ _ Hf) as (I1 & I2 & I3 & I4). destruct (aligned_spec target out al) as [A1 A2]; [apply D4|done|].
    cbn [concat]. rewrite !batch_rows_app. split_and!.
    + rewrite I1, Hcs, total_rows_of. cbn. by rewrite Hc.
    + by rewrite A1, D1, I2.
    + rewrite I3, total_rows_of, length_app, D1. lia.
    + destruct pk as [pc|]; [|injection Hks as <-; by rewrite I4].
      apply bind_Ok in Hks as (p & Hp & Hks). injection Hks as <-. rewrite map_app, I4. f_equal.
      rewrite batch_rows_cons, app_nil_r. destruct A2 as [A2 _]. by apply (project_columns_spec _ _ _ _ A2 Hp).
Qed.

Lemma files_count target fs :
  op_ok target (OpAppendFiles fs) → foldr (λ f n, record_count f + n) 0 fs = N.of_nat (length (flat_map file_rows fs)).
Proof.
  induction fs as [|f fs IH]; intros Hok; cbn; [done|]. rewrite length_app, IH by (intros g Hg; apply Hok; by right).
  rewrite (Hok f) by (by left). lia.
Qed.
Lemma fold_prewritten_spec target ops counts :
  Forall (op_ok target) ops → length counts = length ops →
  (∀ i fs, ops !! i = Some (OpAppendFiles fs) → counts !! i = Some 0) →
  let '(counts', files, n) := fold_prewritten ops counts in
  counts' = add_counts counts (ingested_counts ops) ∧ flat_map file_rows files = ingested_rows ops ∧
  n = N.of_nat (length (ingested_rows ops)).
Proof.
  intros Hops. revert counts. induction Hops as [|op ops Hop Hops IH]; intros counts Hl Hz; [by destruct counts|].
  destruct counts as [|c counts]; [done|]. injection Hl as Hl. cbn [fold_prewritten].
  specialize (IH counts Hl (λ i fs, Hz (S i) fs)). destruct (fold_prewritten ops counts) as [[cs files] n].
  destruct IH as (I1 & I2 & I3). destruct op as [bs|fs|stmt]; cbn.
  - split_and!; [rewrite N.add_0_r; by rewrite I1|done|done].
  - specialize (Hz 0%nat fs eq_refl). injection Hz as ->. rewrite (files_count target) by done.
    split_and!; [by rewrite I1|by rewrite flat_map_app, I2|rewrite I3, length_app; lia].
  - split_and!; [rewrite N.add_0_r; by rewrite I1|done|done].
Qed.

Lemma written_rows bs fs : write_data_files bs = Ok fs → flat_map file_rows fs = batch_rows bs.
Proof.
  intros (bss & Hf & <-)%written_of. induction Hf as [|f b fs bss [Hr _] Hf IH]; cbn; [done|].
  rewrite IH. unfold file_rows. by rewrite Hr.
Qed.
Lemma added_spec (w : option (list RecordBatch)) (written : list (list RecordBatch)) added :
  write_rows w written = Ok added →
  flat_map file_rows added = batch_rows (default [] w) ++ batch_rows (concat written).
Proof.
  intros Ha. rewrite <-batch_rows_app. destruct w as [w|]; [by apply written_rows|].
  destruct written as [|x written]; [by injection Ha as <-|]. by apply written_rows.
Qed.

(** ** The scan of the live files *)
Definition live (es : list ManifestEntry) : list DataFile := map me_file (List.filter me_alive es).
Definition mf_rows (mf : ManifestFile) : list Row :=
  match mf_entries mf with Ok es => flat_map file_rows (live es) | Err _ => [] end.
Definition snapshot_rows (sn : Snapshot DataFile) : list Row :=
  match sn_manifests sn with Ok mfs => flat_map mf_rows mfs | Err _ => [] end.
Definition snapshot_files (sn : Snapshot DataFile) : list DataFile :=
  match sn_manifests sn with
  | Ok mfs => flat_map (λ mf, match mf_entries mf with Ok es => live es | Err _ => [] end) mfs
  | Err _ => []
  end.

Definition fate_rows (f : DataFile) (fate : FileFate (RecordBatch:=RecordBatch)) : list Row :=
  match fate with Keep => file_rows f | Remove _ => [] | Rewrite _ out => batch_rows out end.
Definition kept (fate : FileFate (RecordBatch:=RecordBatch)) : bool := match fate with Keep => true | _ => false end.
Definition fate_ok (target : Schema) (ops : list TableOp) (f : DataFile) (fate : FileFate (RecordBatch:=RecordBatch)) : Prop :=
  fate_rows f fate ≡ₚ dml_rows (map f_name target) ops (file_rows f) ∧
  match fate with
  | Keep => dml_counts (map f_name target) ops (file_rows f) = replicate (length ops) 0
  | Remove _ => True
  | Rewrite _ out => batches_ok target out
  end.

(** The keys gathered for the rows of a fate. *)
Definition keys_grow (pk : option (list (list byte))) (s s' : Scan) (rows : list Row) : Prop :=
  match pk with
  | Some c => batch_rows (ac_pk_rows s') = batch_rows (ac_pk_rows s) ++ map (key_of c) rows
  | None => True
  end.
Definition same_placement (s s' : Scan) : Prop :=
  ac_carried s' = ac_carried s ∧ ac_existing s' = ac_existing s ∧ ac_written s' = ac_written s.
Definition same_counts (s s' : Scan) : Prop :=
  ac_changed s' = ac_changed s ∧ ac_rows_by_op s' = ac_rows_by_op s ∧ ac_pk_rows s' = ac_pk_rows s.

Lemma has_dml_false (ops : list TableOp) :
  has_dml ops = false → ∀ stmt, OpDml stmt ∉ ops.
Proof.
  intros He stmt Hs. apply list_elem_of_In in Hs. apply not_true_iff_false in He. apply He, existsb_exists. by eexists.
Qed.

Lemma file_fate_spec target ops pk f s fate s' :
  file_ok target f → (∀ stmt, OpDml stmt ∈ ops → well_typed target stmt) → length (ac_rows_by_op s) = length ops →
  file_fate ops (map f_name target) pk f s = Ok (fate, s') →
  fate_ok target ops f fate ∧ keys_grow pk s s' (fate_rows f fate) ∧ same_placement s s' ∧
  ac_changed s' = ac_changed s || negb (kept fate) ∧
  ac_rows_by_op s' = add_counts (ac_rows_by_op s) (dml_counts (map f_name target) ops (file_rows f)).
Proof.
  intros Hf Htyped Hl Hx. unfold file_fate in Hx. apply bind_Ok in Hx as (bs & Hr & Hx).
  apply bind_Ok in Hx as ([fate0 counts] & Hfate & Hx). apply bind_Ok in Hx as (keys & Hkeys & Hx).
  injection Hx as -> <-. specialize (Hf bs Hr).
  assert (file_rows f = batch_rows bs) as Hfr by (unfold file_rows; by rewrite Hr).
  assert (fate_ok target ops f fate ∧ counts = add_counts (ac_rows_by_op s) (dml_counts (map f_name target) ops (file_rows f)))
    as [Hok ->].
  { destruct (has_dml ops) eqn:He.
    - apply bind_Ok in Hfate as ([[ch out] cs] & Hfold & Hfate). injection Hfate as <- <-.
      apply (fold_dml_spec target) in Hfold as (D1 & D2 & D3 & D4); [|done..]. rewrite Hfr. split; [|done].
      unfold fate_ok. rewrite Hfr. destruct ch; cbn [negb].
      + destruct (N.eqb_spec (total_rows out) 0) as [Hz|Hz]; cbn; [|done]. apply survivors_nil in Hz. by rewrite Hz in D1.
      + cbn. rewrite Hfr. rewrite dml_counts_zero_rows by (by apply D3). split; [done|by apply D3].
    - injection Hfate as <- <-. pose proof (has_dml_false _ He) as Hn. unfold fate_ok. cbn. rewrite dml_rows_no_dml by done.
      rewrite dml_counts_no_dml by done. split; [done|]. by rewrite add_counts_comm, add_counts_zero. }
  split; [done|]. split; [|by split_and!; destruct fate].
  unfold keys_grow. destruct pk as [c|]; [|done]. cbn [ac_pk_rows]. rewrite batch_rows_app. f_equal.
  destruct fate as [|n|n out]; cbn [fate_rows].
  - rewrite Hfr. destruct bs as [|b bs0]; [by injection Hkeys as <-|].
    apply bind_Ok in Hkeys as (p & Hp & Hkeys). injection Hkeys as <-. rewrite batch_rows_cons, app_nil_r.
    by apply (project_columns_spec _ _ _ _ (proj1 Hf) Hp).
  - by injection Hkeys as <-.
  - destruct out as [|b out0]; [by injection Hkeys as <-|].
    apply bind_Ok in Hkeys as (p & Hp & Hkeys). injection Hkeys as <-. rewrite batch_rows_cons, app_nil_r.
    destruct Hok as [_ [Hn _]]. by apply (project_columns_spec _ _ _ _ Hn Hp).
Qed.

Lemma entry_fates_spec target ops pk es s fates s' :
  Forall (file_ok target) (live es) → (∀ stmt, OpDml stmt ∈ ops → well_typed target stmt) →
  length (ac_rows_by_op s) = length ops →
  entry_fates ops (map f_name target) pk es s = Ok (fates, s') →
  map fst fates = List.filter me_alive es ∧
  Forall (λ ef, fate_ok target ops (me_file (fst ef)) (snd ef)) fates ∧
  keys_grow pk s s' (flat_map (λ ef, fate_rows (me_file (fst ef)) (snd ef)) fates) ∧ same_placement s s' ∧
  ac_changed s' = ac_changed s || existsb (λ ef, negb (kept (snd ef))) fates ∧
  ac_rows_by_op s' = add_counts (ac_rows_by_op s) (dml_counts (map f_name target) ops (flat_map file_rows (live es))).
Proof.
  intros Hf Htyped. revert s fates s'. induction es as [|e es IH]; intros s fates s' Hl Hx; cbn [entry_fates] in Hx.
  { injection Hx as <- <-. cbn. split_and!; try done.
    - unfold keys_grow. destruct pk; [|done]. by rewrite app_nil_r.
    - by rewrite orb_false_r.
    - rewrite dml_counts_nil. by rewrite add_counts_comm, add_counts_zero. }
  unfold live in Hf |- *. cbn [List.filter] in Hf |- *. destruct (me_alive e); [|by apply IH].
  cbn [map] in Hf |- *. inversion Hf as [|? ? Hf1 Hf2]; subst.
  apply bind_Ok in Hx as ([fate s1] & H4 & Hx). apply bind_Ok in Hx as ([fates1 s2] & H5 & Hx). injection Hx as <- <-.
  apply (file_fate_spec target) in H4 as (F1 & F2 & F3 & F4 & F5); [|done..].
  destruct (IH Hf2 s1 fates1 s2) as (I1 & I2 & I3 & I4 & I5 & I6); [|done|].
  { rewrite F5, length_add_counts; [done|]. by rewrite length_dml_counts. }
  cbn [fst snd]. split_and!.
  - cbn. by rewrite I1.
  - by constructor.
  - unfold keys_grow in *. destruct pk; [|done]. rewrite I3, F2. cbn. by rewrite map_app, app_assoc.
  - destruct F3 as (? & ? & ?), I4 as (? & ? & ?). split_and!; congruence.
  - rewrite I5, F4. cbn. by rewrite orb_assoc.
  - rewrite I6, F5. cbn. by rewrite dml_counts_app, add_counts_assoc.
Qed.

Definition scan_rows (s : Scan) : list Row :=
  flat_map mf_rows (ac_carried s) ++ flat_map file_rows (map (λ x, fst (fst (fst x))) (ac_existing s)) ++
  batch_rows (default [] (ac_written s)).

Lemma place_entry_spec target ops mf e fate s s' :
  fate_ok target ops (me_file e) fate → place_entry target mf e fate s = Ok s' →
  scan_rows s' ≡ₚ scan_rows s ++ fate_rows (me_file e) fate ∧ same_counts s s'.
Proof.
  intros [_ Hok] Hx. unfold place_entry in Hx. unfold scan_rows. destruct fate as [|n|n out]; cbn [fate_rows].
  - injection Hx as <-. split; [|done]. cbn. rewrite map_app, flat_map_app. cbn. rewrite app_nil_r, <-!app_assoc.
    f_equiv. f_equiv. apply Permutation_app_comm.
  - injection Hx as <-. split; [|done]. cbn. by rewrite app_nil_r.
  - apply bind_Ok in Hx as (w & Hw & Hx). apply bind_Ok in Hw as (al & Hal & Hw). injection Hw as <-. injection Hx as <-.
    split; [|done]. cbn [ac_carried ac_existing ac_written default from_option]. apply (aligned_spec target) in Hal as [Hal _]; [|apply Hok].
    unfold id. rewrite batch_rows_app, Hal, <-!app_assoc. done.
Qed.
Lemma place_entries_spec target ops mf fates s s' :
  Forall (λ ef, fate_ok target ops (me_file (fst ef)) (snd ef)) fates → place_entries target mf fates s = Ok s' →
  scan_rows s' ≡ₚ scan_rows s ++ flat_map (λ ef, fate_rows (me_file (fst ef)) (snd ef)) fates ∧ same_counts s s'.
Proof.
  intros Hok. revert s. induction Hok as [|[e fate] fates Hf Hok IH]; intros s Hx; cbn [place_entries] in Hx.
  { injection Hx as <-. cbn. by rewrite app_nil_r. }
  apply bind_Ok in Hx as (s1 & H4 & Hx). apply (place_entry_spec target ops) in H4 as [P1 (? & ? & ?)]; [|exact Hf].
  destruct (IH s1 Hx) as [I1 (? & ? & ?)]. cbn. split; [|split_and!; congruence].
  rewrite I1, P1. by rewrite <-app_assoc.
Qed.

(** One manifest, all manifests. *)
Definition scanned (target : Schema) (ops : list TableOp) (pk : option (list (list byte))) (s s' : Scan) (rows : list Row) : Prop :=
  scan_rows s' ≡ₚ scan_rows s ++ dml_rows (map f_name target) ops rows ∧
  ac_rows_by_op s' = add_counts (ac_rows_by_op s) (dml_counts (map f_name target) ops rows) ∧
  (ac_changed s' = false → ac_changed s = false ∧ dml_counts (map f_name target) ops rows = replicate (length ops) 0) ∧
  match pk with
  | Some c => batch_rows (ac_pk_rows s') ≡ₚ batch_rows (ac_pk_rows s) ++ map (key_of c) (dml_rows (map f_name target) ops rows)
  | None => True
  end.

Lemma fates_rows target ops fates :
  Forall (λ ef : ManifestEntry * _, fate_ok target ops (me_file (fst ef)) (snd ef)) fates →
  flat_map (λ ef, fate_rows (me_file (fst ef)) (snd ef)) fates ≡ₚ
    dml_rows (map f_name target) ops (flat_map file_rows (map me_file (map fst fates))) ∧
  (existsb (λ ef, negb (kept (snd ef))) fates = false →
   flat_map (λ ef, fate_rows (me_file (fst ef)) (snd ef)) fates = flat_map file_rows (map me_file (map fst fates)) ∧
   dml_counts (map f_name target) ops (flat_map file_rows (map me_file (map fst fates))) = replicate (length ops) 0).
Proof.
  induction 1 as [|[e fate] fates [Hf Hk'] Hok [I1 I2]]; cbn in *; [by rewrite dml_rows_nil, dml_counts_nil|]. split.
  - by rewrite dml_rows_app, Hf, I1.
  - intros [Hk He]%orb_false_elim. destruct (I2 He) as [I3 I4]. rewrite I3. destruct fate; [|done..].
    split; [done|]. by apply dml_counts_app_zero.
Qed.

Lemma scan_manifest_spec target ops pk mf s s' es :
  mf_entries mf = Ok es → Forall (file_ok target) (live es) → (∀ stmt, OpDml stmt ∈ ops → well_typed target stmt) →
  length (ac_rows_by_op s) = length ops → scan_manifest ops target pk mf s = Ok s' →
  scanned target ops pk s s' (mf_rows mf).
Proof.
  intros Hes Hf Htyped Hl Hx. unfold scan_manifest in Hx. rewrite Hes in Hx. cbn in Hx.
  apply bind_Ok in Hx as ([fates s1] & Hfates & Hx).
  apply (entry_fates_spec target) in Hfates as (E1 & E2 & E3 & (P1 & P2 & P3) & E5 & E6); [|done..].
  destruct (fates_rows _ _ _ E2) as [R1 R2]. rewrite E1 in R1, R2.
  assert (scan_rows s1 = scan_rows s) as Hs1 by (unfold scan_rows; by rewrite P1, P2, P3).
  assert (mf_rows mf = flat_map file_rows (live es)) as Hmf by (unfold mf_rows; by rewrite Hes).
  assert (∀ s2, scan_rows s2 ≡ₚ scan_rows s1 ++ flat_map (λ ef, fate_rows (me_file (fst ef)) (snd ef)) fates →
    same_counts s1 s2 → scanned target ops pk s s2 (mf_rows mf)) as Hdone.
  { intros s2 Hrows (C1 & C2 & C3). rewrite Hmf. split_and!.
    - rewrite Hrows, Hs1. unfold live. by rewrite R1.
    - by rewrite C2, E6.
    - rewrite C1, E5. intros [Hc He]%orb_false_elim. split; [done|]. by apply R2.
    - unfold keys_grow in E3. destruct pk; [|done]. rewrite C3, E3. unfold live. by rewrite R1. }
  unfold rewrite_manifest in Hx. destruct (existsb _ es || _) eqn:Er.
  - apply (place_entries_spec target ops) in Hx as [Hr Hc]; [|done]. by apply Hdone.
  - injection Hx as <-. apply orb_false_elim in Er as [Ea Ek]. apply Hdone; [|done].
    unfold scan_rows. cbn. rewrite flat_map_app. cbn. rewrite app_nil_r, <-!app_assoc. f_equiv.
    assert (flat_map (λ ef, fate_rows (me_file (fst ef)) (snd ef)) fates = mf_rows mf) as ->.
    { rewrite Hmf. apply R2. rewrite <-Ek. clear. induction fates as [|[? []] fates IH]; cbn; [done|by rewrite IH|done..]. }
    rewrite (app_assoc _ _ (mf_rows mf)). apply Permutation_app_comm.
Qed.

Lemma scan_manifests_spec target ops pk mfs s s' :
  Forall (file_ok target) (flat_map (λ mf, match mf_entries mf with Ok es => live es | Err _ => [] end) mfs) →
  (∀ stmt, OpDml stmt ∈ ops → well_typed target stmt) → length (ac_rows_by_op s) = length ops →
  scan_manifests ops target pk mfs s = Ok s' → scanned target ops pk s s' (flat_map mf_rows mfs).
Proof.
  intros Hf Htyped. revert s. induction mfs as [|mf mfs IH]; intros s Hl Hx; cbn [scan_manifests flat_map] in *.
  { injection Hx as <-. unfold scanned. rewrite dml_rows_nil, dml_counts_nil, add_counts_comm, add_counts_zero, !app_nil_r by done.
    split_and!; try done. destruct pk; [|done]. by rewrite app_nil_r. }
  apply bind_Ok in Hx as (s1 & H4 & Hx). destruct (mf_entries mf) as [es|] eqn:Ees.
  2: { unfold scan_manifest in H4. by rewrite Ees in H4. }
  apply Forall_app in Hf as [Hf1 Hf2].
  apply (scan_manifest_spec target ops pk mf s s1 es) in H4 as (S1 & S2 & S3 & S4); [|done..].
  destruct (IH Hf2 s1) as (I1 & I2 & I3 & I4); [|done|].
  { rewrite S2, length_add_counts; [done|]. by rewrite length_dml_counts. }
  unfold scanned. rewrite dml_rows_app, dml_counts_app. split_and!.
  - rewrite I1, S1. by rewrite <-app_assoc.
  - by rewrite I2, S2, add_counts_assoc.
  - intros Hc. destruct (I3 Hc) as [Hc1 Hr]. destruct (S3 Hc1) as [Hc0 Hr0]. split; [done|]. by rewrite Hr, Hr0, add_counts_zero by apply length_replicate.
  - destruct pk; [|done]. rewrite I4, S4, map_app. by rewrite <-app_assoc.
Qed.

(** ** The prepared commit *)
Definition head_rows (head : option (Snapshot DataFile)) : list Row := from_option snapshot_rows [] head.
Definition head_files (head : option (Snapshot DataFile)) : list DataFile := from_option snapshot_files [] head.

(** The scan of the head, with the manifests the new snapshot carries over. *)
Definition prepared_scan (target : Schema) (ops : list TableOp) (pk : option (list (list byte))) (rows : list Row)
    (s : Scan) : Prop :=
  ac_rows_by_op s = dml_counts (map f_name target) ops rows ∧
  (ac_changed s = false → dml_counts (map f_name target) ops rows = replicate (length ops) 0) ∧
  match pk with
  | Some c => batch_rows (ac_pk_rows s) ≡ₚ map (key_of c) (dml_rows (map f_name target) ops rows)
  | None => True
  end.
Definition carried_rows (carried : list ManifestFile) (s : Scan) : list Row :=
  flat_map mf_rows carried ++ flat_map file_rows (map (λ x, fst (fst (fst x))) (ac_existing s)) ++
  batch_rows (default [] (ac_written s)).

Lemma load_manifest_list_rows (sn : Snapshot DataFile) mfs :
  load_manifest_list sn = Ok mfs → snapshot_rows sn = flat_map mf_rows mfs ∧
  snapshot_files sn = flat_map (λ mf, match mf_entries mf with Ok es => live es | Err _ => [] end) mfs.
Proof.
  unfold load_manifest_list, snapshot_rows, snapshot_files. intros (l & -> & (u & _ & Hl)%bind_Ok)%bind_Ok.
  by injection Hl as <-.
Qed.

Lemma scan_nothing target ops pk rows s :
  dml_rows (map f_name target) ops rows = rows → dml_counts (map f_name target) ops rows = replicate (length ops) 0 →
  (pk = None ∨ rows = []) → s = scan_start (length ops) → prepared_scan target ops pk rows s.
Proof.
  intros Hr Hc Hpk ->. split_and!; cbn; [done|done|]. destruct pk; [|done].
  rewrite Hr. destruct Hpk as [| ->]; done.
Qed.

Lemma scan_head_spec target ops pk head s :
  Forall (file_ok target) (head_files head) → (∀ stmt, OpDml stmt ∈ ops → well_typed target stmt) →
  scan_head ops target pk head = Ok s →
  prepared_scan target ops pk (head_rows head) s ∧
  ∀ carried, carried_manifests ops pk head s = Ok carried →
    carried_rows carried s ≡ₚ dml_rows (map f_name target) ops (head_rows head).
Proof.
  intros Hf Htyped Hs. destruct head as [sn|]; cbn in Hs, Hf; cbn [head_rows from_option carried_manifests].
  2: { injection Hs as <-. split; [apply scan_nothing; rewrite ?dml_rows_nil, ?dml_counts_nil; auto|].
       intros carried Hc. injection Hc as <-. by rewrite dml_rows_nil. }
  destruct (need_file_scan ops pk) eqn:En.
  - apply bind_Ok in Hs as (mfs & Hm & Hs). apply load_manifest_list_rows in Hm as [Hr Hfs]. rewrite Hr. rewrite Hfs in Hf.
    destruct (scan_manifests_spec target ops pk mfs (scan_start (length ops)) s Hf Htyped (length_replicate _ _) Hs) as (S1 & S2 & S3 & S4).
    split; [split_and!|].
    + rewrite S2. cbn. apply add_counts_zero, length_dml_counts.
    + intros Hc. by apply S3.
    + destruct pk; [|done]. by rewrite S4.
    + intros carried Hc. injection Hc as <-. unfold carried_rows. unfold scan_rows in S1. by rewrite S1.
  - injection Hs as <-. apply orb_false_elim in En as [Hd Hpk]. pose proof (has_dml_false _ Hd) as Hn.
    split.
    + apply scan_nothing; [by apply dml_rows_no_dml|by apply dml_counts_no_dml|destruct pk; [done|by left]|done].
    + intros carried Hc. apply load_manifest_list_rows in Hc as [Hr _]. rewrite dml_rows_no_dml, Hr by done.
      unfold carried_rows. cbn. by rewrite app_nil_r.
Qed.

Lemma new_manifests_rows (carried : list ManifestFile) id seq (s : Scan) added :
  flat_map mf_rows (carried ++ m0_manifest id seq s ++ m1_manifest id seq added) =
  flat_map mf_rows carried ++ flat_map file_rows (map (λ x, fst (fst (fst x))) (ac_existing s)) ++ flat_map file_rows added.
Proof.
  rewrite !flat_map_app. f_equal. f_equal.
  - unfold m0_manifest.
    assert (∀ ex de, flat_map mf_rows [{| mf_data := true; mf_seq := seq; mf_added_snapshot := id;
        mf_entries := Ok
          (map (λ '(f, snap, sq, fseq), {| me_alive := true; me_file := f; me_snapshot_id := Some snap;
                  me_seq := Some sq; me_file_seq := match fseq with Some q => Some q | None => Some sq end |}) ex ++
           map (λ '(f, sq, fseq), {| me_alive := false; me_file := f; me_snapshot_id := Some id;
                  me_seq := Some sq; me_file_seq := match fseq with Some q => Some q | None => Some sq end |}) de) |}] =
      flat_map file_rows (map (λ x : DataFile * Z * Z * option Z, fst (fst (fst x))) ex)) as Hm.
    { intros ex de. cbn. rewrite app_nil_r. unfold mf_rows, live. cbn. rewrite List.filter_app, map_app, flat_map_app.
      rewrite <-(app_nil_r (flat_map file_rows (map _ ex))). f_equal.
      - induction ex as [|[[[f sn] sq] fs] ex IH]; cbn; [done|]. by rewrite IH.
      - induction de as [|[[f sq] fs] de IH]; cbn; [done|]. by rewrite IH. }
    destruct (ac_existing s) as [|e ex] eqn:Ee; [destruct (ac_deleted s) as [|d de]; [done|]|].
    + apply (Hm [] (d :: de)).
    + apply Hm.
  - destruct added as [|a added]; [done|]. cbn. rewrite app_nil_r. unfold mf_rows, live. cbn. f_equal.
    induction added as [|b added IH]; cbn; [done|]. by rewrite IH.
Qed.

Lemma new_snapshot_rows (written : list (list RecordBatch)) carried (s : Scan) added files id seq :
  write_rows (ac_written s) written = Ok added →
  flat_map mf_rows (carried ++ m0_manifest id seq s ++ m1_manifest id seq (added ++ files)) ≡ₚ
    carried_rows carried s ++ batch_rows (concat written) ++ flat_map file_rows files.
Proof.
  intros Ha%added_spec. rewrite new_manifests_rows, flat_map_app, Ha. unfold carried_rows. by rewrite <-!app_assoc.
Qed.

(** No key twice and none null, if the checker says nothing. *)
Lemma check_pk_spec cols rows u :
  check_pk cols rows = Good u → NoDup (batch_rows rows) ∧ Forall (λ r, has_null r = false) (batch_rows rows).
Proof.
  intros Hc. unfold check_pk in Hc.
  assert (batch_rows (List.filter (λ b, (0 <? num_rows b)%nat) rows) = batch_rows rows) as Hne.
  { clear. induction rows as [|b rows IH]; [done|]. cbn [List.filter]. rewrite (batch_rows_cons b rows), <-IH.
    destruct (_ <? _)%nat eqn:E; [done|]. apply Nat.ltb_ge in E. rewrite num_rows_of in E. by destruct (rows_of b); [|cbn in E; lia]. }
  rewrite <-Hne. clear Hne. destruct (List.filter _ rows) as [|b bs] eqn:Ef; [by split; constructor|]. rewrite <-Ef in *. clear Ef b bs.
  generalize dependent (List.filter (λ b, (0 <? num_rows b)%nat) rows). intros bs Hc.
  apply attempt_bind_Good in Hc as (n & Hn & Hc). apply lift_Good in Hn. unfold count_query in Hn.
  apply bind_Ok in Hn as (out & Ho & Hn). injection Hn as <-. rewrite (nulls_of _ _ _ Ho) in Hc.
  destruct (N.ltb_spec 0 (count_rows has_null (batch_rows bs))) as [|Hz]; [done|].
  apply attempt_bind_Good in Hc as (d & Hd & Hc). apply lift_Good in Hd.
  destruct (N.ltb_spec 0 (total_rows d)) as [|Hdz]; [done|]. split.
  - apply (duplicates_of _ _ _ Hd). apply survivors_nil. lia.
  - clear -Hz. unfold count_rows in Hz. apply Forall_forall. intros r Hr. apply not_true_is_false. intros Hn.
    assert (r ∈ List.filter has_null (batch_rows bs)) as Hin by (apply list_elem_of_In, filter_In; split; [by apply list_elem_of_In|done]).
    destruct (List.filter _ _); [by apply not_elem_of_nil in Hin|cbn in Hz; lia].
Qed.

(** What [prepare_commit] has put together when it returns. *)
Lemma prepare_commit_inv t ops pk branch props id out head :
  branch_head t branch = Ok head → prepare_commit t ops pk branch props id = Good out →
  ∃ s counts written keys n1, scan_head ops (tb_schema t) pk head = Ok s ∧
    fold_appends (tb_schema t) pk ops (ac_rows_by_op s) = Ok (counts, written, keys, n1) ∧
    let '(counts', files, n2) := fold_prewritten ops counts in
    match out with
    | None => ac_changed s = false ∧ n1 + n2 = 0
    | Some p => ∃ added carried,
      write_rows (ac_written s) written = Ok added ∧ carried_manifests ops pk head s = Ok carried ∧
      rq_head (pc_request p) = sn_id <$> head ∧ pc_rows_by_op p = counts' ∧
      sn_manifests (rq_snapshot (pc_request p)) =
        Ok (carried ++ m0_manifest id (tb_next_seq t) s ++ m1_manifest id (tb_next_seq t) (added ++ files)) ∧
      match pk with Some c => check_pk c (ac_pk_rows s ++ keys) = Good tt | None => True end
    end.
Proof.
  intros Hh Hp. unfold prepare_commit in Hp.
  apply attempt_bind_Good in Hp as (? & _ & Hp). apply attempt_bind_Good in Hp as (? & _ & Hp).
  rewrite Hh in Hp. cbn [lift attempt_bind mbind] in Hp.
  apply attempt_bind_Good in Hp as (? & _ & Hp). apply attempt_bind_Good in Hp as (s & Hs & Hp). apply lift_Good in Hs.
  apply attempt_bind_Good in Hp as ([[[counts written] keys] n1] & Hfa & Hp). apply lift_Good in Hfa.
  exists s, counts, written, keys, n1. split; [done|]. split; [done|].
  destruct (fold_prewritten ops counts) as [[counts' files] n2].
  destruct (negb (ac_changed s) && _) eqn:Eq.
  { injection Hp as <-. apply andb_true_iff in Eq as [E1 E2]. apply negb_true_iff in E1. apply N.eqb_eq in E2. done. }
  apply attempt_bind_Good in Hp as (u & Hk & Hp). apply attempt_bind_Good in Hp as (added & Ha & Hp). apply lift_Good in Ha.
  apply attempt_bind_Good in Hp as (carried & Hc & Hp). apply lift_Good in Hc. injection Hp as <-.
  exists added, carried. split_and!; try done. destruct pk; [|done]. by destruct u.
Qed.

(** Nothing is counted for a file before its own turn. *)
Definition files_zero (ops : list TableOp) (counts : list N) : Prop :=
  Forall2 (λ op n, match op with OpAppendFiles _ => n = 0 | _ => True end) ops counts.
Lemma plain_files ops counts : plain_zero ops counts → files_zero ops counts.
Proof. intros Hz. eapply Forall2_impl; [exact Hz|]. by intros []. Qed.
Lemma files_zero_add ops a b : files_zero ops a → files_zero ops b → files_zero ops (add_counts a b).
Proof.
  intros Ha. revert b. induction Ha as [|op x ops a Hx Ha IH]; intros b Hb; inversion Hb; subst; cbn; constructor; [|by apply IH].
  destruct op; [done|lia|done].
Qed.
Lemma buffered_files_zero cols ops : files_zero ops (buffered_counts cols ops).
Proof.
  induction ops as [|[bs|fs|stmt] ops IH]; cbn; constructor; try done.
  apply files_zero_add; [apply plain_files, dml_counts_zero|done].
Qed.
Lemma files_zero_lookup ops counts i fs : files_zero ops counts → ops !! i = Some (OpAppendFiles fs) → counts !! i = Some 0.
Proof. intros Hz Hi. destruct (Forall2_lookup_l _ _ _ _ _ Hz Hi) as (n & -> & ->). done. Qed.

(** The rows the parts of a commit add up to. *)
Lemma folds_spec target pk ops rows s counts written keys n1 :
  prepared_scan target ops pk rows s → Forall (op_ok target) ops → files_last ops →
  fold_appends target pk ops (ac_rows_by_op s) = Ok (counts, written, keys, n1) →
  batch_rows (concat written) ≡ₚ buffered_rows (map f_name target) ops ∧ n1 = N.of_nat (length (buffered_rows (map f_name target) ops)) ∧
  match pk with Some c => batch_rows keys = map (key_of c) (batch_rows (concat written)) | None => True end ∧
  let '(counts', files, n2) := fold_prewritten ops counts in
  counts' = op_counts (map f_name target) ops rows ∧ flat_map file_rows files = ingested_rows ops ∧
  n2 = N.of_nat (length (ingested_rows ops)).
Proof.
  intros (Hc & _ & _) Hops Hlast Hf.
  pose proof (dml_counts_zero (map f_name target) ops rows) as Hz. rewrite <-Hc in Hz.
  destruct (fold_appends_spec target pk ops _ _ _ _ _ Hops Hz Hf) as (F1 & F2 & F3 & F4).
  split; [done|]. split; [done|]. split; [by destruct pk|].
  pose proof (fold_prewritten_spec target ops counts Hops) as Hp.
  destruct (fold_prewritten ops counts) as [[cs files] n2]. destruct Hp as (P1 & P2 & P3).
  - rewrite F1, length_add_counts; [by rewrite Hc, length_dml_counts|]. by rewrite Hc, length_dml_counts, length_buffered_counts.
  - intros i fs. apply files_zero_lookup. rewrite F1. apply files_zero_add; [by apply plain_files|apply buffered_files_zero].
  - split_and!; [|done|done]. rewrite P1, F1, Hc, op_counts_split by done. by rewrite add_counts_assoc.
Qed.

(** What a prepared commit holds, or why there is none. *)
Lemma prepare_commit_spec t ops pk branch props id out head :
  branch_head t branch = Ok head → Forall (op_ok (tb_schema t)) ops → files_last ops →
  Forall (file_ok (tb_schema t)) (head_files head) →
  prepare_commit t ops pk branch props id = Good out →
  match out with
  | Some p =>
    snapshot_rows (rq_snapshot (pc_request p)) ≡ₚ apply_ops (tb_columns t) ops (head_rows head) ∧
    pc_rows_by_op p = op_counts (tb_columns t) ops (head_rows head) ∧ rq_head (pc_request p) = sn_id <$> head
  | None =>
    dml_counts (tb_columns t) ops (head_rows head) = replicate (length ops) 0 ∧
    buffered_rows (tb_columns t) ops = [] ∧ ingested_rows ops = []
  end.
Proof.
  intros Hh Hops Hlast Hfiles Hp.
  destruct (prepare_commit_inv _ _ _ _ _ _ _ _ Hh Hp) as (s & counts & written & keys & n1 & Hs & Hfa & Hout).
  destruct (scan_head_spec _ _ _ _ _ Hfiles (typed_of _ _ Hops) Hs) as [Hscan Hcar].
  destruct (folds_spec _ _ _ _ _ _ _ _ _ Hscan Hops Hlast Hfa) as (F1 & F2 & F3 & F4).
  destruct (fold_prewritten ops counts) as [[counts' files] n2]. destruct F4 as (F4 & F5 & F6).
  unfold tb_columns in *. destruct out as [p|].
  - destruct Hout as (added & carried & Ha & Hc & Hq & Hn & Hm & _). split_and!; [|by rewrite Hn|done].
    unfold snapshot_rows. rewrite Hm, (new_snapshot_rows _ _ _ _ _ _ _ Ha), (Hcar _ Hc), F1, F5.
    by rewrite apply_ops_split.
  - destruct Hout as [Hu Hz]. destruct Hscan as (_ & Hsame & _).
    split_and!; [by apply Hsame|apply length_zero_iff_nil; lia..].
Qed.
Lemma nothing_to_do columns ops rows :
  files_last ops → dml_counts columns ops rows = replicate (length ops) 0 → buffered_rows columns ops = [] →
  ingested_rows ops = [] → apply_ops columns ops rows ≡ₚ rows.
Proof.
  intros Hl Hd Hb Hi. rewrite apply_ops_split, Hb, Hi, dml_counts_zero_rows by done. by rewrite app_nil_r.
Qed.

(** C6: The whole commit: the head's rows with the operations applied in order, and
    the counts the client is told are those of the statements. *)
Theorem prepare_commit_applies_ops t ops pk branch props id out head :
  branch_head t branch = Ok head → Forall (op_ok (tb_schema t)) ops → files_last ops →
  Forall (file_ok (tb_schema t)) (head_files head) →
  prepare_commit t ops pk branch props id = Good out →
  match out with
  | Some p =>
    snapshot_rows (rq_snapshot (pc_request p)) ≡ₚ apply_ops (tb_columns t) ops (head_rows head) ∧
    pc_rows_by_op p = op_counts (tb_columns t) ops (head_rows head) ∧ rq_head (pc_request p) = sn_id <$> head
  | None => apply_ops (tb_columns t) ops (head_rows head) ≡ₚ head_rows head
  end.
Proof.
  intros Hh Hops Hlast Hfiles Hp.
  pose proof (prepare_commit_spec _ _ _ _ _ _ _ _ Hh Hops Hlast Hfiles Hp) as Hs.
  destruct out as [p|]; [done|]. destruct Hs as (? & ? & ?). by apply nothing_to_do.
Qed.

(** With a primary key enforced, the snapshot that is posted has no duplicate
    and no null key, whatever the head had. *)
Lemma pk_enforced t ops cols branch props id p head :
  branch_head t branch = Ok head → Forall (op_ok (tb_schema t)) ops → (∀ fs, OpAppendFiles fs ∉ ops) →
  Forall (file_ok (tb_schema t)) (head_files head) →
  prepare_commit t ops (Some cols) branch props id = Good (Some p) →
  NoDup (map (key_of cols) (snapshot_rows (rq_snapshot (pc_request p)))) ∧
  Forall (λ r, has_null (key_of cols r) = false) (snapshot_rows (rq_snapshot (pc_request p))).
Proof.
  intros Hh Hops Hnf Hfiles Hp.
  assert (files_last ops ∧ ingested_rows ops = []) as [Hlast Hno].
  { clear -Hnf. induction ops as [|[bs|fs|stmt] ops IH]; cbn; [done|apply IH; set_solver| |apply IH; set_solver].
    destruct (Hnf fs). by left. }
  destruct (prepare_commit_inv _ _ _ _ _ _ _ _ Hh Hp) as (s & counts & written & keys & n1 & Hs & Hfa & Hout).
  destruct (scan_head_spec _ _ _ _ _ Hfiles (typed_of _ _ Hops) Hs) as [Hscan Hcar].
  destruct (folds_spec _ _ _ _ _ _ _ _ _ Hscan Hops Hlast Hfa) as (F1 & F2 & F3 & F4).
  destruct (fold_prewritten ops counts) as [[counts' files] n2]. destruct F4 as (_ & F5 & _).
  destruct Hout as (added & carried & Ha & Hc & _ & _ & Hm & Hpk). apply check_pk_spec in Hpk as [Hnd Hnn].
  destruct Hscan as (_ & _ & Hkeys). rewrite batch_rows_app, F3 in Hnd, Hnn.
  assert (snapshot_rows (rq_snapshot (pc_request p)) ≡ₚ
    dml_rows (map f_name (tb_schema t)) ops (head_rows head) ++ batch_rows (concat written)) as Hrows.
  { unfold snapshot_rows. rewrite Hm, (new_snapshot_rows _ _ _ _ _ _ _ Ha), (Hcar _ Hc), F5, Hno. by rewrite app_nil_r. }
  assert (batch_rows (ac_pk_rows s) ++ map (key_of cols) (batch_rows (concat written)) ≡ₚ
    map (key_of cols) (snapshot_rows (rq_snapshot (pc_request p)))) as Hk.
  { rewrite Hkeys, (Permutation_map (key_of cols) Hrows), map_app. done. }
  rewrite Hk in Hnd, Hnn. split; [done|]. by apply Forall_map in Hnn.
Qed.
End Rows.
