(* ===== verification/Engine.v ===== *)
(** * Commits of the engine (src/icegres/src/overwrite.rs)

    The loops around [prepare_commit]: autocommit statements and inserts, which
    load, prepare and post until the catalog accepts, and the pinned commits of
    transactions, which do not retry.  The REST catalog is [Catalog]; its state
    also holds what other servers do to the tables. *)
From S2P Require Import Prelude Text TailNames Keyed TableOps Freshness Overwrite.
#[local] Open Scope N_scope.

(** ** The catalog *)
Class Catalog (W DataFile : Type) := {
  load_table : TableIdent → W → W * result (Table DataFile);
  post_table : list byte → list byte → CommitTableRequest DataFile → W → W * result (N * string);  (* status, body *)
  post_changes : list (CommitTableRequest DataFile) → W → W * result (N * string);
  post_probe : W → W * result (N * string);                 (* an empty change, without identifier *)
  unique_snapshot_id : Table DataFile → W → W * Z;          (* drawn until the table has no such snapshot *)
  invalidate_read_cache : list byte → W → W;                (* Freshness.invalidate_key *)
}.

(** ** The engine *)
Record OverwriteEngine := { enforce_pk : bool; branch : string }.
(** [sv_endpoint] is the once-cell of the multi-table capability. *)
Record Server {W} := { sv_world : W; sv_endpoint : option bool }.
Arguments Server : clear implicits.
Definition eng (W A : Type) : Type := Server W → Server W * attempt A.
#[export] Instance eng_ret W : MRet (eng W) := λ A a sv, (sv, Good a).
#[export] Instance eng_bind W : MBind (eng W) := λ A B f m sv,
  match m sv with (sv', Good a) => f a sv' | (sv', Bad e) => (sv', Bad e) end.
Definition of_attempt {W A} (r : attempt A) : eng W A := λ sv, (sv, r).
Definition of_result {W A} (r : result A) : eng W A := of_attempt (lift r).
Definition fail_with {W A} (e : EngineError) : eng W A := of_attempt (Bad e).
Definition in_world {W A} (m : W → W * A) : eng W A := λ sv,
  let '(w, a) := m (sv_world sv) in ({| sv_world := w; sv_endpoint := sv_endpoint sv |}, Good a).
Definition in_world_res {W A} (m : W → W * result A) : eng W A := λ sv,
  let '(w, a) := m (sv_world sv) in ({| sv_world := w; sv_endpoint := sv_endpoint sv |}, lift a).

Record DmlOutcome := { do_rows : N; do_attempts : N; do_snapshot_id : option Z }.
Inductive TxnCommitOutcome := TxnCommitted | TxnConflict (msg : string) | TxnUnsupported.
Inductive MultiTableCommit := MultiCommitted | MultiUnsupported.

(** [StatusCode] *)
Definition is_success (status : N) : bool := (200 <=? status) && (status <? 300).
Definition CONFLICT : N := 409.

(** [txn_endpoint_capability] *)
Definition txn_endpoint_capability (status : N) : option bool :=
  if is_success status || (status =? CONFLICT) then Some true
  else if (status =? 400) || (status =? 422) then Some true
  else if (status =? 404) || (status =? 405) || (status =? 501) then Some false
  else None.

Section Engine.
Context {W RecordBatch ArrayRef DataFile : Type} `{Columnar RecordBatch ArrayRef}
  `{SqlEngine RecordBatch} `{DataFiles RecordBatch DataFile} `{Catalog W DataFile}.
#[local] Abbreviation TableOp := (TableOp RecordBatch DataFile).
#[local] Abbreviation Table := (Table DataFile).
#[local] Abbreviation CommitTableRequest := (CommitTableRequest DataFile).
#[local] Abbreviation PreparedCommit := (PreparedCommit DataFile).
#[local] Abbreviation eng := (eng W).

Definition load (ident : TableIdent) : eng Table := in_world_res (load_table ident).

(** [post_commit]; [send] posts the request. *)
Definition post_commit_inner (send : W → W * result (N * string)) : eng CommitOutcome :=
  '(status, body) ← in_world_res send;
  if is_success status then mret Committed
  else if status =? CONFLICT then mret (Conflict body)
  else fail_with (OtherError "catalog rejected commit").
Definition invalidating {A} (keys : list (list byte)) (m : eng A) : eng A := λ sv,
  let '(sv, r) := m sv in
  ({| sv_world := foldl (λ w k, invalidate_read_cache k w) (sv_world sv) keys; sv_endpoint := sv_endpoint sv |}, r).
Definition post_commit (namespace table : list byte) (rq : CommitTableRequest) : eng CommitOutcome :=
  invalidating [commit_key namespace table] (post_commit_inner (post_table namespace table rq)).
Definition post_prepared (ident : TableIdent) (p : PreparedCommit) : eng CommitOutcome :=
  post_commit (to_url_string (namespace ident)) (table_name ident) (pc_request p).

(** [pk_columns] *)
Definition pk_columns (e : OverwriteEngine) (t : Table) : result (option (list (list byte))) :=
  if enforce_pk e then pk_columns_of t else Ok None.

Definition prepare (e : OverwriteEngine) (t : Table) (ops : list TableOp) (pk : option (list (list byte)))
    : eng (option PreparedCommit) :=
  id ← in_world (unique_snapshot_id t);
  of_attempt (prepare_commit t ops pk (branch e) [] id).

(** The loop of [execute], [insert_enforced] and [append_stream]: [tries] attempts
    remain, [attempt] is the next one's number. *)
Fixpoint commit_attempts (e : OverwriteEngine) (pk_of : Table → result (option (list (list byte))))
    (post : PreparedCommit → eng CommitOutcome) (rows_of : PreparedCommit → N) (ident : TableIdent) (ops : list TableOp)
    (tries : nat) (attempt : N) (preloaded : option Table) : eng DmlOutcome :=
  match tries with
  | O => fail_with (OtherError "lost the optimistic-concurrency race")
  | S tries =>
    table ← match preloaded with Some t => mret t | None => load ident end;
    pk ← of_result (pk_of table);
    prepared ← prepare e table ops pk;
    match prepared with
    | None => mret {| do_rows := 0; do_attempts := attempt; do_snapshot_id := None |}
    | Some p =>
      outcome ← post p;
      match outcome with
      | Committed => mret {| do_rows := rows_of p; do_attempts := attempt; do_snapshot_id := Some (pc_snapshot_id p) |}
      | Conflict _ => commit_attempts e pk_of post rows_of ident ops tries (attempt + 1) None
      end
    end
  end.

Definition stmt_ident (stmt : DmlStatement) : TableIdent :=
  {| namespace := [dml_namespace stmt]; table_name := dml_table stmt |}.
(** [execute] *)
Definition execute (e : OverwriteEngine) (stmt : DmlStatement) : eng DmlOutcome :=
  commit_attempts e (pk_columns e) (λ p, post_commit (dml_namespace stmt) (dml_table stmt) (pc_request p))
    (λ p, default 0 (head (pc_rows_by_op p))) (stmt_ident stmt) [OpDml stmt] MAX_COMMIT_ATTEMPTS 1 None.
(** [insert_enforced] *)
Definition insert_enforced (e : OverwriteEngine) (ident : TableIdent) (batches : list RecordBatch)
    (preloaded : option Table) : eng DmlOutcome :=
  commit_attempts e (pk_columns e) (post_prepared ident) (λ _, total_rows batches) ident [OpAppend batches]
    MAX_COMMIT_ATTEMPTS 1 preloaded.

(** [append_stream]: the stream's batches are written as they come, then the
    files are committed. *)
Fixpoint ingest (target : Schema) (stream : list (result RecordBatch)) : result (N * list RecordBatch) :=
  match stream with
  | [] => Ok (0, [])
  | item :: stream =>
    b ← item;
    if (num_rows b =? 0)%nat then ingest target stream else
    aligned ← align_batch b target;
    '(rows, written) ← ingest target stream;
    Ok (N.of_nat (num_rows b) + rows, aligned :: written)
  end.
Definition append_stream (e : OverwriteEngine) (ident : TableIdent) (stream : list (result RecordBatch)) : eng DmlOutcome :=
  table ← load ident;
  '(rows, written) ← of_result (ingest (tb_schema table) stream);
  files ← of_result (write_data_files written);
  if (rows =? 0) || match files with [] => true | _ => false end
  then mret {| do_rows := 0; do_attempts := 0; do_snapshot_id := None |}
  else commit_attempts e (λ _, Ok None) (post_prepared ident) (λ _, rows) ident [OpAppendFiles files]
         MAX_COMMIT_ATTEMPTS 1 None.

(** ** Pinned commits *)

(** The load, the check of the pin and the preparation. *)
Definition prepare_pinned (e : OverwriteEngine) (ident : TableIdent) (expected : option Z) (ops : list TableOp)
    : eng (option PreparedCommit) :=
  table ← load ident;
  fresh ← of_result (branch_head table (branch e));
  if decide (sn_id <$> fresh = expected) then
    pk ← of_result (pk_columns e table);
    prepare e table ops pk
  else fail_with (CommitConflict "the branch moved since the transaction's pin").
(** [commit_pinned] *)
Definition commit_pinned (e : OverwriteEngine) (ident : TableIdent) (expected : option Z) (ops : list TableOp)
    : eng (option Z) :=
  prepared ← prepare_pinned e ident expected ops;
  match prepared with
  | None => mret None
  | Some p =>
    outcome ← post_prepared ident p;
    match outcome with
    | Committed => mret (Some (pc_snapshot_id p))
    | Conflict msg => fail_with (CommitConflict msg)
    end
  end.

(** [probe_txn_endpoint]: only a conclusive answer is kept. *)
Definition probe_txn_endpoint : eng bool := λ sv,
  match sv_endpoint sv with
  | Some known => (sv, Good known)
  | None =>
    let '(w, r) := post_probe (sv_world sv) in
    match r with
    | Err msg => ({| sv_world := w; sv_endpoint := None |}, Bad (OtherError msg))
    | Ok (status, _) =>
      match txn_endpoint_capability status with
      | Some supported => ({| sv_world := w; sv_endpoint := Some supported |}, Good supported)
      | None => ({| sv_world := w; sv_endpoint := None |}, Bad (OtherError "capability undetermined"))
      end
    end
  end.
(** [post_transaction] *)
Definition post_transaction_inner (send : W → W * result (N * string)) : eng TxnCommitOutcome :=
  supported ← probe_txn_endpoint;
  if negb supported then mret TxnUnsupported else
  '(status, body) ← in_world_res send;
  if is_success status then mret TxnCommitted
  else if status =? CONFLICT then mret (TxnConflict body)
  else fail_with (OtherError "catalog rejected transaction commit").
Definition post_transaction_to (send : W → W * result (N * string)) (idents : list TableIdent) : eng TxnCommitOutcome := λ sv,
  let '(sv', r) := post_transaction_inner send sv in
  match r with
  | Good TxnUnsupported => (sv', r)
  | _ => invalidating (map table_key idents) (λ sv, (sv, r)) sv'
  end.
Definition post_transaction (rqs : list CommitTableRequest) : eng TxnCommitOutcome :=
  post_transaction_to (post_changes rqs) (map rq_ident rqs).
Fixpoint prepare_all (e : OverwriteEngine) (tables : list (TableIdent * option Z * list TableOp))
    : eng (list (option PreparedCommit)) :=
  match tables with
  | [] => mret []
  | (ident, expected, ops) :: tables =>
    p ← prepare_pinned e ident expected ops;
    ps ← prepare_all e tables;
    mret (p :: ps)
  end.
(** [commit_pinned_multi] *)
Definition commit_pinned_multi (e : OverwriteEngine) (tables : list (TableIdent * option Z * list TableOp))
    : eng MultiTableCommit :=
  supported ← probe_txn_endpoint;
  if negb supported then mret MultiUnsupported else
  prepared ← prepare_all e tables;
  match omap id prepared with
  | [] => mret MultiCommitted
  | live =>
    outcome ← post_transaction (map pc_request live);
    match outcome with
    | TxnCommitted => mret MultiCommitted
    | TxnConflict msg => fail_with (CommitConflict msg)
    | TxnUnsupported => mret MultiUnsupported
    end
  end.
End Engine.
