(* ===== verification/EngineLog.v ===== *)
(** * What the catalog makes of the engine's commits

    The catalog is seen as the log of the moves of its branch heads, ours and
    others'.  An autocommit statement makes at most one move, and the move it
    reports was applied to the head it read. *)
From S2P Require Import Prelude Text TailNames Keyed TableOps Freshness Overwrite OverwriteRows Engine.
#[local] Open Scope N_scope.

(** ** The log *)
Record Move {DataFile} := {
  mv_mine : bool; mv_ident : TableIdent; mv_branch : string; mv_head : option (Snapshot DataFile);
}.
Arguments Move : clear implicits.
Definition same_ref {DataFile} (t : TableIdent) (b : string) (m : Move DataFile) : bool :=
  bool_decide (mv_ident m = t) && String.eqb (mv_branch m) b.
Definition head_of {DataFile} (l : list (Move DataFile)) (t : TableIdent) (b : string) : option (Snapshot DataFile) :=
  match last (List.filter (same_ref t b) l) with Some m => mv_head m | None => None end.
Definition own {DataFile} (l : list (Move DataFile)) : list (Move DataFile) := List.filter mv_mine l.
Definition move_of {DataFile} (rq : CommitTableRequest DataFile) : Move DataFile :=
  {| mv_mine := true; mv_ident := rq_ident rq; mv_branch := rq_branch rq; mv_head := Some (rq_snapshot rq) |}.
(** All changes of a request, one after the other, on the heads it requires. *)
Definition applied {DataFile} (rqs : list (CommitTableRequest DataFile)) (before new : list (Move DataFile)) : Prop :=
  ∃ l1 l2, new = l1 ++ map move_of rqs ++ l2 ∧ own l1 = [] ∧ own l2 = [] ∧
    ∀ rq, rq ∈ rqs → sn_id <$> head_of (before ++ l1) (rq_ident rq) (rq_branch rq) = rq_head rq.
(** A 2xx answer says the changes were applied, a 409 that none was; after any
    other answer, or none, either may be so. *)
Definition answered {DataFile} (rqs : list (CommitTableRequest DataFile)) (before new : list (Move DataFile))
    (r : result (N * string)) : Prop :=
  match r with
  | Ok (status, _) =>
    if is_success status then applied rqs before new
    else if status =? CONFLICT then own new = [] else own new = [] ∨ applied rqs before new
  | Err _ => own new = [] ∨ applied rqs before new
  end.

(** The Iceberg REST catalog: a load reads the heads of one moment, a snapshot
    id names one snapshot of its table.  The schemas are those of the period
    looked at. *)
Class CatalogLaws (W DataFile : Type) `{Catalog W DataFile} := {
  log : W → list (Move DataFile);
  table_schema : TableIdent → Schema;
  load_log t w w' r : load_table t w = (w', r) → ∃ l, log w' = log w ++ l ∧ own l = [] ∧
    ∀ tb, r = Ok tb → tb_ident tb = t ∧ tb_schema tb = table_schema t ∧
      ∃ l1 l2, l = l1 ++ l2 ∧ ∀ b h, branch_head tb b = Ok h → h = head_of (log w ++ l1) t b;
  post_log ns t rq w w' r : post_table ns t rq w = (w', r) → ∃ l, log w' = log w ++ l ∧ answered [rq] (log w) l r;
  changes_log rqs w w' r : post_changes rqs w = (w', r) → ∃ l, log w' = log w ++ l ∧ answered rqs (log w) l r;
  probe_log w w' r : post_probe w = (w', r) → ∃ l, log w' = log w ++ l ∧ own l = [];
  unique_id_log tb w : log (fst (unique_snapshot_id tb w)) = log w;
  invalidate_log k w : log (invalidate_read_cache k w) = log w;
  snapshot_ids w m m' s s' : m ∈ log w → m' ∈ log w → mv_ident m = mv_ident m' → mv_head m = Some s → mv_head m' = Some s' →
    sn_id s = sn_id s' → s = s';
}.

Section Log.
Context {W RecordBatch ArrayRef DataFile Row : Type} `{EngineLaws RecordBatch ArrayRef DataFile Row} `{CatalogLaws W DataFile}.
#[local] Abbreviation Move := (Move DataFile).
#[local] Abbreviation TableOp := (TableOp RecordBatch DataFile).
#[local] Abbreviation PreparedCommit := (PreparedCommit DataFile).

Definition the_log (sv : Server W) : list Move := log (sv_world sv).

(** Every file of the table's snapshots holds rows of its schema. *)
Definition files_ok (t : TableIdent) (l : list Move) : Prop :=
  ∀ m s, m ∈ l → mv_ident m = t → mv_head m = Some s → Forall (file_ok (table_schema t)) (snapshot_files s).

Lemma own_app (a b : list Move) : own (a ++ b) = own a ++ own b.
Proof. apply List.filter_app. Qed.
Lemma head_of_in (l : list Move) t b s : head_of l t b = Some s → ∃ m, m ∈ l ∧ mv_ident m = t ∧ mv_head m = Some s.
Proof.
  unfold head_of. destruct (last _) as [m|] eqn:El; [|done]. intros Hs. exists m.
  apply last_Some_elem_of in El. apply list_elem_of_In, filter_In in El as [Hin Hm]. apply andb_true_iff in Hm as [Hm _].
  apply bool_decide_eq_true in Hm. split; [by apply list_elem_of_In|done].
Qed.
Lemma head_files_ok t b (l1 l2 : list Move) : files_ok t (l1 ++ l2) → Forall (file_ok (table_schema t)) (head_files (head_of l1 t b)).
Proof.
  intros Hf. destruct (head_of l1 t b) as [s|] eqn:Eh; cbn; [|constructor]. apply head_of_in in Eh as (m & Hm & Ht & Hs).
  apply (Hf m); [|done..]. apply elem_of_app. by left.
Qed.
Lemma files_ok_prefix t (l1 l2 : list Move) : files_ok t (l1 ++ l2) → files_ok t l1.
Proof. intros Hf m s Hm. apply Hf. apply elem_of_app. by left. Qed.
(** The same id is the same snapshot. *)
Lemma head_of_same w (l l' k k' : list Move) t b : log w = l ++ k → log w = l' ++ k' →
  sn_id <$> head_of l t b = sn_id <$> head_of l' t b → head_of l t b = head_of l' t b.
Proof.
  intros Hl Hl' He. destruct (head_of l t b) as [s|] eqn:E1, (head_of l' t b) as [s'|] eqn:E2; try done.
  injection He as He. apply head_of_in in E1 as (m & Hm & Ht & Hs). apply head_of_in in E2 as (m' & Hm' & Ht' & Hs').
  f_equal. apply (snapshot_ids w m m' s s'); try done.
  - rewrite Hl. apply elem_of_app. by left.
  - rewrite Hl'. apply elem_of_app. by left.
  - by rewrite Ht, Ht'.
Qed.

(** ** The steps *)
Lemma load_spec t sv sv' r :
  load t sv = (sv', r) → ∃ l, the_log sv' = the_log sv ++ l ∧ own l = [] ∧ sv_endpoint sv' = sv_endpoint sv ∧
    ∀ tb, r = Good tb → tb_ident tb = t ∧ tb_schema tb = table_schema t ∧
      ∃ l1 l2, l = l1 ++ l2 ∧ ∀ b h, branch_head tb b = Ok h → h = head_of (the_log sv ++ l1) t b.
Proof.
  unfold load, in_world_res, the_log. destruct (load_table t (sv_world sv)) as [w a] eqn:El. intros Hr.
  injection Hr as <- <-. cbn. apply load_log in El as (l & Hl & Ho & Hg). exists l. split_and!; try done.
  intros tb Htb%lift_Good. by apply Hg.
Qed.

Lemma foldl_invalidate_log ks w : log (foldl (λ w k, invalidate_read_cache k w) w ks) = log w.
Proof. revert w. induction ks as [|k ks IH]; intros w; cbn; [done|]. by rewrite IH, invalidate_log. Qed.

(** What a post did, by what the engine makes of the answer. *)
Definition posted (rq : CommitTableRequest DataFile) (before new : list Move) (r : attempt CommitOutcome) : Prop :=
  match r with
  | Good Committed => applied [rq] before new
  | Good (Conflict _) => own new = []
  | Bad e => (own new = [] ∨ applied [rq] before new) ∧ ∃ msg, e = OtherError msg
  end.
Lemma post_commit_spec ns t rq sv sv' r :
  post_commit ns t rq sv = (sv', r) → ∃ l, the_log sv' = the_log sv ++ l ∧ posted rq (the_log sv) l r.
Proof.
  unfold post_commit, invalidating, post_commit_inner, mbind, eng_bind, in_world_res, the_log.
  destruct (post_table ns t rq (sv_world sv)) as [w a] eqn:Ep. apply post_log in Ep as (l & Hl & Ha).
  destruct a as [[status body]|msg]; cbn [lift].
  2: { intros Hr. injection Hr as <- <-. exists l. cbn. rewrite invalidate_log. split; [done|]. split; [done|by eexists]. }
  cbn in Ha. destruct (is_success status) eqn:Es.
  { intros Hr. injection Hr as <- <-. exists l. cbn. by rewrite invalidate_log. }
  destruct (status =? CONFLICT) eqn:Ec; intros Hr; injection Hr as <- <-; exists l; cbn; rewrite invalidate_log; split; try done.
  split; [done|by eexists].
Qed.

Lemma eng_bind_inv {A B} (m : eng W A) (f : A → eng W B) sv sv' r :
  (x ← m; f x) sv = (sv', r) →
  (∃ e, m sv = (sv', Bad e) ∧ r = Bad e) ∨ (∃ a sv1, m sv = (sv1, Good a) ∧ f a sv1 = (sv', r)).
Proof.
  unfold mbind, eng_bind. destruct (m sv) as [sv1 [a|e]]; [right; by exists a, sv1|]. intros Hr. injection Hr as <- <-. left. by exists e.
Qed.
Lemma of_attempt_inv {A} (r : attempt A) (sv sv' : Server W) r' : of_attempt r sv = (sv', r') → sv' = sv ∧ r' = r.
Proof. intros Hr. by injection Hr as <- <-. Qed.

Lemma prepare_reads_head t (ops : list TableOp) pk branch props id out :
  prepare_commit t ops pk branch props id = Good out → ∃ h, branch_head t branch = Ok h.
Proof.
  intros Hp. unfold prepare_commit in Hp.
  apply attempt_bind_Good in Hp as (? & _ & Hp). apply attempt_bind_Good in Hp as (? & _ & Hp).
  apply attempt_bind_Good in Hp as (h & Hh%lift_Good & Hp). by exists h.
Qed.
Lemma prepared_request t (ops : list TableOp) pk branch props id p :
  prepare_commit t ops pk branch props id = Good (Some p) →
  rq_ident (pc_request p) = tb_ident t ∧ rq_branch (pc_request p) = branch ∧ sn_id (rq_snapshot (pc_request p)) = pc_snapshot_id p.
Proof.
  intros Hp. unfold prepare_commit in Hp. do 4 apply attempt_bind_Good in Hp as (? & _ & Hp).
  apply attempt_bind_Good in Hp as (s & Hs & Hp). apply attempt_bind_Good in Hp as ([[[counts written] keys] n1] & Hfa & Hp).
  destruct (fold_prewritten ops counts) as [[counts' files] n2]. destruct (negb (ac_changed s) && _); [done|].
  do 3 apply attempt_bind_Good in Hp as (? & _ & Hp). by injection Hp as <-.
Qed.
Lemma prepare_spec e tb (ops : list TableOp) pk sv sv' r :
  prepare e tb ops pk sv = (sv', r) →
  the_log sv' = the_log sv ∧ sv_endpoint sv' = sv_endpoint sv ∧ ∃ id, r = prepare_commit tb ops pk (branch e) [] id.
Proof.
  unfold prepare, in_world, mbind, eng_bind, the_log. pose proof (unique_id_log tb (sv_world sv)) as Hu.
  destruct (unique_snapshot_id tb (sv_world sv)) as [w id]. cbn in Hu |- *. intros Hr. injection Hr as <- <-.
  split_and!; [done|done|by exists id].
Qed.

(** ** Loads and commits *)

Definition served (t : TableIdent) (tb : Table DataFile) : Prop := ∃ w w', load_table t w = (w', Ok tb).
(** [tb] is the table at one moment between two logs. *)
Definition read_at (tb : Table DataFile) (t : TableIdent) (lo hi : list Move) : Prop :=
  served t tb ∧ tb_ident tb = t ∧ tb_schema tb = table_schema t ∧
  ∃ l1, lo `prefix_of` l1 ∧ l1 `prefix_of` hi ∧ ∀ b h, branch_head tb b = Ok h → h = head_of l1 t b.
Definition columns_of (t : TableIdent) : list (list byte) := map f_name (table_schema t).
(** One commit among the moves [new] after [before]: its snapshot has the rows of
    the head it replaced with [ops] applied; [told] are the counts.  [Q] is what
    else is known of the snapshot. *)
Definition committed (Q : Snapshot DataFile → Prop) (t : TableIdent) (b : string) (ops : list TableOp) (before new : list Move) (id : Z) (told : list N) : Prop :=
  ∃ l1 l2 s, new = l1 ++ {| mv_mine := true; mv_ident := t; mv_branch := b; mv_head := Some s |} :: l2 ∧
    own l1 = [] ∧ own l2 = [] ∧ sn_id s = id ∧ Q s ∧
    let rows := head_rows (head_of (before ++ l1) t b) in
    snapshot_rows s ≡ₚ apply_ops (columns_of t) ops rows ∧ told = op_counts (columns_of t) ops rows.
Definition idle (t : TableIdent) (b : string) (ops : list TableOp) (l : list Move) : Prop :=
  dml_counts (columns_of t) ops (head_rows (head_of l t b)) = replicate (length ops) 0 ∧
  buffered_rows (columns_of t) ops = [] ∧ ingested_rows ops = [].

Lemma load_read t lo sv sv' tb :
  load t sv = (sv', Good tb) → lo `prefix_of` the_log sv → read_at tb t lo (the_log sv').
Proof.
  intros Hload Hlo. assert (served t tb) as Hsv.
  { unfold load, in_world_res in Hload. destruct (load_table t (sv_world sv)) as [w a] eqn:El. injection Hload as _ Ha.
    apply lift_Good in Ha as ->. by exists (sv_world sv), w. }
  apply load_spec in Hload as (l & Hl & _ & _ & Hg). destruct (Hg tb eq_refl) as (Hi & Hs & l1 & l2 & -> & Hh). split_and!; [done..|].
  exists (the_log sv ++ l1). split_and!; [by apply prefix_app_r|rewrite Hl, app_assoc; by eexists|done].
Qed.

(** A commit prepared from a table read at some moment and accepted later. *)
Lemma prepared_then_applied (Q : Snapshot DataFile → Prop) e tb t ops pk id p lo sv l w :
  (∀ h, branch_head tb (branch e) = Ok h → Forall (file_ok (tb_schema tb)) (head_files h) → Q (rq_snapshot (pc_request p))) →
  Forall (op_ok (table_schema t)) ops → files_last ops → read_at tb t lo (the_log sv) →
  prepare_commit tb ops pk (branch e) [] id = Good (Some p) →
  applied [pc_request p] (the_log sv) l → log w = the_log sv ++ l → files_ok t (log w) →
  committed Q t (branch e) ops (the_log sv) l (pc_snapshot_id p) (pc_rows_by_op p).
Proof.
  intros HQ Hops Hlast (_ & Hi & Hs & l0 & _ & [k Hk] & Hh) Hp (l1 & l2 & -> & Ho1 & Ho2 & Hreq) Hw Hf.
  destruct (prepared_request _ _ _ _ _ _ _ Hp) as (R1 & R2 & R3). destruct (prepare_reads_head _ _ _ _ _ _ _ Hp) as [h Hhead].
  pose proof (Hh _ _ Hhead) as ->. specialize (Hreq (pc_request p) ltac:(by left)). rewrite R1, R2, Hi in Hreq.
  rewrite <-Hs in Hops. assert (the_log sv = l0 ++ k) as Hl0 by done.
  assert (Forall (file_ok (tb_schema tb)) (head_files (head_of l0 t (branch e)))) as Hfiles.
  { rewrite Hs. apply (head_files_ok t (branch e) l0 (k ++ l1 ++ map move_of [pc_request p] ++ l2)). by rewrite app_assoc, <-Hl0, <-Hw. }
  destruct (prepare_commit_spec _ _ _ _ _ _ _ _ Hhead Hops Hlast Hfiles Hp) as (P1 & P2 & P3).
  rewrite P3 in Hreq. apply (head_of_same w _ l0 (map move_of [pc_request p] ++ l2) (k ++ l1 ++ map move_of [pc_request p] ++ l2)) in Hreq.
  2: { by rewrite <-app_assoc, Hw. }
  2: { by rewrite Hw, Hl0, <-!app_assoc. }
  exists l1, l2, (rq_snapshot (pc_request p)). split_and!; [|done|done|done|by eapply HQ|].
  - cbn. unfold move_of. by rewrite R1, R2, Hi.
  - rewrite Hreq. unfold columns_of. rewrite <-Hs. done.
Qed.
Lemma prepared_nothing e tb t ops pk id lo sv :
  Forall (op_ok (table_schema t)) ops → files_last ops → read_at tb t lo (the_log sv) →
  prepare_commit tb ops pk (branch e) [] id = Good None → files_ok t (the_log sv) →
  ∃ l1, lo `prefix_of` l1 ∧ l1 `prefix_of` the_log sv ∧ idle t (branch e) ops l1.
Proof.
  intros Hops Hlast (_ & Hi & Hs & l0 & Hlo & [k Hk] & Hh) Hp Hf. exists l0. split; [done|]. split; [by exists k|].
  destruct (prepare_reads_head _ _ _ _ _ _ _ Hp) as [h Hhead]. pose proof (Hh _ _ Hhead) as ->. rewrite <-Hs in Hops.
  assert (Forall (file_ok (tb_schema tb)) (head_files (head_of l0 t (branch e)))) as Hfiles.
  { rewrite Hs. apply (head_files_ok t (branch e) l0 k). by rewrite <-Hk. }
  pose proof (prepare_commit_spec _ _ _ _ _ _ _ _ Hhead Hops Hlast Hfiles Hp) as Hn.
  unfold idle, columns_of. by rewrite <-Hs.
Qed.
Lemma applied_once rq (before new : list Move) : applied [rq] before new → own new = [move_of rq].
Proof. intros (l1 & l2 & -> & H1' & H2' & _). rewrite !own_app, H1', H2'. done. Qed.

(** ** Autocommit *)

(** The outcome of a statement between the logs [lo] and [lo ++ new]. *)
Definition outcome_ok (Q : Snapshot DataFile → Prop) (t : TableIdent) (b : string) (ops : list TableOp) (rows_of : list N → N) (lo new : list Move)
    (r : attempt DmlOutcome) : Prop :=
  match r with
  | Good o =>
    match do_snapshot_id o with
    | Some id => ∃ told, committed Q t b ops lo new id told ∧ do_rows o = rows_of told
    | None => own new = [] ∧ do_rows o = 0 ∧
        ∃ l1, lo `prefix_of` l1 ∧ l1 `prefix_of` lo ++ new ∧ idle t b ops l1
    end
  | Bad _ => (length (own new) ≤ 1)%nat
  end.
Lemma outcome_later Q t b ops rows_of lo (l new : list Move) r :
  own l = [] → outcome_ok Q t b ops rows_of (lo ++ l) new r → outcome_ok Q t b ops rows_of lo (l ++ new) r.
Proof.
  intros Ho. unfold outcome_ok. rewrite own_app, Ho. destruct r as [o|e]; [|done]. destruct (do_snapshot_id o) as [id|].
  - intros (told & (l1 & l2 & s & -> & H1' & H2' & Hid & HQ & Hrows) & Hr). exists told. split; [|done].
    exists (l ++ l1), l2, s. rewrite own_app, Ho, H1', <-app_assoc. split_and!; try done; rewrite app_assoc; apply Hrows.
  - intros (Hn & Hr & l1 & Hlo & Hhi & Hi). split_and!; [done|done|]. exists l1. split_and!; [|by rewrite app_assoc|done].
    etrans; [|exact Hlo]. by apply prefix_app_r.
Qed.

Section Attempts.
Context (e : OverwriteEngine) (t : TableIdent) (ops : list TableOp) (pk_of : Table DataFile → result (option (list (list byte)))).
Context (post : PreparedCommit → eng W CommitOutcome) (rows_of : PreparedCommit → N) (told_rows : list N → N) (Q : Snapshot DataFile → Prop).
Hypothesis Hpost : ∀ p sv sv' r, post p sv = (sv', r) → ∃ l, the_log sv' = the_log sv ++ l ∧ posted (pc_request p) (the_log sv) l r.
Hypothesis Hops : Forall (op_ok (table_schema t)) ops.
Hypothesis Hlast : files_last ops.
Hypothesis HQ : ∀ tb pk id p h, served t tb → tb_schema tb = table_schema t → pk_of tb = Ok pk →
  branch_head tb (branch e) = Ok h → Forall (file_ok (tb_schema tb)) (head_files h) →
  prepare_commit tb ops pk (branch e) [] id = Good (Some p) → Q (rq_snapshot (pc_request p)).
Hypothesis Hrows : ∀ p rows, pc_rows_by_op p = op_counts (columns_of t) ops rows → rows_of p = told_rows (pc_rows_by_op p).

Lemma commit_attempts_spec tries n preloaded sv sv' r lo l0 :
  the_log sv = lo ++ l0 → own l0 = [] →
  match preloaded with Some tb => read_at tb t lo (the_log sv) | None => True end →
  commit_attempts e pk_of post rows_of t ops tries n preloaded sv = (sv', r) → files_ok t (the_log sv') →
  ∃ new, the_log sv' = lo ++ new ∧ outcome_ok Q t (branch e) ops told_rows lo new r.
Proof.
  revert n preloaded sv l0. induction tries as [|tries IH]; intros n preloaded sv l0 Hlog Ho Hpre Hc Hf; cbn [commit_attempts] in Hc.
  { apply of_attempt_inv in Hc as [-> ->]. exists l0. split; [done|]. cbn. rewrite Ho. cbn. lia. }
  assert (∀ sv1 l1, the_log sv1 = lo ++ l1 → own l1 = [] → ∀ err, ∃ new, the_log sv1 = lo ++ new ∧
    outcome_ok Q t (branch e) ops told_rows lo new (Bad err)) as Hbad.
  { intros sv1 l1 Hl1 Ho1 err. exists l1. split; [done|]. cbn. rewrite Ho1. cbn. lia. }
  apply eng_bind_inv in Hc as [(err & Hload & ->)|(tb & sv1 & Hload & Hc)].
  { destruct preloaded; [done|]. apply load_spec in Hload as (l & Hl & Hol & _).
    apply (Hbad _ (l0 ++ l)); [by rewrite Hl, Hlog, app_assoc|by rewrite own_app, Ho, Hol]. }
  assert (read_at tb t lo (the_log sv1) ∧ ∃ l1, the_log sv1 = lo ++ l1 ∧ own l1 = []) as (Hread & l1 & Hl1 & Ho1).
  { destruct preloaded as [tb'|].
    - injection Hload as <- <-. split; [done|]. by exists l0.
    - split; [apply (load_read _ lo) in Hload; [done|]; rewrite Hlog; by eexists|]. apply load_spec in Hload as (l & Hl & Hol & _).
      exists (l0 ++ l). split; [by rewrite Hl, Hlog, app_assoc|by rewrite own_app, Ho, Hol]. }
  clear Hload Hpre Hlog Ho l0 sv.
  apply eng_bind_inv in Hc as [(err & [-> _]%of_attempt_inv & ->)|(pk & sv2 & [-> Hpk]%of_attempt_inv & Hc)]; [by apply (Hbad _ l1)|].
  apply eng_bind_inv in Hc as [(err & (Hp & _ & _)%prepare_spec & ->)|(out & sv2 & (Hp & _ & id & Hprep)%prepare_spec & Hc)].
  { apply (Hbad _ l1); [by rewrite Hp|done]. }
  rewrite <-Hp in Hread, Hl1. destruct out as [p|].
  2: { apply of_attempt_inv in Hc as [-> ->]. exists l1. split; [done|]. cbn. split; [done|]. split; [done|].
       destruct (prepared_nothing _ _ _ _ _ _ _ _ Hops Hlast Hread (eq_sym Hprep) Hf) as (lr & ? & ? & ?).
       exists lr. rewrite <-Hl1. done. }
  apply eng_bind_inv in Hc as [(err & (l & Hl & [Hpo _])%Hpost & ->)|(out & sv3 & (l & Hl & Hpo)%Hpost & Hc)].
  { exists (l1 ++ l). rewrite Hl, Hl1, app_assoc. split; [done|]. cbn. rewrite own_app, Ho1.
    destruct Hpo as [-> |Happ]; [cbn; lia|]. rewrite (applied_once _ _ _ Happ). cbn. lia. }
  destruct out as [|msg]; cbn in Hpo.
  - apply of_attempt_inv in Hc as [-> ->]. exists (l1 ++ l). rewrite Hl, Hl1, app_assoc. split; [done|].
    apply outcome_later; [done|]. cbn. exists (pc_rows_by_op p). rewrite <-Hl1.
    symmetry in Hpk. apply lift_Good in Hpk.
    pose proof (prepared_then_applied Q _ _ _ _ _ _ _ _ _ _ _ (λ h Hh Hfs, HQ tb pk id p h (proj1 Hread) (proj1 (proj2 (proj2 Hread))) Hpk Hh Hfs (eq_sym Hprep)) Hops Hlast Hread (eq_sym Hprep) Hpo Hl Hf) as Hcom.
    split; [done|]. destruct Hcom as (? & ? & ? & _ & _ & _ & _ & _ & _ & Htold). by eapply Hrows.
  - apply (IH _ None sv3 (l1 ++ l)) in Hc; [done|by rewrite Hl, Hl1, app_assoc|by rewrite own_app, Ho1, Hpo|done|done].
Qed.
End Attempts.

Definition unique_keys (cols : list (list byte)) (s : Snapshot DataFile) : Prop :=
  NoDup (map (key_of cols) (snapshot_rows s)) ∧ Forall (λ r, has_null (key_of cols r) = false) (snapshot_rows s).

Lemma apply_one_stmt cols stmt rows : apply_ops cols [OpDml stmt] rows = apply_stmt cols stmt rows.
Proof. done. Qed.

(** C4: Autocommit UPDATE and DELETE take effect at once and once: either the answer
    names one commit, made on the head it names, of that head's rows with the
    statement applied, with the number of rows that matched there; or nothing was
    committed and at some moment during the call no row matched; or the answer is
    an error, and at most one commit was made. *)
Theorem execute_linearizable e stmt sv sv' r :
  well_typed (table_schema (stmt_ident stmt)) stmt → files_ok (stmt_ident stmt) (the_log sv') →
  execute e stmt sv = (sv', r) →
  ∃ new, the_log sv' = the_log sv ++ new ∧
    match r with
    | Good o =>
      match do_snapshot_id o with
      | Some id => ∃ l1 l2 s,
          new = l1 ++ {| mv_mine := true; mv_ident := stmt_ident stmt; mv_branch := branch e; mv_head := Some s |} :: l2 ∧
          own l1 = [] ∧ own l2 = [] ∧ sn_id s = id ∧
          let rows := head_rows (head_of (the_log sv ++ l1) (stmt_ident stmt) (branch e)) in
          snapshot_rows s ≡ₚ apply_stmt (columns_of (stmt_ident stmt)) stmt rows ∧ do_rows o = count_rows (matches stmt) rows
      | None => own new = [] ∧ do_rows o = 0 ∧ ∃ l1, the_log sv `prefix_of` l1 ∧ l1 `prefix_of` the_log sv' ∧
          count_rows (matches stmt) (head_rows (head_of l1 (stmt_ident stmt) (branch e))) = 0
      end
    | Bad _ => (length (own new) ≤ 1)%nat
    end.
Proof.
  intros Ht Hf Hx. unfold execute in Hx.
  apply (commit_attempts_spec e (stmt_ident stmt) [OpDml stmt] _ _ _ (λ told, default 0 (head told)) (λ _, True))
    with (lo := the_log sv) (l0 := []) in Hx as (new & Hl & Hr); try done.
  - exists new. split; [done|]. destruct r as [o|err]; [|done]. cbn in Hr. destruct (do_snapshot_id o) as [id|].
    + destruct Hr as (told & (l1 & l2 & s & Hnew & Ho1 & Ho2 & Hid & _ & Hrows & ->) & ->). by exists l1, l2, s.
    + destruct Hr as (Ho & Hz & l1 & Hlo & Hhi & Hi & _). split_and!; [done..|]. exists l1. split_and!; [done|by rewrite Hl|].
      cbn in Hi. by injection Hi.
  - intros p sv1 sv2 r' Hp. by apply post_commit_spec in Hp.
  - by apply Forall_singleton.
  - by rewrite app_nil_r.
Qed.

End Log.
