(* ===== verification/Dml.v ===== *)
(** * UPDATE and DELETE on the wire (src/icegres/src/dml.rs)

    The translation of a parsed statement into the engine's [DmlStatement], its
    scope checks, the errors the client sees, and the hook that runs it.  The
    parser's expressions are opaque ([SqlAst]): the code prints them and looks
    for subqueries. *)
From S2P Require Import Prelude Text TailNames Keyed TableOps Freshness Overwrite Engine.
#[local] Open Scope N_scope.

(** ** Statements, as the parser gives them *)
Class SqlAst (Expr : Type) := {
  expr_text : Expr → list byte;
  has_query : Expr → bool;           (* the visitor's [pre_visit_query] *)
  to_lowercase : list byte → list byte;
}.
Record Ident := { id_value : list byte; id_quoted : bool }.
Inductive ObjectNamePart := PartIdentifier (i : Ident) | PartFunction.
Definition ObjectName := list ObjectNamePart.
Record TableAlias := { al_name : Ident; al_columns : nat }.
Inductive TableFactor := FactorTable (name : ObjectName) (alias : option TableAlias) | FactorOther.
Record TableWithJoins := { tw_relation : TableFactor; tw_joins : nat }.
Inductive AssignmentTarget := ColumnName (name : ObjectName) | ColumnTuple.
(** Clauses that are only looked at for being there are booleans or lengths.
    [Body] is what only the planner reads. *)
Inductive Statement {Expr Body} :=
  | SUpdate (table : TableWithJoins) (assignments : list (AssignmentTarget * Expr)) (from : bool)
      (selection : option Expr) (returning or_ limit : bool)
  | SDelete (tables : nat) (from : list TableWithJoins) (using_ : bool) (selection : option Expr)
      (returning : bool) (order_by : nat) (limit : bool)
  | SInsert (table : option ObjectName) (body : Body)
  | SQuery (body : Body) | SExplain (body : Body)
  | SStart | SCommit | SRollback
  | SSet | SShowVariable | SShowStatus
  | SOther (kind : string).
Arguments Statement : clear implicits.

(** ** Errors on the wire *)
Record PgWireError := { pg_code : string; pg_message : string }.
Definition user_err (code msg : string) : PgWireError := {| pg_code := code; pg_message := msg |}.
(** [reject], [engine_error] *)
Definition reject (msg : string) : PgWireError := user_err "0A000" msg.
Definition engine_error (e : EngineError) : PgWireError :=
  match e with
  | ConstraintViolation sqlstate msg => user_err sqlstate msg
  | CommitConflict msg => user_err "40001" msg
  | OtherError msg | Unwound msg => user_err "XX000" msg
  end.

(** [Response], by its variants; the rows of a tag where it has them. *)
Inductive Response {Rows} :=
  | TransactionStart (tag : string) | TransactionEnd (tag : string)
  | Execution (tag : string) (rows : option N)
  | QueryRows (rows : Rows).
Arguments Response : clear implicits.

Definition CATALOG_NAME : string := "icegres".
Definition DEFAULT_SCHEMA : string := "demo".

Inductive CommandTag := TagUpdate | TagDelete.

Section Translate.
Context {Expr Body : Type} `{SqlAst Expr}.

Definition normalize_ident (i : Ident) : list byte :=
  if id_quoted i then id_value i else to_lowercase (id_value i).
Definition last_ident (name : ObjectName) : result (list byte) :=
  match last name with Some (PartIdentifier i) => Ok (normalize_ident i) | _ => Err "unsupported assignment target" end.
Definition ensure_no_subquery (e : Expr) : result unit :=
  ensure (negb (has_query e)) "subqueries in UPDATE/DELETE are not supported".

(** The parts of a table name, the namespace or the default, the table. *)
Definition name_parts (name : ObjectName) : result (list (list byte)) :=
  map_result (λ p, match p with PartIdentifier i => Ok (normalize_ident i) | PartFunction => Err "unsupported table name part" end)
    name.
Definition split_parts (parts : list (list byte)) : result (list byte * list byte) :=
  match parts with
  | [t] => Ok (str_bytes DEFAULT_SCHEMA, t)
  | [ns; t] => Ok (ns, t)
  | [cat; ns; t] => _ ← ensure (bool_decide (cat = str_bytes CATALOG_NAME)) "unknown catalog"; Ok (ns, t)
  | _ => Err "table name with that many parts is not supported"
  end.
(** [plain_table] *)
Definition plain_table (twj : TableWithJoins) : result (list byte * list byte * option (list byte)) :=
  _ ← ensure (tw_joins twj =? 0)%nat "joined tables are not supported in UPDATE/DELETE";
  match tw_relation twj with
  | FactorOther => Err "only plain table targets are supported in UPDATE/DELETE"
  | FactorTable name alias =>
    parts ← name_parts name;
    '(ns, t) ← split_parts parts;
    alias ← match alias with
            | None => Ok None
            | Some a => _ ← ensure (al_columns a =? 0)%nat "column aliases are not supported";
                        Ok (Some (normalize_ident (al_name a)))
            end;
    Ok (ns, t, alias)
  end.

(** The loop over the assignments; [pairs] are those before. *)
Fixpoint assignment_pairs (assignments : list (AssignmentTarget * Expr)) (pairs : list (list byte * list byte))
    : result (list (list byte * list byte)) :=
  match assignments with
  | [] => Ok pairs
  | (target, value) :: assignments =>
    col ← match target with
          | ColumnName name => last_ident name
          | ColumnTuple => Err "tuple assignment targets are not supported"
          end;
    _ ← ensure (forallb (λ p, negb (bool_decide (fst p = col))) pairs) "column is assigned more than once";
    _ ← ensure_no_subquery value;
    assignment_pairs assignments (pairs ++ [(col, expr_text value)])
  end.
Definition selection_text (selection : option Expr) : result (option (list byte)) :=
  match selection with
  | None => Ok None
  | Some p => _ ← ensure_no_subquery p; Ok (Some (expr_text p))
  end.

(** [translate] *)
Definition translate (stmt : Statement Expr Body) : result (option (DmlStatement * CommandTag)) :=
  match stmt with
  | SUpdate table assignments from selection returning or_ limit =>
    _ ← ensure (negb from) "UPDATE ... FROM is not supported";
    _ ← ensure (negb returning) "UPDATE ... RETURNING is not supported";
    _ ← ensure (negb or_) "UPDATE OR ... is not supported";
    _ ← ensure (negb limit) "UPDATE ... LIMIT is not supported";
    '(ns, t, alias) ← plain_table table;
    pairs ← assignment_pairs assignments [];
    _ ← ensure (match pairs with [] => false | _ => true end) "UPDATE requires at least one assignment";
    predicate ← selection_text selection;
    Ok (Some ({| dml_kind := DmlUpdate pairs; dml_namespace := ns; dml_table := t; dml_alias := alias;
                 dml_predicate := predicate |}, TagUpdate))
  | SDelete tables from using_ selection returning order_by limit =>
    _ ← ensure (tables =? 0)%nat "multi-table DELETE is not supported";
    _ ← ensure (negb using_) "DELETE ... USING is not supported";
    _ ← ensure (negb returning) "DELETE ... RETURNING is not supported";
    _ ← ensure (order_by =? 0)%nat "DELETE ... ORDER BY is not supported";
    _ ← ensure (negb limit) "DELETE ... LIMIT is not supported";
    twj ← match from with [twj] => Ok twj | _ => Err "DELETE requires exactly one target table" end;
    '(ns, t, alias) ← plain_table twj;
    predicate ← selection_text selection;
    Ok (Some ({| dml_kind := DmlDelete; dml_namespace := ns; dml_table := t; dml_alias := alias;
                 dml_predicate := predicate |}, TagDelete))
  | _ => Ok None
  end.

Definition is_dml (stmt : Statement Expr Body) : bool :=
  match stmt with SUpdate _ _ _ _ _ _ _ | SDelete _ _ _ _ _ _ _ => true | _ => false end.
(** [parse_single_dml]: [parsed] is what the parser made of the text. *)
Definition parse_single_dml (parsed : option (list (Statement Expr Body))) : result (option (DmlStatement * CommandTag)) :=
  match parsed with
  | Some [stmt] => if is_dml stmt then translate stmt else Ok None
  | _ => Ok None
  end.

(** The expressions of a statement. *)
Definition exprs_of (stmt : Statement Expr Body) : list Expr :=
  match stmt with
  | SUpdate _ assignments _ selection _ _ _ => map snd assignments ++ option_list selection
  | SDelete _ _ _ selection _ _ _ => option_list selection
  | _ => []
  end.

Lemma assignment_pairs_spec assignments pairs out :
  assignment_pairs assignments pairs = Ok out → NoDup (map fst pairs) →
  NoDup (map fst out) ∧ (∃ more, out = pairs ++ more ∧ map snd more = map expr_text (map snd assignments)) ∧
  Forall (λ e, has_query e = false) (map snd assignments).
Proof.
  revert pairs. induction assignments as [|[target value] assignments IH]; intros pairs Ha Hn; cbn in Ha.
  { injection Ha as <-. split_and!; [done|exists []; by rewrite app_nil_r|constructor]. }
  apply bind_Ok in Ha as (col & _ & Ha). apply bind_Ok in Ha as (? & Hf%ensure_Ok & Ha).
  apply bind_Ok in Ha as (? & Hq%ensure_Ok & Ha). apply negb_true_iff in Hq.
  apply IH in Ha as (I1 & (more & -> & Hmore) & I3).
  - split_and!; [done| |by constructor]. exists ((col, expr_text value) :: more). by rewrite <-app_assoc; cbn; rewrite Hmore.
  - rewrite map_app. apply NoDup_app. split_and!; [done| |apply NoDup_singleton]. intros c Hc Hs. cbn in Hs.
    apply list_elem_of_singleton in Hs as ->. rewrite forallb_forall in Hf. change (map fst pairs) with (fst <$> pairs) in Hc.
    apply list_elem_of_fmap in Hc as (p & -> & Hp). specialize (Hf p ltac:(by apply list_elem_of_In)).
    apply negb_true_iff, bool_decide_eq_false in Hf. done.
Qed.
Lemma selection_text_spec s p : selection_text s = Ok p → p = expr_text <$> s ∧ Forall (λ e, has_query e = false) (option_list s).
Proof.
  destruct s as [e|]; cbn; [|intros [= <-]; by split]. intros (u & Hq%ensure_Ok & Hp)%bind_Ok. injection Hp as <-.
  apply negb_true_iff in Hq. split; [done|]. by constructor.
Qed.

Lemma assigned_unique (pairs : list (list byte * list byte)) c v :
  NoDup (map fst pairs) → (c, v) ∈ pairs → assigned pairs c = Some v.
Proof.
  intros Hn Hin. unfold assigned.
  assert (List.filter (λ a, bool_decide (a.1 = c)) pairs = [(c, v)]) as ->; [|done].
  induction pairs as [|[c' v'] pairs IH]; [by apply not_elem_of_nil in Hin|]. cbn in Hn |- *. apply NoDup_cons in Hn as [Hc Hn].
  apply elem_of_cons in Hin as [[= <- <-]|Hin].
  - rewrite bool_decide_eq_true_2 by done. f_equal. clear IH Hn. induction pairs as [|[c' v'] pairs IH]; [done|]. cbn in Hc |- *.
    apply not_elem_of_cons in Hc as [Hne Hc]. rewrite bool_decide_eq_false_2 by done. by apply IH.
  - rewrite bool_decide_eq_false_2; [by apply IH|]. cbn. intros ->. apply Hc. change (map fst pairs) with (fst <$> pairs).
    apply list_elem_of_fmap. by exists (c, v).
Qed.

(** C36: A statement that is run: nothing in it reads other rows, its predicate and
    its values are the client's text, and no column is assigned twice. *)
Theorem translate_in_scope stmt d tag :
  translate stmt = Ok (Some (d, tag)) →
  Forall (λ e, has_query e = false) (exprs_of stmt) ∧
  match stmt with
  | SUpdate _ assignments _ selection _ _ _ => tag = TagUpdate ∧ dml_predicate d = expr_text <$> selection ∧
      ∃ pairs, dml_kind d = DmlUpdate pairs ∧ pairs ≠ [] ∧ NoDup (map fst pairs) ∧
        map snd pairs = map expr_text (map snd assignments) ∧ ∀ c v, (c, v) ∈ pairs → assigned pairs c = Some v
  | SDelete _ _ _ selection _ _ _ => tag = TagDelete ∧ dml_kind d = DmlDelete ∧ dml_predicate d = expr_text <$> selection
  | _ => False
  end.
Proof.
  destruct stmt as [table asg from sel ret or' lim|tables from using_ sel ret ob lim| | | | | | | | | |]; cbn; intros Ht; try done.
  - do 4 apply bind_Ok in Ht as (? & _ & Ht). apply bind_Ok in Ht as ([[ns t] al] & _ & Ht).
    apply bind_Ok in Ht as (pairs & Hp & Ht). apply bind_Ok in Ht as (? & Hne%ensure_Ok & Ht).
    apply bind_Ok in Ht as (pred & Hs & Ht). injection Ht as <- <-.
    apply assignment_pairs_spec in Hp as (P1 & (more & -> & P2) & P3); [|constructor].
    apply selection_text_spec in Hs as [-> S2]. cbn in P1 |- *. split; [by apply Forall_app|]. split_and!; [done..|].
    exists more. split_and!; [done|by destruct more|done|done|]. intros c v Hin. by apply assigned_unique.
  - do 5 apply bind_Ok in Ht as (? & _ & Ht). apply bind_Ok in Ht as (twj & _ & Ht).
    apply bind_Ok in Ht as ([[ns t] al] & _ & Ht). apply bind_Ok in Ht as (pred & Hs & Ht). injection Ht as <- <-.
    apply selection_text_spec in Hs as [-> S2]. done.
Qed.
End Translate.

(** ** The hook *)
Section Hook.
Context {W RecordBatch ArrayRef DataFile Expr Body Rows : Type} `{Columnar RecordBatch ArrayRef}
  `{SqlEngine RecordBatch} `{DataFiles RecordBatch DataFile} `{Catalog W DataFile} `{SqlAst Expr}.

(** Answers: a response, or an error for the client; [None] leaves the statement
    to the next hook. *)
Definition answer : Type := Response Rows + PgWireError.
Definition tag_name (tag : CommandTag) : string := match tag with TagUpdate => "UPDATE" | TagDelete => "DELETE" end.

(** [DmlHook::run]: it is called for UPDATE and DELETE only, where [translate]
    gives a statement or an error. *)
Definition run (e : OverwriteEngine) (stmt : Statement Expr Body) (sv : Server W) : Server W * answer :=
  match translate stmt with
  | Err msg => (sv, inr (reject msg))
  | Ok None => (sv, inr (user_err "XX000" "unreachable"))
  | Ok (Some (dml, tag)) =>
    match execute e dml sv with
    | (sv, Good outcome) => (sv, inl (Execution (tag_name tag) (Some (do_rows outcome))))
    | (sv, Bad err) => (sv, inr (engine_error err))
    end
  end.
Definition handle_simple_query (e : OverwriteEngine) (stmt : Statement Expr Body) (sv : Server W)
    : Server W * option answer :=
  if negb (is_dml stmt) then (sv, None) else let '(sv, a) := run e stmt sv in (sv, Some a).
(** [params]: the number of bind values. *)
Definition handle_extended_query (e : OverwriteEngine) (stmt : Statement Expr Body) (params : nat) (sv : Server W)
    : Server W * option answer :=
  if negb (is_dml stmt) then (sv, None)
  else if negb (params =? 0)%nat then (sv, Some (inr (reject "parameterized UPDATE/DELETE is not supported yet")))
  else let '(sv, a) := run e stmt sv in (sv, Some a).
End Hook.
