(* ===== verification/Txn.v ===== *)
(** * Explicit transactions (src/icegres/src/txn.rs)

    Sessions pin a table at first touch and buffer operations; COMMIT posts one
    snapshot per table, all tables in one request where the catalog has the
    endpoint.  Iceberg's read providers are [ReadProvider]; DataFusion's planner,
    which resolves table names through the session, is [TxnPlanner].  A
    connection runs one statement at a time. *)
From stdpp Require Import sorting.
From S2P Require Import Prelude Text TailNames Keyed TableOps Freshness Overwrite Engine Dml.
#[local] Open Scope N_scope.

(** ** Names *)
Record TableReference := { tr_catalog : option (list byte); tr_schema : option (list byte); tr_table : list byte }.
(** [table_ref_to_ident] *)
Definition table_ref_to_ident (r : TableReference) : result TableIdent :=
  _ ← match tr_catalog r with
      | Some c => ensure (bool_decide (c = str_bytes CATALOG_NAME)) "unknown catalog"
      | None => Ok tt
      end;
  Ok {| namespace := [default (str_bytes DEFAULT_SCHEMA) (tr_schema r)]; table_name := tr_table r |}.
Section Names.
Context {Expr Body : Type} `{SqlAst Expr}.
(** [object_name_to_ident], [insert_target] *)
Definition object_name_to_ident (name : ObjectName) : result TableIdent :=
  parts ← name_parts name;
  '(ns, t) ← split_parts parts;
  Ok {| namespace := [ns]; table_name := t |}.
Definition insert_target (stmt : Statement Expr Body) : result TableIdent :=
  match stmt with
  | SInsert (Some name) _ => object_name_to_ident name
  | SInsert None _ => Err "INSERT into a table function is not supported"
  | _ => Err "not an INSERT statement"
  end.
End Names.

(** [TableIdent]'s text and the order of strings, for the order of commits. *)
Definition ident_string (t : TableIdent) : list byte := join_with DOT (namespace t ++ [table_name t]).
Fixpoint bytes_leb (a b : list byte) : bool :=
  match a, b with
  | [], _ => true
  | _ :: _, [] => false
  | x :: a, y :: b => (Byte.to_N x <? Byte.to_N y) || ((Byte.to_N x =? Byte.to_N y) && bytes_leb a b)
  end.
Definition ident_le (a b : TableIdent) : Prop := bytes_leb (ident_string a) (ident_string b) = true.
#[export] Instance ident_le_dec : RelDecision ident_le.
Proof. intros a b. unfold ident_le. apply _. Defined.

Definition first_le {A} (a b : TableIdent * A) : Prop := ident_le (fst a) (fst b).
#[export] Instance first_le_dec A : RelDecision (first_le (A:=A)).
Proof. intros a b. unfold first_le. apply _. Defined.

(** ** Libraries *)
Class ReadProvider (Provider RecordBatch DataFile : Type) := {
  try_new_from_table : Table DataFile → result Provider;
  try_new_from_table_snapshot : Table DataFile → Z → result Provider;
  scan_all : Provider → result (list RecordBatch);
}.
(** What a statement reads in place of a table. *)
Inductive View {Provider RecordBatch} :=
  | EffectiveRows (rows : list RecordBatch) | PinnedOnly (p : Provider) | PinnedAnd (p : Provider) (appends : list RecordBatch).
Arguments View : clear implicits.
(** A name the planner resolves: through the shared catalog, not at all, or
    through the session. *)
Inductive Source {V} := Inner | Absent | Session (v : V).
Arguments Source : clear implicits.
Class TxnPlanner (Body Rows Provider RecordBatch : Type) := {
  names : Body → list TableReference;
  inner_exists : list byte → list byte → bool;
  plan_insert : Body → list (list byte) → list (Source (View Provider RecordBatch)) → result (TableReference * list RecordBatch);
  plan_insert_shared : Body → list (list byte) → result (TableReference * list RecordBatch);
  run_select : Body → list (Source (View Provider RecordBatch)) → result Rows;
  count_collisions : list (list byte) → list RecordBatch → View Provider RecordBatch → result N;
}.

(** ** Sessions *)
Record TxnTable {Provider RecordBatch DataFile} := {
  pinned : Table DataFile; pin_snapshot : option Z; pinned_provider : Provider;
  schema : Schema; columns : list (list byte);
  ops : list (TableOp RecordBatch DataFile); materialized : option (list RecordBatch);
}.
Arguments TxnTable : clear implicits.

Section Txn.
Context {W RecordBatch ArrayRef DataFile Expr Body Rows Provider : Type} `{Columnar RecordBatch ArrayRef}
  `{SqlEngine RecordBatch} `{DataFiles RecordBatch DataFile} `{Catalog W DataFile} `{SqlAst Expr}
  `{ReadProvider Provider RecordBatch DataFile} `{TxnPlanner Body Rows Provider RecordBatch}.
#[local] Abbreviation TableOp := (TableOp RecordBatch DataFile).
#[local] Abbreviation TxnTable := (TxnTable Provider RecordBatch DataFile).
#[local] Abbreviation View := (View Provider RecordBatch).
#[local] Abbreviation Source := (Source View).
#[local] Abbreviation Statement := (Statement Expr Body).
#[local] Abbreviation Response := (Response Rows).
#[local] Abbreviation answer := (Response + PgWireError)%type.

Record TxnSession := { aborted : bool; tables : gmap TableIdent TxnTable }.
Definition session_new : TxnSession := {| aborted := false; tables := ∅ |}.

(** A statement in a session runs against the server and the session; what it did
    to them before an error stays. *)
Record TxnState := { ts_server : Server W; ts_session : TxnSession }.
Definition txn (A : Type) : Type := TxnState → TxnState * attempt A.
#[export] Instance txn_ret : MRet txn := λ A a s, (s, Good a).
#[export] Instance txn_bind : MBind txn := λ A B f m s,
  match m s with (s', Good a) => f a s' | (s', Bad e) => (s', Bad e) end.
Definition on_server {A} (m : eng W A) : txn A := λ s,
  let '(sv, r) := m (ts_server s) in ({| ts_server := sv; ts_session := ts_session s |}, r).
Definition pure_attempt {A} (r : attempt A) : txn A := λ s, (s, r).
Definition pure_result {A} (r : result A) : txn A := pure_attempt (lift r).
Definition get_table (ident : TableIdent) : txn (option TxnTable) := λ s, (s, Good (tables (ts_session s) !! ident)).
Definition put_table (ident : TableIdent) (t : TxnTable) : txn unit := λ s,
  ({| ts_server := ts_server s;
      ts_session := {| aborted := aborted (ts_session s); tables := <[ident := t]> (tables (ts_session s)) |} |}, Good tt).

(** [TxnTable::pin] *)
Definition pin (e : OverwriteEngine) (ident : TableIdent) : eng W TxnTable :=
  table ← load ident;
  head ← of_result (branch_head table (branch e));
  provider ← of_result match sn_id <$> head with
                       | Some h => if String.eqb (branch e) MAIN_BRANCH then try_new_from_table table
                                   else try_new_from_table_snapshot table h
                       | None => try_new_from_table table
                       end;
  mret {| pinned := table; pin_snapshot := sn_id <$> head; pinned_provider := provider;
          schema := tb_schema table; columns := tb_columns table; ops := []; materialized := None |}.
(** The entry of a table, pinned now if the transaction has not touched it. *)
Definition pin_table (e : OverwriteEngine) (ident : TableIdent) : txn TxnTable :=
  found ← get_table ident;
  match found with
  | Some t => mret t
  | None => t ← on_server (pin e ident); _ ← put_table ident t; mret t
  end.
(** [append_batches] *)
Definition append_batches (t : TxnTable) : list RecordBatch :=
  concat (map (λ op, match op with OpAppend bs => bs | _ => [] end) (ops t)).
(** [effective_provider]: an in-memory table refuses batches of another schema. *)
Definition mem_table (s : Schema) (bs : list RecordBatch) : result (list RecordBatch) :=
  _ ← ensure (forallb (λ b, bool_decide (schema_of b = s)) bs) "Mismatch between schema and batches"; Ok bs.
Definition effective_provider (t : TxnTable) : result View :=
  match materialized t with
  | Some rows => rows ← mem_table (schema t) rows; Ok (EffectiveRows rows)
  | None =>
    match ops t with
    | [] => Ok (PinnedOnly (pinned_provider t))
    | _ => appends ← mem_table (schema t) (append_batches t); Ok (PinnedAnd (pinned_provider t) appends)
    end
  end.
Definition set_materialized (rows : list RecordBatch) (t : TxnTable) : TxnTable :=
  {| pinned := pinned t; pin_snapshot := pin_snapshot t; pinned_provider := pinned_provider t; schema := schema t;
     columns := columns t; ops := ops t; materialized := Some rows |}.
Definition buffer_op (op : TableOp) (m : option (list RecordBatch)) (t : TxnTable) : TxnTable :=
  {| pinned := pinned t; pin_snapshot := pin_snapshot t; pinned_provider := pinned_provider t; schema := schema t;
     columns := columns t; ops := ops t ++ [op]; materialized := m |}.
(** [materialize] *)
Definition materialize (t : TxnTable) : result (TxnTable * list RecordBatch) :=
  match materialized t with
  | Some rows => Ok (t, rows)
  | None =>
    batches ← scan_all (pinned_provider t);
    rows ← map_result (λ b, align_batch b (schema t)) batches;
    let rows := rows ++ append_batches t in
    Ok (set_materialized rows t, rows)
  end.

(** ** Resolution through the session *)
Definition AT : byte := Byte.x40.
Definition DOLLAR : byte := Byte.x24.
(** [TxnCatalogList::catalog], [TxnCatalogProvider::schema], [TxnSchemaProvider::table] *)
Definition resolve (e : OverwriteEngine) (r : TableReference) : txn Source :=
  let catalog := default (str_bytes CATALOG_NAME) (tr_catalog r) in
  let ns := default (str_bytes DEFAULT_SCHEMA) (tr_schema r) in
  if negb (bool_decide (catalog = str_bytes CATALOG_NAME)) then mret Inner
  else if bool_decide (ns = str_bytes "pg_catalog") || bool_decide (ns = str_bytes "information_schema") then mret Inner
  else if bool_decide (DOLLAR ∈ tr_table r) || bool_decide (AT ∈ tr_table r) then mret Inner
  else if negb (inner_exists ns (tr_table r)) then mret Absent
  else
    entry ← pin_table e {| namespace := [ns]; table_name := tr_table r |};
    view ← pure_result (effective_provider entry);
    mret (Session view).
Fixpoint resolve_all (e : OverwriteEngine) (rs : list TableReference) : txn (list Source) :=
  match rs with
  | [] => mret []
  | r :: rs => s ← resolve e r; ss ← resolve_all e rs; mret (s :: ss)
  end.

(** ** Keys, statement by statement *)

(** [project_pk] *)
Definition project_pk (bs : list RecordBatch) (pk_cols : list (list byte)) : result (list RecordBatch) :=
  let nonempty := List.filter (λ b, (0 <? num_rows b)%nat) bs in
  match nonempty with
  | [] => Ok []
  | first :: _ =>
    indices ← map_result (λ c, ok_or (position (λ f, eq_ignore_ascii_case (f_name f) c) (schema_of first))
                                 "PK column missing from row batch") pk_cols;
    map_result (λ b, project b indices) nonempty
  end.
(** [check_insert_pk]: [new_keys[0]] is taken of what may be empty. *)
Definition check_insert_pk (t : TxnTable) (new_rows : list RecordBatch) (pk_cols : list (list byte)) : attempt unit :=
  new_keys ← lift (project_pk new_rows pk_cols);
  _ ← check_pk pk_cols new_keys;
  view ← lift (effective_provider t);
  match new_keys with
  | [] => Bad (Unwound "index out of bounds")
  | _ =>
    collisions ← lift (count_collisions pk_cols new_keys view);
    if 0 <? collisions
    then Bad (ConstraintViolation "23505" "inserted rows collide with existing keys") else Good tt
  end.

(** ** Statements in a transaction *)

(** [txn_insert] *)
Definition txn_insert (e : OverwriteEngine) (body : Body) (params : list (list byte)) : txn Response :=
  sources ← resolve_all e (names body);
  '(tref, batches) ← pure_result (plan_insert body params sources);
  ident ← pure_result (table_ref_to_ident tref);
  found ← get_table ident;
  match found with
  | None => pure_attempt (Bad (OtherError "INSERT target was not pinned during planning"))
  | Some entry =>
    aligned ← pure_result (map_result (λ b, align_batch b (schema entry)) batches);
    pk ← pure_result (pk_columns e (pinned entry));
    _ ← match pk with Some cols => pure_attempt (check_insert_pk entry aligned cols) | None => mret tt end;
    _ ← put_table ident (buffer_op (OpAppend aligned) ((λ m, m ++ aligned) <$> materialized entry) entry);
    mret (Execution "INSERT" (Some (total_rows aligned)))
  end.

(** [txn_dml] *)
Definition txn_dml (e : OverwriteEngine) (stmt : Statement) : txn Response :=
  translated ← pure_result (translate stmt);
  match translated with
  | None => pure_attempt (Bad (OtherError "statement is not UPDATE/DELETE"))
  | Some (dml, tag) =>
    let ident := stmt_ident dml in
    entry ← pin_table e ident;
    '(entry, rows_in) ← pure_result (materialize entry);
    _ ← put_table ident entry;
    '(matched, out) ← pure_result (apply_dml_to_batches dml (columns entry) rows_in);
    aligned ← pure_result (map_result (λ b, align_batch b (schema entry)) out);
    _ ← match dml_kind dml with
        | DmlUpdate assignments =>
          pk ← pure_result (pk_columns e (pinned entry));
          match pk with
          | Some cols =>
            let touches := existsb (λ a, bool_decide (fst a ∈ cols)) assignments in
            if touches && match aligned with [] => false | _ => true end
            then keys ← pure_result (project_pk aligned cols); pure_attempt (check_pk cols keys)
            else mret tt
          | None => mret tt
          end
        | DmlDelete => mret tt
        end;
    _ ← put_table ident (buffer_op (OpDml dml) (Some aligned) entry);
    mret (Execution (tag_name tag) (Some matched))
  end.

(** [txn_select] *)
Definition txn_select (e : OverwriteEngine) (body : Body) : txn Response :=
  sources ← resolve_all e (names body);
  rows ← pure_result (run_select body sources);
  mret (QueryRows rows).

(** ** The registry and the hook *)

(** [rg_open] counts the sessions, for a look without the lock. *)
Record TxnRegistry := { rg_sessions : gmap N TxnSession; rg_open : N }.
Definition registry_new : TxnRegistry := {| rg_sessions := ∅; rg_open := 0 |}.
Definition stored (m : gmap N TxnSession) : TxnRegistry := {| rg_sessions := m; rg_open := N.of_nat (size m) |}.
Definition active (addr : N) (r : TxnRegistry) : bool :=
  if rg_open r =? 0 then false else bool_decide (is_Some (rg_sessions r !! addr)).
Definition get (addr : N) (r : TxnRegistry) : option TxnSession := if rg_open r =? 0 then None else rg_sessions r !! addr.
Definition registry_begin (addr : N) (r : TxnRegistry) : TxnRegistry * bool :=
  match rg_sessions r !! addr with
  | Some _ => (r, false)
  | None => (stored (<[addr := session_new]> (rg_sessions r)), true)
  end.
Definition registry_take (addr : N) (r : TxnRegistry) : TxnRegistry * option TxnSession :=
  (stored (delete addr (rg_sessions r)), rg_sessions r !! addr).
Definition disconnect (addr : N) (r : TxnRegistry) : TxnRegistry := stored (delete addr (rg_sessions r)).
(** The session behind its lock, written in place. *)
Definition set_session (addr : N) (s : TxnSession) (r : TxnRegistry) : TxnRegistry :=
  {| rg_sessions := alter (λ _, s) addr (rg_sessions r); rg_open := rg_open r |}.

(** The hook's configuration and what it changes. *)
Record TxnHook := { engine : OverwriteEngine; strict : bool; timing : bool }.
Record Node := { nd_server : Server W; nd_registry : TxnRegistry }.
(** A statement is left to the next hook, answered, or takes its connection down. *)
Inductive Reply := NotMine | Answer (a : answer) | Lost (msg : string).
Definition reply_of (r : attempt Response) : Reply :=
  match r with
  | Good resp => Answer (inl resp)
  | Bad (Unwound msg) => Lost msg
  | Bad e => Answer (inr (engine_error e))
  end.
Definition aborted_err : PgWireError := user_err "25P02" "current transaction is aborted".

Definition begin (addr : N) (nd : Node) : Node * Reply :=
  let '(r, fresh) := registry_begin addr (nd_registry nd) in
  ({| nd_server := nd_server nd; nd_registry := r |},
   Answer (inl (if fresh then TransactionStart "BEGIN" else Execution "BEGIN" None))).
Definition rollback (addr : N) (nd : Node) : Node * Reply :=
  ({| nd_server := nd_server nd; nd_registry := fst (registry_take addr (nd_registry nd)) |},
   Answer (inl (TransactionEnd "ROLLBACK"))).

(** ** COMMIT *)
Definition touched (s : TxnSession) : list (TableIdent * TxnTable) :=
  merge_sort first_le
    (List.filter (λ p, match ops (snd p) with [] => false | _ => true end) (map_to_list (tables s))).
(** [with_message]: the sqlstate stays. *)
Definition with_message (e : PgWireError) (msg : string) : PgWireError := user_err (pg_code e) msg.
Definition NOT_APPLIED : string := "COMMIT failed, transaction rolled back (no changes were applied)".
Definition PARTIALLY_APPLIED : string := "COMMIT PARTIALLY APPLIED".
(** The ordered commits, table by table; [any] says one has been made. *)
Fixpoint commit_each (e : OverwriteEngine) (batch : list (TableIdent * TxnTable)) (any : bool) (sv : Server W)
    : Server W * answer :=
  match batch with
  | [] => (sv, inl (TransactionEnd "COMMIT"))
  | (ident, t) :: batch =>
    match commit_pinned e ident (pin_snapshot t) (ops t) sv with
    | (sv, Good _) => commit_each e batch true sv
    | (sv, Bad err) =>
      (sv, inr (if any then user_err "40003" PARTIALLY_APPLIED else with_message (engine_error err) NOT_APPLIED))
    end
  end.
Definition commit_session (h : TxnHook) (s : TxnSession) (sv : Server W) : Server W * answer :=
  if aborted s then (sv, inl (TransactionEnd "ROLLBACK")) else
  let batch := touched s in
  if (1 <? length batch)%nat then
    match commit_pinned_multi (engine h) (map (λ '(ident, t), (ident, pin_snapshot t, ops t)) batch) sv with
    | (sv, Good MultiCommitted) => (sv, inl (TransactionEnd "COMMIT"))
    | (sv, Good MultiUnsupported) =>
      if strict h then (sv, inr (user_err "0A000" "strict transaction mode")) else commit_each (engine h) batch false sv
    | (sv, Bad err) => (sv, inr (with_message (engine_error err) NOT_APPLIED))
    end
  else commit_each (engine h) batch false sv.
Definition commit (h : TxnHook) (addr : N) (nd : Node) : Node * Reply :=
  let '(r, taken) := registry_take addr (nd_registry nd) in
  match taken with
  | None => ({| nd_server := nd_server nd; nd_registry := r |}, Answer (inl (TransactionEnd "COMMIT")))
  | Some s =>
    let '(sv, a) := commit_session h s (nd_server nd) in
    ({| nd_server := sv; nd_registry := r |}, Answer a)
  end.

(** ** Dispatch *)
Definition abort (s : TxnSession) : TxnSession := {| aborted := true; tables := tables s |}.
Definition run_in_txn (m : txn Response) (sv : Server W) (s : TxnSession) : Server W * TxnSession * Reply :=
  let '(st, r) := m {| ts_server := sv; ts_session := s |} in
  (ts_server st, match r with Good _ | Bad (Unwound _) => ts_session st | Bad _ => abort (ts_session st) end, reply_of r).
Definition refuse (sv : Server W) (s : TxnSession) (msg : string) : Server W * TxnSession * Reply :=
  (sv, abort s, Answer (inr (user_err "0A000" msg))).
(** [in_txn]; [params] are the bind values, [None] on the simple protocol. *)
Definition in_txn (h : TxnHook) (stmt : Statement) (params : option (list (list byte))) (sv : Server W) (s : TxnSession)
    : Server W * TxnSession * Reply :=
  match stmt with
  | SSet | SShowVariable | SShowStatus => (sv, s, NotMine)
  | SInsert _ body => run_in_txn (txn_insert (engine h) body (default [] params)) sv s
  | SUpdate _ _ _ _ _ _ _ | SDelete _ _ _ _ _ _ _ =>
    match params with
    | Some (_ :: _) => refuse sv s "parameterized UPDATE/DELETE is not supported yet"
    | _ => run_in_txn (txn_dml (engine h) stmt) sv s
    end
  | SQuery body | SExplain body =>
    match params with
    | Some _ => refuse sv s "SELECT inside an explicit transaction is supported on the simple query protocol only"
    | None => run_in_txn (txn_select (engine h) body) sv s
    end
  | _ => refuse sv s "statement is not supported inside a transaction block"
  end.

(** [autocommit_insert] *)
Definition autocommit_insert (h : TxnHook) (stmt : Statement) (body : Body) (params : list (list byte)) (sv : Server W)
    : Server W * Reply :=
  match insert_target stmt with
  | Err msg => (sv, Answer (inr (user_err "0A000" msg)))
  | Ok ident =>
    match load ident sv with
    | (sv, Bad _) => (sv, NotMine)
    | (sv, Good table) =>
      let through_engine : eng W Response :=
        '(tref, batches) ← of_result (plan_insert_shared body params);
        plan_ident ← of_result (table_ref_to_ident tref);
        _ ← of_result (ensure (bool_decide (plan_ident = ident)) "INSERT target resolution mismatch");
        aligned ← of_result (map_result (λ b, align_batch b (tb_schema table)) batches);
        outcome ← insert_enforced (engine h) ident aligned (Some table);
        mret (Execution "INSERT" (Some (do_rows outcome))) in
      match pk_columns_of table with
      | Err msg => (sv, Answer (inr (user_err "XX000" msg)))
      | Ok None => if String.eqb (branch (engine h)) MAIN_BRANCH && negb (timing h) then (sv, NotMine)
                   else let '(sv, r) := through_engine sv in (sv, reply_of r)
      | Ok (Some _) => let '(sv, r) := through_engine sv in (sv, reply_of r)
      end
    end
  end.

Definition is_aborted (addr : N) (nd : Node) : bool :=
  match get addr (nd_registry nd) with Some s => aborted s | None => false end.
(** [sync_aborted_from_wire]; [wire_failed] is pgwire's status of the connection. *)
Definition sync_aborted_from_wire (addr : N) (wire_failed : bool) (nd : Node) : Node :=
  match wire_failed, get addr (nd_registry nd) with
  | true, Some s => {| nd_server := nd_server nd; nd_registry := set_session addr (abort s) (nd_registry nd) |}
  | _, _ => nd
  end.
(** A statement that does not control a transaction. *)
Definition handle_ordinary (h : TxnHook) (addr : N) (stmt : Statement) (params : option (list (list byte))) (nd : Node)
    : Node * Reply :=
  match get addr (nd_registry nd) with
  | Some s =>
    if aborted s then (nd, Answer (inr aborted_err)) else
    let '(sv, s, reply) := in_txn h stmt params (nd_server nd) s in
    ({| nd_server := sv; nd_registry := set_session addr s (nd_registry nd) |}, reply)
  | None =>
    if enforce_pk (engine h) || negb (String.eqb (branch (engine h)) MAIN_BRANCH) || timing h then
      match stmt with
      | SInsert _ body =>
        let '(sv, reply) := autocommit_insert h stmt body (default [] params) (nd_server nd) in
        ({| nd_server := sv; nd_registry := nd_registry nd |}, reply)
      | _ => (nd, NotMine)
      end
    else (nd, NotMine)
  end.
(** [handle_simple_query], and [handle_extended_query] when there are bind values. *)
Definition handle_query (h : TxnHook) (addr : N) (wire_failed : bool) (stmt : Statement) (params : option (list (list byte)))
    (nd : Node) : Node * Reply :=
  let nd := sync_aborted_from_wire addr wire_failed nd in
  match stmt with
  | SStart => if is_aborted addr nd then (nd, Answer (inr aborted_err)) else begin addr nd
  | SCommit => commit h addr nd
  | SRollback => rollback addr nd
  | _ => handle_ordinary h addr stmt params nd
  end.
End Txn.
