(* ===== verification/TxnView.v ===== *)
(** * What a transaction sees

    A session's entry for a table is the pinned snapshot and the operations
    since; whether the code keeps the rows or the appends, what statements read
    is the pinned rows with the operations applied.  Statements in a transaction
    change nothing in the catalog. *)
From stdpp Require Import sorting.
From S2P Require Import Prelude Text TailNames Keyed TableOps Freshness Overwrite OverwriteRows Engine EngineLog Dml Txn.
#[local] Open Scope N_scope.

(** Iceberg's read providers: the current snapshot of a loaded table, or the one
    with an id, read whole. *)
Class ReadProviderLaws (Provider RecordBatch ArrayRef DataFile Row : Type)
    `{EngineLaws RecordBatch ArrayRef DataFile Row} `{ReadProvider Provider RecordBatch DataFile} := {
  provider_rows : Provider → list Row;
  scan_rows_of p bs : scan_all p = Ok bs → batch_rows bs ≡ₚ provider_rows p;
  current_rows tb p : try_new_from_table tb = Ok p → provider_rows p ≡ₚ head_rows (tb_current tb);
  snapshot_rows_of tb id p b s : try_new_from_table_snapshot tb id = Ok p → branch_head tb b = Ok (Some s) → sn_id s = id →
    provider_rows p ≡ₚ snapshot_rows s;
}.

Section View.
Context {W RecordBatch ArrayRef DataFile Row Expr Body Rows Provider : Type} `{EngineLaws RecordBatch ArrayRef DataFile Row}
  `{CatalogLaws W DataFile} `{SqlAst Expr} `{!ReadProvider Provider RecordBatch DataFile}
  `{!ReadProviderLaws Provider RecordBatch ArrayRef DataFile Row} `{TxnPlanner Body Rows Provider RecordBatch}.
#[local] Abbreviation TableOp := (TableOp RecordBatch DataFile).
#[local] Abbreviation TxnTable := (TxnTable Provider RecordBatch DataFile).
#[local] Abbreviation TxnSession := (TxnSession (RecordBatch:=RecordBatch) (DataFile:=DataFile) (Provider:=Provider)).
#[local] Abbreviation TxnState := (TxnState (W:=W) (RecordBatch:=RecordBatch) (DataFile:=DataFile) (Provider:=Provider)).
#[local] Abbreviation txn := (txn (W:=W) (RecordBatch:=RecordBatch) (DataFile:=DataFile) (Provider:=Provider)).
#[local] Abbreviation Move := (Move DataFile).
Variable e : OverwriteEngine.

Definition view_rows (v : View Provider RecordBatch) : list Row :=
  match v with
  | EffectiveRows rows => batch_rows rows
  | PinnedOnly p => provider_rows p
  | PinnedAnd p appends => provider_rows p ++ batch_rows appends
  end.

(** An entry of the session on the log [l]: [h] is the head it is pinned at. *)
Definition pinned_at (ident : TableIdent) (t : TxnTable) (l : list Move) (h : option (Snapshot DataFile)) : Prop :=
  served ident (pinned t) ∧ pin_snapshot t = sn_id <$> h ∧ (∃ l0, l0 `prefix_of` l ∧ h = head_of l0 ident (branch e)) ∧
  schema t = table_schema ident ∧ columns t = columns_of ident ∧ provider_rows (pinned_provider t) ≡ₚ head_rows h.
Definition buffered_ok (ident : TableIdent) (l : list TableOp) : Prop :=
  Forall (op_ok (table_schema ident)) l ∧ (∀ fs, OpAppendFiles fs ∉ l).
Definition entry_at (ident : TableIdent) (l : list Move) (t : TxnTable) (h : option (Snapshot DataFile)) : Prop :=
  pinned_at ident t l h ∧ buffered_ok ident (ops t) ∧
  match materialized t with
  | Some rows => batch_rows rows ≡ₚ apply_ops (columns_of ident) (ops t) (head_rows h) ∧ batches_ok (table_schema ident) rows
  | None => ∀ d, OpDml d ∉ ops t
  end.
Definition entry_ok (ident : TableIdent) (l : list Move) (t : TxnTable) : Prop := ∃ h, entry_at ident l t h.
Definition session_ok (s : TxnSession) (l : list Move) : Prop := map_Forall (λ ident t, entry_ok ident l t) (tables s).

Lemma files_last_of (ops : list TableOp) : (∀ fs, OpAppendFiles fs ∉ ops) → files_last ops.
Proof.
  induction ops as [|[bs|fs|d] ops IH]; intros Hn; cbn; [done|apply IH; set_solver| |apply IH; set_solver].
  destruct (Hn fs). by left.
Qed.
Lemma apply_appends cols (t : TxnTable) (rows : list Row) :
  (∀ d, OpDml d ∉ ops t) → (∀ fs, OpAppendFiles fs ∉ ops t) → apply_ops cols (ops t) rows = rows ++ batch_rows (append_batches t).
Proof.
  unfold append_batches. generalize (ops t) as l. intros l. revert rows.
  induction l as [|[bs|fs|d] l IH]; intros rows Hd Hf; cbn [apply_ops map concat].
  - by rewrite app_nil_r.
  - rewrite IH by set_solver. by rewrite batch_rows_app, app_assoc.
  - destruct (Hf fs). by left.
  - destruct (Hd d). by left.
Qed.
Lemma apply_ops_snoc cols (l : list TableOp) op (rows : list Row) :
  apply_ops cols (l ++ [op]) rows = apply_ops cols [op] (apply_ops cols l rows).
Proof. revert rows. induction l as [|[bs|fs|d] l IH]; intros rows; cbn [app apply_ops]; [done|apply IH..]. Qed.
#[local] Instance apply_op_perm cols op : Proper ((≡ₚ) ==> (≡ₚ)) (apply_ops (Row:=Row) cols [op]).
Proof. intros a b Hp. destruct op; cbn; [by rewrite Hp..|by apply apply_stmt_perm]. Qed.

Lemma head_rows_fit (h : option (Snapshot DataFile)) target :
  Forall (file_ok target) (head_files h) → Forall (fits target) (head_rows h).
Proof.
  destruct h as [s|]; cbn; [|constructor]. unfold snapshot_files, snapshot_rows. destruct (sn_manifests s) as [mfs|]; [|constructor].
  induction mfs as [|mf mfs IH]; cbn; [constructor|]. intros [Hf Hfs]%Forall_app. apply Forall_app. split; [|by apply IH].
  unfold mf_rows. destruct (mf_entries mf) as [es|]; [|constructor]. induction Hf as [|f fs Hf Hfs' IHf]; cbn; [constructor|].
  apply Forall_app. split; [|done]. unfold file_rows. destruct (read_parquet_file f) as [bs|] eqn:Er; [|constructor]. by apply Hf.
Qed.

(** ** Reads *)

(** C11: Every statement of a transaction reads, of a table it touches, the pinned
    rows with the transaction's own operations applied, whichever way the session
    keeps them. *)
Theorem txn_reads_own_writes ident l t v h :
  entry_at ident l t h → effective_provider t = Ok v →
  view_rows v ≡ₚ apply_ops (columns_of ident) (ops t) (head_rows h).
Proof.
  intros ((_ & _ & _ & _ & _ & Hp) & (_ & Hnf) & Hm) Hv. unfold effective_provider in Hv. destruct (materialized t) as [rows|].
  - unfold mem_table in Hv. apply bind_Ok in Hv as (rows' & (u & _ & Hr)%bind_Ok & Hv). injection Hr as <-. injection Hv as <-. apply Hm.
  - rewrite apply_appends by done. destruct (ops t) as [|op l0] eqn:Eo.
    + injection Hv as <-. cbn. unfold append_batches. rewrite Eo. by rewrite app_nil_r.
    + apply bind_Ok in Hv as (ap & (u & _ & Hr)%bind_Ok & Hv). injection Hr as <-. injection Hv as <-. cbn. by rewrite Hp.
Qed.

(** ** Statements *)

(** The log only grows, and not by us; the session's entries stay, their pins
    and the operations they had. *)
Definition grows (s s' : TxnState) : Prop :=
  (∃ new, the_log (ts_server s') = the_log (ts_server s) ++ new ∧ own new = []) ∧
  aborted (ts_session s') = aborted (ts_session s) ∧
  ∀ ident t, tables (ts_session s) !! ident = Some t → ∃ t', tables (ts_session s') !! ident = Some t' ∧
    pinned t' = pinned t ∧ pin_snapshot t' = pin_snapshot t ∧ ∃ more, ops t' = ops t ++ more.
Definition state_ok (s : TxnState) : Prop := session_ok (ts_session s) (the_log (ts_server s)).
#[local] Instance grows_preorder : PreOrder grows.
Proof.
  split.
  - intros s. split_and!; [exists []; by rewrite app_nil_r|done|]. intros ident t Ht. exists t. split_and!; [done..|]. exists [].
    by rewrite app_nil_r.
  - intros s1 s2 s3 ((n1 & L1 & O1) & A1 & T1) ((n2 & L2 & O2) & A2 & T2). split_and!.
    + exists (n1 ++ n2). by rewrite L2, L1, app_assoc, own_app, O1, O2.
    + by rewrite A2, A1.
    + intros ident t Ht. destruct (T1 ident t Ht) as (t1 & Ht1 & P1 & Q1 & m1 & M1).
      destruct (T2 ident t1 Ht1) as (t2 & Ht2 & P2 & Q2 & m2 & M2). exists t2. split_and!; [done|congruence|congruence|].
      exists (m1 ++ m2). by rewrite M2, M1, app_assoc.
Qed.
(** Nothing the files of the tables hold is of another schema. *)
Definition all_files_ok (l : list Move) : Prop := ∀ ident, files_ok ident l.
Lemma all_files_app (l1 l2 : list Move) : all_files_ok (l1 ++ l2) → all_files_ok l1.
Proof. intros Hf ident. by eapply files_ok_prefix. Qed.

(** Steps of a statement, by what holds before and after them. *)
Definition quiet {A} (m : txn A) : Prop :=
  ∀ s s' r, m s = (s', r) → ∃ new, the_log (ts_server s') = the_log (ts_server s) ++ new ∧ own new = [].
Definition spec {A} (Pre : TxnState → Prop) (m : txn A) (Post : A → TxnState → Prop) : Prop :=
  quiet m ∧ ∀ s s' r, m s = (s', r) → state_ok s → Pre s → all_files_ok (the_log (ts_server s')) →
    state_ok s' ∧ grows s s' ∧ ∀ a, r = Good a → Post a s'.

Lemma spec_bind {A B} Pre (m : txn A) Mid (f : A → txn B) Post :
  spec Pre m Mid → (∀ a, spec (Mid a) (f a) Post) → spec Pre (x ← m; f x) Post.
Proof.
  intros [Qm Hm] Hf. split.
  - intros s s' r Hr. unfold mbind, txn_bind in Hr. destruct (m s) as [s1 [a|err]] eqn:Em.
    + destruct (Qm _ _ _ Em) as (n1 & L1 & O1). destruct (proj1 (Hf a) _ _ _ Hr) as (n2 & L2 & O2).
      exists (n1 ++ n2). by rewrite L2, L1, app_assoc, own_app, O1, O2.
    + injection Hr as <- <-. by apply (Qm _ _ _ Em).
  - intros s s' r Hr Hok Hpre Hfiles. unfold mbind, txn_bind in Hr. destruct (m s) as [s1 [a|err]] eqn:Em.
    + destruct (proj1 (Hf a) _ _ _ Hr) as (n2 & L2 & O2).
      destruct (Hm _ _ _ Em Hok Hpre) as (Hok1 & G1 & Hmid); [rewrite L2 in Hfiles; by apply all_files_app in Hfiles|].
      destruct (proj2 (Hf a) _ _ _ Hr Hok1 (Hmid a eq_refl) Hfiles) as (Hok2 & G2 & Hpost).
      split_and!; [done|by etrans|done].
    + injection Hr as <- <-. destruct (Hm _ _ _ Em Hok Hpre Hfiles) as (? & ? & _). by split_and!.
Qed.
Lemma spec_ret {A} (a : A) Post : spec (Post a) (mret a) Post.
Proof.
  split; intros s s' r Hr; injection Hr as <- <-; [exists []; by rewrite app_nil_r|].
  intros Hok Hpre _. split_and!; [done|reflexivity|]. by intros a' [= <-].
Qed.
Lemma spec_pure {A} Pre (r : attempt A) Post : 
  (∀ a s, r = Good a → Pre s → state_ok s → all_files_ok (the_log (ts_server s)) → Post a s) → spec Pre (pure_attempt r) Post.
Proof.
  intros HP. split; intros s s' r' Hr; injection Hr as <- <-; [exists []; by rewrite app_nil_r|].
  intros Hok Hpre Hf. split_and!; [done|reflexivity|]. intros a ->. by eapply HP.
Qed.
Lemma spec_result {A} Pre (r : result A) Post : 
  (∀ a s, r = Ok a → Pre s → state_ok s → all_files_ok (the_log (ts_server s)) → Post a s) → spec Pre (pure_result r) Post.
Proof. intros HP. apply spec_pure. intros a s Ha%lift_Good. by apply HP. Qed.
Lemma spec_bind_attempt {A B} Pre (r : attempt A) (f : A → txn B) Post :
  (∀ a, r = Good a → spec Pre (f a) Post) → spec Pre (x ← pure_attempt r; f x) Post.
Proof.
  intros Hf. destruct r as [a|err].
  - exact (Hf a eq_refl).
  - exact (spec_pure Pre (Bad err) Post ltac:(done)).
Qed.
Lemma spec_bind_result {A B} Pre (r : result A) (f : A → txn B) Post :
  (∀ a, r = Ok a → spec Pre (f a) Post) → spec Pre (x ← pure_result r; f x) Post.
Proof. intros Hf. apply spec_bind_attempt. intros a Ha%lift_Good. by apply Hf. Qed.
Lemma spec_pre {A} (Pre Pre' : TxnState → Prop) (m : txn A) Post : (∀ s, Pre' s → Pre s) → spec Pre m Post → spec Pre' m Post.
Proof. intros HP [Q Hm]. split; [done|]. intros s s' r Hr Hok Hp'. by apply Hm; [..|apply HP]. Qed.
Lemma spec_get ident Pre : spec Pre (get_table ident) (λ o s, o = tables (ts_session s) !! ident ∧ Pre s).
Proof.
  split; intros s s' r Hr; injection Hr as <- <-; [exists []; by rewrite app_nil_r|].
  intros Hok Hpre _. split_and!; [done|reflexivity|]. by intros o [= <-].
Qed.
(** Writing an entry that continues the one before. *)
Definition continues (t t' : TxnTable) : Prop :=
  pinned t' = pinned t ∧ pin_snapshot t' = pin_snapshot t ∧ ∃ more, ops t' = ops t ++ more.
Lemma spec_put ident t' (Post : unit → TxnState → Prop) :
  spec (λ s, entry_ok ident (the_log (ts_server s)) t' ∧
             (∀ t, tables (ts_session s) !! ident = Some t → continues t t') ∧
             Post tt {| ts_server := ts_server s;
                        ts_session := {| aborted := aborted (ts_session s); tables := <[ident := t']> (tables (ts_session s)) |} |})
    (put_table ident t') Post.
Proof.
  split; intros s s' r Hr; injection Hr as <- <-; [exists []; by rewrite app_nil_r|].
  intros Hok (Hent & Hcont & Hpost) _. split_and!; [|split_and!|].
  - unfold state_ok, session_ok. cbn. by apply map_Forall_insert_2.
  - exists []. by rewrite app_nil_r.
  - done.
  - intros i t Ht. cbn. destruct (decide (i = ident)) as [->|Hne].
    + exists t'. rewrite lookup_insert_eq. split; [done|]. by apply Hcont.
    + exists t. rewrite lookup_insert_ne by done. split_and!; [done..|]. exists []. by rewrite app_nil_r.
  - by intros [] _.
Qed.

(** ** Pins *)
Lemma entry_ok_mono ident t (l new : list Move) : entry_ok ident l t → entry_ok ident (l ++ new) t.
Proof.
  intros (h & (Hs & Hp & (l0 & Hl0 & Hh) & Hrest) & Hb). exists h. split; [|done]. split_and!; [done..| |apply Hrest|apply Hrest|apply Hrest].
  exists l0. split; [|done]. by apply prefix_app_r.
Qed.
Lemma session_ok_mono s (l new : list Move) : session_ok s l → session_ok s (l ++ new).
Proof. intros Hs. eapply map_Forall_impl; [exact Hs|]. intros ident t. apply entry_ok_mono. Qed.

Lemma pin_provider tb h p :
  branch_head tb (branch e) = Ok h →
  match sn_id <$> h with
  | Some id => if String.eqb (branch e) MAIN_BRANCH then try_new_from_table tb else try_new_from_table_snapshot tb id
  | None => try_new_from_table tb
  end = Ok p → provider_rows p ≡ₚ head_rows h.
Proof.
  intros Hh Hp. unfold branch_head in Hh. destruct (String.eqb (branch e) MAIN_BRANCH) eqn:Eb.
  - injection Hh as <-. apply current_rows. by destruct (tb_current tb).
  - destruct h as [s|].
    + cbn in Hp. apply (snapshot_rows_of tb (sn_id s) p (branch e)); [done| |done]. unfold branch_head. by rewrite Eb.
    + by destruct (tb_ref tb (branch e)).
Qed.
Lemma pin_spec ident sv sv' r :
  pin e ident sv = (sv', r) → (∃ new, the_log sv' = the_log sv ++ new ∧ own new = []) ∧
  ∀ t, r = Good t → ops t = [] ∧ ∃ h, entry_at ident (the_log sv') t h.
Proof.
  intros Hp. unfold pin in Hp.
  apply eng_bind_inv in Hp as [(err & (l & Hl & Ho & _)%load_spec & ->)|(tb & sv1 & Hload & Hp)]; [split; [by exists l|done]|].
  pose proof Hload as (l & Hl & Ho & _)%load_spec. assert (∃ new, the_log sv1 = the_log sv ++ new ∧ own new = []) as Hgrow by (by exists l).
  apply (load_read _ (the_log sv)) in Hload as (Hserved & Hi & Hs & l1 & _ & Hl1 & Hh); [|done].
  apply eng_bind_inv in Hp as [(err & [-> _]%of_attempt_inv & ->)|(h & sv2 & [-> Hbh]%of_attempt_inv & Hp)]; [by split|].
  symmetry in Hbh. apply lift_Good in Hbh.
  apply eng_bind_inv in Hp as [(err & [-> _]%of_attempt_inv & ->)|(p & sv2 & [-> Hpr]%of_attempt_inv & Hp)]; [by split|].
  symmetry in Hpr. apply lift_Good in Hpr. apply of_attempt_inv in Hp as [-> ->]. split; [done|]. intros t [= <-]. split; [done|].
  exists h. split; [|split].
  - unfold pinned_at. cbn. split_and!; [done|done|exists l1; split; [done|by apply Hh]|done| |by apply (pin_provider tb)].
    unfold tb_columns, columns_of. by rewrite Hs.
  - split; [constructor|]. intros fs Hfs. by apply not_elem_of_nil in Hfs.
  - intros d Hd. by apply not_elem_of_nil in Hd.
Qed.

(** The entry in the session. *)
Definition has_entry (ident : TableIdent) (t : TxnTable) (s : TxnState) : Prop := tables (ts_session s) !! ident = Some t.
Lemma state_entry ident t s : state_ok s → has_entry ident t s → entry_ok ident (the_log (ts_server s)) t.
Proof. intros Hs Ht. exact (Hs ident t Ht). Qed.

Lemma spec_pin ident Pre :
  spec (λ s : TxnState, tables (ts_session s) !! ident = None ∧ Pre s) (on_server (pin e ident))
    (λ (t : TxnTable) (s : TxnState), tables (ts_session s) !! ident = None ∧ ops t = [] ∧ entry_ok ident (the_log (ts_server s)) t).
Proof.
  assert (∀ (s s' : TxnState) r, on_server (pin e ident) s = (s', r) → ts_session s' = ts_session s ∧
    (∃ new, the_log (ts_server s') = the_log (ts_server s) ++ new ∧ own new = []) ∧
    ∀ t, r = Good t → ops t = [] ∧ entry_ok ident (the_log (ts_server s')) t) as Hpin.
  { intros s s' r Hr. unfold on_server in Hr. destruct (pin e ident (ts_server s)) as [sv r'] eqn:Ep. injection Hr as <- <-.
    apply pin_spec in Ep as [Hg Ht]. split_and!; [done..|]. intros t Hrt. destruct (Ht t Hrt) as (Ho & h & Hh). split; [done|]. by exists h. }
  split.
  - intros s s' r Hr. by apply Hpin in Hr as (_ & ? & _).
  - intros s s' r Hr Hok [Hn _] _. apply Hpin in Hr as (Hsess & (new & Hl & Ho) & Ht). split_and!.
    + unfold state_ok. rewrite Hsess, Hl. by apply session_ok_mono.
    + split_and!; [by exists new|by rewrite Hsess|]. intros i t Hi. exists t. rewrite Hsess. split_and!; [done..|]. exists []. by rewrite app_nil_r.
    + intros t Hrt. rewrite Hsess. split; [done|]. by apply Ht.
Qed.
Lemma spec_pin_table ident Pre : spec Pre (pin_table e ident) (λ t s, has_entry ident t s).
Proof.
  unfold pin_table. eapply spec_bind; [apply spec_get|]. intros [t|].
  - eapply spec_pre; [|apply (spec_ret t (λ t s, has_entry ident t s))]. by intros s [Ht _].
  - eapply spec_bind; [eapply spec_pre; [|apply (spec_pin ident (λ _, True))]; by intros s [? _]|]. intros t. cbn.
    eapply spec_bind.
    + eapply spec_pre; [|apply (spec_put ident t (λ _ s, has_entry ident t s))]. intros s (Hn & _ & Hent). split_and!; [done| |].
      * intros t' Ht'. by rewrite Hn in Ht'.
      * unfold has_entry. cbn. by rewrite lookup_insert_eq.
    + intros []. apply (spec_ret t (λ t s, has_entry ident t s)).
Qed.

Lemma spec_true {A} (a : A) Pre : spec Pre (mret a) (λ _ _, True).
Proof. eapply spec_pre; [|apply (spec_ret a (λ _ _, True))]. done. Qed.
Lemma spec_resolve r Pre : spec Pre (resolve e r) (λ _ _, True).
Proof.
  unfold resolve. destruct (negb _); [apply spec_true|]. destruct (_ || _); [apply spec_true|].
  destruct (_ || _); [apply spec_true|]. destruct (negb _); [apply spec_true|].
  eapply spec_bind; [apply spec_pin_table|]. intros t. eapply spec_bind; [by apply (spec_result _ _ (λ _ _, True))|].
  intros v. apply spec_true.
Qed.
Lemma spec_resolve_all rs Pre : spec Pre (resolve_all e rs) (λ _ _, True).
Proof.
  revert Pre. induction rs as [|r rs IH]; intros Pre; cbn [resolve_all]; [apply spec_true|].
  eapply spec_bind; [apply spec_resolve|]. intros x. eapply spec_bind; [apply IH|]. intros xs. apply spec_true.
Qed.

(** ** Buffering an operation *)
Lemma entry_continues ident l t t' h :
  pinned t' = pinned t → pin_snapshot t' = pin_snapshot t → pinned_provider t' = pinned_provider t → schema t' = schema t →
  columns t' = columns t → pinned_at ident t l h → pinned_at ident t' l h.
Proof. intros E1 E2 E3 E4 E5. unfold pinned_at. by rewrite E1, E2, E3, E4, E5. Qed.
Lemma buffer_entry ident l t op m h :
  entry_at ident l t h → op_ok (table_schema ident) op → (∀ fs, op ≠ OpAppendFiles fs) →
  match m with
  | Some rows => batch_rows rows ≡ₚ apply_ops (columns_of ident) (ops t ++ [op]) (head_rows h) ∧ batches_ok (table_schema ident) rows
  | None => materialized t = None ∧ ∀ d, op ≠ OpDml d
  end → entry_at ident l (buffer_op op m t) h.
Proof.
  intros (Hp & (Ho & Hn) & Hm) Hop Hnf Hmat. split; [by apply (entry_continues ident l t)|]. split.
  - split; cbn; [apply Forall_app; split; [done|by apply Forall_singleton]|]. intros fs [Hin|Hin]%elem_of_app; [by apply (Hn fs)|].
    apply list_elem_of_singleton in Hin as <-. by apply (Hnf fs).
  - cbn. destruct m as [rows|]; [done|]. destruct Hmat as [Hnone Hnd]. rewrite Hnone in Hm.
    intros d [Hin|Hin]%elem_of_app; [by apply (Hm d)|]. apply list_elem_of_singleton in Hin as <-. by apply (Hnd d).
Qed.
Lemma put_buffered ident t op m (Post : unit → TxnState → Prop) :
  spec (λ s, has_entry ident t s ∧ (∃ h, entry_at ident (the_log (ts_server s)) (buffer_op op m t) h) ∧
             Post tt {| ts_server := ts_server s;
                        ts_session := {| aborted := aborted (ts_session s); tables := <[ident := buffer_op op m t]> (tables (ts_session s)) |} |})
    (put_table ident (buffer_op op m t)) Post.
Proof.
  eapply spec_pre; [|apply spec_put]. intros s (He & Hent & Hpost). split_and!; [done| |done].
  intros t' Ht'. unfold has_entry in He. rewrite He in Ht'. injection Ht' as <-. split_and!; [done..|by eexists].
Qed.

(** The answer to a statement, and the view it was given in: the entry's last
    operation is the statement's. *)
Definition answered_in (ident : TableIdent) (op : TableOp) (tag : string) (resp : Response Rows) (s : TxnState) : Prop :=
  ∃ t before h, has_entry ident t s ∧ entry_at ident (the_log (ts_server s)) t h ∧ ops t = before ++ [op] ∧
    resp = Execution tag (head (op_counts (columns_of ident) [op] (apply_ops (columns_of ident) before (head_rows h)))).

Lemma insert_buffered ident t aligned s :
  has_entry ident t s → state_ok s → batches_ok (table_schema ident) aligned →
  ∃ h, entry_at ident (the_log (ts_server s)) (buffer_op (OpAppend aligned) ((λ m, m ++ aligned) <$> materialized t) t) h.
Proof.
  intros He Hs Hal. destruct (state_entry _ _ _ Hs He) as [h Hh]. exists h. apply buffer_entry; [done|done|done|].
  destruct Hh as (_ & (_ & Hn) & Hm). destruct (materialized t) as [rows|]; [|done]. destruct Hm as [Hr [Hb1 Hb2]].
  destruct Hal as [Ha1 Ha2]. cbn [fmap option_fmap option_map]. rewrite apply_ops_snoc. cbn [apply_ops]. rewrite batch_rows_app, Hr. split; [done|].
  split; [by apply Forall_app|]. rewrite batch_rows_app. by apply Forall_app.
Qed.

Lemma spec_insert body params :
  spec (λ _, True) (txn_insert e body params) (λ resp s, ∃ ident batches, answered_in ident (OpAppend batches) "INSERT" resp s).
Proof.
  unfold txn_insert. eapply spec_bind; [apply spec_resolve_all|]. intros sources.
  eapply spec_bind; [by apply (spec_result _ _ (λ _ _, True))|]. intros [tref batches].
  eapply spec_bind; [by apply (spec_result _ _ (λ _ _, True))|]. intros ident.
  eapply spec_bind; [apply spec_get|]. intros [t|]; [|by apply spec_pure].
  eapply spec_bind.
  { apply (spec_result _ _ (λ aligned s, has_entry ident t s ∧ batches_ok (table_schema ident) aligned)).
    intros aligned s Ha [Ht _] Hs _. split; [done|]. destruct (state_entry ident t s Hs (eq_sym Ht)) as (h & (_ & _ & _ & Hsch & _) & _).
    rewrite Hsch in Ha. by apply align_all in Ha as [_ ?]. }
  intros aligned. eapply spec_bind.
  { apply (spec_result _ _ (λ _ s, has_entry ident t s ∧ batches_ok (table_schema ident) aligned)). by intros. }
  intros pk. eapply spec_bind.
  { instantiate (1 := λ _ s, (has_entry ident t s ∧ state_ok s) ∧ batches_ok (table_schema ident) aligned).
    destruct pk as [cols|]; [by apply spec_pure; intros ? ? _ [? ?] ? _|].
    by apply (spec_pure _ (Good tt)); intros ? ? _ [? ?] ? _. }
  intros []. eapply spec_bind.
  { eapply spec_pre; [|apply (put_buffered ident t (OpAppend aligned) _
      (λ _ s, answered_in ident (OpAppend aligned) "INSERT" (Execution "INSERT" (Some (total_rows aligned))) s))].
    intros s ((He & Hs) & Hal). destruct (insert_buffered ident t aligned s He Hs Hal) as [h Hh]. split_and!; [done|by exists h|].
    exists (buffer_op (OpAppend aligned) ((λ m, m ++ aligned) <$> materialized t) t), (ops t), h. split_and!; [|done|done|].
    - unfold has_entry. cbn. by rewrite lookup_insert_eq.
    - cbn. by rewrite total_rows_of. }
  intros []. eapply spec_pre; [|apply (spec_ret _ (λ resp s, ∃ ident batches, answered_in ident (OpAppend batches) "INSERT" resp s))].
  intros s Ha. by exists ident, aligned.
Qed.

Lemma materialize_entry ident l t h t' rows :
  entry_at ident l t h → all_files_ok l → materialize t = Ok (t', rows) →
  entry_at ident l t' h ∧ continues t t' ∧ ops t' = ops t ∧ materialized t' = Some rows.
Proof.
  intros Hent Hf Hm. unfold materialize in Hm. destruct (materialized t) as [rows0|] eqn:Em.
  { injection Hm as <- <-. split_and!; [done|split_and!; [done..|exists []; by rewrite app_nil_r]|done|done]. }
  destruct Hent as (Hp & (Ho & Hn) & Hd). rewrite Em in Hd. pose proof Hp as (_ & _ & (l0 & Hl0 & Hh) & Hsch & Hcols & Hprov).
  apply bind_Ok in Hm as (bs & Hbs & Hm). apply bind_Ok in Hm as (al & Hal & Hm). injection Hm as <- <-.
  apply scan_rows_of in Hbs. rewrite Hprov in Hbs.
  assert (Forall (fits (table_schema ident)) (head_rows h)) as Hfit.
  { apply head_rows_fit. rewrite Hh. destruct Hl0 as [k ->]. apply (head_files_ok ident (branch e) l0 k), Hf. }
  rewrite Hsch in Hal. apply aligned_spec in Hal as [Har [Hn1 Hn2]]; [|by rewrite Hbs].
  assert (batches_ok (table_schema ident) (append_batches t)) as [Hb1 Hb2].
  { unfold append_batches. clear -Ho Hn. induction Ho as [|op l' Hop Ho IH]; [by split; constructor|]. cbn [map concat].
    destruct IH as [I1 I2]; [set_solver|]. destruct op as [b|fs|d]; [|by destruct (Hn fs); left|done]. destruct Hop as [O1 O2].
    split; [by apply Forall_app|]. rewrite batch_rows_app. by apply Forall_app. }
  split_and!; [|split_and!; [done..|exists []; by rewrite app_nil_r]|done|done].
  split; [by apply (entry_continues ident l t)|]. split; [done|]. cbn [set_materialized materialized ops].
  rewrite apply_appends by done. rewrite batch_rows_app, Har, Hbs. split; [done|]. split; [by apply Forall_app|].
  rewrite batch_rows_app, Har, Hbs. apply Forall_app. by split.
Qed.

Lemma spec_dml (stmt : Statement Expr Body) :
  (∀ d tag, translate stmt = Ok (Some (d, tag)) → well_typed (table_schema (stmt_ident d)) d) →
  spec (λ _, True) (txn_dml (Rows:=Rows) e stmt)
    (λ resp s, ∃ d tag, translate stmt = Ok (Some (d, tag)) ∧ answered_in (stmt_ident d) (OpDml d) (tag_name tag) resp s).
Proof.
  intros Hty. unfold txn_dml. apply spec_bind_result. intros [[d tag]|] Htr; [|by apply spec_pure].
  specialize (Hty d tag Htr). eapply spec_bind; [apply (spec_pin_table (stmt_ident d))|]. intros t0.
  eapply spec_bind.
  { apply (spec_result _ _ (λ tr s, has_entry (stmt_ident d) t0 s ∧ ∃ h, entry_at (stmt_ident d) (the_log (ts_server s)) (fst tr) h ∧
      continues t0 (fst tr) ∧ materialized (fst tr) = Some (snd tr))).
    intros [t rows] s Hm He Hs Hf. split; [done|]. destruct (state_entry _ _ _ Hs He) as [h Hh]. exists h.
    by destruct (materialize_entry _ _ _ _ _ _ Hh Hf Hm) as (? & ? & _ & ?). }
  intros [t rows]. cbn [fst snd]. eapply spec_bind.
  { eapply spec_pre; [|apply (spec_put (stmt_ident d) t (λ _ s, has_entry (stmt_ident d) t s ∧ materialized t = Some rows))].
    intros s (He & h & Hh & Hc & Hm). split_and!; [by exists h| |unfold has_entry; cbn; by rewrite lookup_insert_eq|done].
    intros t' Ht'. unfold has_entry in He. rewrite He in Ht'. by injection Ht' as <-. }
  intros []. apply spec_bind_result. intros [matched out] Happ. apply spec_bind_result. intros aligned Hal.
  eapply spec_bind.
  { instantiate (1 := λ _ s, (has_entry (stmt_ident d) t s ∧ materialized t = Some rows) ∧ state_ok s).
    assert (∀ r : attempt unit, spec (λ s, has_entry (stmt_ident d) t s ∧ materialized t = Some rows) (pure_attempt r)
      (λ _ s, (has_entry (stmt_ident d) t s ∧ materialized t = Some rows) ∧ state_ok s)) as Hpure by (intros r; by apply spec_pure).
    destruct (dml_kind d) as [|asg]; [apply (Hpure (Good tt))|]. apply spec_bind_result. intros [cols|] _; [|apply (Hpure (Good tt))].
    destruct (_ && _); [|apply (Hpure (Good tt))]. apply spec_bind_result. intros keys _. apply Hpure. }
  intros []. eapply spec_bind.
  { eapply spec_pre; [|apply (put_buffered (stmt_ident d) t (OpDml d) (Some aligned)
      (λ _ s, answered_in (stmt_ident d) (OpDml d) (tag_name tag) (Execution (tag_name tag) (Some matched)) s))].
    intros s ((He & Hm) & Hs). destruct (state_entry _ _ _ Hs He) as [h Hh]. pose proof Hh as ((_ & _ & _ & Hsch & Hcols & _) & _ & Hmat).
    rewrite Hm in Hmat. destruct Hmat as [Hrows Hok]. rewrite Hcols in Happ. rewrite Hsch in Hal.
    apply (apply_dml_spec (table_schema (stmt_ident d))) in Happ as (-> & Hout & Hout2); [|done|done].
    apply aligned_spec in Hal as [Hal1 Hal2]; [|apply Hout2].
    assert (entry_at (stmt_ident d) (the_log (ts_server s)) (buffer_op (OpDml d) (Some aligned) t) h) as Hnew.
    { apply buffer_entry; [done|done|done|]. split; [|done]. rewrite apply_ops_snoc, Hal1, Hout. cbn [apply_ops].
      by apply apply_stmt_perm. }
    split_and!; [done|by exists h|]. exists (buffer_op (OpDml d) (Some aligned) t), (ops t), h. split_and!; [|done|done|].
    - unfold has_entry. cbn. by rewrite lookup_insert_eq.
    - cbn. by rewrite Hrows. }
  intros []. eapply spec_pre; [|apply (spec_ret _ (λ resp s, ∃ d tag, translate stmt = Ok (Some (d, tag)) ∧
    answered_in (stmt_ident d) (OpDml d) (tag_name tag) resp s))].
  intros s Ha. by exists d, tag.
Qed.

Lemma spec_select body : spec (λ _, True) (txn_select e body) (λ _ _, True).
Proof.
  unfold txn_select. eapply spec_bind; [apply spec_resolve_all|]. intros sources. apply spec_bind_result. intros rows _. apply spec_true.
Qed.

(** ** The transaction *)

(** What a statement may do to the server and the session, and answer. *)
Definition statement_ok (sv : Server W) (s : TxnSession) (sv' : Server W) (s' : TxnSession) (reply : Reply (Rows:=Rows)) : Prop :=
  session_ok s' (the_log sv') ∧ (∃ new, the_log sv' = the_log sv ++ new ∧ own new = []) ∧
  (∀ ident t, tables s !! ident = Some t → ∃ t', tables s' !! ident = Some t' ∧
    pinned t' = pinned t ∧ pin_snapshot t' = pin_snapshot t ∧ ∃ more, ops t' = ops t ++ more) ∧
  ∀ tag n, reply = Answer (inl (Execution tag (Some n))) →
    ∃ ident op, answered_in ident op tag (Execution tag (Some n)) {| ts_server := sv'; ts_session := s' |}.
Lemma statement_none sv s s' reply :
  session_ok s (the_log sv) → tables s' = tables s → (∀ resp, reply ≠ Answer (inl resp)) → statement_ok sv s sv s' reply.
Proof.
  intros Hs Ht Hr. split_and!.
  - unfold session_ok. by rewrite Ht.
  - exists []. by rewrite app_nil_r.
  - intros ident t Hi. exists t. rewrite Ht. split_and!; [done..|]. exists []. by rewrite app_nil_r.
  - intros tag n Hn. by apply Hr in Hn.
Qed.
Lemma run_in_txn_sound (m : txn (Response Rows)) Post sv s sv' s' reply :
  spec (λ _, True) m Post → (∀ tag n st, Post (Execution tag (Some n)) st → ∃ ident op, answered_in ident op tag (Execution tag (Some n)) st) →
  session_ok s (the_log sv) → all_files_ok (the_log sv') → run_in_txn m sv s = (sv', s', reply) → statement_ok sv s sv' s' reply.
Proof.
  intros [_ Hm] Hpost Hs Hf Hr. unfold run_in_txn in Hr.
  destruct (m {| ts_server := sv; ts_session := s |}) as [st r] eqn:Em. injection Hr as <- <- <-.
  destruct (Hm _ _ _ Em Hs I Hf) as (Hok & (Hlog & _ & Hents) & Hp). destruct r as [resp|err].
  - split_and!; [done|done|done|]. intros tag n Hresp. injection Hresp as ->. specialize (Hp _ eq_refl). apply Hpost in Hp.
    by destruct st.
  - destruct err; (split_and!; [done|done|done|by intros tag n]).
Qed.

End View.
