(* ===== verification/TxnCommit.v ===== *)
(** * COMMIT

    What a COMMIT makes of a session: every table's snapshot is the one the
    transaction saw, made on the head it was pinned at; several tables in one
    request are all or nothing; which errors say that nothing was applied. *)
From stdpp Require Import sorting.
From S2P Require Import Prelude Text TailNames Keyed TableOps Freshness Overwrite OverwriteRows Engine EngineLog Dml Txn TxnView.
#[local] Open Scope N_scope.

Section Commit.
Context {W RecordBatch ArrayRef DataFile Row Expr Body Rows Provider : Type} `{EngineLaws RecordBatch ArrayRef DataFile Row}
  `{CatalogLaws W DataFile} `{SqlAst Expr} `{!ReadProvider Provider RecordBatch DataFile}
  `{!ReadProviderLaws Provider RecordBatch ArrayRef DataFile Row} `{TxnPlanner Body Rows Provider RecordBatch}.
#[local] Abbreviation TableOp := (TableOp RecordBatch DataFile).
#[local] Abbreviation TxnTable := (TxnTable Provider RecordBatch DataFile).
#[local] Abbreviation TxnSession := (TxnSession (RecordBatch:=RecordBatch) (DataFile:=DataFile) (Provider:=Provider)).
#[local] Abbreviation Move := (Move DataFile).
#[local] Abbreviation PreparedCommit := (PreparedCommit DataFile).
Variable e : OverwriteEngine.

Definition move_to (ident : TableIdent) (s : Snapshot DataFile) : Move :=
  {| mv_mine := true; mv_ident := ident; mv_branch := branch e; mv_head := Some s |}.
Definition own_on (ident : TableIdent) (l : list Move) : list Move := List.filter (λ m, bool_decide (mv_ident m = ident)) (own l).
(** The operations reached the table: one commit, on the head [h], whose rows are
    those of [h] with [ops] applied; or they change nothing. *)
Definition settled (ident : TableIdent) (h : option (Snapshot DataFile)) (ops : list TableOp) (before new : list Move) : Prop :=
  (∃ l1 l2 s, new = l1 ++ move_to ident s :: l2 ∧ own_on ident l1 = [] ∧ own_on ident l2 = [] ∧
     head_of (before ++ l1) ident (branch e) = h ∧ snapshot_rows s ≡ₚ apply_ops (columns_of ident) ops (head_rows h)) ∨
  (own_on ident new = [] ∧ apply_ops (columns_of ident) ops (head_rows h) ≡ₚ head_rows h).

Lemma own_on_app ident (a b : list Move) : own_on ident (a ++ b) = own_on ident a ++ own_on ident b.
Proof. unfold own_on. by rewrite own_app, List.filter_app. Qed.
Lemma own_on_nil ident (l : list Move) : own l = [] → own_on ident l = [].
Proof. unfold own_on. by intros ->. Qed.
Lemma own_on_other ident ident' s : ident ≠ ident' → own_on ident [move_to ident' s] = [].
Proof. intros Hne. unfold own_on. cbn. rewrite bool_decide_eq_false_2; [done|]. cbn. congruence. Qed.
Lemma settled_around ident h ops before (l new l' : list Move) :
  own_on ident l = [] → own_on ident l' = [] → settled ident h ops (before ++ l) new → settled ident h ops before (l ++ new ++ l').
Proof.
  intros Hl Hl' [(l1 & l2 & s & -> & Ho1 & Ho2 & Hh & Hr)|[Ho Hr]].
  - left. exists (l ++ l1), (l2 ++ l'), s. rewrite !own_on_app, Hl, Hl', Ho1, Ho2. split_and!; [|done|done|by rewrite app_assoc|done].
    by rewrite <-!app_assoc.
  - right. by rewrite !own_on_app, Hl, Hl', Ho.
Qed.

(** ** Pinned preparations *)

(** A prepared commit of [ops] on the head [h]. *)
Definition prepared_on (ident : TableIdent) (h : option (Snapshot DataFile)) (ops : list TableOp) (out : option PreparedCommit) : Prop :=
  match out with
  | None => apply_ops (columns_of ident) ops (head_rows h) ≡ₚ head_rows h
  | Some p => move_of (pc_request p) = move_to ident (rq_snapshot (pc_request p)) ∧ rq_head (pc_request p) = sn_id <$> h ∧
      snapshot_rows (rq_snapshot (pc_request p)) ≡ₚ apply_ops (columns_of ident) ops (head_rows h)
  end.
Definition pinned_head (ident : TableIdent) (h : option (Snapshot DataFile)) (l : list Move) : Prop :=
  ∃ l0, l0 `prefix_of` l ∧ h = head_of l0 ident (branch e).
Lemma pinned_head_mono ident h (l new : list Move) : pinned_head ident h l → pinned_head ident h (l ++ new).
Proof. intros (l0 & Hp & Hh). exists l0. split; [by apply prefix_app_r|done]. Qed.

Lemma prepare_pinned_spec ident h (l : list TableOp) sv sv' r :
  buffered_ok ident l → pinned_head ident h (the_log sv) →
  prepare_pinned e ident (sn_id <$> h) l sv = (sv', r) →
  (∃ new, the_log sv' = the_log sv ++ new ∧ own new = []) ∧ sv_endpoint sv' = sv_endpoint sv ∧
  ∀ out, r = Good out → files_ok ident (the_log sv') → prepared_on ident h l out.
Proof.
  intros [Hops Hnf] (l0 & [k Hk] & Hh) Hr. apply files_last_of in Hnf. unfold prepare_pinned in Hr.
  apply eng_bind_inv in Hr as [(err & (n & Hn & Ho & He & _)%load_spec & ->)|(tb & sv1 & Hload & Hr)].
  { split_and!; [by exists n|done|done]. }
  apply load_spec in Hload as (n & Hn & Ho & He & Hg).
  destruct (Hg tb eq_refl) as (Hi & Hs & l1 & l2 & -> & Hbr). assert (∃ new, the_log sv1 = the_log sv ++ new ∧ own new = []) as Hgrow by (by eexists).
  apply eng_bind_inv in Hr as [(err & [-> _]%of_attempt_inv & ->)|(h' & sv2 & [-> Hh']%of_attempt_inv & Hr)]; [by split_and!|].
  symmetry in Hh'. apply lift_Good in Hh'. destruct (decide _) as [Hid|_].
  2: { apply of_attempt_inv in Hr as [-> ->]. by split_and!. }
  apply eng_bind_inv in Hr as [(err & [-> _]%of_attempt_inv & ->)|(pk & sv2 & [-> _]%of_attempt_inv & Hr)]; [by split_and!|].
  apply prepare_spec in Hr as (Hp & He' & id & ->). rewrite Hp. split_and!; [done|congruence|]. intros out Hout Hf.
  pose proof (Hbr _ _ Hh') as Hh'l. rewrite Hh'l, Hh in Hid.
  apply (head_of_same (sv_world sv1) _ _ l2 (k ++ l1 ++ l2)) in Hid.
  2: { fold (the_log sv1). by rewrite Hn, <-app_assoc. }
  2: { fold (the_log sv1). by rewrite Hn, Hk, <-app_assoc. }
  assert (h' = h) as -> by congruence. rewrite <-Hs in Hops.
  assert (Forall (file_ok (tb_schema tb)) (head_files h)) as Hfiles.
  { rewrite Hs, Hh'l. apply (head_files_ok ident (branch e) _ l2). by rewrite <-app_assoc, <-Hn. }
  pose proof (prepare_commit_spec _ _ _ _ _ _ _ _ Hh' Hops Hnf Hfiles Hout) as Hspec.
  unfold prepared_on, columns_of. rewrite <-Hs. destruct out as [p|].
  - destruct (prepared_request _ _ _ _ _ _ _ Hout) as (R1 & R2 & _). destruct Hspec as (S1 & _ & S3). split_and!; [|done|done].
    unfold move_of, move_to. by rewrite R1, R2, Hi.
  - destruct Hspec as (? & ? & ?). by apply nothing_to_do.
Qed.

(** A request accepted after it was prepared replaces the head it was made on. *)
Lemma applied_head w ident h (p : PreparedCommit) (before l1 k : list Move) l :
  prepared_on ident h l (Some p) → pinned_head ident h before → log w = (before ++ l1) ++ k →
  sn_id <$> head_of (before ++ l1) (rq_ident (pc_request p)) (rq_branch (pc_request p)) = rq_head (pc_request p) →
  head_of (before ++ l1) ident (branch e) = h.
Proof.
  intros (Hm & Hq & _) (l0 & [k0 Hk] & Hh) Hw He. unfold move_of, move_to in Hm. injection Hm as Hi Hb. rewrite Hi, Hb, Hq in He.
  rewrite Hh in He |- *. apply (head_of_same w _ _ k (k0 ++ l1 ++ k)); [done|by rewrite Hw, Hk, <-!app_assoc|done].
Qed.

(** Our moves are one stretch of the log. *)
Definition at_once (new : list Move) : Prop := ∃ l1 l2, new = l1 ++ own new ++ l2 ∧ own l1 = [] ∧ own l2 = [].
Lemma at_once_none (new : list Move) : own new = [] → at_once new.
Proof. intros Hn. exists [], new. by rewrite Hn. Qed.
Lemma own_moves (rqs : list (CommitTableRequest DataFile)) : own (map move_of rqs) = map move_of rqs.
Proof. unfold own. induction rqs as [|rq rqs IH]; [done|]. cbn. by f_equal. Qed.
Lemma at_once_applied rqs (before n1 n2 : list Move) : own n1 = [] → applied rqs before n2 → at_once (n1 ++ n2).
Proof.
  intros Ho (a & b & -> & Ha & Hb & _). exists (n1 ++ a), b. rewrite !own_app, Ho, Ha, Hb, own_moves. cbn. rewrite app_nil_r, <-app_assoc.
  done.
Qed.

Lemma commit_pinned_spec ident h (l : list TableOp) sv sv' r :
  buffered_ok ident l → pinned_head ident h (the_log sv) → files_ok ident (the_log sv') →
  commit_pinned e ident (sn_id <$> h) l sv = (sv', r) →
  ∃ new, the_log sv' = the_log sv ++ new ∧ (∀ ident', ident' ≠ ident → own_on ident' new = []) ∧
    match r with
    | Good _ => settled ident h l (the_log sv) new
    | Bad err => own new = [] ∨ ∃ msg, err = OtherError msg ∧ settled ident h l (the_log sv) new ∧ at_once new
    end.
Proof.
  intros Hb Hh Hf Hr. unfold commit_pinned in Hr.
  apply eng_bind_inv in Hr as [(err & Hp & ->)|(out & sv1 & Hp & Hr)].
  { apply prepare_pinned_spec in Hp as ((new & Hl & Ho) & _ & _); [|done..]. exists new.
    split_and!; [done|intros ? _; by apply own_on_nil|by left]. }
  apply prepare_pinned_spec in Hp as ((n1 & Hl1 & Ho1) & _ & Hprep); [|done..]. specialize (Hprep out eq_refl).
  destruct out as [p|].
  2: { apply of_attempt_inv in Hr as [-> ->]. exists n1. split_and!; [done|intros ? _; by apply own_on_nil|]. right.
       split; [by apply own_on_nil|]. by apply Hprep. }
  assert (∀ n2 sv2, the_log sv2 = the_log sv1 ++ n2 → files_ok ident (the_log sv2) → applied [pc_request p] (the_log sv1) n2 →
    (∀ ident', ident' ≠ ident → own_on ident' (n1 ++ n2) = []) ∧ settled ident h l (the_log sv) (n1 ++ n2)) as Happ.
  { intros n2 sv2 Hl2 Hf2 (a & b & Hn2 & Ha & Hb' & Hreq).
    assert (files_ok ident (the_log sv1)) as Hf1 by (rewrite Hl2 in Hf2; by apply (files_ok_prefix ident _ n2)).
    specialize (Hprep Hf1). pose proof Hprep as (Hm & _ & Hrows). subst n2. cbn [map app] in *. rewrite Hm. split.
    - intros ident' Hne. rewrite !own_on_app, (own_on_nil _ n1), (own_on_nil _ a) by done.
      change (move_to ident (rq_snapshot (pc_request p)) :: b) with ([move_to ident (rq_snapshot (pc_request p))] ++ b).
      by rewrite own_on_app, own_on_other, (own_on_nil _ b).
    - left. exists (n1 ++ a), b, (rq_snapshot (pc_request p)). rewrite own_on_app, (own_on_nil _ n1), (own_on_nil _ a), (own_on_nil _ b) by done.
      split_and!; [by rewrite <-app_assoc|done|done| |done]. rewrite app_assoc, <-Hl1.
      apply (applied_head (sv_world sv2) ident h p (the_log sv1) a (move_of (pc_request p) :: b) l); [done| | |].
      + rewrite Hl1. by apply pinned_head_mono.
      + fold (the_log sv2). by rewrite Hl2, <-app_assoc.
      + apply Hreq. by left. }
  apply eng_bind_inv in Hr as [(err & (n2 & Hl2 & [Hpo [msg ->]])%post_commit_spec & ->)|(o & sv2 & (n2 & Hl2 & Hpo)%post_commit_spec & Hr)].
  - exists (n1 ++ n2). split; [by rewrite Hl2, Hl1, app_assoc|]. destruct Hpo as [Hn|Ha].
    + split; [intros ? _; apply own_on_nil; by rewrite own_app, Ho1, Hn|]. left. by rewrite own_app, Ho1, Hn.
    + destruct (Happ n2 sv' Hl2 Hf Ha) as [Hot Hset]. split; [done|]. right. exists msg. split_and!; [done|done|].
      by eapply at_once_applied.
  - destruct o as [|msg]; apply of_attempt_inv in Hr as [-> ->]; exists (n1 ++ n2); (split; [by rewrite Hl2, Hl1, app_assoc|]).
    + by apply (Happ n2 sv2).
    + cbn in Hpo. split; [intros ? _; apply own_on_nil; by rewrite own_app, Ho1, Hpo|]. left. by rewrite own_app, Ho1, Hpo.
Qed.

(** ** Table by table *)
Lemma prepare_pinned_grows ident pin (l : list TableOp) sv sv' r :
  prepare_pinned e ident pin l sv = (sv', r) → (∃ new, the_log sv' = the_log sv ++ new) ∧ sv_endpoint sv' = sv_endpoint sv.
Proof.
  intros Hr. unfold prepare_pinned in Hr.
  apply eng_bind_inv in Hr as [(err & (n & Hn & _ & He & _)%load_spec & ->)|(tb & sv1 & (n & Hn & _ & He & _)%load_spec & Hr)];
    [split; [by exists n|done]|].
  assert (the_log sv' = the_log sv1 ∧ sv_endpoint sv' = sv_endpoint sv1) as [-> ->]; [|split; [by exists n|done]].
  apply eng_bind_inv in Hr as [(err & [-> _]%of_attempt_inv & ->)|(h' & sv2 & [-> _]%of_attempt_inv & Hr)]; [done|].
  destruct (decide _); [|by apply of_attempt_inv in Hr as [-> _]].
  apply eng_bind_inv in Hr as [(err & [-> _]%of_attempt_inv & ->)|(pk & sv2 & [-> _]%of_attempt_inv & Hr)]; [done|].
  by apply prepare_spec in Hr as (-> & -> & _).
Qed.
Lemma commit_pinned_grows ident pin (l : list TableOp) sv sv' r :
  commit_pinned e ident pin l sv = (sv', r) → ∃ new, the_log sv' = the_log sv ++ new.
Proof.
  intros Hr. unfold commit_pinned in Hr.
  apply eng_bind_inv in Hr as [(err & [Hp _]%prepare_pinned_grows & ->)|(out & sv1 & [[n1 Hl1] _]%prepare_pinned_grows & Hr)]; [done|].
  destruct out as [p|]; [|apply of_attempt_inv in Hr as [-> _]; by exists n1].
  apply eng_bind_inv in Hr as [(err & (n2 & Hl2 & _)%post_commit_spec & ->)|(o & sv2 & (n2 & Hl2 & _)%post_commit_spec & Hr)].
  - exists (n1 ++ n2). by rewrite Hl2, Hl1, app_assoc.
  - exists (n1 ++ n2). destruct o; apply of_attempt_inv in Hr as [-> _]; by rewrite Hl2, Hl1, app_assoc.
Qed.
Lemma commit_each_grows (batch : list (TableIdent * TxnTable)) any sv sv' (a : Response Rows + PgWireError) :
  commit_each e batch any sv = (sv', a) → ∃ new, the_log sv' = the_log sv ++ new.
Proof.
  revert any sv. induction batch as [|[ident t] batch IH]; intros any sv Hc; cbn [commit_each] in Hc.
  { injection Hc as <- _. exists []. by rewrite app_nil_r. }
  destruct (commit_pinned e ident (pin_snapshot t) (ops t) sv) as [sv1 [o|err]] eqn:Ec; apply commit_pinned_grows in Ec as [n1 Hl1].
  - apply IH in Hc as [n2 Hl2]. exists (n1 ++ n2). by rewrite Hl2, Hl1, app_assoc.
  - injection Hc as <- _. by exists n1.
Qed.

(** The entries of a commit, with the heads they are pinned at. *)
Definition entry_pinned (hd : TableIdent → option (Snapshot DataFile)) (l : list Move) (p : TableIdent * TxnTable) : Prop :=
  buffered_ok (fst p) (ops (snd p)) ∧ pin_snapshot (snd p) = sn_id <$> hd (fst p) ∧ pinned_head (fst p) (hd (fst p)) l.
Lemma entries_mono hd (l new : list Move) batch : Forall (entry_pinned hd l) batch → Forall (entry_pinned hd (l ++ new)) batch.
Proof. intros Hb. eapply Forall_impl; [exact Hb|]. intros p (? & ? & ?). split_and!; [done..|by apply pinned_head_mono]. Qed.

Lemma commit_each_spec hd batch any sv sv' (a : Response Rows + PgWireError) :
  Forall (entry_pinned hd (the_log sv)) batch → NoDup (map fst batch) → all_files_ok (the_log sv') →
  commit_each e batch any sv = (sv', a) →
  ∃ new, the_log sv' = the_log sv ++ new ∧ (∀ i, i ∉ map fst batch → own_on i new = []) ∧
    match a with
    | inl _ => ∀ p, p ∈ batch → settled (fst p) (hd (fst p)) (ops (snd p)) (the_log sv) new
    | inr err => pg_code err = "40003" ∨ (any = false ∧ own new = []) ∨
        (any = false ∧ pg_code err = "XX000" ∧ at_once new)
    end.
Proof.
  intros Hb. revert any sv Hb. induction batch as [|[ident t] batch IH]; intros any sv Hb Hnd Hf Hc; cbn [commit_each] in Hc.
  { injection Hc as <- <-. exists []. rewrite app_nil_r. split_and!; [done|done|]. intros p Hp. by apply not_elem_of_nil in Hp. }
  apply Forall_cons in Hb as [(Hbuf & Hpin & Hhead) Hb]. cbn [fst snd map] in *. apply NoDup_cons in Hnd as [Hni Hnd]. rewrite Hpin in Hc.
  destruct (commit_pinned e ident (sn_id <$> hd ident) (ops t) sv) as [sv1 [o|err]] eqn:Ec.
  - assert (files_ok ident (the_log sv1)) as Hf1.
    { destruct (commit_each_grows _ _ _ _ _ Hc) as [n Hn]. rewrite Hn in Hf. by eapply files_ok_prefix. }
    destruct (commit_pinned_spec _ _ _ _ _ _ Hbuf Hhead Hf1 Ec) as (n1 & Hl1 & Ho1 & Hset).
    assert (Forall (entry_pinned hd (the_log sv1)) batch) as Hb1 by (rewrite Hl1; by apply entries_mono).
    destruct (IH true sv1 Hb1 Hnd Hf Hc) as (n2 & Hl2 & Ho2 & Hres).
    exists (n1 ++ n2). split; [by rewrite Hl2, Hl1, app_assoc|]. split.
    + intros i [Hi Hi2]%not_elem_of_cons. by rewrite own_on_app, Ho1, Ho2.
    + destruct a as [resp|err]; [|by destruct Hres as [|[[]|[]]]; [left|..]].
      intros p [->|Hp]%elem_of_cons; cbn [fst snd].
      * apply (settled_around _ _ _ _ [] n1 n2); [done|by apply Ho2|by rewrite app_nil_r].
      * rewrite <-(app_nil_r n2). apply settled_around; [|done|rewrite <-Hl1; by apply Hres].
        apply Ho1. intros He. apply Hni. change (fst <$> batch) with (map fst batch). rewrite <-He.
        apply list_elem_of_fmap. by exists p.
  - injection Hc as <- <-. destruct (commit_pinned_spec _ _ _ _ _ _ Hbuf Hhead (Hf ident) Ec) as (n1 & Hl1 & Ho1 & Hset).
    exists n1. split; [done|]. split; [intros i [Hi _]%not_elem_of_cons; by apply Ho1|]. destruct any; [by left|]. right.
    destruct Hset as [Hn|(msg & -> & _ & Hlen)]; [by left|by right].
Qed.

(** ** All tables in one request *)
Lemma probe_spec sv sv' r :
  probe_txn_endpoint sv = (sv', r) → (∃ new, the_log sv' = the_log sv ++ new ∧ own new = []) ∧
  ∀ b, r = Good b → sv_endpoint sv' = Some b.
Proof.
  unfold probe_txn_endpoint, the_log. destruct (sv_endpoint sv) as [known|] eqn:Ee.
  { intros Hr. injection Hr as <- <-. split; [exists []; by rewrite app_nil_r|]. by intros b [= <-]. }
  destruct (post_probe (sv_world sv)) as [w [[status body]|msg]] eqn:Ep; apply probe_log in Ep as (new & Hl & Ho).
  - destruct (txn_endpoint_capability status) as [b|]; intros Hr; injection Hr as <- <-; (split; [by exists new|]); [by intros b' [= <-]|done].
  - intros Hr. injection Hr as <- <-. split; [by exists new|done].
Qed.
Lemma probe_known sv b : sv_endpoint sv = Some b → probe_txn_endpoint sv = (sv, Good b).
Proof. unfold probe_txn_endpoint. by intros ->. Qed.

Lemma invalidating_log {A} ks (m : eng W A) sv sv' r :
  invalidating ks m sv = (sv', r) → ∃ sv1, m sv = (sv1, r) ∧ the_log sv' = the_log sv1.
Proof.
  unfold invalidating. destruct (m sv) as [sv1 r1]. intros Hr. injection Hr as <- <-. exists sv1. split; [done|].
  unfold the_log. cbn. apply foldl_invalidate_log.
Qed.
Lemma post_transaction_spec rqs sv sv' r :
  sv_endpoint sv = Some true → post_transaction rqs sv = (sv', r) →
  ∃ new, the_log sv' = the_log sv ++ new ∧
    match r with
    | Good TxnCommitted => applied rqs (the_log sv) new
    | Good (TxnConflict _) => own new = []
    | Good TxnUnsupported => False
    | Bad err => (own new = [] ∨ applied rqs (the_log sv) new) ∧ ∃ msg, err = OtherError msg
    end.
Proof.
  intros He Hr. unfold post_transaction, post_transaction_to in Hr. destruct (post_transaction_inner (post_changes rqs) sv) as [sv1 r1] eqn:Ei.
  assert (r1 = r ∧ the_log sv' = the_log sv1) as [-> ->].
  { destruct r1 as [[]|]; try (apply invalidating_log in Hr as (sv2 & Hr & ->); by injection Hr as <- <-). by injection Hr as <- <-. }
  clear Hr sv'. unfold post_transaction_inner, mbind, eng_bind in Ei. rewrite (probe_known sv true He) in Ei. cbn [negb] in Ei.
  unfold in_world_res, the_log in *. destruct (post_changes rqs (sv_world sv)) as [w a] eqn:Ep. apply changes_log in Ep as (new & Hl & Ha).
  exists new. destruct a as [[status body]|msg]; cbn [lift] in Ei.
  2: { injection Ei as <- <-. split; [done|]. split; [done|by eexists]. }
  cbn in Ha. destruct (is_success status); [by injection Ei as <- <-|].
  destruct (status =? CONFLICT); injection Ei as <- <-; (split; [done|]); [done|]. split; [done|by eexists].
Qed.

Definition batch_of (batch : list (TableIdent * TxnTable)) : list (TableIdent * option Z * list TableOp) :=
  map (λ '(ident, t), (ident, pin_snapshot t, ops t)) batch.
(** What [prepare_all] returns for the entries of a batch. *)
Definition all_prepared (hd : TableIdent → option (Snapshot DataFile)) (batch : list (TableIdent * TxnTable))
    (ps : list (option PreparedCommit)) : Prop :=
  Forall2 (λ p out, prepared_on (fst p) (hd (fst p)) (ops (snd p)) out) batch ps.
Lemma prepare_all_grows l sv sv' r :
  prepare_all e l sv = (sv', r) → (∃ new, the_log sv' = the_log sv ++ new) ∧ sv_endpoint sv' = sv_endpoint sv.
Proof.
  revert sv sv' r. induction l as [|[[ident pin] ops] l IH]; intros sv sv' r Hr; cbn [prepare_all] in Hr.
  { injection Hr as <- _. split; [exists []; by rewrite app_nil_r|done]. }
  apply eng_bind_inv in Hr as [(err & Hp%prepare_pinned_grows & ->)|(out & sv1 & [[n1 Hl1] He1]%prepare_pinned_grows & Hr)]; [done|].
  assert ((∃ n2, the_log sv' = the_log sv1 ++ n2) ∧ sv_endpoint sv' = sv_endpoint sv1) as [[n2 Hl2] He2].
  { apply eng_bind_inv in Hr as [(err & Hr%IH & ->)|(ps & sv2 & Hr2%IH & Hr)]; [done|]. by injection Hr as <- _. }
  split; [|congruence]. exists (n1 ++ n2). by rewrite Hl2, Hl1, app_assoc.
Qed.
Lemma prepare_all_spec hd batch sv sv' r :
  Forall (entry_pinned hd (the_log sv)) batch → prepare_all e (batch_of batch) sv = (sv', r) → all_files_ok (the_log sv') →
  (∃ new, the_log sv' = the_log sv ++ new ∧ own new = []) ∧ sv_endpoint sv' = sv_endpoint sv ∧
  ∀ ps, r = Good ps → all_prepared hd batch ps.
Proof.
  revert sv r. induction batch as [|[ident t] batch IH]; intros sv r Hb Hr Hf; cbn [batch_of map prepare_all] in Hr.
  { injection Hr as <- <-. split_and!; [exists []; by rewrite app_nil_r|done|]. intros ps [= <-]. constructor. }
  apply Forall_cons in Hb as [(Hbuf & Hpin & Hhead) Hb]. cbn [fst snd] in *. rewrite Hpin in Hr.
  apply eng_bind_inv in Hr as [(err & Hp & ->)|(out & sv1 & Hp & Hr)].
  { by apply prepare_pinned_spec in Hp as (? & ? & _). }
  pose proof Hp as ((n1 & Hl1 & Ho1) & He1 & Hprep)%prepare_pinned_spec; [|done..].
  assert (Forall (entry_pinned hd (the_log sv1)) batch) as Hb1 by (rewrite Hl1; by apply entries_mono).
  assert (∀ r', prepare_all e (batch_of batch) sv1 = (sv', r') →
    (∃ new, the_log sv' = the_log sv ++ new ∧ own new = []) ∧ sv_endpoint sv' = sv_endpoint sv ∧ prepared_on ident (hd ident) (ops t) out ∧
    ∀ ps, r' = Good ps → all_prepared hd batch ps) as Hrest.
  { intros r' Hr'. destruct (prepare_all_grows _ _ _ _ Hr') as [[n Hn] _].
    destruct (IH sv1 r' Hb1 Hr' Hf) as ((n2 & Hl2 & Ho2) & He2 & Hps). split_and!; [|congruence| |done].
    - exists (n1 ++ n2). by rewrite Hl2, Hl1, app_assoc, own_app, Ho1, Ho2.
    - apply Hprep; [done|]. apply (files_ok_prefix ident _ n). rewrite <-Hn. apply Hf. }
  apply eng_bind_inv in Hr as [(err & Hp2 & ->)|(ps & sv2 & Hp2 & Hr)].
  - destruct (Hrest _ Hp2) as (? & ? & _). by split_and!.
  - injection Hr as -> <-. destruct (Hrest _ Hp2) as (? & ? & Hout & Hps). split_and!; [done..|]. intros ps' [= <-].
    constructor; [done|by apply Hps].
Qed.

(** The moves of a request that belong to one table. *)
Lemma live_split hd batch ps p :
  all_prepared hd batch ps → NoDup (map fst batch) → p ∈ batch →
  ∃ out, prepared_on (fst p) (hd (fst p)) (ops (snd p)) out ∧
    match out with
    | Some q => ∃ a b, omap id ps = a ++ q :: b ∧ ∀ q', q' ∈ a ++ b → rq_ident (pc_request q') ≠ fst p
    | None => ∀ q', q' ∈ omap id ps → rq_ident (pc_request q') ≠ fst p
    end.
Proof.
  intros Hps. assert (∀ batch ps, all_prepared hd batch ps →
    ∀ q', q' ∈ omap id ps → rq_ident (pc_request q') ∈ map fst batch) as Hids.
  { clear. induction 1 as [|p [q|] batch ps Hp Hps IH]; intros q' Hq'; cbn in *; [by apply not_elem_of_nil in Hq'| |].
    - apply elem_of_cons in Hq' as [->|Hq']; apply elem_of_cons; [left|right; by apply IH]. destruct Hp as (Hm & _). by injection Hm.
    - right. by apply IH. }
  induction Hps as [|p0 out0 batch ps Hp0 Hps IH]; intros Hnd Hp; [by apply not_elem_of_nil in Hp|].
  cbn [map] in Hnd. apply NoDup_cons in Hnd as [Hni Hnd]. pose proof (Hids _ _ Hps) as Hq.
  apply elem_of_cons in Hp as [->|Hp].
  - exists out0. split; [done|]. destruct out0 as [q|].
    + exists [], (omap id ps). split; [done|]. intros q' Hq' He. apply Hni. rewrite <-He. by apply Hq.
    + intros q' Hq' He. apply Hni. rewrite <-He. by apply Hq.
  - destruct (IH Hnd Hp) as (out & Hout & Hsplit). exists out. split; [done|].
    assert (∀ q, out0 = Some q → rq_ident (pc_request q) ≠ fst p) as Hq0.
    { intros q -> He. destruct Hp0 as (Hm & _). injection Hm as Hm _. apply Hni. rewrite <-Hm, He.
      change (map fst batch) with (fst <$> batch). apply list_elem_of_fmap. by exists p. }
    destruct out as [q|].
    + destruct Hsplit as (a & b & Hab & Hne). cbn. destruct out0 as [q0|]; cbn; rewrite Hab; [|by exists a, b].
      exists (q0 :: a), b. split; [done|]. intros q' [->|Hq']%elem_of_cons; [by apply Hq0|by apply Hne].
    + cbn. destruct out0 as [q0|]; cbn; [|done]. intros q' [->|Hq']%elem_of_cons; [by apply Hq0|by apply Hsplit].
Qed.

Lemma head_of_app_other l (m : list Move) t b : (∀ x, x ∈ m → mv_ident x ≠ t) → head_of (l ++ m) t b = head_of l t b.
Proof.
  intros Hm. unfold head_of. rewrite List.filter_app. assert (List.filter (same_ref t b) m = []) as ->; [|by rewrite app_nil_r].
  induction m as [|x m IH]; [done|]. cbn. unfold same_ref at 1. rewrite bool_decide_eq_false_2 by (apply Hm; by left). cbn.
  apply IH. intros y Hy. apply Hm. by right.
Qed.
Lemma own_on_moves ident (l : list PreparedCommit) :
  (∀ q, q ∈ l → rq_ident (pc_request q) ≠ ident) → own_on ident (map (move_of ∘ pc_request) l) = [].
Proof.
  intros Hl. unfold own_on. induction l as [|q l IH]; [done|]. cbn. rewrite bool_decide_eq_false_2 by (apply Hl; by left).
  apply IH. intros q' Hq'. apply Hl. by right.
Qed.

(** The whole batch, when its request was applied. *)
Lemma applied_settles hd batch ps w (n1 before n2 : list Move) :
  all_prepared hd batch ps → NoDup (map fst batch) → Forall (entry_pinned hd before) batch → own n1 = [] →
  applied (map pc_request (omap id ps)) (before ++ n1) n2 → log w = (before ++ n1) ++ n2 →
  ∀ p, p ∈ batch → settled (fst p) (hd (fst p)) (ops (snd p)) before (n1 ++ n2).
Proof.
  intros Hps Hnd Hpin Ho1 (a & b & -> & Ha & Hb & Hreq) Hw p Hp. rewrite map_map in *. fold (move_of ∘ pc_request (DataFile:=DataFile)) in *.
  destruct (live_split hd batch ps p Hps Hnd Hp) as (out & Hout & Hlive). destruct out as [q|].
  - destruct Hlive as (qa & qb & Hq & Hne). rewrite Hq in *. left.
    assert (own_on (fst p) (map (move_of ∘ pc_request) qa) = [] ∧ own_on (fst p) (map (move_of ∘ pc_request) qb) = []) as [Hqa Hqb].
    { split; apply own_on_moves; intros q' Hq'; apply Hne; apply elem_of_app; auto. }
    pose proof Hout as (Hm & Hh & Hrows).
    exists (n1 ++ a ++ map (move_of ∘ pc_request) qa), (map (move_of ∘ pc_request) qb ++ b), (rq_snapshot (pc_request q)). split_and!.
    + rewrite map_app. cbn. rewrite Hm, <-!app_assoc. done.
    + by rewrite !own_on_app, (own_on_nil _ n1), (own_on_nil _ a), Hqa.
    + by rewrite own_on_app, (own_on_nil _ b), Hqb.
    + rewrite !app_assoc, head_of_app_other.
      2: { change (map ?f ?l) with (f <$> l). intros x (q' & -> & Hq')%list_elem_of_fmap. apply Hne. apply elem_of_app. by left. }
      rewrite Forall_forall in Hpin. destruct (Hpin p Hp) as (_ & _ & Hpinned).
      apply (applied_head w (fst p) _ q (before ++ n1) a (map (move_of ∘ pc_request) (qa ++ q :: qb) ++ b) (ops (snd p))); [done| | |].
      * by apply pinned_head_mono.
      * by rewrite Hw, <-!app_assoc.
      * apply Hreq. change (map ?f ?l) with (f <$> l). apply list_elem_of_fmap. exists q. split; [done|].
        apply elem_of_app. right. by left.
    + done.
  - right. split; [|done]. rewrite !own_on_app, (own_on_nil _ n1), (own_on_nil _ a), (own_on_nil _ b), own_on_moves by done. done.
Qed.

Lemma commit_pinned_multi_spec hd batch sv sv' r :
  Forall (entry_pinned hd (the_log sv)) batch → NoDup (map fst batch) → all_files_ok (the_log sv') →
  commit_pinned_multi e (batch_of batch) sv = (sv', r) →
  ∃ new, the_log sv' = the_log sv ++ new ∧ at_once new ∧
    match r with
    | Good MultiCommitted => ∀ p, p ∈ batch → settled (fst p) (hd (fst p)) (ops (snd p)) (the_log sv) new
    | Good MultiUnsupported => own new = []
    | Bad err => own new = [] ∨ ((∃ msg, err = OtherError msg) ∧
        ∀ p, p ∈ batch → settled (fst p) (hd (fst p)) (ops (snd p)) (the_log sv) new)
    end.
Proof.
  intros Hb Hnd Hf Hr. unfold commit_pinned_multi in Hr.
  apply eng_bind_inv in Hr as [(err & ((n & Hl & Ho) & _)%probe_spec & ->)|(sup & sv1 & Hp & Hr)].
  { exists n. split_and!; [done|by apply at_once_none|by left]. }
  apply probe_spec in Hp as ((n0 & Hl0 & Ho0) & He). specialize (He sup eq_refl). destruct sup; cbn [negb] in Hr.
  2: { apply of_attempt_inv in Hr as [-> ->]. exists n0. split_and!; [done|by apply at_once_none|done]. }
  assert (Forall (entry_pinned hd (the_log sv1)) batch) as Hb1 by (rewrite Hl0; by apply entries_mono).
  assert (∀ sv2 r2, prepare_all e (batch_of batch) sv1 = (sv2, r2) → all_files_ok (the_log sv2) →
    (∃ n, the_log sv2 = the_log sv ++ n ∧ own n = []) ∧ sv_endpoint sv2 = Some true ∧
    ∀ ps, r2 = Good ps → all_prepared hd batch ps) as Hprep.
  { intros sv2 r2 Hp Hf2. destruct (prepare_all_spec _ _ _ _ _ Hb1 Hp Hf2) as ((n1 & Hl1 & Ho1) & He1 & Hps).
    split_and!; [|congruence|done]. exists (n0 ++ n1). by rewrite Hl1, Hl0, app_assoc, own_app, Ho0, Ho1. }
  apply eng_bind_inv in Hr as [(err & Hp & ->)|(ps & sv2 & Hp & Hr)].
  { destruct (Hprep _ _ Hp Hf) as ((n & Hl & Ho) & _). exists n. split_and!; [done|by apply at_once_none|by left]. }
  destruct (omap id ps) as [|q qs] eqn:Eq.
  { apply of_attempt_inv in Hr as [-> ->]. destruct (Hprep _ _ Hp Hf) as ((n & Hl & Ho) & _ & Hps). specialize (Hps ps eq_refl).
    exists n. split_and!; [done|by apply at_once_none|]. intros p Hin.
    destruct (live_split hd batch ps p Hps Hnd Hin) as ([q|] & Hout & Hlive).
    - destruct Hlive as (a & b & Hab & _). rewrite Eq in Hab. by destruct a.
    - right. split; [by apply own_on_nil|done]. }
  rewrite <-Eq in Hr.
  assert (sv_endpoint sv2 = Some true) as He2 by (destruct (prepare_all_grows _ _ _ _ Hp) as [_ ?]; congruence).
  assert (∀ o sv3, post_transaction (map pc_request (omap id ps)) sv2 = (sv3, o) → the_log sv3 = the_log sv' →
    ∃ n1 n2, the_log sv' = (the_log sv ++ n1) ++ n2 ∧ own n1 = [] ∧
      match o with
      | Good TxnCommitted => applied (map pc_request (omap id ps)) (the_log sv ++ n1) n2
      | Good (TxnConflict _) => own n2 = []
      | Good TxnUnsupported => False
      | Bad err => (own n2 = [] ∨ applied (map pc_request (omap id ps)) (the_log sv ++ n1) n2) ∧ ∃ msg, err = OtherError msg
      end ∧ (applied (map pc_request (omap id ps)) (the_log sv ++ n1) n2 →
        ∀ p, p ∈ batch → settled (fst p) (hd (fst p)) (ops (snd p)) (the_log sv) (n1 ++ n2))) as Hpost.
  { intros o sv3 (n2 & Hl2 & Ho)%post_transaction_spec Hsame; [|done]. rewrite Hsame in Hl2.
    destruct (Hprep _ _ Hp) as ((n1 & Hl1 & Ho1) & _ & Hps).
    { intros i. apply (files_ok_prefix i _ n2). rewrite <-Hl2. apply Hf. }
    exists n1, n2. rewrite <-Hl1. split_and!; [done|done|done|]. intros Happ.
    apply (applied_settles hd batch ps (sv_world sv')); [by apply Hps|done|done|done|by rewrite <-Hl1|fold (the_log sv'); by rewrite Hl2, Hl1]. }
  apply eng_bind_inv in Hr as [(err & Ht & ->)|(o & sv3 & Ht & Hr)].
  - destruct (Hpost _ _ Ht eq_refl) as (n1 & n2 & Hl & Ho1 & [Ho Herr] & Hset). exists (n1 ++ n2).
    rewrite Hl, app_assoc. split; [done|]. destruct Ho as [Ho|Ha].
    + assert (own (n1 ++ n2) = []) as Hn by (by rewrite own_app, Ho1, Ho). split; [by apply at_once_none|by left].
    + split; [by eapply at_once_applied|]. right. split; [done|by apply Hset].
  - assert (sv3 = sv') as -> by (by destruct o; apply of_attempt_inv in Hr as [-> _]).
    destruct (Hpost _ _ Ht eq_refl) as (n1 & n2 & Hl & Ho1 & Ho & Hset). exists (n1 ++ n2). rewrite Hl, app_assoc. split; [done|].
    destruct o as [|msg|]; [| |done]; apply of_attempt_inv in Hr as [_ ->].
    + split; [by eapply at_once_applied|by apply Hset].
    + assert (own (n1 ++ n2) = []) as Hn by (by rewrite own_app, Ho1, Ho). split; [by apply at_once_none|by left].
Qed.

(** ** The errors there are *)
Definition known {A} (r : attempt A) : Prop :=
  match r with
  | Bad (ConstraintViolation code _) => code = "23502" ∨ code = "23505"
  | Bad (Unwound _) => False
  | _ => True
  end.
Definition eng_known {A} (m : eng W A) : Prop := ∀ sv sv' r, m sv = (sv', r) → known r.
Lemma known_lift {A} (r : result A) : known (lift r).
Proof. by destruct r. Qed.
Lemma known_bind {A B} (r : attempt A) (f : A → attempt B) : known r → (∀ a, known (f a)) → known (x ← r; f x).
Proof. intros Hr Hf. destruct r; [apply Hf|done]. Qed.
Lemma eng_known_bind {A B} (m : eng W A) (f : A → eng W B) : eng_known m → (∀ a, eng_known (f a)) → eng_known (x ← m; f x).
Proof.
  intros Hm Hf sv sv' r Hr. apply eng_bind_inv in Hr as [(err & Hr & ->)|(a & sv1 & _ & Hr)]; [|by eapply Hf]. apply Hm in Hr. by destruct err.
Qed.
Lemma eng_known_attempt {A} (r : attempt A) : known r → eng_known (of_attempt r).
Proof. intros Hr sv sv' r' Hx. by apply of_attempt_inv in Hx as [_ ->]. Qed.
Lemma eng_known_world {A} (m : W → W * result A) : eng_known (in_world_res m).
Proof. intros sv sv' r Hr. unfold in_world_res in Hr. destruct (m (sv_world sv)). injection Hr as _ <-. apply known_lift. Qed.
Lemma known_prepare_commit t (l : list TableOp) pk b props id : known (prepare_commit t l pk b props id).
Proof.
  unfold prepare_commit. do 5 (apply known_bind; [apply known_lift|intros ?]).
  apply known_bind; [apply known_lift|]. intros [[[counts written] keys] n1]. destruct (fold_prewritten l counts) as [[cs files] n2].
  destruct (_ && _); [done|]. apply known_bind; [|intros ?; do 2 (apply known_bind; [apply known_lift|intros ?]); done].
  destruct pk as [cols|]; [|done]. unfold check_pk. destruct (List.filter _ _); [done|].
  apply known_bind; [apply known_lift|]. intros nulls. destruct (0 <? nulls); [by left|].
  apply known_bind; [apply known_lift|]. intros dups. destruct (0 <? total_rows dups); [by right|done].
Qed.
Lemma known_prepare_pinned ident pin (l : list TableOp) : eng_known (prepare_pinned e ident pin l).
Proof.
  apply eng_known_bind; [apply eng_known_world|]. intros tb.
  apply eng_known_bind; [apply eng_known_attempt, known_lift|]. intros h. destruct (decide _); [|by apply eng_known_attempt].
  apply eng_known_bind; [apply eng_known_attempt, known_lift|]. intros pk sv sv' r (_ & _ & id & ->)%prepare_spec. apply known_prepare_commit.
Qed.
Lemma known_commit_pinned ident pin (l : list TableOp) : eng_known (commit_pinned e ident pin l).
Proof.
  apply eng_known_bind; [apply known_prepare_pinned|]. intros [p|]; [|by apply eng_known_attempt].
  apply eng_known_bind; [|intros []; by apply eng_known_attempt]. intros sv sv' r (n & _ & Hr)%post_commit_spec.
  destruct r as [|err]; [done|]. by destruct Hr as [_ [msg ->]].
Qed.
Lemma known_probe : eng_known probe_txn_endpoint.
Proof.
  intros sv sv' r Hr. unfold probe_txn_endpoint in Hr. destruct (sv_endpoint sv); [by injection Hr as _ <-|].
  destruct (post_probe (sv_world sv)) as [w [[status body]|msg]]; [|by injection Hr as _ <-].
  destruct (txn_endpoint_capability status); by injection Hr as _ <-.
Qed.
Lemma known_post_transaction rqs : eng_known (post_transaction rqs).
Proof.
  assert (eng_known (post_transaction_inner (post_changes rqs))) as Hin.
  { apply eng_known_bind; [apply known_probe|].
    intros []; [|by apply eng_known_attempt]. apply eng_known_bind; [apply eng_known_world|]. intros [status body]. cbn [negb].
    destruct (is_success status); [by apply eng_known_attempt|]. destruct (status =? CONFLICT); by apply eng_known_attempt. }
  intros sv sv' r Hr. unfold post_transaction, post_transaction_to in Hr. destruct (post_transaction_inner (post_changes rqs) sv) as [sv1 r1] eqn:Ei.
  apply Hin in Ei. destruct r1 as [[]|]; try (apply invalidating_log in Hr as (sv2 & Hr & _)); by injection Hr as _ <-.
Qed.
Lemma known_prepare_all (l : list (TableIdent * option Z * list TableOp)) : eng_known (prepare_all e l).
Proof.
  induction l as [|[[ident pin] ops] l IH]; cbn [prepare_all]; [by apply eng_known_attempt|].
  apply eng_known_bind; [apply known_prepare_pinned|]. intros p. apply eng_known_bind; [apply IH|]. intros ps. by apply eng_known_attempt.
Qed.
Lemma known_commit_pinned_multi (l : list (TableIdent * option Z * list TableOp)) : eng_known (commit_pinned_multi e l).
Proof.
  apply eng_known_bind; [apply known_probe|]. intros []; [|by apply eng_known_attempt]. cbn [negb].
  apply eng_known_bind; [apply known_prepare_all|]. intros ps. destruct (omap id ps); [by apply eng_known_attempt|].
  apply eng_known_bind; [apply known_post_transaction|]. intros []; by apply eng_known_attempt.
Qed.
(** The sqlstates an engine error becomes. *)
Definition engine_codes : list string := ["40001"; "23502"; "23505"; "XX000"].
Lemma known_code {A} err : known (A:=A) (Bad err) → pg_code (engine_error err) ∈ engine_codes.
Proof. unfold engine_codes. destruct err; cbn; [intros [-> | ->]; set_solver|set_solver..|done]. Qed.

(** ** Sessions *)
Lemma heads_of (Q : TableIdent * TxnTable → option (Snapshot DataFile) → Prop) (batch : list (TableIdent * TxnTable)) :
  Forall (λ p, ∃ h, Q p h) batch → NoDup (map fst batch) → ∃ hd : TableIdent → option (Snapshot DataFile), Forall (λ p, Q p (hd (fst p))) batch.
Proof.
  induction 1 as [|p batch [h Hp] Hb IH]; intros Hnd; [by exists (λ _, None); constructor|].
  cbn [map] in Hnd. apply NoDup_cons in Hnd as [Hni Hnd]. destruct (IH Hnd) as [hd Hhd].
  exists (λ i, if decide (i = fst p) then h else hd i). constructor; [by rewrite decide_True|].
  rewrite Forall_forall in Hhd |- *. intros q Hq. rewrite decide_False; [by apply Hhd|]. intros He. apply Hni. rewrite <-He.
  change (map fst batch) with (fst <$> batch). apply list_elem_of_fmap. by exists q.
Qed.
Lemma touched_spec (s : TxnSession) ident t :
  (ident, t) ∈ touched s ↔ tables s !! ident = Some t ∧ ops t ≠ [].
Proof.
  unfold touched. rewrite merge_sort_Permutation, list_elem_of_In, filter_In, <-list_elem_of_In, elem_of_map_to_list.
  cbn. destruct (ops t); split; intros [? ?]; by split.
Qed.
Lemma touched_nodup (s : TxnSession) : NoDup (map fst (touched s)).
Proof.
  unfold touched. rewrite merge_sort_Permutation. pose proof (NoDup_fst_map_to_list (tables s)) as Hnd. revert Hnd.
  change (map fst (List.filter ?f ?l)) with (fst <$> List.filter f l).
  generalize (map_to_list (tables s)) as l. induction l as [|p l IH]; [done|]. cbn. intros [Hni Hnd]%NoDup_cons.
  destruct (ops p.2); cbn; [by apply IH|]. apply NoDup_cons. split; [|by apply IH].
  intros Hin. apply Hni. apply list_elem_of_fmap in Hin as (q & Hq & Hin). apply list_elem_of_fmap. exists q. split; [done|].
  apply list_elem_of_In, filter_In in Hin as [Hin _]. by apply list_elem_of_In.
Qed.
Lemma session_heads s l :
  session_ok e s l → ∃ hd, Forall (λ p, entry_at e (fst p) l (snd p) (hd (fst p))) (touched s) ∧ Forall (entry_pinned hd l) (touched s).
Proof.
  intros Hs. destruct (heads_of (λ p h, entry_at e (fst p) l (snd p) h) (touched s)) as [hd Hhd]; [|apply touched_nodup|].
  - apply Forall_forall. intros [ident t] Hin. apply touched_spec in Hin as [Ht _]. exact (Hs ident t Ht).
  - exists hd. split; [done|]. eapply Forall_impl; [exact Hhd|]. intros [ident t] ((_ & Hp & Hh & _) & Hb & _). by split_and!.
Qed.

Lemma commit_each_answer (batch : list (TableIdent * TxnTable)) any sv sv' (resp : Response Rows) :
  commit_each e batch any sv = (sv', inl resp) → resp = TransactionEnd "COMMIT".
Proof.
  revert any sv. induction batch as [|[i t] batch IH]; intros any sv Hc; cbn [commit_each] in Hc; [by injection Hc as _ <-|].
  destruct (commit_pinned _ _ _ _ _) as [sv2 [o|err]]; [by eapply IH|done].
Qed.
(** The parts of a COMMIT. *)
Lemma commit_parts h hd s sv sv' (a : Response Rows + PgWireError) :
  engine h = e → aborted s = false → Forall (entry_pinned hd (the_log sv)) (touched s) → all_files_ok (the_log sv') →
  commit_session h s sv = (sv', a) →
  ∃ new, the_log sv' = the_log sv ++ new ∧
    match a with
    | inl resp => resp = TransactionEnd "COMMIT" ∧ ∀ p, p ∈ touched s → settled (fst p) (hd (fst p)) (ops (snd p)) (the_log sv) new
    | inr err => pg_code err = "40003" ∨ own new = [] ∨ (pg_code err = "XX000" ∧ at_once new)
    end.
Proof.
  intros He Ha Hb Hf Hc. unfold commit_session in Hc. rewrite Ha, He in Hc. pose proof (touched_nodup s) as Hnd.
  assert (∀ sv1 n0, the_log sv1 = the_log sv ++ n0 → own n0 = [] → commit_each e (touched s) false sv1 = (sv', a) →
    ∃ new, the_log sv' = the_log sv ++ new ∧
      match a with
      | inl resp => resp = TransactionEnd "COMMIT" ∧ ∀ p, p ∈ touched s → settled (fst p) (hd (fst p)) (ops (snd p)) (the_log sv) new
      | inr err => pg_code err = "40003" ∨ own new = [] ∨ (pg_code err = "XX000" ∧ at_once new)
      end) as Heach.
  { intros sv1 n0 Hl0 Ho0 Hce.
    assert (Forall (entry_pinned hd (the_log sv1)) (touched s)) as Hb1 by (rewrite Hl0; by apply entries_mono).
    destruct (commit_each_spec hd (touched s) false sv1 sv' a Hb1 Hnd Hf Hce) as (n1 & Hl1 & _ & Hres). exists (n0 ++ n1).
    split; [by rewrite Hl1, Hl0, app_assoc|]. destruct a as [resp|err].
    - split; [by eapply commit_each_answer|]. intros p Hp. rewrite <-(app_nil_r n1). apply settled_around; [by apply own_on_nil|done|].
      rewrite <-Hl0. by apply Hres.
    - destruct Hres as [?|[[_ Hn]|(_ & ? & a1 & a2 & Hn & Ha1 & Ha2)]]; [by left|by right; left; rewrite own_app, Ho0|].
      right. right. split; [done|]. exists (n0 ++ a1), a2. rewrite !own_app, Ho0, Ha1. split_and!; [|done|done].
      cbn. by rewrite <-app_assoc, <-Hn. }
  destruct (1 <? length (touched s))%nat eqn:En; [|apply (Heach sv []); by rewrite ?app_nil_r].
  fold (batch_of (touched s)) in Hc. destruct (commit_pinned_multi e (batch_of (touched s)) sv) as [sv1 r] eqn:Em.
  assert ((∃ n, the_log sv' = the_log sv1 ++ n)) as [n1 Hn1].
  { destruct r as [[]|err]; [| |]; [injection Hc as <- _; exists []; by rewrite app_nil_r| |injection Hc as <- _; exists []; by rewrite app_nil_r].
    destruct (strict h); [injection Hc as <- _; exists []; by rewrite app_nil_r|by eapply commit_each_grows]. }
  assert (all_files_ok (the_log sv1)) as Hf1 by (intros i; apply (files_ok_prefix i _ n1); rewrite <-Hn1; apply Hf).
  destruct (commit_pinned_multi_spec hd (touched s) sv sv1 r Hb Hnd Hf1 Em) as (n0 & Hl0 & Honce & Hres).
  destruct r as [[]|err].
  - injection Hc as <- <-. by exists n0.
  - destruct (strict h); [|by apply (Heach sv1 n0)]. injection Hc as <- <-. exists n0. split; [done|]. by right; left.
  - injection Hc as <- <-. exists n0. split; [done|]. destruct Hres as [Hn|[[msg ->] _]]; [by right; left|]. by right; right.
Qed.

(** C5: First committer wins.  A COMMIT that is answered COMMIT has put every table
    the transaction wrote into the state the transaction saw: the rows of the
    head it was pinned at, which nobody had moved, with its operations applied; or
    the operations change nothing there. *)
Theorem commit_first_committer_wins h s sv sv' (resp : Response Rows) :
  engine h = e → aborted s = false → session_ok e s (the_log sv) → all_files_ok (the_log sv') →
  commit_session h s sv = (sv', inl resp) →
  resp = TransactionEnd "COMMIT" ∧ ∃ new, the_log sv' = the_log sv ++ new ∧
    ∀ ident t, tables s !! ident = Some t → ops t ≠ [] →
      ∃ hd, entry_at e ident (the_log sv) t hd ∧ settled ident hd (ops t) (the_log sv) new.
Proof.
  intros He Ha Hs Hf Hc. destruct (session_heads _ _ Hs) as (hd & Hent & Hb).
  destruct (commit_parts h hd s sv sv' _ He Ha Hb Hf Hc) as (new & Hl & Hr & Hset). split; [done|]. exists new. split; [done|].
  intros ident t Ht Hops. assert ((ident, t) ∈ touched s) as Hin by (by apply touched_spec). exists (hd ident).
  rewrite Forall_forall in Hent. split; [by apply (Hent _ Hin)|by apply (Hset _ Hin)].
Qed.

Lemma commit_each_codes (batch : list (TableIdent * TxnTable)) any sv sv' err :
  commit_each (Rows:=Rows) e batch any sv = (sv', inr err) → pg_code err = "40003" ∨ pg_code err ∈ engine_codes.
Proof.
  revert any sv. induction batch as [|[i t] batch IH]; intros any sv Hc; cbn [commit_each] in Hc; [done|].
  destruct (commit_pinned _ _ _ _ _) as [sv2 [o|base]] eqn:Ec; [by eapply IH|]. injection Hc as _ <-.
  destruct any; [by left|]. right. apply known_commit_pinned in Ec. by apply (known_code (A:=option Z)).
Qed.

(** C14: Errors of COMMIT.  40001, 23502, 23505 and 0A000 say that nothing was
    committed; XX000 that what was committed, if anything, is one stretch of the
    log; only 40003 is left for a part. *)
Theorem commit_error_codes h s sv sv' err :
  engine h = e → aborted s = false → session_ok e s (the_log sv) → all_files_ok (the_log sv') →
  commit_session (Rows:=Rows) h s sv = (sv', inr err) →
  pg_code err ∈ ["40001"; "23502"; "23505"; "0A000"; "XX000"; "40003"] ∧
  ∃ new, the_log sv' = the_log sv ++ new ∧
    (pg_code err = "40003" ∨ own new = [] ∨ (pg_code err = "XX000" ∧ at_once new)).
Proof.
  intros He Ha Hs Hf Hc. destruct (session_heads _ _ Hs) as (hd & _ & Hb). split.
  - unfold commit_session in Hc. rewrite Ha, He in Hc.
    assert (∀ sv1, commit_each (Rows:=Rows) e (touched s) false sv1 = (sv', inr err) →
      pg_code err ∈ ["40001"; "23502"; "23505"; "0A000"; "XX000"; "40003"]) as Heach.
    { intros sv1 [->|Hin]%commit_each_codes; [set_solver|]. unfold engine_codes in Hin. set_solver. }
    destruct (_ <? _)%nat; [|by eapply Heach]. fold (batch_of (touched s)) in Hc.
    destruct (commit_pinned_multi e (batch_of (touched s)) sv) as [sv1 [[]|base]] eqn:Em; [done| |].
    + destruct (strict h); [|by eapply Heach]. injection Hc as _ <-. cbn. set_solver.
    + injection Hc as _ <-. apply known_commit_pinned_multi, known_code in Em. unfold engine_codes in Em. cbn. set_solver.
  - by apply (commit_parts h hd s sv sv' _ He Ha Hb Hf Hc).
Qed.

Lemma multi_supported batch sv sv' r :
  sv_endpoint sv = Some true → commit_pinned_multi e (batch_of batch) sv = (sv', r) → r ≠ Good MultiUnsupported.
Proof.
  intros He Hr ->. unfold commit_pinned_multi in Hr. apply eng_bind_inv in Hr as [(err & _ & ?)|(sup & sv1 & Hp & Hr)]; [done|].
  rewrite (probe_known sv true He) in Hp. injection Hp as <- <-. cbn [negb] in Hr.
  apply eng_bind_inv in Hr as [(err & _ & ?)|(ps & sv2 & [_ He2]%prepare_all_grows & Hr)]; [done|]. rewrite He in He2.
  destruct (omap id ps) as [|q qs]; [done|]. apply eng_bind_inv in Hr as [(err & _ & ?)|(o & sv3 & Ht & Hr)]; [done|].
  apply (post_transaction_spec _ _ _ _ He2) in Ht as (n & _ & Ho). by destruct o.
Qed.

(** C13: With the multi-table endpoint, a COMMIT of several tables is all or nothing,
    whatever it answers, and it never answers 40003. *)
Theorem multi_table_commit_atomic h s sv sv' (a : Response Rows + PgWireError) :
  engine h = e → aborted s = false → session_ok e s (the_log sv) → all_files_ok (the_log sv') →
  sv_endpoint sv = Some true → (1 < length (touched s))%nat → commit_session h s sv = (sv', a) →
  ∃ new, the_log sv' = the_log sv ++ new ∧ at_once new ∧
    let all_settled := ∀ ident t, tables s !! ident = Some t → ops t ≠ [] →
       ∃ hd, entry_at e ident (the_log sv) t hd ∧ settled ident hd (ops t) (the_log sv) new in
    match a with
    | inl _ => all_settled
    | inr err => pg_code err ∈ engine_codes ∧ (own new = [] ∨ (pg_code err = "XX000" ∧ all_settled))
    end.
Proof.
  intros He Ha Hs Hf Hend Hn Hc. destruct (session_heads _ _ Hs) as (hd & Hent & Hb).
  unfold commit_session in Hc. rewrite Ha, He in Hc. rewrite (proj2 (Nat.ltb_lt _ _) Hn) in Hc. fold (batch_of (touched s)) in Hc.
  destruct (commit_pinned_multi e (batch_of (touched s)) sv) as [sv1 r] eqn:Em. pose proof (multi_supported _ _ _ _ Hend Em) as Hsup.
  assert (sv1 = sv') as -> by (destruct r as [[]|]; [by injection Hc|done|by injection Hc]).
  destruct (commit_pinned_multi_spec hd (touched s) sv sv' r Hb (touched_nodup s) Hf Em) as (new & Hl & Honce & Hres).
  exists new. split; [done|]. split; [done|]. cbn zeta.
  assert ((∀ p, p ∈ touched s → settled p.1 (hd p.1) (ops p.2) (the_log sv) new) →
    ∀ ident t, tables s !! ident = Some t → ops t ≠ [] → ∃ hd, entry_at e ident (the_log sv) t hd ∧ settled ident hd (ops t) (the_log sv) new) as Hall.
  { intros Hset ident t Ht Hops. assert ((ident, t) ∈ touched s) as Hin by (by apply touched_spec). exists (hd ident).
    rewrite Forall_forall in Hent. split; [by apply (Hent _ Hin)|by apply (Hset _ Hin)]. }
  destruct r as [[]|base]; [| |].
  - injection Hc as <-. by apply Hall.
  - done.
  - injection Hc as <-. apply known_commit_pinned_multi, known_code in Em. split; [done|].
    destruct Hres as [Hown|[[msg ->] Hset]]; [by left|]. right. split; [done|by apply Hall].
Qed.
End Commit.
