(* ===== verification/TxnRegistry.v ===== *)
(** * Sessions of connections

    The registry of txn.rs and its count that is read without the lock; the hook
    touches only its own connection's session; an error aborts the transaction,
    and an aborted transaction only ends. *)
From stdpp Require Import sorting.
From S2P Require Import Prelude Text TailNames Keyed TableOps Freshness Overwrite Engine Dml Txn.
#[local] Open Scope N_scope.

Section Registry.
Context {W RecordBatch ArrayRef DataFile Expr Body Rows Provider : Type} `{Columnar RecordBatch ArrayRef}
  `{SqlEngine RecordBatch} `{DataFiles RecordBatch DataFile} `{Catalog W DataFile} `{SqlAst Expr}
  `{!ReadProvider Provider RecordBatch DataFile} `{TxnPlanner Body Rows Provider RecordBatch}.
#[local] Abbreviation TxnRegistry := (TxnRegistry (RecordBatch:=RecordBatch) (DataFile:=DataFile) (Provider:=Provider)).
#[local] Abbreviation Node := (Node (W:=W) (RecordBatch:=RecordBatch) (DataFile:=DataFile) (Provider:=Provider)).
#[local] Abbreviation TxnSession := (TxnSession (RecordBatch:=RecordBatch) (DataFile:=DataFile) (Provider:=Provider)).

(** The count is exact. *)
Definition counted (r : TxnRegistry) : Prop := rg_open r = N.of_nat (size (rg_sessions r)).
Lemma counted_get addr r : counted r → get addr r = rg_sessions r !! addr.
Proof.
  unfold counted, get. intros Hc. destruct (N.eqb_spec (rg_open r) 0) as [Hz|]; [|done]. rewrite Hc in Hz.
  assert (size (rg_sessions r) = 0%nat) as Hs by lia. apply map_size_empty_iff in Hs. by rewrite Hs, lookup_empty.
Qed.
Lemma counted_active addr r : counted r → active addr r = bool_decide (is_Some (rg_sessions r !! addr)).
Proof.
  intros Hc. pose proof (counted_get addr r Hc) as Hg. unfold active, get in *. destruct (rg_open r =? 0); [|done].
  by rewrite <-Hg.
Qed.
Lemma counted_stored m : counted (stored m).
Proof. done. Qed.
Lemma counted_set addr s r : counted r → counted (set_session addr s r).
Proof. unfold counted. cbn. intros ->. by rewrite <-!(size_dom (D:=gset N)), dom_alter_L. Qed.
#[local] Hint Resolve counted_stored counted_set : core.

(** Only the connection's own session changes. *)
Definition framed (addr : N) (nd nd' : Node) : Prop :=
  counted (nd_registry nd') ∧ ∀ a, a ≠ addr → rg_sessions (nd_registry nd') !! a = rg_sessions (nd_registry nd) !! a.
Lemma framed_refl addr nd : counted (nd_registry nd) → framed addr nd nd.
Proof. by split. Qed.
Lemma framed_delete addr nd sv :
  framed addr nd {| nd_server := sv; nd_registry := stored (delete addr (rg_sessions (nd_registry nd))) |}.
Proof. split; [done|]. intros a Ha. cbn. by rewrite lookup_delete_ne. Qed.
Lemma framed_set addr nd sv s :
  counted (nd_registry nd) → framed addr nd {| nd_server := sv; nd_registry := set_session addr s (nd_registry nd) |}.
Proof. split; [by apply counted_set|]. intros a Ha. cbn. by rewrite lookup_alter_ne. Qed.
Lemma sync_framed addr wf nd : counted (nd_registry nd) → framed addr nd (sync_aborted_from_wire addr wf nd).
Proof.
  intros Hc. unfold sync_aborted_from_wire. destruct wf; [|by apply framed_refl]. destruct (get addr (nd_registry nd)) as [s|]; [|by apply framed_refl].
  by apply framed_set.
Qed.
Lemma framed_trans addr nd nd1 nd2 : framed addr nd nd1 → framed addr nd1 nd2 → framed addr nd nd2.
Proof. intros [_ F1] [C2 F2]. split; [done|]. intros a Ha. by rewrite F2, F1. Qed.

Lemma ordinary_framed h addr (stmt : Statement Expr Body) params nd nd' (reply : Reply (Rows:=Rows)) :
  counted (nd_registry nd) → handle_ordinary h addr stmt params nd = (nd', reply) → framed addr nd nd'.
Proof.
  intros Hc Hq. unfold handle_ordinary in Hq. destruct (get addr (nd_registry nd)) as [s|].
  - destruct (aborted s); [injection Hq as <- _; by apply framed_refl|].
    destruct (in_txn h stmt params (nd_server nd) s) as [[sv s'] rep]. injection Hq as <- _. by apply framed_set.
  - destruct (_ || _); [|injection Hq as <- _; by apply framed_refl]. destruct stmt; try (injection Hq as <- _; by apply framed_refl).
    destruct (autocommit_insert _ _ _ _ _) as [sv rep]. by injection Hq as <- _.
Qed.
Lemma query_framed h addr wf (stmt : Statement Expr Body) params nd nd' (reply : Reply (Rows:=Rows)) :
  counted (nd_registry nd) → handle_query h addr wf stmt params nd = (nd', reply) → framed addr nd nd'.
Proof.
  intros Hc Hq. pose proof (sync_framed addr wf nd Hc) as Hsync. unfold handle_query in Hq.
  generalize dependent (sync_aborted_from_wire addr wf nd). intros nd1 Hq Hsync. pose proof Hsync as [Hc1 _].
  eapply framed_trans; [exact Hsync|]. destruct stmt; try (by eapply ordinary_framed).
  - destruct (is_aborted addr nd1); [injection Hq as <- _; by apply framed_refl|]. unfold begin, registry_begin in Hq.
    destruct (rg_sessions (nd_registry nd1) !! addr); injection Hq as <- _; [by split|].
    split; [done|]. intros a Ha. cbn. by rewrite lookup_insert_ne.
  - unfold commit, registry_take in Hq. destruct (rg_sessions (nd_registry nd1) !! addr) as [s|].
    + destruct (commit_session h s (nd_server nd1)) as [sv a]. injection Hq as <- _. apply framed_delete.
    + injection Hq as <- _. apply framed_delete.
  - injection Hq as <- _. apply framed_delete.
Qed.

(** A statement keeps the count of open sessions exact, so that the look without
    the lock never misses one, and leaves every other connection's session as it
    is. *)
Theorem statement_keeps_other_sessions h addr wf (stmt : Statement Expr Body) params nd nd' (reply : Reply (Rows:=Rows)) :
  counted (nd_registry nd) → handle_query h addr wf stmt params nd = (nd', reply) →
  counted (nd_registry nd') ∧ (∀ a, active a (nd_registry nd') = bool_decide (is_Some (rg_sessions (nd_registry nd') !! a))) ∧
  ∀ a, a ≠ addr → rg_sessions (nd_registry nd') !! a = rg_sessions (nd_registry nd) !! a.
Proof.
  intros Hc Hq. destruct (query_framed _ _ _ _ _ _ _ _ Hc Hq) as [Hc' Hf].
  split_and!; [done|intros a; by apply counted_active|done].
Qed.

(** ** Aborted transactions *)
Definition ends_transaction (stmt : Statement Expr Body) : bool :=
  match stmt with SCommit | SRollback => true | _ => false end.

Lemma in_txn_error h (stmt : Statement Expr Body) params sv s sv' s' err :
  in_txn (Rows:=Rows) h stmt params sv s = (sv', s', Answer (inr err)) → aborted s' = true.
Proof.
  assert (∀ m : txn (Response Rows), run_in_txn m sv s = (sv', s', Answer (inr err)) → aborted s' = true) as Hrun.
  { intros m Hr. unfold run_in_txn in Hr. destruct (m _) as [st [resp|e]]; injection Hr as _ <- Hrep; [done|by destruct e]. }
  assert (∀ msg, refuse (Rows:=Rows) sv s msg = (sv', s', Answer (inr err)) → aborted s' = true) as Href.
  { intros msg Hr. by injection Hr as _ <- _. }
  intros Hr. unfold in_txn in Hr. destruct stmt; try done; try (by eapply Href); try (by eapply Hrun).
  all: destruct params as [[|p ps]|]; first [by eapply Href|by eapply Hrun].
Qed.

(** C35: An error inside a transaction aborts it: from then on every statement is
    answered 25P02 and changes nothing, until COMMIT or ROLLBACK, which both
    answer ROLLBACK, commit nothing and close the session. *)
Theorem aborted_until_end h addr wf (stmt : Statement Expr Body) params nd nd' (reply : Reply (Rows:=Rows)) s :
  counted (nd_registry nd) → rg_sessions (nd_registry nd) !! addr = Some s →
  handle_query h addr wf stmt params nd = (nd', reply) →
  if aborted s || wf then
    nd_server nd' = nd_server nd ∧
    if ends_transaction stmt
    then reply = Answer (inl (TransactionEnd "ROLLBACK")) ∧ rg_sessions (nd_registry nd') !! addr = None
    else reply = Answer (inr aborted_err) ∧ rg_sessions (nd_registry nd') !! addr = Some (abort s)
  else ∀ err, reply = Answer (inr err) → ends_transaction stmt = false →
    ∃ s', rg_sessions (nd_registry nd') !! addr = Some s' ∧ aborted s' = true.
Proof.
  intros Hc Hs Hq. unfold handle_query in Hq. destruct (aborted s || wf) eqn:Eab.
  - assert (∃ s1, rg_sessions (nd_registry (sync_aborted_from_wire addr wf nd)) !! addr = Some s1 ∧ s1 = abort s) as (s1 & Hs1 & ->).
    { unfold sync_aborted_from_wire. rewrite (counted_get _ _ Hc), Hs. destruct wf; cbn.
      - exists (abort s). split; [by rewrite lookup_alter_eq, Hs|done].
      - exists s. split; [done|]. rewrite orb_false_r in Eab. destruct s. cbn in *. by subst. }
    assert (nd_server (sync_aborted_from_wire addr wf nd) = nd_server nd) as Hsv.
    { unfold sync_aborted_from_wire. by destruct wf, (get addr (nd_registry nd)). }
    pose proof (sync_framed addr wf nd Hc) as [Hc1 _]. generalize dependent (sync_aborted_from_wire addr wf nd). intros nd1 Hq Hs1 Hsv Hc1.
    rewrite <-Hsv. assert (get addr (nd_registry nd1) = Some (abort s)) as Hg by (by rewrite counted_get).
    assert (handle_ordinary h addr stmt params nd1 = (nd1, Answer (inr aborted_err))) as Hord by (unfold handle_ordinary; by rewrite Hg).
    destruct stmt; cbn [ends_transaction]; try (rewrite Hord in Hq; by injection Hq as <- <-).
    + unfold is_aborted in Hq. rewrite Hg in Hq. by injection Hq as <- <-.
    + unfold commit, registry_take in Hq. rewrite Hs1 in Hq. injection Hq as <- <-. cbn. by rewrite lookup_delete_eq.
    + injection Hq as <- <-. cbn. by rewrite lookup_delete_eq.
  - apply orb_false_elim in Eab as [Ea ->]. cbn [sync_aborted_from_wire] in Hq. intros err -> Hend.
    assert (get addr (nd_registry nd) = Some s) as Hg by (by rewrite counted_get).
    assert (handle_ordinary h addr stmt params nd = (nd', Answer (inr err)) → ∃ s', rg_sessions (nd_registry nd') !! addr = Some s' ∧ aborted s' = true) as Hord.
    { unfold handle_ordinary. rewrite Hg, Ea. destruct (in_txn h stmt params (nd_server nd) s) as [[sv s'] rep] eqn:Et.
      intros Hr. injection Hr as <- ->. apply in_txn_error in Et. exists s'. cbn. by rewrite lookup_alter_eq, Hs. }
    destruct stmt; try (by apply Hord); try done. unfold is_aborted in Hq. rewrite Hg, Ea in Hq.
    unfold begin, registry_begin in Hq. by rewrite Hs in Hq.
Qed.
End Registry.
