(* ===== verification/Authz.v ===== *)
(** * Authorization (src/icegres/src/authz.rs)

    The policy file, role memberships flattened, the check of one statement and
    the hook; and the test for statements a read-only listener admits.  The
    parser's trees are kept as far as the code looks into them: the visitor that
    lists a query's tables is a parameter, a name is its printed text. *)
From S2P Require Import Prelude Text TailNames Keyed TableOps Freshness Overwrite Engine Dml.
#[local] Open Scope N_scope.
#[local] Set Warnings "-register-all".

Abbreviation Name := (list byte).

(** ** The model *)
Inductive Relation := Own | Write | Read | Drop.
#[export] Instance relation_eq_dec : EqDecision Relation.
Proof. solve_decision. Defined.
Definition implies (held needed : Relation) : bool :=
  match held, needed with
  | Own, _ => true
  | Write, (Write | Read) => true
  | Read, Read => true
  | Drop, Drop => true
  | _, _ => false
  end.
Definition is_word (s : string) (bs : Name) : bool := bool_decide (bs = str_bytes s).
(** [Relation::parse] *)
Definition parse_relation (s : Name) : result Relation :=
  let l := map ascii_lower s in
  if existsb (λ w, is_word w l) ["own"; "ownership"] then Ok Own
  else if existsb (λ w, is_word w l) ["write"; "canwritedata"; "modify"] then Ok Write
  else if existsb (λ w, is_word w l) ["read"; "canreaddata"; "select"] then Ok Read
  else if existsb (λ w, is_word w l) ["drop"; "candrop"] then Ok Drop
  else Err "unknown relation".

Inductive Action := ReadData | WriteData | DropTable.
Definition required (a : Action) : Relation :=
  match a with ReadData => Read | WriteData => Write | DropTable => Drop end.

Inductive Entity := Warehouse | Namespace (ns : Name) | Table (ns t : Name).
#[export] Instance entity_eq_dec : EqDecision Entity.
Proof. solve_decision. Defined.
Definition self_and_ancestors (e : Entity) : list Entity :=
  match e with
  | Warehouse => [Warehouse]
  | Namespace ns => [Namespace ns; Warehouse]
  | Table ns t => [Table ns t; Namespace ns; Warehouse]
  end.
(** [Entity::parse], which never fails. *)
Definition parse_entity (token : Name) : Entity :=
  if is_word "*" token || eq_ignore_ascii_case token (str_bytes "warehouse") then Warehouse else
  match split_once DOT token with
  | Some (ns, t) => if match ns, t with _ :: _, _ :: _ => true | _, _ => false end then Table ns t else Namespace token
  | None => Namespace token
  end.

Record TableRef := { namespace : Name; table : Name }.
Definition entity (t : TableRef) : Entity := Table (namespace t) (table t).
Inductive Decision := Allow | Deny (action : Action) (target : TableRef).

(** ** The policy file *)
Definition HASH : byte := Byte.x23.
Definition NEWLINE : byte := Byte.x0a.
Definition CR : byte := Byte.x0d.
(** [str::lines] *)
Definition strip_cr (l : Name) : Name := match rev l with c :: r => if decide (c = CR) then rev r else l | [] => l end.
Definition str_lines (text : Name) : list Name :=
  let parts := split_on NEWLINE text in
  map strip_cr (match last parts with Some [] => removelast parts | _ => parts end).

Inductive PolicyLine := RoleLine | Member (user role : Name) | Grant (principal : Name) (rel : Relation) (ent : Entity).
(** The body of the loop over the lines; [None] for a blank one. *)
Definition parse_line (raw : Name) : result (option PolicyLine) :=
  let line := trim (default [] (head (split_on HASH raw))) in
  match line with
  | [] => Ok None
  | _ =>
    match words line with
    | [k; name] => if is_word "role" k then Ok (Some RoleLine) else Err "authz file line"
    | [k; user; role] => if is_word "member" k then Ok (Some (Member user role)) else Err "authz file line"
    | [k; principal; relation; ent] =>
      if is_word "grant" k then rel ← parse_relation relation; Ok (Some (Grant principal rel (parse_entity ent)))
      else Err "authz file line"
    | _ => Err "authz file line"
    end
  end.

Abbreviation Members := (gmap Name (gset Name)).
Abbreviation Grants := (gmap Name (list (Relation * Entity))).
Definition add_member (user role : Name) (m : Members) : Members := <[user := {[role]} ∪ default ∅ (m !! user)]> m.
(** A hash set is a list without repetitions. *)
Definition add_grant (principal : Name) (g : Relation * Entity) (m : Grants) : Grants :=
  let held := default [] (m !! principal) in
  <[principal := if decide (g ∈ held) then held else held ++ [g]]> m.
Fixpoint read_lines (lines : list Name) (grants : Grants) (direct : Members) : result (Grants * Members) :=
  match lines with
  | [] => Ok (grants, direct)
  | raw :: lines =>
    parsed ← parse_line raw;
    match parsed with
    | Some (Member user role) => read_lines lines grants (add_member user role direct)
    | Some (Grant principal rel ent) => read_lines lines (add_grant principal (rel, ent) grants) direct
    | Some RoleLine | None => read_lines lines grants direct
    end
  end.

(** ** Memberships *)

(** The walk over the stack of roles; [None] when [fuel] pops are not enough.  A
    hash set gives its elements in any order. *)
Definition parents (direct : Members) (role : Name) : gset Name := default ∅ (direct !! role).
Fixpoint walk (direct : Members) (fuel : nat) (stack : list Name) (seen : gset Name) : option (gset Name) :=
  match stack with
  | [] => Some seen
  | role :: stack =>
    match fuel with
    | O => None
    | S fuel => if decide (role ∈ seen) then walk direct fuel stack seen
                else walk direct fuel (elements (parents direct role) ++ stack) ({[role]} ∪ seen)
    end
  end.
Definition weight (direct : Members) : nat := map_fold (λ _ roles n, size roles + n)%nat 0%nat direct.
(** [flatten_memberships] *)
Definition flatten_memberships (direct : Members) : Members :=
  map_imap (λ _ roles, walk direct (weight direct + size roles) (elements roles) ∅) direct.

Record FileAuthorizer := { grants : Grants; memberships : Members }.
(** [FileAuthorizer::parse] *)
Definition parse (text : Name) : result FileAuthorizer :=
  '(g, direct) ← read_lines (str_lines text) ∅ ∅;
  Ok {| grants := g; memberships := flatten_memberships direct |}.

(** ** Checks *)
Definition principals_of (a : FileAuthorizer) (user : Name) : list Name :=
  user :: elements (default ∅ (memberships a !! user)).
Definition check (a : FileAuthorizer) (principal : Name) (action : Action) (target : TableRef) : Decision :=
  let needed := required action in
  let entities := self_and_ancestors (entity target) in
  if existsb (λ p, existsb (λ '(rel, ent), implies rel needed && bool_decide (ent ∈ entities)) (default [] (grants a !! p)))
       (principals_of a principal)
  then Allow else Deny action target.

(** ** Statements *)

(** A query: its CTEs and its body.  What a SELECT holds inside (derived tables,
    subqueries) is there for what the code does not look into. *)
Inductive Query := MkQuery (ctes : list Query) (body : SetExpr)
with SetExpr :=
  | Select (subqueries : list Query) | Values | TableExpr
  | Nested (q : Query) | SetOperation (left_ right_ : SetExpr)
  | DataModifying.
Inductive CopySource := CopyTable (name : Name) | CopyQuery (q : Query).
(** A table factor is its name when it is a plain table. *)
Inductive AuthStatement :=
  | AQuery (q : Query)
  | AInsert (target : option Name) (source : option Query)
  | AUpdate (relation : option Name)
  | ADelete (tables : list Name) (from : list (option Name))
  | ACopy (source : CopySource) (to : bool)
  | ADrop (names : list Name)
  | ASession
  | AExplain (analyze : bool) (stmt : AuthStatement)
  | AOther.

Definition DQUOTE : byte := Byte.x22.
(** [object_name_to_ref] *)
Definition object_name_to_ref (name default_ns : Name) : option TableRef :=
  let clean := List.filter (λ b, negb (bool_decide (b = DQUOTE))) name in
  r ← match split_on DOT clean with
      | [t] => Some {| namespace := default_ns; table := t |}
      | [ns; t] => Some {| namespace := ns; table := t |}
      | [_; ns; t] => Some {| namespace := ns; table := t |}
      | _ => None
      end;
  match table r with [] => None | _ => Some r end.
Definition table_factor_to_ref (factor : option Name) (default_ns : Name) : option TableRef :=
  name ← factor; object_name_to_ref name default_ns.
(** [is_system_schema] *)
Definition is_system_schema (ns : Name) : bool :=
  existsb (λ w, is_word w (map ascii_lower ns)) ["pg_catalog"; "information_schema"; "pg_temp"; "pg_toast"].

Section Statements.
Context (visit_relations : Query → list Name).

(** [collect_query_reads] *)
Definition collect_query_reads (q : Query) (default_ns : Name) : list (Action * TableRef) :=
  omap (λ name, pair ReadData <$> object_name_to_ref name default_ns) (visit_relations q).
(** [required_checks] *)
Definition required_checks (stmt : AuthStatement) (default_ns : Name) : list (Action * TableRef) :=
  let checks :=
    match stmt with
    | AQuery q => collect_query_reads q default_ns
    | AInsert target source =>
      option_list (pair WriteData <$> table_factor_to_ref target default_ns) ++
      match source with Some q => collect_query_reads q default_ns | None => [] end
    | AUpdate relation => option_list (pair WriteData <$> table_factor_to_ref relation default_ns)
    | ADelete tables from =>
      omap (λ name, pair WriteData <$> object_name_to_ref name default_ns) tables ++
      omap (λ factor, pair WriteData <$> table_factor_to_ref factor default_ns) from
    | ACopy (CopyTable name) to =>
      option_list (pair (if to then ReadData else WriteData) <$> object_name_to_ref name default_ns)
    | ACopy (CopyQuery q) _ => collect_query_reads q default_ns
    | ADrop names => omap (λ name, pair DropTable <$> object_name_to_ref name default_ns) names
    | _ => []
    end in
  List.filter (λ c, negb (is_system_schema (namespace (snd c)))) checks.

(** [Authorizer::authorize_sql]: the first failing check decides. *)
Fixpoint first_denied (a : FileAuthorizer) (principal : Name) (checks : list (Action * TableRef)) : Decision :=
  match checks with
  | [] => Allow
  | (action, target) :: checks =>
    match check a principal action target with
    | Allow => first_denied a principal checks
    | d => d
    end
  end.
Definition authorize_sql (a : FileAuthorizer) (principal : Name) (stmt : AuthStatement) (default_ns : Name) : Decision :=
  first_denied a principal (required_checks stmt default_ns).

(** [AuthzHook::gate]: [None] lets the statement pass.  A client without a user
    is the empty name. *)
Definition deny_error : PgWireError := user_err "42501" "permission denied".
Definition gate (a : FileAuthorizer) (default_ns : Name) (user : option Name) (stmt : AuthStatement) : option PgWireError :=
  match authorize_sql a (default [] user) stmt default_ns with
  | Allow => None
  | Deny _ _ => Some deny_error
  end.
End Statements.

(** ** Read-only listeners *)
Fixpoint query_is_read_only (q : Query) : bool :=
  match q with MkQuery ctes body => forallb query_is_read_only ctes && set_expr_is_read_only body end
with set_expr_is_read_only (body : SetExpr) : bool :=
  match body with
  | Select _ | Values | TableExpr => true
  | Nested q => query_is_read_only q
  | SetOperation l r => set_expr_is_read_only l && set_expr_is_read_only r
  | DataModifying => false
  end.
(** [is_read_only] *)
Fixpoint is_read_only (stmt : AuthStatement) : bool :=
  match stmt with
  | AQuery q => query_is_read_only q
  | ASession => true
  | AExplain analyze stmt => negb analyze || is_read_only stmt
  | _ => false
  end.

(** A SELECT's own subqueries are not looked into. *)
Example nested_write_admitted :
  is_read_only (AQuery (MkQuery [] (Select [MkQuery [MkQuery [] DataModifying] (Select [])]))) = true.
Proof. reflexivity. Qed.
(** EXPLAIN ANALYZE runs its statement, and needs no grant. *)
Example explain_analyze_unchecked visit t ns : required_checks visit (AExplain true (AInsert (Some t) None)) ns = [].
Proof. reflexivity. Qed.

(** The doc of [Entity::parse] counts [lakehouse] among the names of the warehouse. *)
Example lakehouse_is_a_namespace : parse_entity (str_bytes "lakehouse") = Namespace (str_bytes "lakehouse").
Proof. vm_compute. reflexivity. Qed.

(** ** What the policy file grants *)

(** The lines that say something. *)
Definition policy (text : Name) : result (list PolicyLine) :=
  lines ← map_result parse_line (str_lines text); Ok (omap id (lines : list (option PolicyLine))).
Definition member_of (lines : list PolicyLine) (u r : Name) : Prop := Member u r ∈ lines.
(** A principal acts for itself and for the roles it is a member of, directly or
    through other roles. *)
Definition acts_for (lines : list PolicyLine) : Name → Name → Prop := rtc (member_of lines).
Definition granted (lines : list PolicyLine) (principal : Name) (action : Action) (target : TableRef) : Prop :=
  ∃ p rel ent, acts_for lines principal p ∧ Grant p rel ent ∈ lines ∧ implies rel (required action) = true ∧
    ent ∈ self_and_ancestors (entity target).

Section Walk.
Context (direct : Members).
Definition edge (u r : Name) : Prop := r ∈ parents direct u.

Definition unseen (seen : gset Name) : Members := filter (λ ur, ur.1 ∉ seen) direct.
Lemma weight_delete (m : Members) role :
  weight m = (size (default ∅ (m !! role)) + weight (delete role m))%nat.
Proof.
  destruct (m !! role) as [roles|] eqn:E; cbn.
  - unfold weight. rewrite (map_fold_delete_L _ _ role roles m); [done| |done]. intros; lia.
  - by rewrite delete_id.
Qed.
Lemma unseen_step role seen :
  role ∉ seen → weight (unseen seen) = (size (parents direct role) + weight (unseen ({[role]} ∪ seen)))%nat.
Proof.
  intros Hr. rewrite (weight_delete (unseen seen) role).
  assert (unseen seen !! role = direct !! role) as ->.
  { unfold unseen. destruct (direct !! role) as [roles|] eqn:E.
    - apply map_lookup_filter_Some. by split.
    - apply map_lookup_filter_None. by left. }
  f_equal. f_equal. apply map_eq. intros k. apply option_eq. intros v. unfold unseen.
  rewrite lookup_delete_Some, !map_lookup_filter_Some. set_solver.
Qed.
Lemma walk_ends fuel stack seen :
  (length stack + weight (unseen seen) ≤ fuel)%nat → is_Some (walk direct fuel stack seen).
Proof.
  revert stack seen. induction fuel as [|fuel IH]; intros stack seen Hf; destruct stack as [|role stack]; cbn in Hf |- *; [done|lia|done|].
  destruct (decide (role ∈ seen)) as [|Hr]; apply IH; [lia|]. rewrite (unseen_step role seen Hr) in Hf.
  rewrite length_app. unfold size, set_size in Hf. cbn in Hf. lia.
Qed.

(** Everything found is reachable, what is found or waiting has its parents found
    or waiting. *)
Definition reached (start : gset Name) (r : Name) : Prop := ∃ s, s ∈ start ∧ rtc edge s r.
Definition walk_inv (start : gset Name) (stack : list Name) (seen : gset Name) : Prop :=
  (∀ r, r ∈ seen ∨ r ∈ stack → reached start r) ∧ (∀ r, r ∈ start → r ∈ seen ∨ r ∈ stack) ∧
  (∀ r p, r ∈ seen → edge r p → p ∈ seen ∨ p ∈ stack).
Lemma walk_reaches start fuel stack seen out :
  walk_inv start stack seen → walk direct fuel stack seen = Some out → ∀ r, r ∈ out ↔ reached start r.
Proof.
  revert stack seen. induction fuel as [|fuel IH]; intros stack seen (I1 & I2 & I3) Hw; destruct stack as [|role stack]; cbn in Hw; try done.
  1, 2: injection Hw as <-; intros r; (split; [intros Hr; apply I1; by left|]);
    intros (s & Hs & Hp); (assert (s ∈ seen) as Hseen by (destruct (I2 s Hs) as [|Hn]; [done|by apply not_elem_of_nil in Hn]));
    clear Hs; (induction Hp as [s|s y r Hsy _ IHp]; [done|]); apply IHp;
    (destruct (I3 _ _ Hseen Hsy) as [|Hn]; [done|by apply not_elem_of_nil in Hn]).
  destruct (decide (role ∈ seen)) as [Hr|Hr]; revert Hw; apply IH; unfold walk_inv.
  - split_and!; [set_solver..|]. intros r p Hrs He. destruct (I3 r p Hrs He) as [|[->|]%elem_of_cons]; [by left|by left|by right].
  - assert (reached start role) as Hrole by (apply I1; right; by left).
    split_and!.
    + intros r [[->%elem_of_singleton|Hs]%elem_of_union|[Hp|Hs]%elem_of_app]; [done|by apply I1; left| |by apply I1; right; right].
      apply elem_of_elements in Hp. destruct Hrole as (s & Hs & Hrt). exists s. split; [done|]. by eapply rtc_r.
    + intros r Hs. destruct (I2 r Hs) as [|[->|]%elem_of_cons]; [left; set_solver|left; set_solver|right; apply elem_of_app; by right].
    + intros r p [->%elem_of_singleton|Hs]%elem_of_union He.
      * right. apply elem_of_app. left. by apply elem_of_elements.
      * destruct (I3 r p Hs He) as [|[->|]%elem_of_cons]; [left; set_solver|left; set_solver|right; apply elem_of_app; by right].
Qed.

Lemma weight_unseen_empty : weight (unseen ∅) = weight direct.
Proof. unfold unseen. rewrite map_filter_id; [done|]. intros; cbn; set_solver. Qed.

Lemma tc_first {A} (R : A → A → Prop) x z : tc R x z → ∃ y, R x y ∧ rtc R y z.
Proof. intros [x' y H|x' y z' H Ht]; exists y; split; [done|apply rtc_refl|done|by apply tc_rtc]. Qed.

Lemma flatten_reaches u r :
  (∀ roles : gset Name, is_Some (walk direct (weight direct + size roles) (elements roles) ∅)) ∧
  (r ∈ default ∅ (flatten_memberships direct !! u) ↔ tc edge u r).
Proof.
  assert (∀ roles : gset Name, is_Some (walk direct (weight direct + size roles) (elements roles) ∅)) as Hends.
  { intros roles. apply walk_ends. rewrite weight_unseen_empty. unfold size, set_size. cbn. lia. }
  split; [done|]. unfold flatten_memberships. rewrite map_lookup_imap.
  destruct (direct !! u) as [roles|] eqn:Eu; cbn.
  - destruct (Hends roles) as [out Hout]. rewrite Hout. cbn.
    assert (walk_inv roles (elements roles) ∅) as Hinv.
    { split_and!; set_unfold; [|naive_solver..]. intros r' [[]|Hr]. by exists r'. }
    rewrite (walk_reaches roles _ _ _ _ Hinv Hout r).
    assert (∀ s, edge u s ↔ s ∈ roles) as He by (intros s; unfold edge, parents; by rewrite Eu). split.
    + intros (s & Hs & Hp). apply He in Hs. apply tc_rtc_r with s; [by apply tc_once|done].
    + intros (s & Hs%He & Hp)%tc_first. by exists s.
  - split; [set_solver|]. intros (s & Hs & _)%tc_first. unfold edge, parents in Hs. rewrite Eu in Hs. cbn in Hs. set_solver.
Qed.
(** C34: flattening ends whatever cycles the memberships have: the fuel of the walk
    from each user is enough, and it gives the user the roles it reaches by one
    membership or more. *)
Theorem flatten_memberships_ends u r :
  is_Some (walk direct (weight direct + size (parents direct u)) (elements (parents direct u)) ∅) ∧
  (r ∈ default ∅ (flatten_memberships direct !! u) ↔ tc edge u r).
Proof. destruct (flatten_reaches u r) as [He Hr]. by split. Qed.
End Walk.

(** ** The file read *)
Lemma parents_add m user role u r : r ∈ parents (add_member user role m) u ↔ (u = user ∧ r = role) ∨ r ∈ parents m u.
Proof.
  unfold parents, add_member. destruct (decide (u = user)) as [->|Hu].
  - rewrite lookup_insert_eq. cbn. set_solver.
  - rewrite lookup_insert_ne by done. naive_solver.
Qed.
Lemma grants_add m principal g p g' :
  g' ∈ default [] (add_grant principal g m !! p) ↔ (p = principal ∧ g' = g) ∨ g' ∈ default [] (m !! p).
Proof.
  unfold add_grant. destruct (decide (p = principal)) as [->|Hp].
  - rewrite lookup_insert_eq. cbn. destruct (decide (g ∈ _)); set_solver.
  - rewrite lookup_insert_ne by done. naive_solver.
Qed.
Lemma read_lines_policy raws g d g' d' :
  read_lines raws g d = Ok (g', d') → ∃ parsed, map_result parse_line raws = Ok parsed ∧
    (∀ u r, r ∈ parents d' u ↔ r ∈ parents d u ∨ Member u r ∈ omap id parsed) ∧
    (∀ p rel ent, (rel, ent) ∈ default [] (g' !! p) ↔ (rel, ent) ∈ default [] (g !! p) ∨ Grant p rel ent ∈ omap id parsed).
Proof.
  revert g d. induction raws as [|raw raws IH]; intros g d Hr; cbn in Hr.
  { injection Hr as <- <-. exists []. cbn. set_solver. }
  apply bind_Ok in Hr as (line & Hl & Hr). cbn [map_result]. rewrite Hl.
  assert (∃ g1 d1, read_lines raws g1 d1 = Ok (g', d') ∧
    (∀ u r, r ∈ parents d1 u ↔ r ∈ parents d u ∨ Some (Member u r) = line) ∧
    (∀ p rel ent, (rel, ent) ∈ default [] (g1 !! p) ↔ (rel, ent) ∈ default [] (g !! p) ∨ Some (Grant p rel ent) = line)) as (g1 & d1 & Hr1 & Hd & Hg).
  { destruct line as [[|user role|principal rel ent]|]; eexists _, _; (split; [exact Hr|]); split; intros.
    all: rewrite ?parents_add, ?grants_add; naive_solver. }
  apply IH in Hr1 as (parsed & -> & IHd & IHg). exists (line :: parsed). cbn. split; [done|].
  split; intros; rewrite ?IHd, ?IHg, ?Hd, ?Hg; destruct line; cbn; set_solver.
Qed.

Lemma rtc_edges (R R' : Name → Name → Prop) : (∀ x y, R x y ↔ R' x y) → ∀ x y, rtc R x y ↔ rtc R' x y.
Proof. intros HR x y. split; apply rtc_congruence with (f := id); intros ? ?; apply HR. Qed.

Lemma parse_granted text a lines principal action target :
  parse text = Ok a → policy text = Ok lines → check a principal action target = Allow ↔ granted lines principal action target.
Proof.
  intros Hp Hl. unfold parse in Hp. apply bind_Ok in Hp as ([g d] & Hr & Ha). injection Ha as <-.
  apply read_lines_policy in Hr as (parsed & Hpar & Hd & Hg). unfold policy in Hl. rewrite Hpar in Hl. injection Hl as <-.
  assert (∀ u p, p ∈ principals_of {| grants := g; memberships := flatten_memberships d |} u ↔ acts_for (omap id parsed) u p) as Hpr.
  { intros u p. unfold principals_of. cbn [memberships]. rewrite elem_of_cons, elem_of_elements.
    rewrite (proj2 (flatten_reaches d u p)). unfold acts_for.
    rewrite (rtc_edges _ (edge d)); [rewrite rtc_tc; naive_solver|]. intros x y. unfold member_of, edge. rewrite Hd. unfold parents at 1.
    rewrite lookup_empty. cbn. set_solver. }
  unfold check. assert (∀ b : bool, (if b then Allow else Deny action target) = Allow ↔ b = true) as -> by (intros []; naive_solver).
  rewrite existsb_exists. unfold granted. split.
  - intros (p & Hin & Hex). apply existsb_exists in Hex as ([rel ent] & Hheld & [Himp Hent]%andb_true_iff). apply bool_decide_eq_true in Hent.
    apply list_elem_of_In, Hpr in Hin. exists p, rel, ent. split; [done|]. split; [|by split].
    apply list_elem_of_In in Hheld. cbn [grants] in Hheld. rewrite Hg, lookup_empty in Hheld. cbn in Hheld. set_solver.
  - intros (p & rel & ent & Hact & Hgrant & Himp & Hent). exists p. split; [by apply list_elem_of_In, Hpr|].
    apply existsb_exists. exists (rel, ent). split; [|by rewrite Himp, bool_decide_eq_true_2].
    apply list_elem_of_In. cbn [grants]. rewrite Hg. by right.
Qed.

