(* ===== verification/Branch.v ===== *)
(** * Branches (src/icegres/src/branch.rs, the ref operations of overwrite.rs)

    The lineage of snapshots, the fork point of two refs and what a merge plans;
    and the operations that move refs: create, drop, both over all tables, the
    fast-forward merge and snapshot expiry, each one request with the observed
    heads as its requirements.  A table's metadata is [TableMetadata]. *)
From stdpp Require Import sorting.
From S2P Require Import Prelude Text TailNames Keyed TableOps Freshness Overwrite Engine Dml Txn.
#[local] Open Scope N_scope.

(** ** Metadata *)
Record SnapshotMeta := {
  sm_id : Z; sm_parent : option Z; sm_timestamp : Z; sm_operation : Operation;
  sm_summary : string → option (list byte); sm_schema : option Z;
}.
Record TableMetadata := {
  md_uuid : N; md_current : option Z; md_snapshots : list SnapshotMeta; md_ref : string → option Z;
  md_schemas : Z → option (list (Z * list byte * list byte)); md_current_schema : Z;  (* field id, name, type *)
}.
Definition snapshot_by_id (md : TableMetadata) (id : Z) : option SnapshotMeta :=
  List.find (λ s, Z.eqb (sm_id s) id) (md_snapshots md).
Definition parent_of (md : TableMetadata) (id : Z) : option (option Z) := sm_parent <$> snapshot_by_id md id.

(** ** Lineage *)

(** The loop of [lineage_of]; [None] when [fuel] snapshots are not enough. *)
Fixpoint lineage (md : TableMetadata) (fuel : nat) (seen : gset Z) (cur : option Z) : option (list Z) :=
  match cur with
  | None => Some []
  | Some id =>
    if decide (id ∈ seen) then Some [] else
    match parent_of md id with
    | None => Some []
    | Some parent =>
      match fuel with
      | O => None
      | S fuel => cons id <$> lineage md fuel ({[id]} ∪ seen) parent
      end
    end
  end.
Definition lineage_of (md : TableMetadata) (head : Z) : list Z :=
  default [] (lineage md (length (md_snapshots md)) ∅ (Some head)).
Definition fork_point (md : TableMetadata) (a_head b_head : Z) : option Z :=
  let a_ancestry := lineage_of md a_head in
  List.find (λ id, bool_decide (id ∈ a_ancestry)) (lineage_of md b_head).

Inductive DiffStatus := Unchanged | AdvancedA | AdvancedB | Diverged | OnlyA | OnlyB | NoRef.
Definition classify (a_head b_head fork : option Z) : DiffStatus :=
  match a_head, b_head with
  | None, None => NoRef
  | Some _, None => OnlyA
  | None, Some _ => OnlyB
  | Some a, Some b =>
    if Z.eqb a b then Unchanged
    else if bool_decide (fork = Some b) then AdvancedA
    else if bool_decide (fork = Some a) then AdvancedB
    else Diverged
  end.

(** [side_delta]: a side's own snapshots and what their summaries report. *)
Record SnapshotInfo := { si_id : Z; si_timestamp : Z; si_operation : Operation; si_added : option N; si_deleted : option N }.
Record SideDelta := { sd_snapshots : list SnapshotInfo; sd_rows_added : N; sd_rows_deleted : N; sd_summary_missing : N }.
Definition summary_count (s : SnapshotMeta) (key : string) : option N := v ← sm_summary s key; parse_u64 v.
Definition add_snapshot (d : SideDelta) (id : Z) (s : SnapshotMeta) : SideDelta :=
  let added := summary_count s "added-records" in
  let deleted := summary_count s "deleted-records" in
  {| sd_snapshots := sd_snapshots d ++
       [{| si_id := id; si_timestamp := sm_timestamp s; si_operation := sm_operation s; si_added := added; si_deleted := deleted |}];
     sd_rows_added := wadd (sd_rows_added d) (default 0 added);
     sd_rows_deleted := wadd (sd_rows_deleted d) (default 0 deleted);
     sd_summary_missing := sd_summary_missing d + match added, deleted with None, None => 1 | _, _ => 0 end |}.
Fixpoint add_until (md : TableMetadata) (fork : option Z) (ids : list Z) (d : SideDelta) : SideDelta :=
  match ids with
  | [] => d
  | id :: ids => if bool_decide (Some id = fork) then d
                 else match snapshot_by_id md id with
                      | Some s => add_until md fork ids (add_snapshot d id s)
                      | None => d                              (* no id of a lineage *)
                      end
  end.
Definition side_delta (md : TableMetadata) (head fork : option Z) : SideDelta :=
  let start := {| sd_snapshots := []; sd_rows_added := 0; sd_rows_deleted := 0; sd_summary_missing := 0 |} in
  match head with None => start | Some head => add_until md fork (lineage_of md head) start end.

(** [schema_diff], by field id. *)
Abbreviation Column := (Z * list byte * list byte)%type.
Record SchemaDiff := {
  sc_a_schema_id : Z; sc_b_schema_id : Z;
  sc_added : list (list byte * list byte); sc_dropped : list (list byte * list byte);
  sc_renamed : list (list byte * list byte); sc_retyped : list (list byte * list byte * list byte);
}.
Definition head_schema (md : TableMetadata) (head : Z) : list Column :=
  default (default [] (md_schemas md (md_current_schema md)))
    (s ← snapshot_by_id md head; id ← sm_schema s; md_schemas md id).
Definition head_schema_id (md : TableMetadata) (head : Z) : Z :=
  default (md_current_schema md) (s ← snapshot_by_id md head; sm_schema s).
Definition no_schema_diff : SchemaDiff :=
  {| sc_a_schema_id := 0; sc_b_schema_id := 0; sc_added := []; sc_dropped := []; sc_renamed := []; sc_retyped := [] |}.
Definition field_of (cols : list Column) (id : Z) : option Column := List.find (λ c, Z.eqb (fst (fst c)) id) cols.
Definition schema_diff (md : TableMetadata) (a_head b_head : Z) : SchemaDiff :=
  let a := head_schema md a_head in
  let b := head_schema md b_head in
  {| sc_a_schema_id := head_schema_id md a_head; sc_b_schema_id := head_schema_id md b_head;
     sc_added := omap (λ '(id, n, t), match field_of b id with None => Some (n, t) | Some _ => None end) a;
     sc_dropped := omap (λ '(id, n, t), match field_of a id with None => Some (n, t) | Some _ => None end) b;
     sc_renamed := omap (λ '(id, n, t), '(_, n', _) ← field_of b id; if decide (n' = n) then None else Some (n', n)) a;
     sc_retyped := omap (λ '(id, n, t), '(_, _, t') ← field_of b id; if decide (t' = t) then None else Some (n, t', t)) a |}.

(** [TableCmp], without the table properties it shows. *)
Record TableCmp := {
  cmp_ident : TableIdent; cmp_uuid : N; cmp_a_head : option Z; cmp_b_head : option Z; cmp_fork : option Z;
  cmp_status : DiffStatus; cmp_a_side : SideDelta; cmp_b_side : SideDelta; cmp_schema : SchemaDiff;
}.
Definition compare_table (md : TableMetadata) (ident : TableIdent) (a b : string) : TableCmp :=
  let a_head := md_ref md a in
  let b_head := md_ref md b in
  let fork := match a_head, b_head with Some ah, Some bh => fork_point md ah bh | _, _ => None end in
  {| cmp_ident := ident; cmp_uuid := md_uuid md; cmp_a_head := a_head; cmp_b_head := b_head; cmp_fork := fork;
     cmp_status := classify a_head b_head fork;
     cmp_a_side := side_delta md a_head fork; cmp_b_side := side_delta md b_head fork;
     cmp_schema := match a_head, b_head with
                   | Some ah, Some bh => if Z.eqb ah bh then no_schema_diff else schema_diff md ah bh
                   | _, _ => no_schema_diff
                   end |}.

Record FastForwardMove := { mv_ident : TableIdent; mv_uuid : N; mv_from_head : Z; mv_to_head : Z }.
Inductive MergePlan := FastForward (mv : FastForwardMove) | Skip (why : string) | PlanConflict (why : string).
(** [plan_merge]: the heads are there where the status says so. *)
Definition plan_merge (c : TableCmp) : MergePlan :=
  match cmp_status c with
  | AdvancedA =>
    match cmp_a_head c, cmp_b_head c with
    | Some a, Some b => FastForward {| mv_ident := cmp_ident c; mv_uuid := cmp_uuid c; mv_from_head := a; mv_to_head := b |}
    | _, _ => PlanConflict "advanced-a implies both heads"
    end
  | Unchanged => Skip "already up to date"
  | AdvancedB => Skip "target is ahead of the source"
  | NoRef | OnlyB => Skip "source ref absent on this table"
  | OnlyA => PlanConflict "target ref is missing on this table"
  | Diverged => PlanConflict "diverged"
  end.

(** ** Names *)
Definition name_char (b : byte) : bool :=
  byte_in 48 57 b || byte_in 65 90 b || byte_in 97 122 b || bool_decide (b ∈ str_bytes "_-.").
(** [validate_name] *)
Definition validate_name (name : string) : result unit :=
  let bs := str_bytes name in
  ensure (match bs with [] => false | _ => forallb name_char bs end) "branch name is invalid".
(** [parse_table] *)
Definition parse_table (table : list byte) : result TableIdent :=
  '(ns, name) ← match split_on DOT table with
                | [name] => Ok (str_bytes DEFAULT_SCHEMA, name)
                | [ns; name] => Ok (ns, name)
                | _ => Err "table must be <table> or <namespace>.<table>"
                end;
  _ ← ensure (match ns, name with _ :: _, _ :: _ => true | _, _ => false end) "table must be <table> or <namespace>.<table>";
  Ok {| namespace := [ns]; table_name := name |}.

(** ** Requests *)
Inductive RefUpdate := SetSnapshotRef (name : string) (id : Z) | RemoveSnapshotRef (name : string) | RemoveSnapshots (ids : list Z).
(** [rr_refs]: the heads required, [None] for a ref that must not exist. *)
Record RefRequest := { rr_ident : TableIdent; rr_uuid : N; rr_refs : list (string * option Z); rr_update : RefUpdate }.
Definition set_branch_ref_request (ident : TableIdent) (uuid : N) (name : string) (src : Z) (anchor_main : bool) : RefRequest :=
  {| rr_ident := ident; rr_uuid := uuid;
     rr_refs := (name, None) :: (if anchor_main then [(MAIN_BRANCH, Some src)] else []);
     rr_update := SetSnapshotRef name src |}.
Definition remove_branch_ref_request (ident : TableIdent) (uuid : N) (name : string) (head : Z) : RefRequest :=
  {| rr_ident := ident; rr_uuid := uuid; rr_refs := [(name, Some head)]; rr_update := RemoveSnapshotRef name |}.
Definition fast_forward_request (mv : FastForwardMove) (from to : string) : RefRequest :=
  {| rr_ident := mv_ident mv; rr_uuid := mv_uuid mv;
     rr_refs := [(to, Some (mv_to_head mv)); (from, Some (mv_from_head mv))];
     rr_update := SetSnapshotRef to (mv_from_head mv) |}.

Class RefCatalog (W : Type) := {
  load_metadata : TableIdent → W → W * result TableMetadata;
  list_refs : TableIdent → W → W * result (list (string * Z));     (* read through the raw metadata *)
  list_namespaces : option (list (list byte)) → W → W * result (list (list (list byte)));
  list_tables : list (list byte) → W → W * result (list TableIdent);
  post_ref : RefRequest → W → W * result (N * string);
  post_ref_changes : list RefRequest → W → W * result (N * string);
}.

Section Operations.
Context {W DataFile : Type} `{Catalog W DataFile} `{RefCatalog W}.
#[local] Abbreviation eng := (eng W).

Definition post_ref_commit (rq : RefRequest) : eng CommitOutcome :=
  invalidating [commit_key (to_url_string (namespace (rr_ident rq))) (table_name (rr_ident rq))] (post_commit_inner (post_ref rq)).
Definition post_ref_transaction (rqs : list RefRequest) : eng TxnCommitOutcome :=
  post_transaction_to (post_ref_changes rqs) (map rr_ident rqs).
Definition eng_ensure (c : bool) (msg : string) : eng unit := of_result (ensure c msg).
Definition load_md (ident : TableIdent) : eng TableMetadata := in_world_res (load_metadata ident).

(** [create_branch] *)
Definition create_branch (ident : TableIdent) (name : string) (at_snapshot : option Z) : eng Z :=
  _ ← eng_ensure (negb (String.eqb name MAIN_BRANCH)) "main always exists";
  md ← load_md ident;
  src ← match at_snapshot with
        | Some id => _ ← eng_ensure (bool_decide (is_Some (snapshot_by_id md id))) "snapshot does not exist"; mret id
        | None => of_result (ok_or (md_current md) "table has no snapshot yet")
        end;
  outcome ← post_ref_commit (set_branch_ref_request ident (md_uuid md) name src
                               (match at_snapshot with None => true | Some _ => false end));
  match outcome with
  | Committed => mret src
  | Conflict _ => fail_with (OtherError "branch already exists, or main moved concurrently")
  end.
(** [drop_branch] *)
Definition drop_branch (ident : TableIdent) (name : string) : eng Z :=
  _ ← eng_ensure (negb (String.eqb name MAIN_BRANCH)) "refusing to drop main";
  md ← load_md ident;
  head ← of_result (ok_or (md_ref md name) "branch does not exist");
  outcome ← post_ref_commit (remove_branch_ref_request ident (md_uuid md) name head);
  match outcome with
  | Committed => mret head
  | Conflict _ => fail_with (OtherError "branch moved while dropping it")
  end.

(** The walk of [list_all_tables] over the namespaces, last in first out; the
    catalog may go on giving new ones, and the walk ends with [None] when [fuel]
    of them are not enough. *)
Fixpoint walk_namespaces (fuel : nat) (stack visited : list (list (list byte))) (out : list TableIdent)
    : eng (option (list TableIdent)) :=
  match stack with
  | [] => mret (Some (merge_sort ident_le out))
  | ns :: stack =>
    match fuel with
    | O => mret None
    | S fuel =>
      if decide (ns ∈ visited) then walk_namespaces fuel stack visited out else
      tables ← in_world_res (list_tables ns);
      children ← in_world_res (list_namespaces (Some ns));
      walk_namespaces fuel (rev children ++ stack) (ns :: visited) (out ++ tables)
    end
  end.
Definition list_all_tables (fuel : nat) : eng (option (list TableIdent)) :=
  stack ← in_world_res (list_namespaces None);
  walk_namespaces fuel (rev stack) [] [].

Definition on_all_tables {A} (fuel : nat) (k : list TableIdent → eng A) : eng (option A) :=
  idents ← list_all_tables fuel;
  match idents with Some idents => a ← k idents; mret (Some a) | None => mret None end.

(** The loop of [create_branch_all] over the tables. *)
Fixpoint cut_requests (name : string) (idents : list TableIdent)
    : eng (list RefRequest * list (TableIdent * Z) * list TableIdent) :=
  match idents with
  | [] => mret ([], [], [])
  | ident :: idents =>
    md ← load_md ident;
    '(rqs, branched, skipped) ← cut_requests name idents;
    mret match md_current md with
         | None => (rqs, branched, ident :: skipped)
         | Some src => (set_branch_ref_request ident (md_uuid md) name src true :: rqs, (ident, src) :: branched, skipped)
         end
  end.
Definition create_branch_on (name : string) (idents : list TableIdent) : eng (list (TableIdent * Z) * list TableIdent) :=
  _ ← eng_ensure (match idents with [] => false | _ => true end) "the catalog has no tables to branch";
  '(rqs, branched, skipped) ← cut_requests name idents;
  _ ← eng_ensure (match branched with [] => false | _ => true end) "no table in the catalog has a snapshot yet";
  outcome ← post_ref_transaction rqs;
  match outcome with
  | TxnCommitted => mret (branched, skipped)
  | TxnConflict _ => fail_with (OtherError "branch exists, or a main head moved: nothing was applied")
  | TxnUnsupported => fail_with (OtherError "no multi-table transaction endpoint: nothing was applied")
  end.
Definition create_branch_all (fuel : nat) (name : string) : eng (option (list (TableIdent * Z) * list TableIdent)) :=
  _ ← eng_ensure (negb (String.eqb name MAIN_BRANCH)) "main always exists";
  on_all_tables fuel (create_branch_on name).
Fixpoint drop_requests (name : string) (idents : list TableIdent) : eng (list RefRequest * list (TableIdent * Z) * N) :=
  match idents with
  | [] => mret ([], [], 0)
  | ident :: idents =>
    md ← load_md ident;
    '(rqs, dropped, skipped) ← drop_requests name idents;
    mret match md_ref md name with
         | None => (rqs, dropped, skipped + 1)
         | Some head => (remove_branch_ref_request ident (md_uuid md) name head :: rqs, (ident, head) :: dropped, skipped)
         end
  end.
Definition drop_branch_on (name : string) (idents : list TableIdent) : eng (list (TableIdent * Z) * N) :=
  '(rqs, dropped, skipped) ← drop_requests name idents;
  _ ← eng_ensure (match dropped with [] => false | _ => true end) "branch does not exist on any table";
  outcome ← post_ref_transaction rqs;
  match outcome with
  | TxnCommitted => mret (dropped, skipped)
  | TxnConflict _ => fail_with (OtherError "branch moved on a table: nothing was applied")
  | TxnUnsupported => fail_with (OtherError "no multi-table transaction endpoint: nothing was applied")
  end.

Definition drop_branch_all (fuel : nat) (name : string) : eng (option (list (TableIdent * Z) * N)) :=
  _ ← eng_ensure (negb (String.eqb name MAIN_BRANCH)) "refusing to drop main";
  on_all_tables fuel (drop_branch_on name).

(** [merge_fast_forward_all]: one table goes through its own endpoint. *)
Definition merge_fast_forward_all (from to : string) (moves : list FastForwardMove) : eng unit :=
  _ ← eng_ensure (match moves with [] => false | _ => true end) "no tables to merge";
  match map (λ mv, fast_forward_request mv from to) moves with
  | [rq] =>
    outcome ← post_ref_commit rq;
    match outcome with
    | Committed => mret tt
    | Conflict _ => fail_with (OtherError "a ref moved between plan and commit: nothing was applied")
    end
  | rqs =>
    outcome ← post_ref_transaction rqs;
    match outcome with
    | TxnCommitted => mret tt
    | TxnConflict _ => fail_with (OtherError "a ref moved between plan and commit: nothing was applied")
    | TxnUnsupported => fail_with (OtherError "no multi-table transaction endpoint: nothing was applied")
    end
  end.

(** [compare_all]; the scope is the table named, or all of them. *)
Fixpoint compare_each (a b : string) (idents : list TableIdent) : eng (list TableCmp) :=
  match idents with
  | [] => mret []
  | ident :: idents =>
    md ← load_md ident;
    cmps ← compare_each a b idents;
    mret (compare_table md ident a b :: cmps)
  end.
Definition compare_on (a b : string) (idents : list TableIdent) : eng (list TableCmp) :=
  _ ← eng_ensure (match idents with [] => false | _ => true end) "the catalog has no tables to compare";
  cmps ← compare_each a b idents;
  _ ← eng_ensure (existsb (λ c, bool_decide (is_Some (cmp_a_head c))) cmps) "ref does not exist on any table in scope";
  _ ← eng_ensure (existsb (λ c, bool_decide (is_Some (cmp_b_head c))) cmps) "ref does not exist on any table in scope";
  mret cmps.
Definition compare_all (fuel : nat) (a b : string) (table : option (list byte)) : eng (option (list TableCmp)) :=
  match table with
  | Some t => ident ← of_result (parse_table t); cmps ← compare_on a b [ident]; mret (Some cmps)
  | None => on_all_tables fuel (compare_on a b)
  end.
(** [merge]: what it did, or would do. *)
Inductive Merged := NothingToMerge | DryRun (moves : list FastForwardMove) | MergedAll (moves : list FastForwardMove).
Definition planned (cmps : list TableCmp) : list FastForwardMove :=
  omap (λ c, match plan_merge c with FastForward mv => Some mv | _ => None end) cmps.
Definition conflict_free (cmps : list TableCmp) : bool :=
  forallb (λ c, match plan_merge c with PlanConflict _ => false | _ => true end) cmps.
Definition merge_compared (from to : string) (execute : bool) (cmps : list TableCmp) : eng Merged :=
  _ ← eng_ensure (conflict_free cmps) "refusing the merge";
  match planned cmps with
  | [] => mret NothingToMerge
  | moves => if negb execute then mret (DryRun moves) else
             _ ← merge_fast_forward_all from to moves;
             mret (MergedAll moves)
  end.
Definition merge (fuel : nat) (from to : string) (table : option (list byte)) (execute : bool) : eng (option Merged) :=
  _ ← of_result (validate_name from);
  _ ← of_result (validate_name to);
  _ ← eng_ensure (negb (String.eqb from to)) "merging a ref into itself is a no-op";
  cmps ← compare_all fuel from to table;
  match cmps with
  | Some cmps => done ← merge_compared from to execute cmps; mret (Some done)
  | None => mret None
  end.

(** ** Expiry *)
Definition newer (a b : Z * Z) : Prop := (fst b < fst a ∨ (fst a = fst b ∧ snd b ≤ snd a))%Z.
#[export] Instance newer_dec : RelDecision newer.
Proof. intros a b. unfold newer. apply _. Defined.
Definition ordered_snapshots (md : TableMetadata) : list (Z * Z) :=
  merge_sort newer (map (λ s, (sm_timestamp s, sm_id s)) (md_snapshots md)).
Definition expired_ids (md : TableMetadata) (referenced : list Z) (keep_last : nat) : list Z :=
  let ordered := ordered_snapshots md in
  let keep := referenced ++ map snd (take keep_last ordered) in
  List.filter (λ id, negb (bool_decide (id ∈ keep))) (map snd ordered).
(** [expire_snapshots] *)
Definition expire_snapshots (ident : TableIdent) (keep_last : nat) : eng nat :=
  md ← load_md ident;
  refs ← in_world_res (list_refs ident);
  match expired_ids md (map snd refs) keep_last with
  | [] => mret 0%nat
  | expire =>
    outcome ← post_ref_commit {| rr_ident := ident; rr_uuid := md_uuid md;
                                 rr_refs := match md_current md with Some head => [(MAIN_BRANCH, Some head)] | None => [] end;
                                 rr_update := RemoveSnapshots expire |};
    match outcome with
    | Committed => mret (length expire)
    | Conflict _ => fail_with (OtherError "table changed while expiring snapshots")
    end
  end.
End Operations.
