(* ===== verification/BranchRefs.v ===== *)
(** * What the ref operations do to branches

    The lineage walk and the fork point are right on any parent graph, cycles
    included; a merge moves refs forward only, all at once, and a whole-lakehouse
    branch is a cut of one moment. *)
From stdpp Require Import sorting.
From S2P Require Import Prelude Text TailNames Keyed TableOps Freshness Overwrite OverwriteRows Engine EngineLog Dml Txn Branch.
#[local] Open Scope N_scope.

(** ** Lineage *)
Section Lineage.
Context (md : TableMetadata).
Definition parent (id p : Z) : Prop := parent_of md id = Some (Some p).
Definition known (id : Z) : Prop := is_Some (parent_of md id).
(** The history of a snapshot, as far as the metadata still knows it. *)
Definition in_history (id x : Z) : Prop := rtc parent id x ∧ known x.

Definition ids : list Z := map sm_id (md_snapshots md).
Lemma known_in id : known id → id ∈ ids.
Proof.
  intros [p Hp]. unfold parent_of, snapshot_by_id in Hp. destruct (List.find _ _) as [s|] eqn:Ef; [|done].
  apply List.find_some in Ef as [Hin Hid%Z.eqb_eq]. apply list_elem_of_fmap. exists s. split; [done|by apply list_elem_of_In].
Qed.
Lemma size_ids (l : list Z) : (size (list_to_set l : gset Z) ≤ length l)%nat.
Proof.
  induction l as [|x l IH]; cbn; [done|]. rewrite size_union_alt, size_singleton.
  pose proof (subseteq_size (list_to_set l ∖ {[x]} : gset Z) (list_to_set l) ltac:(set_solver)). lia.
Qed.
Definition unseen (seen : gset Z) : gset Z := list_to_set ids ∖ seen.
Lemma lineage_ends fuel seen cur : (size (unseen seen) ≤ fuel)%nat → is_Some (lineage md fuel seen cur).
Proof.
  revert seen cur. induction fuel as [|fuel IH]; intros seen [id|]; cbn; intros Hf; try done; destruct (decide (id ∈ seen)); try done.
  all: destruct (parent_of md id) as [p|] eqn:Ep; try done.
  all: assert (id ∈ unseen seen) as Hin by (unfold unseen; apply elem_of_difference; split; [apply elem_of_list_to_set, known_in; by exists p|done]).
  - assert (unseen seen ≡ ∅) as He by (apply size_empty_inv; lia). set_solver.
  - destruct (IH ({[id]} ∪ seen) p) as [l ->]; [|by eexists].
    assert (unseen ({[id]} ∪ seen) = unseen seen ∖ {[id]}) as -> by (unfold unseen; set_solver).
    rewrite size_difference by set_solver. rewrite size_singleton. lia.
Qed.
Lemma lineage_of_spec head : lineage md (length (md_snapshots md)) ∅ (Some head) = Some (lineage_of md head).
Proof.
  unfold lineage_of. destruct (lineage_ends (length (md_snapshots md)) ∅ (Some head)) as [l ->]; [|done].
  unfold unseen. rewrite difference_empty_L. etrans; [apply size_ids|]. unfold ids. by rewrite length_map.
Qed.

Lemma lineage_sound fuel seen cur l : lineage md fuel seen (Some cur) = Some l → ∀ x, x ∈ l → in_history cur x.
Proof.
  revert seen cur l. induction fuel as [|fuel IH]; intros seen cur l Hl x Hx; cbn in Hl; destruct (decide (cur ∈ seen)).
  all: try (injection Hl as <-; by apply not_elem_of_nil in Hx).
  all: destruct (parent_of md cur) as [p|] eqn:Ep; try (injection Hl as <-; by apply not_elem_of_nil in Hx); try done.
  destruct (lineage md fuel _ p) as [l'|] eqn:El; [|done]. injection Hl as <-.
  apply elem_of_cons in Hx as [->|Hx]; [split; [apply rtc_refl|by exists p]|]. destruct p as [p|].
  - destruct (IH _ _ _ El x Hx) as [Hr Hk]. split; [|done]. by eapply rtc_l.
  - destruct fuel; cbn in El; injection El as <-; by apply not_elem_of_nil in Hx.
Qed.
Definition closed_but (seen : gset Z) (cur : option Z) : Prop := ∀ s p, s ∈ seen → parent s p → p ∈ seen ∨ cur = Some p.
Lemma lineage_closed fuel seen cur l :
  lineage md fuel seen cur = Some l → closed_but seen cur →
  (∀ c, cur = Some c → known c → c ∈ seen ∨ c ∈ l) ∧
  ∀ s p, s ∈ seen ∨ s ∈ l → parent s p → known p → p ∈ seen ∨ p ∈ l.
Proof.
  revert seen cur l. induction fuel as [|fuel IH]; intros seen cur l Hl Hc.
  all: assert (∀ c, cur = Some c → c ∈ seen ∨ ¬ known c → l = [] →
    (∀ c, cur = Some c → known c → c ∈ seen ∨ c ∈ l) ∧ ∀ s p, s ∈ seen ∨ s ∈ l → parent s p → known p → p ∈ seen ∨ p ∈ l) as Hstop.
  1, 3: intros c -> Hcs ->; split; [intros c' [= <-] Hk; destruct Hcs; [by left|done]|];
    intros s p [Hs|Hn%not_elem_of_nil] Hp Hk; [|done]; destruct (Hc s p Hs Hp) as [|[= <-]]; [by left|]; destruct Hcs; [by left|done].
  all: destruct cur as [id|]; cbn in Hl.
  2, 4: injection Hl as <-; split; [done|]; intros s p [Hs|Hn%not_elem_of_nil] Hp _; [|done]; destruct (Hc s p Hs Hp); [by left|done].
  all: destruct (decide (id ∈ seen)) as [Hin|Hin]; [injection Hl as <-; by apply (Hstop id); [|left|]|].
  all: destruct (parent_of md id) as [p0|] eqn:Ep;
    [|injection Hl as <-; apply (Hstop id); [done|right; intros [q Hq]; congruence|done]]; try done.
  clear Hstop. destruct (lineage md fuel _ p0) as [l'|] eqn:El; [|done]. injection Hl as <-.
  destruct (IH ({[id]} ∪ seen) p0 l' El) as [I1 I2].
  { intros s p [->%elem_of_singleton|Hs]%elem_of_union Hp; [right; unfold parent in Hp; congruence|].
    destruct (Hc s p Hs Hp) as [|[= <-]]; left; set_solver. }
  split; [intros c [= <-] _; right; by left|]. intros s p Hs Hp Hk.
  destruct (I2 s p) as [Hu|Hu]; [set_solver|done|done| |right; by right].
  apply elem_of_union in Hu as [->%elem_of_singleton|]; [right; by left|by left].
Qed.
Lemma in_lineage head x : x ∈ lineage_of md head ↔ in_history head x.
Proof.
  pose proof (lineage_of_spec head) as Hs. split; [by apply (lineage_sound _ _ _ _ Hs)|].
  destruct (lineage_closed _ _ _ _ Hs) as [H1 H2]; [intros s p Hn; by apply elem_of_empty in Hn|].
  intros [Hr Hk]. assert (∀ y, rtc parent y x → y ∈ lineage_of md head → x ∈ lineage_of md head) as Hgo.
  { clear Hr. intros y Hr. induction Hr as [|y z x Hyz Hzx IH]; [done|]. intros Hy. apply IH; [done|].
    destruct (H2 y z) as [Hn|]; [by right|done| |by apply elem_of_empty in Hn|done].
    destruct Hzx; [done|by eexists]. }
  apply (Hgo head Hr). destruct (H1 head eq_refl) as [Hn|]; [|by apply elem_of_empty in Hn|done].
  destruct Hr; [done|by eexists].
Qed.
Lemma lineage_order fuel seen cur l pre f post :
  lineage md fuel seen cur = Some l → l = pre ++ f :: post → ∀ x, x ∈ post → rtc parent f x.
Proof.
  revert seen cur l pre. induction fuel as [|fuel IH]; intros seen [id|] l pre Hl -> x Hx; cbn in Hl; try (by destruct pre).
  all: destruct (decide (id ∈ seen)); [by destruct pre|]; destruct (parent_of md id) as [p|] eqn:Ep; [|by destruct pre]; try done.
  destruct (lineage md fuel _ p) as [l'|] eqn:El; [|done]. cbn in Hl. injection Hl as Hl. destruct pre as [|y pre]; cbn in Hl.
  - injection Hl as -> ->. destruct p as [p|]; [|destruct fuel; cbn in El; injection El as <-; by apply not_elem_of_nil in Hx].
    apply rtc_l with p; [done|]. by apply (lineage_sound _ _ _ _ El x Hx).
  - injection Hl as -> ->. by apply (IH _ _ _ pre El eq_refl).
Qed.

(** The fork point is the nearest snapshot both heads descend from, on any parent
    graph: it is in both histories, and every snapshot in both is in its own. *)
Lemma fork_point_nearest a b :
  match fork_point md a b with
  | Some f => in_history a f ∧ in_history b f ∧ ∀ x, in_history a x → in_history b x → in_history f x
  | None => ∀ x, in_history a x → ¬ in_history b x
  end.
Proof.
  unfold fork_point. destruct (List.find _ _) as [f|] eqn:Ef.
  - pose proof Ef as [Hb Ha%bool_decide_eq_true]%List.find_some.
    apply list_elem_of_In, in_lineage in Hb. apply in_lineage in Ha. split_and!; [done|done|].
    intros x Hxa Hxb. split; [|by destruct Hxa]. pose proof (lineage_of_spec b) as Hs.
    apply in_lineage in Hxb. apply in_lineage in Hxa.
    assert (∃ pre post, lineage_of md b = pre ++ f :: post ∧ ∀ y, y ∈ pre → y ∉ lineage_of md a) as (pre & post & Hsplit & Hpre).
    { revert Ef. generalize (lineage_of md b) as l. clear. induction l as [|y l IH]; cbn; [done|]. case_bool_decide as Hy.
      - intros [= ->]. exists [], l. split; [done|]. by intros y Hn%not_elem_of_nil.
      - intros Hf. destruct (IH Hf) as (pre & post & -> & Hpre). exists (y :: pre), post. split; [done|].
        by intros z [->|Hz]%elem_of_cons; [|apply Hpre]. }
    rewrite Hsplit in Hxb. apply elem_of_app in Hxb as [Hx|[->|Hx]%elem_of_cons]; [by apply Hpre in Hx|apply rtc_refl|].
    by apply (lineage_order _ _ _ _ pre f post Hs Hsplit).
  - intros x Ha Hb. apply in_lineage, list_elem_of_In in Hb. pose proof (List.find_none _ _ Ef x Hb) as Hn.
    apply bool_decide_eq_false in Hn. by apply Hn, in_lineage.
Qed.

(** A merge plans to move a ref exactly when its head is in the source's history
    and is not the source's head. *)
Lemma planned_forward ident from to mv :
  plan_merge (compare_table md ident from to) = FastForward mv →
  Branch.mv_ident mv = ident ∧ mv_uuid mv = md_uuid md ∧ md_ref md from = Some (mv_from_head mv) ∧ md_ref md to = Some (mv_to_head mv) ∧
  in_history (mv_from_head mv) (mv_to_head mv) ∧ mv_from_head mv ≠ mv_to_head mv.
Proof.
  unfold plan_merge, compare_table, classify. cbn. destruct (md_ref md from) as [a|], (md_ref md to) as [b|]; cbn; try done.
  destruct (Z.eqb_spec a b) as [|Hne]; [done|]. pose proof (fork_point_nearest a b) as Hf.
  case_bool_decide as Hb; [|by case_bool_decide]. intros Hmv. injection Hmv as <-. cbn. rewrite Hb in Hf. destruct Hf as (Ha & _ & _). done.
Qed.
End Lineage.

(** ** The log of refs *)
Record RefMove := { rm_mine : bool; rm_ident : TableIdent; rm_ref : string; rm_head : option Z }.
Definition same_name (t : TableIdent) (b : string) (m : RefMove) : bool := bool_decide (rm_ident m = t) && String.eqb (rm_ref m) b.
Definition ref_at (l : list RefMove) (t : TableIdent) (b : string) : option Z :=
  match last (List.filter (same_name t b) l) with Some m => rm_head m | None => None end.
Definition mine (l : list RefMove) : list RefMove := List.filter rm_mine l.
Definition ref_move (rq : RefRequest) : option RefMove :=
  match rr_update rq with
  | SetSnapshotRef b id => Some {| rm_mine := true; rm_ident := rr_ident rq; rm_ref := b; rm_head := Some id |}
  | RemoveSnapshotRef b => Some {| rm_mine := true; rm_ident := rr_ident rq; rm_ref := b; rm_head := None |}
  | RemoveSnapshots _ => None
  end.
(** All changes of a request, one after the other, where all its requirements hold. *)
Definition refs_applied (rqs : list RefRequest) (before new : list RefMove) : Prop :=
  ∃ l1 l2, new = l1 ++ omap ref_move rqs ++ l2 ∧ mine l1 = [] ∧ mine l2 = [] ∧
    ∀ rq b h, rq ∈ rqs → (b, h) ∈ rr_refs rq → ref_at (before ++ l1) (rr_ident rq) b = h.
Definition refs_answered (rqs : list RefRequest) (before new : list RefMove) (r : result (N * string)) : Prop :=
  match r with
  | Ok (status, _) =>
    if is_success status then refs_applied rqs before new
    else if status =? CONFLICT then mine new = [] else mine new = [] ∨ refs_applied rqs before new
  | Err _ => mine new = [] ∨ refs_applied rqs before new
  end.

(** The catalog, seen as that log: a load reads the refs of one moment, and the
    current snapshot is the head of main. *)
Class RefLaws (W DataFile : Type) `{Catalog W DataFile} `{RefCatalog W} := {
  rlog : W → list RefMove;
  metadata_rlog t w w' r : load_metadata t w = (w', r) → ∃ l, rlog w' = rlog w ++ l ∧ mine l = [] ∧
    ∀ md, r = Ok md → md_current md = md_ref md MAIN_BRANCH ∧
      ∃ l1 l2, l = l1 ++ l2 ∧ ∀ b, md_ref md b = ref_at (rlog w ++ l1) t b;
  refs_rlog t w w' r : list_refs t w = (w', r) → ∃ l, rlog w' = rlog w ++ l ∧ mine l = [];
  namespaces_rlog ns w w' r : list_namespaces ns w = (w', r) → ∃ l, rlog w' = rlog w ++ l ∧ mine l = [];
  tables_rlog ns w w' r : list_tables ns w = (w', r) → ∃ l, rlog w' = rlog w ++ l ∧ mine l = [];
  post_ref_rlog rq w w' r : post_ref rq w = (w', r) → ∃ l, rlog w' = rlog w ++ l ∧ refs_answered [rq] (rlog w) l r;
  ref_changes_rlog rqs w w' r : post_ref_changes rqs w = (w', r) → ∃ l, rlog w' = rlog w ++ l ∧ refs_answered rqs (rlog w) l r;
  probe_rlog w w' r : post_probe w = (w', r) → ∃ l, rlog w' = rlog w ++ l ∧ mine l = [];
  invalidate_rlog k w : rlog (invalidate_read_cache k w) = rlog w;
}.

Section Refs.
Context {W DataFile : Type} `{RefLaws W DataFile}.
Definition the_rlog (sv : Server W) : list RefMove := rlog (sv_world sv).
Lemma mine_app a b : mine (a ++ b) = mine a ++ mine b.
Proof. apply List.filter_app. Qed.

(** A computation during which only others move refs. *)
Definition passive {A} (m : eng W A) : Prop :=
  ∀ sv sv' r, m sv = (sv', r) → ∃ l, the_rlog sv' = the_rlog sv ++ l ∧ mine l = [].
Lemma passive_attempt {A} (r : attempt A) : passive (of_attempt r).
Proof. intros sv sv' r' Hr. injection Hr as <- _. exists []. by rewrite app_nil_r. Qed.
Lemma passive_ret {A} (a : A) : passive (mret a).
Proof. apply passive_attempt. Qed.
Lemma passive_bind {A B} (m : eng W A) (f : A → eng W B) : passive m → (∀ a, passive (f a)) → passive (x ← m; f x).
Proof.
  intros Hm Hf sv sv' r [(e & He & ->)|(a & sv1 & Ha & Hr)]%eng_bind_inv; [by apply Hm in He|].
  apply Hm in Ha as (l1 & Hl1 & H1'). apply Hf in Hr as (l2 & Hl2 & H2'). exists (l1 ++ l2).
  by rewrite Hl2, Hl1, app_assoc, mine_app, H1', H2'.
Qed.
Lemma passive_world {A} (m : W → W * result A) :
  (∀ w w' r, m w = (w', r) → ∃ l, rlog w' = rlog w ++ l ∧ mine l = []) → passive (in_world_res m).
Proof.
  intros Hm sv sv' r Hr. unfold in_world_res in Hr. destruct (m (sv_world sv)) as [w a] eqn:Em. injection Hr as <- _.
  by apply Hm in Em.
Qed.
#[local] Hint Resolve passive_attempt passive_ret : core.

Lemma passive_load t : passive (load_md t).
Proof. apply passive_world. intros w w' r (l & ? & ? & _)%metadata_rlog. by exists l. Qed.
Lemma passive_walk fuel stack visited out : passive (walk_namespaces fuel stack visited out).
Proof.
  revert stack visited out. induction fuel as [|fuel IH]; intros [|ns stack] visited out; cbn [walk_namespaces]; try done.
  destruct (decide (ns ∈ visited)); [apply IH|]. apply passive_bind; [apply passive_world, tables_rlog|]. intros ts.
  apply passive_bind; [apply passive_world, namespaces_rlog|]. intros ch. apply IH.
Qed.
Lemma passive_all_tables fuel : passive (list_all_tables fuel).
Proof. apply passive_bind; [apply passive_world, namespaces_rlog|]. intros s. apply passive_walk. Qed.

(** Metadata the catalog has served. *)
Definition served_md (t : TableIdent) (md : TableMetadata) : Prop := ∃ w w', load_metadata t w = (w', Ok md).
Lemma load_md_served t sv sv' md : load_md t sv = (sv', Good md) → served_md t md.
Proof.
  unfold load_md, in_world_res. destruct (load_metadata t (sv_world sv)) as [w a] eqn:El. intros Hr. injection Hr as _ Ha.
  apply lift_Good in Ha as ->. by exists (sv_world sv), w.
Qed.

Lemma passive_compare_each a b idents : passive (compare_each a b idents).
Proof.
  induction idents as [|t idents IH]; cbn [compare_each]; [done|]. apply passive_bind; [apply passive_load|]. intros md.
  by apply passive_bind.
Qed.
Lemma passive_compare_on a b idents : passive (compare_on a b idents).
Proof.
  apply passive_bind; [apply passive_attempt|]. intros _. apply passive_bind; [apply passive_compare_each|]. intros cmps.
  by do 2 (apply passive_bind; [apply passive_attempt|]; intros _).
Qed.
Lemma passive_compare_all fuel a b table : passive (compare_all fuel a b table).
Proof.
  unfold compare_all. destruct table as [t|].
  - apply passive_bind; [apply passive_attempt|]. intros ident. by apply passive_bind; [apply passive_compare_on|].
  - apply passive_bind; [apply passive_all_tables|]. intros [idents|]; [|done]. by apply passive_bind; [apply passive_compare_on|].
Qed.

Definition compared (a b : string) (c : TableCmp) : Prop := ∃ md t, served_md t md ∧ c = compare_table md t a b.
Lemma compare_on_served a b idents sv sv' cmps : compare_on a b idents sv = (sv', Good cmps) → Forall (compared a b) cmps.
Proof.
  unfold compare_on. intros [(? & _ & ?)|(u & sv1 & _ & Hr)]%eng_bind_inv; [done|].
  apply eng_bind_inv in Hr as [(? & _ & ?)|(cmps' & sv2 & Hc & Hr)]; [done|].
  apply eng_bind_inv in Hr as [(? & _ & ?)|(u2 & sv3 & _ & Hr)]; [done|].
  apply eng_bind_inv in Hr as [(? & _ & ?)|(u3 & sv4 & _ & Hr)]; [done|]. injection Hr as _ <-. clear -Hc H0 H1.
  revert sv1 sv2 cmps' Hc. induction idents as [|t idents IH]; intros sv1 sv2 cmps Hc; cbn [compare_each] in Hc.
  { injection Hc as _ <-. constructor. }
  apply eng_bind_inv in Hc as [(? & _ & ?)|(md & sv3 & Hl & Hc)]; [done|].
  apply eng_bind_inv in Hc as [(? & _ & ?)|(cs & sv4 & Hcs & Hc)]; [done|]. injection Hc as _ <-.
  constructor; [|by eapply IH]. exists md, t. split; [by apply load_md_served in Hl|done].
Qed.
Lemma compare_all_served fuel a b table sv sv' cmps :
  compare_all fuel a b table sv = (sv', Good (Some cmps)) → Forall (compared a b) cmps.
Proof.
  unfold compare_all. destruct table as [t|]; (intros [(? & _ & ?)|(x & sv1 & _ & Hr)]%eng_bind_inv; [done|]).
  - apply eng_bind_inv in Hr as [(? & _ & ?)|(cs & sv2 & Hc & Hr)]; [done|]. injection Hr as _ <-. by eapply compare_on_served.
  - destruct x as [idents|]; [|done].
    apply eng_bind_inv in Hr as [(? & _ & ?)|(cs & sv2 & Hc & Hr)]; [done|]. injection Hr as _ <-. by eapply compare_on_served.
Qed.

(** ** Posts *)
Lemma refs_applied_later rqs before (l new : list RefMove) :
  mine l = [] → refs_applied rqs (before ++ l) new → refs_applied rqs before (l ++ new).
Proof.
  intros Hl (l1 & l2 & -> & H1' & H2' & Hrq). exists (l ++ l1), l2. rewrite mine_app, Hl, H1', <-app_assoc.
  split_and!; try done. intros rq b h Hin Hb. rewrite app_assoc. by apply Hrq.
Qed.
Definition ref_outcome {A} (ok : A → Prop) (rqs : list RefRequest) (before new : list RefMove) (r : attempt A) : Prop :=
  match r with
  | Good a => ok a ∧ refs_applied rqs before new ∨ ¬ ok a ∧ mine new = []
  | Bad _ => mine new = [] ∨ refs_applied rqs before new
  end.
Lemma post_ref_commit_spec rq sv sv' r :
  post_ref_commit rq sv = (sv', r) →
  ∃ new, the_rlog sv' = the_rlog sv ++ new ∧ ref_outcome (λ o, o = Committed) [rq] (the_rlog sv) new r.
Proof.
  unfold post_ref_commit, invalidating, post_commit_inner, mbind, eng_bind, in_world_res, the_rlog.
  destruct (post_ref rq (sv_world sv)) as [w a] eqn:Ep. apply post_ref_rlog in Ep as (l & Hl & Ha).
  destruct a as [[status body]|msg]; cbn [lift].
  2: { intros Hr. injection Hr as <- <-. exists l. cbn. by rewrite invalidate_rlog. }
  cbn in Ha. destruct (is_success status).
  { intros Hr. injection Hr as <- <-. exists l. cbn. rewrite invalidate_rlog. split; [done|by left]. }
  destruct (status =? CONFLICT); intros Hr; injection Hr as <- <-; exists l; cbn; rewrite invalidate_rlog; split; try done.
  by right.
Qed.
Lemma passive_probe : passive probe_txn_endpoint.
Proof.
  intros sv sv' r Hr. unfold probe_txn_endpoint in Hr. destruct (sv_endpoint sv) as [known'|]; [by apply passive_attempt in Hr|].
  destruct (post_probe (sv_world sv)) as [w p] eqn:Ep. apply probe_rlog in Ep as (l & Hl & Hm).
  exists l. destruct p as [[status body]|msg]; [destruct (txn_endpoint_capability status)|]; by injection Hr as <- _.
Qed.
Lemma invalidating_rlog {A} keys (m : eng W A) sv sv' r :
  invalidating keys m sv = (sv', r) → ∃ sv1, m sv = (sv1, r) ∧ the_rlog sv' = the_rlog sv1.
Proof.
  unfold invalidating. destruct (m sv) as [sv1 r1]. intros Hr. injection Hr as <- ->. exists sv1. split; [done|].
  unfold the_rlog. cbn. generalize (sv_world sv1) as w. induction keys as [|k keys IH]; intros w; cbn; [done|].
  by rewrite IH, invalidate_rlog.
Qed.
Lemma post_ref_transaction_spec rqs sv sv' r :
  post_ref_transaction rqs sv = (sv', r) →
  ∃ new, the_rlog sv' = the_rlog sv ++ new ∧ ref_outcome (λ o, o = TxnCommitted) rqs (the_rlog sv) new r.
Proof.
  unfold post_ref_transaction, post_transaction_to. destruct (post_transaction_inner (post_ref_changes rqs) sv) as [sv1 r1] eqn:Ei. intros Hr.
  assert (r1 = r ∧ the_rlog sv' = the_rlog sv1) as [-> ->].
  { destruct r1 as [[]|]; try (apply invalidating_rlog in Hr as (sv2 & Hr & ->); by injection Hr as <- <-). by injection Hr as <- <-. }
  clear Hr sv'. unfold post_transaction_inner in Ei.
  apply eng_bind_inv in Ei as [(e & (l & Hl & Hm)%passive_probe & ->)|(sup & sv2 & (l & Hl & Hm)%passive_probe & Ei)].
  { exists l. split; [done|by left]. }
  destruct sup; cbn [negb] in Ei.
  2: { injection Ei as <- <-. exists l. split; [done|by right]. }
  unfold mbind, eng_bind, in_world_res in Ei. unfold the_rlog in *.
  destruct (post_ref_changes rqs (sv_world sv2)) as [w a] eqn:Ep. apply ref_changes_rlog in Ep as (new & Hn & Ha). rewrite Hl in Hn, Ha.
  exists (l ++ new). pose proof (refs_applied_later rqs (rlog (sv_world sv)) l new Hm) as Hlater.
  assert (mine new = [] → mine (l ++ new) = []) as Hnil by (intros Hnew; by rewrite mine_app, Hm, Hnew).
  destruct a as [[status body]|msg]; cbn [lift] in Ei.
  2: { injection Ei as <- <-. cbn. rewrite Hn, app_assoc. split; [done|]. destruct Ha; [left; by apply Hnil|right; by apply Hlater]. }
  cbn in Ha. destruct (is_success status).
  { injection Ei as <- <-. cbn. rewrite Hn, app_assoc. split; [done|]. left. split; [done|by apply Hlater]. }
  destruct (status =? CONFLICT); injection Ei as <- <-; cbn; rewrite Hn, app_assoc; (split; [done|]).
  - right. split; [done|by apply Hnil].
  - destruct Ha; [left; by apply Hnil|right; by apply Hlater].
Qed.

(** ** Merges *)
Definition forward (to : string) (mv : FastForwardMove) : RefMove :=
  {| rm_mine := true; rm_ident := Branch.mv_ident mv; rm_ref := to; rm_head := Some (mv_from_head mv) |}.
(** All moves at one point of the log, where both refs still have the heads
    planned with, and the target's head is in the history of the source's. *)
Definition merged_at_once (from to : string) (moves : list FastForwardMove) (before new : list RefMove) : Prop :=
  ∃ l1 l2, new = l1 ++ map (forward to) moves ++ l2 ∧ mine l1 = [] ∧ mine l2 = [] ∧
    ∀ mv, mv ∈ moves →
      ref_at (before ++ l1) (Branch.mv_ident mv) to = Some (mv_to_head mv) ∧
      ref_at (before ++ l1) (Branch.mv_ident mv) from = Some (mv_from_head mv) ∧
      ∃ md t, served_md t md ∧ in_history md (mv_from_head mv) (mv_to_head mv).
Lemma applied_merge from to moves before new :
  (∀ mv, mv ∈ moves → ∃ md t, served_md t md ∧ in_history md (mv_from_head mv) (mv_to_head mv)) →
  refs_applied (map (λ mv, fast_forward_request mv from to) moves) before new → merged_at_once from to moves before new.
Proof.
  intros Hh (l1 & l2 & -> & H1' & H2' & Hrq). exists l1, l2. split_and!; [|done|done|].
  - f_equal. f_equal. induction moves as [|mv moves IH]; cbn; [done|]. f_equal. apply IH; [set_solver|].
    intros rq b h Hin. apply Hrq. by right.
  - intros mv Hin. assert (fast_forward_request mv from to ∈ map (λ mv, fast_forward_request mv from to) moves) as Hr.
    { change (map (λ mv, fast_forward_request mv from to) moves) with ((λ mv, fast_forward_request mv from to) <$> moves).
      apply list_elem_of_fmap. by exists mv. }
    split_and!; [apply (Hrq _ to (Some (mv_to_head mv)) Hr); by left|apply (Hrq _ from (Some (mv_from_head mv)) Hr); by right; left|by apply Hh].
Qed.
Lemma planned_history from to cmps mv :
  Forall (compared from to) cmps → mv ∈ planned cmps → ∃ md t, served_md t md ∧ in_history md (mv_from_head mv) (mv_to_head mv).
Proof.
  intros Hc Hin. unfold planned in Hin. apply list_elem_of_omap in Hin as (c & Hcin & Hp).
  rewrite Forall_forall in Hc. destruct (Hc c Hcin) as (md & t & Hs & ->). destruct (plan_merge _) as [mv'| |] eqn:Epl; [|done..].
  injection Hp as ->. apply planned_forward in Epl as (_ & _ & _ & _ & Hh & _). by exists md, t.
Qed.
Lemma merge_all_spec from to moves sv sv' r :
  merge_fast_forward_all from to moves sv = (sv', r) →
  ∃ new, the_rlog sv' = the_rlog sv ++ new ∧
    match r with
    | Good _ => refs_applied (map (λ mv, fast_forward_request mv from to) moves) (the_rlog sv) new
    | Bad _ => mine new = [] ∨ refs_applied (map (λ mv, fast_forward_request mv from to) moves) (the_rlog sv) new
    end.
Proof.
  unfold merge_fast_forward_all. intros [(e & (l & Hl & Hm)%passive_attempt & ->)|(u & sv1 & Hu & Hr)]%eng_bind_inv.
  { exists l. split; [done|by left]. }
  injection Hu as <- _. generalize dependent (map (λ mv, fast_forward_request mv from to) moves). intros rqs Hr.
  assert (∀ o sv2, post_ref_transaction rqs sv = (sv2, o) →
    match o with
    | Good TxnCommitted => (sv2, Good tt)
    | Good _ => (sv2, Bad (OtherError "x"))
    | Bad e => (sv2, Bad e)
    end.1 = sv' → match o, r with Good TxnCommitted, Good _ => True | Good TxnCommitted, Bad _ => False | _, Good _ => False | _, _ => True end →
    ∃ new, the_rlog sv' = the_rlog sv ++ new ∧
      match r with Good _ => refs_applied rqs (the_rlog sv) new | Bad _ => mine new = [] ∨ refs_applied rqs (the_rlog sv) new end) as Htxn.
  { intros o sv2 (new & Hl & Ho)%post_ref_transaction_spec Hsv Hro. assert (sv2 = sv') as -> by (by destruct o as [[]|]). exists new. split; [done|].
    destruct o as [[]|], r as [|]; cbn in Ho; try done; destruct Ho as [[? ?]|[? ?]]; try done; by left. }
  assert (∀ sv2 o, post_ref_transaction rqs sv = (sv2, o) →
    (outcome ← post_ref_transaction rqs; match outcome with
      | TxnCommitted => mret tt
      | TxnConflict _ => fail_with (OtherError "a ref moved between plan and commit: nothing was applied")
      | TxnUnsupported => fail_with (OtherError "no multi-table transaction endpoint: nothing was applied") end) sv = (sv', r) →
    ∃ new, the_rlog sv' = the_rlog sv ++ new ∧
      match r with Good _ => refs_applied rqs (the_rlog sv) new | Bad _ => mine new = [] ∨ refs_applied rqs (the_rlog sv) new end) as Hpost.
  { intros sv2 o Ho Hm. unfold mbind, eng_bind in Hm. rewrite Ho in Hm. apply (Htxn o sv2 Ho).
    - destruct o as [[]|]; by injection Hm as <- _.
    - destruct o as [[]|]; by injection Hm as _ <-. }
  destruct rqs as [|rq [|rq2 rqs]].
  1, 3: destruct (post_ref_transaction _ sv) as [sv2 o] eqn:Ho; by eapply Hpost.
  apply eng_bind_inv in Hr as [(e & (new & Hl & Ho)%post_ref_commit_spec & ->)|(o & sv2 & (new & Hl & Ho)%post_ref_commit_spec & Hr)].
  { by exists new. }
  exists new. destruct o; injection Hr as <- <-; (split; [done|]); cbn in Ho; destruct Ho as [[? ?]|[? ?]]; try done; by left.
Qed.

Lemma merge_compared_spec from to execute cmps before l sv sv' r :
  Forall (compared from to) cmps → the_rlog sv = before ++ l → mine l = [] → merge_compared from to execute cmps sv = (sv', r) →
  ∃ new, the_rlog sv' = before ++ new ∧
    match r with
    | Good (MergedAll moves) => moves ≠ [] ∧ merged_at_once from to moves before new
    | Good _ => mine new = []
    | Bad _ => mine new = [] ∨ ∃ moves, merged_at_once from to moves before new
    end.
Proof.
  intros Hc Hl Hm Hr. unfold merge_compared in Hr.
  apply eng_bind_inv in Hr as [(e & He & ->)|(u & sv2 & Hu & Hr)].
  { injection He as <- _. exists l. split; [done|by left]. }
  injection Hu as <- _. destruct (planned cmps) as [|mv mvs] eqn:Epl; [by injection Hr as <- <-; exists l|].
  destruct (negb execute); [by injection Hr as <- <-; exists l|]. rewrite <-Epl in Hr.
  assert (∀ new, refs_applied (map (λ mv, fast_forward_request mv from to) (planned cmps)) (the_rlog sv) new →
    merged_at_once from to (planned cmps) before (l ++ new)) as Happ.
  { intros new Hnew. apply applied_merge; [intros mv' Hin; by apply (planned_history from to cmps)|].
    apply refs_applied_later; [done|]. by rewrite <-Hl. }
  apply eng_bind_inv in Hr as [(e & (n & Hn & Hb)%merge_all_spec & ->)|(u' & sv2 & (n & Hn & Hb)%merge_all_spec & Hr)].
  - exists (l ++ n). rewrite Hn, Hl, app_assoc. split; [done|]. destruct Hb as [Hb|Hb]; [left; by rewrite mine_app, Hm, Hb|].
    right. exists (planned cmps). by apply Happ.
  - injection Hr as <- <-. exists (l ++ n). rewrite Hn, Hl, app_assoc. split; [done|]. split; [by rewrite Epl|by apply Happ].
Qed.


(** ** Cuts *)
Definition cut_move (name : string) (b : TableIdent * Z) : RefMove :=
  {| rm_mine := true; rm_ident := fst b; rm_ref := name; rm_head := Some (snd b) |}.
Lemma cut_requests_spec name idents sv sv' rqs branched skipped :
  cut_requests name idents sv = (sv', Good (rqs, branched, skipped)) →
  omap ref_move rqs = map (cut_move name) branched ∧
  ∀ t src, (t, src) ∈ branched → ∃ rq, rq ∈ rqs ∧ rr_ident rq = t ∧ rr_refs rq = [(name, None); (MAIN_BRANCH, Some src)].
Proof.
  revert sv rqs branched skipped. induction idents as [|t idents IH]; intros sv rqs branched skipped Hr; cbn [cut_requests] in Hr.
  { injection Hr as _ <- <- <-. split; [done|]. by intros t src Hn%not_elem_of_nil. }
  apply eng_bind_inv in Hr as [(? & _ & ?)|(md & sv1 & _ & Hr)]; [done|].
  apply eng_bind_inv in Hr as [(? & _ & ?)|([[rqs' branched'] skipped'] & sv2 & Hrest & Hr)]; [done|].
  injection Hr as -> Hr. apply IH in Hrest as [I1 I2]. destruct (md_current md) as [src|].
  - injection Hr as <- <- <-. cbn. split; [by rewrite I1|]. intros t' src' [[= -> ->]|Hin]%elem_of_cons.
    + eexists. split; [by left|]. by split.
    + destruct (I2 _ _ Hin) as (rq & Hrq & ? & ?). exists rq. split; [by right|done].
  - by injection Hr as <- <- <-.
Qed.
Lemma passive_cut name idents : passive (cut_requests name idents).
Proof.
  induction idents as [|t idents IH]; cbn [cut_requests]; [done|]. apply passive_bind; [apply passive_load|]. intros md.
  apply passive_bind; [done|]. by intros [[rqs branched] skipped].
Qed.

(** The refs made are the heads main has, on all the tables, at one moment. *)
Definition cut_at (name : string) (before new : list RefMove) (branched : list (TableIdent * Z)) : Prop :=
  ∃ l1 l2, new = l1 ++ map (cut_move name) branched ++ l2 ∧ mine l1 = [] ∧ mine l2 = [] ∧
    ∀ t src, (t, src) ∈ branched → ref_at (before ++ l1) t MAIN_BRANCH = Some src ∧ ref_at (before ++ l1) t name = None.
Lemma create_on_spec name idents before l sv sv' r :
  the_rlog sv = before ++ l → mine l = [] → create_branch_on name idents sv = (sv', r) →
  ∃ new, the_rlog sv' = before ++ new ∧
    match r with
    | Good (branched, _) => branched ≠ [] ∧ cut_at name before new branched
    | Bad _ => mine new = [] ∨ ∃ branched, cut_at name before new branched
    end.
Proof.
  intros Hl Hm Hr. unfold create_branch_on in Hr.
  apply eng_bind_inv in Hr as [(e & He & ->)|(u' & sv2 & Hu & Hr)]; [injection He as <- _; exists l; split; [done|by left]|].
  injection Hu as <- _. assert (∀ sv2, (∃ l2, the_rlog sv2 = the_rlog sv ++ l2 ∧ mine l2 = []) →
    ∃ l2, the_rlog sv2 = before ++ l2 ∧ mine l2 = []) as Hlater.
  { intros sv2 (l2 & Hl2 & Hm2). exists (l ++ l2). by rewrite Hl2, Hl, app_assoc, mine_app, Hm, Hm2. }
  apply eng_bind_inv in Hr as [(e & Hc & ->)|([[rqs branched] skipped] & sv2 & Hc & Hr)].
  { apply passive_cut, Hlater in Hc as (l2 & Hl2 & Hm2). exists l2. split; [done|by left]. }
  pose proof Hc as Hp. apply passive_cut, Hlater in Hp as (l2 & Hl2 & Hm2). apply cut_requests_spec in Hc as [C1 C2].
  apply eng_bind_inv in Hr as [(e & He & ->)|(u2 & sv3 & Hu & Hr)]; [injection He as <- _; exists l2; split; [done|by left]|].
  assert (branched ≠ []) as Hne by (intros ->; injection Hu as _ Hu; by destruct u2). injection Hu as <- _.
  assert (∀ n, refs_applied rqs (the_rlog sv2) n → cut_at name before (l2 ++ n) branched) as Hcut.
  { intros n Hn. rewrite Hl2 in Hn. apply refs_applied_later in Hn as (k1 & k2 & Hk & Hk1 & Hk2 & Hrq); [|done].
    exists k1, k2. split_and!; [by rewrite Hk, C1|done|done|]. intros t src Hin. destruct (C2 t src Hin) as (rq & Hinq & <- & Hrefs).
    split; apply (Hrq rq); try done; rewrite Hrefs; [by right; left|by left]. }
  apply eng_bind_inv in Hr as [(e & (n & Hn & Ho)%post_ref_transaction_spec & ->)|(o & sv3 & (n & Hn & Ho)%post_ref_transaction_spec & Hr)].
  { exists (l2 ++ n). rewrite Hn, Hl2, app_assoc. split; [done|]. destruct Ho as [Ho|Ho]; [left; by rewrite mine_app, Hm2, Ho|].
    right. exists branched. by apply Hcut. }
  exists (l2 ++ n). cbn in Ho. destruct o; injection Hr as <- <-; rewrite Hn, Hl2, app_assoc; (split; [done|]);
    destruct Ho as [[? Ho]|[? Ho]]; try done; [split; [done|by apply Hcut]|left; by rewrite mine_app, Hm2, Ho..].
Qed.


(** ** Expiry *)
Lemma expired_not_kept md referenced keep_last id :
  id ∈ expired_ids md referenced keep_last →
  id ∉ referenced ∧ id ∉ map snd (take keep_last (ordered_snapshots md)) ∧ id ∈ ids md.
Proof.
  unfold expired_ids. rewrite list_elem_of_In, filter_In, negb_true_iff, bool_decide_eq_false. intros [Hin Hn].
  split; [set_solver|]. split; [set_solver|]. apply list_elem_of_In in Hin. unfold ids.
  change (map snd (ordered_snapshots md)) with (snd <$> ordered_snapshots md) in Hin. apply list_elem_of_fmap in Hin as (p & -> & Hp).
  unfold ordered_snapshots in Hp. rewrite (merge_sort_Permutation newer) in Hp.
  change (map sm_id (md_snapshots md)) with (sm_id <$> md_snapshots md).
  apply list_elem_of_fmap in Hp as (s & -> & Hs). apply list_elem_of_fmap. by exists s.
Qed.
End Refs.
