(* ===== verification/Maintain.v ===== *)
(** * Orphan removal (src/icegres/src/maintain.rs)

    Which objects under a table's location are orphans and the run that deletes
    them: the grace window, the clock probe, the live set of every retained
    snapshot, the listing, the reload check.  Times are nanoseconds; the object
    store, the catalog and the clock are the interface [GcWorld].  Reports are
    values; what is printed is left out. *)
From S2P Require Import Prelude Text TailNames.
From S2P Require Branch.
#[local] Open Scope N_scope.

Abbreviation Path := (list byte).
Definition SECONDS : Z := 1000000000.
Definition CLOCK_SKEW_ALLOWANCE : Z := (15 * 60 * SECONDS)%Z.
(** [SystemTime] counts seconds in an [i64]. *)
Definition MIN_TIME : Z := (-9223372036854775808 * SECONDS)%Z.

(** ** Keys *)

(** [canonical_key] *)
Definition canonical_key (key : Path) : Path := join_with SLASH (List.filter nonempty (split_on SLASH key)).
Definition strip_scheme (path : Path) : option Path :=
  match strip_prefix (str_bytes "s3://") path with
  | Some rest => Some rest
  | None => strip_prefix (str_bytes "s3a://") path
  end.
(** [split_s3_location] *)
Definition split_s3_location (location : Path) : result (Path * Path) :=
  rest ← ok_or (strip_scheme location) "table location is not s3://";
  '(bucket, key) ← ok_or (split_once SLASH rest) "table location has no key below the bucket";
  let key := canonical_key key in
  _ ← ensure (nonempty bucket && nonempty key) "table location has an empty bucket or key";
  Ok (bucket, key).
(** [is_table_artifact] *)
Definition is_table_artifact (key data_prefix meta_prefix : Path) : bool :=
  match strip_prefix data_prefix key with
  | Some rest => nonempty rest && ends_with (str_bytes ".parquet") rest
  | None =>
    match strip_prefix meta_prefix key with
    | Some rest => nonempty rest && existsb (λ s, ends_with (str_bytes s) rest) [".avro"; ".metadata.json"; ".stats"; ".puffin"]
    | None => false
    end
  end.
(** [object_key] *)
Definition object_key (path bucket : Path) : option Path :=
  rest ← strip_scheme path;
  '(b, key) ← split_once SLASH rest;
  if negb (bool_decide (b = bucket)) then None else
  let key := canonical_key key in
  if nonempty key then Some key else None.
(** [str::trim_end_matches('/')] *)
Fixpoint drop_slashes (rs : Path) : Path :=
  match rs with b :: rest => if decide (b = SLASH) then drop_slashes rest else rs | [] => [] end.
Definition trim_slashes (p : Path) : Path := rev (drop_slashes (rev p)).

(** [check_grace_window] *)
Definition check_grace_window (older_than_hours : N) (execute unsafe_grace : bool) : result unit :=
  if execute && (older_than_hours <? 1) && negb unsafe_grace then Err "refusing --execute with a grace window under 1 hour" else Ok tt.

(** ** The table, the store *)
Record GcTable := {
  gt_uuid : N; gt_location : Path; gt_metadata_location : option Path; gt_metadata_log : list Path;
  gt_statistics : list Path; gt_partition_statistics : list Path; gt_manifest_lists : list Path;  (* one per snapshot *)
}.
Record ObjEntry := { oe_path : Path; oe_is_dir : bool; oe_modified : option Z; oe_bytes : N }.
Class GcWorld (W : Type) := {
  load_table : TableIdent → W → W * result GcTable;
  load_manifest_list : Path → W → W * result (list Path);
  load_manifest : Path → W → W * result (list Path);      (* all entries, deleted ones included *)
  list_objects : Path → W → W * result (list (result ObjEntry));
  stat_object : Path → W → W * result (option Z);
  write_object : Path → W → W * result unit;
  delete_object : Path → W → W * result unit;
  now : W → W * Z;
}.

Section Gc.
Context {W : Type} `{GcWorld W}.
Open Scope stres_scope.
Definition clock : stres W Z := λ w, let '(w, t) := now w in (w, Ok t).
(** The result of a call, an error too. *)
Definition tried {A} (m : stres W A) : stres W (result A) := λ w, let '(w, r) := m w in (w, Ok r).

(** ** The live set *)
Record LiveSet := { ls_bucket : Path; ls_keys : gset Path; ls_unmappable : N }.
Definition live_new (bucket : Path) : LiveSet := {| ls_bucket := bucket; ls_keys := ∅; ls_unmappable := 0 |}.
Definition live_add (l : LiveSet) (path : Path) : LiveSet :=
  match object_key path (ls_bucket l) with
  | Some key => {| ls_bucket := ls_bucket l; ls_keys := {[key]} ∪ ls_keys l; ls_unmappable := ls_unmappable l |}
  | None => {| ls_bucket := ls_bucket l; ls_keys := ls_keys l; ls_unmappable := ls_unmappable l + 1 |}
  end.
Definition live_finish (l : LiveSet) : result (gset Path) :=
  if 0 <? ls_unmappable l then Err "table records files outside the listed bucket" else Ok (ls_keys l).
Fixpoint add_manifests (manifests : list Path) (l : LiveSet) : stres W LiveSet :=
  match manifests with
  | [] => st_ret l
  | m :: manifests =>
    let* files := load_manifest m in
    add_manifests manifests (foldl live_add (live_add l m) files)
  end.
Fixpoint add_snapshots (lists : list Path) (l : LiveSet) : stres W LiveSet :=
  match lists with
  | [] => st_ret l
  | ml :: lists =>
    let* manifests := load_manifest_list ml in
    let* l := add_manifests manifests (live_add l ml) in
    add_snapshots lists l
  end.
(** [live_object_keys] *)
Definition live_object_keys (tbl : GcTable) (bucket : Path) : stres W (gset Path) :=
  let* current := st_lift (ok_or (gt_metadata_location tbl) "table has no metadata location") in
  let l := foldl live_add (live_new bucket) (current :: gt_metadata_log tbl ++ gt_statistics tbl ++ gt_partition_statistics tbl) in
  let* l := add_snapshots (gt_manifest_lists tbl) l in
  st_lift (live_finish l).

(** ** The clock probe *)

(** [abort_on_clock_skew] *)
Definition probe_key (meta_prefix : Path) (pid : N) (at_ : Z) : Path :=
  meta_prefix ++ str_bytes ".icegres-gc-skew-probe-" ++ print_u64 pid ++ str_bytes "-" ++ print_u64 (Z.to_N at_).
Definition skew_of (before after last_modified : Z) : Z :=
  (if after <? last_modified then last_modified - after else if last_modified <? before then before - last_modified else 0)%Z.
Definition abort_on_clock_skew (pid : N) (meta_prefix : Path) : stres W unit :=
  let* nanos := clock in
  let probe := probe_key meta_prefix pid nanos in
  let* before := clock in
  write_object probe ;;*
  let* stat := tried (stat_object probe) in
  let* after := clock in
  let* deleted := tried (delete_object probe) in
  let* meta := st_lift stat in
  st_lift deleted ;;*
  let* last_modified := st_lift (ok_or meta "clock-skew probe came back without a last-modified stamp") in
  st_lift (ensure (skew_of before after last_modified <=? CLOCK_SKEW_ALLOWANCE)%Z "object-store clock is off").

(** ** The run *)
Record Orphan := { or_key : Path; or_bytes : N }.
Record Counts := { total : N; live_seen : N; too_young : N; unknown_age : N; foreign : N }.
Definition no_counts : Counts := {| total := 0; live_seen := 0; too_young := 0; unknown_age := 0; foreign := 0 |}.
Inductive Fate := FDir | FLive | FForeign | FUnknown | FYoung | FOrphan (o : Orphan).
Definition count (c : Counts) (f : Fate) : Counts :=
  match f with
  | FDir => c
  | FLive => {| total := total c + 1; live_seen := live_seen c + 1; too_young := too_young c; unknown_age := unknown_age c; foreign := foreign c |}
  | FForeign => {| total := total c + 1; live_seen := live_seen c; too_young := too_young c; unknown_age := unknown_age c; foreign := foreign c + 1 |}
  | FUnknown => {| total := total c + 1; live_seen := live_seen c; too_young := too_young c; unknown_age := unknown_age c + 1; foreign := foreign c |}
  | FYoung => {| total := total c + 1; live_seen := live_seen c; too_young := too_young c + 1; unknown_age := unknown_age c; foreign := foreign c |}
  | FOrphan _ => {| total := total c + 1; live_seen := live_seen c; too_young := too_young c; unknown_age := unknown_age c; foreign := foreign c |}
  end.
(** One entry of the listing. *)
Definition judge (live : gset Path) (data_prefix meta_prefix : Path) (cutoff : Z) (e : ObjEntry) : stres W Fate :=
  if oe_is_dir e then st_ret FDir else
  let key := canonical_key (oe_path e) in
  if bool_decide (key ∈ live) then st_ret FLive
  else if negb (is_table_artifact key data_prefix meta_prefix) then st_ret FForeign else
  let* last_modified := match oe_modified e with
                        | Some t => st_ret (Some t)
                        | None => let* r := tried (stat_object key) in st_ret (match r with Ok m => m | Err _ => None end)
                        end in
  match last_modified with
  | None => st_ret FUnknown
  | Some t => if (cutoff <? t)%Z then st_ret FYoung else st_ret (FOrphan {| or_key := key; or_bytes := oe_bytes e |})
  end.
Fixpoint judge_all (live : gset Path) (data_prefix meta_prefix : Path) (cutoff : Z) (entries : list (result ObjEntry))
    (c : Counts) (orphans : list Orphan) : stres W (Counts * list Orphan) :=
  match entries with
  | [] => st_ret (c, orphans)
  | entry :: entries =>
    let* e := st_lift entry in
    let* f := judge live data_prefix meta_prefix cutoff e in
    judge_all live data_prefix meta_prefix cutoff entries (count c f)
      (match f with FOrphan o => orphans ++ [o] | _ => orphans end)
  end.
(** The reload check, with the attempts left. *)
Fixpoint recheck (attempts : nat) (ident : TableIdent) (uuid : N) (bucket current : Path) (orphans : list Orphan) : stres W (list Orphan) :=
  match attempts with
  | O => st_ret orphans
  | S attempts =>
    let* fresh := load_table ident in
    st_lift (ensure (gt_uuid fresh =? uuid) "table UUID changed mid-run") ;;*
    let* location := st_lift (ok_or (gt_metadata_location fresh) "table has no metadata location") in
    if bool_decide (location = current) then st_ret orphans else
    match attempts with
    | O => st_err "table keeps being committed to"
    | S _ =>
      let* live := live_object_keys fresh bucket in
      recheck attempts ident uuid bucket location (List.filter (λ o, negb (bool_decide (or_key o ∈ live))) orphans)
    end
  end.
Fixpoint delete_all (orphans : list Orphan) : stres W unit :=
  match orphans with
  | [] => st_ret tt
  | o :: orphans => delete_object (or_key o) ;;* delete_all orphans
  end.
(** The cutoff; [None] below what a [SystemTime] can hold. *)
Definition cutoff_at (now : Z) (older_than_hours : N) (unsafe_grace : bool) : option Z :=
  let t := (now - Z.of_N (N.min (older_than_hours * 3600) u64_max) * SECONDS)%Z in
  if (t <? MIN_TIME)%Z then None else
  let t := (t - if unsafe_grace then 0 else CLOCK_SKEW_ALLOWANCE)%Z in
  if (t <? MIN_TIME)%Z then None else Some t.
(** The rest of [remove_orphans]: the live set, the listing, the reload check,
    the deletions. *)
Definition run_found (execute : bool) (ident : TableIdent) (tbl : GcTable) (bucket key_prefix : Path) (cutoff : Z) : stres W (Counts * list Orphan) :=
  let data_prefix := key_prefix ++ str_bytes "/data/" in
  let meta_prefix := key_prefix ++ str_bytes "/metadata/" in
  let* live := live_object_keys tbl bucket in
  let* entries := list_objects (key_prefix ++ str_bytes "/") in
  let* found := judge_all live data_prefix meta_prefix cutoff entries no_counts [] in
  let '(counts, orphans) := found in
  let* current := st_lift (ok_or (gt_metadata_location tbl) "table has no metadata location") in
  let* orphans := recheck 3 ident (gt_uuid tbl) bucket current orphans in
  if execute then delete_all orphans ;;* st_ret (counts, orphans) else st_ret (counts, orphans).
(** [remove_orphans]: the counts and the orphans found; with [execute] they are
    gone. *)
Definition remove_orphans (pid : N) (table : list byte) (older_than_hours : N) (execute unsafe_grace : bool) : stres W (Counts * list Orphan) :=
  st_lift (check_grace_window older_than_hours execute unsafe_grace) ;;*
  let* ident := st_lift (Branch.parse_table table) in
  let* tbl := load_table ident in
  let* bk := st_lift (split_s3_location (trim_slashes (gt_location tbl))) in
  let '(bucket, key_prefix) := bk in
  let* t := clock in
  let* cutoff := st_lift (ok_or (cutoff_at t older_than_hours unsafe_grace) "--older-than-hours is out of range") in
  (if execute then abort_on_clock_skew pid (key_prefix ++ str_bytes "/metadata/") else st_ret tt) ;;*
  run_found execute ident tbl bucket key_prefix cutoff.
End Gc.
