(* ===== verification/MaintainSafe.v ===== *)
(** * Orphan removal deletes no live file

    The calls of a run as a trace; whatever commits land meanwhile, what is deleted
    is recorded by no metadata the run loaded, is old and is an artifact of the
    table. *)
From S2P Require Import Prelude Text TailNames Maintain.
#[local] Open Scope N_scope.

(** The calls that matter, in order. *)
Inductive GcEvent :=
  | GNow (t : Z) | GLoad (md : GcTable) | GList (entries : list (result ObjEntry))
  | GStat (key : Path) (modified : option Z) | GDelete (key : Path).

(** Metadata files, manifest lists and manifests are never written twice. *)
Class GcLaws (W : Type) `{GcWorld W} := {
  gtrace : W → list GcEvent;
  metadata_at : Path → GcTable;
  manifests_of : Path → list Path;
  files_of : Path → list Path;
  load_law t w w' r : load_table t w = (w', r) →
    gtrace w' = gtrace w ++ match r with Ok md => [GLoad md] | Err _ => [] end ∧
    ∀ md l, r = Ok md → gt_metadata_location md = Some l → md = metadata_at l;
  manifest_list_law p w w' r : load_manifest_list p w = (w', r) → gtrace w' = gtrace w ∧ ∀ ms, r = Ok ms → ms = manifests_of p;
  manifest_law p w w' r : load_manifest p w = (w', r) → gtrace w' = gtrace w ∧ ∀ fs, r = Ok fs → fs = files_of p;
  list_law p w w' r : list_objects p w = (w', r) → gtrace w' = gtrace w ++ match r with Ok es => [GList es] | Err _ => [] end;
  stat_law k w w' r : stat_object k w = (w', r) → gtrace w' = gtrace w ++ match r with Ok m => [GStat k m] | Err _ => [] end;
  write_law k w w' r : write_object k w = (w', r) → gtrace w' = gtrace w;
  delete_law k w w' r : delete_object k w = (w', r) → gtrace w' = gtrace w ++ [GDelete k];
  now_law w w' t : now w = (w', t) → gtrace w' = gtrace w ++ [GNow t];
}.


Section Safe.
Context {W : Type} `{GcLaws W}.

(** Every path a table's metadata records. *)
Definition recorded (md : GcTable) : list Path :=
  option_list (gt_metadata_location md) ++ gt_metadata_log md ++ gt_statistics md ++ gt_partition_statistics md ++
  flat_map (λ ml, ml :: flat_map (λ m, m :: files_of m) (manifests_of ml)) (gt_manifest_lists md).

(** *** The live set *)
Definition covers (bucket : Path) (keys : gset Path) (paths : list Path) : Prop :=
  ∀ p, p ∈ paths → ∃ k, object_key p bucket = Some k ∧ k ∈ keys.
Definition holds (l : LiveSet) (paths : list Path) : Prop := ls_unmappable l = 0 → covers (ls_bucket l) (ls_keys l) paths.
Lemma live_add_holds l p paths : holds l paths → holds (live_add l p) (paths ++ [p]) ∧ ls_bucket (live_add l p) = ls_bucket l.
Proof.
  intros Hl. unfold live_add. destruct (object_key p (ls_bucket l)) as [k|] eqn:Ek; (split; [|done]); unfold holds; cbn; [|lia].
  intros Hu q [Hq| ->%list_elem_of_singleton]%elem_of_app; [|exists k; split; [done|set_solver]].
  destruct (Hl Hu q Hq) as (k' & ? & ?). exists k'. split; [done|set_solver].
Qed.
Lemma live_adds_hold l ps paths : holds l paths → holds (foldl live_add l ps) (paths ++ ps) ∧ ls_bucket (foldl live_add l ps) = ls_bucket l.
Proof.
  revert l paths. induction ps as [|p ps IH]; intros l paths Hl; cbn; [by rewrite app_nil_r|].
  destruct (live_add_holds l p paths Hl) as [Hl' Hb]. destruct (IH _ _ Hl') as [Hl'' Hb']. rewrite <-app_assoc in Hl''. split; [done|congruence].
Qed.
Lemma add_manifests_spec ms l paths w w' r :
  add_manifests ms l w = (w', r) → gtrace w' = gtrace w ∧
    ∀ l', r = Ok l' → holds l paths → holds l' (paths ++ flat_map (λ m, m :: files_of m) ms) ∧ ls_bucket l' = ls_bucket l.
Proof.
  revert l paths w. induction ms as [|m ms IH]; intros l paths w; cbn.
  { intros [= <- <-]. split; [done|]. intros l' [= <-] Hl. by rewrite app_nil_r. }
  intros [(e & Hm & ->)|(files & w1 & Hm & Hr)]%bind_inv; apply manifest_law in Hm as [Ht Hf]; [by split|]. rewrite <-Ht.
  destruct (IH _ (paths ++ [m] ++ files) _ Hr) as [Ht' Hl']. split; [done|]. intros l' Hr' Hl.
  destruct (live_add_holds l m paths Hl) as [H1 B1]. destruct (live_adds_hold _ files _ H1) as [H2 B2]. rewrite <-app_assoc in H2.
  destruct (Hl' l' Hr' H2) as [H3 B3]. rewrite (Hf _ eq_refl) in *. rewrite <-!app_assoc in H3. split; [done|congruence].
Qed.
Lemma add_snapshots_spec mls l paths w w' r :
  add_snapshots mls l w = (w', r) → gtrace w' = gtrace w ∧
    ∀ l', r = Ok l' → holds l paths → holds l' (paths ++ flat_map (λ ml, ml :: flat_map (λ m, m :: files_of m) (manifests_of ml)) mls) ∧ ls_bucket l' = ls_bucket l.
Proof.
  revert l paths w. induction mls as [|ml mls IH]; intros l paths w; cbn.
  { intros [= <- <-]. split; [done|]. intros l' [= <-] Hl. by rewrite app_nil_r. }
  intros [(e & Hm & ->)|(ms & w1 & Hm & Hr)]%bind_inv; apply manifest_list_law in Hm as [Ht Hf]; [by split|]. rewrite <-Ht.
  apply bind_inv in Hr as [(e & Ha & ->)|(l1 & w2 & Ha & Hr)]; apply (add_manifests_spec _ _ (paths ++ [ml])) in Ha as [Ht1 Hl1]; [by split|]. rewrite <-Ht1.
  destruct (IH _ (paths ++ ml :: flat_map (λ m, m :: files_of m) ms) _ Hr) as [Ht' Hl']. split; [done|]. intros l' Hr' Hl.
  destruct (live_add_holds l ml paths Hl) as [H1 B1]. destruct (Hl1 l1 eq_refl H1) as [H2 B2]. rewrite <-app_assoc in H2.
  destruct (Hl' l' Hr' H2) as [H3 B3]. rewrite (Hf _ eq_refl) in *. rewrite <-!app_assoc in H3. split; [done|congruence].
Qed.
Lemma live_spec tbl bucket w w' r :
  live_object_keys tbl bucket w = (w', r) → gtrace w' = gtrace w ∧ ∀ keys, r = Ok keys → covers bucket keys (recorded tbl).
Proof.
  unfold live_object_keys. intros [(e & [= <- _] & ->)|(current & w1 & Hc & Hr)]%bind_inv; [by split|]. injection Hc as <- Hc. apply ok_or_Ok in Hc.
  assert (holds (live_new bucket) []) as Hnil by (intros _ p Hn; by apply not_elem_of_nil in Hn).
  set (ps := current :: gt_metadata_log tbl ++ gt_statistics tbl ++ gt_partition_statistics tbl) in *.
  destruct (live_adds_hold _ ps _ Hnil) as [H1 B1].
  apply bind_inv in Hr as [(e & Ha & ->)|(l1 & w2 & Ha & Hr)]; apply (add_snapshots_spec _ _ ([] ++ ps)) in Ha as [Ht1 Hl1]; [by split|]. injection Hr as <- <-. split; [done|].
  intros keys Hk. destruct (Hl1 l1 eq_refl H1) as [H2 B2]. unfold live_finish in Hk. destruct (N.ltb_spec 0 (ls_unmappable l1)); [done|]. injection Hk as <-.
  specialize (H2 ltac:(lia)). rewrite B2, B1 in H2. subst ps. unfold recorded. rewrite Hc. cbn in H2 |- *. by rewrite <-!app_assoc in H2.
Qed.

(** *** Candidates *)

(** No path the metadata records is the key. *)
Definition clear_of (bucket : Path) (md : GcTable) (k : Path) : Prop := ∀ p, p ∈ recorded md → object_key p bucket ≠ Some k.
Lemma covers_clear bucket keys md k : covers bucket keys (recorded md) → k ∉ keys → clear_of bucket md k.
Proof. intros Hc Hk p Hp Ek. destruct (Hc p Hp) as (k' & Ek' & Hk'). rewrite Ek in Ek'. injection Ek' as <-. done. Qed.

(** Why a listed object is a candidate; the events answer for its age. *)
Definition condemned (data_prefix meta_prefix : Path) (cutoff : Z) (seen : list GcEvent) (e : ObjEntry) (k : Path) : Prop :=
  oe_is_dir e = false ∧ k = canonical_key (oe_path e) ∧ is_table_artifact k data_prefix meta_prefix = true ∧
  ∃ t, (t <= cutoff)%Z ∧ (oe_modified e = Some t ∨ oe_modified e = None ∧ GStat k (Some t) ∈ seen).
Definition is_stat (ev : GcEvent) : Prop := match ev with GStat _ _ => True | _ => False end.
Lemma condemned_app dp mp cutoff seen more e k : condemned dp mp cutoff seen e k → condemned dp mp cutoff (seen ++ more) e k.
Proof. intros (? & ? & ? & t & ? & [?|[? ?]]); (split_and!; [done..|]); exists t; (split; [done|]); [by left|right; split; [done|set_solver]]. Qed.
Lemma condemned_app_r dp mp cutoff seen more e k : condemned dp mp cutoff more e k → condemned dp mp cutoff (seen ++ more) e k.
Proof. intros (? & ? & ? & t & ? & [?|[? ?]]); (split_and!; [done..|]); exists t; (split; [done|]); [by left|right; split; [done|set_solver]]. Qed.

Lemma judge_spec live dp mp cutoff e w w' r :
  judge live dp mp cutoff e w = (w', r) → ∃ stats, gtrace w' = gtrace w ++ stats ∧ Forall is_stat stats ∧
    ∀ o, r = Ok (FOrphan o) → or_key o ∉ live ∧ condemned dp mp cutoff stats e (or_key o).
Proof.
  assert (∀ f, st_ret f w = (w', r) → (∀ o, f ≠ FOrphan o) → ∃ stats, gtrace w' = gtrace w ++ stats ∧ Forall is_stat stats ∧
    ∀ o, r = Ok (FOrphan o) → or_key o ∉ live ∧ condemned dp mp cutoff stats e (or_key o)) as Hret.
  { intros f [= <- <-] Hf. exists []. rewrite app_nil_r. split_and!; [done|done|]. intros o [= Ho]. by destruct (Hf o). }
  unfold judge. destruct (oe_is_dir e) eqn:Ed; [intros Hr; by apply (Hret _ Hr)|].
  case_bool_decide as Hl; [intros Hr; by apply (Hret _ Hr)|].
  destruct (is_table_artifact _ dp mp) eqn:Ea; cbn [negb]; [|intros Hr; by apply (Hret _ Hr)].
  intros [(e' & Hm & ->)|(m & w1 & Hm & Hr)]%bind_inv.
  { destruct (oe_modified e); [done|]. apply bind_inv in Hm as [(? & Ht & _)|(? & ? & _ & Hr)]; [|done]. unfold tried in Ht. by destruct (stat_object _ w). }
  assert (∃ stats, gtrace w1 = gtrace w ++ stats ∧ Forall is_stat stats ∧
    ∀ t, m = Some t → oe_modified e = Some t ∨ oe_modified e = None ∧ GStat (canonical_key (oe_path e)) (Some t) ∈ stats) as (stats & Ht & Hs & Ho).
  { destruct (oe_modified e) as [t0|]; [injection Hm as <- <-; exists []; rewrite app_nil_r; split_and!; [done|done|by left]|].
    apply bind_inv in Hm as [(? & ? & [=])|(x & w2 & Hx & [= <- <-])]. unfold tried in Hx.
    destruct (stat_object _ w) as [w3 r3] eqn:Es. injection Hx as <- <-. apply stat_law in Es.
    destruct r3 as [m3|]; eexists; (split; [exact Es|]); split; [by constructor| |done|done]. intros t ->. right. split; [done|set_solver]. }
  exists stats. destruct m as [t|]; [|injection Hr as <- <-; done].
  destruct (Z.ltb_spec cutoff t); injection Hr as <- <-; (split_and!; [done|done|]); [done|].
  intros o [= <-]. unfold condemned. cbn. split_and!; [done|done|done|done|]. exists t. split; [lia|by apply Ho].
Qed.
Lemma judge_all_spec live dp mp cutoff entries c os w w' r :
  judge_all live dp mp cutoff entries c os w = (w', r) → ∃ stats, gtrace w' = gtrace w ++ stats ∧ Forall is_stat stats ∧
    ∀ c' os', r = Ok (c', os') → ∀ o, o ∈ os' → o ∈ os ∨ or_key o ∉ live ∧ ∃ e, Ok e ∈ entries ∧ condemned dp mp cutoff stats e (or_key o).
Proof.
  revert c os w. induction entries as [|entry entries IH]; intros c os w; cbn.
  { intros [= <- <-]. exists []. rewrite app_nil_r. split_and!; [done|done|]. intros ? ? [= <- <-] o Ho. by left. }
  destruct entry as [e|]; [intros Hr|intros [= <- <-]; exists []; rewrite app_nil_r; by split_and!].
  apply bind_inv in Hr as [(e' & Hj & ->)|(f & w2 & Hj & Hr)]; apply judge_spec in Hj as (s1 & Ht1 & Hs1 & Ho1); [exists s1; by split_and!|].
  apply IH in Hr as (s2 & Ht2 & Hs2 & Ho2). exists (s1 ++ s2). split_and!; [by rewrite Ht2, Ht1, app_assoc|by apply Forall_app|].
  intros c' os' Hok o Ho. destruct (Ho2 c' os' Hok o Ho) as [Hin|(Hn & e' & He' & Hc)].
  - assert (o ∈ os ∨ f = FOrphan o) as [?|Hf]; [destruct f; set_solver|by left|]. subst f. destruct (Ho1 o eq_refl). right. split; [done|]. exists e. split; [set_solver|by apply condemned_app].
  - right. split; [done|]. exists e'. split; [set_solver|by apply condemned_app_r].
Qed.

(** *** The reload check, the deletions, the probe *)
Lemma recheck_spec a ident uuid bucket current os w w' r :
  recheck a ident uuid bucket current os w = (w', r) → (∀ o, o ∈ os → clear_of bucket (metadata_at current) (or_key o)) →
  ∃ mds, gtrace w' = gtrace w ++ (GLoad <$> mds) ∧
    ∀ os', r = Ok os' → (a ≠ O → mds ≠ []) ∧ ∀ o, o ∈ os' → o ∈ os ∧ ∀ md, md ∈ mds → clear_of bucket md (or_key o).
Proof.
  revert current os w. induction a as [|a IH]; intros current os w; cbn.
  { intros [= <- <-] Hc. exists []. cbn. rewrite app_nil_r. split; [done|]. intros os' [= <-]. split; [done|]. intros o Ho. split; [done|set_solver]. }
  intros [(e & Hm & ->)|(fresh & w1 & Hm & Hr)]%bind_inv Hc; apply load_law in Hm as [Ht1 Hat]; [exists []; by split|].
  apply bind_inv in Hr as [(e & [= <- _] & ->)|(? & w2 & [= <- _] & Hr)]; [by exists [fresh]|].
  apply bind_inv in Hr as [(e & [= <- _] & ->)|(location & w3 & Hloc & Hr)]; [by exists [fresh]|].
  injection Hloc as <- Hloc. apply ok_or_Ok in Hloc. specialize (Hat _ _ eq_refl Hloc).
  case_bool_decide as El.
  { subst location. injection Hr as <- <-. exists [fresh]. split; [done|]. intros os' [= <-]. split; [done|]. intros o Ho. split; [done|].
    intros md ->%list_elem_of_singleton. rewrite Hat. by apply Hc. }
  destruct a as [|a]; [injection Hr as <- <-; by exists [fresh]|].
  apply bind_inv in Hr as [(e & Ha & ->)|(live & w4 & Ha & Hr)]; apply live_spec in Ha as [Ht2 Hl]; [exists [fresh]; split; [by rewrite Ht2|done]|].
  specialize (Hl _ eq_refl).
  assert (∀ o, o ∈ List.filter (λ o, negb (bool_decide (or_key o ∈ live))) os → o ∈ os ∧ clear_of bucket fresh (or_key o)) as Hf.
  { intros o [Ho Hn]%list_elem_of_In%filter_In. split; [by apply list_elem_of_In|]. case_bool_decide; [done|]. by eapply covers_clear. }
  apply IH in Hr as (mds & Ht3 & Hr); [|intros o Ho; rewrite <-Hat; by apply Hf].
  exists (fresh :: mds). split; [by rewrite Ht3, Ht2, Ht1, <-app_assoc|]. intros os' Hok. destruct (Hr os' Hok) as [_ Hr']. split; [done|].
  intros o Ho. destruct (Hr' o Ho) as [Hin Hcl]. destruct (Hf o Hin) as [? ?]. split; [done|]. intros md [->|?]%elem_of_cons; [done|by apply Hcl].
Qed.
Lemma delete_all_spec os w w' r :
  delete_all os w = (w', r) → ∃ D, gtrace w' = gtrace w ++ (GDelete <$> D) ∧ D `prefix_of` (or_key <$> os) ∧ (r = Ok tt → D = or_key <$> os).
Proof.
  revert w. induction os as [|o os IH]; intros w; cbn.
  { intros [= <- <-]. exists []. cbn. rewrite app_nil_r. split_and!; [done|by exists []|done]. }
  intros [(e & Hm & ->)|(? & w1 & Hm & Hr)]%bind_inv; apply delete_law in Hm.
  { exists [or_key o]. split_and!; [done|by eexists|done]. }
  apply IH in Hr as (D & Ht & Hp & Hok). exists (or_key o :: D). split_and!; [by rewrite Ht, Hm, <-app_assoc|by apply prefix_cons|].
  intros Hr. by rewrite (Hok Hr).
Qed.
Definition probing (pid : N) (meta_prefix : Path) (ev : GcEvent) : Prop :=
  match ev with GNow _ | GStat _ _ => True | GDelete k => ∃ n, k = probe_key meta_prefix pid n | _ => False end.
Lemma clock_spec (w w' : W) r : clock w = (w', r) → ∃ t, r = Ok t ∧ gtrace w' = gtrace w ++ [GNow t].
Proof. unfold clock. destruct (now w) as [w1 t] eqn:E. intros [= <- <-]. exists t. split; [done|by apply now_law]. Qed.
Lemma skew_probe_spec pid mp w w' r :
  abort_on_clock_skew pid mp w = (w', r) → ∃ evs, gtrace w' = gtrace w ++ evs ∧ Forall (probing pid mp) evs.
Proof.
  unfold abort_on_clock_skew.
  intros [(e & Hm & ->)|(n & w1 & Hm & Hr)]%bind_inv; apply clock_spec in Hm as (t1 & E1 & T1); [done|]. injection E1 as <-.
  apply bind_inv in Hr as [(e & Hm & ->)|(before & w2 & Hm & Hr)]; apply clock_spec in Hm as (t2 & E2 & T2); [done|]. rewrite T1, <-app_assoc in T2.
  apply bind_inv in Hr as [(e & Hm & ->)|(? & w3 & Hm & Hr)]; apply write_law in Hm; rename Hm into T3; rewrite T2 in T3; [eexists; split; [exact T3|by repeat constructor]|].
  apply bind_inv in Hr as [(e & Hm & ->)|(stat & w4 & Hm & Hr)]; unfold tried in Hm; destruct (stat_object _ w3) as [w4' st] eqn:Es; [done|].
  injection Hm as -> <-. apply stat_law in Es. rewrite T3, <-app_assoc in Es.
  apply bind_inv in Hr as [(e & Hm & ->)|(after & w5 & Hm & Hr)]; apply clock_spec in Hm as (t5 & E5 & T5); [done|]. rewrite Es, <-app_assoc in T5.
  apply bind_inv in Hr as [(e & Hm & ->)|(deleted & w6 & Hm & Hr)]; unfold tried in Hm; destruct (delete_object _ w5) as [w6' dl] eqn:Ed; [done|].
  injection Hm as -> <-. apply delete_law in Ed. rewrite T5, <-app_assoc in Ed.
  assert (w' = w6) as ->.
  { apply bind_inv in Hr as [(? & [= <- _] & _)|(? & ? & [= <- _] & Hr)]; [done|].
    apply bind_inv in Hr as [(? & [= <- _] & _)|(? & ? & [= <- _] & Hr)]; [done|].
    apply bind_inv in Hr as [(? & [= <- _] & _)|(? & ? & [= <- _] & Hr)]; [done|]. by injection Hr as ->. }
  eexists. split; [exact Ed|]. destruct st; cbn; repeat constructor; by exists n.
Qed.

(** *** The run *)

(** The events of a run that deletes: what was loaded and listed, and why each
    key may go. *)
Definition justified (pid : N) (older_than_hours : N) (unsafe_grace : bool) (evs : list GcEvent) (D : list Path) : Prop :=
  ∃ md0 bucket prefix t0 cutoff probe entries stats mds,
    evs = GLoad md0 :: GNow t0 :: probe ++ GList entries :: stats ++ (GLoad <$> mds) ∧ mds ≠ [] ∧ Forall is_stat stats ∧
    split_s3_location (trim_slashes (gt_location md0)) = Ok (bucket, prefix) ∧
    Forall (probing pid (prefix ++ str_bytes "/metadata/")) probe ∧
    cutoff_at t0 older_than_hours unsafe_grace = Some cutoff ∧
    ∀ k, k ∈ D →
      (∃ e, Ok e ∈ entries ∧ condemned (prefix ++ str_bytes "/data/") (prefix ++ str_bytes "/metadata/") cutoff stats e k) ∧
      ∀ md, md ∈ md0 :: mds → clear_of bucket md k.
Definition only_probe (pid : N) (execute : bool) (evs : list GcEvent) : Prop :=
  ∀ k, GDelete k ∈ evs → execute = true ∧ ∃ meta_prefix n, k = probe_key meta_prefix pid n.
Definition safe_run (pid : N) (h : N) (execute unsafe_grace : bool) (w w' : W) (r : result (Counts * list Orphan)) : Prop :=
  ∃ evs D, gtrace w' = gtrace w ++ evs ++ (GDelete <$> D) ∧ only_probe pid execute evs ∧
    (D ≠ [] → execute = true ∧ justified pid h unsafe_grace evs D) ∧
    ∀ c os, r = Ok (c, os) → D = if execute then or_key <$> os else [].
Lemma stopped pid h execute ug w w' e evs : gtrace w' = gtrace w ++ evs → only_probe pid execute evs → safe_run pid h execute ug w w' (Err e).
Proof. intros Ht Ho. exists evs, []. cbn. rewrite app_nil_r. by split_and!. Qed.
Lemma only_probe_app pid ex e1 e2 : only_probe pid ex e1 → only_probe pid ex e2 → only_probe pid ex (e1 ++ e2).
Proof. intros H1 H2 k [?|?]%elem_of_app; [by apply H1|by apply H2]. Qed.
Lemma harmless pid ex evs : Forall (λ ev, match ev with GDelete _ => False | _ => True end) evs → only_probe pid ex evs.
Proof. intros Hf k Hk. by destruct (proj1 (Forall_forall _ _) Hf _ Hk). Qed.
Lemma probing_only pid mp evs : Forall (probing pid mp) evs → only_probe pid true evs.
Proof. intros Hf k Hk. split; [done|]. destruct (proj1 (Forall_forall _ _) Hf _ Hk) as [n ->]. by exists mp, n. Qed.
Lemma stats_only pid ex evs : Forall is_stat evs → only_probe pid ex evs.
Proof. intros Hf. apply harmless. eapply Forall_impl; [exact Hf|]. by intros []. Qed.
Lemma loads_only pid ex mds : only_probe pid ex (GLoad <$> mds).
Proof. apply harmless, Forall_fmap, Forall_true. done. Qed.

Lemma run_rest pid h execute ug ident md0 bucket prefix t0 cutoff probe (w w3 w' : W) r :
  gtrace w3 = gtrace w ++ [GLoad md0] ++ [GNow t0] ++ probe → only_probe pid execute ([GLoad md0] ++ [GNow t0] ++ probe) →
  Forall (probing pid (prefix ++ str_bytes "/metadata/")) probe → split_s3_location (trim_slashes (gt_location md0)) = Ok (bucket, prefix) →
  cutoff_at t0 h ug = Some cutoff → (∀ md l, Ok md0 = Ok md → gt_metadata_location md = Some l → md = metadata_at l) →
  run_found execute ident md0 bucket prefix cutoff w3 = (w', r) → safe_run pid h execute ug w w' r.
Proof.
  intros T3 Ho Hpr Hloc Hcut Hat.
  unfold run_found. set (mp := prefix ++ str_bytes "/metadata/") in *. set (dp := prefix ++ str_bytes "/data/").
  intros [(e & Hm & ->)|(live & w4 & Hm & Hr)]%bind_inv; apply live_spec in Hm as [T4 Hl]; rewrite T3 in T4; [by eapply stopped|]. specialize (Hl _ eq_refl).
  apply bind_inv in Hr as [(e & Hm & ->)|(entries & w5 & Hm & Hr)]; apply list_law in Hm; rename Hm into T5; rewrite T4, <-app_assoc in T5; [eapply stopped; [exact T5|by rewrite app_nil_r]|].
  assert (only_probe pid execute (([GLoad md0] ++ [GNow t0] ++ probe) ++ [GList entries])) as Ho5 by (apply only_probe_app; [done|by apply harmless; repeat constructor]).
  apply bind_inv in Hr as [(e & Hm & ->)|([counts orphans] & w6 & Hm & Hr)]; apply judge_all_spec in Hm as (stats & T6 & Hst & Hfound); rewrite T5, <-app_assoc in T6;
    (assert (only_probe pid execute ((([GLoad md0] ++ [GNow t0] ++ probe) ++ [GList entries]) ++ stats)) as Ho6 by (apply only_probe_app; [done|by apply stats_only])).
  { by eapply stopped. }
  specialize (Hfound _ _ eq_refl).
  apply bind_inv in Hr as [(e & [= <- _] & ->)|(current & w6' & Hm & Hr)]; [by eapply stopped|]. injection Hm as <- Hcur%ok_or_Ok.
  assert (∀ o, o ∈ orphans → or_key o ∉ live ∧ ∃ e, Ok e ∈ entries ∧ condemned dp mp cutoff stats e (or_key o)) as Hfound'.
  { intros o Hin. destruct (Hfound o Hin) as [?%not_elem_of_nil|?]; done. }
  assert (∀ o, o ∈ orphans → clear_of bucket md0 (or_key o)) as Hcl by (intros o Hin; destruct (Hfound' o Hin); by eapply covers_clear).
  apply bind_inv in Hr as [(e & Hm & ->)|(kept & w7 & Hm & Hr)]; (eapply recheck_spec in Hm as (mds & T7 & Hk);
    [|intros o Hin; rewrite <-(Hat _ _ eq_refl Hcur); by apply Hcl]); rewrite T6, <-app_assoc in T7;
    (assert (only_probe pid execute (((([GLoad md0] ++ [GNow t0] ++ probe) ++ [GList entries]) ++ stats) ++ (GLoad <$> mds))) as Ho7 by (apply only_probe_app; [done|apply loads_only])).
  { by eapply stopped. }
  destruct (Hk _ eq_refl) as [Hne Hkept].
  destruct execute; [|injection Hr as <- <-; exists (((([GLoad md0] ++ [GNow t0] ++ probe) ++ [GList entries]) ++ stats) ++ (GLoad <$> mds)), [];
    cbn [fmap list_fmap]; rewrite app_nil_r; by split_and!].
  apply bind_inv in Hr as Hd.
  assert (∃ D rd, gtrace w' = gtrace w7 ++ (GDelete <$> D) ∧ D `prefix_of` (or_key <$> kept) ∧ r = rd ∧ ∀ c os, rd = Ok (c, os) → D = or_key <$> os) as (D & ? & TD & Hpre & <- & HDr).
  { destruct Hd as [(e & (D & ? & ? & ?)%delete_all_spec & ->)|([] & w8 & (D & ? & ? & HD)%delete_all_spec & [= <- <-])];
      exists D; eexists; (split_and!; [done|done|done|]); intros c os [= <- <-]. by apply HD. }
  rewrite T7, <-app_assoc in TD. eexists _, D. split; [exact TD|]. split; [done|]. split; [|exact HDr].
  intros _. split; [done|]. exists md0, bucket, prefix, t0, cutoff, probe, entries, stats, mds.
  split_and!; [by rewrite <-!app_assoc|by apply Hne|done|done|done|done|].
  intros k Hk'. assert (k ∈ or_key <$> kept) as (o & -> & Hin)%list_elem_of_fmap by (destruct Hpre as [? ->]; set_solver).
  destruct (Hkept o Hin) as [Hino Hclear]. split; [by apply Hfound'|]. intros md [->|?]%elem_of_cons; [by apply Hcl|by apply Hclear].
Qed.

(** C29: Orphan removal deletes no live file: whatever the run does and however it
    ends, besides its own probe it deletes only with [--execute], only objects of
    the listing that are artifacts of the table and older than the grace window,
    and only keys that no metadata loaded in the run records, the last of them
    loaded after the listing; a run that answers deleted all it reports. *)
Theorem remove_orphans_safe pid table h execute ug (w w' : W) r :
  remove_orphans pid table h execute ug w = (w', r) → safe_run pid h execute ug w w' r.
Proof.
  unfold remove_orphans.
  intros [(e & [= <- _] & ->)|(? & w0 & [= <- _] & Hr)]%bind_inv; [by apply (stopped _ _ _ _ _ _ _ []); [rewrite app_nil_r|apply harmless]|].
  apply bind_inv in Hr as [(e & [= <- _] & ->)|(ident & w0' & [= <- _] & Hr)]; [by apply (stopped _ _ _ _ _ _ _ []); [rewrite app_nil_r|apply harmless]|].
  apply bind_inv in Hr as [(e & Hm & ->)|(md0 & w1 & Hm & Hr)]; apply load_law in Hm as [T1 Hat]; [eapply stopped; [exact T1|by apply harmless]|].
  apply bind_inv in Hr as [(e & [= <- _] & ->)|([bucket prefix] & w1' & Hm & Hr)]; [eapply stopped; [exact T1|by apply harmless; repeat constructor]|].
  injection Hm as <- Hloc.
  apply bind_inv in Hr as [(e & Hm & ->)|(t0 & w2 & Hm & Hr)]; apply clock_spec in Hm as (t0' & [= <-] & T2); rewrite T1, <-app_assoc in T2.
  apply bind_inv in Hr as [(e & [= <- _] & ->)|(cutoff & w2' & Hm & Hr)]; [eapply stopped; [exact T2|by apply harmless; repeat constructor]|].
  injection Hm as <- Hcut%ok_or_Ok.
  set (mp := prefix ++ str_bytes "/metadata/") in *.
  assert (∀ w3 r3, (if execute then abort_on_clock_skew pid mp else st_ret tt) w2 = (w3, r3) →
    ∃ probe, gtrace w3 = gtrace w2 ++ probe ∧ Forall (probing pid mp) probe ∧ only_probe pid execute probe) as Hprobe.
  { intros w3 r3. destruct execute; [intros (evs & ? & ?)%skew_probe_spec; exists evs; split_and!; [done|done|by eapply probing_only]|].
    intros [= <- _]. exists []. rewrite app_nil_r. split_and!; [done|done|by apply harmless]. }
  apply bind_inv in Hr as [(e & Hm & ->)|(? & w3 & Hm & Hr)]; apply Hprobe in Hm as (probe & T3 & Hpr & Hpo); clear Hprobe; rewrite T2, <-app_assoc in T3;
    (assert (only_probe pid execute ([GLoad md0] ++ [GNow t0] ++ probe)) as Ho by (do 2 (apply only_probe_app; [by apply harmless; repeat constructor|]); done)).
  { by eapply stopped. }
  apply (run_rest _ _ _ _ _ _ _ _ _ _ _ _ _ _ _ T3 Ho Hpr Hloc Hcut Hat Hr).
Qed.
End Safe.
