(* ===== verification/Compact.v ===== *)
(** * The compaction planner (src/icegres/src/compact.rs)

    Which files a compaction rewrites together.  Execution, which reads and writes
    Parquet and commits the result, is outside. *)
From S2P Require Import Prelude.
#[local] Open Scope N_scope.

Record CompactCandidate := { cc_path : list byte; size_bytes : N; record_count : N; cc_partition : list byte }.
Record CompactGroup := { cg_partition : list byte; inputs : list nat; total_bytes : N; total_records : N }.

Definition new_group (p : list byte) : CompactGroup :=
  {| cg_partition := p; inputs := []; total_bytes := 0; total_records := 0 |}.
Definition push_input (idx : nat) (f : CompactCandidate) (g : CompactGroup) : CompactGroup :=
  {| cg_partition := cg_partition g; inputs := inputs g ++ [idx];
     total_bytes := wadd (total_bytes g) (size_bytes f); total_records := wadd (total_records g) (record_count f) |}.
(** The file goes into its partition's group, a new one if there is none. *)
Fixpoint add_to_group (idx : nat) (f : CompactCandidate) (groups : list CompactGroup) : list CompactGroup :=
  match groups with
  | [] => [push_input idx f (new_group (cc_partition f))]
  | g :: groups => if decide (cg_partition g = cc_partition f) then push_input idx f g :: groups
                   else g :: add_to_group idx f groups
  end.
Definition plan_step (target_bytes : N) (groups : list CompactGroup) (indexed : nat * CompactCandidate) : list CompactGroup :=
  let '(idx, f) := indexed in
  if target_bytes <=? size_bytes f then groups else add_to_group idx f groups.
Definition grouped (files : list CompactCandidate) (target_bytes : N) : list CompactGroup :=
  foldl (plan_step target_bytes) [] (imap pair files).
(** [plan_compaction] *)
Definition plan_compaction (files : list CompactCandidate) (target_bytes : N) (min_input_files : nat) : list CompactGroup :=
  List.filter (λ g, (min_input_files <=? length (inputs g))%nat) (grouped files target_bytes).

(** ** The plan it means to make *)
Definition selects (target_bytes : N) (p : list byte) (x : nat * CompactCandidate) : bool :=
  (size_bytes (snd x) <? target_bytes) && bool_decide (cc_partition (snd x) = p).
(** The files of a partition under the target, with their indices. *)
Definition selected (files : list CompactCandidate) (target_bytes : N) (p : list byte) : list (nat * CompactCandidate) :=
  List.filter (selects target_bytes p) (imap pair files).
Definition group_of (files : list CompactCandidate) (target_bytes : N) (p : list byte) : CompactGroup :=
  let sel := selected files target_bytes p in
  {| cg_partition := p; inputs := map fst sel;
     total_bytes := foldl (λ n x, wadd n (size_bytes (snd x))) 0 sel;
     total_records := foldl (λ n x, wadd n (record_count (snd x))) 0 sel |}.

Section Plan.
Context (target : N).
#[local] Abbreviation group_of files := (group_of files target).

Lemma selected_snoc files f p :
  selected (files ++ [f]) target p =
  selected files target p ++ (if selects target p (length files, f) then [(length files, f)] else []).
Proof. unfold selected. rewrite imap_app, List.filter_app. cbn. by rewrite Nat.add_0_r. Qed.
Lemma group_snoc files f p :
  group_of (files ++ [f]) p =
  if selects target p (length files, f) then push_input (length files) f (group_of files p) else group_of files p.
Proof.
  unfold Compact.group_of. rewrite selected_snoc. destruct (selects target p _); [|by rewrite app_nil_r].
  rewrite map_app, !foldl_app. done.
Qed.

(** The groups so far are those of the partitions seen, each once. *)
Definition plan_inv (files : list CompactCandidate) (groups : list CompactGroup) : Prop :=
  NoDup (map cg_partition groups) ∧
  Forall (λ g, g = group_of files (cg_partition g) ∧ inputs g ≠ []) groups ∧
  ∀ p, inputs (group_of files p) ≠ [] → p ∈ map cg_partition groups.

Lemma add_partitions idx f groups p :
  p ∈ map cg_partition (add_to_group idx f groups) ↔ p = cc_partition f ∨ p ∈ map cg_partition groups.
Proof.
  induction groups as [|g groups IH]; cbn; [set_solver|]. destruct (decide _) as [He|]; cbn; [|set_solver].
  rewrite !elem_of_cons, He. naive_solver.
Qed.
Lemma add_nodup idx f groups : NoDup (map cg_partition groups) → NoDup (map cg_partition (add_to_group idx f groups)).
Proof.
  induction groups as [|g groups IH]; cbn; [intros _; apply NoDup_singleton|]. intros [Hg Hn]%NoDup_cons.
  destruct (decide _) as [He|Hne]; cbn; [by apply NoDup_cons|]. apply NoDup_cons. split; [|by apply IH].
  rewrite add_partitions. naive_solver.
Qed.
Lemma add_elem idx f groups g :
  NoDup (map cg_partition groups) → g ∈ add_to_group idx f groups →
  (g ∈ groups ∧ cg_partition g ≠ cc_partition f) ∨
  (cg_partition g = cc_partition f ∧
     ((∃ g0, g0 ∈ groups ∧ cg_partition g0 = cc_partition f ∧ g = push_input idx f g0) ∨
      (cc_partition f ∉ map cg_partition groups ∧ g = push_input idx f (new_group (cc_partition f))))).
Proof.
  induction groups as [|g1 groups IH]; cbn.
  { intros _ ->%list_elem_of_singleton. right. split; [done|]. right. split; [apply not_elem_of_nil|done]. }
  intros [Hg1 Hn]%NoDup_cons. destruct (decide _) as [He|Hne].
  - intros [->|Hin]%elem_of_cons; [right; split; [done|]; left; exists g1; split; [by left|done]|].
    left. split; [by right|]. intros Hp. apply Hg1. rewrite He, <-Hp.
    change (map cg_partition groups) with (cg_partition <$> groups). apply list_elem_of_fmap. by exists g.
  - intros [->|Hin]%elem_of_cons; [left; split; [by left|done]|].
    destruct (IH Hn Hin) as [[? ?]|[? [(g0 & ? & ? & ?)|[? ?]]]]; [left; split; [by right|done]|right..].
    + split; [done|]. left. exists g0. split; [by right|done].
    + split; [done|]. right. split; [apply not_elem_of_cons; by split|done].
Qed.

Lemma grouped_inv files : plan_inv files (grouped files target).
Proof.
  induction files as [|f files (I1 & I2 & I3)] using rev_ind.
  { split_and!; [constructor|constructor|]. intros p Hp. by destruct Hp. }
  unfold grouped. rewrite imap_app, foldl_app. fold (grouped files target). cbn. rewrite Nat.add_0_r.
  destruct (N.leb_spec target (size_bytes f)) as [Hle|Hlt].
  { assert (∀ p, group_of (files ++ [f]) p = group_of files p) as Hsame.
    { intros p. rewrite group_snoc. unfold selects. cbn. by rewrite (proj2 (N.ltb_ge _ _) Hle). }
    split_and!; [done| |intros p; by rewrite Hsame; apply I3]. eapply Forall_impl; [exact I2|]. intros g. by rewrite Hsame. }
  assert (∀ p, selects target p (length files, f) = bool_decide (cc_partition f = p)) as Hsel.
  { intros p. unfold selects. cbn. by rewrite (proj2 (N.ltb_lt _ _) Hlt). }
  split_and!; [by apply add_nodup| |].
  - apply Forall_forall. intros g Hg. rewrite group_snoc, Hsel. rewrite Forall_forall in I2.
    destruct (add_elem _ _ _ _ I1 Hg) as [[Hin Hne]|[Hp [(g0 & Hin & Hp0 & ->)|[Hnew ->]]]].
    + rewrite bool_decide_eq_false_2 by done. by apply I2.
    + rewrite bool_decide_eq_true_2 by done. destruct (I2 g0 Hin) as [He _]. cbn [cg_partition push_input]. rewrite <-He.
      split; [done|]. cbn. by destruct (inputs g0).
    + rewrite bool_decide_eq_true_2 by done. cbn [cg_partition push_input new_group].
      assert (inputs (group_of files (cc_partition f)) = []) as Hnil.
      { destruct (inputs (group_of files (cc_partition f))) eqn:E; [done|]. destruct Hnew. apply I3. by rewrite E. }
      split; [|done]. unfold Compact.group_of in *. cbn in Hnil. apply map_eq_nil in Hnil. by rewrite Hnil.
  - intros p Hp. apply add_partitions. rewrite group_snoc, Hsel in Hp. case_bool_decide as He; [by left|]. right. by apply I3.
Qed.
End Plan.

(** the plan has, once each, exactly the partitions with at least one and at
    least the asked number of files under the target; a group lists all such
    files of its partition and no others, in order, with their totals. *)
Theorem plan_compaction_exact files target min_input_files :
  let plan := plan_compaction files target min_input_files in
  NoDup (map cg_partition plan) ∧
  ∀ g, g ∈ plan ↔ g = group_of files target (cg_partition g) ∧ inputs g ≠ [] ∧ (min_input_files ≤ length (inputs g))%nat.
Proof.
  cbn zeta. unfold plan_compaction. destruct (grouped_inv target files) as (I1 & I2 & I3). split.
  - revert I1. clear. induction (grouped files target) as [|g groups IH]; cbn; [done|]. intros [Hg Hn]%NoDup_cons.
    destruct (_ <=? _)%nat; cbn; [|by apply IH]. apply NoDup_cons. split; [|by apply IH]. intros Hin. apply Hg.
    change (map cg_partition ?l) with (cg_partition <$> l) in *. apply list_elem_of_fmap in Hin as (g' & -> & Hin).
    apply list_elem_of_fmap. exists g'. split; [done|]. apply list_elem_of_In, filter_In in Hin as [Hin _]. by apply list_elem_of_In.
  - intros g. rewrite list_elem_of_In, filter_In, <-list_elem_of_In, Nat.leb_le. rewrite Forall_forall in I2. split.
    + intros [Hin Hmin]. destruct (I2 g Hin) as [He Hne]. done.
    + intros (He & Hne & Hmin). split; [|done]. rewrite He in Hne. apply I3 in Hne.
      change (map cg_partition ?l) with (cg_partition <$> l) in Hne. apply list_elem_of_fmap in Hne as (g' & Hp & Hin).
      destruct (I2 g' Hin) as [He' _]. rewrite He, Hp, <-He'. done.
Qed.
