(* ===== verification/AsOf.v ===== *)
(** * Time travel (src/icegres/src/asof.rs)

    [t AS OF TIMESTAMP '...'] and [t AS OF id] become ["t@id"] in the statement's
    text: the gate, the search over sqlparser's tokens, the resolution of the
    snapshot and the splice.  A string is its UTF-8 bytes.  sqlparser's tokenizer,
    Unicode lowercasing, Arrow's timestamp cast and the catalog are the interface
    [AsOfLib]. *)
From S2P Require Import Prelude Text TailNames Keyed.
From S2P Require Dml.
#[local] Open Scope N_scope.

(** ** sqlparser's tokens, as far as the code tells them apart *)
Inductive Keyword := KAs | KOf | KTimestamp | KFrom | KJoin | KNoKeyword | KOther.
#[export] Instance Keyword_eq_dec : EqDecision Keyword.
Proof. solve_decision. Defined.
Record Word := { w_value : list byte; w_quoted : bool; w_keyword : Keyword }.
Inductive Token := TWhitespace | TWord (w : Word) | TSingleQuoted (s : list byte) | TNumber (n : list byte) | TPeriod | TComma | TOther.
Record Location := { line : N; column : N }.
#[export] Instance Location_eq_dec : EqDecision Location.
Proof. solve_decision. Defined.
Record TokenWithSpan := { token : Token; span_start : Location }.

(** The table's snapshot log in its order, and the snapshots still known. *)
Record AsOfTable := { history : list (Z * Z); snapshots : list Z }.
Class AsOfLib (W : Type) := {
  tokenize_with_location : list byte → option (list TokenWithSpan);
  to_lowercase : list byte → list byte;
  cast_timestamp : list byte → option Z;             (* microseconds since the epoch *)
  load_as_of : TableIdent → W → W * result AsOfTable;
}.

(** ** [i64] as text *)
Definition i64_max : N := 9223372036854775807.
Definition parse_i64 (bs : list byte) : option Z :=
  match bs with
  | Byte.x2d :: [] => None
  | Byte.x2d :: digits => (λ n, (- Z.of_N n)%Z) <$> parse_radix digit 10 (i64_max + 1) digits 0
  | _ => Z.of_N <$> from_str_radix digit 10 i64_max bs
  end.
Definition print_i64 (z : Z) : list byte :=
  if (z <? 0)%Z then Byte.x2d :: print_u64 (Z.to_N (- z)) else print_u64 (Z.to_N z).

(** ** The gate *)
Definition is_word (c : byte) : bool :=
  let n := Byte.to_N c in
  ((48 <=? n) && (n <=? 57)) || ((65 <=? n) && (n <=? 90)) || ((97 <=? n) && (n <=? 122)) || (n =? 95) || (n =? 36).
Definition is_ascii_whitespace (c : byte) : bool :=
  match c with Byte.x20 | Byte.x09 | Byte.x0a | Byte.x0c | Byte.x0d => true | _ => false end.
Definition letter (c b : byte) : bool := bool_decide (ascii_lower b = c).
Definition boundary (b : option byte) : bool := match b with Some c => negb (is_word c) | None => true end.
Fixpoint skip_whitespace (b : list byte) : list byte :=
  match b with c :: rest => if is_ascii_whitespace c then skip_whitespace rest else b | [] => [] end.
(** What follows [AS]. *)
Definition then_of (rest : list byte) : bool :=
  match rest with
  | c :: _ =>
    negb (is_word c) &&
    match skip_whitespace rest with
    | o :: f :: rest => letter Byte.x6f o && letter Byte.x66 f && boundary (head rest)
    | _ => false
    end
  | [] => false
  end.
Fixpoint scan_as_of (prev : option byte) (b : list byte) : bool :=
  match b with
  | x :: ((y :: rest) as tl) => (letter Byte.x61 x && letter Byte.x73 y && boundary prev && then_of rest) || scan_as_of (Some x) tl
  | _ => false
  end.
(** [might_contain_as_of] *)
Definition might_contain_as_of (sql : list byte) : bool := scan_as_of None sql.

(** ** Offsets *)

(** The bytes of a [char] after its first. *)
Definition continuation (b : byte) : bool := let n := Byte.to_N b in (128 <=? n) && (n <=? 191).
Definition advance (at_ : Location) (b : byte) : Location :=
  if continuation b then at_
  else match b with
       | Byte.x0a => {| line := line at_ + 1; column := 1 |}
       | _ => {| line := line at_; column := column at_ + 1 |}
       end.
Fixpoint offset_from (bs : list byte) (idx : nat) (cur at_ : Location) : option nat :=
  match bs with
  | [] => if bool_decide (cur = at_) then Some idx else None
  | b :: bs =>
    if negb (continuation b) && bool_decide (cur = at_) then Some idx
    else offset_from bs (S idx) (advance cur b) at_
  end.
Definition origin : Location := {| line := 1; column := 1 |}.
(** [byte_offset] *)
Definition byte_offset (sql : list byte) (at_ : Location) : option nat := offset_from sql 0 origin at_.

(** ** Occurrences *)
Inductive AsOfSpec := Timestamp (literal : list byte) | SnapshotId (id : Z).
Record Occurrence := { o_start : nat; o_end : nat; o_namespace : option (list byte); o_table : list byte; o_spec : AsOfSpec }.

Section AsOf.
Context {W : Type} `{AsOfLib W}.
(** The significant tokens with their indices among all. *)
Abbreviation Sig := (list (nat * TokenWithSpan)).
Definition significant (tokens : list TokenWithSpan) : Sig :=
  List.filter (λ it, match token (snd it) with TWhitespace => false | _ => true end) (zip (seq 0 (length tokens)) tokens).
Definition token_at (sig : Sig) (pos : nat) : option Token := (λ it, token (snd it)) <$> sig !! pos.
Definition keyword_of (t : Token) : option Keyword := match t with TWord w => if w_quoted w then None else Some (w_keyword w) | _ => None end.
Definition word_kw (sig : Sig) (pos : nat) (kw : Keyword) : bool := bool_decide ((token_at sig pos ≫= keyword_of) = Some kw).
Definition is_period (sig : Sig) (pos : nat) : bool := match token_at sig pos with Some TPeriod => true | _ => false end.
(** [norm_ident] *)
Definition norm_ident (w : Word) : list byte := if w_quoted w then w_value w else to_lowercase (w_value w).
Definition ident_word (t : Token) : option Word :=
  match t with TWord w => if w_quoted w || bool_decide (w_keyword w = KNoKeyword) then Some w else None | _ => None end.
Definition ident_at (sig : Sig) (pos : nat) : option Word := token_at sig pos ≫= ident_word.
(** The version after [AS OF] at [k], and its last token. *)
Definition version_at (sig : Sig) (k : nat) : option (AsOfSpec * nat) :=
  if (k + 3 <? length sig)%nat && word_kw sig (k + 2) KTimestamp then
    match token_at sig (k + 3) with Some (TSingleQuoted s) => Some (Timestamp s, (k + 3)%nat) | _ => None end
  else match token_at sig (k + 2) with
       | Some (TNumber n) => id ← parse_i64 n; Some (SnapshotId id, (k + 2)%nat)
       | _ => None
       end.
(** The relation before [AS] at [k], and its first token. *)
Definition relation_at (sig : Sig) (k : nat) : result (option (option (list byte) * list byte * nat)) :=
  match k with
  | O => Ok None
  | S t =>
    match ident_at sig t with
    | None => Ok None
    | Some table_word =>
      let plain := Ok (Some (None, norm_ident table_word, t)) in
      if (3 <=? k)%nat && is_period sig (k - 2) then
        match ident_at sig (k - 3) with
        | Some ns_word =>
          if (5 <=? k)%nat && is_period sig (k - 4) then Err "AS OF supports <table> or <namespace>.<table> relations only"
          else Ok (Some (Some (norm_ident ns_word), norm_ident table_word, (k - 3)%nat))
        | None => plain
        end
      else plain
    end
  end.
Definition table_context (t : Token) : bool :=
  match t with TComma => true | _ => match keyword_of t with Some KFrom | Some KJoin => true | _ => false end end.
(** The sugar with its [AS] at [k]: the first and the last of its tokens. *)
Record Match := { m_first : nat; m_last : nat; m_namespace : option (list byte); m_table : list byte; m_spec : AsOfSpec }.
Definition match_at (sig : Sig) (k : nat) : result (option Match) :=
  if negb (word_kw sig k KAs && (k + 1 <? length sig)%nat && word_kw sig (k + 1) KOf) then Ok None else
  match version_at sig k with
  | None => Ok None
  | Some (spec, last) =>
    rel ← relation_at sig k;
    match rel with
    | None => Ok None
    | Some (ns, table, first) =>
      match first with
      | O => Ok None
      | S before =>
        if match token_at sig before with Some t => table_context t | None => false end
        then Ok (Some {| m_first := first; m_last := last; m_namespace := ns; m_table := table; m_spec := spec |})
        else Ok None
      end
    end
  end.
Definition out_of_range : string := "AS OF rewrite: token location out of range".
Definition start_of (sig : Sig) (pos : nat) : Location := match sig !! pos with Some it => span_start (snd it) | None => origin end.
Definition located (sql : list byte) (tokens : list TokenWithSpan) (sig : Sig) (m : Match) : result Occurrence :=
  start ← ok_or (byte_offset sql (start_of sig (m_first m))) out_of_range;
  end_ ← match tokens !! S (default 0%nat (fst <$> sig !! m_last m)) with
         | Some next => ok_or (byte_offset sql (span_start next)) out_of_range
         | None => Ok (length sql)
         end;
  Ok {| o_start := start; o_end := end_; o_namespace := m_namespace m; o_table := m_table m; o_spec := m_spec m |}.
Fixpoint find_loop (sql : list byte) (tokens : list TokenWithSpan) (sig : Sig) (ks : list nat) : result (list Occurrence) :=
  match ks with
  | [] => Ok []
  | k :: ks =>
    m ← match_at sig k;
    match m with
    | None => find_loop sql tokens sig ks
    | Some m => o ← located sql tokens sig m; out ← find_loop sql tokens sig ks; Ok (o :: out)
    end
  end.
(** [find_occurrences] *)
Definition find_occurrences (sql : list byte) : result (list Occurrence) :=
  match tokenize_with_location sql with
  | None => Ok []
  | Some tokens => let sig := significant tokens in find_loop sql tokens sig (seq 0 (length sig))
  end.

(** ** Resolution *)

(** [parse_timestamp_ms]; [/] rounds towards zero. *)
Definition parse_timestamp_ms (literal : list byte) : result Z :=
  us ← ok_or (cast_timestamp literal) "cannot parse AS OF TIMESTAMP"; Ok (Z.quot us 1000).
(** [snapshot_at] *)
Definition snapshot_at (log : list (Z * Z)) (known : Z → bool) (ts_ms : Z) : result Z :=
  '(_, id) ← ok_or (List.find (λ e, (fst e <=? ts_ms)%Z) (rev log)) "no snapshot exists at or before the requested time";
  _ ← ensure (known id) "the snapshot has been expired out of table metadata";
  Ok id.
Definition resolve (md : AsOfTable) (spec : AsOfSpec) : result Z :=
  let known := λ id, bool_decide (id ∈ snapshots md) in
  match spec with
  | SnapshotId id => _ ← ensure (known id) "the snapshot does not exist"; Ok id
  | Timestamp lit => ts_ms ← parse_timestamp_ms lit; snapshot_at (history md) known ts_ms
  end.

(** ** The splice *)
Definition ident_of (namespace : option (list byte)) (table : list byte) : TableIdent :=
  {| namespace := [default (str_bytes Dml.DEFAULT_SCHEMA) namespace]; table_name := table |}.
Definition replacement (namespace : option (list byte)) (table : list byte) (id : Z) : list byte :=
  let versioned := quote_ident (table ++ str_bytes "@" ++ print_i64 id) in
  match namespace with Some ns => quote_ident ns ++ str_bytes "." ++ versioned | None => versioned end.
(** [String::replace_range], which panics on a bad range. *)
Definition replace_range (s : list byte) (start end_ : nat) (by_ : list byte) : result (list byte) :=
  if (start <=? end_)%nat && (end_ <=? length s)%nat then Ok (take start s ++ by_ ++ drop end_ s) else Err "panicked: range out of bounds".
Fixpoint insert_by_start (o : Occurrence) (os : list Occurrence) : list Occurrence :=
  match os with
  | [] => [o]
  | o' :: os' => if (o_start o <=? o_start o')%nat then o :: os else o' :: insert_by_start o os'
  end.
Definition sort_by_start (os : list Occurrence) : list Occurrence := foldr insert_by_start [] os.
Definition splice (o : Occurrence) (rewritten : list byte) : stres W (list byte) :=
  (let* md := load_as_of (ident_of (o_namespace o) (o_table o)) in
   let* id := st_lift (resolve md (o_spec o)) in
   st_lift (replace_range rewritten (o_start o) (o_end o) (replacement (o_namespace o) (o_table o) id ++ str_bytes " ")))%stres.
(** Back to front. *)
Fixpoint splice_all (os : list Occurrence) (sql : list byte) : stres W (list byte) :=
  match os with
  | [] => st_ret sql
  | o :: os => (let* rewritten := splice_all os sql in splice o rewritten)%stres
  end.
(** [rewrite_as_of] *)
Definition rewrite_as_of (sql : list byte) : stres W (option (list byte)) :=
  if negb (might_contain_as_of sql) then st_ret None else
  (let* occurrences := st_lift (find_occurrences sql) in
   match occurrences with
   | [] => st_ret None
   | _ => let* rewritten := splice_all (sort_by_start occurrences) sql in st_ret (Some rewritten)
   end)%stres.
End AsOf.
