(* ===== verification/AsOfRewrite.v ===== *)
(** * What the rewriting of AS OF does to a statement

    The occurrences of the search are those of a grammar on the significant tokens
    ([sugar]), they do not overlap, and the rewritten statement is the text of all
    other tokens with a versioned name in place of each ([rendered]). *)
From stdpp Require Import sorting.
From S2P Require Import Prelude Text TailNames Keyed AsOf.
#[local] Open Scope N_scope.

(** ** Offsets and locations *)
Definition loc_from (at_ : Location) (bs : list byte) : Location := foldl advance at_ bs.
Definition before (a b : Location) : Prop := line a < line b ∨ (line a = line b ∧ column a < column b).
Definition starts_char (bs : list byte) : Prop := match bs with [] => True | b :: _ => continuation b = false end.

Lemma advance_before a b : continuation b = false → before a (advance a b).
Proof. intros Hb. unfold advance, before. rewrite Hb. destruct b; cbn; lia. Qed.
Lemma loc_from_ge bs a : a = loc_from a bs ∨ before a (loc_from a bs).
Proof.
  revert a. induction bs as [|b bs IH]; intros a; [by left|]. cbn. fold (loc_from (advance a b) bs).
  destruct (continuation b) eqn:Hb; [unfold advance; rewrite Hb; apply IH|]. right. pose proof (advance_before a b Hb) as H1.
  destruct (IH (advance a b)) as [<-|H2]; [done|]. unfold before in *. lia.
Qed.
Lemma before_irrefl a : ¬ before a a.
Proof. unfold before. lia. Qed.
Lemma offset_from_prefix p rest idx cur : starts_char rest → offset_from (p ++ rest) idx cur (loc_from cur p) = Some (idx + length p)%nat.
Proof.
  intros Hrest. revert idx cur. induction p as [|b p IH]; intros idx cur; cbn.
  - destruct rest as [|b rest]; cbn; [|rewrite Hrest; cbn]; rewrite bool_decide_eq_true_2 by done; f_equal; lia.
  - fold (loc_from (advance cur b) p). rewrite IH. replace (S idx + length p)%nat with (idx + S (length p))%nat by lia.
    destruct (continuation b) eqn:Hb; cbn [negb andb]; [done|]. rewrite bool_decide_eq_false_2; [done|]. intros He.
    pose proof (advance_before cur b Hb) as H1. destruct (loc_from_ge p (advance cur b)) as [H2|H2]; rewrite <-?H2, <-?He in *; unfold before in *; [rewrite He in H1|]; lia.
Qed.
Lemma byte_offset_prefix p rest : starts_char rest → byte_offset (p ++ rest) (loc_from origin p) = Some (length p).
Proof. apply offset_from_prefix. Qed.

(** ** The grammar *)
(** A keyword of the sugar is no name, and no context of one. *)
Lemma kind_clash t kw : keyword_of t = Some kw → kw = KAs ∨ kw = KOf ∨ kw = KTimestamp → ident_word t = None ∧ table_context t = false.
Proof. unfold table_context, ident_word, keyword_of. destruct t as [|[v [] k]| | | | |]; try done. intros [= ->] [->|[->| ->]]; done. Qed.
(** Two different tokens at one position. *)
Ltac clash :=
  exfalso; match goal with
  | E1 : ?l !! ?i = Some ?t, E2 : ?l !! ?j = Some ?t' |- _ =>
    let E := fresh in assert (i = j) as E by lia; rewrite E, E2 in E1; injection E1 as ?; subst; try discriminate;
    match goal with Kw : keyword_of ?t = Some _ |- _ => destruct (kind_clash _ _ Kw ltac:(tauto)); congruence end
  end.
Section Rewrite.
(** The tokenizer cuts the text in pieces at characters, and a token's location is
    that of its piece. *)
Class AsOfLaws (W : Type) `{AsOfLib W} := {
  texts_of : list byte → list (list byte);
  tokenizer_law sql tokens : tokenize_with_location sql = Some tokens →
    length (texts_of sql) = length tokens ∧ concat (texts_of sql) = sql ∧
    ∀ i t, tokens !! i = Some t → span_start t = loc_from origin (concat (take i (texts_of sql))) ∧ starts_char (concat (drop i (texts_of sql)));
}.
Context {W : Type} `{AsOfLaws W}.
Abbreviation Sig := (list (nat * TokenWithSpan)).

Inductive relation_of : list Token → option (list byte) → list byte → Prop :=
  | plain_name t w : ident_word t = Some w → relation_of [t] None (norm_ident w)
  | qualified_name t0 w0 t w : ident_word t0 = Some w0 → ident_word t = Some w → relation_of [t0; TPeriod; t] (Some (norm_ident w0)) (norm_ident w).
Inductive version_of : list Token → AsOfSpec → Prop :=
  | at_time t s : keyword_of t = Some KTimestamp → version_of [t; TSingleQuoted s] (Timestamp s)
  | at_id n id : parse_i64 n = Some id → version_of [TNumber n] (SnapshotId id).
Definition toks (sig : Sig) : list Token := (λ it, token (snd it)) <$> sig.
(** A relation after a comma, FROM or JOIN, the words AS OF and a version. *)
Definition sugar (sig : Sig) (m : Match) : Prop :=
  ∃ pre ctx rel ta to ver post, toks sig = pre ++ [ctx] ++ rel ++ [ta; to] ++ ver ++ post ∧ table_context ctx = true ∧
    relation_of rel (m_namespace m) (m_table m) ∧ keyword_of ta = Some KAs ∧ keyword_of to = Some KOf ∧ version_of ver (m_spec m) ∧
    m_first m = S (length pre) ∧ m_last m = (length pre + length rel + 2 + length ver)%nat.
(** A name of three parts before AS OF and a version. *)
Definition three_parts (sig : Sig) : Prop :=
  ∃ pre t0 w0 t w ta to ver spec post, toks sig = pre ++ [TPeriod; t0; TPeriod; t; ta; to] ++ ver ++ post ∧
    ident_word t0 = Some w0 ∧ ident_word t = Some w ∧ keyword_of ta = Some KAs ∧ keyword_of to = Some KOf ∧ version_of ver spec.

Lemma token_at_toks sig pos : token_at sig pos = toks sig !! pos.
Proof. unfold token_at, toks. by rewrite list_lookup_fmap. Qed.
Lemma word_kw_true sig pos kw : word_kw sig pos kw = true → ∃ t, toks sig !! pos = Some t ∧ keyword_of t = Some kw.
Proof. unfold word_kw. intros Hw%bool_decide_eq_true. rewrite token_at_toks in Hw. destruct (toks sig !! pos) as [t|]; [by exists t|done]. Qed.
Lemma is_period_true sig pos : is_period sig pos = true → toks sig !! pos = Some TPeriod.
Proof. unfold is_period. rewrite token_at_toks. by destruct (toks sig !! pos) as [[]|]. Qed.
Lemma ident_at_Some sig pos w : ident_at sig pos = Some w → ∃ t, toks sig !! pos = Some t ∧ ident_word t = Some w.
Proof. unfold ident_at. rewrite token_at_toks. destruct (toks sig !! pos) as [t|]; [by exists t|done]. Qed.
Lemma version_at_Some sig k spec last :
  version_at sig k = Some (spec, last) → ∃ ver post, drop (k + 2) (toks sig) = ver ++ post ∧ version_of ver spec ∧ last = (k + 1 + length ver)%nat.
Proof.
  unfold version_at. destruct (_ && _) eqn:Hc.
  - apply andb_true_iff in Hc as [_ (t & Ht & Hk)%word_kw_true]. rewrite token_at_toks. destruct (toks sig !! (k + 3)%nat) as [[| |s| | | |]|] eqn:Es; try done.
    intros [= <- <-]. exists [t; TSingleQuoted s], (drop (k + 4) (toks sig)). split_and!; [|by constructor|cbn; lia].
    rewrite (drop_S _ t) by done. rewrite (drop_S _ (TSingleQuoted s)) by (by replace (S (k + 2)) with (k + 3)%nat by lia). cbn. by replace (S (S (k + 2))) with (k + 4)%nat by lia.
  - rewrite token_at_toks. destruct (toks sig !! (k + 2)%nat) as [[| | |n| | |]|] eqn:En; try done.
    destruct (parse_i64 n) as [id|] eqn:Ep; [|done]. intros [= <- <-]. exists [TNumber n], (drop (k + 3) (toks sig)).
    split_and!; [|by constructor|cbn; lia]. rewrite (drop_S _ (TNumber n)) by done. cbn. by replace (S (k + 2)) with (k + 3)%nat by lia.
Qed.
Lemma cut_at (l : list Token) i : (i <= length l)%nat → l = take i l ++ drop i l ∧ length (take i l) = i.
Proof. intros Hi. split; [by rewrite take_drop|by rewrite length_take_le]. Qed.

(** The name before [AS] at [k]. *)
Lemma relation_at_Ok sig k ns table first :
  relation_at sig k = Ok (Some (ns, table, first)) → ∃ rel, relation_of rel ns table ∧ (first + length rel)%nat = k ∧ ∀ rest, drop k (toks sig) = rest → drop first (toks sig) = rel ++ rest.
Proof.
  unfold relation_at. destruct k as [|t]; [done|]. destruct (ident_at sig t) as [w|] eqn:Ew; [|done]. apply ident_at_Some in Ew as (tt & Et & Ew).
  assert (∃ rel, relation_of rel None (norm_ident w) ∧ (t + length rel)%nat = S t ∧ ∀ rest, drop (S t) (toks sig) = rest → drop t (toks sig) = rel ++ rest) as Hplain.
  { exists [tt]. split_and!; [by constructor|cbn; lia|]. intros rest <-. by rewrite (drop_S _ tt). }
  destruct (_ && is_period sig (S t - 2)) eqn:Ep; [|intros [= <- <- <-]; exact Hplain].
  apply andb_true_iff in Ep as [Hk%Nat.leb_le Ep%is_period_true]. destruct (ident_at sig (S t - 3)) as [w0|] eqn:E0; [|intros [= <- <- <-]; exact Hplain].
  destruct (_ && is_period sig (S t - 4)); [done|]. intros [= <- <- <-]. apply ident_at_Some in E0 as (t0 & E0 & Ew0).
  destruct t as [|[|t]]; [lia|lia|]. replace (S (S (S t)) - 2)%nat with (S t) in * by lia. replace (S (S (S t)) - 3)%nat with t in * by lia.
  replace (S (S t) - 2)%nat with t by lia.
  exists [t0; TPeriod; tt]. split_and!; [by constructor|cbn; lia|]. intros rest <-. by rewrite (drop_S _ t0), (drop_S _ TPeriod), (drop_S _ tt).
Qed.
Lemma relation_at_Err sig k e rest :
  relation_at sig k = Err e → drop k (toks sig) = rest → ∃ pre t0 w0 t w, toks sig = pre ++ [TPeriod; t0; TPeriod; t] ++ rest ∧ ident_word t0 = Some w0 ∧ ident_word t = Some w.
Proof.
  unfold relation_at. destruct k as [|t]; [done|]. destruct (ident_at sig t) as [w|] eqn:Ew; [|done]. apply ident_at_Some in Ew as (tt & Et & Ew).
  destruct (_ && is_period sig (S t - 2)) eqn:Ep; [|done]. apply andb_true_iff in Ep as [_ Ep%is_period_true].
  destruct (ident_at sig (S t - 3)) as [w0|] eqn:E0; [|done]. apply ident_at_Some in E0 as (t0 & E0 & Ew0).
  destruct (_ && is_period sig (S t - 4)) eqn:Eq; [|done]. apply andb_true_iff in Eq as [Hk%Nat.leb_le Eq%is_period_true]. intros _ <-.
  destruct t as [|[|[|t]]]; [lia|lia|lia|].
  replace (S (S (S (S t))) - 2)%nat with (S (S t)) in * by lia. replace (S (S (S (S t))) - 3)%nat with (S t) in * by lia. replace (S (S (S (S t))) - 4)%nat with t in * by lia.
  exists (take t (toks sig)), t0, w0, tt, w. split_and!; [|done|done]. rewrite <-(take_drop t (toks sig)) at 1. f_equal. by rewrite (drop_S _ TPeriod), (drop_S _ t0), (drop_S _ TPeriod), (drop_S _ tt).
Qed.

Lemma match_at_inv sig k : ∀ r, match_at sig k = r → r ≠ Ok None →
  ∃ ta to ver spec post, keyword_of ta = Some KAs ∧ keyword_of to = Some KOf ∧ version_of ver spec ∧ drop k (toks sig) = [ta; to] ++ ver ++ post ∧
    match r with
    | Err e => ∃ e', relation_at sig k = Err e'
    | Ok None => False
    | Ok (Some m) => relation_at sig k = Ok (Some (m_namespace m, m_table m, m_first m)) ∧ m_spec m = spec ∧ m_last m = (k + 1 + length ver)%nat ∧
        ∃ b ctx, m_first m = S b ∧ toks sig !! b = Some ctx ∧ table_context ctx = true
    end.
Proof.
  intros r <-. unfold match_at. destruct (word_kw sig k KAs) eqn:Ea; [|done]. destruct (k + 1 <? length sig)%nat; [|done]. destruct (word_kw sig (k + 1) KOf) eqn:Eo; [|done].
  cbn [negb andb]. apply word_kw_true in Ea as (ta & Ta & Ka), Eo as (to & To & Ko).
  destruct (version_at sig k) as [[spec last]|] eqn:Ev; [|done]. apply version_at_Some in Ev as (ver & post & Hd & Hv & ->). intros Hne.
  assert (drop k (toks sig) = [ta; to] ++ ver ++ post) as Hdk.
  { rewrite (drop_S _ ta) by done. rewrite (drop_S _ to) by (by replace (S k) with (k + 1)%nat by lia). cbn. do 2 f_equal. rewrite <-Hd. f_equal. lia. }
  exists ta, to, ver, spec, post. split_and!; [done..|].
  destruct (relation_at sig k) as [[[[ns table] [|b]]|]|e]; cbn in *; [done| |done|by exists e].
  rewrite token_at_toks in *. destruct (toks sig !! b) as [ctx|] eqn:Eb; [|done]. destruct (table_context ctx) eqn:Et; [|done]. cbn.
  split_and!; [done..|]. by exists b, ctx.
Qed.
Lemma match_at_sugar sig k m : match_at sig k = Ok (Some m) → sugar sig m ∧ (m_first m < k)%nat ∧ (k < m_last m)%nat.
Proof.
  intros Hm. destruct (match_at_inv sig k _ Hm) as (ta & to & ver & spec & post & Ka & Ko & Hv & Hd & Hr & <- & Hlast & b & ctx & Hb & Ec & Hc); [done|].
  apply relation_at_Ok in Hr as (rel & Hrel & Hk & Hdrop). specialize (Hdrop _ Hd). split; [|destruct Hrel; cbn in *; lia].
  exists (take b (toks sig)), ctx, rel, ta, to, ver, post.
  assert (length (take b (toks sig)) = b) as Hlen by (rewrite length_take_le; [done|apply lookup_lt_Some in Ec; lia]).
  split_and!; [|done..|by rewrite Hlen|rewrite Hlen; lia].
  rewrite <-(take_drop b (toks sig)) at 1. f_equal. rewrite (drop_S _ ctx) by done. cbn. f_equal. by rewrite <-Hb.
Qed.
Lemma match_at_Err sig k e : match_at sig k = Err e → three_parts sig.
Proof.
  intros Hm. destruct (match_at_inv sig k _ Hm) as (ta & to & ver & spec & post & Ka & Ko & Hv & Hd & e' & He); [done|].
  destruct (relation_at_Err _ _ _ _ He Hd) as (pre & t0 & w0 & t & w & Ht & W0 & W1). exists pre, t0, w0, t, w, ta, to, ver, spec, post. by split_and!.
Qed.

(** Lookups in a list around its middle. *)
Lemma lookup_past {A} (pre l : list A) i n : n = (length pre + i)%nat → (pre ++ l) !! n = l !! i.
Proof. intros ->. rewrite lookup_app_r by lia. f_equal. lia. Qed.
Lemma sugar_match sig m : sugar sig m → ∃ k, match_at sig k = Ok (Some m).
Proof.
  intros (pre & ctx & rel & ta & to & ver & post & Ht & Hc & Hrel & Ka & Ko & Hv & Hf & Hl). assert (∃ k, k = (S (length pre) + length rel)%nat) as [k Ek] by by eexists.
  exists k.
  assert (∀ i t n, ((ctx :: rel) ++ [ta; to] ++ ver ++ post) !! i = Some t → n = (length pre + i)%nat → token_at sig n = Some t) as Hat.
  { intros i t n Hi ->. rewrite token_at_toks, Ht. by rewrite lookup_past with (i := i). }
  assert (∀ i t n, ([ta; to] ++ ver ++ post) !! i = Some t → n = (k + i)%nat → token_at sig n = Some t) as Hat'.
  { intros i t n Hi ->. rewrite token_at_toks, Ht, app_assoc, app_assoc, lookup_past with (i := i); [done|]. rewrite !length_app. cbn. lia. }
  assert (length sig = length (pre ++ [ctx] ++ rel ++ [ta; to] ++ ver ++ post)) as Hlen by (rewrite <-Ht; unfold toks; by rewrite length_fmap).
  rewrite !length_app in Hlen. cbn in Hlen.
  assert (version_at sig k = Some (m_spec m, (k + 1 + length ver)%nat)) as Hver.
  { unfold version_at, word_kw. destruct Hv as [t s Hk|n id Hp]; cbn [length app] in *.
    - rewrite (Hat' 2%nat t), (Hat' 3%nat (TSingleQuoted s)) by done. cbn [mbind option_bind]. rewrite Hk, bool_decide_eq_true_2 by done.
      rewrite (proj2 (Nat.ltb_lt _ _)) by lia. cbn [andb]. do 2 f_equal. lia.
    - rewrite (Hat' 2%nat (TNumber n)) by done. cbn [mbind option_bind keyword_of]. rewrite bool_decide_eq_false_2, andb_false_r, Hp by done. cbn [mbind option_bind]. do 2 f_equal. lia. }
  unfold match_at. unfold word_kw at 1 2. rewrite (Hat' 0%nat ta), (Hat' 1%nat to) by (done || lia). cbn [mbind option_bind]. rewrite Ka, Ko, !bool_decide_eq_true_2 by done.
  rewrite (proj2 (Nat.ltb_lt _ _)) by lia. cbn [negb andb]. rewrite Hver.
  assert (relation_at sig k = Ok (Some (m_namespace m, m_table m, m_first m))) as ->.
  { unfold relation_at. destruct Hrel as [t w Hw|t0 w0 t w Hw0 Hw]; cbn [length app] in *.
    - assert (k = S (S (length pre))) as -> by lia. unfold ident_at. rewrite (Hat 1%nat t) by (done || lia). cbn [mbind option_bind]. rewrite Hw.
      destruct (_ && _) eqn:Ep; [|by rewrite Hf]. apply andb_true_iff in Ep as [_ Ep]. unfold is_period in Ep. rewrite (Hat 0%nat ctx) in Ep by (done || lia). by destruct ctx.
    - assert (k = S (S (S (S (length pre))))) as -> by lia. unfold ident_at, is_period.
      rewrite (Hat 3%nat t) by (done || lia). cbn [mbind option_bind]. rewrite Hw. rewrite (Hat 2%nat TPeriod), (Hat 1%nat t0) by (done || lia). cbn [mbind option_bind]. rewrite Hw0.
      cbn [Nat.leb andb]. rewrite (Hat 0%nat ctx) by (done || lia). replace (S (S (S (S (length pre)))) - 3)%nat with (m_first m) by lia.
      destruct ctx; try done; by rewrite andb_false_r. }
  cbn [mbind result_bind]. rewrite Hf. rewrite (Hat 0%nat ctx), Hc by (done || lia). rewrite <-Hf. do 2 f_equal. destruct m; cbn in *. f_equal. lia.
Qed.

(** Occurrences do not overlap: what precedes the later one is no part of a name. *)
Lemma matches_apart sig k k' m m' : (k < k')%nat → match_at sig k = Ok (Some m) → match_at sig k' = Ok (Some m') → (m_last m < m_first m')%nat.
Proof.
  intros Hk Hm Hm'.
  destruct (match_at_inv sig k _ Hm) as (ta & to & ver & spec & post & Ka & Ko & Hv & Hd & _ & _ & Hlast & _); [done|].
  destruct (match_at_inv sig k' _ Hm') as (ta' & to' & ver' & spec' & post' & Ka' & Ko' & Hv' & Hd' & Hr' & _ & _ & b & ctx & Hb & Ec & Hc); [done|].
  apply relation_at_Ok in Hr' as (rel & Hrel & Hk' & Hdrop). specialize (Hdrop _ Hd').
  assert (∀ i t, ([ta; to] ++ ver ++ post) !! i = Some t → toks sig !! (k + i)%nat = Some t) as Hat by (intros i t; rewrite <-Hd, lookup_drop; done).
  assert (∀ i t, (ctx :: rel ++ [ta'; to'] ++ ver' ++ post') !! i = Some t → toks sig !! (b + i)%nat = Some t) as Hat'.
  { intros [|i] t; [intros [= <-]; by rewrite Nat.add_0_r|]. change ((ctx :: ?l) !! S i) with (l !! i). rewrite <-Hdrop, lookup_drop, Hb. intros <-. f_equal. lia. }
  destruct (Nat.lt_ge_cases (m_last m) (m_first m')) as [|Hle]; [done|exfalso]. rewrite Hlast, Hb in Hle.
  pose proof (Hat 0%nat ta eq_refl) as A0. pose proof (Hat 1%nat to eq_refl) as A1. pose proof (Hat' 0%nat ctx eq_refl) as B0.
  destruct Hrel as [t w Hw|t0 w0 t w Hw0 Hw]; cbn [length app] in *.
  - pose proof (Hat' 1%nat t eq_refl) as B1. pose proof (Hat' 2%nat ta' eq_refl) as B2. clear Hat'.
    assert (b = k ∨ b = S k ∨ b = S (S k) ∨ k = S b) as [?|[?|[?|?]]] by (destruct Hv; cbn in *; lia);
      destruct Hv; cbn [length] in *; pose proof (Hat 2%nat _ eq_refl) as A2; try pose proof (Hat 3%nat _ eq_refl) as A3; clear Hat; clash.
  - pose proof (Hat' 1%nat t0 eq_refl) as B1. pose proof (Hat' 2%nat TPeriod eq_refl) as B2. pose proof (Hat' 3%nat t eq_refl) as B3. pose proof (Hat' 4%nat ta' eq_refl) as B4. clear Hat'.
    assert (b = k ∨ b = S k ∨ b = S (S k) ∨ k = S b ∨ k = S (S b) ∨ k = S (S (S b))) as [?|[?|[?|[?|[?|?]]]]] by (destruct Hv; cbn in *; lia);
      destruct Hv; cbn [length] in *; pose proof (Hat 2%nat _ eq_refl) as A2; try pose proof (Hat 3%nat _ eq_refl) as A3; clear Hat; clash.
Qed.

(** *** The search *)
Lemma find_loop_ms sql tokens sig ks :
  match find_loop sql tokens sig ks with
  | Ok out => ∃ ms, Forall2 (λ m o, located sql tokens sig m = Ok o) ms out ∧ ms = omap (λ k, match match_at sig k with Ok m => m | Err _ => None end) ks
  | Err e => (∃ k, match_at sig k = Err e) ∨ ∃ k m, match_at sig k = Ok (Some m) ∧ located sql tokens sig m = Err e
  end.
Proof.
  induction ks as [|k ks IH]; [by exists []|]. cbn [find_loop omap list_omap].
  destruct (match_at sig k) as [[m|]|e] eqn:Em; cbn [mbind result_bind]; [|exact IH|left; by exists k].
  destruct (located sql tokens sig m) as [o|e] eqn:El; cbn [mbind result_bind]; [|right; by exists k, m].
  destruct (find_loop sql tokens sig ks) as [out|e]; cbn [mbind result_bind]; [|exact IH]. destruct IH as (ms & Hf & ->). eexists. split; [by constructor|done].
Qed.
Lemma match_at_bound sig k m : match_at sig k = Ok (Some m) → (k < length sig)%nat.
Proof.
  intros Hm. destruct (match_at_inv sig k _ Hm) as (ta & to & ver & spec & post & _ & _ & _ & Hd & _); [done|].
  destruct (Nat.lt_ge_cases k (length sig)) as [|Hge]; [done|]. rewrite drop_ge in Hd by (unfold toks; by rewrite length_fmap). done.
Qed.
(** Matches, in the order of their keywords. *)
Definition matches (sig : Sig) : list Match :=
  omap (λ k, match match_at sig k with Ok m => m | Err _ => None end) (seq 0 (length sig)).
Lemma in_matches sig m : m ∈ matches sig ↔ sugar sig m.
Proof.
  unfold matches. rewrite list_elem_of_omap. split.
  - intros (k & _ & Hk). destruct (match_at sig k) as [r|] eqn:E; [subst r|done]. by eapply match_at_sugar.
  - intros Hs. destruct (sugar_match sig m Hs) as [k Hk]. exists k. rewrite Hk. split; [|done]. apply elem_of_seq. apply match_at_bound in Hk. lia.
Qed.
Definition apart (m m' : Match) : Prop := (m_last m < m_first m')%nat.
Lemma matches_sorted sig : StronglySorted apart (matches sig).
Proof.
  unfold matches. generalize (length sig) as n, 0%nat as i. induction n as [|n IH]; intros i; cbn; [constructor|].
  destruct (match_at sig i) as [[m|]|] eqn:E; [|apply IH|apply IH]. constructor; [apply IH|]. apply Forall_forall. intros m' Hm'.
  apply list_elem_of_omap in Hm' as (k & Hk%elem_of_seq & Hm'). destruct (match_at sig k) as [r|] eqn:E'; [subst r|done].
  eapply (matches_apart sig i k); [lia|done|done].
Qed.

(** *** Places in the text *)
Lemma significant_raw tokens pos it : significant tokens !! pos = Some it → tokens !! (fst it) = Some (snd it).
Proof.
  intros Hp. apply list_elem_of_lookup_2, list_elem_of_In, filter_In in Hp as [Hin _]. apply list_elem_of_In, list_elem_of_lookup in Hin as [i Hi].
  apply lookup_zip_with_Some in Hi as (a & t & -> & Ha & Ht). apply lookup_seq in Ha as [-> _]. done.
Qed.
Definition off (sql : list byte) (i : nat) : nat := length (concat (take i (texts_of sql))).
Definition raw (sig : Sig) (pos : nat) : nat := default 0%nat (fst <$> sig !! pos).
Lemma located_ok sql tokens m :
  tokenize_with_location sql = Some tokens → sugar (significant tokens) m →
  located sql tokens (significant tokens) m = Ok {| o_start := off sql (raw (significant tokens) (m_first m)); o_end := off sql (S (raw (significant tokens) (m_last m)));
    o_namespace := m_namespace m; o_table := m_table m; o_spec := m_spec m |}.
Proof.
  intros Ht Hs. destruct (tokenizer_law sql tokens Ht) as (Hlen & Hcat & Hloc). set (sig := significant tokens) in *.
  assert (∀ i t, tokens !! i = Some t → byte_offset sql (span_start t) = Some (off sql i)) as Hoff.
  { intros i t Hi. destruct (Hloc i t Hi) as [-> Hst]. rewrite <-Hcat at 1. rewrite <-(take_drop i (texts_of sql)) at 1. rewrite concat_app. by apply byte_offset_prefix. }
  destruct Hs as (pre & ctx & rel & ta & to & ver & post & Htk & _ & Hrel & _ & _ & Hv & Hf & Hl).
  assert (length sig = length (toks sig)) as Hsl by (unfold toks; by rewrite length_fmap). rewrite Htk, !length_app in Hsl. cbn in Hsl.
  assert (1 <= length rel)%nat as Hr1 by (destruct Hrel; cbn; lia). assert (1 <= length ver)%nat as Hv1 by (destruct Hv; cbn; lia).
  destruct (lookup_lt_is_Some_2 sig (m_first m)) as [it Eit]; [lia|].
  unfold located, start_of, raw. rewrite Eit. rewrite (Hoff (fst it)) by (by eapply significant_raw). cbn [ok_or mbind result_bind fmap option_fmap option_map default from_option].
  set (b := default 0%nat (fst <$> sig !! m_last m)). change (match fst <$> sig !! m_last m with Some x => x | None => 0%nat end) with b.
  destruct (tokens !! S b) as [next|] eqn:En; [by rewrite (Hoff (S b) next En)|]. cbn [mbind result_bind]. do 2 f_equal.
  unfold off. rewrite take_ge; [by rewrite Hcat|]. rewrite Hlen. by apply lookup_ge_None.
Qed.

(** *** The order of the places *)
Lemma significant_sorted tokens : StronglySorted (λ a b : nat * TokenWithSpan, (fst a < fst b)%nat) (significant tokens).
Proof.
  unfold significant. generalize 0%nat as i. induction tokens as [|t tokens IH]; intros i; cbn; [constructor|].
  destruct (token t) eqn:Et; [apply IH|..]; (constructor; [apply IH|]; apply Forall_forall; intros [j u] Hj%list_elem_of_In%filter_In; cbn;
    destruct Hj as [Hj%list_elem_of_In _]; apply elem_of_zip_l, elem_of_seq in Hj; lia).
Qed.
Lemma sorted_lookup {A} (R : A → A → Prop) l i j a b : StronglySorted R l → (i < j)%nat → l !! i = Some a → l !! j = Some b → R a b.
Proof.
  intros Hs. revert i j. induction Hs as [|c l Hs IH Hc]; intros [|i] [|j] Hij Ha Hb; try done; cbn in *; [lia| |lia|apply (IH i j); [lia|done|done]].
  injection Ha as <-. rewrite Forall_forall in Hc. apply Hc. by eapply list_elem_of_lookup_2.
Qed.
Lemma raw_lt tokens i j : (i < j)%nat → (j < length (significant tokens))%nat → (raw (significant tokens) i < raw (significant tokens) j < length tokens)%nat.
Proof.
  intros Hij Hj. destruct (lookup_lt_is_Some_2 (significant tokens) j Hj) as [b Eb]. destruct (lookup_lt_is_Some_2 (significant tokens) i) as [a Ea]; [lia|].
  unfold raw. rewrite Ea, Eb. cbn. split; [by apply (sorted_lookup _ _ i j a b (significant_sorted tokens))|]. apply significant_raw in Eb. by eapply lookup_lt_Some.
Qed.
Lemma sugar_bounds sig m : sugar sig m → (m_first m < m_last m)%nat ∧ (m_last m < length sig)%nat.
Proof.
  intros (pre & ctx & rel & ta & to & ver & post & Htk & _ & Hrel & _ & _ & Hv & Hf & Hl).
  assert (length sig = length (toks sig)) as Hsl by (unfold toks; by rewrite length_fmap). rewrite Htk, !length_app in Hsl. cbn in Hsl.
  assert (1 <= length rel)%nat by (destruct Hrel; cbn; lia). lia.
Qed.
(** The matches from a token on, one behind the other. *)
Fixpoint ordered (tokens : list TokenWithSpan) (i : nat) (ms : list Match) : Prop :=
  match ms with
  | [] => True
  | m :: ms =>
    let a := raw (significant tokens) (m_first m) in
    let b := raw (significant tokens) (m_last m) in
    (i <= a)%nat ∧ (a < b)%nat ∧ (b < length tokens)%nat ∧ ordered tokens (S b) ms
  end.
Lemma matches_ordered tokens ms i :
  StronglySorted apart ms → (∀ m, m ∈ ms → sugar (significant tokens) m) → (∀ m, m ∈ ms → (i <= raw (significant tokens) (m_first m))%nat) → ordered tokens i ms.
Proof.
  intros Hs. revert i. induction Hs as [|m ms Hs IH Hm]; intros i Hsug Hi; [done|]. cbn.
  destruct (sugar_bounds _ _ (Hsug m ltac:(by left))) as [Hfl Hl]. destruct (raw_lt tokens _ _ Hfl Hl) as [H1 H2].
  split_and!; [apply Hi; by left|done|done|]. apply IH; [intros; apply Hsug; by right|]. intros m' Hm'. rewrite Forall_forall in Hm. specialize (Hm m' Hm').
  destruct (sugar_bounds _ _ (Hsug m' ltac:(by right))) as [Hfl' Hl']. destruct (raw_lt tokens _ (m_first m') Hm) as [H3 _]; [lia|]. lia.
Qed.

(** ** Resolution and gate *)

(** The entry found is the last of the log that is not after the instant. *)
Lemma snapshot_at_Ok log known ts id :
  snapshot_at log known ts = Ok id ↔
  known id = true ∧ ∃ pre t post, log = pre ++ (t, id) :: post ∧ (t <= ts)%Z ∧ Forall (λ e, (ts < fst e)%Z) post.
Proof.
  assert (∃ l, log = rev l) as [l ->] by (exists (rev log); by rewrite rev_involutive). unfold snapshot_at. rewrite rev_involutive.
  assert (∀ e, List.find (λ e, (fst e <=? ts)%Z) l = Some e ↔ ∃ pre post, rev l = pre ++ e :: post ∧ (fst e <= ts)%Z ∧ Forall (λ e, (ts < fst e)%Z) post) as Hfind.
  { intros e. induction l as [|x l IH]; cbn; [split; [done|]; intros (pre & post & Hn & _); by destruct pre|]. destruct (Z.leb_spec (fst x) ts).
    - split; [intros [= <-]; by exists (rev l), []|]. intros (pre & post & He & Hle & Hpost). destruct post as [|y post _] using rev_ind.
      + apply app_inj_tail in He as [_ ->]. done.
      + rewrite app_comm_cons, app_assoc in He. apply app_inj_tail in He as [_ ->]. apply Forall_app in Hpost as [_ Hy]. apply Forall_cons in Hy as [Hy _]. lia.
    - rewrite IH. split; intros (pre & post & He & Hle & Hpost).
      + exists pre, (post ++ [x]). split_and!; [by rewrite He, <-app_assoc|done|]. apply Forall_app. split; [done|by repeat constructor].
      + destruct post as [|y post _] using rev_ind; [apply app_inj_tail in He as [_ ->]; lia|]. rewrite app_comm_cons, app_assoc in He. apply app_inj_tail in He as [He _].
        apply Forall_app in Hpost as [Hpost _]. by exists pre, post. }
  split.
  - intros ([t i] & Hf%ok_or_Ok & Hr)%bind_Ok. apply bind_Ok in Hr as ([] & Hk & [= <-]). unfold ensure in Hk. destruct (known i) eqn:Ek; [|done].
    apply Hfind in Hf as (pre & post & He & Ht & Hp). split; [done|]. by exists pre, t, post.
  - intros (Hk & pre & t & post & He & Ht & Hp). rewrite (proj2 (Hfind (t, id))) by (by exists pre, post). cbn. by rewrite Hk.
Qed.
(** The gate lets no statement through unsearched that has [AS], white space and
    [OF] as words. *)
Lemma gate_complete pre a s_ c ws o f post :
  letter Byte.x61 a = true → letter Byte.x73 s_ = true → letter Byte.x6f o = true → letter Byte.x66 f = true →
  boundary (last pre) = true → boundary (head post) = true → forallb is_ascii_whitespace (c :: ws) = true →
  might_contain_as_of (pre ++ [a; s_] ++ (c :: ws) ++ [o; f] ++ post) = true.
Proof.
  intros Ha Hs Ho Hf Hpre Hpost Hws. unfold might_contain_as_of.
  assert (∀ prev, boundary (match last pre with Some b => Some b | None => prev end) = true → scan_as_of prev (pre ++ [a; s_] ++ (c :: ws) ++ [o; f] ++ post) = true) as Hscan; [|apply Hscan; by destruct (last pre)].
  clear Hpre. assert (then_of ((c :: ws) ++ [o; f] ++ post) = true) as Hthen.
  { cbn in Hws. apply andb_true_iff in Hws as [Hc Hws]. cbn [then_of app]. assert (is_word c = false) as -> by (destruct c; done). cbn [negb andb].
    assert (is_ascii_whitespace o = false) as Hoo by (unfold letter in Ho; apply bool_decide_eq_true in Ho; by destruct o).
    assert (skip_whitespace (c :: ws ++ o :: f :: post) = o :: f :: post) as ->; [|by rewrite Ho, Hf].
    cbn [skip_whitespace]. rewrite Hc. clear Hc. induction ws as [|d ws IH]; cbn in *; [by rewrite Hoo|]. apply andb_true_iff in Hws as [-> Hws]. by apply IH. }
  induction pre as [|x pre IH]; intros prev Hb.
  - cbn [app]. cbn [scan_as_of]. cbn in Hb. cbn [app] in Hthen. by rewrite Ha, Hs, Hb, Hthen.
  - assert (boundary (match last pre with Some b => Some b | None => Some x end) = true) as Hb' by (rewrite last_cons in Hb; by destruct (last pre)).
    specialize (IH _ Hb'). destruct pre as [|y pre]; cbn [app scan_as_of] in *; apply orb_true_iff; by right.
Qed.

(** ** The splice *)
Definition resolved (m : Match) (id : Z) : Prop :=
  ∃ w w' md, load_as_of (ident_of (m_namespace m) (m_table m)) w = (w', Ok md) ∧ resolve md (m_spec m) = Ok id.
Definition unresolved (m : Match) (e : string) : Prop :=
  ∃ w w' r, load_as_of (ident_of (m_namespace m) (m_table m)) w = (w', r) ∧ (r ≫= λ md, resolve md (m_spec m)) = Err e.
(** Each match's name in place of its tokens, the other tokens' text as it is. *)
Fixpoint rendered (texts : list (list byte)) (i : nat) (sig : Sig) (versions : list (Match * Z)) : list byte :=
  match versions with
  | [] => concat (drop i texts)
  | (m, id) :: versions =>
    concat (take (raw sig (m_first m) - i) (drop i texts)) ++ replacement (m_namespace m) (m_table m) id ++ str_bytes " " ++
    rendered texts (S (raw sig (m_last m))) sig versions
  end.
Definition occurrence (sql : list byte) (sig : Sig) (m : Match) : Occurrence :=
  {| o_start := off sql (raw sig (m_first m)); o_end := off sql (S (raw sig (m_last m)));
     o_namespace := m_namespace m; o_table := m_table m; o_spec := m_spec m |}.
Lemma off_le sql a b : (a <= b)%nat → (off sql a <= off sql b)%nat.
Proof.
  intros Hab. unfold off. replace b with (a + (b - a))%nat by lia. rewrite <-take_take_drop, concat_app, length_app. lia.
Qed.
Lemma take_off sql a b : (a <= b)%nat → take (off sql a) (concat (take b (texts_of sql))) = concat (take a (texts_of sql)).
Proof. intros Hab. replace b with (a + (b - a))%nat by lia. rewrite <-take_take_drop, concat_app. by apply take_app_length. Qed.
Lemma splice_all_spec sql tokens ms :
  tokenize_with_location sql = Some tokens → ∀ i w w' r, ordered tokens i ms →
  splice_all (map (occurrence sql (significant tokens)) ms) sql w = (w', r) →
  match r with
  | Ok out => ∃ ids, Forall2 resolved ms ids ∧ out = concat (take i (texts_of sql)) ++ rendered (texts_of sql) i (significant tokens) (zip ms ids)
  | Err e => ∃ m, m ∈ ms ∧ unresolved m e
  end.
Proof.
  intros Ht. destruct (tokenizer_law sql tokens Ht) as (_ & Hcat & _). set (sig := significant tokens).
  induction ms as [|m ms IH]; intros i w w' r Ho.
  { intros [= <- <-]. exists []. split; [constructor|]. cbn. by rewrite <-concat_app, take_drop. }
  destruct Ho as (Hia & Hab & _ & Ho). fold sig in Hia, Hab, Ho. set (a := raw sig (m_first m)) in *. set (b := raw sig (m_last m)) in *. cbn [map splice_all].
  intros [(e & Hs & ->)|(out' & w1 & Hs & Hr)]%bind_inv; specialize (IH _ _ _ _ Ho Hs); cbn in IH.
  { destruct IH as (m' & Hm' & Hu). exists m'. split; [by right|done]. }
  destruct IH as (ids & Hids & ->). unfold splice in Hr. cbn [occurrence o_namespace o_table o_spec o_start o_end] in Hr. fold a b in Hr.
  apply bind_inv in Hr as [(e & Hl & ->)|(md & w2 & Hl & Hr)]; [exists m; split; [by left|]; by exists w1, w', (Err e)|].
  apply bind_inv in Hr as [(e & Hi & ->)|(id & w3 & Hi & Hr)]; [injection Hi as <- Hi; exists m; split; [by left|]; by exists w1, w2, (Ok md)|].
  injection Hi as <- Hi. unfold replace_range in Hr. rewrite length_app in Hr. fold (off sql (S b)) in Hr.
  rewrite (proj2 (Nat.leb_le _ _)) in Hr by (apply off_le; lia). rewrite (proj2 (Nat.leb_le _ _)) in Hr by lia. cbn [andb] in Hr. injection Hr as <- <-.
  exists (id :: ids). split; [constructor; [by exists w1, w2, md|done]|]. cbn [zip zip_with rendered]. fold a b.
  rewrite take_app_le by (apply (off_le sql a (S b)); lia). rewrite take_off by lia. unfold off. rewrite drop_app_length.
  replace a with (i + (a - i))%nat at 1 by lia. rewrite <-take_take_drop, concat_app, <-!app_assoc. done.
Qed.
Lemma sort_ordered sql tokens i ms :
  ordered tokens i ms → sort_by_start (map (occurrence sql (significant tokens)) ms) = map (occurrence sql (significant tokens)) ms.
Proof.
  unfold sort_by_start. revert i. induction ms as [|m ms IH]; intros i Ho; [done|]. destruct Ho as (_ & Hab & _ & Ho). cbn [map foldr]. rewrite (IH _ Ho).
  destruct ms as [|m' ms]; [done|]. destruct Ho as (Hle & _). cbn. rewrite (proj2 (Nat.leb_le _ _)); [done|]. apply off_le. lia.
Qed.

End Rewrite.
