(* ===== verification/Overlay.v ===== *)
(** * What reads see of the buffer (src/icegres/src/buffer.rs)

    The union overlay of a scan, the tail window of the open tail API, and the
    table map around the entries of [Buffer]. *)
From stdpp Require Import sorting.
From S2P Require Import Prelude Text TailNames Tail Keyed Buffer.
#[local] Open Scope N_scope.

Section Overlay.
Context {RecordBatch ArrayRef : Type} `{Columnar RecordBatch ArrayRef}.
#[local] Abbreviation TableBuf := (TableBuf (RecordBatch:=RecordBatch)).

(** ** The overlay *)
Record Layer := {
  ly_appends : list RecordBatch; ly_upserts : list RecordBatch; ly_keys : gset (list byte);
}.
Definition upsert_row (op : KeyedOp (RecordBatch:=RecordBatch)) : option RecordBatch :=
  match ko_kind op with KUpsertRow row => Some row | KDeleteRow => None end.
Definition gen_layer (g : FlushedGen) : Layer :=
  {| ly_appends := map snd (fg_batches g);
     ly_upserts := omap (λ '(_, _, op), upsert_row op) (fg_keyed g);
     ly_keys := list_to_set (map (λ '(k, _, _), k) (fg_keyed g)) |}.
Definition pending_layer (t : TableBuf) : Layer :=
  let entries := match keyed t with Some k => keyed_list k | None => [] end in
  {| ly_appends := map pb_batch (pending t);
     ly_upserts := omap (λ '(_, _, op), upsert_row op) entries;
     ly_keys := list_to_set (map (λ '(k, _, _), k) entries) |}.
Definition layers_of (is_committed : GenCommit → bool) (t : TableBuf) : list Layer :=
  map gen_layer (List.filter (λ g, negb (is_committed (fg_commit g))) (flushed t)) ++ [pending_layer t].

(** The keys of every layer behind each layer. *)
Fixpoint suffix_keys (layers : list Layer) : list (gset (list byte)) :=
  match layers with
  | [] => []
  | _ :: layers => ⋃ (map ly_keys layers) :: suffix_keys layers
  end.

(** Hide rows, and keep the batches that have any left. *)
Fixpoint suppressed (batches : list RecordBatch) (pk_cols : list (list byte)) (keys : gset (list byte))
    : result (list RecordBatch) :=
  match batches with
  | [] => Ok []
  | b :: batches =>
    filtered ← suppress_batch b pk_cols keys;
    rest ← suppressed batches pk_cols keys;
    Ok (if (0 <? num_rows filtered)%nat then filtered :: rest else rest)
  end.
Fixpoint overlay_batches (pk_cols : list (list byte)) (layers : list Layer) (suffix : list (gset (list byte)))
    : result (list RecordBatch) :=
  match layers, suffix with
  | layer :: layers, newer :: suffix =>
    appends ← suppressed (ly_appends layer) pk_cols (newer ∪ ly_keys layer);
    upserts ← suppressed (ly_upserts layer) pk_cols newer;
    rest ← overlay_batches pk_cols layers suffix;
    Ok (appends ++ upserts ++ rest)
  | _, _ => Ok []
  end.

(** [overlay_with]; the excluded generations become observed. *)
Definition overlay_with (is_committed : GenCommit → bool) (t : TableBuf)
    : TableBuf * result (option Overlay) :=
  let layers := layers_of is_committed t in
  let t := note_observed is_committed t in
  (t,
   if forallb (λ l, bool_decide (ly_keys l = ∅)) layers then
     match concat (map ly_appends layers) with
     | [] => Ok None
     | batches => Ok (Some {| ov_schema := tb_schema t; ov_batches := batches; ov_suppress := None |})
     end
   else
     pk_cols ← ok_or (ks_pk_cols <$> keyed t) "keyed generations without keyed state";
     batches ← overlay_batches pk_cols layers (suffix_keys layers);
     let all_keys := ⋃ (map ly_keys layers) in
     match batches, bool_decide (all_keys = ∅) with
     | [], true => Ok None
     | _, none => Ok (Some {| ov_schema := tb_schema t; ov_batches := batches;
                              ov_suppress := if none then None
                                             else Some {| os_pk_cols := pk_cols; os_keys := all_keys |} |})
     end).

(** ** The tail window *)
Definition tail_item (seq : option N) (kind : TailEventKind) (batch : RecordBatch) : result TailItem :=
  q ← ok_or seq "tail snapshot unavailable: a buffered op carries no tail sequence";
  Ok {| ti_seq := q; ti_kind := kind; ti_batch := batch |}.
Definition keyed_item (op : KeyedOp) : result TailItem :=
  match ko_kind op with
  | KUpsertRow row => tail_item (ko_seq op) EUpsert row
  | KDeleteRow => tail_item (ko_seq op) EDelete (ko_key_row op)
  end.
Definition window_items (t : TableBuf) : list (result TailItem) :=
  concat (map (λ g, map (λ '(seq, b), tail_item seq EAppend b) (fg_batches g) ++
                    map (λ '(_, _, op), keyed_item op) (fg_keyed g)) (flushed t)) ++
  map (λ p, tail_item (pb_seq p) EAppend (pb_batch p)) (pending t) ++
  match keyed t with Some k => map (λ '(_, _, op), keyed_item op) (keyed_list k) | None => [] end.
Definition by_seq (a b : TailItem (RecordBatch:=RecordBatch)) : Prop := ti_seq a ≤ ti_seq b.
#[export] Instance by_seq_dec a b : Decision (by_seq a b).
Proof. unfold by_seq. apply _. Defined.

(** [BufferState::tail_snapshot] *)
Definition tail_snapshot (declared : option (list (list byte))) (t : TableBuf)
    : result (TailWindowSnapshot (RecordBatch:=RecordBatch)) :=
  all ← map_result id (window_items t);
  let sorted := merge_sort by_seq all in
  let items := if bool_decide (undurable t = ∅) then sorted
               else List.filter (λ i, negb (bool_decide (ti_seq i ∈ undurable t))) sorted in
  let high := if bool_decide (undurable t = ∅) then default 0 (tail_high t)
              else foldr N.max 0 (map ti_seq items) in
  Ok {| tw_schema := tb_schema t;
        tw_pk_cols := default [] (match keyed t with Some k => Some (ks_pk_cols k) | None => declared end);
        tw_high := high; tw_items := items |}.

(** ** The tables *)
Record BufferState := {
  bs_tables : gmap TableIdent TableBuf;
  bs_declared_pks : gmap TableIdent (list (list byte));
}.
Definition with_tables (m : gmap TableIdent TableBuf) (s : BufferState) : BufferState :=
  {| bs_tables := m; bs_declared_pks := bs_declared_pks s |}.
Definition on_table (ident : TableIdent) (f : TableBuf → TableBuf) (s : BufferState) : BufferState :=
  with_tables (alter f ident (bs_tables s)) s.
Definition contains (ident : TableIdent) (s : BufferState) : bool :=
  bool_decide (is_Some (bs_tables s !! ident)).
(** The entry, made from the schema on first touch. *)
Definition first_touch (ident : TableIdent) (schema_if_first : option Schema) (s : BufferState)
    : result TableBuf :=
  match bs_tables s !! ident with
  | Some t => Ok t
  | None => schema ← ok_or schema_if_first "write-buffer schema disappeared"; Ok (empty_buf schema)
  end.
Definition entry_pending (t : TableBuf) : bool :=
  match pending t with [] => false | _ => true end ||
  match keyed t with Some k => negb (bool_decide (ks_entries k = ∅)) | None => false end.
Definition has_pending (s : BufferState) : bool :=
  existsb (λ '(_, t), entry_pending t) (map_to_list (bs_tables s)).
Definition pending_idents (s : BufferState) : list TableIdent :=
  map fst (List.filter (λ '(_, t), entry_pending t) (map_to_list (bs_tables s))).
Definition retain_flushed (now : N) (s : BufferState) : BufferState :=
  with_tables (gc_entry now <$> bs_tables s) s.
Definition note_declared_pk (ident : TableIdent) (pk_cols : option (list (list byte))) (s : BufferState)
    : BufferState :=
  {| bs_tables := bs_tables s;
     bs_declared_pks := match pk_cols with
                        | Some cols => <[ident := cols]> (bs_declared_pks s)
                        | None => delete ident (bs_declared_pks s)
                        end |}.

(** [BufferState::append], [keyed_write]: the critical section that stages. *)
Section Stage.
Context {T : Type} `{TailStore T RecordBatch}.
Definition append (ident : TableIdent) (schema_if_first : option Schema) (batches : list RecordBatch)
    (tail : option T) (replay_seq : option N) (s : BufferState)
    : option T * BufferState * result (Staged (RecordBatch:=RecordBatch)) :=
  match first_touch ident schema_if_first s with
  | Err e => (tail, s, Err e)
  | Ok t =>
    let '(tail, t, r) := append_entry ident batches tail replay_seq t in
    (tail, with_tables (<[ident := t]> (bs_tables s)) s, r)
  end.
Definition keyed_write (ident : TableIdent) (schema_if_first : option Schema) (pk_cols : list (list byte))
    (key : list byte) (op : KeyedOp) (tail : option T) (s : BufferState)
    : option T * BufferState * result (Staged (RecordBatch:=RecordBatch) * nat) :=
  match first_touch ident schema_if_first s with
  | Err e => (tail, s, Err e)
  | Ok t =>
    let '(tail, t, r) := keyed_entry ident pk_cols key op tail t in
    (tail, with_tables (<[ident := t]> (bs_tables s)) s, r)
  end.
End Stage.

(** The durability wait's end, in its own critical section. *)
Definition after_wait (ident : TableIdent) (st : Staged (RecordBatch:=RecordBatch)) (durable : bool)
    (s : BufferState) : BufferState :=
  match sg_wait st with
  | Some seq => on_table ident (if durable then note_durable seq else unroute_failed seq (sg_routed st)) s
  | None => s
  end.
End Overlay.
