(* ===== verification/OverlayView.v ===== *)
(** * The union view

    What a scan gives: the committed rows and the overlay.  The overlay is the
    fold of the buffer's layers, and the flush's hand-over of a prefix of the
    window to a commit does not change it. *)
From stdpp Require Import sorting.
From S2P Require Import Prelude Text TailNames Tail Keyed Buffer Overlay.
#[local] Open Scope N_scope.

(** ** Hiding rows *)
Section Hide.
Context {A : Type} (key : A → list byte).
Definition hide (K : gset (list byte)) (l : list A) : list A :=
  List.filter (λ a, negb (bool_decide (key a ∈ K))) l.

Lemma hide_app K l1 l2 : hide K (l1 ++ l2) = hide K l1 ++ hide K l2.
Proof. apply List.filter_app. Qed.

Lemma hide_hide K1 K2 l : hide K1 (hide K2 l) = hide (K1 ∪ K2) l.
Proof.
  induction l as [|a l IH]; [done|]. unfold hide in *. cbn [List.filter].
  destruct (decide (key a ∈ K2)) as [H2|H2].
  - rewrite (bool_decide_true (key a ∈ K2)) by done.
    rewrite (bool_decide_true (key a ∈ K1 ∪ K2)) by set_solver. done.
  - rewrite (bool_decide_false (key a ∈ K2)) by done. cbn [negb List.filter].
    destruct (decide (key a ∈ K1)).
    + rewrite !bool_decide_true by set_solver. done.
    + rewrite !bool_decide_false by set_solver. cbn. by rewrite IH.
Qed.

Lemma hide_id K l : (∀ a, a ∈ l → key a ∉ K) → hide K l = l.
Proof.
  intros Hl. induction l as [|a l IH]; [done|]. unfold hide in *. cbn.
  rewrite bool_decide_false by (apply Hl; set_solver). cbn. f_equal. apply IH. set_solver.
Qed.

Lemma hide_none K l : (∀ a, a ∈ l → key a ∈ K) → hide K l = [].
Proof.
  intros Hl. induction l as [|a l IH]; [done|]. unfold hide in *. cbn.
  rewrite bool_decide_true by (apply Hl; set_solver). apply IH. set_solver.
Qed.

Lemma hide_empty l : hide ∅ l = l.
Proof. apply hide_id. set_solver. Qed.

Lemma hide_perm K l l' : l ≡ₚ l' → hide K l ≡ₚ hide K l'.
Proof.
  induction 1 as [|a l l' _ IH|a b l|l1 l2 l3 _ IH1 _ IH2]; [done| | |by etrans]; unfold hide in *; cbn.
  - case_match; [by constructor|done].
  - do 2 case_match; by repeat constructor.
Qed.

Lemma hide_ext K K' l : (∀ a, a ∈ l → key a ∈ K ↔ key a ∈ K') → hide K l = hide K' l.
Proof.
  intros Hl. induction l as [|a l IH]; [done|]. unfold hide in *. cbn.
  rewrite IH by (intros; apply Hl; set_solver).
  by rewrite (bool_decide_ext (key a ∈ K) (key a ∈ K')) by (apply Hl; set_solver).
Qed.

Lemma elem_of_hide K l a : a ∈ hide K l ↔ a ∈ l ∧ key a ∉ K.
Proof.
  unfold hide. rewrite !list_elem_of_In, filter_In. by rewrite negb_true_iff, bool_decide_eq_false.
Qed.
End Hide.

#[local] Arguments hide : simpl never.

Section View.
Context {RecordBatch ArrayRef Row : Type} `{ColumnarLaws RecordBatch ArrayRef Row}.
#[local] Abbreviation TableBuf := (TableBuf (RecordBatch:=RecordBatch)).
#[local] Abbreviation Layer := (Layer (RecordBatch:=RecordBatch)).

#[local] Arguments batch_rows : simpl never.
#[local] Abbreviation hidek idx := (hide (row_key idx)).

Lemma elem_of_batch_rows r bs : r ∈ batch_rows bs ↔ ∃ b, b ∈ bs ∧ r ∈ rows_of b.
Proof.
  induction bs as [|b bs IH].
  { split; [intros Hr; by apply not_elem_of_nil in Hr|intros (b & Hb & _); by apply not_elem_of_nil in Hb]. }
  rewrite batch_rows_cons, elem_of_app, IH. setoid_rewrite elem_of_cons. naive_solver.
Qed.

Lemma masked_hide idx K (l : list Row) :
  masked (map (λ k, negb (bool_decide (k ∈ K))) (map (row_key idx) l)) l = hidek idx K l.
Proof.
  unfold masked, hide. induction l as [|a l IH]; [done|]. cbn.
  case_bool_decide; cbn; [done|by rewrite IH].
Qed.

Lemma suppress_batch_rows b pk K b' idx :
  pk_indices (schema_of b) pk = Ok idx → suppress_batch b pk K = Ok b' →
  rows_of b' = hidek idx K (rows_of b) ∧ schema_of b' = schema_of b.
Proof.
  intros Hidx Hs. unfold suppress_batch in Hs. destruct (_ || _) eqn:E.
  - apply Ok_inj in Hs as ->. split; [|done]. apply orb_prop in E as [E|E].
    + apply bool_decide_eq_true in E as ->. by rewrite hide_empty.
    + apply Nat.eqb_eq in E. rewrite num_rows_of in E. by destruct (rows_of b').
  - apply bind_Ok in Hs as (ks & Hk & Hf). unfold encode_batch_keys in Hk. rewrite Hidx in Hk. simpl in Hk.
    apply convert_of in Hk as ->. apply filter_of in Hf as [Hr Hsch].
    + by rewrite Hr, masked_hide.
    + by rewrite !length_map, num_rows_of.
Qed.

Lemma suppressed_rows bs pk K bs' idx s :
  pk_indices s pk = Ok idx → (∀ b, b ∈ bs → schema_of b = s) → suppressed bs pk K = Ok bs' →
  batch_rows bs' = hidek idx K (batch_rows bs).
Proof.
  intros Hidx. revert bs'. induction bs as [|b bs IH]; intros bs' Hb Hs; cbn in Hs.
  { by apply Ok_inj in Hs as <-. }
  apply bind_Ok in Hs as (f & Hf & Hs). apply bind_Ok in Hs as (rest & Hrest & Hs). apply Ok_inj in Hs as <-.
  apply suppress_batch_rows with (idx := idx) in Hf as [Hf _]; [|rewrite Hb; [done|set_solver]].
  apply IH in Hrest; [|set_solver]. rewrite (batch_rows_cons b), hide_app, <-Hrest, <-Hf.
  rewrite num_rows_of. destruct (rows_of f) eqn:E; [done|]. unfold batch_rows. cbn. by rewrite E.
Qed.

(** ** Layers *)

(** What a layer does to the rows under it: append, delete by key, append. *)
Definition apply_layer (idx : list nat) (rows : list Row) (l : Layer) : list Row :=
  hidek idx (ly_keys l) (rows ++ batch_rows (ly_appends l)) ++ batch_rows (ly_upserts l).
Definition layers_view (idx : list nat) (rows : list Row) (ls : list Layer) : list Row :=
  foldl (apply_layer idx) rows ls.
Definition view (idx : list nat) (is_committed : GenCommit → bool) (rows : list Row) (t : TableBuf) : list Row :=
  layers_view idx rows (layers_of is_committed t).

(** What a scan adds to the committed rows. *)
Definition overlaid (idx : list nat) (rows : list Row) (o : option Overlay) : list Row :=
  match o with
  | None => rows
  | Some o =>
    match ov_suppress o with Some s => hidek idx (os_keys s) rows | None => rows end ++
    batch_rows (ov_batches o)
  end.

Definition has_schema (s : Schema) (l : Layer) : Prop :=
  ∀ b, b ∈ ly_appends l ++ ly_upserts l → schema_of b = s.

Lemma overlay_batches_fold pk idx s ls batches rows :
  pk_indices s pk = Ok idx → (∀ l, l ∈ ls → has_schema s l) →
  overlay_batches pk ls (suffix_keys ls) = Ok batches →
  layers_view idx rows ls = hidek idx (⋃ (map ly_keys ls)) rows ++ batch_rows batches.
Proof.
  intros Hidx. revert rows batches. induction ls as [|l ls IH]; intros rows batches Hs Hb; cbn in Hb.
  { apply Ok_inj in Hb as <-. cbn. by rewrite hide_empty, app_nil_r. }
  apply bind_Ok in Hb as (a & Ha & Hb). apply bind_Ok in Hb as (u & Hu & Hb).
  apply bind_Ok in Hb as (rest & Hrest & Hb). apply Ok_inj in Hb as <-.
  assert (has_schema s l) as Hl by (apply Hs; set_solver).
  apply suppressed_rows with (idx := idx) (s := s) in Ha; [|done|intros; apply Hl; set_solver].
  apply suppressed_rows with (idx := idx) (s := s) in Hu; [|done|intros; apply Hl; set_solver].
  cbn [layers_view foldl]. change (foldl (apply_layer idx) ?r ls) with (layers_view idx r ls).
  rewrite (IH _ rest); [|set_solver|done]. unfold apply_layer.
  rewrite !hide_app, !hide_hide, !batch_rows_app, Ha, Hu, !app_assoc. cbn [map union_list foldr].
  by rewrite (union_comm_L (ly_keys l)).
Qed.

Lemma keyed_snap_nil (snap : list (list byte * N * KeyedOp (RecordBatch:=RecordBatch))) :
  list_to_set (map (λ '(k, _, _), k) snap) = (∅ : gset (list byte)) → snap = [].
Proof. destruct snap as [|[[k s] op] snap]; [done|]. cbn. set_solver. Qed.

Lemma layers_no_keys c (t : TableBuf) l : l ∈ layers_of c t → ly_keys l = ∅ → ly_upserts l = [].
Proof.
  unfold layers_of. intros [Hl|Hl%list_elem_of_singleton]%elem_of_app.
  - apply list_elem_of_fmap in Hl as (g & -> & _). cbn. by intros ->%keyed_snap_nil.
  - subst l. unfold pending_layer. cbn. by intros ->%keyed_snap_nil.
Qed.

Lemma plain_layers_view idx rows ls :
  (∀ l, l ∈ ls → ly_keys l = ∅ ∧ ly_upserts l = []) →
  layers_view idx rows ls = rows ++ batch_rows (concat (map ly_appends ls)).
Proof.
  revert rows. induction ls as [|l ls IH]; intros rows Hl; cbn; [by rewrite app_nil_r|].
  change (foldl (apply_layer idx) ?r ls) with (layers_view idx r ls). rewrite IH by set_solver.
  unfold apply_layer. destruct (Hl l) as [-> ->]; [set_solver|].
  by rewrite hide_empty, batch_rows_app, app_nil_r, app_assoc.
Qed.

Lemma layers_observed c c' (t : TableBuf) : layers_of c (note_observed c' t) = layers_of c t.
Proof.
  unfold layers_of. f_equal. cbn [note_observed with_flushed flushed].
  induction (flushed t) as [|g l IH]; [done|]. cbn. destruct (c (fg_commit g)); cbn; [done|].
  by rewrite IH.
Qed.

(** C7: the overlay a scan unions with its committed rows, whichever way it is
    computed, gives exactly the fold of the buffer's layers over them: every
    generation the scan's metadata lacks and then the live window, each
    appending its rows, deleting its keys and adding its replacement rows. *)
Theorem overlay_is_layer_fold is_committed rows (t t' : TableBuf) pk idx o :
  (∀ l, l ∈ layers_of is_committed t → has_schema (tb_schema t) l) →
  (∀ k, keyed t = Some k → ks_pk_cols k = pk) → pk_indices (tb_schema t) pk = Ok idx →
  overlay_with is_committed t = (t', Ok o) →
  overlaid idx rows o = view idx is_committed rows t ∧
  ∀ rows2, view idx is_committed rows2 t' = view idx is_committed rows2 t.
Proof.
  intros Hs Hpk Hidx Ho. unfold overlay_with in Ho. apply pair_equal_spec in Ho as [<- Ho]. split.
  2: { intros rows2. unfold view. by rewrite layers_observed. }
  unfold view. destruct (forallb _ _) eqn:Ef.
  - rewrite plain_layers_view.
    + destruct (concat _) eqn:Ec; apply Ok_inj in Ho as <-; cbn; [by rewrite app_nil_r|done].
    + intros l Hl. assert (ly_keys l = ∅) as Hk.
      { rewrite forallb_forall in Ef. specialize (Ef l). rewrite <-list_elem_of_In in Ef.
        exact (proj1 (bool_decide_eq_true _) (Ef Hl)). }
      split; [done|by eapply layers_no_keys].
  - apply bind_Ok in Ho as (pk' & Hp & Ho). apply ok_or_Ok in Hp. apply fmap_Some in Hp as (k & Hk & ->).
    rewrite (Hpk k Hk) in *. apply bind_Ok in Ho as (batches & Hb & Ho).
    erewrite overlay_batches_fold by done.
    destruct (bool_decide _) eqn:Ek.
    + apply bool_decide_eq_true in Ek. rewrite Ek, hide_empty.
      destruct batches; apply Ok_inj in Ho as <-; cbn; by rewrite ?app_nil_r.
    + destruct batches; apply Ok_inj in Ho as <-; done.
Qed.
End View.
