(* ===== verification/TailApi.v ===== *)
(** * The open tail API (src/icegres/src/tailapi.rs)

    Tickets, the wire form of tail events, and the streams that serve a table's
    window: a snapshot, and a subscription that goes on from its head.  The
    protobuf [Any] around a ticket is a pair; Flight's encoding of batches and
    the gRPC statuses are outside. *)
From S2P Require Import Prelude Text Json TailNames Tail Keyed Buffer Overlay.
#[local] Open Scope N_scope.

Definition TAIL_PROTOCOL_VERSION : string := "1".
Definition TICKET_TABLES : string := "icegres.tail.v1.Tables".
Definition TICKET_SNAPSHOT : string := "icegres.tail.v1.Snapshot".
Definition TICKET_SUBSCRIBE : string := "icegres.tail.v1.Subscribe".
Definition META_VERSION : string := "icegres.tail.version".
Definition META_TABLE : string := "icegres.tail.table".
Definition META_WATERMARK_PROPERTY : string := "icegres.tail.watermark-property".
Definition META_HIGH : string := "icegres.tail.high".
Definition META_PK_COLS : string := "icegres.tail.pk-cols".
Definition SEQ_COL : list byte := str_bytes "__icegres_seq".
Definition OP_COL : list byte := str_bytes "__icegres_op".
Definition COMMA : byte := Byte.x2c.

(** ** Tickets *)
Inductive TailTicket := Tables | Snapshot (table : TableIdent) | Subscribe (table : TableIdent) (from_seq : N).
Record AnyMessage := { type_url : string; value : list byte }.

Section Tickets.
Context {V : Type} `{Json V} (ident_to_string : TableIdent → list byte).   (* [TableIdent]'s Display *)

Definition parse_ticket_table (value : list byte) : result (TableIdent * option N) :=
  v ← from_slice value;
  table ← ok_or (t ← j_get "table" v; as_str t) "tail ticket lacks a table string";
  let parts := List.filter nonempty (split_on DOT (str_bytes table)) in
  _ ← ensure (2 <=? length parts)%nat "tail ticket table is not of the form namespace.table";
  Ok ({| namespace := removelast parts; table_name := List.last parts [] |}, s ← j_get "from_seq" v; as_u64 s).
(** [TailTicket::from_any] *)
Definition from_any (m : AnyMessage) : result (option TailTicket) :=
  if String.eqb (type_url m) TICKET_TABLES then Ok (Some Tables)
  else if String.eqb (type_url m) TICKET_SNAPSHOT then
    '(table, _) ← parse_ticket_table (value m); Ok (Some (Snapshot table))
  else if String.eqb (type_url m) TICKET_SUBSCRIBE then
    '(table, from_seq) ← parse_ticket_table (value m); Ok (Some (Subscribe table (default 0 from_seq)))
  else Ok None.
(** [TailTicket::encode], before the protobuf encoding. *)
Definition encode (t : TailTicket) : result AnyMessage :=
  match t with
  | Tables => Ok {| type_url := TICKET_TABLES; value := str_bytes "{}" |}
  | Snapshot table =>
    v ← to_vec (j_obj [("table"%string, j_str (bytes_str (ident_to_string table)))]);
    Ok {| type_url := TICKET_SNAPSHOT; value := v |}
  | Subscribe table from_seq =>
    v ← to_vec (j_obj [("table"%string, j_str (bytes_str (ident_to_string table))); ("from_seq"%string, j_u64 from_seq)]);
    Ok {| type_url := TICKET_SUBSCRIBE; value := v |}
  end.
End Tickets.

(** ** The wire form *)
Definition op_str (kind : TailEventKind) : list byte :=
  str_bytes match kind with
            | EAppend => "append" | EUpsert => "upsert" | EDelete => "delete" | EWatermark => "watermark"
            end.
Record WireSchema := { ws_fields : Schema; ws_meta : gmap string (list byte) }.
(** [wire_schema] *)
Definition wire_schema (ident_to_string : TableIdent → list byte) (canonical : Schema) (table : TableIdent)
    (watermark_property : list byte) (high : N) (pk_cols : list (list byte)) : WireSchema :=
  {| ws_fields := map (λ f, {| f_name := f_name f; f_type := f_type f; f_nullable := true |}) canonical ++
                  [{| f_name := SEQ_COL; f_type := OtherType "UInt64"; f_nullable := false |};
                   {| f_name := OP_COL; f_type := Utf8; f_nullable := false |}];
     ws_meta := list_to_map [(META_VERSION, str_bytes TAIL_PROTOCOL_VERSION);
                             (META_TABLE, ident_to_string table);
                             (META_WATERMARK_PROPERTY, watermark_property);
                             (META_HIGH, print_u64 high);
                             (META_PK_COLS, join_with COMMA pk_cols)] |}.

(** What the wire form needs of Arrow's arrays. *)
Class WireColumns (RecordBatch ArrayRef : Type) := {
  slice : RecordBatch → nat → nat → RecordBatch;          (* slice(offset, length) *)
  u64_values : ArrayRef → option (list N);                (* downcast_ref::<UInt64Array>() *)
  utf8_values : ArrayRef → option (list (list byte));     (* downcast_ref::<StringArray>() *)
  array_len : ArrayRef → nat;
  u64_array : list N → ArrayRef;
  utf8_array : list (list byte) → ArrayRef;
  new_null_array : DataType → nat → ArrayRef;
}.

Section Wire.
Context {RecordBatch ArrayRef : Type} `{Columnar RecordBatch ArrayRef} `{!WireColumns RecordBatch ArrayRef}.
#[local] Abbreviation TailItem := (TailItem (RecordBatch:=RecordBatch)).
#[local] Abbreviation TailEvent := (TailEvent (RecordBatch:=RecordBatch)).

(** [Schema::index_of] *)
Definition index_of (s : Schema) (name : list byte) : option nat :=
  position (λ f, bool_decide (f_name f = name)) s.
Definition data_fields (wire : WireSchema) : nat := length (ws_fields wire) - 2.
(** One column of [wire_batch]. *)
Definition wire_column (batch : option RecordBatch) (rows : nat) (field : Field) : result ArrayRef :=
  match (b ← batch; i ← index_of (schema_of b) (f_name field); Some (column b i)) with
  | Some col => _ ← ensure (bool_decide (data_type col = f_type field)) "tail wire column type mismatch"; Ok col
  | None => Ok (new_null_array (f_type field) rows)
  end.
(** [wire_batch] *)
Definition wire_batch (wire : WireSchema) (seq : N) (kind : TailEventKind) (batch : option RecordBatch) : result RecordBatch :=
  let rows := match batch with Some b => num_rows b | None => 1%nat end in
  columns ← map_result (wire_column batch rows) (take (data_fields wire) (ws_fields wire));
  try_new (ws_fields wire) (columns ++ [u64_array (replicate rows seq); utf8_array (replicate rows (op_str kind))]).

(** ** Streams *)

(** [snapshot_stream]: the window is [BufferState::tail_snapshot]'s. *)
Definition snapshot_stream (ident_to_string : TableIdent → list byte) (watermark_property : option (list byte)) (table : TableIdent)
    (snap : result (option (TailWindowSnapshot (RecordBatch:=RecordBatch)))) : result (WireSchema * list (result RecordBatch)) :=
  property ← ok_or watermark_property "the open tail API requires a durable tail";
  snap ← snap;
  snap ← ok_or snap "table has no tail window on this server";
  let wire := wire_schema ident_to_string (tw_schema snap) table property (tw_high snap) (tw_pk_cols snap) in
  Ok (wire, map (λ i, wire_batch wire (ti_seq i) (ti_kind i) (Some (ti_batch i))) (tw_items snap)).

(** What the subscription's task waits for. *)
Inductive Wake := Event (ev : TailEvent) | Tick | Lagged (n : N) | Closed.
(** What it sends: [Data] a wire batch, [DataLoss] the status that ends the stream. *)
Inductive Sent := Data (seq : N) (kind : TailEventKind) (batch : option RecordBatch) | DataLoss (n : N).
(** [subscribe_stream]'s loop over what wakes it; the receiver takes all. *)
Fixpoint subscribe_loop (ident : TableIdent) (high last_watermark : N) (wakes : list Wake) : list Sent :=
  match wakes with
  | [] => []
  | Event ev :: wakes =>
    if negb (bool_decide (te_ident ev = ident)) then subscribe_loop ident high last_watermark wakes else
    match te_kind ev with
    | EWatermark =>
      let last_watermark := N.max last_watermark (te_seq ev) in
      Data last_watermark EWatermark None :: subscribe_loop ident high last_watermark wakes
    | kind =>
      (if high <? te_seq ev then map (λ b, Data (te_seq ev) kind (Some b)) (te_batches ev) else []) ++
      subscribe_loop ident high last_watermark wakes
    end
  | Tick :: wakes => Data last_watermark EWatermark None :: subscribe_loop ident high last_watermark wakes
  | Lagged n :: _ => [DataLoss n]
  | Closed :: _ => []
  end.
(** [subscribe_stream]: the window above [from_seq], then the loop. *)
Definition subscribe_stream (table : TableIdent) (from_seq : N) (snap : TailWindowSnapshot (RecordBatch:=RecordBatch)) (wakes : list Wake) : list Sent :=
  map (λ i, Data (ti_seq i) (ti_kind i) (Some (ti_batch i))) (List.filter (λ i, from_seq <? ti_seq i) (tw_items snap)) ++
  subscribe_loop table (tw_high snap) 0 wakes.
(** [Sent] as a batch of the stream. *)
Definition sent_batch (wire : WireSchema) (s : Sent) : result RecordBatch :=
  match s with Data seq kind batch => wire_batch wire seq kind batch | DataLoss _ => Err "DATA_LOSS: tail subscriber lagged" end.
End Wire.
