(* ===== verification/Peer.v ===== *)
(** * Peer tail mirrors (src/icegres/src/peer.rs)

    A read server's mirror of another server's tail window: ingesting wire
    batches, what a scan gets of it, its collection, the registry with one owner
    per table, a table's session and the reconnect policy.  Instants and
    durations are nanoseconds; a function that looks at the clock has [now]. *)
From S2P Require Import Prelude Text TailNames Tail Keyed Buffer Overlay TailApi.
#[local] Open Scope N_scope.

Definition SECOND : N := 1000000000.
Definition MIRROR_GC : N := 30 * SECOND.
Definition SERVE_AGE_BOUND : N := 5 * SECOND.
Definition BACKOFF_MIN : N := 500000000.
Definition BACKOFF_MAX : N := 10 * SECOND.
(** The bound is in milliseconds; [saturating_mul] of [u64]. *)
Definition effective_mirror_gc (freshness_ms : N) : N :=
  N.max MIRROR_GC (N.min (freshness_ms * 4) u64_max * 1000000).

Abbreviation Key := (list byte).

Section Peer.
Context {RecordBatch ArrayRef : Type} `{Columnar RecordBatch ArrayRef} `{!WireColumns RecordBatch ArrayRef}.
#[local] Abbreviation Overlay := (Overlay (RecordBatch:=RecordBatch)).

(** ** One table's mirror *)
Record MirrorAppend := { ma_seq : N; ma_batch : RecordBatch; ma_keys : option (list Key) }.
(** [mk_row]: [None] for a delete. *)
Record MirrorKeyed := { mk_seq : N; mk_row : option RecordBatch }.
Record TableMirror := {
  property_key : list byte; mr_schema : Schema; mr_pk_cols : list (list byte);
  mr_appends : list MirrorAppend; mr_keyed : gmap Key MirrorKeyed;
  mr_watermark : N; covered_marks : list (N * N);          (* (observed at, watermark) *)
  mr_peer : list byte; gc_grace : N; observed_watermark : N; last_overlay_at : option N;
}.
Definition with_items (appends : list MirrorAppend) (keyed : gmap Key MirrorKeyed) (m : TableMirror) : TableMirror :=
  {| property_key := property_key m; mr_schema := mr_schema m; mr_pk_cols := mr_pk_cols m;
     mr_appends := appends; mr_keyed := keyed; mr_watermark := mr_watermark m; covered_marks := covered_marks m;
     mr_peer := mr_peer m; gc_grace := gc_grace m; observed_watermark := observed_watermark m;
     last_overlay_at := last_overlay_at m |}.
Definition with_marks (watermark : N) (marks : list (N * N)) (m : TableMirror) : TableMirror :=
  {| property_key := property_key m; mr_schema := mr_schema m; mr_pk_cols := mr_pk_cols m;
     mr_appends := mr_appends m; mr_keyed := mr_keyed m; mr_watermark := watermark; covered_marks := marks;
     mr_peer := mr_peer m; gc_grace := gc_grace m; observed_watermark := observed_watermark m;
     last_overlay_at := last_overlay_at m |}.
Definition with_scan (now observed : N) (m : TableMirror) : TableMirror :=
  {| property_key := property_key m; mr_schema := mr_schema m; mr_pk_cols := mr_pk_cols m;
     mr_appends := mr_appends m; mr_keyed := mr_keyed m; mr_watermark := mr_watermark m; covered_marks := covered_marks m;
     mr_peer := mr_peer m; gc_grace := gc_grace m; observed_watermark := observed; last_overlay_at := Some now |}.

(** [upsert_key] on the keyed map: the newest sequence per key stays. *)
Definition upsert_key (key : Key) (seq : N) (row : option RecordBatch) (keyed : gmap Key MirrorKeyed) : gmap Key MirrorKeyed :=
  match keyed !! key with
  | Some existing => if seq <=? mk_seq existing then keyed else <[key := {| mk_seq := seq; mk_row := row |}]> keyed
  | None => <[key := {| mk_seq := seq; mk_row := row |}]> keyed
  end.
(** The loop over rows and their keys; a delete has no row. *)
Definition upsert_rows (seq : N) (row_of : nat → option RecordBatch) (rows : list (nat * Key)) (keyed : gmap Key MirrorKeyed)
    : gmap Key MirrorKeyed :=
  foldl (λ keyed '(row, key), upsert_key key seq (row_of row) keyed) keyed rows.
Definition indexed {A} (l : list A) : list (nat * A) := zip (List.seq 0 (length l)) l.

(** [require_pk] *)
Definition require_pk (m : TableMirror) : result unit :=
  ensure (nonempty (mr_pk_cols m)) "protocol error: a keyed event, and the tail header declared no pk-cols".

(** [apply_append]: rows whose key has an older entry that is not covered become
    upserts, the others stay an append. *)
Definition routes (m : TableMirror) (seq : N) (key : Key) : bool :=
  match mr_keyed m !! key with Some e => (mk_seq e <? seq) && (mr_watermark m <? mk_seq e) | None => false end.
Definition push_append (seq : N) (batch : RecordBatch) (keys : option (list Key)) (m : TableMirror) : TableMirror :=
  with_items (mr_appends m ++ [{| ma_seq := seq; ma_batch := batch; ma_keys := keys |}]) (mr_keyed m) m.
Definition apply_append (seq : N) (run : RecordBatch) : stres TableMirror unit := λ m,
  if negb (nonempty (mr_pk_cols m)) then (push_append seq run None m, Ok tt) else
  match encode_batch_keys run (mr_pk_cols m) with
  | Err e => (m, Err e)
  | Ok keys =>
    if bool_decide (mr_keyed m = ∅) then (push_append seq run (Some keys) m, Ok tt) else
    let routed := map (routes m seq) keys in
    let hits := masked routed (indexed keys) in
    let m := with_items (mr_appends m) (upsert_rows seq (λ row, Some (slice_row run row)) hits (mr_keyed m)) m in
    if forallb id routed then (m, Ok tt) else
    match filter_record_batch run (map negb routed) with
    | Err e => (m, Err e)
    | Ok rest => (push_append seq rest (Some (masked (map negb routed) keys)) m, Ok tt)
    end
  end.

(** [gc] *)
Definition aged_marks (now : N) (m : TableMirror) : list N :=
  map snd (List.filter (λ '(at_, w), gc_grace m <=? now - at_) (covered_marks m)).
Definition reader_active (now : N) (m : TableMirror) : bool :=
  match last_overlay_at m with Some at_ => now - at_ <? gc_grace m | None => false end.
Definition gc_threshold (now : N) (m : TableMirror) : option N :=
  match aged_marks now m with
  | [] => None
  | w :: ws => let threshold := foldl N.max w ws in
               Some (if reader_active now m then N.min threshold (observed_watermark m) else threshold)
  end.
Definition gc (now : N) (m : TableMirror) : TableMirror :=
  match gc_threshold now m with
  | None => m
  | Some threshold =>
    with_marks (mr_watermark m)
      (List.filter (λ '(at_, w), (threshold <? w) || (now - at_ <? gc_grace m)) (covered_marks m))
      (with_items (List.filter (λ a, threshold <? ma_seq a) (mr_appends m))
         (filter (λ ke, threshold < mk_seq (snd ke)) (mr_keyed m)) m)
  end.

(** [apply]: one run of rows of the same sequence and kind. *)
Definition apply_keyed (seq : N) (run : RecordBatch) (row_of : nat → option RecordBatch) : stres TableMirror unit := λ m,
  match require_pk m with
  | Err e => (m, Err e)
  | Ok _ =>
    match encode_batch_keys run (mr_pk_cols m) with
    | Err e => (m, Err e)
    | Ok keys => (with_items (mr_appends m) (upsert_rows seq row_of (indexed keys) (mr_keyed m)) m, Ok tt)
    end
  end.
Definition observe_mark (now seq : N) (m : TableMirror) : TableMirror :=
  if mr_watermark m <? seq then with_marks seq (covered_marks m ++ [(now, seq)]) m else m.
Definition apply (now seq : N) (op : list byte) (run : RecordBatch) : stres TableMirror unit := λ m,
  if bool_decide (op = op_str EWatermark) then (gc now (observe_mark now seq m), Ok tt)
  else if bool_decide (op = op_str EAppend) then apply_append seq run m
  else if bool_decide (op = op_str EUpsert) then apply_keyed seq run (λ row, Some (slice_row run row)) m
  else if bool_decide (op = op_str EDelete) then apply_keyed seq run (λ _, None) m
  else (m, Ok tt).                                             (* an unknown kind is ignored *)

(** The contiguous runs of equal entries: entry, start, length. *)
Fixpoint runs_from {A} `{EqDecision A} (start : nat) (l : list A) : list (A * nat * nat) :=
  match l with
  | [] => []
  | x :: l =>
    match runs_from (S start) l with
    | (y, s, len) :: rest => if decide (y = x) then (x, start, S len) :: rest else (x, start, 1%nat) :: (y, s, len) :: rest
    | [] => [(x, start, 1%nat)]
    end
  end.
Fixpoint apply_runs (now : N) (data : RecordBatch) (runs : list ((N * list byte) * nat * nat)) : stres TableMirror unit :=
  match runs with
  | [] => st_ret tt
  | ((seq, op), start, len) :: runs => (apply now seq op (slice data start len) ;;* apply_runs now data runs)%stres
  end.
(** [TableMirror::ingest] *)
Definition data_columns (batch : RecordBatch) (seq_idx op_idx : nat) : list ArrayRef :=
  map (column batch) (List.filter (λ i, negb (i =? seq_idx)%nat && negb (i =? op_idx)%nat) (List.seq 0 (num_columns batch))).
Definition ingest_batch (now : N) (batch : RecordBatch) : stres TableMirror unit := λ m,
  if (num_rows batch =? 0)%nat then (m, Ok tt) else
  match (seq_idx ← ok_or (index_of (schema_of batch) SEQ_COL) "tail wire batch lacks the sequence column";
         op_idx ← ok_or (index_of (schema_of batch) OP_COL) "tail wire batch lacks the kind column";
         seqs ← ok_or (u64_values (column batch seq_idx)) "the sequence column is not UInt64";
         ops ← ok_or (utf8_values (column batch op_idx)) "the kind column is not Utf8";
         data ← try_new (mr_schema m) (data_columns batch seq_idx op_idx);
         Ok (data, runs_from 0 (take (num_rows batch) (zip seqs ops)))) with
  | Err e => (m, Err e)
  | Ok (data, runs) => apply_runs now data runs m
  end.

(** ** What a scan gets *)

(** [separated_by_watermark] *)
Definition separated_by_watermark (m : TableMirror) (older newer : N) : bool :=
  existsb (λ '(_, w), (older <=? w) && (w <? newer)) (covered_marks m).
(** The newest append of a key. *)
Definition append_newest (m : TableMirror) (key : Key) : option N :=
  foldl (λ newest a, if bool_decide (key ∈ default [] (ma_keys a)) then Some (N.max (default (ma_seq a) newest) (ma_seq a)) else newest)
    None (mr_appends m).
Definition newer_than (w : option N) (seq : N) : bool := match w with Some w => w <? seq | None => true end.
Definition newer_keys (m : TableMirror) (a : MirrorAppend) : gset Key :=
  list_to_set (List.filter (λ k, match mr_keyed m !! k with Some e => ma_seq a <? mk_seq e | None => false end) (default [] (ma_keys a))).
Fixpoint append_batches (m : TableMirror) (w : option N) (appends : list MirrorAppend) : result (list RecordBatch) :=
  match appends with
  | [] => Ok []
  | a :: appends =>
    if negb (newer_than w (ma_seq a)) then append_batches m w appends else
    let suppress := newer_keys m a in
    served ← (if bool_decide (suppress = ∅) then Ok (ma_batch a) else suppress_batch (ma_batch a) (mr_pk_cols m) suppress);
    rest ← append_batches m w appends;
    Ok (if (0 <? num_rows served)%nat then served :: rest else rest)
  end.
(** The row a keyed entry serves, if no newer append of its window superseded it. *)
Definition served_row (m : TableMirror) (key : Key) (e : MirrorKeyed) : option RecordBatch :=
  row ← mk_row e;
  let superseded := match append_newest m key with
                    | Some aseq => (mk_seq e <? aseq) && negb (separated_by_watermark m (mk_seq e) aseq)
                    | None => false
                    end in
  if superseded then None else Some row.
(** The entries of the map, in any order. *)
Definition live_keyed (m : TableMirror) (w : option N) : list (Key * MirrorKeyed) :=
  List.filter (λ '(_, e), newer_than w (mk_seq e)) (map_to_list (mr_keyed m)).
(** [overlay_at] *)
Definition overlay_at (w : option N) (m : TableMirror) : result (option Overlay) :=
  appended ← append_batches m w (mr_appends m);
  let batches := appended ++ omap (λ '(key, e), served_row m key e) (live_keyed m w) in
  let suppress_keys : gset Key := list_to_set (map fst (live_keyed m w)) in
  Ok match batches, bool_decide (suppress_keys = ∅) with
     | [], true => None
     | _, none => Some {| ov_schema := mr_schema m; ov_batches := batches;
                          ov_suppress := if none then None else Some {| os_pk_cols := mr_pk_cols m; os_keys := suppress_keys |} |}
     end.
(** [overlay_for]: the scan's own property, remembered. *)
Definition overlay_for (now : N) (property : option (list byte)) : stres TableMirror (option Overlay) := λ m,
  let w := parse_watermark_property property in
  let m := with_scan now (match w with Some w => N.max (observed_watermark m) w | None => observed_watermark m end) m in
  (m, overlay_at w m).

(** ** The registry *)
Record PeerHealth := { last_event : N; warned_stale : bool }.
Record PeerMirrors := {
  pm_tables : gmap TableIdent TableMirror;
  pm_peers : gmap (list byte) PeerHealth;
  pm_gc_grace : N;
  pm_contested : gset (TableIdent * list byte);
}.
Definition with_gc (gc_grace : N) : PeerMirrors :=
  {| pm_tables := ∅; pm_peers := ∅; pm_gc_grace := gc_grace; pm_contested := ∅ |}.
Definition with_tables (tables : gmap TableIdent TableMirror) (p : PeerMirrors) : PeerMirrors :=
  {| pm_tables := tables; pm_peers := pm_peers p; pm_gc_grace := pm_gc_grace p; pm_contested := pm_contested p |}.
Definition with_peers (peers : gmap (list byte) PeerHealth) (p : PeerMirrors) : PeerMirrors :=
  {| pm_tables := pm_tables p; pm_peers := peers; pm_gc_grace := pm_gc_grace p; pm_contested := pm_contested p |}.
Definition with_contested (contested : gset (TableIdent * list byte)) (p : PeerMirrors) : PeerMirrors :=
  {| pm_tables := pm_tables p; pm_peers := pm_peers p; pm_gc_grace := pm_gc_grace p; pm_contested := contested |}.
Definition register_peer (now : N) (peer : list byte) (p : PeerMirrors) : PeerMirrors :=
  match pm_peers p !! peer with
  | Some _ => p
  | None => with_peers (<[peer := {| last_event := now; warned_stale := false |}]> (pm_peers p)) p
  end.
Definition peer_ages (now : N) (p : PeerMirrors) : list (list byte * N) :=
  map (λ '(peer, h), (peer, (now - last_event h) / 1000000)) (map_to_list (pm_peers p)).
Definition touch (now : N) (peer : list byte) (p : PeerMirrors) : PeerMirrors :=
  with_peers (<[peer := {| last_event := now; warned_stale := false |}]> (pm_peers p)) p.
(** [peer_serving] *)
Definition peer_serving (now : N) (peer : list byte) (p : PeerMirrors) : PeerMirrors * bool :=
  match pm_peers p !! peer with
  | None => (p, false)
  | Some h => if now - last_event h <=? SERVE_AGE_BOUND then (p, true)
              else (with_peers (<[peer := {| last_event := last_event h; warned_stale := true |}]> (pm_peers p)) p, false)
  end.
Definition note_contested (ident : TableIdent) (peer : list byte) (p : PeerMirrors) : PeerMirrors :=
  with_contested ({[(ident, peer)]} ∪ pm_contested p) p.
Definition owned_by_other (ident : TableIdent) (peer : list byte) (p : PeerMirrors) : bool :=
  match pm_tables p !! ident with Some m => negb (bool_decide (mr_peer m = peer)) | None => false end.
Definition fresh_mirror (peer property : list byte) (schema : Schema) (pk_cols : list (list byte)) (grace : N) : TableMirror :=
  {| property_key := property; mr_schema := schema; mr_pk_cols := pk_cols; mr_appends := []; mr_keyed := ∅; mr_watermark := 0;
     covered_marks := []; mr_peer := peer; gc_grace := grace; observed_watermark := 0; last_overlay_at := None |}.
(** [install] *)
Definition install (now : N) (ident : TableIdent) (peer property : list byte) (schema : Schema) (pk_cols : list (list byte))
    (p : PeerMirrors) : PeerMirrors * bool :=
  if owned_by_other ident peer p then (note_contested ident peer p, false) else
  let p := with_tables (<[ident := fresh_mirror peer property schema pk_cols (pm_gc_grace p)]> (pm_tables p)) p in
  (touch now peer (with_contested (pm_contested p ∖ {[(ident, peer)]}) p), true).
Definition claim_refused (ident : TableIdent) (peer : list byte) (p : PeerMirrors) : PeerMirrors * bool :=
  if owned_by_other ident peer p then (note_contested ident peer p, true) else (p, false).
(** [PeerMirrors::ingest] *)
Definition ingest (now : N) (peer : list byte) (ident : TableIdent) (batch : RecordBatch) : stres PeerMirrors unit := λ p,
  match pm_tables p !! ident with
  | None => (p, Err "no mirror installed")
  | Some m =>
    if negb (bool_decide (mr_peer m = peer)) then (p, Err "mirror is owned by another peer") else
    let '(m, r) := ingest_batch now batch m in
    let p := with_tables (<[ident := m]> (pm_tables p)) p in
    match r with Err e => (p, Err e) | Ok _ => (touch now peer p, Ok tt) end
  end.
Definition drop_table (ident : TableIdent) (peer : list byte) (p : PeerMirrors) : PeerMirrors :=
  match pm_tables p !! ident with
  | Some m => if bool_decide (mr_peer m = peer)
              then with_contested (filter (λ tp, fst tp ≠ ident) (pm_contested p)) (with_tables (delete ident (pm_tables p)) p)
              else p
  | None => p
  end.
(** [overlay] *)
Definition overlay (now : N) (ident : TableIdent) (properties : list byte → option (list byte)) : stres PeerMirrors (option Overlay) := λ p,
  match pm_tables p !! ident with
  | None => (p, Ok None)
  | Some m =>
    let '(p, serving) := peer_serving now (mr_peer m) p in
    if negb serving then (p, Ok None) else
    let '(m, r) := overlay_for now (properties (property_key m)) m in
    (with_tables (<[ident := m]> (pm_tables p)) p, r)
  end.

(** [merge_overlays] *)
Definition merge_overlays (local peer : option Overlay) : result (option Overlay) :=
  match local, peer with
  | None, None => Ok None
  | Some o, None | None, Some o => Ok (Some o)
  | Some local, Some peer =>
    _ ← ensure (bool_decide (ov_schema local = ov_schema peer)) "local overlay and peer mirror disagree on the table schema";
    suppress ← match ov_suppress local, ov_suppress peer with
               | None, None => Ok None
               | Some s, None | None, Some s => Ok (Some s)
               | Some a, Some b =>
                 _ ← ensure (bool_decide (os_pk_cols a = os_pk_cols b)) "local overlay and peer mirror disagree on the PK declaration";
                 Ok (Some {| os_pk_cols := os_pk_cols a; os_keys := os_keys a ∪ os_keys b |})
               end;
    Ok (Some {| ov_schema := ov_schema local; ov_batches := ov_batches local ++ ov_batches peer; ov_suppress := suppress |})
  end.

(** ** A table's session *)

(** [parse_header]: the property, the schema without the wire columns, the key
    columns and the head of the window. *)
Definition parse_header (wire : WireSchema) : result (list byte * Schema * list (list byte) * N) :=
  version ← ok_or (ws_meta wire !! META_VERSION) "tail stream lacks a version header";
  _ ← ensure (bool_decide (version = str_bytes TAIL_PROTOCOL_VERSION)) "tail protocol version mismatch";
  property ← ok_or (ws_meta wire !! META_WATERMARK_PROPERTY) "tail stream lacks the watermark-property header";
  let high := default 0 (h ← ws_meta wire !! META_HIGH; parse_u64 h) in
  let pk_cols := match ws_meta wire !! META_PK_COLS with Some s => List.filter nonempty (split_on COMMA s) | None => [] end in
  let data := List.filter (λ f, negb (bool_decide (f_name f = SEQ_COL)) && negb (bool_decide (f_name f = OP_COL))) (ws_fields wire) in
  Ok (property, data, pk_cols, high).
(** A message of a Flight stream with the time it arrives; [None] is an error of
    the stream. *)
Inductive Payload := PSchema (s : WireSchema) | PBatch (b : RecordBatch) | PNone.
Abbreviation FlightStream := (list (N * option Payload)).
(** The snapshot's messages: its last header, and all batches. *)
Fixpoint read_snapshot (msgs : FlightStream) (header : option (list byte * Schema * list (list byte) * N)) (backlog : list RecordBatch)
    : result (option (list byte * Schema * list (list byte) * N) * list RecordBatch) :=
  match msgs with
  | [] => Ok (header, backlog)
  | (_, None) :: _ => Err "TailSnapshot stream failed"
  | (_, Some (PSchema s)) :: msgs => h ← parse_header s; read_snapshot msgs (Some h) backlog
  | (_, Some (PBatch b)) :: msgs => read_snapshot msgs header (backlog ++ [b])
  | (_, Some PNone) :: msgs => read_snapshot msgs header backlog
  end.
Fixpoint ingest_all (now : N) (peer : list byte) (table : TableIdent) (batches : list RecordBatch) : stres PeerMirrors unit :=
  match batches with
  | [] => st_ret tt
  | b :: batches => (ingest now peer table b ;;* ingest_all now peer table batches)%stres
  end.
(** The subscription never ends well. *)
Fixpoint follow (peer : list byte) (table : TableIdent) (msgs : FlightStream) : stres PeerMirrors unit :=
  match msgs with
  | [] => st_err "TailSubscribe stream ended"
  | (_, None) :: _ => st_err "TailSubscribe stream failed"
  | (now, Some (PBatch b)) :: msgs => (ingest now peer table b ;;* follow peer table msgs)%stres
  | (_, Some _) :: msgs => follow peer table msgs
  end.
(** [mirror_table]: [snapshot] and [subscribe] are what the two calls answer; the
    latter is asked for what is above the head. *)
Definition mirror_table (now : N) (peer : list byte) (table : TableIdent) (snapshot : result FlightStream)
    (subscribe : N → result FlightStream) : stres PeerMirrors unit := λ p,
  let '(p, refused) := claim_refused table peer p in
  if refused then (p, Ok tt) else
  match (msgs ← snapshot; '(header, backlog) ← read_snapshot msgs None [];
         header ← ok_or header "TailSnapshot carried no schema header"; Ok (header, backlog)) with
  | Err e => (p, Err e)
  | Ok (property, schema, pk_cols, high, backlog) =>
    let '(p, installed) := install now table peer property schema pk_cols p in
    if negb installed then (p, Ok tt) else
    (ingest_all now peer table backlog ;;*
     let* msgs := st_lift (subscribe high) in follow peer table msgs)%stres p
  end.
(** The subscriber task of [run_peer]: an error drops the mirror. *)
Definition table_task (now : N) (peer : list byte) (table : TableIdent) (snapshot : result FlightStream)
    (subscribe : N → result FlightStream) (p : PeerMirrors) : PeerMirrors :=
  match mirror_table now peer table snapshot subscribe p with
  | (p, Ok _) => p
  | (p, Err _) => drop_table table peer p
  end.
End Peer.

(** ** Reconnecting *)
Record ReconnectPolicy := { rp_backoff : N; rp_warned : bool }.
Definition policy_new : ReconnectPolicy := {| rp_backoff := BACKOFF_MIN; rp_warned := false |}.
(** [on_failure]: the new policy, whether to warn and how long to sleep. *)
Definition on_failure (established : bool) (p : ReconnectPolicy) : ReconnectPolicy * (bool * N) :=
  let p := if established then policy_new else p in
  ({| rp_backoff := N.min (rp_backoff p * 2) BACKOFF_MAX; rp_warned := true |}, (negb (rp_warned p), rp_backoff p)).
