(* ===== verification/PeerView.v ===== *)
(** * What a scan gets of a mirror

    Operations reach a mirror in any order.  As long as keys are used as keys,
    and a scan's metadata has everything the mirror has collected, the committed
    rows with the mirror's overlay are the rows after all operations. *)
From S2P Require Import Prelude Text TailNames Tail Keyed Buffer Overlay OverlayView TailApi Peer.
#[local] Open Scope N_scope.

(** ** Lists *)
Lemma masked_filter {A} (f : A → bool) l : masked (map f l) l = List.filter f l.
Proof. unfold masked. induction l as [|a l IH]; [done|]. cbn. destruct (f a); cbn; by rewrite IH. Qed.
Lemma masked_filter_map {A B} (f : B → bool) (g : A → B) l : masked (map f (map g l)) l = List.filter (λ a, f (g a)) l.
Proof. rewrite map_map. apply masked_filter. Qed.
Lemma indexed_spec {A} (l : list A) i a : (i, a) ∈ indexed l ↔ l !! i = Some a.
Proof.
  unfold indexed. rewrite list_elem_of_lookup. split.
  - intros (j & Hj). apply lookup_zip_Some in Hj as [Hs Ha]. apply lookup_seq in Hs as [-> _]. done.
  - intros Ha. exists i. apply lookup_zip_Some. split; [|done]. apply lookup_seq. split; [done|]. by apply lookup_lt_Some in Ha.
Qed.
Lemma indexed_snd {A} (l : list A) : map snd (indexed l) = l.
Proof. unfold indexed. change (map snd ?l) with (snd <$> l). rewrite snd_zip; [done|]. by rewrite length_seq. Qed.
Lemma masked_indexed {A} (f : A → bool) l : masked (map f l) (indexed l) = List.filter (λ ia, f (snd ia)) (indexed l).
Proof. by rewrite <-(masked_filter_map f snd), indexed_snd. Qed.
Lemma filter_keeps_all {A} (l : list A) : List.filter (λ _, true) l = l.
Proof. induction l as [|a l IH]; [done|]. cbn. by rewrite IH. Qed.
Lemma NoDup_bool_filter {A} (f : A → bool) l : NoDup l → NoDup (List.filter f l).
Proof. rewrite !NoDup_ListNoDup. apply List.NoDup_filter. Qed.
Lemma singleton_of {A} (l : list A) a : NoDup l → (∀ x, x ∈ l ↔ x = a) → l = [a].
Proof.
  intros Hn Hl. apply Permutation_singleton_r. apply NoDup_Permutation; [done|apply NoDup_singleton|].
  intros x. by rewrite Hl, list_elem_of_singleton.
Qed.
Lemma flat_map_nil {A B} (f : A → list B) l : (∀ a, a ∈ l → f a = []) → flat_map f l = [].
Proof. induction l as [|a l IH]; intros Hf; [done|]. cbn. rewrite Hf, IH; [done|set_solver|set_solver]. Qed.

(** ** Operations *)
Section Ops.
Context {Row : Type}.
Inductive OpKind := OAppend (r : Row) | OUpsert (r : Row) | ODelete.
Record Op := { op_key : Key; op_seq : N; op_kind : OpKind }.
Definition row_of_op (o : Op) : option Row := match op_kind o with OAppend r | OUpsert r => Some r | ODelete => None end.
Definition op_id (o : Op) : Key * N := (op_key o, op_seq o).

(** The newest operation of a key among those whose sequence is in question. *)
Fixpoint newest (h : list Op) (k : Key) (p : N → bool) : option Op :=
  match h with
  | [] => None
  | o :: h =>
    if bool_decide (op_key o = k) && p (op_seq o)
    then match newest h k p with Some o' => if op_seq o <? op_seq o' then Some o' else Some o | None => Some o end
    else newest h k p
  end.
(** A table after the operations: each key has the row of its newest. *)
Definition state (h : list Op) (base : Key → option Row) (p : N → bool) (k : Key) : option Row :=
  match newest h k p with Some o => row_of_op o | None => base k end.
(** Keys are keys: a row is appended where its key has none. *)
Definition disciplined (h : list Op) (base : Key → option Row) : Prop :=
  ∀ o r, o ∈ h → op_kind o = OAppend r → state h base (λ q, q <? op_seq o) (op_key o) = None.

Lemma newest_Some h k p o :
  newest h k p = Some o → o ∈ h ∧ op_key o = k ∧ p (op_seq o) = true ∧ ∀ o', o' ∈ h → op_key o' = k → p (op_seq o') = true → op_seq o' ≤ op_seq o.
Proof.
  revert o. induction h as [|x h IH]; intros o Ho; cbn in Ho; [done|]. case_bool_decide as Hk; cbn in Ho; [destruct (p (op_seq x)) eqn:Ep|].
  - destruct (newest h k p) as [o1|] eqn:E1.
    + destruct (IH o1 eq_refl) as (I1 & I2 & I3 & I4).
      destruct (N.ltb_spec (op_seq x) (op_seq o1)) as [Hlt|Hge]; injection Ho as <-.
      * split_and!; [by right|done|done|]. intros o' [->|Ho']%elem_of_cons Hk' Hp'; [lia|by apply I4].
      * split_and!; [by left|done|done|]. intros o' [->|Ho']%elem_of_cons Hk' Hp'; [lia|]. etrans; [by apply I4|done].
    + injection Ho as <-. split_and!; [by left|done|done|]. intros o' [->|Ho']%elem_of_cons Hk' Hp'; [lia|].
      exfalso. clear IH Hk Ep x. induction h as [|y h IH]; [by apply not_elem_of_nil in Ho'|]. cbn in E1.
      apply elem_of_cons in Ho' as [->|Ho'].
      { rewrite bool_decide_eq_true_2, Hp' in E1 by done. cbn in E1. repeat case_match; done. }
      destruct (_ && _); [|by apply IH]. repeat case_match; done.
  - destruct (IH o Ho) as (I1 & I2 & I3 & I4). split_and!; [by right|done|done|].
    intros o' [->|Ho']%elem_of_cons Hk' Hp'; [congruence|by apply I4].
  - destruct (IH o Ho) as (I1 & I2 & I3 & I4). split_and!; [by right|done|done|].
    intros o' [->|Ho']%elem_of_cons Hk' Hp'; [done|by apply I4].
Qed.
Lemma newest_None h k p o : newest h k p = None → o ∈ h → op_key o = k → p (op_seq o) = false.
Proof.
  intros Hn Hin Hk. induction h as [|y h IH]; [by apply not_elem_of_nil in Hin|]. cbn in Hn.
  apply elem_of_cons in Hin as [->|Hin].
  - rewrite bool_decide_eq_true_2 in Hn by done. destruct (p (op_seq y)); [|done]. cbn in Hn. repeat case_match; done.
  - destruct (_ && _); [|by apply IH]. repeat case_match; done.
Qed.
Lemma newest_is h k p o :
  NoDup (map op_id h) → o ∈ h → op_key o = k → p (op_seq o) = true →
  (∀ o', o' ∈ h → op_key o' = k → p (op_seq o') = true → op_seq o' ≤ op_seq o) → newest h k p = Some o.
Proof.
  intros Hn Hin Hk Hp Hmax. destruct (newest h k p) as [o'|] eqn:E.
  - apply newest_Some in E as (Hin' & Hk' & Hp' & Hmax'). f_equal.
    assert (op_seq o' = op_seq o) as Hs by (apply N.le_antisymm; [by apply Hmax|by apply Hmax']).
    change (map op_id h) with (op_id <$> h) in Hn.
    apply list_elem_of_lookup in Hin as [i Hi]. apply list_elem_of_lookup in Hin' as [j Hj].
    assert (i = j) as ->; [|congruence].
    eapply (NoDup_lookup (op_id <$> h) i j (op_id o)); [done|by rewrite list_lookup_fmap, Hi|].
    rewrite list_lookup_fmap, Hj. cbn. unfold op_id. congruence.
  - by rewrite (newest_None h k p o E Hin Hk) in Hp.
Qed.
Lemma op_id_inj h o o' : NoDup (map op_id h) → o ∈ h → o' ∈ h → op_id o = op_id o' → o = o'.
Proof.
  intros Hn Hin Hin' He. change (map op_id h) with (op_id <$> h) in Hn.
  apply list_elem_of_lookup in Hin as [i Hi]. apply list_elem_of_lookup in Hin' as [j Hj].
  assert (i = j) as ->; [|congruence].
  eapply (NoDup_lookup (op_id <$> h) i j (op_id o)); [done|by rewrite list_lookup_fmap, Hi|]. rewrite list_lookup_fmap, Hj. cbn. congruence.
Qed.
End Ops.
Arguments OpKind : clear implicits.
Arguments Op : clear implicits.

(** ** Deliveries and scans *)
Section Mirror.
Context {RecordBatch ArrayRef Row : Type} `{ColumnarLaws RecordBatch ArrayRef Row} `{!WireColumns RecordBatch ArrayRef}.
Context (pk : list (list byte)) (s : Schema) (idx : list nat).
#[local] Abbreviation Op := (Op Row).
#[local] Abbreviation TableMirror := (TableMirror (RecordBatch:=RecordBatch)).
#[local] Abbreviation rkey := (row_key (RecordBatch:=RecordBatch) idx).
#[local] Abbreviation hidek i := (hide (row_key (RecordBatch:=RecordBatch) i)).

(** The operations of a run; an unknown kind and a watermark have none. *)
Definition run_kind (kind : TailEventKind) (r : Row) : option (OpKind Row) :=
  match kind with EAppend => Some (OAppend r) | EUpsert => Some (OUpsert r) | EDelete => Some ODelete | EWatermark => None end.
Definition run_ops (seq : N) (kind : TailEventKind) (run : RecordBatch) : list Op :=
  omap (λ r, k ← run_kind kind r; Some {| op_key := rkey r; op_seq := seq; op_kind := k |}) (rows_of run).

(** What a mirror has collected up to: at most [t]. *)
Definition raise (t t' : option N) : option N :=
  match t, t' with Some t, Some t' => Some (N.max t t') | Some t, None => Some t | None, t' => t' end.
(** A mirror from its installation on, with the operations delivered and the
    highest sequence collected. *)
Inductive reach (m0 : TableMirror) : list Op → option N → TableMirror → Prop :=
  | reach_start : reach m0 [] None m0
  | reach_deliver h t m now seq kind run m' :
      reach m0 h t m → schema_of run = s → apply now seq (op_str kind) run m = (m', Ok tt) →
      reach m0 (h ++ run_ops seq kind run)
        (match kind with EWatermark => raise t (gc_threshold now (observe_mark now seq m)) | _ => t end) m'
  | reach_scan h t m now property m' r :
      reach m0 h t m → overlay_for now property m = (m', r) → reach m0 h t m'.

(** Everything collected is in the metadata of the scan. *)
Definition collected_in (t w : option N) : Prop := ∀ q, newer_than w q = true → newer_than t q = true.

Definition appended (m : TableMirror) : list Op :=
  flat_map (λ a, map (λ r, {| op_key := rkey r; op_seq := ma_seq a; op_kind := OAppend r |}) (rows_of (ma_batch a))) (mr_appends m).
Definition entry_of (o : Op) (e : MirrorKeyed (RecordBatch:=RecordBatch)) : Prop :=
  mk_seq e = op_seq o ∧
  match mk_row e with Some b => ∃ r, rows_of b = [r] ∧ row_of_op o = Some r | None => row_of_op o = None end.
Definition held (m : TableMirror) (o : Op) : Prop :=
  o ∈ appended m ∨ ∃ e, mr_keyed m !! op_key o = Some e ∧ op_seq o ≤ mk_seq e.

Record mirror_inv (h : list Op) (t : option N) (m : TableMirror) : Prop := {
  mi_pk : mr_pk_cols m = pk;
  mi_appends : Forall (λ a, ma_keys a = Some (map rkey (rows_of (ma_batch a))) ∧ schema_of (ma_batch a) = s) (mr_appends m);
  mi_rows : ∀ o r, o ∈ h → row_of_op o = Some r → rkey r = op_key o;
  mi_appended : ∀ o, o ∈ appended m → o ∈ h;
  mi_nodup : NoDup (appended m);
  mi_entry : ∀ k e, mr_keyed m !! k = Some e → ∃ o, o ∈ h ∧ op_key o = k ∧ entry_of o e;
  mi_held : ∀ o, o ∈ h → newer_than t (op_seq o) = true → held m o;
  mi_once : ∀ o e, o ∈ appended m → mr_keyed m !! op_key o = Some e → mk_seq e ≠ op_seq o;
}.

(** *** Keeping it *)
#[local] Abbreviation MKeyed := (gmap (list byte) (MirrorKeyed (RecordBatch:=RecordBatch))).
Lemma upsert_key_spec (key : Key) (seq : N) (row : option RecordBatch) (K : MKeyed) :
  (∃ e, upsert_key key seq row K !! key = Some e ∧ seq ≤ mk_seq e) ∧
  (∀ k e, K !! k = Some e → ∃ e', upsert_key key seq row K !! k = Some e' ∧ mk_seq e ≤ mk_seq e') ∧
  (∀ k e, upsert_key key seq row K !! k = Some e → K !! k = Some e ∨ (k = key ∧ e = {| mk_seq := seq; mk_row := row |})).
Proof.
  unfold upsert_key. destruct (K !! key) as [e0|] eqn:E0; [destruct (N.leb_spec seq (mk_seq e0)) as [Hle|Hlt]|].
  - split_and!; [by exists e0|intros k e He; by exists e|intros k e He; by left].
  - split_and!.
    + eexists. by rewrite lookup_insert_eq.
    + intros k e He. destruct (decide (k = key)) as [->|Hk]; [|exists e; by rewrite lookup_insert_ne by done].
      eexists. rewrite lookup_insert_eq. split; [done|]. cbn. rewrite E0 in He. injection He as <-. lia.
    + intros k e [[<- <-]|[Hk He]]%lookup_insert_Some; [by right|by left].
  - split_and!.
    + eexists. by rewrite lookup_insert_eq.
    + intros k e He. assert (k ≠ key) by congruence. exists e. by rewrite lookup_insert_ne by done.
    + intros k e [[<- <-]|[Hk He]]%lookup_insert_Some; [by right|by left].
Qed.
Lemma upsert_rows_spec (seq : N) (row_of : nat → option RecordBatch) (l : list (nat * Key)) (K : MKeyed) :
  (∀ i k, (i, k) ∈ l → ∃ e, upsert_rows seq row_of l K !! k = Some e ∧ seq ≤ mk_seq e) ∧
  (∀ k e, K !! k = Some e → ∃ e', upsert_rows seq row_of l K !! k = Some e' ∧ mk_seq e ≤ mk_seq e') ∧
  (∀ k e, upsert_rows seq row_of l K !! k = Some e → K !! k = Some e ∨ ∃ i, (i, k) ∈ l ∧ e = {| mk_seq := seq; mk_row := row_of i |}).
Proof.
  revert K. induction l as [|[i k0] l IH]; intros K; cbn.
  { split_and!; [intros i k Hn; by apply not_elem_of_nil in Hn|intros k e He; by exists e|intros k e He; by left]. }
  destruct (upsert_key_spec k0 seq (row_of i) K) as (K1 & K2 & K3). destruct (IH (upsert_key k0 seq (row_of i) K)) as (I1 & I2 & I3). split_and!.
  - intros i' k [[= -> ->]|Hin]%elem_of_cons; [|by eapply I1]. destruct K1 as (e & He & Hs). destruct (I2 _ _ He) as (e' & He' & Hs').
    exists e'. split; [done|lia].
  - intros k e He. destruct (K2 k e He) as (e1 & He1 & Hs1). destruct (I2 k e1 He1) as (e' & He' & Hs'). exists e'. split; [done|lia].
  - intros k e He. destruct (I3 k e He) as [He1|(i' & Hin & ->)]; [|right; exists i'; split; [by right|done]].
    destruct (K3 k e He1) as [|[-> ->]]; [by left|]. right. exists i. split; [by left|done].
Qed.

Lemma in_run_ops seq kind run o : o ∈ run_ops seq kind run ↔ ∃ r k, r ∈ rows_of run ∧ run_kind kind r = Some k ∧ o = {| op_key := rkey r; op_seq := seq; op_kind := k |}.
Proof.
  unfold run_ops. rewrite list_elem_of_omap. split.
  - intros (r & Hr & Ho). destruct (run_kind kind r) as [k|] eqn:Ek; [|done]. injection Ho as <-. by exists r, k.
  - intros (r & k & Hr & Hk & ->). exists r. by rewrite Hk.
Qed.
Lemma run_ops_rows seq kind run o r : o ∈ run_ops seq kind run → row_of_op o = Some r → rkey r = op_key o.
Proof. intros (r' & k & Hr' & Hk & ->)%in_run_ops. unfold row_of_op. cbn. destruct kind; cbn in Hk; simplify_eq; cbn; congruence. Qed.
(** An operation that has arrived is not in the run that arrives now. *)
Lemma fresh_run h seq kind run o o' :
  NoDup (map op_id (h ++ run_ops seq kind run)) → o ∈ h → o' ∈ run_ops seq kind run → op_id o ≠ op_id o'.
Proof.
  rewrite map_app. intros (_ & Hd & _)%NoDup_app Ho Ho' He. apply (Hd (op_id o)); [by apply list_elem_of_fmap_2|].
  rewrite He. by apply list_elem_of_fmap_2.
Qed.
Lemma run_keys run keys : pk_indices s pk = Ok idx → schema_of run = s → encode_batch_keys run pk = Ok keys → keys = map rkey (rows_of run).
Proof. intros Hi Hs Hk. unfold encode_batch_keys in Hk. rewrite Hs, Hi in Hk. cbn in Hk. by apply convert_of in Hk. Qed.
Lemma appended_snoc m seq b : appended (push_append seq b (Some (map rkey (rows_of b))) m) =
  appended m ++ map (λ r, {| op_key := rkey r; op_seq := seq; op_kind := OAppend r |}) (rows_of b).
Proof. unfold appended, push_append. cbn. rewrite flat_map_app. cbn. by rewrite app_nil_r. Qed.

Lemma inv_grow h t m new grown m' :
  mirror_inv h t m → NoDup (map op_id (h ++ new)) →
  mr_pk_cols m' = pk →
  Forall (λ a, ma_keys a = Some (map rkey (rows_of (ma_batch a))) ∧ schema_of (ma_batch a) = s) (mr_appends m') →
  (∀ o r, o ∈ new → row_of_op o = Some r → rkey r = op_key o) →
  appended m' = appended m ++ grown → NoDup grown → (∀ o, o ∈ grown → o ∈ new) →
  (∀ k e, mr_keyed m !! k = Some e → ∃ e', mr_keyed m' !! k = Some e' ∧ mk_seq e ≤ mk_seq e') →
  (∀ k e, mr_keyed m' !! k = Some e →
     mr_keyed m !! k = Some e ∨ ∃ o, o ∈ new ∧ op_key o = k ∧ entry_of o e ∧ ∀ a, a ∈ grown → op_id a ≠ op_id o) →
  (∀ o, o ∈ new → o ∈ grown ∨ ∃ e, mr_keyed m' !! op_key o = Some e ∧ op_seq o ≤ mk_seq e) →
  mirror_inv (h ++ new) t m'.
Proof.
  intros [Hpk Happ Hrows Hin Hnd Hent Hheld Honce] Hn Hpk' Happ' Hrows' Heq Hg Hgn Hmono Horig Hnew.
  assert (∀ o o', o ∈ h → o' ∈ new → op_id o ≠ op_id o') as Hfresh.
  { intros o o' Ho Ho' He. rewrite map_app in Hn. apply NoDup_app in Hn as (_ & Hd & _). apply (Hd (op_id o)); [by apply list_elem_of_fmap_2|].
    rewrite He. by apply list_elem_of_fmap_2. }
  split; [done|done| | | | | |].
  - intros o r [Ho|Ho]%elem_of_app; [by apply Hrows|by apply Hrows'].
  - intros o. rewrite Heq. intros [Ho|Ho]%elem_of_app; apply elem_of_app; [left; by apply Hin|right; by apply Hgn].
  - rewrite Heq. apply NoDup_app. split_and!; [done| |done]. intros o Ho Ho'. by apply (Hfresh o o); [apply Hin|apply Hgn|].
  - intros k e He. destruct (Horig k e He) as [(o & Ho & Hk & Hoe)%Hent|(o & Ho & Hk & Hoe & _)]; exists o; split_and!; try done; apply elem_of_app; [by left|by right].
  - intros o [Ho|Ho]%elem_of_app Ht.
    + destruct (Hheld o Ho Ht) as [Ha|(e & He & Hs)]; [left; rewrite Heq; apply elem_of_app; by left|].
      destruct (Hmono _ _ He) as (e' & He' & Hs'). right. exists e'. split; [done|lia].
    + destruct (Hnew o Ho) as [Ha|He]; [left; rewrite Heq; apply elem_of_app; by right|by right].
  - intros o e Ho He. rewrite Heq in Ho. apply elem_of_app in Ho as [Ho|Ho].
    + destruct (Horig _ _ He) as [Hold|(o' & Ho' & Hk & [Hs _] & _)]; [by eapply Honce|]. intros Hq.
      apply (Hfresh o o'); [by apply Hin|done|]. unfold op_id. congruence.
    + destruct (Horig _ _ He) as [(o' & Ho' & Hk & Hs & _)%Hent|(o' & Ho' & Hk & [Hs _] & Hne)]; intros Hq.
      * apply (Hfresh o' o); [done|by apply Hgn|]. unfold op_id. congruence.
      * apply (Hne o Ho). unfold op_id. congruence.
Qed.

(** The upserts of some rows of a run. *)
Lemma run_upserts (seq : N) (kind : TailEventKind) (run : RecordBatch) (row_of : nat → option RecordBatch) (l : list (nat * Key)) (K : MKeyed) :
  (∀ i k, (i, k) ∈ l → ∃ r, rows_of run !! i = Some r ∧ rkey r = k) →
  (∀ i r, rows_of run !! i = Some r → ∃ k, run_kind kind r = Some k ∧
     entry_of {| op_key := rkey r; op_seq := seq; op_kind := k |} {| mk_seq := seq; mk_row := row_of i |}) →
  ∀ k e, upsert_rows seq row_of l K !! k = Some e → K !! k = Some e ∨
    ∃ o, o ∈ run_ops seq kind run ∧ op_key o = k ∧ op_seq o = seq ∧ entry_of o e ∧ ∃ i, (i, k) ∈ l.
Proof.
  intros Hl Hrow k e He. destruct (upsert_rows_spec seq row_of l K) as (_ & _ & H3).
  destruct (H3 k e He) as [|(i & Hin & ->)]; [by left|]. right. destruct (Hl i k Hin) as (r & Hr & Hk).
  destruct (Hrow i r Hr) as (kd & Hkd & Hen). eexists. split_and!; [apply in_run_ops; exists r, kd; split_and!; [by eapply list_elem_of_lookup_2|done|done]|done|done|done|by exists i].
Qed.
Lemma indexed_rows run i k : (i, k) ∈ indexed (map rkey (rows_of run)) ↔ ∃ r, rows_of run !! i = Some r ∧ rkey r = k.
Proof. rewrite indexed_spec. change (map rkey ?l) with (rkey <$> l). rewrite list_lookup_fmap_Some. naive_solver. Qed.

Lemma inv_keyed h t m seq kind run row_of m' :
  pk_indices s pk = Ok idx → mirror_inv h t m → NoDup (map op_id (h ++ run_ops seq kind run)) → schema_of run = s →
  (∀ i r, rows_of run !! i = Some r → ∃ k, run_kind kind r = Some k ∧
     entry_of {| op_key := rkey r; op_seq := seq; op_kind := k |} {| mk_seq := seq; mk_row := row_of i |}) →
  apply_keyed seq run row_of m = (m', Ok tt) → mirror_inv (h ++ run_ops seq kind run) t m'.
Proof.
  intros Hi Hinv Hn Hs Hrow Ha. unfold apply_keyed in Ha. destruct (require_pk m); [|done].
  rewrite (mi_pk _ _ _ Hinv) in Ha. destruct (encode_batch_keys run pk) as [keys|] eqn:Ek; [|done].
  apply run_keys in Ek as ->; [|done|done]. injection Ha as <-.
  destruct (upsert_rows_spec seq row_of (indexed (map rkey (rows_of run))) (mr_keyed m)) as (U1 & U2 & _).
  eapply (inv_grow h t m _ []); try done; cbn.
  - apply (mi_pk _ _ _ Hinv).
  - apply (mi_appends _ _ _ Hinv).
  - intros o r. apply run_ops_rows.
  - by rewrite app_nil_r.
  - constructor.
  - intros o Hn'. by apply not_elem_of_nil in Hn'.
  - intros k e He. eapply (run_upserts seq kind run) in He as [|(o & Ho & Hk & _ & Hen & _)]; [by left| | |done].
    + right. exists o. split_and!; [done|done|done|]. intros ? Hn'. by apply not_elem_of_nil in Hn'.
    + intros i k'. apply indexed_rows.
  - intros o (r & k & Hr & Hk & ->)%in_run_ops. right. cbn. apply list_elem_of_lookup in Hr as [i Hr].
    apply (U1 i). apply indexed_rows. by exists r.
Qed.

(** The append's rows that stay an append. *)
Definition append_ops (seq : N) (rows : list Row) : list Op :=
  map (λ r, {| op_key := rkey r; op_seq := seq; op_kind := OAppend r |}) rows.
Lemma run_ops_append seq run : run_ops seq EAppend run = append_ops seq (rows_of run).
Proof. unfold run_ops, append_ops. induction (rows_of run) as [|r rows IH]; [done|]. cbn. by f_equal. Qed.
Lemma append_ops_filter seq (f : Row → bool) rows : sublist (append_ops seq (List.filter f rows)) (append_ops seq rows).
Proof. induction rows as [|r rows IH]; cbn; [constructor|]. destruct (f r); cbn; by constructor. Qed.
Lemma in_append_ops seq rows o : o ∈ append_ops seq rows ↔ ∃ r, r ∈ rows ∧ o = {| op_key := rkey r; op_seq := seq; op_kind := OAppend r |}.
Proof. unfold append_ops. change (map ?f ?l) with (f <$> l). rewrite list_elem_of_fmap. naive_solver. Qed.
Lemma in_filter {A} (f : A → bool) l a : a ∈ List.filter f l ↔ a ∈ l ∧ f a = true.
Proof. by rewrite !list_elem_of_In, List.filter_In. Qed.
Lemma NoDup_run h seq kind run : NoDup (map op_id (h ++ run_ops seq kind run)) → NoDup (run_ops seq kind run).
Proof. rewrite map_app. intros (_ & _ & Hn)%NoDup_app. by eapply NoDup_fmap_1. Qed.

Lemma inv_append h t m seq run m' :
  pk ≠ [] → pk_indices s pk = Ok idx → mirror_inv h t m → NoDup (map op_id (h ++ run_ops seq EAppend run)) → schema_of run = s →
  apply_append seq run m = (m', Ok tt) → mirror_inv (h ++ run_ops seq EAppend run) t m'.
Proof.
  intros Hne Hi Hinv Hn Hs Ha. unfold apply_append in Ha. rewrite (mi_pk _ _ _ Hinv) in Ha. destruct pk as [|c pk'] eqn:Epk; [done|]. cbn [nonempty negb] in Ha.
  rewrite <-Epk in *. clear Hne. destruct (encode_batch_keys run pk) as [keys|] eqn:Ek; [|done]. apply run_keys in Ek as ->; [|done|done].
  pose proof (NoDup_run _ _ _ _ Hn) as Hnr.
  assert (∀ (rest : RecordBatch) (K : MKeyed) (f : Row → bool), schema_of rest = s → rows_of rest = List.filter f (rows_of run) →
    let m' := push_append seq rest (Some (map rkey (rows_of rest))) (with_items (mr_appends m) K m) in
    (∀ k e, mr_keyed m !! k = Some e → ∃ e', K !! k = Some e' ∧ mk_seq e ≤ mk_seq e') →
    (∀ k e, K !! k = Some e → mr_keyed m !! k = Some e ∨ ∃ r, r ∈ rows_of run ∧ rkey r = k ∧ (∀ r', rkey r' = k → f r' = false) ∧
       entry_of {| op_key := rkey r; op_seq := seq; op_kind := OAppend r |} e) →
    (∀ r, r ∈ rows_of run → f r = false → ∃ e, K !! rkey r = Some e ∧ seq ≤ mk_seq e) →
    mirror_inv (h ++ run_ops seq EAppend run) t m') as Hpush.
  { intros rest K f Hsr Hrr m1 Hmono Horig Hnew. eapply (inv_grow h t m _ (append_ops seq (rows_of rest)) m1); [done|done|apply (mi_pk _ _ _ Hinv)| | | | | |done| |].
    - cbn. apply Forall_app. split; [apply (mi_appends _ _ _ Hinv)|]. by constructor.
    - intros o r. apply run_ops_rows.
    - unfold m1. by rewrite appended_snoc.
    - eapply sublist_NoDup; [|rewrite Hrr; apply (append_ops_filter seq f)]. by rewrite <-run_ops_append.
    - intros o. rewrite run_ops_append, Hrr, !in_append_ops. setoid_rewrite in_filter. naive_solver.
    - intros k e He. destruct (Horig k e He) as [|(r & Hr & Hk & Hf & Hen)]; [by left|]. right.
      exists {| op_key := rkey r; op_seq := seq; op_kind := OAppend r |}. split_and!; [rewrite run_ops_append; apply in_append_ops; by exists r|done|done|].
      intros a' (r' & Hr' & ->)%in_append_ops. rewrite Hrr in Hr'. apply in_filter in Hr' as [_ Hr']. intros [= He']. rewrite Hf in Hr' by congruence. done.
    - intros o Ho. rewrite run_ops_append in Ho. apply in_append_ops in Ho as (r & Hr & ->). destruct (f r) eqn:Ef.
      + left. apply in_append_ops. exists r. split; [|done]. rewrite Hrr. by apply in_filter.
      + right. by apply Hnew. }
  case_bool_decide as Hke.
  { injection Ha as <-. assert (push_append seq run (Some (map rkey (rows_of run))) m = push_append seq run (Some (map rkey (rows_of run))) (with_items (mr_appends m) (mr_keyed m) m)) as -> by done.
    apply (Hpush run (mr_keyed m) (λ _, true)); [done| |intros k e He; by exists e|intros k e He; by left|done].
    by rewrite filter_keeps_all. }
  cbn zeta in Ha. rewrite masked_indexed in Ha.
  set (l := List.filter _ _) in Ha. set (K := upsert_rows _ _ _ _) in Ha.
  set (f := λ r, negb (routes m seq (rkey r))).
  assert (∀ i k, (i, k) ∈ l ↔ (∃ r, rows_of run !! i = Some r ∧ rkey r = k) ∧ routes m seq k = true) as Hl.
  { intros i k. unfold l. by rewrite in_filter, indexed_rows. }
  destruct (upsert_rows_spec seq (λ row, Some (slice_row run row)) l (mr_keyed m)) as (U1 & U2 & _). fold K in U1, U2.
  assert (∀ k e, K !! k = Some e → mr_keyed m !! k = Some e ∨ ∃ r, r ∈ rows_of run ∧ rkey r = k ∧ routes m seq k = true ∧
    entry_of {| op_key := rkey r; op_seq := seq; op_kind := OAppend r |} e) as Horig.
  { intros k e He. destruct (upsert_rows_spec seq (λ row, Some (slice_row run row)) l (mr_keyed m)) as (_ & _ & U3).
    destruct (U3 k e He) as [|(i & Hin & ->)]; [by left|]. right. apply Hl in Hin as [(r & Hr & Hk) Hro]. exists r.
    split_and!; [by eapply list_elem_of_lookup_2|done|done|split; [done|]]. cbn. exists r. split; [by apply slice_row_of|done]. }
  assert (∀ r, r ∈ rows_of run → f r = false → ∃ e, K !! rkey r = Some e ∧ seq ≤ mk_seq e) as Hnew.
  { intros r Hr Hf. apply list_elem_of_lookup in Hr as [i Hr]. apply (U1 i). apply Hl. split; [by exists r|]. unfold f in Hf. by apply negb_false_iff in Hf. }
  rewrite map_map in Ha. destruct (forallb id _) eqn:Eall.
  - injection Ha as <-. eapply (inv_grow h t m _ []); [done|done|apply (mi_pk _ _ _ Hinv)|apply (mi_appends _ _ _ Hinv)| | |constructor| |done| |].
    + intros o r. apply run_ops_rows.
    + cbn. by rewrite app_nil_r.
    + intros o Hn'. by apply not_elem_of_nil in Hn'.
    + intros k e He. destruct (Horig k e He) as [|(r & Hr & Hk & _ & Hen)]; [by left|]. right.
      exists {| op_key := rkey r; op_seq := seq; op_kind := OAppend r |}.
      split_and!; [rewrite run_ops_append; apply in_append_ops; by exists r|done|done|]. intros ? Hn'. by apply not_elem_of_nil in Hn'.
    + intros o Ho. rewrite run_ops_append in Ho. apply in_append_ops in Ho as (r & Hr & ->). right. apply Hnew; [done|]. unfold f.
      rewrite forallb_forall in Eall. specialize (Eall (routes m seq (rkey r))). unfold id in Eall. rewrite Eall; [done|].
      apply in_map_iff. exists r. split; [done|by apply list_elem_of_In].
  - rewrite map_map in Ha. destruct (filter_record_batch run _) as [rest|] eqn:Ef; [|done]. apply filter_of in Ef as [Hrr Hsr].
    2: { by rewrite length_map, num_rows_of. }
    rewrite masked_filter in Hrr. rewrite <-(map_map rkey (λ k, negb (routes m seq k))), masked_filter in Ha. injection Ha as <-.
    assert (List.filter (λ k, negb (routes m seq k)) (map rkey (rows_of run)) = map rkey (rows_of rest)) as ->.
    { rewrite Hrr. clear. induction (rows_of run) as [|r rows IH]; [done|]. cbn. destruct (negb _); cbn; by rewrite IH. }
    apply (Hpush rest K f); [by rewrite Hsr|done|done| |done].
    intros k e He. destruct (Horig k e He) as [|(r & Hr & Hk & Hro & Hen)]; [by left|]. right. exists r. split_and!; [done|done| |done].
    intros r' <-. unfold f. by rewrite Hro.
Qed.

Lemma newer_raise t q n : newer_than (raise t (Some q)) n = newer_than t n && (q <? n).
Proof. destruct t as [t|]; cbn; [|done]. destruct (N.ltb_spec (N.max t q) n), (N.ltb_spec t n), (N.ltb_spec q n); cbn; try done; lia. Qed.
Lemma appended_retained q m keyed marks w :
  appended (with_marks w marks (with_items (List.filter (λ a, q <? ma_seq a) (mr_appends m)) keyed m)) = List.filter (λ o, q <? op_seq o) (appended m).
Proof.
  unfold appended. cbn. induction (mr_appends m) as [|a l IH]; [done|]. cbn. rewrite List.filter_app, <-IH.
  assert (List.filter (λ o : Op, q <? op_seq o) (append_ops (ma_seq a) (rows_of (ma_batch a))) =
    if q <? ma_seq a then append_ops (ma_seq a) (rows_of (ma_batch a)) else []) as Hf.
  { unfold append_ops. induction (rows_of (ma_batch a)) as [|r rows IHr]; cbn; [by case_match|]. rewrite IHr. by case_match. }
  unfold append_ops in Hf. rewrite Hf. by case_match.
Qed.
Lemma inv_gc h t m now : mirror_inv h t m → mirror_inv h (raise t (gc_threshold now m)) (gc now m).
Proof.
  intros Hinv. unfold gc. destruct (gc_threshold now m) as [q|]; [|by destruct t]. destruct Hinv as [Hpk Happ Hrows Hin Hnd Hent Hheld Honce].
  assert (∀ k e, filter (λ ke, q < mk_seq (snd ke)) (mr_keyed m) !! k = Some e ↔ mr_keyed m !! k = Some e ∧ q < mk_seq e) as Hl.
  { intros k e. apply map_lookup_filter_Some. }
  split; [done| |done| | | | |].
  - cbn. rewrite Forall_forall in Happ |- *. intros a [Ha _]%in_filter. by apply Happ.
  - intros o. rewrite appended_retained. intros [Ho _]%in_filter. by apply Hin.
  - rewrite appended_retained. by apply NoDup_bool_filter.
  - intros k e [He _]%Hl. by apply Hent.
  - intros o Ho. rewrite newer_raise. intros [Ht Hq]%andb_true_iff. destruct (Hheld o Ho Ht) as [Ha|(e & He & Hs)].
    + left. rewrite appended_retained. by apply in_filter.
    + right. exists e. split; [|done]. apply Hl. split; [done|]. apply N.ltb_lt in Hq. lia.
  - intros o e. rewrite appended_retained. intros [Ho _]%in_filter [He _]%Hl. by apply Honce.
Qed.
Lemma inv_same h t m m' :
  mirror_inv h t m → mr_pk_cols m' = mr_pk_cols m → mr_appends m' = mr_appends m → mr_keyed m' = mr_keyed m → mirror_inv h t m'.
Proof.
  intros [Hpk Happ Hrows Hin Hnd Hent Hheld Honce] E1 E2 E3. assert (appended m' = appended m) as E by (unfold appended; by rewrite E2).
  split; rewrite ?E1, ?E2, ?E3, ?E; try done. unfold held. by rewrite E, E3.
Qed.

Lemma reach_inv peer property grace h t m :
  pk ≠ [] → pk_indices s pk = Ok idx → reach (fresh_mirror peer property s pk grace) h t m → NoDup (map op_id h) → mirror_inv h t m.
Proof.
  intros Hne Hi. induction 1 as [|h t m now seq kind run m' Hr IH Hs Ha|h t m now prop m' r Hr IH Ho]; intros Hn.
  - split; [done|constructor| | |constructor| | |].
    + intros o r Hn'. by apply not_elem_of_nil in Hn'.
    + intros o Hn'. by apply not_elem_of_nil in Hn'.
    + intros k e Hn'. cbn in Hn'. by rewrite lookup_empty in Hn'.
    + intros o Hn'. by apply not_elem_of_nil in Hn'.
    + intros o e Hn'. by apply not_elem_of_nil in Hn'.
  - assert (mirror_inv h t m) as Hinv.
    { apply IH. rewrite map_app in Hn. by apply NoDup_app in Hn as (? & _). }
    unfold apply in Ha. destruct kind; cbn in Ha.
    + by eapply inv_append.
    + eapply inv_keyed; [done|done|done|done| |exact Ha]. intros i r Hir. eexists. split; [done|]. split; [done|]. cbn. exists r. split; [by apply slice_row_of|done].
    + eapply inv_keyed; [done|done|done|done| |exact Ha]. intros i r Hir. by eexists.
    + injection Ha as <-. assert (run_ops seq EWatermark run = []) as ->.
      { unfold run_ops. induction (rows_of run); [done|]. done. }
      rewrite app_nil_r. apply inv_gc. eapply inv_same; [done|..]; unfold observe_mark; by case_match.
  - injection Ho as <- _. eapply inv_same; [by apply IH|done..].
Qed.

(** *** What is served *)
Definition of_key (k : Key) (rows : list Row) : list Row := List.filter (λ r, bool_decide (rkey r = k)) rows.
Lemma of_key_app k a b : of_key k (a ++ b) = of_key k a ++ of_key k b.
Proof. apply List.filter_app. Qed.
Lemma of_key_hide k K rows : of_key k (hidek idx K rows) = if bool_decide (k ∈ K) then [] else of_key k rows.
Proof.
  unfold of_key, hide. induction rows as [|r rows IH]; [by case_match|]. cbn.
  destruct (decide (rkey r ∈ K)) as [Hr|Hr]; [rewrite (bool_decide_eq_true_2 (rkey r ∈ K)) by done|rewrite (bool_decide_eq_false_2 (rkey r ∈ K)) by done]; cbn; rewrite IH.
  - case_bool_decide as Hk; [done|]. rewrite bool_decide_eq_false_2; [done|]. by intros <-.
  - case_bool_decide as Hk; [|done]. rewrite bool_decide_eq_false_2 by congruence. done.
Qed.

(** An append row is served unless its key has a newer entry. *)
Definition shadowed (m : TableMirror) (o : Op) : bool :=
  match mr_keyed m !! op_key o with Some e => op_seq o <? mk_seq e | None => false end.
Definition surviving (m : TableMirror) (w : option N) : list Op :=
  List.filter (λ o, newer_than w (op_seq o) && negb (shadowed m o)) (appended m).
Lemma in_newer_keys (m : TableMirror) (a : MirrorAppend) k : k ∈ newer_keys m a ↔ k ∈ default [] (ma_keys a) ∧ (∃ e, mr_keyed m !! k = Some e ∧ ma_seq a < mk_seq e).
Proof.
  unfold newer_keys. rewrite elem_of_list_to_set, in_filter. destruct (mr_keyed m !! k) as [e|]; [|naive_solver].
  rewrite N.ltb_lt. naive_solver.
Qed.
Lemma served_appends (m : TableMirror) w (appends : list MirrorAppend) bs :
  pk_indices s pk = Ok idx → mr_pk_cols m = pk →
  Forall (λ a, ma_keys a = Some (map rkey (rows_of (ma_batch a))) ∧ schema_of (ma_batch a) = s) appends →
  append_batches m w appends = Ok bs →
  batch_rows bs = omap row_of_op (List.filter (λ o, newer_than w (op_seq o) && negb (shadowed m o))
    (flat_map (λ a, append_ops (ma_seq a) (rows_of (ma_batch a))) appends)).
Proof.
  intros Hi Hpk. revert bs. induction appends as [|a appends IH]; intros bs Hall Hb; cbn in Hb |- *; [by injection Hb as <-|].
  apply Forall_cons in Hall as [[Hkeys Hsa] Hall]. rewrite List.filter_app, omap_app.
  assert (∀ rows, omap row_of_op (List.filter (λ o, newer_than w (op_seq o) && negb (shadowed m o)) (append_ops (ma_seq a) rows)) =
    if newer_than w (ma_seq a) then List.filter (λ r, negb (match mr_keyed m !! rkey r with Some e => ma_seq a <? mk_seq e | None => false end)) rows else []) as Hrow.
  { intros rows. destruct (newer_than w (ma_seq a)) eqn:Ew.
    - induction rows as [|r rows IHr]; [done|]. cbn. rewrite Ew.
      assert (shadowed m {| op_key := rkey r; op_seq := ma_seq a; op_kind := OAppend r |} = match mr_keyed m !! rkey r with Some e => ma_seq a <? mk_seq e | None => false end) as -> by done.
      destruct (match mr_keyed m !! rkey r with Some e => ma_seq a <? mk_seq e | None => false end); cbn; [|f_equal]; exact IHr.
    - induction rows as [|r rows IHr]; [done|]. cbn. rewrite Ew. exact IHr. }
  rewrite Hrow. destruct (newer_than w (ma_seq a)); cbn [negb] in Hb; [|by rewrite (IH bs)].
  apply bind_Ok in Hb as (served & Hs & Hb). apply bind_Ok in Hb as (rest & Hr & Hb). injection Hb as <-.
  rewrite <-(IH rest) by done.
  assert (rows_of served = List.filter (λ r, negb (match mr_keyed m !! rkey r with Some e => ma_seq a <? mk_seq e | None => false end)) (rows_of (ma_batch a))) as <-.
  { assert (rows_of served = hidek idx (newer_keys m a) (rows_of (ma_batch a))) as ->.
    { case_bool_decide as Hne; [injection Hs as <-; by rewrite Hne, hide_empty|]. rewrite Hpk in Hs.
      eapply suppress_batch_rows in Hs as [Hs _]; [done|by rewrite Hsa]. }
    unfold hide. apply List.filter_ext_in. intros r Hr'%list_elem_of_In. f_equal. apply eq_true_iff_eq. rewrite bool_decide_eq_true, in_newer_keys, Hkeys.
    cbn. split.
    - intros [_ (e & -> & He)]. by apply N.ltb_lt.
    - destruct (mr_keyed m !! rkey r) as [e|]; [|done]. intros He%N.ltb_lt. split; [by apply list_elem_of_fmap_2|by exists e]. }
  rewrite num_rows_of. destruct (rows_of served) as [|r rs] eqn:Er; [done|]. transitivity (batch_rows (served :: rest)); [done|]. by rewrite batch_rows_cons, Er.
Qed.
Lemma of_key_ops k (l : list Op) :
  (∀ o r, o ∈ l → row_of_op o = Some r → rkey r = op_key o) →
  of_key k (omap row_of_op l) = omap row_of_op (List.filter (λ o, bool_decide (op_key o = k)) l).
Proof.
  unfold of_key. induction l as [|o l IH]; intros Hl; [done|]. cbn. pose proof (Hl o) as Ho. destruct (row_of_op o) as [r|] eqn:Er; cbn.
  - rewrite (Ho r) by (by left || done). case_bool_decide; cbn; [rewrite Er; f_equal|]; apply IH; set_solver.
  - case_bool_decide; cbn; [rewrite Er|]; apply IH; set_solver.
Qed.

(** The entries give each key its own row. *)
Definition entry_rows (m : TableMirror) (k : Key) (e : MirrorKeyed) : list Row :=
  match served_row m k e with Some b => rows_of b | None => [] end.
Lemma keyed_rows_of_key m l k :
  (∀ k e r, (k, e) ∈ l → r ∈ entry_rows m k e → rkey r = k) → NoDup (map fst l) →
  of_key k (batch_rows (omap (λ '(k, e), served_row m k e) l)) =
  match List.find (λ ke, bool_decide (fst ke = k)) l with Some (_, e) => entry_rows m k e | None => [] end.
Proof.
  intros Hkey. induction l as [|[k0 e0] l IH]; [done|]. intros [Hk0 Hn]%NoDup_cons.
  assert (∀ k e r, (k, e) ∈ l → r ∈ entry_rows m k e → rkey r = k) as Hkey' by (intros; eapply Hkey; [by right|done]).
  assert (batch_rows (omap (λ '(k, e), served_row m k e) ((k0, e0) :: l)) = entry_rows m k0 e0 ++ batch_rows (omap (λ '(k, e), served_row m k e) l)) as ->.
  { unfold entry_rows. cbn. by destruct (served_row m k0 e0). }
  rewrite of_key_app, (IH Hkey' Hn). clear IH. cbn. case_bool_decide as Hk.
  - cbn in Hk. subst k0. assert (of_key k (entry_rows m k e0) = entry_rows m k e0) as ->.
    { unfold of_key. rewrite (List.filter_ext_in _ (λ _, true)); [apply filter_keeps_all|]. intros r Hr%list_elem_of_In. apply bool_decide_eq_true.
      eapply Hkey; [by left|done]. }
    destruct (List.find _ l) as [[k1 e1]|] eqn:Ef; [|apply app_nil_r]. apply List.find_some in Ef as [Hin He%bool_decide_eq_true]. cbn in He. subst k1.
    exfalso. apply Hk0. apply list_elem_of_In in Hin. by apply (list_elem_of_fmap_2 fst l (k, e1)).
  - assert (of_key k (entry_rows m k0 e0) = []) as ->; [|done]. unfold of_key. rewrite (List.filter_ext_in _ (λ _, false)).
    + by induction (entry_rows m k0 e0).
    + intros r Hr%list_elem_of_In. apply bool_decide_eq_false. intros He. apply Hk. cbn. rewrite <-He. symmetry. eapply Hkey; [by left|done].
Qed.

Definition live_at (m : TableMirror) (w : option N) (k : Key) : option MirrorKeyed :=
  match mr_keyed m !! k with Some e => if newer_than w (mk_seq e) then Some e else None | None => None end.
Lemma in_live_keyed (m : TableMirror) w k e : (k, e) ∈ live_keyed m w ↔ live_at m w k = Some e.
Proof.
  unfold live_keyed, live_at. rewrite in_filter, elem_of_map_to_list. split.
  - intros [-> Hn]. by rewrite Hn.
  - destruct (mr_keyed m !! k) as [e0|]; [|done]. destruct (newer_than w (mk_seq e0)) eqn:En; [|done]. intros [= <-]. done.
Qed.
Lemma live_keyed_nodup (m : TableMirror) w : NoDup (map fst (live_keyed m w)).
Proof.
  unfold live_keyed. pose proof (NoDup_fst_map_to_list (mr_keyed m)) as Hn. revert Hn. generalize (map_to_list (mr_keyed m)) as l.
  induction l as [|[k e] l IH]; cbn; [done|]. intros [Hk Hn]%NoDup_cons. destruct (newer_than w (mk_seq e)); cbn; [|by apply IH].
  apply NoDup_cons. split; [|by apply IH]. intros Hin. apply Hk. change (map fst ?l) with (fst <$> l) in *.
  apply list_elem_of_fmap in Hin as ([k' e'] & -> & Hin). apply in_filter in Hin as [Hin _]. by apply (list_elem_of_fmap_2 fst l (k', e')).
Qed.
Lemma find_live (m : TableMirror) w k :
  match List.find (λ ke, bool_decide (fst ke = k)) (live_keyed m w) with Some (_, e) => entry_rows m k e | None => [] end =
  match live_at m w k with Some e => entry_rows m k e | None => [] end.
Proof.
  destruct (List.find _ _) as [[k' e]|] eqn:Ef.
  - apply List.find_some in Ef as [Hin He%bool_decide_eq_true]. cbn in He. subst k'. apply list_elem_of_In, in_live_keyed in Hin. by rewrite Hin.
  - destruct (live_at m w k) as [e|] eqn:El; [|done]. apply in_live_keyed, list_elem_of_In in El.
    pose proof (List.find_none _ _ Ef _ El) as Hn. by apply bool_decide_eq_false in Hn.
Qed.
Lemma entry_row_key h t m k e r : mirror_inv h t m → mr_keyed m !! k = Some e → r ∈ entry_rows m k e → rkey r = k.
Proof.
  intros Hinv (o & Ho & <- & _ & He)%(mi_entry _ _ _ Hinv). unfold entry_rows, served_row. destruct (mk_row e) as [b|]; cbn; [|intros Hn; by apply not_elem_of_nil in Hn].
  destruct (match append_newest _ _ with Some _ => _ | None => _ end); [intros Hn; by apply not_elem_of_nil in Hn|].
  destruct He as (r' & -> & Hr'). intros ->%list_elem_of_singleton. by apply (mi_rows _ _ _ Hinv).
Qed.

(** What a scan gets of one key. *)
Lemma overlaid_key h t m w o rows k :
  pk_indices s pk = Ok idx → mirror_inv h t m → overlay_at w m = Ok o →
  of_key k (overlaid idx rows o) =
  (match live_at m w k with Some _ => [] | None => of_key k rows end) ++
  omap row_of_op (List.filter (λ o, bool_decide (op_key o = k)) (surviving m w)) ++
  match live_at m w k with Some e => entry_rows m k e | None => [] end.
Proof.
  intros Hi Hinv Ho. unfold overlay_at in Ho. apply bind_Ok in Ho as (bs & Hb & Ho). injection Ho as Ho.
  pose proof (served_appends m w _ bs Hi (mi_pk _ _ _ Hinv) (mi_appends _ _ _ Hinv) Hb) as Hbs.
  set (keys := list_to_set (map fst (live_keyed m w)) : gset Key) in Ho.
  assert (∀ k, k ∈ keys ↔ is_Some (live_at m w k)) as Hkeys.
  { intros k'. unfold keys. rewrite elem_of_list_to_set. change (map fst ?l) with (fst <$> l). rewrite list_elem_of_fmap. split.
    - intros ([k1 e] & -> & He). exists e. by apply in_live_keyed.
    - intros [e He]. exists (k', e). split; [done|by apply in_live_keyed]. }
  assert (overlaid idx rows o = hidek idx keys rows ++ batch_rows (bs ++ omap (λ '(k, e), served_row m k e) (live_keyed m w))) as ->.
  { subst o. destruct (bs ++ _) as [|b bs'] eqn:Eb; case_bool_decide as Hke; cbn; rewrite ?Hke, ?hide_empty, ?app_nil_r; done. }
  rewrite of_key_app, of_key_hide, batch_rows_app, of_key_app, Hbs. f_equal; [|f_equal].
  - clear Ho Hb. case_bool_decide as Hk; [apply Hkeys in Hk as [e ->]; done|]. destruct (live_at m w k) eqn:El; [|done].
    destruct Hk. apply Hkeys. by rewrite El.
  - rewrite of_key_ops; [done|]. intros o' r [Ho' _]%in_filter. apply (mi_rows _ _ _ Hinv). by apply (mi_appended _ _ _ Hinv).
  - rewrite keyed_rows_of_key; [apply find_live| |apply live_keyed_nodup]. intros k' e r He%in_live_keyed. apply (entry_row_key h t m k' e r Hinv).
    unfold live_at in He. destruct (mr_keyed m !! k'); [|done]. destruct (newer_than _ _); [|done]. by injection He as <-.
Qed.

Lemma newer_mono w a b : newer_than w a = true → a ≤ b → newer_than w b = true.
Proof. destruct w as [w|]; [|done]. cbn. rewrite !N.ltb_lt. lia. Qed.
Lemma append_newest_in m k q :
  Forall (λ a, ma_keys a = Some (map rkey (rows_of (ma_batch a))) ∧ schema_of (ma_batch a) = s) (mr_appends m) →
  append_newest m k = Some q → ∃ o, o ∈ appended m ∧ op_key o = k ∧ op_seq o = q.
Proof.
  unfold append_newest, appended. intros Hall.
  assert (∀ acc, (∀ q, acc = Some q → ∃ o, o ∈ flat_map (λ a, append_ops (ma_seq a) (rows_of (ma_batch a))) (mr_appends m) ∧ op_key o = k ∧ op_seq o = q) →
    ∀ l, (∀ a, a ∈ l → a ∈ mr_appends m) →
    foldl (λ newest a, if bool_decide (k ∈ default [] (ma_keys a)) then Some (N.max (default (ma_seq a) newest) (ma_seq a)) else newest) acc l = Some q →
    ∃ o, o ∈ flat_map (λ a, append_ops (ma_seq a) (rows_of (ma_batch a))) (mr_appends m) ∧ op_key o = k ∧ op_seq o = q) as Hgo.
  { intros acc Hacc l. revert acc Hacc. induction l as [|a l IH]; intros acc Hacc Hl; cbn; [by apply Hacc|]. apply IH; [|set_solver].
    intros q'. case_bool_decide as Hk; [|by apply Hacc]. intros [= <-]. rewrite Forall_forall in Hall.
    destruct (Hall a ltac:(set_solver)) as [Hkeys _]. rewrite Hkeys in Hk. cbn in Hk. change (map rkey ?l) with (rkey <$> l) in Hk.
    apply list_elem_of_fmap in Hk as (r & -> & Hr).
    destruct acc as [q0|]; cbn; [destruct (N.max_spec q0 (ma_seq a)) as [[_ ->]|[_ ->]]; [|by apply Hacc]|rewrite N.max_id].
    all: eexists; split; [apply list_elem_of_In, in_flat_map; exists a; split; [apply list_elem_of_In, Hl; by left|];
      apply list_elem_of_In, in_append_ops; by exists r|done]. }
  apply Hgo; [done|done].
Qed.

(** The one row of a key whose newest operation the map has. *)
Lemma entry_rows_newest h t m k e o :
  mirror_inv h t m → mr_keyed m !! k = Some e → entry_of o e → (∀ x, x ∈ h → op_key x = k → op_seq x ≤ op_seq o) →
  entry_rows m k e = option_list (row_of_op o).
Proof.
  intros Hinv He [Hs Hrow] Hmax. unfold entry_rows, served_row. destruct (mk_row e) as [b|]; cbn; [|by rewrite Hrow].
  destruct Hrow as (r & Hb & ->). destruct (append_newest m k) as [q|] eqn:Eq; [|by rewrite Hb].
  apply append_newest_in in Eq as (x & Hx & Hk & <-); [|apply (mi_appends _ _ _ Hinv)].
  destruct (N.ltb_spec (mk_seq e) (op_seq x)) as [Hlt|]; [|cbn; by rewrite Hb].
  specialize (Hmax x (mi_appended _ _ _ Hinv x Hx) Hk). lia.
Qed.
Lemma appended_row m o : o ∈ appended m → ∃ r, op_kind o = OAppend r.
Proof. intros (a & _ & (r & _ & ->)%list_elem_of_In%in_append_ops)%list_elem_of_In%in_flat_map. by exists r. Qed.

Section Scan.
Context (h : list Op) (t : option N) (m : TableMirror) (w : option N) (base : Key → option Row) (k : Key).
Context (Hinv : mirror_inv h t m) (Hn : NoDup (map op_id h)) (Hd : disciplined h base) (Hc : collected_in t w).
Definition covered (q : N) : bool := negb (newer_than w q).

(** A deletion that is not covered is in the map, and newer appends of its key
    are not hidden by anything older. *)
Lemma uncovered_delete d : d ∈ h → row_of_op d = None → newer_than w (op_seq d) = true →
  ∃ e, mr_keyed m !! op_key d = Some e ∧ op_seq d ≤ mk_seq e.
Proof.
  intros Hin Hrow Hw. destruct (mi_held _ _ _ Hinv d Hin (Hc _ Hw)) as [Ha|]; [|done].
  apply appended_row in Ha as [r Hr]. unfold row_of_op in Hrow. by rewrite Hr in Hrow.
Qed.
Lemma live_newest e : live_at m w k = Some e → mr_keyed m !! k = Some e ∧ newer_than w (mk_seq e) = true.
Proof. unfold live_at. destruct (mr_keyed m !! k) as [e0|]; [|done]. destruct (newer_than w (mk_seq e0)) eqn:E; [|done]. by intros [= <-]. Qed.
Lemma before_append o r x :
  o ∈ h → op_kind o = OAppend r → op_key o = k → x ∈ h → op_key x = k → op_seq x < op_seq o → newer_than w (op_seq x) = true →
  ∃ d e, row_of_op d = None ∧ d ∈ h ∧ op_key d = k ∧ op_seq x ≤ op_seq d ∧ mr_keyed m !! k = Some e ∧ op_seq d ≤ mk_seq e.
Proof.
  intros Ho Hr Hk Hx Hkx Hlt Hw. pose proof (Hd o r Ho Hr) as Hst. unfold state in Hst. rewrite Hk in Hst.
  destruct (newest h k (λ q, q <? op_seq o)) as [d|] eqn:Ed.
  - apply newest_Some in Ed as (Hdin & Hdk & _ & Hmax). assert (op_seq x ≤ op_seq d) as Hle by (apply Hmax; [done|done|by apply N.ltb_lt]).
    destruct (uncovered_delete d Hdin Hst) as (e & He & Hs); [by eapply newer_mono|]. rewrite Hdk in He. by exists d, e.
  - apply N.ltb_lt in Hlt. by rewrite (newest_None _ _ _ _ Ed Hx Hkx) in Hlt.
Qed.

(** Nothing of the key is uncovered. *)
Lemma key_covered : (∀ x, x ∈ h → op_key x = k → newer_than w (op_seq x) = false) →
  live_at m w k = None ∧ List.filter (λ o, bool_decide (op_key o = k)) (surviving m w) = [].
Proof.
  intros Hall. split.
  - destruct (live_at m w k) as [e|] eqn:El; [|done]. apply live_newest in El as [He Hw].
    apply (mi_entry _ _ _ Hinv) in He as (x & Hx & Hkx & Hs & _). rewrite Hs in Hw. by rewrite Hall in Hw.
  - apply elem_of_nil_inv. intros x [Hx Hkx%bool_decide_eq_true]%in_filter. unfold surviving in Hx.
    apply in_filter in Hx as [Hx [Hw _]%andb_true_iff]. rewrite Hall in Hw; [done|by apply (mi_appended _ _ _ Hinv)|done].
Qed.
(** The newest operation of the key has its entry. *)
Lemma key_entry o e :
  o ∈ h → op_key o = k → (∀ x, x ∈ h → op_key x = k → op_seq x ≤ op_seq o) → newer_than w (op_seq o) = true →
  mr_keyed m !! k = Some e → op_seq o ≤ mk_seq e →
  live_at m w k = Some e ∧ entry_of o e ∧ List.filter (λ o, bool_decide (op_key o = k)) (surviving m w) = [].
Proof.
  intros Ho Hk Hmax Hw He Hs. destruct (mi_entry _ _ _ Hinv k e He) as (x & Hx & Hkx & Hen). pose proof Hen as [Hsx _].
  assert (x = o) as ->.
  { apply (op_id_inj h); [done|done|done|]. unfold op_id. f_equal; [congruence|]. specialize (Hmax x Hx Hkx). lia. }
  split_and!; [|done|].
  - unfold live_at. by rewrite He, Hsx, Hw.
  - apply elem_of_nil_inv. intros y [Hy Hky%bool_decide_eq_true]%in_filter. unfold surviving in Hy.
    apply in_filter in Hy as [Hy [_ Hsh]%andb_true_iff]. unfold shadowed in Hsh. rewrite Hky, He in Hsh.
    apply negb_true_iff, N.ltb_ge in Hsh. pose proof (mi_appended _ _ _ Hinv y Hy) as Hyh. specialize (Hmax y Hyh Hky).
    assert (y = o) as -> by (apply (op_id_inj h); [done|done|done|unfold op_id; f_equal; [congruence|lia]]).
    apply (mi_once _ _ _ Hinv o e Hy); [by rewrite Hk|done].
Qed.
(** The newest operation of the key is an append that was not routed. *)
Lemma key_append o r :
  o ∈ appended m → op_kind o = OAppend r → op_key o = k → (∀ x, x ∈ h → op_key x = k → op_seq x ≤ op_seq o) →
  newer_than w (op_seq o) = true →
  List.filter (λ o, bool_decide (op_key o = k)) (surviving m w) = [o] ∧
  match live_at m w k with Some e => entry_rows m k e = [] | None => state h base covered k = None end.
Proof.
  intros Ha Hr Hk Hmax Hw. pose proof (mi_appended _ _ _ Hinv o Ha) as Ho.
  assert (∀ x, x ∈ h → op_key x = k → x ≠ o → op_seq x < op_seq o) as Hlt.
  { intros x Hx Hkx Hne. specialize (Hmax x Hx Hkx). apply N.le_lteq in Hmax as [|He]; [done|]. destruct Hne.
    apply (op_id_inj h); [done|done|done|]. unfold op_id. congruence. }
  split.
  - apply singleton_of; [by apply NoDup_bool_filter, NoDup_bool_filter, (mi_nodup _ _ _ Hinv)|]. intros x. unfold surviving.
    rewrite !in_filter, bool_decide_eq_true, andb_true_iff, negb_true_iff. split.
    + intros [[Hx [Hwx Hsh]] Hkx]. destruct (decide (op_seq x = op_seq o)) as [He|Hne].
      { apply (op_id_inj h); [done|by apply (mi_appended _ _ _ Hinv)|done|]. unfold op_id. congruence. }
      exfalso. pose proof (mi_appended _ _ _ Hinv x Hx) as Hxh.
      destruct (before_append o r x Ho Hr Hk Hxh Hkx) as (d & e & Hrow & Hdh & Hdk & Hle & He & Hs); [specialize (Hmax x Hxh Hkx); lia|done|].
      unfold shadowed in Hsh. rewrite Hkx, He in Hsh. apply N.ltb_ge in Hsh.
      destruct (appended_row m x Hx) as [r' Hr']. assert (d = x) as ->; [|unfold row_of_op in Hrow; by rewrite Hr' in Hrow].
      apply (op_id_inj h); [done|done|done|]. unfold op_id. f_equal; [congruence|lia].
    + intros ->. split_and!; [done|done| |done]. unfold shadowed. rewrite Hk. destruct (mr_keyed m !! k) as [e|] eqn:Ee; [|done].
      apply N.ltb_ge. destruct (mi_entry _ _ _ Hinv k e Ee) as (x & Hx & Hkx & -> & _). by apply Hmax.
  - destruct (live_at m w k) as [e|] eqn:El.
    + apply live_newest in El as [Ee Hwe]. destruct (mi_entry _ _ _ Hinv k e Ee) as (x & Hx & Hkx & Hs & Hen).
      assert (op_seq x ≠ op_seq o) as Hne by (rewrite <-Hs; apply (mi_once _ _ _ Hinv o e Ha); by rewrite Hk).
      destruct (before_append o r x Ho Hr Hk Hx Hkx) as (d & e' & Hrow & Hdh & Hdk & Hle & He' & Hsd).
      { specialize (Hmax x Hx Hkx). lia. }
      { by rewrite <-Hs. }
      rewrite Ee in He'. injection He' as <-. assert (d = x) as ->.
      { apply (op_id_inj h); [done|done|done|]. unfold op_id. f_equal; [congruence|lia]. }
      unfold entry_rows, served_row. destruct (mk_row e) as [b|]; [|done]. destruct Hen as (r' & _ & Hr'). congruence.
    + assert (∀ d, d ∈ h → op_key d = k → row_of_op d = None → newer_than w (op_seq d) = true → False) as Hno.
      { intros d Hdh Hdk Hrow Hwd. destruct (uncovered_delete d Hdh Hrow Hwd) as (e & He & Hs). rewrite Hdk in He.
        unfold live_at in El. rewrite He in El. by rewrite (newer_mono w _ _ Hwd Hs) in El. }
      pose proof (Hd o r Ho Hr) as Hst. unfold state in Hst |- *. rewrite Hk in Hst.
      destruct (newest h k covered) as [c|] eqn:Ec.
      * apply newest_Some in Ec as (Hch & Hck & Hcc & Hcmax). unfold covered in Hcc. apply negb_true_iff in Hcc.
        assert (op_seq c < op_seq o) as Hco by (apply Hlt; [done|done|intros ->; congruence]).
        destruct (newest h k (λ q, q <? op_seq o)) as [d|] eqn:Ed.
        2: { apply N.ltb_lt in Hco. by rewrite (newest_None _ _ _ _ Ed Hch Hck) in Hco. }
        apply newest_Some in Ed as (Hdh & Hdk & _ & Hdmax).
        destruct (newer_than w (op_seq d)) eqn:Ewd; [by destruct (Hno d)|].
        assert (c = d) as ->; [|done]. apply (op_id_inj h); [done|done|done|]. unfold op_id. f_equal; [congruence|]. apply N.le_antisymm.
        -- apply Hdmax; [done|done|by apply N.ltb_lt].
        -- apply Hcmax; [done|done|]. unfold covered. by rewrite Ewd.
      * destruct (newest h k (λ q, q <? op_seq o)) as [d|] eqn:Ed; [|done]. apply newest_Some in Ed as (Hdh & Hdk & _ & _).
        pose proof (newest_None _ _ _ _ Ec Hdh Hdk) as Hwd. unfold covered in Hwd. apply negb_false_iff in Hwd. by destruct (Hno d).
Qed.
End Scan.

End Mirror.
