(* ===== verification/PeerWire.v ===== *)
(** * From the window to the mirror

    What the server puts on the wire is what the mirror applies: the header says
    the window's schema and keys, a wire batch is one run with the item's rows, a
    heartbeat a watermark; and a subscription delivers nothing its snapshot had.
    Tickets round-trip. *)
From S2P Require Import Prelude Text Json TailNames Tail Keyed Buffer Overlay OverlayView TailApi Peer.
#[local] Open Scope N_scope.

(** ** Tickets *)
Section Tickets.
Context {V : Type} `{JsonLaws V} (ident_to_string : TableIdent → list byte).
(** Names that can be told apart in the dotted form. *)
Definition plain (t : TableIdent) : Prop :=
  ident_to_string t = join_with DOT (namespace t ++ [table_name t]) ∧ utf8_valid (ident_to_string t) = true ∧
  namespace t ≠ [] ∧ Forall (λ p, p ≠ [] ∧ DOT ∉ p) (namespace t ++ [table_name t]).
Lemma filter_nonempty (l : list (list byte)) : Forall (λ p, p ≠ []) l → List.filter nonempty l = l.
Proof. induction 1 as [|p l Hp _ IH]; [done|]. cbn. destruct p; [done|]. cbn. by rewrite IH. Qed.
Lemma parse_ticket_ok t v kvs :
  plain t → NoDup (map fst kvs) → built (j_obj kvs) → (list_to_map kvs : gmap string V) !! "table"%string = Some (j_str (bytes_str (ident_to_string t))) →
  to_vec (j_obj kvs) = Ok v →
  parse_ticket_table v = Ok (t, s ← (list_to_map kvs : gmap string V) !! "from_seq"%string; as_u64 s).
Proof.
  intros (Hs & _ & Hne & Hp) Hn Hb Ht Hv. unfold parse_ticket_table. rewrite (from_slice_to_vec _ _ Hb Hv). cbn.
  rewrite !j_get_obj by done. rewrite Ht. cbn. rewrite as_str_str. cbn. rewrite str_bytes_str, Hs, split_join.
  - rewrite filter_nonempty by (eapply Forall_impl; [exact Hp|]; naive_solver). rewrite length_app. cbn.
    assert (∃ n, (length (namespace t) + 1 = S (S n))%nat) as [n ->] by (destruct (namespace t) as [|p ns]; [done|exists (length ns); cbn; lia]). cbn.
    rewrite removelast_last, List.last_last. by destruct t.
  - by destruct (namespace t).
  - eapply Forall_impl; [exact Hp|]. naive_solver.
Qed.
(** A ticket on a table with plain names is read back as it was made. *)
Lemma ticket_roundtrip (tk : TailTicket) m :
  match tk with Tables => True | Snapshot t => plain t | Subscribe t q => plain t ∧ is_u64 q end →
  encode ident_to_string tk = Ok m → from_any m = Ok (Some tk).
Proof.
  destruct tk as [|t|t q]; cbn.
  - by intros _ [= <-].
  - intros Hp (v & Hv & [= <-])%bind_Ok. unfold from_any. cbn.
    assert (NoDup (map fst [("table"%string, j_str (bytes_str (ident_to_string t)))])) as Hn1 by (cbn; keys).
    assert (built (j_obj [("table"%string, j_str (bytes_str (ident_to_string t)))])) as Hb.
    { apply built_obj; [cbn; keys|]. repeat constructor. unfold utf8. rewrite str_bytes_str. apply Hp. }
    pose proof (parse_ticket_ok t v _ Hp Hn1 Hb eq_refl Hv) as ->. done.
  - intros [Hp Hq] (v & Hv & [= <-])%bind_Ok. unfold from_any. cbn.
    assert (NoDup (map fst [("table"%string, j_str (bytes_str (ident_to_string t))); ("from_seq"%string, j_u64 q)])) as Hn1 by (cbn; keys).
    assert (built (j_obj [("table"%string, j_str (bytes_str (ident_to_string t))); ("from_seq"%string, j_u64 q)])) as Hb.
    { apply built_obj; [cbn; keys|]. repeat constructor; [|done]. unfold utf8. rewrite str_bytes_str. apply Hp. }
    pose proof (parse_ticket_ok t v _ Hp Hn1 Hb eq_refl Hv) as ->.
    transitivity (Ok (Some (Subscribe t (default 0 (as_u64 (V:=V) (j_u64 q)))))); [done|]. by rewrite as_u64_u64.
Qed.
End Tickets.

(** ** Subscriptions *)
Section Subscription.
Context {RecordBatch : Type}.
#[local] Abbreviation TailEvent := (TailEvent (RecordBatch:=RecordBatch)).
Definition sent_op (x : Sent (RecordBatch:=RecordBatch)) : option (N * TailEventKind * RecordBatch) :=
  match x with Data seq kind (Some b) => Some (seq, kind, b) | _ => None end.
Definition event_ops (ev : TailEvent) : list (N * TailEventKind * RecordBatch) :=
  match te_kind ev with EWatermark => [] | kind => map (λ b, (te_seq ev, kind, b)) (te_batches ev) end.
(** The events up to the end of the stream. *)
Fixpoint events_of (wakes : list (Wake (RecordBatch:=RecordBatch))) : list TailEvent :=
  match wakes with
  | [] | Lagged _ :: _ | Closed :: _ => []
  | Event ev :: wakes => ev :: events_of wakes
  | Tick :: wakes => events_of wakes
  end.
Lemma subscribe_loop_ops ident high last wakes :
  omap sent_op (subscribe_loop ident high last wakes) =
  flat_map event_ops (List.filter (λ ev, bool_decide (te_ident ev = ident) && (high <? te_seq ev)) (events_of wakes)).
Proof.
  revert last. induction wakes as [|[ev| |n|] wakes IH]; intros last; cbn; [done| |by rewrite IH|done|done].
  case_bool_decide as Hid; cbn; [|apply IH]. assert (∀ kind bs l, omap sent_op (map (λ b, Data (te_seq ev) kind (Some b)) bs ++ l) =
    map (λ b, (te_seq ev, kind, b)) bs ++ omap sent_op l) as Hbs.
  { intros kind bs l. induction bs as [|b bs IHb]; [done|]. cbn. f_equal. exact IHb. }
  unfold event_ops. destruct (te_kind ev) eqn:Ek, (high <? te_seq ev); cbn; rewrite ?Hbs, ?IH; cbn; unfold event_ops; rewrite ?Ek; done.
Qed.
(** A subscription delivers the window above its cursor and then exactly the
    table's events above the window's head: none twice. *)
Lemma subscription_exact ident from_seq snap wakes :
  omap sent_op (subscribe_stream ident from_seq snap wakes) =
  map (λ i, (ti_seq i, ti_kind i, ti_batch i)) (List.filter (λ i, from_seq <? ti_seq i) (tw_items snap)) ++
  flat_map event_ops (List.filter (λ ev, bool_decide (te_ident ev = ident) && (tw_high snap <? te_seq ev)) (events_of wakes)).
Proof.
  unfold subscribe_stream. rewrite omap_app, subscribe_loop_ops. f_equal.
  induction (List.filter _ (tw_items snap)) as [|i l IH]; [done|]. cbn. f_equal. exact IH.
Qed.
End Subscription.

(** ** A wire batch and its run *)

(** The schema as the wire has it: every column nullable. *)
Definition relaxed (s : Schema) : Schema := map (λ f, {| f_name := f_name f; f_type := f_type f; f_nullable := true |}) s.
(** What the wire form relies on: arrays give back their values, a batch has the
    columns it was made of and is made of its own columns, its rows are those of its columns, a slice is a part
    of them. *)
Class WireLaws (RecordBatch ArrayRef Row : Type) `{ColumnarLaws RecordBatch ArrayRef Row} `{!WireColumns RecordBatch ArrayRef} := {
  u64_values_array l : Forall (λ n, is_u64 n) l → u64_values (u64_array l) = Some l;
  utf8_values_array l : utf8_values (utf8_array l) = Some l;
  try_new_columns s cols b : try_new s cols = Ok b → map (column b) (seq 0 (length s)) = cols;
  try_new_relaxed b : schema_of b ≠ [] → is_ok (try_new (relaxed (schema_of b)) (map (column b) (seq 0 (length (schema_of b))))) = true;
  array_len_u64 l : array_len (u64_array l) = length l;
  array_len_column b i : (i < length (schema_of b))%nat → array_len (column b i) = num_rows b;
  rows_of_columns b b' : schema_of b ≠ [] → length (schema_of b) = length (schema_of b') →
    (∀ i, (i < length (schema_of b))%nat → column b i = column b' i) → rows_of b = rows_of b';
  slice_rows b : rows_of (slice b 0 (num_rows b)) = rows_of b;
  slice_schema_of b i n : schema_of (slice b i n) = schema_of b;
}.
Section Wire.
Context {RecordBatch ArrayRef Row : Type} `{WireLaws RecordBatch ArrayRef Row}.

(** The header gives back the window's description. *)
Lemma header_roundtrip ident_to_string s t property high pk :
  is_u64 high → (∀ f, f ∈ s → f_name f ≠ SEQ_COL ∧ f_name f ≠ OP_COL) → pk ≠ [] → Forall (λ c, c ≠ [] ∧ COMMA ∉ c) pk →
  parse_header (wire_schema ident_to_string s t property high pk) =
  Ok (property, map (λ f, {| f_name := f_name f; f_type := f_type f; f_nullable := true |}) s, pk, high).
Proof.
  intros Hhigh Hs Hne Hpk. set (wire := wire_schema _ _ _ _ _ _).
  assert (ws_meta wire !! META_VERSION = Some (str_bytes TAIL_PROTOCOL_VERSION)) as E1 by done.
  assert (ws_meta wire !! META_WATERMARK_PROPERTY = Some property) as E2 by done.
  assert (ws_meta wire !! META_HIGH = Some (print_u64 high)) as E3 by done.
  assert (ws_meta wire !! META_PK_COLS = Some (join_with COMMA pk)) as E4 by done.
  assert (List.filter (λ f, negb (bool_decide (f_name f = SEQ_COL)) && negb (bool_decide (f_name f = OP_COL))) (ws_fields wire) =
    map (λ f, {| f_name := f_name f; f_type := f_type f; f_nullable := true |}) s) as E5.
  { unfold wire, wire_schema. cbn [ws_fields]. rewrite List.filter_app.
    assert (∀ g b, List.filter (λ f, negb (bool_decide (f_name f = SEQ_COL)) && negb (bool_decide (f_name f = OP_COL)))
      [{| f_name := SEQ_COL; f_type := g; f_nullable := b |}; {| f_name := OP_COL; f_type := Utf8; f_nullable := b |}] = []) as -> by done.
    rewrite app_nil_r. clear -Hs. induction s as [|f s IH]; [done|]. cbn [map List.filter f_name].
    destruct (Hs f) as [H1 H2]; [by left|]. rewrite !bool_decide_eq_false_2 by done. cbn [negb andb]. f_equal. apply IH. intros f' Hf'. apply Hs. by right. }
  unfold parse_header. rewrite E1, E2, E3, E4, E5. cbn [ok_or mbind result_bind option_bind default from_option].
  rewrite parse_print_u64, split_join, filter_nonempty by (done || (eapply Forall_impl; [exact Hpk|]; naive_solver)).
  by rewrite bool_decide_eq_true_2.
Qed.

Lemma runs_constant {A} `{EqDecision A} (x : A) n start : runs_from start (replicate (S n) x) = [(x, start, S n)].
Proof.
  revert start. induction n as [|n IH]; intros start; [done|]. change (replicate (S (S n)) x) with (x :: replicate (S n) x).
  cbn [runs_from]. rewrite IH. by rewrite decide_True.
Qed.
Lemma position_notin s name : (∀ f, f ∈ s → f_name f ≠ name) → position (λ f, bool_decide (f_name f = name)) s = None.
Proof. induction s as [|f s IH]; intros Hs; [done|]. cbn. rewrite bool_decide_eq_false_2 by (apply Hs; by left). rewrite IH; [done|]. intros; apply Hs; by right. Qed.
Lemma position_app s s' name : (∀ f, f ∈ s → f_name f ≠ name) →
  position (λ f, bool_decide (f_name f = name)) (s ++ s') = (λ i, length s + i)%nat <$> position (λ f, bool_decide (f_name f = name)) s'.
Proof.
  induction s as [|f s IH]; intros Hs; cbn; [by destruct (position _ s')|]. rewrite bool_decide_eq_false_2 by (apply Hs; by left).
  rewrite IH by (intros; apply Hs; by right). by destruct (position _ s').
Qed.
Lemma index_of_field s i f : NoDup (map f_name s) → s !! i = Some f → index_of s (f_name f) = Some i.
Proof.
  unfold index_of. revert i. induction s as [|g s IH]; intros i; [done|]. intros [Hg Hn]%NoDup_cons Hi. cbn. destruct i as [|i]; cbn in Hi.
  - injection Hi as ->. by rewrite bool_decide_eq_true_2.
  - rewrite bool_decide_eq_false_2; [by rewrite (IH i)|]. intros He. apply Hg. rewrite He. apply list_elem_of_fmap_2. by eapply list_elem_of_lookup_2.
Qed.

(** Column names are distinct and none is a wire column's. *)
Definition wireable (s : Schema) : Prop := NoDup (map f_name s) ∧ ∀ f, f ∈ s → f_name f ≠ SEQ_COL ∧ f_name f ≠ OP_COL.
Lemma map_result_ext {A B} (f : A → result B) l bs :
  map_result f l = Ok bs → length bs = length l ∧ ∀ i a, l !! i = Some a → ∃ b, bs !! i = Some b ∧ f a = Ok b.
Proof.
  revert bs. induction l as [|a l IH]; intros bs; cbn; [intros [= <-]; by split|]. intros (b & Hb & Hr)%bind_Ok. apply bind_Ok in Hr as (rest & Hrest & Hr).
  injection Hr as <-. destruct (IH _ Hrest) as [Hlen Hall]. split; [cbn; by f_equal|]. intros [|i] a'; cbn; [|by apply Hall]. intros [= <-]. by exists b.
Qed.
Lemma wire_columns s b columns rows :
  wireable s → schema_of b = s → map_result (wire_column (Some b) rows) (relaxed s) = Ok columns →
  columns = map (column b) (seq 0 (length s)).
Proof.
  intros [Hn _] Hs Hc. apply map_result_ext in Hc as [Hlen Hall]. unfold relaxed in *. rewrite length_map in Hlen. apply list_eq. intros i.
  change (map (column b) ?l) with (column b <$> l). rewrite list_lookup_fmap. destruct (s !! i) as [f|] eqn:Ei.
  - destruct (Hall i {| f_name := f_name f; f_type := f_type f; f_nullable := true |}) as (c & -> & Hc).
    { change (map ?g ?l) with (g <$> l). by rewrite list_lookup_fmap, Ei. }
    unfold wire_column in Hc. cbn [f_name f_type mbind option_bind] in Hc. rewrite Hs, (index_of_field s i f Hn Ei) in Hc. cbn [mbind option_bind] in Hc.
    apply bind_Ok in Hc as (u & _ & [= <-]). rewrite lookup_seq_lt; [done|]. by apply lookup_lt_Some in Ei.
  - apply lookup_ge_None in Ei. rewrite !lookup_ge_None_2; [done|by rewrite length_seq|lia].
Qed.
Lemma data_fields_of (s : Schema) f g : take (length (relaxed s ++ [f; g]) - 2) (relaxed s ++ [f; g]) = relaxed s.
Proof. rewrite length_app. cbn. rewrite Nat.add_sub. apply take_app_length. Qed.

(** The wire batch of an item: its columns, then its sequence and its kind on
    every row. *)
Lemma wire_batch_shape ident_to_string s t property high pk q kind b wb n len :
  wireable s → schema_of b = s → n = num_rows b → len = length s →
  wire_batch (wire_schema ident_to_string s t property high pk) q kind (Some b) = Ok wb →
  index_of (schema_of wb) SEQ_COL = Some len ∧ index_of (schema_of wb) OP_COL = Some (S len) ∧
  column wb len = u64_array (replicate n q) ∧ column wb (S len) = utf8_array (replicate n (op_str kind)) ∧
  num_rows wb = n ∧ data_columns wb len (S len) = map (column b) (seq 0 len).
Proof.
  intros Hw Hs En El Hb. pose proof Hw as [Hn Hnames].
  unfold wire_batch, data_fields, wire_schema in Hb. cbn [ws_fields] in Hb. fold (relaxed s) in Hb. rewrite data_fields_of in Hb.
  apply bind_Ok in Hb as (columns & Hc & Hb). apply wire_columns in Hc as ->; [|done|done]. rewrite <-En, <-El in Hb.
  set (seqs := replicate n q) in *. set (ops := replicate n (op_str kind)) in *.
  assert (length (map (column b) (seq 0 len)) = len) as Hlen by (by rewrite length_map, length_seq).
  pose proof (try_new_columns _ _ _ Hb) as Hcols. pose proof (try_new_schema _ _ _ Hb) as Hsch.
  assert (length (relaxed s) = len) as Hrl by (unfold relaxed; by rewrite length_map).
  assert (∀ i c, (map (column b) (seq 0 len) ++ [u64_array seqs; utf8_array ops]) !! i = Some c → (i < len + 2)%nat → column wb i = c) as Hcol.
  { intros i c Hic Hlt. rewrite <-Hcols in Hic. change (map (column wb) ?l) with (column wb <$> l) in Hic. rewrite list_lookup_fmap in Hic.
    rewrite lookup_seq_lt in Hic by (rewrite length_app, Hrl; cbn; lia). by injection Hic. }
  assert (column wb len = u64_array seqs) as Cseq by (apply Hcol; [by rewrite lookup_app_r, Hlen, Nat.sub_diag by lia|lia]).
  assert (∀ name, (∀ f, f ∈ s → f_name f ≠ name) → ∀ f, f ∈ relaxed s → f_name f ≠ name) as Hrn.
  { intros name Hname f Hf. unfold relaxed in Hf. change (map ?g ?l) with (g <$> l) in Hf. apply list_elem_of_fmap in Hf as (g & -> & Hg). exact (Hname g Hg). }
  rewrite Hsch. unfold index_of. rewrite !position_app by (apply Hrn; intros f Hf; by apply Hnames). rewrite Hrl. split_and!; [| |done| | |].
  - cbn -[SEQ_COL OP_COL]. rewrite bool_decide_eq_true_2 by done. cbn. by rewrite Nat.add_0_r.
  - cbn -[SEQ_COL OP_COL]. rewrite bool_decide_eq_false_2 by done. rewrite bool_decide_eq_true_2 by done. cbn. by rewrite Nat.add_1_r.
  - apply Hcol; [|lia]. rewrite lookup_app_r, Hlen by lia. by replace (S len - len)%nat with 1%nat by lia.
  - rewrite <-(array_len_column wb len), Cseq, array_len_u64; [unfold seqs; apply length_replicate|]. rewrite Hsch, length_app, Hrl. cbn. lia.
  - unfold data_columns, num_columns. rewrite Hsch, length_app, Hrl. cbn [length]. rewrite seq_app, List.filter_app. cbn [seq List.filter].
    rewrite Nat.eqb_refl, (proj2 (Nat.eqb_eq (S (0 + len)) (S len))) by lia. cbn [negb andb]. rewrite andb_false_r. cbn. rewrite app_nil_r.
    rewrite (List.filter_ext_in _ (λ _, true)).
    2: { intros i Hi'%in_seq. rewrite (proj2 (Nat.eqb_neq i len)), (proj2 (Nat.eqb_neq i (S len))) by lia. done. }
    assert (∀ l : list nat, List.filter (λ _, true) l = l) as -> by (clear; intros l; induction l as [|i l IH]; cbn; [done|by rewrite IH]).
    apply map_ext_in. intros i Hi'%in_seq. apply Hcol; [|lia]. rewrite lookup_app_l by (rewrite Hlen; lia).
    change (map (column b) ?l) with (column b <$> l). rewrite list_lookup_fmap, lookup_seq_lt by lia. done.
Qed.
Lemma rebuilt_rows s b data : s ≠ [] → schema_of b = s → try_new (relaxed s) (map (column b) (seq 0 (length s))) = Ok data →
  rows_of data = rows_of b ∧ schema_of data = relaxed s.
Proof.
  intros Hne Hs Ed. pose proof (try_new_schema _ _ _ Ed) as Hds. pose proof (try_new_columns _ _ _ Ed) as Hdc.
  assert (length (relaxed s) = length s) as Hrl by (unfold relaxed; by rewrite length_map).
  split; [|done]. apply rows_of_columns; [rewrite Hds; unfold relaxed; by destruct s|by rewrite Hds, Hs|].
  intros i. rewrite Hds, Hrl. intros Hi'. rewrite Hrl in Hdc.
  assert (map (column data) (seq 0 (length s)) !! i = map (column b) (seq 0 (length s)) !! i) as He by (by rewrite Hdc).
  change (map ?g ?l) with (g <$> l) in He. rewrite !list_lookup_fmap, lookup_seq_lt in He by done. by injection He.
Qed.
Lemma zip_replicate {A B} n (a : A) (b : B) : zip (replicate n a) (replicate n b) = replicate n (a, b).
Proof. induction n as [|n IH]; [done|]. cbn. by f_equal. Qed.

End Wire.
