(* ===== verification/PeerRegistry.v ===== *)
(** * One owner per table

    What subscribers do to the registry: a table's mirror is only touched by the
    peer that owns it, a subscriber that fails leaves no mirror behind, a silent
    peer is not served; and the reconnect policy's bounds. *)
From S2P Require Import Prelude Text TailNames Tail Keyed Buffer Overlay TailApi Peer.
#[local] Open Scope N_scope.

Section Registry.
Context {RecordBatch ArrayRef : Type} `{Columnar RecordBatch ArrayRef} `{!WireColumns RecordBatch ArrayRef}.
#[local] Abbreviation PeerMirrors := (PeerMirrors (RecordBatch:=RecordBatch)).
#[local] Abbreviation TableMirror := (TableMirror (RecordBatch:=RecordBatch)).
Definition owned (p : PeerMirrors) (t : TableIdent) (m : TableMirror) : Prop := pm_tables p !! t = Some m.

Lemma ingest_batch_peer now b (m m' : TableMirror) r : ingest_batch now b m = (m', r) → mr_peer m' = mr_peer m.
Proof.
  assert (∀ data runs (m m' : TableMirror) r, apply_runs now data runs m = (m', r) → mr_peer m' = mr_peer m) as Hruns.
  { intros data runs. induction runs as [|[[[q op] st] len] runs IH]; intros m0 m1 r0; cbn; [by intros [= <- _]|]. unfold st_bind.
    destruct (apply now q op (slice data st len) m0) as [m2 [u|e]] eqn:Ea.
    all: assert (mr_peer m2 = mr_peer m0) as Hp.
    1, 3: revert Ea; unfold apply, apply_append, apply_keyed, gc, observe_mark; repeat case_match; intros [= <- _]; by cbn.
    - intros Hr. rewrite <-Hp. by eapply IH.
    - by intros [= <- _]. }
  unfold ingest_batch. repeat case_match; try (by intros [= <- _]). apply Hruns.
Qed.

(** The calls of the subscribers of one peer. *)
Inductive RegistryOp :=
  | RRegister (now : N) | RClaim (t : TableIdent)
  | RInstall (now : N) (t : TableIdent) (property : list byte) (s : Schema) (pk : list (list byte))
  | RIngest (now : N) (t : TableIdent) (b : RecordBatch) | RDrop (t : TableIdent).
Definition registry_step (peer : list byte) (op : RegistryOp) (p : PeerMirrors) : PeerMirrors :=
  match op with
  | RRegister now => register_peer now peer p
  | RClaim t => fst (claim_refused t peer p)
  | RInstall now t property s pk => fst (install now t peer property s pk p)
  | RIngest now t b => fst (ingest now peer t b p)
  | RDrop t => drop_table t peer p
  end.
Definition step_all (ops : list (list byte * RegistryOp)) (p : PeerMirrors) : PeerMirrors :=
  foldl (λ p '(peer, op), registry_step peer op p) p ops.

Lemma foreign_step peer op p t m : owned p t m → mr_peer m ≠ peer → owned (registry_step peer op p) t m.
Proof.
  unfold owned. intros Ho Hne. destruct op as [now|t'|now t' prop s pk|now t' b|t']; cbn.
  - unfold register_peer. by case_match.
  - unfold claim_refused. by case_match.
  - unfold install, owned_by_other. destruct (decide (t' = t)) as [->|Ht].
    + rewrite Ho. by rewrite bool_decide_eq_false_2.
    + case_match; cbn; [done|]. by rewrite lookup_insert_ne.
  - unfold ingest. destruct (decide (t' = t)) as [->|Ht].
    + rewrite Ho. by rewrite bool_decide_eq_false_2.
    + destruct (pm_tables p !! t') as [m'|] eqn:Em; [|done]. destruct (negb _); [done|]. destruct (ingest_batch now b m') as [m1 [u|e]]; cbn.
      all: by rewrite lookup_insert_ne.
  - unfold drop_table. destruct (decide (t' = t)) as [->|Ht].
    + rewrite Ho. by rewrite bool_decide_eq_false_2.
    + repeat case_match; try done. cbn. by rewrite lookup_delete_ne.
Qed.
(** Whatever the subscribers of other peers call, in any order, a table's mirror
    stays its owner's and as it is. *)
Lemma foreign_peers_keep_mirror ops p t m :
  owned p t m → (∀ peer op, (peer, op) ∈ ops → peer ≠ mr_peer m) → owned (step_all ops p) t m.
Proof.
  revert p. induction ops as [|[peer op] ops IH]; intros p Ho Hne; [done|]. cbn. apply IH; [|intros *; intros Hin; eapply Hne; by right].
  apply foreign_step; [done|]. intros He. eapply Hne; [by left|done].
Qed.

(** A whole session is such calls. *)
Inductive by_peer (peer : list byte) : PeerMirrors → PeerMirrors → Prop :=
  | by_none p : by_peer peer p p
  | by_call op p p' : by_peer peer (registry_step peer op p) p' → by_peer peer p p'.
Lemma by_one peer op p p' : registry_step peer op p = p' → by_peer peer p p'.
Proof. intros <-. apply (by_call _ op), by_none. Qed.
Lemma by_trans peer p1 p2 p3 : by_peer peer p1 p2 → by_peer peer p2 p3 → by_peer peer p1 p3.
Proof. induction 1 as [|op p p' _ IH]; [done|]. intros Hp. by apply (by_call _ op), IH. Qed.
Lemma by_foreign peer p p' t m : by_peer peer p p' → owned p t m → mr_peer m ≠ peer → owned p' t m.
Proof. induction 1 as [|op p p' _ IH]; [done|]. intros Ho Hne. apply IH; [|done]. by apply foreign_step. Qed.

Lemma ingest_all_by now peer t bs p p' r : ingest_all now peer t bs p = (p', r) → by_peer peer p p'.
Proof.
  revert p. induction bs as [|b bs IH]; intros p; cbn; [intros [= <- _]; apply by_none|].
  unfold st_bind. destruct (ingest now peer t b p) as [p1 [u|e]] eqn:Ei; [intros Hr; apply IH in Hr|intros [= <- _]].
  - eapply by_trans; [|exact Hr]. apply (by_one _ (RIngest now t b)). cbn. by rewrite Ei.
  - apply (by_one _ (RIngest now t b)). cbn. by rewrite Ei.
Qed.
Lemma follow_by peer t msgs p p' r : follow peer t msgs p = (p', r) → by_peer peer p p'.
Proof.
  revert p. induction msgs as [|[now [[s|b|]|]] msgs IH]; intros p; cbn; try apply IH.
  1, 3: intros [= <- _]; apply by_none.
  unfold st_bind. destruct (ingest now peer t b p) as [p1 [u|e]] eqn:Ei; [intros Hr; apply IH in Hr|intros [= <- _]].
  - eapply by_trans; [|exact Hr]. apply (by_one _ (RIngest now t b)). cbn. by rewrite Ei.
  - apply (by_one _ (RIngest now t b)). cbn. by rewrite Ei.
Qed.
Lemma mirror_table_by now peer t snap sub p p' r : mirror_table now peer t snap sub p = (p', r) → by_peer peer p p'.
Proof.
  unfold mirror_table. destruct (claim_refused t peer p) as [p1 refused] eqn:Ec.
  assert (by_peer peer p p1) as H1 by (apply (by_one _ (RClaim t)); cbn; by rewrite Ec).
  destruct refused; [by intros [= <- _]|]. destruct (_ ≫= _) as [[[[[prop s] pk] high] backlog]|e]; [|by intros [= <- _]].
  destruct (install now t peer prop s pk p1) as [p2 inst] eqn:Ei.
  assert (by_peer peer p p2) as H2 by (eapply by_trans; [exact H1|]; apply (by_one _ (RInstall now t prop s pk)); cbn; by rewrite Ei).
  destruct inst; cbn [negb]; [|by intros [= <- _]]. unfold st_bind.
  destruct (ingest_all now peer t backlog p2) as [p3 [u|e]] eqn:Ea; apply ingest_all_by in Ea; pose proof (by_trans _ _ _ _ H2 Ea) as H3.
  - unfold st_lift. destruct (sub high) as [msgs|e]; [intros Hr%follow_by; by eapply by_trans|by intros [= <- _]].
  - by intros [= <- _].
Qed.

(** A subscriber's task, however it ends, leaves the mirrors of other peers as
    they are; one that fails leaves none of its own for the table. *)
Lemma task_respects_owners now peer t snap sub p :
  (∀ t' m, owned p t' m → mr_peer m ≠ peer → owned (table_task now peer t snap sub p) t' m) ∧
  (is_ok (snd (mirror_table now peer t snap sub p)) = false → ∀ m, owned (table_task now peer t snap sub p) t m → mr_peer m ≠ peer).
Proof.
  unfold table_task. destruct (mirror_table now peer t snap sub p) as [p1 r] eqn:Em. apply mirror_table_by in Em. split.
  - intros t' m Ho Hne. pose proof (by_foreign _ _ _ _ _ Em Ho Hne) as Ho1. destruct r; [done|]. by apply (foreign_step peer (RDrop t)).
  - destruct r as [u|e]; [done|]. intros _ m. unfold owned, drop_table. destruct (pm_tables p1 !! t) as [m'|] eqn:Et; [|by rewrite Et].
    case_bool_decide as Hp; cbn; [by rewrite lookup_delete_eq|]. rewrite Et. by intros [= <-].
Qed.

(** Nothing is served of a peer that has been silent for longer than the bound. *)
Lemma silent_peer_not_served now t props p p' o :
  overlay now t props p = (p', Ok (Some o)) →
  ∃ m h, owned p t m ∧ pm_peers p !! mr_peer m = Some h ∧ now - last_event h ≤ SERVE_AGE_BOUND.
Proof.
  unfold overlay, peer_serving. destruct (pm_tables p !! t) as [m|] eqn:Em; [|done]. destruct (pm_peers p !! mr_peer m) as [h|] eqn:Eh; [|done].
  destruct (N.leb_spec (now - last_event h) SERVE_AGE_BOUND); [|done]. intros _. by exists m, h.
Qed.
End Registry.

(** The sleep between sessions stays within its bounds; of the failures that follow
    one another without an established session in between, only the first warns. *)
Definition policy_ok (p : ReconnectPolicy) : Prop := BACKOFF_MIN ≤ rp_backoff p ≤ BACKOFF_MAX.
Fixpoint failures (es : list bool) (p : ReconnectPolicy) : ReconnectPolicy * list (bool * N) :=
  match es with
  | [] => (p, [])
  | e :: es => let '(p, o) := on_failure e p in let '(p, os) := failures es p in (p, o :: os)
  end.
Lemma failures_bounded es p : policy_ok p → Forall (λ o, BACKOFF_MIN ≤ snd o ≤ BACKOFF_MAX) (snd (failures es p)).
Proof.
  revert p. induction es as [|e es IH]; intros p Hp; cbn; [constructor|]. destruct (failures es _) as [p' os] eqn:Ef. cbn. constructor.
  - cbn. destruct e; [|apply Hp]. unfold policy_new. cbn. unfold BACKOFF_MIN, BACKOFF_MAX, SECOND. lia.
  - change os with (snd (p', os)). rewrite <-Ef. apply IH. unfold policy_ok, BACKOFF_MIN, BACKOFF_MAX, SECOND in *. destruct e; cbn; [unfold BACKOFF_MIN|]; lia.
Qed.
Lemma one_warning_per_outage es p : rp_warned p = true → Forall (λ e, e = false) es → Forall (λ o, fst o = false) (snd (failures es p)).
Proof.
  revert p. induction es as [|e es IH]; intros p Hp Hes; cbn; [constructor|]. apply Forall_cons in Hes as [-> Hes].
  destruct (failures es _) as [p' os] eqn:Ef. cbn. constructor; [cbn; by rewrite Hp|]. change os with (snd (p', os)). rewrite <-Ef. by apply IH.
Qed.
