(* ===== verification/FlushRace.v ===== *)
(** * The flush race

    A flush takes a prefix of the window, other statements go on, and then the
    prefix becomes a generation tagged with its commit: the union view is the
    same before and after, for scans that see the commit and for those that do
    not. *)
From stdpp Require Import sorting.
From S2P Require Import Prelude Text TailNames Tail Keyed Buffer Overlay OverlayView.
#[local] Open Scope N_scope.
#[local] Arguments hide : simpl never.
#[local] Arguments batch_rows : simpl never.

(** ** Draining a snapshot of the keyed map *)
Section Drain.
Context {RecordBatch ArrayRef Row : Type} `{ColumnarLaws RecordBatch ArrayRef Row}.
#[local] Abbreviation KeyedSnap := (list (list byte * N * KeyedOp (RecordBatch:=RecordBatch))).
#[local] Abbreviation Entries := (gmap (list byte) (KeyedEntry (RecordBatch:=RecordBatch))).
#[local] Abbreviation hidek idx := (hide (row_key idx)).

Definition snap_key (x : list byte * N * KeyedOp (RecordBatch:=RecordBatch)) : list byte := fst (fst x).
Definition entry_list (m : Entries) : KeyedSnap :=
  map (λ '(key, e), (key, ke_stamp e, ke_op e)) (map_to_list m).
Definition snap_upserts (snap : KeyedSnap) : list RecordBatch := omap (λ '(_, _, op), upsert_row op) snap.
Definition snap_rows (snap : KeyedSnap) : list Row := batch_rows (snap_upserts snap).

Lemma snap_rows_cons k s op snap :
  snap_rows ((k, s, op) :: snap) = match upsert_row op with Some b => rows_of b | None => [] end ++ snap_rows snap.
Proof. unfold snap_rows, snap_upserts. cbn. by destruct (upsert_row op). Qed.

Lemma snap_rows_perm snap snap' : snap ≡ₚ snap' → snap_rows snap ≡ₚ snap_rows snap'.
Proof.
  induction 1 as [|[[k s] op] l l' _ IH|[[k1 s1] op1] [[k2 s2] op2] l|l1 l2 l3 _ IH1 _ IH2]; [done| | |by etrans].
  - rewrite !snap_rows_cons. by apply Permutation_app_head.
  - rewrite !snap_rows_cons, !app_assoc. apply Permutation_app_tail, Permutation_app_comm.
Qed.

Lemma entry_list_delete (m : Entries) k e :
  m !! k = Some e → entry_list m ≡ₚ (k, ke_stamp e, ke_op e) :: entry_list (delete k m).
Proof.
  intros Hk. unfold entry_list. rewrite <-(map_to_list_delete m k e) by done. done.
Qed.

Lemma elem_of_entry_list (m : Entries) k s op :
  (k, s, op) ∈ entry_list m ↔ ∃ e, m !! k = Some e ∧ ke_stamp e = s ∧ ke_op e = op.
Proof.
  unfold entry_list. split.
  - intros ([k' e] & [= -> -> ->] & Hm)%list_elem_of_fmap. apply elem_of_map_to_list in Hm. by exists e.
  - intros (e & Hm & <- & <-). apply list_elem_of_fmap. exists (k, e). split; [done|]. by apply elem_of_map_to_list.
Qed.

Lemma entry_list_keys (m : Entries) : list_to_set (map snap_key (entry_list m)) = dom m.
Proof.
  apply set_eq. intros k. rewrite elem_of_list_to_set, elem_of_dom. split.
  - intros ([[k' s] op] & -> & Hx)%list_elem_of_fmap. apply elem_of_entry_list in Hx as (e & Hm & _). by exists e.
  - intros [e He]. apply list_elem_of_fmap. exists (k, ke_stamp e, ke_op e). split; [done|].
    apply elem_of_entry_list. by exists e.
Qed.

Lemma entry_list_NoDup (m : Entries) : NoDup (map snap_key (entry_list m)).
Proof.
  unfold entry_list. rewrite map_map. rewrite (map_ext _ fst) by (by intros []). apply NoDup_fst_map_to_list.
Qed.

(** A snapshot whose entries are still there, overwritten or not. *)
Definition snap_in (snap : KeyedSnap) (m : Entries) : Prop :=
  ∀ k s op, (k, s, op) ∈ snap → ∃ e, m !! k = Some e ∧ (ke_stamp e = s → ke_op e = op).
Definition drained (m : Entries) (x : list byte * N * KeyedOp (RecordBatch:=RecordBatch)) : bool :=
  match m !! snap_key x with Some e => ke_stamp e =? snd (fst x) | None => false end.

Lemma drained_delete m k snap :
  k ∉ map snap_key snap → List.filter (drained (delete k m)) snap = List.filter (drained m) snap.
Proof.
  intros Hk. induction snap as [|x snap IH]; [done|]. cbn [map] in Hk. rewrite not_elem_of_cons in Hk.
  destruct Hk as [Hne Hk]. cbn [List.filter]. rewrite (IH Hk). unfold drained. by rewrite lookup_delete_ne.
Qed.

Lemma drain_spec snap m :
  NoDup (map snap_key snap) → snap_in snap m →
  snap_rows (entry_list m) ≡ₚ
    snap_rows (List.filter (drained m) snap) ++ snap_rows (entry_list (drain_entries snap m)) ∧
  dom (drain_entries snap m) = dom m ∖ list_to_set (map snap_key (List.filter (drained m) snap)) ∧
  ∀ k e, drain_entries snap m !! k = Some e → m !! k = Some e.
Proof.
  revert m. induction snap as [|[[k s] op] snap IH]; intros m Hnd Hin; cbn [drain_entries map List.filter].
  { split_and!; [done|cbn; set_solver|done]. }
  cbn [map snap_key fst] in Hnd. apply NoDup_cons in Hnd as [Hk Hnd].
  destruct (Hin k s op) as (e & He & Hop); [by left|]. 
  assert (drained m (k, s, op) = (ke_stamp e =? s)) as Hd by (unfold drained; cbn; by rewrite He). rewrite He, Hd.
  destruct (ke_stamp e =? s) eqn:Es.
  - apply N.eqb_eq in Es. destruct (IH (delete k m)) as (H1 & H2 & H3); [done| |].
    { intros k' s' op' Hx. assert (k ≠ k') by (intros ->; apply Hk, list_elem_of_fmap; by exists (k', s', op')).
      rewrite lookup_delete_ne by done. apply Hin. by right. }
    rewrite drained_delete in H1, H2 by done. split_and!.
    + rewrite (snap_rows_perm _ _ (entry_list_delete m k e He)), snap_rows_cons, snap_rows_cons, (Hop Es), H1.
      by rewrite app_assoc.
    + rewrite H2, dom_delete_L. cbn [map list_to_set]. apply difference_difference_l_L.
    + intros k' e' Hk'. apply H3 in Hk'. by apply lookup_delete_Some in Hk' as [_ ?].
  - apply IH; [done|]. intros k' s' op' Hx. apply Hin. by right.
Qed.

(** An upsert's rows carry its key. *)
Definition keyed_rows (idx : list nat) (k : list byte) (op : KeyedOp (RecordBatch:=RecordBatch)) : Prop :=
  ∀ b, upsert_row op = Some b → ∀ r, r ∈ rows_of b → row_key idx r = k.

Lemma hide_snap idx K (f : list byte * N * KeyedOp → bool) snap :
  (∀ k s op, (k, s, op) ∈ snap → keyed_rows idx k op) →
  (∀ x, x ∈ snap → snap_key x ∈ K ↔ f x = false) →
  hidek idx K (snap_rows snap) = snap_rows (List.filter f snap).
Proof.
  intros Hrows Hf. induction snap as [|[[k s] op] snap IH]; [done|].
  rewrite snap_rows_cons, hide_app, IH; [|intros; eapply Hrows; by right|intros; apply Hf; by right].
  assert (∀ r, r ∈ match upsert_row op with Some b => rows_of b | None => [] end → row_key idx r = k) as Hk.
  { destruct (upsert_row op) as [b|] eqn:E; [|intros r Hr; by apply not_elem_of_nil in Hr].
    intros r Hr. eapply Hrows; [by left|done|done]. }
  specialize (Hf (k, s, op) ltac:(by left)). cbn [snap_key fst] in Hf. cbn [List.filter].
  destruct (f (k, s, op)).
  - rewrite snap_rows_cons, hide_id; [done|]. intros r Hr. rewrite (Hk r Hr). intros Hx. by apply Hf in Hx.
  - rewrite hide_none; [done|]. intros r Hr. rewrite (Hk r Hr). by apply Hf.
Qed.

(** ** Splitting a layer *)
Definition map_layer (appends : list RecordBatch) (m : Entries) : Layer :=
  {| ly_appends := appends; ly_upserts := snap_upserts (entry_list m);
     ly_keys := list_to_set (map snap_key (entry_list m)) |}.
Definition snap_layer (appends : list RecordBatch) (snap : KeyedSnap) : Layer :=
  {| ly_appends := appends; ly_upserts := snap_upserts snap; ly_keys := list_to_set (map snap_key snap) |}.

Lemma split_layer idx rows a1 a2 snap m :
  NoDup (map snap_key snap) → snap_in snap m →
  (∀ k s op, (k, s, op) ∈ snap → keyed_rows idx k op) →
  (∀ r, r ∈ batch_rows a2 → row_key idx r ∉ map snap_key snap) →
  layers_view idx rows [snap_layer a1 snap; map_layer a2 (drain_entries snap m)] ≡ₚ
  layers_view idx rows [map_layer (a1 ++ a2) m].
Proof.
  intros Hnd Hin Hrows Ha2. destruct (drain_spec snap m Hnd Hin) as (Hperm & Hdom & _).
  unfold layers_view. cbn [foldl]. unfold apply_layer. cbn [map_layer snap_layer ly_appends ly_upserts ly_keys].
  rewrite !entry_list_keys. set (K := list_to_set (map snap_key snap) : gset (list byte)). rewrite Hdom.
  set (D := list_to_set (map snap_key (List.filter (drained m) snap)) : gset (list byte)).
  assert (∀ x, x ∈ snap → snap_key x ∈ dom m) as HKm.
  { intros [[k s] op] Hx. destruct (Hin k s op Hx) as (e & He & _). by apply elem_of_dom_2 in He. }
  assert (∀ x, x ∈ snap → snap_key x ∈ D ↔ drained m x = true) as HD.
  { intros x Hx. unfold D. rewrite elem_of_list_to_set, list_elem_of_fmap. split.
    - intros (y & Hxy & Hy). apply list_elem_of_In, filter_In in Hy as [Hy Hd]. rewrite <-list_elem_of_In in Hy.
      assert (x = y) as ->; [|done]. clear -Hnd Hx Hy Hxy.
      induction snap as [|z snap IH]; [by apply not_elem_of_nil in Hx|]. cbn in Hnd. apply NoDup_cons in Hnd as [Hz Hnd].
      apply elem_of_cons in Hx as [->|Hx], Hy as [->|Hy]; [done| | |by apply IH];
        exfalso; apply Hz, list_elem_of_fmap; eauto.
    - intros Hd. exists x. split; [done|]. apply list_elem_of_In, filter_In. by rewrite <-list_elem_of_In. }
  assert (D ⊆ K) as HDK.
  { intros k. unfold D, K. rewrite !elem_of_list_to_set, !list_elem_of_fmap. intros (y & -> & Hy).
    apply list_elem_of_In, filter_In in Hy as [Hy _]. rewrite <-list_elem_of_In in Hy. by exists y. }
  assert (K ⊆ dom m) as HKdom.
  { intros k. unfold K. rewrite elem_of_list_to_set, list_elem_of_fmap. intros (y & -> & Hy). by apply HKm. }
  rewrite !hide_app, !hide_hide, batch_rows_app, hide_app.
  assert (dom m ∖ D ∪ K = dom m) as -> by (apply set_eq; intros k; specialize (HDK k); specialize (HKdom k);
    destruct (decide (k ∈ D)); set_solver).
  change (batch_rows (snap_upserts ?x)) with (snap_rows x).
  rewrite (hide_snap idx (dom m ∖ D) (drained m)); [|done|].
  2: { intros x Hx. specialize (HD x Hx). specialize (HKm x Hx). destruct (drained m x); set_solver. }
  rewrite (hide_ext _ (dom m ∖ D) (dom m) (batch_rows a2)).
  2: { intros r Hr. specialize (Ha2 r Hr). assert (row_key idx r ∉ D) as Hnd'; [|set_solver].
       intros Hx. apply HDK in Hx. unfold K in Hx. by apply elem_of_list_to_set in Hx. }
  rewrite Hperm. solve_Permutation.
Qed.
End Drain.

(** ** Statements while a snapshot is out *)
Section Statements.
Context {RecordBatch ArrayRef Row : Type} `{ColumnarLaws RecordBatch ArrayRef Row}.
Context {T : Type} `{TailStore T RecordBatch}.
(** The table's schema and its declared key do not change meanwhile. *)
Context (sch : Schema) (pk : list (list byte)) (idx : list nat) (Hidx : pk_indices sch pk = Ok idx).
#[local] Abbreviation TableBuf := (TableBuf (RecordBatch:=RecordBatch)).
#[local] Abbreviation RoutedStmt := (RoutedStmt (RecordBatch:=RecordBatch)).
#[local] Abbreviation KeyedState := (KeyedState (RecordBatch:=RecordBatch)).
#[local] Abbreviation KeyedEntry := (KeyedEntry (RecordBatch:=RecordBatch)).
#[local] Abbreviation KeyedOp := (KeyedOp (RecordBatch:=RecordBatch)).
#[local] Abbreviation KeyedSnap := (list (list byte * N * KeyedOp)).

(** The counters have room: 2^64 rows are out of reach. *)
Definition room (n : nat) (t : TableBuf) : Prop :=
  next_batch_id t + N.of_nat n < u64_modulus ∧
  ∀ k, keyed t = Some k → ks_next_stamp k + N.of_nat n < u64_modulus.

(** Statements against the table: staging (also one that fails half-way), the
    end of a durability wait, and a failed wait taking its rows back. *)
Inductive stmt_step : TableBuf * list RoutedStmt → TableBuf * list RoutedStmt → Prop :=
  | stmt_append t rs ident batches tail seq tail' t' r :
      (∀ aligned, map_result (λ b, align_batch b (tb_schema t)) batches = Ok aligned →
         room (length aligned + rows_total aligned) t) →
      append_entry (T:=T) ident batches tail seq t = (tail', t', r) →
      stmt_step (t, rs) (t', match r with Ok st => sg_routed st :: rs | Err _ => rs end)
  | stmt_keyed t rs ident key op tail tail' t' r :
      room 1 t → keyed_rows idx key op → (∀ b, upsert_row op = Some b → schema_of b = sch) →
      keyed_entry (T:=T) ident pk key op tail t = (tail', t', r) →
      stmt_step (t, rs) (t', match r with Ok (st, _) => sg_routed st :: rs | Err _ => rs end)
  | stmt_durable t rs seq : stmt_step (t, rs) (note_durable seq t, rs)
  | stmt_failed t rs seq r : r ∈ rs → stmt_step (t, rs) (unroute_failed seq r t, rs)
  | stmt_observed t rs c : stmt_step (t, rs) (note_observed c t, rs).

(** [K] is the keyed half of the snapshot; empty when none is out. *)
Definition entry_ok (k : list byte) (e : KeyedEntry) : Prop :=
  keyed_rows idx k (ke_op e) ∧ ∀ b, upsert_row (ke_op e) = Some b → schema_of b = sch.
Definition same_op (s : N) (op : KeyedOp) (e : KeyedEntry) : Prop := ke_stamp e = s → ke_op e = op.
Record keyed_inv (K : KeyedSnap) (k : KeyedState) : Prop := {
  ki_pk : ks_pk_cols k = pk;
  ki_claimed : ks_claimed_below k ≤ ks_next_stamp k;
  ki_entries : ∀ key e, ks_entries k !! key = Some e → ke_stamp e < ks_next_stamp k ∧ entry_ok key e;
  ki_snap : ∀ key s op, (key, s, op) ∈ K → s < ks_claimed_below k ∧
              ∃ e, ks_entries k !! key = Some e ∧ same_op s op e;
}.
Definition routed_ok (K : KeyedSnap) (k : KeyedState) (x : list byte * N * option KeyedEntry) : Prop :=
  let '(key, s', d) := x in
  s' < ks_next_stamp k ∧
  (∀ e, d = Some e → ke_stamp e < ks_next_stamp k ∧ entry_ok key e) ∧
  (ks_claimed_below k ≤ s' → ∀ s op, (key, s, op) ∈ K → ∃ e, d = Some e ∧ same_op s op e).

Record race_inv (n : nat) (B : list RecordBatch) (K : KeyedSnap) (t : TableBuf) (rs : list RoutedStmt) : Prop := {
  ra_schema : tb_schema t = sch;
  ra_len : (n ≤ length (pending t))%nat;
  ra_prefix : map pb_batch (take n (pending t)) = B;
  ra_claimed : Forall (λ p, pb_claimed p = true) (take n (pending t));
  ra_ids : NoDup (map pb_id (pending t));
  ra_next_id : ∀ p, p ∈ pending t → pb_id p < next_batch_id t;
  ra_schemas : ∀ p, p ∈ pending t → schema_of (pb_batch p) = sch;
  ra_behind : ∀ p r, p ∈ drop n (pending t) → r ∈ rows_of (pb_batch p) → row_key idx r ∉ map snap_key K;
  ra_NoDup : NoDup (map snap_key K);
  ra_none : keyed t = None → K = [] ∧ ∀ r, r ∈ rs → ro_keyed r = [];
  ra_keyed : ∀ k, keyed t = Some k → keyed_inv K k ∧ ∀ r, r ∈ rs → ∀ x, x ∈ ro_keyed r → routed_ok K k x;
}.

Lemma race_snap_in n B K t rs k : race_inv n B K t rs → keyed t = Some k → snap_in K (ks_entries k).
Proof. intros Hr Hk key s op Hx. apply ra_keyed with (k := k) in Hr as [Hr _]; [|done]. by eapply ki_snap. Qed.

Lemma race_drop_head n B K t r rs : race_inv n B K t (r :: rs) → race_inv n B K t rs.
Proof.
  intros [?????????? Hk]. split; try done.
  - intros Hn. destruct (ra_none0 Hn) as [? Hr]. split; [done|]. intros x Hx. apply Hr. by right.
  - intros k Hk'. destruct (Hk k Hk') as [? Hr]. split; [done|]. intros x Hx. apply Hr. by right.
Qed.

Lemma race_no_route n B K t rs : race_inv n B K t rs → race_inv n B K t (no_route :: rs).
Proof.
  intros [?????????? Hk]. split; try done.
  - intros Hn. destruct (ra_none0 Hn) as [? Hr]. split; [done|].
    intros x [->|Hx]%elem_of_cons; [done|]. by apply Hr.
  - intros k Hk'. destruct (Hk k Hk') as [? Hr]. split; [done|].
    intros x [->|Hx]%elem_of_cons y Hy; [by apply not_elem_of_nil in Hy|]. by apply (Hr x).
Qed.

Lemma race_push n B K t ro rs b seq t' ro' m :
  race_inv n B K t (ro :: rs) → room (S m) t → schema_of b = sch →
  (∀ r, r ∈ rows_of b → row_key idx r ∉ map snap_key K) →
  push_pending b seq t ro = (t', ro') →
  race_inv n B K t' (ro' :: rs) ∧ room m t' ∧ keyed t' = keyed t.
Proof.
  intros [] [Hroom1 Hroom2] Hb Hrows [= <- <-].
  assert (wadd (next_batch_id t) 1 = next_batch_id t + 1) as Hw by (apply wadd_small; lia).
  split; [|split; [|done]].
  2: { split; cbn; [rewrite Hw; lia|]. intros k Hk. specialize (Hroom2 k Hk). lia. }
  split; cbn [push_pending with_next_id with_pending pending next_batch_id keyed tb_schema]; try done.
  - rewrite length_app. cbn. lia.
  - by rewrite take_app_le by lia.
  - by rewrite take_app_le by lia.
  - rewrite map_app. apply NoDup_app. split; [done|]. split; [|repeat constructor; set_solver].
    intros id (p & -> & Hp)%list_elem_of_fmap Hx%list_elem_of_singleton. cbn in Hx.
    specialize (ra_next_id0 p Hp). lia.
  - intros p [Hp|Hp%list_elem_of_singleton]%elem_of_app; [specialize (ra_next_id0 p Hp)|subst p; cbn]; lia.
  - intros p [Hp|Hp%list_elem_of_singleton]%elem_of_app; [by apply ra_schemas0|by subst p].
  - intros p r. rewrite drop_app_le by lia.
    intros [Hp|Hp%list_elem_of_singleton]%elem_of_app Hr; [by eapply ra_behind0|]. subst p. by apply Hrows.
  - intros Hn. destruct (ra_none0 Hn) as [? Hr]. split; [done|].
    intros x [->|Hx]%elem_of_cons; [apply (Hr ro); by left|apply Hr; by right].
  - intros k Hk. destruct (ra_keyed0 k Hk) as [? Hr]. split; [done|].
    intros x [->|Hx]%elem_of_cons; [apply (Hr ro); by left|apply Hr; by right].
Qed.

Lemma routed_ok_mono K k k' x :
  ks_claimed_below k' = ks_claimed_below k → ks_next_stamp k ≤ ks_next_stamp k' →
  routed_ok K k x → routed_ok K k' x.
Proof.
  destruct x as [[key s] d]. intros Hc Hn (H1' & H2' & H3'). split; [lia|]. split; [|by rewrite Hc].
  intros e He. destruct (H2' e He). split; [lia|done].
Qed.

Lemma keyed_insert K k key stamp op :
  keyed_inv K k → stamp = ks_next_stamp k → stamp + 1 < u64_modulus →
  entry_ok key {| ke_stamp := stamp; ke_op := op |} →
  let k' := {| ks_pk_cols := ks_pk_cols k;
               ks_entries := <[key := {| ke_stamp := stamp; ke_op := op |}]> (ks_entries k);
               ks_next_stamp := wadd stamp 1; ks_claimed_below := ks_claimed_below k |} in
  keyed_inv K k' ∧ ks_next_stamp k' = ks_next_stamp k + 1 ∧ routed_ok K k' (key, stamp, ks_entries k !! key).
Proof.
  intros [] -> Hw Hok k'. assert (ks_next_stamp k' = ks_next_stamp k + 1) as Hn by (by apply wadd_small).
  split; [|split; [done|]].
  - split; [done|rewrite Hn; cbn; lia| |].
    + intros key' e. rewrite Hn. cbn [ks_entries k']. intros [[-> <-]|[_ He]]%lookup_insert_Some.
      * split; [cbn; lia|done].
      * destruct (ki_entries0 key' e He). split; [lia|done].
    + intros key' s op' Hx. destruct (ki_snap0 key' s op' Hx) as (Hs & e & He & Hop). split; [done|].
      cbn [ks_entries k']. destruct (decide (key = key')) as [->|].
      * rewrite lookup_insert_eq. eexists. split; [done|]. intros Hst. cbn in Hst. lia.
      * rewrite lookup_insert_ne by done. by exists e.
  - split; [lia|]. split.
    + intros e He. destruct (ki_entries0 key e He). split; [lia|done].
    + intros _ s op' Hx. destruct (ki_snap0 key s op' Hx) as (_ & e & He & Hop). by exists e.
Qed.

Lemma race_supersede K k ro rs batch key_rows seq hits k' ro' :
  keyed_inv K k → (∀ r, r ∈ ro :: rs → ∀ x, x ∈ ro_keyed r → routed_ok K k x) →
  schema_of batch = sch → ks_next_stamp k + len hits < u64_modulus →
  (∀ row key, (row, key) ∈ hits → ∃ r, rows_of batch !! row = Some r ∧ row_key idx r = key) →
  (∀ row key, (row, key) ∈ hits → is_Some (ks_entries k !! key)) →
  supersede batch key_rows seq hits k ro = (k', ro') →
  keyed_inv K k' ∧ (∀ r, r ∈ ro' :: rs → ∀ x, x ∈ ro_keyed r → routed_ok K k' x) ∧
  ks_next_stamp k' = ks_next_stamp k + len hits ∧ dom (ks_entries k') = dom (ks_entries k).
Proof.
  revert k ro. induction hits as [|[row key] hits IH]; intros k ro Hk Hro Hb Hw Hrow Hin Hs; cbn [supersede] in Hs.
  { simplify_eq. split_and!; [done|done|cbn; lia|done]. }
  set (op := {| ko_key_row := _ |}) in Hs. cbn [length] in Hw.
  destruct (Hrow row key) as (r & Hr & Hkey); [by left|].
  destruct (keyed_insert K k key (ks_next_stamp k) op) as (Hk1 & Hn1 & Hro1); [done|done|lia| |].
  { split.
    - intros b [= <-] r' Hr'. cbn in Hr'. erewrite slice_row_of in Hr' by done.
      by apply list_elem_of_singleton in Hr' as ->.
    - intros b [= <-]. cbn. by rewrite slice_schema. }
  apply IH in Hs as (H1' & H2' & H3' & H4'); [|done| |done|rewrite Hn1; lia| |].
  - split_and!; [done|done|rewrite H3', Hn1; cbn [length]; lia|].
    rewrite H4'. cbn [ks_entries]. rewrite dom_insert_L.
    destruct (Hin row key) as [e He]; [by left|]. apply elem_of_dom_2 in He. set_solver.
  - intros x [->|Hx]%elem_of_cons y Hy.
    + cbn [ro_keyed] in Hy. apply elem_of_app in Hy as [Hy|Hy%list_elem_of_singleton]; [|by subst y].
      eapply (routed_ok_mono K k); [done|rewrite Hn1; lia|]. eapply Hro; [by left|done].
    + eapply (routed_ok_mono K k); [done|rewrite Hn1; lia|]. eapply Hro; [by right|done].
  - intros row' key' Hx. apply Hrow. by right.
  - intros row' key' Hx. cbn [ks_entries]. destruct (decide (key = key')) as [->|].
    + rewrite lookup_insert_eq. by eexists.
    + rewrite lookup_insert_ne by done. eapply Hin. by right.
Qed.

Lemma elem_of_masked {A} mask (l : list A) i a :
  mask !! i = Some true → l !! i = Some a → a ∈ masked mask l.
Proof.
  revert mask i. induction l as [|x l IH]; intros [|m mask] [|i] Hm Ha; try done; unfold masked in *; cbn in *; simplify_eq.
  - by left.
  - destruct m; cbn; [right|]; by eapply IH.
Qed.

Lemma masked_elem_of {A} mask (l : list A) a :
  a ∈ masked mask l → ∃ i, mask !! i = Some true ∧ l !! i = Some a.
Proof.
  revert mask. induction l as [|x l IH]; intros [|m mask] Ha; try by apply not_elem_of_nil in Ha.
  unfold masked in Ha. cbn in Ha. destruct m; cbn in Ha.
  - apply elem_of_cons in Ha as [->|Ha]; [by exists 0%nat|]. destruct (IH mask Ha) as (i & ? & ?). by exists (S i).
  - destruct (IH mask Ha) as (i & ? & ?). by exists (S i).
Qed.

Lemma length_masked {A} mask (l : list A) : (length (masked mask l) ≤ length l)%nat.
Proof.
  unfold masked. rewrite length_map. revert l. induction mask as [|m mask IH]; intros [|x l]; cbn; [lia..|].
  specialize (IH l). destruct m; cbn; lia.
Qed.

Lemma encode_keys_rows b ks :
  schema_of b = sch → encode_batch_keys b pk = Ok ks → ks = map (row_key idx) (rows_of b).
Proof. intros Hb He. unfold encode_batch_keys in He. rewrite Hb, Hidx in He. cbn in He. by apply convert_of in He. Qed.

(** The map's keys are hidden from the plain rows of a routed batch. *)
Lemma snap_keys_in K k key : keyed_inv K k → key ∈ map snap_key K → is_Some (ks_entries k !! key).
Proof.
  intros Hk ([[key' s] op] & -> & Hx)%list_elem_of_fmap. destruct (ki_snap _ _ Hk _ _ _ Hx) as (_ & e & He & _). by exists e.
Qed.

Lemma race_set_keyed n B K t rs ro ro' k k' :
  race_inv n B K t (ro :: rs) → keyed t = Some k → keyed_inv K k' →
  (∀ r, r ∈ ro' :: rs → ∀ x, x ∈ ro_keyed r → routed_ok K k' x) →
  race_inv n B K (with_keyed (Some k') t) (ro' :: rs).
Proof.
  intros [] Hk Hk' Hr. split; try done. cbn [with_keyed keyed]. intros k2 [= <-]. done.
Qed.

Lemma race_route_batch n B K t ro rs seq b k t' r m :
  race_inv n B K t (ro :: rs) → room (S (num_rows b) + m) t → schema_of b = sch → keyed t = Some k →
  route_batch seq b ro k t = (t', r) →
  race_inv n B K t' (match r with Ok ro' => ro' :: rs | Err _ => rs end) ∧ room m t' ∧ is_Some (keyed t').
Proof.
  intros Hinv Hroom Hb Hk Hrt. assert (room m t ∧ room (S m) t) as [Hm HSm].
  { destruct Hroom as [H1' H2']. split; split; [lia|intros k2 Hk2; specialize (H2' k2 Hk2); lia|lia|
      intros k2 Hk2; specialize (H2' k2 Hk2); lia]. }
  destruct (ra_keyed _ _ _ _ _ Hinv k Hk) as [Hki Hro].
  unfold route_batch in Hrt. rewrite (ki_pk _ _ Hki) in Hrt.
  destruct (_ =? _)%nat; [simplify_eq; by split_and!|].
  destruct (encode_batch_keys b pk) as [keys|] eqn:Ek.
  2: { simplify_eq. split_and!; [by eapply race_drop_head|done|done]. }
  apply encode_keys_rows in Ek as ->; [|done].
  set (hit := map _ (map (row_key idx) (rows_of b))) in Hrt.
  assert (∀ i row, rows_of b !! i = Some row →
    hit !! i = Some (bool_decide (is_Some (ks_entries k !! row_key idx row)))) as Hhit.
  { intros i row Hi. unfold hit. by rewrite !list_lookup_fmap, Hi. }
  assert (length hit = length (rows_of b)) as Hlen by (unfold hit; by rewrite !length_map).
  destruct (forallb negb hit) eqn:Eall.
  { destruct (push_pending b seq t ro) as [t1 ro1] eqn:Ep. simplify_eq.
    eapply race_push in Ep as (? & ? & Hk'); [|done|exact HSm|done|]; [split_and!; [done|done|by rewrite Hk']|].
    intros row (i & Hi)%list_elem_of_lookup Hx. apply (snap_keys_in _ _ _ Hki) in Hx.
    rewrite forallb_forall in Eall. specialize (Hhit i row Hi). rewrite bool_decide_true in Hhit by done.
    apply list_elem_of_lookup_2, list_elem_of_In, Eall in Hhit. done. }
  destruct (project_key_rows b pk) as [key_rows|]; [|simplify_eq; split_and!; [by eapply race_drop_head|done|done]].
  destruct (supersede _ _ _ _ _ _) as [k1 ro1] eqn:Es.
  set (hits := masked hit _) in Es.
  assert (length hits ≤ num_rows b)%nat as Hhl.
  { unfold hits. etrans; [apply length_masked|]. rewrite length_zip_with, length_seq, !length_map, num_rows_of. lia. }
  pose proof (proj2 Hroom k Hk) as Hst.
  assert (∀ row key, (row, key) ∈ hits → ∃ r, rows_of b !! row = Some r ∧ row_key idx r = key ∧ is_Some (ks_entries k !! key)) as Hhits.
  { intros row key (i & Hi & Hz)%masked_elem_of.
    apply lookup_zip_with_Some in Hz as (i' & key' & [= <- <-] & Hi' & Hkey).
    apply lookup_seq in Hi' as [-> Hlt]. cbn in *. rewrite list_lookup_fmap in Hkey.
    apply fmap_Some in Hkey as (rw & Hrw & ->). exists rw. split_and!; [done|done|].
    rewrite (Hhit _ _ Hrw) in Hi. injection Hi as Hi. by apply bool_decide_eq_true in Hi. }
  eapply race_supersede in Es as (Hk1 & Hro1 & Hn1 & Hd1); [|exact Hki|exact Hro|done|lia| |].
  2: { intros row key Hx. destruct (Hhits row key Hx) as (rw & ? & ? & _). by exists rw. }
  2: { intros row key Hx. by destruct (Hhits row key Hx) as (rw & _ & _ & ?). }
  pose proof (race_set_keyed _ _ _ _ _ _ ro1 _ k1 Hinv Hk Hk1 Hro1) as Hinv1.
  assert (room m (with_keyed (Some k1) t) ∧ room (S m) (with_keyed (Some k1) t)) as [Hm1 HSm1].
  { split; split; cbn [with_keyed next_batch_id keyed]; [apply Hm|intros k2 [= <-]; lia|apply HSm|intros k2 [= <-]; lia]. }
  destruct (forallb id hit); [simplify_eq; by split_and!|].
  destruct (filter_record_batch _ _) as [f|] eqn:Ef.
  2: { simplify_eq. split_and!; [by eapply race_drop_head|done|done]. }
  apply filter_of in Ef as [Hf Hfs]; [|rewrite length_map, Hlen, num_rows_of; done].
  destruct (push_pending f seq _ ro1) as [t1 ro2] eqn:Ep. simplify_eq.
  eapply race_push in Ep as (? & ? & Hk'); [|exact Hinv1|exact HSm1|congruence|]; [split_and!; [done|done|by rewrite Hk']|].
  intros row Hrow Hx. rewrite Hf in Hrow. apply masked_elem_of in Hrow as (i & Hi & Hr).
  rewrite list_lookup_fmap, (Hhit i row Hr) in Hi. apply (snap_keys_in _ _ _ Hki) in Hx.
  rewrite bool_decide_true in Hi by done. done.
Qed.

Lemma race_push_all n B K t ro rs seq bs t' ro' :
  race_inv n B K t (ro :: rs) → room (length bs) t → K = [] → (∀ b, b ∈ bs → schema_of b = sch) →
  push_all seq bs t ro = (t', ro') → race_inv n B K t' (ro' :: rs).
Proof.
  revert t ro. induction bs as [|b bs IH]; intros t ro Hinv Hroom HK Hb Hp; cbn [push_all] in Hp; [by simplify_eq|].
  destruct (push_pending b seq t ro) as [t1 ro1] eqn:E. cbn [length] in Hroom.
  eapply race_push in E as (? & ? & _); [|done|done|apply Hb; by left|rewrite HK; intros ?? Hx; by apply not_elem_of_nil in Hx].
  eapply IH; [done|done|done|intros; apply Hb; by right|done].
Qed.

Lemma race_route_loop n B K t ro rs seq bs t' r :
  race_inv n B K t (ro :: rs) → room (length bs + rows_total bs) t → is_Some (keyed t) →
  (∀ b, b ∈ bs → schema_of b = sch) → route_loop seq bs ro t = (t', r) →
  race_inv n B K t' (match r with Ok ro' => ro' :: rs | Err _ => rs end).
Proof.
  revert t ro. induction bs as [|b bs IH]; intros t ro Hinv Hroom [k Hk] Hb Hp; cbn [route_loop] in Hp; [by simplify_eq|].
  rewrite Hk in Hp. unfold st_bind in Hp. destruct (route_batch seq b ro k t) as [t1 r1] eqn:E.
  eapply (race_route_batch _ _ _ _ _ _ _ _ _ _ _ (length bs + rows_total bs)) in E as (Hi & Hr & Hs);
    [|done| |apply Hb; by left|done].
  2: { revert Hroom. unfold rows_total. cbn. by replace (S (length bs + (num_rows b + sum_list (map num_rows bs))))
         with (S (num_rows b + (length bs + sum_list (map num_rows bs)))) by lia. }
  destruct r1 as [ro1|]; [|by simplify_eq].
  eapply IH; [done|done|done|intros; apply Hb; by right|done].
Qed.

Lemma race_route_appends n B K t rs seq bs t' r :
  race_inv n B K t rs → room (length bs + rows_total bs) t → (∀ b, b ∈ bs → schema_of b = sch) →
  route_appends seq bs t = (t', r) →
  race_inv n B K t' (match r with Ok ro' => ro' :: rs | Err _ => rs end).
Proof.
  intros Hinv%race_no_route Hroom Hb Hr. unfold route_appends in Hr. destruct (no_entries t) eqn:En.
  - destruct (push_all seq bs t no_route) as [t1 ro1] eqn:E. simplify_eq.
    eapply race_push_all; [done| | |done|done].
    + destruct Hroom as [H1' H2']. split; [lia|]. intros k Hk. specialize (H2' k Hk). lia.
    + unfold no_entries in En. destruct (keyed t) as [k|] eqn:Ek; [|by apply (ra_none _ _ _ _ _ Hinv)].
      apply bool_decide_eq_true in En. destruct (ra_keyed _ _ _ _ _ Hinv k Ek) as [Hki _].
      destruct K as [|[[key s] op] K]; [done|]. destruct (ki_snap _ _ Hki key s op) as (_ & e & He & _); [by left|].
      by rewrite En, lookup_empty in He.
  - eapply race_route_loop; [done|done| |done|done]. unfold no_entries in En. by destruct (keyed t).
Qed.

Lemma race_marks n B K t rs h u : race_inv n B K t rs → race_inv n B K (with_tail_marks h u t) rs.
Proof. by intros []. Qed.

Lemma race_stage_frame n B K ident kind frame tail t tail' t' r rs :
  race_inv n B K t rs → stage_frame (T:=T) ident kind frame tail t = (tail', t', r) →
  race_inv n B K t' rs ∧ keyed t' = keyed t ∧ next_batch_id t' = next_batch_id t.
Proof.
  intros Hinv Hs. unfold stage_frame in Hs. destruct tail as [ts|]; [|by simplify_eq].
  destruct (ts_append_staged _ _ _ _) as [ts1 [q|e]]; simplify_eq; [|done].
  split; [by apply race_marks|done].
Qed.

Lemma align_batch_schema b s b' : align_batch b s = Ok b' → schema_of b' = s.
Proof.
  unfold align_batch. destruct (negb _); [done|]. intros (cols & _ & Ht)%bind_Ok. by apply try_new_schema in Ht.
Qed.

Lemma map_result_Forall {A B} (f : A → result B) (Q : B → Prop) l l' :
  (∀ a b, f a = Ok b → Q b) → map_result f l = Ok l' → ∀ b, b ∈ l' → Q b.
Proof.
  intros Hf. revert l'. induction l as [|a l IH]; intros l' Hm b Hb; cbn in Hm.
  - apply Ok_inj in Hm as <-. by apply not_elem_of_nil in Hb.
  - apply bind_Ok in Hm as (b1 & Hb1 & Hm). apply bind_Ok in Hm as (bs & Hbs & Hm). apply Ok_inj in Hm as <-.
    apply elem_of_cons in Hb as [->|Hb]; [by eapply Hf|by eapply IH].
Qed.

Lemma race_append_entry n B K t rs ident batches tail seq tail' t' r :
  race_inv n B K t rs →
  (∀ aligned, map_result (λ b, align_batch b (tb_schema t)) batches = Ok aligned →
     room (length aligned + rows_total aligned) t) →
  append_entry (T:=T) ident batches tail seq t = (tail', t', r) →
  race_inv n B K t' (match r with Ok st => sg_routed st :: rs | Err _ => rs end).
Proof.
  intros Hinv Hroom Ha. unfold append_entry in Ha. rewrite (ra_schema _ _ _ _ _ Hinv) in *.
  destruct (map_result _ _) as [aligned|] eqn:Em; [|by simplify_eq]. specialize (Hroom aligned eq_refl).
  assert (∀ b, b ∈ aligned → schema_of b = sch) as Hal.
  { apply (map_result_Forall _ (λ b, schema_of b = sch) _ _ (λ a b, align_batch_schema a sch b) Em). }
  destruct (match aligned with [] => _ | _ => _ end) as [[tl1 t1] r1] eqn:E1.
  assert (race_inv n B K t1 rs ∧ room (length aligned + rows_total aligned) t1) as [Hinv1 Hroom1].
  { destruct aligned; [by simplify_eq|]. eapply race_stage_frame in E1 as (? & Hk & Hn); [|done].
    split; [done|]. unfold room. by rewrite Hk, Hn. }
  destruct r1 as [staged|]; [|by simplify_eq].
  destruct (route_appends _ aligned t1) as [t2 [ro|e]] eqn:E2; simplify_eq;
    by eapply race_route_appends in E2.
Qed.

Lemma race_keyed_entry n B K t rs ident key op tail tail' t' r :
  race_inv n B K t rs → room 1 t → keyed_rows idx key op → (∀ b, upsert_row op = Some b → schema_of b = sch) →
  keyed_entry (T:=T) ident pk key op tail t = (tail', t', r) →
  race_inv n B K t' (match r with Ok (st, _) => sg_routed st :: rs | Err _ => rs end).
Proof.
  intros Hinv [Hr1 Hr2] Hop Hsch Hk. unfold keyed_entry in Hk.
  set (t0 := match keyed t with Some _ => t | None => _ end) in Hk.
  assert (∃ k, keyed t0 = Some k ∧ race_inv n B K t0 rs ∧ ks_next_stamp k + 1 < u64_modulus) as (k & Hk0 & Hinv0 & Hroom).
  { unfold t0. destruct (keyed t) as [k|] eqn:E; [exists k; split_and!; [done|done|by apply Hr2]|].
    exists (new_keyed pk). destruct (ra_none _ _ _ _ _ Hinv E) as [HK Hrs]. split_and!; [done| |done].
    destruct Hinv. split; try done. cbn [with_keyed keyed]. intros k' [= <-]. split.
    - subst K. split; [done|done| |]; [intros key' e Hx; cbn in Hx; by rewrite lookup_empty in Hx|].
      intros ? ? ? Hx. by apply not_elem_of_nil in Hx.
    - intros r' Hr' x Hx. rewrite (Hrs r' Hr') in Hx. by apply not_elem_of_nil in Hx. }
  rewrite Hk0 in Hk. change (default (new_keyed pk) (Some k)) with k in Hk. destruct (ra_keyed _ _ _ _ _ Hinv0 k Hk0) as [Hki Hro].
  rewrite (ki_pk _ _ Hki), bool_decide_true in Hk by done. cbn [negb andb] in Hk.
  assert ({| ks_pk_cols := pk; ks_entries := ks_entries k; ks_next_stamp := ks_next_stamp k;
             ks_claimed_below := ks_claimed_below k |} = k) as Heta
    by (pose proof (ki_pk _ _ Hki) as Hp; clear -Hp; destruct k; cbn in *; by subst).
  rewrite Heta in Hk. destruct (match ko_kind op with KUpsertRow _ => _ | KDeleteRow => _ end) as [kind frame].
  destruct (stage_frame _ _ _ _ _) as [[tl1 t1] r1] eqn:E1.
  assert (with_keyed (Some k) t0 = t0) as Heta0 by (clear -Hk0; destruct t0; cbn in *; by subst).
  rewrite Heta0 in E1. eapply race_stage_frame in E1 as (Hinv1 & Hk1 & _); [|done].
  destruct r1 as [staged|]; simplify_eq; [|done]. cbn [sg_routed].
  set (op' := {| ko_key_row := _ |}).
  destruct (keyed_insert K k key (ks_next_stamp k) op') as (Hki' & Hn' & Hr'); [done|done|done| |].
  { split; [exact Hop|exact Hsch]. }
  rewrite Hk0 in Hk1. eapply race_set_keyed; [by apply race_no_route|done|done|].
  intros r [->|Hr]%elem_of_cons x Hx.
  - by apply list_elem_of_singleton in Hx as ->.
  - eapply (routed_ok_mono K k); [done|rewrite Hn'; lia|]. by eapply Hro.
Qed.

Lemma race_observed n B K t rs c : race_inv n B K t rs → race_inv n B K (note_observed c t) rs.
Proof. by intros []. Qed.

(** Taking a statement's keyed entries back. *)
Definition entries_inv (K : KeyedSnap) (next : N) (m : gmap (list byte) KeyedEntry) : Prop :=
  (∀ key e, m !! key = Some e → ke_stamp e < next ∧ entry_ok key e) ∧
  (∀ key s op, (key, s, op) ∈ K → ∃ e, m !! key = Some e ∧ same_op s op e).

Lemma unroute_keyed_inv K k routed m :
  (∀ x, x ∈ routed → routed_ok K k x) →
  (∀ key s d, (key, s, d) ∈ routed → ks_claimed_below k ≤ s) →
  entries_inv K (ks_next_stamp k) m → entries_inv K (ks_next_stamp k) (unroute_keyed routed m).
Proof.
  revert m. induction routed as [|[[key s] d] routed IH]; intros m Hr Hc Hm; cbn [unroute_keyed]; [done|].
  apply IH; [intros; apply Hr; by right|intros; eapply Hc; by right|].
  destruct (m !! key) as [e|] eqn:Ee; [|done]. destruct (_ =? _); [|done].
  destruct (Hr (key, s, d)) as (_ & Hd & HK); [by left|]. specialize (HK (Hc key s d ltac:(by left))).
  destruct Hm as [Hm1 Hm2]. destruct d as [prev|]; split.
  - intros key' e' [[<- <-]|[_ He']]%lookup_insert_Some; [by apply Hd|by apply Hm1].
  - intros key' s' op Hx. destruct (decide (key = key')) as [<-|].
    + rewrite lookup_insert_eq. destruct (HK s' op Hx) as (e' & [= <-] & Hs). by exists prev.
    + rewrite lookup_insert_ne by done. by apply Hm2.
  - intros key' e' [_ He']%lookup_delete_Some. by apply Hm1.
  - intros key' s' op Hx. destruct (decide (key = key')) as [<-|].
    + destruct (HK s' op Hx) as (e' & ? & _). done.
    + rewrite lookup_delete_ne by done. by apply Hm2.
Qed.

(** A prefix that is claimed survives a filter that removes unclaimed batches. *)
Lemma filter_prefix {A} (f : A → bool) n (l : list A) :
  (∀ a, a ∈ take n l → f a = true) → (n ≤ length l)%nat →
  take n (List.filter f l) = take n l ∧ drop n (List.filter f l) = List.filter f (drop n l) ∧
  (n ≤ length (List.filter f l))%nat.
Proof.
  intros Hf Hn. rewrite <-(take_drop n l) at 1 3 5. rewrite List.filter_app.
  assert (List.filter f (take n l) = take n l) as ->.
  { clear Hn. induction (take n l) as [|a l' IH]; [done|]. cbn. rewrite Hf by by left. f_equal.
    apply IH. intros; apply Hf. by right. }
  assert (length (take n l) = n) as Hlen by (rewrite length_take; lia).
  split_and!.
  - by rewrite take_app_le, take_take, Nat.min_id by lia.
  - rewrite drop_app_ge, Hlen, Nat.sub_diag by lia. done.
  - rewrite length_app. lia.
Qed.

Lemma count_ids ids (l : list (PendingBatch (RecordBatch:=RecordBatch))) p :
  NoDup (map pb_id l) → p ∈ l → pb_id p ∈ ids → pb_claimed p = true →
  (length (List.filter (λ p, bool_decide (pb_id p ∈ ids) && negb (pb_claimed p)) l) <
   size (list_to_set (C:=gset N) ids))%nat.
Proof.
  intros Hnd Hp Hid Hc. set (f := λ p : PendingBatch, _).
  assert (size (list_to_set (C:=gset N) (map pb_id (List.filter f l))) = length (List.filter f l)) as <-.
  { rewrite size_list_to_set; [by rewrite length_map|]. clear -Hnd.
    induction l as [|q l IH]; [constructor|]. cbn in Hnd. apply NoDup_cons in Hnd as [Hq Hnd].
    cbn [List.filter]. destruct (f q); [|by apply IH]. cbn. constructor; [|by apply IH].
    intros (q' & Hq' & Hx)%list_elem_of_fmap. apply Hq, list_elem_of_fmap. exists q'. split; [done|].
    apply list_elem_of_In, filter_In in Hx as [Hx _]. by apply list_elem_of_In. }
  apply subset_size. split.
  - intros id. rewrite !elem_of_list_to_set. intros (q & -> & Hx)%list_elem_of_fmap.
    apply list_elem_of_In, filter_In in Hx as [_ Hx]. apply andb_prop in Hx as [Hx _]. by apply bool_decide_eq_true in Hx.
  - intros Hsub. specialize (Hsub (pb_id p)). rewrite !elem_of_list_to_set in Hsub.
    destruct (proj1 (list_elem_of_fmap _ _ _) (Hsub Hid)) as (q & Hq & Hx). apply list_elem_of_In, filter_In in Hx as [Hx Hf].
    apply andb_prop in Hf as [_ Hf]. rewrite <-list_elem_of_In in Hx.
    assert (p = q) as <-; [|by rewrite Hc in Hf]. clear -Hnd Hp Hx Hq.
    induction l as [|z l IH]; [by apply not_elem_of_nil in Hp|]. cbn in Hnd. apply NoDup_cons in Hnd as [Hz Hnd].
    apply elem_of_cons in Hp as [->|Hp], Hx as [->|Hx]; [done| | |by apply IH];
      exfalso; apply Hz, list_elem_of_fmap; eauto.
Qed.

Lemma race_unroute n B K t rs seq r :
  race_inv n B K t rs → r ∈ rs → race_inv n B K (unroute_failed seq r t) rs.
Proof.
  intros Hinv Hr. unfold unroute_failed. destruct (_ || _) eqn:Ec; [done|].
  apply orb_false_elim in Ec as [Eb Ek]. unfold batches_claimed in Eb. apply negb_false_iff, Nat.eqb_eq in Eb.
  set (f := λ p, negb (bool_decide (pb_id p ∈ ro_batch_ids r))).
  destruct (filter_prefix f n (pending t)) as (Ht & Hd & Hl); [|apply Hinv|].
  { intros p Hp. unfold f. rewrite bool_decide_false; [done|]. intros Hid.
    pose proof (ra_claimed _ _ _ _ _ Hinv) as Hcl. rewrite Forall_forall in Hcl. specialize (Hcl p Hp).
    assert (p ∈ pending t) as Hpt by (rewrite <-(take_drop n (pending t)); apply elem_of_app; by left).
    pose proof (count_ids _ _ p (ra_ids _ _ _ _ _ Hinv) Hpt Hid Hcl). lia. }
  assert (∀ p, p ∈ List.filter f (pending t) → p ∈ pending t) as Hsub.
  { intros p. rewrite !list_elem_of_In, filter_In. tauto. }
  set (t1 := with_pending _ _ _). assert (race_inv n B K t1 rs) as Hinv1.
  { destruct Hinv. split; cbn [t1 with_pending with_tail_marks pending next_batch_id keyed tb_schema]; try done.
    - by rewrite Ht.
    - by rewrite Ht.
    - clear -ra_ids0. induction (pending t) as [|q l IH]; [constructor|]. cbn in ra_ids0.
      apply NoDup_cons in ra_ids0 as [Hq Hnd]. cbn [List.filter]. destruct (f q); [|by apply IH]. cbn.
      constructor; [|by apply IH]. intros (q' & Hq' & Hx)%list_elem_of_fmap. apply Hq, list_elem_of_fmap.
      exists q'. split; [done|]. apply list_elem_of_In, filter_In in Hx as [Hx _]. by apply list_elem_of_In.
    - intros p Hp. by apply ra_next_id0, Hsub.
    - intros p Hp. by apply ra_schemas0, Hsub.
    - intros p row. rewrite Hd. intros Hp. apply ra_behind0. apply list_elem_of_In, filter_In in Hp as [Hp _].
      by apply list_elem_of_In. }
  change (keyed t1) with (keyed t). destruct (keyed t) as [k|] eqn:Hk; [|done].
  destruct (ra_keyed _ _ _ _ _ Hinv k Hk) as [Hki Hro].
  assert (entries_inv K (ks_next_stamp k) (unroute_keyed (ro_keyed r) (ks_entries k))) as [He1 He2].
  { apply unroute_keyed_inv; [by apply Hro| |].
    - intros key s d Hx. unfold keyed_claimed in Ek. rewrite Hk in Ek.
      destruct (decide (ks_claimed_below k ≤ s)) as [|Hlt]; [done|]. exfalso.
      apply not_true_iff_false in Ek. apply Ek, existsb_exists. exists (key, s, d).
      split; [by apply list_elem_of_In|]. rewrite (proj2 (N.ltb_lt s (ks_claimed_below k))) by lia. done.
    - split; [apply Hki|]. intros key s op Hx. by destruct (ki_snap _ _ Hki key s op Hx). }
  eapply race_drop_head, (race_set_keyed _ _ _ _ _ no_route no_route k);
    [by apply race_no_route|by rewrite <-Hk| |].
  - destruct Hki. split; try done. intros key s op Hx. split; [by apply (ki_snap0 key s op)|by apply He2].
  - intros x [->|Hx]%elem_of_cons y Hy; [by apply not_elem_of_nil in Hy|].
    eapply (routed_ok_mono K k); [done|done|]. by eapply Hro.
Qed.

Lemma race_step n B K t rs t' rs' : stmt_step (t, rs) (t', rs') → race_inv n B K t rs → race_inv n B K t' rs'.
Proof.
  intros Hst Hinv. inversion Hst; subst.
  - by eapply race_append_entry.
  - by eapply race_keyed_entry.
  - by apply race_marks.
  - by apply race_unroute.
  - by apply race_observed.
Qed.

Lemma race_steps n B K c c' : rtc stmt_step c c' → race_inv n B K (fst c) (snd c) → race_inv n B K (fst c') (snd c').
Proof. induction 1 as [|[t rs] [t1 rs1] ? Hst _ IH]; [done|]. intros Hinv. apply IH. by eapply race_step. Qed.

(** ** Taking the snapshot *)
Definition snap_ok (K : KeyedSnap) : Prop := ∀ k s op, (k, s, op) ∈ K → keyed_rows idx k op.

Lemma claim_fields (l : list (PendingBatch (RecordBatch:=RecordBatch))) :
  map pb_id (map claim l) = map pb_id l ∧ map pb_batch (map claim l) = map pb_batch l.
Proof. split; rewrite map_map; by apply map_ext. Qed.

Lemma race_snapshot t rs t1 snap :
  race_inv 0 [] [] t rs → snapshot_pending t = (t1, snap) →
  race_inv (sn_n_batches snap) (sn_batches snap) (sn_keyed snap) t1 rs ∧ snap_ok (sn_keyed snap) ∧
  flushed t1 = flushed t.
Proof.
  intros Hinv [= <- <-]. set (K := match keyed t with Some k => merge_sort by_stamp (keyed_list k) | None => [] end).
  assert (∀ k, keyed t = Some k → K ≡ₚ entry_list (ks_entries k)) as HK.
  { intros k Hk. unfold K. rewrite Hk. apply merge_sort_Permutation. }
  assert (∀ k key s op, keyed t = Some k → (key, s, op) ∈ K →
    ∃ e, ks_entries k !! key = Some e ∧ ke_stamp e = s ∧ ke_op e = op) as HKin.
  { intros k key s op Hk Hx. rewrite (HK k Hk) in Hx. by apply elem_of_entry_list in Hx. }
  destruct (claim_fields (pending t)) as [Hids Hbs].
  cbn [sn_n_batches sn_batches sn_keyed]. split; [|split; [|done]].
  - destruct Hinv. split; cbn [with_keyed with_pending pending next_batch_id keyed tb_schema]; try done.
    + by rewrite length_map.
    + by rewrite <-(length_map claim), firstn_all.
    + rewrite <-(length_map claim), firstn_all. apply Forall_forall.
      intros p (q & -> & _)%list_elem_of_fmap. done.
    + by rewrite Hids.
    + intros p (q & -> & Hq)%list_elem_of_fmap. exact (ra_next_id0 q Hq).
    + intros p (q & -> & Hq)%list_elem_of_fmap. exact (ra_schemas0 q Hq).
    + intros p r. rewrite <-(length_map claim), drop_all. intros Hp. by apply not_elem_of_nil in Hp.
    + destruct (keyed t) as [k|]; [|constructor]. rewrite (HK k eq_refl). apply entry_list_NoDup.
    + destruct (keyed t) as [k|] eqn:Hk; [done|]. intros _. split; [done|]. by apply ra_none0.
    + intros k'. destruct (keyed t) as [k|] eqn:Hk; [|done]. intros [= <-].
      destruct (ra_keyed0 k eq_refl) as [[] Hro]. split.
      * split; [done|cbn; lia|done|]. intros key s op Hx. destruct (HKin k key s op eq_refl Hx) as (e & He & <- & <-).
        cbn. split; [by apply (ki_entries0 key)|]. by exists e.
      * intros r Hr [[key s] d] Hx. destruct (Hro r Hr _ Hx) as (H1' & H2' & _). split; [done|]. split; [done|].
        cbn. lia.
  - intros key s op Hx. destruct (keyed t) as [k|] eqn:Hk; [|by apply not_elem_of_nil in Hx].
    destruct (HKin k key s op eq_refl Hx) as (e & He & _ & <-).
    destruct (ra_keyed _ _ _ _ _ Hinv k Hk) as [Hki _]. by apply (ki_entries _ _ Hki) in He as [_ [? _]].
Qed.

(** ** Layers of an entry *)
Definition entries_of (t : TableBuf) : gmap (list byte) KeyedEntry :=
  match keyed t with Some k => ks_entries k | None => ∅ end.

Lemma keys_of_snap (K : KeyedSnap) : map (λ '(k, _, _), k) K = map snap_key K.
Proof. apply map_ext. by intros [[k s] op]. Qed.

Lemma pending_map_layer t : pending_layer t = map_layer (map pb_batch (pending t)) (entries_of t).
Proof.
  unfold pending_layer, map_layer, entries_of. destruct (keyed t) as [k|].
  - f_equal. by rewrite keys_of_snap.
  - unfold entry_list. by rewrite map_to_list_empty.
Qed.

Lemma gen_snap_layer (g : FlushedGen (RecordBatch:=RecordBatch)) : gen_layer g = snap_layer (map snd (fg_batches g)) (fg_keyed g).
Proof. unfold gen_layer, snap_layer. by rewrite keys_of_snap. Qed.

Lemma apply_layer_perm rows rows' (l : Layer) : rows ≡ₚ rows' → apply_layer idx rows l ≡ₚ apply_layer idx rows' l.
Proof.
  intros Hp. unfold apply_layer. apply Permutation_app_tail, hide_perm. by apply Permutation_app_tail.
Qed.

Lemma layers_view_app rows (l1 l2 : list Layer) :
  layers_view idx rows (l1 ++ l2) = layers_view idx (layers_view idx rows l1) l2.
Proof. apply foldl_app. Qed.

(** The generation a hand-over makes, and the window it leaves. *)
Lemma handover_layers n K commit now t :
  map pb_batch (take n (pending t)) ++ map pb_batch (drop n (pending t)) = map pb_batch (pending t) ∧
  let t3 := move_pending_to_flushed_gen n K commit now t in
  pending_layer t3 = map_layer (map pb_batch (drop n (pending t))) (drain_entries K (entries_of t)) ∧
  ∃ g, flushed t3 = flushed t ++ [g] ∧ fg_commit g = commit ∧
    gen_layer g = snap_layer (map pb_batch (take n (pending t))) K.
Proof.
  split; [by rewrite <-map_app, take_drop|]. split.
  - rewrite pending_map_layer. unfold entries_of, move_pending_to_flushed_gen, drop_pending_prefix, drain_keyed_snapshot.
    cbn [with_flushed with_keyed with_pending keyed pending]. destruct (keyed t) as [k|]; [done|]. f_equal.
    clear. induction K as [|[[k s] op] K IH]; [done|]. cbn. by rewrite lookup_empty.
  - eexists. split; [done|]. split; [done|]. rewrite gen_snap_layer. cbn [fg_batches fg_keyed]. by rewrite map_map.
Qed.

Lemma all_contained c (gens : list (FlushedGen (RecordBatch:=RecordBatch))) :
  (∀ g, g ∈ gens → c (fg_commit g) = true) → List.filter (λ g, negb (c (fg_commit g))) gens = [].
Proof.
  intros Hc. induction gens as [|g l IH]; [done|]. cbn. rewrite Hc by by left. cbn. apply IH. intros; apply Hc. by right.
Qed.

(** What the flush commits: the batches, then a delete of every keyed key, then
    the replacement rows. *)
Definition flushed_rows (rows : list Row) (snap : PendingSnapshot (RecordBatch:=RecordBatch)) : list Row :=
  apply_layer idx rows (snap_layer (sn_batches snap) (sn_keyed snap)).

(** C3: handing a snapshot of the window to a commit is invisible to reads,
    whatever statements were staged, became durable or failed since it was
    taken: a scan whose metadata lacks the commit sees the same rows as before
    the hand-over, and so does a scan whose metadata has it and whose committed
    rows are what the flush composed. *)
Theorem flush_handover_invisible t rs t1 snap t2 rs2 commit now c rows :
  race_inv 0 [] [] t rs → snapshot_pending t = (t1, snap) → rtc stmt_step (t1, rs) (t2, rs2) →
  let t3 := move_pending_to_flushed_gen (sn_n_batches snap) (sn_keyed snap) commit now t2 in
  (c commit = false → view idx c rows t3 ≡ₚ view idx c rows t2) ∧
  (∀ c' rows', c' commit = true → (∀ g, g ∈ flushed t2 → c (fg_commit g) = true ∧ c' (fg_commit g) = true) →
     rows' ≡ₚ flushed_rows rows snap → view idx c' rows' t3 ≡ₚ view idx c rows t2).
Proof.
  intros Hinv Hs Hsteps t3. destruct (race_snapshot _ _ _ _ Hinv Hs) as (Hinv1 & Hok & _).
  apply (race_steps _ _ _ _ _ Hsteps) in Hinv1. cbn [fst snd] in Hinv1.
  set (n := sn_n_batches snap) in *. set (K := sn_keyed snap) in *.
  destruct (handover_layers n K commit now t2) as (Hsplit & Hpl & g & Hfl & Hg & Hgl). fold t3 in Hpl, Hfl.
  rewrite (ra_prefix _ _ _ _ _ Hinv1) in Hsplit, Hgl.
  assert (∀ base, layers_view idx base [gen_layer g; pending_layer t3] ≡ₚ layers_view idx base [pending_layer t2]) as Hview.
  { intros base. rewrite Hgl, Hpl, (pending_map_layer t2), <-Hsplit.
    apply split_layer; [apply Hinv1| |done|].
    - unfold entries_of. destruct (keyed t2) as [k|] eqn:Hk; [by eapply race_snap_in|].
      destruct (ra_none _ _ _ _ _ Hinv1 Hk) as [-> _]. intros k s op Hx. by apply not_elem_of_nil in Hx.
    - intros r (b & (p & -> & Hp)%list_elem_of_fmap & Hr)%elem_of_batch_rows. by eapply ra_behind. }
  split.
  - intros Hc. unfold view, layers_of. rewrite Hfl, List.filter_app, map_app. cbn [List.filter]. rewrite Hg, Hc. cbn [negb map].
    rewrite <-app_assoc, !layers_view_app. apply Hview.
  - intros c' rows' Hc' Hall Hrows. unfold view, layers_of. rewrite Hfl, List.filter_app. cbn [List.filter].
    rewrite Hg, Hc', (all_contained c), (all_contained c'); [|intros; by apply Hall..].
    etrans; [|apply Hview]. rewrite Hgl. by apply apply_layer_perm.
Qed.

(** ** A conflict takes the generation back *)
Lemma merge_back_lookup (K : KeyedSnap) m key :
  (key ∉ map snap_key K ∨ is_Some (m !! key)) → merge_back K m !! key = m !! key.
Proof.
  revert m. induction K as [|[[k s] op] K IH]; intros m Hk; cbn [merge_back]; [done|].
  cbn [map snap_key fst] in Hk. rewrite not_elem_of_cons in Hk.
  destruct (m !! k) eqn:E; [apply IH; tauto|].
  assert (key ≠ k) as Hne by (destruct Hk as [[? _]|[e He]]; [done|by intros ->; rewrite E in He]).
  rewrite IH; [by rewrite lookup_insert_ne|]. rewrite lookup_insert_ne by done. tauto.
Qed.

Lemma merge_back_restored (K : KeyedSnap) m key s op :
  NoDup (map snap_key K) → (key, s, op) ∈ K → m !! key = None →
  merge_back K m !! key = Some {| ke_stamp := s; ke_op := op |}.
Proof.
  revert m. induction K as [|[[k s'] op'] K IH]; intros m Hnd Hx Hm; [by apply not_elem_of_nil in Hx|].
  cbn [map snap_key fst] in Hnd. apply NoDup_cons in Hnd as [Hk Hnd]. cbn [merge_back].
  apply elem_of_cons in Hx as [[= <- <- <-]|Hx].
  - rewrite Hm, merge_back_lookup by (left; done). by rewrite lookup_insert_eq.
  - assert (key ≠ k) by (intros <-; apply Hk, list_elem_of_fmap; by exists (key, s, op)).
    apply IH; [done|done|]. destruct (m !! k); [done|]. by rewrite lookup_insert_ne.
Qed.

Lemma drain_lookup_ne (K : KeyedSnap) m key : key ∉ map snap_key K → drain_entries K m !! key = m !! key.
Proof.
  revert m. induction K as [|[[k s] op] K IH]; intros m Hk; cbn [drain_entries]; [done|].
  cbn [map snap_key fst] in Hk. rewrite not_elem_of_cons in Hk. destruct Hk as [Hne Hk]. rewrite IH by done.
  destruct (m !! k); [|done]. destruct (_ =? _); [|done]. by rewrite lookup_delete_ne.
Qed.

Lemma drain_lookup (K : KeyedSnap) m key s op :
  NoDup (map snap_key K) → (key, s, op) ∈ K →
  drain_entries K m !! key = match m !! key with
                             | Some e => if ke_stamp e =? s then None else Some e
                             | None => None
                             end.
Proof.
  revert m. induction K as [|[[k s'] op'] K IH]; intros m Hnd Hx; [by apply not_elem_of_nil in Hx|].
  cbn [map snap_key fst] in Hnd. apply NoDup_cons in Hnd as [Hk Hnd]. cbn [drain_entries].
  apply elem_of_cons in Hx as [[= <- <- <-]|Hx].
  - rewrite drain_lookup_ne by done. destruct (m !! key) eqn:E; [|done].
    destruct (_ =? _); [by rewrite lookup_delete_eq|done].
  - assert (key ≠ k) by (intros <-; apply Hk, list_elem_of_fmap; by exists (key, s, op)).
    rewrite IH by done. destruct (m !! k); [|done]. destruct (_ =? s'); [|done]. by rewrite lookup_delete_ne.
Qed.

Lemma drain_merge_back (K : KeyedSnap) m :
  NoDup (map snap_key K) → (∀ key s op e, (key, s, op) ∈ K → m !! key = Some e → ke_stamp e ≠ s) →
  drain_entries K (merge_back K m) = m ∧ snap_in K (merge_back K m).
Proof.
  intros Hnd Hne. assert (∀ key s op, (key, s, op) ∈ K → is_Some (m !! key) ∨ m !! key = None) as Hcase
    by (intros key ??; destruct (m !! key); eauto).
  split.
  - apply map_eq. intros key. destruct (decide (key ∈ map snap_key K)) as [Hin|Hout].
    + apply list_elem_of_fmap in Hin as ([[k s] op] & -> & Hx). cbn [snap_key fst]. rewrite (drain_lookup K _ k s op Hnd Hx).
      destruct (m !! k) as [e|] eqn:E.
      * rewrite merge_back_lookup, E by (right; by rewrite E).
        by rewrite (proj2 (N.eqb_neq _ _)) by (by eapply Hne).
      * rewrite (merge_back_restored K m k s op) by done. cbn. by rewrite N.eqb_refl.
    + rewrite drain_lookup_ne, merge_back_lookup; [done|by left|done].
  - intros k s op Hx. destruct (m !! k) as [e|] eqn:E.
    + exists e. rewrite merge_back_lookup by (right; by rewrite E). split; [done|].
      intros Hs. by destruct (Hne k s op e Hx E).
    + exists {| ke_stamp := s; ke_op := op |}. split; [by apply merge_back_restored|done].
Qed.

Lemma restore_batches id bs ps id' : restore (RecordBatch:=RecordBatch) id bs = (ps, id') → map pb_batch ps = map snd bs.
Proof.
  revert id ps. induction bs as [|[q b] bs IH]; intros id ps Hr; cbn in Hr; [by simplify_eq|].
  destruct (restore (wadd id 1) bs) as [ps1 id1] eqn:E. simplify_eq. cbn. f_equal. by eapply IH.
Qed.

(** a conflicted commit gives its generation back to the window without any
    scan noticing, provided that no row which entered the window since the
    hand-over carries one of the generation's keys.  (The code does not check
    that: [conflict_loses_reinserted_row] runs the case.) *)
Theorem conflict_merge_back_exact S c rows t k g gens :
  flushed t = gens ++ [g] → fg_commit g = SnapshotId S → (∀ g', g' ∈ gens → fg_commit g' ≠ SnapshotId S) →
  c (SnapshotId S) = false → keyed t = Some k →
  NoDup (map snap_key (fg_keyed g)) → snap_ok (fg_keyed g) →
  (∀ key s op e, (key, s, op) ∈ fg_keyed g → ks_entries k !! key = Some e → ke_stamp e ≠ s) →
  (∀ r, r ∈ batch_rows (map pb_batch (pending t)) → row_key idx r ∉ map snap_key (fg_keyed g)) →
  view idx c rows (move_flushed_back_to_pending S t) ≡ₚ view idx c rows t.
Proof.
  intros Hfl Hg Hgens Hc Hk Hnd Hok Hne Hrows.
  assert (position (λ g, bool_decide (fg_commit g = SnapshotId S)) (flushed t) = Some (length gens)) as Hpos.
  { rewrite Hfl. clear -Hg Hgens. induction gens as [|g' gens IH]; cbn; [by rewrite bool_decide_true|].
    rewrite bool_decide_false by (apply Hgens; by left). rewrite IH; [done|]. intros; apply Hgens. by right. }
  unfold move_flushed_back_to_pending. rewrite Hpos, Hfl, list_lookup_middle by done.
  destruct (restore _ _) as [ps id'] eqn:Er. apply restore_batches in Er.
  set (t' := with_keyed _ _). assert (flushed t' = gens) as Hfl'.
  { cbn. rewrite delete_middle. apply app_nil_r. }
  destruct (drain_merge_back (fg_keyed g) (ks_entries k) Hnd Hne) as [Hdr Hin].
  assert (pending_layer t' = map_layer (map snd (fg_batches g) ++ map pb_batch (pending t))
    (merge_back (fg_keyed g) (ks_entries k))) as Hpl.
  { rewrite pending_map_layer. unfold t', entries_of. cbn [with_keyed with_next_id with_pending with_flushed keyed pending].
    rewrite Hk. cbn. by rewrite map_app, Er. }
  unfold view, layers_of. rewrite Hfl', Hfl, List.filter_app, map_app. cbn [List.filter]. rewrite Hg, Hc. cbn [negb map].
  rewrite <-app_assoc, !layers_view_app, Hpl, gen_snap_layer, (pending_map_layer t). unfold entries_of. rewrite Hk.
  symmetry. rewrite <-Hdr at 1. apply split_layer; done.
Qed.
End Statements.
