(* ===== verification/Flush.v ===== *)
(** * Flushing and replaying the buffer (src/icegres/src/buffer.rs)

    [flush_table] with its retries and ambiguous outcomes, [flush_now] and the
    boot replay.  The catalog and [prepare_commit] are the interface [Lake]; at
    each await the rest of the process may run statements against the buffer. *)
From stdpp Require Import sorting.
From S2P Require Import Prelude Text TailNames Tail Keyed TableOps Buffer Overlay.
#[local] Open Scope N_scope.

(** Tables, metadata and commits: iceberg's, and the part of overwrite.rs that
    rewrites Parquet files with DataFusion. *)
Class Lake (L Metadata Prepared RecordBatch DataFile : Type) := {
  load_table : TableIdent → stres L Metadata;
  has_snapshot : Metadata → Z → bool;
  md_property : Metadata → string → option (list byte);
  md_schema : Metadata → result Schema;
  md_pk_columns : Metadata → result (option (list (list byte)));   (* pk_columns_of *)
  engine_enforces_pk : L → bool;
  prepare_commit : Metadata → list (TableOp RecordBatch DataFile) → option (list (list byte)) →
    option (string * list byte) → stres L (option Prepared);
  snapshot_id : Prepared → Z;
  post_prepared : TableIdent → Prepared → stres L CommitOutcome;
}.

Section Flush.
Context {RecordBatch ArrayRef : Type} `{Columnar RecordBatch ArrayRef}.
Context {T L Metadata Prepared DataFile : Type} `{TailStore T RecordBatch} `{Lake L Metadata Prepared RecordBatch DataFile}.
#[local] Abbreviation BufferState := (BufferState (RecordBatch:=RecordBatch)).
#[local] Abbreviation TailEvent := (TailEvent (RecordBatch:=RecordBatch)).

(** [WriteBuffer]: [wb_env] is what other tasks do to the buffer and its tail at
    the coming awaits, [wb_clock] the time. *)
Definition Interference : Type := BufferState * option T → BufferState * option T.
Record WriteBuffer := {
  wb_state : BufferState;
  wb_tail : option T;
  wb_lake : L;
  wb_events : list TailEvent;
  wb_env : list Interference;
  wb_clock : N;
}.
Definition with_state (s : BufferState) (w : WriteBuffer) : WriteBuffer :=
  {| wb_state := s; wb_tail := wb_tail w; wb_lake := wb_lake w; wb_events := wb_events w;
     wb_env := wb_env w; wb_clock := wb_clock w |}.
Definition with_tail (t : option T) (w : WriteBuffer) : WriteBuffer :=
  {| wb_state := wb_state w; wb_tail := t; wb_lake := wb_lake w; wb_events := wb_events w;
     wb_env := wb_env w; wb_clock := wb_clock w |}.
Definition with_lake (l : L) (w : WriteBuffer) : WriteBuffer :=
  {| wb_state := wb_state w; wb_tail := wb_tail w; wb_lake := l; wb_events := wb_events w;
     wb_env := wb_env w; wb_clock := wb_clock w |}.

(** One critical section of the buffer lock on a table's entry. *)
Definition on_entry (ident : TableIdent) (f : TableBuf (RecordBatch:=RecordBatch) → TableBuf)
    : stres WriteBuffer unit := λ w, (with_state (on_table ident f (wb_state w)) w, Ok tt).
(** A call that is awaited. *)
Definition await_lake {A} (m : stres L A) : stres WriteBuffer A := λ w,
  let '(s, t) := match wb_env w with
                 | f :: _ => f (wb_state w, wb_tail w)
                 | [] => (wb_state w, wb_tail w)
                 end in
  let w := {| wb_state := s; wb_tail := t; wb_lake := wb_lake w; wb_events := wb_events w;
              wb_env := tl (wb_env w); wb_clock := wb_clock w |} in
  let '(l, r) := m (wb_lake w) in (with_lake l w, r).
Definition call_tail {A} (m : stres T A) (none : result A) : stres WriteBuffer A := λ w,
  match wb_tail w with
  | Some t => let '(t, r) := m t in (with_tail (Some t) w, r)
  | None => (w, none)
  end.
(** A failure that is only logged. *)
Definition logged {S A} (m : stres S A) : stres S (option A) := λ s, let '(s, r) := m s in (s, Ok (res_ok r)).

Definition publish (e : TailEvent) : stres WriteBuffer unit := λ w,
  ({| wb_state := wb_state w; wb_tail := wb_tail w; wb_lake := wb_lake w; wb_events := wb_events w ++ [e];
      wb_env := wb_env w; wb_clock := wb_clock w |}, Ok tt).
Definition publish_watermark (ident : TableIdent) (mark : option N) : stres WriteBuffer unit :=
  match mark with
  | Some m => publish {| te_ident := ident; te_seq := m; te_kind := EWatermark; te_batches := [] |}
  | None => st_ret tt
  end.

(** [generation_already_committed] *)
Definition generation_already_committed (prev : option N) (mark : N) : bool :=
  match prev with Some p => mark <=? p | None => false end.

(** [contained_in] *)
Definition tail_mark_of (t : option T) (m : Metadata) : option N :=
  t ← t; parse_watermark_property (md_property m (ts_watermark_property t)).
Definition contained_in (t : option T) (m : Metadata) (c : GenCommit) : bool :=
  match c with
  | SnapshotId s => has_snapshot m s
  | CoveredByWatermark mark => generation_already_committed (tail_mark_of t m) mark
  end.

(** [tail_truncate_covered] *)
Definition tail_truncate_covered (ident : TableIdent) (mark : option N) : stres WriteBuffer unit :=
  match mark with
  | Some upto =>
    (let* recorded := logged (call_tail (ts_record_watermark ident upto) (Err "no tail")) in
     match recorded with
     | Some _ => logged (call_tail (ts_truncate ident upto) (Err "no tail")) ;;* st_ret tt
     | None => st_ret tt
     end)%stres
  | None => st_ret tt
  end.

(** The operations one flush composes. *)
Definition ops_of (ident : TableIdent) (snap : PendingSnapshot (RecordBatch:=RecordBatch))
    : result (list (TableOp RecordBatch DataFile)) :=
  let appends := match sn_batches snap with [] => [] | bs => [OpAppend bs] end in
  match sn_keyed snap with
  | [] => Ok appends
  | keyed =>
    keys_batch ← concat_batches (map (λ '(_, _, op), ko_key_row op) keyed);
    predicate ← render_keys_predicate keys_batch;
    let delete := OpDml {| dml_kind := DmlDelete; dml_namespace := join_sep [DOT] (namespace ident);
                           dml_table := table_name ident; dml_alias := None; dml_predicate := Some predicate |} in
    let upserts := omap (λ '(_, _, op), upsert_row op) keyed in
    Ok (appends ++ [delete] ++ match upserts with [] => [] | _ => [OpAppend upserts] end)
  end.

(** What the fresh metadata says about the generation: already committed, or the
    property to stamp. *)
Definition stamp_for (tail : option T) (mark : option N) (m : Metadata) : option (N + string * list byte) :=
  match tail, mark with
  | Some t, Some mark =>
    let key := ts_watermark_property t in
    let prev := parse_watermark_property (md_property m key) in
    Some (if generation_already_committed prev mark then inl mark
          else inr (key, print_u64 (match prev with Some p => N.max p mark | None => mark end)))
  | _, _ => None
  end.

(** What a failed post is found to have done, after one reload. *)
Definition landed (tail : option T) (mark : option N) (reload : option Metadata) : bool :=
  match mark, reload with
  | Some mark, Some fresh => generation_already_committed (tail_mark_of tail fresh) mark
  | _, _ => false
  end.

(** One attempt of [flush_table]; [None] is a conflict to retry. *)
Definition post_attempt (ident : TableIdent) (snap : PendingSnapshot (RecordBatch:=RecordBatch))
    (p : Prepared) : stres WriteBuffer (option unit) := λ w0,
  let n := sn_n_batches snap in
  let mark := sn_tail_mark snap in
  let id := snapshot_id p in
  (on_entry ident (move_pending_to_flushed_gen n (sn_keyed snap) (SnapshotId id) (wb_clock w0)) ;;*
   λ w,
   match await_lake (post_prepared ident p) w with
   | (w, Ok Committed) =>
     (tail_truncate_covered ident mark ;;* publish_watermark ident mark ;;* st_ret (Some tt))%stres w
   | (w, Ok (Conflict _)) => (on_entry ident (move_flushed_back_to_pending id) ;;* st_ret None)%stres w
   | (w, Err e) =>
     (let* reload := match wb_tail w, mark with
                     | Some _, Some _ => logged (await_lake (load_table ident))
                     | _, _ => st_ret None
                     end in
      if landed (wb_tail w) mark reload
      then tail_truncate_covered ident mark ;;* publish_watermark ident mark ;;* st_ret (Some tt)
      else on_entry ident (move_flushed_back_to_pending id) ;;* st_err e)%stres w
   end)%stres w0.

Definition flush_attempt (ident : TableIdent) : stres WriteBuffer (option unit) := λ w,
  match bs_tables (wb_state w) !! ident with
  | None => (w, Ok (Some tt))
  | Some t =>
    let '(t, snap) := snapshot_pending t in
    let w := with_state (with_tables (<[ident := t]> (bs_tables (wb_state w))) (wb_state w)) w in
    if is_empty snap then (w, Ok (Some tt)) else
    (let* m := await_lake (load_table ident) in
     on_entry ident (note_observed (contained_in (wb_tail w) m)) ;;*
     λ w,
     (let* pk := st_lift (if engine_enforces_pk (wb_lake w) then md_pk_columns m else Ok None) in
      let* ops := st_lift (ops_of ident snap) in
      match stamp_for (wb_tail w) (sn_tail_mark snap) m with
      | Some (inl mark) =>
        on_entry ident (move_pending_to_flushed_gen (sn_n_batches snap) (sn_keyed snap)
                          (CoveredByWatermark mark) (wb_clock w)) ;;*
        tail_truncate_covered ident (sn_tail_mark snap) ;;*
        publish_watermark ident (sn_tail_mark snap) ;;* st_ret (Some tt)
      | stamp =>
        let props := match stamp with Some (inr kv) => Some kv | _ => None end in
        let* prepared := await_lake (prepare_commit m ops pk props) in
        match prepared with
        | None =>
          on_entry ident (drop_pending_prefix (sn_n_batches snap) (sn_keyed snap)) ;;*
          tail_truncate_covered ident (sn_tail_mark snap) ;;*
          publish_watermark ident (sn_tail_mark snap) ;;* st_ret (Some tt)
        | Some p => post_attempt ident snap p
        end
      end) w)%stres w
  end.

Fixpoint flush_attempts (attempts : nat) (ident : TableIdent) : stres WriteBuffer unit :=
  match attempts with
  | O => st_err "buffered flush lost the optimistic-concurrency race"
  | S attempts =>
    (let* done := flush_attempt ident in
     match done with Some _ => st_ret tt | None => flush_attempts attempts ident end)%stres
  end.

(** [flush_table] *)
Definition flush_table (ident : TableIdent) : stres WriteBuffer unit :=
  (call_tail (ts_rotate ident) (Ok tt) ;;* flush_attempts MAX_COMMIT_ATTEMPTS ident)%stres.

(** [flush_now]: every table, the first error kept. *)
Fixpoint flush_all (idents : list TableIdent) (first_err : option string) : stres WriteBuffer unit := λ w,
  match idents with
  | [] => (w, match first_err with None => Ok tt | Some e => Err e end)
  | ident :: idents =>
    match flush_table ident w with
    | (w, Ok _) => flush_all idents first_err w
    | (w, Err e) => flush_all idents (match first_err with Some e0 => Some e0 | None => Some e end) w
    end
  end.
Definition flush_now : stres WriteBuffer unit := λ w,
  let w := with_state (retain_flushed (wb_clock w) (wb_state w)) w in
  flush_all (pending_idents (wb_state w)) None w.

(** ** Boot *)

(** [apply_sidecar_seq_floor] *)
Definition apply_sidecar_seq_floor (ident : TableIdent) (sidecar : option N) : stres WriteBuffer unit :=
  match sidecar with
  | Some w => call_tail (ts_ensure_seq_floor ident (wadd w 1)) (Ok tt)
  | None => st_ret tt
  end.

(** A row-wise loop of [replay_keyed_frame]. *)
Fixpoint replay_rows (ident : TableIdent) (schema : Schema) (pk_cols : list (list byte))
    (ops : list (list byte * KeyedOp (RecordBatch:=RecordBatch))) : stres WriteBuffer nat := λ w,
  match ops with
  | [] => (w, Ok 0%nat)
  | (key, op) :: ops =>
    match keyed_write (T:=T) ident (Some schema) pk_cols key op None (wb_state w) with
    | (_, s, Ok _) => (let* n := replay_rows ident schema pk_cols ops in st_ret (S n))%stres (with_state s w)
    | (_, s, Err e) => (with_state s w, Err e)
    end
  end.
Definition upsert_ops (schema : Schema) (pk_cols : list (list byte)) (seq : N) (batch : RecordBatch)
    : result (list (list byte * KeyedOp)) :=
  aligned ← align_batch batch schema;
  key_rows ← project_key_rows aligned pk_cols;
  keys ← encode_batch_keys aligned pk_cols;
  Ok (imap (λ row key, (key, {| ko_key_row := slice_row key_rows row; ko_kind := KUpsertRow (slice_row aligned row);
                               ko_seq := Some seq |})) keys).
Definition delete_ops (schema : Schema) (pk_cols : list (list byte)) (seq : N) (batch : RecordBatch)
    : result (list (list byte * KeyedOp)) :=
  key_batch ← align_key_batch batch schema pk_cols;
  keys ← encode_batch_keys key_batch pk_cols;
  Ok (imap (λ row key, (key, {| ko_key_row := slice_row key_batch row; ko_kind := KDeleteRow;
                               ko_seq := Some seq |})) keys).

(** [replay_keyed_frame] *)
Fixpoint replay_batches (f : RecordBatch → result (list (list byte * KeyedOp))) (ident : TableIdent)
    (schema : Schema) (pk_cols : list (list byte)) (batches : list RecordBatch) : stres WriteBuffer nat :=
  match batches with
  | [] => st_ret 0%nat
  | b :: batches =>
    (let* ops := st_lift (f b) in
     let* n := replay_rows ident schema pk_cols ops in
     let* m := replay_batches f ident schema pk_cols batches in st_ret (n + m)%nat)%stres
  end.
Definition replay_keyed_frame (ident : TableIdent) (schema : Schema) (pk_cols : list (list byte)) (seq : N)
    (op : TailOp RecordBatch) : stres WriteBuffer nat :=
  match op with
  | Upsert batches => replay_batches (upsert_ops schema pk_cols seq) ident schema pk_cols batches
  | Delete batches => replay_batches (delete_ops schema pk_cols seq) ident schema pk_cols batches
  | Append _ => st_err "the caller routes append frames"
  end.

(** The frames of one table, in sequence order. *)
Definition replay_frame (m : Metadata) (ident : TableIdent) (schema : Schema) (frame : N * TailOp RecordBatch)
    : stres WriteBuffer nat := λ w,
  match snd frame with
  | Append batches =>
    match append (T:=T) ident (Some schema) batches None (Some (fst frame)) (wb_state w) with
    | (_, s, Ok st) => (with_state s w, Ok (sg_rows st))
    | (_, s, Err e) => (with_state s w, Err e)
    end
  | op =>
    match md_pk_columns m with
    | Err e => (w, Err e)
    | Ok None => (w, Err "tail replay: keyed frames but no primary-key property")
    | Ok (Some pk) => replay_keyed_frame ident schema pk (fst frame) op w
    end
  end.
Fixpoint replay_frames (m : Metadata) (ident : TableIdent) (schema : Schema)
    (frames : list (N * TailOp RecordBatch)) : stres WriteBuffer nat :=
  match frames with
  | [] => st_ret 0%nat
  | f :: frames =>
    (let* n := replay_frame m ident schema f in
     let* k := replay_frames m ident schema frames in st_ret (n + k)%nat)%stres
  end.

(** One table of [replay_tail]. *)
Definition replay_table (rt : ReplayedTable RecordBatch) : stres WriteBuffer unit := λ w,
  let ident := rt_ident rt in
  match await_lake (load_table ident) w with
  | (w, Err e) =>
    match rt_frames rt with
    | [] => apply_sidecar_seq_floor ident (rt_sidecar rt) w
    | _ => (w, Err "tail replay: cannot load table (its tail holds acked rows)")
    end
  | (w, Ok m) =>
    let property := t ← wb_tail w; md_property m (ts_watermark_property t) in
    let watermark := effective_watermark property (rt_sidecar rt) in
    (match watermark with
     | Some v => call_tail (ts_ensure_seq_floor ident (wadd v 1)) (Ok tt)
     | None => st_ret tt
     end ;;*
     let '(survivors, dropped) := drop_stale_frames (rt_frames rt) watermark in
     (if (0 <? dropped)%nat then tail_truncate_covered ident watermark else st_ret tt) ;;*
     match last survivors with
     | None => st_ret tt
     | Some (max_seq, _) =>
       let* schema := st_lift (md_schema m) in
       let* _ := replay_frames m ident schema survivors in
       on_entry ident (note_tail_high max_seq)
     end)%stres w
  end.
Fixpoint replay_tables (l : list (ReplayedTable RecordBatch)) : stres WriteBuffer unit :=
  match l with
  | [] => st_ret tt
  | rt :: l => (replay_table rt ;;* replay_tables l)%stres
  end.
Definition replay_tail : stres WriteBuffer unit := λ w,
  match wb_tail w with
  | None => (w, Ok tt)
  | Some _ => (let* replayed := call_tail ts_replay (Ok []) in replay_tables replayed)%stres w
  end.
End Flush.
