(* ===== verification/ExactlyOnce.v ===== *)
(** * Exactly once, from the ack to the lake

    One table without keyed writes, driven through everything that happens to a
    buffered INSERT: staging and its durability wait, flushes and their
    outcomes, truncation, other writers' commits, crashes and boot replays.  The
    steps are the operations of [Buffer] and the decisions of [Flush] over an
    ideal tail and an atomic lake. *)
From stdpp Require Import sorting.
From Stdlib Require Import Sorting.Sorted.
From S2P Require Import Prelude Text TailNames Tail Keyed TableOps Buffer Overlay OverlayView FlushRace Flush.
#[local] Open Scope N_scope.
#[local] Arguments hide : simpl never.
#[local] Arguments batch_rows : simpl never.

(** ** The ideal tail *)
Section SpecTail.
Context {RecordBatch : Type}.
Record spec_tail := {
  st_next : N; st_frames : list (N * TailOp RecordBatch); st_sidecar : option N;
}.
Definition op_of (kind : TailOpKind) (bs : list RecordBatch) : TailOp RecordBatch :=
  match kind with KAppend => Append bs | KUpsert => Upsert bs | KDelete => Delete bs end.
Definition with_frames (f : list (N * TailOp RecordBatch)) (t : spec_tail) : spec_tail :=
  {| st_next := st_next t; st_frames := f; st_sidecar := st_sidecar t |}.
Definition WATERMARK_KEY : string := "icegres.tail-seq.x".
#[export] Instance spec_tail_store : TailStore spec_tail RecordBatch := {
  ts_append_staged _ kind bs t :=
    ({| st_next := st_next t + 1; st_frames := st_frames t ++ [(st_next t, op_of kind bs)];
        st_sidecar := st_sidecar t |}, Ok (st_next t));
  ts_rotate _ := st_ret tt;
  ts_replay t := (t, Ok []);
  ts_truncate _ upto t := (with_frames (List.filter (λ f, upto <? fst f) (st_frames t)) t, Ok tt);
  ts_ensure_seq_floor _ floor t :=
    ({| st_next := N.max (st_next t) floor; st_frames := st_frames t; st_sidecar := st_sidecar t |}, Ok tt);
  ts_record_watermark _ seq t :=
    ({| st_next := st_next t; st_frames := st_frames t; st_sidecar := Some seq |}, Ok tt);
  ts_watermark_property _ := WATERMARK_KEY;
}.
End SpecTail.
Arguments spec_tail : clear implicits.

Section ExactlyOnce.
Context {RecordBatch ArrayRef Row : Type} `{ColumnarLaws RecordBatch ArrayRef Row}.
Context (ident : TableIdent) (sch : Schema).
(** Arrow: what was cast to a schema needs no further cast to it. *)
Context (align_idem : ∀ b b', align_batch b sch = Ok b' → align_batch b' sch = Ok b').
#[local] Abbreviation TableBuf := (TableBuf (RecordBatch:=RecordBatch)).
#[local] Abbreviation RoutedStmt := (RoutedStmt (RecordBatch:=RecordBatch)).
#[local] Abbreviation PendingBatch := (PendingBatch (RecordBatch:=RecordBatch)).
#[local] Abbreviation FlushedGen := (FlushedGen (RecordBatch:=RecordBatch)).
#[local] Abbreviation PendingSnapshot := (PendingSnapshot (RecordBatch:=RecordBatch)).
#[local] Abbreviation Staged := (Staged (RecordBatch:=RecordBatch)).

(** ** The system *)

(** Where the flusher is: the window's snapshot taken, the commit prepared on the
    lake's head, the generation handed over and posted. *)
Inductive Phase :=
  | Idle
  | Taken (snap : PendingSnapshot)
  | Ready (snap : PendingSnapshot) (z : Z) (head : nat) (rows : list Row) (prop : list byte)
  | Posted (snap : PendingSnapshot) (z : Z) (head : nat) (rows : list Row) (prop : list byte).
Record Sys := {
  sy_buf : TableBuf;
  sy_tail : spec_tail RecordBatch;
  (* the lake: rows, snapshots, the watermark property, and a count of commits *)
  sy_rows : list Row; sy_snaps : list Z; sy_prop : option (list byte); sy_head : nat;
  sy_phase : Phase;
  (* statements whose durability wait is out *)
  sy_waits : list (nat * N * RoutedStmt);
  (* history: the batches of the statements staged so far, which of them were
     acked or failed exactly, and the rows of other writers *)
  sy_stmts : list (list RecordBatch); sy_acked : list nat; sy_failed : list nat; sy_foreign : list Row;
}.
Definition set_buf (b : TableBuf) (s : Sys) : Sys :=
  {| sy_buf := b; sy_tail := sy_tail s; sy_rows := sy_rows s; sy_snaps := sy_snaps s; sy_prop := sy_prop s;
     sy_head := sy_head s; sy_phase := sy_phase s; sy_waits := sy_waits s; sy_stmts := sy_stmts s;
     sy_acked := sy_acked s; sy_failed := sy_failed s; sy_foreign := sy_foreign s |}.
Definition set_phase (p : Phase) (s : Sys) : Sys :=
  {| sy_buf := sy_buf s; sy_tail := sy_tail s; sy_rows := sy_rows s; sy_snaps := sy_snaps s; sy_prop := sy_prop s;
     sy_head := sy_head s; sy_phase := p; sy_waits := sy_waits s; sy_stmts := sy_stmts s;
     sy_acked := sy_acked s; sy_failed := sy_failed s; sy_foreign := sy_foreign s |}.
Definition set_tail (t : spec_tail RecordBatch) (s : Sys) : Sys :=
  {| sy_buf := sy_buf s; sy_tail := t; sy_rows := sy_rows s; sy_snaps := sy_snaps s; sy_prop := sy_prop s;
     sy_head := sy_head s; sy_phase := sy_phase s; sy_waits := sy_waits s; sy_stmts := sy_stmts s;
     sy_acked := sy_acked s; sy_failed := sy_failed s; sy_foreign := sy_foreign s |}.
Definition set_lake (rows : list Row) (snaps : list Z) (prop : option (list byte)) (foreign : list Row) (s : Sys) : Sys :=
  {| sy_buf := sy_buf s; sy_tail := sy_tail s; sy_rows := rows; sy_snaps := snaps; sy_prop := prop;
     sy_head := S (sy_head s); sy_phase := sy_phase s; sy_waits := sy_waits s; sy_stmts := sy_stmts s;
     sy_acked := sy_acked s; sy_failed := sy_failed s; sy_foreign := foreign |}.
Definition set_waits (w : list (nat * N * RoutedStmt)) (stmts : list (list RecordBatch)) (acked failed : list nat) (s : Sys) : Sys :=
  {| sy_buf := sy_buf s; sy_tail := sy_tail s; sy_rows := sy_rows s; sy_snaps := sy_snaps s; sy_prop := sy_prop s;
     sy_head := sy_head s; sy_phase := sy_phase s; sy_waits := w; sy_stmts := stmts;
     sy_acked := acked; sy_failed := failed; sy_foreign := sy_foreign s |}.

(** What the lake's metadata says of a generation, as [contained_in]. *)
Definition in_lake (snaps : list Z) (prop : option (list byte)) (c : GenCommit) : bool :=
  match c with
  | SnapshotId z => bool_decide (z ∈ snaps)
  | CoveredByWatermark m => generation_already_committed (parse_watermark_property prop) m
  end.
Definition committed_in (s : Sys) : GenCommit → bool := in_lake (sy_snaps s) (sy_prop s).
Definition sys_view (s : Sys) : list Row := view [] (committed_in s) (sy_rows s) (sy_buf s).

(** The stamp of a flush, as [stamp_for]. *)
Definition stamp (mark : N) (prop : option (list byte)) : N + list byte :=
  let prev := parse_watermark_property prop in
  if generation_already_committed prev mark then inl mark
  else inr (print_u64 (match prev with Some p => N.max p mark | None => mark end)).

(** The boot replay of append frames: each through [append_entry] with its own
    sequence and no tail. *)
Fixpoint rebuffer (frames : list (N * TailOp RecordBatch)) (t : TableBuf) : option TableBuf :=
  match frames with
  | [] => Some t
  | (seq, Append bs) :: frames =>
    match append_entry (T:=spec_tail RecordBatch) ident bs None (Some seq) t with
    | (_, t, Ok _) => rebuffer frames t
    | _ => None
    end
  | _ => None
  end.
Definition boot_buf (frames : list (N * TailOp RecordBatch)) : option TableBuf :=
  t ← rebuffer frames (empty_buf sch);
  Some match last frames with Some (max_seq, _) => note_tail_high max_seq t | None => t end.

Definition no_wait (id : nat) (w : nat * N * RoutedStmt) : bool := negb (fst (fst w) =? id)%nat.

Inductive sys_step (s : Sys) : Sys → Prop :=
  (** A statement of at least one row is staged. *)
  | sys_stage batches aligned tail' buf' st seq :
      map_result (λ b, align_batch b sch) batches = Ok aligned → batch_rows aligned ≠ [] →
      st_next (sy_tail s) + 1 < u64_modulus → next_batch_id (sy_buf s) + len aligned < u64_modulus →
      append_entry ident batches (Some (sy_tail s)) None (sy_buf s) = (Some tail', buf', Ok st) →
      sg_wait st = Some seq →
      sys_step s (set_waits ((length (sy_stmts s), seq, sg_routed st) :: sy_waits s) (sy_stmts s ++ [aligned])
                    (sy_acked s) (sy_failed s)
                    (set_tail tail' (set_buf buf' s)))
  (** Its frame is durable: the statement is acked. *)
  | sys_durable id seq ro :
      (id, seq, ro) ∈ sy_waits s →
      sys_step s (set_waits (List.filter (no_wait id) (sy_waits s)) (sy_stmts s) (id :: sy_acked s) (sy_failed s)
                    (set_buf (note_durable seq (sy_buf s)) s))
  (** The wait fails: the frame is cut off and the rows are taken back unless a
      flush claimed them. *)
  | sys_failed id seq ro :
      (id, seq, ro) ∈ sy_waits s →
      let ambiguous := batches_claimed (ro_batch_ids ro) (sy_buf s) || keyed_claimed (ro_keyed ro) (sy_buf s) in
      sys_step s (set_waits (List.filter (no_wait id) (sy_waits s)) (sy_stmts s) (sy_acked s)
                    (if ambiguous then sy_failed s else id :: sy_failed s)
                    (set_tail (with_frames (List.filter (λ f, negb (fst f =? seq)) (st_frames (sy_tail s))) (sy_tail s))
                       (set_buf (unroute_failed seq ro (sy_buf s)) s)))
  (** A flush: take the window, load the lake and prepare, hand over, post. *)
  | sys_take buf' snap :
      sy_phase s = Idle → snapshot_pending (sy_buf s) = (buf', snap) → is_empty snap = false →
      sys_step s (set_phase (Taken snap) (set_buf buf' s))
  | sys_covered snap mark m now :
      sy_phase s = Taken snap → sn_tail_mark snap = Some mark → stamp mark (sy_prop s) = inl m →
      sys_step s (set_phase Idle (set_buf (move_pending_to_flushed_gen (sn_n_batches snap) (sn_keyed snap)
                                             (CoveredByWatermark m) now (note_observed (committed_in s) (sy_buf s))) s))
  | sys_prepare snap mark text z rows :
      sy_phase s = Taken snap → sn_tail_mark snap = Some mark → stamp mark (sy_prop s) = inr text →
      z ∉ sy_snaps s → (∀ g, g ∈ flushed (sy_buf s) → fg_commit g ≠ SnapshotId z) →
      rows ≡ₚ flushed_rows [] (sy_rows s) snap →
      sys_step s (set_phase (Ready snap z (sy_head s) rows text) (set_buf (note_observed (committed_in s) (sy_buf s)) s))
  | sys_hand_over snap z head rows text now :
      sy_phase s = Ready snap z head rows text →
      sys_step s (set_phase (Posted snap z head rows text)
                    (set_buf (move_pending_to_flushed_gen (sn_n_batches snap) (sn_keyed snap) (SnapshotId z) now (sy_buf s)) s))
  (** The post is applied, on the head it was prepared for, and the flusher
      learns it (by the answer, or by its reload finding the mark). *)
  | sys_commit snap z head rows text :
      sy_phase s = Posted snap z head rows text → sy_head s = head →
      sys_step s (set_phase Idle (set_lake rows (z :: sy_snaps s) (Some text) (sy_foreign s) s))
  (** A conflict, or an error of a post that was not applied. *)
  | sys_refused snap z head rows text :
      sy_phase s = Posted snap z head rows text →
      next_batch_id (sy_buf s) + N.of_nat (sn_n_batches snap) < u64_modulus →
      sys_step s (set_phase Idle (set_buf (move_flushed_back_to_pending z (sy_buf s)) s))
  (** After a commit: the sidecar, and the covered frames, as far as it gets. *)
  | sys_truncate w m frames :
      parse_watermark_property (sy_prop s) = Some w → m ≤ w →
      sublist frames (st_frames (sy_tail s)) →
      (∀ f, f ∈ st_frames (sy_tail s) → m < fst f → f ∈ frames) →
      sys_step s (set_tail {| st_next := st_next (sy_tail s); st_frames := frames; st_sidecar := Some m |} s)
  (** Another writer's commit; it leaves the property alone. *)
  | sys_foreign extra rows z :
      rows ≡ₚ sy_rows s ++ extra → z ∉ sy_snaps s →
      (∀ g, g ∈ flushed (sy_buf s) → fg_commit g ≠ SnapshotId z) →
      (∀ snap z' head rows text, sy_phase s = Ready snap z' head rows text → z ≠ z') →
      sys_step s (set_lake rows (z :: sy_snaps s) (sy_prop s) (sy_foreign s ++ extra) s)
  (** A scan observes generations, old ones are collected. *)
  | sys_scan : sys_step s (set_buf (note_observed (committed_in s) (sy_buf s)) s)
  | sys_collect now : sys_step s (set_buf (gc_entry now (sy_buf s)) s)
  (** A crash: frames whose wait was still out may be lost.  The boot drops what
      the watermark covers and buffers the rest again. *)
  | sys_crash frames next buf' :
      sublist frames (st_frames (sy_tail s)) →
      (∀ f, f ∈ st_frames (sy_tail s) → (∀ id seq ro, (id, seq, ro) ∈ sy_waits s → fst f ≠ seq) → f ∈ frames) →
      (∀ f, f ∈ frames → fst f < next) → 0 < next → next < u64_modulus →
      1 + len (concat (map (λ f, op_batches (snd f)) frames)) < u64_modulus →
      let w := effective_watermark (sy_prop s) (st_sidecar (sy_tail s)) in
      boot_buf (fst (drop_stale_frames frames w)) = Some buf' →
      sys_step s
        {| sy_buf := buf';
           sy_tail := {| st_next := match w with Some w => N.max next (wadd w 1) | None => next end;
                         st_frames := frames; st_sidecar := st_sidecar (sy_tail s) |};
           sy_rows := sy_rows s; sy_snaps := sy_snaps s; sy_prop := sy_prop s; sy_head := sy_head s;
           sy_phase := Idle; sy_waits := []; sy_stmts := sy_stmts s; sy_acked := sy_acked s;
           sy_failed := sy_failed s; sy_foreign := sy_foreign s |}.

(** A new table: an empty window, an empty tail, the lake as other writers left
    it. *)
Definition sys_start (rows : list Row) : Sys :=
  {| sy_buf := empty_buf sch; sy_tail := {| st_next := 1; st_frames := []; st_sidecar := None |};
     sy_rows := rows; sy_snaps := []; sy_prop := None; sy_head := 0; sy_phase := Idle; sy_waits := [];
     sy_stmts := []; sy_acked := []; sy_failed := []; sy_foreign := rows |}.
Definition sys_reachable (s : Sys) : Prop := ∃ rows, rtc sys_step (sys_start rows) s.
End ExactlyOnce.
