(* ===== verification/ExactlyOnceInv.v ===== *)
(** * The invariant of the exactly-once system

    Statements sit in the committed rows, in the generation being posted or in
    the window, each in one of them; the steps of [ExactlyOnce] keep it so. *)
From stdpp Require Import sorting.
From Stdlib Require Import Sorting.Sorted.
From S2P Require Import Prelude Text TailNames Tail Keyed TableOps Buffer Overlay OverlayView FlushRace Flush ExactlyOnce.
#[local] Open Scope N_scope.
#[local] Arguments hide : simpl never.
#[local] Arguments batch_rows : simpl never.

Section Invariant.
Context {RecordBatch ArrayRef Row : Type} `{ColumnarLaws RecordBatch ArrayRef Row}.
Context (ident : TableIdent) (sch : Schema).
#[local] Abbreviation TableBuf := (TableBuf (RecordBatch:=RecordBatch)).
#[local] Abbreviation RoutedStmt := (RoutedStmt (RecordBatch:=RecordBatch)).
#[local] Abbreviation PendingBatch := (PendingBatch (RecordBatch:=RecordBatch)).
#[local] Abbreviation Sys := (Sys (RecordBatch:=RecordBatch) (Row:=Row)).
#[local] Abbreviation Phase := (Phase (RecordBatch:=RecordBatch) (Row:=Row)).
#[local] Abbreviation PendingSnapshot := (PendingSnapshot (RecordBatch:=RecordBatch)).

(** ** Statements and their batches in the window *)
Record Stmt := { s_id : nat; s_seq : N; s_batches : list RecordBatch }.
Record Chunk := { c_stmt : Stmt; c_ids : list N; c_claimed : bool }.
Definition mk_pending (claimed : bool) (seq : N) (id : N) (b : RecordBatch) : PendingBatch :=
  {| pb_id := id; pb_claimed := claimed; pb_seq := Some seq; pb_batch := b |}.
Definition chunk_pending (c : Chunk) : list PendingBatch :=
  zip_with (mk_pending (c_claimed c) (s_seq (c_stmt c))) (c_ids c) (s_batches (c_stmt c)).
Definition frame (x : Stmt) : N * TailOp RecordBatch := (s_seq x, Append (s_batches x)).
Definition stmt_batches (l : list Stmt) : list RecordBatch := concat (map s_batches l).
Definition stmt_rows (l : list Stmt) : list Row := batch_rows (stmt_batches l).
Abbreviation stmts K := (map c_stmt K).

Definition ids_from (id : N) (n : nat) : list N := map (λ i, id + N.of_nat i) (seq 0 n).

Lemma ids_from_S id n : ids_from id (S n) = id :: ids_from (id + 1) n.
Proof.
  unfold ids_from. cbn. f_equal; [lia|]. rewrite <-seq_shift, map_map. apply map_ext. lia.
Qed.

Lemma elem_of_ids_from i id n : i ∈ ids_from id n ↔ id ≤ i < id + N.of_nat n.
Proof.
  unfold ids_from. rewrite list_elem_of_fmap. setoid_rewrite elem_of_seq. split.
  - intros (j & -> & Hj). lia.
  - intros Hi. exists (N.to_nat (i - id)). lia.
Qed.

Lemma NoDup_ids_from id n : NoDup (ids_from id n).
Proof.
  unfold ids_from. apply NoDup_fmap_2; [|apply NoDup_seq]. intros a b. lia.
Qed.

Lemma length_ids_from id n : length (ids_from id n) = n.
Proof. unfold ids_from. by rewrite length_map, length_seq. Qed.

Lemma ids_from_add id n m : ids_from id (n + m) = ids_from id n ++ ids_from (id + N.of_nat n) m.
Proof.
  revert id. induction n as [|n IH]; intros id; [by rewrite N.add_0_r|].
  cbn [Nat.add]. rewrite !ids_from_S, IH. cbn. f_equal. f_equal. f_equal. lia.
Qed.

Lemma push_all_spec q bs (t : TableBuf) (ro : RoutedStmt) t' ro' :
  next_batch_id t + len bs < u64_modulus → push_all (Some q) bs t ro = (t', ro') →
  pending t' = pending t ++ zip_with (mk_pending false q) (ids_from (next_batch_id t) (length bs)) bs ∧
  next_batch_id t' = next_batch_id t + len bs ∧
  ro_batch_ids ro' = ro_batch_ids ro ++ ids_from (next_batch_id t) (length bs) ∧ ro_keyed ro' = ro_keyed ro ∧
  tb_schema t' = tb_schema t ∧ keyed t' = keyed t ∧ flushed t' = flushed t ∧ tail_high t' = tail_high t.
Proof.
  revert t ro. induction bs as [|b bs IH]; intros t ro Hroom Hp; cbn [push_all] in Hp.
  { simplify_eq. cbn. rewrite !app_nil_r, N.add_0_r. done. }
  cbn [length] in Hroom. destruct (push_pending b (Some q) t ro) as [t1 ro1] eqn:E.
  injection E as <- <-. assert (wadd (next_batch_id t) 1 = next_batch_id t + 1) as Hw by (apply wadd_small; lia).
  apply IH in Hp as (H1 & H2 & H3 & H4 & H5 & H6 & H7 & H8);
    [|cbn [with_next_id with_pending next_batch_id]; rewrite Hw; lia].
  cbn [with_next_id with_pending next_batch_id pending keyed flushed tail_high tb_schema ro_batch_ids ro_keyed] in *.
  rewrite Hw in *. cbn [length]. rewrite ids_from_S. cbn [zip_with]. split_and!; try done.
  - rewrite H1, <-app_assoc. done.
  - rewrite H2. lia.
  - rewrite H3, <-app_assoc. done.
Qed.

(** Staging a statement in a table without keyed entries. *)
Lemma append_entry_plain batches aligned tail qr (t : TableBuf) tail' t' (st : Staged (RecordBatch:=RecordBatch)) :
  keyed t = None → tb_schema t = sch → map_result (λ b, align_batch b sch) batches = Ok aligned → aligned ≠ [] →
  next_batch_id t + len aligned < u64_modulus →
  append_entry (T:=spec_tail RecordBatch) ident batches tail qr t = (tail', t', Ok st) →
  ∀ q, (match tail with Some ts => Some (st_next ts) | None => qr end) = Some q →
  pending t' = pending t ++ zip_with (mk_pending false q) (ids_from (next_batch_id t) (length aligned)) aligned ∧
  next_batch_id t' = next_batch_id t + len aligned ∧
  ro_batch_ids (sg_routed st) = ids_from (next_batch_id t) (length aligned) ∧ ro_keyed (sg_routed st) = [] ∧
  tb_schema t' = sch ∧ keyed t' = None ∧ flushed t' = flushed t ∧
  match tail with
  | Some ts => tail' = Some {| st_next := st_next ts + 1; st_frames := st_frames ts ++ [(st_next ts, Append aligned)];
                               st_sidecar := st_sidecar ts |} ∧ tail_high t' = Some q ∧ sg_wait st = Some q
  | None => tail' = None ∧ tail_high t' = tail_high t
  end.
Proof.
  intros Hk Hs Hal Hne Hroom Ha q Hq. unfold append_entry in Ha. rewrite Hs, Hal in Ha.
  destruct aligned as [|b0 bs] eqn:Eal; [done|]. rewrite <-Eal in *.
  destruct tail as [ts|]; cbn [stage_frame ts_append_staged spec_tail_store op_of] in Ha;
    unfold route_appends, no_entries in Ha; cbn [with_tail_marks keyed] in Ha; rewrite Hk in Ha.
  - apply (inj Some) in Hq as <-. destruct (push_all _ _ _ _) as [t1 ro1] eqn:E in Ha.
    apply push_all_spec in E as (H1 & H2 & H3 & H4 & H5 & H6 & H7 & H8); [|exact Hroom].
    injection Ha as <- <- <-.
    cbn [with_tail_marks keyed pending next_batch_id tb_schema flushed tail_high no_route ro_batch_ids ro_keyed app] in *.
    cbn [sg_routed sg_wait]. split_and!; congruence.
  - subst qr. destruct (push_all _ _ _ _) as [t1 ro1] eqn:E in Ha.
    apply push_all_spec in E as (H1 & H2 & H3 & H4 & H5 & H6 & H7 & H8); [|exact Hroom].
    injection Ha as <- <- <-. cbn [no_route ro_batch_ids ro_keyed app] in *.
    cbn [sg_routed sg_wait]. split_and!; congruence.
Qed.

(** ** The window *)
Definition total (l : list Stmt) : nat := length (stmt_batches l).
Fixpoint rechunk (claimed : bool) (id : N) (l : list Stmt) : list Chunk :=
  match l with
  | [] => []
  | x :: l =>
    {| c_stmt := x; c_ids := ids_from id (length (s_batches x)); c_claimed := claimed |}
    :: rechunk claimed (id + len (s_batches x)) l
  end.
Definition claim_chunk (c : Chunk) : Chunk := {| c_stmt := c_stmt c; c_ids := c_ids c; c_claimed := true |}.
Definition chunk_ids (K : list Chunk) : list N := concat (map c_ids K).
Definition chunk_ok (next : N) (c : Chunk) : Prop :=
  length (c_ids c) = length (s_batches (c_stmt c)) ∧ s_batches (c_stmt c) ≠ [] ∧ ∀ i, i ∈ c_ids c → i < next.
Definition chunks_ok (K : list Chunk) (next : N) : Prop :=
  Forall (chunk_ok next) K ∧ NoDup (chunk_ids K).
Record win_inv (t : TableBuf) (K : list Chunk) : Prop := {
  wi_schema : tb_schema t = sch;
  wi_keyed : keyed t = None;
  wi_pending : pending t = concat (map chunk_pending K);
  wi_chunks : chunks_ok K (next_batch_id t);
}.

Lemma chunk_ids_app K1 K2 : chunk_ids (K1 ++ K2) = chunk_ids K1 ++ chunk_ids K2.
Proof. unfold chunk_ids. by rewrite map_app, concat_app. Qed.

Lemma elem_of_chunk_ids i K : i ∈ chunk_ids K ↔ ∃ c, c ∈ K ∧ i ∈ c_ids c.
Proof.
  unfold chunk_ids. rewrite list_elem_of_In, in_concat. setoid_rewrite <-list_elem_of_In. split.
  - intros (l & Hl & Hi). apply list_elem_of_fmap in Hl as (c & -> & Hc). eauto.
  - intros (c & Hc & Hi). exists (c_ids c). split; [|done]. apply list_elem_of_fmap. eauto.
Qed.

Lemma stmt_batches_app l1 l2 : stmt_batches (l1 ++ l2) = stmt_batches l1 ++ stmt_batches l2.
Proof. unfold stmt_batches. by rewrite map_app, concat_app. Qed.

Lemma stmt_rows_app l1 l2 : stmt_rows (l1 ++ l2) = stmt_rows l1 ++ stmt_rows l2.
Proof. unfold stmt_rows. by rewrite stmt_batches_app, batch_rows_app. Qed.

Lemma total_app l1 l2 : total (l1 ++ l2) = (total l1 + total l2)%nat.
Proof. unfold total. by rewrite stmt_batches_app, length_app. Qed.

Lemma total_cons x l : total (x :: l) = (length (s_batches x) + total l)%nat.
Proof. unfold total, stmt_batches. cbn. by rewrite length_app. Qed.

Lemma stmts_rechunk cl id l : stmts (rechunk cl id l) = l.
Proof. revert id. induction l as [|x l IH]; intros id; [done|]. cbn. by rewrite IH. Qed.

Lemma elem_of_rechunk cl id l c :
  c ∈ rechunk cl id l → c_claimed c = cl ∧ c_stmt c ∈ l ∧ length (c_ids c) = length (s_batches (c_stmt c)) ∧
    ∀ i, i ∈ c_ids c → id ≤ i < id + N.of_nat (total l).
Proof.
  revert id. induction l as [|x l IH]; intros id Hc; [by apply not_elem_of_nil in Hc|].
  rewrite total_cons. cbn in Hc. apply elem_of_cons in Hc as [->|(H1 & H2 & H3 & H4)%IH].
  - cbn. split_and!; [done|by left|by rewrite length_ids_from|]. intros i Hi%elem_of_ids_from. lia.
  - split_and!; [done|by right|done|]. intros i Hi%H4. lia.
Qed.

Lemma NoDup_rechunk cl id l : NoDup (chunk_ids (rechunk cl id l)).
Proof.
  revert id. induction l as [|x l IH]; intros id; [constructor|]. unfold chunk_ids. cbn [rechunk map concat c_ids].
  apply NoDup_app. split_and!; [apply NoDup_ids_from| |apply IH].
  intros i Hi%elem_of_ids_from (c & Hc & Hic)%elem_of_chunk_ids. apply elem_of_rechunk in Hc as (_ & _ & _ & Hc).
  apply Hc in Hic. lia.
Qed.

Lemma chunk_pending_length c : length (c_ids c) = length (s_batches (c_stmt c)) → length (chunk_pending c) = length (s_batches (c_stmt c)).
Proof. intros Hl. unfold chunk_pending. rewrite length_zip_with. lia. Qed.

Lemma chunks_ok_perm K K' n : K ≡ₚ K' → chunks_ok K n → chunks_ok K' n.
Proof.
  intros Hp [H1 H2]. split; [by rewrite <-Hp|]. unfold chunk_ids in *.
  assert (concat (map c_ids K) ≡ₚ concat (map c_ids K')) as <-; [|done].
  clear H1 H2. induction Hp as [|c K K' Hp IH|c c' K|K1 K2 K3 _ IH1 _ IH2]; cbn; [done|by rewrite IH| |by etrans].
  by rewrite !app_assoc, (Permutation_app_comm (c_ids c)).
Qed.

Lemma chunks_ok_add cl K next l :
  chunks_ok K next → Forall (λ x, s_batches x ≠ []) l → chunks_ok (K ++ rechunk cl next l) (next + N.of_nat (total l)).
Proof.
  intros [H1 H2] Hl. split.
  - apply Forall_app. rewrite !Forall_forall in *. split.
    + intros c Hc. destruct (H1 c Hc) as (? & ? & Hi). split_and!; [done..|]. intros i Hic%Hi. lia.
    + intros c Hc. apply elem_of_rechunk in Hc as (_ & Hx & ? & Hi). split_and!; [done|by apply Hl|]. intros i Hic%Hi. lia.
  - rewrite chunk_ids_app. apply NoDup_app. split_and!; [done| |apply NoDup_rechunk].
    intros i (c & Hc & Hi)%elem_of_chunk_ids (c' & Hc' & Hi')%elem_of_chunk_ids.
    apply elem_of_rechunk in Hc' as (_ & _ & _ & Hc'). apply Hc' in Hi'.
    rewrite Forall_forall in H1. destruct (H1 c Hc) as (_ & _ & Hlt). apply Hlt in Hi. lia.
Qed.

Lemma chunks_ok_app_r K1 K2 n : chunks_ok (K1 ++ K2) n → chunks_ok K2 n.
Proof.
  intros [H1 H2]. split; [by apply Forall_app in H1 as [_ ?]|].
  rewrite chunk_ids_app in H2. by apply NoDup_app in H2 as (_ & _ & ?).
Qed.

Lemma map_pending {B} (f : PendingBatch → B) (g : N → RecordBatch → B) cl q ids bs :
  (∀ i b, f (mk_pending cl q i b) = g i b) → map f (zip_with (mk_pending cl q) ids bs) = zip_with g ids bs.
Proof.
  intros Hf. revert bs. induction ids as [|i ids IH]; intros [|b bs]; [done..|]. cbn. by rewrite Hf, IH.
Qed.

Lemma zip_with_snd {A B C} (f : B → C) (l : list A) (k : list B) :
  length l = length k → zip_with (λ _ b, f b) l k = map f k.
Proof. revert k. induction l as [|a l IH]; intros [|b k] Hl; [done..|]. cbn. injection Hl as Hl. by rewrite IH. Qed.

Lemma map_chunks {B} (f : PendingBatch → B) (g : Chunk → list B) K n :
  chunks_ok K n → (∀ c, chunk_ok n c → map f (chunk_pending c) = g c) →
  map f (concat (map chunk_pending K)) = concat (map g K).
Proof.
  intros [Hk _] Hg. induction Hk as [|c K Hc _ IH]; [done|]. cbn. by rewrite map_app, IH, Hg.
Qed.

Lemma pending_batches K n : chunks_ok K n → map pb_batch (concat (map chunk_pending K)) = stmt_batches (stmts K).
Proof.
  intros HK. rewrite (map_chunks _ (λ c, s_batches (c_stmt c)) K n HK); [unfold stmt_batches; by rewrite map_map|].
  intros c (Hl & _). unfold chunk_pending. rewrite (map_pending _ (λ _ b, b)) by done.
  by rewrite (zip_with_snd (λ b, b)), map_id.
Qed.

Lemma pending_length K n : chunks_ok K n → length (concat (map chunk_pending K)) = total (stmts K).
Proof. intros HK. unfold total. by rewrite <-(pending_batches K n HK), length_map. Qed.

(** What a generation holds of its statements. *)
Definition stmt_gen (l : list Stmt) : list (option N * RecordBatch) :=
  concat (map (λ x, map (λ b, (Some (s_seq x), b)) (s_batches x)) l).

Lemma pending_gen K n :
  chunks_ok K n → map (λ p, (pb_seq p, pb_batch p)) (concat (map chunk_pending K)) = stmt_gen (stmts K).
Proof.
  intros HK. rewrite (map_chunks _ (λ c, map (λ b, (Some (s_seq (c_stmt c)), b)) (s_batches (c_stmt c))) K n HK).
  { unfold stmt_gen. by rewrite map_map. }
  intros c (Hl & _). unfold chunk_pending. rewrite (map_pending _ (λ _ b, (Some (s_seq (c_stmt c)), b))) by done.
  by rewrite (zip_with_snd (λ b, (Some (s_seq (c_stmt c)), b))).
Qed.

Lemma pending_claim K : map claim (concat (map chunk_pending K)) = concat (map chunk_pending (map claim_chunk K)).
Proof.
  rewrite concat_map, !map_map. f_equal. apply map_ext. intros c. unfold chunk_pending.
  by apply (map_pending claim (mk_pending true (s_seq (c_stmt c)))).
Qed.

Lemma stmt_gen_batches l : map snd (stmt_gen l) = stmt_batches l.
Proof.
  unfold stmt_gen, stmt_batches. rewrite concat_map, map_map. f_equal. apply map_ext. intros x. by rewrite map_map, map_id.
Qed.

Lemma restore_app (g1 g2 : list (option N * RecordBatch)) id ps1 id1 ps2 id2 :
  restore id g1 = (ps1, id1) → restore id1 g2 = (ps2, id2) → restore id (g1 ++ g2) = (ps1 ++ ps2, id2).
Proof.
  revert id ps1. induction g1 as [|[q b] g1 IH]; intros id ps1 H1 H2; cbn in H1 |- *; [by simplify_eq|].
  destruct (restore (wadd id 1) g1) as [ps id'] eqn:E. simplify_eq. by rewrite (IH _ _ E H2).
Qed.

Lemma restore_stmt id q bs :
  id + len bs < u64_modulus →
  restore id (map (λ b, (Some q, b)) bs) = (zip_with (mk_pending true q) (ids_from id (length bs)) bs, id + len bs).
Proof.
  revert id. induction bs as [|b bs IH]; intros id Hlt; cbn [length map restore] in *; [by rewrite N.add_0_r|].
  rewrite (wadd_small id 1), IH, ids_from_S by lia. cbn [zip_with]. f_equal. lia.
Qed.

Lemma restore_stmts id l :
  id + N.of_nat (total l) < u64_modulus →
  restore id (stmt_gen l) = (concat (map chunk_pending (rechunk true id l)), id + N.of_nat (total l)).
Proof.
  revert id. induction l as [|x l IH]; intros id Hlt; [by rewrite N.add_0_r|]. rewrite total_cons in *.
  unfold stmt_gen. cbn [rechunk map concat]. fold (stmt_gen l). erewrite restore_app; [|apply restore_stmt; lia|apply IH; lia]. f_equal. lia.
Qed.

(** ** The operations on the window *)
Lemma stmts_claimed K : stmts (map claim_chunk K) = stmts K.
Proof. rewrite map_map. by apply map_ext. Qed.

Lemma win_snapshot t K t' snap :
  win_inv t K → snapshot_pending t = (t', snap) →
  win_inv t' (map claim_chunk K) ∧ next_batch_id t' = next_batch_id t ∧ flushed t' = flushed t ∧ tail_high t' = tail_high t ∧
  sn_keyed snap = [] ∧ sn_batches snap = stmt_batches (stmts K) ∧ sn_n_batches snap = total (stmts K) ∧
  sn_tail_mark snap = tail_high t.
Proof.
  intros [Hs Hk Hp Hc] Ht. unfold snapshot_pending in Ht. rewrite Hk in Ht. injection Ht as <- <-.
  cbn [sn_keyed sn_batches sn_n_batches sn_tail_mark]. rewrite Hp, (pending_batches _ _ Hc), (pending_length _ _ Hc).
  split_and!; [|done..]. split; cbn; [done..|by rewrite pending_claim|].
  destruct Hc as [H1 H2]. split.
  - apply Forall_map. eapply Forall_impl; [exact H1|]. done.
  - unfold chunk_ids. by rewrite map_map.
Qed.

Lemma win_handover t Ka Kb commit now :
  win_inv t (Ka ++ Kb) →
  let t' := move_pending_to_flushed_gen (total (stmts Ka)) [] commit now t in
  win_inv t' Kb ∧ next_batch_id t' = next_batch_id t ∧ tail_high t' = tail_high t ∧
  flushed t' = flushed t ++ [{| fg_commit := commit; fg_batches := stmt_gen (stmts Ka); fg_keyed := [];
                               fg_committed_at := now; fg_observed := false |}].
Proof.
  intros [Hs Hk Hp Hc] t'. assert (chunks_ok Ka (next_batch_id t)) as Ha.
  { eapply chunks_ok_app_r, chunks_ok_perm; [apply Permutation_app_comm|exact Hc]. }
  pose proof (pending_length _ _ Ha) as Hl. rewrite map_app, concat_app in Hp.
  unfold t', move_pending_to_flushed_gen, drop_pending_prefix, drain_keyed_snapshot.
  cbn [with_flushed with_keyed with_pending keyed flushed tail_high next_batch_id].
  rewrite Hp, <-Hl, take_app_length, drop_app_length, (pending_gen _ _ Ha). split_and!; [|done..].
  split; cbn; [done|by rewrite Hk|done|by apply chunks_ok_app_r in Hc].
Qed.

Lemma win_back t K G g l z :
  win_inv t K → flushed t = G ++ [g] → fg_commit g = SnapshotId z → (∀ g', g' ∈ G → fg_commit g' ≠ SnapshotId z) →
  fg_batches g = stmt_gen l → fg_keyed g = [] → Forall (λ x, s_batches x ≠ []) l →
  next_batch_id t + N.of_nat (total l) < u64_modulus →
  let t' := move_flushed_back_to_pending z t in
  win_inv t' (rechunk true (next_batch_id t) l ++ K) ∧ next_batch_id t ≤ next_batch_id t' ∧ flushed t' = G ∧
  tail_high t' = tail_high t.
Proof.
  intros [Hs Hk Hp Hc] Hf Hg HG Hb Hgk Hl Hroom t'. unfold t', move_flushed_back_to_pending. rewrite Hf.
  assert (position (λ g, bool_decide (fg_commit g = SnapshotId z)) (G ++ [g]) = Some (length G)) as ->.
  { clear -Hg HG. induction G as [|g' G IH]; cbn; [by rewrite bool_decide_true|].
    rewrite bool_decide_false by (apply HG; by left). rewrite IH; [done|]. intros; apply HG. by right. }
  rewrite list_lookup_middle, Hb, restore_stmts, Hgk by done.
  cbn [with_keyed with_next_id with_pending with_flushed keyed flushed tail_high next_batch_id].
  split_and!; [|lia| |done].
  - split; cbn; [done|by rewrite Hk|by rewrite Hp, map_app, concat_app|].
    eapply chunks_ok_perm; [apply Permutation_app_comm|]. by apply chunks_ok_add.
  - rewrite delete_middle. by rewrite app_nil_r.
Qed.

Lemma filter_keep {A} (f : A → bool) l : (∀ a, a ∈ l → f a = true) → List.filter f l = l.
Proof.
  intros Hf. induction l as [|a l IH]; [done|]. cbn. rewrite Hf by by left. f_equal. apply IH. intros; apply Hf. by right.
Qed.

Lemma filter_drop {A} (f : A → bool) l : (∀ a, a ∈ l → f a = false) → List.filter f l = [].
Proof.
  intros Hf. induction l as [|a l IH]; [done|]. cbn. rewrite Hf by by left. apply IH. intros; apply Hf. by right.
Qed.

Lemma elem_of_chunk_pending p c : p ∈ chunk_pending c → pb_id p ∈ c_ids c ∧ pb_claimed p = c_claimed c.
Proof.
  unfold chunk_pending. intros Hp. apply list_elem_of_lookup in Hp as [i Hi].
  apply lookup_zip_with_Some in Hi as (j & b & -> & Hj & _). split; [by eapply list_elem_of_lookup_2|done].
Qed.

Lemma elem_of_pending p K : p ∈ concat (map chunk_pending K) → ∃ c, c ∈ K ∧ pb_id p ∈ c_ids c ∧ pb_claimed p = c_claimed c.
Proof.
  rewrite list_elem_of_In, in_concat. setoid_rewrite <-list_elem_of_In. intros (l & Hl & Hp).
  apply list_elem_of_fmap in Hl as (c & -> & Hc). exists c. split; [done|]. by apply elem_of_chunk_pending.
Qed.

Lemma unclaimed_present ids (t : TableBuf) K :
  pending t = concat (map chunk_pending K) → ids ≠ [] → batches_claimed ids t = false →
  ∃ c i, c ∈ K ∧ i ∈ c_ids c ∧ i ∈ ids ∧ c_claimed c = false.
Proof.
  intros Hp Hids Hb. unfold batches_claimed in Hb. apply negb_false_iff, Nat.eqb_eq in Hb.
  destruct (List.filter _ _) as [|p l] eqn:E in Hb.
  - exfalso. cbn in Hb. symmetry in Hb. apply size_empty_inv in Hb. destruct ids as [|i ids]; [done|]. set_solver.
  - assert (p ∈ p :: l) as Hin by by left. rewrite <-E, list_elem_of_In, filter_In, <-list_elem_of_In in Hin.
    destruct Hin as [Hin Hf]. apply andb_prop in Hf as [Hid Hcl]. apply bool_decide_eq_true in Hid. apply negb_true_iff in Hcl.
    rewrite Hp in Hin. apply elem_of_pending in Hin as (c & Hc & Hi & Hcc). exists c, (pb_id p). by rewrite <-Hcc.
Qed.

Lemma win_unroute t K ro seq id :
  win_inv t K → ro_keyed ro = [] → ro_batch_ids ro ≠ [] →
  (∀ c, c ∈ K → s_id (c_stmt c) = id → c_claimed c = true ∨ c_ids c = ro_batch_ids ro) →
  (∀ c i, c ∈ K → i ∈ c_ids c → i ∈ ro_batch_ids ro → s_id (c_stmt c) = id) →
  let t' := unroute_failed seq ro t in
  if batches_claimed (ro_batch_ids ro) t || keyed_claimed (ro_keyed ro) t then t' = t
  else next_batch_id t' = next_batch_id t ∧ flushed t' = flushed t ∧ tail_high t' = tail_high t ∧
       ∃ Ka c Kb, K = Ka ++ c :: Kb ∧ s_id (c_stmt c) = id ∧ c_claimed c = false ∧ win_inv t' (Ka ++ Kb).
Proof.
  intros [Hs Hk Hp Hc] Hro Hids Hown Hsame t'. unfold t', unroute_failed.
  destruct (batches_claimed _ _) eqn:Eb; [done|]. rewrite Hro. cbn [keyed_claimed existsb orb].
  cbn [with_tail_marks with_pending keyed]. rewrite Hk. cbn [with_pending with_tail_marks next_batch_id flushed tail_high].
  split_and!; [done..|]. destruct (unclaimed_present _ _ _ Hp Hids Eb) as (c & i & HcK & Hi & Hii & Hcl).
  assert (s_id (c_stmt c) = id) as Hid by by eapply Hsame.
  destruct (Hown c HcK Hid) as [?|Hce]; [congruence|]. apply list_elem_of_split in HcK as (Ka & Kb & ->).
  exists Ka, c, Kb. split_and!; [done..|].
  assert (chunks_ok (c :: (Ka ++ Kb)) (next_batch_id t)) as Hc'.
  { eapply chunks_ok_perm; [|exact Hc]. by rewrite Permutation_middle. }
  assert (∀ d j, d ∈ Ka ++ Kb → j ∈ c_ids d → j ∉ ro_batch_ids ro) as Hne.
  { intros d j Hd Hj. rewrite <-Hce. destruct Hc' as [_ Hnd]. unfold chunk_ids in Hnd. cbn in Hnd.
    apply NoDup_app in Hnd as (_ & Hnd & _). intros Hjc. apply (Hnd j Hjc), elem_of_chunk_ids. eauto. }
  split; cbn [with_pending with_tail_marks tb_schema keyed pending next_batch_id]; [done|done| |].
  - rewrite Hp, !map_app, !concat_app, !List.filter_app. cbn [map concat]. rewrite List.filter_app.
    rewrite (filter_drop _ (chunk_pending c)); [f_equal; apply filter_keep|].
    3: { intros p [Hx _]%elem_of_chunk_pending. rewrite Hce in Hx. by rewrite bool_decide_true. }
    all: intros p (d & Hd & Hx & _)%elem_of_pending; rewrite bool_decide_false; [done|]; eapply Hne; [|done]; set_solver.
  - by apply (chunks_ok_app_r [c]).
Qed.

Definition aligned_stmt (x : Stmt) : Prop :=
  s_batches x ≠ [] ∧ map_result (λ b, align_batch b sch) (s_batches x) = Ok (s_batches x).

(** Arrow: what was cast to a schema needs no further cast to it. *)
Context (align_idem : ∀ b b', align_batch b sch = Ok b' → align_batch b' sch = Ok b').

Lemma align_again l l' :
  map_result (λ b, align_batch b sch) l = Ok l' → map_result (λ b, align_batch b sch) l' = Ok l'.
Proof.
  revert l'. induction l as [|b l IH]; intros l' Hm; cbn in Hm; [by apply Ok_inj in Hm as <-|].
  apply bind_Ok in Hm as (b' & Hb & Hm). apply bind_Ok in Hm as (l1 & Hl & Hm). apply Ok_inj in Hm as <-. cbn.
  by rewrite (align_idem _ _ Hb), (IH _ Hl).
Qed.

Lemma win_append t K batches tail qr tail' t' (st : Staged (RecordBatch:=RecordBatch)) x :
  win_inv t K → map_result (λ b, align_batch b sch) batches = Ok (s_batches x) → s_batches x ≠ [] →
  next_batch_id t + len (s_batches x) < u64_modulus →
  (match tail with Some ts => Some (st_next ts) | None => qr end) = Some (s_seq x) →
  append_entry (T:=spec_tail RecordBatch) ident batches tail qr t = (tail', t', Ok st) →
  win_inv t' (K ++ rechunk false (next_batch_id t) [x]) ∧ next_batch_id t' = next_batch_id t + len (s_batches x) ∧
  ro_batch_ids (sg_routed st) = ids_from (next_batch_id t) (length (s_batches x)) ∧ ro_keyed (sg_routed st) = [] ∧
  flushed t' = flushed t ∧
  match tail with
  | Some ts => tail' = Some {| st_next := st_next ts + 1; st_frames := st_frames ts ++ [frame x];
                               st_sidecar := st_sidecar ts |} ∧ tail_high t' = Some (s_seq x) ∧ sg_wait st = Some (s_seq x)
  | None => tail_high t' = tail_high t
  end.
Proof.
  intros [Hs Hk Hp Hc] Hal Hne Hroom Hq Ha.
  destruct (append_entry_plain _ _ _ _ _ _ _ _ Hk Hs Hal Hne Hroom Ha _ Hq) as (Hp' & Hn' & Hi & Hr & Hs' & Hk' & Hf' & Ht).
  split_and!; try done.
  - split; [done..| |].
    + rewrite Hp', Hp, map_app, concat_app. f_equal. cbn. by rewrite app_nil_r.
    + rewrite Hn'. replace (length (s_batches x)) with (total [x]); [|by rewrite total_cons; unfold total; cbn; lia].
      apply chunks_ok_add; [done|]. by repeat constructor.
  - destruct tail as [ts|]; [|by destruct Ht]. destruct Ht as (-> & -> & ->). apply (inj Some) in Hq. unfold frame. by rewrite Hq.
Qed.

Lemma rechunk_app cl id l1 l2 : rechunk cl id (l1 ++ l2) = rechunk cl id l1 ++ rechunk cl (id + N.of_nat (total l1)) l2.
Proof.
  revert id. induction l1 as [|x l1 IH]; intros id; cbn [app rechunk]; [by rewrite N.add_0_r|].
  rewrite IH, total_cons. do 3 f_equal. lia.
Qed.

Lemma win_rebuffer l t K t' :
  win_inv t K → Forall aligned_stmt l → next_batch_id t + N.of_nat (total l) < u64_modulus →
  rebuffer ident (map frame l) t = Some t' →
  win_inv t' (K ++ rechunk false (next_batch_id t) l) ∧ tail_high t' = tail_high t ∧ flushed t' = flushed t.
Proof.
  revert t K. induction l as [|x l IH]; intros t K Hw Hal Hroom Hr; cbn [map rebuffer frame rechunk] in Hr |- *.
  { simplify_eq. by rewrite app_nil_r. }
  apply Forall_cons in Hal as [[Hne Hx] Hal]. rewrite total_cons in Hroom.
  destruct (append_entry ident (s_batches x) None (Some (s_seq x)) t) as [[tail1 t1] [st|]] eqn:E; [|done].
  assert (next_batch_id t + len (s_batches x) < u64_modulus) as Hroom1 by lia.
  destruct (win_append _ _ _ None (Some (s_seq x)) _ _ _ x Hw Hx Hne Hroom1 eq_refl E) as (Hw1 & Hn1 & _ & _ & Hf1 & Hh1).
  destruct (IH t1 _ Hw1 Hal) as (Hw2 & Hh2 & Hf2); [rewrite Hn1; lia|done|]. rewrite Hn1 in Hw2. cbn [rechunk] in Hw2.
  rewrite <-app_assoc in Hw2. split_and!; [exact Hw2|congruence|congruence].
Qed.

Lemma win_empty : win_inv (empty_buf sch) [].
Proof. split; [done..|]. split; [constructor|by apply NoDup_nil]. Qed.

Lemma boot_frames w F :
  fst (drop_stale_frames (map frame F) w) =
  map frame (List.filter (λ x, match w with Some w => w <? s_seq x | None => true end) F).
Proof.
  unfold drop_stale_frames. destruct w as [w|]; cbn [fst]; [|by rewrite filter_keep].
  induction F as [|x F IH]; [done|]. cbn. destruct (w <? s_seq x); cbn; by rewrite IH.
Qed.

Lemma win_boot l t :
  Forall aligned_stmt l → 1 + N.of_nat (total l) < u64_modulus → boot_buf ident sch (map frame l) = Some t →
  win_inv t (rechunk false 1 l) ∧ flushed t = [] ∧ tail_high t = s_seq <$> last l.
Proof.
  intros Hal Hroom Hb. unfold boot_buf in Hb. destruct (rebuffer _ _ _) as [t1|] eqn:E; [|done].
  destruct (win_rebuffer l _ [] t1 win_empty Hal Hroom E) as ([] & Hh & Hf). cbn in Hb. injection Hb as <-.
  rewrite fmap_last. destruct (last l) as [x|]; cbn [fmap option_fmap option_map frame]; [|by split_and!].
  split_and!; [by split|done|]. unfold note_tail_high. by rewrite Hh.
Qed.
End Invariant.
