(* ===== verification/ExactlyOnceSys.v ===== *)
(** * The invariant of the exactly-once system

    Every statement sits in the committed rows, in the generation being posted
    or in the window, in exactly one of them; the frames of the tail, the
    watermark and the flusher's phase agree with that, and each step of
    [ExactlyOnce] keeps it so. *)
From stdpp Require Import sorting.
From Stdlib Require Import Sorting.Sorted.
From S2P Require Import Prelude Text TailNames Tail Keyed TableOps Buffer Overlay OverlayView FlushRace Flush ExactlyOnce ExactlyOnceInv.
#[local] Open Scope N_scope.
#[local] Arguments hide : simpl never.
#[local] Arguments batch_rows : simpl never.

(** ** Lists with increasing keys *)
Section Increasing.
Context {A : Type} (f : A → N).
Definition increasing (l : list A) : Prop := StronglySorted N.lt (map f l).

Lemma increasing_app l1 l2 :
  increasing (l1 ++ l2) ↔ (∀ a b, a ∈ l1 → b ∈ l2 → f a < f b) ∧ increasing l1 ∧ increasing l2.
Proof.
  unfold increasing. rewrite map_app, StronglySorted_app. setoid_rewrite list_elem_of_fmap. naive_solver.
Qed.

Lemma increasing_inj l a b : increasing l → a ∈ l → b ∈ l → f a = f b → a = b.
Proof.
  induction l as [|c l IH]; intros Hl Ha Hb Hf; [by apply not_elem_of_nil in Ha|].
  apply (increasing_app [c]) in Hl as (Hc & _ & Hl).
  apply elem_of_cons in Ha as [->|Ha], Hb as [->|Hb]; [done| | |by apply IH].
  - specialize (Hc c b ltac:(by left) Hb). lia.
  - specialize (Hc c a ltac:(by left) Ha). lia.
Qed.

Lemma increasing_sublist l k : sublist k l → increasing l → increasing k.
Proof.
  intros Hs Hl. induction Hs as [|a k l Hs IH|a k l Hs IH]; [done| |].
  - apply (increasing_app [a]) in Hl as (Ha & _ & Hl). apply (increasing_app [a]). split_and!; [|by repeat constructor|by apply IH].
    intros b c Hb Hc. apply Ha; [done|]. by eapply elem_of_sublist.
  - apply (increasing_app [a]) in Hl as (_ & _ & Hl). by apply IH.
Qed.

Lemma increasing_NoDup l : increasing l → NoDup l.
Proof.
  induction l as [|a l IH]; intros Hl; [constructor|]. apply (increasing_app [a]) in Hl as (Ha & _ & Hl).
  constructor; [|by apply IH]. intros Hin. specialize (Ha a a ltac:(by left) Hin). lia.
Qed.
End Increasing.

Lemma sublist_map_inv {A B} (f : A → B) l k : sublist k (map f l) → ∃ l', sublist l' l ∧ k = map f l'.
Proof.
  revert k. induction l as [|a l IH]; intros k Hk; cbn in Hk.
  - apply sublist_nil_r in Hk as ->. by exists [].
  - apply sublist_cons_r in Hk as [Hk|(k' & -> & Hk)]; apply IH in Hk as (l' & Hl & ->).
    + exists l'. split; [by apply sublist_cons|done].
    + exists (a :: l'). split; [by apply sublist_skip|done].
Qed.

Lemma filter_sublist {A} (f : A → bool) l : sublist (List.filter f l) l.
Proof. induction l as [|a l IH]; [constructor|]. cbn. destruct (f a); by constructor. Qed.

Lemma elem_of_filter_b {A} (f : A → bool) l a : a ∈ List.filter f l ↔ a ∈ l ∧ f a = true.
Proof. by rewrite !list_elem_of_In, filter_In. Qed.

Lemma elem_of_snoc {A} (l : list A) x y : y ∈ l ++ [x] ↔ y ∈ l ∨ y = x.
Proof. by rewrite elem_of_app, list_elem_of_singleton. Qed.

(** ** The watermark *)
Definition above (prop : option (list byte)) (q : N) : Prop := ∀ w, parse_watermark_property prop = Some w → w < q.
Definition below (prop : option (list byte)) (q : N) : Prop := ∃ w, parse_watermark_property prop = Some w ∧ q ≤ w.

Lemma above_below prop q : above prop q → below prop q → False.
Proof. intros Ha (w & Hw & Hq). specialize (Ha w Hw). lia. Qed.

Lemma effective_below prop sidecar :
  (∀ m, sidecar = Some m → below prop m) → effective_watermark prop sidecar = parse_watermark_property prop.
Proof.
  intros Hs. unfold effective_watermark. destruct sidecar as [m|]; [|by case_match].
  destruct (Hs m eq_refl) as (w & -> & Hm). f_equal. lia.
Qed.

Lemma stamp_outcome mark prop text :
  is_u64 mark → (∀ w, parse_watermark_property prop = Some w → is_u64 w) → stamp mark prop = inr text →
  ∃ w, parse_watermark_property (Some text) = Some w ∧ mark ≤ w ∧
    (∀ q, mark < q → above prop q → w < q) ∧ (∀ p, parse_watermark_property prop = Some p → p ≤ w).
Proof.
  intros Hm Hp. unfold stamp. destruct (generation_already_committed _ _) eqn:Eg; [done|]. intros [= <-].
  unfold above. destruct (parse_watermark_property prop) as [p|] eqn:Ep.
  - exists (N.max p mark). rewrite parse_print_watermark by (apply N.max_lub_lt; [by apply Hp|done]).
    split_and!; [done|lia| |intros ? [= <-]; lia]. intros q Hq Ha. specialize (Ha p eq_refl). lia.
  - exists mark. rewrite parse_print_watermark by done. split_and!; [done|lia| |done]. intros q Hq _. lia.
Qed.

Section System.
Context {RecordBatch ArrayRef Row : Type} `{ColumnarLaws RecordBatch ArrayRef Row}.
Context (ident : TableIdent) (sch : Schema).
Context (align_idem : ∀ b b', align_batch b sch = Ok b' → align_batch b' sch = Ok b').
#[local] Abbreviation TableBuf := (TableBuf (RecordBatch:=RecordBatch)).
#[local] Abbreviation RoutedStmt := (RoutedStmt (RecordBatch:=RecordBatch)).
#[local] Abbreviation FlushedGen := (FlushedGen (RecordBatch:=RecordBatch)).
#[local] Abbreviation Sys := (Sys (RecordBatch:=RecordBatch) (Row:=Row)).
#[local] Abbreviation Phase := (Phase (RecordBatch:=RecordBatch) (Row:=Row)).
#[local] Abbreviation PendingSnapshot := (PendingSnapshot (RecordBatch:=RecordBatch)).
#[local] Abbreviation Stmt := (Stmt (RecordBatch:=RecordBatch)).
#[local] Abbreviation Chunk := (Chunk (RecordBatch:=RecordBatch)).
#[local] Abbreviation stmts K := (map c_stmt K).
#[local] Abbreviation incr := (increasing (A:=Stmt) s_seq).

(** ** The invariant *)

(** [C]: committed statements, [L]: the others, in the order of their
    sequences; [F]: statements with a frame. *)
Record log_inv (t : spec_tail RecordBatch) (prop : option (list byte)) (C L F : list Stmt) : Prop := {
  li_frames : st_frames t = map frame F;
  li_Fsorted : incr F;
  li_Fnext : ∀ x, x ∈ F → s_seq x < st_next t;
  li_sorted : incr L;
  li_live : ∀ x, x ∈ L → above prop (s_seq x) ∧ s_seq x < st_next t;
  li_F : ∀ x, x ∈ F → above prop (s_seq x) → x ∈ L;
  li_C : ∀ x, x ∈ C → below prop (s_seq x);
  li_aligned : ∀ x, x ∈ F ∨ x ∈ L → aligned_stmt sch x;
  li_mark : ∀ w, parse_watermark_property prop = Some w → w < st_next t;
  li_next : 0 < st_next t < u64_modulus;
  li_sidecar : ∀ m, st_sidecar t = Some m → below prop m;
}.
Definition high_inv (high : option N) (next : N) (L : list Stmt) : Prop :=
  (∀ x, x ∈ L → ∃ h, high = Some h ∧ s_seq x ≤ h) ∧ ∀ h, high = Some h → h < next.
Record hist_inv (stmts : list (list RecordBatch)) (acked failed : list nat) (C L F : list Stmt) : Prop := {
  hi_ids : NoDup (map s_id (C ++ L));
  hi_stmts : ∀ x, x ∈ C ++ L → stmts !! s_id x = Some (s_batches x);
  hi_acked : ∀ i, i ∈ acked → ∃ x, x ∈ C ++ L ∧ s_id x = i ∧ (x ∈ L → x ∈ F);
  hi_failed : ∀ i, i ∈ failed → (i < length stmts)%nat ∧ ∀ x, x ∈ C ++ L → s_id x ≠ i;
}.

(** A statement whose wait is out: its chunk, if any is left, is the routed one
    unless a flush claimed it. *)
Record wait_ok (next : N) (acked : list nat) (C L F : list Stmt) (K : list Chunk) (w : nat * N * RoutedStmt) : Prop := {
  wo_acked : fst (fst w) ∉ acked;
  wo_keyed : ro_keyed (snd w) = [];
  wo_ids : ro_batch_ids (snd w) ≠ [];
  wo_next : ∀ i, i ∈ ro_batch_ids (snd w) → i < next;
  wo_stmt : ∃ y, y ∈ C ++ L ∧ s_id y = fst (fst w) ∧ s_seq y = snd (fst w) ∧ (y ∈ L → y ∈ F);
  wo_own : ∀ c, c ∈ K → s_id (c_stmt c) = fst (fst w) → c_claimed c = true ∨ c_ids c = ro_batch_ids (snd w);
  wo_same : ∀ c i, c ∈ K → i ∈ c_ids c → i ∈ ro_batch_ids (snd w) → s_id (c_stmt c) = fst (fst w);
}.
Definition wait_ids (waits : list (nat * N * RoutedStmt)) : list nat := map (λ w, fst (fst w)) waits.

(** A snapshot of the statements [A], in front of the statements [B]. *)
Definition between (snap : PendingSnapshot) (next : N) (A B : list Stmt) : Prop :=
  ∃ mark, sn_tail_mark snap = Some mark ∧ mark < next ∧
    (∀ x, x ∈ A → s_seq x ≤ mark) ∧ (∀ x, x ∈ B → mark < s_seq x).
Definition snap_of (snap : PendingSnapshot) (A : list Stmt) : Prop :=
  A ≠ [] ∧ sn_keyed snap = [] ∧ sn_batches snap = stmt_batches A ∧ sn_n_batches snap = total A.
Definition prefix_of (snap : PendingSnapshot) (next : N) (K Ka : list Chunk) : Prop :=
  snap_of snap (stmts Ka) ∧ (∀ c, c ∈ Ka → c_claimed c = true) ∧
  ∃ Kb, K = Ka ++ Kb ∧ between snap next (stmts Ka) (stmts Kb).

(** A commit of [A] prepared on head [head] of the lake. *)
Definition prepared (s : Sys) (snap : PendingSnapshot) (z : Z) (head : nat) (rows : list Row) (text : list byte)
    (A : list Stmt) : Prop :=
  z ∉ sy_snaps s ∧ (head ≤ sy_head s)%nat ∧
  (sy_head s = head → (rows ≡ₚ sy_rows s ++ stmt_rows A) ∧
     ∃ mark, sn_tail_mark snap = Some mark ∧ stamp mark (sy_prop s) = inr text).
Definition all_in (s : Sys) (G : list FlushedGen) : Prop := ∀ g, g ∈ G → committed_in s (fg_commit g) = true.
Definition none_is (z : Z) (G : list FlushedGen) : Prop := ∀ g, g ∈ G → fg_commit g ≠ SnapshotId z.

Definition phase_inv (s : Sys) (W : list Stmt) (K : list Chunk) : Prop :=
  match sy_phase s with
  | Idle => W = [] ∧ all_in s (flushed (sy_buf s))
  | Taken snap => W = [] ∧ all_in s (flushed (sy_buf s)) ∧ ∃ Ka, prefix_of snap (st_next (sy_tail s)) K Ka
  | Ready snap z head rows text =>
    W = [] ∧ all_in s (flushed (sy_buf s)) ∧ none_is z (flushed (sy_buf s)) ∧
    ∃ Ka, prefix_of snap (st_next (sy_tail s)) K Ka ∧ prepared s snap z head rows text (stmts Ka)
  | Posted snap z head rows text =>
    snap_of snap W ∧ between snap (st_next (sy_tail s)) W (stmts K) ∧ prepared s snap z head rows text W ∧
    ∃ G g, flushed (sy_buf s) = G ++ [g] ∧ all_in s G ∧ none_is z G ∧ fg_commit g = SnapshotId z ∧
           fg_batches g = stmt_gen W ∧ fg_keyed g = [] ∧ fg_observed g = false
  end.
Record sys_inv (s : Sys) (C W : list Stmt) (K : list Chunk) (F : list Stmt) : Prop := {
  si_win : win_inv sch (sy_buf s) K;
  si_log : log_inv (sy_tail s) (sy_prop s) C (W ++ stmts K) F;
  si_high : high_inv (tail_high (sy_buf s)) (st_next (sy_tail s)) (W ++ stmts K);
  si_rows : sy_rows s ≡ₚ sy_foreign s ++ stmt_rows C;
  si_hist : hist_inv (sy_stmts s) (sy_acked s) (sy_failed s) C (W ++ stmts K) F;
  si_wait_ids : NoDup (wait_ids (sy_waits s));
  si_waits : ∀ w, w ∈ sy_waits s → wait_ok (next_batch_id (sy_buf s)) (sy_acked s) C (W ++ stmts K) F K w;
  si_observed : ∀ g, g ∈ flushed (sy_buf s) → fg_observed g = true → committed_in s (fg_commit g) = true;
  si_phase : phase_inv s W K;
}.

Lemma sys_inv_start rows : sys_inv (sys_start sch rows) [] [] [] [].
Proof.
  split; cbn; try done; try (by intros; set_solver).
  - apply win_empty.
  - split; cbn; try done; try (by constructor); try (by intros; set_solver).
  - split; [|done]. set_solver.
  - by rewrite app_nil_r.
  - split; cbn; try done; try (by constructor); by intros; set_solver.
  - by apply NoDup_nil.
Qed.

(** ** Parts of the invariant under growth *)
Definition same_lake (s s' : Sys) : Prop :=
  sy_snaps s' = sy_snaps s ∧ sy_prop s' = sy_prop s ∧ sy_head s' = sy_head s ∧ sy_rows s' = sy_rows s.

Lemma between_grow snap next next' A B B' :
  between snap next A B → next ≤ next' → (∀ x, x ∈ B' → x ∈ B ∨ next ≤ s_seq x) → between snap next' A B'.
Proof.
  intros (m & Hm & Hlt & HA & HB) Hn HB'. exists m. split_and!; [done|lia|done|].
  intros x Hx. destruct (HB' x Hx) as [?%HB|?]; [done|lia].
Qed.

Lemma all_in_same s s' G : same_lake s s' → all_in s G → all_in s' G.
Proof. intros (H1 & H2 & _) HG g Hg. unfold committed_in. rewrite H1, H2. by apply HG. Qed.

Lemma prepared_same s s' snap z head rows text A :
  same_lake s s' → prepared s snap z head rows text A → prepared s' snap z head rows text A.
Proof. intros (H1 & H2 & H3 & H4). unfold prepared. by rewrite H1, H2, H3, H4. Qed.

Lemma phase_grow s s' W K Kn :
  sy_phase s' = sy_phase s → same_lake s s' → flushed (sy_buf s') = flushed (sy_buf s) →
  st_next (sy_tail s) ≤ st_next (sy_tail s') → (∀ x, x ∈ stmts Kn → st_next (sy_tail s) ≤ s_seq x) →
  phase_inv s W K → phase_inv s' W (K ++ Kn).
Proof.
  intros Hph Hl Hf Hn HKn. unfold phase_inv. rewrite Hph, Hf.
  assert (∀ snap Ka, prefix_of snap (st_next (sy_tail s)) K Ka → prefix_of snap (st_next (sy_tail s')) (K ++ Kn) Ka) as Hpre.
  { intros snap Ka (Hs & Hc & Kb & -> & Hb). split_and!; [done..|]. exists (Kb ++ Kn). split; [by rewrite app_assoc|].
    eapply between_grow; [done..|]. intros x. rewrite map_app, elem_of_app. intros [?|?%HKn]; [by left|by right]. }
  destruct (sy_phase s) as [|snap|snap z head rows text|snap z head rows text].
  - intros [-> HG]. split; [done|]. by eapply all_in_same.
  - intros (-> & HG & Ka & Hp). split_and!; [done|by eapply all_in_same|]. exists Ka. by apply Hpre.
  - intros (-> & HG & Hz & Ka & Hp & Hr). split_and!; [done|by eapply all_in_same|done|]. exists Ka.
    split; [by apply Hpre|by eapply prepared_same].
  - intros (Hs & Hb & Hr & G & g & Hg & HG & ?). split_and!; [done| |by eapply prepared_same|].
    + eapply between_grow; [done..|]. intros x. rewrite map_app, elem_of_app. intros [?|?%HKn]; [by left|by right].
    + exists G, g. split_and!; [done|by eapply all_in_same|tauto..].
Qed.

Lemma live_unique s C W K F x y :
  sys_inv s C W K F → x ∈ C ++ W ++ stmts K → y ∈ W ++ stmts K → s_seq x = s_seq y → x = y.
Proof.
  intros Hi Hx Hy Hq. destruct Hi as [_ [] _ _ _ _ _ _ _]. apply elem_of_app in Hx as [Hx|Hx].
  - exfalso. destruct (li_live0 y Hy) as [Ha _]. rewrite <-Hq in Ha. eapply above_below; [done|by apply li_C0].
  - by eapply increasing_inj.
Qed.

Lemma id_unique s C W K F x y :
  sys_inv s C W K F → x ∈ C ++ W ++ stmts K → y ∈ C ++ W ++ stmts K → s_id x = s_id y → x = y.
Proof.
  intros Hi Hx Hy Hq. destruct (si_hist _ _ _ _ _ Hi) as [Hnd _ _ _]. revert Hnd Hx Hy Hq.
  generalize (C ++ W ++ stmts K) as l. clear. induction l as [|z l IH]; intros Hnd Hx Hy Hq; [by apply not_elem_of_nil in Hx|].
  cbn in Hnd. apply NoDup_cons in Hnd as [Hz Hnd]. rewrite list_elem_of_fmap in Hz.
  apply elem_of_cons in Hx as [->|Hx], Hy as [->|Hy]; [done| | |by apply IH]; exfalso; apply Hz; eauto.
Qed.

Lemma log_stage t prop C L F x :
  log_inv t prop C L F → s_seq x = st_next t → aligned_stmt sch x → st_next t + 1 < u64_modulus →
  log_inv {| st_next := st_next t + 1; st_frames := st_frames t ++ [frame x]; st_sidecar := st_sidecar t |} prop C
    (L ++ [x]) (F ++ [x]).
Proof.
  intros [] Hq Hal Hroom. split; cbn [st_next st_frames st_sidecar]; try done.
  - by rewrite li_frames0, map_app.
  - apply increasing_app. split_and!; [|done|by repeat constructor].
    intros a b Ha ->%list_elem_of_singleton. rewrite Hq. by apply li_Fnext0.
  - intros y [Hy%li_Fnext0| ->]%elem_of_snoc; lia.
  - apply increasing_app. split_and!; [|done|by repeat constructor].
    intros a b Ha ->%list_elem_of_singleton. rewrite Hq. by apply li_live0.
  - intros y [Hy| ->]%elem_of_snoc; [destruct (li_live0 y Hy); split; [done|lia]|].
    split; [|lia]. intros w Hw. rewrite Hq. by apply li_mark0.
  - intros y [Hy| ->]%elem_of_snoc Ha; apply elem_of_snoc; [left; by apply li_F0|by right].
  - intros y. rewrite !elem_of_snoc. intros [[?| ->]|[?| ->]]; auto.
  - intros w Hw. specialize (li_mark0 w Hw). lia.
  - lia.
Qed.

Lemma hist_stage all acked failed C L F x :
  hist_inv all acked failed C L F → s_id x = length all →
  hist_inv (all ++ [s_batches x]) acked failed C (L ++ [x]) (F ++ [x]).
Proof.
  intros [] Hid. assert (∀ y, y ∈ C ++ L ++ [x] ↔ y ∈ C ++ L ∨ y = x) as Hel.
  { intros y. rewrite !elem_of_app, list_elem_of_singleton. tauto. }
  split.
  - rewrite app_assoc, map_app. apply NoDup_app. split_and!; [done| |apply NoDup_singleton].
    intros i (y & -> & Hy)%list_elem_of_fmap Hx. apply list_elem_of_singleton in Hx. apply hi_stmts0, lookup_lt_Some in Hy. lia.
  - intros y [Hy%hi_stmts0| ->]%Hel; [by apply lookup_app_l_Some|]. rewrite Hid. by apply list_lookup_middle.
  - intros i (y & Hy & Hi & HF)%hi_acked0. exists y. split_and!; [apply Hel; by left|done|].
    rewrite !elem_of_snoc. intros [?|?]; [left; by apply HF|by right].
  - intros i [Hi Hn]%hi_failed0. rewrite length_app. split; [lia|]. intros y [Hy| ->]%Hel; [by apply Hn|lia].
Qed.

Lemma wait_mono next next' acked C C' L L' F F' K K' w :
  wait_ok next acked C L F K w → next ≤ next' → (∀ y, y ∈ C ++ L → y ∈ C' ++ L') →
  (∀ y, y ∈ C ++ L → (y ∈ L → y ∈ F) → y ∈ L' → y ∈ F') →
  (∀ c, c ∈ K' → c ∈ K ∨ (s_id (c_stmt c) = fst (fst w) → c_claimed c = true) ∧
     (∀ i, i ∈ c_ids c → next ≤ i) ∨ ∃ d, d ∈ K ∧ c_stmt c = c_stmt d ∧ c_ids c = c_ids d ∧ c_claimed c = true) →
  wait_ok next' acked C' L' F' K' w.
Proof.
  intros [] Hn HL HF HK. split; try done.
  - intros i Hi%wo_next0. lia.
  - destruct wo_stmt0 as (y & Hy & ? & ? & HyF). exists y. split_and!; [by apply HL|done..|]. by apply HF.
  - intros c Hc Hid. destruct (HK c Hc) as [Hold|[[Hcl _]|(d & Hd & E1 & E2 & E3)]]; [by apply wo_own0|left; by apply Hcl|by left].
  - intros c i Hc Hi Hiw. destruct (HK c Hc) as [Hold|[[_ Hge]|(d & Hd & E1 & E2 & E3)]].
    + by eapply wo_same0.
    + apply Hge in Hi. apply wo_next0 in Hiw. lia.
    + rewrite E1. rewrite E2 in Hi. by eapply wo_same0.
Qed.

(** ** The steps keep it *)
Lemma once_stage s C W K F batches aligned tail' buf' (st : Staged (RecordBatch:=RecordBatch)) seq :
  sys_inv s C W K F → map_result (λ b, align_batch b sch) batches = Ok aligned → batch_rows aligned ≠ [] →
  st_next (sy_tail s) + 1 < u64_modulus → next_batch_id (sy_buf s) + len aligned < u64_modulus →
  append_entry ident batches (Some (sy_tail s)) None (sy_buf s) = (Some tail', buf', Ok st) → sg_wait st = Some seq →
  ∃ K' F', sys_inv (set_waits ((length (sy_stmts s), seq, sg_routed st) :: sy_waits s) (sy_stmts s ++ [aligned]) (sy_acked s) (sy_failed s)
                      (set_tail tail' (set_buf buf' s))) C W K' F'.
Proof.
  intros Hi Hal Hrows Hr1 Hr2 Ha Hw. set (x := {| s_id := length (sy_stmts s); s_seq := st_next (sy_tail s); s_batches := aligned |}).
  assert (aligned ≠ []) as Hne by (intros ->; by apply Hrows).
  destruct (win_append ident sch _ _ _ (Some (sy_tail s)) None _ _ _ x (si_win _ _ _ _ _ Hi) Hal Hne Hr2 eq_refl Ha)
    as (Hwin & Hnext & Hids & Hkeyed & Hfl & Ht & Hhigh & Hwait).
  rewrite Hw in Hwait. injection Hwait as ->. injection Ht as ->. set (Kn := rechunk false _ [x]) in *.
  assert (stmts (K ++ Kn) = stmts K ++ [x]) as HK by (unfold Kn; by rewrite map_app, stmts_rechunk).
  exists (K ++ Kn), (F ++ [x]). destruct Hi.
  assert (∀ y, y ∈ C ++ W ++ stmts K → (s_id y < length (sy_stmts s))%nat) as Hcount.
  { intros y Hy. eapply lookup_lt_Some. by apply (hi_stmts _ _ _ _ _ _ si_hist0). }
  split; cbn [set_waits set_tail set_buf sy_buf sy_tail sy_rows sy_snaps sy_prop sy_head sy_phase sy_waits sy_stmts sy_acked
              sy_failed sy_foreign st_next st_frames st_sidecar]; rewrite ?HK, ?(app_assoc W); try done.
  - apply log_stage; [done|done| |done]. split; [done|]. by eapply align_again.
  - rewrite Hhigh. split; [|by intros h [= <-]; cbn; lia]. intros y [Hy| ->]%elem_of_snoc; exists (s_seq x); split; try done.
    apply N.lt_le_incl, (li_live _ _ _ _ _ si_log0 y Hy).
  - exact (hist_stage _ _ _ _ _ _ x si_hist0 eq_refl).
  - cbn. apply NoDup_cons. split; [|done]. intros (w & Hw' & Hin)%list_elem_of_fmap. apply si_waits0 in Hin as [_ _ _ _ Hy _ _].
    destruct Hy as (y & Hy & Hid & _). apply Hcount in Hy. cbn in Hw'. lia.
  - intros w [->|Hin]%elem_of_cons.
    + split; cbn [fst snd].
      * intros (y & Hy & Hid & _)%(hi_acked _ _ _ _ _ _ si_hist0). apply Hcount in Hy. lia.
      * done.
      * rewrite Hids. destruct aligned; [done|]. by cbn [s_batches x length]; rewrite ids_from_S.
      * intros i. rewrite Hids, Hnext. intros Hi%elem_of_ids_from. exact (proj2 Hi).
      * exists x. rewrite !elem_of_app, !list_elem_of_singleton. tauto.
      * intros c [Hc|Hc]%elem_of_app Hid.
        -- exfalso. assert (c_stmt c ∈ stmts K) as Hin by (apply list_elem_of_fmap; eauto).
           specialize (Hcount (c_stmt c)). rewrite !elem_of_app, Hid in Hcount. apply (Nat.lt_irrefl (length (sy_stmts s))), Hcount. auto.
        -- apply list_elem_of_singleton in Hc as ->. right. by rewrite Hids.
      * intros c i [Hc|Hc]%elem_of_app Hic; [|by apply list_elem_of_singleton in Hc as ->].
        rewrite Hids. intros [Hge _]%elem_of_ids_from. destruct si_win0 as [_ _ _ [Hck _]].
        rewrite Forall_forall in Hck. destruct (Hck c Hc) as (_ & _ & Hlt). apply Hlt in Hic. lia.
    + apply si_waits0 in Hin. eapply wait_mono; [done|lia| | |].
      * intros y Hy. rewrite (app_assoc C (W ++ stmts K)). apply elem_of_snoc. by left.
      * intros y Hy HF. rewrite !elem_of_snoc. intros [?| ->]; [left; by apply HF|by right].
      * intros c [Hc|Hc]%elem_of_app; [by left|]. right; left. apply elem_of_rechunk in Hc as (_ & Hc & _ & Hids').
        apply list_elem_of_singleton in Hc. split; [|intros i Hi'%Hids'; lia]. rewrite Hc. intros Hid. exfalso.
        destruct (wo_stmt _ _ _ _ _ _ _ Hin) as (y & Hy & Hyid & _). apply Hcount in Hy. cbn in Hid. lia.
  - intros g. rewrite Hfl. apply si_observed0.
  - apply (phase_grow s); [done|done|done|cbn; lia| |done]. unfold Kn. rewrite stmts_rechunk.
    intros y ->%list_elem_of_singleton. cbn. lia.
Qed.

Ltac sys_cbn :=
  cbn [set_waits set_tail set_buf set_phase set_lake sy_buf sy_tail sy_rows sy_snaps sy_prop sy_head sy_phase sy_waits
       sy_stmts sy_acked sy_failed sy_foreign st_next st_frames st_sidecar].

Lemma elem_of_no_wait id (w : nat * N * RoutedStmt) l : w ∈ List.filter (no_wait id) l ↔ w ∈ l ∧ fst (fst w) ≠ id.
Proof. rewrite elem_of_filter_b. unfold no_wait. by rewrite negb_true_iff, Nat.eqb_neq. Qed.

Lemma no_wait_NoDup id l : NoDup (wait_ids l) → NoDup (wait_ids (List.filter (no_wait id) l)).
Proof. intros Hnd. eapply sublist_NoDup; [exact Hnd|]. unfold wait_ids. apply fmap_sublist, filter_sublist. Qed.

Lemma wait_once waits w w' : NoDup (wait_ids waits) → w ∈ waits → w' ∈ waits → fst (fst w) = fst (fst w') → w = w'.
Proof.
  induction waits as [|v l IH]; intros Hnd Hw Hw' Heq; [by apply not_elem_of_nil in Hw|].
  cbn in Hnd. apply NoDup_cons in Hnd as [Hv Hnd]. unfold wait_ids in Hv. rewrite list_elem_of_fmap in Hv.
  apply elem_of_cons in Hw as [->|Hw], Hw' as [->|Hw']; [done| | |by apply IH]; exfalso; apply Hv; eauto.
Qed.

Lemma once_durable s C W K F id seq ro :
  sys_inv s C W K F → (id, seq, ro) ∈ sy_waits s →
  sys_inv (set_waits (List.filter (no_wait id) (sy_waits s)) (sy_stmts s) (id :: sy_acked s) (sy_failed s)
             (set_buf (note_durable seq (sy_buf s)) s)) C W K F.
Proof.
  intros [] Hw. pose proof (si_waits0 _ Hw) as [_ _ _ _ Hstmt _ _]. cbn [fst snd] in Hstmt.
  destruct Hstmt as (y & Hy & Hid & _ & HyF).
  split; sys_cbn; try done.
  - by destruct si_win0.
  - destruct si_hist0. split; try done. intros i [->|Hi]%elem_of_cons; [by exists y|by apply hi_acked0].
  - by apply no_wait_NoDup.
  - intros w [Hin Hne]%elem_of_no_wait. destruct (si_waits0 w Hin). split; try done.
    intros [?|?]%elem_of_cons; [done|]. by apply wo_acked0.
Qed.

Lemma log_cut t prop C L F seq :
  log_inv t prop C L F →
  log_inv (with_frames (List.filter (λ f, negb (fst f =? seq)) (st_frames t)) t) prop C L
    (List.filter (λ x, negb (s_seq x =? seq)) F).
Proof.
  intros []. split; cbn [with_frames st_frames st_next st_sidecar]; try done.
  - rewrite li_frames0. clear. induction F as [|x F IH]; [done|]. cbn. destruct (s_seq x =? seq); cbn; by rewrite IH.
  - eapply increasing_sublist; [apply filter_sublist|done].
  - intros x [Hx _]%elem_of_filter_b. by apply li_Fnext0.
  - intros x [Hx _]%elem_of_filter_b. by apply li_F0.
  - intros x [[Hx _]%elem_of_filter_b|Hx]; apply li_aligned0; auto.
Qed.

Lemma log_drop t prop C L L' F :
  log_inv t prop C L F → sublist L' L → (∀ x, x ∈ L → x ∈ L' ∨ x ∉ F) → log_inv t prop C L' F.
Proof.
  intros [] Hsub Hout. assert (∀ x, x ∈ L' → x ∈ L) as Hin by (intros; by eapply elem_of_sublist).
  split; try done.
  - by eapply increasing_sublist.
  - intros x Hx. by apply li_live0, Hin.
  - intros x Hx Ha. by destruct (Hout x (li_F0 x Hx Ha)).
  - intros x [Hx|Hx%Hin]; auto.
Qed.

(** The statement of a wait is told apart by its sequence and by its id. *)
Lemma wait_stmt s C W K F id seq ro :
  sys_inv s C W K F → (id, seq, ro) ∈ sy_waits s →
  (∀ x, x ∈ W ++ stmts K → s_seq x = seq → s_id x = id) ∧
  ∃ y, y ∈ C ++ W ++ stmts K ∧ s_id y = id ∧ s_seq y = seq ∧ (y ∈ W ++ stmts K → y ∈ F).
Proof.
  intros Hi Hw. destruct (wo_stmt _ _ _ _ _ _ _ (si_waits _ _ _ _ _ Hi _ Hw)) as (y & Hy & Hid & Hq & HF). cbn [fst snd] in *.
  split; [|by exists y]. intros x Hx Hxq. rewrite <-Hid. f_equal. symmetry.
  eapply live_unique; [done..|]. by rewrite Hq.
Qed.

(** No frame another statement needs goes with the frame of a failed one. *)
Lemma cut_keeps s C W K F id seq ro x :
  sys_inv s C W K F → (id, seq, ro) ∈ sy_waits s → x ∈ W ++ stmts K → s_id x ≠ id → x ∈ F →
  x ∈ List.filter (λ x, negb (s_seq x =? seq)) F.
Proof.
  intros Hi Hw Hx Hne HF. apply elem_of_filter_b. split; [done|]. apply negb_true_iff, N.eqb_neq. intros Hq.
  by apply Hne, (proj1 (wait_stmt _ _ _ _ _ _ _ _ Hi Hw)).
Qed.

Lemma phase_same s s' W K :
  sy_phase s' = sy_phase s → same_lake s s' → flushed (sy_buf s') = flushed (sy_buf s) →
  st_next (sy_tail s) ≤ st_next (sy_tail s') → phase_inv s W K → phase_inv s' W K.
Proof. intros ????. rewrite <-(app_nil_r K) at 2. apply phase_grow; try done. intros x Hx. by apply not_elem_of_nil in Hx. Qed.

(** The frame of a failed wait is gone, its rows stay with the flush that
    claimed them. *)
Lemma once_failed_claimed s C W K F id seq ro :
  sys_inv s C W K F → (id, seq, ro) ∈ sy_waits s →
  sys_inv (set_waits (List.filter (no_wait id) (sy_waits s)) (sy_stmts s) (sy_acked s) (sy_failed s)
             (set_tail (with_frames (List.filter (λ f, negb (fst f =? seq)) (st_frames (sy_tail s))) (sy_tail s)) s))
    C W K (List.filter (λ x, negb (s_seq x =? seq)) F).
Proof.
  intros Hi Hw. pose proof (λ x, cut_keeps s C W K F id seq ro x Hi Hw) as Hkeep.
  assert (id ∉ sy_acked s) as Hnack by exact (wo_acked _ _ _ _ _ _ _ (si_waits _ _ _ _ _ Hi _ Hw)).
  assert (NoDup (map s_id (C ++ W ++ stmts K))) as Hids by apply (si_hist _ _ _ _ _ Hi). destruct Hi.
  split; sys_cbn; try done.
  - by apply log_cut.
  - destruct si_hist0. split; try done. intros i Hia. destruct (hi_acked0 i Hia) as (x & Hx & Hid & HF).
    exists x. split_and!; [done..|]. intros Hl. apply Hkeep; [done| |by apply HF]. rewrite Hid. by intros ->.
  - by apply no_wait_NoDup.
  - intros w [Hin Hne]%elem_of_no_wait. destruct (si_waits0 w Hin). split; try done.
    destruct wo_stmt0 as (y & Hy & Hid & Hq & HF). exists y. split_and!; [done..|]. intros Hl.
    apply Hkeep; [done| |by apply HF]. by rewrite Hid.
Qed.

Lemma prefix_remove snap next Ka c Kb K1 :
  prefix_of snap next (Ka ++ c :: Kb) K1 → c_claimed c = false → prefix_of snap next (Ka ++ Kb) K1.
Proof.
  intros (Hs & Hcl & K2 & Heq & Hb) Hc. split_and!; [done..|].
  assert (∃ k, Ka = K1 ++ k ∧ K2 = k ++ c :: Kb) as (k & -> & ->).
  { apply app_eq_inv in Heq as [(k & -> & ->)|(k & -> & Heq)]; [by exists k|].
    destruct k as [|d k]; [exists []; by rewrite !app_nil_r in *|]. injection Heq as <- ->.
    rewrite Hcl in Hc; [done|]. apply elem_of_app. right. by left. }
  exists (k ++ Kb). split; [by rewrite app_assoc|]. eapply between_grow; [done..|].
  intros x. rewrite !map_app, !elem_of_app. cbn. rewrite elem_of_cons. tauto.
Qed.

Lemma phase_remove s s' W Ka c Kb :
  sy_phase s' = sy_phase s → same_lake s s' → flushed (sy_buf s') = flushed (sy_buf s) →
  st_next (sy_tail s') = st_next (sy_tail s) → c_claimed c = false →
  phase_inv s W (Ka ++ c :: Kb) → phase_inv s' W (Ka ++ Kb).
Proof.
  intros Hph Hl Hf Hn Hc. unfold phase_inv. rewrite Hph, Hf, Hn.
  destruct (sy_phase s) as [|snap|snap z head rows text|snap z head rows text].
  - intros [-> HG]. split; [done|]. by eapply all_in_same.
  - intros (-> & HG & K1 & Hp). split_and!; [done|by eapply all_in_same|]. exists K1. by eapply prefix_remove.
  - intros (-> & HG & Hz & K1 & Hp & Hr). split_and!; [done|by eapply all_in_same|done|]. exists K1.
    split; [by eapply prefix_remove|by eapply prepared_same].
  - intros (Hs & Hb & Hr & G & g & Hg & HG & ?). split_and!; [done| |by eapply prepared_same|].
    + eapply between_grow; [done..|]. intros x. rewrite !map_app, !elem_of_app. cbn. rewrite elem_of_cons. tauto.
    + exists G, g. split_and!; [done|by eapply all_in_same|tauto..].
Qed.

(** A chunk no flush took, without wait, ack or frame, can leave the window. *)
Lemma once_remove s C W Ka c Kb F buf' :
  sys_inv s C W (Ka ++ c :: Kb) F → c_claimed c = false → s_id (c_stmt c) ∉ sy_acked s →
  s_id (c_stmt c) ∉ wait_ids (sy_waits s) → c_stmt c ∉ F → win_inv sch buf' (Ka ++ Kb) →
  next_batch_id buf' = next_batch_id (sy_buf s) → flushed buf' = flushed (sy_buf s) →
  tail_high buf' = tail_high (sy_buf s) →
  sys_inv (set_waits (sy_waits s) (sy_stmts s) (sy_acked s) (s_id (c_stmt c) :: sy_failed s) (set_buf buf' s))
    C W (Ka ++ Kb) F.
Proof.
  intros Hi Hcl Hack Hwait HF Hwin Hn Hf Hh. destruct Hi.
  assert (W ++ stmts (Ka ++ c :: Kb) ≡ₚ c_stmt c :: W ++ stmts (Ka ++ Kb)) as Hperm.
  { rewrite !map_app. cbn. solve_Permutation. }
  assert (sublist (W ++ stmts (Ka ++ Kb)) (W ++ stmts (Ka ++ c :: Kb))) as Hsub.
  { rewrite !map_app. cbn. apply sublist_app; [done|]. apply sublist_app; [done|]. by apply sublist_cons. }
  assert (∀ x, x ∈ W ++ stmts (Ka ++ c :: Kb) ↔ x = c_stmt c ∨ x ∈ W ++ stmts (Ka ++ Kb)) as Hel.
  { intros x. by rewrite Hperm, elem_of_cons. }
  assert (∀ x, x ∈ W ++ stmts (Ka ++ Kb) → x ∈ W ++ stmts (Ka ++ c :: Kb)) as Hin by (intros; apply Hel; by right).
  assert (∀ x, x ∈ C ++ W ++ stmts (Ka ++ Kb) → x ∈ C ++ W ++ stmts (Ka ++ c :: Kb)) as HinC.
  { intros x. rewrite !(elem_of_app C). intros [?|?]; auto. }
  assert (NoDup (s_id (c_stmt c) :: map s_id (C ++ W ++ stmts (Ka ++ Kb)))) as Hnd.
  { destruct si_hist0 as [Hnd _ _ _]. revert Hnd. rewrite Hperm, <-Permutation_middle. done. }
  apply NoDup_cons in Hnd as [Hid Hnd].
  split; sys_cbn; rewrite ?Hn, ?Hh; try done.
  - eapply log_drop; [done..|]. intros x [->|Hx]%Hel; auto.
  - destruct si_high0 as [Hh1 Hh2]. split; [|done]. intros x Hx. by apply Hh1, Hin.
  - destruct si_hist0. split; [done| | |].
    + intros x Hx. by apply hi_stmts0, HinC.
    + intros i Hi. destruct (hi_acked0 i Hi) as (x & Hx & Hix & HxF). exists x. split_and!; [|done|intros; by apply HxF, Hin].
      revert Hx. rewrite !(elem_of_app C). intros [Hx|Hx]; [by left|]. apply Hel in Hx as [->|Hx]; [by rewrite Hix in Hack|by right].
    + intros i [->|Hi]%elem_of_cons.
      * split; [eapply lookup_lt_Some, hi_stmts0, elem_of_app; right; apply Hel; by left|]. intros x Hx Heq. apply Hid.
        rewrite <-Heq. apply list_elem_of_fmap. eauto.
      * destruct (hi_failed0 i Hi) as [? Hf']. split; [done|]. intros x Hx. by apply Hf', HinC.
  - intros w Hw. destruct (si_waits0 w Hw). split; try done.
    + destruct wo_stmt0 as (y & Hy & Hyi & Hyq & HyF). exists y. split_and!; [|done..|intros; by apply HyF, Hin].
      revert Hy. rewrite !(elem_of_app C). intros [Hy|Hy]; [by left|]. apply Hel in Hy as [->|Hy]; [|by right].
      exfalso. apply Hwait. apply list_elem_of_fmap. by exists w.
    + intros d Hd. apply wo_own0. revert Hd. rewrite !elem_of_app, elem_of_cons. tauto.
    + intros d i Hd. apply wo_same0. revert Hd. rewrite !elem_of_app, elem_of_cons. tauto.
  - by rewrite Hf.
  - by eapply (phase_remove s).
Qed.

Lemma once_failed s C W K F id seq ro :
  sys_inv s C W K F → (id, seq, ro) ∈ sy_waits s →
  ∃ K' F', sys_inv
    (set_waits (List.filter (no_wait id) (sy_waits s)) (sy_stmts s) (sy_acked s)
       (if batches_claimed (ro_batch_ids ro) (sy_buf s) || keyed_claimed (ro_keyed ro) (sy_buf s) then sy_failed s
        else id :: sy_failed s)
       (set_tail (with_frames (List.filter (λ f, negb (fst f =? seq)) (st_frames (sy_tail s))) (sy_tail s))
          (set_buf (unroute_failed seq ro (sy_buf s)) s))) C W K' F'.
Proof.
  intros Hi Hw. pose proof (once_failed_claimed _ _ _ _ _ _ _ _ Hi Hw) as Hi1.
  destruct (wait_stmt _ _ _ _ _ _ _ _ Hi Hw) as (_ & y & Hy & Hyid & Hyq & _).
  destruct (si_waits _ _ _ _ _ Hi _ Hw) as [Hack Hro Hne _ _ Hown Hsame]. cbn [fst snd] in *.
  pose proof (win_unroute sch _ K ro seq id (si_win _ _ _ _ _ Hi) Hro Hne Hown Hsame) as Hun. cbv zeta in Hun.
  destruct (_ || _) eqn:Ec.
  { rewrite Hun. eauto. }
  destruct Hun as (Hn & Hf & Hh & Ka & c & Kb & -> & Hid & Hcl & Hwin).
  exists (Ka ++ Kb), (List.filter (λ x, negb (s_seq x =? seq)) F). rewrite <-Hid in *.
  apply (once_remove _ _ _ _ _ _ _ (unroute_failed seq ro (sy_buf s))) in Hi1; try done; sys_cbn.
  - intros (w & Hwid & [_ Hin]%elem_of_no_wait)%list_elem_of_fmap. congruence.
  - intros [_ Hq]%elem_of_filter_b. apply negb_true_iff, N.eqb_neq in Hq. apply Hq. rewrite <-Hyq. f_equal.
    symmetry. eapply id_unique; [exact Hi|done| |done]. rewrite !elem_of_app, map_app. right; right.
    apply elem_of_app. right. by left.
Qed.

(** ** The flusher *)
Lemma stmts_nonempty s C W K F x : sys_inv s C W K F → x ∈ W ++ stmts K → s_batches x ≠ [].
Proof. intros Hi Hx. apply (li_aligned _ _ _ _ _ (si_log _ _ _ _ _ Hi) x). by right. Qed.

Lemma once_take s C W K F buf' snap :
  sys_inv s C W K F → sy_phase s = Idle → snapshot_pending (sy_buf s) = (buf', snap) → is_empty snap = false →
  sys_inv (set_phase (Taken snap) (set_buf buf' s)) C W (map claim_chunk K) F.
Proof.
  intros Hi Hph Hs He. pose proof (λ x, stmts_nonempty _ _ _ _ _ x Hi) as Hnemp. destruct Hi.
  destruct (win_snapshot sch _ _ _ _ si_win0 Hs) as (Hwin & Hn & Hf & Hh & Hk & Hb & Hnb & Hm).
  unfold phase_inv in si_phase0. rewrite Hph in si_phase0. destruct si_phase0 as [-> HG].
  split; sys_cbn; rewrite ?stmts_claimed, ?Hn, ?Hh; try done.
  - intros w Hw. eapply wait_mono; [by apply si_waits0|done|done|auto|].
    intros c (d & -> & Hd)%list_elem_of_fmap. right; right. by exists d.
  - by rewrite Hf.
  - unfold phase_inv. sys_cbn. rewrite Hf. split_and!; [done|exact HG|]. exists (map claim_chunk K).
    assert (stmts K ≠ []) as Hne.
    { intros Hnil. unfold is_empty in He. rewrite Hk, Hnb, Hnil in He. done. }
    split_and!.
    + by rewrite stmts_claimed.
    + by intros c (d & -> & _)%list_elem_of_fmap.
    + exists []. rewrite app_nil_r. split; [done|]. rewrite stmts_claimed.
      destruct si_high0 as [Hh1 Hh2]. destruct (stmts K) as [|x0 l] eqn:EK; [done|].
      destruct (Hh1 x0) as (h & Hhe & _); [by left|]. exists h. rewrite Hm. split_and!; [done|by apply Hh2| |].
      * intros x Hx. destruct (Hh1 x Hx) as (h' & Hhe' & ?). congruence.
      * intros x Hx. by apply not_elem_of_nil in Hx.
Qed.

(** The guard of a covered generation cannot fire. *)
Lemma once_covered s C W K F snap mark m :
  sys_inv s C W K F → sy_phase s = Taken snap → sn_tail_mark snap = Some mark → stamp mark (sy_prop s) = inl m → False.
Proof.
  intros Hi Hph Hm Hst. destruct Hi. unfold phase_inv in si_phase0. rewrite Hph in si_phase0.
  destruct si_phase0 as (-> & _ & Ka & (Hne & _) & _ & Kb & -> & mark' & Hm' & _ & HA & _).
  rewrite Hm in Hm'. injection Hm' as <-. destruct (stmts Ka) as [|x l] eqn:E; [done|].
  unfold stamp, generation_already_committed in Hst. destruct (parse_watermark_property (sy_prop s)) as [w|] eqn:Ep; [|done].
  destruct (mark <=? w) eqn:El; [|done]. apply N.leb_le in El.
  assert (x ∈ [] ++ stmts (Ka ++ Kb)) as Hx by (rewrite map_app, E; by left).
  destruct (li_live _ _ _ _ _ si_log0 x Hx) as [Ha _]. specialize (Ha w Ep). specialize (HA x ltac:(by left)). lia.
Qed.

(** Rewriting the generations without touching what they are. *)
Lemma observed_all c s (G : list FlushedGen) : all_in s G → all_in s (map (observe_gen c) G).
Proof. intros HG g (g' & -> & Hg)%list_elem_of_fmap. exact (HG g' Hg). Qed.

Lemma observed_none c z (G : list FlushedGen) : none_is z G → none_is z (map (observe_gen c) G).
Proof. intros HG g (g' & -> & Hg)%list_elem_of_fmap. exact (HG g' Hg). Qed.

Lemma observed_in (s : Sys) (g : FlushedGen) : g ∈ map (observe_gen (committed_in s)) (flushed (sy_buf s)) → fg_observed g = true →
  (∀ g, g ∈ flushed (sy_buf s) → fg_observed g = true → committed_in s (fg_commit g) = true) →
  committed_in s (fg_commit g) = true.
Proof.
  intros (g' & -> & Hg)%list_elem_of_fmap Ho Hall. cbn in Ho |- *. apply orb_true_iff in Ho as [Ho|Ho]; [by apply Hall|done].
Qed.

Lemma phase_observed s W K :
  phase_inv s W K → phase_inv (set_buf (note_observed (committed_in s) (sy_buf s)) s) W K.
Proof.
  unfold phase_inv. sys_cbn. cbn [note_observed with_flushed flushed].
  destruct (sy_phase s) as [|snap|snap z head rows text|snap z head rows text].
  - intros [-> HG]. split; [done|]. by apply observed_all.
  - intros (-> & HG & Hp). split_and!; [done|by apply observed_all|done].
  - intros (-> & HG & Hz & Hp). split_and!; [done|by apply observed_all|by apply observed_none|done].
  - intros (Hs & Hb & Hr & G & g & Hg & HG & Hz & Hc & Hfb & Hk & Ho). split_and!; [done..|].
    exists (map (observe_gen (committed_in s)) G), (observe_gen (committed_in s) g).
    split_and!; [by rewrite Hg, map_app|by apply observed_all|by apply observed_none|done..|].
    cbn. rewrite Ho, Hc. cbn. apply bool_decide_eq_false. apply Hr.
Qed.

Lemma once_scan s C W K F :
  sys_inv s C W K F → sys_inv (set_buf (note_observed (committed_in s) (sy_buf s)) s) C W K F.
Proof.
  intros []. split; sys_cbn; try done.
  - by destruct si_win0.
  - intros g Hg Ho. by apply (observed_in s).
  - by apply phase_observed.
Qed.

Lemma once_collect s C W K F now :
  sys_inv s C W K F → sys_inv (set_buf (gc_entry now (sy_buf s)) s) C W K F.
Proof.
  intros []. assert (∀ G : list FlushedGen, ∀ g, g ∈ List.filter (λ g, negb (flushed_gen_expired g now FLUSHED_GC)) G → g ∈ G) as Hsub.
  { intros G g [Hg _]%elem_of_filter_b. done. }
  split; sys_cbn; try done.
  - by destruct si_win0.
  - intros g Hg%Hsub. by apply si_observed0.
  - unfold phase_inv in *. sys_cbn. cbn [gc_entry with_flushed flushed].
    destruct (sy_phase s) as [|snap|snap z head rows text|snap z head rows text].
    + destruct si_phase0 as [-> HG]. split; [done|]. by intros g Hg%Hsub%HG.
    + destruct si_phase0 as (-> & HG & Hp). split_and!; [done|by intros g Hg%Hsub%HG|done].
    + destruct si_phase0 as (-> & HG & Hz & Hp). split_and!; [done|by intros g Hg%Hsub%HG|by intros g Hg%Hsub%Hz|done].
    + destruct si_phase0 as (Hs & Hb & Hr & G & g & Hg & HG & Hz & Hc & Hfb & Hk & Ho). split_and!; [done..|].
      exists (List.filter (λ g, negb (flushed_gen_expired g now FLUSHED_GC)) G), g.
      split_and!; [|by intros g' Hg'%Hsub%HG|by intros g' Hg'%Hsub%Hz|done..].
      rewrite Hg, List.filter_app. cbn. unfold flushed_gen_expired. by rewrite Ho.
Qed.

Lemma plain_snapshot_rows (rows : list Row) snap A :
  snap_of snap A → flushed_rows [] rows snap = rows ++ stmt_rows A.
Proof.
  intros (_ & Hk & Hb & _). unfold flushed_rows, apply_layer. rewrite Hk, Hb. cbn.
  by rewrite hide_empty, app_nil_r.
Qed.

Lemma once_prepare s C W K F snap mark text z rows :
  sys_inv s C W K F → sy_phase s = Taken snap → sn_tail_mark snap = Some mark → stamp mark (sy_prop s) = inr text →
  z ∉ sy_snaps s → none_is z (flushed (sy_buf s)) → rows ≡ₚ flushed_rows [] (sy_rows s) snap →
  sys_inv (set_phase (Ready snap z (sy_head s) rows text) (set_buf (note_observed (committed_in s) (sy_buf s)) s)) C W K F.
Proof.
  intros Hi Hph Hm Hst Hz Hnz Hrows. apply once_scan in Hi as []. split; try done.
  unfold phase_inv in *. revert si_phase0. sys_cbn. rewrite Hph. intros (-> & HG & Ka & Hp).
  split_and!; [done|done|by apply observed_none|]. exists Ka. split; [done|]. split_and!; [done|done|].
  intros _. sys_cbn. split; [|by exists mark]. etrans; [exact Hrows|]. destruct Hp as (Hs & _). by rewrite (plain_snapshot_rows _ _ _ Hs).
Qed.

Lemma wait_fewer next acked C L F K K' w :
  wait_ok next acked C L F K w → (∀ c, c ∈ K' → c ∈ K) → wait_ok next acked C L F K' w.
Proof. intros Hw HK. eapply wait_mono; [done|done|done|auto|]. intros c Hc. left. by apply HK. Qed.

Lemma once_hand_over s C W K F snap z head rows text now :
  sys_inv s C W K F → sy_phase s = Ready snap z head rows text →
  ∃ W' K', sys_inv
    (set_phase (Posted snap z head rows text)
       (set_buf (move_pending_to_flushed_gen (sn_n_batches snap) (sn_keyed snap) (SnapshotId z) now (sy_buf s)) s)) C W' K' F.
Proof.
  intros Hi Hph. destruct Hi. unfold phase_inv in si_phase0. rewrite Hph in si_phase0.
  destruct si_phase0 as (-> & HG & Hz & Ka & (Hs & Hcl & Kb & -> & Hb) & Hr). cbn [app] in *.
  pose proof Hs as (Hne & Hk & Hbs & Hn). rewrite Hk, Hn.
  destruct (win_handover sch _ Ka Kb (SnapshotId z) now si_win0) as (Hwin & Hnext & Hh & Hf).
  exists (stmts Ka), Kb. rewrite map_app in *. set (buf' := move_pending_to_flushed_gen _ _ _ _ _) in *.
  split; sys_cbn; rewrite ?Hnext, ?Hh; try done.
  - intros w Hw. eapply wait_fewer; [by apply si_waits0|]. intros c Hc. apply elem_of_app. by right.
  - intros g. rewrite Hf. intros [Hg| ->]%elem_of_snoc; [by apply si_observed0|done].
  - unfold phase_inv. sys_cbn. split_and!; [done..|].
    exists (flushed (sy_buf s)). eexists. split_and!; [exact Hf|done..].
Qed.

Lemma log_commit t prop text C W L F w mark :
  log_inv t prop C (W ++ L) F → parse_watermark_property (Some text) = Some w → mark ≤ w → w < st_next t →
  (∀ x, x ∈ W → s_seq x ≤ mark) → (∀ x, x ∈ L → w < s_seq x) → (∀ p, parse_watermark_property prop = Some p → p ≤ w) →
  log_inv t (Some text) (C ++ W) L F.
Proof.
  intros [] Hw Hmw Hwn HW HL Hp. apply increasing_app in li_sorted0 as (_ & _ & Hinc).
  assert (∀ q, w < q → above prop q) as Hab by (intros q Hq p Hpp%Hp; lia).
  assert (∀ q, below prop q → below (Some text) q) as Hbe.
  { intros q (p & Hpp%Hp & ?). exists w. split; [done|lia]. }
  split; try done.
  - intros x Hx. split; [intros v Hv; rewrite Hw in Hv; injection Hv as <-; by apply HL|].
    apply li_live0, elem_of_app. by right.
  - intros x Hx Ha. assert (x ∈ W ++ L) as [Hxw|Hxl]%elem_of_app; [|exfalso|done].
    + apply li_F0; [done|]. apply Hab, Ha, Hw.
    + specialize (Ha w Hw). apply HW in Hxw. lia.
  - intros x [Hx|Hx]%elem_of_app; [by apply Hbe, li_C0|]. exists w. split; [done|]. apply HW in Hx. lia.
  - intros x [Hx|Hx]; apply li_aligned0; [by left|right; apply elem_of_app; by right].
  - intros v Hv. rewrite Hw in Hv. by injection Hv as <-.
  - intros m Hm. by apply Hbe, li_sidecar0.
Qed.

Lemma in_lake_mono (snaps snaps' : list Z) prop text w c :
  (∀ z, z ∈ snaps → z ∈ snaps') → parse_watermark_property (Some text) = Some w →
  (∀ p, parse_watermark_property prop = Some p → p ≤ w) → in_lake snaps prop c = true → in_lake snaps' (Some text) c = true.
Proof.
  intros Hs Hw Hp. destruct c as [z|m]; cbn [in_lake].
  - rewrite !bool_decide_eq_true. apply Hs.
  - rewrite Hw. unfold generation_already_committed. destruct (parse_watermark_property prop) as [p|]; [|done].
    specialize (Hp p eq_refl). rewrite !N.leb_le. lia.
Qed.

Lemma prop_room t prop C L F :
  log_inv t prop C L F → ∀ w, parse_watermark_property prop = Some w → w < u64_modulus.
Proof. intros [] w Hw%li_mark0. lia. Qed.

Lemma once_commit s C W K F snap z head rows text :
  sys_inv s C W K F → sy_phase s = Posted snap z head rows text → sy_head s = head →
  sys_inv (set_phase Idle (set_lake rows (z :: sy_snaps s) (Some text) (sy_foreign s) s)) (C ++ W) [] K F.
Proof.
  intros Hi Hph Hhead. destruct Hi. unfold phase_inv in si_phase0. rewrite Hph in si_phase0.
  destruct si_phase0 as (Hs & (mark & Hm & Hmn & HmW & HmK) & (Hz & _ & Hr) & G & g & Hg & HG & Hzn & Hc & _ & _ & Ho).
  destruct (Hr Hhead) as (Hrows & mark' & Hm' & Hst). rewrite Hm in Hm'. injection Hm' as <-.
  destruct (stamp_outcome mark (sy_prop s) text) as (w & Hw & Hmw & Hwlt & Hpw); [|by eapply prop_room|done|].
  { pose proof (li_next _ _ _ _ _ si_log0). lia. }
  assert (∀ x, x ∈ stmts K → w < s_seq x) as HwK.
  { intros x Hx. apply Hwlt; [by apply HmK|]. apply (li_live _ _ _ _ _ si_log0 x), elem_of_app. by right. }
  assert (w < st_next (sy_tail s)) as Hwn.
  { apply Hwlt; [done|]. intros p Hp. by apply (li_mark _ _ _ _ _ si_log0). }
  assert (∀ c, in_lake (sy_snaps s) (sy_prop s) c = true → in_lake (z :: sy_snaps s) (Some text) c = true) as Hmono.
  { intros c. apply (in_lake_mono _ _ _ _ w); [by right|done|done]. }
  assert (∀ g', g' ∈ flushed (sy_buf s) → in_lake (z :: sy_snaps s) (Some text) (fg_commit g') = true) as Hall.
  { intros g'. rewrite Hg. intros [Hg'%HG| ->]%elem_of_snoc; [by apply Hmono|]. rewrite Hc. apply bool_decide_eq_true. by left. }
  assert (∀ y, y ∈ C ++ W ++ stmts K ↔ y ∈ (C ++ W) ++ stmts K) as Hel by (intros y; by rewrite app_assoc).
  split; sys_cbn; cbn [app]; try done.
  - by eapply log_commit.
  - destruct si_high0 as [Hh1 Hh2]. split; [|done]. intros x Hx. apply Hh1, elem_of_app. by right.
  - rewrite Hrows, si_rows0, stmt_rows_app. by rewrite app_assoc.
  - destruct si_hist0. split.
    + by rewrite <-app_assoc.
    + intros x Hx%Hel. by apply hi_stmts0.
    + intros i (x & Hx & Hix & HF)%hi_acked0. exists x. split_and!; [by apply Hel|done|]. intros HK. apply HF, elem_of_app. by right.
    + intros i [Hi Hn]%hi_failed0. split; [done|]. intros x Hx%Hel. by apply Hn.
  - intros v Hv. eapply wait_mono; [by apply si_waits0|done| | |by left].
    + intros y Hy. by apply Hel.
    + intros y Hy HF HK. apply HF, elem_of_app. by right.
  - intros g' Hg' _. by apply Hall.
Qed.

Lemma once_refused s C W K F snap z head rows text :
  sys_inv s C W K F → sy_phase s = Posted snap z head rows text →
  next_batch_id (sy_buf s) + N.of_nat (sn_n_batches snap) < u64_modulus →
  ∃ K', sys_inv (set_phase Idle (set_buf (move_flushed_back_to_pending z (sy_buf s)) s)) C [] K' F.
Proof.
  intros Hi Hph Hroom. pose proof (λ x, stmts_nonempty _ _ _ _ _ x Hi) as Hnemp. destruct Hi.
  unfold phase_inv in si_phase0. rewrite Hph in si_phase0.
  destruct si_phase0 as ((_ & _ & _ & Hn) & _ & _ & G & g & Hg & HG & Hzn & Hc & Hb & Hk & _). rewrite Hn in Hroom.
  assert (Forall (λ x, s_batches x ≠ []) W) as HWne.
  { apply Forall_forall. intros x Hx. apply Hnemp, elem_of_app. by left. }
  destruct (win_back sch _ _ _ _ _ _ si_win0 Hg Hc Hzn Hb Hk HWne Hroom) as (Hwin & Hnext & Hf & Hh).
  set (K' := rechunk true _ W ++ K) in *.
  assert (stmts K' = W ++ stmts K) as HK by (unfold K'; by rewrite map_app, stmts_rechunk).
  exists K'. split; sys_cbn; rewrite ?Hh; cbn [app]; rewrite ?HK; try done.
  - intros w Hw. eapply wait_mono; [by apply si_waits0|done|done|auto|].
    intros c [Hcw|Hck]%elem_of_app; [|by left]. right; left. apply elem_of_rechunk in Hcw as (Hcl & _ & _ & Hge).
    split; [done|]. intros i Hi%Hge. lia.
  - intros g'. rewrite Hf. intros Hg'. apply si_observed0. rewrite Hg. apply elem_of_snoc. by left.
  - unfold phase_inv. sys_cbn. by rewrite Hf.
Qed.

(** A frame that is still there is the one of its statement. *)
Lemma frame_kept t prop C L F Fs x :
  log_inv t prop C L F → sublist Fs F → x ∈ F → frame x ∈ map frame Fs → x ∈ Fs.
Proof.
  intros [] Hs Hx (y & Hy & Hin)%list_elem_of_fmap. injection Hy as Hq _.
  assert (x = y) as ->; [|done]. eapply increasing_inj; [exact li_Fsorted0|done|by eapply elem_of_sublist|done].
Qed.

Lemma once_truncate s C W K F w m frames :
  sys_inv s C W K F → parse_watermark_property (sy_prop s) = Some w → m ≤ w →
  sublist frames (st_frames (sy_tail s)) → (∀ f, f ∈ st_frames (sy_tail s) → m < fst f → f ∈ frames) →
  ∃ F', sys_inv (set_tail {| st_next := st_next (sy_tail s); st_frames := frames; st_sidecar := Some m |} s) C W K F'.
Proof.
  intros Hi Hw Hm Hsub Hkeep. destruct Hi. rewrite (li_frames _ _ _ _ _ si_log0) in Hsub, Hkeep.
  apply sublist_map_inv in Hsub as (F' & HF' & ->). exists F'.
  assert (∀ x, x ∈ F → x ∈ W ++ stmts K → x ∈ F') as Hlive.
  { intros x Hx Hl. eapply frame_kept; [done..|]. apply Hkeep; [by apply list_elem_of_fmap_2|].
    destruct (li_live _ _ _ _ _ si_log0 x Hl) as [Ha _]. specialize (Ha w Hw). cbn. lia. }
  assert (∀ x, x ∈ F' → x ∈ F) as Hin by (intros; by eapply elem_of_sublist).
  split; sys_cbn; try done.
  - destruct si_log0. split; cbn [st_frames st_next st_sidecar]; try done.
    + by eapply increasing_sublist.
    + intros x Hx. by apply li_Fnext0, Hin.
    + intros x Hx. by apply li_F0, Hin.
    + intros x [Hx%Hin|Hx]; auto.
    + intros m' [= <-]. by exists w.
  - destruct si_hist0. split; try done. intros i (x & Hx & Hix & HF)%hi_acked0. exists x. split_and!; auto.
  - intros v Hv. eapply wait_mono; [by apply si_waits0|done|done|auto|by left].
Qed.

Lemma once_foreign s C W K F extra rows z :
  sys_inv s C W K F → rows ≡ₚ sy_rows s ++ extra → z ∉ sy_snaps s → none_is z (flushed (sy_buf s)) →
  (∀ snap z' head rows text, sy_phase s = Ready snap z' head rows text → z ≠ z') →
  sys_inv (set_lake rows (z :: sy_snaps s) (sy_prop s) (sy_foreign s ++ extra) s) C W K F.
Proof.
  intros Hi Hrows Hz Hzn Hready. destruct Hi.
  assert (∀ c, committed_in s c = true → in_lake (z :: sy_snaps s) (sy_prop s) c = true) as Hmono.
  { intros [z'|m]; cbn; [|done]. rewrite !bool_decide_eq_true. by right. }
  assert (∀ snap z' head rows' text A, prepared s snap z' head rows' text A → z ≠ z' →
    prepared (set_lake rows (z :: sy_snaps s) (sy_prop s) (sy_foreign s ++ extra) s) snap z' head rows' text A) as Hprep.
  { intros snap z' head rows' text A (Hz' & Hh & _) Hne. split_and!; sys_cbn; [set_solver|lia|]. intros Heq. lia. }
  split; sys_cbn; try done.
  - rewrite Hrows, si_rows0. solve_Permutation.
  - intros g Hg Ho. by apply Hmono, si_observed0.
  - unfold phase_inv in *. sys_cbn.
    assert (∀ G, all_in s G → all_in (set_lake rows (z :: sy_snaps s) (sy_prop s) (sy_foreign s ++ extra) s) G) as HGm.
    { intros G HG g Hg. by apply Hmono, HG. }
    destruct (sy_phase s) as [|snap|snap z' head rows' text|snap z' head rows' text].
    + destruct si_phase0 as [-> HG]. split; [done|by apply HGm].
    + destruct si_phase0 as (-> & HG & Hp). split_and!; [done|by apply HGm|done].
    + destruct si_phase0 as (-> & HG & Hz' & Ka & Hp & Hr). split_and!; [done|by apply HGm|done|]. exists Ka.
      split; [done|]. by eapply Hprep, Hready.
    + destruct si_phase0 as (Hs & Hb & Hr & G & g & Hg & HG & Hz' & Hc & ?). split_and!; [done|done| |].
      * apply Hprep; [done|]. intros <-. eapply Hzn; [|exact Hc]. rewrite Hg. apply elem_of_snoc. by right.
      * exists G, g. split_and!; [done|by apply HGm|tauto..].
Qed.

(** What the boot keeps of the frames a crash left. *)
Lemma frames_batches (l : list Stmt) : concat (map (λ f, op_batches (snd f)) (map frame l)) = stmt_batches l.
Proof. unfold stmt_batches. rewrite map_map. done. Qed.

Lemma sublist_total (k l : list Stmt) : sublist k l → (total k ≤ total l)%nat.
Proof.
  induction 1 as [|x k l _ IH|x k l _ IH]; [done| |]; rewrite ?total_cons; lia.
Qed.

Lemma log_boot t prop C L Fs F Ks next :
  log_inv t prop C L F → sublist Fs F →
  Ks = List.filter (λ x, match parse_watermark_property prop with Some w => w <? s_seq x | None => true end) Fs →
  (∀ x, x ∈ Fs → s_seq x < next) → (∀ w, parse_watermark_property prop = Some w → w < next) →
  0 < next < u64_modulus →
  log_inv {| st_next := next; st_frames := map frame Fs; st_sidecar := st_sidecar t |} prop C Ks Fs ∧
  (∀ x, x ∈ Ks ↔ x ∈ Fs ∧ x ∈ L).
Proof.
  intros [] Hsub HKs Hn Hwn Hnext. assert (∀ x, x ∈ Fs → x ∈ F) as Hin by (intros; by eapply elem_of_sublist).
  assert (∀ x, x ∈ Ks ↔ x ∈ Fs ∧ above prop (s_seq x)) as Hel.
  { intros x. rewrite HKs, elem_of_filter_b. unfold above. destruct (parse_watermark_property prop) as [w|].
    - rewrite N.ltb_lt. split; intros [? Hx]; (split; [done|]); [by intros ? [= <-]|by apply Hx].
    - split; intros [? Hx]; by split. }
  split.
  - split; cbn [st_next st_frames st_sidecar]; try done.
    + by eapply increasing_sublist.
    + rewrite HKs. eapply increasing_sublist; [apply filter_sublist|]. by eapply increasing_sublist.
    + intros x [Hx Ha]%Hel. split; [done|by apply Hn].
    + intros x Hx Ha. by apply Hel.
    + intros x [Hx%Hin|[Hx%Hin _]%Hel]; auto.
  - intros x. rewrite Hel. split; intros [Hx Ha]; (split; [done|]); [by apply li_F0; [apply Hin|]|by apply li_live0].
Qed.

Lemma hist_boot all acked failed C L F Fs Ks :
  hist_inv all acked failed C L F → NoDup Ks → (∀ x, x ∈ Ks ↔ x ∈ Fs ∧ x ∈ L) →
  (∀ x, x ∈ L → x ∈ F → s_id x ∈ acked → x ∈ Fs) → hist_inv all acked failed C Ks Fs.
Proof.
  intros [] Hnd Hel Hack.
  assert (∀ x, x ∈ C ++ Ks → x ∈ C ++ L) as Hin.
  { intros x. rewrite !elem_of_app. intros [?|[_ ?]%Hel]; auto. }
  split.
  - assert (Ks ⊆+ L) as (k & Hk)%submseteq_Permutation.
    { apply NoDup_submseteq; [done|]. by intros x [_ ?]%Hel. }
    revert hi_ids0. rewrite Hk, app_assoc, map_app. intros Hall. by apply NoDup_app in Hall as [? _].
  - intros x Hx%Hin. by apply hi_stmts0.
  - intros i Hi. destruct (hi_acked0 i Hi) as (x & Hx & Hix & HF). exists x. split_and!; [|done|by intros [? _]%Hel].
    revert Hx. rewrite !elem_of_app. intros [?|Hl]; [by left|right]. apply Hel. split; [|done].
    apply Hack; [done|by apply HF|by rewrite Hix].
  - intros i Hi. destruct (hi_failed0 i Hi) as [? Hn]. split; [done|]. intros x Hx%Hin. by apply Hn.
Qed.

Lemma last_in {A} (l : list A) x : last l = Some x → x ∈ l.
Proof. intros Hl. apply last_Some in Hl as [k ->]. apply elem_of_snoc. by right. Qed.

Lemma increasing_last l x y : incr l → last l = Some y → x ∈ l → s_seq x ≤ s_seq y.
Proof.
  intros Hi [k ->]%last_Some Hx. apply increasing_app in Hi as (Hlt & _). apply elem_of_snoc in Hx as [Hx| ->]; [|done].
  apply N.lt_le_incl, Hlt; [done|by left].
Qed.

Lemma once_crash s C W K F frames next buf' :
  sys_inv s C W K F → sublist frames (st_frames (sy_tail s)) →
  (∀ f, f ∈ st_frames (sy_tail s) → (∀ id seq ro, (id, seq, ro) ∈ sy_waits s → fst f ≠ seq) → f ∈ frames) →
  (∀ f, f ∈ frames → fst f < next) → 0 < next → next < u64_modulus →
  1 + len (concat (map (λ f, op_batches (snd f)) frames)) < u64_modulus →
  let w := effective_watermark (sy_prop s) (st_sidecar (sy_tail s)) in
  boot_buf ident sch (fst (drop_stale_frames frames w)) = Some buf' →
  ∃ K' F', sys_inv
    {| sy_buf := buf';
       sy_tail := {| st_next := match w with Some w => N.max next (wadd w 1) | None => next end;
                     st_frames := frames; st_sidecar := st_sidecar (sy_tail s) |};
       sy_rows := sy_rows s; sy_snaps := sy_snaps s; sy_prop := sy_prop s; sy_head := sy_head s;
       sy_phase := Idle; sy_waits := []; sy_stmts := sy_stmts s; sy_acked := sy_acked s;
       sy_failed := sy_failed s; sy_foreign := sy_foreign s |} C [] K' F'.
Proof.
  intros Hi Hsub Hkeep Hn Hpos Hnext Hroom w Hboot. pose proof (si_log _ _ _ _ _ Hi) as Hlog.
  assert (w = parse_watermark_property (sy_prop s)) as Hw by apply effective_below, Hlog. rewrite Hw in *. clear Hw w.
  rewrite (li_frames _ _ _ _ _ Hlog) in Hsub, Hkeep. apply sublist_map_inv in Hsub as (Fs & HFs & ->).
  rewrite frames_batches in Hroom. rewrite boot_frames in Hboot. set (Ks := List.filter _ Fs) in Hboot.
  set (next' := match parse_watermark_property (sy_prop s) with Some w => _ | None => _ end).
  assert (next ≤ next' ∧ (∀ w, parse_watermark_property (sy_prop s) = Some w → w < next') ∧ next' < u64_modulus) as (Hge & Hwn & Hlt).
  { subst next'. pose proof (li_mark _ _ _ _ _ Hlog) as Hm. pose proof (li_next _ _ _ _ _ Hlog) as [_ Hr].
    destruct (parse_watermark_property (sy_prop s)) as [w|]; [|by split_and!]. specialize (Hm w eq_refl).
    rewrite wadd_small by lia. split_and!; [lia|intros ? [= <-]; lia|lia]. }
  assert (sublist Ks Fs) as HKsub by apply filter_sublist.
  destruct (log_boot _ _ _ _ Fs _ Ks next' Hlog HFs eq_refl) as [Hlog' HKs]; [|done|lia|].
  { intros x Hx. eapply N.lt_le_trans; [|exact Hge]. apply (Hn (frame x)). by apply list_elem_of_fmap_2. }
  destruct (win_boot ident sch Ks buf') as (Hwin & Hf & Hh); [| |done|].
  { apply Forall_forall. intros x [_ Hx]%HKs. apply (li_aligned _ _ _ _ _ Hlog). by right. }
  { pose proof (sublist_total _ _ HKsub). unfold total in *. lia. }
  exists (rechunk false 1 Ks), Fs. split; sys_cbn; rewrite ?stmts_rechunk; cbn [app]; try done.
  - rewrite Hh. split.
    + intros x Hx. destruct (last Ks) as [y|] eqn:El.
      * exists (s_seq y). split; [done|]. eapply increasing_last; [|done|done]. apply (li_sorted _ _ _ _ _ Hlog').
      * apply last_None in El. rewrite El in Hx. by apply not_elem_of_nil in Hx.
    + intros h Hl. destruct (last Ks) as [y|] eqn:El; [|done]. injection Hl as <-.
      apply (li_live _ _ _ _ _ Hlog' y). by apply last_in.
  - apply (si_rows _ _ _ _ _ Hi).
  - eapply hist_boot; [apply (si_hist _ _ _ _ _ Hi)|eapply increasing_NoDup, (li_sorted _ _ _ _ _ Hlog')|done|].
    intros x Hl Hx Hack. apply (frame_kept _ _ _ _ _ _ _ Hlog HFs Hx), Hkeep; [by apply list_elem_of_fmap_2|].
    intros id seq ro Hwt Hq. destruct (wait_stmt _ _ _ _ _ _ _ _ Hi Hwt) as [Huq _]. cbn in Hq.
    apply (wo_acked _ _ _ _ _ _ _ (si_waits _ _ _ _ _ Hi _ Hwt)). cbn. by rewrite <-(Huq x Hl Hq).
  - by apply NoDup_nil.
  - intros v Hv. by apply not_elem_of_nil in Hv.
  - rewrite Hf. intros g Hg. by apply not_elem_of_nil in Hg.
  - unfold phase_inv. sys_cbn. rewrite Hf. split; [done|]. intros g Hg. by apply not_elem_of_nil in Hg.
Qed.

(** ** Every step, every run *)
Lemma once_step s s' C W K F :
  sys_step ident sch s s' → sys_inv s C W K F → ∃ C' W' K' F', sys_inv s' C' W' K' F'.
Proof.
  intros Hst Hi. destruct Hst.
  - edestruct once_stage as (K' & F' & Hi'); [done..|]. eauto.
  - eexists _, _, _, _. by eapply once_durable.
  - edestruct once_failed as (K' & F' & Hi'); [done..|]. eauto.
  - eexists _, _, _, _. by eapply once_take.
  - exfalso. by eapply once_covered.
  - eexists _, _, _, _. by eapply once_prepare.
  - edestruct once_hand_over as (W' & K' & Hi'); [done..|]. eauto.
  - eexists _, _, _, _. by eapply once_commit.
  - edestruct once_refused as (K' & Hi'); [done..|]. eauto.
  - edestruct once_truncate as (F' & Hi'); [done..|]. eauto.
  - eexists _, _, _, _. by eapply once_foreign.
  - eexists _, _, _, _. by eapply once_scan.
  - eexists _, _, _, _. by eapply once_collect.
  - edestruct once_crash as (K' & F' & Hi'); [done..|]. eauto.
Qed.

Lemma sys_reachable_inv s : sys_reachable ident sch s → ∃ C W K F, sys_inv s C W K F.
Proof.
  intros [rows Hr]. assert (∃ C W K F, sys_inv (sys_start sch rows) C W K F) as Hi.
  { eexists _, _, _, _. apply sys_inv_start. }
  revert Hi. induction Hr as [s|s s1 s2 Hs _ IH]; [done|]. intros (C & W & K & F & Hi). apply IH. by eapply once_step.
Qed.

(** What a scan sees: the committed rows, the generation being posted, the
    window. *)
Lemma sys_view_rows s C W K F : sys_inv s C W K F → sys_view s = sy_rows s ++ stmt_rows (W ++ stmts K).
Proof.
  intros Hi. unfold sys_view, view, layers_of. destruct Hi. destruct si_win0 as [_ Hk Hp Hc].
  assert (pending_layer (sy_buf s) = {| ly_appends := stmt_batches (stmts K); ly_upserts := []; ly_keys := ∅ |}) as ->.
  { unfold pending_layer. by rewrite Hk, Hp, (pending_batches _ _ Hc). }
  assert (∀ G, all_in s G → List.filter (λ g, negb (committed_in s (fg_commit g))) G = []) as Hin.
  { intros G HG. apply filter_drop. intros g Hg. by rewrite (HG g Hg). }
  unfold phase_inv in si_phase0. destruct (sy_phase s) as [|snap|snap z head rows text|snap z head rows text].
  1-3: rewrite Hin, plain_layers_view by (tauto || (intros l ->%list_elem_of_singleton; done)); destruct si_phase0 as [-> _]; cbn;
       by rewrite app_nil_r.
  destruct si_phase0 as (_ & _ & (Hz & _) & G & g & -> & HG & _ & Hc' & Hb & Hgk & _).
  rewrite List.filter_app, Hin by done. cbn [List.filter]. rewrite Hc'. cbn [committed_in in_lake].
  unfold committed_in. cbn [in_lake]. rewrite bool_decide_false by done. cbn [negb app map].
  rewrite plain_layers_view.
  - cbn. rewrite Hb, stmt_gen_batches, app_nil_r. unfold stmt_rows. by rewrite stmt_batches_app.
  - intros l [->| ->%list_elem_of_singleton]%elem_of_cons; [|done]. unfold gen_layer. by rewrite Hgk.
Qed.

End System.
