(* ===== verification/GroupSync.v ===== *)
(** * Group fsync of the local tail (src/icegres/src/tail.rs)

    [append_staged], its durability wait, the failure cleanup, [rotate],
    [truncate] and [ensure_seq_floor] of one table's [TableWal], run by any
    number of threads.  A step is one critical section (of the tables lock or of
    a segment's [SegSync] mutex) or one [sync_data] running outside both. *)
From S2P Require Import Prelude Text Segment SegmentWal TailNames Tail.
From stdpp Require Import sorting.
From Stdlib Require Import Sorting.Sorted.
#[local] Open Scope N_scope.

(** ** State *)

(** [SegSyncState] *)
Record SegSyncState := {
  written_len : N;
  written_seq : N;
  synced_len : N;
  synced_seq : N;
  syncing : bool;
  failed : option string;
  cleaned : bool;
}.

(** [SegSync::new] *)
Definition seg_sync_new (base_seq : N) : SegSyncState :=
  {| written_len := 0; written_seq := base_seq; synced_len := 0; synced_seq := base_seq;
     syncing := false; failed := None; cleaned := false |}.

Definition with_failed (st : SegSyncState) (why : string) : SegSyncState :=
  {| written_len := written_len st; written_seq := written_seq st; synced_len := synced_len st;
     synced_seq := synced_seq st; syncing := syncing st; failed := Some why; cleaned := cleaned st |}.
Definition with_syncing (st : SegSyncState) (b : bool) : SegSyncState :=
  {| written_len := written_len st; written_seq := written_seq st; synced_len := synced_len st;
     synced_seq := synced_seq st; syncing := b; failed := failed st; cleaned := cleaned st |}.
Definition with_cleaned (st : SegSyncState) : SegSyncState :=
  {| written_len := written_len st; written_seq := written_seq st; synced_len := synced_len st;
     synced_seq := synced_seq st; syncing := syncing st; failed := failed st; cleaned := true |}.
Definition with_written (st : SegSyncState) (l s : N) : SegSyncState :=
  {| written_len := l; written_seq := s; synced_len := synced_len st;
     synced_seq := synced_seq st; syncing := syncing st; failed := failed st; cleaned := cleaned st |}.
Definition with_synced (st : SegSyncState) (l s : N) : SegSyncState :=
  {| written_len := written_len st; written_seq := written_seq st; synced_len := l;
     synced_seq := s; syncing := syncing st; failed := failed st; cleaned := cleaned st |}.

(** An open file: its bytes, the length of the prefix known to be on the disk,
    the length a running [sync_data] will have put there, and whether the
    directory still names it. *)
Record vfile := {
  f_data : list byte;
  f_durable : nat;
  f_inflight : option nat;
  f_linked : bool;
}.

Definition file_new : vfile := {| f_data := []; f_durable := 0; f_inflight := None; f_linked := true |}.
Definition file_write (bs : list byte) (f : vfile) : vfile :=
  {| f_data := f_data f ++ bs; f_durable := f_durable f; f_inflight := f_inflight f;
     f_linked := f_linked f |}.
Definition file_set_len (n : nat) (f : vfile) : vfile :=
  {| f_data := resize_bytes n (f_data f); f_durable := Nat.min (f_durable f) n;
     f_inflight := Nat.min n <$> f_inflight f; f_linked := f_linked f |}.
Definition file_sync (f : vfile) : vfile :=
  {| f_data := f_data f; f_durable := length (f_data f); f_inflight := f_inflight f;
     f_linked := f_linked f |}.
(** A [sync_data] that runs beside writers: what it started with becomes
    durable when it ends well. *)
Definition file_sync_start (f : vfile) : vfile :=
  {| f_data := f_data f; f_durable := f_durable f; f_inflight := Some (length (f_data f));
     f_linked := f_linked f |}.
Definition file_sync_end (ok : bool) (f : vfile) : vfile :=
  {| f_data := f_data f;
     f_durable := if ok then Nat.max (f_durable f) (default 0%nat (f_inflight f)) else f_durable f;
     f_inflight := None; f_linked := f_linked f |}.
Definition file_unlink (f : vfile) : vfile :=
  {| f_data := f_data f; f_durable := f_durable f; f_inflight := f_inflight f; f_linked := false |}.

(** [ActiveSegment] ([a_id] names its path, its file and its [SegSync]). *)
Record ActiveSegment := { a_id : N; a_max_seq : N; a_good_len : N }.

(** [TableWal] *)
Record TableWal := {
  next_seq : N;
  next_segment : N;
  active : option ActiveSegment;
  sealed : list SealedSegment;
}.

(** A thread: the staged statement whose wait it runs, a rotation, or an append
    whose rollback failed; where it is in the code. *)
Inductive Job := Statement (seq : N) (frame : list byte) | Rotation | PoisonedAppend.
Inductive Pc :=
  | Check                              (* the top of [wait_group_sync]'s loop *)
  | Syncing (target_len target_seq : N) (* leading, in [sync_data] *)
  | WantLock (why : string)            (* [cleanup_failed_segment]: tables lock *)
  | CleanEnter (why : string)          (* [cleanup_failed_segment_locked] *)
  | CleanWait                          (* its [while st.syncing] *)
  | Done (acked : bool).
Record thread := { t_job : Job; t_seg : N; t_end : N; t_pc : Pc }.
Definition with_pc (t : thread) (pc : Pc) : thread :=
  {| t_job := t_job t; t_seg := t_seg t; t_end := t_end t; t_pc := pc |}.

Record world := {
  w_table : TableWal;
  w_syncs : gmap N SegSyncState;
  w_files : gmap N vfile;
  w_marks : gmap N (list byte);
  w_lock : option nat;          (* the thread in the tables lock *)
  w_threads : list thread;
  w_covered : N;                (* the highest [truncate] so far *)
  w_io : list outcome;          (* of this step's system calls *)
}.

Definition set_table (w : world) (t : TableWal) : world :=
  {| w_table := t; w_syncs := w_syncs w; w_files := w_files w; w_marks := w_marks w;
     w_lock := w_lock w; w_threads := w_threads w; w_covered := w_covered w; w_io := w_io w |}.
Definition set_sync (w : world) (i : N) (st : SegSyncState) : world :=
  {| w_table := w_table w; w_syncs := <[i := st]> (w_syncs w); w_files := w_files w;
     w_marks := w_marks w; w_lock := w_lock w; w_threads := w_threads w;
     w_covered := w_covered w; w_io := w_io w |}.
Definition set_files (w : world) (fs : gmap N vfile) : world :=
  {| w_table := w_table w; w_syncs := w_syncs w; w_files := fs; w_marks := w_marks w;
     w_lock := w_lock w; w_threads := w_threads w; w_covered := w_covered w; w_io := w_io w |}.
Definition set_marks (w : world) (ms : gmap N (list byte)) : world :=
  {| w_table := w_table w; w_syncs := w_syncs w; w_files := w_files w; w_marks := ms;
     w_lock := w_lock w; w_threads := w_threads w; w_covered := w_covered w; w_io := w_io w |}.
Definition set_lock (w : world) (l : option nat) : world :=
  {| w_table := w_table w; w_syncs := w_syncs w; w_files := w_files w; w_marks := w_marks w;
     w_lock := l; w_threads := w_threads w; w_covered := w_covered w; w_io := w_io w |}.
Definition set_threads (w : world) (ts : list thread) : world :=
  {| w_table := w_table w; w_syncs := w_syncs w; w_files := w_files w; w_marks := w_marks w;
     w_lock := w_lock w; w_threads := ts; w_covered := w_covered w; w_io := w_io w |}.
Definition set_covered (w : world) (c : N) : world :=
  {| w_table := w_table w; w_syncs := w_syncs w; w_files := w_files w; w_marks := w_marks w;
     w_lock := w_lock w; w_threads := w_threads w; w_covered := c; w_io := w_io w |}.
Definition set_io (w : world) (io : list outcome) : world :=
  {| w_table := w_table w; w_syncs := w_syncs w; w_files := w_files w; w_marks := w_marks w;
     w_lock := w_lock w; w_threads := w_threads w; w_covered := w_covered w; w_io := io |}.

Definition set_active (t : TableWal) (a : option ActiveSegment) : TableWal :=
  {| next_seq := next_seq t; next_segment := next_segment t; active := a; sealed := sealed t |}.
Definition push_sealed (t : TableWal) (s : SealedSegment) : TableWal :=
  {| next_seq := next_seq t; next_segment := next_segment t; active := active t;
     sealed := sealed t ++ [s] |}.

(** ** System calls *)
Definition sys (ok : world → world) (fail : nat → world → world) : stres world unit := λ w,
  match w_io w with
  | IoFail k :: rest => (fail k (set_io w rest), Err "io error")
  | IoOk :: rest => (ok (set_io w rest), Ok tt)
  | [] => (ok w, Ok tt)
  end.
Definition on_file (i : N) (g : vfile → vfile) (w : world) : world := set_files w (alter g i (w_files w)).
Definition linked (w : world) (i : N) : bool :=
  match w_files w !! i with Some f => f_linked f | None => false end.

Definition gs_create_new (i : N) : stres world unit := λ w,
  if linked w i then (w, Err "file exists")
  else sys (λ w, set_files w (<[i := file_new]> (w_files w))) (λ _ w, w) w.
Definition gs_sync_dir : stres world unit := sys id (λ _, id).
Definition gs_write (i : N) (bs : list byte) : stres world unit :=
  sys (on_file i (file_write bs)) (λ k, on_file i (file_write (take k bs))).
Definition gs_set_len (i : N) (n : N) : stres world unit :=
  sys (on_file i (file_set_len (N.to_nat n))) (λ _, id).
Definition gs_sync_data (i : N) : stres world unit := sys (on_file i file_sync) (λ _, id).
Definition gs_open_write (i : N) : stres world unit := λ w,
  if linked w i then sys id (λ _, id) w else (w, Err "no such file").
Definition gs_remove (i : N) : stres world unit := λ w,
  if linked w i then sys (on_file i file_unlink) (λ _, id) w else (w, Err "no such file").
Definition gs_remove_marker (i : N) : stres world unit := λ w,
  match w_marks w !! i with
  | Some _ => sys (λ w, set_marks w (delete i (w_marks w))) (λ _, id) w
  | None => (w, Err "no such file")
  end.
(** [fs::write] of the marker: a failed one leaves part of the text. *)
Definition gs_write_marker (i : N) (text : list byte) : stres world unit :=
  sys (λ w, set_marks w (<[i := text]> (w_marks w)))
      (λ k w, set_marks w (<[i := take k text]> (w_marks w))).

Definition gs_remove_with_marker (i : N) : stres world bool := λ w,
  match gs_remove i w with
  | (w, Ok _) => (fst (gs_remove_marker i w), Ok true)
  | (w, Err _) => (w, Ok false)
  end.

(** [roll_back_segment] *)
Definition roll_back_segment (i : N) (good_len : N) : stres world unit :=
  (gs_set_len i good_len ;;* gs_sync_data i)%stres.

(** [seal_active] *)
Definition seal_active (w : world) : world :=
  match active (w_table w) with
  | None => w
  | Some a =>
    let w := set_table w (set_active (w_table w) None) in
    if 0 <? a_max_seq a
    then set_table w (push_sealed (w_table w) {| ss_id := a_id a; ss_max_seq := a_max_seq a |})
    else fst (gs_remove_with_marker (a_id a) w)
  end.

(** ** [wait_group_sync] *)

(** One turn of its loop under the mutex. *)
Inductive Turn := TFailed (why : string) | TDurable | TLead (target_len target_seq : N) | TBlocked.
Definition wait_turn (st : SegSyncState) (my_end : N) : Turn :=
  match failed st with
  | Some why => TFailed why
  | None =>
    if my_end <=? synced_len st then TDurable
    else if negb (syncing st) then TLead (written_len st) (written_seq st)
    else TBlocked
  end.

(** The leader back from [sync_data]. *)
Definition sync_completed (st : SegSyncState) (target_len target_seq : N) (ok : bool) : SegSyncState :=
  let st := with_syncing st false in
  if ok then
    match failed st with
    | None => if negb (cleaned st)
              then with_synced st (N.max (synced_len st) target_len) (N.max (synced_seq st) target_seq)
              else st
    | Some _ => st
    end
  else with_failed st "fsync failed".

(** ** [cleanup_failed_segment_locked] *)

(** Its first section, up to the wait; [None]: already cleaned. *)
Definition clean_enter (st : SegSyncState) (why : string) : option SegSyncState :=
  if cleaned st then None
  else Some (match failed st with None => with_failed st why | Some _ => st end).

(** Behind the snapshot: seal the segment at its durable boundary. *)
Definition clean_disk (i : N) (synced_len synced_seq : N) (w : world) : world :=
  match active (w_table w) with
  | Some a =>
    if negb (a_id a =? i) then w else
    let w := set_table w (set_active (w_table w) None) in
    let w := match roll_back_segment i synced_len w with
             | (w, Ok _) => w
             | (w, Err _) =>
               fst (gs_write_marker i (poison_text synced_len (next_seq (w_table w))) w)
             end in
    if 0 <? synced_len
    then set_table w (push_sealed (w_table w) {| ss_id := i; ss_max_seq := synced_seq |})
    else fst (gs_remove_with_marker i w)
  | None => w
  end.

(** ** Threads *)
Definition set_thread (w : world) (k : nat) (t : thread) : world :=
  set_threads w (<[k := t]> (w_threads w)).
Definition spawn (w : world) (t : thread) : world := set_threads w (w_threads w ++ [t]).
(** The thread ends, and leaves the tables lock. *)
Definition finish (w : world) (k : nat) (t : thread) (acked : bool) : world :=
  set_lock (set_thread w k (with_pc t (Done acked))) None.

(** The next section of thread [k]; [None] when it cannot run. *)
Definition thread_step (k : nat) (w : world) : option world :=
  t ← w_threads w !! k;
  st ← w_syncs w !! t_seg t;
  match t_pc t with
  | Check =>
    match wait_turn st (t_end t) with
    | TFailed why =>
      Some (set_thread w k (with_pc t
        (match t_job t with Statement _ _ => WantLock why | _ => CleanEnter why end)))
    | TDurable =>
      Some (match t_job t with
            | Statement _ _ => set_thread w k (with_pc t (Done true))
            | _ => finish (seal_active w) k t true
            end)
    | TLead tl ts =>
      Some (set_thread (on_file (t_seg t) file_sync_start (set_sync w (t_seg t) (with_syncing st true)))
              k (with_pc t (Syncing tl ts)))
    | TBlocked => None
    end
  | Syncing tl ts =>
    let ok := match w_io w with IoFail _ :: _ => false | _ => true end in
    Some (set_thread (on_file (t_seg t) (file_sync_end ok)
            (set_sync w (t_seg t) (sync_completed st tl ts ok))) k (with_pc t Check))
  | WantLock why =>
    match w_lock w with
    | None => Some (set_lock (set_thread w k (with_pc t (CleanEnter why))) (Some k))
    | Some _ => None
    end
  | CleanEnter why =>
    Some (match clean_enter st why with
          | None => finish w k t false
          | Some st => set_thread (set_sync w (t_seg t) st) k (with_pc t CleanWait)
          end)
  | CleanWait =>
    if syncing st then None else
    Some (if cleaned st then finish w k t false
          else finish (clean_disk (t_seg t) (synced_len st) (synced_seq st)
                         (set_sync w (t_seg t) (with_cleaned st))) k t false)
  | Done _ => None
  end.

(** ** [TailStore] operations that take the tables lock *)
Section Ops.
Context (crc32 : list byte → N) {RecordBatch : Type} `{Arrow RecordBatch}.

(** The active segment, created on first use. *)
Definition ensure_active : stres world ActiveSegment := λ w,
  match active (w_table w) with
  | Some a => (w, Ok a)
  | None =>
    let i := next_segment (w_table w) in
    (gs_create_new i ;;* gs_sync_dir ;;*
     λ w,
     let a := {| a_id := i; a_max_seq := 0; a_good_len := 0 |} in
     let t := w_table w in
     let w := set_table w {| next_seq := next_seq t; next_segment := wadd (next_segment t) 1;
                             active := Some a; sealed := sealed t |} in
     (set_sync w i (seg_sync_new (next_seq t - 1)), Ok a))%stres w
  end.

(** [append_staged] up to the wait it returns, or the cleanup it must run. *)
Definition append_staged (kind : TailOpKind) (batches : list RecordBatch) : stres world unit :=
  (let* a := ensure_active in
   λ w,
   let seq := next_seq (w_table w) in
   match encode_frame crc32 seq kind batches with
   | Err e => (w, Err e)
   | Ok frame =>
     match gs_write (a_id a) frame w with
     | (w, Err _) =>
       match roll_back_segment (a_id a) (a_good_len a) w with
       | (w, Ok _) => (w, Err "tail append failed")
       | (w, Err _) =>
         match (gs_open_write (a_id a) ;;* roll_back_segment (a_id a) (a_good_len a))%stres w with
         | (w, Ok _) => (w, Err "tail append failed")
         | (w, Err _) =>
           let why := "append failed AND rollback failed" in
           match w_syncs w !! a_id a with
           | None => (w, Err "tail append failed")
           | Some st =>
             let w := set_sync w (a_id a) (match failed st with None => with_failed st why | _ => st end) in
             let w := set_lock w (Some (length (w_threads w))) in
             (spawn w {| t_job := PoisonedAppend; t_seg := a_id a; t_end := 0; t_pc := CleanEnter why |},
              Err "tail append failed")
           end
         end
       end
     | (w, Ok _) =>
       let good_len := wadd (a_good_len a) (len frame) in
       let t := w_table w in
       match w_syncs w !! a_id a with
       | None => (w, Err "tail append failed")
       | Some st =>
         let w := set_sync w (a_id a) (with_written st good_len seq) in
         let w := set_table w {| next_seq := wadd (next_seq t) 1; next_segment := next_segment t;
                    active := Some {| a_id := a_id a; a_max_seq := seq; a_good_len := good_len |};
                    sealed := sealed t |} in
         (spawn w {| t_job := Statement seq frame; t_seg := a_id a; t_end := good_len; t_pc := Check |},
          Ok tt)
       end
     end
   end)%stres.

(** [rotate]: sync before seal; with frames to sync it goes on as a thread that
    holds the tables lock. *)
Definition rotate : stres world unit := λ w,
  match active (w_table w) with
  | None => (w, Ok tt)
  | Some a =>
    if a_max_seq a =? 0 then (seal_active w, Ok tt) else
    match w_syncs w !! a_id a with
    | None => (w, Ok tt)
    | Some st =>
      (spawn (set_lock w (Some (length (w_threads w))))
         {| t_job := Rotation; t_seg := a_id a; t_end := written_len st; t_pc := Check |}, Ok tt)
    end
  end.

(** The [retain] of [truncate]: a covered segment goes unless its file cannot
    be deleted. *)
Fixpoint retain_uncovered (upto : N) (segs : list SealedSegment) (w : world)
    : world * list SealedSegment :=
  match segs with
  | [] => (w, [])
  | s :: segs =>
    if upto <? ss_max_seq s then
      let '(w, rest) := retain_uncovered upto segs w in (w, s :: rest)
    else
      let '(w, r) := gs_remove_with_marker (ss_id s) w in
      let '(w, rest) := retain_uncovered upto segs w in
      (w, match r with Ok true => rest | _ => s :: rest end)
  end.

(** [truncate]: the first file that cannot be deleted is reported, once the rest
    is done; a covered segment that is kept is one. *)
Definition delete_result (stuck : bool) : result unit :=
  if stuck then Err "cannot delete covered tail segment" else Ok tt.
Definition truncate (upto : N) : stres world unit := λ w,
  let w := set_covered w (N.max (w_covered w) upto) in
  let '(w, kept) := retain_uncovered upto (sealed (w_table w)) w in
  let stuck := existsb (λ s, ss_max_seq s <=? upto) kept in
  let t := w_table w in
  let w := set_table w {| next_seq := next_seq t; next_segment := next_segment t;
                          active := active t; sealed := kept |} in
  match active (w_table w) with
  | Some a =>
    if (0 <? a_max_seq a) && (a_max_seq a <=? upto) then
      let w := set_table w (set_active (w_table w) None) in
      (fst (gs_remove_with_marker (a_id a) w),
       delete_result (stuck || match snd (gs_remove_with_marker (a_id a) w) with
                               | Ok true => false | _ => true end))
    else (w, delete_result stuck)
  | None => (w, delete_result stuck)
  end.

(** [ensure_seq_floor] *)
Definition ensure_seq_floor (floor : N) : stres world unit := λ w,
  let t := w_table w in
  (set_table w {| next_seq := N.max (next_seq t) floor; next_segment := next_segment t;
                  active := active t; sealed := sealed t |}, Ok tt).

(** ** Runs *)
Inductive action :=
  | AAppend (kind : TailOpKind) (batches : list RecordBatch)
  | ARotate
  | ATruncate (upto : N)
  | AFloor (floor : N)
  | AThread (k : nat).

(** One step, with the outcomes of its system calls. *)
Definition exec (a : action) (io : list outcome) (w : world) : option world :=
  let w := set_io w io in
  let locked (op : stres world unit) :=
    match w_lock w with None => Some (fst (op w)) | Some _ => None end in
  match a with
  | AAppend kind batches => locked (append_staged kind batches)
  | ARotate => locked rotate
  | ATruncate upto => locked (truncate upto)
  | AFloor floor => locked (ensure_seq_floor floor)
  | AThread k => thread_step k w
  end.

(** Sequence and segment numbers short of the end of [u64]. *)
Definition room (w : world) : Prop :=
  next_seq (w_table w) < u64_max ∧ next_segment (w_table w) < u64_max ∧
  ∀ i f, w_files w !! i = Some f → len (f_data f) < u64_max - u32_max - 8.

Inductive run : world → world → Prop :=
  | run_refl w : run w w
  | run_step w w1 w2 a io : run w w1 → room w1 → exec a io w1 = Some w2 → run w w2.

(** The state after the boot scan: no segment of this process yet. *)
Definition booted (w : world) : Prop :=
  active (w_table w) = None ∧ w_syncs w = ∅ ∧ w_threads w = [] ∧ w_lock w = None ∧
  1 ≤ next_seq (w_table w) ∧
  (∀ i f, w_files w !! i = Some f → i < next_segment (w_table w)) ∧
  (∀ s, s ∈ sealed (w_table w) → ss_id s < next_segment (w_table w)).
End Ops.
