(* ===== verification/GroupSyncInv.v ===== *)
(** * The invariant of the group fsync

    What every reachable state of [GroupSync] satisfies: the segments' bytes and
    boundaries, the leader of each sync, the lock's holder, the order of the
    sequences; and that every step keeps it. *)
From stdpp Require Import sorting.
From Stdlib Require Import Sorting.Sorted.
From S2P Require Import Prelude Text Segment SegmentWal TailNames Tail GroupSync.
#[local] Open Scope N_scope.

(** ** What a segment holds *)

(** A staged statement: the end of its frame, its sequence, its frame. *)
Abbreviation stmt := (N * N * list byte)%type.
Definition stmt_of (i : N) (t : thread) : option stmt :=
  if decide (t_seg t = i) then
    match t_job t with Statement seq fr => Some (t_end t, seq, fr) | _ => None end
  else None.
Definition stmts (i : N) (ts : list thread) : list stmt := omap (stmt_of i) ts.
Definition bytes_of (l : list stmt) : list byte := concat (map snd l).

(** Frames end to end from [off]. *)
Fixpoint laid (off : N) (l : list stmt) : Prop :=
  match l with
  | [] => True
  | (e, _, fr) :: l => fr ≠ [] ∧ e = off + len fr ∧ laid e l
  end.

(** [b] is the end of some of the frames, [s] at or past their sequences. *)
Definition boundary (l : list stmt) (b s : N) : Prop :=
  (∃ k, (k ≤ length l)%nat ∧ b = len (bytes_of (take k l))) ∧
  ∀ e sq fr, (e, sq, fr) ∈ l → e ≤ b → sq ≤ s.

Record seg_ok (l : list stmt) (f : vfile) (cov : N) (st : SegSyncState) : Prop := {
  so_laid : laid 0 l;
  so_written : written_len st = len (bytes_of l);
  so_wseq : ∀ e sq fr, (e, sq, fr) ∈ l → sq ≤ written_seq st;
  so_synced : boundary l (synced_len st) (synced_seq st);
  so_durable : (N.to_nat (synced_len st) ≤ f_durable f)%nat;
  so_len : (f_durable f ≤ length (f_data f))%nat;
  so_flight : ∀ n, f_inflight f = Some n → (n ≤ length (f_data f))%nat;
  so_data : if cleaned st
            then take (N.to_nat (synced_len st)) (f_data f) =
                 take (N.to_nat (synced_len st)) (bytes_of l)
            else take (N.to_nat (written_len st)) (f_data f) = bytes_of l;
  so_failed : cleaned st = true → failed st ≠ None;
  so_link : ∀ e sq fr, (e, sq, fr) ∈ l → (cleaned st = true → e ≤ synced_len st) →
    f_linked f = true ∨ sq ≤ cov;
}.

Lemma bytes_of_app l1 l2 : bytes_of (l1 ++ l2) = bytes_of l1 ++ bytes_of l2.
Proof. unfold bytes_of. by rewrite map_app, concat_app. Qed.

Lemma bytes_of_one x : bytes_of [x] = snd x.
Proof. unfold bytes_of. simpl. apply app_nil_r. Qed.

Lemma laid_app off l1 l2 : laid off (l1 ++ l2) ↔ laid off l1 ∧ laid (off + len (bytes_of l1)) l2.
Proof.
  revert off. induction l1 as [|[[e sq] fr] l1 IH]; intros off; simpl.
  - rewrite N.add_0_r. naive_solver.
  - rewrite IH. unfold bytes_of. simpl. rewrite length_app, Nat2N.inj_add.
    split; [intros (? & -> & ? & ?)|intros ((? & -> & ?) & ?)]; rewrite N.add_assoc in *; done.
Qed.

Lemma laid_bounds off l e sq fr : laid off l → (e, sq, fr) ∈ l → off < e ∧ e ≤ off + len (bytes_of l).
Proof.
  revert off. induction l as [|[[e0 sq0] fr0] l IH]; intros off Hl Hin; [by apply not_elem_of_nil in Hin|].
  destruct Hl as (Hne & -> & Hl). unfold bytes_of. simpl. rewrite length_app, Nat2N.inj_add.
  assert (0 < len fr0) by (destruct fr0; [done|simpl; lia]).
  apply elem_of_cons in Hin as [Hin|Hin]; [injection Hin as -> -> ->; lia|].
  apply (IH _ Hl) in Hin. unfold bytes_of in Hin. lia.
Qed.

Lemma bytes_of_take_prefix l k : ∃ rest, bytes_of l = bytes_of (take k l) ++ rest.
Proof. exists (bytes_of (drop k l)). by rewrite <-bytes_of_app, take_drop. Qed.

Lemma boundary_le l b s : boundary l b s → b ≤ len (bytes_of l).
Proof.
  intros ((k & _ & ->) & _). destruct (bytes_of_take_prefix l k) as [rest ->]. rewrite length_app. lia.
Qed.

(** A new frame past the boundary changes nothing below it. *)
Lemma boundary_snoc l b s e sq fr :
  laid 0 (l ++ [(e, sq, fr)]) → boundary l b s → boundary (l ++ [(e, sq, fr)]) b s.
Proof.
  intros Hl Hb. pose proof (boundary_le _ _ _ Hb). destruct Hb as ((k & Hk & Hb) & Hs). split.
  - exists k. rewrite length_app, take_app_le by done. split; [lia|done].
  - intros e' sq' fr' [Hin|Hin%list_elem_of_singleton]%elem_of_app He; [by eapply Hs|].
    injection Hin as -> -> ->. apply laid_app in Hl as (_ & (Hne & -> & _)).
    destruct fr; [done|]. simpl in He. lia.
Qed.

Lemma boundary_max l b s b' s' :
  boundary l b s → boundary l b' s' → boundary l (N.max b b') (N.max s s').
Proof.
  intros ((k & Hk & Hb) & Hs) ((k' & Hk' & Hb') & Hs'). split.
  - destruct (decide (b ≤ b')); [exists k'; rewrite N.max_r by lia|exists k; rewrite N.max_l by lia]; done.
  - intros e sq fr Hin He. destruct (decide (e ≤ b)) as [H1|H1].
    + specialize (Hs _ _ _ Hin H1). lia.
    + assert (e ≤ b') as H2 by lia. specialize (Hs' _ _ _ Hin H2). lia.
Qed.

(** *** The operations on one segment *)
Section SegOps.
Context (l : list stmt) (f : vfile) (cov : N) (st : SegSyncState).
Hypothesis (Hok : seg_ok l f cov st).

Lemma seg_written_le : cleaned st = false → (N.to_nat (written_len st) ≤ length (f_data f))%nat.
Proof.
  intros Hc. pose proof (so_data _ _ _ _ Hok) as Hd. rewrite Hc in Hd.
  apply (f_equal length) in Hd. rewrite length_take in Hd.
  pose proof (so_written _ _ _ _ Hok). lia.
Qed.

(** The bytes that matter survive any change of the file above them. *)
Lemma seg_ok_file f' :
  (∀ n, (n ≤ N.to_nat (if cleaned st then synced_len st else written_len st))%nat →
        take n (f_data f') = take n (f_data f)) →
  (N.to_nat (synced_len st) ≤ f_durable f')%nat → (f_durable f' ≤ length (f_data f'))%nat →
  (∀ n, f_inflight f' = Some n → (n ≤ length (f_data f'))%nat) →
  f_linked f' = f_linked f → seg_ok l f' cov st.
Proof.
  intros Ht H1 H2 H3 H4. destruct Hok. split; try done.
  - destruct (cleaned st); rewrite Ht; done.
  - rewrite H4. done.
Qed.

Lemma seg_ok_write bs : seg_ok l (file_write bs f) cov st.
Proof.
  pose proof Hok as []. apply seg_ok_file; simpl; try done.
  - intros n Hn. apply take_app_le. destruct (cleaned st) eqn:Ec; [lia|].
    pose proof (seg_written_le Ec). lia.
  - rewrite length_app. lia.
  - intros n Hn. rewrite length_app. specialize (so_flight0 n Hn). lia.
Qed.

Lemma seg_ok_set_len n :
  (if cleaned st then synced_len st else written_len st) ≤ n → n ≤ len (f_data f) →
  seg_ok l (file_set_len (N.to_nat n) f) cov st.
Proof.
  intros Hn Hlen. pose proof Hok as [].
  assert (synced_len st ≤ n) as Hs.
  { destruct (cleaned st); [done|]. apply boundary_le in so_synced0. lia. }
  assert (resize_bytes (N.to_nat n) (f_data f) = take (N.to_nat n) (f_data f)) as Hr.
  { unfold resize_bytes. replace (_ - _)%nat with 0%nat by lia. by rewrite app_nil_r. }
  apply seg_ok_file; simpl; rewrite ?Hr, ?length_take; try done.
  - intros m Hm. rewrite take_take. f_equal. lia.
  - lia.
  - lia.
  - intros m Hm. destruct (f_inflight f) as [m'|] eqn:E; [|done]. simpl in Hm. injection Hm as <-.
    specialize (so_flight0 m' eq_refl). lia.
Qed.

Lemma seg_ok_fsync : seg_ok l (file_sync f) cov st.
Proof. pose proof Hok as []. apply seg_ok_file; simpl; try done. lia. Qed.

Lemma seg_ok_sync_start : seg_ok l (file_sync_start f) cov st.
Proof. pose proof Hok as []. apply seg_ok_file; simpl; try done. intros n [= <-]. lia. Qed.

Lemma seg_ok_sync_end ok : seg_ok l (file_sync_end ok f) cov st.
Proof.
  pose proof Hok as []. apply seg_ok_file; simpl; try done.
  - destruct ok; lia.
  - destruct ok; [|lia]. destruct (f_inflight f) as [n|] eqn:E; simpl; [|lia].
    specialize (so_flight0 n eq_refl). lia.
Qed.

Lemma seg_ok_unlink :
  (∀ e sq fr, (e, sq, fr) ∈ l → (cleaned st = true → e ≤ synced_len st) → sq ≤ cov) →
  seg_ok l (file_unlink f) cov st.
Proof. intros H. pose proof Hok as []. split; try done. intros e sq fr Hin Hc. right. eauto. Qed.

Lemma seg_ok_cov cov' : cov ≤ cov' → seg_ok l f cov' st.
Proof.
  intros H. pose proof Hok as []. split; try done. intros e sq fr Hin Hc.
  destruct (so_link0 e sq fr Hin Hc); [by left|right; lia].
Qed.

Lemma seg_ok_failed why : seg_ok l f cov (with_failed st why).
Proof. pose proof Hok as []. by split. Qed.
Lemma seg_ok_syncing b : seg_ok l f cov (with_syncing st b).
Proof. pose proof Hok as []. by split. Qed.

Lemma seg_ok_cleaned : failed st ≠ None → seg_ok l f cov (with_cleaned st).
Proof.
  intros H. pose proof Hok as []. split; try done; simpl.
  - destruct (cleaned st); [done|]. apply boundary_le in so_synced0.
    rewrite <-so_data0, take_take. f_equal. lia.
  - intros e sq fr Hin Hc. apply (so_link0 e sq fr Hin). auto.
Qed.

Lemma seg_ok_advance b s :
  boundary l b s → (N.to_nat b ≤ f_durable f)%nat → cleaned st = false →
  seg_ok l f cov (with_synced st (N.max (synced_len st) b) (N.max (synced_seq st) s)).
Proof.
  intros Hb Hd Hc. pose proof Hok as []. rewrite Hc in so_data0.
  split; try done; simpl; rewrite ?Hc; try done.
  - by apply boundary_max.
  - lia.
  - intros e sq fr Hin _. apply (so_link0 e sq fr Hin). by rewrite Hc.
Qed.

(** Staging one more frame. *)
Lemma seg_ok_stage seq fr :
  fr ≠ [] → cleaned st = false → f_linked f = true → len (f_data f) = written_len st →
  (∀ e sq x, (e, sq, x) ∈ l → sq ≤ seq) →
  seg_ok (l ++ [(written_len st + len fr, seq, fr)]) (file_write fr f) cov
    (with_written st (written_len st + len fr) seq).
Proof.
  intros Hne Hc Hlk Hlen Hseq. pose proof Hok as [].
  assert (laid 0 (l ++ [(written_len st + len fr, seq, fr)])) as Hl'.
  { apply laid_app. split; [done|]. simpl. split; [done|]. split; [|done]. by rewrite so_written0. }
  rewrite Hc in so_data0. rewrite take_ge in so_data0 by lia.
  split; simpl; rewrite ?Hc; try done.
  - rewrite bytes_of_app, length_app, so_written0, bytes_of_one. simpl. lia.
  - intros e sq x [Hin|Hin%list_elem_of_singleton]%elem_of_app; [by eapply Hseq|].
    injection Hin as -> -> ->. lia.
  - by apply boundary_snoc.
  - rewrite length_app. lia.
  - intros n Hn. rewrite length_app. specialize (so_flight0 n Hn). lia.
  - rewrite take_ge by (rewrite length_app; lia). rewrite bytes_of_app, so_data0, bytes_of_one. done.
  - intros. by left.
Qed.
End SegOps.

(** ** The invariant *)
Definition job_seq (t : thread) : option N :=
  match t_job t with Statement seq _ => Some seq | _ => None end.
Definition seqs (ts : list thread) : list N := omap job_seq ts.

Definition holds_lock (t : thread) : bool :=
  match t_pc t with
  | Done _ => false
  | CleanEnter _ | CleanWait => true
  | _ => match t_job t with Statement _ _ => false | _ => true end
  end.
Definition is_syncing (t : thread) : bool := match t_pc t with Syncing _ _ => true | _ => false end.

Definition thr_ok (l : list stmt) (f : vfile) (st : SegSyncState) (t : thread) : Prop :=
  match t_pc t with
  | Syncing tl ts =>
    syncing st = true ∧ cleaned st = false ∧ boundary l tl ts ∧
    ∃ n, f_inflight f = Some n ∧ (N.to_nat tl ≤ n)%nat
  | CleanWait => failed st ≠ None
  | Done true => ∀ seq fr, t_job t = Statement seq fr → t_end t ≤ synced_len st
  | _ => True
  end.

Definition poisoned_by (ts : list thread) (i : N) : Prop :=
  ∃ k t, ts !! k = Some t ∧ t_seg t = i ∧ t_job t = PoisonedAppend ∧ holds_lock t = true.

Definition act_ok (w : world) (a : ActiveSegment) : Prop :=
  ∃ st f, w_syncs w !! a_id a = Some st ∧ w_files w !! a_id a = Some f ∧
    cleaned st = false ∧ written_len st = a_good_len a ∧ f_linked f = true ∧
    (∀ e sq fr, (e, sq, fr) ∈ stmts (a_id a) (w_threads w) → sq ≤ a_max_seq a) ∧
    (a_id a ∉ map ss_id (sealed (w_table w))) ∧
    (len (f_data f) = written_len st ∨ poisoned_by (w_threads w) (a_id a)).

Definition sealed_ok (w : world) (s : SealedSegment) : Prop :=
  ss_id s < next_segment (w_table w) ∧
  ∀ e sq fr, (e, sq, fr) ∈ stmts (ss_id s) (w_threads w) →
    (∀ st, w_syncs w !! ss_id s = Some st → cleaned st = true → e ≤ synced_len st) →
    sq ≤ ss_max_seq s.

Record Inv (w : world) : Prop := {
  i_seg : ∀ i st, w_syncs w !! i = Some st →
    i < next_segment (w_table w) ∧
    ∃ f, w_files w !! i = Some f ∧ seg_ok (stmts i (w_threads w)) f (w_covered w) st;
  i_thr : ∀ k t, w_threads w !! k = Some t →
    ∃ st f, w_syncs w !! t_seg t = Some st ∧ w_files w !! t_seg t = Some f ∧
      thr_ok (stmts (t_seg t) (w_threads w)) f st t;
  i_one : ∀ j k t u, w_threads w !! j = Some t → w_threads w !! k = Some u →
    is_syncing t = true → is_syncing u = true → t_seg t = t_seg u → j = k;
  i_act : ∀ a, active (w_table w) = Some a → act_ok w a;
  i_sealed : ∀ s, s ∈ sealed (w_table w) → sealed_ok w s;
  i_lock : ∀ k t, w_threads w !! k = Some t → holds_lock t = true → w_lock w = Some k;
  i_order : StronglySorted N.lt (seqs (w_threads w));
  i_next : 1 ≤ next_seq (w_table w) ∧
    ∀ q, q ∈ seqs (w_threads w) → 1 ≤ q < next_seq (w_table w);
}.

Lemma omap_insert_same {A B} (g : A → option B) (l : list A) k x y :
  l !! k = Some x → g y = g x → omap g (<[k := y]> l) = omap g l.
Proof.
  revert k. induction l as [|z l IH]; intros [|k] Hk Hg; simplify_eq/=; [by rewrite Hg|].
  by rewrite IH.
Qed.

Lemma stmts_with_pc i ts k t pc :
  ts !! k = Some t → stmts i (<[k := with_pc t pc]> ts) = stmts i ts.
Proof. intros Hk. eapply omap_insert_same; [exact Hk|done]. Qed.

Lemma seqs_with_pc ts k t pc : ts !! k = Some t → seqs (<[k := with_pc t pc]> ts) = seqs ts.
Proof. intros Hk. eapply omap_insert_same; [exact Hk|done]. Qed.

Lemma stmts_seq i ts e sq fr : (e, sq, fr) ∈ stmts i ts → sq ∈ seqs ts.
Proof.
  unfold stmts, seqs. rewrite !list_elem_of_omap. intros (t & Ht & Hs). exists t. split; [done|].
  unfold stmt_of in Hs. unfold job_seq. destruct (decide _); [|done]. by destruct (t_job t); simplify_eq.
Qed.

Lemma thread_stmt ts k t seq fr :
  ts !! k = Some t → t_job t = Statement seq fr → (t_end t, seq, fr) ∈ stmts (t_seg t) ts.
Proof.
  intros Hk Hj. apply list_elem_of_omap. exists t. split; [by eapply list_elem_of_lookup_2|].
  unfold stmt_of. rewrite decide_True by done. by rewrite Hj.
Qed.

(** The fields of an updated world. *)
Ltac wcbn := cbn [set_lock set_thread set_threads set_files set_marks set_sync set_table set_active
  set_covered set_io push_sealed spawn on_file
  w_table w_syncs w_files w_marks w_lock w_threads w_covered w_io
  next_seq next_segment active sealed with_pc t_job t_seg t_end t_pc ss_id ss_max_seq].

(** *** Moving one thread, with its segment *)
Lemma inv_thread w k t pc st f st' f' lock' :
  Inv w → w_threads w !! k = Some t →
  w_syncs w !! t_seg t = Some st → w_files w !! t_seg t = Some f →
  seg_ok (stmts (t_seg t) (w_threads w)) f' (w_covered w) st' →
  written_len st' = written_len st → cleaned st' = cleaned st → synced_len st ≤ synced_len st' →
  (cleaned st = true → synced_len st' = synced_len st) →
  (failed st ≠ None → failed st' ≠ None) →
  f_linked f' = f_linked f → f_data f' = f_data f →
  thr_ok (stmts (t_seg t) (w_threads w)) f' st' (with_pc t pc) →
  (∀ j u, j ≠ k → w_threads w !! j = Some u → is_syncing u = true → t_seg u = t_seg t →
     syncing st' = true ∧ f_inflight f' = f_inflight f ∧ is_syncing (with_pc t pc) = false) →
  (∀ j, j ≠ k → w_lock w = Some j → lock' = Some j) →
  (holds_lock (with_pc t pc) = true → lock' = Some k) →
  ((t_job t = PoisonedAppend → holds_lock t = true → holds_lock (with_pc t pc) = true) ∨
   ∀ a, active (w_table w) = Some a → a_id a ≠ t_seg t) →
  Inv (set_lock (set_thread (set_files (set_sync w (t_seg t) st') (<[t_seg t := f']> (w_files w)))
         k (with_pc t pc)) lock').
Proof.
  intros Hinv Hk Hst Hf Hok Hw Hcl Hsy Hfin Hfa Hlk Hda Hme Hoth Hl1 Hl2 Hpo.
  pose proof Hinv as [].
  split; wcbn; rewrite ?(seqs_with_pc _ _ _ pc Hk); try done.
  - intros i sti. rewrite (stmts_with_pc i _ _ _ pc Hk).
    destruct (decide (i = t_seg t)) as [->|Hne].
    + rewrite !lookup_insert_eq. intros [= <-]. split; [by eapply i_seg0|]. by exists f'.
    + rewrite !lookup_insert_ne by done. apply i_seg0.
  - intros j u. destruct (decide (j = k)) as [->|Hne].
    + rewrite list_lookup_insert_eq by (by eapply lookup_lt_Some). intros [= <-]. cbn [with_pc t_seg].
      rewrite !lookup_insert_eq, (stmts_with_pc _ _ _ _ pc Hk). by exists st', f'.
    + rewrite list_lookup_insert_ne by done. intros Hu. rewrite (stmts_with_pc _ _ _ _ pc Hk).
      destruct (i_thr0 j u Hu) as (su & fu & Hsu & Hfu & Hthr).
      destruct (decide (t_seg u = t_seg t)) as [E|E].
      2: { rewrite !lookup_insert_ne by done. by exists su, fu. }
      rewrite E, !lookup_insert_eq. exists st', f'. split_and!; [done..|].
      rewrite E in Hsu, Hfu, Hthr. rewrite Hst in Hsu. rewrite Hf in Hfu. injection Hsu as <-. injection Hfu as <-.
      unfold thr_ok in *. destruct (t_pc u) eqn:Epc; try done.
      * destruct (Hoth j u Hne Hu) as (H1 & H2 & _); [by unfold is_syncing; rewrite Epc|done|].
        rewrite Hcl, H2. destruct Hthr as (_ & ? & ? & ?). done.
      * by apply Hfa.
      * destruct acked; [|done]. intros seq fr Hj. specialize (Hthr seq fr Hj). lia.
  - intros j1 j2 t1 t2. destruct (decide (j1 = k)) as [->|H1], (decide (j2 = k)) as [->|H2]; try done.
    + rewrite list_lookup_insert_eq by (by eapply lookup_lt_Some). rewrite list_lookup_insert_ne by done.
      intros [= <-] Ht2 Hs1 Hs2 E. destruct (Hoth j2 t2 H2 Ht2 Hs2) as (_ & _ & ?); [done|]. congruence.
    + rewrite list_lookup_insert_ne by done. rewrite list_lookup_insert_eq by (by eapply lookup_lt_Some).
      intros Ht1 [= <-] Hs1 Hs2 E. destruct (Hoth j1 t1 H1 Ht1 Hs1) as (_ & _ & ?); [done|]. congruence.
    + rewrite !list_lookup_insert_ne by done. apply i_one0.
  - intros a Ha. destruct (i_act0 a Ha) as (sa & fa & Hsa & Hfa' & Hc & Hwl & Hlkd & Hm & Hns & Hd).
    unfold act_ok. wcbn. rewrite (stmts_with_pc _ _ _ _ pc Hk).
    destruct (decide (a_id a = t_seg t)) as [E|E].
    + rewrite E in *. rewrite !lookup_insert_eq. rewrite Hst in Hsa. rewrite Hf in Hfa'.
      injection Hsa as <-. injection Hfa' as <-. exists st', f'.
      rewrite Hcl, Hw, Hlk, Hda. split_and!; try done.
      destruct Hd as [Hd|(j & u & Hu & Hseg & Hjob & Hh)]; [by left|]. right.
      destruct (decide (j = k)) as [->|Hne].
      * rewrite Hk in Hu. injection Hu as <-. destruct Hpo as [Hpo|Hpo]; [|by destruct (Hpo a Ha)].
        exists k, (with_pc t pc). rewrite list_lookup_insert_eq by (by eapply lookup_lt_Some).
        split_and!; try done. by apply Hpo.
      * exists j, u. by rewrite list_lookup_insert_ne by done.
    + rewrite !lookup_insert_ne by done. exists sa, fa. split_and!; try done.
      destruct Hd as [Hd|(j & u & Hu & Hseg & Hjob & Hh)]; [by left|]. right.
      destruct (decide (j = k)) as [->|Hne].
      * rewrite Hk in Hu. injection Hu as <-. done.
      * exists j, u. by rewrite list_lookup_insert_ne by done.
  - intros s0 Hs0. destruct (i_sealed0 s0 Hs0) as [Hid Hs]. split; [done|]. wcbn.
    intros e sq fr. rewrite (stmts_with_pc _ _ _ _ pc Hk). intros Hin Hcond. apply (Hs e sq fr Hin).
    intros st0 Hst0 Hc0. destruct (decide (ss_id s0 = t_seg t)) as [E|E].
    + rewrite E, Hst in Hst0. injection Hst0 as <-. rewrite <-Hcl in Hc0.
      specialize (Hcond st'). rewrite E, lookup_insert_eq in Hcond. specialize (Hcond eq_refl Hc0).
      rewrite Hfin in Hcond; [done|]. by rewrite <-Hcl.
    + apply Hcond; [by rewrite lookup_insert_ne|done].
  - intros j u. destruct (decide (j = k)) as [->|Hne].
    + rewrite list_lookup_insert_eq by (by eapply lookup_lt_Some). intros [= <-]. apply Hl2.
    + rewrite list_lookup_insert_ne by done. intros Hu Hh. apply Hl1; [done|]. by eapply i_lock0.
Qed.

(** *** The table and the files *)
Lemma inv_marks_io w m io : Inv w → Inv (set_io (set_marks w m) io).
Proof. intros []. by split. Qed.
Lemma inv_io w io : Inv w → Inv (set_io w io).
Proof. intros []. by split. Qed.
Lemma inv_marks w m : Inv w → Inv (set_marks w m).
Proof. intros []. by split. Qed.

Lemma inv_deactivate w : Inv w → Inv (set_table w (set_active (w_table w) None)).
Proof. intros []. by split. Qed.

Lemma inv_push_sealed w s :
  Inv w → sealed_ok w s → active (w_table w) = None → Inv (set_table w (push_sealed (w_table w) s)).
Proof.
  intros [] Hs Ha. split; wcbn; try done.
  - intros a. by rewrite Ha.
  - intros s0 [Hin|Hin%list_elem_of_singleton]%elem_of_app; [by apply i_sealed0|by subst].
Qed.

Lemma inv_floor w n :
  Inv w → next_seq (w_table w) ≤ n →
  Inv (set_table w {| next_seq := n; next_segment := next_segment (w_table w);
                      active := active (w_table w); sealed := sealed (w_table w) |}).
Proof.
  intros [] Hn. split; wcbn; try done. destruct i_next0 as [H1 H2]. split; [lia|].
  intros q Hq. specialize (H2 q Hq). lia.
Qed.

Lemma inv_sealed_sub w l :
  Inv w → (∀ s, s ∈ l → s ∈ sealed (w_table w)) →
  Inv (set_table w {| next_seq := next_seq (w_table w); next_segment := next_segment (w_table w);
                      active := active (w_table w); sealed := l |}).
Proof.
  intros [] Hl. split; wcbn; try done.
  - intros a Ha. destruct (i_act0 a Ha) as (st & f & H1 & H2 & H3 & H4 & H5 & H6 & H7 & H8).
    exists st, f. split_and!; try done. wcbn. intros Hin. apply H7.
    change (map ss_id ?x) with (ss_id <$> x) in *. apply list_elem_of_fmap in Hin as (s & -> & Hs).
    apply list_elem_of_fmap. eauto.
  - intros s Hs. by apply i_sealed0, Hl.
Qed.

Lemma inv_covered w c : Inv w → w_covered w ≤ c → Inv (set_covered w c).
Proof.
  intros [] Hc. split; wcbn; try done. intros i st Hi. destruct (i_seg0 i st Hi) as (? & f & Hf & Hok).
  split; [done|]. exists f. split; [done|]. by eapply seg_ok_cov.
Qed.

Lemma inv_file w i f f' :
  Inv w → w_files w !! i = Some f →
  (∀ st, w_syncs w !! i = Some st → seg_ok (stmts i (w_threads w)) f' (w_covered w) st ∧
     ∀ n, f_inflight f = Some n → ∃ n', f_inflight f' = Some n' ∧
       ∀ b, (b ≤ n)%nat → (b ≤ N.to_nat (written_len st))%nat → cleaned st = false → (b ≤ n')%nat) →
  (∀ a, active (w_table w) = Some a → a_id a = i → f_linked f' = true ∧
     (len (f_data f') = a_good_len a ∨ poisoned_by (w_threads w) i)) →
  Inv (set_files w (<[i := f']> (w_files w))).
Proof.
  intros Hinv Hf Hseg Hact. pose proof Hinv as []. split; wcbn; try done.
  - intros j st Hj. destruct (i_seg0 j st Hj) as (? & fj & Hfj & Hok). split; [done|].
    destruct (decide (j = i)) as [->|].
    + exists f'. rewrite lookup_insert_eq. split; [done|]. by apply Hseg.
    + exists fj. by rewrite lookup_insert_ne by done.
  - intros k t Ht. destruct (i_thr0 k t Ht) as (st & ft & Hst & Hft & Hok).
    destruct (decide (t_seg t = i)) as [E|E].
    + rewrite E in *. rewrite lookup_insert_eq. exists st, f'. split_and!; [done..|].
      rewrite Hf in Hft. injection Hft as <-. unfold thr_ok in *. destruct (t_pc t); try done.
      destruct Hok as (H1 & H2 & H3 & n & Hn & Hle). destruct (Hseg st Hst) as [Hso Hfl].
      destruct (Hfl n Hn) as (n' & Hn' & Hb). split_and!; try done. exists n'. split; [done|].
      apply Hb; [done| |done]. pose proof (boundary_le _ _ _ H3).
      pose proof (so_written _ _ _ _ Hso). lia.
    + rewrite lookup_insert_ne by done. by exists st, ft.
  - intros a Ha. destruct (i_act0 a Ha) as (st & fa & H1 & H2 & H3 & H4 & H5 & H6 & H7 & H8).
    unfold act_ok. wcbn. destruct (decide (a_id a = i)) as [E|E].
    + rewrite E in *. rewrite lookup_insert_eq. destruct (Hact a Ha E) as [H9 H10].
      exists st, f'. split_and!; try done. by rewrite H4.
    + rewrite lookup_insert_ne by done. by exists st, fa.
Qed.

Lemma alter_insert_files i g (fs : gmap N vfile) f :
  fs !! i = Some f → alter g i fs = <[i := g f]> fs.
Proof.
  intros Hf. apply map_eq. intros j. destruct (decide (j = i)) as [->|].
  - by rewrite lookup_alter_eq, lookup_insert_eq, Hf.
  - by rewrite lookup_alter_ne, lookup_insert_ne by done.
Qed.

(** A covered (or empty) segment's file may go. *)
Lemma inv_unlink w i f :
  Inv w → w_files w !! i = Some f →
  (∀ a, active (w_table w) = Some a → a_id a ≠ i) →
  (∀ st e sq fr, w_syncs w !! i = Some st → (e, sq, fr) ∈ stmts i (w_threads w) →
     (cleaned st = true → e ≤ synced_len st) → sq ≤ w_covered w) →
  Inv (set_files w (<[i := file_unlink f]> (w_files w))).
Proof.
  intros Hinv Hf Ha Hcov. apply (inv_file w i f); [done|done| |].
  - intros st Hst. destruct (i_seg w Hinv i st Hst) as (_ & f0 & Hf0 & Hok).
    rewrite Hf in Hf0. injection Hf0 as <-. split.
    + apply seg_ok_unlink; [done|]. intros e sq fr. by apply Hcov.
    + intros n Hn. exists n. split; [done|]. auto.
  - intros a Ha' E. by destruct (Ha a Ha').
Qed.

Lemma remove_with_marker_shape i w :
  ∃ fs ms io r, gs_remove_with_marker i w = (set_io (set_marks (set_files w fs) ms) io, Ok r) ∧
    (ms = w_marks w ∨ ms = delete i (w_marks w)) ∧
    ((fs = w_files w ∧ r = false) ∨
     r = true ∧ ∃ f, w_files w !! i = Some f ∧ f_linked f = true ∧ fs = <[i := file_unlink f]> (w_files w)).
Proof.
  unfold gs_remove_with_marker, gs_remove, linked. destruct (w_files w !! i) as [f|] eqn:Ef.
  2: { exists (w_files w), (w_marks w), (w_io w), false. split; [by destruct w|split; by left]. }
  destruct (f_linked f) eqn:El.
  2: { exists (w_files w), (w_marks w), (w_io w), false. split; [by destruct w|split; by left]. }
  assert (∀ w0 w1 r, gs_remove_marker i w0 = (w1, r) → ∃ ms io, w1 = set_io (set_marks w0 ms) io ∧
    (ms = w_marks w0 ∨ ms = delete i (w_marks w0))) as Hm.
  { intros w0 w1 r. unfold gs_remove_marker. destruct (w_marks w0 !! i).
    - unfold sys. destruct (w_io w0) as [|[|k] rest]; intros [= <- <-].
      + exists (delete i (w_marks w0)), (w_io w0). split; [by destruct w0|by right].
      + exists (delete i (w_marks w0)), rest. split; [by destruct w0|by right].
      + exists (w_marks w0), rest. split; [by destruct w0|by left].
    - intros [= <- <-]. exists (w_marks w0), (w_io w0). split; [by destruct w0|by left]. }
  unfold sys. destruct (w_io w) as [|[|k] rest] eqn:Eio.
  - destruct (gs_remove_marker i (on_file i file_unlink w)) as [w1 r1] eqn:E1.
    destruct (Hm _ _ _ E1) as (ms & io & -> & Hms). exists (<[i := file_unlink f]> (w_files w)), ms, io, true.
    split; [|split; [done|right; split; [done|]; by exists f]]. simpl. unfold on_file.
    by rewrite (alter_insert_files _ _ _ f Ef).
  - destruct (gs_remove_marker i (on_file i file_unlink (set_io w rest))) as [w1 r1] eqn:E1.
    destruct (Hm _ _ _ E1) as (ms & io & -> & Hms). exists (<[i := file_unlink f]> (w_files w)), ms, io, true.
    split; [|split; [done|right; split; [done|]; by exists f]]. simpl. unfold on_file. simpl.
    by rewrite (alter_insert_files _ _ _ f Ef).
  - exists (w_files w), (w_marks w), rest, false. split; [by destruct w|split; by left].
Qed.

Lemma inv_remove w i :
  Inv w → (∀ a, active (w_table w) = Some a → a_id a ≠ i) →
  (∀ st e sq fr, w_syncs w !! i = Some st → (e, sq, fr) ∈ stmts i (w_threads w) →
     (cleaned st = true → e ≤ synced_len st) → sq ≤ w_covered w) →
  Inv (fst (gs_remove_with_marker i w)).
Proof.
  intros Hinv Ha Hcov. destruct (remove_with_marker_shape i w) as (fs & ms & io & r & -> & _ & Hfs).
  simpl. apply inv_marks_io. destruct Hfs as [[-> _]|(_ & f & Hf & _ & ->)].
  - by destruct w.
  - by apply inv_unlink.
Qed.

(** What an operation on the files leaves alone. *)
Definition same_mem (w w' : world) : Prop :=
  w_table w' = w_table w ∧ w_syncs w' = w_syncs w ∧ w_threads w' = w_threads w ∧
  w_lock w' = w_lock w ∧ w_covered w' = w_covered w.

Lemma remove_same i w : same_mem w (fst (gs_remove_with_marker i w)).
Proof. destruct (remove_with_marker_shape i w) as (fs & ms & io & r & -> & _ & _). by destruct w. Qed.

Lemma stmt_facts w i st e sq fr :
  Inv w → w_syncs w !! i = Some st → (e, sq, fr) ∈ stmts i (w_threads w) →
  0 < e ∧ 1 ≤ sq < next_seq (w_table w).
Proof.
  intros Hinv Hst Hin. destruct (i_seg w Hinv i st Hst) as (_ & f & _ & Hok).
  apply (laid_bounds 0) in Hin as Hb; [|apply Hok]. split; [lia|].
  by apply (i_next w Hinv), (stmts_seq i _ e sq fr).
Qed.

Lemma inv_seal_active w :
  Inv w →
  Inv (seal_active w) ∧ active (w_table (seal_active w)) = None ∧
  w_syncs (seal_active w) = w_syncs w ∧ w_threads (seal_active w) = w_threads w ∧
  w_lock (seal_active w) = w_lock w ∧ w_covered (seal_active w) = w_covered w.
Proof.
  intros Hinv. unfold seal_active. destruct (active (w_table w)) as [a|] eqn:Ea; [|done].
  pose proof (inv_deactivate w Hinv) as Hd.
  destruct (i_act w Hinv a Ea) as (st & f & Hst & Hf & Hc & _ & _ & Hm & _ & _).
  destruct (0 <? a_max_seq a) eqn:Em; bool_prop.
  - split; [|by wcbn]. apply inv_push_sealed; [done| |done]. split; wcbn.
    + by eapply (i_seg w Hinv).
    + intros e sq fr Hin _. by eapply Hm.
  - destruct (remove_same (a_id a) (set_table w (set_active (w_table w) None))) as (-> & -> & -> & -> & ->).
    split; [|by wcbn]. apply inv_remove; [done|done|]. wcbn. intros st' e sq fr Hst' Hin _.
    destruct (stmt_facts w (a_id a) st' e sq fr Hinv Hst' Hin). specialize (Hm e sq fr Hin). lia.
Qed.

Lemma inv_cleaned w i st :
  Inv w → w_syncs w !! i = Some st → failed st ≠ None → syncing st = false →
  (∀ a, active (w_table w) = Some a → a_id a ≠ i) →
  Inv (set_sync w i (with_cleaned st)).
Proof.
  intros Hinv Hst Hfa Hsy Hact. pose proof Hinv as []. split; wcbn; try done.
  - intros j stj. destruct (decide (j = i)) as [->|].
    + rewrite lookup_insert_eq. intros [= <-]. destruct (i_seg0 i st Hst) as (? & f & Hf & Hok).
      split; [done|]. exists f. split; [done|]. by apply seg_ok_cleaned.
    + rewrite lookup_insert_ne by done. apply i_seg0.
  - intros k t Ht. destruct (i_thr0 k t Ht) as (st' & f & Hst' & Hf & Hok).
    destruct (decide (t_seg t = i)) as [E|E].
    + rewrite E in *. rewrite lookup_insert_eq. rewrite Hst in Hst'. injection Hst' as <-.
      exists (with_cleaned st), f. split_and!; try done. unfold thr_ok in *.
      destruct (t_pc t); try done. destruct Hok as (Hs & _). congruence.
    + rewrite lookup_insert_ne by done. by exists st', f.
  - intros a Ha. destruct (i_act0 a Ha) as (st' & f & H1 & Hr). exists st', f. wcbn.
    by rewrite lookup_insert_ne by (apply not_eq_sym; eauto).
  - intros s Hs. destruct (i_sealed0 s Hs) as [Hid Hq]. split; [done|]. wcbn.
    intros e sq fr Hin Hcond. apply (Hq e sq fr Hin). intros st' Hst' Hc.
    destruct (decide (ss_id s = i)) as [E|E].
    + rewrite E in *. rewrite Hst in Hst'. injection Hst' as <-.
      apply (Hcond (with_cleaned st)); [apply lookup_insert_eq|done].
    + apply Hcond; [by rewrite lookup_insert_ne|done].
Qed.

Lemma sys_file_shape i g g' w w' r f :
  w_files w !! i = Some f → sys (on_file i g) (λ k, on_file i (g' k)) w = (w', r) →
  ∃ io, (r = Ok tt ∧ w' = set_io (set_files w (<[i := g f]> (w_files w))) io) ∨
        (∃ e k, r = Err e ∧ w' = set_io (set_files w (<[i := g' k f]> (w_files w))) io).
Proof.
  intros Hf. unfold sys, on_file. destruct (w_io w) as [|[|k] rest] eqn:Eio; intros [= <- <-];
    rewrite (alter_insert_files _ _ _ f) by done.
  - exists []. left. split; [done|]. destruct w; simpl in *. by subst.
  - exists rest. by left.
  - exists rest. right. by eexists _, k.
Qed.

Lemma roll_back_shape i n w w' r f :
  w_files w !! i = Some f → roll_back_segment i n w = (w', r) →
  ∃ io f', w' = set_io (set_files w (<[i := f']> (w_files w))) io ∧
    (f' = f ∨ f' = file_set_len (N.to_nat n) f ∨ f' = file_sync (file_set_len (N.to_nat n) f)) ∧
    (∀ u, r = Ok u → f' = file_sync (file_set_len (N.to_nat n) f)).
Proof.
  intros Hf. unfold roll_back_segment, st_bind.
  assert (∀ g w w' r f, w_files w !! i = Some f → sys (on_file i g) (λ _, id) w = (w', r) →
    ∃ io, (r = Ok tt ∧ w' = set_io (set_files w (<[i := g f]> (w_files w))) io) ∨
          (∃ e, r = Err e ∧ w' = set_io w io)) as Hsys.
  { clear. intros g w w' r f Hf. unfold sys, on_file.
    destruct (w_io w) as [|[|k] rest] eqn:Eio; intros [= <- <-];
      rewrite ?(alter_insert_files _ _ _ f) by done.
    - exists []. left. split; [done|]. destruct w; simpl in *. by subst.
    - exists rest. by left.
    - exists rest. right. by eexists. }
  destruct (gs_set_len i n w) as [w1 r1] eqn:E1.
  destruct (Hsys _ _ _ _ _ Hf E1) as (io1 & [(-> & ->)|(e & -> & ->)]).
  2: { intros [= <- <-]. exists io1, f. split_and!; [|by left|done].
       rewrite insert_id by done. by destruct w. }
  destruct (gs_sync_data i _) as [w2 r2] eqn:E2. intros [= <- <-].
  assert (w_files (set_io (set_files w (<[i:=file_set_len (N.to_nat n) f]> (w_files w))) io1) !! i =
    Some (file_set_len (N.to_nat n) f)) as Hf1 by apply lookup_insert_eq.
  destruct (Hsys file_sync _ _ _ _ Hf1 E2)
    as (io2 & [(-> & ->)|(e & -> & ->)]).
  - eexists io2, _. split; [simpl; by rewrite insert_insert_eq|]. split; [by right; right|done].
  - eexists io2, _. split; [simpl; done|]. split; [by right; left|done].
Qed.

Lemma write_marker_shape i text w :
  ∃ ms io, fst (gs_write_marker i text w) = set_io (set_marks w ms) io.
Proof.
  unfold gs_write_marker, sys. destruct (w_io w) as [|[|k] rest] eqn:Eio; simpl.
  - exists (<[i:=text]> (w_marks w)), []. destruct w; simpl in *. by subst.
  - by eexists _, rest.
  - by eexists _, rest.
Qed.

Lemma inv_clean_disk w i st :
  Inv w → w_syncs w !! i = Some st → failed st ≠ None → syncing st = false → cleaned st = false →
  let w' := clean_disk i (synced_len st) (synced_seq st) (set_sync w i (with_cleaned st)) in
  Inv w' ∧ w_threads w' = w_threads w ∧ w_lock w' = w_lock w ∧
  w_syncs w' = <[i := with_cleaned st]> (w_syncs w) ∧
  ∀ a, active (w_table w') = Some a → a_id a ≠ i.
Proof.
  intros Hinv Hst Hfa Hsy Hc. cbv zeta. unfold clean_disk. wcbn.
  destruct (active (w_table w)) as [a|] eqn:Ea.
  2: { split; [apply inv_cleaned; [done..|]; by rewrite Ea|]. wcbn. by rewrite Ea. }
  destruct (negb _) eqn:Ei; bool_prop.
  { assert (∀ a0, active (w_table w) = Some a0 → a_id a0 ≠ i) as Hne.
    { rewrite Ea. by intros a0 [= <-]. }
    split; [by apply inv_cleaned|]. by wcbn. }
  set (w1 := set_table (set_sync w i (with_cleaned st)) (set_active (w_table w) None)).
  assert (Inv w1) as H1.
  { apply (inv_cleaned (set_table w (set_active (w_table w) None)) i st); try done.
    by apply inv_deactivate. }
  assert (w_syncs w1 !! i = Some (with_cleaned st)) as Hst1 by apply lookup_insert_eq.
  destruct (i_seg w1 H1 i _ Hst1) as (Hid & f & Hf & Hok).
  destruct (roll_back_segment i (synced_len st) w1) as [w2 r2] eqn:E2.
  destruct (roll_back_shape _ _ _ _ _ _ Hf E2) as (io2 & f2 & -> & Hf2 & _).
  assert (synced_len st ≤ len (f_data f)) as Hlen.
  { pose proof (so_durable _ _ _ _ Hok) as Hd. pose proof (so_len _ _ _ _ Hok). simpl in Hd. lia. }
  assert (Inv (set_files w1 (<[i := f2]> (w_files w1)))) as H2.
  { apply (inv_file w1 i f); [done|done| |done]. intros st' Hst'. rewrite Hst1 in Hst'.
    injection Hst' as <-. split.
    - destruct Hf2 as [ -> | [ -> | -> ] ]; [done|..]; [|apply seg_ok_fsync]; apply seg_ok_set_len; done.
    - intros n Hn. destruct Hf2 as [ -> | [ -> | -> ] ]; simpl; rewrite Hn; simpl; eexists; (split; [done|]);
        by intros b ? ? [=]. }
  set (w2 := set_files w1 (<[i := f2]> (w_files w1))) in *.
  set (w3 := match r2 with Ok _ => set_io w2 io2 | Err _ => _ end).
  assert (∃ ms io, w3 = set_io (set_marks w2 ms) io) as (ms & io & Hw3).
  { unfold w3. destruct r2.
    - exists (w_marks w2), io2. by destruct w2.
    - destruct (write_marker_shape i (poison_text (synced_len st) (next_seq (w_table (set_io w2 io2)))) (set_io w2 io2))
        as (ms & io & ->). exists ms, io. by destruct w2. }
  clearbody w3. subst w3.
  assert (Inv (set_io (set_marks w2 ms) io)) as H3 by by apply inv_marks_io.
  destruct (0 <? synced_len st) eqn:E0; bool_prop.
  - split; [|by wcbn]. apply inv_push_sealed; [done| |done]. split; [done|]. wcbn.
    intros e sq fr Hin Hcond. destruct (so_synced _ _ _ _ Hok) as [_ Hb].
    apply (Hb e sq fr Hin). by apply (Hcond _ Hst1).
  - destruct (remove_same i (set_io (set_marks w2 ms) io)) as (Ht & Hs & Hth & Hl & Hcv).
    rewrite Ht, Hs, Hth, Hl. split; [|by wcbn]. apply inv_remove; [done|done|].
    intros st' e sq fr Hst' Hin Hcond. exfalso.
    destruct (stmt_facts _ i st' e sq fr H3 Hst' Hin) as [He _].
    change (w_syncs w1 !! i = Some st') in Hst'. rewrite Hst1 in Hst'. injection Hst' as <-.
    specialize (Hcond eq_refl). simpl in Hcond. lia.
Qed.

(** *** Every step of a thread *)
Lemma inv_pc w k t pc lock' :
  Inv w → w_threads w !! k = Some t → is_syncing (with_pc t pc) = false →
  (∀ st f, w_syncs w !! t_seg t = Some st →
     thr_ok (stmts (t_seg t) (w_threads w)) f st (with_pc t pc)) →
  (∀ j, j ≠ k → w_lock w = Some j → lock' = Some j) →
  (holds_lock (with_pc t pc) = true → lock' = Some k) →
  ((t_job t = PoisonedAppend → holds_lock t = true → holds_lock (with_pc t pc) = true) ∨
   ∀ a, active (w_table w) = Some a → a_id a ≠ t_seg t) →
  Inv (set_lock (set_thread w k (with_pc t pc)) lock').
Proof.
  intros Hinv Hk Hns Hok Hl1 Hl2 Hpo.
  destruct (i_thr w Hinv k t Hk) as (st & f & Hst & Hf & _).
  destruct (i_seg w Hinv _ _ Hst) as (_ & f0 & Hf0 & Hso). rewrite Hf in Hf0. injection Hf0 as <-.
  assert (set_lock (set_thread w k (with_pc t pc)) lock' =
    set_lock (set_thread (set_files (set_sync w (t_seg t) st) (<[t_seg t := f]> (w_files w)))
         k (with_pc t pc)) lock') as ->.
  { unfold set_lock, set_thread, set_threads, set_files, set_sync. wcbn.
    by rewrite !insert_id by done. }
  apply (inv_thread w k t pc st f st f lock'); try done; auto.
  intros j u Hj Hu Hsu E. destruct (i_thr w Hinv j u Hu) as (su & fu & Hsu' & _ & Hthr).
  rewrite E, Hst in Hsu'. injection Hsu' as <-. unfold thr_ok, is_syncing in *.
  destruct (t_pc u); try done. by destruct Hthr.
Qed.

Lemma set_lock_id w : set_lock w (w_lock w) = w.
Proof. by destruct w. Qed.

Lemma inv_pc_unlocked w k t pc :
  Inv w → w_threads w !! k = Some t → is_syncing (with_pc t pc) = false →
  (∀ st f, w_syncs w !! t_seg t = Some st →
     thr_ok (stmts (t_seg t) (w_threads w)) f st (with_pc t pc)) →
  (holds_lock (with_pc t pc) = true → holds_lock t = true) →
  (t_job t = PoisonedAppend → holds_lock t = true → holds_lock (with_pc t pc) = true) →
  Inv (set_thread w k (with_pc t pc)).
Proof.
  intros Hinv Hk Hns Hok Hh Hpo.
  rewrite <-(set_lock_id (set_thread w k (with_pc t pc))).
  apply (inv_pc w k t pc (w_lock w)); try done; auto.
  intros Hh'. apply (i_lock w Hinv k t); auto.
Qed.

Lemma inv_finish w k t acked :
  Inv w → w_threads w !! k = Some t → w_lock w = Some k →
  (acked = true → ∀ st seq fr, w_syncs w !! t_seg t = Some st → t_job t = Statement seq fr →
     t_end t ≤ synced_len st) →
  (t_job t = PoisonedAppend → ∀ a, active (w_table w) = Some a → a_id a ≠ t_seg t) →
  Inv (finish w k t acked).
Proof.
  intros Hinv Hk Hl Hack Hpo. unfold finish. apply inv_pc; try done.
  - intros st f Hst. unfold thr_ok. cbn. destruct acked; [|done]. intros seq fr Hj. eauto.
  - intros j Hj Hlj. congruence.
  - destruct (t_job t); [left; done..|]. right. by apply Hpo.
Qed.

Lemma wait_turn_lead st my_end tl ts :
  wait_turn st my_end = TLead tl ts →
  failed st = None ∧ syncing st = false ∧ tl = written_len st ∧ ts = written_seq st.
Proof.
  unfold wait_turn. destruct (failed st); [done|]. destruct (_ <=? _); [done|].
  destruct (syncing st); [done|]. by intros [= <- <-].
Qed.

Lemma sync_completed_frame st tl ts ok :
  let st' := sync_completed st tl ts ok in
  written_len st' = written_len st ∧ cleaned st' = cleaned st ∧ synced_len st ≤ synced_len st' ∧
  (cleaned st = true → synced_len st' = synced_len st) ∧ (failed st ≠ None → failed st' ≠ None).
Proof.
  cbv zeta. unfold sync_completed. destruct ok; [|by split_and!; try done; cbn; lia].
  cbn. destruct (failed st) eqn:Ef; [cbn; split_and!; try done; congruence|].
  destruct (cleaned st) eqn:Ec; cbn; rewrite ?Ec; split_and!; try done; lia.
Qed.

Lemma inv_thread_step k w w' : Inv w → thread_step k w = Some w' → Inv w'.
Proof.
  intros Hinv. unfold thread_step. destruct (w_threads w !! k) as [t|] eqn:Hk; [|done].
  cbn [mbind option_bind]. destruct (w_syncs w !! t_seg t) as [st|] eqn:Hst; [|done].
  cbn [mbind option_bind].
  destruct (i_thr w Hinv k t Hk) as (st0 & f & Hst0 & Hf & Hthr).
  rewrite Hst in Hst0. injection Hst0 as <-.
  destruct (i_seg w Hinv _ _ Hst) as (Hid & f0 & Hf0 & Hso). rewrite Hf in Hf0. injection Hf0 as <-.
  destruct (t_pc t) as [|tl ts|why|why| |b] eqn:Epc; [| | | | |done].
  - (* Check *)
    destruct (wait_turn st (t_end t)) as [why| |tl ts|] eqn:Et; [| | |done]; intros [= <-].
    + destruct (t_job t) eqn:Ej; apply inv_pc_unlocked; try done;
        unfold holds_lock; cbn; rewrite ?Epc, ?Ej; done.
    + assert (t_end t ≤ synced_len st) as Hle.
      { unfold wait_turn in Et. destruct (failed st); [done|].
        destruct (_ <=? _) eqn:E; [by bool_prop|]. by destruct (negb _). }
      destruct (t_job t) as [seq fr| |] eqn:Ej.
      * apply inv_pc_unlocked; try done; [|by rewrite Ej].
        intros st' f' Hst' seq' fr' _. wcbn. rewrite Hst in Hst'. by injection Hst' as <-.
      * destruct (inv_seal_active w Hinv) as (Hi & Ha & Hs & Hth & Hl & _).
        apply inv_finish; [done|by rewrite Hth| |by rewrite Ej|by rewrite Ej].
        rewrite Hl. apply (i_lock w Hinv k t Hk). unfold holds_lock. by rewrite Epc, Ej.
      * destruct (inv_seal_active w Hinv) as (Hi & Ha & Hs & Hth & Hl & _).
        apply inv_finish; [done|by rewrite Hth| |by rewrite Ej|by rewrite Ha].
        rewrite Hl. apply (i_lock w Hinv k t Hk). unfold holds_lock. by rewrite Epc, Ej.
    + apply wait_turn_lead in Et as (Hfa & Hsy & -> & ->).
      assert (cleaned st = false) as Hc.
      { destruct (cleaned st) eqn:E; [|done]. by apply (so_failed _ _ _ _ Hso) in E. }
      unfold on_file. rewrite (alter_insert_files _ _ _ f) by done.
      rewrite <-(set_lock_id (set_thread _ _ _)).
      apply (inv_thread w k t (Syncing (written_len st) (written_seq st)) st f
        (with_syncing st true) (file_sync_start f)); try done.
      * by apply seg_ok_syncing, seg_ok_sync_start.
      * unfold thr_ok. wcbn. split_and!; [done|done| |].
        -- split.
           ++ exists (length (stmts (t_seg t) (w_threads w))).
              split; [done|]. rewrite take_ge by done. apply Hso.
           ++ intros e sq fr Hin _. by eapply (so_wseq _ _ _ _ Hso).
        -- exists (length (f_data f)). split; [done|]. by eapply seg_written_le.
      * intros j u Hj Hu Hsu E. destruct (i_thr w Hinv j u Hu) as (su & fu & Hsu' & _ & Ht').
        rewrite E, Hst in Hsu'. injection Hsu' as <-. unfold thr_ok, is_syncing in *.
        destruct (t_pc u); try done. destruct Ht'. congruence.
      * intros Hh. apply (i_lock w Hinv k t Hk). unfold holds_lock in *. rewrite Epc. by cbn in Hh.
      * left. intros Hj _. unfold holds_lock. cbn. by rewrite Hj.
  - (* Syncing *)
    unfold thr_ok in Hthr. rewrite Epc in Hthr. destruct Hthr as (Hsy & Hc & Hb & n & Hn & Hle).
    set (ok := match w_io w with IoFail _ :: _ => false | _ => true end). intros [= <-].
    unfold on_file. rewrite (alter_insert_files _ _ _ f) by done.
    rewrite <-(set_lock_id (set_thread _ _ _)).
    destruct (sync_completed_frame st tl ts ok) as (? & ? & ? & ? & ?).
    apply (inv_thread w k t Check st f (sync_completed st tl ts ok) (file_sync_end ok f)); try done.
    + unfold sync_completed. cbn. destruct ok.
      * assert (seg_ok (stmts (t_seg t) (w_threads w)) (file_sync_end true f) (w_covered w) (with_syncing st false)) as Hso1
          by by apply seg_ok_syncing, seg_ok_sync_end.
        destruct (failed st); [done|]. rewrite Hc. cbn.
        apply (seg_ok_advance _ _ _ _ Hso1); [done| |done].
        simpl. rewrite Hn. simpl. lia.
      * by apply seg_ok_failed, seg_ok_syncing, seg_ok_sync_end.
    + intros j u Hj Hu Hsu E. exfalso. apply Hj.
      apply (i_one w Hinv j k u t Hu Hk Hsu); [by unfold is_syncing; rewrite Epc|done].
    + intros Hh. apply (i_lock w Hinv k t Hk). unfold holds_lock in *. rewrite Epc. by cbn in Hh.
    + left. intros Hj _. unfold holds_lock. cbn. by rewrite Hj.
  - (* WantLock *)
    destruct (w_lock w) eqn:El; [done|]. intros [= <-].
    apply inv_pc; try done; [by rewrite El|]. by left.
  - (* CleanEnter *)
    assert (w_lock w = Some k) as Hl by (apply (i_lock w Hinv k t Hk); unfold holds_lock; by rewrite Epc).
    intros [= <-]. unfold clean_enter. destruct (cleaned st) eqn:Ec.
    + apply inv_finish; [done..|]. intros _ a Ha E.
      destruct (i_act w Hinv a Ha) as (sa & fa & Hsa & _ & Hca & _). rewrite E, Hst in Hsa.
      injection Hsa as <-. congruence.
    + rewrite <-(set_lock_id (set_thread _ _ _)).
      set (st' := match failed st with None => with_failed st why | Some _ => st end).
      assert (set_thread (set_sync w (t_seg t) st') k (with_pc t CleanWait) =
        set_thread (set_files (set_sync w (t_seg t) st') (<[t_seg t := f]> (w_files w))) k (with_pc t CleanWait)) as ->.
      { unfold set_thread, set_threads, set_files, set_sync. wcbn. by rewrite (insert_id (w_files w)) by done. }
      assert (failed st' ≠ None) as Hfa by (unfold st'; destruct (failed st) eqn:E; cbn; congruence).
      apply (inv_thread w k t CleanWait st f st' f); try done; try (by unfold st'; destruct (failed st)).
      * unfold st'. destruct (failed st); [done|]. by apply seg_ok_failed.
      * intros j u Hj Hu Hsu E. destruct (i_thr w Hinv j u Hu) as (su & fu & Hsu' & _ & Ht').
        rewrite E, Hst in Hsu'. injection Hsu' as <-. unfold thr_ok, is_syncing in *.
        destruct (t_pc u); try done. destruct Ht' as (? & _). split_and!; try done.
        unfold st'. by destruct (failed st).
      * by left.
  - (* CleanWait *)
    assert (w_lock w = Some k) as Hl by (apply (i_lock w Hinv k t Hk); unfold holds_lock; by rewrite Epc).
    unfold thr_ok in Hthr. rewrite Epc in Hthr.
    destruct (syncing st) eqn:Hsy; [done|]. intros [= <-]. destruct (cleaned st) eqn:Ec.
    + apply inv_finish; [done..|]. intros _ a Ha E.
      destruct (i_act w Hinv a Ha) as (sa & fa & Hsa & _ & Hca & _). rewrite E, Hst in Hsa.
      injection Hsa as <-. congruence.
    + destruct (inv_clean_disk w (t_seg t) st Hinv Hst Hthr Hsy Ec) as (Hi & Hth & Hlk & _ & Hact).
      apply inv_finish; [done|by rewrite Hth|by rewrite Hlk|done|]. intros _ a Ha. by apply Hact.
Qed.

(** *** The operations under the tables lock *)
Lemma sys_shape ok fail w w' r :
  sys ok fail w = (w', r) →
  ∃ io, (r = Ok tt ∧ w' = ok (set_io w io)) ∨ (∃ e k, r = Err e ∧ w' = fail k (set_io w io)).
Proof.
  unfold sys. destruct (w_io w) as [|[|k] rest] eqn:Eio; intros [= <- <-].
  - exists []. left. split; [done|]. f_equal. destruct w; simpl in *. by subst.
  - exists rest. by left.
  - exists rest. right. by eexists _, k.
Qed.

Lemma no_stmts w i : Inv w → w_syncs w !! i = None → stmts i (w_threads w) = [].
Proof.
  intros Hinv Hn. destruct (stmts i (w_threads w)) as [|x l] eqn:E; [done|].
  assert (x ∈ stmts i (w_threads w)) as Hin by (rewrite E; by left).
  apply list_elem_of_omap in Hin as (t & Ht & Hs). unfold stmt_of in Hs.
  destruct (decide (t_seg t = i)) as [<-|]; [|done].
  apply list_elem_of_lookup in Ht as [k Hk]. destruct (i_thr w Hinv k t Hk) as (? & ? & ? & _). congruence.
Qed.

Lemma fresh_sync w : Inv w → w_syncs w !! next_segment (w_table w) = None.
Proof.
  intros Hinv. destruct (w_syncs w !! next_segment (w_table w)) eqn:E; [|done].
  apply (i_seg w Hinv) in E as [? _]. lia.
Qed.

Lemma inv_orphan w i f :
  Inv w → w_syncs w !! i = None → Inv (set_files w (<[i := f]> (w_files w))).
Proof.
  intros Hinv Hn. assert (∀ j st, w_syncs w !! j = Some st → j ≠ i) as Hne by congruence.
  pose proof Hinv as []. split; wcbn; try done.
  - intros j st Hj. rewrite lookup_insert_ne by (apply not_eq_sym; eauto). by apply i_seg0.
  - intros k t Ht. destruct (i_thr0 k t Ht) as (st & ft & Hst & Hft & Hok).
    rewrite lookup_insert_ne by (apply not_eq_sym; eauto). by exists st, ft.
  - intros a Ha. destruct (i_act0 a Ha) as (st & fa & Hst & Hr). unfold act_ok. wcbn.
    rewrite lookup_insert_ne by (apply not_eq_sym; eauto). by exists st, fa.
Qed.

(** A fresh active segment. *)
Lemma inv_open w :
  Inv w → active (w_table w) = None → next_segment (w_table w) < u64_max →
  w_files w !! next_segment (w_table w) = Some file_new →
  Inv (set_sync (set_table w
    {| next_seq := next_seq (w_table w); next_segment := wadd (next_segment (w_table w)) 1;
       active := Some {| a_id := next_segment (w_table w); a_max_seq := 0; a_good_len := 0 |};
       sealed := sealed (w_table w) |}) (next_segment (w_table w)) (seg_sync_new (next_seq (w_table w) - 1))).
Proof.
  intros Hinv Ha Hroom Hf. set (i := next_segment (w_table w)) in *.
  assert (wadd i 1 = i + 1) as Hw by (apply wadd_small; unfold u64_max, u64_modulus in *; lia).
  pose proof (fresh_sync w Hinv) as Hn. fold i in Hn. pose proof (no_stmts w i Hinv Hn) as Hno.
  assert (∀ j st, w_syncs w !! j = Some st → j ≠ i) as Hne by (intros j st Hj E; rewrite E in Hj; congruence).
  pose proof Hinv as []. split; wcbn; rewrite ?Hw; try done.
  - intros j st. destruct (decide (j = i)) as [->|Hji].
    + rewrite lookup_insert_eq. intros [= <-]. split; [lia|]. exists file_new. split; [done|].
      rewrite Hno. split; simpl; try done.
      * intros e sq fr Hin. by apply not_elem_of_nil in Hin.
      * split; [by exists 0%nat|]. intros e sq fr Hin. by apply not_elem_of_nil in Hin.
      * intros e sq fr Hin. by apply not_elem_of_nil in Hin.
    + rewrite lookup_insert_ne by done. intros Hj. destruct (i_seg0 j st Hj) as [? ?]. split; [lia|done].
  - intros k t Ht. destruct (i_thr0 k t Ht) as (st & ft & Hst & Hft & Hok).
    rewrite lookup_insert_ne by (apply not_eq_sym; eauto). by exists st, ft.
  - intros a [= <-]. exists (seg_sync_new (next_seq (w_table w) - 1)), file_new. wcbn. cbn [a_id a_good_len a_max_seq].
    rewrite lookup_insert_eq, Hno. split_and!; try done.
    + intros e sq fr Hin. by apply not_elem_of_nil in Hin.
    + change (map ss_id ?x) with (ss_id <$> x). intros (s & Hs & Hin)%list_elem_of_fmap.
      destruct (i_sealed0 s Hin) as [? _]. lia.
    + by left.
  - intros s Hs. destruct (i_sealed0 s Hs) as [Hid Hq]. split; [wcbn; lia|]. wcbn.
    intros e sq fr Hin Hcond. apply (Hq e sq fr Hin). intros st Hst. apply Hcond.
    rewrite lookup_insert_ne by lia. done.
Qed.

Lemma gs_ensure_active_spec w w' r :
  Inv w → next_segment (w_table w) < u64_max → ensure_active w = (w', r) →
  Inv w' ∧ w_threads w' = w_threads w ∧ w_lock w' = w_lock w ∧
  next_seq (w_table w') = next_seq (w_table w) ∧
  (∀ a, r = Ok a → active (w_table w') = Some a ∧ (active (w_table w) = Some a ∨
     w_files w' !! a_id a = Some file_new)) ∧
  (∀ i f, w_files w' !! i = Some f → w_files w !! i = Some f ∨ f = file_new).
Proof.
  intros Hinv Hroom. unfold ensure_active. destruct (active (w_table w)) as [a|] eqn:Ea.
  { intros [= <- <-]. split_and!; try done; [|by left]. intros a' [= <-]. auto. }
  unfold st_bind, gs_create_new. set (i := next_segment (w_table w)) in *.
  destruct (linked w i). { intros [= <- <-]. by split_and!; try done; left. }
  destruct (sys _ _ w) as [w1 r1] eqn:E1.
  apply sys_shape in E1 as (io1 & [[-> ->]|(e & k & -> & ->)]).
  2: { intros [= <- <-]. split; [by apply inv_io|]. by split_and!; try done; left. }
  set (w1 := set_files (set_io w io1) _).
  assert (Inv w1) as H1.
  { apply (inv_orphan (set_io w io1)); [by apply inv_io|]. apply (fresh_sync w Hinv). }
  assert (w_files w1 !! i = Some file_new) as Hf1 by apply lookup_insert_eq.
  assert (∀ j f, w_files w1 !! j = Some f → w_files w !! j = Some f ∨ f = file_new) as Hfs.
  { intros j f Hj. unfold w1 in Hj. wcbn. cbn in Hj. destruct (decide (j = i)) as [->|].
    - rewrite lookup_insert_eq in Hj. injection Hj as <-. by right.
    - rewrite lookup_insert_ne in Hj by done. by left. }
  destruct (gs_sync_dir w1) as [w2 r2] eqn:E2.
  apply sys_shape in E2 as (io2 & [[-> ->]|(e & k & -> & ->)]).
  2: { intros [= <- <-]. split; [by apply inv_io|]. by split_and!. }
  intros [= <- <-]. change (set_io w1 io2) with (id (set_io w1 io2)). cbn [id].
  split; [|split; [done|split; [done|split; [done|split; [|done]]]]].
  - apply (inv_open (set_io w1 io2)); [by apply inv_io|done..].
  - intros a [= <-]. split; [done|]. by right.
Qed.

(** A file changed above the written frames only. *)
Definition changed_above (w : world) (i : N) (st : SegSyncState) (f f' : vfile) : Prop :=
  seg_ok (stmts i (w_threads w)) f' (w_covered w) st ∧
  written_len st ≤ len (f_data f') ∧ f_linked f' = f_linked f ∧
  ∀ n, f_inflight f = Some n → ∃ n', f_inflight f' = Some n' ∧
    ∀ b, (b ≤ n)%nat → (b ≤ N.to_nat (written_len st))%nat → (b ≤ n')%nat.

Lemma changed_write w i st f f' bs :
  changed_above w i st f f' → changed_above w i st f (file_write bs f').
Proof.
  intros (H1 & H2 & H3 & H4). split_and!; try done.
  - by apply seg_ok_write.
  - simpl. rewrite length_app. lia.
Qed.

Lemma changed_set_len w i st f f' :
  cleaned st = false → changed_above w i st f f' →
  changed_above w i st f (file_set_len (N.to_nat (written_len st)) f').
Proof.
  intros Hc (H1 & H2 & H3 & H4). split_and!; try done.
  - apply seg_ok_set_len; [done| |lia]. by rewrite Hc.
  - simpl. unfold resize_bytes. rewrite length_app, length_take, length_replicate. lia.
  - intros n Hn. destruct (H4 n Hn) as (n' & Hn' & Hb). simpl. rewrite Hn'. simpl. eexists.
    split; [done|]. intros b Hb1 Hb2. specialize (Hb b Hb1 Hb2). lia.
Qed.

Lemma changed_sync w i st f f' : changed_above w i st f f' → changed_above w i st f (file_sync f').
Proof. intros (H1 & H2 & H3 & H4). split_and!; try done. by apply seg_ok_fsync. Qed.

Lemma inv_changed w i st f f' :
  Inv w → w_files w !! i = Some f → w_syncs w !! i = Some st → changed_above w i st f f' →
  (∀ a, active (w_table w) = Some a → a_id a = i →
     f_linked f = true ∧ (len (f_data f') = a_good_len a ∨ poisoned_by (w_threads w) i)) →
  Inv (set_files w (<[i := f']> (w_files w))).
Proof.
  intros Hinv Hf Hst (H1 & H2 & H3 & H4) Ha. apply (inv_file w i f); [done|done| |].
  - intros st' Hst'. rewrite Hst in Hst'. injection Hst' as <-. split; [done|].
    intros n Hn. destruct (H4 n Hn) as (n' & Hn' & Hb). exists n'. split; [done|]. auto.
  - intros a Ha' E. rewrite H3. by apply Ha.
Qed.

(** A thread that is no statement joins, with the tables lock. *)
Lemma inv_spawn w t :
  Inv w → w_lock w = None → (∀ seq fr, t_job t ≠ Statement seq fr) →
  is_Some (w_syncs w !! t_seg t) →
  (t_pc t = Check ∨ ∃ why, t_pc t = CleanEnter why) →
  Inv (spawn (set_lock w (Some (length (w_threads w)))) t).
Proof.
  intros Hinv Hl Hj [st Hst] Hpc. pose proof Hinv as [].
  destruct (i_seg0 _ _ Hst) as (_ & f & Hf & _).
  assert (∀ i, stmts i (w_threads w ++ [t]) = stmts i (w_threads w)) as Hs.
  { intros i. unfold stmts. rewrite omap_app. simpl. unfold stmt_of.
    destruct (decide _); [|apply app_nil_r]. destruct (t_job t) eqn:E; [by destruct (Hj seq frame)|apply app_nil_r..]. }
  assert (seqs (w_threads w ++ [t]) = seqs (w_threads w)) as Hq.
  { unfold seqs. rewrite omap_app. simpl. unfold job_seq.
    destruct (t_job t) eqn:E; [by destruct (Hj seq frame)|apply app_nil_r..]. }
  assert (∀ k u, w_threads w !! k = Some u → holds_lock u = false) as Hnh.
  { intros k u Hu. destruct (holds_lock u) eqn:E; [|done]. specialize (i_lock0 k u Hu E). congruence. }
  assert (is_syncing t = false) as Hns.
  { unfold is_syncing. by destruct Hpc as [->|[why ->]]. }
  assert (∀ k u, (w_threads w ++ [t]) !! k = Some u →
    w_threads w !! k = Some u ∨ k = length (w_threads w) ∧ u = t) as Hlk.
  { intros k u Hu. destruct (decide (k < length (w_threads w))%nat).
    - left. by rewrite lookup_app_l in Hu.
    - right. rewrite lookup_app_r in Hu by lia. destruct (k - length (w_threads w))%nat eqn:E.
      + simpl in Hu. split; [lia|congruence].
      + by rewrite lookup_nil in Hu || simpl in Hu. }
  split; wcbn; rewrite ?Hq; try done.
  - intros i st' Hi. destruct (i_seg0 i st' Hi) as (? & f' & ? & ?). rewrite Hs. eauto.
  - intros k u [Hu|[-> ->]]%Hlk; rewrite Hs.
    + by apply i_thr0 with k.
    + exists st, f. split_and!; try done. unfold thr_ok. by destruct Hpc as [->|[why ->]].
  - intros j k u v [Hu|[-> ->]]%Hlk [Hv|[-> ->]]%Hlk H1 H2 E; try congruence. by eapply i_one0.
  - intros a Ha. destruct (i_act0 a Ha) as (sa & fa & ? & ? & ? & ? & ? & ? & ? & Hd).
    exists sa, fa. wcbn. rewrite Hs. split_and!; try done.
    destruct Hd as [|(k & u & Hu & ? & ? & Hh)]; [by left|]. rewrite (Hnh k u Hu) in Hh. done.
  - intros s0 Hs0. destruct (i_sealed0 s0 Hs0) as [? Hr]. split; [done|]. wcbn. by rewrite Hs.
  - intros k u [Hu|[-> ->]]%Hlk Hh; [|done]. rewrite (Hnh k u Hu) in Hh. done.
Qed.

Lemma inv_failed w i st why :
  Inv w → w_syncs w !! i = Some st → Inv (set_sync w i (with_failed st why)).
Proof.
  intros Hinv Hst. pose proof Hinv as [].
  split; wcbn; try done.
  - intros j stj. destruct (decide (j = i)) as [->|].
    + rewrite lookup_insert_eq. intros [= <-]. destruct (i_seg0 i st Hst) as (? & f & Hf & Hok).
      split; [done|]. exists f. split; [done|]. by apply seg_ok_failed.
    + rewrite lookup_insert_ne by done. apply i_seg0.
  - intros k t Ht. destruct (i_thr0 k t Ht) as (st' & f & Hst' & Hf & Hok).
    destruct (decide (t_seg t = i)) as [E|E].
    + rewrite E in *. rewrite lookup_insert_eq. rewrite Hst in Hst'. injection Hst' as <-.
      exists (with_failed st why), f. split_and!; try done. unfold thr_ok in *. by destruct (t_pc t).
    + rewrite lookup_insert_ne by done. by exists st', f.
  - intros a Ha. destruct (i_act0 a Ha) as (st' & f & H1 & Hr). unfold act_ok. wcbn.
    destruct (decide (a_id a = i)) as [E|E].
    + rewrite E in *. rewrite Hst in H1. injection H1 as <-. rewrite lookup_insert_eq.
      by exists (with_failed st why), f.
    + rewrite lookup_insert_ne by done. by exists st', f.
  - intros s Hs. destruct (i_sealed0 s Hs) as [Hid Hq]. split; [done|]. wcbn.
    intros e sq fr Hin Hcond. apply (Hq e sq fr Hin). intros st' Hst' Hc.
    destruct (decide (ss_id s = i)) as [E|E].
    + rewrite E in *. rewrite Hst in Hst'. injection Hst' as <-.
      apply (Hcond (with_failed st why)); [apply lookup_insert_eq|done].
    + apply Hcond; [by rewrite lookup_insert_ne|done].
Qed.

(** The frame is written: sequence consumed, boundary published. *)
Lemma inv_stage w a st f fr :
  Inv w → w_lock w = None → active (w_table w) = Some a →
  w_syncs w !! a_id a = Some st → w_files w !! a_id a = Some f → fr ≠ [] →
  let seq := next_seq (w_table w) in
  let good_len := a_good_len a + len fr in
  Inv (spawn (set_table (set_sync (set_files w (<[a_id a := file_write fr f]> (w_files w)))
      (a_id a) (with_written st good_len seq))
    {| next_seq := seq + 1; next_segment := next_segment (w_table w);
       active := Some {| a_id := a_id a; a_max_seq := seq; a_good_len := good_len |};
       sealed := sealed (w_table w) |})
    {| t_job := Statement seq fr; t_seg := a_id a; t_end := good_len; t_pc := Check |}).
Proof.
  intros Hinv Hl Ha Hst Hf Hne. cbv zeta. pose proof Hinv as [].
  destruct (i_act0 a Ha) as (st0 & f0 & Hst0 & Hf0 & Hc & Hwl & Hlk & Hm & Hns & Hd).
  rewrite Hst in Hst0. injection Hst0 as <-. rewrite Hf in Hf0. injection Hf0 as <-.
  assert (len (f_data f) = written_len st) as Hlen.
  { destruct Hd as [|(k & u & Hu & _ & _ & Hh)]; [done|]. specialize (i_lock0 k u Hu Hh). congruence. }
  set (t := {| t_job := Statement _ _ |}).
  assert (∀ i, i ≠ a_id a → stmts i (w_threads w ++ [t]) = stmts i (w_threads w)) as Hs.
  { intros i Hi. unfold stmts. rewrite omap_app. simpl. unfold stmt_of.
    rewrite decide_False by auto. apply app_nil_r. }
  assert (stmts (a_id a) (w_threads w ++ [t]) =
    stmts (a_id a) (w_threads w) ++ [(a_good_len a + len fr, next_seq (w_table w), fr)]) as Hsa.
  { unfold stmts. rewrite omap_app. f_equal. simpl. unfold stmt_of. by rewrite decide_True. }
  assert (seqs (w_threads w ++ [t]) = seqs (w_threads w) ++ [next_seq (w_table w)]) as Hq.
  { unfold seqs. by rewrite omap_app. }
  assert (∀ k u, (w_threads w ++ [t]) !! k = Some u →
    w_threads w !! k = Some u ∨ k = length (w_threads w) ∧ u = t) as Hlk'.
  { intros k u Hu. destruct (decide (k < length (w_threads w))%nat).
    - left. by rewrite lookup_app_l in Hu.
    - right. rewrite lookup_app_r in Hu by lia. destruct (k - length (w_threads w))%nat eqn:E.
      + simpl in Hu. split; [lia|congruence].
      + by rewrite lookup_nil in Hu || simpl in Hu. }
  destruct (i_seg0 _ _ Hst) as (Hid & f1 & Hf1 & Hso). rewrite Hf in Hf1. injection Hf1 as <-.
  destruct i_next0 as [Hn1 Hn2].
  assert (seg_ok (stmts (a_id a) (w_threads w ++ [t])) (file_write fr f) (w_covered w)
    (with_written st (a_good_len a + len fr) (next_seq (w_table w)))) as Hso'.
  { rewrite Hsa, <-Hwl. apply seg_ok_stage; try done.
    intros e sq x Hin. apply stmts_seq, Hn2 in Hin. lia. }
  split; wcbn; try done.
  - intros j stj. destruct (decide (j = a_id a)) as [->|Hj].
    + rewrite !lookup_insert_eq. intros [= <-]. split; [done|]. by eexists.
    + rewrite !lookup_insert_ne by done. rewrite Hs by done. apply i_seg0.
  - intros k u [Hu|[-> ->]]%Hlk'.
    + destruct (i_thr0 k u Hu) as (su & fu & Hsu & Hfu & Hthr).
      destruct (decide (t_seg u = a_id a)) as [E|E].
      * rewrite E in *. rewrite !lookup_insert_eq. rewrite Hst in Hsu. rewrite Hf in Hfu.
        injection Hsu as <-. injection Hfu as <-. eexists _, _. split_and!; [done..|].
        unfold thr_ok in *. destruct (t_pc u); try done.
        destruct Hthr as (? & ? & Hb & ?). split_and!; try done. rewrite Hsa.
        apply boundary_snoc; [|done]. rewrite <-Hsa. apply Hso'.
      * rewrite !lookup_insert_ne by done. rewrite Hs by done. by exists su, fu.
    + cbn [t t_seg]. rewrite !lookup_insert_eq. by eexists _, _.
  - intros j k u v [Hu|[-> ->]]%Hlk' [Hv|[-> ->]]%Hlk' H1 H2 E; try done. by eapply i_one0.
  - intros a' [= <-]. eexists _, _. wcbn. cbn [a_id a_good_len a_max_seq].
    rewrite !lookup_insert_eq, Hsa. split_and!; try done.
    + intros e sq x [Hin|Hin%list_elem_of_singleton]%elem_of_app.
      * apply stmts_seq, Hn2 in Hin. lia.
      * injection Hin as _ -> _. lia.
    + left. simpl. rewrite length_app. lia.
  - intros s0 Hs0. destruct (i_sealed0 s0 Hs0) as [? Hr].
    assert (ss_id s0 ≠ a_id a) as Hne0.
    { intros E. apply Hns. rewrite <-E. change (map ss_id ?x) with (ss_id <$> x).
      apply list_elem_of_fmap. eauto. }
    split; [done|]. wcbn. rewrite Hs by done. intros e sq x Hin Hcond. apply (Hr e sq x Hin).
    intros st' Hst'. apply Hcond. by rewrite lookup_insert_ne by done.
  - intros k u [Hu|[-> ->]]%Hlk' Hh; [by apply i_lock0 with u|done].
  - rewrite Hq. apply StronglySorted_app_2; [|done|by repeat constructor].
    intros q q' Hq1 Hq2%list_elem_of_singleton. subst q'. apply Hn2 in Hq1. lia.
  - rewrite Hq. split; [lia|]. intros q [Hq1|Hq1%list_elem_of_singleton]%elem_of_app; [apply Hn2 in Hq1; lia|lia].
Qed.

(** ** Every step keeps the invariant *)
Section Steps.
Context (crc32 : list byte → N) {RecordBatch : Type} `{Arrow RecordBatch}.

Lemma encode_frame_len seq kind (batches : list RecordBatch) fr :
  encode_frame crc32 seq kind batches = Ok fr → fr ≠ [] ∧ len fr ≤ 8 + u32_max.
Proof.
  unfold encode_frame. intros H1. apply bind_Ok in H1 as (body & _ & H1).
  apply frame_bytes_Ok in H1 as [Hl ->]. pose proof (length_frame crc32 (u64_le seq ++ body)) as Hf.
  split; [|lia]. intros E. by rewrite E in Hf.
Qed.

Lemma inv_append_failed w i st f f' io :
  Inv w → active (w_table w) ≠ None → w_files w !! i = Some f → w_syncs w !! i = Some st →
  changed_above w i st f f' → f_linked f = true →
  (∀ a, active (w_table w) = Some a → a_id a = i → len (f_data f') = a_good_len a) →
  Inv (set_io (set_files w (<[i := f']> (w_files w))) io).
Proof.
  intros Hinv _ Hf Hst Hch Hlk Hlen. apply inv_io, (inv_changed w i st f); [done..|].
  intros a Ha E. split; [done|]. left. by apply Hlen.
Qed.

Lemma inv_append_staged kind (batches : list RecordBatch) w :
  Inv w → w_lock w = None → room w → Inv (fst (append_staged crc32 kind batches w)).
Proof.
  intros Hinv Hl (Hr1 & Hr2 & Hr3). unfold append_staged, st_bind.
  destruct (ensure_active w) as [w1 r1] eqn:E1.
  destruct (gs_ensure_active_spec _ _ _ Hinv Hr2 E1) as (H1 & Hth & Hlk & Hns & Ha & Hfs).
  destruct r1 as [a|e]; [|done]. destruct (Ha a eq_refl) as [Hact _]. clear Ha.
  rewrite Hl in Hlk. rewrite <-Hns in Hr1. clear Hns E1.
  assert (∀ i f, w_files w1 !! i = Some f → len (f_data f) < u64_max - u32_max - 8) as Hr3'.
  { intros i f [Hf| ->]%Hfs; [by eapply Hr3|done]. }
  clear dependent w. rename w1 into w.
  destruct (encode_frame crc32 (next_seq (w_table w)) kind batches) as [fr|e] eqn:Ee; [|done].
  apply encode_frame_len in Ee as [Hne Hflen].
  destruct (i_act w H1 a Hact) as (st & f & Hst & Hf & Hc & Hwl & Hlnk & _ & _ & _).
  destruct (i_seg w H1 _ _ Hst) as (_ & f0 & Hf0 & Hso). rewrite Hf in Hf0. injection Hf0 as <-.
  pose proof (seg_written_le _ _ _ _ Hso Hc) as Hwle. pose proof (Hr3' _ _ Hf) as Hr4.
  unfold gs_write.
  destruct (sys _ _ w) as [w1 r1] eqn:E1.
  destruct (sys_file_shape _ _ (λ k, file_write (take k fr)) _ _ _ _ Hf E1) as (io1 & [[-> ->]|(e & k & -> & ->)]); clear E1.
  - wcbn. rewrite Hst. cbn [fst].
    rewrite (wadd_small (next_seq _)) by (unfold u64_max, u64_modulus in *; lia).
    rewrite (wadd_small (a_good_len a)) by (unfold u64_max, u32_max, u64_modulus in *; lia).
    pose proof (inv_stage w a st f fr H1 Hlk Hact Hst Hf Hne) as Hs. cbv zeta in Hs.
    apply (inv_io _ io1) in Hs. exact Hs.
  - set (f1 := file_write (take k fr) f).
    assert (changed_above w (a_id a) st f f1) as Hc1.
    { apply changed_write. split_and!; try done; [lia|]. intros n Hn. eauto. }
    set (w1 := set_io (set_files w (<[a_id a := f1]> (w_files w))) io1).
    assert (w_files w1 !! a_id a = Some f1) as Hf1 by apply lookup_insert_eq.
    assert (∀ w0 io0 f0 w2 r2, w0 = set_io (set_files w (<[a_id a := f0]> (w_files w))) io0 →
      changed_above w (a_id a) st f f0 → roll_back_segment (a_id a) (a_good_len a) w0 = (w2, r2) →
      ∃ io f2, w2 = set_io (set_files w (<[a_id a := f2]> (w_files w))) io ∧
        changed_above w (a_id a) st f f2 ∧ (∀ u, r2 = Ok u → len (f_data f2) = a_good_len a)) as Hroll.
    { intros w0 io0 f0 w2 r2 -> Hc0 Er.
      destruct (roll_back_shape _ _ _ _ _ f0 (lookup_insert_eq _ _ _) Er) as (io & f2 & -> & Hf2 & Hok).
      exists io, f2. split; [simpl; by rewrite insert_insert_eq|]. rewrite <-Hwl in *. split.
      - destruct Hf2 as [ -> | [ -> | -> ] ]; [done|by apply changed_set_len|].
        by apply changed_sync, changed_set_len.
      - intros u Hu. rewrite (Hok u Hu). simpl. unfold resize_bytes.
        destruct Hc0 as (_ & Hle & _). rewrite length_app, length_take, length_replicate. lia. }
    destruct (roll_back_segment (a_id a) (a_good_len a) w1) as [w2 r2] eqn:E2.
    destruct (Hroll w1 io1 f1 w2 r2 eq_refl Hc1 E2) as (io2 & f2 & -> & Hc2 & Hlen2).
    destruct r2 as [u|e2].
    { apply (inv_append_failed w _ st f); try done; [by rewrite Hact|].
      intros a' Ha' _. rewrite Hact in Ha'. injection Ha' as <-. by apply (Hlen2 u). }
    set (w2 := set_io (set_files w (<[a_id a := f2]> (w_files w))) io2).
    assert (∃ io3 f3 r3, (gs_open_write (a_id a) ;;* roll_back_segment (a_id a) (a_good_len a))%stres w2 =
      (set_io (set_files w (<[a_id a := f3]> (w_files w))) io3, r3) ∧
      changed_above w (a_id a) st f f3 ∧ (∀ u, r3 = Ok u → len (f_data f3) = a_good_len a)) as (io3 & f3 & r3 & E3 & Hc3 & Hlen3).
    { unfold st_bind, gs_open_write. destruct (linked w2 (a_id a)); [|by eexists io2, f2, _].
      destruct (sys _ _ w2) as [w3 r3] eqn:E3.
      apply sys_shape in E3 as (io3 & [[-> ->]|(e3 & k3 & -> & ->)]); [|by eexists io3, f2, _].
      destruct (roll_back_segment (a_id a) (a_good_len a) (id (set_io w2 io3))) as [w4 r4] eqn:E4.
      destruct (Hroll (set_io w2 io3) io3 f2 w4 r4 eq_refl Hc2 E4) as (io4 & f4 & -> & ? & ?).
      by eexists io4, f4, _. }
    unfold st_bind in E3. rewrite E3. destruct r3 as [u|e3].
    { apply (inv_append_failed w _ st f); try done; [by rewrite Hact|].
      intros a' Ha' _. rewrite Hact in Ha'. injection Ha' as <-. by apply (Hlen3 u). }
    wcbn. rewrite Hst. cbn [fst].
    set (st' := match failed st with None => with_failed st _ | Some _ => st end).
    set (t := {| t_job := PoisonedAppend |}).
    assert (Inv (set_sync w (a_id a) st')) as Hi1.
    { unfold st'. destruct (failed st) eqn:Ef.
      - assert (set_sync w (a_id a) st = w) as ->; [|done].
        unfold set_sync. rewrite insert_id by done. by destruct w.
      - by apply inv_failed. }
    assert (Inv (spawn (set_lock (set_sync w (a_id a) st') (Some (length (w_threads w)))) t)) as Hi2.
    { apply (inv_spawn (set_sync w (a_id a) st') t); try done.
      - eexists. apply lookup_insert_eq.
      - right. by eexists. }
    set (w3 := spawn _ t) in Hi2.
    change (Inv (set_io (set_files w3 (<[a_id a := f3]> (w_files w3))) io3)). apply inv_io.
    apply (inv_changed w3 (a_id a) st' f); [done|done|apply lookup_insert_eq| |].
    + destruct Hc3 as (Hso3 & Hle3 & Hlk3 & Hfl3). split_and!; try done.
      * assert (stmts (a_id a) (w_threads w3) = stmts (a_id a) (w_threads w)) as ->.
        { unfold w3. wcbn. unfold stmts. rewrite omap_app. simpl. unfold stmt_of. cbn.
          rewrite decide_True by done. apply app_nil_r. }
        unfold st'. destruct (failed st); [done|]. by apply seg_ok_failed.
      * unfold st'. by destruct (failed st).
      * intros n Hn. destruct (Hfl3 n Hn) as (n' & Hn' & Hb). exists n'. split; [done|].
        unfold st'. by destruct (failed st).
    + intros a' Ha' _. split; [done|]. right. exists (length (w_threads w)), t. unfold w3. wcbn.
      by rewrite lookup_app_r, Nat.sub_diag by lia.
Qed.

Lemma inv_rotate w : Inv w → w_lock w = None → Inv (fst (rotate w)).
Proof.
  intros Hinv Hl. unfold rotate. destruct (active (w_table w)) as [a|] eqn:Ea; [|done].
  destruct (_ =? 0); [by apply inv_seal_active|].
  destruct (w_syncs w !! a_id a) as [st|] eqn:Es; [|done].
  apply inv_spawn; try done; by eexists || by left.
Qed.

Lemma inv_retain upto l w w' kept :
  Inv w → (∀ s, s ∈ l → s ∈ sealed (w_table w)) → upto ≤ w_covered w →
  retain_uncovered upto l w = (w', kept) →
  Inv w' ∧ same_mem w w' ∧ ∀ s, s ∈ kept → s ∈ l.
Proof.
  revert w kept w'. induction l as [|s l IH]; intros w kept w' Hinv Hsub Hcov Hr; cbn [retain_uncovered] in Hr.
  { injection Hr as <- <-. done. }
  destruct (upto <? ss_max_seq s) eqn:E; bool_prop.
  - destruct (retain_uncovered upto l w) as [w1 rest] eqn:E1. injection Hr as <- <-.
    destruct (IH w rest w1 Hinv) as (H1 & H2 & H3); [set_solver|done|done|].
    split_and!; try done. intros x [->|Hx]%elem_of_cons; [by left|right; by apply H3].
  - pose proof (remove_same (ss_id s) w) as Hsame.
    assert (Inv (fst (gs_remove_with_marker (ss_id s) w))) as Hi1.
    { apply inv_remove; [done| |].
      - intros a Ha Eid. destruct (i_act w Hinv a Ha) as (? & ? & _ & _ & _ & _ & _ & _ & Hn & _).
        apply Hn. rewrite Eid. change (map ss_id ?x) with (ss_id <$> x).
        apply list_elem_of_fmap. exists s. split; [done|]. apply Hsub. by left.
      - intros st e sq fr Hst Hin Hcond.
        destruct (i_sealed w Hinv s (Hsub s ltac:(by left))) as [_ Hq].
        assert (sq ≤ ss_max_seq s); [|lia]. apply (Hq e sq fr Hin). intros st' Hst'.
        rewrite Hst in Hst'. by injection Hst' as <-. }
    destruct (gs_remove_with_marker (ss_id s) w) as [w1 r1] eqn:E1. simpl in Hi1, Hsame.
    destruct Hsame as (Ht & Hs & Hth & Hlk & Hcv).
    destruct (retain_uncovered upto l w1) as [w2 rest] eqn:E2.
    destruct (IH w1 rest w2 Hi1) as (H1 & H2 & H3); [rewrite Ht; set_solver|by rewrite Hcv|done|].
    injection Hr as <- <-. split; [done|]. split.
    + destruct H2 as (? & ? & ? & ? & ?). split_and!; congruence.
    + intros x Hx. destruct r1 as [[]|]; [right; by apply H3|..];
        (apply elem_of_cons in Hx as [->|Hx]; [by left|right; by apply H3]).
Qed.

Lemma inv_truncate upto w : Inv w → Inv (fst (truncate upto w)).
Proof.
  intros Hinv. unfold truncate. set (w0 := set_covered w _).
  assert (Inv w0) as H0 by (apply inv_covered; [done|lia]).
  destruct (retain_uncovered upto (sealed (w_table w0)) w0) as [w1 kept] eqn:E1.
  destruct (inv_retain upto _ _ _ _ H0 ltac:(done) ltac:(simpl; lia) E1) as (H1 & (Ht & Hs & Hth & Hlk & Hcv) & Hsub).
  rewrite <-Ht in Hsub. pose proof (inv_sealed_sub w1 kept H1 Hsub) as H2.
  wcbn. destruct (active (w_table w1)) as [a|] eqn:Ea; [|done].
  destruct (_ && _) eqn:Ec; [|done]. bool_prop. cbn [fst].
  set (w2 := set_table w1 _) in H2.
  apply (inv_deactivate w2) in H2 as Hd. unfold w2 in Hd. cbn [set_table w_table set_active next_seq next_segment sealed] in Hd.
  apply inv_remove; [exact Hd|done|]. wcbn. intros st e sq fr _ Hin _.
  destruct (i_act w1 H1 a Ea) as (? & ? & _ & _ & _ & _ & _ & Hm & _). specialize (Hm e sq fr Hin).
  rewrite Hcv. simpl. lia.
Qed.

Lemma exec_inv a io w w' : Inv w → room w → exec crc32 a io w = Some w' → Inv w'.
Proof.
  intros Hinv Hroom He. apply (inv_io w io) in Hinv as Hi.
  assert (room (set_io w io)) as Hr by exact Hroom. unfold exec in He. cbn [w_lock set_io] in He.
  destruct a as [kind batches| |upto|floor|k];
    [..|by apply inv_thread_step in He]; destruct (w_lock w) eqn:El; try done; injection He as <-.
  - by apply inv_append_staged.
  - by apply inv_rotate.
  - by apply inv_truncate.
  - unfold ensure_seq_floor. cbn [fst]. apply (inv_floor (set_io w io)); [exact Hi|]. cbn. lia.
Qed.

Lemma booted_inv w : booted w → Inv w.
Proof.
  intros (Ha & Hs & Ht & Hl & Hn & Hf & Hse). split; rewrite ?Ha, ?Hs, ?Ht; try done.
  - intros s Hs'. split; [by apply Hse|]. rewrite Ht. intros e sq fr Hin. by apply not_elem_of_nil in Hin.
  - constructor.
  - split; [done|]. intros q Hq. by apply not_elem_of_nil in Hq.
Qed.

Lemma run_inv w w' : booted w → run crc32 w w' → Inv w'.
Proof.
  intros Hb. induction 1 as [w|w w1 w2 a io Hr IH Hroom He]; [by apply booted_inv|].
  by eapply exec_inv; [apply IH|..].
Qed.
End Steps.
