(* ===== verification/GroupSyncReplay.v ===== *)
(** * From a crash of the group fsync to its replay

    The frames of acked statements in what a crash leaves, through the boot scan
    of [Tail]. *)
From stdpp Require Import sorting.
From Stdlib Require Import Sorting.Sorted.
From S2P Require Import Prelude Text Segment SegmentWal TailNames Tail GroupSync GroupSyncInv.
#[local] Open Scope N_scope.

(** ** What a crash finds *)
Section Replay.
Context (crc32 : list byte → N) (crc32_u32 : ∀ bs, is_u32 (crc32 bs))
  {RecordBatch : Type} `{ArrowLaws RecordBatch}.
Implicit Types (w : world).

(** Every staged frame is the encoding of a statement under its sequence. *)
Definition encoded (t : thread) : Prop :=
  ∀ seq fr, t_job t = Statement seq fr →
    ∃ kind (batches : list RecordBatch), encode_frame crc32 seq kind batches = Ok fr.

Lemma encoded_with_pc (ts : list thread) k t pc :
  (∀ u, u ∈ ts → encoded u) → ts !! k = Some t → ∀ u, u ∈ <[k := with_pc t pc]> ts → encoded u.
Proof.
  intros Hall Hk u Hu. apply list_elem_of_lookup in Hu as [j Hj].
  destruct (decide (j = k)) as [->|].
  - rewrite list_lookup_insert_eq in Hj by (by eapply lookup_lt_Some). injection Hj as <-.
    intros seq fr Hjob. apply (Hall t); [by eapply list_elem_of_lookup_2|done].
  - rewrite list_lookup_insert_ne in Hj by done. apply Hall. by eapply list_elem_of_lookup_2.
Qed.

Lemma thread_step_encoded k w w' :
  Inv w → (∀ u, u ∈ w_threads w → encoded u) → thread_step k w = Some w' →
  ∀ u, u ∈ w_threads w' → encoded u.
Proof.
  intros Hinv Hall. unfold thread_step. destruct (w_threads w !! k) as [t|] eqn:Hk; [|done].
  cbn [mbind option_bind]. destruct (w_syncs w !! t_seg t) as [st|] eqn:Hst; [|done].
  cbn [mbind option_bind].
  assert (∀ w0 pc, w_threads w0 = w_threads w → ∀ u, u ∈ <[k := with_pc t pc]> (w_threads w0) → encoded u) as Hpc.
  { intros w0 pc ->. by apply encoded_with_pc. }
  destruct (t_pc t) as [|tl ts|why|why| |b] eqn:Epc; [| | | | |done].
  - destruct (wait_turn st (t_end t)); [| | |done]; intros [= <-].
    + by apply Hpc.
    + destruct (inv_seal_active w Hinv) as (_ & _ & _ & Hth & _).
      destruct (t_job t); [by apply Hpc|..]; unfold finish; wcbn; by apply (Hpc (seal_active w)).
    + by apply Hpc.
  - intros [= <-]. by apply Hpc.
  - destruct (w_lock w); [done|]. intros [= <-]. by apply Hpc.
  - intros [= <-]. destruct (clean_enter st why); by apply Hpc.
  - destruct (syncing st) eqn:Hsy; [done|]. intros [= <-]. destruct (cleaned st) eqn:Ec; [by apply Hpc|].
    destruct (i_thr w Hinv k t Hk) as (st0 & f & Hst0 & _ & Hthr). rewrite Hst in Hst0. injection Hst0 as <-.
    unfold thr_ok in Hthr. rewrite Epc in Hthr.
    destruct (inv_clean_disk w (t_seg t) st Hinv Hst Hthr Hsy Ec) as (_ & Hth & _).
    unfold finish. wcbn. by apply Hpc.
Qed.

(** What an append that could not write does to the threads: at most a
    [PoisonedAppend] joins. *)
Lemma rollback_threads i n w : w_threads (fst (roll_back_segment i n w)) = w_threads w.
Proof.
  unfold roll_back_segment, st_bind, gs_set_len, gs_sync_data.
  destruct (sys _ _ w) as [w1 r1] eqn:E1. apply sys_shape in E1 as (io1 & [[-> ->]|(e & k & -> & ->)]); [|done].
  destruct (sys _ _ _) as [w2 r2] eqn:E2. by apply sys_shape in E2 as (io2 & [[-> ->]|(e & k & -> & ->)]).
Qed.

Lemma append_encoded kind (batches : list RecordBatch) w :
  Inv w → next_segment (w_table w) < u64_max →
  (∀ u, u ∈ w_threads w → encoded u) →
  ∀ u, u ∈ w_threads (fst (append_staged crc32 kind batches w)) → encoded u.
Proof.
  intros Hinv Hr2 Hall. unfold append_staged, st_bind.
  destruct (ensure_active w) as [w1 r1] eqn:E1.
  destruct (gs_ensure_active_spec _ _ _ Hinv Hr2 E1) as (_ & Hth & _). rewrite <-Hth in Hall.
  destruct r1 as [a|e]; [|done]. clear dependent w. rename w1 into w.
  destruct (encode_frame crc32 (next_seq (w_table w)) kind batches) as [fr|e] eqn:Ee; [|done].
  assert (∀ w0, w_threads w0 = w_threads w → ∀ u, u ∈ w_threads w0 → encoded u) as Hsame by (intros ? ->; done).
  destruct (gs_write (a_id a) fr w) as [w1 r1] eqn:E1.
  apply sys_shape in E1 as (io1 & [[-> ->]|(e & k & -> & ->)]); wcbn.
  - destruct (w_syncs w !! a_id a); [|by apply Hsame]. cbn [fst]. wcbn.
    intros u [Hu|Hu%list_elem_of_singleton]%elem_of_app; [by apply Hall|subst u].
    intros seq fr' [= <- <-]. by eexists _, _.
  - match goal with |- context [roll_back_segment _ _ ?x] => set (w1 := x) end.
    pose proof (rollback_threads (a_id a) (a_good_len a) w1) as Hrb.
    destruct (roll_back_segment (a_id a) (a_good_len a) w1) as [w2 r2]. simpl in Hrb.
    destruct r2; [by apply Hsame|].
    assert (∀ w3 r3, match gs_open_write (a_id a) w2 with
      | (s', Ok _) => roll_back_segment (a_id a) (a_good_len a) s' | (s', Err e) => (s', Err e) end = (w3, r3) →
      w_threads w3 = w_threads w) as Hrb2.
    { intros w3 r3. unfold gs_open_write. destruct (linked w2 (a_id a)); [|by intros [= <- _]].
      destruct (sys _ _ w2) as [w3' r3'] eqn:E3.
      apply sys_shape in E3 as (io3 & [[-> ->]|(e3 & k3 & -> & ->)]); [|by intros [= <- _]].
      intros E4. pose proof (rollback_threads (a_id a) (a_good_len a) (id (set_io w2 io3))) as Hr3.
      rewrite E4 in Hr3. simpl in Hr3. by rewrite Hr3. }
    destruct (match gs_open_write (a_id a) w2 with
      | (s', Ok _) => roll_back_segment (a_id a) (a_good_len a) s' | (s', Err e) => (s', Err e) end) as [w3 r3] eqn:E3.
    specialize (Hrb2 w3 r3 eq_refl).
    destruct r3; [by apply Hsame|]. destruct (w_syncs w3 !! a_id a); [|by apply Hsame]. cbn [fst]. wcbn.
    rewrite Hrb2. intros u [Hu|Hu%list_elem_of_singleton]%elem_of_app; [by apply Hall|subst u].
    by intros seq fr'.
Qed.

Lemma retain_threads upto l w : w_threads (fst (retain_uncovered upto l w)) = w_threads w.
Proof.
  revert w. induction l as [|s l IH]; intros w; cbn [retain_uncovered]; [done|].
  destruct (_ <? _).
  - specialize (IH w). by destruct (retain_uncovered upto l w).
  - destruct (remove_same (ss_id s) w) as (_ & _ & Hth & _).
    destruct (gs_remove_with_marker (ss_id s) w) as [w1 r1]. specialize (IH w1).
    destruct (retain_uncovered upto l w1). simpl in *. congruence.
Qed.

Lemma run_encoded w w' :
  booted w → run crc32 w w' → ∀ u, u ∈ w_threads w' → encoded u.
Proof.
  intros Hb Hrun. induction Hrun as [w|w w1 w2 a io Hr IH Hroom He].
  { destruct Hb as (_ & _ & -> & _). intros u Hu. by apply not_elem_of_nil in Hu. }
  specialize (IH Hb). pose proof (run_inv _ w w1 Hb Hr) as Hinv. apply (inv_io w1 io) in Hinv.
  unfold exec in He. cbn [w_lock set_io] in He.
  destruct a as [kind batches| |upto|floor|k]; [..|by eapply thread_step_encoded; [exact Hinv|..]];
    destruct (w_lock w1); try done; injection He as <-.
  - apply append_encoded; [done|apply Hroom|done].
  - unfold rotate. cbn [w_table set_io]. destruct (active (w_table w1)) as [a|]; [|done].
    destruct (_ =? 0).
    { cbn [fst]. destruct (inv_seal_active _ Hinv) as (_ & _ & _ & -> & _). done. }
    cbn [w_syncs set_io]. destruct (w_syncs w1 !! a_id a); [|done]. cbn [fst]. wcbn.
    intros u [Hu|Hu%list_elem_of_singleton]%elem_of_app; [by apply IH|subst u]. by intros seq fr.
  - unfold truncate. pose proof (retain_threads upto (sealed (w_table (set_covered (set_io w1 io) (N.max (w_covered (set_io w1 io)) upto))))
      (set_covered (set_io w1 io) (N.max (w_covered (set_io w1 io)) upto))) as Hth.
    destruct (retain_uncovered _ _ _) as [w3 kept]. simpl in Hth. wcbn.
    destruct (active (w_table w3)) as [a|]; [|cbn [fst]; wcbn; by rewrite Hth].
    destruct (_ && _); cbn [fst]; wcbn; [|by rewrite Hth].
    match goal with |- context [gs_remove_with_marker ?i ?x] =>
      destruct (remove_same i x) as (_ & _ & Hth' & _); rewrite Hth' end. wcbn. by rewrite Hth.
  - exact IH.
Qed.

(** *** Markers *)

(** Every marker beside a segment of this process is what its cleanup wrote
    (whole, or the part a failed write left). *)
Definition marked (w : world) : Prop :=
  ∀ i text, w_marks w !! i = Some text →
    i < next_segment (w_table w) ∧
    ∀ st, w_syncs w !! i = Some st →
      cleaned st = true ∧ is_u64 (synced_len st) ∧
      ∃ k nx, is_u64 nx ∧ text = take k (poison_text (synced_len st) nx).

Definition marks_sub (w w' : world) : Prop :=
  ∀ i text, w_marks w' !! i = Some text → w_marks w !! i = Some text.

Lemma marked_evol w w' :
  marked w → marks_sub w w' → next_segment (w_table w) ≤ next_segment (w_table w') →
  (∀ i st', w_syncs w' !! i = Some st' →
     next_segment (w_table w) ≤ i ∨
     ∃ st, w_syncs w !! i = Some st ∧ (cleaned st = true → cleaned st' = true ∧ synced_len st' = synced_len st)) →
  marked w'.
Proof.
  intros Hm Hsub Hns Hev i text Ht. apply Hsub, Hm in Ht as [Hi Hst]. split; [lia|].
  intros st' [?|(st & Hs & Hc)]%Hev; [lia|]. destruct (Hst st Hs) as (Hcl & Hu & k & nx & Hnx & ->).
  destruct (Hc Hcl) as [-> ->]. split; [done|]. split; [done|]. by exists k, nx.
Qed.

Lemma remove_marks i w : marks_sub w (fst (gs_remove_with_marker i w)).
Proof.
  destruct (remove_with_marker_shape i w) as (fs & ms & io & r & -> & Hms & _). intros j text.
  simpl. destruct Hms as [ -> | -> ]; [done|].
  destruct (decide (j = i)) as [->|]; [by rewrite lookup_delete_eq|by rewrite lookup_delete_ne].
Qed.

Lemma seal_active_marks w : marks_sub w (seal_active w) ∧
  next_segment (w_table (seal_active w)) = next_segment (w_table w).
Proof.
  unfold seal_active. destruct (active (w_table w)) as [a|]; [|by split; [intros ?|]].
  destruct (0 <? a_max_seq a); [by split; [intros ?|]|]. split; [apply (remove_marks (a_id a) (set_table w (set_active (w_table w) None)))|].
  destruct (remove_same (a_id a) (set_table w (set_active (w_table w) None))) as (-> & _). done.
Qed.

Lemma same_but_io_marks w w' : w_marks w' = w_marks w → marks_sub w w'.
Proof. intros E i text. by rewrite E. Qed.

Lemma clean_disk_marks i l sq w :
  next_segment (w_table (clean_disk i l sq w)) = next_segment (w_table w) ∧
  ∀ j text, w_marks (clean_disk i l sq w) !! j = Some text →
    w_marks w !! j = Some text ∨
    j = i ∧ ∃ k, text = take k (poison_text l (next_seq (w_table w))).
Proof.
  unfold clean_disk. destruct (active (w_table w)) as [a|]; [|auto].
  destruct (negb _); [auto|]. set (w1 := set_table w _).
  assert (∀ w2 r, roll_back_segment i l w1 = (w2, r) → w_marks w2 = w_marks w ∧ w_table w2 = w_table w1) as Hrb.
  { intros w2 r. unfold roll_back_segment, st_bind, gs_set_len, gs_sync_data.
    destruct (sys _ _ w1) as [w2' r2] eqn:E2.
    apply sys_shape in E2 as (io2 & [[-> ->]|(e2 & k2 & -> & ->)]); [|by intros [= <- <-]].
    intros E3. by apply sys_shape in E3 as (io3 & [[-> ->]|(e3 & k3 & -> & ->)]). }
  destruct (roll_back_segment i l w1) as [w2 r2]. destruct (Hrb w2 r2 eq_refl) as [Hm2 Ht2].
  set (w3 := match r2 with Ok _ => w2 | Err _ => _ end).
  assert (w_table w3 = w_table w1 ∧ ∀ j text, w_marks w3 !! j = Some text →
    w_marks w !! j = Some text ∨ j = i ∧ ∃ k, text = take k (poison_text l (next_seq (w_table w)))) as [Ht3 Hm3].
  { unfold w3. destruct r2; [rewrite Hm2; auto|]. unfold gs_write_marker. destruct (sys _ _ w2) as [w4 r4] eqn:E4.
    assert (next_seq (w_table w2) = next_seq (w_table w)) as Hnx by by rewrite Ht2.
    apply sys_shape in E4 as (io4 & [[-> ->]|(e4 & k4 & -> & ->)]); simpl; (split; [done|]);
      intros j text; (destruct (decide (j = i)) as [->|];
        [rewrite lookup_insert_eq; intros [= <-]; right; split; [done|]
        |rewrite lookup_insert_ne by done; rewrite Hm2; auto]).
    - rewrite Hnx. exists (length (poison_text l (next_seq (w_table w)))). by rewrite take_ge.
    - rewrite Hnx. by eexists. }
  clearbody w3. destruct (0 <? l); [split; [wcbn; by rewrite Ht3|done]|].
  destruct (remove_same i w3) as (-> & _). split; [by rewrite Ht3|].
  intros j text Hj%remove_marks. by apply Hm3.
Qed.

Lemma thread_step_marked k w w' :
  Inv w → room w → marked w → thread_step k w = Some w' → marked w'.
Proof.
  intros Hinv (Hu & _ & Hu') Hm. unfold thread_step. destruct (w_threads w !! k) as [t|] eqn:Hk; [|done].
  cbn [mbind option_bind]. destruct (w_syncs w !! t_seg t) as [st|] eqn:Hst; [|done].
  cbn [mbind option_bind].
  assert (∀ w0, w_marks w0 = w_marks w → w_table w0 = w_table w → w_syncs w0 = w_syncs w → marked w0) as Hsame.
  { intros w0 E1 E2 E3. apply (marked_evol w); [done|by apply same_but_io_marks|by rewrite E2|].
    rewrite E3. intros i st' Hi. right. by exists st'. }
  assert (∀ w0 st', w_marks w0 = w_marks w → w_table w0 = w_table w → w_syncs w0 = <[t_seg t := st']> (w_syncs w) →
    (cleaned st = true → cleaned st' = true ∧ synced_len st' = synced_len st) → marked w0) as Hone.
  { intros w0 st' E1 E2 E3 Hc. apply (marked_evol w); [done|by apply same_but_io_marks|by rewrite E2|].
    rewrite E3. intros i st0. destruct (decide (i = t_seg t)) as [->|].
    - rewrite lookup_insert_eq. intros [= <-]. right. by exists st.
    - rewrite lookup_insert_ne by done. intros Hi. right. by exists st0. }
  destruct (t_pc t) as [|tl ts|why|why| |b] eqn:Epc; [| | | | |done].
  - destruct (wait_turn st (t_end t)); [| | |done]; intros [= <-].
    + by apply Hsame.
    + destruct (inv_seal_active w Hinv) as (_ & _ & Hs & _). destruct (seal_active_marks w) as [Hsm Hsn].
      destruct (t_job t); [by apply Hsame|..];
        (apply (marked_evol w); [done|done|wcbn; unfold finish; wcbn; by rewrite Hsn|];
         unfold finish; wcbn; rewrite Hs; intros i st' Hi; right; by exists st').
    + by apply (Hone _ (with_syncing st true)).
  - intros [= <-]. destruct (sync_completed_frame st tl ts (match w_io w with IoFail _ :: _ => false | _ => true end)) as (_ & Hc & _ & Hfin & _).
    eapply Hone; [done..|]. intros Hcl. split; [by rewrite Hc|by apply Hfin].
  - destruct (w_lock w); [done|]. intros [= <-]. by apply Hsame.
  - intros [= <-]. unfold clean_enter. destruct (cleaned st) eqn:Ec; [by apply Hsame|].
    eapply Hone; [done..|]. congruence.
  - destruct (syncing st) eqn:Hsy; [done|]. intros [= <-]. destruct (cleaned st) eqn:Ec; [by apply Hsame|].
    destruct (i_thr w Hinv k t Hk) as (st0 & f & Hst0 & _ & Hthr). rewrite Hst in Hst0. injection Hst0 as <-.
    unfold thr_ok in Hthr. rewrite Epc in Hthr.
    destruct (inv_clean_disk w (t_seg t) st Hinv Hst Hthr Hsy Ec) as (_ & _ & _ & Hs & _).
    destruct (clean_disk_marks (t_seg t) (synced_len st) (synced_seq st) (set_sync w (t_seg t) (with_cleaned st))) as [Hns Hmk].
    intros i text Hi. unfold finish in Hi |- *. cbn [set_lock set_thread set_threads w_marks w_table w_syncs] in Hi |- *.
    rewrite Hns, Hs. apply Hmk in Hi as [Hi|(-> & kk & ->)].
    + destruct (Hm i text Hi) as [Hlt Hm']. split; [done|]. intros st'.
      destruct (decide (i = t_seg t)) as [->|].
      * destruct (Hm' st Hst). congruence.
      * rewrite lookup_insert_ne by done. apply Hm'.
    + split; [by eapply (i_seg w Hinv)|]. rewrite lookup_insert_eq. intros st' [= <-].
      split; [done|]. destruct (i_seg w Hinv _ _ Hst) as (_ & f' & Hf' & Hso). specialize (Hu' _ _ Hf').
      pose proof (so_durable _ _ _ _ Hso). pose proof (so_len _ _ _ _ Hso). simpl.
      unfold u64_max, u32_max, u64_modulus in *. split; [lia|].
      exists kk, (next_seq (w_table w)). split; [lia|done].
Qed.

Lemma rollback_marks i n w : w_marks (fst (roll_back_segment i n w)) = w_marks w ∧
  w_table (fst (roll_back_segment i n w)) = w_table w ∧ w_syncs (fst (roll_back_segment i n w)) = w_syncs w.
Proof.
  unfold roll_back_segment, st_bind, gs_set_len, gs_sync_data.
  destruct (sys _ _ w) as [w1 r1] eqn:E1. apply sys_shape in E1 as (io1 & [[-> ->]|(e & k & -> & ->)]); [|done].
  destruct (sys _ _ _) as [w2 r2] eqn:E2. by apply sys_shape in E2 as (io2 & [[-> ->]|(e & k & -> & ->)]).
Qed.

Lemma ensure_active_marked w w' r :
  Inv w → next_segment (w_table w) < u64_max → ensure_active w = (w', r) → marked w → marked w'.
Proof.
  intros Hinv Hroom He Hm.
  assert (∀ w0, w_marks w0 = w_marks w → w_table w0 = w_table w → w_syncs w0 = w_syncs w → marked w0) as Hsame.
  { intros w0 E1 E2 E3. apply (marked_evol w); [done|by apply same_but_io_marks|by rewrite E2|].
    rewrite E3. intros i st' Hi. right. by exists st'. }
  unfold ensure_active in He. destruct (active (w_table w)) as [a|]; [by injection He as <- <-|].
  unfold st_bind, gs_create_new in He. destruct (linked w _); [by injection He as <- <-|].
  destruct (sys _ _ w) as [w1 r1] eqn:E1.
  apply sys_shape in E1 as (io1 & [[-> ->]|(e1 & k1 & -> & ->)]); [|injection He as <- <-; by apply Hsame].
  destruct (gs_sync_dir _) as [w2 r2] eqn:E2.
  apply sys_shape in E2 as (io2 & [[-> ->]|(e2 & k2 & -> & ->)]); [|injection He as <- <-; by apply Hsame].
  injection He as <- <-. apply (marked_evol w); [done|by apply same_but_io_marks|..].
  - simpl. rewrite wadd_small; unfold u64_max, u64_modulus in *; lia.
  - intros i st'. simpl. destruct (decide (i = next_segment (w_table w))) as [->|].
    + intros _. left. lia.
    + rewrite lookup_insert_ne by done. intros Hi. right. by exists st'.
Qed.

Lemma append_marked kind (batches : list RecordBatch) w :
  Inv w → next_segment (w_table w) < u64_max → marked w →
  marked (fst (append_staged crc32 kind batches w)).
Proof.
  intros Hinv Hr2 Hm. unfold append_staged, st_bind.
  destruct (ensure_active w) as [w1 r1] eqn:E1. pose proof (ensure_active_marked _ _ _ Hinv Hr2 E1 Hm) as Hm1.
  destruct r1 as [a|e]; [|done]. clear dependent w. rename w1 into w, Hm1 into Hm.
  destruct (encode_frame crc32 (next_seq (w_table w)) kind batches) as [fr|e] eqn:Ee; [|done].
  assert (∀ w0, w_marks w0 = w_marks w → next_segment (w_table w0) = next_segment (w_table w) →
    (∀ i st', w_syncs w0 !! i = Some st' → ∃ st, w_syncs w !! i = Some st ∧
      cleaned st' = cleaned st ∧ synced_len st' = synced_len st) → marked w0) as Hsame.
  { intros w0 E1 E2 E3. apply (marked_evol w); [done|by apply same_but_io_marks|by rewrite E2|].
    intros i st' (st & Hst & Hc & Hs)%E3. right. exists st. rewrite Hc, Hs. done. }
  assert (∀ w0, w_marks w0 = w_marks w → w_table w0 = w_table w → w_syncs w0 = w_syncs w → marked w0) as Heq.
  { intros w0 E1 E2 E3. apply Hsame; [done|by rewrite E2|]. rewrite E3. eauto. }
  destruct (gs_write (a_id a) fr w) as [w1 r1] eqn:E1.
  apply sys_shape in E1 as (io1 & [[-> ->]|(e & k & -> & ->)]); wcbn.
  - destruct (w_syncs w !! a_id a) as [st|] eqn:Est; [|by apply Heq]. cbn [fst].
    apply Hsame; [done|done|]. wcbn. intros i st'. destruct (decide (i = a_id a)) as [->|].
    + rewrite lookup_insert_eq. intros [= <-]. by exists st.
    + rewrite lookup_insert_ne by done. eauto.
  - match goal with |- context [roll_back_segment _ _ ?x] => set (w1 := x) end.
    destruct (rollback_marks (a_id a) (a_good_len a) w1) as (Hb1 & Hb2 & Hb3).
    destruct (roll_back_segment (a_id a) (a_good_len a) w1) as [w2 r2]. cbn [fst] in Hb1, Hb2, Hb3.
    destruct r2; [by apply Heq|].
    assert (∀ w3 r3, match gs_open_write (a_id a) w2 with
      | (s', Ok _) => roll_back_segment (a_id a) (a_good_len a) s' | (s', Err e) => (s', Err e) end = (w3, r3) →
      w_marks w3 = w_marks w ∧ w_table w3 = w_table w ∧ w_syncs w3 = w_syncs w) as Hrb2.
    { intros w3 r3. unfold gs_open_write. destruct (linked w2 (a_id a)); [|by intros [= <- _]].
      destruct (sys _ _ w2) as [w3' r3'] eqn:E3.
      apply sys_shape in E3 as (io3 & [[-> ->]|(e3 & k3 & -> & ->)]); [|by intros [= <- _]].
      intros E4. destruct (rollback_marks (a_id a) (a_good_len a) (id (set_io w2 io3))) as (Hc1 & Hc2 & Hc3).
      rewrite E4 in Hc1, Hc2, Hc3. cbn [fst] in Hc1, Hc2, Hc3. by rewrite Hc1, Hc2, Hc3. }
    destruct (match gs_open_write (a_id a) w2 with
      | (s', Ok _) => roll_back_segment (a_id a) (a_good_len a) s' | (s', Err e) => (s', Err e) end) as [w3 r3] eqn:E3.
    destruct (Hrb2 w3 r3 eq_refl) as (Hd1 & Hd2 & Hd3).
    destruct r3; [by apply Heq|]. destruct (w_syncs w3 !! a_id a) as [st|] eqn:Est; [|by apply Heq]. cbn [fst].
    apply Hsame; wcbn; [done|by rewrite Hd2|]. intros i st'. rewrite Hd3 in *.
    destruct (decide (i = a_id a)) as [->|].
    + rewrite lookup_insert_eq. intros [= <-]. exists st. split; [done|]. by destruct (failed st).
    + rewrite lookup_insert_ne by done. eauto.
Qed.

Lemma retain_marks upto l w :
  marks_sub w (fst (retain_uncovered upto l w)) ∧ same_mem w (fst (retain_uncovered upto l w)).
Proof.
  revert w. induction l as [|s l IH]; intros w; cbn [retain_uncovered]; [by split; [intros ?|]|].
  destruct (_ <? _).
  - specialize (IH w). by destruct (retain_uncovered upto l w).
  - pose proof (remove_marks (ss_id s) w) as Hr. pose proof (remove_same (ss_id s) w) as Hs.
    destruct (gs_remove_with_marker (ss_id s) w) as [w1 r1]. destruct (IH w1) as [H1 H2].
    destruct (retain_uncovered upto l w1) as [w2 kept]. simpl in *. split.
    + intros i text Hi. by apply Hr, H1.
    + unfold same_mem in *. naive_solver congruence.
Qed.

Lemma run_marked w w' :
  booted w → (∀ i text, w_marks w !! i = Some text → i < next_segment (w_table w)) →
  run crc32 w w' → marked w'.
Proof.
  intros Hb Hbm Hrun. induction Hrun as [w|w w1 w2 a io Hr IH Hroom He].
  { destruct Hb as (_ & Hs & _). intros i text Ht. split; [by eapply Hbm|]. by rewrite Hs. }
  specialize (IH Hb Hbm). pose proof (run_inv _ w w1 Hb Hr) as Hinv. apply (inv_io w1 io) in Hinv.
  assert (marked (set_io w1 io)) as Hm by exact IH.
  pose proof Hroom as (Hr1 & Hr2 & _). unfold exec in He. cbn [w_lock set_io] in He.
  destruct a as [kind batches| |upto|floor|k];
    [..|by eapply thread_step_marked; [exact Hinv|exact Hroom|exact Hm|exact He]];
    destruct (w_lock w1); try done; injection He as <-.
  - by apply append_marked.
  - unfold rotate. cbn [w_table set_io]. destruct (active (w_table w1)) as [a|]; [|done].
    destruct (_ =? 0).
    { cbn [fst]. destruct (inv_seal_active _ Hinv) as (_ & _ & Hs & _).
      destruct (seal_active_marks (set_io w1 io)) as [Hsm Hsn].
      apply (marked_evol (set_io w1 io)); [done|done|by rewrite Hsn|]. rewrite Hs. eauto. }
    cbn [w_syncs set_io]. by destruct (w_syncs w1 !! a_id a).
  - unfold truncate. set (w0 := set_covered _ _).
    destruct (retain_marks upto (sealed (w_table w0)) w0) as [H1 (H2 & H3 & _)].
    destruct (retain_uncovered upto (sealed (w_table w0)) w0) as [w3 kept]. cbn [fst] in H1, H2, H3.
    assert (∀ w4, marks_sub w3 w4 → next_segment (w_table w4) = next_segment (w_table w3) →
      w_syncs w4 = w_syncs w3 → marked w4) as Hgo.
    { intros w4 E1 E2 E3. apply (marked_evol (set_io w1 io)); [done| |rewrite E2, H2; simpl; lia|].
      - intros i text Hi. by apply E1, H1 in Hi.
      - rewrite E3, H3. eauto. }
    wcbn. destruct (active (w_table w3)) as [a|]; [|apply Hgo; [by intros ?|done..]].
    destruct (_ && _); cbn [fst]; [|apply Hgo; [by intros ?|done..]].
    match goal with |- context [gs_remove_with_marker ?i ?x] =>
      destruct (remove_same i x) as (E1 & E2 & _); pose proof (remove_marks i x) end.
    apply Hgo; [done|by rewrite E1|by rewrite E2].
  - done.
Qed.

(** *** Frames of a segment, decoded *)

Lemma encode_frame_inj seq (op1 op2 : TailOp RecordBatch) fr :
  is_u64 seq →
  encode_frame crc32 seq (op_kind op1) (op_batches op1) = Ok fr →
  encode_frame crc32 seq (op_kind op2) (op_batches op2) = Ok fr → op1 = op2.
Proof.
  intros Hs H1 H2.
  destruct (encode_frame_payload crc32 _ _ _ _ Hs H1) as (o1 & p1 & Hk1 & Hb1 & Hp1 & ->).
  destruct (encode_frame_payload crc32 _ _ _ _ Hs H2) as (o2 & p2 & Hk2 & Hb2 & Hp2 & Hf).
  assert (p1 = p2) as ->.
  { apply (f_equal (drop 8)) in Hf. exact Hf. }
  apply decode_payload_encode in Hp1, Hp2. rewrite Hp1 in Hp2. injection Hp2 as ->.
  destruct op1, op2, o2; simpl in *; congruence.
Qed.

Lemma stmts_frames (l : list stmt) :
  (∀ e sq fr, (e, sq, fr) ∈ l →
     is_u64 sq ∧ ∃ kind (batches : list RecordBatch), encode_frame crc32 sq kind batches = Ok fr) →
  ∃ fs pls, holds fs pls ∧ bytes_of l = frames crc32 pls ∧
    ∀ e sq fr (op : TailOp RecordBatch), (e, sq, fr) ∈ l →
      encode_frame crc32 sq (op_kind op) (op_batches op) = Ok fr → (sq, op) ∈ fs.
Proof.
  induction l as [|[[e sq] fr] l IH]; intros Hall.
  { exists [], []. split; [constructor|]. split; [done|]. intros ? ? ? ? Hin. by apply not_elem_of_nil in Hin. }
  destruct IH as (fs & pls & Hh & Hb & Hin); [intros; eapply Hall; by right|].
  destruct (Hall e sq fr) as (Hu & kind & batches & He); [by left|].
  destruct (encode_frame_payload crc32 _ _ _ _ Hu He) as (op & p & Hk & Hba & Hp & ->).
  exists ((sq, op) :: fs), (p :: pls). split_and!.
  - by constructor.
  - unfold bytes_of in *. simpl. by rewrite Hb.
  - intros e' sq' fr' op' [Heq|Hin']%elem_of_cons He'.
    + injection Heq as -> -> ->. apply elem_of_cons. left. f_equal. eapply encode_frame_inj; [done|exact He'|].
      by rewrite Hk, Hba.
    + right. by eapply Hin.
Qed.

(** *** Reading the marker back *)
Lemma digits_utf8 ds rest :
  Forall (λ b, 48 ≤ Byte.to_N b ≤ 57) ds → utf8_valid (ds ++ rest) = utf8_valid rest.
Proof.
  induction 1 as [|b ds Hb Hds IH]; [done|]. cbn [app utf8_valid]. unfold byte_in at 1.
  rewrite (proj2 (N.leb_le 0 _)), (proj2 (N.leb_le _ 127)) by lia. exact IH.
Qed.

Lemma read_poison_text a b :
  is_u64 a → is_u64 b →
  read_poison_marker (Some (poison_text a b)) = Some {| pm_clamp := a; pm_resume_seq := Some b |}.
Proof.
  intros Ha Hb. destruct (print_u64_digits a Ha) as (Da & Na & _), (print_u64_digits b Hb) as (Db & Nb & _).
  unfold read_poison_marker, poison_text. cbn [mbind option_bind].
  rewrite digits_utf8 by done.
  assert (utf8_valid (Byte.x20 :: print_u64 b) = true) as ->.
  { cbn [utf8_valid]. change (byte_in 0 127 Byte.x20) with true. cbn [andb].
    rewrite <-(app_nil_r (print_u64 b)). by rewrite digits_utf8. }
  rewrite words_two by done. by rewrite !parse_print_u64.
Qed.

Lemma poison_text_prefix a b k l nx :
  is_u64 a → is_u64 l → poison_text a b = take k (poison_text l nx) → a = l.
Proof.
  intros Ha Hl Hp. destruct (print_u64_digits a Ha) as (Da & _ & _), (print_u64_digits l Hl) as (Dl & _ & _).
  assert (poison_text l nx = poison_text a b ++ drop k (poison_text l nx)) as E
    by (rewrite Hp; by rewrite take_drop).
  unfold poison_text at 1 2 in E. rewrite <-app_assoc in E.
  apply (f_equal (λ x, fst (span_word x))) in E. cbn [app] in E.
  rewrite !span_digits in E by done. simpl in E.
  apply (f_equal parse_u64) in E. rewrite !parse_print_u64 in E by done. congruence.
Qed.

(** ** Properties *)

Lemma take_prefix_le {A} (n m : nat) (l c : list A) :
  (n ≤ m)%nat → take m l `prefix_of` c → ∃ rest, c = take n l ++ rest.
Proof.
  intros Hle [rest ->]. exists (drop n (take m l) ++ rest).
  rewrite app_assoc. f_equal. rewrite <-(take_drop n (take m l)) at 1. by rewrite take_take, Nat.min_l.
Qed.

(** What is durable of a segment are whole frames, the acked ones among them. *)
Lemma durable_frames w i st :
  Inv w → (∀ u, u ∈ w_threads w → encoded u) → is_u64 (next_seq (w_table w)) →
  w_syncs w !! i = Some st →
  ∃ f fs pls, w_files w !! i = Some f ∧ holds fs pls ∧
    take (N.to_nat (synced_len st)) (f_data f) = frames crc32 pls ∧
    len (frames crc32 pls) = synced_len st ∧ (N.to_nat (synced_len st) ≤ f_durable f)%nat ∧
    ∀ e sq fr (op : TailOp RecordBatch), (e, sq, fr) ∈ stmts i (w_threads w) → e ≤ synced_len st →
      encode_frame crc32 sq (op_kind op) (op_batches op) = Ok fr → (sq, op) ∈ fs.
Proof.
  intros Hinv Henc Hu Hst. destruct (i_seg w Hinv i st Hst) as (_ & f & Hf & Hso).
  destruct (so_synced _ _ _ _ Hso) as [(k & Hk & Hb) _].
  destruct (stmts_frames (take k (stmts i (w_threads w)))) as (fs & pls & Hh & Hbytes & Hin).
  { intros e sq fr Hin.
    assert ((e, sq, fr) ∈ stmts i (w_threads w)) as Hin'.
    { rewrite <-(take_drop k (stmts i (w_threads w))). apply elem_of_app. by left. }
    split.
    - apply stmts_seq, (i_next w Hinv) in Hin'. lia.
    - apply list_elem_of_omap in Hin' as (t & Ht & Hs). unfold stmt_of in Hs.
      destruct (decide _); [|done]. destruct (t_job t) eqn:Ej; [|done..]. injection Hs as <- -> ->.
      by eapply Henc. }
  exists f, fs, pls. rewrite <-Hbytes, <-Hb. split_and!; try done.
  - pose proof (so_data _ _ _ _ Hso) as Hd. destruct (bytes_of_take_prefix (stmts i (w_threads w)) k) as [rest Hrest].
    assert (take (N.to_nat (synced_len st)) (bytes_of (stmts i (w_threads w))) =
      bytes_of (take k (stmts i (w_threads w)))) as Ht.
    { rewrite Hrest, Hb, Nat2N.id. apply take_app_length. }
    destruct (cleaned st); [by rewrite Hd|]. rewrite <-Hd, take_take in Ht. rewrite Nat.min_l in Ht; [done|].
    pose proof (boundary_le _ _ _ (so_synced _ _ _ _ Hso)). pose proof (so_written _ _ _ _ Hso). lia.
  - apply Hso.
  - intros e sq fr op He Hle. apply Hin with e.
    rewrite <-(take_drop k (stmts i (w_threads w))) in He. apply elem_of_app in He as [He|He]; [done|].
    exfalso. pose proof (so_laid _ _ _ _ Hso) as Hl. rewrite <-(take_drop k (stmts i (w_threads w))) in Hl.
    apply laid_app in Hl as [_ Hl]. eapply laid_bounds in He; [|exact Hl]. lia.
Qed.


(** C17: sequence numbers are consumed once and for all: in every reachable state
    the staged statements, those that failed included, carry strictly increasing
    sequences from 1 on, all below the next one; so no statement ever reuses the
    sequence of a burned one. *)
Theorem sequences_never_reused w0 w :
  booted w0 → run crc32 w0 w →
  StronglySorted N.lt (seqs (w_threads w)) ∧
  (∀ q, q ∈ seqs (w_threads w) → 1 ≤ q < next_seq (w_table w)) ∧
  ∀ j k t u q fr fr', w_threads w !! j = Some t → w_threads w !! k = Some u →
    t_job t = Statement q fr → t_job u = Statement q fr' → j = k.
Proof.
  intros Hb Hrun. pose proof (run_inv _ w0 w Hb Hrun) as Hinv. pose proof (i_order w Hinv) as Ho.
  split; [done|]. split; [apply Hinv|].
  assert (∀ ts j k (t u : thread) q fr fr', StronglySorted N.lt (seqs ts) → (j < k)%nat →
    ts !! j = Some t → ts !! k = Some u → t_job t = Statement q fr → t_job u = Statement q fr' → False) as Hlt.
  { clear. induction ts as [|x ts IH]; intros j k t u q fr fr' Hs Hjk Hj Hk Ht Hu; [done|].
    destruct k as [|k]; [lia|]. simpl in Hk. unfold seqs in Hs. cbn [omap list_omap] in Hs.
    destruct j as [|j].
    - simpl in Hj. injection Hj as ->. unfold job_seq in Hs at 1. rewrite Ht in Hs.
      apply StronglySorted_inv in Hs as [_ Hs]. rewrite Forall_forall in Hs.
      assert (q < q); [|lia]. apply Hs. apply list_elem_of_omap. exists u.
      split; [by eapply list_elem_of_lookup_2|]. unfold job_seq. by rewrite Hu.
    - simpl in Hj. eapply (IH j k); try done; [|lia].
      destruct (job_seq x); [|done]. by apply StronglySorted_inv in Hs as [? _]. }
  intros j k t u q fr fr' Hj Hk Ht Hu. destruct (Nat.lt_trichotomy j k) as [H1|[H1|H1]]; [|done|].
  - exfalso. by eapply (Hlt (w_threads w) j k).
  - exfalso. by eapply (Hlt (w_threads w) k j).
Qed.
End Replay.
