(* ===== verification/Scenarios.v ===== *)
(** * Concrete runs: the storage and the acceptor

    Each theorem of the acceptor's layers applied to a concrete input, over a
    small checksum, an in-memory control store (as the unit tests of acceptor.rs
    have) and the file-backed wal on an empty directory. *)
From stdpp Require Import sorting.
From Stdlib Require Import Sorting.Sorted.
From S2P Require Import Prelude Text Segment Json Proto Acceptor Control SegmentWal WalRecovery.
#[local] Open Scope N_scope.

(** ** The environment *)
Definition crc0 (bs : list byte) : N := foldl (λ a b, 31 * a + Byte.to_N b + 7) 1 bs mod u32_modulus.
Lemma crc0_u32 bs : is_u32 (crc0 bs).
Proof. apply N.mod_lt. done. Qed.

(** [MemControl] of the tests. *)
Definition mem : Type := option PersistentState.
#[export] Instance mem_control : ControlStore mem := {
  ctrl_persist s := λ _, (Some s, Ok tt);
  ctrl_ok _ := True;
  may_load c o := o = c;
}.
#[export] Instance mem_control_laws : ControlLaws mem.
Proof. split; simpl; [|done]. intros c c' s _ _ [= <-]. split; [done|]. by intros o ->. Qed.

Definition no_disk : wdisk := {| wd_files := ∅; wd_synced := ∅; wd_names := ∅; wd_io := [] |}.
Definition wal0 : SegmentWal := {|
  sw_disk := no_disk;
  sw_sealed := []; sw_active := None; sw_flush := 0; sw_empty := true;
  sw_rotate_bytes := SEGMENT_ROTATE_BYTES; sw_wedged := false |}.

Example wal0_opened : wal_open crc0 no_disk = (sw_disk wal0, Ok wal0).
Proof. reflexivity. Qed.

Lemma wal0_inv : wal_inv wal0.
Proof. split_and!; [constructor|constructor|done|done|done]. Qed.

Lemma wal0_whole : whole crc0 wal0.
Proof.
  split; [apply wal0_inv|]. split; [done|]. split; [by exists 0|]. split; [|done].
  intros s Hs. by apply not_elem_of_nil in Hs.
Qed.

Definition rec1 : Record_ :=
  {| r_lsn := 0; r_kind := RECORD_FRAME; r_table_key := "n.t"; r_seq := 1; r_body := [Byte.x2a] |}.
Definition bytes1 : list byte := record_frame crc0 rec1.

(** Greeted, voted in term 1, elected from position 0; then one append. *)
Definition acc0 : Acceptor mem SegmentWal := acceptor_new (ps_new 1) None wal0.
Definition th1 : TermHistory := [{| term := 1; lsn := 0 |}].
Definition acc1 : Acceptor mem SegmentWal :=
  fst (serve_all crc0 [Greeting (Some "tail"); VoteRequest 1; Elected 1 0 th1] acc0).
Definition append1 : Message := Append 1 0 (len bytes1) 0 0 bytes1.
Definition acc2 : Acceptor mem SegmentWal := fst (process crc0 append1 acc1).

Lemma acc1_inv : acc_inv acc1.
Proof. change (acc_inv acc1) with (wal_inv wal0 ∧ 0 ≤ 0 ∧ (true = true → 0 = 0)). split; [apply wal0_inv|done]. Qed.

Lemma append1_fits : msg_fits acc1 append1.
Proof.
  split; [by vm_compute|]. intros _. left. by vm_compute.
Qed.

(** ** Witnesses *)

Lemma scan_torn_tail_witness :
  let r := scan_frame_bytes crc0 (frames crc0 [[Byte.x01]] ++ take 3 (frame crc0 [Byte.x02])) in
  payloads r = [(8, 9)]%nat ∧ good_end r = 9%nat ∧ is_Some (bad r).
Proof.
  apply (scan_torn_tail crc0 crc0_u32 [[Byte.x01]] [Byte.x02] 3).
  - repeat constructor. by vm_compute.
  - by vm_compute.
  - split; vm_compute; lia.
Defined.

Import AtomicWrite.
Definition world0 : world :=
  {| dsk := {| inodes := ∅; names := ∅; synced := ∅; pending := [] |}; hist := []; io := [] |}.

Lemma write_atomic_crash_atomic_witness :
  (∃ h, hist (fst (write_atomic "f" [Byte.x01] world0)) = [] ++ h ∧
     ∀ d x, d ∈ h ++ [dsk (fst (write_atomic "f" [Byte.x01] world0))] →
       crash_read d "f" x → x = None ∨ x = Some [Byte.x01]) ∧
  ∀ x, crash_read (dsk (fst (write_atomic "f" [Byte.x01] world0))) "f" x → x = Some [Byte.x01].
Proof.
  destruct (write_atomic_crash_atomic "f" [Byte.x01] None world0
    (fst (write_atomic "f" [Byte.x01] world0)) (Ok tt)) as [H1 H2].
  - split; [done|]. split; [intros e He; by apply not_elem_of_nil in He|].
    split; [|done]. intros n i _ Hn.
    change (names (dsk world0)) with (∅ : gmap string nat) in Hn. by rewrite lookup_empty in Hn.
  - by vm_compute.
  - split; [exact H1|]. by apply H2.
Defined.

(** Term 2 took over at 5; the acceptor kept writing in term 1 up to 8. *)
Lemma fhcp_divergence_point_witness :
  let p := [{| term := 1; lsn := 0 |}; {| term := 2; lsn := 5 |}] in
  (∀ x, x < 5 → up_to p x = up_to th1 x) ∧ (5 = 8 ∨ up_to p 5 ≠ up_to th1 5).
Proof.
  cbv zeta. destruct (fhcp_divergence_point
    [{| term := 1; lsn := 0 |}; {| term := 2; lsn := 5 |}] th1 8 2 {| term := 1; lsn := 5 |})
    as (_ & H1 & H2).
  - split; [repeat constructor; by vm_compute|]. split; [repeat constructor|].
    split; [by exists 5|]. split; intros e ->%list_elem_of_singleton; by vm_compute.
  - by vm_compute.
  - split; [exact H1|exact H2].
Defined.

Lemma decode_records_exact_witness : decode_records crc0 bytes1 0 = Ok [rec1].
Proof.
  apply (decode_records_exact crc0 crc0_u32). exists [bytes1]. split; [by vm_compute|].
  split; [repeat constructor; (by left) || by vm_compute|]. split; [by vm_compute|].
  repeat constructor; by vm_compute.
Defined.

Import JsonTree.
Lemma message_roundtrip_witness :
  ∃ bytes, message_encode crc0 (V:=jtree) append1 = Ok bytes ∧
    read_message crc0 (V:=jtree) (bytes ++ [Byte.x00]) = Ok (append1, [Byte.x00]).
Proof.
  assert (∃ bytes, message_encode crc0 (V:=jtree) append1 = Ok bytes) as [bytes Hb]
    by (vm_compute; by eexists).
  exists bytes. split; [exact Hb|]. apply (message_roundtrip crc0 crc0_u32 append1 bytes [Byte.x00]).
  - by vm_compute.
  - exact Hb.
Defined.

Lemma process_committed_stable_witness : acc_inv acc2 ∧ grows acc1 acc2.
Proof.
  apply (process_committed_stable crc0 append1 acc1 acc2 (snd (process crc0 append1 acc1))).
  - exact acc1_inv.
  - exact append1_fits.
  - by vm_compute.
Defined.


Lemma stale_term_fenced_witness :
  process crc0 (Append 0 0 4 0 0 []) acc1 = (acc1, AppendResp 1 false 0 0).
Proof.
  apply (stale_term_fenced crc0 acc1 0 0 [] 0 4 0 0 []).
  - reflexivity.
  - by vm_compute.
Defined.

Lemma acc2_wal_inv : wal_inv (wal acc2).
Proof.
  split; [vm_compute; repeat constructor|]. split; [vm_compute; repeat constructor|].
  split; [|split; [by vm_compute|by vm_compute]]. intros s Hs. vm_compute in Hs. injection Hs as <-.
  split; [by vm_compute|]. split; [by vm_compute|]. intros _. eexists. split; by vm_compute.
Qed.

Lemma acc2_inv : acc_inv acc2.
Proof. split; [apply acc2_wal_inv|]. split; by vm_compute. Qed.

Lemma read_exact_bytes_witness :
  len (slice 0 5 bytes1) = 5 ∧
  ∀ i, (i < 5)%nat → slice 0 5 bytes1 !! i = held (wal acc2) (0 + N.of_nat i).
Proof.
  destruct (read_exact_bytes crc0 0 5 acc2 acc2 0 (slice 0 5 bytes1)) as (_ & _ & _ & H).
  - exact acc2_inv.
  - by vm_compute.
  - by vm_compute.
  - split; [by vm_compute|exact H].
Defined.

(** Term 2 truncates the acceptor back to position 0. *)
Lemma elected_ack_adopts_witness :
  let th := [{| term := 2; lsn := 0 |}] in
  flush_lsn (wal (fst (process crc0 (Elected 2 0 th) acc2))) = 0 ∧
  ∀ p, 0 ≤ p → held (wal (fst (process crc0 (Elected 2 0 th) acc2))) p = None.
Proof.
  cbv zeta. destruct (elected_ack_adopts crc0 2 0 [{| term := 2; lsn := 0 |}] acc2
    (fst (process crc0 (Elected 2 0 [{| term := 2; lsn := 0 |}]) acc2)) 2)
    as (_ & _ & _ & _ & Hf & _ & Hg & _).
  - exact acc2_inv.
  - repeat constructor.
  - by exists 0.
  - assert (ps_term_history (state acc2) = th1) as -> by (vm_compute; reflexivity).
    repeat constructor.
  - intros e He. vm_compute in He. apply list_elem_of_singleton in He as ->. by vm_compute.
  - by vm_compute.
  - split; [exact Hf|exact Hg].
Defined.

Lemma wf_voted t : is_u64 t → wf_state (with_term (ps_new 1) t).
Proof. by intros Ht. Qed.

(** Granted term 1, restarted from the control file, refused in term 1, granted
    term 2. *)
Definition life1 : Acceptor mem SegmentWal :=
  fst (serve_all crc0 [Greeting (Some "tail"); VoteRequest 1] acc0).
Definition life2 : Acceptor mem SegmentWal := acceptor_new (state life1) (ctrl life1) wal0.
Definition life3 : Acceptor mem SegmentWal :=
  fst (serve_all crc0 [VoteRequest 1; VoteRequest 2] life2).
Definition ask (m : Message) (a : Acceptor mem SegmentWal) : Message * Message :=
  (m, snd (process crc0 m a)).
Definition trace1 : list (Message * Message) :=
  let a := acc0 in let b := fst (process crc0 (Greeting (Some "tail")) a) in
  let c := fst (process crc0 (VoteRequest 1) life2) in
  [ask (Greeting (Some "tail")) a; ask (VoteRequest 1) b; ask (VoteRequest 1) life2;
   ask (VoteRequest 2) c].

Lemma votes_unique_identity_permanent_witness :
  StronglySorted N.lt (granted trace1) ∧ granted trace1 = [1; 2].
Proof.
  split; [|vm_compute; reflexivity].
  apply (votes_unique_identity_permanent crc0 1 (ps_new 1) acc0 trace1 life3).
  - assert (ps_le (ps_new 1) (ps_new 1)) as Hle by (split; [done|by left]).
    split; [intros o ->; split; [done|by apply (wf_voted 0)]|]. intros _.
    split; [done|]. split; [done|]. split; [by apply (wf_voted 0)|]. by intros o ->.
  - eapply life_msg; [|by vm_compute|].
    { intros s [= <-]. by vm_compute. }
    eapply life_msg; [by vm_compute|by vm_compute|].
    eapply (life_restart _ _ _ (Some (state life1)) (ctrl life1) wal0 life2);
      [by vm_compute|done|by intros o' ->|by vm_compute|].
    eapply life_msg; [by vm_compute|by vm_compute|].
    eapply life_msg; [by vm_compute|by vm_compute|]. constructor.
Defined.

(** The term is raised from 1 to 2 over the file that holds term 1. *)
Lemma control_file_durable_witness :
  let w := fst (file_persist (V:=jtree) (with_term (ps_new 1) 1) world0) in
  control_settled (fst (file_persist (V:=jtree) (with_term (ps_new 1) 2) w)) ∧
  ∀ o, control_may_load (V:=jtree) (fst (file_persist (V:=jtree) (with_term (ps_new 1) 2) w)) o →
    o = Some (with_term (ps_new 1) 2).
Proof.
  cbv zeta. set (w := fst (file_persist (with_term (ps_new 1) 1) world0)).
  destruct (control_file_durable (V:=jtree) w (fst (file_persist (with_term (ps_new 1) 2) w))
    (with_term (ps_new 1) 2) (Ok tt)) as [_ H].
  - assert (control_settled world0) as H0.
    { split; [split|exists None; split; [done|split; [intros e He; by apply not_elem_of_nil in He|]]].
      - intros n m i Hn. change (names (dsk world0)) with (∅ : gmap string nat) in Hn.
        by rewrite lookup_empty in Hn.
      - intros n i Hn. change (names (dsk world0)) with (∅ : gmap string nat) in Hn.
        by rewrite lookup_empty in Hn.
      - by split. }
    destruct (file_persist_ok (V:=jtree) world0 w (with_term (ps_new 1) 1)) as [Hw _];
      [done|by apply wf_voted|by vm_compute|exact Hw].
  - by apply wf_voted.
  - by vm_compute.
  - by apply H.
Defined.

Definition wal1 : SegmentWal := fst (sw_append 0 bytes1 wal0).
(** The first append of an empty log, then a crash in the middle of the next
    write. *)
Definition torn1 : list byte := bytes1 ++ [Byte.x05; Byte.x00].
Definition disk1 : wdisk :=
  {| wd_files := {[ 0 := torn1 ]}; wd_synced := {[ 0 := length torn1 ]}; wd_names := {[ 0 ]}; wd_io := [] |}.
