(* ===== verification/ScenariosQuorum.v ===== *)
(** * Concrete runs: the proposer

    Three acceptors of the storage scenarios behind a network that always
    answers; the first holds one record of term 1, the others are fresh.  The
    tail is opened over them, streams, and re-elects itself. *)
From stdpp Require Import sorting.
From Stdlib Require Import Sorting.Sorted.
From S2P Require Import Prelude Text Segment Json Proto Acceptor SegmentWal Proposer Election Scenarios.
#[local] Open Scope N_scope.

Definition keepers : Type := list (Acceptor mem SegmentWal).
#[export] Instance keepers_net : Net keepers := {
  net_connect i e := (e, if (i <? length e)%nat then true else false);
  net_call i m e :=
    match e !! i with
    | Some a => let '(a, resp) := process crc0 m a in (<[i := a]> e, Answered resp)
    | None => (e, Broken)
    end;
}.

Definition fresh (n : N) : Acceptor mem SegmentWal := acceptor_new (ps_new n) None wal0.
Definition env0 : keepers := [acc2; fresh 2; fresh 3].

Definition won1 : Won :=
  match snd (run_election "minted" env0) with Ok w => w | Err _ =>
    {| w_tail_id := ""; w_term := 0; w_votes := []; w_donor := 0; w_term_start := 0; w_truncate := 0 |} end.

Lemma election_picks_most_advanced_witness :
  (QUORUM ≤ count_live (w_votes won1))%nat ∧ w_donor won1 = 0%nat ∧ w_term_start won1 = len bytes1 ∧
  w_term won1 = 2.
Proof.
  split; [|by vm_compute].
  eapply (election_picks_most_advanced "minted" env0 (fst (run_election "minted" env0)) won1).
  by vm_compute.
Defined.

Definition sh0 : Shared := {|
  sh_tail_id := ""; sh_election := {| e_term := 0; e_term_start_lsn := 0; e_history := [] |};
  sh_term_tx := 0; sh_log := {| base := 0; head := 0; records := []; covered := ∅; last_wm := ∅ |};
  sh_peers := []; sh_commit := 0; sh_horizon := 0; sh_poison := None; sh_reelect := [] |}.
Definition opened {E A} (r : E * result (Shared * A)) : Shared :=
  match snd r with Ok (sh, _) => sh | Err _ => sh0 end.

(** The recovered record comes down in chunks of 7 bytes. *)
Definition open1 : keepers * result (Shared * list Record_) := open_quorum crc0 "minted" 7 env0.
Definition env1 : keepers := fst open1.
Definition sh1 : Shared := opened open1.


(** The second acceptor is streamed the record; its ack commits it. *)
Definition round1 : keepers * result (Shared * option N) := peer_round 1 (Some 2) sh1 env1.

Definition re1 : keepers * result (Shared * (ReelectError + N)) := reelect sh1 env1.
Lemma reelect_keeps_log_witness :
  sh_log (opened re1) = sh_log sh1 ∧ e_term (sh_election (opened re1)) = 3.
Proof.
  split; [|by vm_compute].
  assert (reelect sh1 env1 = (fst re1, Ok (opened re1, inr 3))) as H by (by vm_compute).
  exact (proj1 (proj2 (reelect_keeps_log sh1 env1 (fst re1) (opened re1) (inr 3) H))).
Defined.


(** ** Records *)
Definition rec2 : Record_ :=
  {| r_lsn := len bytes1; r_kind := RECORD_WATERMARK; r_table_key := "n.t"; r_seq := 1; r_body := [] |}.
Definition bytes2 : list byte := record_frame crc0 rec2.
Definition head2 : N := len bytes1 + len bytes2.

(** A committed statement and its watermark, not covered yet. *)
Definition sh2 : Shared := {|
  sh_tail_id := "tail";
  sh_election := {| e_term := 2; e_term_start_lsn := 0; e_history := [{| term := 2; lsn := 0 |}] |};
  sh_term_tx := 2;
  sh_log := {| base := 0; head := head2; records := [meta_of crc0 rec1; meta_of crc0 rec2];
               covered := ∅; last_wm := {[ "n.t" := (len bytes1, 1) ]} |};
  sh_peers := replicate 3 {| p_flush := head2; p_failed := false |};
  sh_commit := head2; sh_horizon := 0; sh_poison := None; sh_reelect := [] |}.

Lemma recs2_fit : Forall (record_fits crc0) [rec1; rec2].
Proof.
  constructor; [|constructor; [|constructor]]; (split; [|split_and!; by vm_compute]);
    (split; [by vm_compute|split; [|split; by vm_compute]]); [by left|by right].
Qed.

Lemma sh2_log : log_ok crc0 (sh_log sh2) [rec1; rec2].
Proof. split; [done|]. split; [apply recs2_fit|]. split; [by vm_compute|by vm_compute]. Qed.

Lemma sh2_inv : horizon_inv crc0 sh2.
Proof.
  split; [eexists; apply sh2_log|]. split; [split|split].
  - intros t st sq H. change (({[ "n.t" := (len bytes1, 1) ]} : gmap string (N * N)) !! t = Some (st, sq)) in H.
    apply lookup_singleton_Some in H as [<- [= <- <-]].
    exists (meta_of crc0 rec2). split; [right; by left|by split_and!].
  - intros m Hm Hk. exists (len bytes1), 1. apply elem_of_cons in Hm as [->|Hm]; [by vm_compute in Hk|].
    apply list_elem_of_singleton in Hm as ->. by split.
  - split; [by left|by vm_compute].
  - intros m Hm He. apply elem_of_cons in Hm as [Hm|Hm%list_elem_of_singleton]; subst m; exfalso;
      revert He; vm_compute; intros H; by apply H.
Qed.

Lemma next_batch_accepted_witness :
  ∃ e bytes taken rest, next_batch (sh_log sh2) (len bytes1) = BData (len bytes1) e bytes ∧
    [rec2] = taken ++ rest ∧ taken ≠ [] ∧ e = len bytes1 + len bytes ∧
    decode_records crc0 bytes (len bytes1) = Ok taken.
Proof.
  destruct (next_batch_accepted crc0 crc0_u32 (sh_log sh2) [rec1; rec2] (len bytes1) [rec1] [rec2])
    as (e & bytes & taken & rest & H1 & H2 & H3 & H4 & _ & H5).
  - apply sh2_log.
  - done.
  - by vm_compute.
  - by vm_compute.
  - exists e, bytes, taken, rest. by split_and!.
Defined.

(** Covering sequence 1 lets the statement go and keeps its watermark. *)
Definition cov2 : Shared * option (string * N) := note_covered "n.t" 1 sh2.
Lemma note_covered_keeps_last_trace_witness :
  records (sh_log (fst cov2)) = [meta_of crc0 rec2] ∧ horizon_inv crc0 (fst cov2).
Proof.
  split; [by vm_compute|].
  eapply (note_covered_keeps_last_trace crc0 crc0_u32 "n.t" 1 sh2 (fst cov2) (snd cov2)).
  - apply sh2_inv.
  - by vm_compute.
Defined.

Definition sub2 : Shared * result N := submit crc0 RECORD_FRAME "n.t" 2 [Byte.x2b] sh2.
Lemma submit_appends_record_witness :
  ∃ rec, r_seq rec = 2 ∧ r_lsn rec = head2 ∧
    records (sh_log (fst sub2)) = records (sh_log sh2) ++ [meta_of crc0 rec].
Proof.
  assert (∃ e, submit crc0 RECORD_FRAME "n.t" 2 [Byte.x2b] sh2 = (fst sub2, Ok e)) as [e He]
    by (eexists; by vm_compute).
  destruct (submit_appends_record crc0 crc0_u32 RECORD_FRAME "n.t" 2 [Byte.x2b] sh2 (fst sub2) (Ok e))
    as (_ & _ & _ & _ & rec & _ & _ & Hq & _ & Hl & Hr).
  - apply sh2_inv.
  - by left.
  - by vm_compute.
  - by vm_compute.
  - by vm_compute.
  - done.
  - exact He.
  - exists rec. by split_and!.
Defined.

(** An acceptor that followed term 1 past the point where term 2 took over. *)
Definition behind : Acceptor mem SegmentWal :=
  acceptor_new (with_history (with_term (ps_new 1) 1) th1) None (wal acc2).
Lemma compute_start_matches_acceptor_witness :
  expected_start behind 3 [{| term := 1; lsn := 0 |}; {| term := 2; lsn := 3 |}] = Ok 3.
Proof.
  eapply (compute_start_matches_acceptor behind [{| term := 1; lsn := 0 |}; {| term := 2; lsn := 3 |}] 2 0 3).
  - repeat constructor; by vm_compute.
  - by exists 3.
  - intros H. by vm_compute in H.
  - by vm_compute.
Defined.

(** Two expired deadlines poison the tail. *)
Definition waited : Shared * option (result unit) :=
  wait_commit (head2 + 1) [(id, WTimeout); (id, WTimeout)] false sh2.
Lemma wait_commit_outcome_witness :
  (∃ e, snd waited = Some (Err e)) ∧ is_Some (sh_poison (fst waited)) .
Proof.
  assert (∃ e, wait_commit (head2 + 1) [(id, WTimeout); (id, WTimeout)] false sh2 =
    (fst waited, Some (Err e))) as [e He] by (eexists; by vm_compute).
  destruct (wait_commit_outcome _ _ _ _ _ _ He) as (_ & H & _).
  split; [exists e; unfold waited; by rewrite He|].
  destruct (H e eq_refl) as [?|Hc]; [done|]. exfalso.
  repeat (apply elem_of_cons in Hc as [Hc|Hc]; [done|]). by apply not_elem_of_nil in Hc.
Defined.
