(* ===== verification/ScenariosTail.v ===== *)
(** * Concrete runs: the local tail

    Batches as byte strings over a small stream format, one table's log driven
    through staged appends, a led sync and a truncation, and the boot scan of
    what it left. *)
From stdpp Require Import sorting.
From Stdlib Require Import Sorting.Sorted.
From S2P Require Import Prelude Text Segment SegmentWal TailNames Tail GroupSync GroupSyncInv GroupSyncReplay Scenarios.
#[local] Open Scope N_scope.

(** ** A stream of batches: each byte behind a 1, a 0 behind each batch. *)
Definition Batch : Type := list byte.
Definition batch_bytes (b : Batch) : list byte := concat (map (λ x, [Byte.x01; x]) b) ++ [Byte.x00].
Fixpoint read_batches (bs : list byte) (cur : Batch) : result (list Batch) :=
  match bs with
  | [] => match cur with [] => Ok [] | _ => Err "unexpected end of stream" end
  | Byte.x00 :: bs => rest ← read_batches bs []; Ok (cur :: rest)
  | _ :: x :: bs => read_batches bs (cur ++ [x])
  | [_] => Err "unexpected end of stream"
  end.

#[export] Instance byte_arrow : Arrow Batch := {
  ipc_write bs := Ok (concat (map batch_bytes bs));
  ipc_read bs := read_batches bs [];
}.

Lemma read_batch b cur rest :
  read_batches (batch_bytes b ++ rest) cur = (l ← read_batches rest []; Ok ((cur ++ b) :: l)).
Proof.
  revert cur. induction b as [|x b IH]; intros cur; [by rewrite app_nil_r|].
  change (batch_bytes (x :: b) ++ rest) with (Byte.x01 :: x :: batch_bytes b ++ rest).
  cbn [read_batches]. rewrite IH. by rewrite <-app_assoc.
Qed.

#[export] Instance byte_arrow_laws : ArrowLaws Batch.
Proof.
  split. intros bs out _ [= <-]. simpl. induction bs as [|b bs IH]; [done|].
  cbn [map concat]. rewrite read_batch. cbn [ipc_read byte_arrow] in IH. by rewrite IH.
Qed.

(** ** Names and frames *)
Definition ident1 : TableIdent := {| namespace := [[Byte.x6e]]; table_name := [Byte.x2e; Byte.x25] |}.
(** "n" and ".%": the dot and the percent sign are escaped. *)
Lemma table_dir_name_roundtrip_witness :
  ∃ d, table_dir_name ident1 = Ok d ∧ (SLASH ∉ d) ∧
    ∀ ident', table_dir_name ident' = Ok d → ident' = ident1.
Proof.
  assert (∃ d, table_dir_name ident1 = Ok d) as [d Hd] by (eexists; by vm_compute).
  destruct (table_dir_name_roundtrip ident1 d Hd) as (H1 & _ & H2 & _).
  exists d. by split_and!.
Defined.

Definition op1 : TailOp Batch := Append [[Byte.x2a]].
Definition op2 : TailOp Batch := Delete [[Byte.x2a]; []].
Definition frame_of (seq : N) (op : TailOp Batch) : list byte :=
  default [] (res_ok (encode_frame crc0 seq (op_kind op) (op_batches op))).

Lemma tail_frame_roundtrip_witness :
  ∃ p op, frame_of 7 op2 = frame crc0 p ∧ op_kind op = KDelete ∧ op_batches op = [[Byte.x2a]; []] ∧
    decode_payload (RecordBatch:=Batch) p = inr (7, op).
Proof.
  apply (tail_frame_roundtrip crc0 7 KDelete [[Byte.x2a]; []] (frame_of 7 op2)); by vm_compute.
Defined.

(** ** The boot scan: a torn second segment, and a third that goes on where the
    second one's last frame says. *)
Definition segs1 : tdir := {|
  td_segs := {[ 1 := frame_of 1 op1; 2 := frame_of 2 op2 ++ take 5 (frame_of 3 op1); 3 := frame_of 3 op2 ]};
  td_marks := ∅; td_io := [] |}.
Definition pl (seq : N) (op : TailOp Batch) : list byte := drop 8 (frame_of seq op).
Definition imgs1 : list (N * list (N * TailOp Batch) * list byte * option N) :=
  [(1, [(1, op1)], [], None); (2, [(2, op2)], take 5 (frame_of 3 op1), None); (3, [(3, op2)], [], None)].

Lemma imgs1_crashed : Forall (im_crashed crc0 segs1) imgs1.
Proof.
  assert (∀ q op, (q, op) ∈ [(1, op1); (2, op2); (3, op2)] → holds [(q, op)] [pl q op]) as Hh.
  { intros q op Hin. constructor; [|constructor]. unfold op_payload. cbn [fst snd].
    repeat (apply elem_of_cons in Hin as [Hin|Hin];
      [injection Hin as -> ->; split; [done|eexists; split; [by vm_compute|by vm_compute]]|]).
    by apply not_elem_of_nil in Hin. }
  constructor; [|constructor; [|constructor; [|constructor]]].
  - exists [pl 1 op1]. split; [apply Hh; set_solver|]. split; [by vm_compute|].
    right. split; [done|]. split; [done|]. by left.
  - exists [pl 2 op2]. split; [apply Hh; set_solver|]. split; [by vm_compute|].
    right. split; [done|]. split; [done|]. right. exists (pl 3 op1), 5%nat. split; [by vm_compute|].
    split; [|by vm_compute]. split; vm_compute; lia.
  - exists [pl 3 op2]. split; [apply Hh; set_solver|]. split; [by vm_compute|].
    right. split; [done|]. split; [done|]. by left.
Qed.


(** ** A run: a statement is staged and its waiter leads the sync; a second one
    is staged and left unsynced. *)
Definition gs0 : world := {|
  w_table := {| next_seq := 1; next_segment := 1; active := None; sealed := [] |};
  w_syncs := ∅; w_files := ∅; w_marks := ∅; w_lock := None; w_threads := []; w_covered := 0; w_io := [] |}.

Lemma gs0_booted : booted gs0.
Proof.
  split_and!; try done.
  - intros s Hs. by apply not_elem_of_nil in Hs.
Qed.

Definition play (acts : list (action (RecordBatch:=Batch) * list outcome)) (w : world) : option world :=
  foldl (λ w a, w ≫= exec crc0 (fst a) (snd a)) (Some w) acts.

(** A run whose states all have room. *)
Definition roomb (w : world) : bool :=
  (next_seq (w_table w) <? u64_max) && (next_segment (w_table w) <? u64_max) &&
  forallb (λ p, len (f_data (snd p)) <? u64_max - u32_max - 8) (map_to_list (w_files w)).
Fixpoint roomy (acts : list (action (RecordBatch:=Batch) * list outcome)) (w : world) : bool :=
  match acts with
  | [] => true
  | a :: acts => roomb w && match exec crc0 (fst a) (snd a) w with Some w => roomy acts w | None => false end
  end.

Lemma roomb_room w : roomb w = true → room w.
Proof.
  unfold roomb. rewrite !andb_true_iff, !N.ltb_lt. intros ((? & ?) & Hf). split_and!; [done..|].
  intros i f Hi. rewrite forallb_forall in Hf. apply N.ltb_lt, (Hf (i, f)).
  apply list_elem_of_In. by apply elem_of_map_to_list.
Qed.

Lemma play_run acts w0 w w' :
  run crc0 w0 w → roomy acts w = true → play acts w = Some w' → run crc0 w0 w'.
Proof.
  revert w. induction acts as [|a acts IH]; intros w Hr Hroom Hp; [by injection Hp as <-|].
  cbn [roomy] in Hroom. apply andb_prop in Hroom as [Hw Hroom].
  destruct (exec crc0 (fst a) (snd a) w) as [w1|] eqn:E; [|done].
  apply (IH w1); [|done|].
  - eapply run_step; [done|by apply roomb_room|exact E].
  - unfold play in *. cbn [foldl] in Hp. cbn [mbind option_bind] in Hp. by rewrite E in Hp.
Qed.

Definition acts1 : list (action (RecordBatch:=Batch) * list outcome) :=
  [(AAppend KAppend [[Byte.x2a]], []); (AThread 0, []); (AThread 0, []); (AThread 0, []);
   (AAppend KDelete [[Byte.x2a]; []], [])].
Definition gs1 : world := default gs0 (play acts1 gs0).

Lemma gs1_run : run crc0 gs0 gs1.
Proof. apply (play_run acts1 gs0 gs0); [constructor|by vm_compute|by vm_compute]. Qed.


Lemma sequences_never_reused_witness : StronglySorted N.lt (seqs (w_threads gs1)) ∧ seqs (w_threads gs1) = [1; 2].
Proof.
  split; [|by vm_compute].
  apply (sequences_never_reused crc0 gs0 gs1); [apply gs0_booted|apply gs1_run].
Defined.
