(* ===== verification/ScenariosLease.v ===== *)
(** * Concrete runs: the leader lease

    The three acceptors of the proposer's scenarios serve a lease log of their
    own: a standby watches it sit still for its TTL and takes it over. *)
From stdpp Require Import sorting.
From Stdlib Require Import Sorting.Sorted.
From S2P Require Import Prelude Text Segment Json Proto Acceptor SegmentWal Proposer Election Lease Scenarios ScenariosQuorum.
Import JsonTree.
#[local] Open Scope N_scope.

Definition lease_cfg : LeaseConfig :=
  {| lc_addrs := [[Byte.x61]; [Byte.x62]; [Byte.x63]]; lc_ttl := 3000 * MILLI; lc_holder_id := "b" |}.

(** What three polls of a lease log give: the last acceptor stops answering. *)
Definition quiet (t : N) (third : option (N * N)) : N * list (option (N * N)) :=
  (t, [Some (1, 40); Some (1, 40); third]).
Definition polls : list (N * list (option (N * N))) :=
  [quiet 0 (Some (1, 20)); quiet (1000 * MILLI) (Some (1, 40)); quiet (3000 * MILLI) None].

Lemma expired_iff_frozen_witness :
  expired (3000 * MILLI) (tracked (3000 * MILLI) 3 polls) = true ∧
  ∃ idxs, (QUORUM ≤ length idxs)%nat ∧
    ∀ i, i ∈ idxs → frozen (3000 * MILLI) (3000 * MILLI) (probes_of i polls).
Proof.
  assert (expired (3000 * MILLI) (tracked (3000 * MILLI) 3 polls) = true) as H by (by vm_compute).
  split; [exact H|]. apply (expired_iff_frozen (3000 * MILLI) 3 polls (3000 * MILLI)) in H.
  - destruct H as (idxs & _ & Hl & Hall). exists idxs. split; [exact Hl|]. intros i Hi. apply Hall, Hi.
  - intros r Hr. unfold polls in Hr. repeat (apply elem_of_cons in Hr as [->|Hr]; [done|]).
    by apply not_elem_of_nil in Hr.
  - vm_compute. repeat constructor; by intros ?.
Defined.

(** The acks of two acceptors for everything submitted so far. *)
Definition acked (s : Shared) : Shared :=
  let t := e_term (sh_election s) in
  fst (store_ack 1 t (head (sh_log s)) (fst (store_ack 0 t (head (sh_log s)) s))).
Definition acks : Events := [(acked, WChanged)].

Definition env3 : keepers := [fresh 1; fresh 2; fresh 3].
Definition acquired : keepers * option (result HeldLease) :=
  acquire crc0 (V:=jtree) lease_cfg "minted" 4096 1700000000000 [] acks [] env3.
Definition held0 : HeldLease :=
  match snd acquired with Some (Ok h) => h | _ => {| hl_quorum := sh0; hl_seq := 0; hl_holder_id := "" |} end.

Lemma acquired_held : acquired = (fst acquired, Some (Ok held0)).
Proof. by vm_compute. Qed.

Definition st0 : LeaseState := lease_start lease_cfg env3 0.
Definition poll1 : list (option (N * N)) := [Some (1, 40); Some (1, 40); None].
Definition st1 : LeaseState :=
  {| ls_env := env3; ls_tracker := poll_acceptors poll1 0 (ls_tracker st0); ls_stage := Standby;
     ls_leader := false; ls_clock := 0; ls_since := 0 |}.
Definition st2 : LeaseState :=
  {| ls_env := fst acquired; ls_tracker := poll_acceptors poll1 (3000 * MILLI) (ls_tracker st1);
     ls_stage := Leader held0; ls_leader := true; ls_clock := 3001 * MILLI; ls_since := 0 |}.

Lemma takeover_waits_ttl_witness :
  ls_leader st1 = false ∧ ls_leader st2 = true ∧ virgin (ls_tracker st2) = false ∧
  ls_since st2 + lc_ttl lease_cfg ≤ ls_clock st2.
Proof.
  assert (lease_step crc0 (V:=jtree) lease_cfg st0 st1) as Hs0
    by (apply (step_wait crc0 lease_cfg st0 poll1 0 0); by vm_compute).
  assert (lease_step crc0 (V:=jtree) lease_cfg st1 st2) as Hs1.
  { apply (step_acquired crc0 lease_cfg st1 poll1 (3000 * MILLI) (3000 * MILLI) (3001 * MILLI) (fst acquired) held0
      "minted" 4096 1700000000000 [] acks []); [by vm_compute..|]. exact acquired_held. }
  assert (virgin (ls_tracker st2) = false) as Hv by (by vm_compute).
  destruct (takeover_waits_ttl crc0 (V:=jtree) lease_cfg st1 st2) as [_ H].
  - exists env3, 0. by apply rtc_once.
  - exact Hs1.
  - split_and!; [done|done|exact Hv|]. destruct (H eq_refl eq_refl) as [Hx|Hx]; [congruence|exact Hx].
Defined.

(** The holder renews once, then its quorum goes away. *)
Definition lost : HeldLease * option (result unit) :=
  renew crc0 (V:=jtree) 1700000001000 [(id, WTimeout); (id, WTimeout)] [] held0.
Lemma renew_outcome_witness :
  hl_seq held0 = 1 ∧ hl_seq (fst lost) = 2 ∧ is_Some (sh_poison (hl_quorum (fst lost))).
Proof.
  assert (∃ e, renew crc0 (V:=jtree) 1700000001000 [(id, WTimeout); (id, WTimeout)] [] held0 =
    (fst lost, Some (Err e))) as [e He] by (eexists; by vm_compute).
  destruct (renew_outcome crc0 (V:=jtree) 1700000001000 [(id, WTimeout); (id, WTimeout)] [] held0
    (fst lost) (Some (Err e))) as (_ & H & _ & Hq).
  - by vm_compute.
  - exact He.
  - split_and!; [by vm_compute|by vm_compute|].
    destruct (H e eq_refl) as [?|Hc]; [done|]. exfalso.
    repeat (apply elem_of_cons in Hc as [Hc|Hc]; [done|]). by apply not_elem_of_nil in Hc.
Defined.
