(* ===== verification/ScenariosQuorumTail.v ===== *)
(** * Concrete runs: the quorum tail store

    The store opened over the three acceptors of [ScenariosQuorum], one of which
    holds a record of an earlier term; a statement is staged, submitted, streamed
    to two acceptors and acked, another is left queued. *)
From Stdlib Require Import Sorting.Sorted.
From S2P Require Import Prelude Text Segment Proto Acceptor SegmentWal Proposer Election TailNames Tail Buffer.
From S2P Require Import TailQuorum TailQuorumInv TailQuorumSafe Scenarios ScenariosQuorum ScenariosTail.
#[local] Open Scope N_scope.

Definition tbl : TableIdent := {| namespace := [[Byte.x6e]]; table_name := [Byte.x74] |}. (* n.t *)

(** ** A runner *)
Definition roomb (w : world) : bool :=
  (head (sh_log (wk_quorum (q_worker w))) + MAX_MESSAGE_BYTES <? u64_modulus) &&
  forallb (λ tn, snd tn <? u64_max) (map_to_list (qt_next_seq (q_tail w))).
Lemma roomb_sound w : roomb w = true → room w.
Proof.
  intros [H1%N.ltb_lt H2]%andb_prop. split; [done|]. intros t n Hn.
  rewrite forallb_forall in H2. apply N.ltb_lt, (H2 (t, n)). by apply list_elem_of_In, elem_of_map_to_list.
Qed.
Definition namesb (t : TableIdent) : bool :=
  match table_dir_name t with
  | Ok d => utf8 (bytes_str d) && bool_decide (parse_table_dir_name d = Some t)
  | Err _ => false
  end.
Lemma namesb_sound t : namesb t = true → names_a_table t.
Proof.
  unfold namesb. destruct (table_dir_name t) as [d|] eqn:E; [|done].
  intros [H1 H2%bool_decide_eq_true]%andb_prop. by exists d.
Qed.
Definition sensibleb (a : action (RecordBatch:=Batch)) : bool :=
  match a with
  | AAppend t _ _ => namesb t
  | AFloor t q => namesb t && (q <? u64_max)
  | ATruncate t q | ARecordWatermark t q => namesb t && (q <? u64_modulus)
  | _ => true
  end.
Lemma sensibleb_sound a : sensibleb a = true → sensible a.
Proof.
  destruct a; simpl; try done; [apply namesb_sound|..];
    (intros [H1 H2%N.ltb_lt]%andb_prop; split; [by apply namesb_sound|done]).
Qed.

Fixpoint run_all (acts : list action) (w : world) (e : keepers) : option (world * keepers) :=
  match acts with
  | [] => Some (w, e)
  | a :: acts =>
    if roomb w && sensibleb a then '(w, e) ← exec crc0 a w e; run_all acts w e else None
  end.
Lemma run_all_sound acts w0 e0 w e w' e' :
  run crc0 w0 e0 w e → run_all acts w e = Some (w', e') → run crc0 w0 e0 w' e'.
Proof.
  revert w e. induction acts as [|a acts IH]; intros w e Hr Ha; cbn [run_all] in Ha; [by simplify_eq|].
  destruct (roomb w && sensibleb a) eqn:Eb; [|done]. apply andb_prop in Eb as [H1%roomb_sound H2%sensibleb_sound].
  apply bind_Some in Ha as ([w1 e1] & Hx & Ha). eapply IH; [|exact Ha]. by eapply run_step.
Qed.

(** ** The run *)
Definition w_none : world :=
  {| q_tail := {| qt_prop_key := ""; qt_next_seq := ∅; qt_poisoned := None |}; q_jobs := [];
     q_worker := {| wk_quorum := sh0; wk_replay := None; wk_wm_max := ∅; wk_history := [] |};
     q_waits := []; q_chans := [] |}.
Definition opened_tail : keepers * result world := open_with_config crc0 "minted" 7 env0.
Definition tail0 : world := match snd opened_tail with Ok w => w | Err _ => w_none end.
Definition env_t : keepers := fst opened_tail.
Lemma opened_tail_eq : open_with_config crc0 "minted" 7 env0 = (env_t, Ok tail0).
Proof. by vm_compute. Qed.
Lemma tail0_recovered : recovered tail0 = [rec1].
Proof. by vm_compute. Qed.
Lemma tail0_ok : recovered_ok crc0 tail0.
Proof.
  split; [|by vm_compute]. rewrite tail0_recovered. intros r ->%list_elem_of_singleton.
  split; [by vm_compute|]. split; [by vm_compute|]. exists tbl. by vm_compute.
Qed.

Definition acts1 : list (action (RecordBatch:=Batch)) :=
  [AAppend tbl KAppend [[Byte.x2a]]; AWorker; APeer 0 None; APeer 0 (Some 2); APeer 1 None; APeer 1 (Some 2);
   APeer 1 (Some 2); ATask 0 WChanged; AAwait 0; AAppend tbl KDelete [[Byte.x2b]]].
Definition ran1 : option (world * keepers) := run_all acts1 tail0 env_t.
Definition tail1 : world := match ran1 with Some (w, _) => w | None => w_none end.
Definition env_t1 : keepers := match ran1 with Some (_, e) => e | None => [] end.
Lemma ran1_eq : run_all acts1 tail0 env_t = Some (tail1, env_t1).
Proof. by vm_compute. Qed.
Lemma tail1_run : run (RecordBatch:=Batch) crc0 tail0 env_t tail1 env_t1.
Proof. eapply run_all_sound; [apply run_refl|exact ran1_eq]. Qed.

Definition chan0 : Chan :=
  default {| ch_job := HealthJob 0; ch_state := Open_ |} (q_chans tail1 !! 0%nat).
Definition payload0 : list byte := [Byte.x02; Byte.x00; Byte.x01; Byte.x2a; Byte.x00].

Lemma quorum_tail_acks_are_committed_witness :
  sh_commit (wk_quorum (q_worker tail1)) = 70 ∧
  ∃ rec, r_seq rec = 2 ∧ r_body rec = payload0 ∧
    meta_of crc0 rec ∈ wk_history (q_worker tail1) ∧ m_end (meta_of crc0 rec) ≤ 70.
Proof.
  assert (sh_commit (wk_quorum (q_worker tail1)) = 70) as Hc by (by vm_compute). split; [done|].
  destruct (quorum_tail_acks_are_committed crc0 crc0_u32 "minted" 7 env0 env_t tail0 tail1 env_t1 0 chan0
    "n.t" 2 payload0 0 opened_tail_eq tail0_ok tail1_run) as (rec & _ & _ & Hq & Hb & Hm & He & _).
  - by vm_compute.
  - by vm_compute.
  - by vm_compute.
  - exists rec. rewrite Hc in He. by split_and!.
Defined.

(** Sequence 1 was recovered, 2 is in the log, 3 is queued, 4 comes next. *)
Lemma tbl_key : key_of tbl "n.t".
Proof. exists (str_bytes "n.t"). by vm_compute. Qed.
Lemma quorum_tail_sequences_never_reused_witness :
  ∃ new, wk_history (q_worker tail1) = [meta_of crc0 rec1] ++ new ∧
    StronglySorted N.lt (frame_seqs "n.t" new ++ job_seqs "n.t" (q_jobs tail1)) ∧
    ∀ s, s ∈ frame_seqs "n.t" new ++ job_seqs "n.t" (q_jobs tail1) → s < 4.
Proof.
  destruct (quorum_tail_sequences_never_reused crc0 crc0_u32 "minted" 7 env0 env_t tail0 tail1 env_t1
    opened_tail_eq tail0_ok tail1_run) as (new & Hn & Hs).
  rewrite tail0_recovered in Hn, Hs. exists new. split; [exact Hn|].
  destruct (Hs tbl "n.t" tbl_key) as (H1 & _ & H3). split; [exact H1|]. intros s Hin.
  assert (default 1 (qt_next_seq (q_tail tail1) !! tbl) = 4) as <- by (by vm_compute).
  apply H3. apply elem_of_app. by right.
Defined.

(** The queued append is submitted; its task can be answered or die. *)
Definition ran2 : option (world * keepers) := run_all (acts1 ++ [AWorker]) tail0 env_t.
Definition tail2 : world := match ran2 with Some (w, _) => w | None => w_none end.
Definition env_t2 : keepers := match ran2 with Some (_, e) => e | None => [] end.
Lemma ran2_eq : run_all (acts1 ++ [AWorker]) tail0 env_t = Some (tail2, env_t2).
Proof. by vm_compute. Qed.
Lemma tail2_run : run (RecordBatch:=Batch) crc0 tail0 env_t tail2 env_t2.
Proof. eapply run_all_sound; [apply run_refl|exact ran2_eq]. Qed.
Definition chan1 : Chan :=
  default {| ch_job := HealthJob 0; ch_state := Sent (Records []) |} (q_chans tail2 !! 1%nat).

Lemma quorum_tail_requests_answered_witness :
  q_jobs tail2 = [] ∧ ch_state chan1 = Open_ ∧
  ∃ i w1, wait_dies i tail2 = Some w1 ∧ ∃ w2 err, wait_append_outcome 1 w1 = (w2, Some (Err err)) ∧
    is_ok (snd (append_staged tbl KAppend [[Byte.x2a]] w2)) = false.
Proof.
  assert (q_jobs tail2 = []) as Hj by (by vm_compute). split; [exact Hj|]. split; [by vm_compute|].
  destruct (quorum_tail_requests_answered (RecordBatch:=Batch) crc0 crc0_u32 "minted" 7 env0 env_t tail0 tail2 env_t2 1 chan1
    opened_tail_eq tail0_ok tail2_run) as [Hin|(i & _ & w1 & Hd & w2 & err & Hw & Hno)].
  - by vm_compute.
  - by vm_compute.
  - exfalso. rewrite Hj in Hin. by apply not_elem_of_nil in Hin.
  - exists i, w1. split; [exact Hd|]. exists w2, err. split; [exact Hw|]. apply Hno.
Defined.
