(* ===== verification/ScenariosBuffer.v ===== *)
(** * Concrete runs: the write buffer

    Rows of text cells, one table in an in-memory tail and an in-memory lake
    whose posts end as told; the flush races and the two ways a flush goes
    wrong. *)
From stdpp Require Import sorting.
From S2P Require Import Prelude Text TailNames Tail Keyed TableOps Buffer Overlay OverlayView FlushRace Flush.
#[local] Open Scope N_scope.

(** ** Batches of text cells *)
Definition Cells : Type := list (list byte).
Record batch := { bt_schema : Schema; bt_rows : list Cells }.
Record cells := { ar_type : DataType; ar_cells : list (list byte) }.
Definition cell (i : nat) (r : Cells) : list byte := default [] (r !! i).
Definition enc (c : list byte) : list byte := c ++ [Byte.x00].
Definition at_row (j : nat) (c : cells) : list byte := default [] (ar_cells c !! j).
Definition col_rows (cols : list cells) : nat := match cols with [] => 0%nat | c :: _ => length (ar_cells c) end.

#[export] Instance text_columnar : Columnar batch cells := {
  schema_of := bt_schema;
  column b i := {| ar_type := match bt_schema b !! i with Some f => f_type f | None => Utf8 end;
                   ar_cells := map (cell i) (bt_rows b) |};
  num_rows b := length (bt_rows b);
  slice_row b i := {| bt_schema := bt_schema b; bt_rows := match bt_rows b !! i with Some r => [r] | None => [] end |};
  data_type := ar_type;
  is_null _ _ := false;
  cast_with_options c ty := Ok {| ar_type := ty; ar_cells := ar_cells c |};
  array_value_to_string c i := Ok (at_row i c);
  try_new s cols := Ok {| bt_schema := s; bt_rows := map (λ j, map (at_row j) cols) (seq 0 (col_rows cols)) |};
  filter_record_batch b mask := Ok {| bt_schema := bt_schema b; bt_rows := masked mask (bt_rows b) |};
  concat_batches bs := match bs with
                       | [] => Err "no batches"
                       | b :: _ => Ok {| bt_schema := bt_schema b; bt_rows := concat (map bt_rows bs) |}
                       end;
  project b idx := Ok {| bt_schema := omap (λ i, bt_schema b !! i) idx;
                         bt_rows := map (λ r, map (λ i, cell i r) idx) (bt_rows b) |};
  convert_columns cols := match cols with
                          | [] => Err "no key columns"
                          | _ => Ok (map (λ j, concat (map (λ c, enc (at_row j c)) cols)) (seq 0 (col_rows cols)))
                          end;
}.

#[export] Instance text_columnar_laws : ColumnarLaws batch cells Cells.
Proof.
  refine {| rows_of := bt_rows : batch → list Cells; row_key idx r := concat (map (λ i, enc (cell i r)) idx) |}.
  - done.
  - intros b i r Hi. cbn. by rewrite Hi.
  - done.
  - by intros b mask b' _ [= <-].
  - intros b idx ks Hc. cbn in Hc. destruct idx as [|i idx]; [done|]. injection Hc as <-. cbn [col_rows map ar_cells].
    rewrite length_map. apply list_eq. intros j. rewrite !list_lookup_fmap.
    destruct (decide (j < length (bt_rows b))%nat) as [Hj|Hj].
    + destruct (lookup_lt_is_Some_2 (bt_rows b) j Hj) as [r Hr]. rewrite lookup_seq_lt, Hr by done. cbn. f_equal.
      unfold at_row at 1. cbn. rewrite list_lookup_fmap, Hr. cbn. do 2 f_equal. rewrite map_map.
      apply map_ext. intros i'. unfold at_row. cbn. by rewrite list_lookup_fmap, Hr.
    + rewrite lookup_seq_ge, (lookup_ge_None_2 (bt_rows b)) by lia. done.
  - by intros s cols b [= <-].
Defined.

Definition kv_schema : Schema :=
  [{| f_name := str_bytes "k"; f_type := Utf8; f_nullable := false |};
   {| f_name := str_bytes "v"; f_type := Utf8; f_nullable := true |}].
Definition row (k v : string) : Cells := [str_bytes k; str_bytes v].
Definition rows_batch (rs : list Cells) : batch := {| bt_schema := kv_schema; bt_rows := rs |}.
Definition pk_k : list (list byte) := [str_bytes "k"].
Definition the_table : TableIdent := {| namespace := [str_bytes "n"]; table_name := str_bytes "t" |}.

(** ** A tail and a lake *)
Record mtail := { mt_next : N; mt_frames : list (N * TailOp batch); mt_sidecar : option N }.
#[export] Instance mtail_store : TailStore mtail batch := {
  ts_append_staged _ kind bs t :=
    ({| mt_next := mt_next t + 1;
        mt_frames := mt_frames t ++
          [(mt_next t, match kind with KAppend => Tail.Append bs | KUpsert => Upsert bs | KDelete => Delete bs end)];
        mt_sidecar := mt_sidecar t |}, Ok (mt_next t));
  ts_rotate _ := st_ret tt;
  ts_replay t := (t, Ok [{| rt_ident := the_table; rt_frames := mt_frames t; rt_sidecar := mt_sidecar t |}]);
  ts_truncate _ upto t :=
    ({| mt_next := mt_next t; mt_frames := List.filter (λ f, upto <? fst f) (mt_frames t); mt_sidecar := mt_sidecar t |},
     Ok tt);
  ts_ensure_seq_floor _ floor t :=
    ({| mt_next := N.max (mt_next t) floor; mt_frames := mt_frames t; mt_sidecar := mt_sidecar t |}, Ok tt);
  ts_record_watermark _ seq t :=
    ({| mt_next := mt_next t; mt_frames := mt_frames t; mt_sidecar := Some seq |}, Ok tt);
  ts_watermark_property _ := "icegres.tail-seq.x";
}.

(** How the coming posts end, and whether the coming loads succeed. *)
Inductive Fate := FCommit | FConflict | FAppliedError | FLostError.
Record mlake := {
  ml_rows : list Cells; ml_snaps : list Z; ml_prop : option (list byte); ml_fates : list Fate; ml_loads : list bool;
}.
Record mprepared := { mp_id : Z; mp_rows : list Cells; mp_prop : option (list byte) }.

(** A row is deleted when its key's literal occurs in the predicate. *)
Definition matches (predicate : list byte) (r : Cells) : bool :=
  str_contains (bytes_str ([QUOTE] ++ doubled QUOTE (cell 0 r) ++ [QUOTE])) (bytes_str predicate).
Definition apply_op (rows : list Cells) (op : TableOp batch Empty_set) : list Cells :=
  match op with
  | OpAppend bs => rows ++ concat (map bt_rows bs)
  | OpAppendFiles files => match files with [] => rows | f :: _ => match f with end end
  | OpDml s => match dml_predicate s with
               | Some p => List.filter (λ r, negb (matches p r)) rows
               | None => []
               end
  end.
Definition apply_post (p : mprepared) (l : mlake) : mlake :=
  {| ml_rows := mp_rows p; ml_snaps := mp_id p :: ml_snaps l;
     ml_prop := match mp_prop p with Some v => Some v | None => ml_prop l end;
     ml_fates := tl (ml_fates l); ml_loads := ml_loads l |}.
Definition refuse_post (l : mlake) : mlake :=
  {| ml_rows := ml_rows l; ml_snaps := ml_snaps l; ml_prop := ml_prop l; ml_fates := tl (ml_fates l);
     ml_loads := ml_loads l |}.
#[export] Instance mlake_lake : Lake mlake mlake mprepared batch Empty_set := {
  load_table _ l :=
    ({| ml_rows := ml_rows l; ml_snaps := ml_snaps l; ml_prop := ml_prop l; ml_fates := ml_fates l;
        ml_loads := tl (ml_loads l) |},
     if match ml_loads l with b :: _ => b | [] => true end then Ok l else Err "catalog unavailable");
  has_snapshot m s := bool_decide (s ∈ ml_snaps m);
  md_property m key := if String.eqb key "icegres.tail-seq.x" then ml_prop m else None;
  md_schema _ := Ok kv_schema;
  md_pk_columns _ := Ok (Some pk_k);
  engine_enforces_pk _ := false;
  prepare_commit m ops _ props l :=
    (l, Ok (Some {| mp_id := Z.of_nat (S (length (ml_snaps m))); mp_rows := foldl apply_op (ml_rows m) ops;
                    mp_prop := snd <$> props |}));
  snapshot_id := mp_id;
  post_prepared _ p l :=
    match ml_fates l with
    | FConflict :: _ => (refuse_post l, Ok (Conflict "409"))
    | FAppliedError :: _ => (apply_post p l, Err "connection reset")
    | FLostError :: _ => (refuse_post l, Err "connection reset")
    | _ => (apply_post p l, Ok Committed)
    end;
}.

(** ** Statements, acked *)
Abbreviation State := (BufferState (RecordBatch:=batch)).
Definition insert (rs : list Cells) (x : State * option mtail) : State * option mtail :=
  match append the_table (Some kv_schema) [rows_batch rs] (snd x) None (fst x) with
  | (t, s, Ok st) => (after_wait the_table st true s, t)
  | (t, s, Err _) => (s, t)
  end.
Definition delete_key (k : string) (x : State * option mtail) : State * option mtail :=
  let key_row := {| bt_schema := [{| f_name := str_bytes "k"; f_type := Utf8; f_nullable := false |}];
                    bt_rows := [[str_bytes k]] |} in
  match keyed_write the_table (Some kv_schema) pk_k (enc (str_bytes k))
          {| ko_key_row := key_row; ko_kind := KDeleteRow; ko_seq := None |} (snd x) (fst x) with
  | (t, s, Ok (st, _)) => (after_wait the_table st true s, t)
  | (t, s, Err _) => (s, t)
  end.
Definition upsert_row_of (k v : string) (x : State * option mtail) : State * option mtail :=
  let key_row := {| bt_schema := [{| f_name := str_bytes "k"; f_type := Utf8; f_nullable := false |}];
                    bt_rows := [[str_bytes k]] |} in
  match keyed_write the_table (Some kv_schema) pk_k (enc (str_bytes k))
          {| ko_key_row := key_row; ko_kind := KUpsertRow (rows_batch [row k v]); ko_seq := None |} (snd x) (fst x) with
  | (t, s, Ok (st, _)) => (after_wait the_table st true s, t)
  | (t, s, Err _) => (s, t)
  end.
Definition state0 : State := {| bs_tables := ∅; bs_declared_pks := ∅ |}.
Definition tail0 : mtail := {| mt_next := 1; mt_frames := []; mt_sidecar := None |}.
Definition lake_with (rows : list Cells) (fates : list Fate) (loads : list bool) : mlake :=
  {| ml_rows := rows; ml_snaps := []; ml_prop := None; ml_fates := fates; ml_loads := loads |}.
Definition buffer_of (x : State * option mtail) (l : mlake) (env : list (Interference (T:=mtail) (RecordBatch:=batch)))
    : WriteBuffer (T:=mtail) (L:=mlake) (RecordBatch:=batch) :=
  {| wb_state := fst x; wb_tail := snd x; wb_lake := l; wb_events := []; wb_env := env; wb_clock := 0 |}.

Definition window (w : WriteBuffer (T:=mtail) (L:=mlake) (RecordBatch:=batch)) : list Cells :=
  match bs_tables (wb_state w) !! the_table with
  | Some t => view [0%nat] (contained_in (wb_tail w) (wb_lake w)) (ml_rows (wb_lake w)) t
  | None => ml_rows (wb_lake w)
  end.
Definition frames_left (w : WriteBuffer (T:=mtail) (L:=mlake) (RecordBatch:=batch)) : list N :=
  match wb_tail w with Some t => map fst (mt_frames t) | None => [] end.

(** A DELETE of a key is flushing, the key is inserted again and acked while
    the commit is posted, and the post conflicts: the deleted key merges back
    over the inserted row, the retry commits the delete over it, and the acked
    row is gone from the lake, the window and the tail. *)
Theorem conflict_loses_reinserted_row :
  let w := buffer_of (delete_key "a" (state0, Some tail0)) (lake_with [row "a" "old"] [FConflict; FCommit] [])
             [id; id; insert [row "a" "new"]] in
  let w' := fst (flush_table the_table w) in
  window w = [] ∧ snd (flush_table the_table w) = Ok tt ∧
  window w' = [] ∧ frames_left w' = [] ∧
  window (fst (flush_table the_table (buffer_of (delete_key "a" (state0, Some tail0))
            (lake_with [row "a" "old"] [FCommit] []) [id; id; insert [row "a" "new"]]))) = [row "a" "new"].
Proof. by vm_compute. Qed.

(** a flush whose post was applied but reported an error, and whose reload
    failed too, is queued again; one more acked insert before the next flush and
    the guard against double commits no longer covers it: its row is committed
    twice. *)
Theorem ambiguous_flush_commits_twice :
  let w := buffer_of (insert [row "a" "1"] (state0, Some tail0))
             (lake_with [] [FAppliedError; FCommit] [true; false]) [] in
  let '(w1, r1) := flush_table the_table w in
  let '(s, t) := insert [row "b" "2"] (wb_state w1, wb_tail w1) in
  let '(w2, r2) := flush_table the_table (buffer_of (s, t) (wb_lake w1) []) in
  is_ok r1 = false ∧ r2 = Ok tt ∧ ml_rows (wb_lake w2) = [row "a" "1"; row "a" "1"; row "b" "2"].
Proof. by vm_compute. Qed.

(** a two-row insert of one key that has a keyed entry, whose durability wait
    fails: taking its rows back in the order they were routed leaves its first
    row in the keyed map in place of the acked one, and the next flush commits
    that row of the failed statement. *)
Theorem failed_insert_leaves_row :
  let s0 := fst (upsert_row_of "a" "acked" (state0, Some tail0)) in
  let t0 := snd (upsert_row_of "a" "acked" (state0, Some tail0)) in
  match append the_table (Some kv_schema) [rows_batch [row "a" "x"; row "a" "y"]] t0 None s0 with
  | (t, s, Ok st) =>
    let w := buffer_of (after_wait the_table st false s, t) (lake_with [row "a" "old"] [FCommit] []) [] in
    window (buffer_of (s0, t0) (wb_lake w) []) = [row "a" "acked"] ∧
    window w = [row "a" "x"] ∧ ml_rows (wb_lake (fst (flush_table the_table w))) = [row "a" "x"]
  | _ => False
  end.
Proof. by vm_compute. Qed.

(** ** The general theorems at concrete states *)

(** An insert, a replaced key and a second insert of that key. *)
Definition staged_buf (x : State * option mtail) : TableBuf (RecordBatch:=batch) :=
  default (empty_buf kv_schema) (bs_tables (fst x) !! the_table).
Definition busy : TableBuf (RecordBatch:=batch) :=
  staged_buf (insert [row "a" "1"; row "c" "3"] (delete_key "b" (upsert_row_of "a" "0" (state0, Some tail0)))).

Lemma overlay_is_layer_fold_witness :
  let o := snd (overlay_with (λ _, false) busy) in
  o = Ok (Some {| ov_schema := kv_schema; ov_batches := [rows_batch [row "c" "3"]; rows_batch [row "a" "1"]];
                  ov_suppress := Some {| os_pk_cols := pk_k;
                                         os_keys := {[enc (str_bytes "a"); enc (str_bytes "b")]} |} |}) ∧
  ∀ ov, o = Ok ov →
  overlaid [0%nat] [row "a" "old"; row "b" "old"; row "d" "old"] ov =
  view [0%nat] (λ _, false) [row "a" "old"; row "b" "old"; row "d" "old"] busy.
Proof.
  split; [by vm_compute|]. intros ov Ho.
  refine (proj1 (overlay_is_layer_fold (λ _, false) _ busy (fst (overlay_with (λ _, false) busy)) pk_k [0%nat] ov _ _ _ _)).
  - intros l Hl. vm_compute in Hl. apply list_elem_of_singleton in Hl as ->.
    unfold has_schema. by apply Forall_forall; repeat constructor.
  - intros k Hk. vm_compute in Hk. by injection Hk as <-.
  - done.
  - rewrite <-Ho. apply surjective_pairing.
Defined.

Lemma race_inv_start : race_inv kv_schema pk_k [0%nat] 0 [] [] (empty_buf kv_schema) [].
Proof. split; try done; try apply NoDup_nil_2; cbn; try lia; set_solver. Qed.

Definition key_of (k : string) : batch :=
  {| bt_schema := [{| f_name := str_bytes "k"; f_type := Utf8; f_nullable := false |}]; bt_rows := [[str_bytes k]] |}.
Definition staged_append (rs : list Cells) (x : option mtail * TableBuf (RecordBatch:=batch)) :=
  append_entry the_table [rows_batch rs] (fst x) None (snd x).
Definition delete_op (k : string) : KeyedOp (RecordBatch:=batch) :=
  {| ko_key_row := key_of k; ko_kind := KDeleteRow; ko_seq := None |}.
Definition staged_delete (k : string) (x : option mtail * TableBuf (RecordBatch:=batch)) :=
  keyed_entry the_table pk_k (enc (str_bytes k)) (delete_op k) (fst x) (snd x).
Definition routed_of {A} (f : A → RoutedStmt) (r : result A) (rs : list (RoutedStmt (RecordBatch:=batch))) :=
  match r with Ok st => f st :: rs | Err _ => rs end.

(** Insert "a", delete "b", snapshot; while it is out, insert "b" again and "c"
    and have the second of them fail. *)
Definition st1 := staged_append [row "a" "1"] (Some tail0, empty_buf kv_schema).
Definition st2 := staged_delete "b" (fst st1).
Definition rs2 : list RoutedStmt := routed_of (λ x, sg_routed (fst x)) (snd st2) (routed_of sg_routed (snd st1) []).
Definition snap2 := snapshot_pending (snd (fst st2)).
Definition st3 := staged_append [row "b" "2"] (fst (fst st2), fst snap2).
Definition st4 := staged_append [row "c" "3"] (fst st3).
Definition ro4 : RoutedStmt := match snd st4 with Ok st => sg_routed st | Err _ => no_route end.
Definition rs4 : list RoutedStmt := routed_of sg_routed (snd st4) (routed_of sg_routed (snd st3) rs2).
Definition buf5 : TableBuf (RecordBatch:=batch) := unroute_failed 4 ro4 (snd (fst st4)).

Ltac room_here :=
  split; [by vm_compute | intros k Hk; vm_compute in Hk; first [discriminate Hk | injection Hk as <-; by vm_compute]].

Lemma append_run rs x sts :
  (∀ aligned, map_result (λ b, align_batch b kv_schema) [rows_batch rs] = Ok aligned →
     room (length aligned + rows_total aligned) (snd x)) → tb_schema (snd x) = kv_schema →
  stmt_step (T:=mtail) kv_schema pk_k [0%nat] (snd x, sts)
    (snd (fst (staged_append rs x)), routed_of sg_routed (snd (staged_append rs x)) sts).
Proof.
  intros Hroom Hs. apply (stmt_append _ _ _ _ _ the_table [rows_batch rs] (fst x) None (fst (fst (staged_append rs x)))).
  - by rewrite Hs.
  - unfold staged_append. by destruct (append_entry _ _ _ _ _) as [[??]?].
Qed.

Lemma delete_run k x sts :
  room 1 (snd x) →
  stmt_step (T:=mtail) kv_schema pk_k [0%nat] (snd x, sts)
    (snd (fst (staged_delete k x)), routed_of (λ x, sg_routed (fst x)) (snd (staged_delete k x)) sts).
Proof.
  intros Hroom. destruct (staged_delete k x) as [[tail' t'] r] eqn:E. cbn [fst snd].
  pose proof (stmt_keyed (T:=mtail) kv_schema pk_k [0%nat] (snd x) sts the_table (enc (str_bytes k)) (delete_op k) (fst x) tail' t' r) as Hst.
  destruct r as [[st n]|]; by apply Hst.
Qed.

Lemma ro4_routed : ro4 ∈ rs4.
Proof.
  assert (rs4 = ro4 :: tl rs4) as Hr by by vm_compute. rewrite Hr. apply elem_of_cons. by left.
Qed.

Ltac room_append := intros aligned Hal; vm_compute in Hal; injection Hal as <-; room_here.

Lemma flush_handover_invisible_witness :
  let t3 := move_pending_to_flushed_gen (sn_n_batches (snd snap2)) (sn_keyed (snd snap2)) (SnapshotId 7) 0 buf5 in
  let c c' := match c' with SnapshotId 7 => true | _ => false end in
  let scan := view [0%nat] (λ _, false) [row "b" "0"; row "x" "9"] buf5 in
  scan = [row "x" "9"; row "a" "1"; row "b" "2"] ∧
  view [0%nat] c [row "x" "9"; row "a" "1"] t3 ≡ₚ scan.
Proof.
  split; [by vm_compute|].
  assert (rtc (stmt_step (T:=mtail) kv_schema pk_k [0%nat]) (empty_buf kv_schema, []) (snd (fst st2), rs2)) as H1.
  { eapply rtc_l; [apply (append_run [row "a" "1"] (Some tail0, empty_buf kv_schema)); [room_append|done]|].
    apply rtc_once, (delete_run "b" (fst st1)). room_here. }
  apply (race_steps kv_schema pk_k [0%nat] eq_refl 0 [] []) in H1; [|apply race_inv_start].
  refine (proj2 (flush_handover_invisible (T:=mtail) kv_schema pk_k [0%nat] eq_refl (snd (fst st2)) rs2 (fst snap2) (snd snap2)
    buf5 rs4 (SnapshotId 7) 0 (λ _, false) [row "b" "0"; row "x" "9"] H1 (surjective_pairing _) _) _ _ _ _ _).
  - apply (rtc_l _ _ (snd (fst st3), routed_of sg_routed (snd st3) rs2)).
    { apply (append_run [row "b" "2"] (fst (fst st2), fst snap2)); [room_append|done]. }
    apply (rtc_l _ _ (snd (fst st4), rs4)).
    { apply (append_run [row "c" "3"] (fst st3)); [room_append|done]. }
    apply rtc_once. unfold buf5. generalize ro4_routed. generalize ro4, rs4, (snd (fst st4)). intros r rs t. apply stmt_failed.
  - done.
  - intros g Hg. vm_compute in Hg. by apply not_elem_of_nil in Hg.
  - vm_compute. done.
Defined.

(** The same window handed over, and "c" inserted meanwhile. *)
Definition buf6 : TableBuf (RecordBatch:=batch) :=
  snd (fst (staged_append [row "c" "3"] (fst (fst st2),
    move_pending_to_flushed_gen (sn_n_batches (snd snap2)) (sn_keyed (snd snap2)) (SnapshotId 7) 0 (fst snap2)))).
Definition gen6 : FlushedGen (RecordBatch:=batch) :=
  {| fg_commit := SnapshotId 7; fg_batches := [(Some 1, rows_batch [row "a" "1"])];
     fg_keyed := [(enc (str_bytes "b"), 1, {| ko_key_row := key_of "b"; ko_kind := KDeleteRow; ko_seq := Some 2 |})];
     fg_committed_at := 0; fg_observed := false |}.

Lemma conflict_merge_back_exact_witness :
  let scan t := view [0%nat] (λ _, false) [row "b" "0"; row "x" "9"] t in
  flushed buf6 = [gen6] ∧ scan buf6 = [row "x" "9"; row "a" "1"; row "c" "3"] ∧
  scan (move_flushed_back_to_pending 7 buf6) ≡ₚ scan buf6.
Proof.
  assert (flushed buf6 = [gen6]) as Hf by by vm_compute. split; [done|]. split; [by vm_compute|].
  set (k6 := default (new_keyed pk_k) (keyed buf6)). assert (keyed buf6 = Some k6) as Hk by by vm_compute.
  apply (conflict_merge_back_exact [0%nat] 7 (λ _, false) _ buf6 k6 gen6 [] Hf eq_refl); [| |exact Hk| | | |].
  - intros g' Hg. by apply not_elem_of_nil in Hg.
  - done.
  - apply NoDup_singleton.
  - intros key s op Hx. apply list_elem_of_singleton in Hx. injection Hx as -> -> ->. by intros b [=].
  - intros key s op e Hx He. assert (ks_entries k6 = ∅) as Hem by by vm_compute.
    rewrite Hem in He. by rewrite lookup_empty in He.
  - intros r Hr. assert (r = row "c" "3") as -> by by apply list_elem_of_singleton. cbn.
    rewrite list_elem_of_singleton. by vm_compute.
Defined.
