(* ===== verification/ScenariosOnce.v ===== *)
(** * Concrete runs: exactly once

    The batches, tail and table of [ScenariosBuffer] in a run of the exactly-once
    system with a commit and a crash. *)
From stdpp Require Import sorting.
From S2P Require Import Prelude Text TailNames Tail Keyed TableOps Buffer Overlay OverlayView FlushRace Flush.
From S2P Require Import ExactlyOnce ExactlyOnceInv ExactlyOnceSys ScenariosBuffer.
#[local] Open Scope N_scope.

Lemma align_pairs (rows : list (list byte * list byte)) :
  let b := rows_batch (map (λ '(x, y), [x; y]) rows) in align_batch b kv_schema = Ok b.
Proof.
  cbv zeta. unfold align_batch. cbn [num_columns schema_of text_columnar rows_batch bt_schema kv_schema length Nat.eqb negb].
  unfold align_column, cast_to. cbn.
  assert (eq_ignore_ascii_case [Byte.x6b] [Byte.x6b] = true) as -> by by vm_compute.
  assert (eq_ignore_ascii_case [Byte.x76] [Byte.x76] = true) as -> by by vm_compute.
  destruct (decide (Utf8 = Utf8)) as [_|]; [|done]. cbn. unfold rows_batch. do 2 f_equal.
  apply list_eq. intros j. rewrite !list_lookup_fmap, !length_map. destruct (rows !! j) as [[x y]|] eqn:E.
  - rewrite lookup_seq_lt by by eapply lookup_lt_Some. cbn. unfold at_row. cbn. by rewrite !list_lookup_fmap, E.
  - rewrite lookup_seq_ge by by apply lookup_ge_None. done.
Qed.

Lemma text_align_idem b b' : align_batch b kv_schema = Ok b' → align_batch b' kv_schema = Ok b'.
Proof.
  intros Hb. unfold align_batch in Hb. destruct (negb _) in Hb; [done|]. apply bind_Ok in Hb as (cols & Hc & Hb).
  cbn in Hc. apply bind_Ok in Hc as (c0 & H0 & Hc). apply bind_Ok in Hc as (l & Hc & Hl).
  apply bind_Ok in Hc as (c1 & H1 & Hc). apply Ok_inj in Hc as <-. apply Ok_inj in Hl as <-.
  apply Ok_inj in Hb as <-. cbn [map].
  pose proof (align_pairs (map (λ j, (at_row j c0, at_row j c1)) (seq 0 (col_rows [c0; c1])))) as Hp.
  rewrite map_map in Hp. exact Hp.
Qed.

Abbreviation System := (Sys (RecordBatch:=batch) (Row:=Cells)).
Abbreviation steps_to := (rtc (sys_step (ArrayRef:=cells) the_table kv_schema)).
Definition sys_append (rs : list Cells) (s : System) := append_entry the_table [rows_batch rs] (Some (sy_tail s)) None (sy_buf s).
Definition staged_sys (rs : list Cells) (s : System) : System :=
  match sys_append rs s with
  | (Some t, b, Ok st) =>
    set_waits ((length (sy_stmts s), default 0 (sg_wait st), sg_routed st) :: sy_waits s) (sy_stmts s ++ [[rows_batch rs]])
      (sy_acked s) (sy_failed s) (set_tail t (set_buf b s))
  | _ => s
  end.
Definition wait_of (s : System) : nat * N * RoutedStmt := default (0%nat, 0, no_route) (head (sy_waits s)).
Definition acked_sys (s : System) : System :=
  let '(id, seq, ro) := wait_of s in
  set_waits (List.filter (no_wait id) (sy_waits s)) (sy_stmts s) (id :: sy_acked s) (sy_failed s)
    (set_buf (note_durable seq (sy_buf s)) s).

Lemma staged_sys_step rs s t b st q :
  sys_append rs s = (Some t, b, Ok st) → sg_wait st = Some q →
  map_result (λ b, align_batch b kv_schema) [rows_batch rs] = Ok [rows_batch rs] → rs ≠ [] →
  st_next (sy_tail s) + 1 < u64_modulus → next_batch_id (sy_buf s) + 1 < u64_modulus →
  sys_step (ArrayRef:=cells) the_table kv_schema s (staged_sys rs s).
Proof.
  intros Ha Hq Hal Hne H1 H2. unfold staged_sys. rewrite Ha, Hq. cbn [default].
  eapply sys_stage; [exact Hal| |done|done|exact Ha|done].
  unfold batch_rows. cbn. by rewrite app_nil_r.
Qed.

Definition staged_ok (rs : list Cells) (s : System) : bool :=
  match sys_append rs s, map_result (λ b, align_batch b kv_schema) [rows_batch rs] with
  | (Some _, _, Ok st), Ok aligned =>
    bool_decide (is_Some (sg_wait st)) && bool_decide (map bt_rows aligned = [rs]) &&
    bool_decide (map bt_schema aligned = [kv_schema]) && bool_decide (rs ≠ []) &&
    (st_next (sy_tail s) + 1 <? u64_modulus) && (next_batch_id (sy_buf s) + 1 <? u64_modulus)
  | _, _ => false
  end.

Lemma staged_ok_step rs s : staged_ok rs s = true → sys_step (ArrayRef:=cells) the_table kv_schema s (staged_sys rs s).
Proof.
  unfold staged_ok. destruct (sys_append rs s) as [[[t|] b] [st|]] eqn:Ea; [|done..].
  destruct (map_result _ _) as [aligned|] eqn:Em; [|done]. intros Hb.
  apply andb_prop in Hb as [Hb H6%N.ltb_lt]. apply andb_prop in Hb as [Hb H5%N.ltb_lt].
  apply andb_prop in Hb as [Hb H4%bool_decide_eq_true]. apply andb_prop in Hb as [Hb H3%bool_decide_eq_true].
  apply andb_prop in Hb as [H1%bool_decide_eq_true H2%bool_decide_eq_true]. destruct H1 as [q Hq].
  eapply staged_sys_step; try done. rewrite Em. f_equal.
  destruct aligned as [|[sc rows] [|]]; simplify_eq/=; done.
Qed.

Lemma acked_sys_step s :
  sy_waits s ≠ [] → sys_step (ArrayRef:=cells) the_table kv_schema s (acked_sys s).
Proof.
  intros Hne. unfold acked_sys. destruct (wait_of s) as [[id seq] ro] eqn:E. apply sys_durable with ro.
  unfold wait_of in E. destruct (sy_waits s) as [|w l]; [done|]. cbn in E. subst w. by left.
Qed.

(** "a" is acked, flushed and committed; "b" is acked while the commit is out;
    the machine stops before the truncation and boots again. *)
Definition e0 : System := sys_start kv_schema [row "x" "9"].
Definition e1 : System := acked_sys (staged_sys [row "a" "1"] e0).
Definition snap_e := snd (snapshot_pending (sy_buf e1)).
Definition e2 : System := set_phase (Taken snap_e) (set_buf (fst (snapshot_pending (sy_buf e1))) e1).
Definition rows_e : list Cells := [row "x" "9"; row "a" "1"].
Definition text_e : list byte := print_u64 1.
Definition e3 : System :=
  set_phase (Ready snap_e 7 (sy_head e2) rows_e text_e) (set_buf (note_observed (committed_in e2) (sy_buf e2)) e2).
Definition e4 : System :=
  set_phase (Posted snap_e 7 (sy_head e2) rows_e text_e)
    (set_buf (move_pending_to_flushed_gen (sn_n_batches snap_e) (sn_keyed snap_e) (SnapshotId 7) 0 (sy_buf e3)) e3).
Definition e5 : System := acked_sys (staged_sys [row "b" "2"] e4).
Definition e6 : System := set_phase Idle (set_lake rows_e (7%Z :: sy_snaps e5) (Some text_e) (sy_foreign e5) e5).
Definition w_e := effective_watermark (sy_prop e6) (st_sidecar (sy_tail e6)).
Definition buf_e : TableBuf (RecordBatch:=batch) :=
  default (empty_buf kv_schema) (boot_buf the_table kv_schema (fst (drop_stale_frames (st_frames (sy_tail e6)) w_e))).
Definition e7 : System :=
  {| sy_buf := buf_e;
     sy_tail := {| st_next := match w_e with Some w => N.max 3 (wadd w 1) | None => 3 end;
                   st_frames := st_frames (sy_tail e6); st_sidecar := st_sidecar (sy_tail e6) |};
     sy_rows := sy_rows e6; sy_snaps := sy_snaps e6; sy_prop := sy_prop e6; sy_head := sy_head e6;
     sy_phase := Idle; sy_waits := []; sy_stmts := sy_stmts e6; sy_acked := sy_acked e6;
     sy_failed := sy_failed e6; sy_foreign := sy_foreign e6 |}.

Lemma e1_step1 : sys_step (ArrayRef:=cells) the_table kv_schema e0 (staged_sys [row "a" "1"] e0).
Proof. apply staged_ok_step. by vm_compute. Qed.

Lemma e1_step2 : sys_step (ArrayRef:=cells) the_table kv_schema (staged_sys [row "a" "1"] e0) e1.
Proof. apply acked_sys_step. by vm_compute. Qed.

Lemma e2_step : sys_step (ArrayRef:=cells) the_table kv_schema e1 e2.
Proof. unfold e2. apply sys_take; [by vm_compute|apply surjective_pairing|by vm_compute]. Qed.

Lemma e3_step : sys_step (ArrayRef:=cells) the_table kv_schema e2 e3.
Proof.
  unfold e3. refine (sys_prepare _ _ e2 snap_e 1 text_e 7 rows_e eq_refl _ _ _ _ _); [by vm_compute|by vm_compute| | |].
  - apply not_elem_of_nil.
  - intros g Hg. vm_compute in Hg. by apply not_elem_of_nil in Hg.
  - by vm_compute.
Qed.

Lemma e4_step : sys_step (ArrayRef:=cells) the_table kv_schema e3 e4.
Proof. exact (sys_hand_over _ _ e3 snap_e 7 (sy_head e2) rows_e text_e 0 eq_refl). Qed.

Lemma e5_step1 : sys_step (ArrayRef:=cells) the_table kv_schema e4 (staged_sys [row "b" "2"] e4).
Proof. apply staged_ok_step. by vm_compute. Qed.

Lemma e5_step2 : sys_step (ArrayRef:=cells) the_table kv_schema (staged_sys [row "b" "2"] e4) e5.
Proof. apply acked_sys_step. by vm_compute. Qed.

Lemma e6_step : sys_step (ArrayRef:=cells) the_table kv_schema e5 e6.
Proof. unfold e6. apply (sys_commit _ _ e5 snap_e 7 0); by vm_compute. Qed.

Lemma e7_step : sys_step (ArrayRef:=cells) the_table kv_schema e6 e7.
Proof.
  unfold e7, w_e. apply (sys_crash _ _ e6 (st_frames (sy_tail e6)) 3 buf_e); [done|done| |by vm_compute..].
  assert (Forall (λ q, q < 3) (map fst (st_frames (sy_tail e6)))) as Hf.
  { replace (map fst (st_frames (sy_tail e6))) with [1; 2] by by vm_compute. by repeat constructor. }
  intros f Hin. rewrite Forall_forall in Hf. apply Hf. by apply list_elem_of_fmap_2.
Qed.

Lemma e7_reachable : sys_reachable (ArrayRef:=cells) the_table kv_schema e7.
Proof.
  exists [row "x" "9"]. eapply rtc_l; [exact e1_step1|]. eapply rtc_l; [exact e1_step2|].
  eapply rtc_l; [exact e2_step|]. eapply rtc_l; [exact e3_step|]. eapply rtc_l; [exact e4_step|].
  eapply rtc_l; [exact e5_step1|]. eapply rtc_l; [exact e5_step2|]. eapply rtc_l; [exact e6_step|].
  apply rtc_once, e7_step.
Qed.

