(* ===== verification/ScenariosCache.v ===== *)
(** * Concrete runs: freshness and the table cache

    A table whose metadata is a number: version [n] lives at no location and has
    snapshot [n].  One run in which loads follow each other and one in which a
    slow load overlaps two others. *)
From S2P Require Import Prelude Text TailNames Freshness Cache CacheRace.
#[local] Open Scope N_scope.

Abbreviation world := (CacheRace.world (Table:=N) (Provider:=N)).
Abbreviation action := (CacheRace.action (Table:=N)).

#[export] Instance numbered : IcebergTable N N := {
  metadata_location _ := None;
  current_snapshot_id t := Some (Z.of_N t);
  snapshot_for_ref t _ := Some (Z.of_N t);
  try_new_from_table t := Ok t;
  try_new_from_table_snapshot _ z := Ok (Z.to_N z);
}.

(** ** A runner *)
Definition roomb (w : world) : bool :=
  match cp_freshness (w_prov w) with Some f => write_gen f <? u64_max | None => true end.
Lemma cache_roomb_sound w : roomb w = true → room w.
Proof. unfold roomb, room. intros Hb f Hf. rewrite Hf in Hb. by apply N.ltb_lt. Qed.
Fixpoint run_all (solo : bool) (acts : list action) (w : world) : option world :=
  match acts with
  | [] => Some w
  | a :: acts =>
    if roomb w then
      w' ← exec None a w;
      if implb solo (length (List.filter loads (w_threads w')) <=? 1)%nat then run_all solo acts w' else None
    else None
  end.
Lemma cache_run_all_sound solo acts w0 w w' :
  run None solo w0 w → run_all solo acts w = Some w' → run None solo w0 w'.
Proof.
  revert w. induction acts as [|a acts IH]; intros w Hr Ha; cbn [run_all] in Ha; [by simplify_eq|].
  destruct (roomb w) eqn:Eb; [|done]. apply bind_Some in Ha as (w1 & Hx & Ha).
  destruct (implb _ _) eqn:Es; [|done]. eapply IH; [|exact Ha]. eapply run_step; [done|by apply cache_roomb_sound|done|].
  intros ->. cbn in Es. by apply Nat.leb_le.
Qed.

(** ** The runs *)
Definition tbl : TableIdent := {| namespace := [[Byte.x6e]]; table_name := [Byte.x74] |}. (* n.t *)
Definition w_start : world :=
  {| w_cat := [5]; w_pending := []; w_acked := 0;
     w_prov := {| cp_ident := tbl; cp_cached := None; cp_branch := None;
                  cp_freshness := Some (tf_new 0); cp_overlay := false |};
     w_threads := [] |}.
Lemma w_start_started : started w_start.
Proof. repeat (split; [done|]). by exists (tf_new 0). Qed.
Definition finish (i : nat) : list action := replicate 5 (Step i 7 true).

(** A refresh; a local commit; a scan that reads the cache before the write is
    acknowledged, and one after. *)
Definition sequential : list action :=
  StartRefresh :: finish 0 ++
  [LocalCommit 6; StartScan; Step 1 8 true; Invalidate; StartScan] ++ finish 2 ++
  [ForeignCommit 7; StartScan; Step 3 9 true].
Definition w_sequential : world := default w_start (run_all true sequential w_start).


(** A refresh reads the old version and stalls.  A scan that also began before
    the local commit is invalidated reads the new version and installs it; after
    the invalidation another scan finds it current, which leaves its generation
    alone.  The stalled refresh then installs the old version over it, and the
    cache is fresh. *)
Definition overlapping : list action :=
  [StartRefresh; StartScan; Step 0 7 true; LocalCommit 6] ++ finish 1 ++
  [Invalidate; StartScan; Step 2 8 true; Step 2 8 true] ++ [Step 0 9 true; Step 0 9 true; Step 0 9 true; Step 0 9 true] ++
  [StartScan; Step 3 10 true].
Definition w_overlapping : world := default w_start (run_all false overlapping w_start).

Lemma not_newer : ¬ as_new_as (Table:=N) (Provider:=N) None [5; 6] 1 (None, Some 5%Z).
Proof.
  intros (j & t & Hj & Hle & Hv). destruct j as [|[|j]].
  - by apply Nat.nle_succ_0 in Hle.
  - injection Hj as <-. by vm_compute in Hv.
  - done.
Qed.

(** The install's generation guard is not enough once loads overlap: a scan that
    starts after the local write of version 6 is acknowledged, with no load in
    flight, is served version 5. *)
Theorem overlapping_loads_serve_old_snapshot :
  started w_start ∧ run None false w_start w_overlapping ∧
  w_cat w_overlapping = [5; 6] ∧
  w_threads w_overlapping !! 3%nat =
    Some {| th_path := Scan; th_acked := 1; th_pc := Served (None, Some 5%Z) |} ∧
  ¬ as_new_as None (w_cat w_overlapping) 1 (None, Some 5%Z).
Proof.
  split_and!.
  - apply w_start_started.
  - eapply (cache_run_all_sound false overlapping w_start); [constructor|by vm_compute].
  - by vm_compute.
  - by vm_compute.
  - assert (w_cat w_overlapping = [5; 6]) as -> by (by vm_compute). apply not_newer.
Qed.

(** ** The respawn budget *)
Lemma respawns_bounded_witness :
  let times := spawns {| sv_window := 0; sv_respawns := 0 |} 0 (replicate 12 0) in
  times !! 0%nat = Some 0 ∧ times !! 12%nat = Some 120000 ∧ 0 + WINDOW ≤ 120000.
Proof.
  split; [by vm_compute|]. split; [by vm_compute|].
  apply (respawns_bounded 0 (replicate 12 0) 0); by vm_compute.
Defined.

(** ** Pinned snapshots of one table *)
Definition pin_name (n : N) : list byte := [Byte.x74; AT; byte_of_N (48 + n / 10); byte_of_N (48 + n mod 10)].
Definition pins : list (pinned_op (Provider:=N)) :=
  map (λ i, let n := N.of_nat i in PInsert (pin_name n) [Byte.x74] n) (seq 0 16) ++ [PGet (pin_name 0)].
Lemma pinned_cache_bounded_witness :
  let p := foldl (λ p o, pinned_exec o p) pinned_new pins in
  let p' := pinned_insert (pin_name 77) [Byte.x74] 77 p in
  is_Some (pc_map p' !! pin_name 0) ∧ pc_map p' !! pin_name 1 = None ∧
  (∀ base, (size (base_entries base (pc_map p')) ≤ MAX_PINNED_PER_TABLE)%nat).
Proof.
  split; [by vm_compute; eexists|]. split; [by vm_compute|].
  apply (pinned_cache_bounded pins (pin_name 77) [Byte.x74] 77).
  - apply Forall_forall. assert (forallb (λ o : pinned_op (Provider:=N), match o with PGet _ => true | PInsert name base _ => of_base base name end) pins = true) as Hall by (by vm_compute).
    rewrite forallb_forall in Hall. intros o Ho. apply list_elem_of_In in Ho. specialize (Hall o Ho). by destruct o.
  - by vm_compute.
  - by vm_compute.
Defined.
