(* ===== verification/ScenariosPlan.v ===== *)
(** * Concrete runs: plan and result caches

    A planner whose statements scan one table; the batch of a scan is the
    snapshot it reads.  One statement runs through the hook and fills both
    caches. *)
From S2P Require Import Prelude Text TailNames Freshness Cache PlanCache.
#[local] Open Scope N_scope.

(** ** A planner *)
Inductive Op := OScan (v : MetadataVersion) | OFilter.
#[export] Instance op_operator : Operator Op := {
  op_name o := match o with OScan _ => "IcebergTableScan" | OFilter => "FilterExec" end;
  rebuild o _ := Ok o;
}.
Fixpoint rows (p : ExecutionPlan Op) : list N :=
  let '(Node op cs) := p in
  match op with
  | OScan v => [Z.to_N (default 0%Z (snd v))]
  | OFilter => flat_map rows cs
  end.
Definition t_key : list byte := table_key {| namespace := [[Byte.x6e]]; table_name := [Byte.x74] |}.
#[export] Instance one_table : Planner (list byte) Op unit N := {
  create_logical_plan _ sql := Ok sql;
  logical_nodes _ := [{| ln_exprs := [OtherExpr]; ln_scan := None |};
                      {| ln_exprs := [ScalarFunction Immutable]; ln_scan := Some (Caching t_key 0) |}];
  scanned _ _ := [0%nat];
  create_physical_plan _ _ reads := Ok (Node OFilter [Node (OScan (reads 0%nat)) []]);
  plan_schema _ := tt;
  executes p bs := bs = rows p;
  get_array_memory_size _ := 100;
}.
#[export] Instance one_table_laws : PlannerLaws (list byte) Op unit N.
Proof.
  split.
  - intros state l i p Hi. exists {| ln_exprs := [ScalarFunction Immutable]; ln_scan := Some (Caching t_key 0) |}, t_key.
    apply list_lookup_singleton_Some in Hi as [_ <-]. split; [right; by left|done].
  - intros op cs cs' op' [= <-] Hcs bs. cbn. destruct op; [done|].
    assert (flat_map rows cs = flat_map rows cs') as ->; [|done].
    induction Hcs as [|c c' cs cs' Hc _ IH]; [done|]. cbn. f_equal; [|exact IH]. by apply Hc.
Defined.

(** ** The run *)
Definition registry : Registry := register t_key 0 0 {| rs_heap := {[0%nat := tf_new 0]}; rs_live := {[0%nat]}; rs_map := None |}.
Definition m5 : Moment := {| mo_registry := registry; mo_version _ := Some (None, Some 5%Z) |}.
Definition session : SessionState := {| default_catalog := [Byte.x69]; default_schema := [Byte.x6e]; time_zone := [] |}.
Definition stmt : list byte := [Byte.x73; Byte.x71].
Abbreviation world := (pworld (Logical:=list byte) (Op:=Op) (Schema:=unit) (Batch:=N)).
Abbreviation paction := (PlanCache.paction (Batch:=N)).
Definition w_new : world :=
  {| pw_hook := {| hk_cache := plan_cache_new 256; hk_results := with_budget 1000 |}; pw_statements := [] |}.
Definition acts : list paction :=
  Submit session stmt :: map (Advance 0)
    [At m5; At m5; Analyze (λ _ _, Some (None, Some 5%Z)); Reads (λ _, (None, Some 5%Z)); At m5; At m5;
     Poll (PBatch 5); Poll PPending; Poll PEnd].

Definition lawfulb (a : paction) (w : world) : bool :=
  match a with
  | Submit _ _ => true
  | Advance i x =>
    match pw_statements w !! i with
    | None => true
    | Some s =>
      match st_pc s, x with
      | Planned _ (Some _) reads _, At m => bool_decide (current_version m t_key = Some (reads 0%nat))
      | Streaming plan got _, Poll PEnd => bool_decide (got = rows plan)
      | _, _ => true
      end
    end
  end.
Lemma lawfulb_sound a w : lawfulb a w = true → lawful a w.
Proof.
  unfold lawfulb. intros Hb i x s -> Hs. rewrite Hs in Hb.
  destruct (st_pc s) as [| | | |l [tables|] reads plan| |plan got t| | |]; try done; destruct x as [m| | |[| | |]|]; try done.
  - apply bool_decide_eq_true in Hb. intros j p n k v Hj Hn Hk _ Hc.
    apply list_lookup_singleton_Some in Hj as [-> <-]. apply elem_of_cons in Hn as [->|Hn]; [done|].
    apply list_elem_of_singleton in Hn as ->. injection Hk as <-. rewrite Hb in Hc. by injection Hc as ->.
  - by apply bool_decide_eq_true in Hb.
Qed.
Fixpoint play (acts : list paction) (w : world) : option world :=
  match acts with
  | [] => Some w
  | a :: acts => if lawfulb a w then w' ← pexec false a w; play acts w' else None
  end.
Lemma play_sound acts w0 w w' : prun false w0 w → play acts w = Some w' → prun false w0 w'.
Proof.
  revert w. induction acts as [|a acts IH]; intros w Hr Ha; cbn [play] in Ha; [by injection Ha as <-|].
  destruct (lawfulb a w) eqn:El; [|done]. apply bind_Some in Ha as (w1 & Hx & Ha).
  eapply IH; [|exact Ha]. eapply prun_step; [done|by apply lawfulb_sound|done].
Qed.
Definition w_played : world := default w_new (play acts w_new).
Lemma w_played_run : prun false w_new w_played.
Proof. apply (play_sound acts w_new w_new); [constructor|by vm_compute]. Qed.


(** ** The byte budget *)
Definition k_of (n : N) : PlanKey := from_state session [byte_of_N n].
Definition v5 : Versions := [(t_key, (None, Some 5%Z))].
Definition inserts : list (result_op (Batch:=N) (Schema:=unit)) :=
  [RInsert (k_of 1) [1] tt v5 90; RInsert (k_of 2) [2] tt v5 80; RInsert (k_of 3) [3] tt v5 100;
   RLookup (k_of 1) (λ _, Some (None, Some 5%Z)); RInsert (k_of 4) [4] tt v5 101; RInsert (k_of 5) [5] tt v5 95].
Lemma result_cache_within_budget_witness :
  let resolve _ := Some (None, Some 5%Z) in
  let c := result_insert (k_of 6) [6] tt v5 70 (foldl result_exec (with_budget 400) inserts) in
  rc_total_bytes c = 355 ∧ snd (result_lookup_with (k_of 2) resolve c) = None ∧
  snd (result_lookup_with (k_of 1) resolve c) = Some ([1], tt) ∧
  snd (result_lookup_with (k_of 6) resolve c) = Some ([6], tt).
Proof.
  cbv zeta. split; [by vm_compute|]. split; [by vm_compute|]. split; [by vm_compute|].
  eapply (result_cache_within_budget 400 inserts (k_of 6) [6] tt v5 70 (λ _, Some (None, Some 5%Z)));
    [by vm_compute|by vm_compute| |done|by vm_compute].
  split; by vm_compute.
Defined.

(** ** The tee *)
Lemma caching_tee_exact_witness :
  let sink := {| sk_key := k_of 1; sk_schema := tt; sk_tables := v5 |} in
  let size (_ : N) := 50 in
  let tee ps := snd (tee_poll size PEnd (fst (tee_polls size ps (tee_new 100 sink) (with_budget 400)))
                       (snd (tee_polls size ps (tee_new 100 sink) (with_budget 400)))) in
  tee [PBatch 7; PPending; PBatch 8] = result_insert (k_of 1) [7; 8] tt v5 100 (with_budget 400) ∧
  tee [PBatch 7; PBatch 8; PBatch 9] = with_budget 400 ∧ tee [PBatch 7; PErr "x"] = with_budget 400.
Proof.
  cbv zeta. split; [|by split].
  pose proof (caching_tee_exact (λ _, 50) 100 {| sk_key := k_of 1; sk_schema := tt; sk_tables := v5 |}
    (with_budget 400) [PBatch 7; PPending; PBatch 8]) as Hx.
  destruct Hx as [_ Hx]; [|exact Hx]. intros Hin. repeat (apply elem_of_cons in Hin as [?|Hin]; [done|]).
  by apply not_elem_of_nil in Hin.
Defined.
