(* ===== verification/ScenariosWorld.v ===== *)
(** * A concrete world for the engine and transactions

    Rows of named text cells, SQL over predicates [column = 'value'], files kept
    whole, and a catalog whose answers and other writers are scripted. *)
From stdpp Require Import sorting.
From S2P Require Import Prelude Text TailNames Keyed TableOps Freshness Overwrite OverwriteRows Engine EngineLog Dml Txn TxnView.
#[local] Open Scope N_scope.

(** ** Batches of named cells *)
Abbreviation Cell := (option (list byte)).
Abbreviation NRow := (list (list byte * Cell)).
Record nbatch := { nb_schema : Schema; nb_rows : list NRow; nb_int : N }.
Record ncol := { nc_type : DataType; nc_cells : list Cell }.
Definition lower (n : list byte) : list byte := map ascii_lower n.
Definition cell_at (i : nat) (r : NRow) : Cell := default None (snd <$> r !! i).
Definition cell_named (n : list byte) (r : NRow) : Cell := default None (snd <$> List.find (λ p, bool_decide (fst p = n)) r).
Definition named_row (names : list (list byte)) (r : NRow) : NRow := map (λ n, (n, cell_named n r)) names.
Definition enc_cell (c : Cell) : list byte := match c with None => [Byte.x00] | Some v => Byte.x01 :: v ++ [Byte.x00] end.
Definition cell_j (j : nat) (c : ncol) : Cell := default None (nc_cells c !! j).
Definition col_len (cols : list ncol) : nat := match cols with [] => 0%nat | c :: _ => length (nc_cells c) end.

#[export] Instance named_columnar : Columnar nbatch ncol := {
  schema_of := nb_schema;
  column b i := {| nc_type := match nb_schema b !! i with Some f => f_type f | None => Utf8 end;
                   nc_cells := map (cell_at i) (nb_rows b) |};
  num_rows b := length (nb_rows b);
  slice_row b i := {| nb_schema := nb_schema b; nb_rows := match nb_rows b !! i with Some r => [r] | None => [] end; nb_int := 0 |};
  data_type := nc_type;
  is_null c j := match cell_j j c with None => true | Some _ => false end;
  cast_with_options c ty := Ok {| nc_type := ty; nc_cells := nc_cells c |};
  array_value_to_string c j := Ok (default [] (cell_j j c));
  try_new s cols := match cols with
                    | [] => Err "no columns"
                    | _ => Ok {| nb_schema := s; nb_int := 0;
                                 nb_rows := map (λ j, zip_with (λ f c, (lower (f_name f), cell_j j c)) s cols) (seq 0 (col_len cols)) |}
                    end;
  filter_record_batch b mask := Ok {| nb_schema := nb_schema b; nb_rows := masked mask (nb_rows b); nb_int := 0 |};
  concat_batches bs := match bs with
                       | [] => Err "no batches"
                       | b :: _ => Ok {| nb_schema := nb_schema b; nb_rows := concat (map nb_rows bs); nb_int := 0 |}
                       end;
  project b idx := Ok {| nb_schema := omap (λ i, nb_schema b !! i) idx; nb_int := 0;
                         nb_rows := map (named_row (omap (λ i, lower ∘ f_name <$> nb_schema b !! i) idx)) (nb_rows b) |};
  convert_columns cols := match cols with
                          | [] => Err "no key columns"
                          | _ => Ok (map (λ j, concat (map (λ c, enc_cell (cell_j j c)) cols)) (seq 0 (col_len cols)))
                          end;
}.

Lemma map_seq_rows {A B} (f : A → B) (g : nat → B) (l : list A) :
  (∀ j a, l !! j = Some a → g j = f a) → map g (seq 0 (length l)) = map f l.
Proof.
  intros Hg. apply list_eq. intros j. rewrite !list_lookup_fmap. destruct (decide (j < length l)%nat) as [Hj|Hj].
  - destruct (lookup_lt_is_Some_2 l j Hj) as [a Ha]. rewrite lookup_seq_lt, Ha by done. cbn. f_equal. by apply Hg.
  - rewrite lookup_seq_ge, (lookup_ge_None_2 l) by lia. done.
Qed.

#[export] Instance named_columnar_laws : ColumnarLaws nbatch ncol NRow.
Proof.
  refine {| rows_of := nb_rows : nbatch → list NRow; row_key idx r := concat (map (λ i, enc_cell (cell_at i r)) idx) |}.
  - done.
  - intros b i r Hi. cbn. by rewrite Hi.
  - done.
  - by intros b mask b' _ [= <-].
  - intros b idx ks Hc. cbn in Hc. destruct idx as [|i idx]; [done|]. injection Hc as <-.
    cbn [col_len map nc_cells]. rewrite length_map. apply map_seq_rows. intros j r Hj.
    assert (∀ i', cell_j j (column b i') = cell_at i' r) as Hcell.
    { intros i'. unfold cell_j. cbn. by rewrite list_lookup_fmap, Hj. }
    cbn in Hcell |- *. rewrite Hcell. do 2 f_equal. rewrite map_map. apply map_ext. intros i'. by rewrite Hcell.
  - intros s cols b Hb. cbn in Hb. destruct cols; [done|]. by injection Hb as <-.
Defined.

(** ** SQL *)
Definition holds_in (p : list byte) (r : NRow) : bool :=
  existsb (λ '(n, c), match c with Some v => bool_decide (p = n ++ text " = '" ++ v ++ text "'") | None => false end) r.
Definition rewritten_in (proj : list Projection) (r : NRow) : NRow :=
  map (λ pj, match pj with
             | PCase p x c => (lower c, if holds_in p r then Some x else cell_named (lower c) r)
             | PExpr x c => (lower c, Some x)
             | PColumn c => (lower c, cell_named (lower c) r)
             end) proj.
Definition null_in (r : NRow) : bool := existsb (λ p, match snd p with None => true | _ => false end) r.
Definition text_schema (cols : list (list byte)) : Schema := map (λ c, {| f_name := c; f_type := Utf8; f_nullable := true |}) cols.
Definition all_rows (bs : list nbatch) : list NRow := flat_map nb_rows bs.
Definition out_rows (cols : list (list byte)) (rows : list NRow) : list nbatch :=
  [{| nb_schema := text_schema cols; nb_rows := rows; nb_int := 0 |}].
Definition out_int (n : N) : list nbatch := [{| nb_schema := []; nb_rows := []; nb_int := n |}].
#[export] Instance text_sql : SqlEngine nbatch := {
  run_query q bs :=
    let rows := all_rows bs in
    match q with
    | CountMatched _ p => Ok (out_int (count_rows (holds_in p) rows))
    | SelectSurvivors cols _ p => Ok (out_rows cols (List.filter (λ r, negb (holds_in p r)) rows))
    | SelectRewrite proj _ =>
      Ok (out_rows (map (λ p, match p with PCase _ _ c | PExpr _ c | PColumn c => c end) proj) (map (rewritten_in proj) rows))
    | CountNulls cols => Ok (out_int (count_rows null_in rows))
    | SelectDuplicates cols => Ok (if decide (NoDup rows) then [] else out_rows cols [[]])
    end;
  first_int := nb_int;
}.
#[export] Instance whole_files : DataFiles nbatch (list nbatch) := {
  read_parquet_file f := Ok f;
  record_count f := N.of_nat (length (all_rows f));
  file_size_in_bytes _ := 0;
  write_data_files bs := Ok [bs];
}.

Definition cast_in (target : Schema) (r : NRow) : NRow :=
  zip_with (λ f i, (lower (f_name f), cell_at i r)) target (seq 0 (length target)).
Lemma cast_in_cell target r i : (i < length target)%nat → cell_at i (cast_in target r) = cell_at i r.
Proof.
  intros Hi. unfold cell_at at 1, cast_in. rewrite lookup_zip_with, lookup_seq_lt by done.
  destruct (lookup_lt_is_Some_2 target i Hi) as [f ->]. done.
Qed.
Lemma assembled_in (b : nbatch) target cols b' :
  map_result (λ '(i, f), cast_to f (column b i)) (zip (seq 0 (length target)) target) = Ok cols →
  try_new target cols = Ok b' → nb_rows b' = map (cast_in target) (nb_rows b).
Proof.
  intros Hc Hb. assert (∀ l cols, map_result (λ '(i, f), cast_to f (column b i)) l = Ok cols →
    map nc_cells cols = map (λ p, map (cell_at (fst p)) (nb_rows b)) l) as Hcells.
  { clear. induction l as [|[i f] l IH]; intros cols Hc; cbn [map_result] in Hc; [by injection Hc as <-|].
    apply bind_Ok in Hc as (c & Hci & Hc). apply bind_Ok in Hc as (cs & Hcs & Hc). injection Hc as <-. cbn [map].
    rewrite (IH cs Hcs). f_equal. unfold cast_to in Hci. destruct (decide _); by injection Hci as <-. }
  apply Hcells in Hc. cbn in Hb. destruct cols as [|c cols'] eqn:Ec; [done|]. injection Hb as <-. rewrite <-Ec in *. cbn [nb_rows].
  assert (col_len cols = length (nb_rows b)) as Hlen.
  { destruct target as [|f target]; [by rewrite Ec in Hc|]. rewrite Ec in Hc |- *. cbn in Hc. injection Hc as Hc _. cbn. by rewrite Hc, length_map. }
  assert (length (nc_cells c) = length (nb_rows b)) as -> by (rewrite <-Hlen, Ec; done). apply map_seq_rows. intros j r Hj. unfold cast_in. clear Hlen.
  revert Hc. clear Ec. generalize cols as l. generalize 0%nat as k. induction target as [|f target IH]; intros k l Hc; destruct l as [|c0 l]; try done.
  cbn in Hc |- *. injection Hc as Hc0 Hc. f_equal; [|by apply IH]. f_equal. unfold cell_j. rewrite Hc0, list_lookup_fmap, Hj. done.
Qed.

#[export] Instance text_engine_laws : EngineLaws nbatch ncol (list nbatch) NRow.
Proof.
  refine {| holds _ p r := Some (holds_in p r); rewritten proj _ := rewritten_in proj; restrict := named_row; has_null := null_in;
            cast_row := cast_in |}.
  - intros cols from p bs out _ [= <-]. unfold count_rows. cbn. do 2 f_equal. apply List.filter_ext. intros r. by destruct (holds_in p r).
  - intros cols from p bs out _ [= <-]. split.
    + constructor; [|constructor]. cbn. unfold text_schema. rewrite map_map. apply map_id.
    + unfold batch_rows. cbn. rewrite app_nil_r. apply Permutation_refl'. apply List.filter_ext. intros r. by destruct (holds_in p r).
  - intros cols proj from bs out _ <- [= <-]. split.
    + constructor; [|constructor]. cbn. unfold text_schema. rewrite map_map. apply map_id.
    + unfold batch_rows. cbn. by rewrite app_nil_r.
  - by intros cols bs out [= <-].
  - intros cols bs out Ho. cbn in Ho. injection Ho as <-. intros Hn. by destruct (decide (NoDup (all_rows bs))).
  - by intros b idx b' _ [= <-].
  - intros bs b Hb. cbn in Hb. destruct bs as [|b0 bs]; [done|]. injection Hb as <-. unfold batch_rows. by rewrite flat_map_concat_map.
  - intros b target cols b' _. apply assembled_in.
  - intros target r. apply list_eq. intros i. destruct (decide (i < length target)%nat) as [Hi|Hi].
    + unfold cast_in at 1 3. rewrite !lookup_zip_with, lookup_seq_lt by done.
      destruct (lookup_lt_is_Some_2 target i Hi) as [f ->]. cbn. by rewrite cast_in_cell.
    + assert (∀ r', cast_in target r' !! i = None) as Hnone.
      { intros r'. apply lookup_ge_None_2. unfold cast_in. rewrite length_zip_with. lia. }
      by rewrite !Hnone.
  - intros bs fs [= <-]. exists [bs]. split.
    + constructor; [|constructor]. by split.
    + cbn. by rewrite app_nil_r.
Defined.

(** ** A catalog *)
Abbreviation NFile := (list nbatch).
Abbreviation NMove := (Move NFile).
Inductive PostFate := Answers | AppliesSilently | GetsLost.
(** What others commit before a call, and how the call ends if it is a post. *)
Record Event := { ev_moves : list NMove; ev_fate : PostFate }.
Record World := { w_moves : list NMove; w_script : list Event; w_probe : N; w_next : Z }.
Definition move_key (m : NMove) : option (TableIdent * Z) := (λ s, (mv_ident m, sn_id s)) <$> mv_head m.
Definition consistent (l : list NMove) : Prop := NoDup (omap move_key l).
#[export] Instance consistent_dec l : Decision (consistent l).
Proof. unfold consistent. apply _. Defined.
(** A world whose snapshot ids collide counts as empty. *)
Definition world_log (w : World) : list NMove := if decide (consistent (w_moves w)) then w_moves w else [].
Definition extend (l : list NMove) (w : World) : World * bool :=
  if decide (consistent (w_moves w ++ l))
  then ({| w_moves := w_moves w ++ l; w_script := w_script w; w_probe := w_probe w; w_next := w_next w |}, true)
  else (w, false).
Definition others_act (w : World) : World * PostFate :=
  match w_script w with
  | [] => (w, Answers)
  | ev :: script =>
    (fst (extend (List.filter (λ m, negb (mv_mine m)) (ev_moves ev))
            {| w_moves := w_moves w; w_script := script; w_probe := w_probe w; w_next := w_next w |}), ev_fate ev)
  end.
Definition kv_schema : Schema :=
  [{| f_name := text "k"; f_type := Utf8; f_nullable := false |}; {| f_name := text "v"; f_type := Utf8; f_nullable := true |}].
Definition table_at (l : list NMove) (t : TableIdent) : Table NFile :=
  {| tb_ident := t; tb_uuid := 7; tb_format_v2 := true; tb_unpartitioned := true; tb_schema := kv_schema;
     tb_properties := λ k, if String.eqb k PK_PROPERTY then Some (text " k ") else None;
     tb_current := head_of l t MAIN_BRANCH; tb_ref := head_of l t; tb_next_seq := 1 |}.
Definition accepts (rqs : list (CommitTableRequest NFile)) (l : list NMove) : bool :=
  forallb (λ rq, bool_decide (sn_id <$> head_of l (rq_ident rq) (rq_branch rq) = rq_head rq)) rqs.
Definition post_all (rqs : list (CommitTableRequest NFile)) (w : World) : World * result (N * string) :=
  let '(w, fate) := others_act w in
  let refused := (w, match fate with Answers => Ok (CONFLICT, "requirement failed") | _ => Err "connection reset" end) in
  match fate with
  | GetsLost => refused
  | _ => if accepts rqs (world_log w) then
           match extend (map move_of rqs) w with
           | (w', true) => (w', match fate with Answers => Ok (200, "") | _ => Err "connection reset" end)
           | (_, false) => refused
           end
         else refused
  end.
#[export] Instance scripted_catalog : Catalog World NFile := {
  load_table t w := let w := fst (others_act w) in (w, Ok (table_at (world_log w) t));
  post_table _ _ rq w := post_all [rq] w;
  post_changes rqs w := post_all rqs w;
  post_probe w := (w, Ok (w_probe w, ""));
  unique_snapshot_id _ w :=
    ({| w_moves := w_moves w; w_script := w_script w; w_probe := w_probe w; w_next := (w_next w + 1)%Z |}, w_next w);
  invalidate_read_cache _ w := w;
}.

Lemma extend_log l w w' b : extend l w = (w', b) → world_log w' = world_log w ++ (if b then l else []).
Proof.
  unfold extend, world_log. destruct (decide (consistent (w_moves w ++ l))) as [Hc|]; intros He; injection He as <- <-; [|by rewrite app_nil_r].
  cbn. rewrite decide_True by done. rewrite decide_True; [done|]. unfold consistent in *. rewrite omap_app in Hc. by apply NoDup_app in Hc as [? _].
Qed.
Lemma own_filtered (l : list NMove) : own (List.filter (λ m, negb (mv_mine m)) l) = [].
Proof. unfold own. induction l as [|m l IH]; cbn; [done|]. destruct (mv_mine m) eqn:Em; cbn; [done|]. by rewrite Em. Qed.
Lemma others_log w w' f : others_act w = (w', f) → ∃ l, world_log w' = world_log w ++ l ∧ own l = [].
Proof.
  unfold others_act. destruct (w_script w) as [|ev script]; intros Ho.
  { injection Ho as <- _. exists []. by rewrite app_nil_r. }
  injection Ho as <- _. destruct (extend _ _) as [w1 b] eqn:Ee. apply extend_log in Ee. cbn [fst]. rewrite Ee. eexists. split; [done|].
  destruct b; [apply own_filtered|done].
Qed.
Lemma post_all_log rqs w w' r : post_all rqs w = (w', r) → ∃ l, world_log w' = world_log w ++ l ∧ answered rqs (world_log w) l r.
Proof.
  unfold post_all. destruct (others_act w) as [w1 fate] eqn:Eo. apply others_log in Eo as (l & Hl & Ho).
  assert (∀ w' r, (w1, match fate with Answers => Ok (CONFLICT, "requirement failed") | _ => Err "connection reset" end) = (w', r) →
    ∃ l, world_log w' = world_log w ++ l ∧ answered rqs (world_log w) l r) as Hrefused.
  { clear w' r. intros w' r Hr. injection Hr as <- <-. exists l. split; [done|]. destruct fate; cbn; [done|by left|by left]. }
  intros Hp. destruct fate; [| |by apply Hrefused].
  all: destruct (accepts rqs (world_log w1)) eqn:Ea; [|by apply Hrefused].
  all: destruct (extend (map move_of rqs) w1) as [w2 []] eqn:Ee; [|by apply Hrefused].
  all: injection Hp as <- <-; apply extend_log in Ee; exists (l ++ map move_of rqs); rewrite Ee, Hl, app_assoc; (split; [done|]).
  all: assert (applied rqs (world_log w) (l ++ map move_of rqs)) as Happ; [|by first [done|right]].
  all: exists l, []; rewrite app_nil_r; split_and!; try done; intros rq Hrq; rewrite <-Hl.
  all: unfold accepts in Ea; rewrite forallb_forall in Ea; specialize (Ea rq); rewrite bool_decide_eq_true in Ea; apply Ea; by apply list_elem_of_In.
Qed.
#[export] Instance scripted_catalog_laws : CatalogLaws World NFile.
Proof.
  refine {| log := world_log : World → list (Move NFile); table_schema _ := kv_schema |}.
  - intros t w w' r Hl. cbn in Hl. injection Hl as <- <-. destruct (others_act w) as [w1 f] eqn:Eo. apply others_log in Eo as (l & Hl & Ho).
    exists l. cbn [fst]. split_and!; [done..|]. intros tb Htb. injection Htb as <-. split_and!; [done..|]. exists l, []. rewrite app_nil_r, <-Hl.
    split; [done|]. intros b h. unfold branch_head. cbn. destruct (String.eqb_spec b MAIN_BRANCH) as [->|]; [by intros [= <-]|].
    destruct (head_of (world_log w1) t b); [by intros [= <-]|done].
  - intros ns t rq w w' r. apply post_all_log.
  - intros rqs w w' r. apply post_all_log.
  - intros w w' r Hp. injection Hp as <- _. exists []. by rewrite app_nil_r.
  - done.
  - done.
  - intros w m m' s s' Hm Hm' Hi Hs Hs' He. unfold world_log in *. destruct (decide _) as [Hc|]; [|by apply not_elem_of_nil in Hm].
    assert (m = m') as ->; [|congruence]. unfold consistent in Hc. clear -Hc Hm Hm' Hi Hs Hs' He.
    assert (move_key m = move_key m') as Hk by (unfold move_key; by rewrite Hs, Hs', Hi; cbn; rewrite He).
    assert (is_Some (move_key m)) as [k Hk1] by (unfold move_key; by rewrite Hs). rewrite Hk1 in Hk. symmetry in Hk.
    revert Hc Hm Hm'. generalize (w_moves w) as l. induction l as [|x l IH]; intros Hc Hm Hm'; [by apply not_elem_of_nil in Hm|].
    assert (∀ y, y ∈ l → move_key y = Some k → move_key x = Some k → False) as Hdup.
    { intros y Hy Hyk Hxk. cbn in Hc. rewrite Hxk in Hc. apply NoDup_cons in Hc as [Hni _]. apply Hni. apply list_elem_of_omap. by exists y. }
    apply elem_of_cons in Hm as [->|Hm], Hm' as [->|Hm']; [done|by destruct (Hdup m')|by destruct (Hdup m)|].
    apply IH; [|done|done]. cbn in Hc. destruct (move_key x); [by apply NoDup_cons in Hc as [_ ?]|done].
Defined.

(** ** Tables *)
Definition row_good (r : NRow) : bool := bool_decide (cast_in kv_schema r = r).
Definition file_good (f : NFile) : bool :=
  forallb (λ b, bool_decide (map f_name (nb_schema b) = map f_name kv_schema)) f && forallb row_good (all_rows f).
Definition files_good (l : list NMove) : bool :=
  forallb (λ m, match mv_head m with Some s => forallb file_good (snapshot_files s) | None => true end) l.
Lemma forallb_Forall {A} (P : A → Prop) (p : A → bool) l : (∀ a, p a = true → P a) → forallb p l = true → Forall P l.
Proof. intros Hp Hl. rewrite forallb_forall in Hl. apply Forall_forall. intros a Ha. apply Hp, Hl. by apply list_elem_of_In. Qed.
Lemma file_good_ok f : file_good f = true → file_ok kv_schema f.
Proof.
  intros [Hn Hr]%andb_true_iff bs [= <-]. split.
  - revert Hn. apply forallb_Forall. intros b. by rewrite bool_decide_eq_true.
  - revert Hr. apply forallb_Forall. intros r. unfold row_good. by rewrite bool_decide_eq_true.
Qed.
Lemma files_good_ok l t : files_good l = true → files_ok t l.
Proof.
  intros Hg m s Hm _ Hs. unfold files_good in Hg. rewrite forallb_forall in Hg.
  specialize (Hg m ltac:(by apply list_elem_of_In)). rewrite Hs in Hg. revert Hg. apply forallb_Forall. apply file_good_ok.
Qed.
Lemma batches_good_ok bs : file_good bs = true → batches_ok kv_schema bs.
Proof. intros Hg. by apply (file_good_ok bs Hg). Qed.

Definition kv (k v : string) : NRow := [(text "k", Some (text k)); (text "v", Some (text v))].
Definition kv_batch (rs : list NRow) : nbatch := {| nb_schema := kv_schema; nb_rows := rs; nb_int := 0 |}.
Definition snap (id : Z) (files : list NFile) : Snapshot NFile :=
  {| sn_id := id; sn_parent := None; sn_seq := 1; sn_operation := OperationAppend; sn_summary := [];
     sn_manifests := Ok [{| mf_data := true; mf_seq := 1; mf_added_snapshot := id;
       mf_entries := Ok (map (λ f, {| me_alive := true; me_file := f; me_snapshot_id := Some id; me_seq := None; me_file_seq := None |}) files) |}] |}.
Definition table_t : TableIdent := {| namespace := [text "demo"]; table_name := text "t" |}.
Definition table_u : TableIdent := {| namespace := [text "demo"]; table_name := text "u" |}.
Definition others (t : TableIdent) (s : Snapshot NFile) : NMove :=
  {| mv_mine := false; mv_ident := t; mv_branch := MAIN_BRANCH; mv_head := Some s |}.
Definition snap_t : Snapshot NFile := snap 100 [[kv_batch [kv "a" "1"; kv "b" "2"]]; [kv_batch [kv "c" "3"]]].
Definition snap_u : Snapshot NFile := snap 200 [[kv_batch [kv "x" "7"]]].
Definition snap_t' : Snapshot NFile := snap 101 [[kv_batch [kv "a" "1"; kv "b" "2"]]; [kv_batch [kv "c" "3"]]; [kv_batch [kv "d" "2"]]].
Definition world (script : list Event) (probe : N) : World :=
  {| w_moves := [others table_t snap_t; others table_u snap_u]; w_script := script; w_probe := probe; w_next := 1000 |}.
Definition quiet_event : Event := {| ev_moves := []; ev_fate := Answers |}.
Definition other_commits : Event := {| ev_moves := [others table_t snap_t']; ev_fate := Answers |}.
Definition server (script : list Event) (probe : N) : Server World := {| sv_world := world script probe; sv_endpoint := None |}.
Definition main_engine : OverwriteEngine := {| enforce_pk := true; branch := MAIN_BRANCH |}.

(** ** The planner *)

(** Expressions are their text; a subquery starts with its bracket. *)
#[export] Instance text_ast : SqlAst (list byte) := {
  expr_text x := x;
  has_query x := bool_decide (firstn 7 x = text "(SELECT");
  to_lowercase := lower;
}.
(** A provider is the snapshot it reads. *)
Abbreviation Pinned := (option (Snapshot NFile)).
#[export] Instance snapshot_provider : ReadProvider Pinned nbatch NFile := {
  try_new_from_table tb := Ok (tb_current tb);
  try_new_from_table_snapshot _ _ := Err "no other snapshot is kept";
  scan_all p := Ok (concat (head_files p));
}.
Lemma scanned_rows (p : Pinned) : batch_rows (concat (head_files p)) = head_rows p.
Proof.
  destruct p as [s|]; [|done]. cbn [head_files head_rows from_option]. unfold snapshot_files, snapshot_rows.
  destruct (sn_manifests s) as [mfs|msg]; [|done].
  induction mfs as [|mf mfs IH]; [done|]. cbn [flat_map]. rewrite concat_app, batch_rows_app, IH. f_equal. clear IH.
  unfold mf_rows. destruct (mf_entries mf) as [es|]; [|done]. generalize (live es) as fs.
  induction fs as [|f fs IH]; [done|]. cbn [concat flat_map]. by rewrite batch_rows_app, IH.
Qed.
#[export] Instance snapshot_provider_laws : ReadProviderLaws Pinned nbatch ncol NFile NRow.
Proof.
  refine {| provider_rows p := head_rows p |}.
  - intros p bs [= <-]. by rewrite scanned_rows.
  - by intros tb p [= <-].
  - done.
Defined.
(** A statement's body: the tables it names, the rows it inserts into the first. *)
Abbreviation SqlBody := (list TableReference * list nbatch)%type.
Definition seen (v : View Pinned nbatch) : list NRow :=
  match v with
  | EffectiveRows rows => all_rows rows
  | PinnedOnly p => head_rows p
  | PinnedAnd p appends => head_rows p ++ all_rows appends
  end.
Definition insert_plan (body : SqlBody) : result (TableReference * list nbatch) :=
  match fst body with r :: _ => Ok (r, snd body) | [] => Err "no target" end.
#[export] Instance plain_planner : TxnPlanner SqlBody (list NRow) Pinned nbatch := {
  names := fst;
  inner_exists _ _ := true;
  plan_insert body _ _ := insert_plan body;
  plan_insert_shared body _ := insert_plan body;
  run_select _ sources := Ok (flat_map (λ s, match s with Session v => seen v | _ => [] end) sources);
  count_collisions cols keys v :=
    Ok (count_rows (λ r, bool_decide (named_row (map lower cols) r ∈ all_rows keys)) (seen v));
}.
