(* ===== verification/ScenariosTxn.v ===== *)
(** * Concrete runs: the engine and transactions

    Statements and transactions in the world of [ScenariosWorld], each run
    evaluated and its theorem applied to it. *)
From stdpp Require Import sorting.
From S2P Require Import Prelude Text TailNames Keyed TableOps Freshness Overwrite OverwriteRows Engine EngineLog Dml Txn TxnView TxnCommit TxnRegistry ScenariosWorld.
#[local] Open Scope N_scope.
(** Runs are evaluated by [vm_compute] only. *)
#[local] Opaque prepare_commit execute insert_enforced in_txn commit_session handle_query.

(** ** Autocommit: another writer gets in first *)
Definition set_v : DmlStatement :=
  {| dml_kind := DmlUpdate [(text "v", text "9")]; dml_namespace := text "demo"; dml_table := text "t"; dml_alias := None;
     dml_predicate := Some (text "v = '2'") |}.
Lemma kv_row r : cast_in kv_schema r = r → ∃ a b, r = [(text "k", a); (text "v", b)].
Proof. intros <-. by eexists _, _. Qed.
Lemma set_v_typed : well_typed (table_schema (W:=World) (DataFile:=NFile) (stmt_ident set_v)) set_v.
Proof.
  change (well_typed kv_schema set_v).
  intros r Hr. destruct (kv_row r Hr) as (a & b & ->). set (r := [(text "k", a); (text "v", b)]).
  assert (updated (map f_name kv_schema) set_v r =
    [(text "k", a); (text "v", if holds_in (text "v = '2'") r then Some (text "9") else b)]) as -> by reflexivity.
  split; [reflexivity|]. unfold OverwriteRows.matches. cbn [dml_predicate set_v]. intros Hm%bool_decide_eq_false.
  destruct (holds_in (text "v = '2'") r) eqn:Eh; [|done]. destruct Hm. cbn [holds]. change (Some (holds_in (text "v = '2'") r) = Some true). by rewrite Eh.
Qed.
Definition start_update : Server World := server [quiet_event; other_commits] 404.
Definition update_run : Server World * attempt DmlOutcome := execute main_engine set_v start_update.
Lemma update_run_is : execute main_engine set_v start_update = (fst update_run, snd update_run).
Proof. exact (surjective_pairing update_run). Qed.
Lemma update_answer : snd update_run = Good {| do_rows := 2; do_attempts := 2; do_snapshot_id := Some 1001%Z |}.
Proof. vm_compute. reflexivity. Qed.
Lemma update_files : files_good (the_log (fst update_run)) = true.
Proof. vm_compute. reflexivity. Qed.
#[local] Opaque update_run start_update.
Lemma execute_linearizable_witness :
  ∃ new l1 l2 s, the_log (fst update_run) = the_log start_update ++ new ∧
    new = l1 ++ {| mv_mine := true; mv_ident := stmt_ident set_v; mv_branch := MAIN_BRANCH; mv_head := Some s |} :: l2 ∧
    own l1 = [] ∧ own l2 = [] ∧ sn_id s = 1001%Z ∧
    let rows := head_rows (head_of (the_log start_update ++ l1) (stmt_ident set_v) MAIN_BRANCH) in
    snapshot_rows s ≡ₚ apply_stmt (columns_of (stmt_ident set_v)) set_v rows ∧ count_rows (OverwriteRows.matches set_v) rows = 2.
Proof.
  pose proof (execute_linearizable (W:=World) (RecordBatch:=nbatch) (ArrayRef:=ncol) (DataFile:=NFile) (Row:=NRow)
    main_engine set_v start_update (fst update_run) (snd update_run)) as Hx.
  destruct (Hx set_v_typed (files_good_ok _ _ update_files) update_run_is) as (new & Hl & Hr). clear Hx.
  rewrite update_answer in Hr. destruct Hr as (l1 & l2 & s & Hnew & Ho1 & Ho2 & Hs & Hrows & Hn).
  exists new, l1, l2, s. split; [exact Hl|]. split; [exact Hnew|]. split; [exact Ho1|]. split; [exact Ho2|]. split; [exact Hs|].
  split; [exact Hrows|]. symmetry. exact Hn.
Defined.

(** ** One commit prepared: an UPDATE and an INSERT of one transaction *)
Definition two_ops : list (TableOp nbatch NFile) := [OpDml set_v; OpAppend [kv_batch [kv "e" "2"]]].
Definition start_moves : list NMove := w_moves (world [] 404).
Definition start_table (t : TableIdent) : Table NFile := table_at start_moves t.
Definition prepared_run : attempt (option (PreparedCommit NFile)) :=
  prepare_commit (start_table table_t) two_ops (Some [text "k"]) MAIN_BRANCH [] 500.
Definition prepared_out : option (PreparedCommit NFile) := match prepared_run with Good out => out | Bad _ => None end.
Lemma prepared_run_is :
  prepare_commit (start_table table_t) two_ops (Some [text "k"]) MAIN_BRANCH [] 500 = Good prepared_out.
Proof. vm_compute. reflexivity. Qed.
Lemma prepared_counts : pc_rows_by_op <$> prepared_out = Some [1; 1].
Proof. vm_compute. reflexivity. Qed.
Lemma two_ops_ok : Forall (op_ok (Row:=NRow) kv_schema) two_ops.
Proof. constructor; [apply set_v_typed|]. constructor; [|constructor]. by apply batches_good_ok. Qed.
Lemma snap_t_ok : Forall (file_ok kv_schema) (head_files (Some snap_t)).
Proof. apply (forallb_Forall _ file_good); [apply file_good_ok|vm_compute; reflexivity]. Qed.
#[local] Opaque prepared_run prepared_out.
Lemma prepare_commit_applies_ops_witness :
  ∃ p, prepared_out = Some p ∧
    snapshot_rows (rq_snapshot (pc_request p)) ≡ₚ apply_ops (map f_name kv_schema) two_ops (head_rows (Some snap_t)) ∧
    rq_head (pc_request p) = Some 100%Z.
Proof.
  pose proof (prepare_commit_applies_ops (RecordBatch:=nbatch) (ArrayRef:=ncol) (DataFile:=NFile) (Row:=NRow)
    (start_table table_t) two_ops (Some [text "k"]) MAIN_BRANCH [] 500 prepared_out (Some snap_t)) as Hx.
  specialize (Hx eq_refl two_ops_ok I snap_t_ok prepared_run_is). pose proof prepared_counts as Hn.
  destruct prepared_out as [p|]; [|done]. destruct Hx as (Hr & _ & Hh). exists p. by split_and!.
Defined.

(** ** Autocommit INSERT under a primary key, after another writer's *)
Definition insert_run : Server World * attempt DmlOutcome :=
  insert_enforced main_engine table_t [kv_batch [kv "e" "2"]] None (server [quiet_event; other_commits] 404).
Lemma insert_run_is :
  insert_enforced main_engine table_t [kv_batch [kv "e" "2"]] None (server [quiet_event; other_commits] 404) =
  (fst insert_run, Good {| do_rows := 1; do_attempts := 2; do_snapshot_id := Some 1001%Z |}).
Proof.
  assert (snd insert_run = Good {| do_rows := 1; do_attempts := 2; do_snapshot_id := Some 1001%Z |}) as <- by (vm_compute; reflexivity).
  exact (surjective_pairing insert_run).
Qed.
Lemma insert_files : files_good (the_log (fst insert_run)) = true.
Proof. vm_compute. reflexivity. Qed.
Lemma served_key tb : served (W:=World) table_t tb → pk_columns_of tb = Ok (Some [text "k"]).
Proof. intros (w & w' & Hl). injection Hl as _ <-. vm_compute. reflexivity. Qed.
#[local] Opaque insert_run.

(** ** An UPDATE off the wire *)
Definition plain (s : string) : Ident := {| id_value := text s; id_quoted := false |}.
Definition target (s : string) : TableWithJoins :=
  {| tw_relation := FactorTable [PartIdentifier (plain s)] None; tw_joins := 0 |}.
Definition update_text : Statement (list byte) SqlBody :=
  SUpdate (target "T") [(ColumnName [PartIdentifier (plain "V")], text "9")] false (Some (text "v = '2'")) false false false.
Lemma update_translated : translate update_text = Ok (Some (set_v, TagUpdate)).
Proof. reflexivity. Qed.
Lemma translate_in_scope_witness :
  ∃ pairs, dml_kind set_v = DmlUpdate pairs ∧ NoDup (map fst pairs) ∧ assigned pairs (text "v") = Some (text "9").
Proof.
  destruct (translate_in_scope update_text set_v TagUpdate update_translated) as (_ & _ & _ & pairs & Hk & _ & Hn & _ & Ha).
  exists pairs. split; [exact Hk|]. split; [exact Hn|]. apply Ha. injection Hk as <-. by left.
Defined.

(** ** A transaction on two tables *)
Abbreviation NSession := (TxnSession (RecordBatch:=nbatch) (DataFile:=NFile) (Provider:=Pinned)).
Abbreviation NReply := (Reply (Rows:=list NRow)).
Definition hook : TxnHook := {| engine := main_engine; strict := false; timing := false |}.
Definition insert_u : Statement (list byte) SqlBody :=
  SInsert None ([{| tr_catalog := None; tr_schema := None; tr_table := text "u" |}], [kv_batch [kv "y" "8"]]).
(** The session after [INSERT INTO u]. *)
Definition entry_u : TxnTable Pinned nbatch NFile :=
  {| pinned := start_table table_u; pin_snapshot := Some 200%Z; pinned_provider := Some snap_u; schema := kv_schema;
     columns := [text "k"; text "v"]; ops := [OpAppend [kv_batch [kv "y" "8"]]]; materialized := None |}.
Definition session_u : NSession := {| aborted := false; tables := {[table_u := entry_u]} |}.
Definition quiet_server : Server World := server [] 404.
Lemma insert_u_run :
  in_txn hook insert_u None quiet_server session_new =
  (quiet_server, session_u, Answer (inl (Execution "INSERT" (Some 1))) : NReply).
Proof. vm_compute. reflexivity. Qed.

Lemma served_start t : served (W:=World) t (start_table t).
Proof. exists (world [] 404), (world [] 404). vm_compute. reflexivity. Qed.
Lemma entry_u_at l : start_moves `prefix_of` l → entry_at (W:=World) (Row:=NRow) main_engine table_u l entry_u (Some snap_u).
Proof.
  intros Hl. split; [|split].
  - split_and!; [apply served_start|done| |done|done|done]. exists start_moves. by split.
  - split; [|intros fs; set_solver]. constructor; [|constructor]. by apply batches_good_ok.
  - intros d. cbn. set_solver.
Qed.
Lemma start_log script probe : the_log (server script probe) = start_moves.
Proof. vm_compute. reflexivity. Qed.
Lemma session_u_ok script : session_ok (W:=World) (Row:=NRow) main_engine session_u (the_log (server script 404)).
Proof. rewrite start_log. apply map_Forall_singleton. exists (Some snap_u). by apply entry_u_at. Qed.

Lemma txn_reads_own_writes_witness :
  ∃ v, effective_provider entry_u = Ok v ∧ view_rows v ≡ₚ [kv "x" "7"; kv "y" "8"].
Proof.
  eexists. split; [reflexivity|].
  exact (txn_reads_own_writes (W:=World) (RecordBatch:=nbatch) (ArrayRef:=ncol) (DataFile:=NFile) (Row:=NRow) (Provider:=Pinned)
    main_engine table_u start_moves entry_u _ (Some snap_u) (entry_u_at _ (reflexivity _)) eq_refl).
Defined.

(** The UPDATE of the other table, while another writer commits to it. *)
Definition second_run : Server World * NSession * NReply := in_txn hook update_text None (server [other_commits] 404) session_u.
Definition second_server : Server World := fst (fst second_run).
Definition session_tu : NSession := snd (fst second_run).
Lemma second_run_is :
  in_txn hook update_text None (server [other_commits] 404) session_u =
  (second_server, session_tu, Answer (inl (Execution "UPDATE" (Some 2)))).
Proof.
  assert (snd second_run = Answer (inl (Execution "UPDATE" (Some 2)))) as <- by (vm_compute; reflexivity).
  unfold second_server, session_tu. assert (∀ p : Server World * NSession * NReply, p = (p.1.1, p.1.2, p.2)) as Hp by (by intros [[??]?]).
  exact (Hp second_run).
Qed.
Lemma second_files : files_good (the_log second_server) = true.
Proof. vm_compute. reflexivity. Qed.
Lemma update_text_typed d tag :
  translate update_text = Ok (Some (d, tag)) → well_typed (table_schema (W:=World) (DataFile:=NFile) (stmt_ident d)) d.
Proof. rewrite update_translated. intros [= <- <-]. apply set_v_typed. Qed.
#[local] Opaque second_run second_server session_tu.

(** ** COMMIT *)
Definition entry_t : TxnTable Pinned nbatch NFile :=
  {| pinned := start_table table_t; pin_snapshot := Some 100%Z; pinned_provider := Some snap_t; schema := kv_schema;
     columns := [text "k"; text "v"]; ops := [OpDml set_v];
     materialized := Some [kv_batch [kv "a" "1"; kv "b" "9"; kv "c" "3"]] |}.
Definition session_both : NSession := {| aborted := false; tables := <[table_t := entry_t]> {[table_u := entry_u]} |}.
Lemma update_t_run :
  in_txn hook update_text None quiet_server session_u =
  (quiet_server, session_both, Answer (inl (Execution "UPDATE" (Some 1))) : NReply).
Proof. vm_compute. reflexivity. Qed.
Lemma entry_t_at l : start_moves `prefix_of` l → entry_at (W:=World) (Row:=NRow) main_engine table_t l entry_t (Some snap_t).
Proof.
  intros Hl. split; [|split].
  - split_and!; [apply served_start|done| |done|done|done]. exists start_moves. by split.
  - split; [|intros fs; set_solver]. constructor; [apply set_v_typed|constructor].
  - split; [done|by apply batches_good_ok].
Qed.
Definition atomic_server (script : list Event) : Server World := {| sv_world := world script 404; sv_endpoint := Some true |}.
Lemma session_both_ok (sv : Server World) :
  the_log sv = start_moves → session_ok (W:=World) (Row:=NRow) main_engine session_both (the_log sv).
Proof.
  intros ->. apply map_Forall_insert_2; [exists (Some snap_t); by apply entry_t_at|].
  apply map_Forall_singleton. exists (Some snap_u). by apply entry_u_at.
Qed.
Abbreviation commit_both sv := (commit_session (Rows:=list NRow) hook session_both sv).
Definition log_good (sv : Server World) : bool := files_good (the_log sv).
(** Without the endpoint, one commit per table; nobody interferes. *)
Definition fallback_run := commit_both quiet_server.
Lemma fallback_answer : snd fallback_run = inl (TransactionEnd "COMMIT").
Proof. vm_compute. reflexivity. Qed.
Lemma fallback_files : log_good (fst fallback_run) = true.
Proof. vm_compute. reflexivity. Qed.
Lemma fallback_run_is : commit_both quiet_server = (fst fallback_run, inl (TransactionEnd "COMMIT")).
Proof. exact (run_pair fallback_run _ fallback_answer). Qed.
#[local] Opaque fallback_run.
Lemma commit_first_committer_wins_witness :
  ∃ new, the_log (fst fallback_run) = the_log quiet_server ++ new ∧
    (∃ hd, entry_at (W:=World) (Row:=NRow) main_engine table_t (the_log quiet_server) entry_t hd ∧
       settled (W:=World) (Row:=NRow) main_engine table_t hd [OpDml set_v] (the_log quiet_server) new) ∧
    (∃ hd, entry_at (W:=World) (Row:=NRow) main_engine table_u (the_log quiet_server) entry_u hd ∧
       settled (W:=World) (Row:=NRow) main_engine table_u hd (ops entry_u) (the_log quiet_server) new).
Proof.
  destruct (commit_first_committer_wins (W:=World) (RecordBatch:=nbatch) (ArrayRef:=ncol) (DataFile:=NFile) (Row:=NRow)
    (Provider:=Pinned) (Rows:=list NRow) main_engine hook session_both quiet_server (fst fallback_run)
    (TransactionEnd "COMMIT") eq_refl eq_refl (session_both_ok _ (start_log _ _)) (λ ident, files_good_ok _ ident fallback_files)
    fallback_run_is) as (_ & new & Hl & Hset).
  exists new. split; [exact Hl|]. split; [apply (Hset table_t entry_t)|apply (Hset table_u entry_u)]; first [reflexivity|discriminate].
Defined.

(** With it, both tables in one request; its answer is lost after it was applied. *)
Definition lost_answer : Event := {| ev_moves := []; ev_fate := AppliesSilently |}.
Definition atomic_start : Server World := atomic_server [quiet_event; quiet_event; lost_answer].
Definition atomic_run := commit_both atomic_start.
Definition not_applied : PgWireError := user_err "XX000" NOT_APPLIED.
Lemma atomic_answer : snd atomic_run = inr not_applied.
Proof. vm_compute. reflexivity. Qed.
Lemma atomic_run_is : commit_both atomic_start = (fst atomic_run, inr not_applied).
Proof. exact (run_pair atomic_run _ atomic_answer). Qed.
Lemma atomic_log : the_log atomic_start = start_moves.
Proof. vm_compute. reflexivity. Qed.
Lemma atomic_files : log_good (fst atomic_run) = true.
Proof. vm_compute. reflexivity. Qed.
Example applied_all_the_same : map mv_ident (own (the_log (fst atomic_run))) = [table_t; table_u].
Proof. vm_compute. reflexivity. Qed.
#[local] Opaque atomic_run.
Lemma multi_table_commit_atomic_witness :
  ∃ new, the_log (fst atomic_run) = the_log atomic_start ++ new ∧ at_once new.
Proof.
  destruct (multi_table_commit_atomic (W:=World) (RecordBatch:=nbatch) (ArrayRef:=ncol) (DataFile:=NFile) (Row:=NRow)
    (Provider:=Pinned) (Rows:=list NRow) main_engine hook session_both atomic_start (fst atomic_run)
    (inr not_applied) eq_refl eq_refl (session_both_ok _ atomic_log) (λ ident, files_good_ok _ ident atomic_files)
    eq_refl ltac:(vm_compute; lia) atomic_run_is) as (new & Hl & Honce & _).
  exists new. split; [exact Hl|exact Honce].
Defined.

(** Table by table: the second table moved since its pin, the first is committed. *)
Definition snap_u' : Snapshot NFile := snap 201 [[kv_batch [kv "x" "7"]]; [kv_batch [kv "z" "1"]]].
Definition moved_u : Event := {| ev_moves := [others table_u snap_u']; ev_fate := Answers |}.
Definition partial_start : Server World := server [moved_u] 404.
Definition partial_run := commit_both partial_start.
Definition partly : PgWireError := user_err "40003" PARTIALLY_APPLIED.
Lemma partial_answer : snd partial_run = inr partly.
Proof. vm_compute. reflexivity. Qed.
Lemma partial_run_is : commit_both partial_start = (fst partial_run, inr partly).
Proof. exact (run_pair partial_run _ partial_answer). Qed.
Lemma partial_files : log_good (fst partial_run) = true.
Proof. vm_compute. reflexivity. Qed.
Lemma partial_log : the_log partial_start = start_moves.
Proof. vm_compute. reflexivity. Qed.
(** The pin was stale before the first table's commit. *)
Example stale_before_the_first : mv_mine <$> the_log (fst partial_run) = [false; false; false; true].
Proof. vm_compute. reflexivity. Qed.
#[local] Opaque partial_run.
Lemma commit_error_codes_witness :
  ∃ new, the_log (fst partial_run) = the_log partial_start ++ new ∧
    (pg_code partly = "40003" ∨ own new = [] ∨ (pg_code partly = "XX000" ∧ at_once new)).
Proof.
  exact (proj2 (commit_error_codes (W:=World) (RecordBatch:=nbatch) (ArrayRef:=ncol) (DataFile:=NFile) (Row:=NRow)
    (Provider:=Pinned) (Rows:=list NRow) main_engine hook session_both partial_start (fst partial_run) partly
    eq_refl eq_refl (session_both_ok _ partial_log) (λ ident, files_good_ok _ ident partial_files) partial_run_is)).
Defined.

(** ** Connections *)
Abbreviation NNode := (Node (W:=World) (RecordBatch:=nbatch) (DataFile:=NFile) (Provider:=Pinned)).
Definition node_with (s : NSession) : NNode :=
  {| nd_server := quiet_server; nd_registry := stored (<[1 := s]> {[2 := session_new]}) |}.
Definition statement_run := handle_query hook 1 false insert_u None (node_with session_new).
Lemma statement_run_is :
  handle_query hook 1 false insert_u None (node_with session_new) = (fst statement_run, snd statement_run).
Proof. exact (surjective_pairing statement_run). Qed.
Lemma statement_keeps_other_sessions_witness :
  rg_sessions (nd_registry (fst statement_run)) !! 2 = Some session_new.
Proof.
  destruct (statement_keeps_other_sessions (W:=World) (RecordBatch:=nbatch) (ArrayRef:=ncol) (DataFile:=NFile) (Expr:=list byte)
    (Body:=SqlBody) (Rows:=list NRow) (Provider:=Pinned) hook 1 false insert_u None (node_with session_new) _ _ eq_refl statement_run_is)
    as (_ & _ & Hothers).
  rewrite (Hothers 2 ltac:(discriminate)). reflexivity.
Defined.

Definition aborted_node : NNode := node_with (abort session_u).
Definition refused_run := handle_query hook 1 false insert_u None aborted_node.
Lemma refused_run_is : handle_query hook 1 false insert_u None aborted_node = (fst refused_run, snd refused_run).
Proof. exact (surjective_pairing refused_run). Qed.
Lemma aborted_until_end_witness :
  nd_server (fst refused_run) = quiet_server ∧ snd refused_run = Answer (inr aborted_err).
Proof.
  pose proof (aborted_until_end (W:=World) (RecordBatch:=nbatch) (ArrayRef:=ncol) (DataFile:=NFile) (Expr:=list byte)
    (Body:=SqlBody) (Rows:=list NRow) (Provider:=Pinned) hook 1 false insert_u None aborted_node _ _ (abort session_u)
    eq_refl eq_refl refused_run_is) as (Hsv & Hr & _).
  split; [exact Hsv|exact Hr].
Defined.

(** An INSERT without rows into a table with a key: the first key batch is taken
    of none. *)
Definition insert_nothing : Statement (list byte) SqlBody :=
  SInsert None ([{| tr_catalog := None; tr_schema := None; tr_table := text "u" |}], []).
Example empty_insert_unwinds : snd (in_txn hook insert_nothing None quiet_server (session_new : NSession)) = Lost "index out of bounds".
Proof. vm_compute. reflexivity. Qed.
