(* ===== verification/ScenariosBranch.v ===== *)
(** * Concrete runs: branches, policies

    Two tables whose refs move in a world of scripted other writers; a policy
    file with nested roles. *)
From stdpp Require Import sorting.
From S2P Require Import Authz Prelude Text TailNames Keyed TableOps Freshness Overwrite OverwriteRows Engine EngineLog Dml Txn Branch BranchRefs.
#[local] Open Scope N_scope.
(** Runs are evaluated by [vm_compute] only. *)
#[local] Opaque merge create_branch_all parse policy authorize_sql.

(** ** A world of refs *)
Record RWorld := { rw_log : list RefMove; rw_script : list (list RefMove) }.
Definition others_move (w : RWorld) : RWorld :=
  match rw_script w with
  | [] => w
  | ms :: script => {| rw_log := rw_log w ++ List.filter (λ m, negb (rm_mine m)) ms; rw_script := script |}
  end.
Definition snapshot_meta (id : Z) (parent : option Z) : SnapshotMeta :=
  {| sm_id := id; sm_parent := parent; sm_timestamp := id; sm_operation := OperationAppend; sm_summary := λ _, None; sm_schema := None |}.
Definition chain : list SnapshotMeta :=
  [snapshot_meta 1 None; snapshot_meta 2 (Some 1%Z); snapshot_meta 3 (Some 2%Z); snapshot_meta 4 (Some 1%Z)].
Definition meta (snaps : list SnapshotMeta) (refs : string → option Z) : TableMetadata :=
  {| md_uuid := 1; md_current := refs MAIN_BRANCH; md_snapshots := snaps; md_ref := refs; md_schemas := λ _, None; md_current_schema := 0 |}.
Definition table_in (t : string) : TableIdent := {| namespace := [text "demo"]; table_name := text t |}.
Definition holds_all (l : list RefMove) (rq : RefRequest) : bool :=
  forallb (λ bh, bool_decide (ref_at l (rr_ident rq) (fst bh) = snd bh)) (rr_refs rq).
Definition post_refs (rqs : list RefRequest) (w : RWorld) : RWorld * result (N * string) :=
  let w := others_move w in
  if forallb (holds_all (rw_log w)) rqs
  then ({| rw_log := rw_log w ++ omap ref_move rqs; rw_script := rw_script w |}, Ok (200, ""))
  else (w, Ok (CONFLICT, "requirement failed")).
#[export] Instance ref_world_catalog : Catalog RWorld unit := {
  load_table _ w := (w, Err "no table");
  post_table _ _ _ w := (w, Err "no table");
  post_changes _ w := (w, Err "no table");
  post_probe w := (w, Ok (400, ""));
  unique_snapshot_id _ w := (w, 0%Z);
  invalidate_read_cache _ w := w;
}.
#[export] Instance ref_world : RefCatalog RWorld := {
  load_metadata t w := let w := others_move w in (w, Ok (meta chain (ref_at (rw_log w) t)));
  list_refs t w := (w, Ok (omap (λ b, pair b <$> ref_at (rw_log w) t b) [MAIN_BRANCH; "dev"%string]));
  list_namespaces ns w := (w, Ok match ns with None => [[text "demo"]] | Some _ => [] end);
  list_tables _ w := (w, Ok [table_in "t"; table_in "u"]);
  post_ref rq w := post_refs [rq] w;
  post_ref_changes rqs w := post_refs rqs w;
}.

Lemma mine_others (l : list RefMove) : mine (List.filter (λ m, negb (rm_mine m)) l) = [].
Proof. unfold mine. induction l as [|m l IH]; cbn; [done|]. destruct (rm_mine m) eqn:Em; cbn; [done|]. by rewrite Em. Qed.
Lemma others_move_log w : ∃ l, rw_log (others_move w) = rw_log w ++ l ∧ mine l = [].
Proof.
  unfold others_move. destruct (rw_script w) as [|ms script]; [exists []; by rewrite app_nil_r|].
  eexists. split; [done|]. apply mine_others.
Qed.
Lemma post_refs_log rqs w w' r :
  post_refs rqs w = (w', r) → ∃ l, rw_log w' = rw_log w ++ l ∧ refs_answered rqs (rw_log w) l r.
Proof.
  unfold post_refs. destruct (others_move_log w) as (l & Hl & Hm). destruct (forallb _ rqs) eqn:Ef; intros Hr; injection Hr as <- <-.
  - exists (l ++ omap ref_move rqs). cbn. rewrite Hl, app_assoc. split; [done|]. exists l, []. rewrite app_nil_r. split_and!; try done.
    intros rq b h Hin Hb. rewrite forallb_forall in Ef. specialize (Ef rq ltac:(by apply list_elem_of_In)). unfold holds_all in Ef.
    rewrite forallb_forall in Ef. specialize (Ef (b, h) ltac:(by apply list_elem_of_In)). apply bool_decide_eq_true in Ef. by rewrite <-Hl.
  - exists l. by split.
Qed.
#[export] Instance ref_world_laws : RefLaws RWorld unit.
Proof.
  refine {| rlog := rw_log |}.
  - intros t w w' r Hr. cbn in Hr. injection Hr as <- <-. destruct (others_move_log w) as (l & Hl & Hm). exists l. split_and!; [done|done|].
    intros md [= <-]. split; [done|]. exists l, []. rewrite app_nil_r. split; [done|]. intros b. cbn. by rewrite Hl.
  - intros t w w' r Hr. injection Hr as <- _. exists []. by rewrite app_nil_r.
  - intros t w w' r Hr. injection Hr as <- _. exists []. by rewrite app_nil_r.
  - intros t w w' r Hr. injection Hr as <- _. exists []. by rewrite app_nil_r.
  - intros rq w w' r Hr. by apply post_refs_log.
  - intros rqs w w' r Hr. by apply post_refs_log.
  - intros w w' r Hr. injection Hr as <- _. exists []. by rewrite app_nil_r.
  - done.
Defined.

Definition moved (t b : string) (id : Z) : RefMove := {| rm_mine := false; rm_ident := table_in t; rm_ref := b; rm_head := Some id |}.
Definition at_start (script : list (list RefMove)) : Server RWorld :=
  {| sv_world := {| rw_log := [moved "t" "main" 1; moved "u" "main" 1; moved "t" "dev" 3; moved "u" "dev" 2]; rw_script := script |};
     sv_endpoint := None |}.

(** ** A merge of two tables, and one that comes too late *)
Definition merge_run : Server RWorld * attempt (option Merged) := merge 10 "dev" "main" None true (at_start []).
Definition merge_moves : list FastForwardMove :=
  [{| Branch.mv_ident := table_in "t"; mv_uuid := 1; mv_from_head := 3; mv_to_head := 1 |};
   {| Branch.mv_ident := table_in "u"; mv_uuid := 1; mv_from_head := 2; mv_to_head := 1 |}].
Lemma merge_answer : snd merge_run = Good (Some (MergedAll merge_moves)).
Proof. vm_compute. reflexivity. Qed.
Lemma merge_run_is : merge 10 "dev" "main" None true (at_start []) = (fst merge_run, Good (Some (MergedAll merge_moves))).
Proof. exact (run_pair merge_run _ merge_answer). Qed.
#[local] Opaque merge_run.
(** [u]'s main moves between the plan and the commit: nothing is merged. *)
Example late_merge_refused :
  mine (the_rlog (fst (merge 10 "dev" "main" None true (at_start [[]; []; [moved "u" "main" 4]])))) = [].
Proof. vm_compute. reflexivity. Qed.

(** ** A branch over all tables *)
Definition cut_run : Server RWorld * attempt (option (list (TableIdent * Z) * list TableIdent)) :=
  create_branch_all 10 "night" (at_start [[moved "t" "main" 2]]).
Lemma cut_answer : snd cut_run = Good (Some ([(table_in "t", 2%Z); (table_in "u", 1%Z)], [])).
Proof. vm_compute. reflexivity. Qed.
Lemma cut_run_is :
  create_branch_all 10 "night" (at_start [[moved "t" "main" 2]]) =
  (fst cut_run, Good (Some ([(table_in "t", 2%Z); (table_in "u", 1%Z)], []))).
Proof. exact (run_pair cut_run _ cut_answer). Qed.
#[local] Opaque cut_run.

(** ** Expiry keeps the heads of refs, not what they descend from: the merge that
    was a fast-forward is then a conflict. *)
Definition two_refs : string → option Z := λ b, if String.eqb b MAIN_BRANCH then Some 1%Z else if String.eqb b "dev" then Some 3%Z else None.
Example ancestor_expired : expired_ids (meta chain two_refs) [1; 3]%Z 1 = [2%Z].
Proof. vm_compute. reflexivity. Qed.
Example mergeable_before :
  cmp_status (compare_table (meta chain two_refs) (table_in "t") "dev" "main") = AdvancedA ∧
  cmp_status (compare_table (meta (List.filter (λ s, negb (Z.eqb (sm_id s) 2)) chain) two_refs) (table_in "t") "dev" "main") = Diverged.
Proof. vm_compute. done. Qed.

(** ** A policy with roles in roles, in a circle *)
Definition newline : list byte := [Byte.x0a].
Definition policy_text : list byte :=
  text "member alice analyst  # nested" ++ newline ++ text "member analyst reader" ++ newline ++
  text "member reader analyst" ++ newline ++ text "grant reader read demo".
Definition policy_run : result FileAuthorizer := parse policy_text.
Definition authorizer : FileAuthorizer := match policy_run with Ok a => a | Err _ => {| grants := ∅; memberships := ∅ |} end.
Definition policy_lines : list PolicyLine :=
  [Member (text "alice") (text "analyst"); Member (text "analyst") (text "reader"); Member (text "reader") (text "analyst");
   Grant (text "reader") Read (Authz.Namespace (text "demo"))].
Lemma policy_parsed : parse policy_text = Ok authorizer.
Proof. vm_compute. reflexivity. Qed.
Lemma policy_read : policy policy_text = Ok policy_lines.
Proof. vm_compute. reflexivity. Qed.
Definition no_relations (q : Authz.Query) : list (list byte) := [text "trips"].
Definition select_trips : AuthStatement := AQuery (MkQuery [] (Select [])).
Definition insert_trips : AuthStatement := AInsert (Some (text "demo.trips")) None.
Lemma alice_reads : authorize_sql no_relations authorizer (text "alice") select_trips (text "demo") = Allow.
Proof. vm_compute. reflexivity. Qed.
Definition trips : TableRef := {| Authz.namespace := text "demo"; table := text "trips" |}.
Lemma alice_cannot_write : authorize_sql no_relations authorizer (text "alice") insert_trips (text "demo") = Deny WriteData trips.
Proof. vm_compute. reflexivity. Qed.
#[local] Opaque authorizer.
