(* ===== verification/ScenariosPeer.v ===== *)
(** * Concrete runs: mirrors of a peer's tail

    Arrow with columns of texts and numbers; a mirror whose operations arrive out
    of order, an item that goes over the wire, and two ways a mirror differs from
    its source. *)
From S2P Require Import Prelude Text TailNames Tail Keyed Buffer Overlay OverlayView TailApi Peer PeerView PeerWire.
#[local] Open Scope N_scope.

(** ** Columns *)
Inductive value := VText (t : list byte) | VNum (n : N) | VNull.
Record array := { a_type : DataType; a_vals : list value }.
Definition value_at (c : array) (j : nat) : value := default VNull (a_vals c !! j).
Definition fits (n : nat) (s : Schema) (cols : list array) : Prop :=
  length cols = length s ∧ Forall (λ c, length (a_vals c) = n) cols.
#[export] Instance fits_dec n s cols : Decision (fits n s cols).
Proof. unfold fits. apply _. Defined.
Record pbatch := { p_schema : Schema; p_cols : list array; p_n : nat; p_fits : fits p_n p_schema p_cols }.
Definition picked (idxs : list nat) (c : array) : array := {| a_type := a_type c; a_vals := map (value_at c) idxs |}.
Lemma picked_fits idxs n s cols : fits n s cols → fits (length idxs) s (map (picked idxs) cols).
Proof. intros [Hl _]. split; [by rewrite length_map|]. apply Forall_map, Forall_true. intros c. cbn. apply length_map. Qed.
Definition pick (idxs : list nat) (b : pbatch) : pbatch :=
  {| p_schema := p_schema b; p_cols := map (picked idxs) (p_cols b); p_n := length idxs; p_fits := picked_fits idxs _ _ _ (p_fits b) |}.
Definition made (s : Schema) (cols : list array) (n : nat) : result pbatch :=
  match decide (fits n s cols) with
  | left H => Ok {| p_schema := s; p_cols := cols; p_n := n; p_fits := H |}
  | right _ => Err "columns do not match the schema"
  end.
Definition col_len (cols : list array) : nat := match cols with [] => 0%nat | c :: _ => length (a_vals c) end.
Definition enc (v : value) : list byte :=
  match v with VText t => t ++ [Byte.x00] | VNum n => print_u64 n ++ [Byte.x01] | VNull => [Byte.x02] end.
Definition p_column (b : pbatch) (i : nat) : array := default {| a_type := Utf8; a_vals := replicate (p_n b) VNull |} (p_cols b !! i).
Definition p_rows (b : pbatch) : list (list value) := map (λ j, map (λ c, value_at c j) (p_cols b)) (seq 0 (p_n b)).

#[export] Instance p_columnar : Columnar pbatch array := {
  schema_of := p_schema;
  column := p_column;
  num_rows := p_n;
  slice_row b i := pick (if (i <? p_n b)%nat then [i] else []) b;
  data_type := a_type;
  is_null c i := match value_at c i with VNull => true | _ => false end;
  cast_with_options c ty := Ok {| a_type := ty; a_vals := a_vals c |};
  array_value_to_string c i := Ok (enc (value_at c i));
  try_new s cols := made s cols (col_len cols);
  filter_record_batch b mask := Ok (pick (masked mask (seq 0 (p_n b))) b);
  concat_batches bs := Err "not used here";
  project b idx := Err "not used here";
  convert_columns cols := match cols with
                          | [] => Err "no key columns"
                          | _ => Ok (map (λ j, concat (map (λ c, enc (value_at c j)) cols)) (seq 0 (col_len cols)))
                          end;
}.
Lemma pick_rows idxs b : p_rows (pick idxs b) = map (λ i, map (λ c, value_at c i) (p_cols b)) idxs.
Proof.
  unfold p_rows. cbn. apply list_eq. intros j. change (map ?f ?l) with (f <$> l). rewrite !list_lookup_fmap.
  destruct (idxs !! j) as [i|] eqn:Ei; cbn.
  - rewrite lookup_seq_lt by (by apply lookup_lt_Some in Ei). cbn. f_equal. rewrite map_map. apply map_ext. intros c.
    unfold value_at at 1. cbn. change (map ?f ?l) with (f <$> l). by rewrite list_lookup_fmap, Ei.
  - by rewrite lookup_seq_ge by (by apply lookup_ge_None in Ei).
Qed.
Lemma column_len b i : length (a_vals (p_column b i)) = p_n b.
Proof.
  unfold p_column. destruct (p_cols b !! i) as [c|] eqn:Ec; cbn; [|apply length_replicate].
  destruct (p_fits b) as [_ Hf]. rewrite Forall_forall in Hf. apply Hf. by eapply list_elem_of_lookup_2.
Qed.
Lemma made_fields s cols n b : made s cols n = Ok b → p_schema b = s ∧ p_cols b = cols ∧ length cols = length s.
Proof. unfold made. destruct (decide _) as [[Hl Hf]|]; [|done]. by intros [= <-]. Qed.

#[export] Instance p_laws : ColumnarLaws pbatch array (list value).
Proof.
  refine {| rows_of := p_rows; row_key idx r := concat (map (λ i, enc (default VNull (r !! i))) idx) |}.
  - intros b. cbn. unfold p_rows. by rewrite length_map, length_seq.
  - intros b i r Hi. change (p_rows (pick (if (i <? p_n b)%nat then [i] else []) b) = [r]). rewrite pick_rows. unfold p_rows in Hi.
    change (map ?f ?l) with (f <$> l) in Hi. apply list_lookup_fmap_Some in Hi as (j & Hj & Hs). apply lookup_seq in Hs as [-> Hlt].
    destruct (Nat.ltb_spec i (p_n b)); [|lia]. cbn. by rewrite Hj.
  - done.
  - intros b mask b' Hm [= <-]. split; [|done]. rewrite pick_rows. unfold masked, p_rows.
    revert mask Hm. cbn. generalize (p_n b) as n. intros n mask _. generalize 0%nat as start. revert mask.
    induction n as [|n IH]; intros mask start; [by destruct mask|]. destruct mask as [|x mask]; [done|]. cbn. destruct x; cbn; [f_equal|]; apply IH.
  - intros b idx ks Hc. cbn in Hc. destruct idx as [|i0 idx]; [done|]. cbn [map] in Hc. injection Hc as <-. cbn [col_len].
    rewrite column_len. unfold p_rows. rewrite map_map. apply map_ext. intros j.
    assert (∀ i, value_at (p_column b i) j = default VNull (map (λ c, value_at c j) (p_cols b) !! i)) as Hv.
    { intros i. change (map ?f ?l) with (f <$> l). rewrite list_lookup_fmap. unfold p_column. destruct (p_cols b !! i); cbn; [done|].
      unfold value_at. cbn. destruct (replicate (p_n b) VNull !! j) eqn:E; [|done]. by apply lookup_replicate in E as [-> _]. }
    cbn [map concat]. rewrite Hv. f_equal. rewrite map_map. f_equal. apply map_ext. intros i. by rewrite Hv.
  - intros s cols b Hb. cbn in Hb. by apply made_fields in Hb as [? _].
Defined.

#[export] Instance p_wire : WireColumns pbatch array := {
  slice b off len := pick (seq off (Nat.min len (p_n b - off))) b;
  u64_values c := if decide (a_type c = OtherType "UInt64") then map_option (λ v, match v with VNum n => Some n | _ => None end) (a_vals c) else None;
  utf8_values c := if decide (a_type c = Utf8) then map_option (λ v, match v with VText t => Some t | _ => None end) (a_vals c) else None;
  array_len c := length (a_vals c);
  u64_array l := {| a_type := OtherType "UInt64"; a_vals := map VNum l |};
  utf8_array l := {| a_type := Utf8; a_vals := map VText l |};
  new_null_array ty n := {| a_type := ty; a_vals := replicate n VNull |};
}.
Lemma map_option_inv {A B} (f : B → A) (g : A → option B) l : (∀ b, g (f b) = Some b) → map_option g (map f l) = Some l.
Proof. intros Hg. induction l as [|b l IH]; [done|]. cbn. rewrite Hg. cbn. by rewrite IH. Qed.
Lemma columns_all b : map (p_column b) (seq 0 (length (p_schema b))) = p_cols b.
Proof.
  destruct (p_fits b) as [Hl _]. rewrite <-Hl. apply list_eq. intros i. change (map ?f ?l) with (f <$> l). rewrite list_lookup_fmap.
  destruct (p_cols b !! i) as [c|] eqn:Ec.
  - rewrite lookup_seq_lt by (by apply lookup_lt_Some in Ec). cbn. unfold p_column. by rewrite Ec.
  - by rewrite lookup_seq_ge by (by apply lookup_ge_None in Ec).
Qed.
#[export] Instance p_wire_laws : WireLaws pbatch array (list value).
Proof.
  split.
  - intros l _. cbn. by apply map_option_inv.
  - intros l. cbn. by apply map_option_inv.
  - intros s cols b Hb. cbn in Hb. apply made_fields in Hb as (<- & <- & _). apply columns_all.
  - intros b _. cbn. rewrite columns_all. unfold made. destruct (decide _) as [|Hn]; [done|]. destruct Hn. destruct (p_fits b) as [Hl Hf].
    split; [unfold relaxed; by rewrite length_map|]. destruct (p_cols b) as [|c cols]; [done|]. apply Forall_cons in Hf as Hc. destruct Hc as [Hc _].
    cbn [col_len]. by rewrite Hc.
  - intros l. apply length_map.
  - intros b i _. apply column_len.
  - intros b b' Hne Hl Hc. cbn in *. assert (p_cols b = p_cols b') as He.
    { rewrite <-!columns_all, <-Hl. apply map_ext_in. intros i Hi%in_seq. apply Hc. lia. }
    assert (p_n b = p_n b') as Hn by (rewrite <-(column_len b 0), <-(column_len b' 0); f_equal; f_equal; apply Hc; destruct (p_schema b); [done|cbn; lia]).
    unfold rows_of. cbn. unfold p_rows. by rewrite He, Hn.
  - intros b. change (p_rows (pick (seq 0 (Nat.min (p_n b) (p_n b - 0))) b) = p_rows b). by rewrite pick_rows, Nat.sub_0_r, Nat.min_id.
  - done.
Defined.

(** ** A mirror fed out of order *)
#[local] Abbreviation TableMirror := (TableMirror (RecordBatch:=pbatch)).
#[local] Abbreviation Overlay := (Overlay (RecordBatch:=pbatch)).
Definition text (s : string) : list byte := str_bytes s.
Definition kv : Schema :=
  [{| f_name := text "k"; f_type := Utf8; f_nullable := true |}; {| f_name := text "v"; f_type := Utf8; f_nullable := true |}].
Definition no_rows : pbatch := {| p_schema := []; p_cols := []; p_n := 0; p_fits := conj eq_refl (Forall_nil_2 _) |}.
Definition batch (rows : list (string * string)) : pbatch :=
  match try_new kv [utf8_array (map (λ r, text (fst r)) rows); utf8_array (map (λ r, text (snd r)) rows)] with Ok b => b | Err _ => no_rows end.
Definition pk_k : list (list byte) := [text "k"].
Definition fresh : TableMirror := fresh_mirror (text "peer:1") (text "icegres.tail-seq.x") kv pk_k MIRROR_GC.
Definition deliver (q : N) (kind : TailEventKind) (b : pbatch) (m : TableMirror) : TableMirror := fst (apply 1 q (op_str kind) b m).
(** b@4, a=1@5, delete a@6, a=2@7, with the watermark 5: the last first. *)
Definition m1 := deliver 7 EAppend (batch [("a", "2")]) fresh.
Definition m2 := deliver 5 EUpsert (batch [("a", "1")]) m1.
Definition m3 := deliver 5 EWatermark (batch [("", "")]) m2.
Definition m4 := deliver 4 EAppend (batch [("b", "0")]) m3.
Definition m5 := deliver 6 EDelete (batch [("a", "")]) m4.
Definition key (k : string) : list byte := text k ++ [Byte.x00].
Definition vals (k v : string) : list value := [VText (text k); VText (text v)].
Definition history : list (Op (list value)) :=
  [{| op_key := key "a"; op_seq := 7; op_kind := OAppend (vals "a" "2") |}; {| op_key := key "a"; op_seq := 5; op_kind := OUpsert (vals "a" "1") |};
   {| op_key := key "b"; op_seq := 4; op_kind := OAppend (vals "b" "0") |}; {| op_key := key "a"; op_seq := 6; op_kind := ODelete |}].
Definition committed_5 : list (list value) := [vals "b" "0"; vals "a" "1"].
Definition overlay_5 : option Overlay := match overlay_at (Some 5) m5 with Ok o => o | Err _ => None end.
Lemma history_reached : reach kv [0%nat] fresh history None m5.
Proof.
  assert (∀ q kind b m, snd (apply 1 q (op_str kind) b m) = Ok tt → apply 1 q (op_str kind) b m = (deliver q kind b m, Ok tt)) as Hd.
  { intros q kind b m Ha. by apply run_pair. }
  assert (history = (((([] ++ run_ops [0%nat] 7 EAppend (batch [("a", "2")])) ++ run_ops [0%nat] 5 EUpsert (batch [("a", "1")])) ++
    run_ops [0%nat] 5 EWatermark (batch [("", "")])) ++ run_ops [0%nat] 4 EAppend (batch [("b", "0")])) ++ run_ops [0%nat] 6 EDelete (batch [("a", "")])) as ->.
  { vm_compute. reflexivity. }
  eapply (reach_deliver _ _ _ _ _ m4 1 6 EDelete (batch [("a", "")])); [|done|apply Hd; vm_compute; reflexivity].
  eapply (reach_deliver _ _ _ _ _ m3 1 4 EAppend (batch [("b", "0")])); [|done|apply Hd; vm_compute; reflexivity].
  assert (None = raise None (gc_threshold 1 (observe_mark 1 5 m2))) as -> by (vm_compute; reflexivity).
  eapply (reach_deliver _ _ _ _ None m2 1 5 EWatermark (batch [("", "")])); [|done|apply Hd; vm_compute; reflexivity].
  eapply (reach_deliver _ _ _ _ _ m1 1 5 EUpsert (batch [("a", "1")])); [|done|apply Hd; vm_compute; reflexivity].
  eapply (reach_deliver _ _ _ _ _ fresh 1 7 EAppend (batch [("a", "2")])); [constructor|done|apply Hd; vm_compute; reflexivity].
Qed.
Lemma history_disciplined : disciplined history (λ _, None).
Proof.
  intros o r Ho Hk. repeat (apply elem_of_cons in Ho as [->|Ho]; [try discriminate Hk; vm_compute; reflexivity|]). by apply not_elem_of_nil in Ho.
Qed.
Lemma history_nodup : NoDup (map op_id history).
Proof. apply (bool_decide_unpack _). vm_compute. exact I. Qed.
Lemma committed_state k : of_key [0%nat] k committed_5 = option_list (state history (λ _, None) (covered (Some 5)) k).
Proof.
  destruct (decide (k = key "a")) as [->|Ha]; [vm_compute; reflexivity|]. destruct (decide (k = key "b")) as [->|Hb]; [vm_compute; reflexivity|].
  unfold state, of_key, committed_5, history. cbn [newest List.filter op_key op_seq]. 
  assert (row_key [0%nat] (vals "b" "0") = key "b") as -> by (vm_compute; reflexivity).
  assert (row_key [0%nat] (vals "a" "1") = key "a") as -> by (vm_compute; reflexivity).
  rewrite !bool_decide_eq_false_2 by congruence. done.
Qed.
Lemma overlay_5_is : overlay_at (Some 5) m5 = Ok overlay_5.
Proof. vm_compute. reflexivity. Qed.
Lemma fresh_keys : pk_indices kv pk_k = Ok [0%nat].
Proof. vm_compute. reflexivity. Qed.
#[local] Opaque overlay_5 m5.

(** ** An item over the wire *)
Definition wire : WireSchema := wire_schema (λ _, text "demo.t") kv {| namespace := [text "demo"]; table_name := text "t" |} (text "icegres.tail-seq.x") 7 pk_k.
Definition item : pbatch := batch [("a", "1"); ("b", "2")].
Definition wire_item : pbatch := match wire_batch wire 7 EUpsert (Some item) with Ok b => b | Err _ => no_rows end.
Definition item_ingested : TableMirror * result unit := ingest_batch 1 wire_item fresh.
Lemma item_ok : snd item_ingested = Ok tt.
Proof. vm_compute. reflexivity. Qed.
Lemma item_run : ingest_batch 1 wire_item fresh = (fst item_ingested, Ok tt).
Proof. exact (run_pair item_ingested _ item_ok). Qed.
Lemma wire_item_is : wire_batch wire 7 EUpsert (Some item) = Ok wire_item.
Proof.
  unfold wire_item. assert (is_ok (wire_batch wire 7 EUpsert (Some item)) = true) as Hok by (vm_compute; reflexivity).
  destruct (wire_batch wire 7 EUpsert (Some item)); [reflexivity|discriminate Hok].
Qed.
Lemma kv_wireable : wireable kv.
Proof.
  split; [apply (bool_decide_unpack _); vm_compute; exact I|]. intros f Hf.
  repeat (apply elem_of_cons in Hf as [->|Hf]; [split; discriminate|]). by apply not_elem_of_nil in Hf.
Qed.
#[local] Opaque item_ingested wire_item.

(** ** A covered entry routes all the same

    a=1 was flushed at 5 and a=2 appended at 7 while the source still retained
    the flush: the snapshot of a new mirror has both and no watermark, so the
    mirror takes the append for an update and hides the committed row, which the
    source serves. *)
Definition n1 := deliver 5 EUpsert (batch [("a", "1")]) fresh.
Definition n2 := deliver 7 EAppend (batch [("a", "2")]) n1.
Example covered_entry_routes :
  match overlay_at (Some 5) n2 with Ok o => overlaid [0%nat] [vals "a" "1"] o | Err _ => [] end = [vals "a" "2"].
Proof. vm_compute. reflexivity. Qed.
(** With the watermark in time both rows are served. *)
Definition n3 := deliver 5 EWatermark (batch [("", "")]) n1.
Definition n4 := deliver 7 EAppend (batch [("a", "2")]) n3.
Example covered_entry_served :
  match overlay_at (Some 5) n4 with Ok o => overlaid [0%nat] [vals "a" "1"] o | Err _ => [] end = [vals "a" "1"; vals "a" "2"].
Proof. vm_compute. reflexivity. Qed.

(** ** The wire relaxes NOT NULL, and a merge of overlays compares it *)
Definition strict : Schema := [{| f_name := text "k"; f_type := Utf8; f_nullable := false |}].
Definition strict_header : result (list byte * Schema * list (list byte) * N) :=
  parse_header (wire_schema (λ _, text "demo.t") strict {| namespace := [text "demo"]; table_name := text "t" |} (text "p") 0 pk_k).
Example header_not_canonical :
  match strict_header with
  | Ok (_, s, _, _) =>
    (bool_decide (s = strict), is_ok (merge_overlays (RecordBatch:=pbatch)
      (Some {| ov_schema := strict; ov_batches := []; ov_suppress := None |}) (Some {| ov_schema := s; ov_batches := []; ov_suppress := None |})))
  | Err _ => (true, true)
  end = (false, false).
Proof. vm_compute. reflexivity. Qed.
