(* ===== verification/ScenariosMaintain.v ===== *)
(** * Orphan removal on a concrete store

    A table with one snapshot, two stray files and a commit that lands between the
    listing and the reload check: the file it adds is spared, the other one is
    deleted. *)
From S2P Require Import Prelude Text TailNames Maintain MaintainSafe.
From S2P Require Branch.
#[local] Open Scope N_scope.

Definition at_bucket (k : string) : Path := str_bytes "s3://wh/" ++ str_bytes k.
Definition gc_meta (v : string) (lists : list string) : GcTable := {|
  gt_uuid := 7; gt_location := at_bucket "t/"; gt_metadata_location := Some (at_bucket v); gt_metadata_log := [];
  gt_statistics := []; gt_partition_statistics := []; gt_manifest_lists := map at_bucket lists;
|}.
Definition md_v1 : GcTable := gc_meta "t/metadata/v1.metadata.json" ["t/metadata/s1.avro"].
Definition md_v2 : GcTable := gc_meta "t/metadata/v2.metadata.json" ["t/metadata/s1.avro"; "t/metadata/s2.avro"].
Definition gc_metadata_at (l : Path) : GcTable := if bool_decide (l = at_bucket "t/metadata/v1.metadata.json") then md_v1 else md_v2.
Definition gc_manifests_of (p : Path) : list Path :=
  if bool_decide (p = at_bucket "t/metadata/s1.avro") then [at_bucket "t/metadata/m1.avro"] else [at_bucket "t/metadata/m2.avro"].
(** The first manifest's path has the doubled slash of a trailing one. *)
Definition gc_files_of (p : Path) : list Path :=
  if bool_decide (p = at_bucket "t/metadata/m1.avro") then [at_bucket "t//data/a.parquet"] else [at_bucket "t/data/b.parquet"].

Definition md_of (second : bool) : GcTable := if second then md_v2 else md_v1.
(** The store: which metadata the coming loads see, the objects, the clock, the calls. *)
Record gc_store := { commits : list bool; objects : list ObjEntry; clock_ns : Z; calls : list GcEvent }.
Definition said (s : gc_store) (ev : GcEvent) : gc_store :=
  {| commits := commits s; objects := objects s; clock_ns := clock_ns s; calls := calls s ++ [ev] |}.
#[local] Instance gc_world : GcWorld gc_store := {
  load_table _ s :=
    let md := md_of (List.hd true (commits s)) in
    (said {| commits := tail (commits s); objects := objects s; clock_ns := clock_ns s; calls := calls s |} (GLoad md), Ok md);
  load_manifest_list p s := (s, Ok (gc_manifests_of p));
  load_manifest p s := (s, Ok (gc_files_of p));
  list_objects _ s := let es := map Ok (objects s) in (said s (GList es), Ok es);
  stat_object k s :=
    let m := match List.filter (λ o, bool_decide (oe_path o = k)) (objects s) with
             | o :: _ => oe_modified o
             | [] => None
             end in (said s (GStat k m), Ok m);
  write_object k s :=
    ({| commits := commits s; objects := objects s ++ [{| oe_path := k; oe_is_dir := false; oe_modified := Some (clock_ns s); oe_bytes := 41 |}];
        clock_ns := clock_ns s; calls := calls s |}, Ok tt);
  delete_object k s :=
    (said {| commits := commits s; objects := List.filter (λ o, negb (bool_decide (oe_path o = k))) (objects s);
             clock_ns := clock_ns s; calls := calls s |} (GDelete k), Ok tt);
  now s := (said s (GNow (clock_ns s)), clock_ns s);
}.
Definition gc_object (k : string) (t : Z) : ObjEntry := {| oe_path := str_bytes k; oe_is_dir := false; oe_modified := Some t; oe_bytes := 10 |}.
Definition gc_start (loads : list bool) : gc_store := {|
  commits := loads; clock_ns := (100 * 3600 * SECONDS)%Z; calls := [];
  objects := [gc_object "t/metadata/v1.metadata.json" 0; gc_object "t/metadata/s1.avro" 0; gc_object "t/metadata/m1.avro" 0;
              gc_object "t/data/a.parquet" 0; gc_object "t/data/b.parquet" 0; gc_object "t/data/stray.parquet" 0;
              gc_object "t/data/young.parquet" (99 * 3600 * SECONDS); gc_object "t/data/notes.txt" 0];
|}.
#[local] Program Instance gc_laws : GcLaws gc_store := {
  gtrace := calls; metadata_at := gc_metadata_at; manifests_of := gc_manifests_of; files_of := gc_files_of;
}.
Next Obligation. intros t w w' r [= <- <-]. split; [done|]. intros md l [= <-]. destruct (List.hd true (commits w)); intros [= <-]; by vm_compute. Qed.
Next Obligation. intros p w w' r [= <- <-]. split; [done|]. by intros ms [= <-]. Qed.
Next Obligation. intros p w w' r [= <- <-]. split; [done|]. by intros ms [= <-]. Qed.
Next Obligation. by intros p w w' r [= <- <-]. Qed.
Next Obligation. by intros k w w' r [= <- <-]. Qed.
Next Obligation. by intros k w w' r [= <- <-]. Qed.
Next Obligation. by intros k w w' r [= <- <-]. Qed.
Next Obligation. by intros w w' t [= <- <-]. Qed.

(** v1 at the start, v2 from the reload on. *)
Definition gc_run := remove_orphans 4242 (str_bytes "db.t") 24 true false (gc_start [false; true; true]).
Definition gc_gone (loads : list bool) : list Path :=
  map or_key (match snd (remove_orphans 4242 (str_bytes "db.t") 24 true false (gc_start loads)) with Ok (_, os) => os | Err _ => [] end).
(** With no commit in between the second file is an orphan of version 1. *)
Example stray_files_go : gc_gone [false; false] = [str_bytes "t/data/b.parquet"; str_bytes "t/data/stray.parquet"].
Proof. vm_compute. reflexivity. Qed.
Example committed_file_stays : gc_gone [false; true; true] = [str_bytes "t/data/stray.parquet"].
Proof. vm_compute. reflexivity. Qed.
(** A table that never settles is left alone. *)
Example unsettled_table_stays : snd (remove_orphans 4242 (str_bytes "db.t") 24 true false (gc_start [false; true; false; true])) = Err "table keeps being committed to".
Proof. vm_compute. reflexivity. Qed.

Lemma gc_answer : ∃ c, snd gc_run = Ok (c, [{| or_key := str_bytes "t/data/stray.parquet"; or_bytes := 10 |}]).
Proof. eexists. vm_compute. reflexivity. Qed.
Lemma remove_orphans_safe_witness : ∃ c, safe_run 4242 24 true false (gc_start [false; true; true]) (fst gc_run) (Ok (c, [{| or_key := str_bytes "t/data/stray.parquet"; or_bytes := 10 |}])).
Proof.
  destruct gc_answer as [c Hc]. exists c. apply (remove_orphans_safe 4242 (str_bytes "db.t")). rewrite <-Hc. apply surjective_pairing.
Defined.
