(* ===== verification/ScenariosAsOf.v ===== *)
(** * AS OF on concrete statements

    A tokenizer for ASCII text, a catalog of two tables, and the rewriting of
    statements with and without the sugar. *)
From stdpp Require Import sorting.
From S2P Require Import Prelude Text TailNames Keyed AsOf AsOfRewrite.
#[local] Open Scope N_scope.

(** ** A tokenizer *)
Definition is_digit (c : byte) : bool := let n := Byte.to_N c in (48 <=? n) && (n <=? 57).
Fixpoint span_len (p : byte → bool) (l : list byte) : nat := match l with c :: l => if p c then S (span_len p l) else 0%nat | [] => 0%nat end.
(** The length of the first token. *)
Definition piece_len (l : list byte) : nat :=
  match l with
  | [] => 0%nat
  | c :: rest =>
    if is_digit c then span_len is_digit l
    else if is_word c then span_len is_word l
    else if is_ascii_whitespace c then span_len is_ascii_whitespace l
    else if bool_decide (c = QUOTE) then (2 + span_len (λ c, negb (bool_decide (c = QUOTE))) rest)%nat
    else 1%nat
  end.
Fixpoint pieces (fuel : nat) (l : list byte) : list (list byte) :=
  match fuel, l with
  | S fuel, _ :: _ => let n := Nat.max 1 (piece_len l) in take n l :: pieces fuel (drop n l)
  | _, _ => []
  end.
Definition ascii_keyword (s : list byte) : Keyword :=
  let named k := eq_ignore_ascii_case s (str_bytes k) in
  if named "as" then KAs else if named "of" then KOf else if named "timestamp" then KTimestamp else if named "from" then KFrom
  else if named "join" then KJoin else if named "select" || named "where" then KOther else KNoKeyword.
Definition classify (s : list byte) : Token :=
  match s with
  | [] => TOther
  | c :: rest =>
    if is_digit c then TNumber s
    else if is_word c then TWord {| w_value := s; w_quoted := false; w_keyword := ascii_keyword s |}
    else if is_ascii_whitespace c then TWhitespace
    else if bool_decide (c = QUOTE) then TSingleQuoted (removelast rest)
    else if bool_decide (c = Byte.x2e) then TPeriod
    else if bool_decide (c = Byte.x2c) then TComma
    else TOther
  end.
Fixpoint with_locations (at_ : Location) (texts : list (list byte)) : list TokenWithSpan :=
  match texts with
  | [] => []
  | t :: texts => {| token := classify t; span_start := at_ |} :: with_locations (loc_from at_ t) texts
  end.
Definition ascii (l : list byte) : bool := forallb (λ c, Byte.to_N c <? 128) l.
Definition texts (sql : list byte) : list (list byte) := pieces (length sql) sql.
Definition ascii_tokens (sql : list byte) : option (list TokenWithSpan) := if ascii sql then Some (with_locations origin (texts sql)) else None.

Lemma pieces_concat fuel l : (length l <= fuel)%nat → concat (pieces fuel l) = l.
Proof.
  revert l. induction fuel as [|fuel IH]; intros [|c l] Hl; cbn in Hl; [done|lia|done|]. cbn [pieces concat]. rewrite IH; [by rewrite take_drop|].
  rewrite length_drop. cbn [length]. lia.
Qed.
Lemma with_locations_lookup texts at_ i t :
  with_locations at_ texts !! i = Some t → span_start t = loc_from at_ (concat (take i texts)).
Proof.
  revert at_ i. induction texts as [|x texts IH]; intros at_ [|i]; cbn; [done|done|by intros [= <-]|]. intros ->%IH. unfold loc_from. by rewrite foldl_app.
Qed.

(** ** A catalog *)
Definition events : AsOfTable := {| history := [(1000, 11); (2000, 12); (5000, 13)]%Z; snapshots := [11; 12; 13]%Z |}.
Definition users : AsOfTable := {| history := [(1500, 42)]%Z; snapshots := [42]%Z |}.
Definition catalog_tables (t : TableIdent) : result AsOfTable :=
  if bool_decide (t = ident_of None (str_bytes "events")) then Ok events
  else if bool_decide (t = ident_of (Some (str_bytes "crm")) (str_bytes "users")) then Ok users else Err "no such table".
#[local] Instance asof_lib : AsOfLib unit := {
  tokenize_with_location := ascii_tokens;
  to_lowercase := map ascii_lower;
  cast_timestamp l := if bool_decide (l = str_bytes "1970-01-01 00:00:03") then Some 3000000%Z else None;
  load_as_of t w := (w, catalog_tables t);
}.
#[local] Program Instance asof_laws : AsOfLaws unit := { texts_of := texts }.
Next Obligation.
  intros sql tokens. cbn. unfold ascii_tokens. destruct (ascii sql) eqn:Ha; [|done]. intros [= <-].
  assert (concat (texts sql) = sql) as Hc by (by apply pieces_concat). split_and!; [|done|].
  - clear. generalize origin, (texts sql). intros at_ l. revert at_. induction l as [|x l IH]; intros at_; cbn; [done|]. by rewrite <-IH.
  - intros i t Ht. split; [by apply with_locations_lookup|]. rewrite <-Hc, <-(take_drop i (texts sql)), concat_app in Ha. unfold ascii in Ha. rewrite forallb_app in Ha.
    apply andb_true_iff in Ha as [_ Ha]. destruct (concat (drop i (texts sql))) as [|c l]; [done|]. cbn in Ha |- *. apply andb_true_iff in Ha as [Hc' _].
    unfold continuation. apply N.ltb_lt in Hc'. destruct (N.leb_spec 128 (Byte.to_N c)); [lia|done].
Qed.

(** ** Statements *)
Definition statement : list byte := str_bytes "SELECT x AS of FROM Events AS OF TIMESTAMP '1970-01-01 00:00:03' e, crm.users as of 42 WHERE y".
Definition rewriting := rewrite_as_of (W:=unit) statement tt.
Definition rewritten : list byte :=
  str_bytes "SELECT x AS of FROM " ++ quote_ident (str_bytes "events@12") ++ str_bytes "  e, " ++
  quote_ident (str_bytes "crm") ++ str_bytes "." ++ quote_ident (str_bytes "users@42") ++ str_bytes "  WHERE y".
Lemma rewriting_is : snd rewriting = Ok (Some rewritten).
Proof. vm_compute. reflexivity. Qed.
(** An alias named of is left alone; a comment between the words hides the sugar
    from the gate. *)
Example alias_untouched : snd (rewrite_as_of (W:=unit) (str_bytes "SELECT x AS of FROM t") tt) = Ok None.
Proof. vm_compute. reflexivity. Qed.
Example before_history : is_ok (snapshot_at (history users) (λ _, true) 1499) = false ∧ snapshot_at (history users) (λ _, true) 1500 = Ok 42%Z.
Proof. split; vm_compute; reflexivity. Qed.
Example three_part_name : is_ok (snd (rewrite_as_of (W:=unit) (str_bytes "SELECT 1 FROM a.b.c AS OF 42") tt)) = false.
Proof. vm_compute. reflexivity. Qed.

Definition statement_tokens : list TokenWithSpan := default [] (ascii_tokens statement).
Lemma tokens_are : tokenize_with_location (W:=unit) statement = Some statement_tokens.
Proof. vm_compute. reflexivity. Qed.
Lemma gate_open : might_contain_as_of statement = true.
Proof. vm_compute. reflexivity. Qed.
Lemma rewriting_run : rewrite_as_of (W:=unit) statement tt = (fst rewriting, Ok (Some rewritten)).
Proof. exact (run_pair rewriting _ rewriting_is). Qed.
#[local] Opaque rewriting rewritten statement statement_tokens.
